(* ===== verification/_CoqProject ===== *)
-Q . S2P
Prelude.v
Text.v
Loops.v
OrdMaps.v
Lsns.v
Keys.v
KeysFacts.v
Shards.v
KeySpaces.v
KeySpaceFacts.v
PartitionFacts.v
VecMaps.v
LayerCoverage.v
HistoricCoverage.v
LayerMaps.v
LayerMapUpdates.v
LayerMapFacts.v
LayerSearch.v
RangeSearchFacts.v
FileBytes.v
BufferedWriters.v
BufferedWriterFacts.v
EphemeralFacts.v
DioReads.v
DioFacts.v
Membership.v
TermHistories.v
Consensus.v
Feedbacks.v
DiskBtrees.v
BtreeFacts.v
BtreeBuild.v
BtreeRead.v
BtreeRuns.v
Blobs.v
BlobFacts.v
VectoredBlobs.v
VectoredBlobFacts.v
WalRedos.v
ReadPaths.v
ReadFringe.v
WalRedoFacts.v
GcCompactions.v
GcFacts.v
GcSafety.v
ReadHistories.v
ReadStates.v
ReadVersions.v
ReadTraversal.v
ReadChains.v
ReadSafety.v
ReadRuns.v
LayerReads.v
DeltaLayers.v
DeltaFacts.v
DeltaReadFacts.v
WalDecoders.v
SkStates.v
WalStorages.v
WalEndFacts.v
WalStorageFacts.v
WalDiskFacts.v
WalStorageSafety.v
SafeKeepers.v
Timelines.v
SafeKeeperFacts.v
TimelineFacts.v
SafeKeeperRuns.v
WalProposers.v
Wires.v
WireFacts.v
WireErrors.v
ProposerInv.v
ProposerElection.v
AcceptorRel.v
PhysicalLogs.v
Clusters.v
ClusterFacts.v
ClusterRuns.v
