(* ===== verification/Prelude.v ===== *)
(** * Phoenix (Neon storage with OrioleDB): verification of the storage core

    The repository separates the storage of PostgreSQL from its compute.  A compute
    sends its WAL through a proposer ([pgxn/neon/walproposer.c]) to a quorum of
    safekeepers ([safekeeper/src]), which agree on it and keep it on their disks.
    Pageservers ([pageserver/src]) decode the WAL into versions of pages, which are
    spread over shards by their keys, and keep them in layer files; the layer map of a
    timeline finds the layer that a read needs, and the B-tree inside of a layer file
    finds the page.

    ** How the code is modelled

    Definitions are shallow: a function of the source is a Rocq function of the same
    name.  Fallible code returns [result E A], with panics as an outcome of their own;
    methods that change their object are in the monad [M S E A] of states and results,
    which leaves the state behind on failure as the next call finds it.  Machine
    integers are [Z], with wrap-around written out where the source does not check;
    byte strings are lists of [Z].  Code that is not part of the sources is a class
    with its documented laws, and each class has an instance on which the theorems are
    evaluated.

    Loops run with [Loops.FUEL] = 2^64 steps, counted in binary.  Every loop that ends
    is shown to end within it ([Loops.run_total]): each one steps over keys, blocks,
    bytes or pages of which there are fewer than 2^64.  A loop that does not end is
    stated as such ([partition_zero_target_diverges]).  The loops over a key space take
    fuel from its length, those over bytes and chunks from their number, and the traversal of the layers by a read takes fuel as an
    argument, of which enough is shown to exist ([ReadTraversal.loop_ends]); running out
    of it is a panic, which the theorems exclude.

    ** Files and what they model

    Foundations:
    - [Prelude]: results, the state monad with its rules [wp] and [keeps], machine
      integers, list facts, tactics and hint databases;
    - [Text]: words, bytes and hexadecimal text; [Loops]: loops, binary search, stable
      sort; [OrdMaps]: [BTreeMap] and the [rpds] tree as an interface.

    Keys and shards:
    - [Lsns]: [libs/utils/src/lsn.rs], names of WAL files in
      [libs/postgres_ffi/src/xlog_utils.rs];
    - [Keys], [KeysFacts]: [libs/pageserver_api/src/key.rs], [reltag.rs];
    - [Shards]: [libs/utils/src/shard.rs], [libs/pageserver_api/src/shard.rs], and the
      checks of a request to split a shard in [pageserver/src/tenant/mgr.rs];
    - [KeySpaces], [KeySpaceFacts], [PartitionFacts]:
      [libs/pageserver_api/src/keyspace.rs].

    Pageserver:
    - [LayerCoverage], [HistoricCoverage]: the index of layers in
      [pageserver/src/tenant/layer_map/];
    - [LayerMaps], [LayerMapUpdates], [LayerMapFacts], [LayerSearch],
      [RangeSearchFacts]: [pageserver/src/tenant/layer_map.rs];
    - [DiskBtrees], [BtreeFacts], [BtreeBuild], [BtreeRead], [BtreeRuns]:
      [pageserver/src/tenant/disk_btree.rs] on the block buffer of [block_io.rs];
    - [FileBytes]: slices, files and their positioned reads and writes; [BufferedWriters],
      [BufferedWriterFacts], [EphemeralFacts]: the buffered writer in
      [pageserver/src/virtual_file/owned_buffers_io/write.rs] with its background task
      and the file of an in-memory layer in [tenant/ephemeral_file.rs]; [DioReads],
      [DioFacts]: [storage_layer/inmemory_layer/vectored_dio_read.rs]; [Blobs],
      [BlobFacts]: [tenant/blob_io.rs];
    - [VecMaps]: [libs/utils/src/vec_map.rs]; [VectoredBlobs], [VectoredBlobFacts]: the
      planners and the reader of [tenant/vectored_blob_io.rs]; [LayerReads]: the form of a
      layer file and the calls for the blobs of a read; [DeltaLayers], [DeltaFacts],
      [DeltaReadFacts]: writer, summary and reads of [storage_layer/delta_layer.rs];
    - [WalRedos], [WalRedoFacts]: values, redo and its manager in
      [pageserver/src/walredo.rs] and [walredo/apply_neon.rs], reconstruction of a value
      in [tenant/timeline.rs];
    - [GcCompactions], [GcFacts], [GcSafety]: what gc-compaction keeps of the
      history of a key, in [tenant/timeline/compaction.rs];
    - [ReadPaths]: a read, in [tenant/timeline.rs], [timeline/layer_manager.rs] and
      [storage_layer.rs]; [ReadFringe]: the layers to visit next; [ReadHistories],
      [ReadStates]: the values collected for a key against its history; [ReadVersions]:
      the versions of the layer map that a read may see; [ReadTraversal]: one timeline;
      [ReadChains]: its ancestors; [ReadSafety]: the reads; [ReadRuns]: evaluated reads.

    Safekeeper:
    - [Membership], [TermHistories], [Feedbacks], [SkStates]: configurations, term
      histories, feedback and the persistent state with its control file;
    - [WalDecoders]: the stream decoder of [libs/postgres_ffi];
    - [WalStorages], [WalEndFacts], [WalStorageFacts], [WalDiskFacts],
      [WalStorageSafety]: [safekeeper/src/wal_storage.rs] on a disk with writes, syncs,
      failures and crashes, and [find_end_of_wal];
    - [SafeKeepers], [SafeKeeperFacts], [SafeKeeperRuns]: the state machine of
      [safekeeper/src/safekeeper.rs], against the interfaces of its two storages;
    - [Timelines], [TimelineFacts]: [StateSK] and eviction in
      [safekeeper/src/timeline.rs].

    Proposer, protocol and cluster:
    - [WalProposers], [ProposerInv], [ProposerElection]: [pgxn/neon/walproposer.c];
    - [Wires], [WireFacts], [WireErrors]: the bytes of the messages, on both
      sides, in the versions 2 and 3;
    - [Consensus]: the protocol without messages; [AcceptorRel], [PhysicalLogs]: a
      safekeeper with its disk as an acceptor of it;
    - [Clusters], [ClusterFacts], [ClusterRuns]: proposers, safekeepers and connections
      as one transition system, the tasks of a connection in
      [safekeeper/src/receive_wal.rs] included, and its simulation by the protocol.

    ** What the theorems show

    - Cluster: at most one proposer is elected in a term; WAL that a proposer took for
      committed is in the history of every later proposer and on some safekeeper of
      every quorum; safekeepers agree below their commit positions; whatever messages
      are lost, repeated or reordered and whichever side crashes.
    - Safekeeper: one vote in a term, commits within the flushed WAL, writes only by the
      leader of the current term; the WAL storage of old and new timelines never panics
      and keeps, from the start of its WAL, what is flushed durable, whichever system
      calls fail; it is found again after a restart; eviction and loading keep the state.
    - Wire protocol: what one side writes the other reads back; messages that are cut
      off are errors (version 3); the parser panics exactly on greetings of version 3 that
      are readable but give an unknown server version.
    - Layer map: the index is that of the current layers, a search misses no data, and a
      search over a range agrees with the searches at its keys.
    - Reads: a vectored read and a read of one page end, return the values that the
      histories of the keys have at the LSN, through the ancestors of the timeline, and
      report as missing only keys without history, while layers are frozen, flushed and
      compacted during the read; two ways in which that fails are evaluated as remarks.
    - B-tree: building succeeds and what is read back, by visits in either direction, by
      lookups and by streams, is what was appended.
    - Files: what is written to an ephemeral file is what is read from it, wherever its
      background task is, until a flush is cancelled; a vectored direct read gives every
      request its bytes, or the error of the end of the file or of a failed read of chunks
      that it shares; blobs read back from the offsets at which they were written;
      a delta layer, written, finished and loaded, gives for a key space and a range of
      LSNs the versions that were put into it, from the last one on that initializes the
      page.
    - Redo and gc-compaction: splitting records into batches and repeating attempts does
      not change the page; compaction with garbage collection keeps every read at a
      retained LSN and from the horizon on, and it succeeds on a history that replays.
    - Keys, key spaces and shards: round trips and orders of the encodings, no two
      objects share a key, every key has one owner, which after a split is a child of the
      owner before for all keys exactly if the new count is a multiple of the old one, and
      the set operations and the partitioning of key spaces compute what they stand for.
      The padding to a chunk of WAL is right exactly for sizes that divide 2^64 (or in the
      first chunk).

    ** Bounds and assumptions

    - The cluster identifies the bytes of WAL by the term that wrote them: a proposer
      sends at an LSN one value per term.  A safekeeper that starts again finds, as the
      end of its WAL, the end of what was flushed ([PhysicalLogs.reopened];
      [find_end_of_wal_correct] is the search on a complete log).
    - A read of one LSN is correct when image layers are not added or removed during it
      ([image_added_during_read] shows why), delta and in-memory layers of each version of
      the layer map hold the whole history between the images, and the ranges of the query
      do not straddle two relation forks at their last block ([ReadTraversal.sized]).
      What a layer gives for a range of keys and LSNs is an interface ([LayerAccess]).
    - A visit of a B-tree is shown to end for fewer than 2^50 pairs in at most 2^32
      blocks, the numbers of which are [u32]; keys have at most 255 bytes, the length
      that a page can store.
    - The background task of a buffered writer may have written any part of its request at
      the time of a read; a write that fails is retried until it succeeds or the task is
      cancelled.  Blobs have at most 2^28 - 1 bytes, the length that a header can store,
      and compression is an interface with its round trip as law ([Zstd]).
    - Writes to layer files succeed and the blocks of an index are readable, while reads of
      values may fail; a delta layer holds at least one value, values are below the offset
      2^38 (the upload limit is lower), and every key has a next one.  That a value is
      decoded from the bytes it is encoded to is a hypothesis on the values that are
      written ([DeltaReadFacts.versions_ok]).
    - Segment files of WAL have their whole size, and a system call that fails has no
      effect except for a write ([WalStorages]); memory is not limited.
    - Asynchronous functions run without interleaving where they hold the lock of their
      state; the steps of the cluster interleave arbitrarily.

    ** Not modelled

    - Sockets, tasks, timers, metrics, logging, HTTP and database access, and the object
      store: the manifest lists the files.
    - Image layers, in-memory layers and the iterators over layers; the names of layer
      files, the page cache, and copying a prefix of a delta layer.
    - The decoding of WAL records into updates of pages, whose structs are generated
      from the headers of PostgreSQL, a git submodule; the redo process, a PostgreSQL
      server, is a parameter that applies one record after the other.
    - The proxy, compute tools and the other extensions of PostgreSQL, which are glue
      around third-party services and server internals. *)

From stdpp Require Export base numbers list list_numbers sorting option strings.
From Stdlib Require Export ZArith Lia.

#[global] Open Scope Z_scope.

Declare Scope phx_scope.
Delimit Scope phx_scope with phx.

(** * Results and the state monad of the handlers

    [Result<A, E>] of the source, with the panics ([assert!], [unwrap],
    arithmetic that is checked) as a third outcome of their own, because a
    panic is neither a value nor an error the caller can observe. *)

Inductive result (E A : Type) : Type :=
  | Ok (a : A)
  | Err (e : E)
  | Panic.
Arguments Ok {_ _} _.
Arguments Err {_ _} _.
Arguments Panic {_ _}.

#[global] Instance result_eq_dec {E A} `{EqDecision E, EqDecision A} : EqDecision (result E A).
Proof. solve_decision. Defined.

#[global] Instance result_ret {E} : MRet (result E) := λ A a, Ok a.
#[global] Instance result_bind {E} : MBind (result E) := λ A B f m,
  match m with Ok a => f a | Err e => Err e | Panic => Panic end.

Definition is_ok {E A} (r : result E A) : bool :=
  match r with Ok _ => true | _ => false end.

Definition is_panic {E A} (r : result E A) : bool :=
  match r with Panic => true | _ => false end.

Definition of_option {E A} (e : E) (o : option A) : result E A :=
  match o with Some a => Ok a | None => Err e end.

Definition map_err {E F A} (f : E → F) (r : result E A) : result F A :=
  match r with Ok a => Ok a | Err e => Err (f e) | Panic => Panic end.

(** A method with [&mut self]: the state it leaves behind is observable also
    when the method fails half way, so the state is returned on every branch. *)
Definition M (S E A : Type) : Type := S → result E A * S.

#[global] Instance M_ret {S E} : MRet (M S E) := λ A a s, (Ok a, s).
#[global] Instance M_bind {S E} : MBind (M S E) := λ A B f m s,
  match m s with
  | (Ok a, s') => f a s'
  | (Err e, s') => (Err e, s')
  | (Panic, s') => (Panic, s')
  end.

Definition getS {S E} : M S E S := λ s, (Ok s, s).
Definition modifyS {S E} (f : S → S) : M S E unit := λ s, (Ok tt, f s).
Definition bail {S E A} (e : E) : M S E A := λ s, (Err e, s).
Definition liftR {S E A} (r : result E A) : M S E A := λ s, (r, s).
(** [if !c { bail!(e) }] *)
Definition ensure {S E} (c : bool) (e : E) : M S E unit :=
  if c then mret tt else bail e.
(** [assert!(c)] *)
Definition assertM {S E} (c : bool) : M S E unit :=
  if c then mret tt else λ s, (Panic, s).
Definition whenM {S E} (c : bool) (m : M S E unit) : M S E unit :=
  if c then m else mret tt.

Section monad_laws.
Context {S E : Type}.

Lemma M_bind_ok {A B} (m : M S E A) (f : A → M S E B) s a s' :
  m s = (Ok a, s') → (m ≫= f) s = f a s'.
Proof. intros H. unfold mbind, M_bind. by rewrite H. Qed.

Lemma M_bind_inv {A B} (m : M S E A) (f : A → M S E B) s b s' :
  (m ≫= f) s = (Ok b, s') →
  ∃ a s1, m s = (Ok a, s1) ∧ f a s1 = (Ok b, s').
Proof.
  unfold mbind, M_bind. destruct (m s) as [[a|e|] s1] eqn:Hm; naive_solver.
Qed.

(** A property of the state is kept by a sequence when both parts keep it,
    whatever the outcome. *)
Lemma M_bind_preserves {A B} (P : S → Prop) (m : M S E A) (f : A → M S E B) s :
  P (m s).2 →
  (∀ a s1, m s = (Ok a, s1) → P (f a s1).2) →
  P ((m ≫= f) s).2.
Proof.
  unfold mbind, M_bind. intros H1 H2.
  destruct (m s) as [[a|e|] s1]; simpl in *; eauto.
Qed.
End monad_laws.

(** Weakest preconditions of methods: [Q] holds of the outcome and of the state
    that is left. *)
Section wp.
Context {S E : Type}.

Definition wp {A} (m : M S E A) (Q : result E A → S → Prop) (s : S) : Prop := Q (m s).1 (m s).2.

(** What follows a step: the continuation, or the failure as it is. *)
Definition wp_next {A B} (f : A → M S E B) (Q : result E B → S → Prop) (r : result E A) (s : S) : Prop :=
  match r with Ok a => wp (f a) Q s | Err e => Q (Err e) s | Panic => Q Panic s end.

Lemma wp_bind {A B} (m : M S E A) (f : A → M S E B) Q s :
  wp m (wp_next f Q) s → wp (m ≫= f) Q s.
Proof. unfold wp, wp_next, mbind, M_bind. by destruct (m s) as [[a|e|] s']. Qed.

Lemma wp_mono {A} (m : M S E A) (Q Q' : result E A → S → Prop) s :
  wp m Q s → (∀ r s', Q r s' → Q' r s') → wp m Q' s.
Proof. unfold wp. auto. Qed.

Lemma wp_when (c : bool) (m : M S E unit) (Q : result E unit → S → Prop) s :
  (c = true → wp m Q s) → (c = false → Q (Ok tt) s) → wp (whenM c m) Q s.
Proof. destruct c; unfold wp; simpl; auto. Qed.

(** Methods that leave a view of the state alone. *)
Definition keeps {V A} (view : S → V) (m : M S E A) : Prop := ∀ s, view (m s).2 = view s.

Lemma keeps_bind {V A B} (view : S → V) (m : M S E A) (f : A → M S E B) :
  keeps view m → (∀ a, keeps view (f a)) → keeps view (m ≫= f).
Proof.
  intros Hm Hf s. specialize (Hm s). unfold mbind, M_bind.
  destruct (m s) as [[a|e|] s']; simpl in *; [by rewrite Hf|done..].
Qed.

Lemma keeps_ret {V A} (view : S → V) (a : A) : keeps view (mret a).
Proof. done. Qed.
Lemma keeps_get {V} (view : S → V) : keeps view getS.
Proof. done. Qed.
Lemma keeps_bail {V A} (view : S → V) (e : E) : keeps (A := A) view (bail e).
Proof. done. Qed.
Lemma keeps_lift {V A} (view : S → V) (r : result E A) : keeps view (liftR r).
Proof. done. Qed.
Lemma keeps_assert {V} (view : S → V) c : keeps view (assertM c).
Proof. by destruct c. Qed.
Lemma keeps_when {V} (view : S → V) c (m : M S E unit) : keeps view m → keeps view (whenM c m).
Proof. by destruct c. Qed.
Lemma keeps_modify {V} (view : S → V) f : (∀ s, view (f s) = view s) → keeps view (modifyS f).
Proof. intros Hf s. apply Hf. Qed.
End wp.

Create HintDb keeps.
#[export] Hint Resolve keeps_bind keeps_ret keeps_get keeps_bail keeps_lift keeps_assert keeps_when keeps_modify : keeps.

(** * Half-open ranges, [std::ops::Range] *)

Record Range (A : Type) : Type := mkRange { r_start : A; r_end : A }.
Arguments mkRange {_} _ _.
Arguments r_start {_} _.
Arguments r_end {_} _.

#[global] Instance Range_eq_dec {A} `{EqDecision A} : EqDecision (Range A).
Proof. solve_decision. Defined.

(** * Machine integers *)

Definition in_u (w z : Z) : Prop := 0 ≤ z < 2 ^ w.
Definition in_ub (w z : Z) : bool := (0 <=? z) && (z <? 2 ^ w).

Abbreviation u8 := (in_u 8).
Abbreviation u16 := (in_u 16).
Abbreviation u32 := (in_u 32).
Abbreviation u64 := (in_u 64).

Definition wrap (w z : Z) : Z := z mod 2 ^ w.
Definition wrapping_add (w a b : Z) : Z := wrap w (a + b).
Definition wrapping_sub (w a b : Z) : Z := wrap w (a - b).
Definition wrapping_mul (w a b : Z) : Z := wrap w (a * b).
Definition overflowing_add (w a b : Z) : Z * bool := (wrap w (a + b), 2 ^ w <=? a + b).
Definition checked_add (w a b : Z) : option Z :=
  if a + b <? 2 ^ w then Some (a + b) else None.
Definition checked_sub (a b : Z) : option Z :=
  if b <=? a then Some (a - b) else None.
Definition saturating_sub (a b : Z) : Z := Z.max 0 (a - b).

#[global] Instance in_u_dec w z : Decision (in_u w z).
Proof. unfold in_u. apply _. Defined.

Lemma in_ub_spec w z : in_ub w z = true ↔ in_u w z.
Proof. unfold in_ub, in_u. rewrite andb_true_iff, Z.leb_le, Z.ltb_lt. done. Qed.

Lemma wrap_range w z : 0 ≤ w → in_u w (wrap w z).
Proof. intros ?. apply Z.mod_pos_bound. lia. Qed.

Lemma wrap_small w z : in_u w z → wrap w z = z.
Proof. apply Z.mod_small. Qed.

Lemma in_u_0 w : 0 ≤ w → in_u w 0.
Proof. unfold in_u. lia. Qed.

(** A test that holds on a whole machine range, by evaluation. *)
Lemma forallb_seqZ (f : Z → bool) n z :
  forallb f (seqZ 0 n) = true → 0 ≤ z < n → f z = true.
Proof.
  rewrite forallb_forall. intros H Hz. apply H, list_elem_of_In, elem_of_seqZ. lia.
Qed.

Lemma StronglySorted_lookup {A} (R : A → A → Prop) l i j a b :
  StronglySorted R l → (i < j)%nat → l !! i = Some a → l !! j = Some b → R a b.
Proof.
  intros Hs. revert i j. induction Hs as [|x l _ IH Hx]; intros i j Hij; [done|].
  destruct j as [|j]; [lia|]. destruct i as [|i]; simpl.
  - intros [= ->] Hb. by eapply Forall_lookup_1 in Hx.
  - apply IH. lia.
Qed.

(** For a symmetric relation the order of the elements does not matter. *)
Lemma StronglySorted_perm {A} (R : A → A → Prop) l l' :
  (∀ a b, R a b → R b a) → l ≡ₚ l' → StronglySorted R l → StronglySorted R l'.
Proof.
  intros Hsym Hp. induction Hp as [|x l l' Hp IH|x y l|l1 l2 l3 _ IH1 _ IH2]; auto.
  - rewrite !StronglySorted_cons. intros [Hx Hl]. split; [by rewrite <- Hp|auto].
  - rewrite !StronglySorted_cons, !Forall_cons. intuition auto.
Qed.

Lemma filter_ext_in {A} (P Q : A → Prop) `{!∀ x, Decision (P x), !∀ x, Decision (Q x)} (l : list A) :
  (∀ x, x ∈ l → P x ↔ Q x) → filter P l = filter Q l.
Proof.
  induction l as [|a l IH]; intros HPQ; [done|]. rewrite !filter_cons, IH by (intros; apply HPQ; by constructor).
  specialize (HPQ a ltac:(constructor)). do 2 case_decide; tauto.
Qed.

Lemma filter_true {A} (f : A → bool) (l : list A) : (∀ x, x ∈ l → f x = true) → List.filter f l = l.
Proof.
  induction l as [|x l IH]; intros Hf; [done|]. simpl. rewrite (Hf x) by constructor.
  f_equal. apply IH. intros y Hy. apply Hf. by constructor.
Qed.

Lemma filter_false {A} (f : A → bool) (l : list A) : (∀ x, x ∈ l → f x = false) → List.filter f l = [].
Proof.
  induction l as [|x l IH]; intros Hf; [done|]. simpl. rewrite (Hf x) by constructor.
  apply IH. intros y Hy. apply Hf. by constructor.
Qed.

Lemma filter_all {A} (P : A → Prop) `{!∀ x, Decision (P x)} (l : list A) :
  Forall P l → filter P l = l.
Proof. induction 1 as [|x l Hx _ IH]; [done|]. rewrite filter_cons_True by done. by f_equal. Qed.

Lemma filter_none {A} (P : A → Prop) `{!∀ x, Decision (P x)} (l : list A) :
  Forall (λ x, ¬ P x) l → filter P l = [].
Proof. induction 1 as [|x l Hx _ IH]; [done|]. by rewrite filter_cons_False. Qed.

Lemma StronglySorted_filter {A} (R : A → A → Prop) (P : A → Prop) `{!∀ x, Decision (P x)} l :
  StronglySorted R l → StronglySorted R (filter P l).
Proof.
  induction 1 as [|x l _ IH Hx]; [constructor|]. rewrite filter_cons. case_decide; [|done].
  constructor; [done|]. rewrite Forall_forall in *. intros y [_ Hy]%list_elem_of_filter. by apply Hx.
Qed.

(** Reduces comparisons, boolean connectives and width predicates in the
    whole context to linear facts. *)
Ltac zbool :=
  repeat match goal with
  | H : andb _ _ = true |- _ => apply andb_true_iff in H; destruct H
  | H : andb _ _ = false |- _ => apply andb_false_iff in H
  | H : orb _ _ = true |- _ => apply orb_true_iff in H
  | H : orb _ _ = false |- _ => apply orb_false_iff in H; destruct H
  | H : negb _ = true |- _ => apply negb_true_iff in H
  | H : negb _ = false |- _ => apply negb_false_iff in H
  | H : (_ <=? _) = true |- _ => apply Z.leb_le in H
  | H : (_ <=? _) = false |- _ => apply Z.leb_gt in H
  | H : (_ <? _) = true |- _ => apply Z.ltb_lt in H
  | H : (_ <? _) = false |- _ => apply Z.ltb_ge in H
  | H : (_ =? _) = true |- _ => apply Z.eqb_eq in H
  | H : (_ =? _) = false |- _ => apply Z.eqb_neq in H
  | H : bool_decide _ = true |- _ => apply bool_decide_eq_true in H
  | H : bool_decide _ = false |- _ => apply bool_decide_eq_false in H
  end.

(** Case split on one boolean test of the goal or the context. *)
Ltac zcase :=
  match goal with
  | |- context [if ?b then _ else _] => destruct b eqn:?
  | H : context [if ?b then _ else _] |- _ => destruct b eqn:?
  end; zbool.

Create HintDb phx.
#[export] Hint Resolve wrap_range in_u_0 : phx.
