(* ===== verification/Text.v ===== *)
(** Bytes, big-endian words and hexadecimal text.

    What the sources use of the language and its standard library when they
    read and write words and hexadecimal numbers: [to_be_bytes],
    [from_be_bytes], the formats [{:X}], [{:0nX}] and [{:0nx}], and
    [uN::from_str_radix(s, 16)].  A string is the list of its bytes, each a
    [Z] in [0, 256). *)

From S2P Require Import Prelude.
From Stdlib Require Import Ascii String.
From stdpp Require Import strings.

Local Open Scope Z_scope.

Abbreviation bytes := (list Z).

Definition bytes_of_string (s : string) : bytes :=
  (λ a, Z.of_N (N_of_ascii a)) <$> list_ascii_of_string s.

(** * Fixed width words, most significant byte first *)

Fixpoint be_bytes (n : nat) (z : Z) : bytes :=
  match n with
  | O => []
  | S m => (z / 2 ^ (8 * Z.of_nat m)) mod 256 :: be_bytes m z
  end.

Definition be_val (l : bytes) : Z := foldl (λ acc b, acc * 256 + b) 0 l.

Lemma length_be_bytes n z : length (be_bytes n z) = n.
Proof. induction n; simpl; congruence. Qed.

Lemma be_bytes_u8 n z : Forall u8 (be_bytes n z).
Proof.
  induction n; simpl; constructor; [|done].
  apply (Z.mod_pos_bound _ 256). lia.
Qed.

Lemma foldl_be_bytes n z acc :
  foldl (λ acc b, acc * 256 + b) acc (be_bytes n z) =
  acc * 2 ^ (8 * Z.of_nat n) + z mod 2 ^ (8 * Z.of_nat n).
Proof.
  revert acc. induction n as [|n IH]; intros acc; cbn [be_bytes foldl].
  - change (2 ^ (8 * Z.of_nat 0)) with 1. rewrite Z.mod_1_r. lia.
  - rewrite IH, Nat2Z.inj_succ.
    replace (8 * Z.succ (Z.of_nat n)) with (8 * Z.of_nat n + 8) by lia.
    rewrite Z.pow_add_r by lia. change (2 ^ 8) with 256.
    rewrite Z.rem_mul_r by lia. ring.
Qed.

Lemma be_val_be_bytes n z :
  in_u (8 * Z.of_nat n) z → be_val (be_bytes n z) = z.
Proof.
  intros Hz. unfold be_val. rewrite foldl_be_bytes, Z.mod_small by done. lia.
Qed.

Lemma foldl_be_val_split l acc :
  foldl (λ acc b, acc * 256 + b) acc l = acc * 256 ^ Z.of_nat (length l) + be_val l.
Proof.
  unfold be_val. revert acc. induction l as [|b l IH]; intros acc; cbn [foldl length].
  - change (256 ^ Z.of_nat 0) with 1. lia.
  - rewrite IH, (IH (0 * 256 + b)), Nat2Z.inj_succ, Z.pow_succ_r by lia. ring.
Qed.

Lemma be_val_cons b l :
  be_val (b :: l) = b * 256 ^ Z.of_nat (length l) + be_val l.
Proof. apply (foldl_be_val_split l (0 * 256 + b)). Qed.

Lemma be_val_app l1 l2 :
  be_val (l1 ++ l2) = be_val l1 * 256 ^ Z.of_nat (length l2) + be_val l2.
Proof.
  induction l1 as [|b l1 IH]; [done|]. cbn [app].
  rewrite !be_val_cons, IH, length_app, Nat2Z.inj_add, Z.pow_add_r by lia. ring.
Qed.

Lemma be_val_bound l :
  Forall u8 l → 0 ≤ be_val l < 256 ^ Z.of_nat (length l).
Proof.
  induction 1 as [|b l Hb _ IH]; [by cbv|].
  rewrite be_val_cons. cbn [length]. rewrite Nat2Z.inj_succ, Z.pow_succ_r by lia.
  unfold in_u in Hb. change (2 ^ 8) with 256 in Hb. nia.
Qed.

(** * Hexadecimal text *)

Definition hex_digit (upper : bool) (d : Z) : Z :=
  if d <? 10 then 48 + d else (if upper then 55 else 87) + d.

(** [char::to_digit(16)]: both cases are read. *)
Definition of_hex_digit (c : Z) : option Z :=
  if (48 <=? c) && (c <=? 57) then Some (c - 48)
  else if (65 <=? c) && (c <=? 70) then Some (c - 55)
  else if (97 <=? c) && (c <=? 102) then Some (c - 87)
  else None.

(** The digits of a number, most significant first, with no leading zero.
    32 steps are enough for every 128-bit number. *)
Fixpoint digits16 (fuel : nat) (z : Z) : list Z :=
  match fuel with
  | O => [z mod 16]
  | S f => if z <? 16 then [z] else digits16 f (z / 16) ++ [z mod 16]
  end.

(** [{:X}] (upper) and [{:x}]. *)
Definition fmt_hex (upper : bool) (z : Z) : bytes :=
  hex_digit upper <$> digits16 32 z.

(** [{:0nX}] and [{:0nx}]: padded on the left with zeros. *)
Definition fmt_hex_pad (upper : bool) (n : nat) (z : Z) : bytes :=
  let d := fmt_hex upper z in replicate (n - length d) 48 ++ d.

(** [uW::from_str_radix(s, 16)]: a leading [+] is skipped, an empty digit
    string, any other character and a value of [w] bits or more are errors. *)
Fixpoint parse_digits (w acc : Z) (s : bytes) : option Z :=
  match s with
  | [] => Some acc
  | c :: s' =>
      d ← of_hex_digit c;
      if acc * 16 + d <? 2 ^ w then parse_digits w (acc * 16 + d) s' else None
  end.

Definition from_str_radix16 (w : Z) (s : bytes) : option Z :=
  match s with
  | [] => None
  | [43] => None
  | [45] => None
  | 43 :: s' => parse_digits w 0 s'
  | _ => parse_digits w 0 s
  end.

Lemma of_hex_digit_digit upper d :
  0 ≤ d < 16 → of_hex_digit (hex_digit upper d) = Some d.
Proof.
  intros Hd. unfold of_hex_digit, hex_digit.
  destruct upper; repeat case_match; first [f_equal; lia | lia].
Qed.

Lemma hex_digit_not_plus upper d : 0 ≤ d < 16 → hex_digit upper d ≠ 43 ∧ hex_digit upper d ≠ 45.
Proof. unfold hex_digit. intros. destruct upper; case_match; lia. Qed.

Lemma digits16_range fuel z : 0 ≤ z → Forall (λ d, 0 ≤ d < 16) (digits16 fuel z).
Proof.
  revert z. induction fuel as [|f IH]; intros z Hz; simpl.
  - repeat constructor; apply Z.mod_pos_bound; lia.
  - zcase; [repeat constructor; lia|]. apply Forall_app. split.
    + apply IH, Z.div_pos; lia.
    + repeat constructor; apply Z.mod_pos_bound; lia.
Qed.

Lemma digits16_nonempty fuel z : digits16 fuel z ≠ [].
Proof. destruct fuel; simpl; [done|]. zcase; [done|]. by destruct (digits16 fuel (z / 16)). Qed.

Lemma length_digits16 fuel z n :
  0 ≤ z < 16 ^ Z.of_nat (S n) → (length (digits16 fuel z) ≤ S n)%nat.
Proof.
  revert z n. induction fuel as [|f IH]; intros z n Hz; simpl; [lia|].
  zcase; simpl; [lia|]. rewrite length_app. simpl.
  destruct n as [|n]; [change (16 ^ Z.of_nat 1) with 16 in Hz; lia|].
  enough (length (digits16 f (z / 16)) ≤ S n)%nat by lia.
  apply IH. rewrite (Nat2Z.inj_succ (S n)), Z.pow_succ_r in Hz by lia.
  split; [apply Z.div_pos; lia|]. apply Z.div_lt_upper_bound; lia.
Qed.

Lemma parse_digits_app w acc s1 s2 :
  parse_digits w acc (s1 ++ s2) = parse_digits w acc s1 ≫= λ a, parse_digits w a s2.
Proof.
  revert acc. induction s1 as [|c s1 IH]; intros acc; simpl; [done|].
  destruct (of_hex_digit c) as [d|]; simpl; [|done]. by destruct (_ <? _).
Qed.

Lemma parse_digits16 w upper fuel z :
  0 ≤ z < 2 ^ w → z < 16 ^ Z.of_nat (S fuel) →
  parse_digits w 0 (hex_digit upper <$> digits16 fuel z) = Some z.
Proof.
  revert z. induction fuel as [|f IH]; intros z Hz Hf.
  - change (16 ^ Z.of_nat 1) with 16 in Hf. simpl.
    rewrite Z.mod_small, of_hex_digit_digit by lia. simpl.
    rewrite (proj2 (Z.ltb_lt _ _)) by lia. done.
  - cbn [digits16]. zcase.
    + simpl. rewrite of_hex_digit_digit by lia. simpl.
      rewrite (proj2 (Z.ltb_lt _ _)) by lia. done.
    + rewrite fmap_app, parse_digits_app.
      assert (z / 16 ≤ z) by (apply Z.div_le_upper_bound; lia).
      rewrite IH; [| split; [apply Z.div_pos|]; lia |].
      2:{ rewrite (Nat2Z.inj_succ (S f)), Z.pow_succ_r in Hf by lia.
          apply Z.div_lt_upper_bound; lia. }
      pose proof (Z.div_mod z 16 ltac:(lia)).
      pose proof (Z.mod_pos_bound z 16 ltac:(lia)).
      cbn [mbind option_bind fmap list_fmap parse_digits].
      rewrite of_hex_digit_digit by done. simpl.
      replace (z / 16 * 16 + z mod 16) with z by lia.
      by rewrite (proj2 (Z.ltb_lt _ _)) by lia.
Qed.

Lemma parse_digits_zeros w n s :
  0 < w → parse_digits w 0 (replicate n 48 ++ s) = parse_digits w 0 s.
Proof.
  intros Hw. induction n as [|n IH]; [done|]. cbn [replicate app parse_digits].
  change (of_hex_digit 48) with (Some 0). simpl.
  rewrite (proj2 (Z.ltb_lt _ _)) by lia. done.
Qed.

(** A digit string never looks signed, so the sign rules do not apply. *)
Lemma from_str_radix16_digits w c s :
  c ≠ 43 → c ≠ 45 → from_str_radix16 w (c :: s) = parse_digits w 0 (c :: s).
Proof.
  intros H1 H2. unfold from_str_radix16.
  repeat case_match; simplify_eq; done.
Qed.

Lemma fmt_hex_parse w upper z :
  0 < w ≤ 132 → in_u w z → from_str_radix16 w (fmt_hex upper z) = Some z.
Proof.
  intros Hw Hz. unfold fmt_hex.
  pose proof (digits16_range 32 z ltac:(apply Hz)) as Hr.
  assert (parse_digits w 0 (hex_digit upper <$> digits16 32 z) = Some z) as Hp.
  { apply parse_digits16; [done|].
    change (16 ^ Z.of_nat 33) with (2 ^ 132).
    assert (2 ^ w ≤ 2 ^ 132) by (apply Z.pow_le_mono_r; lia).
    unfold in_u in Hz. lia. }
  destruct (digits16 32 z) as [|d l] eqn:Hd; [by apply digits16_nonempty in Hd|].
  inversion_clear Hr. cbn [fmap list_fmap] in *.
  rewrite from_str_radix16_digits; [done|..]; by apply hex_digit_not_plus.
Qed.

Lemma fmt_hex_pad_parse w upper n z :
  0 < w ≤ 132 → in_u w z → from_str_radix16 w (fmt_hex_pad upper n z) = Some z.
Proof.
  intros Hw Hz. pose proof (fmt_hex_parse w upper z Hw Hz) as Hp.
  unfold fmt_hex_pad. destruct (n - length (fmt_hex upper z))%nat as [|k]; [done|].
  cbn [replicate app]. rewrite from_str_radix16_digits by done.
  change (48 :: replicate k 48 ++ fmt_hex upper z)
    with (replicate (S k) 48 ++ fmt_hex upper z).
  rewrite parse_digits_zeros by lia. revert Hp. unfold fmt_hex.
  pose proof (digits16_range 32 z ltac:(apply Hz)) as Hr.
  destruct (digits16 32 z) as [|d l] eqn:Hd; [by apply digits16_nonempty in Hd|].
  inversion_clear Hr. cbn [fmap list_fmap].
  rewrite from_str_radix16_digits; [done|..]; by apply hex_digit_not_plus.
Qed.

Lemma length_fmt_hex_pad upper n z :
  0 ≤ z < 16 ^ Z.of_nat (S n) → length (fmt_hex_pad upper (S n) z) = S n.
Proof.
  intros Hz. unfold fmt_hex_pad, fmt_hex.
  rewrite length_app, length_replicate, !length_fmap.
  pose proof (length_digits16 32 z n Hz). lia.
Qed.

(** * The order of byte strings, [Ord for [u8]]: lexicographic *)

Fixpoint bytes_cmp (a b : bytes) : comparison :=
  match a, b with
  | [], [] => Eq
  | [], _ :: _ => Lt
  | _ :: _, [] => Gt
  | x :: a', y :: b' => match x ?= y with Eq => bytes_cmp a' b' | c => c end
  end.

(** On strings of the same length it is the order of the big-endian values. *)
Lemma bytes_cmp_be_val a b :
  length a = length b → Forall u8 a → Forall u8 b →
  bytes_cmp a b = (be_val a ?= be_val b).
Proof.
  intros Hlen Ha. revert b Hlen.
  induction Ha as [|x a Hx Ha IH]; intros [|y b] Hlen Hb; simplify_eq/=; [done|].
  inversion_clear Hb. rewrite !be_val_cons, IH, Hlen by done.
  pose proof (be_val_bound a Ha) as Ba. rewrite Hlen in Ba.
  pose proof (be_val_bound b ltac:(done)) as Bb.
  destruct (Z.compare_spec x y) as [->|?|?]; symmetry.
  - apply Z.add_compare_mono_l.
  - apply Z.compare_lt_iff. nia.
  - apply Z.compare_gt_iff. nia.
Qed.
