(* ===== verification/Loops.v ===== *)
(** Loops, and the algorithms of the language's standard library that the
    sources call on slices.

    [run fuel step s] iterates [step] until it produces a result.  The fuel is a
    binary number, so that a bound such as 2^64 costs nothing: an iteration that
    ends early is evaluated only as far as it goes.  [run_total] is the rule all
    the loops below are proved with: an invariant, a measure that decreases, and
    a postcondition give a result within any fuel above the measure.

    [binary_search_by] is the loop of [slice::binary_search_by]; [sort_by_key]
    is the (unique) result of a stable sort. *)

From S2P Require Import Prelude.
Local Open Scope Z_scope.

Section run.
Context {S R : Type} (step : S → S + R).

Fixpoint run (fuel : positive) (s : S) : S + R :=
  match fuel with
  | xH => step s
  | xO p => match run p s with inl s' => run p s' | inr r => inr r end
  | xI p =>
      match step s with
      | inl s' => match run p s' with inl s'' => run p s'' | inr r => inr r end
      | inr r => inr r
      end
  end.

(** [n] steps, one after the other. *)
Fixpoint iter (n : nat) (s : S) : S + R :=
  match n with
  | O => inl s
  | Datatypes.S n => match step s with inl s' => iter n s' | inr r => inr r end
  end.

Lemma iter_add n m s :
  iter (n + m) s = match iter n s with inl s' => iter m s' | inr r => inr r end.
Proof.
  revert s. induction n as [|n IH]; intros s; [done|]. simpl.
  destruct (step s); [apply IH|done].
Qed.

Lemma run_iter p s : run p s = iter (Pos.to_nat p) s.
Proof.
  revert s. induction p as [p IH|p IH|]; intros s.
  - rewrite Pos2Nat.inj_xI. simpl. destruct (step s) as [s1|]; [|done].
    rewrite IH. replace (Pos.to_nat p + (Pos.to_nat p + 0))%nat with (Pos.to_nat p + Pos.to_nat p)%nat by lia.
    rewrite iter_add. destruct (iter _ _); [apply IH|done].
  - rewrite Pos2Nat.inj_xO. simpl. rewrite IH.
    replace (Pos.to_nat p + (Pos.to_nat p + 0))%nat with (Pos.to_nat p + Pos.to_nat p)%nat by lia.
    rewrite iter_add. destruct (iter _ _); [apply IH|done].
  - simpl. by destruct (step s).
Qed.

Lemma run_total (Inv : S → Prop) (m : S → Z) (Post : R → Prop) p s :
  (∀ s, Inv s → match step s with
                | inl s' => Inv s' ∧ 0 ≤ m s' < m s
                | inr r => Post r
                end) →
  Inv s → 0 ≤ m s < Zpos p →
  ∃ r, run p s = inr r ∧ Post r.
Proof.
  intros Hstep Hs Hm. rewrite run_iter.
  assert (∀ n s, Inv s → 0 ≤ m s < Z.of_nat n → ∃ r, iter n s = inr r ∧ Post r) as H.
  { clear p s Hs Hm. intros n. induction n as [|n IH]; intros s Hs Hm; [lia|].
    simpl. specialize (Hstep s Hs). destruct (step s) as [s'|r]; [|by eauto].
    apply IH; [tauto|]. lia. }
  apply H; [done|]. lia.
Qed.

(** What holds along the loop. *)
Lemma run_inv (Inv : S → Prop) (Post : R → Prop) p s :
  (∀ s, Inv s → match step s with inl s' => Inv s' | inr r => Post r end) → Inv s →
  match run p s with inl s' => Inv s' | inr r => Post r end.
Proof.
  intros Hstep. rewrite run_iter. generalize (Pos.to_nat p). intros n. revert s.
  induction n as [|n IH]; intros s Hs; [done|]. simpl. specialize (Hstep s Hs).
  destruct (step s); [by apply IH|done].
Qed.

(** A loop that cannot leave a set of states produces nothing. *)
Lemma run_diverges (Inv : S → Prop) p s :
  (∀ s, Inv s → ∃ s', step s = inl s' ∧ Inv s') → Inv s → ∃ s', run p s = inl s'.
Proof.
  intros Hstep. rewrite run_iter. generalize (Pos.to_nat p). intros n. revert s.
  induction n as [|n IH]; intros s Hs; [by eexists|]. simpl.
  destruct (Hstep s Hs) as (s' & -> & Hs'). by apply IH.
Qed.
End run.

(** The bound on every loop: no loop over a collection in memory, or over the
    blocks of a relation, takes 2^64 steps. *)
Definition FUEL : positive := 18446744073709551616.

(** A loop whose body may fail; running out of fuel is told apart from it. *)
Definition run_result {S E A} (step : S → S + result E A) (s : S) : option (result E A) :=
  match run step FUEL s with inl _ => None | inr r => Some r end.

(** A loop of at most [n] iterations before the one that leaves it. *)
Definition run_bounded {S E A} (n : nat) (step : S → S + result E A) (s : S) : option (result E A) :=
  match run step (Pos.of_succ_nat n) s with inl _ => None | inr r => Some r end.

(** * [slice::binary_search_by]

    [Ok i] is an index whose element compares equal; [Err i] is where one could
    be inserted. *)

Section binary_search.
Context {A : Type} (f : A → comparison).

Definition bs_step (l : list A) (s : nat * nat) : nat * nat + result nat nat :=
  let '(base, size) := s in
  if (1 <? size)%nat then
    let half := (size / 2)%nat in
    let mid := (base + half)%nat in
    match f <$> l !! mid with
    | Some Gt => inl (base, size - half)%nat
    | Some _ => inl (mid, size - half)%nat
    | None => inr Panic
    end
  else
    match f <$> l !! base with
    | Some Eq => inr (Ok base)
    | Some Lt => inr (Err (base + 1)%nat)
    | Some Gt => inr (Err base)
    | None => inr Panic
    end.

Definition binary_search_by (l : list A) : result nat nat :=
  match l with
  | [] => Err 0%nat
  | _ => match run (bs_step l) (Pos.of_succ_nat (length l)) (0%nat, length l) with inr r => r | inl _ => Panic end
  end.

(** The comparisons along a slice that is sorted with respect to [f]: first
    [Lt], then [Eq], then [Gt]. *)
Definition cmp_sorted (l : list A) : Prop :=
  ∀ i j a b, (i < j)%nat → l !! i = Some a → l !! j = Some b →
    (f a = Gt → f b = Gt) ∧ (f b = Lt → f a = Lt).

Definition bs_post (l : list A) (r : result nat nat) : Prop :=
  match r with
  | Ok i => ∃ a, l !! i = Some a ∧ f a = Eq
  | Err i => (i ≤ length l)%nat ∧
      (∀ j a, (j < i)%nat → l !! j = Some a → f a = Lt) ∧
      (∀ j a, (i ≤ j)%nat → l !! j = Some a → f a = Gt)
  | Panic => False
  end.

Definition bs_inv (l : list A) (s : nat * nat) : Prop :=
  (1 ≤ s.2)%nat ∧ (s.1 + s.2 ≤ length l)%nat ∧
  (s.1 = 0%nat ∨ ∃ a, l !! s.1 = Some a ∧ f a ≠ Gt) ∧
  (∀ j a, (s.1 + s.2 ≤ j)%nat → l !! j = Some a → f a = Gt).

Lemma bs_step_ok l s :
  cmp_sorted l → bs_inv l s →
  match bs_step l s with
  | inl s' => bs_inv l s' ∧ 0 ≤ Z.of_nat s'.2 < Z.of_nat s.2
  | inr r => bs_post l r
  end.
Proof.
  intros Hsort (H1 & Hle & Hb & Hhi). destruct s as [base size]. cbn [fst snd] in *.
  unfold bs_step. destruct (Nat.ltb_spec 1 size).
  - cbv zeta. set (half := (size / 2)%nat).
    assert (1 ≤ half ∧ half < size)%nat as Hh.
    { subst half. split; [apply (Nat.Div0.div_le_mono 2 size 2); lia|apply Nat.div_lt; lia]. }
    pose proof (Nat.Div0.mul_div_le size 2) as Hh2. fold half in Hh2.
    destruct (lookup_lt_is_Some_2 l (base + half)) as [m Hm]; [lia|]. rewrite Hm. simpl.
    destruct (f m) eqn:Em; (split; [|simpl; lia]); unfold bs_inv; simpl;
      (split; [lia|]); (split; [lia|]); (split; [try by eauto|]).
    1,3: right; eexists; split; [done|congruence].
    1-2: intros j a Hj; apply Hhi; lia.
    intros j a Hj Ha. destruct (decide (j = base + half)%nat) as [->|]; [congruence|].
    apply (Hsort (base + half)%nat j m a); [lia|done..].
  - assert (size = 1%nat) as -> by lia.
    destruct (lookup_lt_is_Some_2 l base) as [m Hm]; [lia|]. rewrite Hm. simpl.
    destruct (f m) eqn:Em; simpl; [by eauto| |].
    + split; [lia|]. split; [|exact Hhi]. intros j a Hj Ha.
      destruct (decide (j = base)) as [->|]; [congruence|].
      apply (Hsort j base a m); [lia|done..].
    + destruct Hb as [->|(a & Ha & Hne)]; [|congruence]. split; [lia|].
      split; [intros; lia|]. intros j a _ Ha.
      destruct (decide (j = 0)%nat) as [->|]; [congruence|].
      apply (Hsort 0%nat j m a); [lia|done..].
Qed.

Lemma binary_search_by_spec l :
  cmp_sorted l → bs_post l (binary_search_by l).
Proof.
  intros Hsort. unfold binary_search_by. destruct l as [|x l'] eqn:El.
  { simpl. split; [lia|]. split; intros j a; [lia|done]. }
  rewrite <- El in *.
  destruct (run_total (bs_step l) (bs_inv l) (λ s, Z.of_nat s.2) (bs_post l) (Pos.of_succ_nat (length l))
    (0%nat, length l)) as (r & -> & Hr); [by intros s; apply bs_step_ok| | |done].
  - unfold bs_inv. simpl. split; [subst; simpl; lia|]. split; [lia|]. split; [by left|].
    intros j a Hj Ha%lookup_lt_Some. lia.
  - simpl. lia.
Qed.
End binary_search.

(** * [slice::sort_by_key] *)

Section sort.
Context {A : Type} (le : A → A → bool).

(** Before the first element that is not smaller: equal keys keep their order. *)
Fixpoint insert_by (x : A) (l : list A) : list A :=
  match l with
  | [] => [x]
  | y :: l' => if le x y then x :: l else y :: insert_by x l'
  end.

Definition sort_by (l : list A) : list A := foldr insert_by [] l.

Lemma insert_by_perm x l : insert_by x l ≡ₚ x :: l.
Proof.
  induction l as [|y l IH]; [done|]. simpl. destruct (le x y); [done|].
  rewrite IH. apply Permutation_swap.
Qed.

Lemma sort_by_perm l : sort_by l ≡ₚ l.
Proof.
  induction l as [|x l IH]; [done|]. cbn [sort_by foldr].
  fold (sort_by l). by rewrite insert_by_perm, IH.
Qed.

Lemma sort_by_sorted l :
  (∀ x y, le x y = true ∨ le y x = true) →
  (∀ x y z, le x y = true → le y z = true → le x z = true) →
  StronglySorted (λ x y, le x y = true) (sort_by l).
Proof.
  intros Htot Htr. induction l as [|x l IH]; [constructor|]. cbn [sort_by foldr].
  fold (sort_by l). revert IH. generalize (sort_by l). clear l. intros l.
  induction l as [|y l IHl]; intros Hl; simpl; [by repeat constructor|].
  inversion Hl as [|? ? Hl' Hy]; subst. destruct (le x y) eqn:E.
  - constructor; [done|]. constructor; [done|]. eapply Forall_impl; [exact Hy|]. simpl. eauto.
  - constructor; [by apply IHl|]. rewrite insert_by_perm. constructor; [|done].
    destruct (Htot x y); congruence.
Qed.
End sort.
