(* ===== verification/OrdMaps.v ===== *)
(** Ordered maps.

    [std::collections::BTreeMap] is modelled by its iteration order: the list of
    its entries, sorted by key without duplicates ([bt_wf]).  [bt_insert],
    [bt_remove], [bt_range] and [bt_last_le] are [insert], [remove],
    [range(lo..hi)] and [range(..=k).next_back()].

    The persistent red-black tree of the [rpds] crate is a parameter,
    [RedBlackTree]; its laws say that it behaves as such a map. *)

From S2P Require Import Prelude.
Local Open Scope Z_scope.

(** [Ord] of the source, as a total comparison. *)
Class TotalCmp (K : Type) := kcmp : K → K → comparison.
Class TotalCmpLaws (K : Type) `{TotalCmp K} := {
  kcmp_eq a b : kcmp a b = Eq ↔ a = b;
  kcmp_opp a b : kcmp b a = CompOpp (kcmp a b);
  kcmp_trans a b c : kcmp a b = Lt → kcmp b c = Lt → kcmp a c = Lt
}.

#[global] Instance Z_cmp : TotalCmp Z := Z.compare.
#[global] Instance Z_cmp_laws : TotalCmpLaws Z.
Proof.
  split; unfold kcmp, Z_cmp.
  - apply Z.compare_eq_iff.
  - intros. apply Z.compare_antisym.
  - intros a b c. rewrite !Z.compare_lt_iff. lia.
Qed.

Section btree.
Context {K : Type} `{TotalCmpLaws K} {V : Type}.
Implicit Types (l : list (K * V)).

Definition kltb (a b : K) : bool := match kcmp a b with Lt => true | _ => false end.
Definition kleb (a b : K) : bool := negb (kltb b a).

Fixpoint bt_insert (k : K) (v : V) l : list (K * V) :=
  match l with
  | [] => [(k, v)]
  | e :: l' =>
      match kcmp k e.1 with
      | Lt => (k, v) :: l
      | Eq => (k, v) :: l'
      | Gt => e :: bt_insert k v l'
      end
  end.

Fixpoint bt_remove (k : K) l : list (K * V) :=
  match l with
  | [] => []
  | e :: l' => match kcmp k e.1 with Eq => l' | _ => e :: bt_remove k l' end
  end.

Fixpoint bt_get (k : K) l : option V :=
  match l with
  | [] => None
  | e :: l' => match kcmp k e.1 with Eq => Some e.2 | _ => bt_get k l' end
  end.

(** [range(lo..hi)], [range(lo..)] and [range(..=k).next_back()] *)
Definition bt_range (lo hi : K) l : list (K * V) := List.filter (λ e, kleb lo e.1 && kltb e.1 hi) l.
Definition bt_from (lo : K) l : list (K * V) := List.filter (λ e, kleb lo e.1) l.
Definition bt_last_le (k : K) l : option (K * V) := last (List.filter (λ e, kleb e.1 k) l).
(** What [split_off(k)] leaves in the map. *)
Definition bt_before (k : K) l : list (K * V) := List.filter (λ e, kltb e.1 k) l.

Definition klt (a b : K) : Prop := kcmp a b = Lt.
Definition bt_wf l : Prop := StronglySorted (λ a b, klt a.1 b.1) l.

Lemma klt_irrefl a : ¬ klt a a.
Proof. unfold klt. rewrite (proj2 (kcmp_eq a a) eq_refl). done. Qed.

Lemma kcmp_gt a b : kcmp a b = Gt ↔ klt b a.
Proof. unfold klt. rewrite (kcmp_opp a b). destruct (kcmp a b); done. Qed.

Lemma kltb_lt a b : kltb a b = true ↔ klt a b.
Proof. unfold kltb, klt. destruct (kcmp a b); done. Qed.

Lemma klt_trichotomy a b : klt a b ∨ a = b ∨ klt b a.
Proof.
  destruct (kcmp a b) eqn:E; [right; left; by apply kcmp_eq|by left|].
  right; right. by apply kcmp_gt.
Qed.

Lemma klt_trans a b c : klt a b → klt b c → klt a c.
Proof. apply kcmp_trans. Qed.

Lemma bt_wf_nil : bt_wf [].
Proof. constructor. Qed.

Lemma bt_insert_elem k v l e :
  bt_wf l → e ∈ bt_insert k v l ↔ e = (k, v) ∨ e ∈ l ∧ e.1 ≠ k.
Proof.
  induction l as [|x l IH]; intros Hwf; simpl.
  { rewrite list_elem_of_singleton. split; [auto|]. intros [|[Hn _]]; [done|by apply not_elem_of_nil in Hn]. }
  apply StronglySorted_cons in Hwf as [Hx Hwf]. rewrite Forall_forall in Hx.
  assert (∀ y, y ∈ l → k = x.1 ∨ klt k x.1 → y.1 ≠ k) as Hne.
  { intros y Hy Hk E. specialize (Hx y Hy). rewrite E in Hx. destruct Hk as [->|Hk]; [by apply klt_irrefl in Hx|].
    by apply (klt_irrefl k), (klt_trans _ x.1). }
  destruct (kcmp k x.1) eqn:E; rewrite !elem_of_cons.
  - apply kcmp_eq in E. subst k. split; [intros [|]; [by left|right; split; [by right|by eauto]]|].
    intros [->|[[->|?] ?]]; [by left|done|by right].
  - split; [|tauto]. intros [|[->|Hy]]; [by left|right; split; [by left|]|right; split; [by right|by eauto]].
    intros E'. rewrite E' in E. by apply klt_irrefl in E.
  - rewrite (IH Hwf). apply kcmp_gt in E. split; [|tauto].
    intros [->|[->|[? ?]]]; [right; split; [by left|]|by left|right; split; [by right|done]].
    intros E'. rewrite E' in E. by apply klt_irrefl in E.
Qed.

Lemma bt_insert_wf k v l : bt_wf l → bt_wf (bt_insert k v l).
Proof.
  induction l as [|x l IH]; intros Hwf; simpl; [by repeat constructor|].
  pose proof (proj1 (StronglySorted_cons _ _ _) Hwf) as [Hx Hwf'].
  destruct (kcmp k x.1) eqn:E.
  - apply kcmp_eq in E. subst. by constructor.
  - constructor; [done|]. constructor; [done|]. eapply Forall_impl; [exact Hx|].
    intros y Hy; simpl in *. by apply (klt_trans _ x.1).
  - constructor; [by apply IH|]. apply Forall_forall. intros y [->|[Hy _]]%bt_insert_elem; [|  |done].
    + by apply kcmp_gt.
    + rewrite Forall_forall in Hx. by apply Hx.
Qed.

Lemma bt_remove_elem k l e : bt_wf l → e ∈ bt_remove k l ↔ e ∈ l ∧ e.1 ≠ k.
Proof.
  induction l as [|x l IH]; intros Hwf; simpl; [split; [|tauto]; by intros ?%not_elem_of_nil|].
  apply StronglySorted_cons in Hwf as [Hx Hwf]. rewrite Forall_forall in Hx.
  destruct (kcmp k x.1) eqn:E; rewrite !elem_of_cons, ?(IH Hwf).
  - apply kcmp_eq in E. subst k. split; [|naive_solver]. intros Hy. split; [by right|].
    intros E. specialize (Hx e Hy). rewrite E in Hx. by apply klt_irrefl in Hx.
  - split; [|tauto]. intros [->|]; [|tauto]. split; [by left|].
    intros E'. rewrite E' in E. by apply klt_irrefl in E.
  - apply kcmp_gt in E. split; [|tauto]. intros [->|]; [|tauto]. split; [by left|].
    intros E'. rewrite E' in E. by apply klt_irrefl in E.
Qed.

Lemma bt_remove_wf k l : bt_wf l → bt_wf (bt_remove k l).
Proof.
  induction l as [|x l IH]; intros Hwf; simpl; [done|].
  pose proof (proj1 (StronglySorted_cons _ _ _) Hwf) as [Hx Hwf'].
  assert (bt_wf (x :: bt_remove k l)).
  { constructor; [by apply IH|]. apply Forall_forall. intros y [Hy _]%bt_remove_elem; [|done].
    rewrite Forall_forall in Hx. by apply Hx. }
  by destruct (kcmp k x.1).
Qed.

Lemma bt_filter_wf (f : K * V → bool) l : bt_wf l → bt_wf (List.filter f l).
Proof.
  unfold bt_wf. induction 1 as [|x l _ IH Hx]; [constructor|]. simpl.
  destruct (f x); [|done]. constructor; [done|]. apply Forall_forall. intros y Hy%list_elem_of_In.
  apply filter_In in Hy as [Hy%list_elem_of_In _]. rewrite Forall_forall in Hx. by apply Hx.
Qed.

(** Two sorted lists with the same entries are the same. *)
Lemma bt_ext l1 l2 : bt_wf l1 → bt_wf l2 → (∀ e, e ∈ l1 ↔ e ∈ l2) → l1 = l2.
Proof.
  revert l2. induction l1 as [|x l1 IH]; intros [|y l2] H1 H2 He; [done|..].
  - by destruct (not_elem_of_nil y (proj2 (He y) (list_elem_of_here _ _))).
  - by destruct (not_elem_of_nil x (proj1 (He x) (list_elem_of_here _ _))).
  - apply StronglySorted_cons in H1 as [Hx H1], H2 as [Hy H2]. rewrite Forall_forall in Hx, Hy.
    assert (x = y) as ->.
    { destruct (proj1 (elem_of_cons _ _ _) (proj1 (He x) (list_elem_of_here _ _))) as [|Hxl]; [done|].
      destruct (proj1 (elem_of_cons _ _ _) (proj2 (He y) (list_elem_of_here _ _))) as [|Hyl]; [done|].
      exfalso. apply (klt_irrefl x.1), (klt_trans _ y.1); [by apply Hx|by apply Hy]. }
    f_equal. apply IH; [done..|]. intros e. specialize (He e). rewrite !elem_of_cons in He.
    split; intros Hel; (destruct (proj1 He (or_intror Hel)) as [->|] || destruct (proj2 He (or_intror Hel)) as [->|]);
      try done; exfalso; eapply klt_irrefl; by eauto.
Qed.
End btree.

(** * [rpds::RedBlackTreeMapSync] with integer keys *)

Class RedBlackTree (T : Type → Type) := {
  rb_default {V} : T V;
  rb_insert_mut {V} : Z → V → T V → T V;
  rb_remove_mut {V} : Z → T V → T V;
  rb_iter {V} : T V → list (Z * V);
  rb_range {V} : Z → Z → T V → list (Z * V);
  rb_last_le {V} : Z → T V → option (Z * V)
}.

(** The documented contract: an ordered map, iterated in key order. *)
Class RedBlackTreeLaws (T : Type → Type) `{RedBlackTree T} := {
  rb_sorted {V} (m : T V) : bt_wf (rb_iter m);
  rb_iter_default {V} : rb_iter (rb_default (V := V)) = [];
  rb_iter_insert {V} k (v : V) m : rb_iter (rb_insert_mut k v m) = bt_insert k v (rb_iter m);
  rb_iter_remove {V} k (m : T V) : rb_iter (rb_remove_mut k m) = bt_remove k (rb_iter m);
  rb_range_iter {V} lo hi (m : T V) : lo ≤ hi → rb_range lo hi m = bt_range lo hi (rb_iter m);
  rb_last_le_iter {V} k (m : T V) : rb_last_le k m = bt_last_le k (rb_iter m)
}.

(** The laws can hold: sorted lists that carry their invariant. *)
Record sorted_list (V : Type) := MkSorted { sl_list : list (Z * V); sl_wf : bt_wf sl_list }.
Arguments MkSorted {_} _ _.
Arguments sl_list {_} _.
Arguments sl_wf {_} _.

#[global] Instance sorted_list_rb : RedBlackTree sorted_list := {
  rb_default V := MkSorted [] bt_wf_nil;
  rb_insert_mut V k v m := MkSorted (bt_insert k v (sl_list m)) (bt_insert_wf k v _ (sl_wf m));
  rb_remove_mut V k m := MkSorted (bt_remove k (sl_list m)) (bt_remove_wf k _ (sl_wf m));
  rb_iter V m := sl_list m;
  rb_range V lo hi m := bt_range lo hi (sl_list m);
  rb_last_le V k m := bt_last_le k (sl_list m)
}.

#[global] Instance sorted_list_rb_laws : RedBlackTreeLaws sorted_list.
Proof. split; try done. intros V m. apply sl_wf. Qed.

(** ** Integer keys *)

Lemma kleb_Z (a b : Z) : kleb a b = (a <=? b).
Proof. unfold kleb, kltb, kcmp, Z_cmp. destruct (Z.compare_spec b a); simpl; lia. Qed.

Lemma kltb_Z (a b : Z) : kltb a b = (a <? b).
Proof. unfold kltb, kcmp, Z_cmp. destruct (Z.compare_spec a b); lia. Qed.

Lemma klt_Z (a b : Z) : klt a b ↔ a < b.
Proof. unfold klt, kcmp, Z_cmp. apply Z.compare_lt_iff. Qed.

Lemma List_filter_elem {A} (f : A → bool) l x : x ∈ List.filter f l ↔ x ∈ l ∧ f x = true.
Proof. rewrite !list_elem_of_In. apply filter_In. Qed.
