(* ===== verification/Lsns.v ===== *)
(** Log sequence numbers: [libs/utils/src/lsn.rs], and the WAL segment names of
    [libs/postgres_ffi/src/xlog_utils.rs].

    An [Lsn] wraps a [u64]; here it is a [Z], with [u64 l] where its width
    matters.  Additions that the source writes with [checked_add(..).unwrap()]
    panic on overflow; the plain [+] of [align] wraps, as in a release build.
    A segment size is a divisor and never zero in the source
    ([TimelinePersistentState::new] refuses it). *)

From S2P Require Import Prelude Text.
Local Open Scope Z_scope.

Abbreviation Lsn := Z (only parsing).

Module Lsn.

Definition XLOG_BLCKSZ : Z := 8192.
Definition MAX : Lsn := 2 ^ 64 - 1.
Definition INVALID : Lsn := 0.

Definition checked_sub (self other : Z) : option Lsn := Prelude.checked_sub self other.
Definition saturating_sub (self other : Z) : Lsn := Prelude.saturating_sub self other.
Definition widening_sub (self other : Z) : Z := self - other.

Definition segment_offset (self seg_sz : Z) : Z := self mod seg_sz.
Definition segment_lsn (self seg_sz : Z) : Lsn := self - self mod seg_sz.
Definition segment_number (self seg_sz : Z) : Z := self / seg_sz.
Definition block_offset (self : Lsn) : Z := self mod XLOG_BLCKSZ.
Definition page_lsn (self : Lsn) : Lsn := self - block_offset self.
Definition page_offset_in_segment (self seg_sz : Z) : Z :=
  (self - block_offset self) - segment_lsn self seg_sz.
Definition remaining_in_block (self : Lsn) : Z := XLOG_BLCKSZ - self mod XLOG_BLCKSZ.
Definition calc_padding (self sz : Z) : Z := wrapping_sub 64 sz self mod sz.
(** [(self.0 + 7) & !7] on 64 bits. *)
Definition align (self : Lsn) : Lsn := Z.land (wrapping_add 64 self 7) (2 ^ 64 - 8).
Definition is_aligned (self : Lsn) : bool := self =? align self.
Definition is_valid (self : Lsn) : bool := negb (self =? INVALID).

(** [impl Add<u64>]; the in-place [AddAssign] is the same addition. *)
Definition add (self other : Z) : result unit Lsn :=
  match checked_add 64 self other with Some l => Ok l | None => Panic end.

Inductive LsnParseError := MkLsnParseError.

Definition from_hex (s : bytes) : result LsnParseError Lsn :=
  of_option MkLsnParseError (from_str_radix16 64 s).

(** [str::trim] on ASCII text: the ASCII characters with [White_Space]. *)
Definition is_whitespace (c : Z) : bool := ((9 <=? c) && (c <=? 13)) || (c =? 32).
Fixpoint trim_start (s : bytes) : bytes :=
  match s with
  | c :: s' => if is_whitespace c then trim_start s' else s
  | [] => []
  end.
Definition trim (s : bytes) : bytes := reverse (trim_start (reverse (trim_start s))).

(** [str::split(c)]: always yields at least one piece. *)
Fixpoint split_on (c : Z) (s : bytes) : list bytes :=
  match s with
  | [] => [[]]
  | x :: s' =>
      if x =? c then [] :: split_on c s'
      else match split_on c s' with
           | p :: ps => (x :: p) :: ps
           | [] => [[x]]
           end
  end.

Definition slash : Z := 47.

Definition from_str (s : bytes) : result LsnParseError Lsn :=
  match split_on slash (trim s) with
  | [left_s; right_s] =>
      left_num ← of_option MkLsnParseError (from_str_radix16 32 left_s);
      right_num ← of_option MkLsnParseError (from_str_radix16 32 right_s);
      Ok (Z.lor (Z.shiftl left_num 32) right_num)
  | _ => Err MkLsnParseError
  end.

(** [impl Display] (and [Debug]): [{:X}/{:X}]. *)
Definition fmt (self : Lsn) : bytes :=
  fmt_hex true (Z.shiftr self 32) ++ [slash] ++ fmt_hex true (Z.land self 0xffffffff).

(** [AtomicLsn]: its cell is the state. *)
Definition atomic_load : M Lsn unit Lsn := getS.
Definition atomic_store (lsn : Lsn) : M Lsn unit unit := λ _, (Ok tt, lsn).
Definition atomic_fetch_add (val : Z) : M Lsn unit Lsn := λ prev,
  let new := wrapping_add 64 prev val in
  if bool_decide (is_Some (checked_add 64 prev val)) then (Ok prev, new) else (Panic, new).
Definition atomic_fetch_max (lsn : Lsn) : M Lsn unit Lsn := λ prev, (Ok prev, Z.max prev lsn).

(** [RecordLsn] with its [MonotonicCounter] instance. *)
Record RecordLsn := { last : Lsn; prev : Lsn }.
Definition cnt_advance (lsn : Lsn) : M RecordLsn unit unit := λ r,
  if last r <=? lsn then (Ok tt, {| last := lsn; prev := last r |}) else (Panic, r).
Definition cnt_value (r : RecordLsn) : Lsn := last r.

End Lsn.

(** * WAL segment names *)

Module XLog.

Definition XLOG_FNAME_LEN : nat := 24.

Definition XLogSegmentsPerXLogId (wal_segsz_bytes : Z) : Z := 0x100000000 / wal_segsz_bytes.

Definition XLogSegNoOffsetToRecPtr (segno offset wal_segsz_bytes : Z) : Lsn :=
  wrapping_add 64 (wrapping_mul 64 segno wal_segsz_bytes) offset.

Definition XLogFileName (tli logSegNo wal_segsz_bytes : Z) : bytes :=
  fmt_hex_pad true 8 tli ++
  fmt_hex_pad true 8 (logSegNo / XLogSegmentsPerXLogId wal_segsz_bytes) ++
  fmt_hex_pad true 8 (logSegNo mod XLogSegmentsPerXLogId wal_segsz_bytes).

(** [&s[a..b]] panics past the end of the string. *)
Definition slice (s : bytes) (a b : nat) : result unit bytes :=
  if decide (b ≤ length s)%nat then Ok (take (b - a) (drop a s)) else Panic.

Definition XLogFromFileName (fname : bytes) (wal_seg_size : Z) : result unit (Z * Z) :=
  s1 ← slice fname 0 8;
  tli ← of_option tt (from_str_radix16 32 s1);
  s2 ← slice fname 8 16;
  log ← of_option tt (from_str_radix16 32 s2);
  s3 ← slice fname 16 24;
  seg ← of_option tt (from_str_radix16 32 s3);
  Ok (wrapping_add 64 (wrapping_mul 64 log (XLogSegmentsPerXLogId wal_seg_size)) seg, tli).

Definition is_ascii_hexdigit (c : Z) : bool :=
  match of_hex_digit c with Some _ => true | None => false end.

Definition IsXLogFileName (fname : bytes) : bool :=
  bool_decide (length fname = XLOG_FNAME_LEN) && forallb is_ascii_hexdigit fname.

Definition partial_suffix : bytes := bytes_of_string ".partial".

Definition IsPartialXLogFileName (fname : bytes) : bool :=
  bool_decide (drop (length fname - 8) fname = partial_suffix) &&
  IsXLogFileName (take (length fname - 8) fname).

End XLog.

(** * Properties of LSN arithmetic *)

Lemma land_mask z n : 0 ≤ n → Z.land z (2 ^ n - 1) = z mod 2 ^ n.
Proof. intros. rewrite <-Z.land_ones by lia. by rewrite Z.ones_equiv. Qed.

Lemma lor_shiftl_add a b n : 0 ≤ n → 0 ≤ b < 2 ^ n → Z.lor (Z.shiftl a n) b = a * 2 ^ n + b.
Proof.
  intros Hn Hb. rewrite <-Z.shiftl_mul_pow2 by done.
  symmetry. rewrite Z.add_nocarry_lxor; [apply Z.lxor_lor|].
  all: apply Z.bits_inj'; intros i Hi; rewrite Z.land_spec, Z.bits_0, Z.shiftl_spec by lia.
  all: destruct (decide (i < n)); [by rewrite Z.testbit_neg_r by lia|].
  all: apply andb_false_iff; right; rewrite <-(Z.mod_small b (2 ^ n)) by done;
    apply Z.mod_pow2_bits_high; lia.
Qed.

Lemma land_neg8 z : u64 z → Z.land z (2 ^ 64 - 8) = z - z mod 8.
Proof.
  intros Hz. replace (z - z mod 8) with (Z.ldiff z (Z.ones 3)).
  2:{ rewrite Z.ldiff_ones_r by lia.
      rewrite Z.shiftr_div_pow2, Z.shiftl_mul_pow2 by lia. change (2 ^ 3) with 8.
      pose proof (Z.div_mod z 8). lia. }
  replace (2 ^ 64 - 8) with (Z.ldiff (Z.ones 64) (Z.ones 3)) by reflexivity.
  apply Z.bits_inj'. intros i Hi.
  rewrite Z.land_spec, !Z.ldiff_spec.
  destruct (decide (i < 64)).
  - by rewrite (Z.ones_spec_low 64) by lia.
  - rewrite <-(Z.mod_small z (2 ^ 64)) by done. by rewrite Z.mod_pow2_bits_high by lia.
Qed.

Section segments.
Context (seg_sz : Z) (Hsz : 0 < seg_sz).

Lemma segment_offset_range lsn : 0 ≤ Lsn.segment_offset lsn seg_sz < seg_sz.
Proof. apply Z.mod_pos_bound, Hsz. Qed.

Lemma segment_split lsn :
  lsn = Lsn.segment_number lsn seg_sz * seg_sz + Lsn.segment_offset lsn seg_sz.
Proof.
  unfold Lsn.segment_number, Lsn.segment_offset.
  pose proof (Z.div_mod lsn seg_sz). lia.
Qed.

Lemma segment_lsn_start lsn :
  Lsn.segment_lsn lsn seg_sz = Lsn.segment_number lsn seg_sz * seg_sz.
Proof. unfold Lsn.segment_lsn. pose proof (segment_split lsn). unfold Lsn.segment_offset in *. lia. Qed.
End segments.

(** within its segment, an LSN is exactly determined by its segment number
    and its offset, the offset is in range, and recombining them with
    [XLogSegNoOffsetToRecPtr] gives the LSN back without overflow. *)
Theorem segment_roundtrip seg_sz lsn :
  0 < seg_sz → u64 lsn →
  0 ≤ Lsn.segment_offset lsn seg_sz < seg_sz ∧
  Lsn.segment_lsn lsn seg_sz ≤ lsn < Lsn.segment_lsn lsn seg_sz + seg_sz ∧
  XLog.XLogSegNoOffsetToRecPtr
    (Lsn.segment_number lsn seg_sz) (Lsn.segment_offset lsn seg_sz) seg_sz = lsn.
Proof.
  intros Hsz Hl. pose proof (segment_offset_range seg_sz Hsz lsn).
  pose proof (segment_split seg_sz Hsz lsn).
  pose proof (segment_lsn_start seg_sz Hsz lsn).
  split_and!; [lia..|].
  unfold XLog.XLogSegNoOffsetToRecPtr, wrapping_add, wrapping_mul.
  assert (0 ≤ Lsn.segment_number lsn seg_sz * seg_sz).
  { apply Z.mul_nonneg_nonneg; [apply Z.div_pos|]; unfold in_u in *; lia. }
  rewrite (wrap_small 64 (_ * _)) by (unfold in_u in *; lia).
  rewrite wrap_small; unfold in_u in *; lia.
Qed.

Lemma segment_roundtrip_witness :
  XLog.XLogSegNoOffsetToRecPtr
    (Lsn.segment_number 0x1000007 0x1000000) (Lsn.segment_offset 0x1000007 0x1000000)
    0x1000000 = 0x1000007.
Proof. apply (segment_roundtrip 0x1000000 0x1000007); [done|by vm_compute]. Defined.

(** [calc_padding] is the distance to the next multiple of [sz], zero on
    the boundary, for every [sz] that divides 2^64 (all sizes the callers
    pass: 8 and the segment size). *)
Lemma calc_padding_correct lsn sz :
  0 < sz → (sz | 2 ^ 64) →
  0 ≤ Lsn.calc_padding lsn sz < sz ∧
  (lsn + Lsn.calc_padding lsn sz) mod sz = 0.
Proof.
  intros Hsz [q Hq]. unfold Lsn.calc_padding, wrapping_sub, wrap.
  split; [by apply Z.mod_pos_bound|]. rewrite Hq.
  rewrite Zplus_mod_idemp_r.
  rewrite (Z.mul_comm q), Z.rem_mul_r by (try lia; nia).
  replace (lsn + _) with ((lsn + (sz - lsn) mod sz) + ((sz - lsn) / sz) mod q * sz) by lia.
  rewrite Z.mod_add by lia. rewrite Zplus_mod_idemp_r.
  replace (lsn + (sz - lsn)) with (1 * sz) by lia. apply Z.mod_mul. lia.
Qed.


Lemma calc_padding_residue lsn sz : u64 lsn → 0 < sz < 2 ^ 64 →
  (lsn + Lsn.calc_padding lsn sz) mod sz = if lsn <=? sz then 0 else 2 ^ 64 mod sz.
Proof.
  unfold u64, in_u. intros Hl Hs. unfold Lsn.calc_padding, wrapping_sub, wrap. rewrite Zplus_mod_idemp_r. destruct (Z.leb_spec lsn sz).
  - rewrite (Z.mod_small (sz - lsn)) by lia. replace (lsn + (sz - lsn)) with sz by lia. apply Z_mod_same_full.
  - rewrite <-(Z_mod_plus_full (sz - lsn) 1), (Z.mod_small (sz - lsn + _)) by lia.
    replace (lsn + (sz - lsn + 1 * 2 ^ 64)) with (2 ^ 64 + 1 * sz) by lia. apply Z_mod_plus_full.
Qed.

(** C40: The padding to a chunk of [sz] bytes is less than a chunk; the padded position is the
    border of a chunk exactly if [sz] divides [2^64] or the position is in the first chunk.
    For other sizes the padding of every position after the first chunk is wrong. *)
Theorem calc_padding_exact lsn sz : u64 lsn → 0 < sz < 2 ^ 64 →
  0 ≤ Lsn.calc_padding lsn sz < sz ∧
  ((lsn + Lsn.calc_padding lsn sz) mod sz = 0 ↔ lsn ≤ sz ∨ (sz | 2 ^ 64)).
Proof.
  intros Hl Hs. split; [apply Z.mod_pos_bound; lia|]. rewrite calc_padding_residue by done. destruct (Z.leb_spec lsn sz); [naive_solver|].
  rewrite <-Z.mod_divide by lia. split; [by right|]. intros [?|?]; [lia|done].
Qed.

Lemma calc_padding_exact_witness : (16777217 + Lsn.calc_padding 16777217 16777216) mod 16777216 = 0 ∧ (25 + Lsn.calc_padding 25 24) mod 24 ≠ 0.
Proof.
  split.
  - apply (calc_padding_exact 16777217 16777216); [split; [lia|reflexivity]|lia|]. right. by exists (2 ^ 40).
  - intros H. apply (calc_padding_exact 25 24) in H; [|split; [lia|reflexivity]|lia]. destruct H as [H|[q Hq]]; lia.
Defined.

(** [align] is the least multiple of 8 that is not below the LSN, for
    every LSN whose alignment fits 64 bits. *)
Lemma align_least lsn :
  0 ≤ lsn ≤ 2 ^ 64 - 8 →
  Lsn.align lsn mod 8 = 0 ∧ lsn ≤ Lsn.align lsn < lsn + 8 ∧
  (Lsn.is_aligned lsn = true ↔ lsn mod 8 = 0).
Proof.
  intros Hl. assert (Lsn.align lsn = lsn + 7 - (lsn + 7) mod 8) as E.
  { unfold Lsn.align, wrapping_add. rewrite wrap_small by (unfold in_u; lia).
    apply land_neg8. unfold in_u; lia. }
  unfold Lsn.is_aligned. rewrite Z.eqb_eq, E.
  pose proof (Z.mod_pos_bound (lsn + 7) 8).
  pose proof (Z.div_mod (lsn + 7) 8).
  pose proof (Z.mod_pos_bound lsn 8). pose proof (Z.div_mod lsn 8).
  split_and!; [|lia..|].
  - apply Z.mod_divide; [done|]. exists ((lsn + 7) / 8). lia.
  - split; lia.
Qed.


(** * Text round trips *)

Lemma fmt_hex_upper_chars z :
  0 ≤ z → Forall (λ c, 48 ≤ c ≤ 57 ∨ 65 ≤ c ≤ 70) (fmt_hex true z).
Proof.
  intros Hz. unfold fmt_hex. rewrite Forall_fmap.
  eapply Forall_impl; [by apply digits16_range|].
  intros d Hd. simpl in *. unfold hex_digit. case_match; lia.
Qed.

Lemma trim_start_id s : Forall (λ c, Lsn.is_whitespace c = false) s → Lsn.trim_start s = s.
Proof. destruct 1 as [|c s Hc _]; simpl; [done|]. by rewrite Hc. Qed.

Lemma trim_id s : Forall (λ c, Lsn.is_whitespace c = false) s → Lsn.trim s = s.
Proof.
  intros Hs. unfold Lsn.trim. rewrite (trim_start_id s) by done.
  rewrite trim_start_id by by rewrite Forall_reverse. apply reverse_involutive.
Qed.

Lemma split_on_none c s : Forall (.≠ c) s → Lsn.split_on c s = [s].
Proof.
  induction 1 as [|x s Hx _ IH]; simpl; [done|].
  rewrite IH. by rewrite (proj2 (Z.eqb_neq _ _)).
Qed.

Lemma split_on_pair c a b :
  Forall (.≠ c) a → Forall (.≠ c) b → Lsn.split_on c (a ++ c :: b) = [a; b].
Proof.
  intros Ha Hb. induction Ha as [|x a Hx _ IH]; simpl.
  - rewrite Z.eqb_refl. by rewrite split_on_none.
  - rewrite IH. by rewrite (proj2 (Z.eqb_neq _ _)).
Qed.

(** printing an LSN and parsing it back gives the same LSN, for every
    64-bit value. *)
Theorem lsn_display_fromstr lsn : u64 lsn → Lsn.from_str (Lsn.fmt lsn) = Ok lsn.
Proof.
  intros Hl. unfold in_u in Hl. unfold Lsn.from_str, Lsn.fmt.
  change 0xffffffff with (2 ^ 32 - 1).
  rewrite land_mask, Z.shiftr_div_pow2 by lia.
  pose proof (Z.mod_pos_bound lsn (2 ^ 32)) as Hr.
  assert (0 ≤ lsn / 2 ^ 32 < 2 ^ 32) as Hq.
  { split; [apply Z.div_pos; lia|]. apply Z.div_lt_upper_bound; lia. }
  pose proof (fmt_hex_upper_chars (lsn / 2 ^ 32) ltac:(lia)) as H1.
  pose proof (fmt_hex_upper_chars (lsn mod 2 ^ 32) ltac:(lia)) as H2.
  change ([Lsn.slash] ++ ?x) with (Lsn.slash :: x).
  rewrite trim_id, split_on_pair.
  - rewrite !fmt_hex_parse by (unfold in_u; lia). cbn.
    rewrite lor_shiftl_add by lia. pose proof (Z.div_mod lsn (2 ^ 32)). f_equal. lia.
  - eapply Forall_impl; [exact H1|]. intros x Hx. simpl in *. unfold Lsn.slash. lia.
  - eapply Forall_impl; [exact H2|]. intros x Hx. simpl in *. unfold Lsn.slash. lia.
  - rewrite Forall_app, Forall_cons. split_and!; [|done|];
      (eapply Forall_impl; [eassumption|]); intros x Hx; simpl in *; unfold Lsn.is_whitespace; lia.
Qed.

Lemma lsn_display_fromstr_witness :
  Lsn.from_str (Lsn.fmt 0x12345678AAAA5555) = Ok 0x12345678AAAA5555.
Proof. apply lsn_display_fromstr. by vm_compute. Defined.

(** a WAL segment's file name determines its segment number and timeline:
    for every segment size up to 4 GiB, [XLogFromFileName] recovers what
    [XLogFileName] printed, and the name passes [IsXLogFileName]'s length
    test. *)
Theorem xlog_file_name_roundtrip tli segno sz :
  0 < sz ≤ 2 ^ 32 → u32 tli → 0 ≤ segno →
  u32 (segno / XLog.XLogSegmentsPerXLogId sz) →
  let name := XLog.XLogFileName tli segno sz in
  XLog.XLogFromFileName name sz = Ok (segno, tli) ∧ length name = XLog.XLOG_FNAME_LEN.
Proof.
  intros Hsz Ht Hs Hq. cbv zeta.
  assert (0 < XLog.XLogSegmentsPerXLogId sz ≤ 2 ^ 32) as Hper.
  { unfold XLog.XLogSegmentsPerXLogId. change 0x100000000 with (2 ^ 32). split.
    - apply Z.div_str_pos. lia.
    - apply Z.div_le_upper_bound; nia. }
  set (per := XLog.XLogSegmentsPerXLogId sz) in *.
  pose proof (Z.mod_pos_bound segno per ltac:(lia)) as Hm.
  pose proof (Z.div_mod segno per ltac:(lia)) as Hdm.
  unfold XLog.XLogFileName. fold per.
  assert (∀ z, u32 z → length (fmt_hex_pad true 8 z) = 8%nat) as Hlen.
  { intros z Hz. apply length_fmt_hex_pad. exact Hz. }
  assert (u32 (segno mod per)) as Hm32 by (unfold in_u in *; lia).
  set (a := fmt_hex_pad true 8 tli). set (b := fmt_hex_pad true 8 (segno / per)).
  set (c := fmt_hex_pad true 8 (segno mod per)).
  assert (length a = 8 ∧ length b = 8 ∧ length c = 8)%nat as (La & Lb & Lc)
    by (subst a b c; rewrite !Hlen by done; done).
  assert (length (a ++ b ++ c) = 24)%nat as Ltot by (rewrite !length_app; lia).
  split; [|done].
  unfold XLog.XLogFromFileName, XLog.slice. rewrite !decide_True by lia. cbn [mbind result_bind Nat.sub].
  rewrite drop_0, take_app_length' by done.
  rewrite (drop_app_length' a _ 8) by done. rewrite (take_app_length' b) by done.
  replace (drop 16 (a ++ b ++ c)) with c.
  2:{ rewrite (assoc_L (++)). rewrite drop_app_length'; [done|]. rewrite length_app; lia. }
  rewrite (take_ge c) by lia.
  subst a b c. rewrite !fmt_hex_pad_parse by (done || lia).
  cbn [of_option mbind result_bind]. fold per. unfold wrapping_add, wrapping_mul, in_u in *.
  rewrite (wrap_small 64 (_ * _)) by (unfold in_u; nia).
  rewrite wrap_small by (unfold in_u; nia). do 2 f_equal. lia.
Qed.

Lemma xlog_file_name_roundtrip_witness :
  XLog.XLogFromFileName (XLog.XLogFileName 1 0x1ff 0x1000000) 0x1000000 = Ok (0x1ff, 1).
Proof. apply xlog_file_name_roundtrip; by vm_compute. Defined.
