(* ===== verification/Keys.v ===== *)
(** Storage keys: [libs/pageserver_api/src/key.rs] and the data types of
    [libs/pageserver_api/src/reltag.rs].

    A [Key] is a record of six machine words; [Key.wf] says that each fits its
    width.  The derived [Ord] compares the fields in order.  [key_Z] reads the
    18 bytes of a key as one number: it is how the proofs see the order. *)

From S2P Require Import Prelude Text Lsns.
Local Open Scope Z_scope.

(** * Data *)

Record Key := MkKey {
  field1 : Z; (* u8 *)
  field2 : Z; (* u32 *)
  field3 : Z; (* u32 *)
  field4 : Z; (* u32 *)
  field5 : Z; (* u8 *)
  field6 : Z  (* u32 *)
}.

#[global] Instance Key_eq_dec : EqDecision Key.
Proof. solve_decision. Defined.

Definition KEY_SIZE : nat := 18.
Definition METADATA_KEY_SIZE : nat := 16.
Definition METADATA_KEY_BEGIN_PREFIX : Z := 0x60.
Definition METADATA_KEY_END_PREFIX : Z := 0x7F.
Definition RELATION_SIZE_PREFIX : Z := 0x61.
Definition AUX_KEY_PREFIX : Z := 0x62.
Definition ORIOLEDB_WAL_KEY_PREFIX : Z := 0x70.
Definition REPL_ORIGIN_KEY_PREFIX : Z := 0x63.
Definition DB_DIR_KEY_PREFIX : Z := 0x64.
Definition REL_DIR_KEY_PREFIX : Z := 0x65.

Definition DEFAULTTABLESPACE_OID : Z := 1663.
Definition GLOBALTABLESPACE_OID : Z := 1664.
Definition FSM_FORKNUM : Z := 1.
Definition VISIBILITYMAP_FORKNUM : Z := 2.
Definition INIT_FORKNUM : Z := 3.

Record RelTag := MkRelTag { forknum : Z; spcnode : Z; dbnode : Z; relnode : Z }.

Inductive SlruKind := Clog | MultiXactMembers | MultiXactOffsets.

#[global] Instance RelTag_eq_dec : EqDecision RelTag.
Proof. solve_decision. Defined.
#[global] Instance SlruKind_eq_dec : EqDecision SlruKind.
Proof. solve_decision. Defined.

Inductive RelDirExists := Exists | Removed.

Module RelDir.
Definition REL_EXISTS_MARKER : bytes := [114].
Definition SPARSE_TOMBSTONE_MARKER : bytes := [].

Definition encode (self : RelDirExists) : bytes :=
  match self with Exists => REL_EXISTS_MARKER | Removed => SPARSE_TOMBSTONE_MARKER end.

Definition decode_option (data : option bytes) : result unit RelDirExists :=
  match data with
  | Some marker => if decide (marker = REL_EXISTS_MARKER) then Ok Exists else Err tt
  | None => Ok Removed
  end.

Definition decode (data : bytes) : result unit RelDirExists :=
  if decide (data = REL_EXISTS_MARKER) then Ok Exists
  else if decide (data = SPARSE_TOMBSTONE_MARKER) then Ok Removed
  else Err tt.
End RelDir.

Module Key.

Definition wf (k : Key) : Prop :=
  u8 (field1 k) ∧ u32 (field2 k) ∧ u32 (field3 k) ∧ u32 (field4 k) ∧
  u8 (field5 k) ∧ u32 (field6 k).

(** The derived [Ord]: the fields in order. *)
Definition cmp (a b : Key) : comparison :=
  match field1 a ?= field1 b with
  | Eq => match field2 a ?= field2 b with
    | Eq => match field3 a ?= field3 b with
      | Eq => match field4 a ?= field4 b with
        | Eq => match field5 a ?= field5 b with
          | Eq => field6 a ?= field6 b
          | c => c end
        | c => c end
      | c => c end
    | c => c end
  | c => c end.

Definition ltb (a b : Key) : bool := match cmp a b with Lt => true | _ => false end.
Definition leb (a b : Key) : bool := negb (ltb b a).
Definition eqb (a b : Key) : bool := bool_decide (a = b).
Definition max (a b : Key) : Key := if leb a b then b else a.
Definition min (a b : Key) : Key := if leb a b then a else b.

(** [Range<Key>::contains] and [is_empty]. *)
Definition range_contains (r : Range Key) (k : Key) : bool :=
  leb (r_start r) k && ltb k (r_end r).
Definition range_is_empty (r : Range Key) : bool := negb (ltb (r_start r) (r_end r)).

Definition MIN : Key := MkKey 0 0 0 0 0 0.
Definition MAX : Key := MkKey 0xff 0xffffffff 0xffffffff 0xffffffff 0xff 0xffffffff.

Definition is_metadata_key_slice (key : bytes) : result unit bool :=
  match key with
  | b :: _ => Ok ((METADATA_KEY_BEGIN_PREFIX <=? b) && (b <? METADATA_KEY_END_PREFIX))
  | [] => Panic
  end.

Definition is_metadata_key (self : Key) : bool :=
  (METADATA_KEY_BEGIN_PREFIX <=? field1 self) && (field1 self <? METADATA_KEY_END_PREFIX).

Definition is_i128_representable (self : Key) : bool :=
  (field2 self <=? 0xFFFF) || (field2 self =? 0xFFFFFFFF) || (field2 self =? 0x22222222).

Definition is_valid_key_on_write_path_strong (self : Key) : bool :=
  if negb (is_i128_representable self) then false
  else if (field1 self =? 0) &&
          negb ((field2 self =? GLOBALTABLESPACE_OID) ||
                (field2 self =? DEFAULTTABLESPACE_OID) || (field2 self =? 0))
  then false else true.

Definition is_valid_key_on_write_path (self : Key) : bool := is_i128_representable self.

Definition to_i128 (self : Key) : result unit Z :=
  if is_i128_representable self then
    Ok (Z.lor (Z.shiftl (Z.land (field1 self) 0x7F) 120)
       (Z.lor (Z.shiftl (Z.land (field2 self) 0xFFFF) 104)
       (Z.lor (Z.shiftl (field3 self) 72)
       (Z.lor (Z.shiftl (field4 self) 40)
       (Z.lor (Z.shiftl (field5 self) 32) (field6 self))))))
  else Panic.

Definition from_i128 (x : Z) : Key := {|
  field1 := wrap 8 (Z.land (Z.shiftr x 120) 0x7F);
  field2 := wrap 32 (Z.land (Z.shiftr x 104) 0xFFFF);
  field3 := wrap 32 (Z.shiftr x 72);
  field4 := wrap 32 (Z.shiftr x 40);
  field5 := wrap 8 (Z.shiftr x 32);
  field6 := wrap 32 x
|}.

(** [CompactKey] wraps the [i128]. *)
Definition to_compact (self : Key) : result unit Z := to_i128 self.
Definition from_compact (k : Z) : Key := from_i128 k.

Definition from_metadata_key_fixed_size (key : bytes) : result unit Key :=
  match is_metadata_key_slice key with
  | Ok true => Ok (from_i128 (be_val key))
  | _ => Panic
  end.

(** [key.try_into().expect("expect 16 byte metadata key")] *)
Definition from_metadata_key (key : bytes) : result unit Key :=
  if decide (length key = METADATA_KEY_SIZE) then from_metadata_key_fixed_size key else Panic.

Definition prefix_range (p q : Z) : Range Key :=
  mkRange (MkKey p 0 0 0 0 0) (MkKey q 0 0 0 0 0).
Definition metadata_key_range : Range Key :=
  prefix_range METADATA_KEY_BEGIN_PREFIX METADATA_KEY_END_PREFIX.
Definition metadata_aux_key_range : Range Key :=
  prefix_range AUX_KEY_PREFIX (AUX_KEY_PREFIX + 1).
Definition rel_dir_sparse_key_range : Range Key :=
  prefix_range REL_DIR_KEY_PREFIX (REL_DIR_KEY_PREFIX + 1).
Definition sparse_non_inherited_keyspace : Range Key :=
  prefix_range AUX_KEY_PREFIX (REPL_ORIGIN_KEY_PREFIX + 1).

(** Addition with carry through the fields; the carry out of [field1] is an
    [assert!]. *)
Definition add (self : Key) (x : Z) : result unit Key :=
  let '(f6, c6) := overflowing_add 32 (field6 self) x in
  if c6 then
    let '(f5, c5) := overflowing_add 8 (field5 self) 1 in
    if c5 then
      let '(f4, c4) := overflowing_add 32 (field4 self) 1 in
      if c4 then
        let '(f3, c3) := overflowing_add 32 (field3 self) 1 in
        if c3 then
          let '(f2, c2) := overflowing_add 32 (field2 self) 1 in
          if c2 then
            let '(f1, c1) := overflowing_add 8 (field1 self) 1 in
            if c1 then Panic else Ok (MkKey f1 f2 f3 f4 f5 f6)
          else Ok (MkKey (field1 self) f2 f3 f4 f5 f6)
        else Ok (MkKey (field1 self) (field2 self) f3 f4 f5 f6)
      else Ok (MkKey (field1 self) (field2 self) (field3 self) f4 f5 f6)
    else Ok (MkKey (field1 self) (field2 self) (field3 self) (field4 self) f5 f6)
  else Ok (MkKey (field1 self) (field2 self) (field3 self) (field4 self) (field5 self) f6).

Definition next (self : Key) : result unit Key := add self 1.

(** Reads [b[0..18]]; a shorter slice panics. *)
Definition from_slice (b : bytes) : result unit Key :=
  if decide (KEY_SIZE ≤ length b)%nat then
    Ok {| field1 := be_val (take 1 b);
          field2 := be_val (take 4 (drop 1 b));
          field3 := be_val (take 4 (drop 5 b));
          field4 := be_val (take 4 (drop 9 b));
          field5 := be_val (take 1 (drop 13 b));
          field6 := be_val (take 4 (drop 14 b)) |}
  else Panic.

Definition to_bytes (self : Key) : bytes :=
  be_bytes 1 (field1 self) ++ be_bytes 4 (field2 self) ++ be_bytes 4 (field3 self) ++
  be_bytes 4 (field4 self) ++ be_bytes 1 (field5 self) ++ be_bytes 4 (field6 self).

Definition write_to_byte_slice (self : Key) (buf : bytes) : result unit bytes :=
  if decide (KEY_SIZE ≤ length buf)%nat then Ok (to_bytes self ++ drop KEY_SIZE buf) else Panic.

(** [impl Display]: [{:02X}{:08X}{:08X}{:08X}{:02X}{:08X}]. *)
Definition fmt (self : Key) : bytes :=
  fmt_hex_pad true 2 (field1 self) ++ fmt_hex_pad true 8 (field2 self) ++
  fmt_hex_pad true 8 (field3 self) ++ fmt_hex_pad true 8 (field4 self) ++
  fmt_hex_pad true 2 (field5 self) ++ fmt_hex_pad true 8 (field6 self).

Definition from_hex (s : bytes) : result unit Key :=
  if decide (length s = 36%nat) then
    f1 ← of_option tt (from_str_radix16 8 (take 2 s));
    f2 ← of_option tt (from_str_radix16 32 (take 8 (drop 2 s)));
    f3 ← of_option tt (from_str_radix16 32 (take 8 (drop 10 s)));
    f4 ← of_option tt (from_str_radix16 32 (take 8 (drop 18 s)));
    f5 ← of_option tt (from_str_radix16 8 (take 2 (drop 26 s)));
    f6 ← of_option tt (from_str_radix16 32 (take 8 (drop 28 s)));
    Ok (MkKey f1 f2 f3 f4 f5 f6)
  else Err tt.

(** [impl FromStr] *)
Definition from_str (s : bytes) : result unit Key := from_hex s.

End Key.

(** * Layout of the key address space *)

Definition DBDIR_KEY : Key := MkKey 0x00 0 0 0 0 0.

Definition dbdir_key_range (spcnode dbnode : Z) : Range Key :=
  mkRange (MkKey 0x00 spcnode dbnode 0 0 0)
          (MkKey 0x00 spcnode dbnode 0xffffffff 0xff 0xffffffff).

Definition relmap_file_key (spcnode dbnode : Z) : Key := MkKey 0x00 spcnode dbnode 0 0 0.

Definition rel_dir_to_key (spcnode dbnode : Z) : Key := MkKey 0x00 spcnode dbnode 0 0 1.

Definition rel_tag_sparse_key (spcnode dbnode relnode forknum : Z) : Key :=
  MkKey REL_DIR_KEY_PREFIX spcnode dbnode relnode forknum 1.

Definition rel_tag_sparse_key_range (spcnode dbnode : Z) : Range Key :=
  mkRange (MkKey REL_DIR_KEY_PREFIX spcnode dbnode 0 0 0)
          (MkKey REL_DIR_KEY_PREFIX spcnode dbnode 0xffffffff 0xff 0xffffffff).

Definition rel_block_to_key (rel : RelTag) (blknum : Z) : Key :=
  MkKey 0x00 (spcnode rel) (dbnode rel) (relnode rel) (forknum rel) blknum.

Definition orioledb_wal_key (lsn : Z) : Key :=
  MkKey ORIOLEDB_WAL_KEY_PREFIX 0 (wrap 32 (Z.shiftr lsn 32)) 0 0 (wrap 32 lsn).

Definition rel_size_to_key (rel : RelTag) : Key :=
  MkKey 0x00 (spcnode rel) (dbnode rel) (relnode rel) (forknum rel) 0xffffffff.

Definition rel_key_range (rel : RelTag) : Range Key :=
  mkRange
    (MkKey 0x00 (spcnode rel) (dbnode rel) (relnode rel) (forknum rel) 0)
    (MkKey 0x00 (spcnode rel) (dbnode rel) (relnode rel) (wrapping_add 8 (forknum rel) 1) 0).

(** The [match kind] that every SLRU function repeats. *)
Definition slru_kind_num (kind : SlruKind) : Z :=
  match kind with Clog => 0x00 | MultiXactMembers => 0x01 | MultiXactOffsets => 0x02 end.

Definition slru_dir_to_key (kind : SlruKind) : Key := MkKey 0x01 (slru_kind_num kind) 0 0 0 0.

Definition slru_dir_kind (key : Key) : option (result Z SlruKind) :=
  if (field1 key =? 0x01) && (field3 key =? 0) && (field4 key =? 0) &&
     (field5 key =? 0) && (field6 key =? 0)
  then Some (if field2 key =? 0 then Ok Clog
             else if field2 key =? 1 then Ok MultiXactMembers
             else if field2 key =? 2 then Ok MultiXactOffsets
             else Err (field2 key))
  else None.

Definition slru_block_to_key (kind : SlruKind) (segno blknum : Z) : Key :=
  MkKey 0x01 (slru_kind_num kind) 1 segno 0 blknum.

Definition slru_segment_size_to_key (kind : SlruKind) (segno : Z) : Key :=
  MkKey 0x01 (slru_kind_num kind) 1 segno 0 0xffffffff.

Definition slru_segment_key_range (kind : SlruKind) (segno : Z) : Range Key :=
  mkRange (MkKey 0x01 (slru_kind_num kind) 1 segno 0 0)
          (MkKey 0x01 (slru_kind_num kind) 1 segno 1 0).

Definition TWOPHASEDIR_KEY : Key := MkKey 0x02 0 0 0 0 0.

Definition twophase_file_key (xid : Z) : Key :=
  MkKey 0x02 0 0
    (wrap 32 (Z.shiftr (Z.land xid 0xFFFFFF0000000000) 40))
    (wrap 8 (Z.shiftr (Z.land xid 0x000000FF00000000) 32))
    (wrap 32 (Z.land xid 0x00000000FFFFFFFF)).

Definition twophase_key_range (xid : Z) : Range Key :=
  let '(next_xid, overflowed) := overflowing_add 64 xid 1 in
  mkRange
    (MkKey 0x02 0 0
      (wrap 32 (Z.shiftr (Z.land xid 0xFFFFFF0000000000) 40))
      (wrap 8 (Z.shiftr (Z.land xid 0x000000FF00000000) 32))
      (wrap 32 (Z.land xid 0x00000000FFFFFFFF)))
    (MkKey 0x02 0 (if overflowed : bool then 1 else 0)
      (wrap 32 (Z.shiftr (Z.land next_xid 0xFFFFFF0000000000) 40))
      (wrap 8 (Z.shiftr (Z.land next_xid 0x000000FF00000000) 32))
      (wrap 32 (Z.land next_xid 0x00000000FFFFFFFF))).

Definition CONTROLFILE_KEY : Key := MkKey 0x03 0 0 0 0 0.
Definition CHECKPOINT_KEY : Key := MkKey 0x03 0 0 0 0 1.
Definition AUX_FILES_KEY : Key := MkKey 0x03 0 0 0 0 2.
Definition ORIOLEDB_STATE_KEY : Key := MkKey 0x03 0 0 0 0 3.

Definition repl_origin_key (origin_id : Z) : Key :=
  MkKey REPL_ORIGIN_KEY_PREFIX 0 0 0 0 origin_id.

Definition repl_origin_key_range : Range Key :=
  mkRange (MkKey REPL_ORIGIN_KEY_PREFIX 0 0 0 0 0)
          (MkKey REPL_ORIGIN_KEY_PREFIX 0 0 0 0 0x10000).

(** [AUX_FILES_KEY..AUX_FILES_KEY.next()], a constant expression. *)
Definition NON_INHERITED_RANGE : Range Key :=
  mkRange AUX_FILES_KEY (match Key.next AUX_FILES_KEY with Ok k => k | _ => AUX_FILES_KEY end).
Definition SPARSE_RANGE : Range Key := Key.metadata_key_range.

Module KeyClass.

Definition is_rel_size_key (self : Key) : bool :=
  (field1 self =? 0) && (field6 self =? 0xffffffff).

Definition is_slru_segment_size_key (self : Key) : bool :=
  (field1 self =? 0x01) && (field2 self <? 0x03) && (field3 self =? 0x01) &&
  (field5 self =? 0) && (field6 self =? 0xffffffff).

Definition is_slru_dir_key (self : Key) : bool :=
  match slru_dir_kind self with Some _ => true | None => false end.

Definition is_sparse (self : Key) : bool :=
  (METADATA_KEY_BEGIN_PREFIX <=? field1 self) && (field1 self <? METADATA_KEY_END_PREFIX).

Definition is_inherited_sparse_key (self : Key) : bool :=
  field1 self =? RELATION_SIZE_PREFIX.

Definition is_inherited_key (self : Key) : bool :=
  if is_sparse self then is_inherited_sparse_key self
  else negb (Key.range_contains NON_INHERITED_RANGE self).

Definition is_rel_fsm_block_key (self : Key) : bool :=
  (field1 self =? 0x00) && negb (field4 self =? 0) && (field5 self =? FSM_FORKNUM) &&
  negb (field6 self =? 0xffffffff).

Definition is_rel_vm_block_key (self : Key) : bool :=
  (field1 self =? 0x00) && negb (field4 self =? 0) &&
  (field5 self =? VISIBILITYMAP_FORKNUM) && negb (field6 self =? 0xffffffff).

Definition to_slru_block (self : Key) : result unit (SlruKind * Z * Z) :=
  if field1 self =? 0x01 then
    kind ← (if field2 self =? 0x00 then Ok Clog
            else if field2 self =? 0x01 then Ok MultiXactMembers
            else if field2 self =? 0x02 then Ok MultiXactOffsets
            else Err tt);
    Ok (kind, field4 self, field6 self)
  else Err tt.

Definition is_slru_block_key (self : Key) : bool :=
  (field1 self =? 0x01) && (field3 self =? 0x00000001) && negb (field6 self =? 0xffffffff).

Definition is_rel_block_key (self : Key) : bool :=
  (field1 self =? 0x00) && negb (field4 self =? 0) && negb (field6 self =? 0xffffffff).

Definition is_rel_block_of_rel (self : Key) (rel : Z) : bool :=
  is_rel_block_key self && (field4 self =? rel).

Definition is_rel_dir_key (self : Key) : bool :=
  (field1 self =? 0x00) && negb (field2 self =? 0) && negb (field3 self =? 0) &&
  (field4 self =? 0) && (field5 self =? 0) && (field6 self =? 1).

Definition is_aux_file_key (self : Key) : bool := field1 self =? AUX_KEY_PREFIX.

Definition to_rel_block (self : Key) : result Z (RelTag * Z) :=
  if field1 self =? 0x00 then
    Ok ({| spcnode := field2 self; dbnode := field3 self; relnode := field4 self;
           forknum := field5 self |}, field6 self)
  else Err (field1 self).

End KeyClass.
