(* ===== verification/KeysFacts.v ===== *)
(** Facts about storage keys: the order of keys and its three readings (the
    fields, the 18 bytes, the [i128]), arithmetic with carry, the text and byte
    round trips, and the layout of the key address space. *)

From S2P Require Import Prelude Text Lsns Keys.
From Stdlib Require Import Structures.Orders Structures.OrdersTac.
Local Open Scope Z_scope.

(** * The order of keys *)

Definition key_lt (a b : Key) : Prop := Key.ltb a b = true.
Definition key_le (a b : Key) : Prop := Key.leb a b = true.

Lemma ltb_lex a b :
  Key.ltb a b = true ↔
  field1 a < field1 b ∨ field1 a = field1 b ∧
  (field2 a < field2 b ∨ field2 a = field2 b ∧
  (field3 a < field3 b ∨ field3 a = field3 b ∧
  (field4 a < field4 b ∨ field4 a = field4 b ∧
  (field5 a < field5 b ∨ field5 a = field5 b ∧ field6 a < field6 b)))).
Proof.
  unfold Key.ltb, Key.cmp.
  destruct (Z.compare_spec (field1 a) (field1 b)); [|split; [lia|done]|split; [done|lia]].
  destruct (Z.compare_spec (field2 a) (field2 b)); [|split; [lia|done]|split; [done|lia]].
  destruct (Z.compare_spec (field3 a) (field3 b)); [|split; [lia|done]|split; [done|lia]].
  destruct (Z.compare_spec (field4 a) (field4 b)); [|split; [lia|done]|split; [done|lia]].
  destruct (Z.compare_spec (field5 a) (field5 b)); [|split; [lia|done]|split; [done|lia]].
  destruct (Z.compare_spec (field6 a) (field6 b)); (split; [lia || done| done || lia]).
Qed.

Lemma Key_ext a b :
  field1 a = field1 b → field2 a = field2 b → field3 a = field3 b →
  field4 a = field4 b → field5 a = field5 b → field6 a = field6 b → a = b.
Proof. destruct a, b; simpl; congruence. Qed.

#[global] Instance key_lt_strict : StrictOrder key_lt.
Proof.
  unfold key_lt. split.
  - intros a. unfold complement. rewrite ltb_lex. lia.
  - intros a b c. rewrite !ltb_lex. lia.
Qed.

Lemma key_lt_total a b : key_lt a b ∨ a = b ∨ key_lt b a.
Proof.
  unfold key_lt. rewrite !ltb_lex.
  destruct (decide (field1 a = field1 b)), (decide (field2 a = field2 b)),
    (decide (field3 a = field3 b)), (decide (field4 a = field4 b)),
    (decide (field5 a = field5 b)), (decide (field6 a = field6 b)); try lia.
  right; left. by apply Key_ext.
Qed.

Lemma key_leb_le a b : Key.leb a b = true ↔ key_lt a b ∨ a = b.
Proof.
  unfold Key.leb. rewrite negb_true_iff. split.
  - intros H. destruct (key_lt_total a b) as [|[|H']]; auto. unfold key_lt in H'. congruence.
  - intros [H| ->].
    + destruct (Key.ltb b a) eqn:E; [|done]. exfalso.
      apply (StrictOrder_Irreflexive (R := key_lt) a). by transitivity b.
    + destruct (Key.ltb b b) eqn:E; [|done]. by destruct (StrictOrder_Irreflexive (R := key_lt) b).
Qed.

Lemma key_ltb_ge a b : Key.ltb a b = false ↔ key_le b a.
Proof. unfold key_le, Key.leb. by rewrite negb_true_iff. Qed.

Lemma key_leb_gt a b : Key.leb a b = false ↔ key_lt b a.
Proof. unfold key_lt, Key.leb. by rewrite negb_false_iff. Qed.

Module KeyO <: TotalOrder.
Definition t := Key.
Definition eq := @eq Key.
Definition lt := key_lt.
Definition le := key_le.
#[global] Instance eq_equiv : Equivalence eq := eq_equivalence.
#[global] Instance lt_strorder : StrictOrder lt := key_lt_strict.
#[global] Instance lt_compat : Proper (eq ==> eq ==> iff) lt.
Proof. intros ?? -> ?? ->. done. Qed.
Definition le_lteq (x y : Key) : le x y ↔ lt x y ∨ eq x y := key_leb_le x y.
Definition lt_total : ∀ x y : Key, lt x y ∨ eq x y ∨ lt y x := key_lt_total.
End KeyO.

Module KeyTac := !MakeOrderTac KeyO KeyO.

(** Turns the boolean comparisons of keys in the context into the
    propositions the order tactic reads. *)
Ltac key_simpl :=
  repeat match goal with
  | H : Key.ltb ?a ?b = true |- _ => change (key_lt a b) in H
  | H : Key.ltb ?a ?b = false |- _ => apply key_ltb_ge in H
  | H : Key.leb ?a ?b = true |- _ => change (key_le a b) in H
  | H : Key.leb ?a ?b = false |- _ => apply key_leb_gt in H
  | |- Key.ltb ?a ?b = true => change (key_lt a b)
  | |- Key.ltb ?a ?b = false => apply key_ltb_ge
  | |- Key.leb ?a ?b = true => change (key_le a b)
  | |- Key.leb ?a ?b = false => apply key_leb_gt
  | H : Key.eqb _ _ = true |- _ => apply bool_decide_eq_true in H
  | H : Key.eqb _ _ = false |- _ => apply bool_decide_eq_false in H
  end.
Ltac key_order :=
  key_simpl; change key_lt with KeyO.lt in *; change key_le with KeyO.le in *; KeyTac.order.

(** * Keys as numbers *)

(** The 18 bytes of a key, read as one big-endian number. *)
Definition key_Z (k : Key) : Z :=
  ((((field1 k * 2 ^ 32 + field2 k) * 2 ^ 32 + field3 k) * 2 ^ 32 + field4 k) * 2 ^ 8
    + field5 k) * 2 ^ 32 + field6 k.

Lemma compare_digit B x1 y1 x2 y2 :
  0 ≤ y1 < B → 0 ≤ y2 < B →
  (x1 * B + y1 ?= x2 * B + y2) =
  match x1 ?= x2 with Eq => y1 ?= y2 | c => c end.
Proof.
  intros H1 H2. destruct (Z.compare_spec x1 x2) as [->|H|H].
  - apply Z.add_compare_mono_l.
  - apply Z.compare_lt_iff. nia.
  - apply Z.compare_gt_iff. nia.
Qed.

Lemma cmp_key_Z a b : Key.wf a → Key.wf b → Key.cmp a b = (key_Z a ?= key_Z b).
Proof.
  intros (A1 & A2 & A3 & A4 & A5 & A6) (B1 & B2 & B3 & B4 & B5 & B6).
  unfold key_Z, Key.cmp. rewrite !compare_digit by done. by repeat case_match.
Qed.

Lemma ltb_key_Z a b : Key.wf a → Key.wf b → Key.ltb a b = (key_Z a <? key_Z b).
Proof. intros Ha Hb. unfold Key.ltb, Z.ltb. by rewrite cmp_key_Z. Qed.

Lemma leb_key_Z a b : Key.wf a → Key.wf b → Key.leb a b = (key_Z a <=? key_Z b).
Proof. intros Ha Hb. unfold Key.leb. rewrite ltb_key_Z by done. lia. Qed.

Lemma key_Z_range k : Key.wf k → 0 ≤ key_Z k < 2 ^ 144.
Proof. unfold Key.wf, in_u, key_Z. lia. Qed.

Lemma key_Z_inj a b : Key.wf a → Key.wf b → key_Z a = key_Z b → a = b.
Proof.
  intros Ha Hb E. destruct (key_lt_total a b) as [H|[H|H]]; [|done|];
    unfold key_lt in H; rewrite ltb_key_Z in H by done; lia.
Qed.

Lemma key_add_Z k x :
  Key.wf k → u32 x →
  if key_Z k + x <? 2 ^ 144
  then ∃ k', Key.add k x = Ok k' ∧ Key.wf k' ∧ key_Z k' = key_Z k + x
  else Key.add k x = Panic.
Proof.
  intros (H1 & H2 & H3 & H4 & H5 & H6) Hx. unfold in_u in *.
  assert (∀ w a b, 0 ≤ a < 2 ^ w → 0 ≤ b < 2 ^ w →
    ∃ s c, overflowing_add w a b = (s, c) ∧ 0 ≤ s < 2 ^ w ∧
      a + b = s + (if c : bool then 2 ^ w else 0)) as Hov.
  { intros w a b Ha Hb. unfold overflowing_add, wrap.
    destruct (2 ^ w <=? a + b) eqn:E; eexists _, _; (split; [done|]).
    - assert ((a + b) mod 2 ^ w = a + b - 2 ^ w) as ->; [|lia].
      symmetry. apply (Z.mod_unique_pos _ _ 1); lia.
    - rewrite Z.mod_small; lia. }
  unfold Key.add, key_Z, Key.wf, in_u.
  destruct (Hov 32 (field6 k) x) as (s6 & c6 & -> & ? & ?); [done..|].
  destruct (Hov 8 (field5 k) 1) as (s5 & c5 & -> & ? & ?); [done..|].
  destruct (Hov 32 (field4 k) 1) as (s4 & c4 & -> & ? & ?); [done..|].
  destruct (Hov 32 (field3 k) 1) as (s3 & c3 & -> & ? & ?); [done..|].
  destruct (Hov 32 (field2 k) 1) as (s2 & c2 & -> & ? & ?); [done..|].
  destruct (Hov 8 (field1 k) 1) as (s1 & c1 & -> & ? & ?); [done..|].
  clear Hov. destruct c6, c5, c4, c3, c2, c1; case_match;
    first [lia | done | eexists; split; [done|simpl; lia]].
Qed.

(** adding to a key is addition on its 144-bit value with every carry
    propagated; it panics exactly when the sum leaves the key space. *)
Theorem add_spec k x :
  Key.wf k → u32 x →
  if key_Z k + x <? 2 ^ 144
  then ∃ k', Key.add k x = Ok k' ∧ Key.wf k' ∧ key_Z k' = key_Z k + x
  else Key.add k x = Panic.
Proof. apply key_add_Z. Qed.

Lemma add_spec_witness :
  Key.add (MkKey 0 1 2 3 0xff 0xffffffff) 2 = Ok (MkKey 0 1 2 4 0 1) ∧
  ∃ k', Key.add (MkKey 0 1 2 3 0xff 0xffffffff) 2 = Ok k' ∧ Key.wf k' ∧
    key_Z k' = key_Z (MkKey 0 1 2 3 0xff 0xffffffff) + 2.
Proof. split; [done|]. apply (add_spec (MkKey 0 1 2 3 0xff 0xffffffff) 2); by vm_compute. Defined.

(** The successor of a key, where there is one. *)
Lemma key_next_Z k :
  Key.wf k → key_lt k Key.MAX →
  ∃ k', Key.next k = Ok k' ∧ Key.wf k' ∧ key_Z k' = key_Z k + 1.
Proof.
  intros Hk Hm. unfold key_lt in Hm. rewrite ltb_key_Z in Hm by (done || by vm_compute).
  change (key_Z Key.MAX) with (2 ^ 144 - 1) in Hm.
  pose proof (key_add_Z k 1 Hk ltac:(by vm_compute)) as H. case_match; [done|lia].
Qed.

(** * Byte and text forms *)

Lemma length_to_bytes k : length (Key.to_bytes k) = KEY_SIZE.
Proof. unfold Key.to_bytes. by rewrite !length_app, !length_be_bytes. Qed.

Lemma to_bytes_u8 k : Forall u8 (Key.to_bytes k).
Proof. unfold Key.to_bytes. rewrite !Forall_app. split_and!; apply be_bytes_u8. Qed.

Lemma be_val_to_bytes k : Key.wf k → be_val (Key.to_bytes k) = key_Z k.
Proof.
  intros (H1 & H2 & H3 & H4 & H5 & H6). unfold Key.to_bytes.
  rewrite !be_val_app, !length_app, !length_be_bytes.
  rewrite (be_val_be_bytes 1 _ H1), (be_val_be_bytes 4 _ H2), (be_val_be_bytes 4 _ H3),
    (be_val_be_bytes 4 _ H4), (be_val_be_bytes 1 _ H5), (be_val_be_bytes 4 _ H6).
  unfold key_Z. cbn [Nat.add Z.of_nat Pos.of_succ_nat Pos.succ]. lia.
Qed.

Lemma from_slice_to_bytes k rest : Key.wf k → Key.from_slice (Key.to_bytes k ++ rest) = Ok k.
Proof.
  intros (H1 & H2 & H3 & H4 & H5 & H6). unfold Key.from_slice. rewrite decide_True by (rewrite length_app, length_to_bytes; lia). unfold Key.to_bytes.
  f_equal. apply Key_ext; cbn [be_bytes app take drop field1 field2 field3 field4 field5 field6].
  - apply (be_val_be_bytes 1), H1.
  - apply (be_val_be_bytes 4), H2.
  - apply (be_val_be_bytes 4), H3.
  - apply (be_val_be_bytes 4), H4.
  - apply (be_val_be_bytes 1), H5.
  - apply (be_val_be_bytes 4), H6.
Qed.

(** the 18-byte form of a key is an order-preserving encoding: writing a
    key into any buffer of at least 18 bytes and reading it back gives the key,
    and comparing the encodings as byte strings is comparing the keys. *)
Theorem byte_slice_roundtrip a b buf :
  Key.wf a → Key.wf b → (KEY_SIZE ≤ length buf)%nat →
  (∃ buf', Key.write_to_byte_slice a buf = Ok buf' ∧ length buf' = length buf ∧
     Key.from_slice buf' = Ok a) ∧
  bytes_cmp (Key.to_bytes a) (Key.to_bytes b) = Key.cmp a b.
Proof.
  intros Ha Hb Hbuf. split.
  - unfold Key.write_to_byte_slice. rewrite decide_True by done.
    eexists; split; [done|]. split.
    { rewrite length_app, length_to_bytes, length_drop. lia. }
    by apply from_slice_to_bytes.
  - rewrite bytes_cmp_be_val, !be_val_to_bytes, cmp_key_Z;
      eauto using to_bytes_u8.
Qed.

Lemma byte_slice_roundtrip_witness :
  bytes_cmp (Key.to_bytes (MkKey 0 1663 5 16384 0 7)) (Key.to_bytes (MkKey 0 1663 5 16384 1 0)) = Lt.
Proof.
  etransitivity;
    [apply (byte_slice_roundtrip _ _ (replicate 18 0)); by vm_compute | reflexivity].
Defined.

(** [Display] and [FromStr] of keys are inverse on every key. *)
Theorem key_display_fromstr k : Key.wf k → Key.from_str (Key.fmt k) = Ok k.
Proof.
  intros (H1 & H2 & H3 & H4 & H5 & H6). unfold Key.from_str, Key.from_hex, Key.fmt.
  pose proof (length_fmt_hex_pad true 1 (field1 k) H1) as L1.
  pose proof (length_fmt_hex_pad true 7 (field2 k) H2) as L2.
  pose proof (length_fmt_hex_pad true 7 (field3 k) H3) as L3.
  pose proof (length_fmt_hex_pad true 7 (field4 k) H4) as L4.
  pose proof (length_fmt_hex_pad true 1 (field5 k) H5) as L5.
  pose proof (length_fmt_hex_pad true 7 (field6 k) H6) as L6.
  pose proof (fmt_hex_pad_parse 8 true 2 (field1 k) ltac:(lia) H1) as P1.
  pose proof (fmt_hex_pad_parse 32 true 8 (field2 k) ltac:(lia) H2) as P2.
  pose proof (fmt_hex_pad_parse 32 true 8 (field3 k) ltac:(lia) H3) as P3.
  pose proof (fmt_hex_pad_parse 32 true 8 (field4 k) ltac:(lia) H4) as P4.
  pose proof (fmt_hex_pad_parse 8 true 2 (field5 k) ltac:(lia) H5) as P5.
  pose proof (fmt_hex_pad_parse 32 true 8 (field6 k) ltac:(lia) H6) as P6.
  revert L1 L2 L3 L4 L5 L6 P1 P2 P3 P4 P5 P6.
  generalize (fmt_hex_pad true 2 (field1 k)), (fmt_hex_pad true 8 (field2 k)),
    (fmt_hex_pad true 8 (field3 k)), (fmt_hex_pad true 8 (field4 k)),
    (fmt_hex_pad true 2 (field5 k)), (fmt_hex_pad true 8 (field6 k)).
  intros s1 s2 s3 s4 s5 s6 L1 L2 L3 L4 L5 L6 P1 P2 P3 P4 P5 P6.
  rewrite decide_True by (rewrite !length_app; lia).
  rewrite (take_app_length' s1) by done.
  rewrite (drop_app_length' s1 _ 2), (take_app_length' s2) by done.
  rewrite (drop_app_add' s1 _ 2 8), (drop_app_length' s2), (take_app_length' s3) by done.
  rewrite (drop_app_add' s1 _ 2 16), (drop_app_add' s2 _ 8 8), (drop_app_length' s3),
    (take_app_length' s4) by done.
  rewrite (drop_app_add' s1 _ 2 24), (drop_app_add' s2 _ 8 16), (drop_app_add' s3 _ 8 8),
    (drop_app_length' s4), (take_app_length' s5) by done.
  rewrite (drop_app_add' s1 _ 2 26), (drop_app_add' s2 _ 8 18), (drop_app_add' s3 _ 8 10),
    (drop_app_add' s4 _ 8 2), (drop_app_length' s5), (take_ge s6) by (done || lia).
  rewrite P1, P2, P3, P4, P5, P6. by destruct k.
Qed.

Lemma key_display_fromstr_witness :
  Key.from_str (Key.fmt (MkKey 0 1663 5 16384 0 7)) = Ok (MkKey 0 1663 5 16384 0 7).
Proof. apply key_display_fromstr. by vm_compute. Defined.

(** * The compact [i128] form *)

(** Keys that the compact form represents faithfully. *)
Definition compactable (k : Key) : Prop :=
  Key.wf k ∧ field1 k ≤ 0x7F ∧ field2 k ≤ 0xFFFF.

(** The value of the 16-byte form. *)
Definition compact_Z (k : Key) : Z :=
  ((((field1 k * 2 ^ 16 + field2 k) * 2 ^ 32 + field3 k) * 2 ^ 32 + field4 k) * 2 ^ 8
    + field5 k) * 2 ^ 32 + field6 k.

(** What [to_i128] keeps of a key. *)
Definition truncated (k : Key) : Key :=
  MkKey (field1 k mod 2 ^ 7) (field2 k mod 2 ^ 16) (field3 k) (field4 k) (field5 k) (field6 k).

Lemma truncated_compactable k : Key.wf k → compactable (truncated k).
Proof.
  unfold compactable, Key.wf, truncated, in_u. simpl.
  pose proof (Z.mod_pos_bound (field1 k) (2 ^ 7)).
  pose proof (Z.mod_pos_bound (field2 k) (2 ^ 16)). lia.
Qed.

Lemma truncated_id k : compactable k → truncated k = k.
Proof.
  intros ((H1 & H2 & _) & ? & ?). unfold in_u in *.
  apply Key_ext; try done; apply Z.mod_small; lia.
Qed.

Lemma cmp_compact_Z a b : compactable a → compactable b → Key.cmp a b = (compact_Z a ?= compact_Z b).
Proof.
  intros ((A1 & A2 & A3 & A4 & A5 & A6) & ? & ?) ((B1 & B2 & B3 & B4 & B5 & B6) & ? & ?).
  unfold compact_Z, Key.cmp. unfold in_u in *. rewrite !compare_digit by lia.
  by repeat case_match.
Qed.

Lemma cmp_eq a b : Key.cmp a b = Eq → a = b.
Proof.
  unfold Key.cmp. intros H. repeat (case_match; try done).
  apply Key_ext; by apply Z.compare_eq.
Qed.

Lemma compact_Z_inj a b : compactable a → compactable b → compact_Z a = compact_Z b → a = b.
Proof.
  intros Ha Hb E. apply cmp_eq. rewrite cmp_compact_Z by done. by apply Z.compare_eq_iff.
Qed.

Lemma to_i128_val k :
  Key.wf k → Key.is_i128_representable k = true →
  Key.to_i128 k = Ok (compact_Z (truncated k)) ∧ 0 ≤ compact_Z (truncated k) < 2 ^ 127.
Proof.
  intros Hwf Hrep. unfold Key.to_i128. rewrite Hrep.
  pose proof (truncated_compactable k Hwf) as ((T1 & T2 & _) & ? & ?).
  destruct Hwf as (H1 & H2 & H3 & H4 & H5 & H6).
  change 0x7F with (2 ^ 7 - 1). change 0xFFFF with (2 ^ 16 - 1).
  rewrite !land_mask by lia. simpl in T1, T2. unfold compact_Z, truncated.
  cbn [field1 field2 field3 field4 field5 field6]. unfold in_u in *. simpl in *.
  rewrite (lor_shiftl_add (field5 k)) by lia.
  rewrite (lor_shiftl_add (field4 k)) by lia.
  rewrite (lor_shiftl_add (field3 k)) by lia.
  rewrite (lor_shiftl_add (field2 k mod _)) by lia.
  rewrite (lor_shiftl_add (field1 k mod _)) by lia.
  split; [f_equal|]; lia.
Qed.

Lemma from_i128_val x :
  0 ≤ x < 2 ^ 127 → compactable (Key.from_i128 x) ∧ compact_Z (Key.from_i128 x) = x.
Proof.
  intros Hx. unfold Key.from_i128, compactable, Key.wf, compact_Z, in_u, wrap.
  cbn [field1 field2 field3 field4 field5 field6].
  change 0x7F with (2 ^ 7 - 1). change 0xFFFF with (2 ^ 16 - 1).
  rewrite !land_mask, !Z.shiftr_div_pow2 by lia.
  assert (0 ≤ x / 2 ^ 120 < 2 ^ 7) as Hq.
  { split; [apply Z.div_pos; lia|]. apply Z.div_lt_upper_bound; lia. }
  assert (x / 2 ^ 40 = x / 2 ^ 32 / 2 ^ 8) as E1 by (rewrite Z.div_div by lia; done).
  assert (x / 2 ^ 72 = x / 2 ^ 40 / 2 ^ 32) as E2 by (rewrite Z.div_div by lia; done).
  assert (x / 2 ^ 104 = x / 2 ^ 72 / 2 ^ 32) as E3 by (rewrite Z.div_div by lia; done).
  assert (x / 2 ^ 120 = x / 2 ^ 104 / 2 ^ 16) as E4 by (rewrite Z.div_div by lia; done).
  rewrite (Z.mod_small (x / 2 ^ 120) (2 ^ 7)) by lia.
  rewrite (Z.mod_small (x / 2 ^ 120) (2 ^ 8)) by lia.
  pose proof (Z.mod_pos_bound (x / 2 ^ 104) (2 ^ 16)).
  rewrite (Z.mod_small (_ mod _) (2 ^ 32)) by lia.
  pose proof (Z.div_mod x (2 ^ 32)). pose proof (Z.mod_pos_bound x (2 ^ 32)).
  pose proof (Z.div_mod (x / 2 ^ 32) (2 ^ 8)). pose proof (Z.mod_pos_bound (x / 2 ^ 32) (2 ^ 8)).
  pose proof (Z.div_mod (x / 2 ^ 40) (2 ^ 32)). pose proof (Z.mod_pos_bound (x / 2 ^ 40) (2 ^ 32)).
  pose proof (Z.div_mod (x / 2 ^ 72) (2 ^ 32)). pose proof (Z.mod_pos_bound (x / 2 ^ 72) (2 ^ 32)).
  pose proof (Z.div_mod (x / 2 ^ 104) (2 ^ 16)).
  lia.
Qed.

(** [to_i128] and [from_i128] are mutually inverse order isomorphisms
    between the keys with [field1 <= 0x7F] and [field2 <= 0xFFFF] and the
    integers below 2^127; on the other keys that [is_i128_representable]
    accepts ([field2] 0x22222222 and 0xFFFFFFFF, or a high bit in [field1])
    the round trip loses the key. *)
Theorem i128_isomorphism :
  (∀ k, Key.wf k → Key.is_i128_representable k = true →
     ∃ z, Key.to_i128 k = Ok z ∧ 0 ≤ z < 2 ^ 127 ∧ (Key.from_i128 z = k ↔ compactable k)) ∧
  (∀ z, 0 ≤ z < 2 ^ 127 → Key.to_i128 (Key.from_i128 z) = Ok z) ∧
  (∀ a b, compactable a → compactable b →
     ∃ x y, Key.to_i128 a = Ok x ∧ Key.to_i128 b = Ok y ∧ Key.ltb a b = (x <? y)).
Proof.
  assert (∀ k, compactable k → Key.is_i128_representable k = true) as Hrep.
  { intros k (_ & _ & ?). unfold Key.is_i128_representable. lia. }
  split_and!.
  - intros k Hk Hr. destruct (to_i128_val k Hk Hr) as [E B]. eexists; split_and!; [done|lia..|].
    destruct (from_i128_val _ B) as [Hc Hv]. split; [by intros <-|].
    intros Hck. rewrite truncated_id in * by done. by apply compact_Z_inj.
  - intros z Hz. destruct (from_i128_val z Hz) as [Hc Hv].
    destruct (to_i128_val (Key.from_i128 z)) as [-> _]; [apply Hc|by apply Hrep|].
    by rewrite truncated_id, Hv.
  - intros a b Ha Hb. eexists _, _. split_and!.
    + apply to_i128_val; [apply Ha|by apply Hrep].
    + apply to_i128_val; [apply Hb|by apply Hrep].
    + rewrite !truncated_id by done. unfold Key.ltb, Z.ltb. by rewrite cmp_compact_Z.
Qed.

(** * The layout of the address space *)

(** Everything the pageserver stores under a key of its own. *)
Inductive KeyObject :=
  | ODbDir
  | ORelMap (spc db : Z)
  | ORelDir (spc db : Z)
  | ORelBlock (rel : RelTag) (blk : Z)
  | ORelSize (rel : RelTag)
  | OSlruDir (kind : SlruKind)
  | OSlruBlock (kind : SlruKind) (segno blk : Z)
  | OSlruSegSize (kind : SlruKind) (segno : Z)
  | OTwoPhaseDir
  | OTwoPhaseFile (xid : Z)
  | OControlFile
  | OCheckpoint
  | OAuxFiles
  | OOrioleState
  | OReplOrigin (id : Z)
  | ORelSparse (spc db rel fork : Z)
  | OOrioleWal (lsn : Z).

Definition object_key (o : KeyObject) : Key :=
  match o with
  | ODbDir => DBDIR_KEY
  | ORelMap spc db => relmap_file_key spc db
  | ORelDir spc db => rel_dir_to_key spc db
  | ORelBlock rel blk => rel_block_to_key rel blk
  | ORelSize rel => rel_size_to_key rel
  | OSlruDir kind => slru_dir_to_key kind
  | OSlruBlock kind segno blk => slru_block_to_key kind segno blk
  | OSlruSegSize kind segno => slru_segment_size_to_key kind segno
  | OTwoPhaseDir => TWOPHASEDIR_KEY
  | OTwoPhaseFile xid => twophase_file_key xid
  | OControlFile => CONTROLFILE_KEY
  | OCheckpoint => CHECKPOINT_KEY
  | OAuxFiles => AUX_FILES_KEY
  | OOrioleState => ORIOLEDB_STATE_KEY
  | OReplOrigin id => repl_origin_key id
  | ORelSparse spc db rel fork => rel_tag_sparse_key spc db rel fork
  | OOrioleWal lsn => orioledb_wal_key lsn
  end.

(** The values PostgreSQL never uses: tablespace 0, relfilenode 0, block
    0xffffffff ([InvalidBlockNumber]) and transaction 0. *)
Definition object_valid (o : KeyObject) : Prop :=
  match o with
  | ORelMap spc _ | ORelDir spc _ => spc ≠ 0
  | ORelBlock rel blk => relnode rel ≠ 0 ∧ blk ≠ 0xffffffff
  | ORelSize rel => relnode rel ≠ 0
  | OSlruBlock _ _ blk => blk ≠ 0xffffffff
  | OTwoPhaseFile xid => u64 xid ∧ xid ≠ 0
  | OOrioleWal lsn => u64 lsn
  | _ => True
  end.

Lemma shiftr_land_mask x m n k :
  0 ≤ k → Z.shiftr m n = 2 ^ k - 1 → Z.shiftr (Z.land x m) n = Z.shiftr x n mod 2 ^ k.
Proof. intros Hk Hm. by rewrite Z.shiftr_land, Hm, land_mask. Qed.

Lemma u64_words x :
  u64 x →
  wrap 32 (Z.shiftr x 32) = x / 2 ^ 32 ∧ wrap 32 x = x mod 2 ^ 32 ∧ 0 ≤ x / 2 ^ 32 < 2 ^ 32.
Proof.
  intros Hx. unfold in_u in Hx.
  assert (0 ≤ x / 2 ^ 32 < 2 ^ 32) as Hq.
  { split; [apply Z.div_pos; lia|]. apply Z.div_lt_upper_bound; lia. }
  split_and!; [|done|lia..]. rewrite Z.shiftr_div_pow2 by lia. by apply Z.mod_small.
Qed.

Lemma twophase_fields xid :
  u64 xid →
  Key.wf (twophase_file_key xid) ∧ key_Z (twophase_file_key xid) = 2 * 2 ^ 136 + xid.
Proof.
  intros Hx. destruct (u64_words xid Hx) as (_ & _ & Hq). unfold in_u in Hx.
  unfold twophase_file_key, Key.wf, key_Z, in_u. cbn [field1 field2 field3 field4 field5 field6].
  rewrite (shiftr_land_mask xid _ 40 24), (shiftr_land_mask xid _ 32 8) by done.
  change 0x00000000FFFFFFFF with (2 ^ 32 - 1). rewrite land_mask by lia.
  rewrite !Z.shiftr_div_pow2 by lia. unfold wrap.
  assert (x_40 : xid / 2 ^ 40 = xid / 2 ^ 32 / 2 ^ 8) by (rewrite Z.div_div by lia; done).
  assert (0 ≤ xid / 2 ^ 40 < 2 ^ 24).
  { split; [apply Z.div_pos; lia|]. apply Z.div_lt_upper_bound; lia. }
  pose proof (Z.mod_pos_bound (xid / 2 ^ 32) (2 ^ 8)). pose proof (Z.mod_pos_bound xid (2 ^ 32)).
  pose proof (Z.div_mod (xid / 2 ^ 32) (2 ^ 8)). pose proof (Z.div_mod xid (2 ^ 32)).
  rewrite (Z.mod_small (xid / 2 ^ 40) (2 ^ 24)) by lia.
  rewrite (Z.mod_small (xid / 2 ^ 40) (2 ^ 32)) by lia.
  rewrite (Z.mod_small (xid / 2 ^ 32 mod 2 ^ 8) (2 ^ 8)) by lia.
  rewrite (Z.mod_small (xid mod 2 ^ 32) (2 ^ 32)) by lia. lia.
Qed.

Lemma orioledb_wal_fields lsn :
  u64 lsn →
  Key.wf (orioledb_wal_key lsn) ∧
  key_Z (orioledb_wal_key lsn) = 0x70 * 2 ^ 136 + lsn / 2 ^ 32 * 2 ^ 72 + lsn mod 2 ^ 32.
Proof.
  intros Hx. destruct (u64_words lsn Hx) as (E1 & E2 & Hq).
  pose proof (Z.mod_pos_bound lsn (2 ^ 32)).
  unfold orioledb_wal_key, Key.wf, key_Z, in_u. cbn [field1 field2 field3 field4 field5 field6].
  rewrite E1, E2. unfold ORIOLEDB_WAL_KEY_PREFIX. lia.
Qed.

Lemma orioledb_wal_key_inj a b : u64 a → u64 b → orioledb_wal_key a = orioledb_wal_key b → a = b.
Proof.
  intros Ha Hb E. destruct (orioledb_wal_fields a Ha) as [_ Ea].
  destruct (orioledb_wal_fields b Hb) as [_ Eb]. rewrite E in Ea.
  pose proof (Z.div_mod a (2 ^ 32)). pose proof (Z.mod_pos_bound a (2 ^ 32)).
  pose proof (Z.div_mod b (2 ^ 32)). pose proof (Z.mod_pos_bound b (2 ^ 32)). lia.
Qed.

Lemma twophase_file_key_inj a b :
  u64 a → u64 b → twophase_file_key a = twophase_file_key b → a = b.
Proof.
  intros Ha Hb E. destruct (twophase_fields a Ha) as [_ Ea].
  destruct (twophase_fields b Hb) as [_ Eb]. rewrite E in Ea. lia.
Qed.

Lemma slru_kind_num_inj a b : slru_kind_num a = slru_kind_num b → a = b.
Proof. by destruct a, b. Qed.

(** C35: no two stored objects share a storage key: the mapping from logical
    objects (relation blocks and sizes, directories, SLRU segments, two-phase
    files, control data, the OrioleDB stream) to keys is injective. *)
Theorem object_key_injective a b :
  object_valid a → object_valid b → object_key a = object_key b → a = b.
Proof.
  intros Ha Hb E. pose proof (f_equal field1 E) as E1.
  destruct a as [| | |[]|[]| | | | | | | | | | | |],
           b as [| | |[]|[]| | | | | | | | | | | |]; try discriminate E1; clear E1;
    cbn [object_key object_valid] in *; destruct_and?; try done.
  all: try match type of E with
    | TWOPHASEDIR_KEY = twophase_file_key _ => by apply (twophase_file_key_inj 0) in E
    | twophase_file_key _ = TWOPHASEDIR_KEY => by apply (twophase_file_key_inj _ 0) in E
    | twophase_file_key _ = _ => f_equal; by apply twophase_file_key_inj
    | orioledb_wal_key _ = _ => f_equal; by apply orioledb_wal_key_inj
    end.
  all: injection E; intros; simplify_eq/=; try done.
  all: f_equal; by apply slru_kind_num_inj.
Qed.

Lemma object_key_injective_witness :
  object_key (ORelSize (MkRelTag 0 1663 5 16384)) = MkKey 0 1663 5 16384 0 0xffffffff ∧
  OTwoPhaseFile 7 = OTwoPhaseFile 7.
Proof. split; [done|]. by apply object_key_injective; try by vm_compute. Defined.

Lemma range_contains_lex r k :
  Key.range_contains r k = true ↔ key_le (r_start r) k ∧ key_lt k (r_end r).
Proof. unfold Key.range_contains, key_le, key_lt. by rewrite andb_true_iff. Qed.

Lemma key_le_lex a b : key_le a b ↔ ¬ key_lt b a.
Proof. unfold key_le, key_lt, Key.leb. destruct (Key.ltb b a); naive_solver. Qed.

(** [rel_key_range] covers exactly the keys of the relation fork, its
    blocks and its size, and nothing of any other relation or fork (for every
    fork number below 255). *)
Theorem rel_key_range_exact rel k :
  Key.wf k → 0 ≤ forknum rel < 255 →
  Key.range_contains (rel_key_range rel) k = true ↔
  KeyClass.to_rel_block k = Ok (rel, field6 k).
Proof.
  intros (_ & _ & _ & _ & _ & H6) Hf. destruct rel as [fork spc db rn]; simpl in Hf.
  rewrite range_contains_lex, key_le_lex. unfold key_lt. rewrite !ltb_lex.
  unfold rel_key_range, KeyClass.to_rel_block, wrapping_add. simpl.
  rewrite wrap_small by (unfold in_u; lia). unfold in_u in H6.
  destruct k as [f1 f2 f3 f4 f5 f6]; simpl in *. split.
  - intros Hk. assert (f1 = 0 ∧ f2 = spc ∧ f3 = db ∧ f4 = rn ∧ f5 = fork) by lia.
    destruct_and?. by subst.
  - case_match; [|done]. intros [= <- <- <- <-]. lia.
Qed.

Lemma rel_key_range_exact_witness :
  Key.range_contains (rel_key_range (MkRelTag 0 1663 5 16384)) (MkKey 0 1663 5 16384 0 9) = true.
Proof. apply rel_key_range_exact; by vm_compute. Defined.

(** the OrioleDB WAL stream is stored in LSN order, across the 4 GiB
    boundary too: comparing the keys of two records is comparing their LSNs. *)
Theorem orioledb_wal_key_order a b :
  u64 a → u64 b → Key.cmp (orioledb_wal_key a) (orioledb_wal_key b) = (a ?= b).
Proof.
  intros Ha Hb. destruct (orioledb_wal_fields a Ha) as [Wa Ea].
  destruct (orioledb_wal_fields b Hb) as [Wb Eb]. rewrite cmp_key_Z, Ea, Eb by done.
  pose proof (Z.div_mod a (2 ^ 32)). pose proof (Z.mod_pos_bound a (2 ^ 32)).
  pose proof (Z.div_mod b (2 ^ 32)). pose proof (Z.mod_pos_bound b (2 ^ 32)).
  destruct (Z.compare_spec a b); [apply Z.compare_eq_iff|apply Z.compare_lt_iff|apply Z.compare_gt_iff];
    lia.
Qed.

Lemma orioledb_wal_key_order_witness :
  Key.cmp (orioledb_wal_key 0xffffffff) (orioledb_wal_key 0x100000000) = Lt.
Proof. etransitivity; [apply orioledb_wal_key_order; by vm_compute | reflexivity]. Defined.

(** [twophase_key_range xid] covers exactly the key of the two-phase file
    of [xid], for every 64-bit [xid] but the last. *)
Lemma twophase_key_range_exact xid k :
  Key.wf k → 0 ≤ xid < 2 ^ 64 - 1 →
  Key.range_contains (twophase_key_range xid) k = true ↔ k = twophase_file_key xid.
Proof.
  intros Hk Hx. destruct (twophase_fields xid) as [W E]; [unfold in_u; lia|].
  destruct (twophase_fields (xid + 1)) as [W1 E1]; [unfold in_u; lia|].
  assert (twophase_key_range xid = mkRange (twophase_file_key xid) (twophase_file_key (xid + 1))) as ->.
  { unfold twophase_key_range, overflowing_add. rewrite (wrap_small 64) by (unfold in_u; lia).
    by rewrite (proj2 (Z.leb_gt _ _)) by lia. }
  unfold Key.range_contains. cbn [r_start r_end].
  rewrite leb_key_Z, ltb_key_Z, E, E1 by done. split.
  - intros ?. apply key_Z_inj; [done..|lia].
  - intros ->. lia.
Qed.


(** Reverse mappings used by WAL redo. *)
Lemma rel_block_roundtrip rel blk :
  KeyClass.to_rel_block (rel_block_to_key rel blk) = Ok (rel, blk).
Proof. by destruct rel. Qed.

Lemma slru_block_roundtrip kind segno blk :
  KeyClass.to_slru_block (slru_block_to_key kind segno blk) = Ok (kind, segno, blk).
Proof. by destruct kind. Qed.
