(* ===== verification/Shards.v ===== *)
(** Sharding: [libs/utils/src/shard.rs], [libs/utils/src/id.rs] (the hex form of
    ids) and [libs/pageserver_api/src/shard.rs].

    A tenant's keys are spread over [count] shards by a hash of the relation and
    the stripe of the block.  Shard numbers and counts are [u8]; a count of 0 is
    the legacy form of one shard.  Divisions by the stripe size and the
    assertions of the source are the [Panic] outcome. *)

From S2P Require Import Prelude Text Lsns Keys.
Local Open Scope Z_scope.

(** * Identities *)

Record ShardIndex := MkShardIndex { sx_number : Z; sx_count : Z }.
Record TenantShardId := MkTenantShardId {
  tenant_id : bytes; (* 16 bytes *)
  shard_number : Z;
  shard_count : Z
}.

#[global] Instance ShardIndex_eq_dec : EqDecision ShardIndex.
Proof. solve_decision. Defined.
#[global] Instance TenantShardId_eq_dec : EqDecision TenantShardId.
Proof. solve_decision. Defined.

Module ShardCount.
Definition MAX : Z := 255.
Definition MIN : Z := 0.
Definition unsharded : Z := 0.
Definition count (self : Z) : Z := if 0 <? self then self else 1.
Definition is_unsharded (self : Z) : bool := self =? 0.
End ShardCount.

(** ** Text forms

    [hex::decode_to_slice(data, out)] belongs to the [hex] crate: it is a
    parameter, given the text and the length of the output slice.  [HexLaws] is
    its documented contract on the lower-case encoding of [n] bytes. *)

Inductive FromHexError := InvalidHexCharacter | OddLength | InvalidStringLength.

Class HexCrate := decode_to_slice : bytes → nat → result FromHexError bytes.

Definition HEX : bytes := bytes_of_string "0123456789abcdef".

Definition hex_encode (b : bytes) : bytes :=
  b ≫= λ x, [nth (Z.to_nat (Z.land (Z.shiftr x 4) 0xf)) HEX 0; nth (Z.to_nat (Z.land x 0xf)) HEX 0].

Class HexLaws `{HexCrate} := {
  decode_encode : ∀ b : bytes, Forall u8 b →
    decode_to_slice (hex_encode b) (length b) = Ok b;
  decode_no_panic : ∀ s n, decode_to_slice s n ≠ Panic
}.

(** [format!("{:02x}{:02x}", number, count)] *)
Definition fmt_slug (number count : Z) : bytes :=
  fmt_hex_pad false 2 number ++ fmt_hex_pad false 2 count.

Module ShardIndex.
Definition unsharded : ShardIndex := MkShardIndex 0 0.
Definition is_unsharded (self : ShardIndex) : bool :=
  (sx_number self =? 0) && (sx_count self =? 0).
Definition get_suffix (self : ShardIndex) : bytes :=
  if is_unsharded self then [] else bytes_of_string "-" ++ fmt_slug (sx_number self) (sx_count self).
Definition fmt (self : ShardIndex) : bytes := fmt_slug (sx_number self) (sx_count self).

Section hex.
Context `{HexCrate}.
Definition from_str (s : bytes) : result FromHexError ShardIndex :=
  if (length s =? 4)%nat then
    shard_parts ← decode_to_slice s 2;
    Ok (MkShardIndex (nth 0 shard_parts 0) (nth 1 shard_parts 0))
  else Err InvalidStringLength.
End hex.
End ShardIndex.

Module TenantShardId.
Definition unsharded (tenant_id : bytes) : TenantShardId := MkTenantShardId tenant_id 0 0.
Definition tenant_range (tenant_id : bytes) : TenantShardId * TenantShardId :=
  (MkTenantShardId tenant_id 0 0, MkTenantShardId tenant_id 255 255).
Definition is_shard_zero (self : TenantShardId) : bool := shard_number self =? 0.
Definition is_unsharded (self : TenantShardId) : bool :=
  (shard_number self =? 0) && ShardCount.is_unsharded (shard_count self).
Definition to_index (self : TenantShardId) : ShardIndex :=
  MkShardIndex (shard_number self) (shard_count self).

Definition split (self : TenantShardId) (new_shard_count : Z) : list TenantShardId :=
  let effective_old_shard_count := Z.max (shard_count self) 1 in
  omap (λ n : Z,
    if n mod effective_old_shard_count =? shard_number self
    then Some (MkTenantShardId (tenant_id self) n new_shard_count) else None)
  (seqZ 0 new_shard_count).

(** The derived [Ord]: tenant id bytes, then number, then count. *)
Definition cmp (a b : TenantShardId) : comparison :=
  match bytes_cmp (tenant_id a) (tenant_id b) with
  | Eq => match shard_number a ?= shard_number b with
          | Eq => shard_count a ?= shard_count b
          | c => c
          end
  | c => c
  end.

Definition fmt (self : TenantShardId) : bytes :=
  if negb (shard_count self =? 0)
  then hex_encode (tenant_id self) ++ bytes_of_string "-" ++ fmt_slug (shard_number self) (shard_count self)
  else hex_encode (tenant_id self).

Section hex.
Context `{HexCrate}.
Definition id_from_hex (s : bytes) : result FromHexError bytes := decode_to_slice s 16.
Definition from_str (s : bytes) : result FromHexError TenantShardId :=
  if (length s =? 32)%nat then
    tenant_id ← id_from_hex s; Ok (MkTenantShardId tenant_id 0 0)
  else if (length s =? 37)%nat then
    tenant_id ← id_from_hex (take 32 s);
    shard_parts ← decode_to_slice (take 4 (drop 33 s)) 2;
    Ok (MkTenantShardId tenant_id (nth 0 shard_parts 0) (nth 1 shard_parts 0))
  else Err InvalidStringLength.
End hex.

(** [From<[u8; 18]>] and the binary [Serialize] form. *)
Definition of_packed (b : bytes) : TenantShardId :=
  MkTenantShardId (take 16 b) (nth 16 b 0) (nth 17 b 0).
Definition to_packed (self : TenantShardId) : bytes :=
  tenant_id self ++ [shard_number self; shard_count self].
End TenantShardId.

(** * Placement of keys *)

Record ShardIdentity := MkShardIdentity {
  si_number : Z;
  si_count : Z;
  si_stripe_size : Z; (* u32, in pages *)
  si_layout : Z
}.

#[global] Instance ShardIdentity_eq_dec : EqDecision ShardIdentity.
Proof. solve_decision. Defined.

Definition LAYOUT_V1 : Z := 1.
Definition LAYOUT_BROKEN : Z := 255.
Definition DEFAULT_STRIPE_SIZE : Z := 16 * 1024 / 8.

Inductive ShardConfigError := InvalidCount | InvalidNumber | InvalidStripeSize.

Definition key_is_shard0 (key : Key) : bool :=
  let is_initfork := field5 key =? INIT_FORKNUM in
  negb (KeyClass.is_rel_block_key key) || is_initfork.

Definition murmurhash32 (h : Z) : Z :=
  let h := Z.lxor h (Z.shiftr h 16) in
  let h := wrapping_mul 32 h 0x85ebca6b in
  let h := Z.lxor h (Z.shiftr h 13) in
  let h := wrapping_mul 32 h 0xc2b2ae35 in
  Z.lxor h (Z.shiftr h 16).

Definition hash_combine (a b : Z) : Z :=
  let b := wrapping_add 32 b 0x9e3779b9 in
  let b := wrapping_add 32 b (wrap 32 (Z.shiftl a 6)) in
  let b := wrapping_add 32 b (Z.shiftr a 2) in
  Z.lxor a b.

Definition key_to_shard_number (count stripe_size : Z) (key : Key) : result unit Z :=
  if (count <? 2) || key_is_shard0 key then Ok 0
  else if stripe_size =? 0 then Panic
  else
    let hash := murmurhash32 (field4 key) in
    let hash := hash_combine hash (murmurhash32 (field6 key / stripe_size)) in
    Ok (wrap 8 (hash mod count)).

Module ShardIdentity.
Definition unsharded : ShardIdentity := MkShardIdentity 0 0 DEFAULT_STRIPE_SIZE LAYOUT_V1.
Definition unsharded_with_stripe_size (stripe_size : Z) : ShardIdentity :=
  if 0 <? stripe_size
  then MkShardIdentity 0 0 stripe_size LAYOUT_V1
  else unsharded.
Definition broken (number count : Z) : ShardIdentity :=
  MkShardIdentity number count DEFAULT_STRIPE_SIZE LAYOUT_BROKEN.
Definition is_unsharded (self : ShardIdentity) : bool :=
  (si_number self =? 0) && (si_count self =? 0).
Definition new (number count stripe_size : Z) : result ShardConfigError ShardIdentity :=
  if count =? 0 then Err InvalidCount
  else if count - 1 <? number then Err InvalidNumber
  else if stripe_size =? 0 then Err InvalidStripeSize
  else Ok (MkShardIdentity number count stripe_size LAYOUT_V1).
Definition is_broken (self : ShardIdentity) : bool := si_layout self =? LAYOUT_BROKEN.

Definition get_shard_number (self : ShardIdentity) (key : Key) : result unit Z :=
  if is_broken self then Panic
  else key_to_shard_number (si_count self) (si_stripe_size self) key.

Definition is_key_local (self : ShardIdentity) (key : Key) : result unit bool :=
  if is_broken self then Panic
  else if (si_count self <? 2) || (key_is_shard0 key && (si_number self =? 0)) then Ok true
  else
    n ← key_to_shard_number (si_count self) (si_stripe_size self) key;
    Ok (n =? si_number self).

Definition is_key_global (key : Key) : bool :=
  if KeyClass.is_slru_block_key key || KeyClass.is_slru_segment_size_key key
     || KeyClass.is_aux_file_key key || KeyClass.is_slru_dir_key key then false
  else if KeyClass.is_rel_block_key key then false
  else if KeyClass.is_rel_size_key key then true
  else true.

Definition is_key_disposable (self : ShardIdentity) (key : Key) : result unit bool :=
  if si_count self <? 2 then Ok false
  else if is_key_global key then Ok false
  else b ← is_key_local self key; Ok (negb b).

Definition shard_index (self : ShardIdentity) : ShardIndex :=
  MkShardIndex (si_number self) (si_count self).
Definition shard_slug (self : ShardIdentity) : bytes :=
  if 0 <? si_count self then bytes_of_string "-" ++ fmt_slug (si_number self) (si_count self) else [].
Definition is_shard_zero (self : ShardIdentity) : bool := si_number self =? 0.
End ShardIdentity.

(** * Requests to split a shard

    The checks of [do_shard_split] in [pageserver/src/tenant/mgr.rs] and the children it
    plans, for a shard of stripe size [stripe_size]. *)

Module ShardSplit.
Inductive SplitError := NotAnIncrease | NotAPowerOfTwo | StripeSizeModified.

Definition is_power_of_two (n : Z) : bool := (0 <? n) && (n =? 2 ^ Z.log2 n).

Definition do_shard_split (tenant_shard_id : TenantShardId) (stripe_size new_shard_count : Z) (new_stripe_size : option Z) :
    result SplitError (list TenantShardId) :=
  let old := ShardCount.count (shard_count tenant_shard_id) in
  if ShardCount.count new_shard_count <=? old then Err NotAnIncrease
  else
    let expansion_factor := ShardCount.count new_shard_count / old in
    if negb (is_power_of_two expansion_factor) then Err NotAPowerOfTwo
    else if match new_stripe_size with Some s => negb (stripe_size =? s) && (1 <? old) | None => false end then Err StripeSizeModified
    else Ok (TenantShardId.split tenant_shard_id new_shard_count).
End ShardSplit.

(** * Facts *)

Lemma key_to_shard_number_spec count stripe k :
  u8 count → 0 < stripe →
  (count < 2 ∨ key_is_shard0 k = true) ∧ key_to_shard_number count stripe k = Ok 0 ∨
  2 ≤ count ∧ key_is_shard0 k = false ∧
  key_to_shard_number count stripe k =
    Ok (hash_combine (murmurhash32 (field4 k)) (murmurhash32 (field6 k / stripe)) mod count).
Proof.
  intros Hc Hs. unfold key_to_shard_number. destruct (Z.ltb_spec count 2); [by left; auto|].
  destruct (key_is_shard0 k) eqn:Hk; [by left; auto|]. right. split_and!; [done..|].
  simpl. rewrite (proj2 (Z.eqb_neq stripe 0)) by lia. do 2 f_equal.
  apply wrap_small. unfold in_u in *. pose proof (Z.mod_pos_bound
    (hash_combine (murmurhash32 (field4 k)) (murmurhash32 (field6 k / stripe))) count). lia.
Qed.

Lemma elem_of_split t p old new c :
  c ∈ TenantShardId.split (MkTenantShardId t p old) new ↔
  tenant_id c = t ∧ shard_count c = new ∧ 0 ≤ shard_number c < new ∧
  shard_number c mod Z.max old 1 = p.
Proof.
  unfold TenantShardId.split. rewrite list_elem_of_omap. simpl. split.
  - intros (n & Hn%elem_of_seqZ & E). case_match; simplify_eq/=. zbool. intuition lia.
  - destruct c as [t' n c]; simpl. intros (-> & -> & Hn & Hp). exists n.
    rewrite elem_of_seqZ. split; [lia|]. by rewrite (proj2 (Z.eqb_eq _ _)).
Qed.

(** The new owner of a key is a child of its old owner, and of no other shard. *)
Definition stays_with_children (t : bytes) (old new stripe : Z) (k : Key) : Prop :=
  ∃ n m, key_to_shard_number old stripe k = Ok n ∧ key_to_shard_number new stripe k = Ok m ∧
    ∀ p, MkTenantShardId t m new ∈ TenantShardId.split (MkTenantShardId t p old) new ↔ p = n.

Lemma children_of_multiple t old new stripe k :
  u8 old → u8 new → 0 < new → 0 < stripe → (Z.max old 1 | new) → stays_with_children t old new stripe k.
Proof.
  intros Ho Hn Hpos Hs [q Hq]. unfold in_u, stays_with_children in *.
  set (h := hash_combine (murmurhash32 (field4 k)) (murmurhash32 (field6 k / stripe))).
  destruct (key_to_shard_number_spec old stripe k) as [[Co Eo]|(Co & Ko & Eo)]; [done..| |];
    destruct (key_to_shard_number_spec new stripe k) as [[Cn En]|(Cn & Kn & En)]; try done;
    rewrite Eo, En; do 2 eexists; (split; [done|split; [done|]]); intros p;
    rewrite elem_of_split; simpl; fold h.
  - rewrite Z.mod_0_l by lia. intuition lia.
  - pose proof (Z.mod_pos_bound h new Hpos). destruct Co as [Co|Co]; [|congruence].
    rewrite Z.max_r, Z.mod_1_r by lia. intuition lia.
  - exfalso. destruct Cn as [Cn|Cn]; [|congruence]. rewrite Z.max_l in Hq by lia. assert (0 < q) by nia. nia.
  - pose proof (Z.mod_pos_bound h new Hpos). rewrite Z.max_l in * by lia.
    rewrite (Z.mod_mod_divide h new old) by (by exists q). intuition lia.
Qed.

(** Block 0 of the relation [rel]; its owner does not depend on the stripe size. *)
Definition first_block (rel : Z) : Key := MkKey 0 1663 5 rel 0 0.
Definition first_block_hash (rel : Z) : Z := hash_combine (murmurhash32 rel) 0.

Lemma first_block_owner count stripe rel : u8 count → 0 < count → 0 < stripe → 0 < rel →
  key_to_shard_number count stripe (first_block rel) = Ok (first_block_hash rel mod count).
Proof.
  intros Hc Hpos Hs Hr. destruct (key_to_shard_number_spec count stripe (first_block rel) Hc Hs) as [[[Hc2|Hk] ->]|(_ & _ & ->)].
  - replace count with 1 by lia. by rewrite Z.mod_1_r.
  - unfold key_is_shard0, KeyClass.is_rel_block_key in Hk. cbn in Hk. rewrite (proj2 (Z.eqb_neq rel 0)) in Hk by lia. done.
  - cbn [field4 field6 first_block]. by rewrite Z.div_0_l by lia.
Qed.

(** The relations 1 to 16 are enough to find a block that moves: if none of theirs does,
    the old count divides the product of the new one and each of these quotients, which
    have no common divisor. *)
Definition some_hashes : list Z := first_block_hash <$> seqZ 1 16.
Definition quotients_gcd (new : Z) : Z := foldr (λ h, Z.gcd (h / new)) 0 some_hashes.

Lemma quotients_coprime new : 0 < new < 256 → quotients_gcd new = 1.
Proof.
  intros Hn. assert (forallb (λ n, (n =? 0) || (quotients_gcd n =? 1)) (seqZ 0 256) = true) as Hall by (vm_compute; reflexivity).
  pose proof (forallb_seqZ _ 256 new Hall ltac:(lia)) as H. cbv beta in H. lia.
Qed.

Lemma kept_divides old new h : 0 < old → 0 < new → (h mod new) mod old = h mod old → (old | new * (h / new)).
Proof.
  intros Ho Hn E. apply Z.mod_divide; [lia|]. pose proof (Z.div_mod h new ltac:(lia)). replace (new * (h / new)) with (h - h mod new) by lia.
  by rewrite Zminus_mod, E, Z.sub_diag, Z.mod_0_l by lia.
Qed.

Lemma some_hash_moves old new : 0 < old → 0 < new < 256 → ¬ (old | new) → List.Exists (λ h, (h mod new) mod old ≠ h mod old) some_hashes.
Proof.
  intros Ho Hn Hd. destruct (decide (List.Exists (λ h, (h mod new) mod old ≠ h mod old) some_hashes)) as [H|H]; [done|]. destruct Hd. apply not_Exists_Forall in H; [|apply _].
  rewrite <-(Z.mul_1_r new), <-(quotients_coprime new Hn). unfold quotients_gcd. induction H as [|h l Hh _ IH]; cbn; [by rewrite Z.mul_0_r; apply Z.divide_0_r|].
  rewrite <-Z.gcd_mul_mono_l_nonneg by lia. apply Z.gcd_greatest; [|done]. apply kept_divides; [lia..|]. by apply dec_stable.
Qed.

Lemma moves_of_non_multiple t old new stripe : u8 old → u8 new → 0 < new → 0 < stripe → ¬ (Z.max old 1 | new) →
  ∃ k, Key.wf k ∧ ¬ stays_with_children t old new stripe k.
Proof.
  intros Ho Hn Hpos Hs Hd. unfold u8, in_u in Ho, Hn. destruct (Z.le_gt_cases old 1); [destruct Hd; rewrite Z.max_r by lia; apply Z.divide_1_l|].
  rewrite Z.max_l in Hd by lia. destruct (proj1 (Exists_exists _ _) (some_hash_moves old new ltac:(lia) ltac:(lia) Hd)) as (h & Hin & Hmove).
  apply list_elem_of_fmap in Hin as (rel & -> & Hr%elem_of_seqZ).
  exists (first_block rel). split; [by split_and!; cbn; unfold u32, u8, in_u; lia|]. intros (n & m & En & Em & Hp).
  rewrite first_block_owner in En, Em by (unfold u8, in_u; lia). injection En as <-. injection Em as <-.
  destruct (Hp (first_block_hash rel mod old)) as [_ Hc]. specialize (Hc eq_refl). apply elem_of_split in Hc as (_ & _ & _ & Hc). cbn in Hc.
  rewrite Z.max_l in Hc by lia. done.
Qed.

(** C36: For which splits the keys stay with the shards that have their data: if the new
    count is a multiple of the old one, the shard that owns a key is a child of exactly
    the shard that owned it before, whatever the key; for every other new count there is a
    key, a block of a relation, that moves to a child of another shard. *)
Theorem split_children_own_keys t old new stripe :
  u8 old → u8 new → 0 < new → 0 < stripe →
  ((Z.max old 1 | new) → ∀ k, stays_with_children t old new stripe k) ∧
  (¬ (Z.max old 1 | new) → ∃ k, Key.wf k ∧ ¬ stays_with_children t old new stripe k).
Proof. intros ????. split; [|by apply moves_of_non_multiple]. intros ? k. by apply children_of_multiple. Qed.

Lemma split_children_own_keys_witness :
  stays_with_children [] 2 8 2048 (MkKey 0 0x67f 5 0x400c 0 0x7d06) ∧ ∃ k, Key.wf k ∧ ¬ stays_with_children [] 2 5 2048 k.
Proof.
  split.
  - apply (split_children_own_keys [] 2 8 2048); [by vm_compute..|by exists 4].
  - apply (split_children_own_keys [] 2 5 2048); [by vm_compute..|]. intros [q Hq]. cbn in Hq. lia.
Defined.

(** The check of a request looks at the truncated quotient of the counts: it lets a shard
    of two split into children of five, among which keys move. *)
Remark split_check_accepts_non_multiple :
  ShardSplit.do_shard_split (MkTenantShardId [] 0 2) 2048 5 None =
    Ok [MkTenantShardId [] 0 5; MkTenantShardId [] 2 5; MkTenantShardId [] 4 5] ∧
  ∃ k, Key.wf k ∧ key_to_shard_number 2 2048 k = Ok 0 ∧ key_to_shard_number 5 2048 k = Ok 1.
Proof.
  split; [by vm_compute|]. exists (first_block 2). split; [by split_and!; cbn; unfold u32, u8, in_u; lia|]. by vm_compute.
Qed.

(** splitting every shard of a tenant gives every new shard exactly once:
    each new shard has one and only one parent, and a parent lists it once. *)
Theorem split_partition t old new c :
  u8 old → u8 new →
  tenant_id c = t → shard_count c = new → 0 ≤ shard_number c < new →
  ∃ p, 0 ≤ p < ShardCount.count old ∧
    (∀ p', c ∈ TenantShardId.split (MkTenantShardId t p' old) new ↔ p' = p) ∧
    NoDup (TenantShardId.split (MkTenantShardId t p old) new).
Proof.
  intros Ho Hn Ht Hc Hr. unfold in_u in *. exists (shard_number c mod Z.max old 1). split_and!.
  - apply Z.mod_pos_bound. lia.
  - pose proof (Z.mod_pos_bound (shard_number c) (Z.max old 1)).
    unfold ShardCount.count. case_match; lia.
  - intros p. rewrite elem_of_split. split; [by intros (_ & _ & _ & ?)|by intros ->].
  - unfold TenantShardId.split. simpl. generalize (NoDup_seqZ 0 new).
    generalize (seqZ 0 new). intros l. induction 1 as [|n l Hnl _ IH]; simpl; [constructor|].
    case_match; [|done]. constructor; [|done]. rewrite list_elem_of_omap.
    intros (y & Hy & E). repeat case_match; simplify_eq/=. done.
Qed.

Lemma split_partition_witness :
  ∃ p, 0 ≤ p < ShardCount.count 3 ∧
    (∀ p', MkTenantShardId [] 5 8 ∈ TenantShardId.split (MkTenantShardId [] p' 3) 8 ↔ p' = p) ∧
    NoDup (TenantShardId.split (MkTenantShardId [] p 3) 8).
Proof. by apply (split_partition [] 3 8 (MkTenantShardId [] 5 8)). Defined.

(** on the shards of one tenant every key has exactly one owner: the owner
    and no other shard finds the key local, the others may dispose of it unless
    it is global, the owner may not, and all agree on the owner's number. *)
Theorem key_owner_unique count stripe k :
  u8 count → 0 < count → 0 < stripe →
  ∃ n, 0 ≤ n < count ∧ ∀ i, 0 ≤ i < count → ∃ self,
    ShardIdentity.new i count stripe = Ok self ∧
    ShardIdentity.get_shard_number self k = Ok n ∧
    ShardIdentity.is_key_local self k = Ok (i =? n) ∧
    ShardIdentity.is_key_disposable self k =
      Ok (negb (ShardIdentity.is_key_global k) && negb (i =? n)).
Proof.
  intros Hc Hpos Hs. pose proof (key_to_shard_number_spec count stripe k Hc Hs) as Hk.
  assert (∃ n, key_to_shard_number count stripe k = Ok n ∧ 0 ≤ n < count ∧
    (key_is_shard0 k = true ∨ count < 2 → n = 0)) as (n & En & Hn & Hn0).
  { destruct Hk as [[? ->]|(? & Hk & ->)]; eexists; (split; [done|split]);
      [lia|done|apply Z.mod_pos_bound; lia|intros [?|?]; [congruence|lia]]. }
  exists n. split; [done|]. intros i Hi. exists (MkShardIdentity i count stripe LAYOUT_V1).
  assert (ShardIdentity.is_key_local (MkShardIdentity i count stripe LAYOUT_V1) k = Ok (i =? n)) as El.
  { unfold ShardIdentity.is_key_local. simpl. case_match eqn:E.
    - f_equal. symmetry. apply Z.eqb_eq. zbool. destruct E; zbool; [lia|]. rewrite Hn0 by tauto. lia.
    - rewrite En. simpl. f_equal. apply Z.eqb_sym. }
  unfold ShardIdentity.is_key_disposable. rewrite El. split_and!.
  - unfold ShardIdentity.new. repeat case_match; zbool; try lia. done.
  - done.
  - done.
  - simpl. destruct (Z.ltb_spec count 2).
    + replace (i =? n) with true by (symmetry; apply Z.eqb_eq; lia).
      by rewrite andb_false_r.
    + by case_match.
Qed.

Lemma key_owner_unique_witness :
  ∃ n, 0 ≤ n < 10 ∧ ∀ i, 0 ≤ i < 10 → ∃ self,
    ShardIdentity.new i 10 32768 = Ok self ∧
    ShardIdentity.get_shard_number self (MkKey 0 0x67f 5 0x400c 0 0x7d06) = Ok n ∧
    ShardIdentity.is_key_local self (MkKey 0 0x67f 5 0x400c 0 0x7d06) = Ok (i =? n) ∧
    ShardIdentity.is_key_disposable self (MkKey 0 0x67f 5 0x400c 0 0x7d06) =
      Ok (negb (ShardIdentity.is_key_global (MkKey 0 0x67f 5 0x400c 0 0x7d06)) && negb (i =? n)).
Proof. by apply key_owner_unique. Defined.

(** The values of the source's unit tests. *)
Example shard_mapping_values :
  murmurhash32 0 = 0 ∧ hash_combine 0xb1ff3b40 0 = 0xfb7923c9 ∧
  key_to_shard_number 10 32768 (MkKey 0 0x67f 5 0x400c 0 0x7d06) = Ok 8.
Proof. by vm_compute. Qed.

(** ** Text round trip *)

Section hex_facts.
Context `{HexLaws}.

Lemma hex_encode_cons x b : hex_encode (x :: b) = hex_encode [x] ++ hex_encode b.
Proof. done. Qed.

Lemma length_hex_encode b : length (hex_encode b) = (2 * length b)%nat.
Proof.
  induction b as [|x b IH]; [done|]. rewrite hex_encode_cons, length_app, IH. simpl. lia.
Qed.

Lemma fmt_slug_hex_encode n c : u8 n → u8 c → fmt_slug n c = hex_encode [n; c].
Proof.
  assert (∀ z, 0 ≤ z < 256 → fmt_hex_pad false 2 z = hex_encode [z]) as E.
  { set (f := λ z, bool_decide (fmt_hex_pad false 2 z = hex_encode [z])).
    intros z Hz. assert (f z = true) as Ef by (by apply (forallb_seqZ f 256)).
    by apply bool_decide_eq_true in Ef. }
  intros Hn Hc. unfold fmt_slug. by rewrite !E.
Qed.

(** the text of a tenant shard id reads back as the same id (the legacy form
    of 32 digits for a count of 0, the form with the shard suffix otherwise), as
    does the packed form of 18 bytes. *)
Theorem tenant_shard_id_roundtrip t n c :
  Forall u8 t → length t = 16%nat → u8 n → u8 c → (c = 0 → n = 0) →
  TenantShardId.from_str (TenantShardId.fmt (MkTenantShardId t n c)) = Ok (MkTenantShardId t n c) ∧
  TenantShardId.of_packed (TenantShardId.to_packed (MkTenantShardId t n c)) = MkTenantShardId t n c.
Proof.
  intros Ht Hl Hn Hc Hz0. split.
  2: { unfold TenantShardId.of_packed, TenantShardId.to_packed. simpl.
       rewrite take_app_length' by done. rewrite !app_nth2 by lia. by rewrite Hl. }
  pose proof (decode_encode t Ht) as Dt. rewrite Hl in Dt.
  pose proof (decode_encode [n; c] ltac:(by repeat (constructor; [done|]))) as Ds.
  pose proof (length_hex_encode t) as Lt. rewrite Hl in Lt.
  unfold TenantShardId.fmt, TenantShardId.from_str, TenantShardId.id_from_hex. simpl shard_count.
  destruct (Z.eqb_spec c 0) as [->|Hne]; simpl negb; cbv iota.
  - simpl tenant_id. rewrite Lt. simpl. rewrite Dt. simpl. by rewrite Hz0.
  - simpl shard_number. simpl tenant_id. rewrite fmt_slug_hex_encode by done.
    set (hs := hex_encode [n; c]) in *. set (ht := hex_encode t) in *.
    replace (length (ht ++ bytes_of_string "-" ++ hs)) with 37%nat
      by (rewrite !length_app, Lt; done).
    change (37 =? 32)%nat with false. change (37 =? 37)%nat with true. cbv iota.
    rewrite (take_app_length' ht _ 32) by done.
    rewrite (drop_app_ge ht) by lia. rewrite Lt.
    change (drop (33 - 2 * 16) (bytes_of_string "-" ++ hs)) with hs.
    rewrite Dt, (take_ge hs 4) by done. unfold mbind, result_bind.
    change (length [n; c]) with 2%nat in Ds. by rewrite Ds.
Qed.
End hex_facts.

(** A decoder that meets the contract, for concrete inputs. *)
Fixpoint decode_pairs (s : bytes) : result FromHexError bytes :=
  match s with
  | [] => Ok []
  | [_] => Err OddLength
  | a :: b :: s' =>
      match of_hex_digit a, of_hex_digit b with
      | Some x, Some y => r ← decode_pairs s'; Ok (16 * x + y :: r)
      | _, _ => Err InvalidHexCharacter
      end
  end.

#[local] Instance decode_pairs_crate : HexCrate := λ s n,
  if (length s =? 2 * n)%nat then decode_pairs s else Err InvalidStringLength.

Lemma decode_pairs_no_panic s : decode_pairs s ≠ Panic.
Proof.
  remember (length s) as n eqn:Hn. assert (length s ≤ n)%nat as Hl by lia. clear Hn. revert s Hl.
  induction n as [|n IH]; intros [|a [|b s]] Hl; try done; cbn in Hl; try lia. cbn.
  destruct (of_hex_digit a), (of_hex_digit b); try done. specialize (IH s ltac:(lia)). by destruct (decode_pairs s).
Qed.

#[local] Instance decode_pairs_laws : HexLaws.
Proof.
  split; [|intros s n; unfold decode_to_slice, decode_pairs_crate; case_match; [apply decode_pairs_no_panic|done]].
  intros b Hb. unfold decode_to_slice, decode_pairs_crate.
  rewrite length_hex_encode, Nat.eqb_refl. induction Hb as [|x b Hx _ IH]; [done|].
  set (f := λ x, match hex_encode [x] with
    | [a; b] => match of_hex_digit a, of_hex_digit b with
                | Some u, Some v => 16 * u + v =? x | _, _ => false end
    | _ => false end).
  assert (f x = true) as Ef by (by apply (forallb_seqZ f 256)).
  rewrite hex_encode_cons.
  unfold f in Ef. destruct (hex_encode [x]) as [|u [|v []]]; try done. cbn.
  destruct (of_hex_digit u), (of_hex_digit v); try done. rewrite IH. cbn.
  do 2 f_equal. by apply Z.eqb_eq.
Qed.

Lemma tenant_shard_id_roundtrip_witness :
  TenantShardId.from_str (TenantShardId.fmt (MkTenantShardId (seqZ 0 16) 7 10)) =
    Ok (MkTenantShardId (seqZ 0 16) 7 10) ∧
  TenantShardId.of_packed (TenantShardId.to_packed (MkTenantShardId (seqZ 0 16) 7 10)) =
    MkTenantShardId (seqZ 0 16) 7 10.
Proof.
  apply tenant_shard_id_roundtrip; [|done..].
  apply (bool_decide_unpack (Forall u8 (seqZ 0 16))). by vm_compute.
Defined.
