(* ===== verification/KeySpaces.v ===== *)
(** Sets of keys: [libs/pageserver_api/src/keyspace.rs].

    A [KeySpace] is a sorted vector of half-open ranges.  [KeySpaceAccum] and
    [KeySpaceRandomAccum] collect ranges into one; [merge],
    [remove_overlapping_with], [overlaps] and [contains] are the set operations;
    [ShardedRange] counts and cuts a range by the stripes of a shard, and
    [KeySpace::partition] cuts a key space into pieces of about equal size.

    Counts are [u32] as in the source, so their additions and subtractions wrap.
    The [while] loops run with [Loops.FUEL], that of [remove_overlapping_with] for
    each range at most once per range of [self]; [None] means that they ran out. *)

From S2P Require Import Prelude Text Loops Lsns Keys Shards.
Local Open Scope Z_scope.

Abbreviation KeySpace := (list (Range Key)).

(** * Accumulators *)

Definition U32_MAX : Z := 2 ^ 32 - 1.

Definition is_contiguous_range (range : Range Key) : bool :=
  let s := r_start range in
  let e := r_end range in
  (field1 s =? field1 e) && (field2 s =? field2 e) && (field3 s =? field3 e) &&
  (field4 s =? field4 e) &&
  ((field5 s =? field5 e) ||
   ((field6 s =? 0xffffffff) && (wrapping_add 8 (field5 s) 1 =? field5 e))).

Definition contiguous_range_len (range : Range Key) : Z :=
  if field6 (r_start range) =? 0xffffffff
  then wrapping_add 32 (field6 (r_end range)) 1
  else wrapping_sub 32 (field6 (r_end range)) (field6 (r_start range)).

Definition raw_size (range : Range Key) : Z :=
  if is_contiguous_range range then contiguous_range_len range else U32_MAX.

Definition singleton_range (key : Key) : result unit (Range Key) :=
  e ← Key.next key; Ok (mkRange key e).

Module KeySpaceAccum.
Record t := Mk {
  accum : option (Range Key);
  ranges : list (Range Key);
  size : Z (* u64 *)
}.
Definition new : t := Mk None [] 0.

Definition add_range (range : Range Key) : M t unit unit := λ self,
  let size := wrapping_add 64 (size self) (raw_size range) in
  match accum self with
  | Some acc =>
      if Key.eqb (r_start range) (r_end acc)
      then (Ok tt, Mk (Some (mkRange (r_start acc) (r_end range))) (ranges self) size)
      else if Key.ltb (r_end acc) (r_start range)
      then (Ok tt, Mk (Some range) (ranges self ++ [acc]) size)
      else (Panic, Mk (accum self) (ranges self) size)
  | None => (Ok tt, Mk (Some range) (ranges self) size)
  end.

Definition add_key (key : Key) : M t unit unit :=
  r ← liftR (singleton_range key); add_range r.

Definition to_keyspace (self : t) : KeySpace :=
  match accum self with
  | Some acc => ranges self ++ [acc]
  | None => ranges self
  end.

Definition consume_keyspace : M t unit KeySpace := λ self, (Ok (to_keyspace self), new).

Definition raw_size (self : t) : Z := size self.
End KeySpaceAccum.

Module KeySpaceRandomAccum.
(** The loop of [to_keyspace] over the sorted ranges: the finished ranges and
    the open one. *)
Fixpoint coalesce (l : list (Range Key)) (ranges : KeySpace) (start end_ : Key) : result unit KeySpace :=
  match l with
  | [] => Ok (ranges ++ [mkRange start end_])
  | r :: l' =>
      if Key.leb start (r_start r) then
        if Key.ltb end_ (r_start r) then coalesce l' (ranges ++ [mkRange start end_]) (r_start r) (r_end r)
        else if Key.ltb end_ (r_end r) then coalesce l' ranges start (r_end r)
        else coalesce l' ranges start end_
      else Panic
  end.

Definition to_keyspace (ranges : list (Range Key)) : result unit KeySpace :=
  match sort_by (λ a b, Key.leb (r_start a) (r_start b)) ranges with
  | [] => Ok []
  | (r :: _) as sorted => coalesce sorted [] (r_start r) (r_end r)
  end.

Definition add_range (range : Range Key) : M (list (Range Key)) unit unit :=
  modifyS (λ ranges, ranges ++ [range]).
Definition add_key (key : Key) : M (list (Range Key)) unit unit :=
  r ← liftR (singleton_range key); add_range r.
Definition add_keyspace (keyspace : KeySpace) : M (list (Range Key)) unit unit :=
  modifyS (λ ranges, foldl (λ acc r, acc ++ [r]) ranges keyspace).
Definition consume_keyspace : M (list (Range Key)) unit KeySpace := λ ranges,
  (to_keyspace ranges, []).
End KeySpaceRandomAccum.

(** * Set operations *)

(** [Itertools::merge_by] belongs to the [itertools] crate.  Its documentation:
    the two iterators are merged in ascending order, [is_first] telling when the
    left element comes first. *)
Class MergeBy := merge_by : ∀ {A}, (A → A → bool) → list A → list A → list A.
Class MergeByLaws `{MergeBy} := {
  merge_by_perm {A} (is_first : A → A → bool) l r : merge_by is_first l r ≡ₚ l ++ r;
  merge_by_sorted {A} (is_first : A → A → bool) l r :
    (∀ a b, is_first a b = true → is_first b a = false) →
    (∀ a b c, is_first a b = false → is_first b c = false → is_first a c = false) →
    StronglySorted (λ a b, is_first b a = false) l →
    StronglySorted (λ a b, is_first b a = false) r →
    StronglySorted (λ a b, is_first b a = false) (merge_by is_first l r)
}.

(** [Iterator::skip_while] and [Iterator::take_while] *)
Fixpoint skip_while {A} (p : A → bool) (l : list A) : list A :=
  match l with [] => [] | x :: l' => if p x then skip_while p l' else l end.
Fixpoint take_while {A} (p : A → bool) (l : list A) : list A :=
  match l with [] => [] | x :: l' => if p x then x :: take_while p l' else [] end.

Module KeySpace.

Definition start (self : KeySpace) : option Key := r_start <$> head self.
Definition end_ (self : KeySpace) : option Key := r_end <$> last self.
Definition total_raw_size (self : KeySpace) : Z := foldr (λ r acc, raw_size r + acc) 0 self.
Definition is_empty (self : KeySpace) : bool := total_raw_size self =? 0.

Definition overlaps_at (self : KeySpace) (range : Range Key) : result unit (option nat) :=
  let at_ (index : nat) :=
    match self !! (index - 1)%nat with
    | Some r => Ok (if Key.ltb (r_start range) (r_end r) then Some (index - 1)%nat else None)
    | None => Panic
    end in
  match binary_search_by (λ r, Key.cmp (r_start r) (r_end range)) self with
  | Ok O => Ok None
  | Err O => Ok None
  | Ok index => at_ index
  | Err index => at_ index
  | Panic => Panic
  end.

Definition overlaps (self : KeySpace) (range : Range Key) : result unit bool :=
  o ← overlaps_at self range; Ok (bool_decide (is_Some o)).

Definition contains (self : KeySpace) (key : Key) : result unit bool :=
  r ← singleton_range key; overlaps self r.

Section merge.
Context `{MergeBy}.

Fixpoint merge_loop (l : list (Range Key)) (prev : option (Range Key)) : M KeySpaceAccum.t unit unit :=
  match l with
  | [] => mret tt
  | range :: l' =>
      _ ← match prev with
          | Some p => assertM (negb (Key.ltb (Key.max (r_start range) (r_start p))
                                             (Key.min (r_end range) (r_end p))))
          | None => mret tt
          end;
      _ ← KeySpaceAccum.add_range range;
      merge_loop l' (Some range)
  end.

Definition merge (other : KeySpace) : M KeySpace unit unit := λ self,
  let all_ranges := merge_by (λ lhs rhs, Key.ltb (r_start lhs) (r_start rhs)) self other in
  match merge_loop all_ranges None KeySpaceAccum.new with
  | (Ok _, accum) => (Ok tt, KeySpaceAccum.to_keyspace accum)
  | (Err e, _) => (Err e, self)
  | (Panic, _) => (Panic, self)
  end.
End merge.

(** ** [remove_overlapping_with]

    The state of the loops: the ranges of [self] and the removed ranges.  The
    four [if]s of the loop body are [cut_high], [cut_low], [cut_middle] and
    [cut_whole]; [overlapped] is the clone taken before them. *)
Definition RemoveState : Type := KeySpace * list (Range Key).

Definition set_end (e : Key) (r : Range Key) : Range Key := mkRange (r_start r) e.
Definition set_start (s : Key) (r : Range Key) : Range Key := mkRange s (r_end r).

Definition cut_high (range overlapped : Range Key) (i : nat) (st : RemoveState) : RemoveState :=
  if Key.ltb (r_start overlapped) (r_start range) && Key.leb (r_end overlapped) (r_end range)
  then let cur := default overlapped (st.1 !! i) in
       (alter (set_end (r_start range)) i st.1, st.2 ++ [mkRange (r_start range) (r_end cur)])
  else st.

Definition cut_low (range overlapped : Range Key) (i : nat) (st : RemoveState) : RemoveState :=
  if Key.leb (r_start range) (r_start overlapped) && Key.ltb (r_end range) (r_end overlapped)
  then let cur := default overlapped (st.1 !! i) in
       (alter (set_start (r_end range)) i st.1, st.2 ++ [mkRange (r_start cur) (r_end range)])
  else st.

Definition cut_middle (range overlapped : Range Key) (i : nat) (st : RemoveState) : RemoveState :=
  if Key.ltb (r_start overlapped) (r_start range) && Key.ltb (r_end range) (r_end overlapped)
  then let l := alter (set_end (r_start range)) i st.1 in
       (take (i + 1) l ++ [mkRange (r_end range) (r_end overlapped)] ++ drop (i + 1) l, st.2 ++ [range])
  else st.

Definition cut_whole (range overlapped : Range Key) (i : nat) (st : RemoveState) : RemoveState :=
  if Key.leb (r_start range) (r_start overlapped) && Key.leb (r_end overlapped) (r_end range)
  then (delete i st.1, st.2 ++ [default overlapped (st.1 !! i)])
  else st.

Definition remove_step (range : Range Key) (st : RemoveState) : RemoveState + result unit RemoveState :=
  match overlaps_at st.1 range with
  | Ok None => inr (Ok st)
  | Ok (Some i) =>
      match st.1 !! i with
      | Some overlapped =>
          inl (cut_whole range overlapped i (cut_middle range overlapped i
                (cut_low range overlapped i (cut_high range overlapped i st))))
      | None => inr Panic
      end
  | Err e => inr (Err e)
  | Panic => inr Panic
  end.

Fixpoint remove_loop (other_ranges : list (Range Key)) (st : RemoveState)
    : option (result unit RemoveState) :=
  match other_ranges with
  | [] => Some (Ok st)
  | range :: rest =>
      match run_bounded (length st.1) (remove_step range) st with
      | Some (Ok st') => remove_loop rest st'
      | r => r
      end
  end.

(** The new value of [self] and the removed key space. *)
Definition remove_overlapping_with (self other : KeySpace) : option (result unit (KeySpace * KeySpace)) :=
  match start self, end_ self with
  | Some self_start, Some self_end =>
      let other_ranges :=
        take_while (λ range, Key.ltb (r_start range) self_end)
          (skip_while (λ range, Key.leb (r_end range) self_start) other) in
      match remove_loop other_ranges (self, []) with
      | Some (Ok (self', removed)) =>
          Some (r ← KeySpaceRandomAccum.to_keyspace removed; Ok (self', r))
      | Some (Err e) => Some (Err e)
      | Some Panic => Some Panic
      | None => None
      end
  | _, _ => Some (Ok (self, []))
  end.

End KeySpace.

(** * Ranges of one shard *)

Record ShardedRange := MkShardedRange { shard_identity : ShardIdentity; range : Range Key }.

Module ShardedRange.

(** The loop state that continues, or the outcome that ends the loop. *)
Definition continue_ {S A} (r : result unit S) : S + result unit A :=
  match r with Ok s => inl s | Err e => inr (Err e) | Panic => inr Panic end.

Definition distance_to_next_boundary (self : ShardedRange) (cursor : Key) : result unit Z :=
  let distance_to_range_end := contiguous_range_len (mkRange cursor (r_end (range self))) in
  let stripe_size := si_stripe_size (shard_identity self) in
  if si_count (shard_identity self) <? 2 then Ok distance_to_range_end
  else if field6 cursor =? 0xffffffff then Ok 1
  else if stripe_size =? 0 then Panic
  else
    let stripe_index := field6 cursor / stripe_size in
    let stripe_remainder :=
      wrapping_sub 32 stripe_size
        (wrapping_sub 32 (field6 cursor) (wrapping_mul 32 stripe_index stripe_size)) in
    Ok (Z.min stripe_remainder distance_to_range_end).

Definition single_size (self : ShardedRange) : result unit Z :=
  disposable ← ShardIdentity.is_key_disposable (shard_identity self) (r_start (range self));
  Ok (if disposable : bool then 0 else 1).

(** One iteration of the [while] of [fragment]. *)
Definition fragment_body (self : ShardedRange) (target_nblocks : Z)
    (fragments : list (Z * Range Key)) (cursor : Key) : result unit (list (Z * Range Key) * Key) :=
  advance_by ← distance_to_next_boundary self cursor;
  is_fragment_disposable ← ShardIdentity.is_key_disposable (shard_identity self) cursor;
  let '(want_blocks, merge_last_fragment) :=
    match last fragments with
    | Some frag => if frag.1 <? target_nblocks then (target_nblocks - frag.1, true)
                   else (target_nblocks, is_fragment_disposable)
    | None => (target_nblocks, false)
    end in
  let advance_by := if is_fragment_disposable : bool then advance_by else Z.min advance_by want_blocks in
  next_cursor ← Key.add cursor advance_by;
  let this_frag := (if is_fragment_disposable then 0 else advance_by, mkRange cursor next_cursor) in
  Ok (if merge_last_fragment : bool
      then alter (λ f, (wrapping_add 32 f.1 this_frag.1, mkRange (r_start f.2) (r_end this_frag.2)))
                 (length fragments - 1)%nat fragments
      else fragments ++ [this_frag], next_cursor).

Definition fragment_step (self : ShardedRange) (target_nblocks : Z) (st : list (Z * Range Key) * Key)
    : (list (Z * Range Key) * Key) + result unit (list (Z * Range Key)) :=
  if Key.ltb st.2 (r_end (range self))
  then continue_ (fragment_body self target_nblocks st.1 st.2)
  else inr (Ok st.1).

Definition fragment (self : ShardedRange) (target_nblocks : Z)
    : option (result unit (list (Z * Range Key))) :=
  match Key.add (r_start (range self)) 1 with
  | Ok next =>
      if Key.eqb (r_end (range self)) next
      then Some (n ← single_size self; Ok [(n, range self)])
      else if negb (is_contiguous_range (range self)) then Some (Ok [(U32_MAX, range self)])
      else run_result (fragment_step self target_nblocks) ([], r_start (range self))
  | _ => Some Panic
  end.

Definition page_count_body (self : ShardedRange) (result_ : Z) (cursor : Key) : result unit (Z * Key) :=
  advance_by ← distance_to_next_boundary self cursor;
  disposable ← ShardIdentity.is_key_disposable (shard_identity self) cursor;
  next_cursor ← Key.add cursor advance_by;
  Ok (if disposable : bool then result_ else wrapping_add 64 result_ advance_by, next_cursor).

Definition page_count_step (self : ShardedRange) (st : Z * Key) : (Z * Key) + result unit Z :=
  if Key.ltb st.2 (r_end (range self))
  then continue_ (page_count_body self st.1 st.2)
  else inr (Ok (if U32_MAX <? st.1 then U32_MAX else wrap 32 st.1)).

Definition page_count (self : ShardedRange) : option (result unit Z) :=
  match Key.add (r_start (range self)) 1 with
  | Ok next =>
      if Key.eqb (r_end (range self)) next then Some (single_size self)
      else if negb (is_contiguous_range (range self)) then Some (Ok U32_MAX)
      else if si_count (shard_identity self) <? 2 then Some (Ok (contiguous_range_len (range self)))
      else run_result (page_count_step self) (0, r_start (range self))
  | _ => Some Panic
  end.

End ShardedRange.

(** ** [KeySpace::partition] *)

Module Partition.
Record t := Mk {
  parts : list KeySpace;
  current_part : KeySpace;
  current_part_size : Z
}.

(** One iteration of the loop over fragments. *)
Definition add_fragment (target_nblocks : Z) (st : t) (frag : Z * Range Key) : t :=
  let st :=
    if (target_nblocks <? current_part_size st + frag.1) && (0 <? current_part_size st)
    then Mk (parts st ++ [current_part st]) [] 0 else st in
  Mk (parts st) (current_part st ++ [frag.2]) (current_part_size st + frag.1).

Fixpoint add_ranges (shard : ShardIdentity) (target_nblocks : Z) (ranges : KeySpace) (st : t)
    : option (result unit t) :=
  match ranges with
  | [] => Some (Ok st)
  | r :: ranges' =>
      match ShardedRange.fragment (MkShardedRange shard r) target_nblocks with
      | Some (Ok frags) => add_ranges shard target_nblocks ranges' (foldl (add_fragment target_nblocks) st frags)
      | Some (Err e) => Some (Err e)
      | Some Panic => Some Panic
      | None => None
      end
  end.

Definition finish (st : t) : list KeySpace :=
  if bool_decide (current_part st = []) then parts st else parts st ++ [current_part st].

Definition partition (self : KeySpace) (shard : ShardIdentity) (target_size block_size : Z)
    : option (result unit (list KeySpace)) :=
  if block_size =? 0 then Some Panic
  else
    let target_nblocks := wrap 32 (target_size / block_size) in
    match add_ranges shard target_nblocks self (Mk [] [] 0) with
    | Some (Ok st) => Some (Ok (finish st))
    | Some (Err e) => Some (Err e)
    | Some Panic => Some Panic
    | None => None
    end.
End Partition.
