(* ===== verification/KeySpaceFacts.v ===== *)
(** Facts about key spaces.

    The meaning of a key space is the set of its keys, [mem]; [ks_wf] is the
    representation invariant of the source's comment (ranges in key order, not
    empty, without overlap).  Every operation is proved to keep the invariant and
    to compute the set operation it stands for. *)

From S2P Require Import Prelude Text Loops Lsns Keys KeysFacts Shards KeySpaces.
Local Open Scope Z_scope.

Definition in_range (r : Range Key) (k : Key) : Prop := key_le (r_start r) k ∧ key_lt k (r_end r).
Definition mem (ks : KeySpace) (k : Key) : Prop := ∃ r, r ∈ ks ∧ in_range r k.
Definition nonempty (r : Range Key) : Prop := key_lt (r_start r) (r_end r).
Definition before (a b : Range Key) : Prop := key_le (r_end a) (r_start b).
Definition ks_wf (ks : KeySpace) : Prop := Forall nonempty ks ∧ StronglySorted before ks.

Definition inside (p x : Range Key) : Prop := key_le (r_start p) (r_start x) ∧ key_le (r_end x) (r_end p).

(** Unfolds ranges to inequalities of their ends and closes by the order. *)
Ltac rng :=
  unfold in_range, before, nonempty, inside in *; cbn [r_start r_end] in *;
  destruct_and?; split_and?; key_order.

Lemma mem_nil k : mem [] k ↔ False.
Proof. unfold mem. split; [|done]. intros (r & Hr & _). by apply not_elem_of_nil in Hr. Qed.

Lemma mem_cons r ks k : mem (r :: ks) k ↔ in_range r k ∨ mem ks k.
Proof. unfold mem. setoid_rewrite elem_of_cons. naive_solver. Qed.

Lemma mem_app a b k : mem (a ++ b) k ↔ mem a k ∨ mem b k.
Proof. unfold mem. setoid_rewrite elem_of_app. naive_solver. Qed.

Lemma mem_singleton r k : mem [r] k ↔ in_range r k.
Proof. rewrite mem_cons, mem_nil. tauto. Qed.

#[global] Instance mem_perm : Proper (Permutation ==> eq ==> iff) mem.
Proof. intros a b E k ? <-. unfold mem. by setoid_rewrite E. Qed.

Lemma ks_wf_nil : ks_wf [].
Proof. split; constructor. Qed.

Lemma ks_wf_cons r ks : ks_wf (r :: ks) ↔ nonempty r ∧ Forall (before r) ks ∧ ks_wf ks.
Proof.
  unfold ks_wf. rewrite Forall_cons. split.
  - intros [[H1 H2] H]. by inversion H; subst.
  - intros (? & ? & ? & ?). split; [done|]. by constructor.
Qed.

Lemma ks_wf_app a b :
  ks_wf (a ++ b) ↔ ks_wf a ∧ ks_wf b ∧ ∀ x y, x ∈ a → y ∈ b → before x y.
Proof.
  induction a as [|r a IH]; simpl.
  - split; [intros; split_and!; try done; [apply ks_wf_nil|by intros x y ?%not_elem_of_nil]|tauto].
  - rewrite !ks_wf_cons, Forall_app, IH. setoid_rewrite elem_of_cons.
    rewrite !Forall_forall. naive_solver.
Qed.

Lemma ks_wf_singleton r : ks_wf [r] ↔ nonempty r.
Proof. rewrite ks_wf_cons. split; [tauto|]. intros H. split; [done|]. split; [constructor|apply ks_wf_nil]. Qed.

(** Replacing a range by ranges inside it keeps the invariant, and what is
    outside the range. *)
Lemma ks_wf_replace l1 p xs l2 :
  ks_wf (l1 ++ p :: l2) → ks_wf xs → Forall (inside p) xs → ks_wf (l1 ++ xs ++ l2).
Proof.
  rewrite !ks_wf_app, ks_wf_cons, !Forall_forall. setoid_rewrite elem_of_cons.
  setoid_rewrite elem_of_app.
  intros (H1 & (Hp & Hp2 & H2) & H12) Hxs Hin. split_and!; try done.
  - intros x y Hx%Hin Hy%Hp2. rng.
  - intros x y Hx [Hy|Hy].
    + pose proof (H12 x p Hx (or_introl eq_refl)). apply Hin in Hy. rng.
    + by apply H12; auto.
Qed.

Lemma mem_middle l1 p l2 k : mem (l1 ++ p :: l2) k ↔ in_range p k ∨ mem (l1 ++ l2) k.
Proof. rewrite !mem_app, mem_cons. tauto. Qed.

Lemma ks_wf_middle_disjoint l1 p l2 k :
  ks_wf (l1 ++ p :: l2) → in_range p k → ¬ mem (l1 ++ l2) k.
Proof.
  rewrite ks_wf_app, ks_wf_cons, Forall_forall. intros (_ & (_ & H2 & _) & H12) Hk.
  rewrite mem_app. intros [(r & Hr & Hrk)|(r & Hr & Hrk)].
  - pose proof (H12 r p Hr ltac:(constructor)). rng.
  - pose proof (H2 r Hr). rng.
Qed.

(** * Finding an overlap *)

Definition ranges_overlap (a b : Range Key) : Prop :=
  key_lt (r_start a) (r_end b) ∧ key_lt (r_start b) (r_end a).

Lemma cmp_spec a b : CompareSpec (a = b) (key_lt a b) (key_lt b a) (Key.cmp a b).
Proof.
  destruct (Key.cmp a b) eqn:E; constructor; unfold key_lt, Key.ltb; [by apply cmp_eq|by rewrite E|].
  assert (Key.ltb a b = false) as H by (unfold Key.ltb; by rewrite E).
  assert (a ≠ b) by (intros ->; unfold Key.cmp in E; by rewrite !Z.compare_refl in E).
  change (key_lt b a). key_order.
Qed.

Lemma ks_lookup_before ks i j a b :
  ks_wf ks → (i < j)%nat → ks !! i = Some a → ks !! j = Some b → before a b.
Proof. intros [_ Hs] Hij Ha Hb. eapply StronglySorted_lookup; eauto. Qed.

Lemma ks_lookup_nonempty ks i a : ks_wf ks → ks !! i = Some a → nonempty a.
Proof. intros [Hn _] Ha. by eapply Forall_lookup_1 in Hn. Qed.

Lemma ks_cmp_sorted ks e : ks_wf ks → cmp_sorted (λ r, Key.cmp (r_start r) e) ks.
Proof.
  intros Hwf i j a b Hij Ha Hb. pose proof (ks_lookup_before _ _ _ _ _ Hwf Hij Ha Hb).
  pose proof (ks_lookup_nonempty _ _ _ Hwf Ha). split; intros H1.
  - destruct (cmp_spec (r_start a) e); try done. destruct (cmp_spec (r_start b) e); [rng..|done].
  - destruct (cmp_spec (r_start b) e); try done. destruct (cmp_spec (r_start a) e); [rng|done|rng].
Qed.

(** The partition point the binary search finds: the ranges that start before
    [e], and the others. *)
Lemma search_point ks e :
  ks_wf ks → ∃ n,
    (binary_search_by (λ r, Key.cmp (r_start r) e) ks = Ok n ∨
     binary_search_by (λ r, Key.cmp (r_start r) e) ks = Err n) ∧ (n ≤ length ks)%nat ∧
    (∀ j a, (j < n)%nat → ks !! j = Some a → key_lt (r_start a) e) ∧
    (∀ j a, (n ≤ j)%nat → ks !! j = Some a → key_le e (r_start a)).
Proof.
  intros Hwf. pose proof (binary_search_by_spec _ ks (ks_cmp_sorted ks e Hwf)) as H.
  destruct (binary_search_by _ ks) as [n|n|]; simpl in H; [..|done]; exists n; (split; [auto|]).
  - destruct H as (m & Hm & Em%cmp_eq). subst e. split; [apply lookup_lt_Some in Hm; lia|]. split.
    + intros j a Hj Ha. pose proof (ks_lookup_before _ _ _ _ _ Hwf Hj Ha Hm).
      pose proof (ks_lookup_nonempty _ _ _ Hwf Ha). rng.
    + intros j a Hj Ha. destruct (decide (j = n)) as [->|]; [simplify_eq; rng|].
      pose proof (ks_lookup_before _ n j _ _ Hwf ltac:(lia) Hm Ha).
      pose proof (ks_lookup_nonempty _ _ _ Hwf Hm). rng.
  - destruct H as (Hn & Hlt & Hgt). split; [done|]. split; intros j a Hj Ha.
    + specialize (Hlt j a Hj Ha). simpl in Hlt. by destruct (cmp_spec (r_start a) e).
    + specialize (Hgt j a Hj Ha). simpl in Hgt. destruct (cmp_spec (r_start a) e); try done. key_order.
Qed.

(** [overlaps_at] finds the last range that overlaps, if one does. *)
Lemma overlaps_at_spec ks r :
  ks_wf ks → nonempty r →
  (KeySpace.overlaps_at ks r = Ok None ∧ Forall (λ q, ¬ ranges_overlap q r) ks) ∨
  (∃ l1 p l2, ks = l1 ++ p :: l2 ∧ KeySpace.overlaps_at ks r = Ok (Some (length l1)) ∧
     ranges_overlap p r).
Proof.
  intros Hwf Hr. destruct (search_point ks (r_end r) Hwf) as (n & E & Hn & Hlo & Hhi).
  assert (∀ j a, (n ≤ j)%nat → ks !! j = Some a → ¬ ranges_overlap a r) as Hno.
  { intros j a Hj Ha [? ?]. pose proof (Hhi j a Hj Ha). rng. }
  unfold KeySpace.overlaps_at. destruct n as [|n].
  { left. split; [by destruct E as [->| ->]|]. apply Forall_lookup_2. intros j a Ha.
    apply (Hno j a); [lia|done]. }
  destruct (lookup_lt_is_Some_2 ks n) as [p Hp]; [lia|].
  assert (match binary_search_by (λ r0, Key.cmp (r_start r0) (r_end r)) ks with
    | Ok 0%nat | Err 0%nat => Ok None
    | Ok index | Err index => match ks !! (index - 1)%nat with
       | Some r0 => Ok (if Key.ltb (r_start r) (r_end r0) then Some (index - 1)%nat else None)
       | None => Panic end
    | Panic => Panic end = (Ok (if Key.ltb (r_start r) (r_end p) then Some n else None) : result unit _)) as ->.
  { destruct E as [->| ->]; simpl; by rewrite Nat.sub_0_r, Hp. }
  destruct (Key.ltb (r_start r) (r_end p)) eqn:El; key_simpl.
  - right. exists (take n ks), p, (drop (S n) ks).
    rewrite take_drop_middle by done. rewrite length_take_le by lia. split; [done|]. split; [done|].
    split; [|done]. apply (Hlo n); [lia|done].
  - left. split; [done|]. apply Forall_lookup_2. intros j a Ha [? ?].
    destruct (decide (S n ≤ j)%nat) as [Hj|Hj]; [by apply (Hno j a Hj Ha)|].
    destruct (decide (j = n)) as [->|]; [simplify_eq; rng|].
    pose proof (ks_lookup_before _ j n _ _ Hwf ltac:(lia) Ha Hp).
    pose proof (ks_lookup_nonempty _ _ _ Hwf Hp). rng.
Qed.

Lemma ranges_overlap_mem q r :
  nonempty q → nonempty r → ranges_overlap q r ↔ ∃ k, in_range q k ∧ in_range r k.
Proof.
  intros Hq Hr. split.
  - intros [H1 H2]. destruct (Key.leb (r_start q) (r_start r)) eqn:E; key_simpl;
      [exists (r_start r)|exists (r_start q)]; rng.
  - intros (k & ? & ?). split; rng.
Qed.

Lemma overlaps_exists ks r :
  ks_wf ks → nonempty r →
  ∃ b, KeySpace.overlaps ks r = Ok b ∧ (b = true ↔ ∃ q, q ∈ ks ∧ ranges_overlap q r).
Proof.
  intros Hwf Hr. unfold KeySpace.overlaps.
  destruct (overlaps_at_spec ks r Hwf Hr) as [[-> Hno]|(l1 & p & l2 & -> & -> & Hov)];
    cbn; eexists; (split; [done|]).
  - split; [done|]. intros (q & Hq & Hqr). rewrite Forall_forall in Hno. by destruct (Hno q Hq).
  - split; [|done]. intros _. exists p. split; [|done]. apply elem_of_app. right. constructor.
Qed.

(** [overlaps] decides whether the key space and the range have a key in
    common. *)
Lemma overlaps_correct ks r :
  ks_wf ks → nonempty r →
  ∃ b, KeySpace.overlaps ks r = Ok b ∧ (b = true ↔ ∃ k, mem ks k ∧ in_range r k).
Proof.
  intros Hwf Hr. destruct (overlaps_exists ks r Hwf Hr) as (b & -> & Hb).
  exists b. split; [done|]. rewrite Hb. destruct Hwf as [Hne _]. rewrite Forall_forall in Hne. split.
  - intros (q & Hq & (k & Hqk & Hrk)%ranges_overlap_mem); [|by apply Hne|done].
    exists k. split; [by exists q|done].
  - intros (k & (q & Hq & Hqk) & Hrk). exists q. split; [done|].
    apply ranges_overlap_mem; [by apply Hne|done|]. by exists k.
Qed.

Definition example_ks : KeySpace :=
  [mkRange (MkKey 0 1 1 1 0 0) (MkKey 0 1 1 1 0 10); mkRange (MkKey 0 1 1 1 0 20) (MkKey 0 1 1 1 0 30)].

Lemma example_ks_wf : ks_wf example_ks.
Proof. split; repeat constructor. Qed.


Definition keys_wf (ks : KeySpace) : Prop := Forall (λ r, Key.wf (r_start r) ∧ Key.wf (r_end r)) ks.

(** [contains] decides membership of every key below [Key::MAX]; for
    [Key::MAX] itself, which has no successor, it panics. *)
Theorem contains_correct ks k :
  ks_wf ks → keys_wf ks → Key.wf k →
  if Key.ltb k Key.MAX
  then ∃ b, KeySpace.contains ks k = Ok b ∧ (b = true ↔ mem ks k)
  else KeySpace.contains ks k = Panic.
Proof.
  intros Hwf Hkw Hk. destruct (Key.ltb k Key.MAX) eqn:Em.
  - destruct (key_next_Z k Hk Em) as (k' & Ek & Hk' & Ez). unfold KeySpace.contains, singleton_range.
    rewrite Ek. cbn. assert (key_lt k k') as Hlt by (unfold key_lt; rewrite ltb_key_Z by done; lia).
    destruct (overlaps_exists ks (mkRange k k') Hwf Hlt) as (b & -> & Hb). exists b. split; [done|].
    rewrite Hb. unfold mem. split; intros (r & Hr & Hrk); exists r; (split; [done|]).
    + apply (proj1 (Forall_forall _ _) Hkw) in Hr as [Hs He]. destruct Hrk as [H1 H2].
      unfold in_range, key_le, key_lt in *. simpl in *.
      rewrite leb_key_Z, ltb_key_Z in * by done. lia.
    + split; rng.
  - unfold KeySpace.contains, singleton_range, Key.next.
    pose proof (key_add_Z k 1 Hk ltac:(by vm_compute)) as H.
    rewrite ltb_key_Z in Em by (done || by vm_compute).
    change (key_Z Key.MAX) with (2 ^ 144 - 1) in Em. case_match; [lia|]. by rewrite H.
Qed.

Lemma contains_correct_witness :
  ∃ b, KeySpace.contains example_ks (MkKey 0 1 1 1 0 25) = Ok b ∧ (b = true ↔ mem example_ks (MkKey 0 1 1 1 0 25)).
Proof.
  apply (contains_correct example_ks (MkKey 0 1 1 1 0 25));
    [apply example_ks_wf|repeat constructor; by vm_compute|by vm_compute].
Defined.

(** * Accumulating ranges *)

(** The canonical form: a gap between any two ranges. *)
Definition apart (a b : Range Key) : Prop := key_lt (r_end a) (r_start b).
Definition ks_normal (ks : KeySpace) : Prop := Forall nonempty ks ∧ StronglySorted apart ks.

Lemma ks_normal_wf ks : ks_normal ks → ks_wf ks.
Proof.
  intros [H1 H2]. split; [done|]. clear H1. induction H2 as [|r ks _ IH Hr]; constructor; [done|].
  eapply Forall_impl; [exact Hr|]. unfold apart, before. intros; simpl in *; key_order.
Qed.

Lemma ks_normal_snoc ks r :
  ks_normal ks → Forall (λ q, apart q r) ks → nonempty r → ks_normal (ks ++ [r]).
Proof.
  intros [H1 H2] H3 H4. split; [by apply Forall_app; auto|].
  apply StronglySorted_app_2; [|done|by repeat constructor].
  intros a b Ha Hb%list_elem_of_singleton. subst. by eapply Forall_forall in H3.
Qed.

Lemma coalesce_spec l ranges s e :
  Forall nonempty l → StronglySorted (λ a b, key_le (r_start a) (r_start b)) l →
  Forall (λ r, key_le s (r_start r)) l → key_lt s e →
  ks_normal ranges → Forall (λ q, key_lt (r_end q) s) ranges →
  ∃ ks, KeySpaceRandomAccum.coalesce l ranges s e = Ok ks ∧ ks_normal ks ∧
    ∀ k, mem ks k ↔ mem ranges k ∨ in_range (mkRange s e) k ∨ mem l k.
Proof.
  revert ranges s e. induction l as [|r l IH]; intros ranges s e Hne Hsort Hs Hse Hn Hlt; simpl.
  { eexists. split; [done|]. split; [by apply ks_normal_snoc|]. intros k.
    rewrite mem_app, mem_singleton, mem_nil. tauto. }
  apply Forall_cons in Hne as [Hr Hne]. apply Forall_cons in Hs as [Hsr Hs].
  apply StronglySorted_cons in Hsort as [Hsl Hsort].
  rewrite (Hsr : Key.leb _ _ = true). destruct (Key.ltb e (r_start r)) eqn:E1; key_simpl.
  - destruct (IH (ranges ++ [mkRange s e]) (r_start r) (r_end r)) as (ks & -> & Hks & Hmem); try done.
    + by apply ks_normal_snoc.
    + apply Forall_app. split; [|by repeat constructor].
      eapply Forall_impl; [exact Hlt|]. intros q Hq; simpl in *. key_order.
    + exists ks. split; [done|]. split; [done|]. intros k. rewrite Hmem, mem_app, mem_singleton, mem_cons.
      destruct r; simpl. tauto.
  - destruct (Key.ltb e (r_end r)) eqn:E2; key_simpl.
    + destruct (IH ranges s (r_end r)) as (ks & -> & Hks & Hmem); try done; [key_order|].
      exists ks. split; [done|]. split; [done|]. intros k. rewrite Hmem, mem_cons.
      assert (in_range (mkRange s (r_end r)) k ↔ in_range (mkRange s e) k ∨ in_range r k); [|tauto].
      destruct (Key.ltb k e) eqn:E3, (Key.leb (r_start r) k) eqn:E4; key_simpl;
        unfold in_range; simpl; intuition key_order.
    + destruct (IH ranges s e) as (ks & -> & Hks & Hmem); try done.
      exists ks. split; [done|]. split; [done|]. intros k. rewrite Hmem, mem_cons.
      assert (in_range r k → in_range (mkRange s e) k); [|tauto]. intros ?. rng.
Qed.

Lemma random_accum_spec l :
  Forall nonempty l →
  ∃ ks, KeySpaceRandomAccum.to_keyspace l = Ok ks ∧ ks_normal ks ∧ ∀ k, mem ks k ↔ mem l k.
Proof.
  intros Hne. unfold KeySpaceRandomAccum.to_keyspace. set (f := λ a b : Range Key, _).
  pose proof (sort_by_perm f l) as Hp.
  assert (StronglySorted (λ a b, f a b = true) (sort_by f l)) as Hs.
  { apply sort_by_sorted; unfold f; intros; [|key_order].
    destruct (Key.leb (r_start x) (r_start y)) eqn:E; [by left|right]. key_order. }
  assert (∀ k, mem l k ↔ mem (sort_by f l) k) as Hl by (intros k; by rewrite Hp).
  rewrite <- Hp in Hne. clear Hp. destruct (sort_by f l) as [|r sorted].
  { exists []. split; [done|]. split; [split; constructor|]. intros k. by rewrite Hl. }
  destruct (coalesce_spec (r :: sorted) [] (r_start r) (r_end r)) as (ks & -> & Hks & Hm); try done.
  - constructor; [key_order|]. by apply StronglySorted_cons in Hs as [? _].
  - by apply Forall_cons in Hne as [? _].
  - split; constructor.
  - exists ks. split; [done|]. split; [done|]. intros k. rewrite Hl, Hm, mem_nil, mem_cons.
    destruct r; simpl. tauto.
Qed.

(** collecting ranges in any order, overlapping or not, and turning them into
    a key space never fails and gives the union of the ranges in canonical form
    (sorted, with a gap between neighbours). *)
Theorem random_accum_union l :
  Forall nonempty l →
  ∃ ks, KeySpaceRandomAccum.to_keyspace l = Ok ks ∧ ks_normal ks ∧ ∀ k, mem ks k ↔ mem l k.
Proof. apply random_accum_spec. Qed.

Lemma random_accum_union_witness :
  ∃ ks, KeySpaceRandomAccum.to_keyspace (reverse example_ks ++ example_ks) = Ok ks ∧ ks_normal ks ∧
    ∀ k, mem ks k ↔ mem (reverse example_ks ++ example_ks) k.
Proof. apply random_accum_union. repeat constructor. Defined.

(** * Removing a key space *)

(** The effect of one loop body: the overlapped range [p] is replaced by what
    lies outside [range], and what lies inside is recorded. *)
Definition remainder (range p : Range Key) : list (Range Key) :=
  (if Key.ltb (r_start p) (r_start range) then [mkRange (r_start p) (r_start range)] else []) ++
  (if Key.ltb (r_end range) (r_end p) then [mkRange (r_end range) (r_end p)] else []).

Definition common (range p : Range Key) : Range Key :=
  mkRange (Key.max (r_start range) (r_start p)) (Key.min (r_end range) (r_end p)).

Lemma alter_middle {A} (f : A → A) l1 p l2 :
  alter f (length l1) (l1 ++ p :: l2) = l1 ++ f p :: l2.
Proof. by rewrite alter_app_r_alt, Nat.sub_diag by lia. Qed.

Lemma remove_body_eq range p l1 l2 rem :
  let i := length l1 in
  KeySpace.cut_whole range p i (KeySpace.cut_middle range p i
    (KeySpace.cut_low range p i (KeySpace.cut_high range p i (l1 ++ p :: l2, rem)))) =
  (l1 ++ remainder range p ++ l2, rem ++ [common range p]).
Proof.
  cbv zeta. unfold KeySpace.cut_whole, KeySpace.cut_middle, KeySpace.cut_low, KeySpace.cut_high,
    remainder, common, Key.max, Key.min, Key.leb.
  destruct range as [a b], p as [s e]; cbn [r_start r_end].
  destruct (Key.ltb s a) eqn:E1, (Key.ltb b e) eqn:E2; cbn [negb andb fst snd app];
    rewrite ?alter_middle, ?list_lookup_middle by done; cbn [default r_start r_end KeySpace.set_end KeySpace.set_start].
  all: assert ((if negb (Key.ltb e b) then b else e) = if Key.ltb b e then b else e) as ->
    by (rewrite E2; destruct (Key.ltb e b) eqn:E3; cbn; try done; key_order); rewrite E2; try done.
  - by rewrite (cons_middle _ l1), app_assoc, take_app_length', drop_app_length', <- app_assoc
      by (rewrite length_app; done).
  - by rewrite delete_middle.
Qed.

Lemma elem_of_remainder range p q :
  q ∈ remainder range p ↔
  key_lt (r_start p) (r_start range) ∧ q = mkRange (r_start p) (r_start range) ∨
  key_lt (r_end range) (r_end p) ∧ q = mkRange (r_end range) (r_end p).
Proof.
  unfold remainder, key_lt. rewrite elem_of_app.
  destruct (Key.ltb (r_start p) (r_start range)), (Key.ltb (r_end range) (r_end p));
    rewrite ?list_elem_of_singleton, ?elem_of_nil; intuition congruence.
Qed.

Lemma in_range_common range p k : in_range (common range p) k ↔ in_range p k ∧ in_range range k.
Proof.
  unfold in_range, common, Key.max, Key.min; cbn [r_start r_end].
  destruct (Key.leb (r_start range) (r_start p)) eqn:E1, (Key.leb (r_end range) (r_end p)) eqn:E2;
    key_simpl; intuition key_order.
Qed.

Lemma mem_remainder range p k :
  nonempty range → ranges_overlap p range →
  mem (remainder range p) k ↔ in_range p k ∧ ¬ in_range range k.
Proof.
  intros Hr [H1 H2]. unfold mem. setoid_rewrite elem_of_remainder. split.
  - intros (q & [[H ->]|[H ->]] & Hk); split; try rng; intros ?; rng.
  - intros [Hk Hn]. destruct (Key.ltb k (r_start range)) eqn:E; key_simpl.
    + eexists; split; [left; split; [rng|done]|rng].
    + destruct (Key.ltb k (r_end range)) eqn:E'; key_simpl; [by destruct Hn|].
      eexists; split; [right; split; [rng|done]|rng].
Qed.

Lemma remainder_wf range p :
  nonempty range → ranges_overlap p range →
  ks_wf (remainder range p) ∧ Forall (inside p) (remainder range p) ∧
  Forall (λ q, ¬ ranges_overlap q range) (remainder range p).
Proof.
  intros Hr [H1 H2]. split_and!.
  - unfold remainder. rewrite ks_wf_app.
    destruct (Key.ltb (r_start p) (r_start range)) eqn:E1, (Key.ltb (r_end range) (r_end p)) eqn:E2;
      rewrite ?ks_wf_singleton; (split; [try apply ks_wf_nil; rng|]); (split; [try apply ks_wf_nil; rng|]);
      intros x y; rewrite ?list_elem_of_singleton, ?elem_of_nil; try done. intros -> ->. rng.
  - apply Forall_forall. intros q [[H ->]|[H ->]]%elem_of_remainder; rng.
  - apply Forall_forall. intros q [[H ->]|[H ->]]%elem_of_remainder [? ?]; rng.
Qed.

Lemma common_nonempty range p : nonempty p → nonempty range → ranges_overlap p range → nonempty (common range p).
Proof.
  intros Hp Hr [H1 H2]. unfold nonempty, common, Key.max, Key.min; cbn [r_start r_end].
  destruct (Key.leb (r_start range) (r_start p)) eqn:E1, (Key.leb (r_end range) (r_end p)) eqn:E2; rng.
Qed.

(** The number of ranges that still overlap: what the inner loop decreases. *)
#[global] Instance ranges_overlap_dec a b : Decision (ranges_overlap a b).
Proof. unfold ranges_overlap, key_lt. apply _. Defined.

Definition n_overlaps (range : Range Key) (l : KeySpace) : Z :=
  Z.of_nat (length (filter (λ q, ranges_overlap q range) l)).

Lemma n_overlaps_app range a b : n_overlaps range (a ++ b) = n_overlaps range a + n_overlaps range b.
Proof. unfold n_overlaps. rewrite filter_app, length_app. lia. Qed.

Lemma n_overlaps_none range l : Forall (λ q, ¬ ranges_overlap q range) l → n_overlaps range l = 0.
Proof. intros H. unfold n_overlaps. by rewrite filter_none. Qed.

Lemma n_overlaps_middle range l1 p l2 :
  ranges_overlap p range → n_overlaps range (l1 ++ p :: l2) = n_overlaps range (l1 ++ l2) + 1.
Proof.
  intros H. rewrite !n_overlaps_app. change (p :: l2) with ([p] ++ l2). rewrite n_overlaps_app.
  unfold n_overlaps at 2. rewrite filter_cons_True by done. simpl. lia.
Qed.

(** What the loops maintain: the ranges of [self] and the removed ones together
    are the original set, they have nothing in common, and only keys of [other]
    have been removed. *)
Record remove_inv (orig other : KeySpace) (st : KeySpace.RemoveState) : Prop := {
  ri_wf : ks_wf st.1;
  ri_removed : Forall nonempty st.2;
  ri_union : ∀ k, mem orig k ↔ mem st.1 k ∨ mem st.2 k;
  ri_disjoint : ∀ k, mem st.2 k → ¬ mem st.1 k;
  ri_other : ∀ k, mem st.2 k → mem other k
}.

Lemma remove_step_inv orig other range l1 p l2 rem :
  remove_inv orig other (l1 ++ p :: l2, rem) → nonempty range → ranges_overlap p range →
  (∀ k, in_range range k → mem other k) →
  remove_inv orig other (l1 ++ remainder range p ++ l2, rem ++ [common range p]).
Proof.
  intros [Hwf Hrem Hun Hdis Hoth] Hr Hov Hin; simpl in *.
  destruct (remainder_wf range p Hr Hov) as (W1 & W2 & _).
  assert (nonempty p) as Hp by (apply ks_wf_app in Hwf as (_ & (? & _)%ks_wf_cons & _); done).
  pose proof (λ k, mem_remainder range p k Hr Hov) as Hmr.
  pose proof (λ k, ks_wf_middle_disjoint l1 p l2 k Hwf) as Hmid.
  assert (∀ k, mem (l1 ++ remainder range p ++ l2) k ↔ mem (remainder range p) k ∨ mem (l1 ++ l2) k) as Hsplit
    by (intros k; rewrite !mem_app; tauto).
  setoid_rewrite mem_middle in Hun. setoid_rewrite mem_middle in Hdis.
  assert (∀ k, in_range range k ∨ ¬ in_range range k) as Hdec.
  { intros k. unfold in_range, key_le, key_lt. destruct (Key.leb _ k), (Key.ltb k _); intuition congruence. }
  split; simpl.
  - by eapply ks_wf_replace.
  - apply Forall_app. split; [done|]. constructor; [by apply common_nonempty|constructor].
  - intros k. rewrite Hun, Hsplit, (mem_app rem), mem_singleton, in_range_common, Hmr.
    destruct (Hdec k); tauto.
  - intros k. rewrite Hsplit, (mem_app rem), mem_singleton, in_range_common, Hmr.
    specialize (Hdis k). specialize (Hmid k). tauto.
  - intros k. rewrite (mem_app rem), mem_singleton, in_range_common.
    specialize (Hoth k). specialize (Hin k). tauto.
Qed.

Section remove.
Context (orig other : KeySpace).

Definition range_inv (l0 : KeySpace) (st : KeySpace.RemoveState) : Prop :=
  remove_inv orig other st ∧ (∀ k, mem st.1 k → mem l0 k).

Lemma remove_step_ok range l0 st :
  nonempty range → (∀ k, in_range range k → mem other k) → range_inv l0 st →
  match KeySpace.remove_step range st with
  | inl st' => range_inv l0 st' ∧ 0 ≤ n_overlaps range st'.1 < n_overlaps range st.1
  | inr r => ∃ st', r = Ok st' ∧ range_inv l0 st' ∧ Forall (λ q, ¬ ranges_overlap q range) st'.1
  end.
Proof.
  intros Hr Hin (Hinv & Hsub). destruct st as [l rem]; simpl in *.
  pose proof (ri_wf _ _ _ Hinv) as Hwf; simpl in Hwf.
  unfold KeySpace.remove_step; cbn [fst snd].
  destruct (overlaps_at_spec l range Hwf Hr) as [[-> Hno]|(l1 & p & l2 & -> & -> & Hov)].
  { eexists. split; [done|]. split; [|done]. by split. }
  rewrite list_lookup_middle by done. rewrite remove_body_eq.
  pose proof (remove_step_inv _ _ _ _ _ _ _ Hinv Hr Hov Hin) as Hinv'.
  destruct (remainder_wf range p Hr Hov) as (_ & _ & Hno).
  assert (n_overlaps range (l1 ++ remainder range p ++ l2) = n_overlaps range (l1 ++ l2)) as En
    by (rewrite !n_overlaps_app, (n_overlaps_none range (remainder range p)) by done; lia).
  pose proof (n_overlaps_middle range l1 p l2 Hov) as Em.
  assert (0 ≤ n_overlaps range (l1 ++ l2)) by (unfold n_overlaps; lia).
  split; [split; [done|]|]; cbn [fst snd]; [|lia].
  intros k Hk. apply Hsub. rewrite mem_middle. revert Hk. rewrite !mem_app, mem_remainder by done. tauto.
Qed.

Lemma remove_range_ok range st :
  nonempty range → (∀ k, in_range range k → mem other k) → remove_inv orig other st →
  ∃ st', run_bounded (length st.1) (KeySpace.remove_step range) st = Some (Ok st') ∧
    range_inv st.1 st' ∧ Forall (λ q, ¬ ranges_overlap q range) st'.1.
Proof.
  intros Hr Hin Hinv. unfold run_bounded.
  destruct (run_total (KeySpace.remove_step range) (range_inv st.1)
    (λ s, n_overlaps range s.1)
    (λ r, ∃ st', r = Ok st' ∧ range_inv st.1 st' ∧ Forall (λ q, ¬ ranges_overlap q range) st'.1)
    (Pos.of_succ_nat (length st.1)) st) as (r & -> & st' & -> & Hst').
  - intros s Hs. by apply remove_step_ok.
  - by split.
  - unfold n_overlaps. pose proof (length_filter (λ q, ranges_overlap q range) st.1). lia.
  - by exists st'.
Qed.

(** The outer loop: at the end nothing is left that a processed range covers. *)
Lemma remove_loop_ok ranges st :
  Forall nonempty ranges → (∀ k, mem ranges k → mem other k) → remove_inv orig other st →
  ∃ st', KeySpace.remove_loop ranges st = Some (Ok st') ∧ remove_inv orig other st' ∧
    (∀ k, mem st'.1 k → mem st.1 k ∧ ¬ mem ranges k).
Proof.
  revert st. induction ranges as [|r ranges IH]; intros st Hne Hin Hinv; simpl.
  { exists st. split; [done|]. split; [done|]. intros k Hk.
    split; [done|by intros []%mem_nil]. }
  apply Forall_cons in Hne as [Hr Hne]. setoid_rewrite mem_cons in Hin.
  destruct (remove_range_ok r st) as (st1 & -> & (Hinv1 & Hsub1) & Hno); [done|by auto|done|].
  destruct (IH st1) as (st' & -> & Hinv' & Hsub'); [done|by auto|done|].
  exists st'. split; [done|]. split; [done|]. intros k Hk. destruct (Hsub' k Hk) as [H1 H2].
  split; [auto|]. rewrite mem_cons. intros [Hrk|]; [|done]. destruct H1 as (q & Hq & Hqk).
  eapply Forall_forall in Hno; [|done]. apply Hno. split; rng.
Qed.
End remove.

Lemma skip_while_suffix {A} (p : A → bool) l : ∃ l1, l = l1 ++ skip_while p l ∧ Forall (λ x, p x = true) l1.
Proof.
  induction l as [|x l (l1 & E & H)]; [by exists []|]. simpl. destruct (p x) eqn:Ep; [|by exists []].
  exists (x :: l1). split; [simpl; congruence|by constructor].
Qed.

Lemma take_while_prefix {A} (p : A → bool) l :
  ∃ l2, l = take_while p l ++ l2 ∧ (∀ x l3, l2 = x :: l3 → p x = false).
Proof.
  induction l as [|x l (l2 & E & H)]; [by exists []|]. simpl. destruct (p x) eqn:Ep.
  - exists l2. split; [simpl; congruence|done].
  - exists (x :: l). split; [done|]. congruence.
Qed.

(** The ranges of [other] that the two skips leave out have no key in
    [self_start..self_end]. *)
Lemma window_spec other s e :
  ks_wf other →
  let w := take_while (λ r, Key.ltb (r_start r) e) (skip_while (λ r, Key.leb (r_end r) s) other) in
  Forall nonempty w ∧ (length w ≤ length other)%nat ∧ (∀ k, mem w k → mem other k) ∧
  (∀ k, in_range (mkRange s e) k → mem other k → mem w k).
Proof.
  intros Hwf. cbv zeta. set (sk := skip_while _ other).
  destruct (skip_while_suffix (λ r, Key.leb (r_end r) s) other) as (l1 & E1 & H1). fold sk in E1.
  destruct (take_while_prefix (λ r, Key.ltb (r_start r) e) sk) as (l2 & E2 & H2).
  set (w := take_while _ sk) in *. rewrite E2 in E1. clear E2. clearbody w sk.
  rewrite E1 in Hwf. apply ks_wf_app in Hwf as (_ & (Hw & H2w & _)%ks_wf_app & _).
  split; [apply Hw|]. split; [subst other; rewrite !length_app; lia|]. subst other.
  split; [intros k Hk; rewrite !mem_app; auto|]. intros k Hk. rewrite !mem_app.
  intros [(q & Hq & Hqk)|[?|(q & Hq & Hqk)]]; [|done|].
  - eapply Forall_forall in H1; [|done]. simpl in H1. rng.
  - destruct l2 as [|x l2]; [by apply not_elem_of_nil in Hq|].
    pose proof (H2 x l2 eq_refl) as Hx. simpl in Hx.
    apply ks_wf_cons in H2w as (Hxn & Hxl & _). apply elem_of_cons in Hq as [->|Hq]; [rng|].
    eapply Forall_forall in Hxl; [|done]. rng.
Qed.

Lemma ks_bounds ks s e k :
  ks_wf ks → KeySpace.start ks = Some s → KeySpace.end_ ks = Some e → mem ks k → in_range (mkRange s e) k.
Proof.
  unfold KeySpace.start, KeySpace.end_. intros Hwf Hs He (q & Hq & Hqk).
  destruct (head ks) as [a|] eqn:Ea; [|done]. destruct (last ks) as [b|] eqn:Eb; [|done].
  apply head_Some in Ea as (la & ->). simplify_eq/=.
  pose proof (proj1 (ks_wf_cons _ _) Hwf) as (Ha & Hbef & _).
  assert (key_le (r_start a) (r_start q)) as H1.
  { apply elem_of_cons in Hq as [->|Hq']; [rng|]. eapply Forall_forall in Hbef; [|done]. rng. }
  apply last_Some in Eb as (lb & Eb). rewrite Eb in Hwf, Hq.
  apply ks_wf_app in Hwf as (_ & (Hb & _)%ks_wf_cons & H12).
  assert (key_le (r_end q) (r_end b)) as H2.
  { apply elem_of_app in Hq as [Hq'|Hq']; [|apply list_elem_of_singleton in Hq'; subst; rng].
    pose proof (H12 q b Hq' ltac:(constructor)). rng. }
  rng.
Qed.

Lemma ks_ends ks : ks ≠ [] → ∃ s e, KeySpace.start ks = Some s ∧ KeySpace.end_ ks = Some e.
Proof.
  unfold KeySpace.start, KeySpace.end_. intros Hne. destruct ks as [|r l]; [done|].
  apply last_is_Some in Hne as [x ->]. simpl. by eauto.
Qed.

Lemma remove_overlapping_spec self other :
  ks_wf self → ks_wf other →
  ∃ self' removed, KeySpace.remove_overlapping_with self other = Some (Ok (self', removed)) ∧
    ks_wf self' ∧ ks_normal removed ∧
    (∀ k, mem self' k ↔ mem self k ∧ ¬ mem other k) ∧
    (∀ k, mem removed k ↔ mem self k ∧ mem other k).
Proof.
  intros Hs Ho. unfold KeySpace.remove_overlapping_with.
  destruct (decide (self = [])) as [->|Hne].
  { exists [], []. split; [done|]. split; [done|]. split; [split; constructor|].
    split; intros k; rewrite mem_nil; tauto. }
  destruct (ks_ends self Hne) as (s & e & Es & Ee). rewrite Es, Ee.
  destruct (window_spec other s e Ho) as (Hw1 & Hw2 & Hw3 & Hw4). set (w := take_while _ _) in *.
  destruct (remove_loop_ok self other w (self, []))
    as ([self' rem] & -> & [Hwf' Hrem Hun Hdis Hoth] & Hsub); [done|done| |].
  { split; simpl; [done|constructor|..]; intros k; rewrite mem_nil; tauto. }
  cbn [fst snd] in *. destruct (random_accum_spec rem Hrem) as (ks & -> & Hks & Hmk). cbn.
  exists self', ks. split; [done|]. split; [done|]. split; [done|].
  assert (∀ k, mem self' k → ¬ mem other k) as Hn.
  { intros k Hk Hok. destruct (Hsub k Hk) as [H1 H2]. apply H2, Hw4; [|done]. by apply (ks_bounds self). }
  split; intros k; [|rewrite Hmk]; rewrite Hun; specialize (Hn k); specialize (Hoth k);
    specialize (Hdis k); tauto.
Qed.

(** C37: [remove_overlapping_with] always terminates, leaves in [self] exactly the
    keys that are not in [other], and returns exactly the keys that were in
    both; both results are well-formed. *)
Theorem remove_overlapping_correct self other :
  ks_wf self → ks_wf other →
  ∃ self' removed, KeySpace.remove_overlapping_with self other = Some (Ok (self', removed)) ∧
    ks_wf self' ∧ ks_normal removed ∧
    (∀ k, mem self' k ↔ mem self k ∧ ¬ mem other k) ∧
    (∀ k, mem removed k ↔ mem self k ∧ mem other k).
Proof. apply remove_overlapping_spec. Qed.

Lemma remove_overlapping_correct_witness :
  ∃ self' removed, KeySpace.remove_overlapping_with example_ks
      [mkRange (MkKey 0 1 1 1 0 5) (MkKey 0 1 1 1 0 25)] = Some (Ok (self', removed)) ∧
    ks_wf self' ∧ ks_normal removed ∧
    (∀ k, mem self' k ↔ mem example_ks k ∧ ¬ mem [mkRange (MkKey 0 1 1 1 0 5) (MkKey 0 1 1 1 0 25)] k) ∧
    (∀ k, mem removed k ↔ mem example_ks k ∧ mem [mkRange (MkKey 0 1 1 1 0 5) (MkKey 0 1 1 1 0 25)] k).
Proof.
  apply remove_overlapping_correct; [apply example_ks_wf|by apply ks_wf_singleton].
Defined.

(** * Merging *)

(** Ranges in the order of their starts, none empty: without overlaps they are a
    key space. *)
Lemma ks_wf_iff_disjoint l :
  Forall nonempty l → StronglySorted (λ a b, key_le (r_start a) (r_start b)) l →
  ks_wf l ↔ StronglySorted (λ a b, ¬ ranges_overlap a b) l.
Proof.
  induction l as [|r l IH]; intros Hne Hs; [split; [constructor|by split; constructor]|].
  apply Forall_cons in Hne as [Hr Hne]. apply StronglySorted_cons in Hs as [Hsr Hs].
  rewrite ks_wf_cons, StronglySorted_cons, (IH Hne Hs).
  assert (Forall (before r) l ↔ Forall (λ b, ¬ ranges_overlap r b) l) as ->; [|tauto].
  rewrite !Forall_forall in *. split; intros H q Hq; specialize (H q Hq).
  - intros [? ?]. rng.
  - specialize (Hne q Hq). specialize (Hsr q Hq). unfold before.
    destruct (Key.leb (r_end r) (r_start q)) eqn:E; [done|]. destruct H. split; rng.
Qed.

Lemma ks_wf_self_disjoint l : ks_wf l → StronglySorted (λ a b, ¬ ranges_overlap a b) l.
Proof.
  intros [_ H]. induction H as [|r l _ IH Hr]; constructor; [done|].
  eapply Forall_impl; [exact Hr|]. intros q Hq [? ?]; simpl in *. rng.
Qed.

Lemma app_disjoint a b :
  ks_wf a → ks_wf b →
  StronglySorted (λ x y, ¬ ranges_overlap x y) (a ++ b) ↔ ∀ k, ¬ (mem a k ∧ mem b k).
Proof.
  intros Ha Hb. rewrite StronglySorted_app. split.
  - intros (Hc & _ & _) k [(x & Hx & Hxk) (y & Hy & Hyk)]. apply (Hc x y Hx Hy). split; rng.
  - intros Hd. split_and!; [|by apply ks_wf_self_disjoint..]. intros x y Hx Hy Hxy.
    destruct Ha as [Ha _], Hb as [Hb _]. rewrite Forall_forall in Ha, Hb.
    apply ranges_overlap_mem in Hxy as (k & ? & ?); [|by auto..].
    apply (Hd k). split; [by exists x|by exists y].
Qed.

(** The accumulator after it took the range [p] last. *)
Record accum_inv (p : Range Key) (acc : KeySpaceAccum.t) (a : Range Key) : Prop := {
  ai_open : KeySpaceAccum.accum acc = Some a;
  ai_end : r_end a = r_end p;
  ai_normal : ks_normal (KeySpaceAccum.ranges acc ++ [a])
}.

Lemma ks_normal_extend l s e e' :
  ks_normal (l ++ [mkRange s e]) → key_le e e' → ks_normal (l ++ [mkRange s e']).
Proof.
  intros [H1 H2] He. apply Forall_app in H1 as [H1 H3%Forall_inv].
  apply StronglySorted_app in H2 as (H4 & H5 & _). apply ks_normal_snoc.
  - by split.
  - apply Forall_forall. intros q Hq. apply (H4 q (mkRange s e)); [done|constructor].
  - rng.
Qed.

Lemma add_range_next p acc a r :
  accum_inv p acc a → nonempty r → before p r →
  ∃ acc' a', KeySpaceAccum.add_range r acc = (Ok tt, acc') ∧ accum_inv r acc' a' ∧
    ∀ k, mem (KeySpaceAccum.to_keyspace acc') k ↔ mem (KeySpaceAccum.to_keyspace acc) k ∨ in_range r k.
Proof.
  intros [Ho He Hn] Hr Hpr. unfold KeySpaceAccum.add_range, KeySpaceAccum.to_keyspace. rewrite Ho.
  destruct a as [s e]; simpl in *. subst e. destruct (Key.eqb _ _) eqn:E1; key_simpl.
  - eexists _, (mkRange s (r_end r)). split; [done|]. split; [split; [done..|]|].
    + simpl. eapply ks_normal_extend; [done|]. rng.
    + intros k. simpl. rewrite !mem_app, !mem_singleton.
      assert (key_lt s (r_end p)) by (destruct Hn as [Hn _]; by apply Forall_app in Hn as [_ Hn%Forall_inv]).
      assert (in_range (mkRange s (r_end r)) k ↔ in_range (mkRange s (r_end p)) k ∨ in_range r k); [|tauto].
      destruct (Key.ltb k (r_end p)) eqn:E2; unfold in_range; simpl; intuition rng.
  - assert (key_lt (r_end p) (r_start r)) as Hlt by rng.
    rewrite (Hlt : Key.ltb _ _ = true). eexists _, r. split; [done|]. split; [split; [done..|]|].
    + simpl. destruct Hn as [Hn1 Hn2]. apply ks_normal_snoc; [by split| |done].
      apply Forall_app in Hn1 as [_ Hse%Forall_inv]. apply StronglySorted_app in Hn2 as (Hn2 & _ & _).
      apply Forall_forall. intros q [Hq|Hq%list_elem_of_singleton]%elem_of_app; [|by subst].
      pose proof (Hn2 q _ Hq ltac:(constructor)) as Hqa. unfold apart in *. simpl in *. rng.
    + intros k. simpl. rewrite !mem_app, !mem_singleton. tauto.
Qed.

(** The assertion of the loop body: of two ranges in order of their starts. *)
Lemma overlap_test p r :
  nonempty p → nonempty r → key_le (r_start p) (r_start r) →
  Key.ltb (Key.max (r_start r) (r_start p)) (Key.min (r_end r) (r_end p)) =
  negb (Key.leb (r_end p) (r_start r)).
Proof.
  intros Hp Hr Hpr. unfold Key.max, Key.min.
  destruct (Key.leb (r_end p) (r_start r)) eqn:E1, (Key.leb (r_start r) (r_start p)) eqn:E2,
    (Key.leb (r_end r) (r_end p)) eqn:E3; cbn [negb]; rng.
Qed.

Lemma merge_loop_ok l p acc a :
  Forall nonempty (p :: l) → StronglySorted (λ a b, key_le (r_start a) (r_start b)) (p :: l) →
  accum_inv p acc a →
  (ks_wf (p :: l) ∧ ∃ acc', KeySpace.merge_loop l (Some p) acc = (Ok tt, acc') ∧
     ks_normal (KeySpaceAccum.to_keyspace acc') ∧
     ∀ k, mem (KeySpaceAccum.to_keyspace acc') k ↔ mem (KeySpaceAccum.to_keyspace acc) k ∨ mem l k) ∨
  (¬ ks_wf (p :: l) ∧ (KeySpace.merge_loop l (Some p) acc).1 = Panic).
Proof.
  revert p acc a. induction l as [|r l IH]; intros p acc a Hne Hs Hinv.
  { left. split; [split; [done|repeat constructor]|]. exists acc. split; [done|]. split.
    - destruct Hinv as [E _ Hn]. unfold KeySpaceAccum.to_keyspace. by rewrite E.
    - intros k. rewrite mem_nil. tauto. }
  apply Forall_cons in Hne as [Hp Hne]. apply StronglySorted_cons in Hs as [Hpl Hs].
  pose proof (Forall_inv Hne) as Hr. pose proof (Forall_inv Hpl) as Hpr. simpl in Hpr.
  cbn [KeySpace.merge_loop]. unfold mbind, M_bind at 1, assertM. rewrite overlap_test by done.
  rewrite negb_involutive. destruct (Key.leb (r_end p) (r_start r)) eqn:E.
  - destruct (add_range_next p acc a r Hinv Hr E) as (acc1 & a1 & E1 & Hinv1 & Hm1).
    unfold mret, M_ret, mbind, M_bind. rewrite E1.
    assert (ks_wf (p :: r :: l) ↔ ks_wf (r :: l)) as Hwf.
    { rewrite (ks_wf_cons p). split; [tauto|]. intros Hwf. split; [done|]. split; [|done].
      constructor; [done|]. apply ks_wf_cons in Hwf as (_ & Hrl & _).
      eapply Forall_impl; [exact Hrl|]. intros q Hq; simpl in *. rng. }
    rewrite Hwf. destruct (IH r acc1 a1 Hne Hs Hinv1) as [(Hw & acc' & E2 & Hn & Hm)|[Hw E2]];
      [left|by right]. split; [done|]. exists acc'. split; [done|]. split; [done|].
    intros k. rewrite Hm, Hm1, mem_cons. tauto.
  - right. split; [|done]. rewrite ks_wf_cons, Forall_cons. intros (_ & [Hb _] & _). rng.
Qed.

Lemma ks_wf_sorted l : ks_wf l → StronglySorted (λ a b, key_le (r_start a) (r_start b)) l.
Proof.
  intros [Hn Hl]. induction Hl as [|r l _ IH Hr]; [constructor|].
  apply Forall_cons in Hn as [Hn1 Hn]. constructor; [auto|].
  eapply Forall_impl; [exact Hr|]. intros q Hq; simpl in *. rng.
Qed.

Lemma sorted_by_start_iff (l : KeySpace) :
  StronglySorted (λ a b, Key.ltb (r_start b) (r_start a) = false) l ↔
  StronglySorted (λ a b, key_le (r_start a) (r_start b)) l.
Proof.
  induction l as [|r l IH]; [split; constructor|].
  rewrite !StronglySorted_cons, IH, !Forall_forall. by setoid_rewrite key_ltb_ge.
Qed.

Section merge.
Context `{MergeByLaws}.

(** The merged ranges are a key space exactly when the two have no key in
    common. *)
Lemma merged_ranges self other :
  ks_wf self → ks_wf other →
  let m := merge_by (λ lhs rhs, Key.ltb (r_start lhs) (r_start rhs)) self other in
  Forall nonempty m ∧ StronglySorted (λ a b, key_le (r_start a) (r_start b)) m ∧
  (ks_wf m ↔ ∀ k, ¬ (mem self k ∧ mem other k)) ∧
  (∀ k, mem self k ∨ mem other k ↔ mem m k).
Proof.
  intros Hs Ho. cbv zeta. set (m := merge_by _ self other).
  assert (m ≡ₚ self ++ other) as Hp by apply merge_by_perm.
  assert (StronglySorted (λ a b, key_le (r_start a) (r_start b)) m) as Hm.
  { apply sorted_by_start_iff, merge_by_sorted; [intros; key_order..| |];
      by apply sorted_by_start_iff, ks_wf_sorted. }
  assert (Forall nonempty m) as Hne by (rewrite Hp; apply Forall_app; split; [apply Hs|apply Ho]).
  split; [done|]. split; [done|]. split.
  - rewrite ks_wf_iff_disjoint, <- app_disjoint by done.
    assert (∀ a b, ¬ ranges_overlap a b → ¬ ranges_overlap b a) by (unfold ranges_overlap; tauto).
    split; by apply StronglySorted_perm.
  - intros k. by rewrite Hp, mem_app.
Qed.

(** [merge] computes the union of two key spaces that have no key in common
    (in canonical form, adjacent ranges joined); on key spaces that overlap it
    panics and leaves [self] as it was. *)
Theorem merge_correct self other :
  ks_wf self → ks_wf other →
  ((∀ k, ¬ (mem self k ∧ mem other k)) → ∃ ks, KeySpace.merge other self = (Ok tt, ks) ∧ ks_normal ks ∧
     ∀ k, mem ks k ↔ mem self k ∨ mem other k) ∧
  ((∃ k, mem self k ∧ mem other k) → KeySpace.merge other self = (Panic, self)).
Proof.
  intros Hs Ho. destruct (merged_ranges self other Hs Ho) as (Hne & Hm & Hwf & Hmem).
  unfold KeySpace.merge. set (m := merge_by _ self other) in *. setoid_rewrite Hmem. clear Hmem.
  destruct m as [|p l].
  { split; [|intros (k & Hk); exfalso; by apply (proj1 Hwf ks_wf_nil k)].
    intros _. exists []. split; [done|]. split; [split; constructor|done]. }
  cbn [KeySpace.merge_loop]. unfold mbind, M_bind, mret, M_ret, KeySpaceAccum.add_range.
  cbn [KeySpaceAccum.accum KeySpaceAccum.new KeySpaceAccum.ranges KeySpaceAccum.size].
  set (acc := KeySpaceAccum.Mk (Some p) [] (wrapping_add 64 0 (raw_size p))).
  assert (accum_inv p acc p) as Hinv by (split; [done..|]; split; repeat constructor; by apply Forall_inv in Hne).
  destruct (merge_loop_ok l p acc p Hne Hm Hinv) as [(Hw & acc' & E2 & Hn & Hmk)|[Hw E2]].
  - rewrite E2. split; [|intros (k & Hk); exfalso; by apply (proj1 Hwf Hw k)]. intros _.
    exists (KeySpaceAccum.to_keyspace acc'). split; [done|]. split; [done|]. intros k.
    rewrite Hmk, mem_cons. unfold KeySpaceAccum.to_keyspace; simpl. rewrite mem_singleton. tauto.
  - split; [intros Hd; by apply Hwf in Hd|]. intros _.
    by destruct (KeySpace.merge_loop l (Some p) acc) as [[]]; simplify_eq/=.
Qed.
End merge.

(** A merge that meets the contract, for concrete inputs. *)
Fixpoint merge_with {A} (is_first : A → A → bool) (l : list A) : list A → list A :=
  match l with
  | [] => λ r, r
  | a :: l' => fix go r :=
      match r with
      | [] => a :: l'
      | b :: r' => if is_first a b then a :: merge_with is_first l' r else b :: go r'
      end
  end.

Lemma merge_with_cons {A} (f : A → A → bool) a l b r :
  merge_with f (a :: l) (b :: r) =
  if f a b then a :: merge_with f l (b :: r) else b :: merge_with f (a :: l) r.
Proof. done. Qed.

#[local] Instance merge_with_merge_by : MergeBy := @merge_with.

#[local] Instance merge_with_laws : MergeByLaws.
Proof.
  assert (∀ A (f : A → A → bool) l r, merge_with f l r ≡ₚ l ++ r) as Hperm.
  { intros A f l. induction l as [|a l IH]; [done|]. induction r as [|b r IHr]; simpl; [by rewrite app_nil_r|].
    destruct (f a b); [by rewrite IH|]. simpl in IHr. rewrite IHr.
    by rewrite <- Permutation_middle, Permutation_swap. }
  split; [done|]. intros A f l r Has Htr. unfold merge_by, merge_with_merge_by. revert r.
  induction l as [|a l IH]; [done|].
  intros r Hl Hr. induction r as [|b r IHr]; [done|]. rewrite merge_with_cons.
  pose proof (proj1 (StronglySorted_cons _ _ _) Hl) as [Ha Hl'].
  pose proof (proj1 (StronglySorted_cons _ _ _) Hr) as [Hb Hr'].
  destruct (f a b) eqn:E; constructor.
  - by apply IH.
  - rewrite Hperm. apply Forall_app. split; [done|]. apply Has in E. constructor; [done|].
    eapply Forall_impl; [exact Hb|]. simpl. eauto.
  - by apply IHr.
  - rewrite Hperm. constructor; [done|]. apply Forall_app. split; [|done].
    eapply Forall_impl; [exact Ha|]. simpl. eauto.
Qed.

Lemma merge_correct_witness :
  ((∀ k, ¬ (mem example_ks k ∧ mem [mkRange (MkKey 0 1 1 1 0 10) (MkKey 0 1 1 1 0 15)] k)) →
   ∃ ks, KeySpace.merge [mkRange (MkKey 0 1 1 1 0 10) (MkKey 0 1 1 1 0 15)] example_ks = (Ok tt, ks) ∧ ks_normal ks ∧
     ∀ k, mem ks k ↔ mem example_ks k ∨ mem [mkRange (MkKey 0 1 1 1 0 10) (MkKey 0 1 1 1 0 15)] k) ∧
  ((∃ k, mem example_ks k ∧ mem [mkRange (MkKey 0 1 1 1 0 10) (MkKey 0 1 1 1 0 15)] k) →
   KeySpace.merge [mkRange (MkKey 0 1 1 1 0 10) (MkKey 0 1 1 1 0 15)] example_ks = (Panic, example_ks)).
Proof. apply merge_correct; [apply example_ks_wf|by apply ks_wf_singleton]. Defined.

(** * Where the ranges of a key space begin and end

    Every operation on key spaces only makes ranges from the ends of the ranges it was
    given; and when a key space counts as empty. *)

(** Both ends of every range satisfy [P]. *)
Definition ks_in (P : Key → Prop) (ks : KeySpace) : Prop := Forall (λ r, P (r_start r) ∧ P (r_end r)) ks.

Section bounds.
Context (P : Key → Prop).

Lemma ks_in_app a b : ks_in P (a ++ b) ↔ ks_in P a ∧ ks_in P b.
Proof. apply Forall_app. Qed.

Lemma ks_in_single r : ks_in P [r] ↔ P (r_start r) ∧ P (r_end r).
Proof. unfold ks_in. rewrite Forall_singleton. done. Qed.

Lemma ks_in_alter f i ks : (∀ r, P (r_start r) ∧ P (r_end r) → P (r_start (f r)) ∧ P (r_end (f r))) → ks_in P ks → ks_in P (alter f i ks).
Proof. intros Hf Hks. apply Forall_alter; [done|]. intros r _. apply Hf. Qed.

Lemma coalesce_in l ranges s e ks : KeySpaceRandomAccum.coalesce l ranges s e = Ok ks →
  ks_in P l → ks_in P ranges → P s → P e → ks_in P ks.
Proof.
  revert ranges s e. induction l as [|r l IH]; intros ranges s e; cbn [KeySpaceRandomAccum.coalesce].
  { intros [= <-] _ Hr Hs He. by apply ks_in_app; rewrite ks_in_single. }
  intros E [Hr Hl]%Forall_cons Hrs Hs He. destruct (Key.leb s (r_start r)); [|done].
  destruct (Key.ltb e (r_start r)); [|destruct (Key.ltb e (r_end r))]; revert E; intros E; eapply IH; try done; try apply Hr.
  by apply ks_in_app; rewrite ks_in_single.
Qed.

Lemma random_accum_in l ks : KeySpaceRandomAccum.to_keyspace l = Ok ks → ks_in P l → ks_in P ks.
Proof.
  unfold KeySpaceRandomAccum.to_keyspace. set (f := λ a b, _). intros E Hl.
  assert (ks_in P (sort_by f l)) as Hs by (unfold ks_in; by rewrite (sort_by_perm f l)).
  destruct (sort_by f l) as [|r sorted]; [injection E as <-; constructor|].
  pose proof (Forall_inv Hs) as [Hr1 Hr2]. eapply coalesce_in; try done. constructor.
Qed.

Lemma cuts_in range overlapped i st : P (r_start range) ∧ P (r_end range) → P (r_start overlapped) ∧ P (r_end overlapped) →
  ks_in P st.1 ∧ ks_in P st.2 →
  let st' := KeySpace.cut_whole range overlapped i (KeySpace.cut_middle range overlapped i
    (KeySpace.cut_low range overlapped i (KeySpace.cut_high range overlapped i st))) in
  ks_in P st'.1 ∧ ks_in P st'.2.
Proof.
  intros Hr Ho. assert (∀ st : KeySpace.RemoveState, ks_in P st.1 → P (r_start (default overlapped (st.1 !! i))) ∧ P (r_end (default overlapped (st.1 !! i)))) as Hcur.
  { intros [l rem] Hl. cbn. destruct (l !! i) as [r|] eqn:E; [|done]. apply (Forall_lookup_1 _ _ _ _ Hl E). }
  intros Hst. cbv zeta.
  assert (∀ f st, (f = KeySpace.cut_high range overlapped i ∨ f = KeySpace.cut_low range overlapped i ∨
    f = KeySpace.cut_middle range overlapped i ∨ f = KeySpace.cut_whole range overlapped i) →
    ks_in P st.1 ∧ ks_in P st.2 → ks_in P (f st).1 ∧ ks_in P (f st).2) as Hf; [|do 4 (apply Hf; [by eauto|]); done].
  clear st Hst. intros f st Hf [H1 H2]. pose proof (Hcur st H1) as Hc. destruct Hr as [Hr1 Hr2], Ho as [Ho1 Ho2], Hc as [Hc1 Hc2].
  destruct Hf as [->|[->|[->| ->]]];
    unfold KeySpace.cut_high, KeySpace.cut_low, KeySpace.cut_middle, KeySpace.cut_whole; destruct (_ && _); try done; cbn [fst snd].
  - split; [apply ks_in_alter; [|done]; by intros r [? ?]|]. by apply ks_in_app; rewrite ks_in_single.
  - split; [apply ks_in_alter; [|done]; by intros r [? ?]|]. by apply ks_in_app; rewrite ks_in_single.
  - split; [|by apply ks_in_app; rewrite ks_in_single].
    assert (ks_in P (alter (KeySpace.set_end (r_start range)) i st.1)) as Ha by (apply ks_in_alter; [|done]; by intros r [? ?]).
    apply ks_in_app. split; [by apply Forall_take|]. apply (ks_in_app [_]). split; [by apply ks_in_single|by apply Forall_drop].
  - split; [by apply Forall_delete|]. by apply ks_in_app; rewrite ks_in_single.
Qed.

Lemma remove_step_in range st : P (r_start range) ∧ P (r_end range) → ks_in P st.1 ∧ ks_in P st.2 →
  match KeySpace.remove_step range st with
  | inl st' => ks_in P st'.1 ∧ ks_in P st'.2
  | inr r => ∀ st', r = Ok st' → ks_in P st'.1 ∧ ks_in P st'.2
  end.
Proof.
  intros Hr Hst. unfold KeySpace.remove_step. destruct (KeySpace.overlaps_at st.1 range) as [[i|]| |]; try done; [|by intros ? [= <-]].
  destruct (st.1 !! i) as [p|] eqn:E; [|done]. apply cuts_in; [done| |done]. apply (Forall_lookup_1 _ _ _ _ (proj1 Hst) E).
Qed.

Lemma remove_loop_in ranges st st' : KeySpace.remove_loop ranges st = Some (Ok st') → ks_in P ranges →
  ks_in P st.1 ∧ ks_in P st.2 → ks_in P st'.1 ∧ ks_in P st'.2.
Proof.
  revert st. induction ranges as [|r ranges IH]; intros st; cbn [KeySpace.remove_loop]; [by intros [= <-]|].
  intros E [Hr Hrs]%Forall_cons Hst. unfold run_bounded in E.
  pose proof (run_inv (KeySpace.remove_step r) (λ st, ks_in P st.1 ∧ ks_in P st.2) (λ o, ∀ st', o = Ok st' → ks_in P st'.1 ∧ ks_in P st'.2)
    (Pos.of_succ_nat (length st.1)) st (λ st, remove_step_in r st Hr) Hst) as Hrun.
  destruct (run _ _ st) as [s|[s| |]]; try done. apply (IH s); [done|done|]. by apply Hrun.
Qed.

Lemma skip_while_in f ks : ks_in P ks → ks_in P (skip_while f ks).
Proof. induction 1 as [|r ks Hr Hks IH]; cbn; [constructor|]. destruct (f r); [done|by constructor]. Qed.

Lemma take_while_in f ks : ks_in P ks → ks_in P (take_while f ks).
Proof. induction 1 as [|r ks Hr Hks IH]; cbn; [constructor|]. destruct (f r); [by constructor|constructor]. Qed.

Lemma remove_in self other self' removed : KeySpace.remove_overlapping_with self other = Some (Ok (self', removed)) →
  ks_in P self → ks_in P other → ks_in P self' ∧ ks_in P removed.
Proof.
  unfold KeySpace.remove_overlapping_with. intros E Hs Ho.
  destruct (KeySpace.start self); [|injection E as <- <-; split; [done|constructor]].
  destruct (KeySpace.end_ self); [|injection E as <- <-; split; [done|constructor]].
  destruct (KeySpace.remove_loop _ _) as [[[s r]| |]|] eqn:El; try done.
  apply remove_loop_in in El as [H1 H2]; [|by apply take_while_in, skip_while_in|split; [done|constructor]].
  cbn [fst snd] in *. destruct (KeySpaceRandomAccum.to_keyspace r) as [ks| |] eqn:Er; try done. injection E as <- <-.
  split; [done|]. by apply (random_accum_in r).
Qed.

Lemma accum_add_in r acc acc' : KeySpaceAccum.add_range r acc = (Ok tt, acc') → P (r_start r) ∧ P (r_end r) →
  ks_in P (KeySpaceAccum.to_keyspace acc) → ks_in P (KeySpaceAccum.to_keyspace acc').
Proof.
  unfold KeySpaceAccum.add_range, KeySpaceAccum.to_keyspace. intros E Hr. destruct (KeySpaceAccum.accum acc) as [a|].
  - rewrite ks_in_app, ks_in_single. intros [Ha1 Ha2].
    destruct (Key.eqb _ _); [|destruct (Key.ltb _ _); [|done]]; injection E as <-; cbn; rewrite !ks_in_app, !ks_in_single; cbn; tauto.
  - injection E as <-. cbn. intros Ha. by rewrite ks_in_app, ks_in_single.
Qed.

Lemma merge_loop_in l prev acc acc' : KeySpace.merge_loop l prev acc = (Ok tt, acc') → ks_in P l →
  ks_in P (KeySpaceAccum.to_keyspace acc) → ks_in P (KeySpaceAccum.to_keyspace acc').
Proof.
  revert prev acc. induction l as [|r l IH]; intros prev acc; cbn [KeySpace.merge_loop]; [by intros [= <-]|].
  intros E [Hr Hl]%Forall_cons Ha. apply M_bind_inv in E as (x & s1 & E1 & E).
  assert (s1 = acc) as -> by (destruct prev; [unfold assertM in E1; destruct (negb _)|]; by injection E1).
  apply M_bind_inv in E as ([] & s2 & E2 & E). apply (IH _ _ E Hl). by apply (accum_add_in r acc).
Qed.

Lemma merge_in `{MergeByLaws} self other ks : KeySpace.merge other self = (Ok tt, ks) → ks_in P self → ks_in P other → ks_in P ks.
Proof.
  unfold KeySpace.merge. set (m := merge_by _ self other). intros E Hs Ho.
  assert (ks_in P m) as Hm by (unfold m, ks_in; rewrite merge_by_perm; by apply Forall_app).
  destruct (KeySpace.merge_loop m None KeySpaceAccum.new) as [[[]| |] acc] eqn:El; try done. injection E as <-.
  apply (merge_loop_in m None KeySpaceAccum.new); [done|done|constructor].
Qed.
End bounds.
