(* ===== verification/PartitionFacts.v ===== *)
(** Facts about cutting key ranges by shard: [ShardedRange::page_count],
    [ShardedRange::fragment] and [KeySpace::partition] on the block ranges of
    relations.

    The loops step from stripe to stripe; the facts compare them with the plain
    count of the blocks that the shard keeps, [local_blocks]. *)

From S2P Require Import Prelude Text Loops Lsns Keys KeysFacts Shards KeySpaces KeySpaceFacts.
Local Open Scope Z_scope.

(** An identity that [ShardIdentity::new] or [unsharded] builds. *)
Definition usable (sh : ShardIdentity) : Prop :=
  u8 (si_count sh) ∧ 0 < si_stripe_size sh < 2 ^ 32 ∧ ShardIdentity.is_broken sh = false.

(** The number of blocks of [lo..hi] that the shard may not dispose of. *)
Definition local_blocks (sh : ShardIdentity) (rel : RelTag) (lo hi : Z) : Z :=
  Z.of_nat (length (filter
    (λ b, ShardIdentity.is_key_disposable sh (rel_block_to_key rel b) = Ok false) (seqZ lo (hi - lo)))).

Section blocks.
Context (sh : ShardIdentity) (rel : RelTag).
Hypothesis Hsh : usable sh.
Hypothesis Hrel : relnode rel ≠ 0.

(** Whether the blocks of a stripe are disposable. *)
Definition stripe_disposable (stripe : Z) : bool :=
  if si_count sh <? 2 then false
  else if (forknum rel =? INIT_FORKNUM) && (si_number sh =? 0) then false
  else if forknum rel =? INIT_FORKNUM then negb (0 =? si_number sh)
  else negb (wrap 8 (hash_combine (murmurhash32 (relnode rel)) (murmurhash32 stripe) mod si_count sh)
             =? si_number sh).

Lemma block_disposable b :
  0 ≤ b < 0xffffffff →
  ShardIdentity.is_key_disposable sh (rel_block_to_key rel b) =
  Ok (stripe_disposable (b / si_stripe_size sh)).
Proof.
  intros Hb. destruct Hsh as (Hc & Hs & Hbr). unfold in_u in Hc.
  assert (KeyClass.is_rel_block_key (rel_block_to_key rel b) = true) as Hblk.
  { unfold KeyClass.is_rel_block_key. simpl.
    rewrite (proj2 (Z.eqb_neq (relnode rel) 0) Hrel), (proj2 (Z.eqb_neq b 0xffffffff)) by lia. done. }
  unfold ShardIdentity.is_key_disposable, ShardIdentity.is_key_global, stripe_disposable,
    ShardIdentity.is_key_local, key_to_shard_number, key_is_shard0. rewrite Hbr, Hblk.
  destruct (si_count sh <? 2); [done|]. simpl orb. unfold rel_block_to_key. cbn [field5 field4 field6].
  rewrite (proj2 (Z.eqb_neq (si_stripe_size sh) 0)) by lia.
  change (KeyClass.is_slru_block_key _ || _ || _ || _) with false. cbv iota.
  destruct (forknum rel =? INIT_FORKNUM); simpl; [|done]. by destruct (si_number sh =? 0).
Qed.

Lemma local_blocks_app lo mid hi :
  lo ≤ mid ≤ hi → local_blocks sh rel lo hi = local_blocks sh rel lo mid + local_blocks sh rel mid hi.
Proof.
  intros H. unfold local_blocks.
  replace (hi - lo) with ((mid - lo) + (hi - mid)) by lia. rewrite seqZ_app by lia.
  rewrite filter_app, length_app. replace (lo + (mid - lo)) with mid by lia. lia.
Qed.

Lemma local_blocks_const lo hi d :
  lo ≤ hi → (∀ b, lo ≤ b < hi → ShardIdentity.is_key_disposable sh (rel_block_to_key rel b) = Ok d) →
  local_blocks sh rel lo hi = if d then 0 else hi - lo.
Proof.
  intros Hle Hd. unfold local_blocks.
  assert (∀ l, Forall (λ b, lo ≤ b < hi) l → length (filter
    (λ b, ShardIdentity.is_key_disposable sh (rel_block_to_key rel b) = Ok false) l) =
    if d then 0%nat else length l) as H.
  { induction 1 as [|b l Hb _ IH]; [by destruct d|]. specialize (Hd b Hb). destruct d.
    - by rewrite filter_cons_False by congruence.
    - rewrite filter_cons_True by done. simpl. by rewrite IH. }
  rewrite H; [|apply Forall_forall; intros b Hb%elem_of_seqZ; lia].
  destruct d; [done|]. rewrite length_seqZ. lia.
Qed.

Lemma local_blocks_nil lo : local_blocks sh rel lo lo = 0.
Proof. unfold local_blocks. by rewrite Z.sub_diag. Qed.

Lemma local_blocks_nonneg lo hi : 0 ≤ local_blocks sh rel lo hi.
Proof. unfold local_blocks. lia. Qed.

(** ** One step of the loops *)

Context (b : Z).
Hypothesis Hb : 0 ≤ b ≤ 0xffffffff.

Lemma rel_block_add c n :
  0 ≤ c → 0 ≤ n → c + n ≤ b → Key.add (rel_block_to_key rel c) n = Ok (rel_block_to_key rel (c + n)).
Proof.
  intros Hc Hn Hcn. unfold Key.add, overflowing_add. cbn [field6 rel_block_to_key].
  rewrite (proj2 (Z.leb_gt (2 ^ 32) (c + n))) by lia. by rewrite (wrap_small 32) by (unfold in_u; lia).
Qed.

Lemma rel_block_ltb c d : Key.ltb (rel_block_to_key rel c) (rel_block_to_key rel d) = (c <? d).
Proof. apply eq_true_iff_eq. rewrite ltb_lex. simpl. lia. Qed.

Definition block_range (lo hi : Z) : Range Key :=
  mkRange (rel_block_to_key rel lo) (rel_block_to_key rel hi).

(** From the cursor, up to the end of the range or of the stripe: not nothing,
    and all blocks of the same kind. *)
Lemma boundary_step a c :
  0 ≤ c < b →
  ∃ n d, ShardedRange.distance_to_next_boundary (MkShardedRange sh (block_range a b)) (rel_block_to_key rel c) = Ok n ∧
    0 < n ≤ b - c ∧
    ShardIdentity.is_key_disposable sh (rel_block_to_key rel c) = Ok d ∧
    ∀ m, 0 ≤ m ≤ n → local_blocks sh rel c (c + m) = if d then 0 else m.
Proof.
  intros Hc. destruct Hsh as (Hcnt & Hs & Hbr). set (st := si_stripe_size sh) in *.
  assert (contiguous_range_len (mkRange (rel_block_to_key rel c) (rel_block_to_key rel b)) = b - c) as El.
  { unfold contiguous_range_len. cbn [r_start r_end rel_block_to_key field6].
    rewrite (proj2 (Z.eqb_neq c 0xffffffff)) by lia. apply wrap_small. unfold in_u. lia. }
  unfold ShardedRange.distance_to_next_boundary. cbn [range shard_identity block_range r_end]. rewrite El.
  rewrite (block_disposable c) by lia. fold st.
  assert (∀ n, (∀ x, c ≤ x < c + n → stripe_disposable (x / st) = stripe_disposable (c / st)) → n ≤ b - c →
    ∀ m, 0 ≤ m ≤ n → local_blocks sh rel c (c + m) = if stripe_disposable (c / st) then 0 else m) as Hcount.
  { intros n Hn Hnb m Hm. rewrite (local_blocks_const c (c + m) (stripe_disposable (c / st))); [case_match; lia|lia|].
    intros x Hx. rewrite block_disposable by lia. fold st. by rewrite Hn by lia. }
  destruct (si_count sh <? 2) eqn:E2.
  { exists (b - c), (stripe_disposable (c / st)). split; [done|]. split; [lia|]. split; [done|].
    apply Hcount; [|lia]. intros x _. unfold stripe_disposable. by rewrite E2. }
  simpl field6. rewrite (proj2 (Z.eqb_neq c 0xffffffff)), (proj2 (Z.eqb_neq st 0)) by lia.
  pose proof (Z.div_mod c st ltac:(lia)) as Hdm. pose proof (Z.mod_pos_bound c st ltac:(lia)) as Hmod.
  assert (0 ≤ c / st) as Hq by (apply Z.div_pos; lia).
  assert (wrapping_sub 32 st (wrapping_sub 32 c (wrapping_mul 32 (c / st) st)) = st - c mod st) as ->.
  { unfold wrapping_sub, wrapping_mul. rewrite (wrap_small 32 (c / st * st)) by (split; [nia|lia]).
    replace (c - c / st * st) with (c mod st) by lia.
    rewrite (wrap_small 32 (c mod st)) by (unfold in_u; lia). apply wrap_small. unfold in_u. lia. }
  exists (Z.min (st - c mod st) (b - c)), (stripe_disposable (c / st)).
  split; [done|]. split; [lia|]. split; [done|]. apply Hcount; [|lia]. intros x Hx. f_equal.
  symmetry. apply (Z.div_unique_pos x st (c / st) (x - st * (c / st))); lia.
Qed.

Lemma local_blocks_bound lo hi : lo ≤ hi → local_blocks sh rel lo hi ≤ hi - lo.
Proof.
  intros H. unfold local_blocks.
  pose proof (length_filter (λ b, ShardIdentity.is_key_disposable sh (rel_block_to_key rel b) = Ok false)
    (seqZ lo (hi - lo))) as Hl. rewrite length_seqZ in Hl. lia.
Qed.

Lemma rel_block_to_key_inj x y : rel_block_to_key rel x = rel_block_to_key rel y → x = y.
Proof. by intros [= ->]. Qed.

Lemma block_range_contiguous lo hi : is_contiguous_range (block_range lo hi) = true.
Proof. unfold is_contiguous_range. simpl. by rewrite !Z.eqb_refl. Qed.

(** The single-key case of [fragment] and [page_count]. *)
Lemma single_size_spec a :
  0 ≤ a → a + 1 ≤ b →
  ShardedRange.single_size (MkShardedRange sh (block_range a b)) = Ok (local_blocks sh rel a (a + 1)).
Proof.
  intros Ha Hab. destruct (boundary_step a a ltac:(lia)) as (n & d & _ & Hn & Hd & Hcount).
  unfold ShardedRange.single_size. cbn [shard_identity range block_range r_start]. rewrite Hd.
  rewrite (Hcount 1) by lia. by destruct d.
Qed.

Lemma page_count_loop a :
  0 ≤ a ≤ b →
  run_result (ShardedRange.page_count_step (MkShardedRange sh (block_range a b))) (0, rel_block_to_key rel a) =
  Some (Ok (local_blocks sh rel a b)).
Proof.
  intros Ha. unfold run_result.
  destruct (run_total (ShardedRange.page_count_step (MkShardedRange sh (block_range a b)))
    (λ st, ∃ c, a ≤ c ≤ b ∧ st = (local_blocks sh rel a c, rel_block_to_key rel c))
    (λ st, b - field6 st.2) (λ r, r = Ok (local_blocks sh rel a b)) FUEL (0, rel_block_to_key rel a))
    as (r & -> & ->); [| | |done].
  - intros st (c & Hc & ->). unfold ShardedRange.page_count_step. cbn [fst snd range block_range r_end].
    pose proof (local_blocks_bound a c ltac:(lia)). pose proof (local_blocks_nonneg a c).
    rewrite rel_block_ltb. destruct (Z.ltb_spec c b) as [Hlt|Hge].
    + destruct (boundary_step a c ltac:(lia)) as (n & d & En & Hn & Ed & Hcount).
      unfold ShardedRange.page_count_body. rewrite En. cbn [mbind result_bind shard_identity]. rewrite Ed.
      cbn [mbind result_bind]. rewrite rel_block_add by lia. cbn. split; [|lia]. exists (c + n).
      split; [lia|]. f_equal. rewrite (local_blocks_app a c (c + n)), (Hcount n) by lia.
      destruct d; [lia|]. apply wrap_small. unfold in_u. lia.
    + assert (c = b) as -> by lia. unfold U32_MAX.
      rewrite (proj2 (Z.ltb_ge _ _)) by lia. by rewrite wrap_small by (unfold in_u; lia).
  - exists a. split; [lia|]. by rewrite local_blocks_nil.
  - simpl. unfold FUEL. lia.
Qed.
End blocks.

(** [page_count], which steps through the stripes of a relation's block
    range, counts exactly the blocks of the range that the shard keeps. *)
Theorem page_count_correct sh rel a b :
  usable sh → relnode rel ≠ 0 → 0 ≤ a < b → b ≤ 0xffffffff →
  ShardedRange.page_count (MkShardedRange sh (block_range rel a b)) = Some (Ok (local_blocks sh rel a b)).
Proof.
  intros Hsh Hrel Ha Hb. unfold ShardedRange.page_count. cbn [range block_range r_start r_end shard_identity].
  rewrite (rel_block_add rel b) by lia. destruct (Key.eqb _ _) eqn:E; key_simpl.
  { apply rel_block_to_key_inj in E as ->. by rewrite single_size_spec by (done || lia). }
  fold (block_range rel a b). rewrite block_range_contiguous. cbn [negb].
  destruct (si_count sh <? 2) eqn:E2; [|apply page_count_loop; try done; lia].
  rewrite (local_blocks_const sh rel a b false); [|lia|].
  - unfold contiguous_range_len. cbn [block_range r_start r_end rel_block_to_key field6].
    rewrite (proj2 (Z.eqb_neq a 0xffffffff)) by lia. do 2 f_equal. apply wrap_small. unfold in_u. lia.
  - intros x Hx. rewrite block_disposable by (done || lia). unfold stripe_disposable. by rewrite E2.
Qed.

Definition example_shard : ShardIdentity := MkShardIdentity 1 2 4 LAYOUT_V1.

Lemma example_shard_usable : usable example_shard.
Proof. split; [by vm_compute|]. split; [simpl; lia|done]. Qed.

Lemma page_count_correct_witness :
  ShardedRange.page_count (MkShardedRange example_shard (block_range (MkRelTag 0 1 2 3) 1 23)) =
  Some (Ok (local_blocks example_shard (MkRelTag 0 1 2 3) 1 23)).
Proof. apply page_count_correct; [apply example_shard_usable|done|lia|lia]. Defined.

(** * Fragments *)

Section fragments.
Context (sh : ShardIdentity) (rel : RelTag) (b target : Z).
Hypothesis Hsh : usable sh.
Hypothesis Hrel : relnode rel ≠ 0.
Hypothesis Hb : 0 ≤ b ≤ 0xffffffff.
Hypothesis Htarget : 0 < target < 2 ^ 32.

(** The fragments [frs] follow one another from block [lo] to block [hi], each
    with its number of local blocks, which is at most the target. *)
Fixpoint frag_chain (lo : Z) (frs : list (Z * Range Key)) (hi : Z) : Prop :=
  match frs with
  | [] => lo = hi
  | f :: frs' => ∃ mid, lo < mid ∧ f = (local_blocks sh rel lo mid, block_range rel lo mid) ∧
      local_blocks sh rel lo mid ≤ target ∧ frag_chain mid frs' hi
  end.

(** Every fragment has a local block, unless there is none at all. *)
Definition frag_shape (frs : list (Z * Range Key)) : Prop :=
  Forall (λ f, 0 < f.1) frs ∨ ∃ f, frs = [f] ∧ f.1 = 0.

Lemma frag_chain_app lo x y hi :
  frag_chain lo (x ++ y) hi ↔ ∃ mid, frag_chain lo x mid ∧ frag_chain mid y hi.
Proof.
  revert lo. induction x as [|f x IH]; intros lo; simpl.
  - split; [by exists lo|]. by intros (mid & -> & ?).
  - setoid_rewrite IH. naive_solver.
Qed.

Lemma frag_chain_snoc lo x f hi :
  frag_chain lo (x ++ [f]) hi ↔ ∃ mid, frag_chain lo x mid ∧ mid < hi ∧
    f = (local_blocks sh rel mid hi, block_range rel mid hi) ∧ local_blocks sh rel mid hi ≤ target.
Proof. rewrite frag_chain_app. simpl. naive_solver. Qed.

Definition frag_inv (a : Z) (st : list (Z * Range Key) * Key) : Prop :=
  ∃ c, a ≤ c ≤ b ∧ st.2 = rel_block_to_key rel c ∧ frag_chain a st.1 c ∧ frag_shape st.1.

(** Extending the last fragment, or opening a new one, by [m] blocks of one
    kind. *)
Lemma frag_extend a c m d x f :
  frag_chain a (x ++ [f]) c → frag_shape (x ++ [f]) → 0 < m → c + m ≤ b →
  local_blocks sh rel c (c + m) = (if d : bool then 0 else m) → f.1 + (if d then 0 else m) ≤ target →
  let f' := (wrapping_add 32 f.1 (if d then 0 else m),
             mkRange (r_start f.2) (rel_block_to_key rel (c + m))) in
  frag_chain a (x ++ [f']) (c + m) ∧ frag_shape (x ++ [f']).
Proof.
  intros (mid & Hx & Hmid & -> & Hle)%frag_chain_snoc Hshape Hm Hcm Hlb Ht. simpl in *.
  pose proof (local_blocks_nonneg sh rel mid c).
  unfold wrapping_add. rewrite wrap_small by (unfold in_u; case_match; lia).
  rewrite frag_chain_snoc. split.
  - exists mid. split; [done|]. split; [lia|].
    rewrite (local_blocks_app sh rel mid c (c + m)), Hlb by lia. done.
  - destruct Hshape as [Hs|(f & Ef & Hf)].
    + left. apply Forall_app in Hs as [Hs1 Hs2%Forall_inv]. simpl in Hs2.
      apply Forall_app. split; [done|]. constructor; [|done]. simpl. case_match; lia.
    + destruct x as [|? []]; simplify_eq/=. rewrite Hf. destruct d; [right|left].
      * eexists. split; [done|]. done.
      * constructor; [simpl; lia|done].
Qed.

Lemma frag_push a c m d x :
  frag_chain a x c → 0 < m → c + m ≤ b → x = [] ∨ Forall (λ f, 0 < f.1) x ∧ d = false →
  local_blocks sh rel c (c + m) = (if d : bool then 0 else m) → (if d then 0 else m) ≤ target →
  let f' := (if d then 0 else m, block_range rel c (c + m)) in
  frag_chain a (x ++ [f']) (c + m) ∧ frag_shape (x ++ [f']).
Proof.
  intros Hx Hm Hcm Hd Hlb Ht. cbv zeta. rewrite frag_chain_snoc. split.
  - exists c. rewrite Hlb. split; [done|]. split; [lia|]. done.
  - destruct Hd as [->|[Hx' ->]].
    + destruct d; [right; by eexists|left]. by repeat constructor.
    + left. apply Forall_app. by repeat constructor.
Qed.

Lemma alter_last {A} (g : A → A) x f : alter g (length (x ++ [f]) - 1)%nat (x ++ [f]) = x ++ [g f].
Proof. rewrite length_app, Nat.add_sub. apply alter_middle. Qed.

Lemma frag_shape_pos x f : frag_shape (x ++ [f]) → 0 < f.1 → Forall (λ f, 0 < f.1) (x ++ [f]).
Proof. intros [?|(g & E & Hg)] Hf; [done|]. destruct x as [|? []]; simplify_eq/=. lia. Qed.

Lemma fragment_body_ok a frs c :
  0 ≤ a → a ≤ c < b → frag_chain a frs c → frag_shape frs →
  ∃ frs' c', ShardedRange.fragment_body (MkShardedRange sh (block_range rel a b)) target frs (rel_block_to_key rel c) =
      Ok (frs', rel_block_to_key rel c') ∧
    c < c' ≤ b ∧ frag_chain a frs' c' ∧ frag_shape frs'.
Proof.
  intros Ha Hc Hchain Hshape.
  destruct (boundary_step sh rel Hsh Hrel b Hb a c ltac:(lia)) as (n & d & En & Hn & Ed & Hcount).
  unfold ShardedRange.fragment_body. rewrite En. cbn [mbind result_bind shard_identity]. rewrite Ed.
  cbn [mbind result_bind].
  destruct (last frs) as [f|] eqn:El.
  - apply last_Some in El as (x & ->).
    assert (0 ≤ f.1 ≤ target) as Hf.
    { apply frag_chain_snoc in Hchain as (mid & _ & _ & -> & Hle). simpl.
      pose proof (local_blocks_nonneg sh rel mid c). lia. }
    destruct (Z.ltb_spec f.1 target) as [Hlt|Hge].
    + set (m := if d then n else Z.min n (target - f.1)).
      assert (0 < m ≤ n) as Hm by (subst m; case_match; lia).
      rewrite (rel_block_add rel b) by lia. cbn [mbind result_bind]. rewrite alter_last. eexists _, (c + m).
      split; [done|]. split; [lia|]. apply (frag_extend a c m d); try done; [lia|lia|apply Hcount; lia|].
      subst m. destruct d; lia.
    + set (m := if d then n else Z.min n target).
      assert (0 < m ≤ n) as Hm by (subst m; case_match; lia).
      rewrite (rel_block_add rel b) by lia. cbn [mbind result_bind]. destruct d.
      * rewrite alter_last. eexists _, (c + m). split; [done|]. split; [lia|].
        apply (frag_extend a c m true); try done; [lia|lia|apply (Hcount m); lia|lia].
      * eexists _, (c + m). split; [done|]. split; [lia|].
        apply (frag_push a c m false); try done; [lia|lia| |apply (Hcount m); lia|lia].
        right. split; [|done]. apply frag_shape_pos; [done|lia].
  - apply last_None in El as ->.
    set (m := if d then n else Z.min n target).
    assert (0 < m ≤ n) as Hm by (subst m; case_match; lia).
    rewrite (rel_block_add rel b) by lia. cbn [mbind result_bind]. eexists _, (c + m).
    split; [done|]. split; [lia|]. apply (frag_push a c m d); try done; [lia|lia|by left|apply (Hcount m); lia|].
    subst m. destruct d; lia.
Qed.

Lemma fragment_loop_ok a :
  0 ≤ a ≤ b →
  ∃ frs, run_result (ShardedRange.fragment_step (MkShardedRange sh (block_range rel a b)) target)
      ([], rel_block_to_key rel a) = Some (Ok frs) ∧
    frag_chain a frs b ∧ frag_shape frs.
Proof.
  intros Ha. unfold run_result.
  destruct (run_total (ShardedRange.fragment_step (MkShardedRange sh (block_range rel a b)) target)
    (frag_inv a) (λ st, b - field6 st.2) (λ r, ∃ frs, r = Ok frs ∧ frag_chain a frs b ∧ frag_shape frs)
    FUEL ([], rel_block_to_key rel a)) as (r & -> & frs & -> & H); [| | |by exists frs].
  - intros [frs k] (c & Hc & Ek & Hchain & Hshape). cbn [fst snd] in *. subst k.
    unfold ShardedRange.fragment_step. cbn [fst snd range block_range r_end]. rewrite rel_block_ltb. destruct (Z.ltb_spec c b) as [Hlt|Hge].
    + destruct (fragment_body_ok a frs c) as (frs' & c' & -> & Hc' & ?); [lia..|done|done|].
      cbn. split; [|lia]. exists c'. split; [lia|]. done.
    + assert (c = b) as -> by lia. by exists frs.
  - exists a. split; [lia|]. split; [done|]. split; [done|]. by left.
  - simpl. unfold FUEL. lia.
Qed.

(** [fragment] on a relation's block range. *)
Lemma fragment_ok a :
  0 ≤ a < b →
  ∃ frs, ShardedRange.fragment (MkShardedRange sh (block_range rel a b)) target = Some (Ok frs) ∧
    frag_chain a frs b ∧ frag_shape frs.
Proof.
  intros Ha. unfold ShardedRange.fragment. cbn [range block_range r_start r_end].
  rewrite (rel_block_add rel b) by lia. destruct (Key.eqb _ _) eqn:E; key_simpl.
  - apply rel_block_to_key_inj in E. fold (block_range rel a b).
    rewrite (single_size_spec sh rel Hsh Hrel b Hb) by lia. eexists. split; [done|].
    pose proof (local_blocks_nonneg sh rel a b). pose proof (local_blocks_bound sh rel a b).
    split; [simpl; exists b; rewrite <- E; split_and!; try done; lia|].
    destruct (decide (local_blocks sh rel a (a + 1) = 0)); [right; by eexists|left].
    constructor; [simpl|done]. rewrite <- E in *. lia.
  - fold (block_range rel a b). rewrite block_range_contiguous. cbn [negb]. apply fragment_loop_ok. lia.
Qed.
End fragments.

(** [fragment] cuts the block range of a relation into consecutive fragments
    that cover it exactly; each is labelled with its number of local blocks,
    which does not exceed the target, and every fragment has a local block
    unless the whole range has none. *)
Lemma fragment_correct sh rel a b target :
  usable sh → relnode rel ≠ 0 → 0 ≤ a < b → b ≤ 0xffffffff → 0 < target < 2 ^ 32 →
  ∃ frs, ShardedRange.fragment (MkShardedRange sh (block_range rel a b)) target = Some (Ok frs) ∧
    frag_chain sh rel target a frs b ∧ frag_shape frs.
Proof. intros. apply fragment_ok; try done; lia. Qed.


(** * Partitions *)

(** The local blocks of a range inside one relation. *)
Definition range_blocks (sh : ShardIdentity) (r : Range Key) : Z :=
  match KeyClass.to_rel_block (r_start r) with
  | Ok (rel, lo) => local_blocks sh rel lo (field6 (r_end r))
  | _ => 0
  end.

Definition part_blocks (sh : ShardIdentity) (part : KeySpace) : Z :=
  foldr (λ r acc, range_blocks sh r + acc) 0 part.

Lemma part_blocks_snoc sh part r : part_blocks sh (part ++ [r]) = part_blocks sh part + range_blocks sh r.
Proof. unfold part_blocks. induction part as [|x part IH]; simpl in *; lia. Qed.

Lemma range_blocks_block_range sh rel lo hi : range_blocks sh (block_range rel lo hi) = local_blocks sh rel lo hi.
Proof. by destruct rel. Qed.

Lemma frag_chain_ranges sh rel target a frs b :
  frag_chain sh rel target a frs b →
  a ≤ b ∧ ks_wf frs.*2 ∧ Forall (inside (block_range rel a b)) frs.*2 ∧
  (∀ k, mem frs.*2 k ↔ in_range (block_range rel a b) k) ∧
  Forall (λ f, f.1 = range_blocks sh f.2 ∧ 0 ≤ f.1 ≤ target) frs.
Proof.
  assert (∀ x y, key_le (rel_block_to_key rel x) (rel_block_to_key rel y) ↔ x ≤ y) as Hkey.
  { intros x y. unfold key_le, Key.leb. rewrite rel_block_ltb. lia. }
  revert a. induction frs as [|f frs IH]; intros a; simpl.
  { intros ->. split; [lia|]. split; [apply ks_wf_nil|]. split; [constructor|]. split; [|constructor].
    intros k. rewrite mem_nil. split; [done|]. intros ?. rng. }
  intros (mid & Hlt & -> & Hle & Hchain).
  destruct (IH mid Hchain) as (Hmb & Hwf & Hin & Hmem & Hall). simpl.
  pose proof (proj2 (Hkey mid b) Hmb). pose proof (proj2 (Hkey a mid) ltac:(lia)).
  assert (key_lt (rel_block_to_key rel a) (rel_block_to_key rel mid))
    by (unfold key_lt; rewrite rel_block_ltb; lia).
  split; [lia|]. split; [|split; [|split]].
  - rewrite ks_wf_cons. split; [done|]. split; [|done]. eapply Forall_impl; [exact Hin|].
    intros q Hq; simpl in *. unfold block_range in *. rng.
  - constructor; [unfold block_range; rng|]. eapply Forall_impl; [exact Hin|].
    intros q Hq; simpl in *. unfold block_range in *. rng.
  - intros k. rewrite mem_cons, Hmem. unfold block_range, in_range; simpl.
    destruct (Key.ltb k (rel_block_to_key rel mid)) eqn:E; key_simpl; intuition key_order.
  - constructor; [|done]. simpl. rewrite range_blocks_block_range.
    pose proof (local_blocks_nonneg sh rel a mid). lia.
Qed.

Section partition.
Context (sh : ShardIdentity) (target : Z).
Hypothesis Hsh : usable sh.
Hypothesis Htarget : 0 < target < 2 ^ 32.

(** What the partitioning loops maintain; [flat] is all they have emitted. *)
Record part_inv (st : Partition.t) (flat : KeySpace) : Prop := {
  pi_flat : concat (Partition.parts st) ++ Partition.current_part st = flat;
  pi_size : Partition.current_part_size st = part_blocks sh (Partition.current_part st);
  pi_bound : 0 ≤ Partition.current_part_size st ≤ target;
  pi_parts : Forall (λ p, p ≠ [] ∧ part_blocks sh p ≤ target) (Partition.parts st)
}.

Lemma add_fragment_inv st flat f :
  part_inv st flat → f.1 = range_blocks sh f.2 → 0 ≤ f.1 ≤ target →
  part_inv (Partition.add_fragment target st f) (flat ++ [f.2]).
Proof.
  intros [Hf Hs Hbd Hp] Ef Hfb. unfold Partition.add_fragment.
  destruct (_ && _) eqn:E; zbool; split; cbn [Partition.parts Partition.current_part Partition.current_part_size].
  - by rewrite concat_app, <- Hf; simpl; rewrite app_nil_r, <- app_assoc.
  - rewrite part_blocks_snoc. change (part_blocks sh []) with 0. lia.
  - lia.
  - apply Forall_app. split; [done|]. constructor; [|done]. split; [|lia].
    intros E0. rewrite E0 in Hs. change (part_blocks sh []) with 0 in Hs. lia.
  - by rewrite app_assoc, Hf.
  - rewrite part_blocks_snoc. lia.
  - destruct E; zbool; lia.
  - done.
Qed.

Lemma add_fragments_inv frs st flat :
  part_inv st flat → Forall (λ f, f.1 = range_blocks sh f.2 ∧ 0 ≤ f.1 ≤ target) frs →
  part_inv (foldl (Partition.add_fragment target) st frs) (flat ++ frs.*2).
Proof.
  intros Hst Hf. revert st flat Hst. induction Hf as [|f frs [Hf1 Hf2] _ IH]; intros st flat Hst; simpl.
  - by rewrite app_nil_r.
  - rewrite cons_middle, app_assoc. by apply IH, add_fragment_inv.
Qed.

(** A range of blocks of one relation. *)
Definition rel_range (r : Range Key) : Prop :=
  ∃ rel a b, r = block_range rel a b ∧ relnode rel ≠ 0 ∧ 0 ≤ a < b ∧ b ≤ 0xffffffff.

Lemma add_ranges_ok ranges st flat :
  Forall rel_range ranges → part_inv st flat →
  ∃ st' ext, Partition.add_ranges sh target ranges st = Some (Ok st') ∧ part_inv st' (flat ++ ext) ∧
    (∀ k, mem ext k ↔ mem ranges k) ∧ (∀ x, x ∈ ext → ∃ r, r ∈ ranges ∧ inside r x) ∧
    (ks_wf ranges → ks_wf ext).
Proof.
  intros Hr. revert st flat. induction Hr as [|r ranges (rel & a & b & -> & Hrel & Ha & Hb) _ IH];
    intros st flat Hst; cbn [Partition.add_ranges].
  { exists st, []. rewrite app_nil_r. split; [done|]. split; [done|]. split; [done|].
    split; [by intros x ?%not_elem_of_nil|done]. }
  destruct (fragment_ok sh rel b target Hsh Hrel ltac:(lia) Htarget a Ha) as (frs & -> & Hchain & _).
  destruct (frag_chain_ranges _ _ _ _ _ _ Hchain) as (_ & Hwf & Hin & Hmem & Hall).
  destruct (IH _ _ (add_fragments_inv frs st flat Hst Hall)) as (st' & ext & E & Hst' & Hm & Hi & Hw).
  exists st', (frs.*2 ++ ext). rewrite app_assoc. rewrite Forall_forall in Hin.
  split; [exact E|]. split; [exact Hst'|]. split; [|split].
  - intros k. by rewrite mem_app, mem_cons, Hm, Hmem.
  - intros x [Hx|Hx]%elem_of_app.
    + eexists. split; [constructor|]. by apply Hin.
    + destruct (Hi x Hx) as (r & ? & ?). exists r. split; [by constructor|done].
  - rewrite ks_wf_cons, ks_wf_app. intros (_ & Hbef & Hwf'). split; [done|]. split; [auto|].
    rewrite Forall_forall in Hbef. intros x y Hx%Hin (r & Hr & Hy)%Hi. specialize (Hbef r Hr). clear - Hx Hy Hbef. rng.
Qed.
End partition.

(** C38: [partition] of a key space made of ranges of blocks of one relation each,
    with a target of fewer than 2^32 blocks, terminates and
    gives parts whose ranges, in order, are a well-formed key space with exactly
    the keys of the original, and no part has more local blocks than the target
    size allows. *)
Theorem partition_correct sh ks target_size block_size :
  usable sh → ks_wf ks → Forall rel_range ks → 0 < block_size →
  0 < target_size / block_size < 2 ^ 32 →
  ∃ parts, Partition.partition ks sh target_size block_size = Some (Ok parts) ∧
    ks_wf (concat parts) ∧ (∀ k, mem (concat parts) k ↔ mem ks k) ∧
    Forall (λ p, p ≠ [] ∧ part_blocks sh p ≤ target_size / block_size) parts.
Proof.
  intros Hsh Hwf Hrel Hbs Ht. unfold Partition.partition.
  rewrite (proj2 (Z.eqb_neq block_size 0)) by lia. rewrite wrap_small by (unfold in_u; lia).
  destruct (add_ranges_ok sh _ Hsh Ht ks (Partition.Mk [] [] 0) [] Hrel)
    as (st & ext & -> & [Hf Hs Hbd Hp] & Hm & _ & Hw); [split; simpl; try done; lia|].
  exists (Partition.finish st). split; [done|].
  assert (concat (Partition.finish st) = ext) as ->.
  { unfold Partition.finish. simpl in Hf. rewrite <- Hf. case_bool_decide as E.
    - by rewrite E, app_nil_r.
    - by rewrite concat_app; simpl; rewrite app_nil_r. }
  split; [auto|]. split; [done|]. unfold Partition.finish. case_bool_decide; [done|].
  apply Forall_app. split; [done|]. constructor; [|done]. split; [done|]. lia.
Qed.

Lemma partition_correct_witness :
  ∃ parts, Partition.partition [block_range (MkRelTag 0 1 2 3) 0 43] example_shard (6 * 8192) 8192 = Some (Ok parts) ∧
    ks_wf (concat parts) ∧ (∀ k, mem (concat parts) k ↔ mem [block_range (MkRelTag 0 1 2 3) 0 43] k) ∧
    Forall (λ p, p ≠ [] ∧ part_blocks example_shard p ≤ 6 * 8192 / 8192) parts.
Proof.
  apply partition_correct; [apply example_shard_usable|by apply ks_wf_singleton| |lia|by vm_compute].
  constructor; [|constructor]. exists (MkRelTag 0 1 2 3), 0, 43. split_and!; done.
Defined.

(** C39: with a target size below one block the loop of [fragment] makes no
    progress: on any range of two or more blocks of an unsharded tenant it runs
    out of every fuel, and [partition] does not terminate. *)
Theorem partition_zero_target_diverges sh rel a b target_size block_size :
  usable sh → si_count sh < 2 → relnode rel ≠ 0 → 0 ≤ a → a + 1 < b ≤ 0xffffffff →
  0 ≤ target_size < block_size →
  (∀ fuel, ∃ st, run (ShardedRange.fragment_step (MkShardedRange sh (block_range rel a b)) 0) fuel
     ([], rel_block_to_key rel a) = inl st) ∧
  Partition.partition [block_range rel a b] sh target_size block_size = None.
Proof.
  intros Hsh Hcnt Hrel Ha Hb Ht.
  assert (∀ fuel, ∃ st, run (ShardedRange.fragment_step (MkShardedRange sh (block_range rel a b)) 0) fuel
     ([], rel_block_to_key rel a) = inl st) as Hdiv.
  { intros fuel.
    apply (run_diverges _ (λ st, st.2 = rel_block_to_key rel a ∧ Forall (λ f, f.1 = 0) st.1)); [|by simpl].
    intros [frs k] [Ek Hf]. cbn [fst snd] in *. subst k. unfold ShardedRange.fragment_step.
    cbn [fst snd range block_range r_end]. rewrite rel_block_ltb, (proj2 (Z.ltb_lt a b)) by lia.
    destruct (boundary_step sh rel Hsh Hrel b ltac:(lia) a a ltac:(lia)) as (n & d & En & Hn & Ed & _).
    rewrite (block_disposable sh rel Hsh Hrel) in Ed by lia. unfold stripe_disposable in Ed.
    rewrite (proj2 (Z.ltb_lt (si_count sh) 2) Hcnt) in Ed. injection Ed as <-.
    unfold ShardedRange.fragment_body. rewrite En. cbn [mbind result_bind shard_identity].
    rewrite (block_disposable sh rel Hsh Hrel) by lia. unfold stripe_disposable.
    rewrite (proj2 (Z.ltb_lt (si_count sh) 2) Hcnt). cbn [mbind result_bind].
    assert (match last frs with
      | Some frag => if frag.1 <? 0 then (0 - frag.1, true) else (0, false)
      | None => (0, false) end = (0, false)) as ->.
    { destruct (last frs) as [f|] eqn:El; [|done]. apply last_Some in El as (x & ->).
      apply Forall_app in Hf as [_ Hf%Forall_inv]. by rewrite Hf. }
    rewrite Z.min_r by lia. rewrite (rel_block_add rel b) by lia. rewrite Z.add_0_r. cbn. eexists. split; [done|].
    split; [done|]. simpl. apply Forall_app. by repeat constructor. }
  split; [done|]. unfold Partition.partition. rewrite (proj2 (Z.eqb_neq block_size 0)) by lia.
  rewrite (Z.div_small target_size block_size) by lia. rewrite (wrap_small 32 0) by (by vm_compute).
  cbn [Partition.add_ranges]. unfold ShardedRange.fragment. cbn [range block_range r_start r_end].
  rewrite (rel_block_add rel b) by lia. destruct (Key.eqb _ _) eqn:E; key_simpl.
  { apply rel_block_to_key_inj in E. lia. }
  fold (block_range rel a b). rewrite block_range_contiguous. cbn [negb]. unfold run_result.
  by destruct (Hdiv FUEL) as [st ->].
Qed.

Lemma partition_zero_target_diverges_witness :
  (∀ fuel, ∃ st, run (ShardedRange.fragment_step (MkShardedRange ShardIdentity.unsharded (block_range (MkRelTag 0 1 2 3) 0 9)) 0) fuel
     ([], rel_block_to_key (MkRelTag 0 1 2 3) 0) = inl st) ∧
  Partition.partition [block_range (MkRelTag 0 1 2 3) 0 9] ShardIdentity.unsharded 8191 8192 = None.
Proof.
  apply partition_zero_target_diverges; [|simpl; lia|done|lia..].
  split; [by vm_compute|]. split; [by vm_compute|done].
Defined.
