(* ===== verification/VecMaps.v ===== *)
(** Ordered maps in a vector: [libs/utils/src/vec_map.rs].

    The return values that count bytes of the allocator are left out. *)

From S2P Require Import Prelude Loops OrdMaps.
Local Open Scope Z_scope.

Inductive VecMapOrdering := Greater | GreaterOrEqual.
Inductive VecMapError := InvalidKey | ExtendOrderingError.

#[global] Instance VecMapOrdering_eq_dec : EqDecision VecMapOrdering.
Proof. solve_decision. Defined.

(** [std::ops::Bound] *)
Inductive Bound (K : Type) := Included (k : K) | Excluded (k : K) | Unbounded.
Arguments Included {K} k.
Arguments Excluded {K} k.
Arguments Unbounded {K}.

Module VecMap.
Section vec_map.
Context {K V : Type} `{TotalCmp K}.

Record t := Mk { data : list (K * V); ordering : VecMapOrdering }.

Definition default : t := Mk [] Greater.
Definition new (ordering : VecMapOrdering) : t := Mk [] ordering.
Definition as_slice (self : t) : list (K * V) := data self.
Definition push (key : K) (value : V) (self : t) : t := Mk (data self ++ [(key, value)]) (ordering self).

(** The index of a key that is found, and that of the next one otherwise. *)
Definition search (k : K) (self : t) : result nat nat := binary_search_by (λ e, kcmp e.1 k) (data self).

Definition slice_range (start_bound end_bound : Bound K) (self : t) : result VecMapError (list (K * V)) :=
  let found (k : K) (shift : nat) := match search k self with Ok idx => Ok (idx + shift)%nat | Err idx => Ok idx | Panic => Panic end in
  start_idx ← match start_bound with Unbounded => Ok 0%nat | Included k => found k 0%nat | Excluded k => found k 1%nat end;
  end_idx ← match end_bound with Unbounded => Ok (length (data self)) | Included k => found k 1%nat | Excluded k => found k 0%nat end;
  if ((start_idx <=? end_idx) && (end_idx <=? length (data self)))%nat then Ok (take (end_idx - start_idx) (drop start_idx (data self)))
  else Panic.

Definition validate_key_order (key : K) (self : t) : result VecMapError unit :=
  match last (data self) with
  | Some (last_key, _) =>
      match ordering self, kcmp key last_key with
      | Greater, (Lt | Eq) => Err InvalidKey
      | GreaterOrEqual, Lt => Err InvalidKey
      | _, _ => Ok tt
      end
  | None => Ok tt
  end.

Definition append (key : K) (value : V) : M t VecMapError unit :=
  self ← getS;
  _ ← liftR (validate_key_order key self);
  modifyS (push key value).

(** The value that was replaced. *)
Definition append_or_update_last (key : K) (value : V) : M t VecMapError (option V) :=
  self ← getS;
  match last (data self) with
  | Some (last_key, last_value) =>
      match kcmp key last_key with
      | Lt => bail InvalidKey
      | Eq =>
          _ ← modifyS (λ self, Mk (removelast (data self) ++ [(last_key, value)]) (ordering self));
          mret (Some last_value)
      | Gt => _ ← modifyS (push key value); mret None
      end
  | None => _ ← modifyS (push key value); mret None
  end.

(** Moves the entries of [other], which is the second part of the state. *)
Definition extend : M (t * t) VecMapError unit :=
  s ← getS;
  let '(self, other) := s in
  _ ← ensure (bool_decide (ordering self = ordering other)) ExtendOrderingError;
  _ ← match last (data other) with Some (other_first, _) => liftR (validate_key_order other_first self) | None => mret tt end;
  modifyS (λ _, (Mk (data self ++ data other) (ordering self), Mk [] (ordering other))).

(** [from_iter]: entries that are not sorted panic. *)
Fixpoint append_all (l : list (K * V)) (self : t) : result VecMapError t :=
  match l with
  | [] => Ok self
  | (key, value) :: l => match append key value self with (Ok _, self) => append_all l self | _ => Panic end
  end.

Definition from_iter (l : list (K * V)) (ordering : VecMapOrdering) : result VecMapError t := append_all l (new ordering).
End vec_map.
Arguments t : clear implicits.
End VecMap.

(** * Facts *)

Section facts.
Context {K V : Type} `{TotalCmpLaws K}.
Implicit Types (m : VecMap.t K V).

Abbreviation ascending := (bt_wf (V := V)).
Definition vec_map_wf m : Prop := VecMap.ordering m = Greater ∧ ascending (VecMap.data m).

Lemma vec_map_default_wf : vec_map_wf VecMap.default.
Proof. split; [done|constructor]. Qed.

Lemma ascending_snoc l x : ascending l → (∀ y, last l = Some y → klt y.1 x.1) → ascending (l ++ [x]).
Proof.
  intros Hl Hx. apply StronglySorted_app. split_and!; [|done|by repeat constructor]. intros a b Ha ->%list_elem_of_singleton.
  destruct (last l) as [y|] eqn:El; [|apply last_None in El as ->; by apply not_elem_of_nil in Ha]. specialize (Hx y eq_refl).
  apply last_Some in El as [l' ->]. apply elem_of_app in Ha as [Ha| ->%list_elem_of_singleton]; [|done].
  apply StronglySorted_app in Hl as (Hl & _ & _). apply (klt_trans _ y.1); [|done]. apply (Hl a y Ha). by apply list_elem_of_singleton.
Qed.

Lemma vec_append_spec m k v : vec_map_wf m → (∀ y, last (VecMap.data m) = Some y → klt y.1 k) →
  VecMap.append k v m = (Ok tt, VecMap.push k v m) ∧ vec_map_wf (VecMap.push k v m).
Proof.
  intros [Ho Hs] Hk. split; [|split; [done|by apply ascending_snoc]]. unfold VecMap.append, getS, modifyS, mbind, M_bind, liftR, VecMap.validate_key_order.
  destruct (last (VecMap.data m)) as [[lk lv]|]; [|done]. rewrite Ho. specialize (Hk _ eq_refl). cbn in Hk. by rewrite (proj2 (kcmp_gt k lk) Hk).
Qed.

(** The entries without the one at the end that has the key. *)
Definition without_last (k : K) (l : list (K * V)) : list (K * V) :=
  match last l with Some y => match kcmp k y.1 with Eq => removelast l | _ => l end | None => l end.

Lemma without_last_in k l x : x ∈ without_last k l → x ∈ l.
Proof.
  unfold without_last. destruct (last l) as [y|] eqn:El; [|done]. destruct (kcmp k y.1); [|done..]. apply last_Some in El as [l' ->].
  rewrite removelast_last. intros Hx. apply elem_of_app. by left.
Qed.

Lemma append_or_update_last_spec m k v : vec_map_wf m → (∀ y, last (VecMap.data m) = Some y → ¬ klt k y.1) →
  ∃ old m', VecMap.append_or_update_last k v m = (Ok old, m') ∧ vec_map_wf m' ∧ VecMap.data m' = without_last k (VecMap.data m) ++ [(k, v)].
Proof.
  intros [Ho Hs] Hk. unfold VecMap.append_or_update_last, without_last, getS, modifyS, mbind, M_bind, mret, M_ret.
  destruct (last (VecMap.data m)) as [[lk lv]|] eqn:El.
  - specialize (Hk _ eq_refl). cbn [fst snd] in *. destruct (kcmp k lk) eqn:Ec; [|done|].
    + apply kcmp_eq in Ec as ->. eexists _, _. split_and!; [done| |done]. split; [done|]. cbn [VecMap.data].
      apply last_Some in El as [l' El]. rewrite El, removelast_last in *. apply StronglySorted_app in Hs as (Hy & Hs & _). apply StronglySorted_app.
      split_and!; [|done|by repeat constructor]. intros a b Ha ->%list_elem_of_singleton. apply (Hy a (lk, lv) Ha). by apply list_elem_of_singleton.
    + eexists _, _. split_and!; [done| |done]. split; [done|]. apply ascending_snoc; [done|]. rewrite El. intros y [= <-]. by apply kcmp_gt.
  - eexists _, _. split_and!; [done| |done]. split; [done|]. apply ascending_snoc; [done|]. by rewrite El.
Qed.

(** The entries below a key come first. *)
Lemma ascending_halves l k : ascending l → l = List.filter (λ e, kltb e.1 k) l ++ List.filter (λ e, kleb k e.1) l.
Proof.
  induction 1 as [|x l Hl IH Hx]; [done|]. cbn [List.filter]. unfold kleb at 1. destruct (kltb x.1 k) eqn:Ek; cbn [negb app]; [by f_equal|].
  rewrite Forall_forall in Hx. assert (∀ y, y ∈ l → kltb y.1 k = false) as Hy.
  { intros y Hy. specialize (Hx y Hy). destruct (kltb y.1 k) eqn:E; [|done]. apply kltb_lt in E. pose proof (klt_trans _ _ _ Hx E) as Hn.
    apply kltb_lt in Hn. congruence. }
  rewrite filter_false by done. cbn [app]. f_equal. rewrite filter_true; [done|]. intros y Hy'. unfold kleb. by rewrite Hy.
Qed.

Lemma vec_search_spec m k : vec_map_wf m →
  let i := length (List.filter (λ e, kltb e.1 k) (VecMap.data m)) in VecMap.search k m = Ok i ∨ VecMap.search k m = Err i.
Proof.
  intros [_ Hs] i. pose proof (ascending_halves _ k Hs) as Eh. set (l := VecMap.data m) in *. set (a := List.filter (λ e, kltb e.1 k) l) in *.
  set (b := List.filter (λ e, kleb k e.1) l) in *.
  assert (∀ j x, l !! j = Some x → (j < i)%nat ↔ kcmp x.1 k = Lt) as Hlt.
  { intros j x Hj. rewrite Eh in Hj. change (kcmp x.1 k = Lt) with (klt x.1 k). rewrite <-kltb_lt. split; intros Hji.
    - rewrite lookup_app_l in Hj by done. apply list_elem_of_lookup_2, list_elem_of_In, List.filter_In in Hj. by destruct Hj.
    - destruct (decide (j < i)%nat) as [|Hge]; [done|]. rewrite lookup_app_r in Hj by (unfold i in *; lia).
      apply list_elem_of_lookup_2, list_elem_of_In, List.filter_In in Hj as [_ Hj]. unfold kleb in Hj. by rewrite Hji in Hj. }
  assert (bs_post (λ e, kcmp e.1 k) l (VecMap.search k m)) as Hp.
  { apply binary_search_by_spec. intros i0 j x y Hij Hx Hy. assert (klt x.1 y.1) as Hxy by (by eapply (StronglySorted_lookup (λ a b, klt a.1 b.1) l i0 j)). split; intros E.
    - apply kcmp_gt in E. apply kcmp_gt. by apply (klt_trans _ x.1).
    - by apply (klt_trans _ y.1). }
  destruct (VecMap.search k m) as [j|j|]; cbn in Hp; [left|right|done].
  - f_equal. destruct Hp as (x & Hx & E). assert (¬ (j < i)%nat) by (rewrite (Hlt j x Hx); congruence).
    destruct (decide (i < j)%nat) as [Hij|]; [|lia]. destruct (lookup_lt_is_Some_2 l i) as [y Hy]; [apply lookup_lt_Some in Hx; lia|].
    assert (klt y.1 x.1) as Hyx by (by eapply (StronglySorted_lookup (λ a b, klt a.1 b.1) l i j)). apply kcmp_eq in E. rewrite E in Hyx. apply (Hlt i y Hy) in Hyx. lia.
  - f_equal. destruct Hp as (Hj & H1 & H2). destruct (Nat.lt_total j i) as [Hji|[->|Hij]]; [|done|].
    + destruct (lookup_lt_is_Some_2 l j) as [y Hy]; [rewrite Eh, length_app; unfold i in *; lia|]. specialize (H2 j y ltac:(lia) Hy). apply (Hlt j y Hy) in Hji. congruence.
    + destruct (lookup_lt_is_Some_2 l i) as [y Hy]; [lia|]. specialize (H1 i y Hij Hy). apply (Hlt i y Hy) in H1. lia.
Qed.

Lemma bt_range_filters a b (l : list (K * V)) : bt_range a b l = List.filter (λ e, kltb e.1 b) (List.filter (λ e, kleb a e.1) l).
Proof.
  unfold bt_range. induction l as [|x l IH]; [done|]. cbn [List.filter]. destruct (kleb a x.1); cbn [andb List.filter]; [|done].
  destruct (kltb x.1 b); by rewrite IH.
Qed.

(** The slice between two keys. *)
Lemma slice_range_spec m a b : vec_map_wf m → ¬ klt b a → VecMap.slice_range (Included a) (Excluded b) m = Ok (bt_range a b (VecMap.data m)).
Proof.
  intros Hm Hab. unfold VecMap.slice_range. pose proof (vec_search_spec m a Hm) as Ha. pose proof (vec_search_spec m b Hm) as Hb. cbv zeta in Ha, Hb.
  set (l := VecMap.data m) in *. set (i := length (List.filter (λ e, kltb e.1 a) l)) in *. set (j := length (List.filter (λ e, kltb e.1 b) l)) in *.
  pose proof (bt_range_filters a b l) as Er.
  assert (length (List.filter (λ e, kltb e.1 b) l) = i + length (bt_range a b l))%nat as Ej.
  { rewrite Er. rewrite (ascending_halves l a (proj2 Hm)) at 1. rewrite List.filter_app, length_app. f_equal. rewrite filter_true; [done|].
    intros x Hx. apply list_elem_of_In, List.filter_In in Hx as [_ Hx]. apply kltb_lt in Hx. apply kltb_lt.
    destruct (klt_trichotomy a b) as [Hlt|[<-|]]; [by apply (klt_trans _ a)|done|done]. }
  fold j in Ej. assert (length l = i + length (List.filter (λ e, kleb a e.1) l))%nat as El by (rewrite (ascending_halves l a (proj2 Hm)) at 1; by rewrite length_app).
  assert (length (bt_range a b l) ≤ length (List.filter (λ e, kleb a e.1) l))%nat by (rewrite Er; apply List.filter_length_le).
  assert (drop i l = List.filter (λ e, kleb a e.1) l) as Ed by (rewrite (ascending_halves l a (proj2 Hm)) at 1; by apply drop_app_length).
  assert (take (j - i) (drop i l) = bt_range a b l) as Et.
  { rewrite Ed, Er. replace (j - i)%nat with (length (bt_range a b l)) by lia. rewrite Er.
    rewrite (ascending_halves (List.filter (λ e, kleb a e.1) l) b) at 2 by (by apply bt_filter_wf, Hm). by apply take_app_length. }
  destruct Ha as [-> | ->], Hb as [-> | ->]; cbn [mbind result_bind]; rewrite ?Nat.add_0_r;
    rewrite (proj2 (Nat.leb_le i j)), (proj2 (Nat.leb_le j (length l))) by lia; cbn [andb]; by rewrite Et.
Qed.
End facts.

(** [extend] looks at the last key of the other map and not at its first: it takes
    entries that are not above its own. *)
Remark vec_map_extend_unsorted :
  VecMap.extend (VecMap.Mk [(1, tt); (5, tt)] Greater, VecMap.Mk [(3, tt); (7, tt)] Greater) =
  (Ok tt, (VecMap.Mk [(1, tt); (5, tt); (3, tt); (7, tt)] Greater, VecMap.Mk [] Greater)).
Proof. reflexivity. Qed.

(** In a map with repeated keys, a slice from a key on may start after the first entry
    that has it. *)
Remark vec_map_slice_repeated :
  VecMap.slice_range (Included 1) Unbounded (VecMap.Mk [(1, 10); (1, 20); (1, 30)] GreaterOrEqual) = Ok [(1, 30)].
Proof. reflexivity. Qed.
