(* ===== verification/LayerCoverage.v ===== *)
(** The layer index of one LSN: [pageserver/src/tenant/layer_map/layer_coverage.rs].

    A [LayerCoverage] is a step function from keys ([i128]) to the latest layer
    (by [lsn.end]) that covers them, kept as an ordered map from the keys where
    the function changes to the value from there on.  [node_at] is that
    function; [insert] raises it pointwise. *)

From S2P Require Import Prelude Loops OrdMaps.
Local Open Scope Z_scope.

Module LayerCoverage.
Section coverage.
Context {T : Type → Type} `{RedBlackTree T} {Value : Type}.

Abbreviation Node := (option (Z * Value)).
Abbreviation t := (T Node).

Definition new : t := rb_default.

Definition add_node (key : Z) (nodes : t) : t :=
  let value := match rb_last_le key nodes with
               | Some (_, Some v) => Some v
               | Some (_, None) => None
               | None => None
               end in
  rb_insert_mut key value nodes.

Definition needs_cover (lsn_end : Z) (node : Node) : bool :=
  match node with None => true | Some (h, _) => h <? lsn_end end.

(** The loop over [self.nodes.range(key)]: the keys to update and to remove. *)
Fixpoint scan (lsn_end : Z) (prev_covered : bool) (l : list (Z * Node)) : list Z * list Z :=
  match l with
  | [] => ([], [])
  | (k, node) :: l' =>
      let needs := needs_cover lsn_end node in
      let '(to_update, to_remove) := scan lsn_end needs l' in
      if needs then
        if prev_covered then (to_update, k :: to_remove) else (k :: to_update, to_remove)
      else (to_update, to_remove)
  end.

Definition insert (key lsn : Range Z) (value : Value) (nodes : t) : t :=
  let nodes := add_node (r_start key) nodes in
  let nodes := add_node (r_end key) nodes in
  let '(to_update, to_remove) := scan (r_end lsn) false (rb_range (r_start key) (r_end key) nodes) in
  let nodes := foldl (λ m k, rb_insert_mut k (Some (r_end lsn, value)) m) nodes to_update in
  foldl (λ m k, rb_remove_mut k m) nodes to_remove.

Definition query (key : Z) (nodes : t) : option Value :=
  match rb_last_le key nodes with Some (_, node) => snd <$> node | None => None end.

Definition range (key : Range Z) (nodes : t) : list (Z * option Value) :=
  (λ e : Z * Node, (e.1, snd <$> e.2)) <$> rb_range (r_start key) (r_end key) nodes.

Context `{EqDecision Value}.

Definition range_overlaps (key_range : Range Z) (nodes : t) : list (Z * option Value) :=
  match query (r_start key_range) nodes with
  | Some change =>
      let range_coverage := range key_range nodes in
      let range_coverage :=
        match range_coverage with
        | c :: rest => if bool_decide (c.2 = Some change) then rest else range_coverage
        | [] => []
        end in
      (r_start key_range, Some change) :: range_coverage
  | None => range key_range nodes
  end.
End coverage.
End LayerCoverage.

(** Image and delta coverage at one LSN. *)
Record LayerCoverageTuple (T : Type → Type) (Value : Type) := MkTuple {
  image_coverage : T (option (Z * Value));
  delta_coverage : T (option (Z * Value))
}.
Arguments MkTuple {_ _} _ _.
Arguments image_coverage {_ _} _.
Arguments delta_coverage {_ _} _.

(** * Facts *)

(** The value at [k] of the step function with the changes [l], [d] before the
    first. *)
Definition eval {W} (d : W) (l : list (Z * W)) (k : Z) : W := foldl (λ d e, if e.1 <=? k then e.2 else d) d l.

Section eval_generic.
Context {W : Type}.
Implicit Types (d : W) (l : list (Z * W)).

Lemma eval_app d l1 l2 k : eval d (l1 ++ l2) k = eval (eval d l1 k) l2 k.
Proof. apply foldl_app. Qed.

Lemma eval_cons d e l k : eval d (e :: l) k = eval (if e.1 <=? k then e.2 else d) l k.
Proof. done. Qed.

Lemma eval_above d l k : Forall (λ e, k < e.1) l → eval d l k = d.
Proof.
  induction 1 as [|e l He _ IH]; [done|]. rewrite eval_cons.
  by rewrite (proj2 (Z.leb_gt _ _)) by lia.
Qed.

Lemma eval_below d l k k' :
  Forall (λ e, e.1 ≤ k) l → Forall (λ e, e.1 ≤ k') l → eval d l k = eval d l k'.
Proof.
  intros H1. revert d. induction H1 as [|e l He _ IH]; intros d H2; [done|].
  apply Forall_cons in H2 as [He' H2]. rewrite !eval_cons.
  rewrite (proj2 (Z.leb_le e.1 k)), (proj2 (Z.leb_le e.1 k')) by lia. by apply IH.
Qed.

Lemma eval_fmap {W'} (f : W → W') d l k :
  f (eval d l k) = eval (f d) ((λ e, (e.1, f e.2)) <$> l) k.
Proof.
  revert d. induction l as [|e l IH]; intros d; [done|]. rewrite fmap_cons, !eval_cons, IH. simpl.
  by destruct (e.1 <=? k).
Qed.
End eval_generic.

Section eval.
Context {Value : Type}.
Abbreviation Node := (option (Z * Value)).
Implicit Types (l : list (Z * Node)) (d : Node).

Lemma eval_last_le l k : eval None l k = match bt_last_le k l with Some (_, v) => v | None => None end.
Proof.
  unfold bt_last_le. induction l as [|e l IH] using rev_ind; [done|].
  rewrite eval_app, List.filter_app, last_app. simpl. rewrite kleb_Z.
  destruct (e.1 <=? k); simpl; [by destruct e|]. exact IH.
Qed.

(** Inserting and removing several keys, by the entries that result. *)
Lemma inserts_elem ks v l :
  bt_wf l → bt_wf (foldl (λ m k, bt_insert k v m) l ks) ∧
  ∀ e, e ∈ foldl (λ m k, bt_insert k v m) l ks ↔ e.1 ∈ ks ∧ e.2 = v ∨ e ∈ l ∧ e.1 ∉ ks.
Proof.
  revert l. induction ks as [|k ks IH]; intros l Hwf; simpl.
  { split; [done|]. intros e. rewrite elem_of_nil. tauto. }
  destruct (IH (bt_insert k v l) (bt_insert_wf k v l Hwf)) as [Hwf' He]. split; [done|].
  intros e. rewrite He, bt_insert_elem, not_elem_of_cons, elem_of_cons by done.
  destruct e as [x w]; simpl. destruct (decide (x ∈ ks)); [tauto|].
  split; [intros [?|[[[= -> ->]|?] ?]]; tauto|]. intros [[[->|?] ->]|?]; tauto.
Qed.

Lemma removes_elem ks l :
  bt_wf l → bt_wf (foldl (λ m k, bt_remove k m) l ks) ∧
  ∀ e : Z * Node, e ∈ foldl (λ m k, bt_remove k m) l ks ↔ e ∈ l ∧ e.1 ∉ ks.
Proof.
  revert l. induction ks as [|k ks IH]; intros l Hwf; simpl.
  { split; [done|]. intros e. rewrite elem_of_nil. tauto. }
  destruct (IH (bt_remove k l) (bt_remove_wf k l Hwf)) as [Hwf' He]. split; [done|].
  intros e. rewrite He, bt_remove_elem, not_elem_of_cons by done. tauto.
Qed.

Lemma bt_wf_app l1 l2 : bt_wf (l1 ++ l2) ↔ bt_wf l1 ∧ bt_wf l2 ∧ ∀ x y : Z * Node, x ∈ l1 → y ∈ l2 → x.1 < y.1.
Proof.
  unfold bt_wf. rewrite StronglySorted_app. split.
  - intros (H12 & H1 & H2). split; [done|]. split; [done|]. intros x y Hx Hy. by apply klt_Z, H12.
  - intros (H1 & H2 & H12). split; [|done]. intros x y Hx Hy. by apply klt_Z, H12.
Qed.

Lemma bt_wf_cons e l : bt_wf (e :: l) ↔ Forall (λ x : Z * Node, e.1 < x.1) l ∧ bt_wf l.
Proof.
  unfold bt_wf. rewrite StronglySorted_cons, !Forall_forall.
  split; intros [He Hl]; (split; [|done]); intros x Hx; by apply klt_Z, He.
Qed.

(** ** The loop of [insert] *)

Context (h : Z) (value : Value).
Abbreviation new := (Some (h, value)).

Definition raise d : Node := if LayerCoverage.needs_cover h d then new else d.

(** What becomes of the nodes in the range. *)
Fixpoint upd (prev : bool) l : list (Z * Node) :=
  match l with
  | [] => []
  | (k, node) :: l' =>
      let needs := LayerCoverage.needs_cover h node in
      if needs then if prev then upd true l' else (k, new) :: upd true l'
      else (k, node) :: upd false l'
  end.

Lemma upd_keys prev l e : e ∈ upd prev l → ∃ w, (e.1, w) ∈ l.
Proof.
  revert prev. induction l as [|[k node] l IH]; intros prev; simpl; [by intros ?%not_elem_of_nil|].
  setoid_rewrite elem_of_cons.
  destruct (LayerCoverage.needs_cover h node); [destruct prev|]; rewrite ?elem_of_cons; intros He.
  - apply IH in He as (w & ?). eauto.
  - destruct He as [->|He]; [by eauto|]. apply IH in He as (w & ?). eauto.
  - destruct He as [->|He]; [by eauto|]. apply IH in He as (w & ?). eauto.
Qed.

Lemma upd_wf prev l : bt_wf l → bt_wf (upd prev l).
Proof.
  revert prev. induction l as [|[k node] l IH]; intros prev Hwf; simpl; [done|].
  apply bt_wf_cons in Hwf as [Hk Hwf]. rewrite Forall_forall in Hk.
  assert (∀ p x, bt_wf ((k, x) :: upd p l)) as Hc.
  { intros p x. apply bt_wf_cons. split; [|by apply IH]. apply Forall_forall. intros e (w & Hw)%upd_keys.
    by specialize (Hk _ Hw). }
  destruct (LayerCoverage.needs_cover h node); [destruct prev|]; [by apply IH|by apply Hc..].
Qed.

(** The updated step function, given the value [d] before the first node. *)
Lemma eval_upd prev l d k :
  bt_wf l → prev = LayerCoverage.needs_cover h d → eval (raise d) (upd prev l) k = raise (eval d l k).
Proof.
  revert prev d. induction l as [|[x node] l IH]; intros prev d Hwf ->; [done|].
  pose proof (upd_wf (LayerCoverage.needs_cover h d) _ Hwf) as Hwf'.
  apply bt_wf_cons in Hwf as [Hx Hwf]. destruct (Z.leb_spec x k) as [Hle|Hgt].
  - rewrite eval_cons. simpl. rewrite (proj2 (Z.leb_le _ _) Hle).
    rewrite <- (IH _ node Hwf eq_refl). unfold raise.
    destruct (LayerCoverage.needs_cover h node) eqn:En; [destruct (LayerCoverage.needs_cover h d) eqn:Ed|];
      rewrite ?eval_cons; simpl; rewrite ?(proj2 (Z.leb_le _ _) Hle); done.
  - rewrite !eval_above; [done| |].
    + constructor; [simpl; lia|]. eapply Forall_impl; [exact Hx|]. simpl. intros; lia.
    + apply Forall_forall. intros e (w & He)%upd_keys. apply elem_of_cons in He as [[= <- _]|He]; [lia|].
      rewrite Forall_forall in Hx. specialize (Hx _ He). simpl in Hx. lia.
Qed.

Lemma scan_spec prev l :
  bt_wf l →
  let '(us, rs) := LayerCoverage.scan h prev l in
  (∀ k, k ∈ us ∨ k ∈ rs → ∃ w, (k, w) ∈ l) ∧ (∀ k, k ∈ us → k ∉ rs) ∧
  ∀ e, e ∈ upd prev l ↔ e.1 ∈ us ∧ e.2 = new ∨ e ∈ l ∧ e.1 ∉ us ∧ e.1 ∉ rs.
Proof.
  revert prev. induction l as [|[x node] l IH]; intros prev Hwf; simpl.
  { split; [|split]; [intros k; rewrite elem_of_nil; tauto|intros k; rewrite elem_of_nil; tauto|].
    intros e. rewrite !elem_of_nil. tauto. }
  apply bt_wf_cons in Hwf as [Hx Hwf]. rewrite Forall_forall in Hx.
  assert (∀ w, (x, w) ∉ l) as Hxl by (intros w Hw; specialize (Hx _ Hw); simpl in Hx; lia).
  specialize (IH (LayerCoverage.needs_cover h node) Hwf).
  destruct (LayerCoverage.scan h (LayerCoverage.needs_cover h node) l) as [us rs].
  destruct IH as (Hk & Hd & He).
  assert (x ∉ us ∧ x ∉ rs) as [Hxu Hxr] by (split; intros Hin; destruct (Hk x) as (w & Hw); eauto; by apply (Hxl w)).
  assert (∀ k, k = x ∨ k ∈ us ∨ k ∈ rs → ∃ w, (k, w) ∈ (x, node) :: l) as Hk'.
  { intros k [->|(w & Hw)%Hk]; [exists node; constructor|exists w; by constructor]. }
  assert (∀ e, e ∈ (x, node) :: l ↔ e = (x, node) ∨ e ∈ l ∧ e.1 ≠ x) as Hcons.
  { intros [y w]. rewrite elem_of_cons. simpl. split; [|tauto]. intros [?|Hy]; [by left|].
    right. split; [done|]. intros ->. by apply (Hxl w). }
  assert (∀ e, e ∈ upd (LayerCoverage.needs_cover h node) l → e.1 ≠ x) as Hux.
  { intros e (w & Hw)%upd_keys E. rewrite E in Hw. by apply (Hxl w). }
  destruct (LayerCoverage.needs_cover h node) eqn:En; [destruct prev|];
    (split; [intros k Hk1; apply Hk'; revert Hk1; rewrite ?elem_of_cons; tauto|]);
    (split; [intros k; rewrite ?elem_of_cons, ?not_elem_of_cons; specialize (Hd k); naive_solver|]);
    intros [y w]; specialize (Hux (y, w)); specialize (He (y, w));
    rewrite ?not_elem_of_cons, ?(elem_of_cons us), ?(elem_of_cons (upd _ _)), Hcons, ?elem_of_cons, ?He; simpl in *.
  all: rewrite ?pair_eq; destruct (decide (y = x)) as [->|]; specialize (Hxl w); tauto.
Qed.
End eval.

Section facts.
Context {T : Type → Type} `{RedBlackTreeLaws T} {Value : Type}.
Abbreviation Node := (option (Z * Value)).

(** The node in force at a key: the layer with its end LSN. *)
Definition node_at (nodes : T Node) (k : Z) : Node := eval None (rb_iter nodes) k.

Lemma node_at_last_le nodes k :
  node_at nodes k = match rb_last_le k nodes with Some (_, v) => v | None => None end.
Proof. unfold node_at. by rewrite eval_last_le, rb_last_le_iter. Qed.

Lemma query_node_at k nodes : LayerCoverage.query k nodes = snd <$> node_at nodes k.
Proof. unfold LayerCoverage.query. rewrite node_at_last_le. by destruct (rb_last_le k nodes) as [[]|]. Qed.

Lemma node_at_new k : node_at LayerCoverage.new k = None.
Proof. unfold node_at, LayerCoverage.new. by rewrite rb_iter_default. Qed.

(** A sorted list, split where keys reach [k]. *)
Lemma bt_split (l : list (Z * Node)) k :
  bt_wf l → ∃ a b, l = a ++ b ∧ Forall (λ e, e.1 < k) a ∧ Forall (λ e, k ≤ e.1) b.
Proof.
  induction l as [|e l IH]; intros Hwf; [by exists [], []|].
  apply bt_wf_cons in Hwf as [He Hwf]. destruct (Z.ltb_spec e.1 k) as [Hlt|Hge].
  - destruct (IH Hwf) as (a & b & -> & Ha & Hb). exists (e :: a), b. split; [done|]. split; [by constructor|done].
  - exists [], (e :: l). split; [done|]. split; [constructor|]. constructor; [done|].
    eapply Forall_impl; [exact He|]. simpl. intros; lia.
Qed.

Lemma bt_insert_split (a b : list (Z * Node)) k v :
  Forall (λ e, e.1 < k) a → Forall (λ e, k ≤ e.1) b → bt_wf (a ++ b) →
  ∃ b', bt_insert k v (a ++ b) = a ++ (k, v) :: b' ∧ Forall (λ e, k < e.1) b' ∧
    (b = b' ∨ ∃ w, b = (k, w) :: b').
Proof.
  intros Ha Hb Hwf. induction Ha as [|x a Hx Ha IH]; simpl in *.
  - destruct b as [|x b]; simpl; [exists []; by auto|].
    apply bt_wf_cons in Hwf as [Hx Hwf]. pose proof (Forall_inv Hb) as Hkx. simpl in Hkx.
    destruct (kcmp k x.1) eqn:E.
    + apply kcmp_eq in E. subst k. exists b. split; [done|]. split; [done|].
      right. exists x.2. by destruct x.
    + apply (proj1 (klt_Z _ _)) in E. exists (x :: b). split; [done|]. split; [|by left]. constructor; [done|].
      eapply Forall_impl; [exact Hx|]. simpl. intros; lia.
    + apply kcmp_gt, (proj1 (klt_Z _ _)) in E. exfalso. lia.
  - apply bt_wf_cons in Hwf as [_ Hwf]. destruct (IH Hwf) as (b' & -> & Hb' & He).
    assert (kcmp k x.1 = Gt) as -> by (by apply kcmp_gt, klt_Z). by exists b'.
Qed.

(** A node added at [key] does not change the function, and is there. *)
Lemma add_node_spec key (nodes : T Node) :
  (∀ k, node_at (LayerCoverage.add_node key nodes) k = node_at nodes k) ∧
  ∃ w, (key, w) ∈ rb_iter (LayerCoverage.add_node key nodes).
Proof.
  unfold LayerCoverage.add_node. set (v := match rb_last_le key nodes with
     | Some (_, Some v) => Some v | Some (_, None) => None | None => None end).
  assert (v = node_at nodes key) as Hv.
  { rewrite node_at_last_le. subst v. by destruct (rb_last_le key nodes) as [[? []]|]. }
  clearbody v. subst v. unfold node_at. rewrite rb_iter_insert.
  pose proof (rb_sorted nodes) as Hwf. destruct (bt_split _ key Hwf) as (a & b & E & Ha & Hb).
  rewrite E in *. set (v := eval None (a ++ b) key).
  destruct (bt_insert_split a b key v Ha Hb Hwf) as (b' & -> & Hb' & Hcase).
  split; [|exists v; apply elem_of_app; right; constructor].
  intros k. rewrite !eval_app, eval_cons. simpl. destruct (Z.leb_spec key k) as [Hle|Hgt].
  - subst v. rewrite eval_app, (eval_below None a k key)
      by (eapply Forall_impl; [exact Ha|]; simpl; intros; lia).
    destruct Hcase as [->|[w ->]]; [by rewrite (eval_above _ b' key)|].
    rewrite !eval_cons. simpl. rewrite (proj2 (Z.leb_le key k) Hle), Z.leb_refl.
    by rewrite (eval_above _ b' key).
  - assert (∀ d, eval d b k = d) as Hb0.
    { intros d. apply eval_above. eapply Forall_impl; [exact Hb|]. simpl. intros; lia. }
    rewrite Hb0. apply eval_above. eapply Forall_impl; [exact Hb'|]. simpl. intros; lia.
Qed.

Lemma add_node_keeps key (nodes : T Node) k w :
  (k, w) ∈ rb_iter nodes → ∃ w', (k, w') ∈ rb_iter (LayerCoverage.add_node key nodes).
Proof.
  intros Hin. unfold LayerCoverage.add_node. rewrite rb_iter_insert.
  setoid_rewrite bt_insert_elem; [|apply rb_sorted].
  destruct (decide (k = key)) as [->|]; [by eauto|]. exists w. right. by split.
Qed.

(** The nodes before, in and after a range whose ends are nodes. *)
Lemma range_split (l : list (Z * Node)) lo hi :
  bt_wf l → lo < hi → (∃ w, (lo, w) ∈ l) → (∃ w, (hi, w) ∈ l) →
  ∃ a v b w c, l = a ++ ((lo, v) :: b) ++ (hi, w) :: c ∧ bt_range lo hi l = (lo, v) :: b ∧
    Forall (λ e, e.1 < lo) a ∧ Forall (λ e, lo < e.1 < hi) b ∧ Forall (λ e, hi < e.1) c.
Proof.
  intros Hwf Hlt (w1 & H1) (w2 & H2).
  apply list_elem_of_split in H1 as (a & m & ->).
  apply bt_wf_app in Hwf as (_ & [Hm Hwf]%bt_wf_cons & Ha). simpl in Hm.
  rewrite elem_of_app, elem_of_cons in H2. destruct H2 as [H2|[[= <- _]|H2]]; [|lia|].
  { specialize (Ha _ (lo, w1) H2 ltac:(constructor)). simpl in Ha. lia. }
  apply list_elem_of_split in H2 as (b & c & ->).
  apply bt_wf_app in Hwf as (_ & [Hc _]%bt_wf_cons & Hb). simpl in Hc.
  apply Forall_app in Hm as [Hm1 [Hm2 Hm3]%Forall_cons]. rewrite Forall_forall in Hm1.
  assert (Forall (λ e : Z * Node, e.1 < lo) a) as Ha'.
  { apply Forall_forall. intros e He. by apply (Ha e (lo, w1) He); constructor. }
  assert (Forall (λ e : Z * Node, lo < e.1 < hi) b) as Hb'.
  { apply Forall_forall. intros e He. split; [by apply Hm1|]. by apply (Hb e (hi, w2) He); constructor. }
  exists a, w1, b, w2, c. split; [done|]. split; [|done].
  assert (∀ (l : list (Z * Node)) P, Forall P l → (∀ e, P e → (lo <=? e.1) && (e.1 <? hi) = true) →
    List.filter (λ e, kleb lo e.1 && kltb e.1 hi) l = l) as Hall.
  { intros l P HP HPt. induction HP as [|e l He _ IH]; [done|]. simpl. by rewrite kleb_Z, kltb_Z, HPt, IH. }
  assert (∀ (l : list (Z * Node)) P, Forall P l → (∀ e, P e → (lo <=? e.1) && (e.1 <? hi) = false) →
    List.filter (λ e, kleb lo e.1 && kltb e.1 hi) l = []) as Hnone.
  { intros l P HP HPt. induction HP as [|e l He _ IH]; [done|]. simpl. by rewrite kleb_Z, kltb_Z, HPt, IH. }
  unfold bt_range. rewrite List.filter_app. cbn [List.filter fst]. rewrite List.filter_app. cbn [List.filter fst].
  rewrite (Hnone a _ Ha'), (Hall b _ Hb'), (Hnone c _ Hc) by (simpl; intros; lia).
  rewrite !kleb_Z, !kltb_Z, Z.leb_refl, (proj2 (Z.ltb_lt lo hi)), Z.ltb_irrefl by done.
  by rewrite andb_false_r, app_nil_r.
Qed.

Lemma rb_iter_inserts ks (v : Node) (m : T Node) :
  rb_iter (foldl (λ m k, rb_insert_mut k v m) m ks) = foldl (λ m k, bt_insert k v m) (rb_iter m) ks.
Proof. revert m. induction ks as [|k ks IH]; intros m; [done|]. simpl. by rewrite IH, rb_iter_insert. Qed.

Lemma rb_iter_removes ks (m : T Node) :
  rb_iter (foldl (λ m k, rb_remove_mut k m) m ks) = foldl (λ m k, bt_remove k m) (rb_iter m) ks.
Proof. revert m. induction ks as [|k ks IH]; intros m; [done|]. simpl. by rewrite IH, rb_iter_remove. Qed.

Lemma insert_iter key lsn (value : Value) nodes :
  r_start key < r_end key →
  ∃ a v b w c,
    rb_iter (LayerCoverage.add_node (r_end key) (LayerCoverage.add_node (r_start key) nodes)) =
      a ++ ((r_start key, v) :: b) ++ (r_end key, w) :: c ∧
    rb_iter (LayerCoverage.insert key lsn value nodes) =
      a ++ upd (r_end lsn) value false ((r_start key, v) :: b) ++ (r_end key, w) :: c ∧
    Forall (λ e, e.1 < r_start key) a ∧ Forall (λ e, r_start key < e.1 < r_end key) b ∧
    Forall (λ e, r_end key < e.1) c ∧ bt_wf ((r_start key, v) :: b).
Proof.
  intros Hlt. unfold LayerCoverage.insert.
  set (n1 := LayerCoverage.add_node (r_start key) nodes). set (n2 := LayerCoverage.add_node (r_end key) n1).
  pose proof (rb_sorted n2) as Hwf.
  destruct (range_split (rb_iter n2) (r_start key) (r_end key)) as (a & v & b & w & c & E & Er & Ha & Hb & Hc); [done..| | |].
  { destruct (proj2 (add_node_spec (r_start key) nodes)) as (w & Hw). by eapply add_node_keeps. }
  { apply add_node_spec. }
  rewrite rb_range_iter, Er by lia. exists a, v, b, w, c. split; [done|].
  set (B := (r_start key, v) :: b) in *. rewrite E in Hwf.
  pose proof (proj1 (bt_wf_app _ _) Hwf) as (Hwfa & HwfBC & HaBC).
  pose proof (proj1 (bt_wf_app _ _) HwfBC) as (HwfB & HwfC & HBC).
  split; [|done].
  pose proof (scan_spec (r_end lsn) value false B HwfB) as Hscan.
  destruct (LayerCoverage.scan (r_end lsn) false B) as [us rs]. destruct Hscan as (Hk & Hd & He).
  rewrite rb_iter_removes, rb_iter_inserts, E.
  destruct (inserts_elem us (Some (r_end lsn, value)) _ Hwf) as [Hwf1 He1].
  destruct (removes_elem rs _ Hwf1) as [Hwf2 He2].
  apply bt_ext; [done| |].
  - apply bt_wf_app. split; [done|]. split.
    + apply bt_wf_app. split; [by apply upd_wf|]. split; [done|].
      intros x y (w' & Hx)%upd_keys Hy. by apply (HBC (x.1, w') y).
    + intros x y Hx [(w' & Hy)%upd_keys|Hy]%elem_of_app.
      * apply (HaBC x (y.1, w') Hx). apply elem_of_app. by left.
      * apply (HaBC x y Hx). apply elem_of_app. by right.
  - intros e. rewrite He2, He1, !elem_of_app, He.
    assert (e ∈ a ∨ e ∈ (r_end key, w) :: c → e.1 ∉ us ∧ e.1 ∉ rs) as Hout.
    { intros Hin. assert (∀ w', (e.1, w') ∉ B) as Hnb.
      { intros w' Hw'. destruct Hin as [Hin|Hin].
        - specialize (HaBC e (e.1, w') Hin ltac:(apply elem_of_app; by left)). simpl in HaBC. lia.
        - specialize (HBC (e.1, w') e Hw' Hin). simpl in HBC. lia. }
      split; intros Hin'; destruct (Hk e.1) as (w' & Hw'); [by auto|by apply (Hnb w')|by auto|by apply (Hnb w')]. }
    specialize (Hd e.1). tauto.
Qed.

Lemma insert_node_at key lsn (value : Value) nodes k :
  r_start key < r_end key →
  node_at (LayerCoverage.insert key lsn value nodes) k =
  if (r_start key <=? k) && (k <? r_end key)
  then raise (r_end lsn) value (node_at nodes k) else node_at nodes k.
Proof.
  intros Hlt. destruct (insert_iter key lsn value nodes Hlt) as (a & v & b & w & c & E & Ei & Ha & Hb & Hc & HwfB).
  assert (node_at nodes k = eval None (a ++ ((r_start key, v) :: b) ++ (r_end key, w) :: c) k) as ->.
  { rewrite <- E. change (eval None (rb_iter ?m) k) with (node_at m k). by rewrite !(proj1 (add_node_spec _ _)). }
  unfold node_at. rewrite Ei. set (B := (r_start key, v) :: b) in *.
  assert (k < r_end key → ∀ d, eval d ((r_end key, w) :: c) k = d) as HC.
  { intros Hk d. apply eval_above. constructor; [done|]. eapply Forall_impl; [exact Hc|]. simpl. intros; lia. }
  rewrite !eval_app. destruct (Z.leb_spec (r_start key) k) as [Hs|Hs]; simpl andb; cycle 1.
  - rewrite !HC by lia. rewrite (eval_above _ B k), (eval_above _ (upd _ _ _ B) k); [done| |].
    + apply Forall_forall. intros e (w' & He)%upd_keys.
      apply elem_of_cons in He as [[= ? _]|He]; [lia|]. rewrite Forall_forall in Hb.
      specialize (Hb _ He). simpl in Hb. lia.
    + constructor; [simpl; lia|]. eapply Forall_impl; [exact Hb|]. simpl. intros; lia.
  - destruct (Z.ltb_spec k (r_end key)) as [He|He].
    + rewrite !HC by lia. unfold B. rewrite eval_cons. simpl fst. rewrite (proj2 (Z.leb_le _ _) Hs).
      apply bt_wf_cons in HwfB as [_ HwfB].
      rewrite <- (eval_upd _ _ _ b v k HwfB eq_refl). unfold raise. simpl upd.
      destruct (LayerCoverage.needs_cover (r_end lsn) v); rewrite eval_cons; simpl fst;
        by rewrite (proj2 (Z.leb_le _ _) Hs).
    + rewrite !eval_cons. simpl fst. by rewrite (proj2 (Z.leb_le _ _) He).
Qed.

(** inserting a layer changes what [query] finds exactly on the keys of the
    layer where no layer, or one that ends at a lower LSN, was in force: there
    it is the new layer; every other key keeps its layer. *)
Theorem coverage_insert_correct key lsn (value : Value) nodes k :
  r_start key < r_end key →
  LayerCoverage.query k (LayerCoverage.insert key lsn value nodes) =
  if (r_start key <=? k) && (k <? r_end key) && LayerCoverage.needs_cover (r_end lsn) (node_at nodes k)
  then Some value else LayerCoverage.query k nodes.
Proof.
  intros Hlt. rewrite !query_node_at, insert_node_at by done. unfold raise.
  destruct (_ && _); simpl; [|done]. by destruct (LayerCoverage.needs_cover _ _).
Qed.
End facts.

Lemma coverage_insert_correct_witness :
  let nodes := LayerCoverage.insert (T := sorted_list) (mkRange 0 5) (mkRange 100 110) 1%nat LayerCoverage.new in
  LayerCoverage.query 4 (LayerCoverage.insert (mkRange 3 9) (mkRange 110 111) 2%nat nodes) = Some 2%nat ∧
  LayerCoverage.query 4 (LayerCoverage.insert (mkRange 3 9) (mkRange 110 111) 2%nat nodes) =
  if (3 <=? 4) && (4 <? 9) && LayerCoverage.needs_cover 111 (node_at nodes 4)
  then Some 2%nat else LayerCoverage.query 4 nodes.
Proof. split; [done|]. apply coverage_insert_correct. simpl. lia. Defined.
