(* ===== verification/HistoricCoverage.v ===== *)
(** The layer index of all LSNs:
    [pageserver/src/tenant/layer_map/historic_layer_coverage.rs].

    [HistoricLayerCoverage] keeps one coverage per start LSN and only accepts
    layers in the order of their start LSNs; [BufferedHistoricLayerCoverage]
    takes insertions and removals in any order, and [rebuild] replays the
    affected part.  The facts: replaying gives exactly the index that inserting
    all current layers in order would give ([hist_build]), and what a query on it
    returns is the layer a plain search through the layers returns. *)

From stdpp Require Import relations.
From S2P Require Import Prelude Loops OrdMaps LayerCoverage.
Local Open Scope Z_scope.

Record LayerKey := MkLayerKey {
  lk_key : Range Z;  (* i128 *)
  lk_lsn : Range Z;  (* u64 *)
  is_image : bool
}.

#[global] Instance LayerKey_eq_dec : EqDecision LayerKey.
Proof. solve_decision. Defined.

Definition then_ (a b : comparison) : comparison := match a with Eq => b | _ => a end.
Definition bool_cmp (a b : bool) : comparison :=
  match a, b with false, true => Lt | true, false => Gt | _, _ => Eq end.

#[global] Instance LayerKey_cmp : TotalCmp LayerKey := λ self other,
  then_ (then_ (then_ (then_
    (r_start (lk_lsn self) ?= r_start (lk_lsn other))
    (r_end (lk_lsn self) ?= r_end (lk_lsn other)))
    (r_start (lk_key self) ?= r_start (lk_key other)))
    (r_end (lk_key self) ?= r_end (lk_key other)))
    (bool_cmp (is_image self) (is_image other)).

Lemma bool_cmp_Z a b : bool_cmp a b = (Z.b2z a ?= Z.b2z b).
Proof. by destruct a, b. Qed.

Lemma then_lt a b c : (then_ (a ?= b) c = Lt) ↔ a < b ∨ a = b ∧ c = Lt.
Proof. destruct (Z.compare_spec a b); simpl; intuition (done || lia). Qed.

Lemma then_assoc a b c : then_ (then_ a b) c = then_ a (then_ b c).
Proof. by destruct a. Qed.

#[global] Instance LayerKey_cmp_laws : TotalCmpLaws LayerKey.
Proof.
  split; unfold kcmp, LayerKey_cmp.
  - intros [[a b] [c d] i] [[a' b'] [c' d'] i']; simpl.
    destruct (Z.compare_spec c c'), (Z.compare_spec d d'), (Z.compare_spec a a'), (Z.compare_spec b b'), i, i';
      simpl; split; intros E; simplify_eq/=; try done; try lia; congruence.
  - intros [[a b] [c d] i] [[a' b'] [c' d'] i']; simpl.
    rewrite (Z.compare_antisym c c'), (Z.compare_antisym d d'), (Z.compare_antisym a a'), (Z.compare_antisym b b').
    by destruct (c ?= c'), (d ?= d'), (a ?= a'), (b ?= b'), i, i'.
  - intros x y z. rewrite !bool_cmp_Z, !then_assoc, !then_lt, !Z.compare_lt_iff. lia.
Qed.

(** * The persistent index *)

Module HistoricLayerCoverage.
Section historic.
Context {T : Type → Type} `{RedBlackTree T} {Value : Type}.

Record t := Mk {
  head : LayerCoverageTuple T Value;
  historic : list (Z * LayerCoverageTuple T Value) (* BTreeMap<u64, _> *)
}.

Definition tuple_default : LayerCoverageTuple T Value := MkTuple LayerCoverage.new LayerCoverage.new.
Definition new : t := Mk tuple_default [].

(** [insert] panics on a layer that starts before the last version. *)
Definition insert (layer_key : LayerKey) (value : Value) : M t unit unit := λ self,
  let retroactive :=
    match last (historic self) with
    | Some (last_lsn, _) => r_start (lk_lsn layer_key) <? last_lsn
    | None => false
    end in
  if retroactive then (Panic, self)
  else
    let head :=
      if is_image layer_key
      then MkTuple (LayerCoverage.insert (lk_key layer_key) (lk_lsn layer_key) value (image_coverage (head self)))
                   (delta_coverage (head self))
      else MkTuple (image_coverage (head self))
                   (LayerCoverage.insert (lk_key layer_key) (lk_lsn layer_key) value (delta_coverage (head self))) in
    (Ok tt, Mk head (bt_insert (r_start (lk_lsn layer_key)) head (historic self))).

Definition get_version (lsn : Z) (self : t) : option (LayerCoverageTuple T Value) :=
  snd <$> bt_last_le lsn (historic self).

Definition trim (begin_ : Z) (self : t) : t :=
  let historic := bt_before begin_ (historic self) in
  Mk (default tuple_default (snd <$> last historic)) historic.
End historic.
Arguments t _ _ : clear implicits.
End HistoricLayerCoverage.

Module BufferedHistoricLayerCoverage.
Section buffered.
Context {T : Type → Type} `{RedBlackTree T} {Value : Type}.

Record t := Mk {
  historic_coverage : HistoricLayerCoverage.t T Value;
  buffer : list (LayerKey * option Value); (* BTreeMap<LayerKey, Option<Value>> *)
  layers : list (LayerKey * Value)         (* BTreeMap<LayerKey, Value> *)
}.

Definition new : t := Mk HistoricLayerCoverage.new [] [].

Definition insert (layer_key : LayerKey) (value : Value) (self : t) : t :=
  Mk (historic_coverage self) (bt_insert layer_key (Some value) (buffer self)) (layers self).

Definition remove (layer_key : LayerKey) (self : t) : t :=
  Mk (historic_coverage self) (bt_insert layer_key None (buffer self)) (layers self).

(** The closure given to [buffer.retain]. *)
Definition apply_update (layers : list (LayerKey * Value)) (e : LayerKey * option Value) : list (LayerKey * Value) :=
  match e.2 with
  | Some l => bt_insert e.1 l layers
  | None => bt_remove e.1 layers
  end.

Fixpoint insert_all (ls : list (LayerKey * Value)) : M (HistoricLayerCoverage.t T Value) unit unit :=
  match ls with
  | [] => mret tt
  | (layer_key, layer) :: ls' => _ ← HistoricLayerCoverage.insert layer_key layer; insert_all ls'
  end.

Definition rebuild : M t unit unit := λ self,
  match buffer self with
  | [] => (Ok tt, self)
  | (k, _) :: _ =>
      let rebuild_since := r_start (lk_lsn k) in
      let layers := foldl apply_update (layers self) (buffer self) in
      let trimmed := HistoricLayerCoverage.trim rebuild_since (historic_coverage self) in
      let from := MkLayerKey (mkRange 0 0) (mkRange rebuild_since 0) false in
      let '(r, historic_coverage) := insert_all (bt_from from layers) trimmed in
      (r, Mk historic_coverage [] layers)
  end.

Definition iter (self : t) : result unit (list Value) :=
  match buffer self with [] => Ok (snd <$> layers self) | _ => Panic end.

Definition get (self : t) : result unit (HistoricLayerCoverage.t T Value) :=
  match buffer self with [] => Ok (historic_coverage self) | _ => Err tt end.

Definition len (self : t) : nat := length (layers self).
End buffered.
Arguments t _ _ : clear implicits.
End BufferedHistoricLayerCoverage.

(** * Facts *)

Section facts.
Context {T : Type → Type} `{RedBlackTreeLaws T} {Value : Type}.
Abbreviation Layers := (list (LayerKey * Value)).
Abbreviation Tuple := (LayerCoverageTuple T Value).

Definition lsn_start (e : LayerKey * Value) : Z := r_start (lk_lsn e.1).

(** The coverage after inserting layers one by one. *)
Definition tuple_insert (c : Tuple) (e : LayerKey * Value) : Tuple :=
  if is_image e.1
  then MkTuple (LayerCoverage.insert (lk_key e.1) (lk_lsn e.1) e.2 (image_coverage c)) (delta_coverage c)
  else MkTuple (image_coverage c) (LayerCoverage.insert (lk_key e.1) (lk_lsn e.1) e.2 (delta_coverage c)).

Definition cov_build (ls : Layers) : Tuple := foldl tuple_insert HistoricLayerCoverage.tuple_default ls.

(** The index after inserting layers one by one. *)
Definition hist_build (ls : Layers) : HistoricLayerCoverage.t T Value :=
  (BufferedHistoricLayerCoverage.insert_all ls HistoricLayerCoverage.new).2.

Definition upto (L : Z) (ls : Layers) : Layers := filter (λ e, lsn_start e ≤ L) ls.
Definition by_start (ls : Layers) : Prop := StronglySorted (λ a b, lsn_start a ≤ lsn_start b) ls.

Lemma insert_all_app a b (h : HistoricLayerCoverage.t T Value) h' :
  BufferedHistoricLayerCoverage.insert_all a h = (Ok tt, h') →
  BufferedHistoricLayerCoverage.insert_all (a ++ b) h = BufferedHistoricLayerCoverage.insert_all b h'.
Proof.
  revert h. induction a as [|[k v] a IH]; intros h; simpl; [by intros [= ->]|].
  unfold mbind, M_bind. destruct (HistoricLayerCoverage.insert k v h) as [[[]|e|] h1]; [apply IH|done..].
Qed.

Lemma upto_all L ls : (∀ e, e ∈ ls → lsn_start e ≤ L) → upto L ls = ls.
Proof.
  intros Hle. induction ls as [|e ls IH]; [done|]. unfold upto in *. rewrite filter_cons_True.
  - f_equal. apply IH. intros x Hx. apply Hle. by constructor.
  - apply Hle. constructor.
Qed.

Lemma upto_snoc_above L ls e : L < lsn_start e → upto L (ls ++ [e]) = upto L ls.
Proof.
  intros Hlt. unfold upto. rewrite filter_app, (filter_cons_False _ e) by lia. simpl. apply app_nil_r.
Qed.

Lemma bt_last_max (l : list (Z * Tuple)) e x : bt_wf l → last l = Some e → x ∈ l → x.1 ≤ e.1.
Proof.
  intros Hwf (l' & ->)%last_Some Hx. unfold bt_wf in Hwf. apply StronglySorted_app in Hwf as (Hw & _ & _).
  apply elem_of_app in Hx as [Hx|Hx%list_elem_of_singleton]; [|by subst].
  specialize (Hw x e Hx ltac:(constructor)). apply (proj1 (klt_Z _ _)) in Hw. lia.
Qed.

(** What the index of a list of layers holds. *)
Record hist_spec (ls : Layers) (h : HistoricLayerCoverage.t T Value) : Prop := {
  hs_head : HistoricLayerCoverage.head h = cov_build ls;
  hs_wf : bt_wf (HistoricLayerCoverage.historic h);
  hs_versions : ∀ s c, (s, c) ∈ HistoricLayerCoverage.historic h ↔
    (∃ e, e ∈ ls ∧ lsn_start e = s) ∧ c = cov_build (upto s ls)
}.

Lemma hist_spec_insert ls h k v :
  hist_spec ls h → (∀ e, e ∈ ls → lsn_start e ≤ lsn_start (k, v)) →
  ∃ h', HistoricLayerCoverage.insert k v h = (Ok tt, h') ∧ hist_spec (ls ++ [(k, v)]) h'.
Proof.
  intros [Hh Hwf Hv] Hle. set (s0 := lsn_start (k, v)) in *. unfold HistoricLayerCoverage.insert.
  change (r_start (lk_lsn k)) with s0.
  assert (match last (HistoricLayerCoverage.historic h) with
    | Some (last_lsn, _) => s0 <? last_lsn | None => false end = false) as ->.
  { destruct (last _) as [[s c]|] eqn:El; [|done]. apply last_Some in El as (l' & El).
    destruct (proj1 (Hv s c)) as [(e & He & <-) _]; [rewrite El; apply elem_of_app; right; constructor|].
    specialize (Hle e He). lia. }
  set (head' := if is_image k then _ else _).
  assert (head' = cov_build (ls ++ [(k, v)])) as Eh.
  { unfold cov_build. rewrite foldl_app. fold (cov_build ls). simpl. unfold tuple_insert. by rewrite <- Hh. }
  eexists. split; [done|]. split; simpl; [done|by apply bt_insert_wf|].
  intros s c. rewrite bt_insert_elem by done. simpl. rewrite Hv. split.
  - intros [[= -> ->]|[[(e & He & <-) ->] Hne]].
    + split; [exists (k, v); split; [apply elem_of_app; right; constructor|done]|].
      rewrite upto_all; [done|]. intros e [He|He%list_elem_of_singleton]%elem_of_app; [by apply Hle|by subst].
    + split; [exists e; split; [apply elem_of_app; by left|done]|].
      rewrite upto_snoc_above; [done|]. specialize (Hle e He). fold s0. lia.
  - intros [(e & [He|He%list_elem_of_singleton]%elem_of_app & <-) ->].
    + destruct (decide (lsn_start e = s0)) as [E|Hne].
      * left. rewrite E, upto_all; [by rewrite Eh|].
        intros x [Hx|Hx%list_elem_of_singleton]%elem_of_app; [by apply Hle|by subst].
      * right. split; [|done]. split; [by exists e|]. rewrite upto_snoc_above; [done|].
        specialize (Hle e He). fold s0. lia.
    + subst e. left. fold s0. rewrite upto_all; [by rewrite Eh|].
      intros x [Hx|Hx%list_elem_of_singleton]%elem_of_app; [by apply Hle|by subst].
Qed.

Lemma insert_all_spec ls ls' h :
  hist_spec ls h → by_start (ls ++ ls') →
  ∃ h', BufferedHistoricLayerCoverage.insert_all ls' h = (Ok tt, h') ∧ hist_spec (ls ++ ls') h'.
Proof.
  revert ls h. induction ls' as [|[k v] ls' IH]; intros ls h Hspec Hs; simpl.
  { exists h. by rewrite app_nil_r. }
  destruct (hist_spec_insert ls h k v Hspec) as (h1 & E1 & Hspec1).
  { intros e He. apply StronglySorted_app in Hs as (Hle & _). apply Hle; [done|constructor]. }
  unfold mbind, M_bind. rewrite E1. rewrite cons_middle, app_assoc in Hs.
  destruct (IH _ _ Hspec1 Hs) as (h' & E' & Hspec'). exists h'. split; [done|].
  by rewrite cons_middle, app_assoc.
Qed.

Lemma hist_spec_new : hist_spec [] HistoricLayerCoverage.new.
Proof.
  split; simpl; [done|apply bt_wf_nil|]. intros s c. rewrite elem_of_nil.
  split; [done|]. intros [(e & He & _) _]. by apply not_elem_of_nil in He.
Qed.

Lemma hist_build_spec ls :
  by_start ls →
  BufferedHistoricLayerCoverage.insert_all ls HistoricLayerCoverage.new = (Ok tt, hist_build ls) ∧
  hist_spec ls (hist_build ls).
Proof.
  intros Hs. destruct (insert_all_spec [] ls _ hist_spec_new Hs) as (h & E & Hspec).
  unfold hist_build. by rewrite E.
Qed.

(** The index is determined by the layers. *)
Lemma hist_spec_unique ls h h' : hist_spec ls h → hist_spec ls h' → h = h'.
Proof.
  intros [H1 H2 H3] [H1' H2' H3']. destruct h as [hd hi], h' as [hd' hi']; simpl in *. subst. f_equal.
  apply bt_ext; [done..|]. intros [s c]. by rewrite H3, H3'.
Qed.

Definition before_start (rs : Z) (ls : Layers) : Layers := filter (λ e, lsn_start e < rs) ls.

Lemma upto_before s rs ls : s < rs → upto s (before_start rs ls) = upto s ls.
Proof.
  intros Hlt. unfold upto, before_start. rewrite list_filter_filter.
  apply list_filter_iff. intros e. lia.
Qed.

Lemma trim_spec rs ls h : hist_spec ls h → hist_spec (before_start rs ls) (HistoricLayerCoverage.trim rs h).
Proof.
  intros [Hh Hwf Hv]. unfold HistoricLayerCoverage.trim.
  set (hi := bt_before rs (HistoricLayerCoverage.historic h)).
  assert (bt_wf hi) as Hwf' by (by apply bt_filter_wf).
  assert (∀ s c, (s, c) ∈ hi ↔ (∃ e, e ∈ before_start rs ls ∧ lsn_start e = s) ∧
    c = cov_build (upto s (before_start rs ls))) as Hv'.
  { intros s c. unfold hi, bt_before. rewrite List_filter_elem, Hv. simpl. rewrite kltb_Z.
    setoid_rewrite list_elem_of_filter. split.
    - intros [[(e & He & <-) ->] Hlt%Z.ltb_lt]. rewrite upto_before by done. naive_solver.
    - intros [(e & [Hlt He] & <-) ->]. rewrite upto_before by done. rewrite Z.ltb_lt. naive_solver. }
  split; simpl; [|done|done]. destruct (last hi) as [[s c]|] eqn:El; simpl.
  - assert ((s, c) ∈ hi) as Hin by (apply last_Some in El as (l' & ->); apply elem_of_app; right; constructor).
    destruct (proj1 (Hv' s c) Hin) as [_ ->]. rewrite upto_all; [done|]. intros e He.
    apply (bt_last_max hi (s, _) (lsn_start e, cov_build (upto (lsn_start e) (before_start rs ls)))
      Hwf' El). apply Hv'. split; [by exists e|done].
  - apply last_None in El. destruct (before_start rs ls) as [|e l] eqn:E; [done|].
    exfalso. rewrite El in Hv'. eapply not_elem_of_nil. apply Hv'. split; [|done]. exists e. by split; [constructor|].
Qed.

(** A version is the coverage of the layers that start at or below its LSN. *)
Lemma get_version_spec ls h L :
  hist_spec ls h →
  HistoricLayerCoverage.get_version L h = if decide (upto L ls = []) then None else Some (cov_build (upto L ls)).
Proof.
  intros [Hh Hwf Hv]. unfold HistoricLayerCoverage.get_version, bt_last_le.
  set (hi := List.filter _ (HistoricLayerCoverage.historic h)).
  assert (∀ s c, (s, c) ∈ hi ↔ ((∃ e, e ∈ ls ∧ lsn_start e = s) ∧ c = cov_build (upto s ls)) ∧ s ≤ L) as Hv'.
  { intros s c. unfold hi. rewrite List_filter_elem, Hv. simpl. by rewrite kleb_Z, Z.leb_le. }
  assert (bt_wf hi) as Hwf' by (by apply bt_filter_wf).
  destruct (last hi) as [[s c]|] eqn:El; simpl.
  - assert ((s, c) ∈ hi) as Hin by (apply last_Some in El as (l' & ->); apply elem_of_app; right; constructor).
    destruct (proj1 (Hv' s c) Hin) as [[(e & He & Es) ->] Hle].
    assert (upto s ls = upto L ls) as E.
    { apply filter_ext_in. intros x Hx. split; [lia|]. intros HxL.
      apply (bt_last_max hi (s, _) (lsn_start x, cov_build (upto (lsn_start x) ls)) Hwf' El).
      apply Hv'. split; [|done]. split; [by exists x|done]. }
    rewrite decide_False; [by rewrite E|]. intros E0. rewrite E0 in E.
    apply (not_elem_of_nil e). rewrite <- E. apply list_elem_of_filter. split; [lia|done].
  - apply last_None in El. destruct (upto L ls) as [|e l] eqn:E; [done|].
    exfalso. assert (e ∈ upto L ls) as [He1 He2]%list_elem_of_filter by (rewrite E; constructor).
    rewrite El in Hv'. eapply (not_elem_of_nil (lsn_start e, _)), Hv'. split; [|done]. split; [by exists e|done].
Qed.

(** ** Rebuilding *)

(** The layers the page server makes: LSN and key ranges are not empty. *)
Definition lk_ok (k : LayerKey) : Prop :=
  0 ≤ r_start (lk_lsn k) < r_end (lk_lsn k) ∧ r_start (lk_key k) < r_end (lk_key k).

Lemma klt_lsn_start (a b : LayerKey) : klt a b → r_start (lk_lsn a) ≤ r_start (lk_lsn b).
Proof. unfold klt, kcmp, LayerKey_cmp. rewrite !then_assoc, then_lt. lia. Qed.

Lemma bt_wf_by_start ls : bt_wf ls → by_start ls.
Proof.
  unfold bt_wf, by_start. induction 1 as [|x l _ IH Hx]; constructor; [done|].
  eapply Forall_impl; [exact Hx|]. intros y. apply klt_lsn_start.
Qed.

(** The keys from [LayerKey { lsn: rs..0, key: 0..0, is_image: false }] on are
    those that start at [rs] or above. *)
Lemma from_key rs k :
  lk_ok k → kleb (MkLayerKey (mkRange 0 0) (mkRange rs 0) false) k = negb (r_start (lk_lsn k) <? rs).
Proof.
  intros [Hl _]. unfold kleb. f_equal. apply eq_true_iff_eq. rewrite kltb_lt. unfold klt, kcmp, LayerKey_cmp.
  rewrite !then_assoc, !then_lt. simpl. lia.
Qed.

Lemma split_at_start rs ls :
  bt_wf ls → Forall (λ e, lk_ok e.1) ls →
  ls = before_start rs ls ++ bt_from (MkLayerKey (mkRange 0 0) (mkRange rs 0) false) ls.
Proof.
  intros Hwf Hok. induction ls as [|x ls IH]; [done|].
  apply Forall_cons in Hok as [Hx Hok]. pose proof (bt_wf_by_start _ Hwf) as Hs.
  apply StronglySorted_cons in Hwf as [_ Hwf]. apply StronglySorted_cons in Hs as [Hxs _].
  unfold before_start, bt_from in *. simpl. rewrite from_key by done. fold (lsn_start x).
  destruct (Z.ltb_spec (lsn_start x) rs) as [Hlt|Hge].
  - rewrite filter_cons_True by done. simpl. by rewrite <- IH.
  - rewrite filter_cons_False by lia. simpl.
    assert (filter (λ e, lsn_start e < rs) ls = []) as E.
    { apply filter_none. eapply Forall_impl; [exact Hxs|]. simpl. intros; lia. }
    rewrite E in *. simpl in *. by rewrite <- IH.
Qed.

Lemma apply_updates_spec (buf : list (LayerKey * option Value)) (ls : Layers) :
  bt_wf ls → bt_wf buf →
  let ls' := foldl BufferedHistoricLayerCoverage.apply_update ls buf in
  bt_wf ls' ∧
  ∀ k v, (k, v) ∈ ls' ↔ (k, Some v) ∈ buf ∨ (k, v) ∈ ls ∧ (∀ o, (k, o) ∉ buf).
Proof.
  revert ls. induction buf as [|[k0 o0] buf IH]; intros ls Hls Hbuf; simpl.
  { split; [done|]. intros k v. rewrite elem_of_nil. split; [|by intros [|[]]]. intros; right; split; [done|].
    intros o. apply not_elem_of_nil. }
  apply StronglySorted_cons in Hbuf as [Hk0 Hbuf]. rewrite Forall_forall in Hk0.
  assert (∀ o, (k0, o) ∉ buf) as Hfresh.
  { intros o Hin. specialize (Hk0 _ Hin). by apply klt_irrefl in Hk0. }
  set (ls1 := BufferedHistoricLayerCoverage.apply_update ls (k0, o0)).
  assert (bt_wf ls1 ∧ ∀ k v, (k, v) ∈ ls1 ↔ (k, v) ∈ ls ∧ k ≠ k0 ∨ k = k0 ∧ o0 = Some v) as [Hwf1 He1].
  { unfold ls1, BufferedHistoricLayerCoverage.apply_update. simpl. destruct o0 as [v0|].
    - split; [by apply bt_insert_wf|]. intros k v. rewrite bt_insert_elem, pair_eq by done. simpl. naive_solver.
    - split; [by apply bt_remove_wf|]. intros k v. rewrite bt_remove_elem by done. simpl. naive_solver. }
  destruct (IH ls1 Hwf1 Hbuf) as [Hwf' He']. split; [done|]. intros k v. rewrite He', He1.
  setoid_rewrite elem_of_cons. setoid_rewrite pair_eq. destruct (decide (k = k0)) as [->|Hne].
  - split.
    + intros [?|[[[]|[_ ->]] _]]; [by auto|done|by left; left].
    + intros [[[_ ->]|?]|[_ Hn]]; [right; split; [by right|by auto]|by left|]. exfalso. apply (Hn o0). by left.
  - split; [intros [?|[[[? _]|[? _]] ?]]; [by auto|right; split; [done|naive_solver]|done]|].
    intros [[[]|?]|[? Hn]]; [done|by left|]. right. split; [by left|]. intros o Ho. apply (Hn o). by right.
Qed.

Abbreviation Buffered := (BufferedHistoricLayerCoverage.t T Value).
Import BufferedHistoricLayerCoverage.

(** The invariant of the buffered index: its persistent index is the one of the
    layers it has taken over so far. *)
Record buffered_inv (b : Buffered) : Prop := {
  bi_layers : bt_wf (layers b);
  bi_buffer : bt_wf (buffer b);
  bi_layers_ok : Forall (λ e, lk_ok e.1) (layers b);
  bi_buffer_ok : Forall (λ e, lk_ok e.1) (buffer b);
  bi_historic : hist_spec (layers b) (historic_coverage b)
}.

Lemma rebuild_spec b :
  buffered_inv b →
  ∃ b', rebuild b = (Ok tt, b') ∧ buffered_inv b' ∧ buffer b' = [] ∧
    ∀ k v, (k, v) ∈ layers b' ↔ (k, Some v) ∈ buffer b ∨ (k, v) ∈ layers b ∧ (∀ o, (k, o) ∉ buffer b).
Proof.
  intros [Hl Hb Hlo Hbo Hh]. unfold rebuild. destruct (buffer b) as [|[k0 o0] buf] eqn:Eb.
  { exists b. split; [done|]. split; [split; try done; by rewrite Eb|]. split; [done|].
    intros k v. rewrite elem_of_nil. split; [|by intros [|[]]]. intros; right; split; [done|].
    intros o. apply not_elem_of_nil. }
  rewrite <- Eb in *. destruct (apply_updates_spec (buffer b) (layers b) Hl Hb) as [Hl' He'].
  set (ls' := foldl _ (layers b) (buffer b)) in *. set (rs := r_start (lk_lsn k0)).
  assert (Forall (λ e, lk_ok e.1) ls') as Hlo'.
  { rewrite Forall_forall in Hlo. rewrite Forall_forall in Hbo. apply Forall_forall. intros [k v] [Hin|[Hin _]]%He'; [by apply (Hbo _ Hin)|by apply (Hlo _ Hin)]. }
  assert (∀ k o, (k, o) ∈ buffer b → rs ≤ r_start (lk_lsn k)) as Hrs.
  { intros k o Hin. rewrite Eb in Hb, Hin. apply StronglySorted_cons in Hb as [Hb _]. rewrite Forall_forall in Hb.
    apply elem_of_cons in Hin as [[= -> _]|Hin]; [done|]. by apply klt_lsn_start, (Hb _ Hin). }
  assert (before_start rs ls' = before_start rs (layers b)) as Ebs.
  { apply bt_ext.
    - by apply StronglySorted_filter.
    - by apply StronglySorted_filter.
    - intros [k v]. unfold before_start. rewrite !list_elem_of_filter, He'. unfold lsn_start. simpl.
      split; [intros [Hlt [Hin|[Hin _]]]; [apply Hrs in Hin; lia|done]|]. intros [Hlt Hin]. split; [done|].
      right. split; [done|]. intros o Ho%Hrs. lia. }
  pose proof (split_at_start rs ls' Hl' Hlo') as Esplit. rewrite Ebs in Esplit.
  destruct (insert_all_spec (before_start rs (layers b)) (bt_from (MkLayerKey (mkRange 0 0) (mkRange rs 0) false) ls')
    (HistoricLayerCoverage.trim rs (historic_coverage b)) (trim_spec rs _ _ Hh)) as (h' & E & Hh').
  { rewrite <- Esplit. by apply bt_wf_by_start. }
  rewrite E. eexists. split; [done|]. split; [|done]. rewrite <- Esplit in Hh'.
  split; simpl; [done|apply bt_wf_nil|done|constructor|done].
Qed.

Lemma buffered_inv_new : buffered_inv new.
Proof. split; simpl; [apply bt_wf_nil|apply bt_wf_nil|constructor|constructor|apply hist_spec_new]. Qed.

Lemma buffered_inv_update b k o :
  buffered_inv b → lk_ok k →
  buffered_inv (Mk (historic_coverage b) (bt_insert k o (buffer b)) (layers b)).
Proof.
  intros [Hl Hb Hlo Hbo Hh] Hk. split; simpl; [done|by apply bt_insert_wf|done| |done].
  apply Forall_forall. rewrite Forall_forall in Hbo.
  intros e [->|[He _]]%bt_insert_elem; [done|by apply Hbo|done].
Qed.

(** The states the operations lead to, for layers with ranges that are not
    empty. *)
Inductive buffered_step : Buffered → Buffered → Prop :=
  | step_insert b k v : lk_ok k → buffered_step b (insert k v b)
  | step_remove b k : lk_ok k → buffered_step b (remove k b)
  | step_rebuild b r b' : rebuild b = (r, b') → buffered_step b b'.

Lemma buffered_reachable b : rtc buffered_step new b → buffered_inv b.
Proof.
  intros Hr. assert (∀ a, rtc buffered_step a b → buffered_inv a → buffered_inv b) as Hind.
  { induction 1 as [a|a a' b' Hstep _ IH]; [done|]. intros Ha. apply IH; [done|].
    destruct Hstep as [b k v Hk|b k Hk|b r b1 E]; [by apply buffered_inv_update..|].
    destruct (rebuild_spec b Ha) as (b2 & E2 & Hb2 & _). rewrite E2 in E. by simplify_eq. }
  by apply (Hind new), buffered_inv_new.
Qed.

(** ** What queries return *)

Definition select (img : bool) (c : Tuple) : T (option (Z * Value)) :=
  if img then image_coverage c else delta_coverage c.

(** The layer [k] is an image (or a delta) that starts at or below [L] and
    covers the key [x]. *)
Definition covers (img : bool) (L x : Z) (k : LayerKey) : Prop :=
  is_image k = img ∧ r_start (lk_lsn k) ≤ L ∧ r_start (lk_key k) ≤ x < r_end (lk_key k).

(** The result of a search through all layers: one of the layers that cover the
    key with the greatest end LSN. *)
Definition is_latest (ls : Layers) (img : bool) (L x : Z) (r : option Value) : Prop :=
  match r with
  | Some v => ∃ k, (k, v) ∈ ls ∧ covers img L x k ∧
      ∀ k' v', (k', v') ∈ ls → covers img L x k' → r_end (lk_lsn k') ≤ r_end (lk_lsn k)
  | None => ∀ k' v', (k', v') ∈ ls → ¬ covers img L x k'
  end.

(** [node_at] remembers the end LSN of the layer in force. *)
Lemma cov_build_node ls img L x :
  Forall (λ e, lk_ok e.1) ls → (∀ e, e ∈ ls → lsn_start e ≤ L) →
  match node_at (select img (cov_build ls)) x with
  | Some (h, v) => ∃ k, (k, v) ∈ ls ∧ covers img L x k ∧ h = r_end (lk_lsn k) ∧
      ∀ k' v', (k', v') ∈ ls → covers img L x k' → r_end (lk_lsn k') ≤ h
  | None => ∀ k' v', (k', v') ∈ ls → ¬ covers img L x k'
  end.
Proof.
  induction ls as [|[k v] ls IH] using rev_ind; intros Hok HL.
  { assert (node_at (select img (cov_build [])) x = None) as -> by (destruct img; apply node_at_new).
    by intros k' v' ?%not_elem_of_nil. }
  apply Forall_app in Hok as [Hok Hk%Forall_inv]. simpl in Hk.
  specialize (IH Hok ltac:(intros e He; apply HL, elem_of_app; by left)).
  assert (r_start (lk_lsn k) ≤ L) as HkL by (apply (HL (k, v)), elem_of_app; right; constructor).
  assert (node_at (select img (cov_build (ls ++ [(k, v)]))) x =
    if bool_decide (covers img L x k) then raise (r_end (lk_lsn k)) v (node_at (select img (cov_build ls)) x)
    else node_at (select img (cov_build ls)) x) as ->.
  { unfold cov_build. rewrite foldl_app. fold (cov_build ls). cbn [foldl]. unfold tuple_insert, covers. cbn [fst snd].
    destruct (is_image k) eqn:Ei, img; cbn [select image_coverage delta_coverage];
      rewrite ?insert_node_at by apply Hk; case_bool_decide as Hc; try done; try (by destruct Hc).
    all: destruct (_ && _) eqn:E; try done; exfalso;
      first [destruct Hc as (_ & _ & Hc); lia | apply Hc; split; [done|lia]]. }
  assert (∀ k' v', (k', v') ∈ ls ++ [(k, v)] ↔ (k', v') ∈ ls ∨ (k', v') = (k, v)) as Hel
    by (intros; by rewrite elem_of_app, list_elem_of_singleton).
  set (n := node_at (select img (cov_build ls)) x) in *. case_bool_decide as Hc.
  - unfold raise, LayerCoverage.needs_cover. destruct n as [[h w]|].
    + destruct IH as (k1 & Hin & Hc1 & -> & Hmax). destruct (Z.ltb_spec (r_end (lk_lsn k1)) (r_end (lk_lsn k))) as [Hlt|Hge].
      * exists k. split; [apply Hel; by right|]. split; [done|]. split; [done|].
        intros k' v' [Hk'|[= -> ->]]%Hel Hc'; [|lia]. specialize (Hmax k' v' Hk' Hc'). lia.
      * exists k1. split; [apply Hel; by left|]. split; [done|]. split; [done|].
        intros k' v' [Hk'|[= -> ->]]%Hel Hc'; [by eauto|lia].
    + exists k. split; [apply Hel; by right|]. split; [done|]. split; [done|].
      intros k' v' [Hk'|[= -> ->]]%Hel Hc'; [by destruct (IH k' v')|lia].
  - destruct n as [[h w]|].
    + destruct IH as (k1 & Hin & Hc1 & -> & Hmax). exists k1. split; [apply Hel; by left|]. split; [done|]. split; [done|].
      intros k' v' [Hk'|[= -> ->]]%Hel Hc'; [by eauto|done].
    + intros k' v' [Hk'|[= -> ->]]%Hel; [by eauto|done].
Qed.

(** The query of a version, as [LayerMap] makes it. *)
Definition query_at (img : bool) (L x : Z) (h : HistoricLayerCoverage.t T Value) : option Value :=
  match HistoricLayerCoverage.get_version L h with
  | Some c => LayerCoverage.query x (select img c)
  | None => None
  end.

Lemma query_at_latest ls h img L x :
  hist_spec ls h → Forall (λ e, lk_ok e.1) ls → is_latest ls img L x (query_at img L x h).
Proof.
  intros Hh Hok. unfold query_at. rewrite (get_version_spec ls h L Hh).
  assert (∀ k v, (k, v) ∈ upto L ls ↔ r_start (lk_lsn k) ≤ L ∧ (k, v) ∈ ls) as Hup
    by (intros; unfold upto; by rewrite list_elem_of_filter).
  destruct (decide (upto L ls = [])) as [E|_].
  { intros k v Hin (_ & HL & _). rewrite E in Hup. eapply not_elem_of_nil, Hup. by split. }
  rewrite query_node_at. assert (Forall (λ e, lk_ok e.1) (upto L ls)) as Hok'.
  { rewrite Forall_forall in *. intros [k v] [_ Hin]%Hup. by apply (Hok (k, v)). }
  pose proof (cov_build_node (upto L ls) img L x Hok') as Hn.
  specialize (Hn ltac:(intros e [? _]%list_elem_of_filter; done)).
  destruct (node_at _ x) as [[e v]|]; simpl.
  - destruct Hn as (k & [_ Hin]%Hup & Hc & -> & Hmax). exists k. split; [done|]. split; [done|].
    intros k' v' Hin' Hc'. apply (Hmax k' v'); [|done]. apply Hup. split; [by apply Hc'|done].
  - intros k v Hin Hc. apply (Hn k v); [|done]. apply Hup. split; [by apply Hc|done].
Qed.

(** C32: whatever sequence of insertions, removals and rebuilds led to a state,
    rebuilding it does not panic, applies exactly the pending updates to the set
    of layers, and leaves an index whose queries, at every LSN and key, return
    the layer with the greatest end LSN among the image (or delta) layers that
    start at or below the LSN and cover the key, or nothing if there is none. *)
Theorem rebuilt_index_correct b :
  rtc buffered_step new b →
  ∃ b' h, rebuild b = (Ok tt, b') ∧ get b' = Ok h ∧
    (∀ k v, (k, v) ∈ layers b' ↔ (k, Some v) ∈ buffer b ∨ (k, v) ∈ layers b ∧ (∀ o, (k, o) ∉ buffer b)) ∧
    (∀ img L x, is_latest (layers b') img L x (query_at img L x h)).
Proof.
  intros Hr%buffered_reachable. destruct (rebuild_spec b Hr) as (b' & E & Hb' & Ebuf & He).
  exists b', (historic_coverage b'). split; [done|]. split; [unfold get; by rewrite Ebuf|].
  split; [done|]. intros img L x. apply query_at_latest; apply Hb'.
Qed.
End facts.

Lemma rebuilt_index_correct_witness :
  let k1 := MkLayerKey (mkRange 0 5) (mkRange 100 110) true in
  let k2 := MkLayerKey (mkRange 3 9) (mkRange 50 60) false in
  let b := BufferedHistoricLayerCoverage.remove k1 (BufferedHistoricLayerCoverage.insert k2 2%nat
             (BufferedHistoricLayerCoverage.insert k1 1%nat (BufferedHistoricLayerCoverage.new (T := sorted_list)))) in
  ∃ b' h, BufferedHistoricLayerCoverage.rebuild b = (Ok tt, b') ∧ BufferedHistoricLayerCoverage.get b' = Ok h ∧
    (∀ k v, (k, v) ∈ BufferedHistoricLayerCoverage.layers b' ↔
       (k, Some v) ∈ BufferedHistoricLayerCoverage.buffer b ∨
       (k, v) ∈ BufferedHistoricLayerCoverage.layers b ∧ (∀ o, (k, o) ∉ BufferedHistoricLayerCoverage.buffer b)) ∧
    (∀ img L x, is_latest (BufferedHistoricLayerCoverage.layers b') img L x (query_at img L x h)).
Proof.
  intros k1 k2 b. apply rebuilt_index_correct.
  eapply rtc_l; [apply (step_insert _ k1 1%nat); split; simpl; lia|].
  eapply rtc_l; [apply (step_insert _ k2 2%nat); split; simpl; lia|].
  eapply rtc_l; [apply (step_remove _ k1); split; simpl; lia|]. apply rtc_refl.
Defined.
