(* ===== verification/LayerMaps.v ===== *)
(** The layer map of a timeline: [pageserver/src/tenant/layer_map.rs], with the
    layer descriptors of [storage_layer/layer_desc.rs] and the LSN range of
    [storage_layer/inmemory_layer.rs].

    [LayerMap] holds the open and frozen in-memory layers, the index of the
    persistent layers and the list of the L0 deltas.  [search] finds the layer
    from which the read path continues for one key; [range_search] does so for a
    whole key range by walking the changes of delta and image coverage together.
    Panics ([unwrap], [assert!], LSN overflow) are outcomes of their own. *)

From S2P Require Import Prelude Text Loops OrdMaps Lsns Keys Shards KeySpaces LayerCoverage HistoricCoverage.
Local Open Scope Z_scope.

Record PersistentLayerDesc := MkPersistentLayerDesc {
  pd_tenant_shard_id : TenantShardId;
  pd_timeline_id : bytes;
  pd_key_range : Range Key;
  pd_lsn_range : Range Z;
  pd_is_delta : bool;
  pd_file_size : Z
}.

#[global] Instance PersistentLayerDesc_eq_dec : EqDecision PersistentLayerDesc.
Proof. solve_decision. Defined.

Record PersistentLayerKey := MkPersistentLayerKey {
  plk_key_range : Range Key;
  plk_lsn_range : Range Z;
  plk_is_delta : bool
}.

#[global] Instance PersistentLayerKey_eq_dec : EqDecision PersistentLayerKey.
Proof. solve_decision. Defined.

Module PersistentLayerDesc.
Definition key (self : PersistentLayerDesc) : PersistentLayerKey :=
  MkPersistentLayerKey (pd_key_range self) (pd_lsn_range self) (pd_is_delta self).

Definition image_layer_lsn_range (lsn : Z) : result unit (Range Z) :=
  e ← Lsn.add lsn 1; Ok (mkRange lsn e).

Definition new_img (tenant_shard_id : TenantShardId) (timeline_id : bytes) (key_range : Range Key)
    (lsn file_size : Z) : result unit PersistentLayerDesc :=
  lsn_range ← image_layer_lsn_range lsn;
  Ok (MkPersistentLayerDesc tenant_shard_id timeline_id key_range lsn_range false file_size).

Definition new_delta (tenant_shard_id : TenantShardId) (timeline_id : bytes) (key_range : Range Key)
    (lsn_range : Range Z) (file_size : Z) : PersistentLayerDesc :=
  MkPersistentLayerDesc tenant_shard_id timeline_id key_range lsn_range true file_size.

Definition image_layer_lsn (self : PersistentLayerDesc) : result unit Z :=
  if pd_is_delta self then Panic
  else
    e ← Lsn.add (r_start (pd_lsn_range self)) 1;
    if e =? r_end (pd_lsn_range self) then Ok (r_start (pd_lsn_range self)) else Panic.

Definition is_incremental (self : PersistentLayerDesc) : bool := pd_is_delta self.
End PersistentLayerDesc.

(** [impl From<&PersistentLayerDesc> for LayerKey] *)
Definition layer_key_of (layer : PersistentLayerDesc) : result unit LayerKey :=
  s ← Key.to_i128 (r_start (pd_key_range layer));
  e ← Key.to_i128 (r_end (pd_key_range layer));
  Ok (MkLayerKey (mkRange s e) (pd_lsn_range layer) (negb (PersistentLayerDesc.is_incremental layer))).

Record InMemoryLayer := MkInMemoryLayer {
  im_file_id : Z;
  im_start_lsn : Z;
  im_end_lsn : option Z (* set when the layer is frozen *)
}.

Module InMemoryLayer.
Definition end_lsn_or_max (self : InMemoryLayer) : Z := default Lsn.MAX (im_end_lsn self).
Definition get_lsn_range (self : InMemoryLayer) : Range Z := mkRange (im_start_lsn self) (end_lsn_or_max self).
End InMemoryLayer.

Inductive InMemoryLayerHandle := Open | Frozen (idx : nat).
Record InMemoryLayerDesc := MkInMemoryLayerDesc { handle : InMemoryLayerHandle; imd_lsn_range : Range Z }.

Inductive ReadableLayerWeak :=
  | PersistentLayer (l : PersistentLayerDesc)
  | InMemory (l : InMemoryLayerDesc).

Record SearchResult := MkSearchResult { sr_layer : ReadableLayerWeak; lsn_floor : Z }.

#[global] Instance InMemoryLayer_eq_dec : EqDecision InMemoryLayer.
Proof. solve_decision. Defined.
#[global] Instance InMemoryLayerHandle_eq_dec : EqDecision InMemoryLayerHandle.
Proof. solve_decision. Defined.
#[global] Instance InMemoryLayerDesc_eq_dec : EqDecision InMemoryLayerDesc.
Proof. solve_decision. Defined.
#[global] Instance ReadableLayerWeak_eq_dec : EqDecision ReadableLayerWeak.
Proof. solve_decision. Defined.
#[global] Instance SearchResult_eq_dec : EqDecision SearchResult.
Proof. solve_decision. Defined.

(** ** [LayerMap::select_layer] *)

Definition persistent (l : PersistentLayerDesc) (floor : Z) : SearchResult := MkSearchResult (PersistentLayer l) floor.
Definition in_memory (l : InMemoryLayerDesc) (floor : Z) : SearchResult := MkSearchResult (InMemory l) floor.

Definition select_delta_image (delta image : PersistentLayerDesc) (end_lsn : Z) : result unit SearchResult :=
  let img_lsn := r_start (pd_lsn_range image) in
  let image_is_newer := r_end (pd_lsn_range delta) <=? r_end (pd_lsn_range image) in
  next ← Lsn.add img_lsn 1;
  let image_exact_match := next =? end_lsn in
  if image_is_newer || image_exact_match then Ok (persistent image img_lsn)
  else Ok (persistent delta (Z.max (r_start (pd_lsn_range delta)) next)).

Definition select_image_inmem (image : PersistentLayerDesc) (inmem : InMemoryLayerDesc) (end_lsn : Z)
    : result unit SearchResult :=
  let img_lsn := r_start (pd_lsn_range image) in
  let image_is_newer := r_end (imd_lsn_range inmem) <=? r_end (pd_lsn_range image) in
  next ← Lsn.add img_lsn 1;
  let image_exact_match := next =? end_lsn in
  if image_is_newer || image_exact_match then Ok (persistent image img_lsn)
  else Ok (in_memory inmem (Z.max (r_start (imd_lsn_range inmem)) next)).

Definition select_delta_inmem (delta : PersistentLayerDesc) (inmem : InMemoryLayerDesc) (end_lsn : Z) : SearchResult :=
  let delta_end := r_end (pd_lsn_range delta) in
  let delta_is_newer := r_end (imd_lsn_range inmem) <=? delta_end in
  let delta_exact_match := delta_end =? end_lsn in
  if delta_is_newer || delta_exact_match then persistent delta (r_start (pd_lsn_range delta))
  else in_memory inmem (Z.max (r_start (imd_lsn_range inmem)) delta_end).

Definition select_layer (delta_layer image_layer : option PersistentLayerDesc)
    (in_memory_layer : option InMemoryLayerDesc) (end_lsn : Z) : result unit (option SearchResult) :=
  if negb (default true (pd_is_delta <$> delta_layer)) then Panic
  else if default false (pd_is_delta <$> image_layer) then Panic
  else
    match delta_layer, image_layer, in_memory_layer with
    | None, None, None => Ok None
    | None, Some image, None => Ok (Some (persistent image (r_start (pd_lsn_range image))))
    | Some delta, None, None => Ok (Some (persistent delta (r_start (pd_lsn_range delta))))
    | Some delta, Some image, None => r ← select_delta_image delta image end_lsn; Ok (Some r)
    | None, None, Some inmem => Ok (Some (in_memory inmem (r_start (imd_lsn_range inmem))))
    | None, Some image, Some inmem => r ← select_image_inmem image inmem end_lsn; Ok (Some r)
    | Some delta, None, Some inmem => Ok (Some (select_delta_inmem delta inmem end_lsn))
    | Some delta, Some image, Some inmem =>
        persistent_res ← select_delta_image delta image end_lsn;
        match sr_layer persistent_res with
        | PersistentLayer persistent_l =>
            inmem_res ← (if pd_is_delta persistent_l
                         then Ok (select_delta_inmem persistent_l inmem end_lsn)
                         else select_image_inmem persistent_l inmem end_lsn);
            Ok (Some (MkSearchResult (sr_layer inmem_res)
                        (Z.max (lsn_floor persistent_res) (lsn_floor inmem_res))))
        | InMemory _ => Panic
        end
    end.

(** * The layer map *)

Module LayerMap.
Section layer_map.
Context {T : Type → Type} `{RedBlackTree T}.

Record t := Mk {
  open_layer : option InMemoryLayer;
  next_open_layer_at : option Z;
  frozen_layers : list InMemoryLayer;
  historic : BufferedHistoricLayerCoverage.t T PersistentLayerDesc;
  l0_delta_layers : list PersistentLayerDesc;
  watch_l0_deltas : nat (* the number last sent *)
}.

Definition set_historic h (self : t) : t :=
  Mk (open_layer self) (next_open_layer_at self) (frozen_layers self) h (l0_delta_layers self) (watch_l0_deltas self).
(** A change of the L0 list and the notification of its watchers. *)
Definition set_l0 l (self : t) : t :=
  Mk (open_layer self) (next_open_layer_at self) (frozen_layers self) (historic self) l (length l).

Definition is_l0 (key_range : Range Key) (is_delta_layer : bool) : bool :=
  is_delta_layer && bool_decide (key_range = mkRange Key.MIN Key.MAX).

Definition is_reimage_worthy (layer : PersistentLayerDesc) (partition_range : Range Key) : bool :=
  if negb (is_l0 (pd_key_range layer) (pd_is_delta layer)) then true
  else bool_decide (partition_range = mkRange Key.MIN Key.MAX).

(** ** Updates *)

Definition insert_historic_noflush (layer_desc : PersistentLayerDesc) : M t unit unit :=
  _ ← whenM (is_l0 (pd_key_range layer_desc) (pd_is_delta layer_desc))
        (modifyS (λ self, set_l0 (l0_delta_layers self ++ [layer_desc]) self));
  layer_key ← liftR (layer_key_of layer_desc);
  modifyS (λ self, set_historic (BufferedHistoricLayerCoverage.insert layer_key layer_desc (historic self)) self).

Definition remove_historic_noflush (layer_desc : PersistentLayerDesc) : M t unit unit :=
  layer_key ← liftR (layer_key_of layer_desc);
  _ ← modifyS (λ self, set_historic (BufferedHistoricLayerCoverage.remove layer_key (historic self)) self);
  let key := PersistentLayerDesc.key layer_desc in
  whenM (is_l0 (pd_key_range layer_desc) (pd_is_delta layer_desc))
    (self ← getS;
     let len_before := Z.of_nat (length (l0_delta_layers self)) in
     let retained := filter (λ other, PersistentLayerDesc.key other ≠ key) (l0_delta_layers self) in
     _ ← modifyS (set_l0 retained);
     assertM (Z.of_nat (length retained) =? wrapping_sub 64 len_before 1)).

Definition flush_updates : M t unit unit := λ self,
  let '(r, h) := BufferedHistoricLayerCoverage.rebuild (historic self) in (r, set_historic h self).

Inductive Update := InsertHistoric (l : PersistentLayerDesc) | RemoveHistoric (l : PersistentLayerDesc).

(** A [BatchedUpdates]: the updates, then the flush when it is dropped. *)
Fixpoint batch_update (updates : list Update) : M t unit unit :=
  match updates with
  | [] => flush_updates
  | InsertHistoric l :: us => _ ← insert_historic_noflush l; batch_update us
  | RemoveHistoric l :: us => _ ← remove_historic_noflush l; batch_update us
  end.

(** ** Searches *)

Fixpoint rfind_frozen (below : Z) (idx : nat) (l : list InMemoryLayer) : option InMemoryLayerDesc :=
  match l with
  | [] => None
  | x :: l' =>
      match rfind_frozen below (S idx) l' with
      | Some d => Some d
      | None =>
          let lsn_range := InMemoryLayer.get_lsn_range x in
          if r_start lsn_range <? below then Some (MkInMemoryLayerDesc (Frozen idx) lsn_range) else None
      end
  end.

Definition search_in_memory_layer (below : Z) (self : t) : option InMemoryLayerDesc :=
  match open_layer self with
  | Some o =>
      let lsn_range := InMemoryLayer.get_lsn_range o in
      if r_start lsn_range <? below then Some (MkInMemoryLayerDesc Open lsn_range)
      else rfind_frozen below 0 (frozen_layers self)
  | None => rfind_frozen below 0 (frozen_layers self)
  end.

(** [self.historic.get().unwrap()] *)
Definition get_historic (self : t) : result unit (HistoricLayerCoverage.t T PersistentLayerDesc) :=
  match BufferedHistoricLayerCoverage.get (historic self) with Ok h => Ok h | _ => Panic end.

(** [end_lsn.0 - 1] is written as the subtraction of a release build, which wraps at
    LSN 0; a debug build panics there.  What it finds is characterised for positive LSNs. *)
Definition search (key : Key) (end_lsn : Z) (self : t) : result unit (option SearchResult) :=
  let in_memory_layer := search_in_memory_layer end_lsn self in
  h ← get_historic self;
  match HistoricLayerCoverage.get_version (wrapping_sub 64 end_lsn 1) h with
  | None => Ok ((λ desc, in_memory desc (r_start (imd_lsn_range desc))) <$> in_memory_layer)
  | Some version =>
      k ← Key.to_i128 key;
      let latest_delta := LayerCoverage.query k (delta_coverage version) in
      let latest_image := LayerCoverage.query k (image_coverage version) in
      select_layer latest_delta latest_image in_memory_layer end_lsn
  end.

Definition layer_covers (lsn_start : Z) (layer : option PersistentLayerDesc) : bool :=
  match layer with Some l => lsn_start <=? r_start (pd_lsn_range l) | None => false end.

Definition image_layer_exists (key : Range Key) (lsn : Range Z) (self : t) : result unit bool :=
  if Key.range_is_empty key then Ok true
  else
    h ← get_historic self;
    match HistoricLayerCoverage.get_version (wrapping_sub 64 (r_end lsn) 1) h with
    | None => Ok false
    | Some version =>
        start ← Key.to_i128 (r_start key);
        end_ ← Key.to_i128 (r_end key);
        if negb (layer_covers (r_start lsn) (LayerCoverage.query start (image_coverage version))) then Ok false
        else Ok (forallb (λ change, layer_covers (r_start lsn) change.2)
                   (LayerCoverage.range (mkRange start end_) (image_coverage version)))
    end.

(** The loop of [image_coverage] over the change events. *)
Fixpoint coverage_loop (changes : list (Z * option PersistentLayerDesc)) (current_key : Z)
    (current_val : option PersistentLayerDesc) (end_ : Z) : list (Range Key * option PersistentLayerDesc) :=
  match changes with
  | [] => [(mkRange (Key.from_i128 current_key) (Key.from_i128 end_), current_val)]
  | (change_key, change_val) :: changes' =>
      (mkRange (Key.from_i128 current_key) (Key.from_i128 change_key), current_val)
        :: coverage_loop changes' change_key change_val end_
  end.

Definition image_coverage_of (key_range : Range Key) (lsn : Z) (self : t)
    : result unit (list (Range Key * option PersistentLayerDesc)) :=
  h ← get_historic self;
  match HistoricLayerCoverage.get_version lsn h with
  | None => Ok []
  | Some version =>
      start ← Key.to_i128 (r_start key_range);
      end_ ← Key.to_i128 (r_end key_range);
      Ok (coverage_loop (LayerCoverage.range (mkRange start end_) (image_coverage version)) start
            (LayerCoverage.query start (image_coverage version)) end_)
  end.
End layer_map.
Arguments t _ : clear implicits.
End LayerMap.

(** * Range search *)

Inductive NextLayerType := Delta (at_ : Z) | Image (at_ : Z) | Both (at_ : Z).

Definition next_change_at_key (self : NextLayerType) : Key :=
  match self with Delta at_ => Key.from_i128 at_ | Image at_ => Key.from_i128 at_ | Both at_ => Key.from_i128 at_ end.

Module RangeSearchCollector.
(** [HashMap<SearchResult, KeySpaceAccum>]: one entry per search result. *)
Definition Found : Type := list (SearchResult * KeySpaceAccum.t).
Definition Changes : Type := list (Z * option PersistentLayerDesc).

(** [found.entry(r).or_default().add_range(range)] *)
Fixpoint add_entry (r : SearchResult) (range : Range Key) (found : Found) : result unit Found :=
  match found with
  | [] =>
      match KeySpaceAccum.add_range range KeySpaceAccum.new with
      | (Ok _, acc) => Ok [(r, acc)]
      | (Err e, _) => Err e
      | (Panic, _) => Panic
      end
  | (r', acc) :: found' =>
      if bool_decide (r' = r) then
        match KeySpaceAccum.add_range range acc with
        | (Ok _, acc') => Ok ((r', acc') :: found')
        | (Err e, _) => Err e
        | (Panic, _) => Panic
        end
      else f ← add_entry r range found'; Ok ((r', acc) :: f)
  end.

(** The part of the collector that does not change. *)
Record Params := MkParams {
  in_memory_layer : option InMemoryLayerDesc;
  key_range : Range Key;
  end_lsn : Z
}.

Record t := Mk {
  delta_coverage : Changes;
  image_coverage : Changes;
  current_delta : option PersistentLayerDesc;
  current_image : option PersistentLayerDesc;
  found : Found
}.

Definition set_found f (self : t) : t :=
  Mk (delta_coverage self) (image_coverage self) (current_delta self) (current_image self) f.

Section collect.
Context (p : Params).

Definition pad_range (range : Range Key) (self : t) : result unit t :=
  if negb (Key.range_is_empty range) then
    match in_memory_layer p with
    | Some inmem =>
        f ← add_entry (in_memory inmem (r_start (imd_lsn_range inmem))) range (found self);
        Ok (set_found f self)
    | None => Ok self
    end
  else Ok self.

Definition add_range (covered_range : Range Key) (self : t) : result unit t :=
  selected ← select_layer (current_delta self) (current_image self) (in_memory_layer p) (end_lsn p);
  match selected with
  | Some search_result => f ← add_entry search_result covered_range (found self); Ok (set_found f self)
  | None => pad_range covered_range self
  end.

Definition advance (layer_type : NextLayerType) (self : t) : result unit t :=
  match layer_type with
  | Delta _ =>
      match delta_coverage self with
      | (_, layer) :: rest => Ok (Mk rest (image_coverage self) layer (current_image self) (found self))
      | [] => Panic
      end
  | Image _ =>
      match image_coverage self with
      | (_, layer) :: rest => Ok (Mk (delta_coverage self) rest (current_delta self) layer (found self))
      | [] => Panic
      end
  | Both _ =>
      match image_coverage self, delta_coverage self with
      | (_, image_layer) :: irest, (_, delta_layer) :: drest =>
          Ok (Mk drest irest delta_layer image_layer (found self))
      | _, _ => Panic
      end
  end.

Definition choose_next_layer_type (self : t) : option NextLayerType :=
  match fst <$> head (delta_coverage self), fst <$> head (image_coverage self) with
  | None, None => None
  | Some next_delta_at, None => Some (Delta next_delta_at)
  | None, Some next_image_at => Some (Image next_image_at)
  | Some next_delta_at, Some next_image_at =>
      if next_image_at <? next_delta_at then Some (Image next_image_at)
      else if next_delta_at <? next_image_at then Some (Delta next_delta_at)
      else Some (Both next_delta_at)
  end.

(** The [while] of [collect]; every iteration takes a change, the last one goes
    to the end of the range.  [None] means that the fuel did not suffice. *)
Fixpoint collect_loop (fuel : nat) (current_range_start : Key) (self : t) : option (result unit t) :=
  match fuel with
  | O => None
  | S fuel =>
      if Key.ltb current_range_start (r_end (key_range p)) then
        match choose_next_layer_type self with
        | Some ty =>
            let current_range_end := next_change_at_key ty in
            match (s ← add_range (mkRange current_range_start current_range_end) self; advance ty s) with
            | Ok s => collect_loop fuel current_range_end s
            | Err e => Some (Err e)
            | Panic => Some Panic
            end
        | None =>
            match add_range (mkRange current_range_start (r_end (key_range p))) self with
            | Ok s => collect_loop fuel (r_end (key_range p)) s
            | Err e => Some (Err e)
            | Panic => Some Panic
            end
        end
      else Some (Ok self)
  end.

Definition collect (self : t) : option (result unit Found) :=
  match choose_next_layer_type self with
  | None => Some (s ← pad_range (key_range p) self; Ok (found s))
  | Some layer_type =>
      if Key.leb (r_end (key_range p)) (next_change_at_key layer_type) then
        Some (s ← pad_range (key_range p) self; Ok (found s))
      else
        let coverage_start := next_change_at_key layer_type in
        match (s ← pad_range (mkRange (r_start (key_range p)) coverage_start) self; advance layer_type s) with
        | Ok s =>
            let fuel := S (S (length (delta_coverage self) + length (image_coverage self))) in
            match collect_loop fuel coverage_start s with
            | Some (Ok s') => Some (Ok (found s'))
            | Some (Err e) => Some (Err e)
            | Some Panic => Some Panic
            | None => None
            end
        | Err e => Some (Err e)
        | Panic => Some Panic
        end
  end.
End collect.
End RangeSearchCollector.

Section range_search.
Context {T : Type → Type} `{RedBlackTree T}.

(** [RangeSearchResult::map_to_in_memory_layer] *)
Definition map_to_in_memory_layer (in_memory_layer : option InMemoryLayerDesc) (range : Range Key)
    : result unit RangeSearchCollector.Found :=
  match in_memory_layer with
  | Some inmem =>
      match KeySpaceAccum.add_range range KeySpaceAccum.new with
      | (Ok _, acc) => Ok [(in_memory inmem (r_start (imd_lsn_range inmem)), acc)]
      | (Err e, _) => Err e
      | (Panic, _) => Panic
      end
  | None => Ok []
  end.

Definition range_search (key_range : Range Key) (end_lsn : Z) (self : LayerMap.t T)
    : option (result unit RangeSearchCollector.Found) :=
  let in_memory_layer := LayerMap.search_in_memory_layer end_lsn self in
  match LayerMap.get_historic self with
  | Ok h =>
      match HistoricLayerCoverage.get_version (wrapping_sub 64 end_lsn 1) h with
      | None => Some (map_to_in_memory_layer in_memory_layer key_range)
      | Some version =>
          match Key.to_i128 (r_start key_range), Key.to_i128 (r_end key_range) with
          | Ok s, Ok e =>
              let raw_range := mkRange s e in
              let delta_changes := LayerCoverage.range_overlaps raw_range (delta_coverage version) in
              let image_changes := LayerCoverage.range_overlaps raw_range (image_coverage version) in
              RangeSearchCollector.collect
                (RangeSearchCollector.MkParams in_memory_layer key_range end_lsn)
                (RangeSearchCollector.Mk delta_changes image_changes None None [])
          | _, _ => Some Panic
          end
      end
  | _ => Some Panic
  end.
End range_search.
