(* ===== verification/LayerMapUpdates.v ===== *)
(** The layer map refines a plain list of layer descriptors: batches of
    insertions and removals keep the index, the list of L0 deltas and the number
    sent to its watchers consistent with it. *)

From S2P Require Import Prelude Text Loops OrdMaps Lsns Keys Shards KeySpaces LayerCoverage HistoricCoverage LayerMaps.
Local Open Scope Z_scope.

Section updates.
Context {T : Type → Type} `{RedBlackTreeLaws T}.
Implicit Types (lm : LayerMap.t T) (b : BufferedHistoricLayerCoverage.t T PersistentLayerDesc).
Implicit Types (d : PersistentLayerDesc) (k : LayerKey) (A : list PersistentLayerDesc).

(** The layers of an index with its pending updates applied. *)
Definition holds b k d : Prop :=
  (k, Some d) ∈ BufferedHistoricLayerCoverage.buffer b ∨
  (k, d) ∈ BufferedHistoricLayerCoverage.layers b ∧ ∀ o, (k, o) ∉ BufferedHistoricLayerCoverage.buffer b.

Definition is_l0_desc d : bool := LayerMap.is_l0 (pd_key_range d) (pd_is_delta d).

(** The layer map with the layers [A]. *)
Record represents lm A : Prop := {
  rp_inv : buffered_inv (LayerMap.historic lm);
  rp_holds k d : holds (LayerMap.historic lm) k d ↔ d ∈ A ∧ layer_key_of d = Ok k;
  rp_keys d : d ∈ A → ∃ k, layer_key_of d = Ok k ∧ lk_ok k;
  rp_nodup : NoDup (PersistentLayerDesc.key <$> A);
  rp_l0 : LayerMap.l0_delta_layers lm = List.filter is_l0_desc A;
  rp_watch : LayerMap.watch_l0_deltas lm = length (LayerMap.l0_delta_layers lm)
}.

Definition flushed lm : Prop := BufferedHistoricLayerCoverage.buffer (LayerMap.historic lm) = [].
Definition same_in_memory lm lm' : Prop :=
  LayerMap.open_layer lm' = LayerMap.open_layer lm ∧ LayerMap.frozen_layers lm' = LayerMap.frozen_layers lm ∧
  LayerMap.next_open_layer_at lm' = LayerMap.next_open_layer_at lm.

(** The updates of a plain list. *)
Definition spec_update A (u : LayerMap.Update) : list PersistentLayerDesc :=
  match u with
  | LayerMap.InsertHistoric d => A ++ [d]
  | LayerMap.RemoveHistoric d => filter (λ o, PersistentLayerDesc.key o ≠ PersistentLayerDesc.key d) A
  end.

(** New layers have ranges that are not empty and a key of their own; removed
    ones are present. *)
Definition valid_update A (u : LayerMap.Update) : Prop :=
  match u with
  | LayerMap.InsertHistoric d => (∃ k, layer_key_of d = Ok k ∧ lk_ok k) ∧
      ∀ o, o ∈ A → layer_key_of o ≠ layer_key_of d
  | LayerMap.RemoveHistoric d => Z.of_nat (length A) < 2 ^ 64 ∧
      ∃ o, o ∈ A ∧ PersistentLayerDesc.key o = PersistentLayerDesc.key d
  end.
Fixpoint valid_updates A (us : list LayerMap.Update) : Prop :=
  match us with [] => True | u :: us => valid_update A u ∧ valid_updates (spec_update A u) us end.

Lemma key_layer_key d d' : PersistentLayerDesc.key d = PersistentLayerDesc.key d' → layer_key_of d = layer_key_of d'.
Proof. unfold PersistentLayerDesc.key, layer_key_of, PersistentLayerDesc.is_incremental. intros [= E1 E2 E3]. by rewrite E1, E2, E3. Qed.

Lemma bt_wf_unique {V} (l : list (LayerKey * V)) k v v' : bt_wf l → (k, v) ∈ l → (k, v') ∈ l → v = v'.
Proof.
  induction 1 as [|[k1 v1] l _ IH Hx]; [by intros ?%not_elem_of_nil|]. rewrite Forall_forall in Hx.
  rewrite !elem_of_cons. intros [E1|H1] [E2|H2]; [congruence|..|by apply IH].
  - apply Hx in H2. simplify_eq/=. by apply klt_irrefl in H2.
  - apply Hx in H1. simplify_eq/=. by apply klt_irrefl in H1.
Qed.

Lemma holds_unique b k d d' : buffered_inv b → holds b k d → holds b k d' → d = d'.
Proof.
  intros [Hl Hb _ _ _] [H1|[H1 N1]] [H2|[H2 N2]].
  - by eapply bt_wf_unique in H2; [|exact Hb|exact H1]; simplify_eq.
  - by apply N2 in H1.
  - by apply N1 in H2.
  - by eapply bt_wf_unique.
Qed.

Lemma represents_key_inj lm A d d' :
  represents lm A → d ∈ A → d' ∈ A → layer_key_of d = layer_key_of d' → d = d'.
Proof.
  intros Hr Hd Hd' E. destruct (rp_keys _ _ Hr d Hd) as (k & Ek & _).
  apply (holds_unique (LayerMap.historic lm) k); [apply Hr|..]; apply (rp_holds _ _ Hr); split; congruence.
Qed.

Lemma holds_insert b k d k' d' :
  buffered_inv b →
  holds (BufferedHistoricLayerCoverage.insert k d b) k' d' ↔ (k', d') = (k, d) ∨ k' ≠ k ∧ holds b k' d'.
Proof.
  intros Hb. unfold holds, BufferedHistoricLayerCoverage.insert. simpl.
  setoid_rewrite bt_insert_elem; [|apply Hb..]. simpl. split.
  - intros [[[= -> ->]|[]]|[Hin Hno]]; [by left|right; split; [done|by left]|].
    destruct (decide (k' = k)) as [->|Hne]; [exfalso; apply (Hno (Some d)); by left|].
    right. split; [done|]. right. split; [done|]. intros o Ho. apply (Hno o). by right.
  - intros [[= -> ->]|[Hne [Hin|[Hin Hno]]]]; [left; by left|left; right; done|].
    right. split; [done|]. intros o [?|[]]; [congruence|by apply (Hno o)].
Qed.

Lemma holds_remove b k k' d' :
  buffered_inv b → holds (BufferedHistoricLayerCoverage.remove k b) k' d' ↔ k' ≠ k ∧ holds b k' d'.
Proof.
  intros Hb. unfold holds, BufferedHistoricLayerCoverage.remove. simpl.
  setoid_rewrite bt_insert_elem; [|apply Hb..]. simpl. split.
  - intros [[[=]|[]]|[Hin Hno]]; [split; [done|by left]|].
    destruct (decide (k' = k)) as [->|Hne]; [exfalso; apply (Hno None); by left|].
    split; [done|]. right. split; [done|]. intros o Ho. apply (Hno o). by right.
  - intros [Hne [Hin|[Hin Hno]]]; [left; right; done|].
    right. split; [done|]. intros o [?|[]]; [congruence|by apply (Hno o)].
Qed.

Lemma insert_spec lm A d :
  represents lm A → valid_update A (LayerMap.InsertHistoric d) →
  ∃ lm', LayerMap.insert_historic_noflush d lm = (Ok tt, lm') ∧
    represents lm' (spec_update A (LayerMap.InsertHistoric d)) ∧ same_in_memory lm lm'.
Proof.
  intros [Hinv Hh Hk Hn Hl0 Hw] [(k & Ek & Hko) Hfresh]. unfold LayerMap.insert_historic_noflush.
  change (LayerMap.is_l0 _ _) with (is_l0_desc d).
  assert (PersistentLayerDesc.key d ∉ PersistentLayerDesc.key <$> A) as Hnew.
  { intros (o & E & Ho)%list_elem_of_fmap. by apply (Hfresh o Ho), key_layer_key. }
  set (lm1 := if is_l0_desc d then LayerMap.set_l0 (LayerMap.l0_delta_layers lm ++ [d]) lm else lm).
  exists (LayerMap.set_historic (BufferedHistoricLayerCoverage.insert k d (LayerMap.historic lm1)) lm1).
  split; [|split].
  - unfold lm1. rewrite Ek. by destruct (is_l0_desc d).
  - assert (∀ lm2 : LayerMap.t T, LayerMap.historic lm2 = LayerMap.historic lm →
      LayerMap.l0_delta_layers lm2 = List.filter is_l0_desc (A ++ [d]) →
      LayerMap.watch_l0_deltas lm2 = length (LayerMap.l0_delta_layers lm2) →
      represents (LayerMap.set_historic (BufferedHistoricLayerCoverage.insert k d (LayerMap.historic lm2)) lm2) (A ++ [d]))
      as Hrep; [|unfold lm1; destruct (is_l0_desc d) eqn:E; apply Hrep; try done].
    + intros lm2 E1 E2 E3. rewrite E1. split; cbn; [by apply buffered_inv_update| | | |done|done].
      * intros k' d'. rewrite holds_insert, Hh, elem_of_app, list_elem_of_singleton by done.
        split; [intros [[= -> ->]|[_ []]]; split; auto|]. intros [[Hd| ->] E']; [right|left; congruence].
        split; [|done]. intros ->. apply (Hfresh d' Hd). congruence.
      * intros d' [Hd| ->%list_elem_of_singleton]%elem_of_app; eauto.
      * rewrite fmap_app. apply NoDup_app. split; [done|]. split; [|apply NoDup_singleton].
        intros x Hx ->%list_elem_of_singleton. done.
    + cbn. rewrite Hl0, List.filter_app. cbn. by rewrite E.
    + rewrite Hl0, List.filter_app. cbn. by rewrite E, app_nil_r.
  - unfold lm1. by destruct (is_l0_desc d).
Qed.

(** Removing the one element with a key. *)
Lemma filter_key_length (l : list PersistentLayerDesc) d o :
  NoDup (PersistentLayerDesc.key <$> l) → o ∈ l → PersistentLayerDesc.key o = PersistentLayerDesc.key d →
  S (length (filter (λ x, PersistentLayerDesc.key x ≠ PersistentLayerDesc.key d) l)) = length l.
Proof.
  intros Hn Ho E. induction l as [|x l IH]; [by apply not_elem_of_nil in Ho|].
  rewrite fmap_cons in Hn. apply NoDup_cons in Hn as [Hx Hn]. destruct (decide (PersistentLayerDesc.key x = PersistentLayerDesc.key d)) as [Ex|Ex].
  - rewrite filter_cons_False by (intros Hd; by apply Hd). simpl. rewrite filter_all; [done|].
    apply Forall_forall. intros y Hy Ey. apply Hx. rewrite Ex, <-Ey. by apply list_elem_of_fmap_2.
  - rewrite filter_cons_True by done. simpl. f_equal. apply IH; [done|].
    apply elem_of_cons in Ho as [->|]; [congruence|done].
Qed.

Lemma filter_l0_comm (P : PersistentLayerDesc → Prop) `{!∀ x, Decision (P x)} A :
  filter P (List.filter is_l0_desc A) = List.filter is_l0_desc (filter P A).
Proof.
  induction A as [|x A IH]; [done|]. simpl. destruct (is_l0_desc x) eqn:E.
  - rewrite !filter_cons. destruct (decide (P x)); simpl; rewrite ?E; by rewrite IH.
  - rewrite filter_cons. destruct (decide (P x)); simpl; rewrite ?E; done.
Qed.

Lemma NoDup_filter_l0 A : NoDup (PersistentLayerDesc.key <$> A) →
  NoDup (PersistentLayerDesc.key <$> List.filter is_l0_desc A).
Proof.
  induction A as [|x A IH]; [done|]. rewrite fmap_cons. intros [Hx Hn]%NoDup_cons. simpl.
  destruct (is_l0_desc x); [|by apply IH]. rewrite fmap_cons. apply NoDup_cons. split; [|by apply IH].
  intros (o & E & [Ho _]%List_filter_elem)%list_elem_of_fmap. apply Hx. rewrite E. by apply list_elem_of_fmap_2.
Qed.

Lemma NoDup_filter_key (P : PersistentLayerDesc → Prop) `{!∀ x, Decision (P x)} A :
  NoDup (PersistentLayerDesc.key <$> A) → NoDup (PersistentLayerDesc.key <$> filter P A).
Proof.
  intros Hn. eapply sublist_NoDup; [exact Hn|]. apply fmap_sublist, sublist_filter.
Qed.

Lemma remove_spec lm A d :
  represents lm A → valid_update A (LayerMap.RemoveHistoric d) →
  ∃ lm', LayerMap.remove_historic_noflush d lm = (Ok tt, lm') ∧
    represents lm' (spec_update A (LayerMap.RemoveHistoric d)) ∧ same_in_memory lm lm'.
Proof.
  intros Hr (Hlen & o & Ho & Eo). pose proof Hr as [Hinv Hh Hk Hn Hl0 Hw]. destruct (Hk o Ho) as (k & Ek & Hko).
  pose proof (key_layer_key _ _ Eo) as Ed. rewrite Ek in Ed. unfold LayerMap.remove_historic_noflush.
  change (LayerMap.is_l0 _ _) with (is_l0_desc d). set (P := λ x, PersistentLayerDesc.key x ≠ PersistentLayerDesc.key d).
  set (lm1 := LayerMap.set_historic (BufferedHistoricLayerCoverage.remove k (LayerMap.historic lm)) lm).
  assert (is_l0_desc o = is_l0_desc d) as E0.
  { unfold is_l0_desc. unfold PersistentLayerDesc.key in Eo. injection Eo as -> _ ->. done. }
  exists (if is_l0_desc d then LayerMap.set_l0 (filter P (LayerMap.l0_delta_layers lm)) lm1 else lm1).
  split; [|split].
  - rewrite <-Ed. destruct (is_l0_desc d) eqn:E; [|done]. cbn -[Z.of_nat].
    set (l0 := LayerMap.l0_delta_layers lm) in *.
    assert (S (length (filter P l0)) = length l0) as Hl by
      (apply (filter_key_length l0 d o); [rewrite Hl0; by apply NoDup_filter_l0|rewrite Hl0; by apply List_filter_elem|done]).
    assert (length l0 ≤ length A)%nat as HlA by (rewrite Hl0; apply List.filter_length_le).
    assert (Z.of_nat (length (filter P l0)) =? wrapping_sub 64 (Z.of_nat (length l0)) 1 = true) as Ha
      by (unfold wrapping_sub; rewrite wrap_small by (unfold in_u; lia); lia).
    unfold mbind, M_bind, liftR, modifyS, getS, assertM. cbn -[Z.of_nat]. fold l0. by rewrite Ha.
  - assert (∀ lm2 : LayerMap.t T, LayerMap.historic lm2 = LayerMap.historic lm1 →
      LayerMap.l0_delta_layers lm2 = List.filter is_l0_desc (filter P A) →
      LayerMap.watch_l0_deltas lm2 = length (LayerMap.l0_delta_layers lm2) → represents lm2 (filter P A))
      as Hrep; [|destruct (is_l0_desc d) eqn:E; apply Hrep; try done].
    + intros lm2 E1 E2 E3. split; rewrite ?E1; cbn; [by apply buffered_inv_update| | | |done|done].
      * intros k' d'. rewrite holds_remove, Hh, list_elem_of_filter by done. unfold P.
        assert (d' ∈ A → layer_key_of d' = Ok k' →
          k' ≠ k ↔ PersistentLayerDesc.key d' ≠ PersistentLayerDesc.key d) as Hiff; [|tauto].
        intros Hd E'. apply not_iff_compat. split; [intros ->|intros Ek'%key_layer_key; congruence].
        rewrite <-Eo. f_equal. apply (represents_key_inj lm A); congruence.
      * intros d' [_ Hd]%list_elem_of_filter. by apply Hk.
      * by apply NoDup_filter_key.
    + cbn. by rewrite Hl0, filter_l0_comm.
    + cbn. rewrite Hl0, <-filter_l0_comm. symmetry. apply filter_all, Forall_forall.
      intros x [_ Hx]%List_filter_elem Ex. unfold is_l0_desc, PersistentLayerDesc.key in *.
      injection Ex as E1 _ E3. congruence.
  - by destruct (is_l0_desc d).
Qed.

Lemma flush_spec lm A :
  represents lm A →
  ∃ lm', LayerMap.flush_updates lm = (Ok tt, lm') ∧ represents lm' A ∧ flushed lm' ∧ same_in_memory lm lm'.
Proof.
  intros [Hinv Hh Hk Hn Hl0 Hw]. destruct (rebuild_spec _ Hinv) as (b' & E & Hinv' & Eb & He).
  unfold LayerMap.flush_updates. rewrite E. eexists. split; [done|]. split; [|by split].
  split; cbn; try done. intros k d. rewrite <-Hh. unfold holds at 1. rewrite Eb, He.
  setoid_rewrite elem_of_nil. unfold holds. tauto.
Qed.

Lemma batch_update_spec lm A us :
  represents lm A → valid_updates A us →
  ∃ lm', LayerMap.batch_update us lm = (Ok tt, lm') ∧ represents lm' (foldl spec_update A us) ∧
    flushed lm' ∧ same_in_memory lm lm'.
Proof.
  revert lm A. induction us as [|u us IH]; intros lm A Hr Hv; cbn; [by apply flush_spec|].
  destruct Hv as [Hu Hv].
  assert (∃ lm1, (match u with LayerMap.InsertHistoric d => LayerMap.insert_historic_noflush d
      | LayerMap.RemoveHistoric d => LayerMap.remove_historic_noflush d end) lm = (Ok tt, lm1) ∧
    represents lm1 (spec_update A u) ∧ same_in_memory lm lm1) as (lm1 & E1 & Hr1 & Hs1)
    by (destruct u; [by apply insert_spec|by apply remove_spec]).
  destruct (IH lm1 _ Hr1 Hv) as (lm' & E' & Hr' & Hf & Hs'). exists lm'.
  split; [destruct u; unfold mbind, M_bind; by rewrite E1|]. split; [done|]. split; [done|].
  unfold same_in_memory in *. destruct Hs1 as (<- & <- & <-). done.
Qed.

(** C33: a batch of insertions of layers with new keys and of removals of layers
    that are there does not panic, and leaves a layer
    map that has exactly the layers the same updates of a plain list give: the
    index has them all and no pending updates, [l0_delta_layers] is their L0
    part in order of insertion, and its watchers were sent its length. *)
Theorem batch_update_correct lm A us :
  represents lm A → valid_updates A us →
  ∃ lm', LayerMap.batch_update us lm = (Ok tt, lm') ∧ represents lm' (foldl spec_update A us) ∧
    flushed lm' ∧ same_in_memory lm lm'.
Proof. apply batch_update_spec. Qed.

Lemma represents_empty open next frozen :
  represents (LayerMap.Mk open next frozen BufferedHistoricLayerCoverage.new [] 0) [].
Proof.
  split; cbn; try done; [apply buffered_inv_new| |by intros d ?%not_elem_of_nil|constructor].
  intros k d. unfold holds. cbn. rewrite !elem_of_nil. tauto.
Qed.
End updates.

(** A descriptor with a key range given by integers. *)
Definition example_desc (is_delta : bool) (key lsn : Range Z) : PersistentLayerDesc :=
  MkPersistentLayerDesc (MkTenantShardId [] 0 0) [] (mkRange (Key.from_i128 (r_start key)) (Key.from_i128 (r_end key)))
    lsn is_delta 0.
Definition example_l0 (lsn : Range Z) : PersistentLayerDesc :=
  MkPersistentLayerDesc (MkTenantShardId [] 0 0) [] (mkRange Key.MIN Key.MAX) lsn true 0.
Definition example_map : LayerMap.t sorted_list :=
  LayerMap.Mk (Some (MkInMemoryLayer 1 30 None)) None [] BufferedHistoricLayerCoverage.new [] 0.
Definition example_updates : list LayerMap.Update :=
  [LayerMap.InsertHistoric (example_l0 (mkRange 10 20)); LayerMap.InsertHistoric (example_l0 (mkRange 20 30));
   LayerMap.InsertHistoric (example_desc false (mkRange 0 9) (mkRange 12 13));
   LayerMap.RemoveHistoric (example_l0 (mkRange 10 20))].

Lemma example_updates_valid : valid_updates [] example_updates.
Proof.
  cbn -[layer_key_of Z.pow]. split_and!; try done; try lia.
  all: try (eexists; split; [by vm_compute|by split; vm_compute]).
  all: try (by intros o ?%not_elem_of_nil).
  all: try (intros o; rewrite ?elem_of_cons, elem_of_nil; intros; destruct_or?; subst; by vm_compute).
  exists (example_l0 (mkRange 10 20)). split; [constructor|done].
Qed.

(** The map after the updates, and its layers. *)
Definition example_lm : LayerMap.t sorted_list := (LayerMap.batch_update example_updates example_map).2.
Definition example_layers : list PersistentLayerDesc := foldl spec_update [] example_updates.

Lemma example_lm_represents : represents example_lm example_layers ∧ flushed example_lm.
Proof.
  destruct (batch_update_spec example_map [] example_updates) as (lm' & E & Hr & Hf & _);
    [apply represents_empty|apply example_updates_valid|].
  unfold example_lm. by rewrite E.
Qed.

Lemma batch_update_correct_witness :
  ∃ lm', LayerMap.batch_update example_updates example_map = (Ok tt, lm') ∧
    represents lm' (foldl spec_update [] example_updates) ∧ flushed lm' ∧ same_in_memory example_map lm'.
Proof.
  apply (batch_update_correct example_map [] example_updates); [apply represents_empty|apply example_updates_valid].
Defined.
