(* ===== verification/LayerMapFacts.v ===== *)
(** Helper facts for the searches of the layer map: what [select_layer] picks,
    and the coverage changes in a key range. *)

From S2P Require Import Prelude Text Loops OrdMaps Lsns Keys KeysFacts Shards KeySpaces KeySpaceFacts.
From S2P Require Import LayerCoverage HistoricCoverage LayerMaps.
Local Open Scope Z_scope.

(** * Choosing a layer *)

Definition image_ok (l : PersistentLayerDesc) : Prop :=
  pd_is_delta l = false ∧ 0 ≤ r_start (pd_lsn_range l) < 2 ^ 64 - 1 ∧
  r_end (pd_lsn_range l) = r_start (pd_lsn_range l) + 1.
Definition delta_ok (l : PersistentLayerDesc) : Prop :=
  pd_is_delta l = true ∧ r_start (pd_lsn_range l) < r_end (pd_lsn_range l).

(** The candidates of a search below [end_lsn]; flushed deltas end where the
    in-memory layers start. *)
Record candidates_ok (delta image : option PersistentLayerDesc) (inmem : option InMemoryLayerDesc) (end_lsn : Z) : Prop := {
  co_delta d : delta = Some d → delta_ok d ∧ r_start (pd_lsn_range d) < end_lsn;
  co_image i : image = Some i → image_ok i ∧ r_start (pd_lsn_range i) < end_lsn;
  co_inmem m : inmem = Some m → r_start (imd_lsn_range m) < r_end (imd_lsn_range m) ∧ r_start (imd_lsn_range m) < end_lsn;
  co_flushed d m : delta = Some d → inmem = Some m → r_end (pd_lsn_range d) ≤ r_start (imd_lsn_range m)
}.

(** The layer covers the key down to [floor]: the delta and the in-memory layer
    that were not chosen have nothing in [floor..end_lsn], and an image that was
    not chosen is below [floor]. *)
Definition nothing_skipped (delta image : option PersistentLayerDesc) (inmem : option InMemoryLayerDesc)
    (end_lsn : Z) (r : SearchResult) : Prop :=
  match sr_layer r with
  | PersistentLayer l =>
      if pd_is_delta l then
        delta = Some l ∧ inmem = None ∧ r_start (pd_lsn_range l) ≤ lsn_floor r ∧
        (∀ i, image = Some i → r_start (pd_lsn_range i) < lsn_floor r)
      else
        image = Some l ∧ lsn_floor r = r_start (pd_lsn_range l) ∧
        (lsn_floor r + 1 = end_lsn ∨
         (∀ d, delta = Some d → r_end (pd_lsn_range d) ≤ lsn_floor r + 1) ∧
         (∀ m, inmem = Some m → r_end (imd_lsn_range m) ≤ lsn_floor r + 1))
  | InMemory m =>
      inmem = Some m ∧ r_start (imd_lsn_range m) ≤ lsn_floor r ∧
      (∀ d, delta = Some d → r_end (pd_lsn_range d) ≤ lsn_floor r) ∧
      (∀ i, image = Some i → r_start (pd_lsn_range i) < lsn_floor r)
  end.

Lemma lsn_add_one l : 0 ≤ l < 2 ^ 64 - 1 → Lsn.add l 1 = Ok (l + 1).
Proof. intros Hl. unfold Lsn.add, checked_add. by rewrite (proj2 (Z.ltb_lt _ _)) by lia. Qed.

Lemma select_delta_image_spec d i e :
  r_start (pd_lsn_range d) < e → image_ok i → r_start (pd_lsn_range i) < e →
  (select_delta_image d i e = Ok (persistent i (r_start (pd_lsn_range i))) ∧
     (r_start (pd_lsn_range i) + 1 = e ∨ r_end (pd_lsn_range d) ≤ r_start (pd_lsn_range i) + 1)) ∨
  (select_delta_image d i e =
     Ok (persistent d (Z.max (r_start (pd_lsn_range d)) (r_start (pd_lsn_range i) + 1))) ∧
     r_start (pd_lsn_range i) + 1 < e).
Proof.
  intros Hd (_ & Hi & Hie) Hi3. unfold select_delta_image. rewrite lsn_add_one by lia. cbn -[Z.pow].
  destruct (_ || _) eqn:E; [left|right]; (split; [done|lia]).
Qed.

Lemma select_image_inmem_spec i m e :
  image_ok i → r_start (pd_lsn_range i) < e → r_start (imd_lsn_range m) < e →
  (select_image_inmem i m e = Ok (persistent i (r_start (pd_lsn_range i))) ∧
     (r_start (pd_lsn_range i) + 1 = e ∨ r_end (imd_lsn_range m) ≤ r_start (pd_lsn_range i) + 1)) ∨
  (select_image_inmem i m e =
     Ok (in_memory m (Z.max (r_start (imd_lsn_range m)) (r_start (pd_lsn_range i) + 1))) ∧
     r_start (pd_lsn_range i) + 1 < e).
Proof.
  intros (_ & Hi & Hie) Hi3 Hm. unfold select_image_inmem. rewrite lsn_add_one by lia. cbn -[Z.pow].
  destruct (_ || _) eqn:E; [left|right]; (split; [done|lia]).
Qed.

Lemma select_delta_inmem_spec d m e :
  r_end (pd_lsn_range d) ≤ r_start (imd_lsn_range m) → r_start (imd_lsn_range m) < r_end (imd_lsn_range m) →
  r_start (imd_lsn_range m) < e →
  select_delta_inmem d m e = in_memory m (r_start (imd_lsn_range m)).
Proof.
  intros Hf Hm He. unfold select_delta_inmem. destruct (_ || _) eqn:E; [lia|]. f_equal. lia.
Qed.

(** From well-formed candidates [select_layer] picks a layer, if there is
    one, with a floor strictly below [end_lsn], so that the read path makes
    progress, and without skipping data: everything between the floor and
    [end_lsn] is in the chosen layer, and an image that was not chosen stays
    visible below the floor. *)
Lemma select_layer_progress delta image inmem end_lsn :
  candidates_ok delta image inmem end_lsn →
  match delta, image, inmem with
  | None, None, None => select_layer delta image inmem end_lsn = Ok None
  | _, _, _ => ∃ r, select_layer delta image inmem end_lsn = Ok (Some r) ∧ lsn_floor r < end_lsn ∧
      nothing_skipped delta image inmem end_lsn r
  end.
Proof.
  intros [Hd Hi Hm Hf]. unfold select_layer, nothing_skipped.
  destruct delta as [d|], image as [i|], inmem as [m|];
    try destruct (Hd d eq_refl) as [[Ed Hd1] Hd2]; try destruct (Hi i eq_refl) as [Hio Hi3];
    try destruct (Hm m eq_refl) as [Hm1 Hm2]; try specialize (Hf d m eq_refl eq_refl);
    try pose proof (proj1 Hio) as Ei; cbn -[Z.pow]; rewrite ?Ed, ?Ei; cbn -[Z.pow].
  - destruct (select_delta_image_spec d i end_lsn) as [[-> H1]|[-> H1]]; [done..| |]; cbn -[Z.pow]; rewrite ?Ed, ?Ei.
    + destruct (select_image_inmem_spec i m end_lsn) as [[-> H2]|[-> H2]]; [done..| |]; cbn -[Z.pow];
        eexists; (split; [done|]); cbn -[Z.pow]; rewrite ?Ei.
      * split; [lia|]. split; [done|]. split; [lia|]. 
        destruct H1, H2; [left; lia..|right]. split; intros ? [= <-]; lia.
      * split; [lia|]. split; [done|]. split; [lia|]. split; intros ? [= <-]; lia.
    + rewrite select_delta_inmem_spec by done. cbn -[Z.pow]. eexists. split; [done|]. cbn -[Z.pow].
      split; [lia|]. split; [done|]. split; [lia|]. split; intros ? [= <-]; lia.
  - destruct (select_delta_image_spec d i end_lsn) as [[-> H1]|[-> H1]]; [done..| |]; cbn -[Z.pow];
      eexists; (split; [done|]); cbn -[Z.pow]; rewrite ?Ed, ?Ei.
    + split; [lia|]. split; [done|]. split; [done|]. destruct H1; [by left|right]. split; [intros ? [= <-]; lia|done].
    + split; [lia|]. split; [done|]. split; [done|]. split; [lia|]. intros ? [= <-]. lia.
  - rewrite select_delta_inmem_spec by done. eexists. split; [done|]. cbn -[Z.pow].
    split; [lia|]. split; [done|]. split; [lia|]. split; [intros ? [= <-]; lia|done].
  - eexists. split; [done|]. cbn -[Z.pow]. rewrite Ed. split; [lia|]. split; [done|]. split; [done|]. split; [lia|done].
  - destruct (select_image_inmem_spec i m end_lsn) as [[-> H2]|[-> H2]]; [done..| |]; cbn -[Z.pow];
      eexists; (split; [done|]); cbn -[Z.pow]; rewrite ?Ei.
    + split; [lia|]. split; [done|]. split; [done|]. destruct H2; [by left|right]. split; [done|intros ? [= <-]; lia].
    + split; [lia|]. split; [done|]. split; [lia|]. split; [done|intros ? [= <-]; lia].
  - eexists. split; [done|]. cbn -[Z.pow]. rewrite Ei. split; [lia|]. split; [done|]. split; [done|]. by right.
  - eexists. split; [done|]. cbn -[Z.pow]. split; [lia|]. split; [done|]. split; [lia|done].
  - done.
Qed.

(** * Coverage changes in a range *)

Section ranges.
Context {T : Type → Type} `{RedBlackTreeLaws T} {Value : Type}.
Abbreviation Node := (option (Z * Value)).
Implicit Types (nodes : T Node).

(** Keys of changes: increasing, inside the range. *)
Definition changes_ok {W} (lo hi : Z) (l : list (Z * W)) : Prop :=
  StronglySorted (λ a b, a.1 < b.1) l ∧ Forall (λ e, lo ≤ e.1 < hi) l.

(** A property of the values in force, from the values of the changes. *)
Lemma eval_at {W} (d v : W) l y : StronglySorted (λ a b, a.1 < b.1) l → (y, v) ∈ l → eval d l y = v.
Proof.
  intros Hs. revert d. induction Hs as [|e l _ IH He]; intros d; [by intros ?%not_elem_of_nil|].
  intros [<-|Hin]%elem_of_cons; rewrite eval_cons; [|by apply IH].
  simpl. rewrite Z.leb_refl. apply eval_above. exact He.
Qed.

Lemma eval_forall {W} (P : W → Prop) lo hi d (l : list (Z * W)) :
  changes_ok lo hi l → lo < hi → eval d l lo = d →
  (∀ k, lo ≤ k < hi → P (eval d l k)) ↔ P d ∧ Forall (λ e, P e.2) l.
Proof.
  intros [Hs Hin] Hlt Hd. split.
  - intros Hall. split; [rewrite <-Hd; apply Hall; lia|]. apply Forall_forall. intros [y v] He.
    rewrite Forall_forall in Hin. specialize (Hin _ He). simpl in *. rewrite <-(eval_at d v l y Hs He). by apply Hall.
  - intros [HP Hall] k _. clear Hd Hs Hin. revert d HP. induction Hall as [|e l He _ IH]; intros d HP; [done|].
    rewrite eval_cons. apply IH. by destruct (e.1 <=? k).
Qed.

Lemma changes_ok_fmap {W W'} (f : W → W') lo hi l :
  changes_ok lo hi l → changes_ok lo hi ((λ e : Z * W, (e.1, f e.2)) <$> l).
Proof.
  intros [H1 H2]. split.
  - by apply (StronglySorted_fmap _ (λ a b, a.1 < b.1)).
  - by apply Forall_fmap.
Qed.

Lemma range_changes lo hi nodes :
  lo ≤ hi → changes_ok lo hi (rb_range lo hi nodes) ∧
  ∀ k, lo ≤ k < hi → node_at nodes k = eval (node_at nodes lo) (rb_range lo hi nodes) k.
Proof.
  intros Hle. rewrite rb_range_iter by done. unfold node_at, bt_range.
  pose proof (rb_sorted nodes) as Hwf. split.
  - split.
    + pose proof (bt_filter_wf (λ e, kleb lo e.1 && kltb e.1 hi) _ Hwf) as Hf. unfold bt_wf in Hf.
      clear -Hf. induction Hf as [|x l _ IH Hx]; constructor; [done|].
      eapply Forall_impl; [exact Hx|]. intros y. apply klt_Z.
    + apply Forall_forall. intros e [_ He]%List_filter_elem. rewrite kleb_Z, kltb_Z in He. lia.
  - intros k Hk. revert Hwf. generalize (rb_iter nodes). intros l Hwf.
    destruct (bt_split l lo Hwf) as (a & bc & -> & Ha & Hbc).
    pose proof (proj1 (bt_wf_app _ _) Hwf) as (_ & Hwfbc & _).
    destruct (bt_split bc hi Hwfbc) as (b & c & -> & Hb & Hc).
    apply Forall_app in Hbc as [Hbl _]. apply bt_wf_app in Hwfbc as (Hwfb & _ & _).
    assert (List.filter (λ e, kleb lo e.1 && kltb e.1 hi) (a ++ b ++ c) = b) as ->.
    { rewrite !List.filter_app, (filter_false _ a), (filter_true _ b), (filter_false _ c), app_nil_r; [done|..];
        intros e He; rewrite kleb_Z, kltb_Z; rewrite Forall_forall in Ha, Hbl, Hb, Hc.
      - specialize (Hc e He). simpl in Hc. lia.
      - specialize (Hb e He). specialize (Hbl e He). simpl in *. lia.
      - specialize (Ha e He). simpl in Ha. lia. }
    rewrite !eval_app, !(eval_above _ c) by (eapply Forall_impl; [exact Hc|]; simpl; intros; lia).
    rewrite (eval_below None a k lo) by (eapply Forall_impl; [exact Ha|]; simpl; intros; lia).
    set (d := eval None a lo). destruct b as [|[x v] b]; [done|].
    apply bt_wf_cons in Hwfb as [Hxb _]. simpl in Hxb. apply Forall_inv in Hbl. simpl in Hbl.
    destruct (decide (x = lo)) as [->|Hne].
    + rewrite !eval_cons. simpl. by rewrite (proj2 (Z.leb_le lo k)) by lia.
    + rewrite (eval_above d _ lo); [done|]. constructor; [simpl; lia|].
      eapply Forall_impl; [exact Hxb|]. simpl. intros; lia.
Qed.

Lemma query_changes lo hi nodes :
  lo ≤ hi → changes_ok lo hi (LayerCoverage.range (mkRange lo hi) nodes) ∧
  ∀ k, lo ≤ k < hi → LayerCoverage.query k nodes =
    eval (LayerCoverage.query lo nodes) (LayerCoverage.range (mkRange lo hi) nodes) k.
Proof.
  intros Hle. destruct (range_changes lo hi nodes Hle) as [Hok He]. unfold LayerCoverage.range. simpl.
  split; [by apply changes_ok_fmap|]. intros k Hk. rewrite !query_node_at, (He k Hk).
  apply (eval_fmap (λ n : Node, snd <$> n)).
Qed.

Context `{EqDecision Value}.

(** The changes given to the range search, starting from nothing. *)
Lemma range_overlaps_changes lo hi nodes :
  lo < hi → changes_ok lo hi (LayerCoverage.range_overlaps (mkRange lo hi) nodes) ∧
  ∀ k, lo ≤ k < hi → LayerCoverage.query k nodes =
    eval None (LayerCoverage.range_overlaps (mkRange lo hi) nodes) k.
Proof.
  intros Hlt. destruct (query_changes lo hi nodes ltac:(lia)) as [[Hs Hin] He].
  unfold LayerCoverage.range_overlaps. cbn [r_start].
  destruct (LayerCoverage.query lo nodes) as [change|] eqn:Eq; [|by split].
  set (rc := LayerCoverage.range _ nodes) in *. clearbody rc.
  pose proof (He lo ltac:(lia)) as Hlo. rewrite Eq in Hlo. setoid_rewrite eval_cons. cbn [fst snd].
  destruct rc as [|[x v] r].
  { split; [split; repeat constructor; simpl; lia|]. intros k Hk. by rewrite (He k Hk), (proj2 (Z.leb_le lo k)) by lia. }
  apply StronglySorted_cons in Hs as [Hr Hs]. apply Forall_cons in Hin as [Hx Hin]. simpl in Hr, Hx.
  assert (Forall (λ e : Z * option Value, lo < e.1) r) as Hr' by (eapply Forall_impl; [exact Hr|]; simpl; lia).
  assert (Forall (λ e : Z * option Value, lo ≤ e.1 < hi) ((lo, Some change) :: r)) as Hin'
    by (constructor; [simpl; lia|done]).
  assert (v = Some change ∨ lo < x) as Hv.
  { destruct (decide (x = lo)) as [->|]; [left|right; lia]. rewrite eval_cons in Hlo. simpl in Hlo.
    rewrite Z.leb_refl, eval_above in Hlo by (eapply Forall_impl; [exact Hr'|]; simpl; lia). done. }
  simpl (_.2). case_bool_decide as Ev.
  - split; [by split; [constructor|]|]. intros k Hk. rewrite (He k Hk), eval_cons. simpl. subst v.
    rewrite (proj2 (Z.leb_le lo k)) by lia. by destruct (x <=? k).
  - destruct Hv as [|Hv]; [done|]. split.
    + split; [constructor; [by constructor|constructor; [simpl; lia|done]]|by apply Forall_cons; split; [simpl; lia|constructor]].
    + intros k Hk. rewrite (He k Hk). by rewrite (proj2 (Z.leb_le lo k)) by lia.
Qed.
End ranges.
