(* ===== verification/LayerSearch.v ===== *)
(** What the read path may rely on when it looks for a layer: [LayerMap::search]
    returns a layer and a floor such that no other layer of the timeline has data
    for the key between the floor and the LSN of the request; and
    [image_layer_exists] decides whether the images of an LSN range cover a key
    range. *)

From S2P Require Import Prelude Text Loops OrdMaps Lsns Keys KeysFacts Shards KeySpaces KeySpaceFacts.
From S2P Require Import LayerCoverage HistoricCoverage LayerMaps LayerMapUpdates LayerMapFacts.
Local Open Scope Z_scope.

(** * The layers of a timeline *)

Definition desc_ok (d : PersistentLayerDesc) : Prop := if pd_is_delta d then delta_ok d else image_ok d.
Definition covers_key (d : PersistentLayerDesc) (x : Z) : Prop :=
  ∃ k, layer_key_of d = Ok k ∧ r_start (lk_key k) ≤ x < r_end (lk_key k).
Definition in_lsns (r : Range Z) (l : Z) : Prop := r_start r ≤ l < r_end r.

(** Delta layers with a common key have disjoint LSN ranges. *)
Definition deltas_disjoint (A : list PersistentLayerDesc) : Prop :=
  ∀ d d' x, d ∈ A → d' ∈ A → pd_is_delta d = true → pd_is_delta d' = true → d ≠ d' →
    covers_key d x → covers_key d' x → ∀ l, in_lsns (pd_lsn_range d) l → ¬ in_lsns (pd_lsn_range d') l.

Section search.
Context {T : Type → Type} `{RedBlackTreeLaws T}.
Implicit Types (lm : LayerMap.t T) (A : list PersistentLayerDesc) (m : InMemoryLayer).

(** The in-memory layers, oldest first. *)
Definition mem_layers lm : list InMemoryLayer :=
  LayerMap.frozen_layers lm ++ match LayerMap.open_layer lm with Some o => [o] | None => [] end.
Definition mem_at lm (h : InMemoryLayerHandle) : option InMemoryLayer :=
  match h with Open => LayerMap.open_layer lm | Frozen i => LayerMap.frozen_layers lm !! i end.
Definition mem_start m : Z := r_start (InMemoryLayer.get_lsn_range m).
Definition mem_end m : Z := r_end (InMemoryLayer.get_lsn_range m).

(** What the timeline maintains: in-memory layers follow each other, and what
    was flushed is older than all of them. *)
Record layers_ok lm A : Prop := {
  lo_desc : Forall desc_ok A;
  lo_deltas : deltas_disjoint A;
  lo_mem : Forall (λ m, mem_start m < mem_end m) (mem_layers lm);
  lo_mem_order : StronglySorted (λ a b, mem_end a ≤ mem_start b) (mem_layers lm);
  lo_flushed d m : d ∈ A → pd_is_delta d = true → m ∈ mem_layers lm → r_end (pd_lsn_range d) ≤ mem_start m
}.

(** * The in-memory candidate *)

Lemma rfind_frozen_spec below idx l :
  match LayerMap.rfind_frozen below idx l with
  | Some desc => ∃ l1 m l2, l = l1 ++ m :: l2 ∧
      desc = MkInMemoryLayerDesc (Frozen (idx + length l1)) (InMemoryLayer.get_lsn_range m) ∧
      mem_start m < below ∧ Forall (λ o, below ≤ mem_start o) l2
  | None => Forall (λ o, below ≤ mem_start o) l
  end.
Proof.
  revert idx. induction l as [|m l IH]; intros idx; cbn [LayerMap.rfind_frozen]; [constructor|].
  specialize (IH (S idx)). destruct (LayerMap.rfind_frozen below (S idx) l) as [desc|].
  - destruct IH as (l1 & m1 & l2 & -> & -> & Hm & Hl2). exists (m :: l1), m1, l2. split; [done|]. split; [|done].
    simpl. f_equal. f_equal. lia.
  - fold (mem_start m). destruct (Z.ltb_spec (mem_start m) below) as [Hlt|Hge]; [|by constructor].
    exists [], m, l. split; [done|]. split; [|done]. simpl. by rewrite Nat.add_0_r.
Qed.

Lemma search_in_memory_spec below lm :
  match LayerMap.search_in_memory_layer below lm with
  | Some desc => ∃ l1 m l2, mem_layers lm = l1 ++ m :: l2 ∧ mem_at lm (handle desc) = Some m ∧
      imd_lsn_range desc = InMemoryLayer.get_lsn_range m ∧
      mem_start m < below ∧ Forall (λ o, below ≤ mem_start o) l2
  | None => Forall (λ o, below ≤ mem_start o) (mem_layers lm)
  end.
Proof.
  unfold LayerMap.search_in_memory_layer, mem_layers.
  assert (∀ post, Forall (λ o, below ≤ mem_start o) post →
    match LayerMap.rfind_frozen below 0 (LayerMap.frozen_layers lm) with
    | Some desc => ∃ l1 m l2, LayerMap.frozen_layers lm ++ post = l1 ++ m :: l2 ∧ mem_at lm (handle desc) = Some m ∧
        imd_lsn_range desc = InMemoryLayer.get_lsn_range m ∧
        mem_start m < below ∧ Forall (λ o, below ≤ mem_start o) l2
    | None => Forall (λ o, below ≤ mem_start o) (LayerMap.frozen_layers lm ++ post) end) as Hfrozen.
  { intros post Hpost. pose proof (rfind_frozen_spec below 0 (LayerMap.frozen_layers lm)) as Hf.
    destruct (LayerMap.rfind_frozen _ _ _) as [desc|]; [|by apply Forall_app].
    destruct Hf as (l1 & m & l2 & El & -> & Hm & Hl2). exists l1, m, (l2 ++ post).
    rewrite El, <-app_assoc. split; [done|]. split; [|split; [done|split; [done|by apply Forall_app]]].
    simpl. rewrite El. by apply list_lookup_middle. }
  destruct (LayerMap.open_layer lm) as [o|] eqn:Eo; [|by apply Hfrozen].
  fold (mem_start o). destruct (Z.ltb_spec (mem_start o) below) as [Hlt|Hge].
  - exists (LayerMap.frozen_layers lm), o, []. simpl. by split_and!.
  - apply Hfrozen. by constructor.
Qed.

(** * The persistent candidates *)

Definition latest lm (img : bool) (L x : Z) : option PersistentLayerDesc :=
  query_at img L x (BufferedHistoricLayerCoverage.historic_coverage (LayerMap.historic lm)).

Lemma get_historic_flushed lm :
  flushed lm → LayerMap.get_historic lm = Ok (BufferedHistoricLayerCoverage.historic_coverage (LayerMap.historic lm)).
Proof. intros E. unfold LayerMap.get_historic, BufferedHistoricLayerCoverage.get. by rewrite E. Qed.

Lemma search_select lm key x end_lsn :
  flushed lm → Key.to_i128 key = Ok x → 1 ≤ end_lsn < 2 ^ 64 →
  LayerMap.search key end_lsn lm =
    select_layer (latest lm false (end_lsn - 1) x) (latest lm true (end_lsn - 1) x)
      (LayerMap.search_in_memory_layer end_lsn lm) end_lsn.
Proof.
  intros Hf Hx He. unfold LayerMap.search, latest, query_at, wrapping_sub.
  rewrite get_historic_flushed, wrap_small by (done || unfold in_u; lia). cbn [mbind result_bind].
  destruct (HistoricLayerCoverage.get_version _ _) as [version|]; [by rewrite Hx|].
  by destruct (LayerMap.search_in_memory_layer _ _).
Qed.

(** The latest image (or delta) of a key, in terms of the layers. *)
Definition latest_of A (img : bool) (L x : Z) (r : option PersistentLayerDesc) : Prop :=
  match r with
  | Some d => d ∈ A ∧ pd_is_delta d = negb img ∧ covers_key d x ∧ r_start (pd_lsn_range d) ≤ L ∧
      ∀ d', d' ∈ A → pd_is_delta d' = negb img → covers_key d' x → r_start (pd_lsn_range d') ≤ L →
        r_end (pd_lsn_range d') ≤ r_end (pd_lsn_range d)
  | None => ∀ d', d' ∈ A → pd_is_delta d' = negb img → covers_key d' x → L < r_start (pd_lsn_range d')
  end.

Lemma layer_key_of_fields d k :
  layer_key_of d = Ok k → lk_lsn k = pd_lsn_range d ∧ is_image k = negb (pd_is_delta d).
Proof.
  unfold layer_key_of, mbind, result_bind. destruct (Key.to_i128 _); [|done..].
  destruct (Key.to_i128 _); [|done..]. by intros [= <-].
Qed.

Lemma covers_desc d k img L x :
  layer_key_of d = Ok k →
  covers img L x k ↔ pd_is_delta d = negb img ∧ r_start (pd_lsn_range d) ≤ L ∧ covers_key d x.
Proof.
  intros Ek. destruct (layer_key_of_fields d k Ek) as [El Ei]. unfold covers, covers_key. rewrite El, Ei. split.
  - intros (H1 & H2 & H3). split; [by destruct (pd_is_delta d), img|]. split; [done|]. by exists k.
  - intros (-> & H2 & k' & E' & H3). rewrite Ek in E'. simplify_eq. split; [by destruct img|done].
Qed.

Lemma latest_spec lm A img L x : represents lm A → flushed lm → latest_of A img L x (latest lm img L x).
Proof.
  intros Hr Hf. pose proof (rp_inv _ _ Hr) as [Hl _ Hlo _ Hh].
  assert (∀ k d, (k, d) ∈ BufferedHistoricLayerCoverage.layers (LayerMap.historic lm) ↔ d ∈ A ∧ layer_key_of d = Ok k) as Hel.
  { intros k d. rewrite <-(rp_holds _ _ Hr). unfold holds. unfold flushed in Hf. rewrite Hf.
    setoid_rewrite elem_of_nil. tauto. }
  pose proof (query_at_latest _ _ img L x Hh Hlo) as Hq. unfold latest. destruct (query_at _ _ _ _) as [d|]; simpl in *.
  - destruct Hq as (k & [Hd Ek]%Hel & Hc & Hmax). pose proof (proj1 (covers_desc d k img L x Ek) Hc) as (E1 & E2 & E3).
    split_and!; try done. intros d' Hd' E1' E3' E2'. destruct (rp_keys _ _ Hr d' Hd') as (k' & Ek' & _).
    destruct (layer_key_of_fields _ _ Ek) as [<- _]. destruct (layer_key_of_fields _ _ Ek') as [<- _].
    apply (Hmax k' d'); [by apply Hel|]. by apply (covers_desc d').
  - intros d' Hd' E1' E3'. destruct (rp_keys _ _ Hr d' Hd') as (k' & Ek' & _).
    destruct (Z.ltb_spec L (r_start (pd_lsn_range d'))) as [|Hle]; [done|]. exfalso.
    apply (Hq k' d'); [by apply Hel|]. by apply (covers_desc d').
Qed.

(** * Search *)

(** Nothing of an LSN range is in [from..to]. *)
Definition quiet (r : Range Z) (from to : Z) : Prop := ∀ l, from ≤ l < to → ¬ in_lsns r l.

(** The layer has the key and reaches down to the floor; the only data for the
    key in [floor..end_lsn] is in that layer.  An image is complete at its LSN,
    so that what other layers have at that very LSN does not matter. *)
Definition search_result_ok lm A (x end_lsn : Z) (r : SearchResult) : Prop :=
  let floor := lsn_floor r in
  floor < end_lsn ∧
  match sr_layer r with
  | PersistentLayer d =>
      let from := if pd_is_delta d then floor else floor + 1 in
      d ∈ A ∧ covers_key d x ∧ r_start (pd_lsn_range d) ≤ floor ∧
      (∀ d', d' ∈ A → covers_key d' x → d' ≠ d → quiet (pd_lsn_range d') from end_lsn) ∧
      (∀ m, m ∈ mem_layers lm → quiet (InMemoryLayer.get_lsn_range m) from end_lsn)
  | InMemory desc => ∃ m,
      mem_at lm (handle desc) = Some m ∧ mem_start m ≤ floor ∧
      (∀ d', d' ∈ A → covers_key d' x → quiet (pd_lsn_range d') floor end_lsn) ∧
      (∀ m', m' ∈ mem_layers lm → m' ≠ m → quiet (InMemoryLayer.get_lsn_range m') floor end_lsn)
  end.

(** The candidate of the in-memory layers, in terms of the layers. *)
Definition mem_candidate lm (end_lsn : Z) (r : option InMemoryLayerDesc) : Prop :=
  match r with
  | Some desc => ∃ m, m ∈ mem_layers lm ∧ mem_at lm (handle desc) = Some m ∧
      imd_lsn_range desc = InMemoryLayer.get_lsn_range m ∧ mem_start m < end_lsn ∧
      ∀ m', m' ∈ mem_layers lm → m' ≠ m → mem_end m' ≤ mem_start m ∨ end_lsn ≤ mem_start m'
  | None => ∀ m, m ∈ mem_layers lm → end_lsn ≤ mem_start m
  end.

Lemma mem_candidate_spec lm A end_lsn :
  layers_ok lm A → mem_candidate lm end_lsn (LayerMap.search_in_memory_layer end_lsn lm).
Proof.
  intros Hl. pose proof (search_in_memory_spec end_lsn lm) as Hs.
  destruct (LayerMap.search_in_memory_layer end_lsn lm) as [desc|]; simpl; [|by apply Forall_forall].
  destruct Hs as (l1 & m & l2 & El & Hat & Er & Hm & Hl2). pose proof (lo_mem_order _ _ Hl) as Ho.
  rewrite El in Ho |- *. exists m. split; [apply elem_of_app; right; constructor|]. split_and!; try done.
  intros m' [H'|[->|H']%elem_of_cons]%elem_of_app Hne; [left|done|right].
  - apply StronglySorted_app in Ho as (Ho & _). apply Ho; [done|constructor].
  - rewrite Forall_forall in Hl2. by apply Hl2.
Qed.

Section candidates.
Context lm A (x end_lsn : Z) (delta image : option PersistentLayerDesc) (inmem : option InMemoryLayerDesc).
Context (Hlo : layers_ok lm A).
Context (Hd : latest_of A false (end_lsn - 1) x delta) (Hi : latest_of A true (end_lsn - 1) x image).
Context (Hm : mem_candidate lm end_lsn inmem).

Lemma desc_ok_of d : d ∈ A → desc_ok d.
Proof. pose proof (lo_desc _ _ Hlo) as H'. rewrite Forall_forall in H'. apply H'. Qed.

Lemma found_candidates_ok : candidates_ok delta image inmem end_lsn.
Proof.
  split.
  - intros d ->. destruct Hd as (Hin & Ed & _ & Hs & _). apply desc_ok_of in Hin. unfold desc_ok in Hin.
    rewrite Ed in Hin. split; [done|lia].
  - intros i ->. destruct Hi as (Hin & Ei & _ & Hs & _). apply desc_ok_of in Hin. unfold desc_ok in Hin.
    rewrite Ei in Hin. split; [done|lia].
  - intros m ->. destruct Hm as (m' & Hin & _ & -> & Hs & _). split; [|done].
    pose proof (lo_mem _ _ Hlo) as Hmem. rewrite Forall_forall in Hmem. apply (Hmem m' Hin).
  - intros d m -> ->. destruct Hd as (Hin & Ed & _). destruct Hm as (m' & Hin' & _ & -> & _).
    by apply (lo_flushed _ _ Hlo d m').
Qed.

(** Layers older than the candidates. *)
Lemma images_below d' from :
  (∀ i, image = Some i → r_start (pd_lsn_range i) < from) → d' ∈ A → covers_key d' x → pd_is_delta d' = false →
  quiet (pd_lsn_range d') from end_lsn.
Proof.
  intros Hb Hin Hc E l Hl [H1 H2]. pose proof (desc_ok_of d' Hin) as Hok. unfold desc_ok in Hok. rewrite E in Hok.
  destruct image as [i|]; simpl in Hi.
  - destruct Hi as (Hin' & Ei & _ & _ & Hmax). specialize (Hmax d' Hin E Hc ltac:(lia)). specialize (Hb i eq_refl).
    pose proof (desc_ok_of i Hin') as Hok'. unfold desc_ok in Hok'. rewrite Ei in Hok'.
    destruct Hok' as (_ & _ & Hok'). lia.
  - specialize (Hi d' Hin E Hc). lia.
Qed.

Lemma deltas_below d' from :
  (∀ d, delta = Some d → r_end (pd_lsn_range d) ≤ from) → d' ∈ A → covers_key d' x → pd_is_delta d' = true →
  quiet (pd_lsn_range d') from end_lsn.
Proof.
  intros Hb Hin Hc E l Hl [H1 H2]. destruct delta as [d|]; simpl in Hd.
  - destruct Hd as (_ & _ & _ & _ & Hmax). specialize (Hmax d' Hin E Hc ltac:(lia)). specialize (Hb d eq_refl). lia.
  - specialize (Hd d' Hin E Hc). lia.
Qed.

Lemma other_deltas_below d d' :
  delta = Some d → d' ∈ A → covers_key d' x → pd_is_delta d' = true → d' ≠ d →
  quiet (pd_lsn_range d') (r_start (pd_lsn_range d)) end_lsn.
Proof.
  intros Ed Hin Hc E Hne l Hl [H1 H2]. rewrite Ed in Hd. destruct Hd as (Hin' & E' & Hc' & _ & Hmax).
  specialize (Hmax d' Hin E Hc ltac:(lia)). 
  eapply (lo_deltas _ _ Hlo d d' x Hin' Hin E' E); [done..| |]; [|split; [exact H1|done]]. split; lia.
Qed.

Lemma mem_below m' from :
  (∀ desc, inmem = Some desc → r_end (imd_lsn_range desc) ≤ from) → m' ∈ mem_layers lm →
  quiet (InMemoryLayer.get_lsn_range m') from end_lsn.
Proof.
  intros Hb Hin l Hl [H1 H2]. destruct inmem as [desc|]; simpl in Hm.
  - destruct Hm as (m & Hin' & _ & Er & Hs & Hother). specialize (Hb desc eq_refl). rewrite Er in Hb.
    pose proof (lo_mem _ _ Hlo) as Hmem. rewrite Forall_forall in Hmem. specialize (Hmem m Hin'). simpl in Hmem.
    unfold mem_start, mem_end in *. destruct (decide (m' = m)) as [->|Hne]; [lia|].
    destruct (Hother m' Hin Hne); lia.
  - specialize (Hm m' Hin). unfold mem_start in Hm. lia.
Qed.

Lemma nothing_skipped_ok r :
  lsn_floor r < end_lsn → nothing_skipped delta image inmem end_lsn r → search_result_ok lm A x end_lsn r.
Proof.
  intros Hfl Hns. split; [done|]. unfold nothing_skipped in Hns. destruct (sr_layer r) as [d|desc].
  - destruct (pd_is_delta d) eqn:E.
    + destruct Hns as (Ed & Em & Hs & Himg). pose proof Hd as Hd'. rewrite Ed in Hd'. destruct Hd' as (Hin & _ & Hc & _).
      split_and!; try done.
      * intros d' Hin' Hc' Hne. destruct (pd_is_delta d') eqn:E'; [|by apply images_below].
        intros l Hl. apply (other_deltas_below d d'); [done..|lia].
      * intros m Hin'. apply mem_below; [|done]. by rewrite Em.
    + destruct Hns as (Ei & Ef & Hor). pose proof Hi as Hi'. rewrite Ei in Hi'. destruct Hi' as (Hin & _ & Hc & _).
      split_and!; [done|done|lia|..].
      * intros d' Hin' Hc' Hne l Hl. destruct Hor as [Hor|[Hor _]]; [lia|].
        destruct (pd_is_delta d') eqn:E'; revert l Hl; [by apply deltas_below|].
        apply images_below; [|done..]. intros i Ei'. rewrite Ei in Ei'. simplify_eq. lia.
      * intros m Hin' l Hl. destruct Hor as [Hor|[_ Hor]]; [lia|]. revert l Hl. by apply mem_below.
  - destruct Hns as (Em & Hs & Hdelta & Himg). pose proof Hm as Hm'. rewrite Em in Hm'.
    destruct Hm' as (m & Hin & Hat & Er & _ & Hother). exists m. rewrite Er in Hs. split_and!; [done|done|..].
    + intros d' Hin' Hc'. destruct (pd_is_delta d') eqn:E'; [by apply deltas_below|by apply images_below].
    + intros m' Hin' Hne l Hl [H1 H2]. unfold mem_start, mem_end in *. destruct (Hother m' Hin' Hne); lia.
Qed.
End candidates.

Lemma search_spec lm A key x end_lsn :
  represents lm A → flushed lm → layers_ok lm A → Key.to_i128 key = Ok x → 1 ≤ end_lsn < 2 ^ 64 →
  ∃ o, LayerMap.search key end_lsn lm = Ok o ∧
    match o with
    | Some r => search_result_ok lm A x end_lsn r
    | None => (∀ d, d ∈ A → covers_key d x → end_lsn ≤ r_start (pd_lsn_range d)) ∧
              (∀ m, m ∈ mem_layers lm → end_lsn ≤ mem_start m)
    end.
Proof.
  intros Hr Hf Hlo Hx He. rewrite (search_select lm key x) by done.
  pose proof (latest_spec lm A false (end_lsn - 1) x Hr Hf) as Hd.
  pose proof (latest_spec lm A true (end_lsn - 1) x Hr Hf) as Hi. pose proof (mem_candidate_spec lm A end_lsn Hlo) as Hm.
  set (delta := latest lm false _ x) in *. set (image := latest lm true _ x) in *.
  set (inmem := LayerMap.search_in_memory_layer end_lsn lm) in *. clearbody delta image inmem.
  pose proof (select_layer_progress _ _ _ _ (found_candidates_ok _ _ _ _ _ _ _ Hlo Hd Hi Hm)) as Hp.
  assert ((∃ r, select_layer delta image inmem end_lsn = Ok (Some r) ∧ lsn_floor r < end_lsn ∧
      nothing_skipped delta image inmem end_lsn r) ∨
    select_layer delta image inmem end_lsn = Ok None ∧ delta = None ∧ image = None ∧ inmem = None)
    as [(r & -> & Hfl & Hns)|(-> & -> & -> & ->)]
    by (destruct delta, image, inmem; first [by left|by right]).
  - eexists. split; [done|]. by eapply nothing_skipped_ok.
  - eexists. split; [done|]. split; [|done]. simpl in Hd, Hi. intros d Hin Hc.
    destruct (pd_is_delta d) eqn:E; [specialize (Hd d Hin E Hc)|specialize (Hi d Hin E Hc)]; lia.
Qed.

(** C30: in a timeline with consistent layers (delta layers of a key disjoint in
    their LSN ranges, in-memory layers after them) [search] does not panic.  If it
    returns a layer, the floor is strictly below the requested LSN, so that the
    read path makes progress, and no other layer of the timeline, persistent or
    in memory, has data for the key between the floor and the requested LSN.  If
    it returns nothing, no layer has data for the key below the requested LSN. *)
Theorem search_complete lm A key x end_lsn :
  represents lm A → flushed lm → layers_ok lm A → Key.to_i128 key = Ok x → 1 ≤ end_lsn < 2 ^ 64 →
  ∃ o, LayerMap.search key end_lsn lm = Ok o ∧
    match o with
    | Some r => search_result_ok lm A x end_lsn r
    | None => (∀ d, d ∈ A → covers_key d x → end_lsn ≤ r_start (pd_lsn_range d)) ∧
              (∀ m, m ∈ mem_layers lm → end_lsn ≤ mem_start m)
    end.
Proof. apply search_spec. Qed.

(** for a key range that is not empty [image_layer_exists] answers whether
    every key of the range is covered by an image layer with an LSN in the given
    range. *)
Theorem image_layer_exists_correct lm A key lsn lo hi :
  represents lm A → flushed lm → Forall desc_ok A →
  Key.to_i128 (r_start key) = Ok lo → Key.to_i128 (r_end key) = Ok hi → lo < hi →
  Key.range_is_empty key = false → 1 ≤ r_end lsn < 2 ^ 64 →
  ∃ b, LayerMap.image_layer_exists key lsn lm = Ok b ∧
    (b = true ↔ ∀ x, lo ≤ x < hi → ∃ d, d ∈ A ∧ pd_is_delta d = false ∧ covers_key d x ∧
       r_start lsn ≤ r_start (pd_lsn_range d) < r_end lsn).
Proof.
  intros Hr Hf Hok Elo Ehi Hlt Hne Hend. set (L := r_end lsn - 1).
  assert (∀ x, LayerMap.layer_covers (r_start lsn) (latest lm true L x) = true ↔
    ∃ d, d ∈ A ∧ pd_is_delta d = false ∧ covers_key d x ∧ r_start lsn ≤ r_start (pd_lsn_range d) < r_end lsn) as Hx.
  { intros x. pose proof (latest_spec lm A true L x Hr Hf) as Hl. rewrite Forall_forall in Hok.
    assert (∀ d, d ∈ A → pd_is_delta d = false → r_end (pd_lsn_range d) = r_start (pd_lsn_range d) + 1) as Hone.
    { intros d Hin E. specialize (Hok d Hin). unfold desc_ok in Hok. rewrite E in Hok. apply Hok. }
    destruct (latest lm true L x) as [i|]; simpl in *.
    - destruct Hl as (Hin & Ei & Hc & HsL & Hmax). rewrite Z.leb_le. split.
      + intros Hs. exists i. split_and!; try done; lia.
      + intros (d & Hin' & Ed & Hc' & Hs1 & Hs2). specialize (Hmax d Hin' Ed Hc' ltac:(lia)).
        rewrite !Hone in Hmax by done. lia.
    - split; [done|]. intros (d & Hin' & Ed & Hc' & Hs1 & Hs2). specialize (Hl d Hin' Ed Hc'). lia. }
  unfold LayerMap.image_layer_exists. rewrite Hne, get_historic_flushed by done. cbn [mbind result_bind].
  unfold wrapping_sub. rewrite wrap_small by (unfold in_u; lia). fold L. setoid_rewrite <-Hx. clear Hx.
  unfold latest, query_at. destruct (HistoricLayerCoverage.get_version L _) as [version|].
  - rewrite Elo, Ehi. cbn [mbind result_bind select].
    set (P := λ l, LayerMap.layer_covers (r_start lsn) l = true). set (nodes := image_coverage version).
    destruct (query_changes lo hi nodes ltac:(lia)) as [Hch He].
    assert (∀ x, lo ≤ x < hi → P (LayerCoverage.query x nodes) ↔ P (eval (LayerCoverage.query lo nodes)
      (LayerCoverage.range (mkRange lo hi) nodes) x)) as HP by (intros x Hx; by rewrite (He x Hx)).
    pose proof (eval_forall P lo hi _ _ Hch Hlt (eq_sym (He lo ltac:(lia)))) as Hall.
    assert (Forall (λ e, P e.2) (LayerCoverage.range (mkRange lo hi) nodes) ↔
      forallb (λ change, LayerMap.layer_covers (r_start lsn) change.2) (LayerCoverage.range (mkRange lo hi) nodes) = true)
      as Hb by (rewrite forallb_forall, Forall_forall; by setoid_rewrite list_elem_of_In).
    destruct (LayerMap.layer_covers (r_start lsn) (LayerCoverage.query lo nodes)) eqn:E0; simpl.
    + eexists. split; [done|]. rewrite <-Hb. split.
      * intros HF x Hx. apply HP; [done|]. by apply Hall.
      * intros HF. apply Hall. intros k Hk. by apply HP, HF.
    + exists false. split; [done|]. split; [done|]. intros HF. exfalso. specialize (HF lo ltac:(lia)). congruence.
  - exists false. split; [done|]. split; [done|]. intros Hall. by specialize (Hall lo ltac:(lia)).
Qed.
End search.

Lemma example_layers_eq : example_layers =
  [example_l0 (mkRange 20 30); example_desc false (mkRange 0 9) (mkRange 12 13)].
Proof. by vm_compute. Qed.

Lemma example_descs_ok : Forall desc_ok example_layers.
Proof. rewrite example_layers_eq. repeat constructor; simpl; lia. Qed.

Lemma example_layers_ok : layers_ok example_lm example_layers.
Proof.
  split; [apply example_descs_ok|..]; rewrite ?example_layers_eq.
  - intros d d' x. rewrite !elem_of_cons, !elem_of_nil.
    intros [->|[->|[]]] [->|[->|[]]] E E' Hne; first [by destruct Hne|discriminate E|discriminate E'].
  - by repeat constructor; vm_compute.
  - by repeat constructor; vm_compute.
  - intros d m. rewrite !elem_of_cons, elem_of_nil. intros Hd Ed Hm.
    assert (mem_start m = 30) as -> by
      (apply (proj1 (list_elem_of_singleton m (MkInMemoryLayer 1 30 None))) in Hm; by subst).
    destruct_or? Hd; subst; simpl; lia.
Qed.

Lemma example_search k x end_lsn :
  Key.to_i128 k = Ok x → 1 ≤ end_lsn < 2 ^ 64 → ∃ o, LayerMap.search k end_lsn example_lm = Ok o.
Proof.
  intros Ek He. destruct (search_spec example_lm example_layers k x end_lsn) as (o & E & _);
    [apply example_lm_represents|apply example_lm_represents|apply example_layers_ok|done|done|by exists o].
Qed.

Lemma search_complete_witness :
  ∃ o, LayerMap.search (Key.from_i128 3) 25 example_lm = Ok o ∧
    match o with
    | Some r => search_result_ok example_lm example_layers 3 25 r
    | None => (∀ d, d ∈ example_layers → covers_key d 3 → 25 ≤ r_start (pd_lsn_range d)) ∧
              (∀ m, m ∈ mem_layers example_lm → 25 ≤ mem_start m)
    end.
Proof.
  apply (search_complete example_lm example_layers (Key.from_i128 3) 3 25);
    [apply example_lm_represents|apply example_lm_represents|apply example_layers_ok|by vm_compute|lia].
Defined.

Lemma image_layer_exists_correct_witness :
  let key := mkRange (Key.from_i128 2) (Key.from_i128 9) in
  ∃ b, LayerMap.image_layer_exists key (mkRange 10 20) example_lm = Ok b ∧
    (b = true ↔ ∀ x, 2 ≤ x < 9 → ∃ d, d ∈ example_layers ∧ pd_is_delta d = false ∧ covers_key d x ∧
       10 ≤ r_start (pd_lsn_range d) < 20).
Proof.
  intros key. apply (image_layer_exists_correct example_lm example_layers key (mkRange 10 20) 2 9);
    [apply example_lm_represents|apply example_lm_represents|apply example_descs_ok|by vm_compute|by vm_compute|
     lia|by vm_compute|simpl; lia].
Defined.
