(* ===== verification/RangeSearchFacts.v ===== *)
(** Facts about the searches over a key range: [range_search] agrees with
    [search] at every key; [image_layer_exists] and [image_coverage] describe
    the latest images of the range. *)

From S2P Require Import Prelude Text Loops OrdMaps Lsns Keys KeysFacts Shards KeySpaces KeySpaceFacts.
From S2P Require Import LayerCoverage HistoricCoverage LayerMaps LayerMapUpdates LayerMapFacts LayerSearch.
Local Open Scope Z_scope.

(** * Keys as integers *)

Abbreviation key_of := Key.from_i128.
Definition i128 (x : Z) : Prop := 0 ≤ x < 2 ^ 127.

Lemma key_of_lt x y : i128 x → i128 y → Key.ltb (key_of x) (key_of y) = (x <? y).
Proof.
  intros [Hx Ex]%from_i128_val [Hy Ey]%from_i128_val. unfold Key.ltb.
  rewrite cmp_compact_Z by done. rewrite Ex, Ey. unfold Z.ltb. by destruct (x ?= y).
Qed.

Lemma key_of_le x y : i128 x → i128 y → Key.leb (key_of x) (key_of y) = (x <=? y).
Proof.
  intros Hx Hy. unfold Key.leb. rewrite key_of_lt by done. lia.
Qed.

Lemma key_of_range x y z :
  i128 x → i128 y → i128 z → in_range (mkRange (key_of x) (key_of y)) (key_of z) ↔ x ≤ z < y.
Proof.
  intros Hx Hy Hz. unfold in_range, key_le, key_lt. simpl. rewrite key_of_le, key_of_lt by done. lia.
Qed.

Lemma compactable_key_of k :
  compactable k → ∃ x, i128 x ∧ k = key_of x ∧ Key.to_i128 k = Ok x.
Proof.
  intros Hk. assert (Key.is_i128_representable k = true) as Hr
    by (destruct Hk as (_ & _ & ?); unfold Key.is_i128_representable; lia).
  destruct (to_i128_val k (proj1 Hk) Hr) as [E B]. rewrite truncated_id in * by done.
  exists (compact_Z k). split; [done|]. split; [|done].
  destruct (from_i128_val _ B) as [Hc Hv]. by apply compact_Z_inj.
Qed.

Lemma key_of_compactable x : i128 x → compactable (key_of x).
Proof. by intros [? _]%from_i128_val. Qed.

Lemma to_key_of x : i128 x → Key.to_i128 (key_of x) = Ok x.
Proof.
  intros Hx. destruct (compactable_key_of (key_of x)) as (y & Hy & E & ->); [by apply key_of_compactable|].
  destruct (from_i128_val x Hx) as [_ <-]. destruct (from_i128_val y Hy) as [_ <-]. by rewrite <-E.
Qed.

(** * The results collected so far *)

Definition has (found : RangeSearchCollector.Found) (r : SearchResult) (k : Key) : Prop :=
  ∃ acc, (r, acc) ∈ found ∧ mem (KeySpaceAccum.to_keyspace acc) k.

Lemma has_nil r k : has [] r k ↔ False.
Proof. split; [|done]. intros (acc & H & _). by apply not_elem_of_nil in H. Qed.

Lemma has_cons r' acc found r k :
  has ((r', acc) :: found) r k ↔ r = r' ∧ mem (KeySpaceAccum.to_keyspace acc) k ∨ has found r k.
Proof. unfold has. setoid_rewrite elem_of_cons. naive_solver. Qed.

(** One accumulator per result, each with the ranges up to [x]. *)
Definition acc_ok (x : Key) (acc : KeySpaceAccum.t) : Prop :=
  ∃ p a, accum_inv p acc a ∧ key_le (r_end p) x.
Definition found_ok (x : Key) (found : RangeSearchCollector.Found) : Prop :=
  NoDup found.*1 ∧ Forall (λ e, acc_ok x e.2) found.

Lemma acc_ok_mono x y acc : key_le x y → acc_ok x acc → acc_ok y acc.
Proof. intros Hxy (p & a & Hinv & Hp). exists p, a. split; [done|]. key_order. Qed.

Lemma found_ok_mono x y found : key_le x y → found_ok x found → found_ok y found.
Proof.
  intros Hxy [Hn Hf]. split; [done|]. eapply Forall_impl; [exact Hf|].
  simpl. intros e. by apply acc_ok_mono.
Qed.

Lemma acc_ok_normal x acc : acc_ok x acc → ks_normal (KeySpaceAccum.to_keyspace acc).
Proof. intros (p & a & [Ho _ Hn] & _). unfold KeySpaceAccum.to_keyspace. by rewrite Ho. Qed.

Lemma acc_ok_below x acc k : acc_ok x acc → mem (KeySpaceAccum.to_keyspace acc) k → key_lt k x.
Proof.
  intros (p & a & [Ho He [Hne Hs]] & Hp). unfold KeySpaceAccum.to_keyspace. rewrite Ho.
  intros [(q & Hq & Hqk)|Hk%mem_singleton]%mem_app.
  - apply StronglySorted_app in Hs as (Hs & _). pose proof (Hs q a Hq ltac:(constructor)) as Hqa.
    unfold apart in Hqa. rewrite Forall_app in Hne. destruct Hne as [_ Hne%Forall_inv]. unfold nonempty in Hne.
    rewrite <-He in Hp. clear - Hqk Hqa Hne Hp. unfold in_range in Hqk. destruct Hqk. key_order.
  - unfold in_range in Hk. rewrite He in Hk. clear - Hk Hp. destruct Hk. key_order.
Qed.

Lemma has_below x found r k : found_ok x found → has found r k → key_lt k x.
Proof.
  intros [_ Hf] (acc & Hin & Hm). eapply acc_ok_below; [|exact Hm].
  rewrite Forall_forall in Hf. apply (Hf _ Hin).
Qed.

Lemma add_first r : nonempty r →
  ∃ acc, KeySpaceAccum.add_range r KeySpaceAccum.new = (Ok tt, acc) ∧ acc_ok (r_end r) acc ∧
    ∀ k, mem (KeySpaceAccum.to_keyspace acc) k ↔ in_range r k.
Proof.
  intros Hr. eexists. split; [done|]. split.
  - exists r, r. split; [split; [done..|]; split; repeat constructor; done|]. key_order.
  - intros k. apply mem_singleton.
Qed.

Lemma add_entry_spec r x y found :
  found_ok x found → key_lt x y →
  ∃ found', RangeSearchCollector.add_entry r (mkRange x y) found = Ok found' ∧ found_ok y found' ∧
    (∀ r', r' ∈ found'.*1 ↔ r' = r ∨ r' ∈ found.*1) ∧
    ∀ r' k, has found' r' k ↔ has found r' k ∨ r' = r ∧ in_range (mkRange x y) k.
Proof.
  intros Hf Hxy. induction found as [|[r1 acc] found IH]; cbn [RangeSearchCollector.add_entry].
  - destruct (add_first (mkRange x y) Hxy) as (acc & -> & Hacc & Hm).
    eexists. split; [done|]. split; [split; [apply NoDup_singleton|by constructor]|]. split.
    + intros r'. cbn. by rewrite elem_of_cons.
    + intros r' k. rewrite has_cons, has_nil, Hm. tauto.
  - destruct Hf as [Hn Hf]. apply Forall_cons in Hf as [Hacc Hf]. apply NoDup_cons in Hn as [Hr1 Hn]. simpl in Hacc, Hr1.
    assert (key_le x y) as Hle by key_order. case_bool_decide as E.
    + subst r1. destruct Hacc as (p & a & Hinv & Hp).
      destruct (add_range_next p acc a (mkRange x y) Hinv Hxy Hp) as (acc' & a' & -> & Hinv' & Hm).
      eexists. split; [done|]. split; [split|split].
      * by constructor.
      * constructor; [|by apply (found_ok_mono x y)]. exists (mkRange x y), a'. split; [done|simpl; key_order].
      * intros r'. cbn. rewrite elem_of_cons. tauto.
      * intros r' k. rewrite !has_cons, Hm. tauto.
    + destruct IH as (found' & -> & [Hn' Hf'] & Hdom & Hh); [by split|]. eexists. split; [done|]. split; [split|split].
      * constructor; [|done]. cbn. intros [->|?]%Hdom; [by apply E|done].
      * constructor; [|done]. by apply (acc_ok_mono x).
      * intros r'. cbn. rewrite !elem_of_cons, Hdom. tauto.
      * intros r' k. rewrite !has_cons, Hh. tauto.
Qed.

(** The ends of the ranges that were added. *)
Definition found_in (P : Key → Prop) (found : RangeSearchCollector.Found) : Prop :=
  Forall (λ e, ks_in P (KeySpaceAccum.to_keyspace e.2)) found.

Lemma add_entry_in P r range found found' : RangeSearchCollector.add_entry r range found = Ok found' →
  P (r_start range) ∧ P (r_end range) → found_in P found → found_in P found'.
Proof.
  revert found'. induction found as [|[r1 acc] found IH]; intros found'; cbn [RangeSearchCollector.add_entry].
  - destruct (KeySpaceAccum.add_range range KeySpaceAccum.new) as [[[]| |] acc] eqn:E; try done. intros [= <-] Hr _.
    constructor; [|constructor]. apply (accum_add_in P range KeySpaceAccum.new); [done..|constructor].
  - case_bool_decide.
    + destruct (KeySpaceAccum.add_range range acc) as [[[]| |] acc'] eqn:E; try done. intros [= <-] Hr [Ha Hf]%Forall_cons.
      constructor; [|done]. by apply (accum_add_in P range acc).
    + destruct (RangeSearchCollector.add_entry r range found) as [f| |]; try done. intros [= <-] Hr [Ha Hf]%Forall_cons.
      constructor; [done|]. by apply IH.
Qed.

(** * The collector *)

Section collector.
Import RangeSearchCollector.
Context (p : Params) (lo hi : Z) (D I : Z → option PersistentLayerDesc).
Context (Hlo : i128 lo) (Hhi : i128 hi) (Hend : r_end (key_range p) = key_of hi).

(** What [search] selects at a key. *)
Definition selected (k : Z) : result unit (option SearchResult) :=
  select_layer (D k) (I k) (in_memory_layer p) (end_lsn p).
Context (Hsel : ∀ k, lo ≤ k < hi → ∃ o, selected k = Ok o).

(** A key at or above the start of the range. *)
Definition from_lo (k : Key) : Prop := compactable k ∧ key_le (key_of lo) k.

Lemma key_of_from_lo x : lo ≤ x ≤ hi → from_lo (key_of x).
Proof.
  unfold i128 in *. intros Hx. split; [apply key_of_compactable; unfold i128; lia|].
  unfold key_le. rewrite key_of_le by (unfold i128; lia). lia.
Qed.

(** The part of the range before [x] is collected. *)
Definition collected (x : Z) (f : Found) : Prop :=
  found_ok (key_of x) f ∧ found_in from_lo f ∧ ∀ k r, lo ≤ k < x → has f r (key_of k) ↔ selected k = Ok (Some r).

(** The changes that are left are at [b] or after it, and give the layers of
    every key from [x] on. *)
Record tracks (b x : Z) (s : t) : Prop := {
  tr_delta : changes_ok b hi (delta_coverage s);
  tr_image : changes_ok b hi (image_coverage s);
  tr_eval k : x ≤ k < hi →
    D k = eval (current_delta s) (delta_coverage s) k ∧ I k = eval (current_image s) (image_coverage s) k
}.

Lemma collected_segment x y f o :
  lo ≤ x → x < y ≤ hi → collected x f → (∀ k, x ≤ k < y → selected k = Ok o) →
  ∃ f', match o with Some r => add_entry r (mkRange (key_of x) (key_of y)) f | None => Ok f end = Ok f' ∧
    collected y f'.
Proof.
  intros Hx Hy (Hok & Hin & Hf) Hc. unfold i128 in *.
  assert (key_lt (key_of x) (key_of y)) as Hxy by (unfold key_lt; rewrite key_of_lt by (unfold i128; lia); lia).
  assert (∀ k r, x ≤ k → k < hi → ¬ has f r (key_of k)) as Hnot.
  { intros k r Hk Hk' Hh. apply (has_below _ _ _ _ Hok) in Hh. unfold key_lt in Hh.
    rewrite key_of_lt in Hh by (unfold i128; lia). lia. }
  destruct o as [r|].
  - destruct (add_entry_spec r _ _ f Hok Hxy) as (f' & E & Hok' & _ & Hh). exists f'. split; [done|].
    split; [done|]. split; [eapply add_entry_in; [exact E| |done]; split; apply key_of_from_lo; lia|].
    intros k r' Hk. rewrite Hh, key_of_range by (unfold i128; lia).
    destruct (Z.ltb_spec k x).
    + rewrite Hf by lia. split; [|by left]. intros [?|[_ ?]]; [done|lia].
    + rewrite (Hc k) by lia. split; [|intros [= <-]; right; split; [done|lia]].
      intros [?%Hnot|[-> _]]; [lia..|done].
  - exists f. split; [done|]. split; [eapply found_ok_mono; [|exact Hok]; key_order|]. split; [done|].
    intros k r' Hk. destruct (Z.ltb_spec k x); [apply Hf; lia|]. rewrite (Hc k) by lia.
    split; [|done]. intros ?%Hnot; lia.
Qed.

(** One range with constant layers. *)
Lemma add_range_spec x y s :
  lo ≤ x → x < y ≤ hi → collected x (found s) →
  (∀ k, x ≤ k < y → D k = current_delta s ∧ I k = current_image s) →
  ∃ f, add_range p (mkRange (key_of x) (key_of y)) s = Ok (set_found f s) ∧ collected y f.
Proof.
  intros Hx Hy Hc Hconst. destruct (Hsel x ltac:(lia)) as [o Ho].
  assert (∀ k, x ≤ k < y → selected k = Ok o) as Ho'.
  { intros k Hk. rewrite <-Ho. unfold selected. destruct (Hconst k Hk) as [-> ->].
    by destruct (Hconst x ltac:(lia)) as [-> ->]. }
  destruct (collected_segment x y (found s) o Hx Hy Hc Ho') as (f & E & Hf). exists f. split; [|done].
  unfold selected in Ho. destruct (Hconst x ltac:(lia)) as [E1 E2]. rewrite E1, E2 in Ho.
  unfold add_range. rewrite Ho. cbn. destruct o as [r|]; [by rewrite E|]. simplify_eq.
  unfold pad_range. destruct (in_memory_layer p) as [m|]; [|by destruct s, (negb _)].
  exfalso. revert Ho. unfold select_layer. clear.
  destruct (current_delta s), (current_image s); cbn; repeat case_match; cbn; intros; simplify_eq;
    unfold mbind, result_bind in *; repeat case_match; simplify_eq.
Qed.

Lemma pad_range_spec x y s :
  lo ≤ x → x ≤ y ≤ hi → collected x (found s) → current_delta s = None → current_image s = None →
  (∀ k, x ≤ k < y → D k = None ∧ I k = None) →
  ∃ f, pad_range p (mkRange (key_of x) (key_of y)) s = Ok (set_found f s) ∧ collected y f.
Proof.
  intros Hx Hy Hc Ed Ei Hnone. destruct (decide (x = y)) as [->|Hne].
  { exists (found s). split; [|done]. unfold pad_range, Key.range_is_empty. cbn.
    rewrite key_of_lt, Z.ltb_irrefl by (unfold i128 in *; lia). by destruct s. }
  destruct (add_range_spec x y s) as (f & E & Hf); [lia..|done|rewrite Ed, Ei; done|].
  exists f. split; [|done]. rewrite <-E. unfold add_range. rewrite Ed, Ei. unfold select_layer. cbn.
  unfold pad_range, Key.range_is_empty. cbn. rewrite key_of_lt, (proj2 (Z.ltb_lt x y)) by (unfold i128 in *; lia).
  by destruct (in_memory_layer p).
Qed.

Definition pending (s : t) : nat := length (delta_coverage s) + length (image_coverage s).

(** Taking the change at [y], if there is one. *)
Definition pop {W} (y : Z) (d : W) (l : list (Z * W)) : W * list (Z * W) :=
  match l with (y', v) :: l' => if y' =? y then (v, l') else (d, l) | [] => (d, l) end.

Lemma pop_spec {W} b y (d : W) l :
  changes_ok b hi l → (∀ e, head l = Some e → y ≤ e.1) →
  changes_ok (y + 1) hi (pop y d l).2 ∧ (∀ k, k < y → eval d l k = d) ∧
  ∀ k, y ≤ k → eval d l k = eval (pop y d l).1 (pop y d l).2 k.
Proof.
  intros [Hs Hin] Hh. destruct l as [|[y' v] l]; [by split; [split; constructor|]|].
  specialize (Hh _ eq_refl). apply StronglySorted_cons in Hs as [Hy Hs]. simpl in Hy, Hh.
  assert (∀ z, z ≤ y' → Forall (λ e : Z * W, z < e.1) l) as Hl
    by (intros; eapply Forall_impl; [exact Hy|]; simpl; lia).
  unfold pop. split; [|split].
  - destruct (Z.eqb_spec y' y) as [Ey|Ey]; simpl.
    + split; [done|]. apply Forall_cons in Hin as [_ Hin]. rewrite Forall_forall in *.
      intros e He. specialize (Hy e He). specialize (Hin e He). simpl in *. lia.
    + split; [by constructor|]. rewrite Forall_forall in *. intros e He. specialize (Hin e He). simpl in Hin.
      apply elem_of_cons in He as [->|He]; simpl in *; [lia|]. specialize (Hy e He). simpl in Hy. lia.
  - intros k Hk. apply eval_above. constructor; [simpl; lia|apply Hl; lia].
  - intros k Hk. destruct (Z.eqb_spec y' y); [|done]. rewrite eval_cons. simpl.
    by rewrite (proj2 (Z.leb_le _ _)) by lia.
Qed.

Definition pop_both (y : Z) (s : t) : t :=
  let d := pop y (current_delta s) (delta_coverage s) in
  let i := pop y (current_image s) (image_coverage s) in
  Mk d.2 i.2 d.1 i.1 (found s).

Lemma pop_both_spec b x y s :
  tracks b x s → x ≤ y < hi →
  (∀ e, head (delta_coverage s) = Some e → y ≤ e.1) → (∀ e, head (image_coverage s) = Some e → y ≤ e.1) →
  tracks (y + 1) y (pop_both y s) ∧ ∀ k, x ≤ k < y → D k = current_delta s ∧ I k = current_image s.
Proof.
  intros [Hd Hi He] Hxy H1 H2. destruct (pop_spec b y (current_delta s) _ Hd H1) as (D1 & D2 & D3).
  destruct (pop_spec b y (current_image s) _ Hi H2) as (I1 & I2 & I3). split; [split; [done..|]|].
  - intros k Hk. simpl. rewrite <-D3, <-I3 by lia. apply He. lia.
  - intros k Hk. destruct (He k ltac:(lia)) as [-> ->]. by rewrite D2, I2 by lia.
Qed.

Lemma choose_pop b s :
  changes_ok b hi (delta_coverage s) → changes_ok b hi (image_coverage s) →
  match choose_next_layer_type s with
  | None => delta_coverage s = [] ∧ image_coverage s = []
  | Some ty => ∃ y, b ≤ y < hi ∧ next_change_at_key ty = key_of y ∧
      (∀ f, advance ty (set_found f s) = Ok (set_found f (pop_both y s))) ∧
      (pending (pop_both y s) < pending s)%nat ∧
      (∀ e, head (delta_coverage s) = Some e → y ≤ e.1) ∧ (∀ e, head (image_coverage s) = Some e → y ≤ e.1)
  end.
Proof.
  intros [_ Hd] [_ Hi]. destruct s as [dc ic cd ci fd].
  unfold choose_next_layer_type, pending, pop_both, pop. simpl in *.
  destruct dc as [|[yd vd] dc], ic as [|[yi vi] ic]; simpl; [done|..];
    try apply Forall_inv in Hd; try apply Forall_inv in Hi; simpl in Hd, Hi.
  - exists yi. rewrite Z.eqb_refl. simpl. split_and!; try done; try lia; intros ? [= <-]; simpl; lia.
  - exists yd. rewrite Z.eqb_refl. simpl. split_and!; try done; try lia; intros ? [= <-]; simpl; lia.
  - destruct (Z.ltb_spec yi yd) as [Hlt|Hge]; [|destruct (Z.ltb_spec yd yi) as [Hlt|Hge']].
    + exists yi. rewrite Z.eqb_refl, (proj2 (Z.eqb_neq yd yi)) by lia. simpl.
      split_and!; try done; try lia; intros ? [= <-]; simpl; lia.
    + exists yd. rewrite Z.eqb_refl, (proj2 (Z.eqb_neq yi yd)) by lia. simpl.
      split_and!; try done; try lia; intros ? [= <-]; simpl; lia.
    + assert (yi = yd) as -> by lia. exists yd. rewrite Z.eqb_refl. simpl.
      split_and!; try done; try lia; intros ? [= <-]; simpl; lia.
Qed.

(** From a change to the end of the range. *)
Lemma collect_loop_spec fuel x s :
  (pending s + 2 ≤ fuel)%nat → lo ≤ x < hi → tracks (x + 1) x s → collected x (found s) →
  ∃ s', collect_loop p fuel (key_of x) s = Some (Ok s') ∧ collected hi (found s').
Proof.
  revert x s. induction fuel as [|fuel IH]; intros x s Hfuel Hx Ht Hc; [lia|].
  pose proof Hlo as Hlo'. pose proof Hhi as Hhi'. unfold i128 in Hlo', Hhi'. cbn [collect_loop]. rewrite Hend.
  rewrite key_of_lt, (proj2 (Z.ltb_lt x hi)) by (unfold i128; lia).
  pose proof (choose_pop (x + 1) s (tr_delta _ _ _ Ht) (tr_image _ _ _ Ht)) as Hch.
  destruct (choose_next_layer_type s) as [ty|].
  - destruct Hch as (y & Hy & -> & Hadv & Hpend & H1 & H2).
    destruct (pop_both_spec _ x y s Ht ltac:(lia) H1 H2) as [Ht' Hconst].
    destruct (add_range_spec x y s) as (f & -> & Hf); [lia..|done|done|]. cbn [mbind result_bind].
    rewrite Hadv. apply (IH y); [unfold pending in *; simpl in *; lia|lia|by destruct Ht'|done].
  - destruct Hch as [E1 E2].
    destruct (add_range_spec x hi s) as (f & -> & Hf); [lia..|done| |].
    + intros k Hk. destruct (tr_eval _ _ _ Ht k Hk) as [-> ->]. by rewrite E1, E2.
    + destruct fuel as [|fuel]; [lia|]. exists (set_found f s). split; [|done].
      cbn [collect_loop]. by rewrite Hend, key_of_lt, Z.ltb_irrefl.
Qed.

Lemma collect_spec s :
  lo < hi → key_range p = mkRange (key_of lo) (key_of hi) → tracks lo lo s →
  current_delta s = None → current_image s = None → found s = [] →
  ∃ f, collect p s = Some (Ok f) ∧ collected hi f.
Proof.
  intros Hlt Ekr Ht Ed Ei Ef. pose proof Hlo as Hlo'. pose proof Hhi as Hhi'. unfold i128 in Hlo', Hhi'.
  assert (collected lo (found s)) as Hc.
  { rewrite Ef. split; [split; constructor|]. split; [constructor|]. intros; lia. }
  pose proof (choose_pop lo s (tr_delta _ _ _ Ht) (tr_image _ _ _ Ht)) as Hch. unfold collect.
  destruct (choose_next_layer_type s) as [ty|].
  - destruct Hch as (y & Hy & -> & Hadv & Hpend & H1 & H2).
    destruct (pop_both_spec _ lo y s Ht ltac:(lia) H1 H2) as [Ht' Hconst]. rewrite Ed, Ei in Hconst.
    rewrite Hend, key_of_le, (proj2 (Z.leb_gt hi y)) by (unfold i128; lia).
    destruct (pad_range_spec lo y s) as (f & E & Hf); [lia..|done|done|done|done|].
    rewrite Ekr. cbn [r_start]. rewrite E. cbn [mbind result_bind]. rewrite Hadv.
    match goal with |- context [collect_loop p ?n _ ?s'] =>
      destruct (collect_loop_spec n y s') as (s2 & -> & Hs2) end;
      [unfold pending in *; simpl in *; lia|lia|by destruct Ht'|done|]. by exists (found s2).
  - destruct Hch as [E1 E2].
    destruct (pad_range_spec lo hi s) as (f & E & Hf); [lia..|done|done|done| |].
    + intros k Hk. destruct (tr_eval _ _ _ Ht k Hk) as [-> ->]. by rewrite E1, E2, Ed, Ei.
    + rewrite Ekr, E. by exists f.
Qed.
End collector.

(** * Range search *)

Section range_search.
Context {T : Type → Type} `{RedBlackTreeLaws T}.
Implicit Types (lm : LayerMap.t T).

(** Everything outside the index: one range, in memory or nowhere. *)
Lemma map_to_in_memory_layer_spec inmem r :
  nonempty r → ∃ f, map_to_in_memory_layer inmem r = Ok f ∧ found_ok (r_end r) f ∧
    (∀ P : Key → Prop, P (r_start r) ∧ P (r_end r) → found_in P f) ∧
    ∀ o k, in_range r k → has f o k ↔ select_layer None None inmem 0 = Ok (Some o).
Proof.
  intros Hr. unfold map_to_in_memory_layer. destruct inmem as [m|].
  - destruct (add_first r Hr) as (acc & E & Hacc & Hm). rewrite E. eexists. split; [done|].
    split; [split; [apply NoDup_singleton|by constructor]|].
    split; [intros P HP; constructor; [|constructor]; apply (accum_add_in P r _ _ E HP); constructor|].
    intros o k Hk. rewrite has_cons, has_nil, Hm. cbn. split; [intros [[-> _]|[]]; done|].
    intros [= ->]. by left.
  - eexists. split; [done|]. split; [split; constructor|]. split; [constructor|]. intros o k _. by rewrite has_nil.
Qed.

(** What the collected key spaces have besides: their ends are keys of the range. *)
Lemma range_search_spec lm kr end_lsn :
  compactable (r_start kr) → compactable (r_end kr) → nonempty kr →
  (∀ k, compactable k → in_range kr k → ∃ o, LayerMap.search k end_lsn lm = Ok o) →
  ∃ found, range_search kr end_lsn lm = Some (Ok found) ∧ NoDup found.*1 ∧
    (∀ r acc, (r, acc) ∈ found → ks_normal (KeySpaceAccum.to_keyspace acc) ∧ ks_in compactable (KeySpaceAccum.to_keyspace acc) ∧
       KeySpaceAccum.to_keyspace acc ≠ [] ∧ ∀ k, mem (KeySpaceAccum.to_keyspace acc) k → in_range kr k) ∧
    ∀ k r, compactable k → in_range kr k →
      (∃ acc, (r, acc) ∈ found ∧ mem (KeySpaceAccum.to_keyspace acc) k) ↔ LayerMap.search k end_lsn lm = Ok (Some r).
Proof.
  intros Hs He Hne Hsearch. destruct kr as [ks ke]; simpl in Hs, He.
  destruct (compactable_key_of ks Hs) as (lo & Hlo & Elo & Tlo).
  destruct (compactable_key_of ke He) as (hi & Hhi & Ehi & Thi). subst ks ke.
  assert (lo < hi) as Hlt by (unfold nonempty, key_lt in Hne; simpl in Hne; rewrite key_of_lt in Hne by done; lia).
  assert (∀ P : Key → Prop, (∀ k, compactable k → in_range (mkRange (key_of lo) (key_of hi)) k → P k) ↔
    ∀ x, lo ≤ x < hi → P (key_of x)) as Hkeys.
  { intros P. unfold i128 in *. split.
    - intros HP x Hx. apply HP; [apply key_of_compactable|apply key_of_range]; unfold i128; lia.
    - intros HP k Hk Hr. destruct (compactable_key_of k Hk) as (x & Hx & -> & _).
      apply HP. by apply key_of_range in Hr. }
  enough (∃ found, range_search (mkRange (key_of lo) (key_of hi)) end_lsn lm = Some (Ok found) ∧
    found_ok (key_of hi) found ∧ found_in (from_lo lo) found ∧
    ∀ x, lo ≤ x < hi → ∀ r, has found r (key_of x) ↔ LayerMap.search (key_of x) end_lsn lm = Ok (Some r))
    as (found & E & [Hn Hf] & Hfi & Hh).
  { exists found. split; [done|]. split; [done|]. split.
    - intros r acc Hin. unfold found_in in Hfi. rewrite Forall_forall in Hf, Hfi. specialize (Hf _ Hin). specialize (Hfi _ Hin).
      simpl in Hf, Hfi. split; [apply (acc_ok_normal _ _ Hf)|]. split; [eapply Forall_impl; [exact Hfi|]; by intros q [[? _] [? _]]|].
      split; [destruct Hf as (p & a & [Ho _ _] & _); unfold KeySpaceAccum.to_keyspace; rewrite Ho; by destruct (KeySpaceAccum.ranges acc)|].
      intros k Hk. split; [|by apply (acc_ok_below _ acc)]. destruct Hk as (q & Hq & Hqk). unfold ks_in in Hfi. rewrite Forall_forall in Hfi.
      destruct (Hfi q Hq) as [[_ Hq1] _]. simpl. rng.
    - intros k r Hk Hr. exact (proj2 (Hkeys (λ k, ∀ r, has found r k ↔ LayerMap.search k end_lsn lm = Ok (Some r))) Hh k Hk Hr r). }
  pose proof (proj1 (Hkeys (λ k, ∃ o, LayerMap.search k end_lsn lm = Ok o)) Hsearch) as Hs'. clear Hkeys Hsearch.
  unfold range_search. unfold LayerMap.search in Hs' |- *. cbn [r_start r_end] in *. rewrite Tlo, Thi.
  set (inmem := LayerMap.search_in_memory_layer end_lsn lm) in *.
  destruct (LayerMap.get_historic lm) as [h| |]; [|by destruct (Hs' lo ltac:(lia)) as [? [=]]..]. cbn [mbind result_bind] in *.
  destruct (HistoricLayerCoverage.get_version _ h) as [version|].
  - set (D x := LayerCoverage.query x (delta_coverage version)).
    set (I x := LayerCoverage.query x (image_coverage version)).
    set (p := RangeSearchCollector.MkParams inmem (mkRange (key_of lo) (key_of hi)) end_lsn).
    assert (∀ x, lo ≤ x < hi → Key.to_i128 (key_of x) = Ok x) as Hto
      by (intros; apply to_key_of; unfold i128 in *; lia).
    destruct (range_overlaps_changes lo hi (delta_coverage version) Hlt) as [Hcd Hed].
    destruct (range_overlaps_changes lo hi (image_coverage version) Hlt) as [Hci Hei].
    set (s := RangeSearchCollector.Mk _ _ None None []).
    destruct (collect_spec p lo hi D I Hlo Hhi eq_refl) with (s := s) as (f & -> & Hok & Hin & Hf); try done.
    + intros x Hx. destruct (Hs' x Hx) as [o Ho]. exists o. rewrite Hto in Ho by done. exact Ho.
    + split; [done..|]. intros k Hk. by rewrite <-Hed, <-Hei.
    + exists f. split; [done|]. split; [done|]. split; [done|]. intros x Hx r. rewrite (Hf x r Hx), (Hto x Hx). done.
  - destruct (map_to_in_memory_layer_spec inmem _ Hne) as (f & -> & Hok & Hin & Hf). exists f.
    split; [done|]. split; [done|]. split; [apply Hin; cbn [r_start r_end]; split; apply (key_of_from_lo lo hi Hlo Hhi); lia|]. intros x Hx r. rewrite Hf by (apply key_of_range; unfold i128 in *; lia).
    by destruct inmem.
Qed.

End range_search.

