(* ===== verification/FileBytes.v ===== *)
(** The bytes of files: parts of byte strings between two positions, and the reads and
    writes of a file at an offset. *)

From S2P Require Import Prelude Text.
Local Open Scope Z_scope.

Definition blen {A} (l : list A) : Z := Z.of_nat (length l).

(** The elements at the positions from [a] to [b]. *)
Definition cut {A} (a b : Z) (l : list A) : list A := take (Z.to_nat (b - a)) (drop (Z.to_nat a) l).

Definition zeros (n : Z) : bytes := replicate (Z.to_nat n) 0.

(** [&l[a..b]] *)
Definition slice_of {E A} (a b : Z) (l : list A) : result E (list A) :=
  if (0 <=? a) && (a <=? b) && (b <=? blen l) then Ok (cut a b l) else Panic.

(** [dst[start..].copy_from_slice(src)] on as many bytes as [src] has. *)
Definition copy_at {E A} (start : Z) (src dst : list A) : result E (list A) :=
  if (0 <=? start) && (start + blen src <=? blen dst)
  then Ok (cut 0 start dst ++ src ++ cut (start + blen src) (blen dst) dst) else Panic.

(** [usize::next_multiple_of] *)
Definition next_multiple_of (n m : Z) : Z := if n mod m =? 0 then n else n + (m - n mod m).

Section cut.
Context {A : Type}.
Implicit Types l : list A.

Lemma blen_nonneg l : 0 ≤ blen l.
Proof. unfold blen. lia. Qed.

Lemma blen_nil : blen (@nil A) = 0.
Proof. done. Qed.

Lemma blen_app l1 l2 : blen (l1 ++ l2) = blen l1 + blen l2.
Proof. unfold blen. rewrite length_app. lia. Qed.

Lemma blen_nil_inv l : blen l = 0 → l = [].
Proof. unfold blen. destruct l; [done|cbn; lia]. Qed.

Lemma blen_cut a b l : 0 ≤ a ≤ b → b ≤ blen l → blen (cut a b l) = b - a.
Proof. unfold blen, cut. intros ??. rewrite length_take, length_drop. lia. Qed.

Lemma blen_cut_le a b l : blen (cut a b l) ≤ Z.max 0 (b - a).
Proof. unfold blen, cut. rewrite length_take. lia. Qed.

Lemma cut_empty a b l : b ≤ a → cut a b l = [].
Proof. unfold cut. intros ?. by replace (Z.to_nat (b - a)) with 0%nat by lia. Qed.

Lemma cut_all b l : blen l ≤ b → cut 0 b l = l.
Proof. unfold blen, cut. intros ?. rewrite take_ge; [done|]. rewrite length_drop. lia. Qed.

Lemma cut_zero l : cut 0 0 l = [].
Proof. by apply cut_empty. Qed.

Lemma cut_whole l : cut 0 (blen l) l = l.
Proof. by apply cut_all. Qed.

Lemma cut_cut a b c d l : 0 ≤ a → 0 ≤ c ≤ d → d ≤ b - a → cut c d (cut a b l) = cut (a + c) (a + d) l.
Proof.
  unfold cut. intros ???. rewrite skipn_firstn_comm, take_take, drop_drop. f_equal; [lia|]. f_equal. lia.
Qed.

Lemma cut_app a b c l : 0 ≤ a ≤ b → b ≤ c → cut a b l ++ cut b c l = cut a c l.
Proof.
  unfold cut. intros ??. replace (Z.to_nat b) with (Z.to_nat a + Z.to_nat (b - a))%nat by lia. rewrite <-drop_drop.
  set (l' := drop (Z.to_nat a) l). replace (Z.to_nat (c - a)) with (Z.to_nat (b - a) + Z.to_nat (c - b))%nat by lia.
  by rewrite take_take_drop.
Qed.

Lemma cut_app_l a b l1 l2 : 0 ≤ a → b ≤ blen l1 → cut a b (l1 ++ l2) = cut a b l1.
Proof.
  unfold cut, blen. intros ??. destruct (decide (b ≤ a)); [by replace (Z.to_nat (b - a)) with 0%nat by lia|].
  rewrite drop_app_le by lia. rewrite take_app_le; [done|]. rewrite length_drop. lia.
Qed.

Lemma cut_app_r a b l1 l2 : blen l1 ≤ a → cut a b (l1 ++ l2) = cut (a - blen l1) (b - blen l1) l2.
Proof.
  unfold cut, blen. intros ?. rewrite drop_app_ge by lia. f_equal; [lia|]. f_equal. lia.
Qed.

(** A part that lies across two strings. *)
Lemma cut_across a b l1 l2 : 0 ≤ a ≤ blen l1 → blen l1 ≤ b → cut a b (l1 ++ l2) = cut a (blen l1) l1 ++ cut 0 (b - blen l1) l2.
Proof.
  intros ??. rewrite <-(cut_app a (blen l1) b) by lia. rewrite cut_app_l by lia. rewrite cut_app_r by lia. do 2 f_equal. lia.
Qed.

Lemma cut_mid l1 l2 l3 : cut (blen l1) (blen l1 + blen l2) (l1 ++ l2 ++ l3) = l2.
Proof.
  rewrite cut_app_r, Z.sub_diag by lia. rewrite cut_app_l by lia. apply cut_all. lia.
Qed.

Lemma cut_split a l : 0 ≤ a ≤ blen l → cut 0 a l ++ cut a (blen l) l = l.
Proof. intros ?. rewrite cut_app by lia. by apply cut_all. Qed.

End cut.

Lemma blen_zeros n : 0 ≤ n → blen (zeros n) = n.
Proof. intros ?. unfold blen, zeros. rewrite length_replicate. lia. Qed.

(** * Files *)

(** [pwrite], which extends the file; what it leaves out before its offset is zero. *)
Definition pwrite (offset : Z) (buf file : bytes) : bytes :=
  match buf with
  | [] => file
  | _ => cut 0 offset (file ++ zeros (offset - blen file)) ++ buf ++ cut (offset + blen buf) (blen file) file
  end.

(** [pread] of exactly this range; [None] at the end of the file. *)
Definition pread_exact (offset len : Z) (file : bytes) : option bytes :=
  if offset + len <=? blen file then Some (cut offset (offset + len) file) else None.

Lemma blen_gap offset (file : bytes) : 0 ≤ offset → offset ≤ blen (file ++ zeros (offset - blen file)).
Proof.
  intros ?. rewrite blen_app. destruct (decide (blen file ≤ offset)); [rewrite blen_zeros by lia; lia|].
  pose proof (blen_nonneg (zeros (offset - blen file))). lia.
Qed.

Lemma blen_front offset (file : bytes) : 0 ≤ offset → blen (cut 0 offset (file ++ zeros (offset - blen file))) = offset.
Proof. intros ?. rewrite blen_cut; [lia|lia|by apply blen_gap]. Qed.

Lemma blen_pwrite offset buf file : 0 ≤ offset → buf ≠ [] → blen (pwrite offset buf file) = Z.max (blen file) (offset + blen buf).
Proof.
  intros ? Hne. unfold pwrite. destruct buf as [|x buf]; [done|]. set (w := x :: buf). pose proof (blen_nonneg w).
  rewrite !blen_app, blen_front by lia. destruct (decide (offset + blen w ≤ blen file)).
  - rewrite blen_cut by lia. lia.
  - rewrite cut_empty by lia. change (blen (@nil Z)) with 0. lia.
Qed.

Lemma pwrite_before offset buf file a b : 0 ≤ a → b ≤ offset → b ≤ blen file → cut a b (pwrite offset buf file) = cut a b file.
Proof.
  intros ???. unfold pwrite. destruct buf as [|x buf]; [done|]. destruct (decide (b ≤ a)); [by rewrite !cut_empty by lia|].
  rewrite cut_app_l by (rewrite ?blen_front; lia).
  rewrite cut_cut by lia. rewrite cut_app_l by lia. by rewrite !Z.add_0_l.
Qed.

Lemma pwrite_inside offset buf file a b : 0 ≤ offset ≤ a → b ≤ offset + blen buf → cut a b (pwrite offset buf file) = cut (a - offset) (b - offset) buf.
Proof.
  intros ??. unfold pwrite. destruct buf as [|x buf]; [change (blen (@nil Z)) with 0 in *; by rewrite !cut_empty by lia|]. set (w := x :: buf) in *.
  pose proof (blen_front offset file) as E. rewrite cut_app_r by lia.
  rewrite E by lia. by rewrite cut_app_l by lia.
Qed.

Lemma pwrite_after offset buf file a b : 0 ≤ offset → offset + blen buf ≤ a → a ≤ b → b ≤ blen file →
  cut a b (pwrite offset buf file) = cut a b file.
Proof.
  intros ????. unfold pwrite. destruct buf as [|x buf]; [done|]. set (w := x :: buf) in *. pose proof (blen_nonneg w).
  pose proof (blen_front offset file) as E. rewrite cut_app_r by lia.
  rewrite E, cut_app_r by lia. rewrite cut_cut by lia. f_equal; lia.
Qed.

(** A write at the end appends. *)
Lemma pwrite_end buf file : pwrite (blen file) buf file = file ++ buf.
Proof.
  unfold pwrite. destruct buf as [|x buf]; [by rewrite app_nil_r|]. set (w := x :: buf). pose proof (blen_nonneg w).
  rewrite Z.sub_diag. unfold zeros at 1. cbn [Z.to_nat replicate]. rewrite app_nil_r, cut_all by lia. rewrite cut_empty by lia. by rewrite app_nil_r.
Qed.

Lemma pread_exact_some offset len file : offset + len ≤ blen file → pread_exact offset len file = Some (cut offset (offset + len) file).
Proof. intros ?. unfold pread_exact. by rewrite (proj2 (Z.leb_le _ _)). Qed.

Lemma slice_of_ok {E A} a b (l : list A) : 0 ≤ a ≤ b → b ≤ blen l → slice_of (E := E) a b l = Ok (cut a b l).
Proof. intros ??. unfold slice_of. by rewrite !(proj2 (Z.leb_le _ _)) by lia. Qed.

Lemma next_multiple_of_spec n m : 0 < m → n ≤ next_multiple_of n m < n + m ∧ next_multiple_of n m mod m = 0.
Proof.
  intros ?. unfold next_multiple_of. pose proof (Z.mod_pos_bound n m). destruct (Z.eqb_spec (n mod m) 0) as [E|E]; [lia|].
  split; [lia|]. replace (n + (m - n mod m)) with ((n / m + 1) * m) by (pose proof (Z.div_mod n m); lia). apply Z_mod_mult.
Qed.

Lemma next_multiple_of_unique n m r : 0 < m → n ≤ r < n + m → r mod m = 0 → r = next_multiple_of n m.
Proof.
  intros ? H1 H2. destruct (next_multiple_of_spec n m) as [H3 H4]; [done|]. apply Z.mod_divide in H2 as [i ->]; [|lia].
  apply Z.mod_divide in H4 as [j H4]; [|lia]. rewrite H4 in *. f_equal. destruct (Z.lt_trichotomy i j) as [?|[?|?]]; nia.
Qed.

Lemma next_multiple_of_le n m c : 0 < m → n ≤ c → c mod m = 0 → next_multiple_of n m ≤ c.
Proof.
  intros ? H1 H2. destruct (next_multiple_of_spec n m) as [H3 H4]; [done|]. apply Z.mod_divide in H2 as [i ->]; [|lia].
  apply Z.mod_divide in H4 as [j H4]; [|lia]. rewrite H4 in *. destruct (Z.lt_trichotomy i j) as [?|[?|?]]; nia.
Qed.

Lemma next_multiple_of_add n m i : 0 < m → next_multiple_of (i * m + n) m = i * m + next_multiple_of n m.
Proof.
  intros ?. destruct (next_multiple_of_spec n m) as [H1 H2]; [done|]. symmetry. apply next_multiple_of_unique; [done|lia|].
  by rewrite Z.add_comm, Z_mod_plus_full.
Qed.

Lemma copy_at_ok {E A} (x src y : list A) dst : blen src = blen y →
  copy_at (E := E) (blen x) src (x ++ y ++ dst) = Ok (x ++ src ++ dst).
Proof.
  intros E1. pose proof (blen_nonneg x). pose proof (blen_nonneg dst). unfold copy_at. rewrite !blen_app, !(proj2 (Z.leb_le _ _)) by lia. cbn [andb]. do 2 f_equal; [|f_equal].
  - rewrite cut_app_l by lia. by apply cut_all.
  - pose proof (blen_nonneg src). rewrite !cut_app_r by lia. replace (blen x + blen src - blen x - blen y) with 0 by lia. apply cut_all. lia.
Qed.

Lemma zeros_add a b : 0 ≤ a → 0 ≤ b → zeros (a + b) = zeros a ++ zeros b.
Proof. intros ??. unfold zeros. rewrite Z2Nat.inj_add by done. apply replicate_add. Qed.

Lemma blen_cut_min {A} a b (l : list A) : 0 ≤ a → blen (cut a b l) = Z.max 0 (Z.min b (blen l) - a).
Proof. intros ?. unfold blen, cut. rewrite length_take, length_drop. lia. Qed.

(** A part of two strings in a row. *)
Lemma cut_two {A} a b (l1 l2 : list A) : 0 ≤ a ≤ b →
  cut a b (l1 ++ l2) = cut a (Z.min b (blen l1)) l1 ++ cut (Z.max a (blen l1) - blen l1) (b - blen l1) l2.
Proof.
  intros [? ?]. pose proof (blen_nonneg l1). destruct (decide (b ≤ blen l1)) as [?|?].
  - rewrite cut_app_l by lia. rewrite Z.min_l by lia. rewrite (cut_empty _ _ l2) by lia. by rewrite app_nil_r.
  - rewrite Z.min_r by lia. destruct (decide (blen l1 ≤ a)).
    + rewrite cut_app_r by lia. rewrite Z.max_l by lia. by rewrite (cut_empty a) by lia.
    + rewrite cut_across by lia. rewrite Z.max_r by lia. by rewrite Z.sub_diag.
Qed.

(** ** What a file has from a position on *)

Definition on_disk (s0 : Z) (file x : bytes) : Prop := blen file ≤ s0 + blen x ∧ cut s0 (s0 + blen x) file = x.

Lemma on_disk_len s0 file x : 0 ≤ s0 → on_disk s0 file x → x ≠ [] → blen file = s0 + blen x.
Proof.
  intros ? [H1 H2] Hne. assert (blen x ≠ 0) by (intros E; by apply Hne, blen_nil_inv). pose proof (blen_nonneg x).
  assert (blen (cut s0 (s0 + blen x) file) = blen x) as E by (by rewrite H2). rewrite blen_cut_min in E by done. lia.
Qed.

Lemma on_disk_cut s0 file x a b : 0 ≤ s0 → on_disk s0 file x → 0 ≤ a ≤ b → b ≤ blen x → cut (s0 + a) (s0 + b) file = cut a b x.
Proof. intros ? [_ H] ??. rewrite <-H. by rewrite cut_cut by lia. Qed.

(** Writing a prefix of what comes next. *)
Lemma on_disk_pwrite s0 file a b k n : 0 ≤ s0 → 0 ≤ k ≤ blen b → 0 ≤ n → on_disk s0 file (a ++ cut 0 k b) →
  on_disk s0 (pwrite (s0 + blen a) (cut 0 n b) file) (a ++ cut 0 (Z.max k (Z.min n (blen b))) b).
Proof.
  intros Hs Hk Hn Hd. set (n' := Z.min n (blen b)). pose proof (blen_nonneg a). pose proof (blen_nonneg b).
  replace (cut 0 n b) with (cut 0 n' b) by (unfold n', cut; rewrite !Z.sub_0_r; destruct (decide (n ≤ blen b));
    [by rewrite Z.min_l by lia|rewrite Z.min_r by lia; unfold blen in *; rewrite !take_ge; [done| |]; rewrite length_drop; lia]).
  assert (0 ≤ n' ≤ blen b) as Hn' by lia. clearbody n'. destruct (decide (n' = 0)) as [->|Hne].
  { rewrite (cut_empty 0 0) by lia. cbn [pwrite]. by rewrite Z.max_l by lia. }
  assert (blen (cut 0 n' b) = n') as En by (rewrite blen_cut by lia; lia). assert (blen (cut 0 k b) = k) as Ek by (rewrite blen_cut by lia; lia).
  assert (cut 0 n' b ≠ []) as Hnil by (intros E; rewrite E in En; change (blen (@nil Z)) with 0 in En; lia).
  assert (blen (cut 0 (Z.max k n') b) = Z.max k n') as Em by (rewrite blen_cut by lia; lia).
  pose proof (proj1 Hd) as Hle. rewrite blen_app, Ek in Hle.
  assert (a ++ cut 0 k b = [] ∨ blen file = s0 + blen a + k) as Hfile.
  { destruct (decide (a ++ cut 0 k b = [])); [by left|right]. rewrite (on_disk_len s0 file _ Hs Hd) by done. rewrite blen_app. lia. }
  assert (blen a = 0 ∧ k = 0 ∨ blen file = s0 + blen a + k) as Hf.
  { destruct Hfile as [E|]; [left|by right]. apply (f_equal blen) in E. rewrite blen_app, Ek in E. change (blen (@nil Z)) with 0 in E. lia. }
  split; rewrite blen_app, Em; [rewrite blen_pwrite by (done || lia); lia|].
  rewrite <-(cut_app s0 (s0 + blen a)) by lia. rewrite <-(cut_app (s0 + blen a) (s0 + blen a + n')) by lia. f_equal.
  - destruct Hf as [[Ea _]|Ef]; [apply blen_nil_inv in Ea as ->; by rewrite cut_empty by (change (blen (@nil Z)) with 0; lia)|].
    rewrite pwrite_before by lia. replace s0 with (s0 + 0) at 1 by lia. rewrite (on_disk_cut _ _ _ 0 (blen a) Hs Hd) by (rewrite ?blen_app; lia).
    rewrite cut_app_l by lia. by apply cut_all.
  - rewrite <-(cut_app 0 n' (Z.max k n') b) by lia. f_equal.
    + rewrite pwrite_inside by lia. replace (s0 + blen a - (s0 + blen a)) with 0 by lia. by apply cut_all; lia.
    + destruct (decide (k ≤ n')); [by rewrite !cut_empty by lia|]. rewrite Z.max_l by lia. destruct Hf as [|Ef]; [lia|].
      rewrite pwrite_after by lia. replace (s0 + blen a + n') with (s0 + (blen a + n')) by lia. replace (s0 + (blen a + k)) with (s0 + (blen a + k)) by lia.
      rewrite (on_disk_cut _ _ _ (blen a + n') (blen a + k) Hs Hd) by (rewrite ?blen_app; lia). rewrite cut_app_r by lia.
      rewrite cut_cut by lia. f_equal; lia.
Qed.

(** The two halves of a part that is known. *)
Lemma cut_halves {A} p (a b l : list A) : 0 ≤ p → cut p (p + blen (a ++ b)) l = a ++ b →
  cut p (p + blen a) l = a ∧ cut (p + blen a) (p + blen a + blen b) l = b.
Proof.
  rewrite blen_app. intros ? H. pose proof (blen_nonneg a). pose proof (blen_nonneg b). split.
  - pose proof (cut_app_l 0 (blen a) a b) as Hl. rewrite <-H, cut_cut, cut_whole, Z.add_0_r in Hl by lia. by apply Hl.
  - pose proof (cut_mid a b []) as Hm. rewrite app_nil_r in Hm. rewrite <-H, cut_cut in Hm by lia. by rewrite <-Z.add_assoc.
Qed.
