(* ===== verification/BufferedWriters.v ===== *)
(** The buffered writer of [pageserver/src/virtual_file/owned_buffers_io/write.rs] with its
    flush task in [write/flush.rs], and the file of an in-memory layer,
    [pageserver/src/tenant/ephemeral_file.rs], which is read while it is written.

    A file is the string of its bytes.  The writer has two buffers: it fills the one while
    the task writes the other.  A request is accepted when the task has given the buffer
    of the request before back, which it does when that request is on disk.  In between
    the task makes attempts ([task_attempt]), which may write a part only.  When the
    timeline is shut down the task stops and leaves its request behind; [cancels] tells
    for each request whether that happened. *)

From S2P Require Import Prelude Text FileBytes.
Local Open Scope Z_scope.

Inductive FlushTaskError := Cancelled.

Module BufferedWriter.
Record t := Mk {
  cap : Z;                             (* of a buffer *)
  maybe_flushed : option bytes;
  mutable : option bytes;
  bytes_submitted : Z;
  in_flight : option (Z * bytes);      (* what the task works on *)
  file : bytes;
  cancels : list bool
}.
Abbreviation W := (M t FlushTaskError).

Definition new (file : bytes) (start_offset cap : Z) (cancels : list bool) : t :=
  Mk cap None (Some []) start_offset None file cancels.

Definition set_mutable b (s : t) : t := Mk (cap s) (maybe_flushed s) b (bytes_submitted s) (in_flight s) (file s) (cancels s).
Definition set_task req f (s : t) : t := Mk (cap s) (maybe_flushed s) (mutable s) (bytes_submitted s) req f (cancels s).
Definition set_cancels c (s : t) : t := Mk (cap s) (maybe_flushed s) (mutable s) (bytes_submitted s) (in_flight s) (file s) c.
(** The buffer becomes a request. *)
Definition submit buf (s : t) : t :=
  Mk (cap s) (Some buf) None (bytes_submitted s + blen buf) (in_flight s) (file s) (cancels s).

(** ** The flush task *)

(** An attempt of the task to write its request, of which [n] bytes reach the disk. *)
Definition task_attempt (n : Z) (self : t) : t :=
  match in_flight self with
  | Some (offset, slice) =>
      set_task (if blen slice <=? n then None else Some (offset, slice)) (pwrite offset (cut 0 n slice) (file self)) self
  | None => self
  end.

Definition task_done (self : t) : t :=
  match in_flight self with Some (_, slice) => task_attempt (blen slice) self | None => self end.

Definition next_cancel (self : t) : bool := match cancels self with c :: _ => c | [] => false end.

(** [FlushHandle::flush] *)
Definition handle_flush (slice : bytes) (offset : Z) : W unit := λ self,
  match next_cancel self, in_flight self with
  | true, Some _ => (Err Cancelled, set_task None (file self) (set_cancels (tail (cancels self)) self))
  | _, _ =>
      let self := task_done (set_cancels (tail (cancels self)) self) in
      (Ok tt, set_task (Some (offset, slice)) (file self) self)
  end.

(** [FlushHandle::shutdown] *)
Definition handle_shutdown (set_len : option Z) : W bytes := λ self,
  if next_cancel self then (Err Cancelled, set_cancels (tail (cancels self)) self)
  else
    let self := task_done (set_cancels (tail (cancels self)) self) in
    let f := match set_len with Some len => cut 0 len (file self ++ zeros (len - blen (file self))) | None => file self end in
    (Ok f, set_task None f self).

(** ** The writer *)

Definition flush : W unit :=
  self ← getS;
  match mutable self with
  | None => liftR Panic
  | Some buf =>
      if blen buf =? 0 then mret tt
      else
        let offset := bytes_submitted self in
        _ ← modifyS (submit buf);
        _ ← handle_flush buf offset;
        modifyS (set_mutable (Some []))
  end.

(** The loop takes a byte at least in every round. *)
Fixpoint write_loop (fuel : nat) (chunk : bytes) : W unit :=
  if blen chunk =? 0 then mret tt
  else
    match fuel with
    | O => liftR Panic
    | S fuel =>
        self ← getS;
        match mutable self with
        | None => liftR Panic
        | Some buf =>
            let n := Z.min (cap self - blen buf) (blen chunk) in
            let buf := buf ++ cut 0 n chunk in
            _ ← modifyS (set_mutable (Some buf));
            _ ← whenM (cap self <=? blen buf) (_ ← assertM (blen buf =? cap self); flush);
            write_loop fuel (cut n (blen chunk) chunk)
        end
    end.

Definition write_buffered_borrowed (chunk : bytes) : W Z :=
  _ ← write_loop (length chunk) chunk;
  mret (blen chunk).

Inductive BufferedWriterShutdownMode := DropTail | ZeroPadToNextMultiple (next_multiple : Z) | PadThenTruncate.

(** [extend_with(0, count)] *)
Definition extend_zeros (count : Z) (buf : bytes) : W unit :=
  self ← getS;
  _ ← assertM (blen buf + count <=? cap self);
  modifyS (set_mutable (Some (buf ++ zeros count))).

(** The final length, and the file. *)
Definition shutdown (mode : BufferedWriterShutdownMode) : W (Z * bytes) :=
  self ← getS;
  match mutable self with
  | None => liftR Panic
  | Some buf =>
      let len := blen buf in
      r ← (match mode with
           | DropTail => _ ← modifyS (set_mutable None); mret (bytes_submitted self, None)
           | ZeroPadToNextMultiple next_multiple =>
               _ ← assertM (len <=? cap self);
               let padded_len := next_multiple_of len next_multiple in
               _ ← assertM (padded_len <=? cap self);
               _ ← extend_zeros (padded_len - len) buf;
               mret (bytes_submitted self + padded_len, None)
           | PadThenTruncate =>
               _ ← assertM (len <=? cap self);
               let padding_end_offset := next_multiple_of len (cap self) in
               _ ← assertM (padding_end_offset <=? cap self);
               let count := padding_end_offset - len in
               _ ← extend_zeros count buf;
               let final_len := bytes_submitted self + len in
               mret (final_len, if 0 <? count then Some final_len else None)
           end);
      let '(final_len, set_len) := r in
      self ← getS;
      _ ← (match mutable self with Some _ => flush | None => mret tt end);
      f ← handle_shutdown set_len;
      mret (final_len, f)
  end.
End BufferedWriter.

(** * Ephemeral files *)

Module EphemeralFile.
Import BufferedWriter.

Definition TAIL_SZ : Z := 64 * 1024.

Inductive EphemeralFileWriteError := WriteCancelled.
Inductive ReadError := DiskError | UnexpectedEof.

Record t := Mk { buffered_writer : BufferedWriter.t; bytes_written : Z }.

Definition create (cancels : list bool) : t := Mk (BufferedWriter.new [] 0 TAIL_SZ cancels) 0.

Definition len (self : t) : Z := bytes_written self.

Definition write_raw (srcbuf : bytes) : M t EphemeralFileWriteError Z := λ self,
  match write_buffered_borrowed srcbuf (buffered_writer self) with
  | (Ok nwritten, writer) =>
      if nwritten =? blen srcbuf
      then (Ok (bytes_written self), Mk writer (wrapping_add 64 (bytes_written self) (blen srcbuf)))
      else (Panic, Mk writer (bytes_written self))
  | (Err Cancelled, writer) => (Err WriteCancelled, Mk writer (bytes_written self))
  | (Panic, writer) => (Panic, Mk writer (bytes_written self))
  end.

Definition range_len (r : Z * Z) : Z := if r.2 <? r.1 then 0 else r.2 - r.1.

Section read.
(** Whether the disk reads a range of the file. *)
Context (disk_reads : Z → Z → bool).

Definition read_exact_at (offset len : Z) (file : bytes) : result ReadError bytes :=
  if disk_reads offset len then of_option UnexpectedEof (pread_exact offset len file) else Err DiskError.

(** The buffer, and how much of it was read. *)
Definition read_exact_at_eof_ok (self : t) (start dst_cap : Z) : result ReadError (bytes * Z) :=
  let dst := zeros dst_cap in
  let writer := buffered_writer self in
  let end_ := Z.min (Z.min (start + dst_cap) (2 ^ 64 - 1)) (bytes_written self) in
  let submitted_offset := bytes_submitted writer in
  let mutable := default [] (mutable writer) in
  let '(written_range, maybe_flushed_range) :=
    match maybe_flushed writer with
    | Some _ => ((start, Z.min end_ (saturating_sub submitted_offset TAIL_SZ)),
                 (Z.max start (saturating_sub submitted_offset TAIL_SZ), Z.min end_ submitted_offset))
    | None => ((start, Z.min end_ submitted_offset), (submitted_offset, 0))
    end in
  let mutable_range := (Z.max start submitted_offset, end_) in
  dst ← (if 0 <? range_len mutable_range then
           let offset_in_buffer := mutable_range.1 - submitted_offset in
           to_copy ← slice_of offset_in_buffer (offset_in_buffer + range_len mutable_range) mutable;
           copy_at (range_len written_range + range_len maybe_flushed_range) to_copy dst
         else Ok dst);
  dst ← (if 0 <? range_len maybe_flushed_range then
           offset_in_buffer ← match checked_sub maybe_flushed_range.1 (saturating_sub submitted_offset TAIL_SZ) with Some n => Ok n | None => Panic end;
           match maybe_flushed writer with
           | Some flushed =>
               to_copy ← slice_of offset_in_buffer (offset_in_buffer + range_len maybe_flushed_range) flushed;
               copy_at (range_len written_range) to_copy dst
           | None => Panic
           end
         else Ok dst);
  dst ← (if 0 <? range_len written_range then
           read ← read_exact_at start (range_len written_range) (file writer);
           copy_at 0 read dst
         else Ok dst);
  Ok (dst, wrapping_sub 64 end_ start).

Definition load_to_io_buf (self : t) : result ReadError bytes :=
  let size := len self in
  r ← read_exact_at_eof_ok self 0 size;
  let '(buf, nread) := r in
  if nread =? size then Ok buf else Panic.
End read.
End EphemeralFile.
