(* ===== verification/BufferedWriterFacts.v ===== *)
(** Facts of the buffered writer and of ephemeral files: the bytes that were written are
    on disk, on their way there or in the buffer, in this order, and a read of an
    ephemeral file puts them together again. *)

From S2P Require Import Prelude Text FileBytes BufferedWriters.
Local Open Scope Z_scope.
Import BufferedWriter.

(** The bytes written: those of [a] are on disk, of the last request [b] the first [k] at
    least, and [m] is in the buffer. *)
Record parts (s0 : Z) (w : t) (a b m : bytes) (k : Z) : Prop := {
  p_start : 0 ≤ s0;
  p_cap : 0 < cap w;
  p_mutable : mutable w = Some m;
  p_submitted : bytes_submitted w = s0 + blen a + blen b;
  p_k : 0 ≤ k ≤ blen b;
  p_disk : on_disk s0 (file w) (a ++ cut 0 k b);
  p_task : in_flight w = None ∧ k = blen b ∨ in_flight w = Some (s0 + blen a, b)
}.

(** All requests are full buffers. *)
Definition full (w : t) (a b : bytes) : Prop :=
  (∃ i, blen a = i * cap w) ∧ (maybe_flushed w = None ∧ a = [] ∧ b = [] ∨ maybe_flushed w = Some b ∧ blen b = cap w).

Lemma full_next w w' a b m : full w a b → cap w' = cap w → maybe_flushed w' = Some m → blen m = cap w → full w' (a ++ b) m.
Proof.
  intros [(i & Ei) H] Ec Ef Em. split; [|right; by rewrite Ec]. rewrite blen_app, Ei, Ec. destruct H as [(_ & _ & ->)|[_ ->]]; [exists i; change (blen (@nil Z)) with 0; lia|exists (i + 1); lia].
Qed.

(** The writer after the task was stopped: of the request [b] only [k] bytes are on disk,
    and [m] took its place in [maybe_flushed]. *)
Record broken (s0 : Z) (w : t) (a b m : bytes) (k : Z) : Prop := {
  br_start : 0 ≤ s0;
  br_mutable : mutable w = None;
  br_submitted : bytes_submitted w = s0 + blen a + blen b + blen m;
  br_flushed : maybe_flushed w = Some m;
  br_k : 0 ≤ k ≤ blen b;
  br_disk : on_disk s0 (file w) (a ++ cut 0 k b);
  br_task : in_flight w = None
}.

Lemma parts_new s0 n f c : 0 ≤ s0 → blen f ≤ s0 → 0 < n → parts s0 (new f s0 n c) [] [] [] 0 ∧ full (new f s0 n c) [] [].
Proof.
  intros ???. change (blen (@nil Z)) with 0 in *. split; [|split; [by exists 0|by left]].
  split; cbn [new cap mutable bytes_submitted file in_flight]; change (blen (@nil Z)) with 0; [done|done|done|lia|lia| |by left].
  rewrite cut_zero. split; cbn [app]; change (blen (@nil Z)) with 0; [lia|]. apply cut_empty. lia.
Qed.

(** The task makes progress. *)
Lemma attempt_parts s0 w a b m k n : parts s0 w a b m k → 0 ≤ n → ∃ k', parts s0 (task_attempt n w) a b m k' ∧ (blen b ≤ n → in_flight (task_attempt n w) = None).
Proof.
  intros Hp Hn. destruct (p_task _ _ _ _ _ _ Hp) as [[E _]|E].
  { exists k. unfold task_attempt. rewrite E. by split. }
  exists (Z.max k (Z.min n (blen b))). unfold task_attempt. rewrite E. destruct Hp. split.
  - split; cbn [set_task cap mutable bytes_submitted file in_flight]; [done..|lia|by apply on_disk_pwrite|].
    destruct (Z.leb_spec (blen b) n); [left; split; [done|lia]|by right].
  - intros ?. cbn. by rewrite (proj2 (Z.leb_le _ _)).
Qed.

Lemma attempt_same n w : cap (task_attempt n w) = cap w ∧ maybe_flushed (task_attempt n w) = maybe_flushed w ∧
  mutable (task_attempt n w) = mutable w ∧ bytes_submitted (task_attempt n w) = bytes_submitted w.
Proof. unfold task_attempt. by destruct (in_flight w) as [[]|]. Qed.

Lemma done_parts s0 w a b m k : parts s0 w a b m k → parts s0 (task_done w) a b m (blen b) ∧ in_flight (task_done w) = None.
Proof.
  intros Hp. unfold task_done. pose proof Hp as Hp'. destruct Hp' as [? ? ? ? ? ? [[E ->]|E]]; rewrite E; [done|].
  destruct (attempt_parts s0 w a b m k (blen b) Hp) as (k' & Hp' & Hi); [apply blen_nonneg|]. specialize (Hi ltac:(lia)).
  split; [|done]. destruct Hp' as [? ? ? ? ? ? [[_ ->]|E']]; [by split; [..|left]|congruence].
Qed.

Lemma set_cancels_parts s0 w a b m k c : parts s0 w a b m k → parts s0 (set_cancels c w) a b m k.
Proof. by intros []. Qed.

Lemma flush_eq w m : mutable w = Some m → m ≠ [] → flush w =
  match handle_flush m (bytes_submitted w) (submit m w) with
  | (Ok _, w') => (Ok tt, set_mutable (Some []) w') | (Err e, w') => (Err e, w') | (Panic, w') => (Panic, w')
  end.
Proof.
  intros Em Hm. unfold flush, mbind, M_bind, getS, modifyS. rewrite Em.
  destruct (Z.eqb_spec (blen m) 0) as [E|_]; [by apply blen_nil_inv in E|]. by destruct (handle_flush m _ _) as [[[]| |] ?].
Qed.

(** A buffer is submitted. *)
Lemma flush_parts s0 w a b m k : parts s0 w a b m k → m ≠ [] →
  match flush w with
  | (Ok _, w') => parts s0 w' (a ++ b) m [] 0 ∧ maybe_flushed w' = Some m ∧ cap w' = cap w
  | (Err Cancelled, w') => broken s0 w' a b m k ∧ cap w' = cap w ∧ in_flight w ≠ None ∧ next_cancel w = true
  | (Panic, _) => False
  end.
Proof.
  intros Hp Hm. pose proof Hp as [? ? Em Es Hk Hd Ht]. rewrite (flush_eq w m Em Hm). unfold handle_flush.
  destruct (done_parts s0 (set_cancels (tail (cancels w)) w) a b m k) as [[_ _ _ _ _ Hd' _] Hi]; [by apply set_cancels_parts|].
  set (w1 := submit m w). assert (∀ w2, w2 = task_done (set_cancels (tail (cancels w1)) w1) →
    parts s0 (set_mutable (Some []) (set_task (Some (bytes_submitted w, m)) (file w2) w2)) (a ++ b) m [] 0 ∧ maybe_flushed w2 = Some m ∧ cap w2 = cap w) as Hok.
  { intros w2 ->. rewrite cut_whole in Hd'. assert (file (task_done (set_cancels (tail (cancels w1)) w1)) = file (task_done (set_cancels (tail (cancels w)) w))) as Ef.
    { unfold task_done, task_attempt. cbn. by destruct (in_flight w) as [[]|]. }
    assert (cap (task_done (set_cancels (tail (cancels w1)) w1)) = cap w ∧ maybe_flushed (task_done (set_cancels (tail (cancels w1)) w1)) = Some m ∧
      bytes_submitted (task_done (set_cancels (tail (cancels w1)) w1)) = bytes_submitted w + blen m) as (Ec & Efl & Esub).
    { unfold task_done, task_attempt. cbn. by destruct (in_flight w) as [[]|]. }
    split; [|done]. pose proof (blen_nonneg m). split; cbn [set_mutable set_task cap mutable bytes_submitted file in_flight].
    - done.
    - by rewrite Ec.
    - done.
    - rewrite Esub, Es, blen_app. lia.
    - lia.
    - by rewrite Ef, cut_zero, app_nil_r.
    - right. rewrite Es, blen_app. do 2 f_equal. lia. }
  destruct (next_cancel w1) eqn:Ec, (in_flight w1) as [p|] eqn:Ei; cbn [mbind M_bind]; try by (destruct (Hok _ eq_refl) as (? & ? & ?)).
  split_and!; [|done| |done].
  - split; cbn; [done..|lia|done|done|done|done].
  - cbn in Ei. by rewrite Ei.
Qed.

Lemma set_mutable_parts s0 w a b m k m' : parts s0 w a b m k → parts s0 (set_mutable (Some m') w) a b m' k.
Proof. by intros []. Qed.

(** What a write leaves: the bytes after those that were there, or a stopped task. *)
Definition written (s0 : Z) (n : Z) (x chunk : bytes) (r : result FlushTaskError unit) (w : t) : Prop :=
  cap w = n ∧ ∃ a b m k,
  match r with
  | Ok _ => parts s0 w a b m k ∧ full w a b ∧ blen m < n ∧ a ++ b ++ m = x ++ chunk
  | Err Cancelled => broken s0 w a b m k ∧ blen m = n ∧ ∃ c1 c2, chunk = c1 ++ c2 ∧ a ++ b ++ m = x ++ c1
  | Panic => False
  end.

(** One round of the loop. *)
Lemma write_round fuel chunk w m : mutable w = Some m → chunk ≠ [] → blen m < cap w →
  write_loop (S fuel) chunk w =
    let n := Z.min (cap w - blen m) (blen chunk) in
    let w1 := set_mutable (Some (m ++ cut 0 n chunk)) w in
    if cap w =? blen m + n then
      match flush w1 with
      | (Ok _, w2) => write_loop fuel (cut n (blen chunk) chunk) w2
      | (Err e, w2) => (Err e, w2) | (Panic, w2) => (Panic, w2)
      end
    else write_loop fuel (cut n (blen chunk) chunk) w1.
Proof.
  intros Em Hne Hm. pose proof (blen_nonneg chunk). pose proof (blen_nonneg m). cbn [write_loop]. destruct (Z.eqb_spec (blen chunk) 0) as [E|_]; [by apply blen_nil_inv in E|].
  unfold mbind, M_bind, getS, modifyS. rewrite Em. cbv zeta. set (n := Z.min (cap w - blen m) (blen chunk)).
  assert (blen (m ++ cut 0 n chunk) = blen m + n) as -> by (rewrite blen_app, blen_cut by lia; lia). unfold whenM, assertM.
  destruct (Z.eqb_spec (cap w) (blen m + n)) as [E|E].
  - rewrite (proj2 (Z.leb_le _ _)) by lia. rewrite (proj2 (Z.eqb_eq (blen m + n) (cap w))) by lia. cbn. by destruct (flush _) as [[[]| |] ?].
  - by rewrite (proj2 (Z.leb_gt _ _)) by lia.
Qed.

Lemma write_loop_parts fuel chunk s0 w a b m k : (length chunk ≤ fuel)%nat → parts s0 w a b m k → full w a b → blen m < cap w →
  let '(r, w') := write_loop fuel chunk w in written s0 (cap w) (a ++ b ++ m) chunk r w'.
Proof.
  revert chunk w a b m k. induction fuel as [|fuel IH]; intros chunk w a b m k Hf Hp Hfull Hm.
  { destruct chunk; [|cbn in Hf; lia]. cbn. split; [done|]. exists a, b, m, k. by rewrite app_nil_r. }
  destruct (decide (chunk = [])) as [->|Hne]. { cbn. split; [done|]. exists a, b, m, k. by rewrite app_nil_r. }
  pose proof (p_mutable _ _ _ _ _ _ Hp) as Em. pose proof (blen_nonneg m). rewrite (write_round fuel chunk w m Em Hne Hm). cbv zeta.
  set (n := Z.min (cap w - blen m) (blen chunk)). assert (0 < blen chunk) as Hc by (pose proof (blen_nonneg chunk); destruct (decide (blen chunk = 0)) as [E|]; [by apply blen_nil_inv in E|lia]).
  assert (chunk = cut 0 n chunk ++ cut n (blen chunk) chunk) as Esplit by (by rewrite cut_split by lia). set (c1 := cut 0 n chunk) in *. set (c2 := cut n (blen chunk) chunk) in *.
  assert (blen c1 = n) as E1 by (unfold c1; rewrite blen_cut by lia; lia). assert (length c2 ≤ fuel)%nat as Hf2.
  { apply (f_equal blen) in Esplit. rewrite blen_app in Esplit. unfold blen in *. lia. }
  assert (parts s0 (set_mutable (Some (m ++ c1)) w) a b (m ++ c1) k) as Hp1 by (by apply (set_mutable_parts s0 w a b m)).
  destruct (Z.eqb_spec (cap w) (blen m + n)) as [E|E].
  - assert (m ++ c1 ≠ []) as Hm1 by (intros H0; apply (f_equal blen) in H0; rewrite blen_app in H0; change (blen (@nil Z)) with 0 in H0; lia).
    pose proof (flush_parts s0 _ a b (m ++ c1) k Hp1 Hm1) as Hfl. destruct (flush _) as [[[]|[]|] w2]; [| |done].
    + destruct Hfl as (Hp2 & Ef & Ecap). cbn in Ecap. rewrite <-Ecap. pose proof (p_cap _ _ _ _ _ _ Hp).
      specialize (IH c2 w2 (a ++ b) (m ++ c1) [] 0 Hf2 Hp2 ltac:(apply (full_next w w2 a b _ Hfull Ecap Ef); rewrite blen_app; lia) ltac:(rewrite Ecap; done)).
      destruct (write_loop fuel c2 w2) as [r w']. destruct IH as (? & a' & b' & m' & k' & IH). split; [done|]. exists a', b', m', k'.
      destruct r as [u|[]|]; [| |done].
      * destruct IH as (? & ? & ? & ->). split_and!; [done..|]. rewrite Esplit. by rewrite app_nil_r, <-!app_assoc.
      * destruct IH as (? & ? & d1 & d2 & Ed & ->). split_and!; [done..|]. exists (c1 ++ d1), d2. rewrite Esplit at 1. rewrite Ed, app_nil_r, <-!app_assoc. done.
    + destruct Hfl as (Hb & Ecap & _). cbn in Ecap. split; [done|]. exists a, b, (m ++ c1), k. split_and!; [done|rewrite blen_app; lia|].
      exists c1, c2. split; [done|]. by rewrite <-!app_assoc.
  - assert (full (set_mutable (Some (m ++ c1)) w) a b) as Hfull1 by done.
    specialize (IH c2 _ a b (m ++ c1) k Hf2 Hp1 Hfull1 ltac:(cbn; rewrite blen_app; lia)). cbn [set_mutable cap] in IH.
    destruct (write_loop fuel c2 _) as [r w']. destruct IH as (? & a' & b' & m' & k' & IH). split; [done|]. exists a', b', m', k'.
    destruct r as [u|[]|]; [| |done].
    + destruct IH as (? & ? & ? & ->). split_and!; [done..|]. rewrite Esplit. by rewrite <-!app_assoc.
    + destruct IH as (? & ? & d1 & d2 & Ed & ->). split_and!; [done..|]. exists (c1 ++ d1), d2. rewrite Esplit at 1. rewrite Ed, <-!app_assoc. done.
Qed.

(** Nothing fails unless the task is stopped. *)
Lemma flush_ok w m : mutable w = Some m → m ≠ [] → Forall (λ c, c = false) (cancels w) →
  ∃ w', flush w = (Ok tt, w') ∧ Forall (λ c, c = false) (cancels w').
Proof.
  intros Em Hm Hc. rewrite (flush_eq w m Em Hm). unfold handle_flush, next_cancel. destruct w as [n mf mu sub inf f c]; cbn in *.
  destruct Hc as [|x l -> Hl]; cbn; (eexists; split; [done|]); unfold task_done, task_attempt; cbn; by destruct inf as [[]|].
Qed.

Lemma write_loop_ok fuel chunk s0 w a b m k : (length chunk ≤ fuel)%nat → parts s0 w a b m k → full w a b → blen m < cap w →
  Forall (λ c, c = false) (cancels w) → ∃ w', write_loop fuel chunk w = (Ok tt, w') ∧ Forall (λ c, c = false) (cancels w').
Proof.
  revert chunk w a b m k. induction fuel as [|fuel IH]; intros chunk w a b m k Hf Hp Hfull Hm Hc.
  { destruct chunk; [|cbn in Hf; lia]. by exists w. }
  destruct (decide (chunk = [])) as [->|Hne]; [by exists w|].
  pose proof (p_mutable _ _ _ _ _ _ Hp) as Em. pose proof (blen_nonneg m). rewrite (write_round fuel chunk w m Em Hne Hm). cbv zeta.
  set (n := Z.min (cap w - blen m) (blen chunk)). assert (0 < blen chunk) as Hcl by (pose proof (blen_nonneg chunk); destruct (decide (blen chunk = 0)) as [E|]; [by apply blen_nil_inv in E|lia]).
  assert (blen (cut 0 n chunk) = n) as E1 by (rewrite blen_cut by lia; lia). assert (length (cut n (blen chunk) chunk) ≤ fuel)%nat as Hf2.
  { assert (blen (cut n (blen chunk) chunk) = blen chunk - n) as E2 by (rewrite blen_cut by lia; lia). unfold blen in *. lia. }
  set (c1 := cut 0 n chunk) in *. assert (parts s0 (set_mutable (Some (m ++ c1)) w) a b (m ++ c1) k) as Hp1 by (by apply (set_mutable_parts s0 w a b m)).
  destruct (Z.eqb_spec (cap w) (blen m + n)) as [E|E].
  - assert (m ++ c1 ≠ []) as Hm1 by (intros H0; apply (f_equal blen) in H0; rewrite blen_app in H0; change (blen (@nil Z)) with 0 in H0; lia).
    pose proof (flush_parts s0 _ a b (m ++ c1) k Hp1 Hm1) as Hfl. destruct (flush_ok (set_mutable (Some (m ++ c1)) w) (m ++ c1) eq_refl Hm1 Hc) as (w2 & E2 & Hc2). rewrite E2 in Hfl |- *.
    destruct Hfl as (Hp2 & Ef & Ecap). cbn in Ecap. pose proof (p_cap _ _ _ _ _ _ Hp).
    apply (IH _ w2 (a ++ b) (m ++ c1) [] 0); [done|done| |rewrite Ecap; done|done]. apply (full_next w w2 a b _ Hfull Ecap Ef). rewrite blen_app. lia.
  - apply (IH _ _ a b (m ++ c1) k); [done..| |done]. cbn. rewrite blen_app. lia.
Qed.

Lemma full_multiple w a b m : full w a b → (∃ i, cap w = i * m) → ∃ i, blen a + blen b = i * m.
Proof.
  intros [(i & ->) H] [j Hj]. destruct H as [(_ & _ & ->)|[_ ->]]; [exists (i * j)|exists ((i + 1) * j)]; rewrite Hj; change (blen (@nil Z)) with 0; lia.
Qed.

Lemma handle_shutdown_ok s0 w a b m k : parts s0 w a b m k → Forall (λ c, c = false) (cancels w) →
  ∃ f w', handle_shutdown None w = (Ok f, w') ∧ on_disk s0 f (a ++ b).
Proof.
  intros Hp Hc. unfold handle_shutdown. assert (next_cancel w = false) as -> by (unfold next_cancel; by destruct Hc).
  destruct (done_parts s0 (set_cancels (tail (cancels w)) w) a b m k) as [[_ _ _ _ _ Hd _] _]; [by apply set_cancels_parts|].
  rewrite cut_whole in Hd. by eexists _, _.
Qed.

(** A shutdown that pads puts everything on disk. *)
Lemma shutdown_pads s0 w a b m k mult : parts s0 w a b m k → full w a b → blen m < cap w → Forall (λ c, c = false) (cancels w) →
  0 < mult → (∃ i, cap w = i * mult) →
  let x := a ++ b ++ m in let padded := next_multiple_of (blen x) mult in
  ∃ f w', shutdown (ZeroPadToNextMultiple mult) w = (Ok (s0 + padded, f), w') ∧ on_disk s0 f (x ++ zeros (padded - blen x)).
Proof.
  intros Hp Hfull Hm Hc Hmult [j Hj]. cbv zeta. pose proof (p_mutable _ _ _ _ _ _ Hp) as Em. pose proof (p_submitted _ _ _ _ _ _ Hp) as Es.
  pose proof (blen_nonneg m). set (p := next_multiple_of (blen m) mult). pose proof (next_multiple_of_spec (blen m) mult Hmult) as [Hb Hz]. fold p in Hb, Hz.
  assert (p ≤ cap w) as Hle by (apply next_multiple_of_le; [done|lia|rewrite Hj; apply Z_mod_mult]).
  assert (next_multiple_of (blen (a ++ b ++ m)) mult = blen a + blen b + p) as ->.
  { rewrite !blen_app, Z.add_assoc. unfold p. destruct (full_multiple w a b mult Hfull ltac:(by exists j)) as [i Ei]. rewrite Ei. by apply next_multiple_of_add. }
  unfold shutdown, mbind, M_bind, getS, assertM. rewrite Em. rewrite !(proj2 (Z.leb_le _ _)) by (fold p; lia). cbn [mret M_ret].
  unfold extend_zeros, mbind, M_bind, getS, assertM, modifyS. fold p. rewrite (proj2 (Z.leb_le _ _)) by lia. cbn [mret M_ret set_mutable mutable].
  set (m' := m ++ zeros (p - blen m)). set (w1 := set_mutable (Some m') w). assert (parts s0 w1 a b m' k) as Hp1 by (by apply (set_mutable_parts s0 w a b m)).
  replace ((a ++ b ++ m) ++ zeros (blen a + blen b + p - blen (a ++ b ++ m))) with (a ++ b ++ m') by (unfold m'; rewrite !blen_app, <-!app_assoc; do 4 f_equal; lia).
  destruct (decide (m' = [])) as [E0|Hne].
  - assert (flush w1 = (Ok tt, w1)) as -> by (unfold flush, mbind, M_bind, getS, w1; by rewrite E0). destruct (handle_shutdown_ok s0 w1 a b m' k Hp1 Hc) as (f & w' & -> & Hd).
    exists f, w'. rewrite E0, app_nil_r. split; [by replace (s0 + (blen a + blen b + p)) with (bytes_submitted w + p) by lia|done].
  - destruct (flush_ok w1 m' eq_refl Hne Hc) as (w2 & E2 & Hc2). pose proof (flush_parts s0 w1 a b m' k Hp1 Hne) as Hfl. rewrite E2 in Hfl |- *.
    destruct Hfl as (Hp2 & _ & _). destruct (handle_shutdown_ok s0 w2 (a ++ b) m' [] 0 Hp2 Hc2) as (f & w' & -> & Hd).
    exists f, w'. rewrite <-app_assoc in Hd. split; [by replace (s0 + (blen a + blen b + p)) with (bytes_submitted w + p) by lia|done].
Qed.
