(* ===== verification/EphemeralFacts.v ===== *)
(** Facts of ephemeral files: a read gives the bytes that were written, whatever part of
    them the flush task has put on disk. *)

From S2P Require Import Prelude Text FileBytes BufferedWriters BufferedWriterFacts.
Local Open Scope Z_scope.
Import BufferedWriter EphemeralFile.

(** What a reader finds: [u] in the file, as far as the file goes, [v] in the last request
    and [y] in the buffer. *)
Record view (f : EphemeralFile.t) (u v y : bytes) : Prop := {
  v_submitted : bytes_submitted (buffered_writer f) = blen u + blen v;
  v_flushed : maybe_flushed (buffered_writer f) = None ∧ u = [] ∧ v = [] ∨ maybe_flushed (buffered_writer f) = Some v ∧ blen v = TAIL_SZ;
  v_mutable : default [] (mutable (buffered_writer f)) = y;
  v_written : 0 ≤ bytes_written f ≤ blen (u ++ v ++ y);
  v_small : bytes_written f < 2 ^ 64;
  v_disk : ∀ a b, 0 ≤ a ≤ b → b ≤ blen u → b ≤ blen (file (buffered_writer f)) → cut a b (file (buffered_writer f)) = cut a b u
}.

(** How much of a read comes from the file. *)
Definition from_file (u : bytes) (start end_ : Z) : Z := Z.max 0 (Z.min end_ (blen u) - start).

Lemma range_len_max a b : range_len (a, b) = Z.max 0 (b - a).
Proof. unfold range_len. cbn. destruct (Z.ltb_spec b a); lia. Qed.

Lemma cut_three {A} a b (u v y : list A) : 0 ≤ a ≤ b →
  cut a b (u ++ v ++ y) = cut a (Z.min b (blen u)) u ++ cut (Z.max a (blen u) - blen u) (Z.min b (blen u + blen v) - blen u) v ++
    cut (Z.max a (blen u + blen v) - (blen u + blen v)) (b - (blen u + blen v)) y.
Proof.
  intros ?. pose proof (blen_nonneg v). rewrite cut_two by lia. f_equal. destruct (decide (blen u ≤ b)).
  - rewrite cut_two by lia. f_equal; f_equal; lia.
  - rewrite !cut_empty by lia. done.
Qed.

(** The two buffers are copied behind the part of the file. *)
Lemma read_buffers {E} (l1 l2 l3 n : Z) (p q : bytes) : 0 ≤ l1 → blen p = l2 → blen q = l3 → l1 + l2 + l3 ≤ n →
  (dst ← (if 0 <? l3 then copy_at (l1 + l2) q (zeros n) else Ok (zeros n));
   if 0 <? l2 then copy_at l1 p dst else Ok dst) = Ok (E := E) (zeros l1 ++ p ++ q ++ zeros (n - (l1 + l2 + l3))).
Proof.
  intros ? Hp Hq ?. pose proof (blen_nonneg p). pose proof (blen_nonneg q).
  assert (zeros n = zeros (l1 + l2) ++ zeros l3 ++ zeros (n - (l1 + l2 + l3))) as En by (rewrite <-!zeros_add by lia; f_equal; lia).
  assert ((if 0 <? l3 then copy_at (l1 + l2) q (zeros n) else Ok (zeros n)) = Ok (E := E) (zeros (l1 + l2) ++ q ++ zeros (n - (l1 + l2 + l3)))) as ->.
  { destruct (Z.ltb_spec 0 l3).
    - rewrite En. rewrite <-(blen_zeros (l1 + l2)) at 1 by lia. apply copy_at_ok. by rewrite blen_zeros by lia.
    - rewrite En. assert (q = []) as -> by (apply blen_nil_inv; lia). replace l3 with 0 by lia. done. }
  cbn [mbind result_bind]. rewrite zeros_add, <-app_assoc by lia. destruct (Z.ltb_spec 0 l2).
  - rewrite <-(blen_zeros l1) at 1 by lia. apply copy_at_ok. by rewrite blen_zeros by lia.
  - assert (p = []) as -> by (apply blen_nil_inv; lia). replace l2 with 0 by lia. done.
Qed.

(** The part of the file is read last. *)
Lemma read_rest disk_reads (fl u t : bytes) start l1 : 0 ≤ start → 0 ≤ l1 → (0 < l1 → start + l1 ≤ blen u) →
  (∀ a b, 0 ≤ a ≤ b → b ≤ blen u → b ≤ blen fl → cut a b fl = cut a b u) →
  (if 0 <? l1 then read ← read_exact_at disk_reads start l1 fl; copy_at 0 read (zeros l1 ++ t) else Ok (zeros l1 ++ t)) =
    if (0 <? l1) && negb (disk_reads start l1) then Err DiskError
    else if (0 <? l1) && (blen fl <? start + l1) then Err UnexpectedEof
    else Ok (cut start (start + l1) u ++ t).
Proof.
  intros ?? Hu Hd. destruct (Z.ltb_spec 0 l1); cbn [andb].
  2:{ rewrite cut_empty by lia. by replace l1 with 0 by lia. }
  unfold read_exact_at. destruct (disk_reads start l1); cbn [negb]; [|done]. unfold pread_exact.
  destruct (Z.ltb_spec (blen fl) (start + l1)); [by rewrite (proj2 (Z.leb_gt _ _)) by lia|]. rewrite (proj2 (Z.leb_le _ _)) by lia.
  cbn [of_option mbind result_bind]. rewrite Hd by lia. apply (copy_at_ok []). rewrite blen_zeros, blen_cut by lia. lia.
Qed.

Lemma read_steps disk_reads (fl u p q : bytes) (x : result ReadError bytes) (f g : bytes → result ReadError bytes) start l1 l2 l3 n (z : Z) :
  0 ≤ start → 0 ≤ l1 → (0 < l1 → start + l1 ≤ blen u) → (∀ a b, 0 ≤ a ≤ b → b ≤ blen u → b ≤ blen fl → cut a b fl = cut a b u) →
  blen p = l2 → blen q = l3 → l1 + l2 + l3 ≤ n →
  x = (if 0 <? l3 then copy_at (l1 + l2) q (zeros n) else Ok (zeros n)) →
  (∀ dst, f dst = if 0 <? l2 then copy_at l1 p dst else Ok dst) →
  (∀ dst, g dst = if 0 <? l1 then read ← read_exact_at disk_reads start l1 fl; copy_at 0 read dst else Ok dst) →
  (dst ← x; dst ← f dst; dst ← g dst; Ok (dst, z)) =
    if (0 <? l1) && negb (disk_reads start l1) then Err DiskError
    else if (0 <? l1) && (blen fl <? start + l1) then Err UnexpectedEof
    else Ok (cut start (start + l1) u ++ p ++ q ++ zeros (n - (l1 + l2 + l3)), z).
Proof.
  intros ?? Hu Hd Hp Hq Hn -> Hf Hg. pose proof (read_buffers (E := ReadError) l1 l2 l3 n p q ltac:(done) Hp Hq Hn) as Hb.
  destruct (if 0 <? l3 then _ else _) as [dst| |]; cbn [mbind result_bind] in Hb |- *; [|done..]. rewrite Hf, Hb. cbn [mbind result_bind].
  rewrite Hg, (read_rest disk_reads fl u) by done. by destruct ((0 <? l1) && negb (disk_reads start l1)), ((0 <? l1) && (blen fl <? start + l1)).
Qed.

Lemma read_view disk_reads f u v y start n : view f u v y → 0 ≤ start ≤ bytes_written f → 0 ≤ n →
  let end_ := Z.min (start + n) (bytes_written f) in let l1 := from_file u start end_ in
  read_exact_at_eof_ok disk_reads f start n =
    if (0 <? l1) && negb (disk_reads start l1) then Err DiskError
    else if (0 <? l1) && (blen (file (buffered_writer f)) <? start + l1) then Err UnexpectedEof
    else Ok (cut start end_ (u ++ v ++ y) ++ zeros (n - (end_ - start)), end_ - start).
Proof.
  intros [Hsub Hfl Hmut Hw Hsm Hdisk] Hst Hn. cbv zeta. set (e := Z.min (start + n) (bytes_written f)). rewrite !blen_app in Hw.
  unfold read_exact_at_eof_ok. replace (Z.min (Z.min (start + n) (2 ^ 64 - 1)) (bytes_written f)) with e by lia. rewrite Hsub, Hmut.
  pose proof (blen_nonneg u). pose proof (blen_nonneg v). pose proof (blen_nonneg y).
  set (l1 := from_file u start e). set (p := cut (Z.max start (blen u) - blen u) (Z.min e (blen u + blen v) - blen u) v).
  set (q := cut (Z.max start (blen u + blen v) - (blen u + blen v)) (e - (blen u + blen v)) y).
  set (l2 := Z.max 0 (Z.min e (blen u + blen v) - Z.max start (blen u))). set (l3 := Z.max 0 (e - Z.max start (blen u + blen v))).
  assert (blen p = l2) as Hp by (unfold p; rewrite blen_cut_min by lia; lia). assert (blen q = l3) as Hq by (unfold q; rewrite blen_cut_min by lia; lia).
  assert (l1 + l2 + l3 = e - start) as Hsum by (unfold l1, from_file, l2, l3; lia).
  assert (∀ n1, (if 0 <? range_len (Z.max start (blen u + blen v), e) then
       to_copy ← slice_of ((Z.max start (blen u + blen v), e).1 - (blen u + blen v)) ((Z.max start (blen u + blen v), e).1 - (blen u + blen v) + range_len (Z.max start (blen u + blen v), e)) y;
       copy_at n1 to_copy (zeros n) else Ok (zeros n)) = if 0 <? l3 then copy_at (E := ReadError) n1 q (zeros n) else Ok (zeros n)) as Hmutable.
  { intros n1. rewrite range_len_max. fold l3. cbn [fst]. destruct (Z.ltb_spec 0 l3); [|done]. rewrite slice_of_ok by lia.
    cbn [mbind result_bind]. unfold q. do 2 f_equal. lia. }
  assert (cut start e (u ++ v ++ y) ++ zeros (n - (e - start)) = cut start (start + l1) u ++ p ++ q ++ zeros (n - (l1 + l2 + l3))) as ->.
  { rewrite cut_three by lia. rewrite <-!app_assoc, Hsum. fold p q. f_equal. destruct (decide (Z.min e (blen u) ≤ start)); [rewrite !cut_empty by (unfold l1, from_file; lia); done|].
    f_equal. unfold l1, from_file. lia. }
  assert (wrapping_sub 64 e start = e - start) as -> by (unfold wrapping_sub; apply wrap_small; unfold in_u; lia).
  destruct Hfl as [(-> & -> & ->)|[-> Hv]].
  - assert (l1 = 0) as El1 by (unfold l1, from_file; change (blen (@nil Z)) with 0; lia). rewrite El1 in *. clear El1 l1.
    change (blen (@nil Z)) with 0 in *. apply read_steps; [lia|lia|lia|done|done|done|lia| | |].
    + rewrite Hmutable. rewrite !range_len_max. destruct (0 <? l3); [|done]. f_equal. unfold l2. lia.
    + intros dst. rewrite range_len_max. rewrite !(proj2 (Z.ltb_ge _ _)) by lia. done.
    + intros dst. rewrite range_len_max. rewrite !(proj2 (Z.ltb_ge _ _)) by lia. done.
  - replace (saturating_sub (blen u + blen v) TAIL_SZ) with (blen u) by (unfold saturating_sub; lia).
    assert (range_len (start, Z.min e (blen u)) = l1) as -> by (by rewrite range_len_max).
    assert (range_len (Z.max start (blen u), Z.min e (blen u + blen v)) = l2) as -> by (by rewrite range_len_max).
    apply read_steps; [lia|unfold l1, from_file; lia|unfold l1, from_file; lia|done|done|done|lia|by rewrite Hmutable| |done].
    intros dst. destruct (Z.ltb_spec 0 l2); [|done]. unfold checked_sub. cbn [fst]. rewrite (proj2 (Z.leb_le _ _)) by lia. cbn [mbind result_bind].
    rewrite slice_of_ok by lia. cbn [mbind result_bind]. unfold p. do 2 f_equal. lia.
Qed.

(** * Runs *)

Definition attempt (n : Z) (f : EphemeralFile.t) : EphemeralFile.t := EphemeralFile.Mk (task_attempt n (buffered_writer f)) (bytes_written f).

(** An ephemeral file after writes, between which the flush task makes attempts; [c] are
    the bytes of the writes that succeeded, and after one that failed there are no more. *)
Inductive reachable : EphemeralFile.t → bytes → bool → Prop :=
  | reach_create cancels : reachable (create cancels) [] true
  | reach_write f c src pos f' : reachable f c true → write_raw src f = (Ok pos, f') → blen (c ++ src) < 2 ^ 64 → reachable f' (c ++ src) true
  | reach_cancelled f c src f' : reachable f c true → write_raw src f = (Err WriteCancelled, f') → reachable f' c false
  | reach_attempt f c alive n : reachable f c alive → 0 ≤ n → reachable (attempt n f) c alive.

Definition good (f : EphemeralFile.t) (c : bytes) (alive : bool) : Prop :=
  cap (buffered_writer f) = TAIL_SZ ∧ bytes_written f = blen c ∧ blen c < 2 ^ 64 ∧ ∃ a b m k,
  if alive then parts 0 (buffered_writer f) a b m k ∧ full (buffered_writer f) a b ∧ blen m < TAIL_SZ ∧ a ++ b ++ m = c
  else broken 0 (buffered_writer f) a b m k ∧ blen m = TAIL_SZ ∧ ∃ rest, a ++ b ++ m = c ++ rest.

Lemma create_good cancels : good (create cancels) [] true.
Proof.
  split_and!; [done..|]. exists [], [], [], 0. destruct (parts_new 0 TAIL_SZ [] cancels) as [Hp Hf]; [done..|]. by split_and!.
Qed.

(** A write succeeds, or the task is stopped. *)
Lemma write_good f c src : good f c true → blen (c ++ src) < 2 ^ 64 →
  match write_raw src f with
  | (Ok pos, f') => pos = blen c ∧ good f' (c ++ src) true
  | (Err WriteCancelled, f') => good f' c false
  | (Panic, _) => False
  end.
Proof.
  intros (Hcap & Hw & Hsm & a & b & m & k & Hp & Hf & Hm & <-) Hlen. unfold write_raw, write_buffered_borrowed, mbind, M_bind.
  pose proof (write_loop_parts (length src) src 0 _ a b m k ltac:(done) Hp Hf ltac:(lia)) as Hl.
  destruct (write_loop (length src) src (buffered_writer f)) as [[u|[]|] w]; destruct Hl as (Hc & a' & b' & m' & k' & Hl); cbn [mret M_ret]; [| |done].
  - destruct Hl as (? & ? & ? & E). rewrite Z.eqb_refl. split; [done|]. pose proof (blen_nonneg (a ++ b ++ m)). pose proof (blen_nonneg src). split_and!; cbn; [congruence| |done|].
    + unfold wrapping_add. rewrite Hw, <-blen_app. apply wrap_small. unfold in_u. pose proof (blen_nonneg ((a ++ b ++ m) ++ src)). lia.
    + exists a', b', m', k'. split_and!; [done..|congruence|done].
  - destruct Hl as (? & ? & c1 & c2 & -> & E). split_and!; cbn; [congruence|done|done|]. exists a', b', m', k'. split_and!; [done|congruence|]. by exists c1.
Qed.

Lemma attempt_good f c alive n : good f c alive → 0 ≤ n → good (attempt n f) c alive.
Proof.
  intros (Hcap & Hw & Hsm & a & b & m & k & H) Hn. destruct (attempt_same n (buffered_writer f)) as (Ec & Ef & Em & Es).
  split_and!; cbn; [congruence|done|done|]. destruct alive.
  - destruct H as (Hp & Hf & Hm & E). destruct (attempt_parts 0 _ a b m k n Hp Hn) as (k' & Hp' & _). exists a, b, m, k'. split_and!; [done| |done|done].
    unfold full in *. by rewrite Ec, Ef.
  - destruct H as (Hb & ?). exists a, b, m, k. unfold attempt, task_attempt. cbn. by rewrite (br_task _ _ _ _ _ _ Hb).
Qed.

Lemma reachable_good f c alive : reachable f c alive → good f c alive.
Proof.
  induction 1 as [|f c src pos f' _ IH E Hlen|f c src f' _ IH E|f c alive n _ IH Hn]; [apply create_good| | |by apply attempt_good].
  - pose proof (write_good f c src IH Hlen) as Hw. rewrite E in Hw. by destruct Hw.
  - destruct (decide (blen (c ++ src) < 2 ^ 64)) as [Hlen|Hlen]. { pose proof (write_good f c src IH Hlen) as Hw. by rewrite E in Hw. }
    revert E. unfold write_raw, write_buffered_borrowed, mbind, M_bind. destruct IH as (Hcap & Hw & Hsm & a & b & m & k & Hp & Hf & Hm & <-).
    pose proof (write_loop_parts (length src) src 0 _ a b m k ltac:(done) Hp Hf ltac:(lia)) as Hl.
    destruct (write_loop (length src) src (buffered_writer f)) as [[u|[]|] w]; cbn; [by destruct (blen src =? blen src)| |done].
    intros [= <-]. destruct Hl as (Hc & a' & b' & m' & k' & ? & ? & c1 & c2 & -> & E). split_and!; cbn; [congruence|done|done|]. exists a', b', m', k'.
    split_and!; [done|congruence|]. by exists c1.
Qed.

Lemma good_view f c alive : good f c alive → ∃ u v y, view f u v y ∧ (∃ rest, u ++ v ++ y = c ++ rest) ∧ (alive = true → blen u ≤ blen (file (buffered_writer f))).
Proof.
  intros (Hcap & Hw & Hsm & a & b & m & k & H). pose proof (blen_nonneg c). destruct alive.
  - destruct H as (Hp & [_ Hf] & Hm & E). exists a, b, m. destruct Hp as [_ _ Em Es Hk Hd _]. split_and!.
    + split; [lia| |by rewrite Em|by rewrite E; lia|lia|].
      * by rewrite Hcap in Hf.
      * intros i j ? ? ?. replace i with (0 + i) at 1 by lia. replace j with (0 + j) at 1 by lia.
        rewrite (on_disk_cut 0 _ _ i j ltac:(lia) Hd) by (rewrite ?blen_app; pose proof (blen_nonneg (cut 0 k b)); lia). by rewrite cut_app_l by lia.
    + exists []. by rewrite app_nil_r.
    + intros _. destruct (decide (a ++ cut 0 k b = [])) as [E0|Hne].
      * apply app_eq_nil in E0 as [-> _]. apply blen_nonneg.
      * rewrite (on_disk_len 0 _ _ ltac:(lia) Hd Hne), blen_app. pose proof (blen_nonneg (cut 0 k b)). lia.
  - destruct H as ([_ Em Es Ef Hk Hd _] & Hm & rest & E). exists (a ++ b), m, []. split_and!; [|exists rest; by rewrite app_nil_r, <-app_assoc|done].
    split; [rewrite blen_app; lia|by right|by rewrite Em|rewrite app_nil_r, <-app_assoc, E, blen_app; pose proof (blen_nonneg rest); lia|lia|].
    intros i j ? ? Hj. destruct Hd as [Hlen Hd]. rewrite blen_app, blen_cut in Hlen by lia.
    replace i with (0 + i) at 1 by lia. replace j with (0 + j) at 1 by lia.
    assert (blen (a ++ cut 0 k b) = blen a + k) as Ek by (rewrite blen_app, blen_cut by lia; lia).
    rewrite (on_disk_cut 0 _ (a ++ cut 0 k b) i j); [|lia|split; [lia|done]|lia|lia].
    rewrite !cut_two by lia. f_equal. destruct (decide (j ≤ blen a)); [by rewrite !cut_empty by lia|]. rewrite cut_cut by lia. f_equal; lia.
Qed.

(** The outcome of a read at a position of the file. *)
Lemma good_read disk_reads f c alive start n : good f c alive → 0 ≤ start ≤ blen c → 0 ≤ n →
  let end_ := Z.min (start + n) (blen c) in
  match read_exact_at_eof_ok disk_reads f start n with
  | Ok (dst, nread) => dst = cut start end_ c ++ zeros (n - nread) ∧ nread = end_ - start
  | Err DiskError => ∃ len, disk_reads start len = false
  | Err UnexpectedEof => alive = false
  | Panic => False
  end.
Proof.
  intros Hg Hst Hn. destruct (good_view f c alive Hg) as (u & v & y & Hv & (rest & E) & Hd). destruct Hg as (_ & Hw & _). cbv zeta.
  rewrite (read_view disk_reads f u v y start n Hv) by lia. rewrite Hw, E. set (e := Z.min (start + n) (blen c)). set (l1 := from_file u start e).
  destruct (Z.ltb_spec 0 l1); cbn [andb]; [|split; [by rewrite cut_app_l by lia|done]].
  destruct (disk_reads start l1) eqn:Edisk; cbn [negb]; [|by exists l1].
  destruct (Z.ltb_spec (blen (file (buffered_writer f))) (start + l1)) as [Hshort|]; [|split; [by rewrite cut_app_l by lia|done]].
  destruct alive; [|done]. specialize (Hd eq_refl). unfold l1, from_file in *. lia.
Qed.


(** A file of more than two buffers, of which the task has written the second in part. *)
Definition run_chunk : bytes := replicate (Z.to_nat 70000) 7.
Definition run_file : EphemeralFile.t := (write_raw run_chunk (attempt 100 (write_raw run_chunk (create [])).2)).2.

Lemma write_outcome src f r : (write_raw src f).1 = r → write_raw src f = (r, (write_raw src f).2).
Proof. intros <-. apply surjective_pairing. Qed.

Lemma run_reachable : reachable run_file (run_chunk ++ run_chunk) true.
Proof.
  apply (reach_write (attempt 100 (write_raw run_chunk (create [])).2) run_chunk run_chunk 70000); [|apply write_outcome; vm_compute; reflexivity|vm_compute; reflexivity].
  apply reach_attempt; [|lia]. apply (reach_write (create []) [] run_chunk 0); [apply reach_create|apply write_outcome; vm_compute; reflexivity|vm_compute; reflexivity].
Qed.


(** When the flush of a buffer is cancelled, the buffer before it can no longer be read:
    it is not on disk, and the new one has taken its place in memory. *)
Remark cancelled_flush_hides_bytes : ∃ f f',
  write_raw (replicate (Z.to_nat TAIL_SZ) 7) (create [false; true]) = (Ok 0, f) ∧
  read_exact_at_eof_ok (λ _ _, true) f 0 1 = Ok ([7], 1) ∧
  write_raw (replicate (Z.to_nat TAIL_SZ) 8) f = (Err WriteCancelled, f') ∧
  read_exact_at_eof_ok (λ _ _, true) f' 0 1 = Err UnexpectedEof.
Proof. eexists _, _. split_and!; [apply write_outcome| |apply write_outcome|]; vm_compute; reflexivity. Qed.
