(* ===== verification/DioReads.v ===== *)
(** Reads of many parts of a file with direct IO,
    [pageserver/src/tenant/storage_layer/inmemory_layer/vectored_dio_read.rs]: the parts
    are split at the borders of chunks, chunks that follow each other are read at once,
    and what is read is put together for each part.

    A logical read is shared by the plans that refer to it; a plan has its index in the
    list of logical reads.  The file is the argument [file] of [execute]. *)

From S2P Require Import Prelude Text OrdMaps FileBytes BufferedWriters.
Local Open Scope Z_scope.
Import EphemeralFile.

Definition DIO_CHUNK_SIZE : Z := 512.
Definition MAX_CHUNK_BATCH_SIZE : nat := Z.to_nat (128 * 1024 / DIO_CHUNK_SIZE).

(** [Vec::with_capacity(cap)] and what is in it. *)
Record Buffer := MkBuffer { b_cap : Z; b_data : bytes }.

Inductive LogicalReadState :=
  | NotStarted (buf : Buffer) | Ongoing (buf : Buffer) | ReadOk (buf : Buffer) | ReadFailed (e : ReadError).

Record LogicalRead := MkRead { pos : Z; state : LogicalReadState }.

Definition new (pos cap : Z) : LogicalRead := MkRead pos (NotStarted (MkBuffer cap [])).

Definition into_result (self : LogicalRead) : option (result ReadError bytes) :=
  match state self with
  | ReadOk buf => Some (Ok (b_data buf))
  | ReadFailed e => Some (Err e)
  | NotStarted _ | Ongoing _ => None
  end.

Definition is_terminal (s : LogicalReadState) : bool := match s with ReadOk _ | ReadFailed _ => true | _ => false end.

(** ** The plan *)

Record Interest := MkInterest { i_read : nat; i_offset : Z; i_len : Z }.
Abbreviation ByChunk := (list (Z * list Interest)).

Definition add_interest (chunk_no : Z) (i : Interest) (by_chunk : ByChunk) : ByChunk :=
  bt_insert chunk_no (default [] (bt_get chunk_no by_chunk) ++ [i]) by_chunk.

(** The chunks of a read; a round takes a byte at least. *)
Fixpoint plan_chunks (fuel : nat) (read : nat) (remaining chunk_no offset_in_chunk : Z) (by_chunk : ByChunk) : ByChunk :=
  match fuel with
  | O => by_chunk
  | S fuel =>
      if 0 <? remaining then
        let remaining_in_chunk := Z.min remaining (DIO_CHUNK_SIZE - offset_in_chunk) in
        plan_chunks fuel read (remaining - remaining_in_chunk) (chunk_no + 1) 0
          (add_interest chunk_no (MkInterest read offset_in_chunk remaining_in_chunk) by_chunk)
      else by_chunk
  end.

Fixpoint plan (read : nat) (reads : list LogicalRead) (by_chunk : ByChunk) : result unit (list LogicalRead * ByChunk) :=
  match reads with
  | [] => Ok ([], by_chunk)
  | r :: reads =>
      match state r with
      | NotStarted buf =>
          if blen (b_data buf) =? 0 then
            let req_len := b_cap buf in
            rest ← plan (S read) reads
                     (plan_chunks (Z.to_nat req_len) read req_len (pos r / DIO_CHUNK_SIZE) (pos r mod DIO_CHUNK_SIZE) by_chunk);
            Ok (MkRead (pos r) (Ongoing buf) :: rest.1, rest.2)
          else Panic
      | _ => Panic
      end
  end.

(** ** Physical reads *)

Record PhysicalRead := MkPhysical { start_chunk_no : Z; nchunks : nat; dsts : list Interest }.

(** [peeking_take_while(..).take(n)]: chunks in a row. *)
Fixpoint take_run (n : nat) (last_chunk_no : option Z) (by_chunk : ByChunk) : ByChunk * ByChunk :=
  match n, by_chunk with
  | S n, (chunk_no, dsts) :: rest =>
      if match last_chunk_no with Some last => chunk_no =? last + 1 | None => true end then
        let '(run, rest) := take_run n (Some chunk_no) rest in ((chunk_no, dsts) :: run, rest)
      else ([], by_chunk)
  | _, _ => ([], by_chunk)
  end.

(** The interests of the chunks, at their offsets in the read. *)
Definition physical_dsts (run : ByChunk) : list Interest :=
  concat (imap (λ i x, (λ d, MkInterest (i_read d) (Z.of_nat i * DIO_CHUNK_SIZE + i_offset d) (i_len d)) <$> x.2) run).

Fixpoint merge_chunks (fuel : nat) (by_chunk : ByChunk) : list PhysicalRead :=
  match fuel with
  | O => []
  | S fuel =>
      let '(to_merge, rest) := take_run MAX_CHUNK_BATCH_SIZE None by_chunk in
      match to_merge with
      | [] => []
      | (start_chunk_no, _) :: _ => MkPhysical start_chunk_no (length to_merge) (physical_dsts to_merge) :: merge_chunks fuel rest
      end
  end.

(** ** Their execution *)

Section execute.
(** [read_exact_at_eof_ok] of the file *)
Context (file : Z → Z → result ReadError (bytes * Z)).

Definition set_state (s : LogicalReadState) (r : LogicalRead) : LogicalRead := MkRead (pos r) s.

Definition all_done (reads : list LogicalRead) (dsts : list Interest) : bool :=
  forallb (λ d, match reads !! i_read d with Some r => is_terminal (state r) | None => false end) dsts.

Definition fail_all (e : ReadError) (dsts : list Interest) (reads : list LogicalRead) : list LogicalRead :=
  foldl (λ reads d, alter (set_state (ReadFailed e)) (i_read d) reads) reads dsts.

Definition fill (io_buf : bytes) (nread : Z) (d : Interest) (reads : list LogicalRead) : result unit (list LogicalRead) :=
  match reads !! i_read d with
  | None => Panic
  | Some r =>
      match state r with
      | NotStarted _ => Panic (* unreachable *)
      | ReadOk _ | ReadFailed _ => Ok reads
      | Ongoing buf =>
          if nread <? i_offset d + i_len d then Ok (<[i_read d := set_state (ReadFailed UnexpectedEof) r]> reads)
          else
            data ← slice_of (i_offset d) (i_offset d + i_len d) io_buf;
            if b_cap buf <? blen (b_data buf) + blen data then Panic (* capacity exceeded *)
            else
              let buf := MkBuffer (b_cap buf) (b_data buf ++ data) in
              Ok (<[i_read d := set_state (if blen (b_data buf) =? b_cap buf then ReadOk buf else Ongoing buf) r]> reads)
      end
  end.

Fixpoint fill_all (io_buf : bytes) (nread : Z) (dsts : list Interest) (reads : list LogicalRead) : result unit (list LogicalRead) :=
  match dsts with
  | [] => Ok reads
  | d :: dsts => reads ← fill io_buf nread d reads; fill_all io_buf nread dsts reads
  end.

Definition execute_one (p : PhysicalRead) (reads : list LogicalRead) : result unit (list LogicalRead) :=
  if all_done reads (dsts p) then Ok reads
  else
    let read_offset := start_chunk_no p * DIO_CHUNK_SIZE in
    let req_len := Z.of_nat (nchunks p) * DIO_CHUNK_SIZE in
    match file read_offset req_len with
    | Err e => Ok (fail_all e (dsts p) reads)
    | Panic => Panic
    | Ok (io_buf, nread) =>
        if nread <=? blen io_buf then
          io_buf ← slice_of 0 nread io_buf;
          fill_all io_buf nread (dsts p) reads
        else Panic
    end.

Fixpoint execute_all (ps : list PhysicalRead) (reads : list LogicalRead) : result unit (list LogicalRead) :=
  match ps with
  | [] => Ok reads
  | p :: ps => reads ← execute_one p reads; execute_all ps reads
  end.

Definition execute (reads : list LogicalRead) : result unit (list LogicalRead) :=
  planned ← plan 0 reads [];
  let '(reads, by_chunk) := planned in
  execute_all (merge_chunks (length by_chunk) by_chunk) reads.
End execute.
