(* ===== verification/DioFacts.v ===== *)
(** Facts of the vectored direct reads: every logical read gets the bytes of its part of
    the file. *)

From S2P Require Import Prelude Text OrdMaps FileBytes BufferedWriters DioReads.
Local Open Scope Z_scope.
Import EphemeralFile.

(** ** The plan *)

Section bt_get.
Context {K : Type} `{TotalCmpLaws K} {V : Type}.
Implicit Types (l : list (K * V)).

Lemma kcmp_refl (k : K) : kcmp k k = Eq.
Proof. by apply kcmp_eq. Qed.

Lemma bt_get_insert_eq k v l : bt_get k (bt_insert k v l) = Some v.
Proof.
  induction l as [|e l IH]; cbn; [by rewrite kcmp_refl|]. destruct (kcmp k e.1) eqn:E; cbn; rewrite ?kcmp_refl; [done..|]. by rewrite E.
Qed.

Lemma bt_get_insert_ne k k' v l : k' ≠ k → bt_get k' (bt_insert k v l) = bt_get k' l.
Proof.
  intros Hne. assert (kcmp k' k ≠ Eq) as Hk by (by intros ?%kcmp_eq).
  induction l as [|e l IH]; cbn; [by destruct (kcmp k' k)|]. destruct (kcmp k e.1) eqn:E; cbn.
  - apply kcmp_eq in E as <-. by destruct (kcmp k' k).
  - by destruct (kcmp k' k).
  - by destruct (kcmp k' e.1).
Qed.

Lemma bt_get_elem k v l : bt_wf l → bt_get k l = Some v ↔ (k, v) ∈ l.
Proof.
  induction l as [|[k' v'] l IH]; intros Hwf; cbn; [split; [done|by intros ?%not_elem_of_nil]|].
  apply StronglySorted_cons in Hwf as [Hx Hwf]. rewrite Forall_forall in Hx. destruct (kcmp k k') eqn:E.
  - apply kcmp_eq in E as ->. split; [intros [= ->]; by left|]. intros [[= ->]|Hin]%elem_of_cons; [done|]. specialize (Hx _ Hin). by apply klt_irrefl in Hx.
  - rewrite (IH Hwf), elem_of_cons. split; [auto|]. intros [[= -> ->]|]; [by rewrite kcmp_refl in E|done].
  - rewrite (IH Hwf), elem_of_cons. split; [auto|]. intros [[= -> ->]|]; [by rewrite kcmp_refl in E|done].
Qed.
End bt_get.

(** What the read of [q] bytes at [p] wants of a chunk. *)
Definition interest (i : nat) (p q n : Z) : option Interest :=
  let lo := Z.max p (n * DIO_CHUNK_SIZE) in let hi := Z.min (p + q) ((n + 1) * DIO_CHUNK_SIZE) in
  if lo <? hi then Some (MkInterest i (lo - n * DIO_CHUNK_SIZE) (hi - lo)) else None.

Fixpoint wanted (i : nat) (reads : list (Z * Z)) (n : Z) : list Interest :=
  match reads with [] => [] | (p, q) :: reads => option_list (interest i p q n) ++ wanted (S i) reads n end.

Definition chunk_of (bc : ByChunk) (n : Z) : list Interest := default [] (bt_get n bc).

Lemma chunk_of_add n d bc n' : chunk_of (add_interest n d bc) n' = chunk_of bc n' ++ if decide (n' = n) then [d] else [].
Proof.
  unfold chunk_of, add_interest. destruct (decide (n' = n)) as [->|Hne]; [by rewrite bt_get_insert_eq|]. by rewrite bt_get_insert_ne, app_nil_r.
Qed.

Definition bc_ok (bc : ByChunk) : Prop := bt_wf bc ∧ ∀ n l, bt_get n bc = Some l → l ≠ [].

Lemma add_interest_ok n d bc : bc_ok bc → bc_ok (add_interest n d bc).
Proof.
  intros [Hwf Hne]. split; [by apply bt_insert_wf|]. intros n' l. unfold add_interest. destruct (decide (n' = n)) as [->|?].
  - rewrite bt_get_insert_eq. intros [= <-]. by destruct (default [] _).
  - rewrite bt_get_insert_ne by done. apply Hne.
Qed.

Lemma plan_chunks_spec fuel i q k off bc : (Z.to_nat q ≤ fuel)%nat → 0 ≤ off < DIO_CHUNK_SIZE → bc_ok bc →
  let bc' := plan_chunks fuel i q k off bc in
  bc_ok bc' ∧ ∀ n, chunk_of bc' n = chunk_of bc n ++ option_list (interest i (k * DIO_CHUNK_SIZE + off) q n).
Proof.
  unfold DIO_CHUNK_SIZE. revert q k off bc. induction fuel as [|fuel IH]; intros q k off bc Hf Hoff Hbc; cbn [plan_chunks].
  { split; [done|]. intros n. unfold interest, DIO_CHUNK_SIZE. rewrite (proj2 (Z.ltb_ge _ _)) by lia. by rewrite app_nil_r. }
  destruct (Z.ltb_spec 0 q) as [Hq|Hq].
  2:{ split; [done|]. intros n. unfold interest, DIO_CHUNK_SIZE. rewrite (proj2 (Z.ltb_ge _ _)) by lia. by rewrite app_nil_r. }
  unfold DIO_CHUNK_SIZE. set (m := Z.min q (512 - off)). destruct (IH (q - m) (k + 1) 0 (add_interest k (MkInterest i off m) bc)) as [Hok Hch]; [lia|lia|by apply add_interest_ok|].
  split; [done|]. intros n. rewrite Hch, chunk_of_add, <-app_assoc. f_equal. unfold interest, DIO_CHUNK_SIZE. destruct (decide (n = k)) as [->|Hne].
  - rewrite (proj2 (Z.ltb_ge _ _)) by lia. rewrite (proj2 (Z.ltb_lt _ _)) by lia. cbn. do 2 f_equal; lia.
  - cbn [app]. destruct (Z.ltb_spec (Z.max ((k + 1) * 512 + 0) (n * 512)) (Z.min ((k + 1) * 512 + 0 + (q - m)) ((n + 1) * 512))).
    + rewrite (proj2 (Z.ltb_lt _ _)) by lia. cbn. do 2 f_equal; lia.
    + by rewrite (proj2 (Z.ltb_ge _ _)) by lia.
Qed.

Definition fresh (x : Z * Z) : LogicalRead := new x.1 x.2.
Definition started (x : Z * Z) : LogicalRead := MkRead x.1 (Ongoing (MkBuffer x.2 [])).

Lemma plan_spec reads i bc : bc_ok bc → ∃ bc', plan i (fresh <$> reads) bc = Ok (started <$> reads, bc') ∧ bc_ok bc' ∧
  ∀ n, chunk_of bc' n = chunk_of bc n ++ wanted i reads n.
Proof.
  revert i bc. induction reads as [|[p q] reads IH]; intros i bc Hbc; cbn.
  { exists bc. split_and!; [done..|]. intros n. by rewrite app_nil_r. }
  destruct (plan_chunks_spec (Z.to_nat q) i q (p / DIO_CHUNK_SIZE) (p mod DIO_CHUNK_SIZE) bc) as [Hok Hch]; [done|by apply Z.mod_pos_bound|done|].
  destruct (IH (S i) _ Hok) as (bc' & -> & Hok' & Hch'). exists bc'. split_and!; [done..|]. intros n. rewrite Hch', Hch, <-app_assoc. do 3 f_equal.
  replace (p / DIO_CHUNK_SIZE * DIO_CHUNK_SIZE + p mod DIO_CHUNK_SIZE) with p; [done|]. unfold DIO_CHUNK_SIZE. pose proof (Z.div_mod p 512). lia.
Qed.

(** Some read has bytes in the chunk. *)
Definition wanted_chunk (orig : list (Z * Z)) (n : Z) : Prop :=
  ∃ p q, (p, q) ∈ orig ∧ Z.max p (n * DIO_CHUNK_SIZE) < Z.min (p + q) ((n + 1) * DIO_CHUNK_SIZE).

(** ** Progress of the reads *)

Section progress.
Context (file : Z → Z → result ReadError (bytes * Z)) (c : bytes) (orig : list (Z * Z)).

(** The file has the bytes [c]; a read of it may fail, and is short where the file ends. *)
Context (reads_file : ∀ start n, 0 ≤ start → 0 ≤ n →
  (∃ e, file start n = Err e) ∨
  (∃ dst, let nread := Z.max 0 (Z.min n (blen c - start)) in file start n = Ok (dst, nread) ∧ nread ≤ blen dst ∧ cut 0 nread dst = cut start (start + nread) c)).
Context (reads_ok : Forall (λ x, 0 ≤ x.1 ∧ 0 ≤ x.2) orig).

(** The error of a read of chunks, all of them wanted, among them one of the read. *)
Definition read_failed (p q : Z) (e : ReadError) : Prop :=
  ∃ s k, file (s * DIO_CHUNK_SIZE) (k * DIO_CHUNK_SIZE) = Err e ∧ s * DIO_CHUNK_SIZE < p + q ∧ p < (s + k) * DIO_CHUNK_SIZE ∧ k ≤ Z.of_nat MAX_CHUNK_BATCH_SIZE ∧
    ∀ m, s ≤ m < s + k → wanted_chunk orig m.

(** The position before which the chunks below [k] give the bytes of a read. *)
Definition upto (k p q : Z) : Z := Z.max p (Z.min (p + q) (k * DIO_CHUNK_SIZE)).

Definition expected (k p q : Z) : LogicalReadState :=
  if decide (p < upto k p q ∧ blen c < upto k p q) then ReadFailed UnexpectedEof
  else if decide (0 < q ∧ upto k p q = p + q) then ReadOk (MkBuffer q (cut p (p + q) c))
  else Ongoing (MkBuffer q (cut p (upto k p q) c)).

Definition st_ok (k p q : Z) (r : LogicalRead) : Prop :=
  pos r = p ∧ ((∃ e, state r = ReadFailed e ∧ read_failed p q e) ∨ state r = expected k p q).

(** The read of index [i] has got the chunks below [f i]. *)
Definition inv (f : nat → Z) (reads : list LogicalRead) : Prop :=
  length reads = length orig ∧ ∀ i p q, orig !! i = Some (p, q) → ∃ r, reads !! i = Some r ∧ st_ok (f i) p q r.

Lemma inv_start : inv (λ _, 0) (started <$> orig).
Proof.
  split; [by rewrite length_fmap|]. intros i p q Hi. rewrite list_lookup_fmap, Hi. eexists; split; [done|]. split; [done|]. right.
  pose proof (Forall_lookup_1 _ _ _ _ reads_ok Hi) as [Hp Hq]. cbn in Hp, Hq. unfold expected. assert (upto 0 p q = p) as -> by (unfold upto, DIO_CHUNK_SIZE; lia).
  rewrite !decide_False by lia. cbn. by rewrite cut_empty.
Qed.

Lemma data_upto_none i p q n : interest i p q n = None → upto (n + 1) p q = upto n p q.
Proof. unfold interest, upto, DIO_CHUNK_SIZE. destruct (Z.ltb_spec (Z.max p (n * 512)) (Z.min (p + q) ((n + 1) * 512))); [done|]. lia. Qed.

Lemma upto_some i p q n d : interest i p q n = Some d → upto n p q = n * DIO_CHUNK_SIZE + i_offset d ∧ upto (n + 1) p q = n * DIO_CHUNK_SIZE + i_offset d + i_len d ∧
  0 ≤ i_offset d ∧ 0 < i_len d ∧ i_offset d + i_len d ≤ DIO_CHUNK_SIZE ∧ i_read d = i ∧ n * DIO_CHUNK_SIZE + i_offset d + i_len d ≤ p + q ∧ upto n p q < p + q.
Proof.
  unfold interest, upto, DIO_CHUNK_SIZE. destruct (Z.ltb_spec (Z.max p (n * 512)) (Z.min (p + q) ((n + 1) * 512))); [|done]. intros [= <-]. cbn. lia.
Qed.

Lemma upto_skip i p q n n' : n ≤ n' → (∀ k, n ≤ k < n' → interest i p q k = None) → upto n' p q = upto n p q.
Proof.
  intros Hle. revert n' Hle. refine (Zlt_lower_bound_ind _ n _). intros n' IH Hle Hnone. destruct (decide (n' = n)) as [->|?]; [done|].
  replace n' with (n' - 1 + 1) by lia. rewrite (data_upto_none i) by (apply Hnone; lia). apply IH; [lia|]. intros k ?. apply Hnone. lia.
Qed.

Lemma st_ok_upto k k' p q r : upto k' p q = upto k p q → st_ok k p q r → st_ok k' p q r.
Proof. intros E [Hp [H|H]]; (split; [done|]); [by left|right]. unfold expected in *. by rewrite E. Qed.

(** What a read of [k] chunks at chunk [s] gives. *)
Definition nread_of (s k : Z) : Z := Z.max 0 (Z.min (k * DIO_CHUNK_SIZE) (blen c - s * DIO_CHUNK_SIZE)).
Definition read_of (s k : Z) : bytes := cut (s * DIO_CHUNK_SIZE) (s * DIO_CHUNK_SIZE + nread_of s k) c.

Lemma inv_insert f reads i p q r k : inv f reads → orig !! i = Some (p, q) → st_ok k p q r → inv (λ j, if decide (j = i) then k else f j) (<[i := r]> reads).
Proof.
  intros [Hlen Hinv] Hi Hr. split; [by rewrite length_insert|]. intros j p' q' Hj. destruct (decide (j = i)) as [->|Hne].
  - exists r. rewrite Hi in Hj. injection Hj as <- <-. split; [|done]. apply list_lookup_insert_eq. rewrite Hlen. by apply lookup_lt_Some in Hi.
  - rewrite list_lookup_insert_ne by done. by apply Hinv.
Qed.

(** The bytes of a part, when the file has them. *)
Lemma part_data p q n d s k i : 0 ≤ p → interest i p q n = Some d → 0 ≤ s ≤ n → n < s + k → upto (n + 1) p q ≤ blen c →
  slice_of (E := unit) ((n - s) * DIO_CHUNK_SIZE + i_offset d) ((n - s) * DIO_CHUNK_SIZE + i_offset d + i_len d) (read_of s k) = Ok (cut (upto n p q) (upto (n + 1) p q) c).
Proof.
  intros Hp Hd Hs Hk Hc. destruct (upto_some i p q n d Hd) as (U1 & U2 & Ho & Hl & Hol & _). unfold read_of.
  assert (blen (cut (s * DIO_CHUNK_SIZE) (s * DIO_CHUNK_SIZE + nread_of s k) c) = nread_of s k) as Eb by (rewrite blen_cut; unfold nread_of, DIO_CHUNK_SIZE in *; lia).
  assert ((n - s) * DIO_CHUNK_SIZE + i_offset d + i_len d ≤ nread_of s k) by (unfold nread_of, DIO_CHUNK_SIZE in *; lia).
  rewrite slice_of_ok by (rewrite ?Eb; unfold DIO_CHUNK_SIZE in *; lia). rewrite cut_cut by (unfold DIO_CHUNK_SIZE in *; lia). do 2 f_equal; lia.
Qed.

(** A part is added. *)
Lemma fill_spec f reads i p q n d s k : inv f reads → orig !! i = Some (p, q) → interest i p q n = Some d → f i = n → 0 ≤ s ≤ n → n < s + k →
  ∃ reads', fill (read_of s k) (nread_of s k) (MkInterest i ((n - s) * DIO_CHUNK_SIZE + i_offset d) (i_len d)) reads = Ok reads' ∧
    inv (λ j, if decide (j = i) then n + 1 else f j) reads'.
Proof.
  intros Hinv Hi Hd Hf Hs Hk. pose proof (Forall_lookup_1 _ _ _ _ reads_ok Hi) as (Hp0 & Hq0). cbn in Hp0, Hq0.
  destruct (upto_some i p q n d Hd) as (U1 & U2 & Ho & Hl & Hol & _ & Hend & Hlt). destruct (proj2 Hinv i p q Hi) as (r & Hr & Hp & Hst). rewrite Hf in Hst.
  assert (p ≤ upto n p q) as Hpu by (unfold upto; lia). unfold fill. cbn [i_read i_offset i_len]. rewrite Hr.
  assert (∀ r', st_ok (n + 1) p q r' → inv (λ j, if decide (j = i) then n + 1 else f j) (<[i := r']> reads)) as Hupd by (intros r'; by apply inv_insert).
  destruct Hst as [(e & Ee & Hfail)|Est].
  { rewrite Ee. exists reads. split; [done|]. rewrite <-(list_insert_id reads i r Hr). apply Hupd. split; [done|]. left. by exists e. }
  rewrite Est. unfold expected at 1. destruct (decide (p < upto n p q ∧ _)) as [Heof|Hno].
  { exists reads. split; [done|]. rewrite <-(list_insert_id reads i r Hr). apply Hupd. split; [done|]. right. rewrite Est. unfold expected. by rewrite !decide_True by lia. }
  rewrite decide_False by lia. destruct (Z.ltb_spec (nread_of s k) ((n - s) * DIO_CHUNK_SIZE + i_offset d + i_len d)) as [Hshort|Hfull].
  { eexists; split; [done|]. apply Hupd. split; [done|]. right. unfold expected. rewrite decide_True; [done|]. unfold nread_of, DIO_CHUNK_SIZE in *. lia. }
  assert (upto (n + 1) p q ≤ blen c) as Hc by (unfold nread_of, DIO_CHUNK_SIZE in *; lia).
  rewrite (part_data p q n d s k i) by done. cbn [mbind result_bind b_data b_cap]. rewrite <-blen_app, cut_app by lia. rewrite blen_cut by lia.
  rewrite (proj2 (Z.ltb_ge _ _)) by lia. eexists; split; [done|]. apply Hupd. split; [done|]. right. unfold expected. rewrite decide_False by lia.
  cbn [set_state state]. destruct (decide (upto (n + 1) p q = p + q)) as [E|E].
  - rewrite decide_True, (proj2 (Z.eqb_eq _ _)) by lia. by rewrite E.
  - rewrite decide_False, (proj2 (Z.eqb_neq _ _)) by lia. done.
Qed.

Lemma inv_bump f g reads : inv f reads → (∀ i p q, orig !! i = Some (p, q) → upto (g i) p q = upto (f i) p q) → inv g reads.
Proof.
  intros [Hlen Hinv] Hfg. split; [done|]. intros i p q Hi. destruct (Hinv i p q Hi) as (r & Hr & Hst). exists r. split; [done|].
  by apply (st_ok_upto (f i)); [apply Hfg|].
Qed.

Definition shift (j : Z) (d : Interest) : Interest := MkInterest (i_read d) (j * DIO_CHUNK_SIZE + i_offset d) (i_len d).

Lemma fill_all_app dst nread l1 l2 reads reads' : fill_all dst nread l1 reads = Ok reads' →
  fill_all dst nread (l1 ++ l2) reads = fill_all dst nread l2 reads'.
Proof.
  revert reads. induction l1 as [|d l1 IH]; intros reads; cbn; [by intros [= ->]|]. destruct (fill dst nread d reads) as [r| |]; cbn; [apply IH|done..].
Qed.

(** The parts of one chunk are added. *)
Lemma fill_chunk pre suf reads n s k : orig = pre ++ suf → inv (λ j, if decide (j < length pre)%nat then n + 1 else n) reads → 0 ≤ s ≤ n → n < s + k →
  ∃ reads', fill_all (read_of s k) (nread_of s k) (shift (n - s) <$> wanted (length pre) suf n) reads = Ok reads' ∧ inv (λ _, n + 1) reads'.
Proof.
  intros E Hinv Hs Hk. revert pre reads E Hinv. induction suf as [|[p q] suf IH]; intros pre reads E Hinv.
  { cbn. exists reads. split; [done|]. apply (inv_bump _ _ _ Hinv). intros i p q Hi%lookup_lt_Some. by rewrite E, app_nil_r in Hi; rewrite decide_True. }
  assert (orig !! length pre = Some (p, q)) as Hi by (rewrite E; by apply list_lookup_middle).
  assert (orig = (pre ++ [(p, q)]) ++ suf) as E' by (by rewrite <-app_assoc).
  assert (length (pre ++ [(p, q)]) = S (length pre)) as El by (rewrite length_app; cbn; lia).
  cbn [wanted]. rewrite fmap_app. destruct (interest (length pre) p q n) as [d|] eqn:Ed; cbn [option_list fmap list_fmap app].
  - destruct (fill_spec _ reads (length pre) p q n d s k Hinv Hi Ed) as (reads1 & E1 & Hinv1); [by rewrite decide_False by lia|done..|].
    destruct (IH (pre ++ [(p, q)]) reads1 E') as (reads' & E2 & Hinv2).
    { apply (inv_bump _ _ _ Hinv1). intros j p' q' _. rewrite El. destruct (decide (j = length pre)) as [->|?]; [by rewrite decide_True by lia|].
      destruct (decide (j < length pre)%nat); [by rewrite decide_True by lia|by rewrite decide_False by lia]. }
    exists reads'. split; [|done]. destruct (upto_some (length pre) p q n d Ed) as (_ & _ & _ & _ & _ & Er & _).
    change (shift (n - s) <$> option_list (Some d)) with [shift (n - s) d]. cbn [app fill_all].
    replace (shift (n - s) d) with (MkInterest (length pre) ((n - s) * DIO_CHUNK_SIZE + i_offset d) (i_len d)) by (unfold shift; by rewrite Er).
    rewrite E1. cbn [mbind result_bind]. by rewrite El in E2.
  - destruct (IH (pre ++ [(p, q)]) reads E') as (reads' & E2 & Hinv2); [|exists reads'; by rewrite El in E2].
    apply (inv_bump _ _ _ Hinv). intros j p' q' Hj. rewrite El. destruct (decide (j = length pre)) as [->|?].
    + rewrite Hi in Hj. injection Hj as <- <-. rewrite decide_True, decide_False by lia. by apply (data_upto_none (length pre)).
    + destruct (decide (j < length pre)%nat); [by rewrite decide_True by lia|by rewrite decide_False by lia].
Qed.

(** Chunks in a row, with all that is wanted of them. *)
Fixpoint in_row (n : Z) (run : ByChunk) : Prop :=
  match run with [] => True | (m, l) :: run => m = n ∧ l = wanted 0 orig n ∧ in_row (n + 1) run end.

Definition dsts_from (j : nat) (run : ByChunk) : list Interest := concat (imap (λ i x, shift (Z.of_nat (j + i)) <$> x.2) run).

Lemma dsts_from_cons j m l run : dsts_from j ((m, l) :: run) = (shift (Z.of_nat j) <$> l) ++ dsts_from (S j) run.
Proof.
  unfold dsts_from. cbn [imap concat]. rewrite Nat.add_0_r. do 2 f_equal. apply imap_ext. intros i x _. cbn. do 3 f_equal. lia.
Qed.

Lemma physical_dsts_from run : physical_dsts run = dsts_from 0 run.
Proof. done. Qed.

Lemma fill_run run reads n j s k : in_row n run → inv (λ _, n) reads → 0 ≤ s → n = s + Z.of_nat j → n + Z.of_nat (length run) ≤ s + k →
  ∃ reads', fill_all (read_of s k) (nread_of s k) (dsts_from j run) reads = Ok reads' ∧ inv (λ _, n + Z.of_nat (length run)) reads'.
Proof.
  intros Hrow Hinv Hs En Hk. revert n j reads Hrow Hinv En Hk. induction run as [|[m l] run IH]; intros n j reads Hrow Hinv En Hk.
  { exists reads. split; [done|]. cbn [length]. by rewrite Z.add_0_r. }
  destruct Hrow as (-> & -> & Hrow). cbn [length] in Hk |- *. rewrite dsts_from_cons.
  destruct (fill_chunk [] orig reads n s k) as (reads1 & E1 & Hinv1); [done|by apply (inv_bump _ _ _ Hinv)|lia|lia|done..|].
  destruct (IH (n + 1) (S j) reads1 Hrow Hinv1) as (reads' & E2 & Hinv2); [lia|lia|]. exists reads'. split.
  - replace (n - s) with (Z.of_nat j) in E1 by lia. by rewrite (fill_all_app _ _ _ _ _ _ E1).
  - by replace (n + Z.of_nat (S (length run))) with (n + 1 + Z.of_nat (length run)) by lia.
Qed.

(** ** A physical read *)

Lemma wanted_elem i pre suf n d p q : suf !! i = Some (p, q) → interest (pre + i) p q n = Some d → d ∈ wanted pre suf n.
Proof.
  revert i pre. induction suf as [|[p' q'] suf IH]; intros [|i] pre; [done..| |]; cbn; rewrite elem_of_app.
  - intros [= -> ->]. rewrite Nat.add_0_r. intros ->. left. by left.
  - intros Hi Hd. right. apply (IH i (S pre)); [done|]. by rewrite Nat.add_succ_comm.
Qed.

Lemma wanted_read d pre suf n : d ∈ wanted pre suf n → ∃ i p q, suf !! i = Some (p, q) ∧ i_read d = (pre + i)%nat ∧ interest (pre + i) p q n = Some d.
Proof.
  revert pre. induction suf as [|[p' q'] suf IH]; intros pre; cbn; [by intros ?%not_elem_of_nil|]. rewrite elem_of_app. intros [Hd|Hd].
  - exists 0%nat, p', q'. rewrite Nat.add_0_r. destruct (interest pre p' q' n) as [d'|] eqn:E; cbn in Hd; [|by apply not_elem_of_nil in Hd].
    apply list_elem_of_singleton in Hd as ->. split_and!; [done|by apply (upto_some _ _ _ _ _ E)|done].
  - destruct (IH (S pre) Hd) as (i & p & q & Hi & -> & Ei). exists (S i), p, q. rewrite Nat.add_succ_comm in *. by split_and!.
Qed.

(** A read that a run of chunks does not concern has none of its bytes there. *)
Lemma run_mentions run n j i p q k d : in_row n run → orig !! i = Some (p, q) → n ≤ k < n + Z.of_nat (length run) → interest i p q k = Some d →
  ∃ d', d' ∈ dsts_from j run ∧ i_read d' = i_read d.
Proof.
  intros Hrow Hi Hk Hd. revert n j Hrow Hk. induction run as [|[m l] run IH]; intros n j Hrow Hk; [cbn in Hk; lia|].
  destruct Hrow as (-> & -> & Hrow). cbn [length] in Hk. rewrite dsts_from_cons. destruct (decide (k = n)) as [->|?].
  - exists (shift (Z.of_nat j) d). split; [|done]. apply elem_of_app. left. apply list_elem_of_fmap_2. by apply (wanted_elem i 0 orig n d p q).
  - destruct (IH (n + 1) (S j) Hrow) as (d' & ? & ?); [lia|]. exists d'. split; [|done]. apply elem_of_app. by right.
Qed.

(** One that it concerns has bytes there. *)
Lemma run_overlaps run n j d p q : in_row n run → d ∈ dsts_from j run → orig !! i_read d = Some (p, q) →
  n * DIO_CHUNK_SIZE < p + q ∧ p < (n + Z.of_nat (length run)) * DIO_CHUNK_SIZE.
Proof.
  revert n j. induction run as [|[m l] run IH]; intros n j Hrow; [by intros ?%not_elem_of_nil|].
  destruct Hrow as (-> & -> & Hrow). rewrite dsts_from_cons, elem_of_app. cbn [length]. intros [(d0 & -> & Hd0)%list_elem_of_fmap|Hd] Hi.
  - destruct (wanted_read _ _ _ _ Hd0) as (i & p' & q' & Hi' & Ei & Hd). cbn in Hi. rewrite Ei in Hi. cbn in Hi, Hd. rewrite Hi in Hi'. injection Hi' as <- <-.
    unfold interest, DIO_CHUNK_SIZE in *. destruct (Z.ltb_spec (Z.max p (n * 512)) (Z.min (p + q) ((n + 1) * 512))); [lia|done].
  - destruct (IH (n + 1) (S j) Hrow Hd Hi). unfold DIO_CHUNK_SIZE in *. lia.
Qed.

Lemma lookup_fail_all e l reads i : fail_all e l reads !! i =
  if decide (List.Exists (λ d, i_read d = i) l) then set_state (ReadFailed e) <$> reads !! i else reads !! i.
Proof.
  unfold fail_all. revert reads. induction l as [|d l IH]; intros reads; cbn [foldl].
  { rewrite decide_False; [done|]. by intros ?%Exists_nil. }
  rewrite IH. destruct (decide (i_read d = i)) as [E|E].
  - subst i. rewrite (decide_True (P := List.Exists _ (d :: l))) by (by left). rewrite list_lookup_alter_eq.
    destruct (reads !! i_read d); by destruct (decide (List.Exists _ l)).
  - rewrite list_lookup_alter_ne by done. destruct (decide (List.Exists (λ d0, i_read d0 = i) l)) as [H|H].
    + by rewrite decide_True by (by right).
    + rewrite decide_False; [done|]. intros [?|?]%Exists_cons; done.
Qed.

Lemma fail_all_length e l reads : length (fail_all e l reads) = length reads.
Proof. unfold fail_all. revert reads. induction l as [|d l IH]; intros reads; cbn; [done|]. by rewrite IH, length_alter. Qed.

(** A read that is done stays as it is. *)
Lemma st_ok_done k k' p q r : k ≤ k' → is_terminal (state r) → st_ok k p q r → st_ok k' p q r.
Proof.
  intros Hk Ht [Hp [He|Hst]]; (split; [done|]); [by left|right]. rewrite Hst in Ht |- *. unfold expected in *.
  assert (upto k p q ≤ upto k' p q ≤ Z.max p (p + q)) by (unfold upto, DIO_CHUNK_SIZE; lia). destruct (decide (p < upto k p q ∧ _)).
  - by rewrite decide_True by lia.
  - destruct (decide (0 < q ∧ _)) as [[? Eu]|]; [|done]. rewrite decide_False by lia. by rewrite decide_True by lia.
Qed.

(** The reads that a run concerns. *)
Lemma concerned run s i p q : in_row s run → orig !! i = Some (p, q) →
  List.Exists (λ d, i_read d = i) (dsts_from 0 run) ∨ upto (s + Z.of_nat (length run)) p q = upto s p q.
Proof.
  intros Hrow Hi. destruct (decide (List.Exists (λ d, i_read d = i) (dsts_from 0 run))) as [?|Hno]; [by left|right]. apply (upto_skip i); [lia|]. intros m Hm.
  destruct (interest i p q m) as [d|] eqn:Ed; [|done]. destruct Hno. destruct (run_mentions run s 0 i p q m d Hrow Hi Hm Ed) as (d' & Hd' & Er).
  apply List.Exists_exists. exists d'. rewrite <-list_elem_of_In. split; [done|]. rewrite Er. by apply (upto_some _ _ _ _ _ Ed).
Qed.

Lemma row_wanted n run m : in_row n run → Forall (λ x, x.2 ≠ []) run → n ≤ m < n + Z.of_nat (length run) → wanted_chunk orig m.
Proof.
  revert n. induction run as [|[m' l] run IH]; intros n Hrow Hne Hm; cbn [length] in Hm; [lia|]. destruct Hrow as (-> & -> & Hrow).
  pose proof (Forall_inv Hne) as Hl. cbn in Hl. apply Forall_inv_tail in Hne. destruct (decide (m = n)) as [->|?]; [|apply (IH (n + 1) Hrow Hne); lia].
  destruct (wanted 0 orig n) as [|d l] eqn:E; [done|]. destruct (wanted_read d 0 orig n) as (i & p & q & Hi & _ & Hd); [rewrite E; by left|].
  exists p, q. split; [by apply list_elem_of_lookup_2 in Hi|]. unfold interest in Hd. by destruct (Z.ltb_spec (Z.max p (n * DIO_CHUNK_SIZE)) (Z.min (p + q) ((n + 1) * DIO_CHUNK_SIZE))).
Qed.

Lemma execute_one_spec run reads s : in_row s run → Forall (λ x, x.2 ≠ []) run → (length run ≤ MAX_CHUNK_BATCH_SIZE)%nat → inv (λ _, s) reads → 0 ≤ s →
  ∃ reads', execute_one file (MkPhysical s (length run) (physical_dsts run)) reads = Ok reads' ∧ inv (λ _, s + Z.of_nat (length run)) reads'.
Proof.
  intros Hrow Hne Hmax Hinv Hs. set (k := Z.of_nat (length run)). pose proof Hinv as [Hlen Hi]. rewrite physical_dsts_from.
  unfold execute_one. cbn [dsts start_chunk_no nchunks]. fold k. destruct (all_done reads (dsts_from 0 run)) eqn:Edone.
  - exists reads. split; [done|]. split; [done|]. intros i p q Hip. destruct (Hi i p q Hip) as (r & Hr & Hst). exists r. split; [done|].
    destruct (concerned run s i p q Hrow Hip) as [Hm|Hm]; [|by apply (st_ok_upto s)]. apply List.Exists_exists in Hm as (d & Hd & <-).
    unfold all_done in Edone. rewrite forallb_forall in Edone. specialize (Edone d Hd). rewrite Hr in Edone. apply (st_ok_done s); [lia|by rewrite Edone|done].
  - destruct (reads_file (s * DIO_CHUNK_SIZE) (k * DIO_CHUNK_SIZE)) as [[e He]|(dst & Hd & Hle & Hcut)]; [unfold DIO_CHUNK_SIZE in *; lia..| |].
    + rewrite He. eexists; split; [done|]. split; [by rewrite fail_all_length|]. intros i p q Hip. destruct (Hi i p q Hip) as (r & Hr & Hst). rewrite lookup_fail_all, Hr.
      destruct (decide _) as [(d & Hd%list_elem_of_In & <-)%List.Exists_exists|Hno].
      * destruct (run_overlaps run s 0 d p q Hrow Hd Hip). eexists; split; [done|]. split; [by destruct Hst|]. left. exists e. split; [done|].
        exists s, k. split_and!; [done..|lia|]. intros m Hm. by apply (row_wanted s run).
      * exists r. split; [done|]. destruct (concerned run s i p q Hrow Hip) as [?|?]; [done|by apply (st_ok_upto s)].
    + rewrite Hd. cbv zeta in Hle, Hcut. fold (nread_of s k) in *. rewrite (proj2 (Z.leb_le _ _)) by done.
      rewrite slice_of_ok by (unfold nread_of in *; lia). cbn [mbind result_bind]. rewrite Hcut. fold (read_of s k).
      destruct (fill_run run reads s 0 s k Hrow Hinv Hs) as (reads' & -> & Hinv'); [lia..|]. by exists reads'.
Qed.

(** ** All of them *)

Lemma take_run_length n last bc : (length (take_run n last bc).1 ≤ n)%nat.
Proof.
  revert last bc. induction n as [|n IH]; intros last [|[m l] bc]; cbn; [lia..|]. specialize (IH (Some m) bc). destruct (take_run n (Some m) bc) as [run rest].
  destruct last as [m'|]; [destruct (_ =? _)|]; cbn in *; lia.
Qed.

Lemma take_run_spec n last bc : Forall (λ x : Z * list Interest, x.2 = wanted 0 orig x.1) bc → ∃ run rest, take_run n last bc = (run, rest) ∧ bc = run ++ rest ∧
  match last with Some m => in_row (m + 1) run | None => match run with [] => n = 0%nat ∨ bc = [] | (m, _) :: _ => in_row m run end end.
Proof.
  revert last bc. induction n as [|n IH]; intros last bc Hall; [by exists [], bc; destruct last; [|split_and!; [done..|by left]]|].
  destruct bc as [|[m l] bc]; [by exists [], []; destruct last; [|split_and!; [done..|by right]]|].
  pose proof (Forall_inv Hall) as Hl. cbn in Hl. apply Forall_inv_tail in Hall. destruct (IH (Some m) bc Hall) as (run & rest & E & -> & Hrow). cbn [take_run].
  destruct last as [m'|].
  - destruct (Z.eqb_spec m (m' + 1)) as [->|]; [|by exists [], ((m, l) :: run ++ rest)]. rewrite E. by exists ((m' + 1, l) :: run), rest.
  - rewrite E. by exists ((m, l) :: run), rest.
Qed.

Lemma in_row_bounds n run x : in_row n run → x ∈ run → n ≤ x.1 < n + Z.of_nat (length run).
Proof.
  revert n. induction run as [|[m l] run IH]; intros n Hrow; [by intros ?%not_elem_of_nil|]. destruct Hrow as (-> & _ & Hrow). cbn [length].
  intros [->|Hx]%elem_of_cons; [cbn; lia|]. specialize (IH (n + 1) Hrow Hx). lia.
Qed.

Lemma in_row_last n run : in_row n run → run ≠ [] → ∃ x, x ∈ run ∧ x.1 = n + Z.of_nat (length run) - 1.
Proof.
  revert n. induction run as [|[m l] run IH]; intros n Hrow Hne; [done|]. destruct Hrow as (-> & _ & Hrow). cbn [length].
  destruct run as [|y run]; [exists (n, l); split; [by left|cbn; lia]|]. destruct (IH (n + 1) Hrow) as (x & Hx & Ex); [done|]. exists x. split; [by right|].
  rewrite Ex. cbn [length]. lia.
Qed.

(** The chunks that are left. *)
Record left_over (k : Z) (bc : ByChunk) : Prop := {
  lo_sorted : bt_wf bc;
  lo_wanted : Forall (λ x : Z * list Interest, x.2 = wanted 0 orig x.1) bc;
  lo_nonempty : ∀ x, x ∈ bc → x.2 ≠ [] ∧ k ≤ x.1;
  lo_all : ∀ n, k ≤ n → wanted 0 orig n ≠ [] → ∃ l, (n, l) ∈ bc
}.

Lemma unwanted i p q n : orig !! i = Some (p, q) → wanted 0 orig n = [] → interest i p q n = None.
Proof.
  intros Hi Hw. destruct (interest i p q n) as [d|] eqn:E; [|done]. pose proof (wanted_elem i 0 orig n d p q Hi E) as Hd. rewrite Hw in Hd. by apply not_elem_of_nil in Hd.
Qed.

(** Nothing is left: the reads are complete. *)
Lemma nothing_left k p q i : left_over k [] → orig !! i = Some (p, q) → upto k p q = p + q.
Proof.
  intros [_ _ _ Hall] Hi. pose proof (Forall_lookup_1 _ _ _ _ reads_ok Hi) as (Hp & Hq). cbn in Hp, Hq.
  rewrite <-(upto_skip i p q k (Z.max k (p + q))); [unfold upto, DIO_CHUNK_SIZE; lia|lia|]. intros n Hn. apply (unwanted i); [done|].
  destruct (wanted 0 orig n) eqn:E; [done|]. destruct (Hall n) as (l0 & Hl0); [lia|by rewrite E|]. by apply not_elem_of_nil in Hl0.
Qed.

(** A run is taken off. *)
Lemma left_over_next k m run rest : left_over k (run ++ rest) → in_row m run → run ≠ [] → k ≤ m → left_over (m + Z.of_nat (length run)) rest.
Proof.
  intros [Hs Hw Hne Hall] Hrow Hrun Hk. unfold bt_wf in Hs. apply StronglySorted_app in Hs as (Hlt & _ & Hs). destruct (in_row_last m run Hrow Hrun) as (x & Hx & Ex). split.
  - done.
  - by apply Forall_app in Hw as [_ Hw].
  - intros y Hy. split; [apply Hne, elem_of_app; by right|]. pose proof (Hlt x y Hx Hy) as Hxy. apply (proj1 (klt_Z _ _)) in Hxy. lia.
  - intros n Hn Hw'. destruct (Hall n) as (l & [Hl|Hl]%elem_of_app); [lia|done| |by exists l]. apply (in_row_bounds m run) in Hl; [cbn in Hl; lia|done].
Qed.

Lemma execute_all_spec fuel bc k reads : (length bc ≤ fuel)%nat → left_over k bc → 0 ≤ k → inv (λ _, k) reads →
  ∃ reads' k', execute_all file (merge_chunks fuel bc) reads = Ok reads' ∧ inv (λ _, k') reads' ∧ left_over k' [].
Proof.
  revert bc k reads. induction fuel as [|fuel IH]; intros bc k reads Hf Hlo Hk Hinv.
  { destruct bc; [|cbn in Hf; lia]. by exists reads, k. }
  cbn [merge_chunks]. destruct (take_run_spec MAX_CHUNK_BATCH_SIZE None bc (lo_wanted _ _ Hlo)) as (run & rest & E & -> & Hrow). rewrite E.
  destruct run as [|[m l] run].
  { destruct Hrow as [?|Hbc]; [done|]. cbn in Hbc. subst rest. by exists reads, k. }
  set (run' := (m, l) :: run) in *. destruct (lo_nonempty _ _ Hlo (m, l)) as [Hl Hm]; [by left|]. cbn in Hl, Hm.
  assert (inv (λ _, m) reads) as Hinv'.
  { apply (inv_bump _ _ _ Hinv). intros i p q Hi. apply (upto_skip i); [done|]. intros n Hn. apply (unwanted i); [done|]. destruct (wanted 0 orig n) eqn:Ew; [done|].
    destruct (lo_all _ _ Hlo n) as (l' & Hl'); [lia|by rewrite Ew|]. pose proof (lo_sorted _ _ Hlo) as Hs. cbn [app] in Hs, Hl'. apply StronglySorted_cons in Hs as [Hs _].
    apply elem_of_cons in Hl' as [[= -> _]|Hl']; [lia|]. rewrite Forall_forall in Hs. specialize (Hs _ Hl'). apply (proj1 (klt_Z _ _)) in Hs. cbn in Hs. lia. }
  destruct (execute_one_spec run' reads m Hrow) as (reads1 & E1 & Hinv1); [|by pose proof (take_run_length MAX_CHUNK_BATCH_SIZE None (run' ++ rest)) as Hr; rewrite E in Hr|done|lia|].
  { apply Forall_forall. intros x Hx. apply (lo_nonempty _ _ Hlo). apply elem_of_app. by left. }
  cbn [execute_all]. rewrite E1. cbn [mbind result_bind].
  apply (IH rest (m + Z.of_nat (length run')) reads1); [|by apply (left_over_next k m run' rest)|lia|done]. rewrite length_app in Hf. cbn [run' length] in Hf. lia.
Qed.
End progress.

(** C22: Vectored direct reads give every logical read exactly the bytes of its part of the
    file, however the parts overlap and whichever chunks they share; a part that goes past
    the end of the file is answered with [UnexpectedEof].  The only other outcome is the
    error of a failed read of the file.  Such a read is of at most [MAX_CHUNK_BATCH_SIZE]
    chunks in a row, all of them wanted by some part, and its error goes only to parts
    that have bytes among them: a failure is not spread to the others.  A read of no bytes
    is left unfinished. *)
Theorem dio_execute_correct file c orig :
  (∀ start n, 0 ≤ start → 0 ≤ n →
    (∃ e, file start n = Err e) ∨
    (∃ dst, let nread := Z.max 0 (Z.min n (blen c - start)) in file start n = Ok (dst, nread) ∧ nread ≤ blen dst ∧ cut 0 nread dst = cut start (start + nread) c)) →
  Forall (λ x, 0 ≤ x.1 ∧ 0 ≤ x.2) orig →
  ∃ reads, execute file ((λ x, new x.1 x.2) <$> orig) = Ok reads ∧ length reads = length orig ∧
    ∀ i p q, orig !! i = Some (p, q) → ∃ r, reads !! i = Some r ∧
      (into_result r = (if q =? 0 then None else if p + q <=? blen c then Some (Ok (cut p (p + q) c)) else Some (Err UnexpectedEof)) ∨
       ∃ s k e, into_result r = Some (Err e) ∧ file (s * DIO_CHUNK_SIZE) (k * DIO_CHUNK_SIZE) = Err e ∧ s * DIO_CHUNK_SIZE < p + q ∧ p < (s + k) * DIO_CHUNK_SIZE ∧
         k ≤ Z.of_nat MAX_CHUNK_BATCH_SIZE ∧ ∀ m, s ≤ m < s + k → wanted_chunk orig m).
Proof.
  intros Hfile Hin. unfold execute. destruct (plan_spec orig 0 [] ltac:(by split; [constructor|])) as (bc & Ep & [Hwf Hne] & Hch).
  change ((λ x, new x.1 x.2) <$> orig) with (fresh <$> orig). rewrite Ep. cbn [mbind result_bind].
  assert (left_over orig 0 bc) as Hlo.
  { split; [done| | |].
    - apply Forall_forall. intros [n l] Hx. apply bt_get_elem in Hx; [|done]. cbn. specialize (Hch n). unfold chunk_of in Hch. rewrite Hx in Hch. by cbn in Hch.
    - intros [n l] Hx. apply bt_get_elem in Hx; [|done]. split; [by apply (Hne n)|]. cbn. specialize (Hch n). unfold chunk_of in Hch. rewrite Hx in Hch. cbn in Hch. subst l.
      destruct (decide (0 ≤ n)); [done|]. exfalso. apply (Hne n _ Hx).
      assert (∀ o i, Forall (λ x : Z * Z, 0 ≤ x.1 ∧ 0 ≤ x.2) o → wanted i o n = []) as Hw; [|by apply Hw].
      clear -n0. induction o as [|[p q] o IH]; intros i Ho; [done|]. cbn. rewrite IH by (by apply Forall_inv_tail in Ho). apply Forall_inv in Ho as (? & ?). cbn in *.
      unfold interest, DIO_CHUNK_SIZE. by rewrite (proj2 (Z.ltb_ge _ _)) by lia.
    - intros n _ Hw. specialize (Hch n). unfold chunk_of in Hch. cbn [bt_get default app] in Hch. destruct (bt_get n bc) as [l|] eqn:E; [|by cbn in Hch; rewrite <-Hch in Hw].
      exists l. by apply bt_get_elem. }
  destruct (execute_all_spec file c orig Hfile Hin (length bc) bc 0 (started <$> orig)) as (reads & k' & -> & [Hlen Hinv] & Hdone); [done|done|done|by apply inv_start|].
  exists reads. split_and!; [done..|]. intros i p q Hi. destruct (Hinv i p q Hi) as (r & Hr & Hp & Hst). exists r. split; [done|]. unfold into_result.
  destruct Hst as [(e & He & s & n & Hfail)|Hst]; [right; rewrite He; by exists s, n, e|left]. rewrite Hst. unfold expected.
  rewrite (nothing_left orig Hin k' p q i) by done. pose proof (Forall_lookup_1 _ _ _ _ Hin Hi) as (? & ?). cbn in *.
  destruct (Z.eqb_spec q 0); [by rewrite !decide_False by lia|]. destruct (Z.leb_spec (p + q) (blen c)); [|by rewrite decide_True by lia].
  rewrite decide_False by lia. by rewrite decide_True by lia.
Qed.

(** A file of six chunks and a part, its fourth chunk unreadable, and reads that overlap,
    cross chunks, are in the bad chunk, end with the file and after it, and have no bytes. *)
Definition dio_content : bytes := (λ n, Z.of_nat n mod 256) <$> seq 0 3100.
Definition dio_file (start n : Z) : result ReadError (bytes * Z) :=
  if (start <? 2048) && (1536 <? start + n) then Err DiskError
  else let nread := Z.max 0 (Z.min n (blen dio_content - start)) in Ok (cut start (start + nread) dio_content ++ zeros (n - nread), nread).
Definition dio_reads : list (Z * Z) := [(500, 500); (505, 10); (1600, 100); (3090, 10); (3090, 11); (7, 0)].

Lemma dio_file_bad start n e : dio_file start n = Err e → start < 2048 ∧ 1536 < start + n.
Proof. unfold dio_file. destruct (Z.ltb_spec start 2048), (Z.ltb_spec 1536 (start + n)); cbn [andb]; [done|discriminate..]. Qed.

Lemma dio_gap s k a b : (∀ m, s ≤ m < s + k → wanted_chunk dio_reads m) → s * DIO_CHUNK_SIZE < b → a < (s + k) * DIO_CHUNK_SIZE →
  s * DIO_CHUNK_SIZE < 2048 → 1536 < s * DIO_CHUNK_SIZE + k * DIO_CHUNK_SIZE → b ≤ 1024 ∨ 3072 ≤ a → False.
Proof.
  intros Hw Hb Ha Hs Hk Hab. assert (∀ m, m = 2 ∨ m = 5 → ¬ wanted_chunk dio_reads m) as Hno.
  { intros m Hm (p & q & Hin & Hlt). unfold dio_reads, DIO_CHUNK_SIZE in *. rewrite !elem_of_cons, elem_of_nil in Hin. naive_solver lia. }
  unfold DIO_CHUNK_SIZE in *. destruct Hab; [apply (Hno 2)|apply (Hno 5)]; try apply Hw; lia.
Qed.

Lemma dio_execute_correct_witness : ∃ reads, execute dio_file ((λ x, new x.1 x.2) <$> dio_reads) = Ok reads ∧
  (into_result <$> reads !! 0%nat) = Some (Some (Ok (cut 500 1000 dio_content))) ∧ (into_result <$> reads !! 4%nat) = Some (Some (Err UnexpectedEof)).
Proof.
  assert (blen dio_content = 3100) as EL by (vm_compute; reflexivity).
  destruct (dio_execute_correct dio_file dio_content dio_reads) as (reads & E & _ & H).
  - intros start n Hs Hn. unfold dio_file. destruct (_ && _); [left; by eexists|right]. eexists. cbv zeta. set (nread := Z.max 0 _). assert (nread = Z.max 0 (Z.min n (blen dio_content - start))) by done. split_and!; [reflexivity| |]; fold nread; clearbody nread.
    + pose proof (blen_nonneg (zeros (n - nread))). rewrite blen_app, blen_cut_min by lia. lia.
    + assert (blen (cut start (start + nread) dio_content) = nread) as Eb by (rewrite blen_cut_min; lia). rewrite cut_app_l by lia. apply cut_all. lia.
  - unfold dio_reads. repeat (constructor; [cbn; lia|]). constructor.
  - exists reads. split; [exact E|]. split.
    + destruct (H 0%nat 500 500 eq_refl) as (r & Hr & [Ho|(s & k & e & _ & Hf & Hs & Hk & _ & Hw)]); [rewrite Hr; apply (f_equal Some); rewrite Ho, EL; reflexivity|]. exfalso.
      clear E H. apply dio_file_bad in Hf as [??]. by apply (dio_gap s k _ _ Hw Hs Hk); [..|lia].
    + destruct (H 4%nat 3090 11 eq_refl) as (r & Hr & [Ho|(s & k & e & _ & Hf & Hs & Hk & _ & Hw)]); [rewrite Hr; apply (f_equal Some); rewrite Ho, EL; reflexivity|]. exfalso.
      clear E H. apply dio_file_bad in Hf as [??]. by apply (dio_gap s k _ _ Hw Hs Hk); [..|lia].
Defined.

(** A read of no bytes does not complete, although its buffer is filled. *)
Remark empty_read_is_left (file : Z → Z → result ReadError (bytes * Z)) (p : Z) : ∃ r, execute file [new p 0] = Ok [r] ∧ into_result r = None.
Proof. by eexists. Qed.
