(* ===== verification/Membership.v ===== *)
(** Safekeeper membership configurations: [libs/safekeeper_api/src/membership.rs].
    A generation and a node id are integers ([u32], [u64]); a member set keeps the
    order of its vector. *)

From S2P Require Import Prelude Text.
Local Open Scope Z_scope.

Abbreviation Generation := Z (only parsing).
Abbreviation NodeId := Z (only parsing).

Definition INVALID_GENERATION : Generation := 0.
Definition INITIAL_GENERATION : Generation := 1.

Module Generation.
Definition previous (self : Generation) : option Generation := checked_sub self 1.
Definition next (self : Generation) : Generation := wrapping_add 32 self 1.
End Generation.

Record SafekeeperId := MkSafekeeperId { sk_id : NodeId; host : bytes; pg_port : Z }.

#[global] Instance SafekeeperId_eq_dec : EqDecision SafekeeperId.
Proof. solve_decision. Defined.

Inductive MembershipError := DuplicateSafekeeper.

Module MemberSet.
Abbreviation t := (list SafekeeperId).
Definition empty : t := [].

(** The number of ids in the [HashSet] against the length of the vector. *)
Definition new (members : list SafekeeperId) : result MembershipError t :=
  if (length (remove_dups (sk_id <$> members)) =? length members)%nat then Ok members
  else Err DuplicateSafekeeper.

Definition contains (sk : NodeId) (self : t) : bool := existsb (λ m, sk_id m =? sk) self.

Definition add (sk : SafekeeperId) (self : t) : result MembershipError t :=
  if contains (sk_id sk) self then Err DuplicateSafekeeper else Ok (self ++ [sk]).
End MemberSet.

Record Configuration := MkConfiguration {
  generation : Generation;
  members : MemberSet.t;
  new_members : option MemberSet.t
}.

#[global] Instance Configuration_eq_dec : EqDecision Configuration.
Proof. solve_decision. Defined.

Module Configuration.
Definition empty : Configuration := MkConfiguration INVALID_GENERATION MemberSet.empty None.
Definition new (members : MemberSet.t) : Configuration := MkConfiguration INITIAL_GENERATION members None.
Definition contains (self : Configuration) (sk_id : NodeId) : bool :=
  MemberSet.contains sk_id (members self) ||
  match new_members self with Some m => MemberSet.contains sk_id m | None => false end.
End Configuration.

(** * Member sets have no duplicates *)

Definition set_ok (m : MemberSet.t) : Prop := NoDup (sk_id <$> m).

Lemma contains_elem sk m : MemberSet.contains sk m = true ↔ sk ∈ sk_id <$> m.
Proof.
  unfold MemberSet.contains. rewrite existsb_exists. rewrite list_elem_of_fmap. split.
  - intros (x & Hx & E%Z.eqb_eq). exists x. by rewrite list_elem_of_In.
  - intros (x & -> & Hx). exists x. rewrite list_elem_of_In in Hx. split; [done|]. apply Z.eqb_refl.
Qed.

Lemma add_ok sk m m' : MemberSet.add sk m = Ok m' → set_ok m → set_ok m' ∧ m' = m ++ [sk].
Proof.
  unfold MemberSet.add. destruct (MemberSet.contains _ _) eqn:E; [done|]. intros [= <-] Hm. split; [|done].
  unfold set_ok in *. rewrite fmap_app. apply NoDup_app. split; [done|]. split; [|apply NoDup_singleton].
  intros x Hx ->%list_elem_of_singleton. apply contains_elem in Hx. simpl in Hx. congruence.
Qed.

(** Adding the members of a set without duplicates one after the other. *)
Lemma add_fresh sk m : set_ok (m ++ [sk]) → MemberSet.add sk m = Ok (m ++ [sk]).
Proof.
  unfold set_ok, MemberSet.add. rewrite fmap_app, NoDup_app. intros (_ & Hd & _).
  destruct (MemberSet.contains _ _) eqn:E; [|done]. apply contains_elem in E.
  destruct (Hd _ E). simpl. constructor.
Qed.
