(* ===== verification/TermHistories.v ===== *)
(** Term histories of the safekeeper's log: [TermLsn], [TermHistory] and
    [AcceptorState] of [safekeeper/src/safekeeper.rs].

    A history lists the terms whose leaders wrote the WAL, each with the LSN
    where it starts.  [find_highest_common_point] compares the history of a new
    leader with that of the safekeeper; the WAL is truncated there. *)

From S2P Require Import Prelude Lsns.
Local Open Scope Z_scope.

Abbreviation Term := Z (only parsing).

Record TermLsn := MkTermLsn { term : Term; lsn : Lsn }.

#[global] Instance TermLsn_eq_dec : EqDecision TermLsn.
Proof. solve_decision. Defined.

Module TermHistory.
Abbreviation t := (list TermLsn).
Definition empty : t := [].

Fixpoint up_to (self : t) (bound : Lsn) : t :=
  match self with
  | [] => []
  | e :: l => if bound <? lsn e then [] else e :: up_to l bound
  end.

(** The loop over the indices both histories have: [last] is the last index with
    equal terms; equal terms with different start LSNs fail the assertion. *)
Fixpoint last_common (i : nat) (prop_th sk_th : t) (last : option nat) : result unit (option nat) :=
  match prop_th, sk_th with
  | p :: prop_th', s :: sk_th' =>
      if negb (term p =? term s) then Ok last
      else if negb (lsn p =? lsn s) then Panic
      else last_common (S i) prop_th' sk_th' (Some i)
  | _, _ => Ok last
  end.

Definition find_highest_common_point (prop_th sk_th : t) (sk_wal_end : Lsn) : result unit (option TermLsn) :=
  if match last sk_th with Some sk_th_last => negb (lsn sk_th_last <=? sk_wal_end) | None => false end then Panic
  else
    last_common_idx ← last_common 0 prop_th sk_th None;
    match last_common_idx with
    | None => Ok None
    | Some i =>
        match prop_th !! i, prop_th !! S i with
        | Some p, None => Ok (Some (MkTermLsn (term p) sk_wal_end))
        | Some p, Some p' =>
            let prop_common_term_end := lsn p' in
            let sk_common_term_end := match sk_th !! S i with Some s' => lsn s' | None => sk_wal_end end in
            Ok (Some (MkTermLsn (term p) (Z.min prop_common_term_end sk_common_term_end)))
        | None, _ => Panic
        end
    end.
End TermHistory.

Record AcceptorState := MkAcceptorState { acc_term : Term; acc_history : TermHistory.t }.

#[global] Instance AcceptorState_eq_dec : EqDecision AcceptorState.
Proof. solve_decision. Defined.

Definition last_term (th : TermHistory.t) : Term := match last th with Some e => term e | None => 0 end.

Module AcceptorState.
Definition get_last_log_term (self : AcceptorState) (flush_lsn : Lsn) : Term :=
  last_term (TermHistory.up_to (acc_history self) flush_lsn).
End AcceptorState.

(** * What a history says *)

(** Terms increase; the LSNs where they start do not decrease. *)
Record th_wf (th : TermHistory.t) : Prop := {
  th_terms : StronglySorted (λ a b, term a < term b) th;
  th_lsns : StronglySorted (λ a b, lsn a ≤ lsn b) th
}.

(** The term whose leader wrote the byte at [l]. *)
Definition term_at (th : TermHistory.t) (l : Lsn) : option Term := term <$> last (TermHistory.up_to th l).

Lemma up_to_all th l : Forall (λ e, lsn e ≤ l) th → TermHistory.up_to th l = th.
Proof.
  induction 1 as [|e th He _ IH]; [done|]. simpl. rewrite (proj2 (Z.ltb_ge _ _)) by done. by f_equal.
Qed.

Lemma up_to_app a b l :
  Forall (λ e, lsn e ≤ l) a → TermHistory.up_to (a ++ b) l = a ++ TermHistory.up_to b l.
Proof.
  induction 1 as [|e a He _ IH]; [done|]. simpl. rewrite (proj2 (Z.ltb_ge _ _)) by done. by f_equal.
Qed.

Lemma up_to_prefix th l : ∃ rest, th = TermHistory.up_to th l ++ rest ∧
  Forall (λ e, lsn e ≤ l) (TermHistory.up_to th l) ∧ match rest with e :: _ => l < lsn e | [] => True end.
Proof.
  induction th as [|e th (rest & E & Hf & Hr)]; simpl; [by exists []|].
  destruct (Z.ltb_spec l (lsn e)) as [Hlt|Hge]; [by exists (e :: th)|].
  exists rest. split; [by rewrite E at 1|]. split; [by constructor|done].
Qed.

(** Before the switch at the head of [b] a history is that of [a]. *)
Lemma up_to_before a b l :
  match b with e :: _ => l < lsn e | [] => True end → TermHistory.up_to (a ++ b) l = TermHistory.up_to a l.
Proof.
  intros Hb. induction a as [|e a IH]; simpl.
  - destruct b as [|e b]; [done|]. simpl. by rewrite (proj2 (Z.ltb_lt _ _)).
  - destruct (l <? lsn e); [done|]. by rewrite IH.
Qed.

(** From there on the term is one of [b]. *)
Lemma term_at_after a e b l :
  th_wf (a ++ e :: b) → lsn e ≤ l → ∃ x, x ∈ e :: b ∧ term_at (a ++ e :: b) l = Some (term x).
Proof.
  intros [_ Hl] He. unfold term_at. rewrite up_to_app.
  - simpl. rewrite (proj2 (Z.ltb_ge _ _)) by done.
    destruct (last (e :: TermHistory.up_to b l)) as [x|] eqn:E; [|by apply last_None in E].
    exists x. rewrite last_app, E. split; [|done].
    apply last_Some in E as (l' & E). destruct (up_to_prefix b l) as (rest & Eb & _).
    rewrite Eb. rewrite app_comm_cons, E, !elem_of_app. left. right. constructor.
  - apply StronglySorted_app in Hl as (Hl & _). apply Forall_forall. intros x Hx.
    specialize (Hl x e Hx ltac:(constructor)). simpl in Hl. lia.
Qed.

Lemma term_at_elem th l t : term_at th l = Some t → ∃ x, x ∈ th ∧ term x = t ∧ lsn x ≤ l.
Proof.
  unfold term_at. destruct (up_to_prefix th l) as (rest & Eth & Hle & _).
  destruct (last _) as [x|] eqn:E; [|done]. intros [= <-]. exists x.
  apply last_Some in E as (l' & E). rewrite E in Hle. apply Forall_app in Hle as [_ Hle%Forall_inv].
  split; [|done]. rewrite Eth, E, !elem_of_app. left. right. constructor.
Qed.

(** * The highest common point *)

(** Leaders of one term have one history: where two histories have a term in
    common, they agree up to it. *)
Definition log_matching (a b : TermHistory.t) : Prop :=
  ∀ i j x y, a !! i = Some x → b !! j = Some y → term x = term y → take (S i) a = take (S j) b.

(** The common part of two histories and what follows it. *)
Lemma last_common_spec p s i acc :
  (∀ k x y, p !! k = Some x → s !! k = Some y → term x = term y → x = y) →
  ∃ pre p' s', p = pre ++ p' ∧ s = pre ++ s' ∧
    match p', s' with x :: _, y :: _ => term x ≠ term y | _, _ => True end ∧
    TermHistory.last_common i p s acc =
      Ok (match pre with [] => acc | _ => Some (i + length pre - 1)%nat end).
Proof.
  revert s i acc. induction p as [|x p IH]; intros s i acc Heq.
  { exists [], [], s. by destruct s. }
  destruct s as [|y s]; [by exists [], (x :: p), []|]. simpl.
  destruct (Z.eqb_spec (term x) (term y)) as [E|E]; simpl; [|by exists [], (x :: p), (y :: s)].
  pose proof (Heq 0%nat x y eq_refl eq_refl E) as ->. rewrite Z.eqb_refl. simpl.
  destruct (IH s (S i) (Some i)) as (pre & p' & s' & -> & -> & Hne & ->); [intros k; apply (Heq (S k))|].
  exists (y :: pre), p', s'. split; [done|]. split; [done|]. split; [done|].
  f_equal. destruct pre; simpl; f_equal; lia.
Qed.

Lemma matching_same_index a b k x y :
  log_matching a b → a !! k = Some x → b !! k = Some y → term x = term y → x = y.
Proof.
  intros Hm Ha Hb E. pose proof (Hm k k x y Ha Hb E) as Et.
  rewrite <-(lookup_take_lt a (S k) k) in Ha by lia. rewrite <-(lookup_take_lt b (S k) k) in Hb by lia. congruence.
Qed.

(** After the common part no term is common. *)
Lemma matching_suffix pre p' s' :
  log_matching (pre ++ p') (pre ++ s') →
  match p', s' with x :: _, y :: _ => term x ≠ term y | _, _ => True end →
  ∀ x y, x ∈ p' → y ∈ s' → term x ≠ term y.
Proof.
  intros Hm Hne x y [i Hi]%list_elem_of_lookup_1 [j Hj]%list_elem_of_lookup_1 E.
  assert ((pre ++ p') !! (length pre + i)%nat = Some x) as Hx by (rewrite lookup_app_r by lia; by rewrite Nat.add_comm, Nat.add_sub).
  assert ((pre ++ s') !! (length pre + j)%nat = Some y) as Hy by (rewrite lookup_app_r by lia; by rewrite Nat.add_comm, Nat.add_sub).
  pose proof (Hm _ _ x y Hx Hy E) as Et. destruct p' as [|x0 p'], s' as [|y0 s']; [done..|].
  apply (f_equal (λ l, l !! length pre)) in Et. cbv beta in Et. rewrite !lookup_take_lt in Et by lia.
  rewrite !list_lookup_middle in Et by done. simplify_eq.
Qed.

Lemma sorted_terms_disjoint a b x y : th_wf (a ++ b) → x ∈ a → y ∈ b → term x < term y.
Proof. intros [Ht _] Hx Hy. apply StronglySorted_app in Ht as (Ht & _). by apply Ht. Qed.

Lemma term_at_common pre p' l :
  match p' with e :: _ => l < lsn e | [] => True end → term_at (pre ++ p') l = term_at pre l.
Proof. intros H. unfold term_at. by rewrite up_to_before. Qed.

(** Has the switch at the head of [q] happened at [l]? *)
Definition switched (q : TermHistory.t) (l : Lsn) : bool := match q with e :: _ => lsn e <=? l | [] => false end.

Lemma th_wf_app_l a b : th_wf (a ++ b) → th_wf a.
Proof. intros [Ht Hl]. apply StronglySorted_app in Ht as (_ & ? & _). by apply StronglySorted_app in Hl as (_ & ? & _). Qed.

Lemma side_spec pre q first l :
  th_wf (pre ++ q) → head pre = Some first → lsn first ≤ l →
  if switched q l then ∃ x, x ∈ q ∧ term_at (pre ++ q) l = Some (term x)
  else term_at (pre ++ q) l = term_at pre l ∧ ∃ x, x ∈ pre ∧ term_at pre l = Some (term x).
Proof.
  intros Hw Hf Hl. destruct (switched q l) eqn:E.
  - destruct q as [|e q]; [done|]. simpl in E. apply term_at_after; [done|lia].
  - rewrite term_at_common by (destruct q; [done|simpl in E; lia]). split; [done|].
    destruct pre as [|f0 pre]; [done|]. simplify_eq/=.
    apply (term_at_after [] first pre l); [|done]. by apply (th_wf_app_l (first :: pre) q).
Qed.

(** The cases of the common part and what follows it. *)
Lemma common_point_cases pre p' s' sk_wal_end first :
  th_wf (pre ++ p') → th_wf (pre ++ s') → (∀ x y, x ∈ p' → y ∈ s' → term x ≠ term y) →
  Forall (λ e, lsn e ≤ sk_wal_end) (pre ++ s') → (p' = [] → s' = []) → head pre = Some first →
  let point := match p' with
    | [] => sk_wal_end
    | pe :: _ => Z.min (lsn pe) (match s' with se :: _ => lsn se | [] => sk_wal_end end) end in
  lsn first ≤ point ≤ sk_wal_end ∧
  ∀ l, lsn first ≤ l < sk_wal_end → l < point ↔ term_at (pre ++ p') l = term_at (pre ++ s') l.
Proof.
  intros Hp Hs Hdis Hend Hlast Hfirst point. rewrite Forall_forall in Hend.
  assert (first ∈ pre) as Hin by (destruct pre; simplify_eq/=; constructor).
  assert (lsn first ≤ sk_wal_end) as Hfe by (apply Hend, elem_of_app; by left).
  assert (∀ e q, th_wf (pre ++ e :: q) → lsn first ≤ lsn e) as Hstart.
  { intros e q [_ Hl]. apply StronglySorted_app in Hl as (Hl & _). apply Hl; [done|constructor]. }
  assert (∀ l, l < sk_wal_end → l < point ↔ switched p' l = false ∧ switched s' l = false) as Hpoint.
  { intros l Hl. subst point. destruct p' as [|pe p']; simpl; [rewrite (Hlast eq_refl); simpl; lia|].
    destruct s' as [|se s']; simpl; lia. }
  split.
  { subst point. destruct p' as [|pe p']; [lia|]. apply Hstart in Hp. destruct s' as [|se s']; [lia|].
    assert (lsn se ≤ sk_wal_end) by (apply Hend, elem_of_app; right; constructor). apply Hstart in Hs. lia. }
  intros l Hl. rewrite Hpoint by lia.
  pose proof (side_spec pre p' first l Hp Hfirst ltac:(lia)) as H1.
  pose proof (side_spec pre s' first l Hs Hfirst ltac:(lia)) as H2.
  destruct (switched p' l), (switched s' l); (split; [intros [? ?]; try done|]).
  - intros E. destruct H1 as (x & Hx & E1), H2 as (y & Hy & E2). exfalso. apply (Hdis x y Hx Hy). congruence.
  - intros E. destruct H1 as (x & Hx & E1), H2 as (E2 & y & Hy & E3).
    pose proof (sorted_terms_disjoint _ _ y x Hp Hy Hx). assert (term x = term y) by congruence. lia.
  - intros E. destruct H1 as (E1 & x & Hx & E3), H2 as (y & Hy & E2).
    pose proof (sorted_terms_disjoint _ _ x y Hs Hx Hy). assert (term x = term y) by congruence. lia.
  - destruct H1 as [-> _], H2 as [-> _]. done.
  - done.
Qed.

(** The end of the common part: [p'] and [s'] are what follows it on both sides. *)
Definition common_end (p' s' : TermHistory.t) (sk_wal_end : Lsn) : Lsn :=
  match p' with
  | [] => sk_wal_end
  | pe :: _ => Z.min (lsn pe) (match s' with se :: _ => lsn se | [] => sk_wal_end end)
  end.

Lemma common_point_form prop_th sk_th sk_wal_end :
  (∀ k x y, prop_th !! k = Some x → sk_th !! k = Some y → term x = term y → x = y) →
  Forall (λ e, lsn e ≤ sk_wal_end) sk_th →
  ∃ pre p' s', prop_th = pre ++ p' ∧ sk_th = pre ++ s' ∧
    match p', s' with x :: _, y :: _ => term x ≠ term y | _, _ => True end ∧
    TermHistory.find_highest_common_point prop_th sk_th sk_wal_end =
      Ok ((λ e, MkTermLsn (term e) (common_end p' s' sk_wal_end)) <$> last pre).
Proof.
  intros Hm Hend. unfold TermHistory.find_highest_common_point.
  destruct (last_common_spec prop_th sk_th 0 None Hm) as (pre & p' & s' & -> & -> & Hne & ->). exists pre, p', s'.
  split_and!; [done..|].
  assert (match last (pre ++ s') with Some e => negb (lsn e <=? sk_wal_end) | None => false end = false) as ->.
  { destruct (last _) as [e|] eqn:E; [|done]. apply last_Some_elem_of in E. rewrite Forall_forall in Hend.
    specialize (Hend e E). cbv beta in Hend. lia. }
  cbn [mbind result_bind]. destruct pre as [|e pre _] using rev_ind; [done|].
  assert (match pre ++ [e] with [] => None | _ => Some (0 + length (pre ++ [e]) - 1)%nat end = Some (length pre)) as ->.
  { destruct (pre ++ [e]) eqn:E0; [by destruct pre|]. rewrite <-E0, length_app. cbn. f_equal. lia. }
  rewrite last_snoc, <-!app_assoc. cbn [app]. rewrite list_lookup_middle by done.
  rewrite !(lookup_app_r pre) by lia. replace (S (length pre) - length pre)%nat with 1%nat by lia. cbn [lookup list_lookup].
  by destruct p' as [|pe p'], s' as [|se s'].
Qed.

(** A safekeeper without a later term has nothing after the leader's last term. *)
Lemma common_tail pre e p' s' :
  th_wf ((pre ++ [e]) ++ s') → Forall (λ x, term x ≤ last_term ((pre ++ [e]) ++ p')) ((pre ++ [e]) ++ s') → p' = [] → s' = [].
Proof.
  intros Hs Hterm ->. destruct s' as [|se s']; [done|]. exfalso. rewrite Forall_forall in Hterm.
  specialize (Hterm se ltac:(apply elem_of_app; right; constructor)). unfold last_term in Hterm.
  rewrite app_nil_r, last_snoc in Hterm.
  pose proof (sorted_terms_disjoint _ _ e se Hs ltac:(apply elem_of_app; right; constructor) ltac:(constructor)). lia.
Qed.


