(* ===== verification/Consensus.v ===== *)
(** The consensus between proposers and acceptors, as an abstract protocol on term
    histories: what the safekeepers ([safekeeper/src/safekeeper.rs]) and the
    proposer ([pgxn/neon/walproposer.c]) promise each other, without messages.

    An acceptor has a term, a term history and the LSN up to which its log is
    flushed; the history says which term wrote which part of the log.  A proposer
    that has the votes of a quorum takes the log of the most advanced voter and
    continues it in its own term.  Every step may be delayed arbitrarily and
    happen any number of times.  The theorems of the clients are about their own
    steps; this file shows what all of them rest on: a log that a quorum has
    acknowledged is in the history of every later proposer. *)

From S2P Require Import Prelude Lsns TermHistories.
From stdpp Require Import gmap.
Local Open Scope Z_scope.

(** * The protocol *)

Record Acceptor := MkAcceptor { a_term : Term; a_hist : TermHistory.t; a_flush : Lsn }.

(** The log of an acceptor: the part of the history that is flushed. *)
Definition a_log (a : Acceptor) : TermHistory.t := TermHistory.up_to (a_hist a) (a_flush a).

(** A quorum system: any two quorums have a member in common. *)
Class Quorum (A : Type) `{Countable A} := {
  quorum : gset A → Prop;
  quorum_meet : ∀ Q1 Q2, quorum Q1 → quorum Q2 → ∃ a, a ∈ Q1 ∧ a ∈ Q2
}.

Section protocol.
Context {A P : Type} `{Quorum A} (L : Lsn).

Record Vote := MkVote { v_acc : A; v_prop : P; v_term : Term; v_hist : TermHistory.t; v_flush : Lsn }.
Record Leader := MkLeader { l_prop : P; l_term : Term; l_hist : TermHistory.t }.
Record Ack := MkAck { k_acc : A; k_term : Term; k_lsn : Lsn }.

(** Acceptors, and everything that was ever voted, elected and acknowledged. *)
Record World := MkWorld { accs : A → Acceptor; votes : list Vote; elected : list Leader; acks : list Ack }.

Definition set_acc (a : A) (x : Acceptor) (f : A → Acceptor) : A → Acceptor := λ b, if decide (b = a) then x else f b.

(** The order of votes: by the last term of the log, then by its end. *)
Definition vote_le (v d : Vote) : Prop :=
  last_term (v_hist v) < last_term (v_hist d) ∨
  last_term (v_hist v) = last_term (v_hist d) ∧ v_flush v ≤ v_flush d.

(** Where the log of a new leader begins that starts from vote [d]: at the start of
    the timeline if nothing was written yet. *)
Definition start_from (d : Vote) : Lsn := if v_flush d =? 0 then L else v_flush d.

(** History [h] has everything of [th] up to [l]. *)
Definition contains (h th : TermHistory.t) (l : Lsn) : Prop :=
  ∃ rest, h = th ++ rest ∧ match rest with e :: _ => l ≤ lsn e | [] => True end.

(** [s] is a position to cut the log of an acceptor at and to continue it with
    history [th]: the log is not longer than before unless there is none, its
    bytes have the same terms in both histories, and it keeps what both have. *)
Record cut_ok (th : TermHistory.t) (a : Acceptor) (s : Lsn) : Prop := {
  cut_start : L ≤ s;
  cut_within : s ≤ a_flush a ∨ ∀ l, l < s → term_at th l = None;
  cut_agrees l : l < s → term_at th l = term_at (a_hist a) l;
  cut_covers h s0 l : last h = Some s0 → lsn s0 ≤ l → contains th h l → contains (a_hist a) h l → l ≤ a_flush a → l ≤ s
}.

Inductive step (w : World) : World → Prop :=
  | step_term a t :
      a_term (accs w a) < t →
      step w (MkWorld (set_acc a (MkAcceptor t (a_hist (accs w a)) (a_flush (accs w a))) (accs w))
                (votes w) (elected w) (acks w))
  | step_vote a p t :
      a_term (accs w a) < t →
      step w (MkWorld (set_acc a (MkAcceptor t (a_hist (accs w a)) (a_flush (accs w a))) (accs w))
                (MkVote a p t (a_log (accs w a)) (a_flush (accs w a)) :: votes w) (elected w) (acks w))
  | step_elect p t Q d :
      (∀ e, e ∈ elected w → l_prop e ≠ p) → quorum Q →
      d ∈ votes w → v_prop d = p → v_term d = t →
      (∀ a, a ∈ Q → ∃ v, v ∈ votes w ∧ v_acc v = a ∧ v_prop v = p ∧ v_term v = t ∧ vote_le v d) →
      step w (MkWorld (accs w) (votes w)
                (MkLeader p t (v_hist d ++ [MkTermLsn t (start_from d)]) :: elected w) (acks w))
  | step_cut a e s :
      e ∈ elected w → a_term (accs w a) = l_term e → cut_ok (l_hist e) (accs w a) s →
      step w (MkWorld (set_acc a (MkAcceptor (a_term (accs w a)) (a_hist (accs w a)) s) (accs w))
                (votes w) (elected w) (acks w))
  | step_adopt a e s :
      e ∈ elected w → a_term (accs w a) = l_term e → cut_ok (l_hist e) (accs w a) s →
      step w (MkWorld (set_acc a (MkAcceptor (a_term (accs w a)) (l_hist e) s) (accs w))
                (votes w) (elected w) (acks w))
  | step_grow a e s :
      e ∈ elected w → a_hist (accs w a) = l_hist e → a_flush (accs w a) ≤ s →
      step w (MkWorld (set_acc a (MkAcceptor (a_term (accs w a)) (a_hist (accs w a)) s) (accs w))
                (votes w) (elected w) (acks w))
  | step_ack a e l :
      e ∈ elected w → a_term (accs w a) = l_term e → a_hist (accs w a) = l_hist e → l ≤ a_flush (accs w a) →
      step w (MkWorld (accs w) (votes w) (elected w) (MkAck a (l_term e) l :: acks w)).

(** The timeline starts at [L] on every acceptor, with the history of its creation
    or with none. *)
Definition origin (fresh : bool) : TermHistory.t := if fresh then [] else [MkTermLsn 0 L].

Definition initial (fresh : bool) : World :=
  MkWorld (λ _, MkAcceptor 0 (origin fresh) (if fresh then 0 else L)) [] [] [].

(** [t] has committed up to [c]: a quorum has acknowledged [c] or more to the leader
    of term [t], and [c] is not before the start of its term. *)
Definition committed (w : World) (e : Leader) (c : Lsn) : Prop :=
  e ∈ elected w ∧ (∃ s, last (l_hist e) = Some s ∧ lsn s ≤ c) ∧
  ∃ Q, quorum Q ∧ ∀ a, a ∈ Q → ∃ k, k ∈ acks w ∧ k_acc k = a ∧ k_term k = l_term e ∧ c ≤ k_lsn k.

(** * The invariant *)

Section invariant.
Context (fresh : bool).

(** The histories there are: the origin's and those of the leaders. *)
Definition known (w : World) (th : TermHistory.t) : Prop :=
  th = origin fresh ∨ ∃ e, e ∈ elected w ∧ l_hist e = th.

(** An acknowledged position is in a log unless some leader of a later term, up to
    [bound], lacks it. *)
Definition kept (w : World) (k : Ack) (bound : Term) (h : TermHistory.t) (f : Lsn) : Prop :=
  ∀ e s l, e ∈ elected w → l_term e = k_term k → last (l_hist e) = Some s → lsn s ≤ l ≤ k_lsn k →
    (∀ e', e' ∈ elected w → k_term k < l_term e' ≤ bound → contains (l_hist e') (l_hist e) l) →
    contains h (l_hist e) l ∧ l ≤ f.

(** Where a log with history [h] may end. *)
Definition flush_ok (h : TermHistory.t) (f : Lsn) : Prop := h = [] ∧ f = 0 ∨ L ≤ f ∧ (h = [] → f = L).

Record invariant (w : World) : Prop := {
  i_hist a : known w (a_hist (accs w a)) ∧ 0 ≤ last_term (a_hist (accs w a)) ≤ a_term (accs w a) ∧
    flush_ok (a_hist (accs w a)) (a_flush (accs w a));
  i_vote v : v ∈ votes w →
    (∃ th rest, known w th ∧ th = v_hist v ++ rest) ∧ Forall (λ x, lsn x ≤ v_flush v) (v_hist v) ∧
    0 ≤ last_term (v_hist v) < v_term v ∧ v_term v ≤ a_term (accs w (v_acc v)) ∧
    flush_ok (v_hist v) (v_flush v);
  i_vote_once v v' : v ∈ votes w → v' ∈ votes w → v_acc v = v_acc v' → v_term v = v_term v' → v = v';
  i_leader e : e ∈ elected w → th_wf (l_hist e) ∧ 0 < l_term e ∧
    ∃ d Q, quorum Q ∧ d ∈ votes w ∧ v_term d = l_term e ∧ l_hist e = v_hist d ++ [MkTermLsn (l_term e) (start_from d)] ∧
      ∀ a, a ∈ Q → ∃ v, v ∈ votes w ∧ v_acc v = a ∧ v_prop v = l_prop e ∧ v_term v = l_term e ∧ vote_le v d;
  i_leader_once e e' : e ∈ elected w → e' ∈ elected w → l_term e = l_term e' → e = e';
  i_head th : known w th → match th with x :: _ => lsn x = L | [] => True end;
  i_prefix th d x rest : known w th → th = d ++ x :: rest → known w (d ++ [x]);
  i_ack k : k ∈ acks w → k_term k ≤ a_term (accs w (k_acc k)) ∧
    kept w k (a_term (accs w (k_acc k))) (a_hist (accs w (k_acc k))) (a_flush (accs w (k_acc k)));
  i_ack_vote k v : k ∈ acks w → v ∈ votes w → v_acc v = k_acc k → k_term k < v_term v →
    kept w k (v_term v - 1) (v_hist v) (v_flush v);
  i_ack_leader k : k ∈ acks w → ∃ e, e ∈ elected w ∧ l_term e = k_term k
}.

Hypothesis start_pos : 0 < L.

Lemma last_term_app th x : last_term (th ++ [x]) = term x.
Proof. unfold last_term. by rewrite last_snoc. Qed.

Lemma contains_refl th l : contains th th l.
Proof. exists []. by rewrite app_nil_r. Qed.

Lemma origin_wf : th_wf (origin fresh).
Proof. destruct fresh; split; cbn; repeat constructor. Qed.

Lemma known_wf w th : invariant w → known w th → th_wf th.
Proof. intros Hi [->|(e & He & <-)]; [apply origin_wf|by apply (i_leader _ Hi e)]. Qed.

Lemma leader_last w e : invariant w → e ∈ elected w → ∃ s, last (l_hist e) = Some s ∧ term s = l_term e.
Proof.
  intros Hi He. destruct (i_leader _ Hi e He) as (_ & _ & d & Q & _ & _ & _ & -> & _). rewrite last_snoc. by eexists.
Qed.

(** Histories begin at the start of the timeline. *)
Lemma known_from w th : invariant w → known w th → Forall (λ x, L ≤ lsn x) th.
Proof.
  intros Hi Hk. pose proof (i_head _ Hi th Hk) as Hh. pose proof (known_wf w th Hi Hk) as [_ Hl].
  destruct th as [|x th]; constructor; [lia|]. apply StronglySorted_inv in Hl as [_ Hl]. by rewrite Hh in Hl.
Qed.

(** The last term of a history determines it. *)
Lemma known_unique w th th' :
  invariant w → known w th → known w th' → th ≠ [] → th' ≠ [] → last_term th = last_term th' → th = th'.
Proof.
  intros Hi [->|(e & He & <-)] [->|(e' & He' & <-)] Hn Hn' Et; [done|..].
  - destruct (leader_last w e' Hi He') as (s & Es & Et'). destruct (i_leader _ Hi e' He') as (_ & Hp & _).
    revert Et Hn. unfold last_term. rewrite Es, Et'. destruct fresh; [done|]. cbn. lia.
  - destruct (leader_last w e Hi He) as (s & Es & Et'). destruct (i_leader _ Hi e He) as (_ & Hp & _).
    revert Et Hn'. unfold last_term. rewrite Es, Et'. destruct fresh; [done|]. cbn. lia.
  - destruct (leader_last w e Hi He) as (s & Es & Et1), (leader_last w e' Hi He') as (s' & Es' & Et2).
    revert Et. unfold last_term. rewrite Es, Es', Et1, Et2. intros Et. by rewrite (i_leader_once _ Hi e e').
Qed.

(** A log of a history with a term is a history of its own. *)
Lemma prefix_known w th pre rest : invariant w → known w th → th = pre ++ rest → pre ≠ [] → known w pre.
Proof.
  intros Hi Hk E Hn. destruct (exists_last Hn) as (d & x & ->). rewrite <-app_assoc in E. by apply (i_prefix _ Hi th d x rest).
Qed.

(** ** Leader completeness *)

Lemma contains_term w th e l : invariant w → known w th → e ∈ elected w → contains th (l_hist e) l → l_term e ≤ last_term th.
Proof.
  intros Hi Hk He (rest & -> & _). destruct (leader_last w e Hi He) as (s & Es & Et).
  pose proof (known_wf w _ Hi Hk) as [Ht _]. unfold last_term. rewrite last_app, Es.
  destruct (last rest) as [x|] eqn:Ex; [|lia]. apply StronglySorted_app in Ht as (Ht & _).
  specialize (Ht s x (last_Some_elem_of _ _ Es) (last_Some_elem_of _ _ Ex)). cbv beta in Ht. lia.
Qed.

(** The log of a vote, if there is any, is one of the histories. *)
Lemma vote_known w v : invariant w → v ∈ votes w → v_hist v ≠ [] → known w (v_hist v).
Proof. intros Hi Hv Hn. destruct (i_vote _ Hi v Hv) as ((th & r & Hk & E) & _). by apply (prefix_known w th _ r). Qed.

Lemma leader_hist w e s : invariant w → e ∈ elected w → last (l_hist e) = Some s →
  known w (l_hist e) ∧ l_hist e ≠ [] ∧ last_term (l_hist e) = l_term e ∧ 0 < lsn s.
Proof.
  intros Hi He Es. split_and!; [right; eauto|by intros E; rewrite E in Es|..].
  - destruct (leader_last w e Hi He) as (s' & Es' & <-). unfold last_term. by rewrite Es'.
  - assert (known w (l_hist e)) as Hk by (right; eauto). pose proof (known_from w _ Hi Hk) as Hp. rewrite Forall_forall in Hp.
    apply last_Some_elem_of, Hp in Es. cbv beta in Es. lia.
Qed.

(** A leader whose first vote is at least as advanced as one with an acknowledged
    log has that log too, if all leaders in between have. *)
Lemma donor_contains w e s c v d t :
  invariant w → e ∈ elected w → last (l_hist e) = Some s → lsn s ≤ c →
  v ∈ votes w → contains (v_hist v) (l_hist e) c → c ≤ v_flush v →
  d ∈ votes w → v_term d = t → vote_le v d →
  (∀ e1, e1 ∈ elected w → l_term e < l_term e1 < t → contains (l_hist e1) (l_hist e) c) →
  contains (v_hist d ++ [MkTermLsn t (start_from d)]) (l_hist e) c.
Proof.
  intros Hi He Es Hs Hv Hc Hf Hd Et Hvd IH. destruct (leader_hist w e s Hi He Es) as (Hke & Hen & Ele & Hpos).
  destruct (i_leader _ Hi e He) as (_ & Ht0 & _). destruct (i_vote _ Hi d Hd) as (_ & _ & Hdt & _).
  assert (v_hist v ≠ []) as Hvn by (destruct Hc as (r' & Ev & _); rewrite Ev; by intros [E0 _]%app_eq_nil).
  pose proof (contains_term w _ e c Hi (vote_known w v Hi Hv Hvn) He Hc) as Hlt.
  assert (v_hist d ≠ []) as Hdn by (intros E0; unfold vote_le in Hvd; rewrite E0 in Hvd; cbn in Hvd; lia).
  pose proof (vote_known w d Hi Hd Hdn) as Hkd. destruct (decide (last_term (v_hist d) = l_term e)) as [Ed|Hne].
  - rewrite (known_unique w (v_hist d) (l_hist e)) by (done || congruence).
    eexists. split; [done|]. unfold start_from. cbn. destruct Hvd as [Hvd|[_ Hvd]]; [lia|].
    rewrite (proj2 (Z.eqb_neq _ _)) by lia. lia.
  - assert (l_term e < last_term (v_hist d)) as Hlt' by (destruct Hvd as [?|[? _]]; lia).
    destruct Hkd as [E0|(e1 & He1 & E1)].
    { exfalso. rewrite E0 in Hlt'. destruct fresh; cbn in Hlt'; lia. }
    destruct (leader_last w e1 Hi He1) as (s1 & Es1 & Et1).
    assert (l_term e1 = last_term (v_hist d)) as Ee1 by (rewrite <-E1; unfold last_term; by rewrite Es1).
    destruct (IH e1 He1 ltac:(lia)) as (rest & Er & Hrest). rewrite <-E1, Er, <-app_assoc.
    eexists. split; [done|]. destruct rest as [|x rest]; [|done]. rewrite app_nil_r in Er. rewrite Er, Es in Es1. simplify_eq.
    exfalso. rewrite <-E1, Er in Hlt'. lia.
Qed.

(** What a leader has committed is in the history of every leader of a later term. *)
Lemma leader_completeness w e c e' :
  invariant w → committed w e c → e' ∈ elected w → l_term e ≤ l_term e' → contains (l_hist e') (l_hist e) c.
Proof.
  intros Hi (He & (s & Es & Hs) & Q & HQ & Hack). remember (Z.to_nat (l_term e')) as n eqn:En. revert e' En.
  induction n as [n IH] using lt_wf_ind. intros e' En He' Hle.
  destruct (decide (l_term e = l_term e')) as [Et|Hne].
  { rewrite (i_leader_once _ Hi e e') by done. apply contains_refl. }
  destruct (i_leader _ Hi e He) as (_ & Hpos & _).
  destruct (i_leader _ Hi e' He') as (_ & Hpos' & d & Q' & HQ' & Hd & Edt & Eh & Hv).
  destruct (quorum_meet Q Q' HQ HQ') as (a & Ha & Ha').
  destruct (Hack a Ha) as (k & Hk & Eka & Ekt & Hkc), (Hv a Ha') as (v & Hvv & Eva & _ & Evt & Hvd).
  assert (∀ e1, e1 ∈ elected w → l_term e < l_term e1 < l_term e' → contains (l_hist e1) (l_hist e) c) as IH'.
  { intros e1 He1 Hlt. apply (IH (Z.to_nat (l_term e1))); [lia|done..|lia]. }
  destruct (i_ack_vote _ Hi k v Hk Hvv ltac:(congruence) ltac:(lia) e s c He (eq_sym Ekt) Es ltac:(lia)) as [Hc Hf].
  { intros e1 He1 Hlt. apply IH'; [done|lia]. }
  rewrite Eh. by apply (donor_contains w e s c v d).
Qed.

(** Two leaders that have committed a position have the same log up to it. *)
Lemma committed_agree w e1 c1 e2 c2 l :
  invariant w → committed w e1 c1 → committed w e2 c2 → l < c1 → l < c2 →
  term_at (l_hist e1) l = term_at (l_hist e2) l.
Proof.
  intros Hi Hc1 Hc2 Hl1 Hl2.
  assert (∀ e c e', committed w e c → e' ∈ elected w → l_term e ≤ l_term e' → l < c →
            term_at (l_hist e') l = term_at (l_hist e) l) as Hag.
  { intros e c e' Hc He' Hle Hl. destruct (leader_completeness w e c e' Hi Hc He' Hle) as (rest & -> & Hr).
    apply term_at_common. destruct rest; [done|lia]. }
  destruct (Z.le_ge_cases (l_term e1) (l_term e2)).
  - symmetry. eapply Hag; [exact Hc1|apply Hc2|done..].
  - eapply Hag; [exact Hc2|apply Hc1|done..].
Qed.

(** ** Cutting a log *)

Lemma known_matching w th th' : invariant w → known w th → known w th' → log_matching th th'.
Proof.
  intros Hi Hk Hk' i j x y Hx Hy Et.
  assert (∀ th k z, known w th → th !! k = Some z → known w (take (S k) th) ∧ take (S k) th ≠ [] ∧ last_term (take (S k) th) = term z) as Hpre.
  { intros h k z Hh Hz. rewrite (take_S_r _ _ _ Hz). split_and!; [|by intros [_ ?]%app_eq_nil|by rewrite last_term_app].
    rewrite <-(take_S_r _ _ _ Hz). apply (prefix_known w h _ (drop (S k) h)); [done..|by rewrite take_drop|].
    rewrite (take_S_r _ _ _ Hz). by intros [_ ?]%app_eq_nil. }
  destruct (Hpre th i x Hk Hx) as (H1 & H2 & H3), (Hpre th' j y Hk' Hy) as (H4 & H5 & H6).
  apply (known_unique w); [done..|congruence].
Qed.

(** A common beginning is part of the longest one. *)
Lemma common_beginning (h pre p' s' r1 r2 : TermHistory.t) :
  pre ++ p' = h ++ r1 → pre ++ s' = h ++ r2 →
  match p', s' with x :: _, y :: _ => term x ≠ term y | _, _ => True end → ∃ m, pre = h ++ m.
Proof.
  revert pre. induction h as [|x h IH]; intros pre E1 E2 Hne; [by exists pre|].
  destruct pre as [|y pre]; cbn in *.
  - by subst.
  - simplify_eq. destruct (IH pre) as (m & ->); [done..|]. by exists m.
Qed.

Lemma contains_end th h m p' l f :
  th_wf th → contains th h l → th = (h ++ m) ++ p' → l ≤ f → l ≤ match p' with e :: _ => lsn e | [] => f end.
Proof.
  intros [_ Hl] (rest & -> & Hr) E Hf. rewrite <-app_assoc in E. apply app_inv_head in E as ->.
  destruct p' as [|e p']; [done|]. destruct m as [|y m]; [done|]. cbn in Hr.
  apply StronglySorted_app in Hl as (_ & _ & Hl). cbn in Hl. apply StronglySorted_inv in Hl as [_ Hl].
  rewrite Forall_app, Forall_cons in Hl. lia.
Qed.

Lemma a_log_flushed a : Forall (λ x, lsn x ≤ a_flush a) (a_log a).
Proof. unfold a_log. by destruct (up_to_prefix (a_hist a) (a_flush a)) as (rest & _ & Hf & _). Qed.

(** A flushed beginning of the history is in the log. *)
Lemma contains_log a h s l :
  th_wf (a_hist a) → last h = Some s → lsn s ≤ l → contains (a_hist a) h l → l ≤ a_flush a →
  contains (a_log a) h l.
Proof.
  intros [_ Hl] Es Hs (rest & E & Hr) Hf. unfold a_log. rewrite E in Hl |- *. rewrite up_to_app.
  - eexists. split; [done|]. destruct (up_to_prefix rest (a_flush a)) as (r & Er & _).
    destruct (TermHistory.up_to rest _) as [|x u]; [done|]. by rewrite Er in Hr.
  - apply StronglySorted_app in Hl as (_ & Hl & _). apply last_Some in Es as (h' & ->).
    apply StronglySorted_app in Hl as (Hl & _). apply Forall_app. split; [|by constructor; [lia|constructor]].
    apply Forall_forall. intros x Hx. specialize (Hl x s Hx ltac:(constructor)). cbv beta in Hl. lia.
Qed.

(** Below the start of the timeline no history has anything. *)
Lemma term_at_before w th l : invariant w → known w th → l < L → term_at th l = None.
Proof.
  intros Hi Hk Hl. destruct (term_at th l) as [x|] eqn:E; [|done]. apply term_at_elem in E as (y & Hy & _ & Hle).
  pose proof (known_from w th Hi Hk) as Hf. rewrite Forall_forall in Hf. specialize (Hf y Hy). cbv beta in Hf. lia.
Qed.

Lemma term_at_log a l : l < a_flush a → term_at (a_log a) l = term_at (a_hist a) l.
Proof.
  intros Hl. unfold term_at, a_log. destruct (up_to_prefix (a_hist a) (a_flush a)) as (r & Er & _ & Hr).
  rewrite Er at 2. rewrite up_to_before; [done|]. destruct r; [done|lia].
Qed.

Lemma log_wf w a : invariant w → th_wf (a_log (accs w a)).
Proof.
  intros Hi. destruct (i_hist _ Hi a) as (Hk & _). pose proof (known_wf w _ Hi Hk) as Hw. unfold a_log.
  destruct (up_to_prefix (a_hist (accs w a)) (a_flush (accs w a))) as (r & Er & _). rewrite Er in Hw. by apply th_wf_app_l in Hw.
Qed.

(** The log of an acceptor matches every history. *)
Lemma log_matches w th a : invariant w → known w th → log_matching th (a_log (accs w a)).
Proof.
  intros Hi Hk i j x y Hx Hy Et. destruct (i_hist _ Hi a) as (Hka & _). unfold a_log in *.
  destruct (up_to_prefix (a_hist (accs w a)) (a_flush (accs w a))) as (r & Er & _).
  pose proof Hy as Hj%lookup_lt_Some. rewrite (known_matching w th (a_hist (accs w a)) Hi Hk Hka i j x y); [|done| |done].
  - rewrite Er at 1. by rewrite take_app_le by lia.
  - rewrite Er. by apply lookup_app_l_Some.
Qed.

(** The log does not have a later term than the history. *)
Lemma last_term_log w a : invariant w → 0 ≤ last_term (a_log (accs w a)) ≤ last_term (a_hist (accs w a)).
Proof.
  intros Hi. destruct (i_hist _ Hi a) as (Hka & Hta & _). pose proof (known_wf w _ Hi Hka) as [Ht _]. unfold a_log.
  destruct (up_to_prefix (a_hist (accs w a)) (a_flush (accs w a))) as (r & Er & _). revert Er Ht Hta.
  generalize (TermHistory.up_to (a_hist (accs w a)) (a_flush (accs w a))) as lg. intros lg Er Ht Hta.
  destruct (last lg) as [x|] eqn:Ex; [|assert (last_term lg = 0) as -> by (unfold last_term; by rewrite Ex); lia].
  assert (last_term lg = term x) as -> by (unfold last_term; by rewrite Ex).
  assert (0 ≤ term x) as Hx.
  { assert (known w lg) as Hkl.
    { apply (prefix_known w _ lg r Hi Hka Er). intros ->. done. }
    destruct Hkl as [->|(e & He & Ee)]; [by destruct fresh; cbn in Ex; simplify_eq|].
    destruct (leader_last w e Hi He) as (s & Es & Et). destruct (i_leader _ Hi e He) as (_ & ? & _).
    rewrite Ee, Ex in Es. simplify_eq. lia. }
  split; [done|]. rewrite Er. unfold last_term. rewrite last_app, Ex. destruct (last r) as [y|] eqn:Ey; [|lia].
  rewrite Er in Ht. apply StronglySorted_app in Ht as (Ht & _).
  specialize (Ht x y (last_Some_elem_of _ _ Ex) (last_Some_elem_of _ _ Ey)). cbv beta in Ht. lia.
Qed.

(** The divergence check finds a position to cut at: the safekeeper's own one, on
    which it insists when a proposer announces its election. *)
Definition cut_point (th : TermHistory.t) (o : option TermLsn) : option Lsn :=
  match o with Some p => Some (lsn p) | None => lsn <$> head th end.

Lemma cut_point_none w e a :
  invariant w → e ∈ elected w → cut_point (l_hist e) None = Some L ∧
    ((∀ h s0 l, last h = Some s0 → lsn s0 ≤ l → l ≤ a_flush (accs w a) → contains (l_hist e) h l →
       contains (a_hist (accs w a)) h l → False) →
     cut_ok (l_hist e) (accs w a) L).
Proof.
  intros Hi He. assert (known w (l_hist e)) as Hk by (right; eauto). destruct (leader_last w e Hi He) as (x & Ex & _).
  pose proof (i_head _ Hi _ Hk) as Hh. destruct (i_hist _ Hi a) as (Hka & _).
  split; [destruct (l_hist e) as [|y th]; [done|]; cbn; by rewrite Hh|]. intros Hno. split; [done|right|..].
  - intros l Hl. by apply (term_at_before w).
  - intros l Hl. by rewrite !(term_at_before w).
  - intros h s0 l Es Hs H1 H2 Hf. by destruct (Hno h s0 l).
Qed.

Lemma log_last_term w e a :
  invariant w → e ∈ elected w → a_term (accs w a) = l_term e →
  Forall (λ x, term x ≤ last_term (l_hist e)) (a_log (accs w a)).
Proof.
  intros Hi He Et. destruct (i_hist _ Hi a) as (Hka & Hta & _). destruct (leader_last w e Hi He) as (s & Es & Ets).
  assert (last_term (l_hist e) = l_term e) as -> by (unfold last_term; by rewrite Es).
  pose proof (last_term_log w a Hi) as Hl. pose proof (log_wf w a Hi) as [Ht _].
  destruct (a_log (accs w a)) as [|x lg _] using rev_ind; [constructor|]. rewrite last_term_app in Hl.
  apply StronglySorted_app in Ht as (Ht & _). apply Forall_app. split; [|constructor; [lia|constructor]].
  apply Forall_forall. intros y Hy. specialize (Ht y x Hy ltac:(constructor)). cbv beta in Ht. lia.
Qed.

Lemma find_cut w e a o s :
  invariant w → e ∈ elected w → a_term (accs w a) = l_term e →
  TermHistory.find_highest_common_point (l_hist e) (a_log (accs w a)) (a_flush (accs w a)) = Ok o →
  cut_point (l_hist e) o = Some s → cut_ok (l_hist e) (accs w a) s.
Proof.
  intros Hi He Et Ho Es. assert (known w (l_hist e)) as Hk by (right; eauto). destruct (i_hist _ Hi a) as (Hka & _).
  pose proof (log_matches w (l_hist e) a Hi Hk) as Hm. pose proof (a_log_flushed (accs w a)) as Hfl.
  destruct (common_point_form (l_hist e) (a_log (accs w a)) (a_flush (accs w a))) as (pre & p' & s' & E1 & E2 & Hne & Ef);
    [by intros k x y; apply matching_same_index|done|].
  rewrite Ef in Ho. injection Ho as <-.
  assert (∀ h s0 l, last h = Some s0 → lsn s0 ≤ l → l ≤ a_flush (accs w a) → contains (l_hist e) h l →
            contains (a_hist (accs w a)) h l → ∃ m, pre = h ++ m ∧ contains (a_log (accs w a)) h l) as Hbegin.
  { intros h s0 l Eh Hs Hf Hc Hca. pose proof (contains_log _ h s0 l (known_wf w _ Hi Hka) Eh Hs Hca Hf) as Hcl.
    pose proof Hc as (r1 & Er1 & _). pose proof Hcl as (r2 & Er2 & _).
    destruct (common_beginning h pre p' s' r1 r2) as (m & ->); [congruence..|done|]. by exists m. }
  destruct pre as [|x pre _] using rev_ind.
  { destruct (cut_point_none w e a Hi He) as [EL Hok]. cbn [last fmap option_fmap option_map] in Es. rewrite EL in Es. injection Es as <-. apply Hok.
    intros h s0 l Eh Hs Hf Hc Hca. destruct (Hbegin h s0 l Eh Hs Hf Hc Hca) as (m & E & _). symmetry in E. by apply app_eq_nil in E as [-> _]. }
  rewrite last_snoc in Es. cbn in Es. injection Es as <-. pose proof (log_wf w a Hi) as Hwl. pose proof (known_wf w _ Hi Hk) as Hwe.
  pose proof (log_last_term w e a Hi He Et) as Htl. pose proof (i_head _ Hi _ Hk) as Hh.
  rewrite E1 in Hm, Hwe, Htl. rewrite E2 in Hm, Hwl, Htl, Hfl.
  destruct (head (pre ++ [x])) as [first|] eqn:Efirst; [|by destruct pre].
  destruct (common_point_cases _ _ _ _ first Hwe Hwl (matching_suffix _ _ _ Hm Hne) Hfl (common_tail _ _ _ _ Hwl Htl) Efirst) as [Hpt Hag].
  assert (lsn first = L) as EL by (rewrite E1 in Hh; destruct pre; cbn in Efirst, Hh; by simplify_eq).
  change (match p' with [] => _ | _ :: _ => _ end) with (common_end p' s' (a_flush (accs w a))) in Hpt, Hag.
  rewrite <-E1, <-E2 in Hag. split; [lia|left; lia|..].
  - intros l Hl. destruct (Z.lt_ge_cases l L); [by rewrite !(term_at_before w)|]. rewrite <-(term_at_log (accs w a)) by lia.
    apply Hag; lia.
  - intros h s0 l Eh Hs Hc Hca Hf. destruct (Hbegin h s0 l Eh Hs Hf Hc Hca) as (m & E & Hcl). rewrite E in E1, E2. rewrite E, <-E1 in Hwe. rewrite E, <-E2 in Hwl.
    pose proof (contains_end _ h m p' l l Hwe Hc E1 ltac:(lia)) as H1.
    pose proof (contains_end _ h m s' l (a_flush (accs w a)) Hwl Hcl E2 Hf) as H2.
    unfold common_end. destruct p'; [done|]. destruct s'; lia.
Qed.

(** ** Every step keeps the invariant *)

Lemma set_acc_same a x f : set_acc a x f a = x.
Proof. unfold set_acc. by rewrite decide_True. Qed.
Lemma set_acc_other a x f b : b ≠ a → set_acc a x f b = f b.
Proof. intros. unfold set_acc. by rewrite decide_False. Qed.

Lemma set_acc_invariant w a x :
  invariant w → known w (a_hist x) → 0 ≤ last_term (a_hist x) ≤ a_term x → flush_ok (a_hist x) (a_flush x) →
  a_term (accs w a) ≤ a_term x →
  (∀ k, k ∈ acks w → k_acc k = a → kept w k (a_term x) (a_hist x) (a_flush x)) →
  invariant (MkWorld (set_acc a x (accs w)) (votes w) (elected w) (acks w)).
Proof.
  intros Hi Hk Ht Hf Hle Hkept. split; cbn [accs votes elected acks].
  - intros b. destruct (decide (b = a)) as [->|Hn]; [by rewrite set_acc_same|rewrite set_acc_other by done; apply Hi].
  - intros v Hv. destruct (i_vote _ Hi v Hv) as (H1 & H2 & H3 & H4 & H5). split_and!; [exact H1|done|lia|lia| |done].
    destruct (decide (v_acc v = a)) as [Ea|Hn]; [rewrite Ea, set_acc_same; rewrite Ea in H4; lia|by rewrite set_acc_other].
  - apply Hi.
  - apply (i_leader _ Hi).
  - apply Hi.
  - apply (i_head _ Hi).
  - apply (i_prefix _ Hi).
  - intros k Hkk. destruct (i_ack _ Hi k Hkk) as [H1 H2].
    destruct (decide (k_acc k = a)) as [Ea|Hn]; [|by rewrite set_acc_other].
    rewrite Ea, set_acc_same. split; [rewrite Ea in H1; lia|by apply Hkept].
  - apply (i_ack_vote _ Hi).
  - apply (i_ack_leader _ Hi).
Qed.

(** A higher bound asks more of the leaders in between. *)
Lemma kept_mono w k b b' h f : b ≤ b' → kept w k b h f → kept w k b' h f.
Proof.
  intros Hb Hk e s l He Et Es Hl Hall. apply (Hk e s l He Et Es Hl). intros e' He' Hlt. apply Hall; [done|lia].
Qed.

Lemma kept_flush w k b h f f' : f ≤ f' → kept w k b h f → kept w k b h f'.
Proof. intros Hf Hk e s l He Et Es Hl Hall. destruct (Hk e s l He Et Es Hl Hall). split; [done|lia]. Qed.

(** A cut by the leader of the acceptor's term keeps what is acknowledged, with the
    old history and with that of the leader. *)
Lemma cut_kept w e a s k :
  invariant w → e ∈ elected w → a_term (accs w a) = l_term e → cut_ok (l_hist e) (accs w a) s →
  k ∈ acks w → k_acc k = a →
  kept w k (a_term (accs w a)) (a_hist (accs w a)) s ∧ kept w k (a_term (accs w a)) (l_hist e) s.
Proof.
  intros Hi He Et Hcut Hk Ea. destruct (i_ack _ Hi k Hk) as [Hle Hkept]. rewrite Ea in Hle, Hkept.
  assert (∀ e1 s1 l, e1 ∈ elected w → l_term e1 = k_term k → last (l_hist e1) = Some s1 → lsn s1 ≤ l ≤ k_lsn k →
    (∀ e', e' ∈ elected w → k_term k < l_term e' ≤ a_term (accs w a) → contains (l_hist e') (l_hist e1) l) →
    contains (a_hist (accs w a)) (l_hist e1) l ∧ contains (l_hist e) (l_hist e1) l ∧ l ≤ s) as Hcov.
  { intros e1 s1 l He1 Et1 Es1 Hl Hall. destruct (Hkept e1 s1 l He1 Et1 Es1 Hl Hall) as [Hc Hf].
    assert (contains (l_hist e) (l_hist e1) l) as Hce.
    { destruct (decide (l_term e = k_term k)) as [E|Hn]; [|apply Hall; [done|lia]].
      rewrite (i_leader_once _ Hi e e1 He He1 ltac:(congruence)). apply contains_refl. }
    split_and!; [done..|]. apply (cut_covers _ _ _ Hcut (l_hist e1) s1 l); [done|lia|done..]. }
  split; intros e1 s1 l He1 Et1 Es1 Hl Hall; destruct (Hcov e1 s1 l He1 Et1 Es1 Hl Hall) as (? & ? & ?); by split.
Qed.

(** A log that begins is not empty. *)
Lemma log_flush_ok w a : invariant w → flush_ok (a_log (accs w a)) (a_flush (accs w a)).
Proof.
  intros Hi. destruct (i_hist _ Hi a) as (Hk & _ & Hf). pose proof (i_head _ Hi _ Hk) as Hh. unfold a_log.
  destruct Hf as [[E ->]|[Hle Hn]]; [left; by rewrite E|]. right. split; [done|].
  destruct (a_hist (accs w a)) as [|x th]; [by intros; apply Hn|]. cbn. rewrite Hh.
  by rewrite (proj2 (Z.ltb_ge _ _)).
Qed.

Lemma vote_invariant w a p t :
  invariant w → a_term (accs w a) < t →
  invariant (MkWorld (set_acc a (MkAcceptor t (a_hist (accs w a)) (a_flush (accs w a))) (accs w))
               (MkVote a p t (a_log (accs w a)) (a_flush (accs w a)) :: votes w) (elected w) (acks w)).
Proof.
  intros Hi Hlt. destruct (i_hist _ Hi a) as (Hka & Hta & Hfa).
  assert (invariant (MkWorld (set_acc a (MkAcceptor t (a_hist (accs w a)) (a_flush (accs w a))) (accs w))
               (votes w) (elected w) (acks w))) as Hi'.
  { apply set_acc_invariant; cbn; [done|done|lia|done|lia|]. intros k Hk Ea. destruct (i_ack _ Hi k Hk) as [_ Hkept].
    rewrite Ea in Hkept. eapply kept_mono; [|exact Hkept]. lia. }
  destruct (up_to_prefix (a_hist (accs w a)) (a_flush (accs w a))) as (r & Er & Hlog & Hr). fold (a_log (accs w a)) in Er, Hlog.
  pose proof (last_term_log w a Hi) as Hll.
  split; cbn [accs votes elected acks]; [apply (i_hist _ Hi')| | | |apply (i_leader_once _ Hi')|apply (i_head _ Hi')|
    apply (i_prefix _ Hi')|apply (i_ack _ Hi')| |apply (i_ack_leader _ Hi')].
  - intros v [->|Hv]%elem_of_cons; [|by apply (i_vote _ Hi')]. cbn. rewrite set_acc_same. cbn.
    split_and!; [by exists (a_hist (accs w a)), r|done|lia|lia|lia|by apply log_flush_ok].
  - intros v v' [->|Hv]%elem_of_cons [->|Hv']%elem_of_cons; [done| | |by apply Hi]; cbn; intros Ea Et.
    + destruct (i_vote _ Hi v' Hv') as (_ & _ & _ & Hle & _). rewrite <-Ea in Hle. lia.
    + destruct (i_vote _ Hi v Hv) as (_ & _ & _ & Hle & _). rewrite Ea in Hle. lia.
  - intros e He. destruct (i_leader _ Hi e He) as (H1 & H2 & d & Q & HQ & Hd & Hdt & Hh & Hv).
    split_and!; [done..|]. exists d, Q. split_and!; [done|by right|done..|].
    intros b Hb. destruct (Hv b Hb) as (v & ? & ?). exists v. split; [by right|done].
  - intros k v Hk [->|Hv]%elem_of_cons; [|by apply (i_ack_vote _ Hi')]. cbn. intros Ea Hkt.
    destruct (i_ack _ Hi k Hk) as [_ Hkept]. rewrite <-Ea in Hkept. intros e s l He Et Es Hl Hall.
    destruct (Hkept e s l He Et Es Hl) as [Hc Hf]; [intros e' He' Hlt'; apply Hall; [done|cbn; lia]|].
    split; [|done]. apply (contains_log _ _ s); [by apply (known_wf w)|done|lia|done..].
Qed.

(** Where a leader starts is after the log it starts from. *)
Lemma start_from_spec w d t : invariant w → d ∈ votes w → v_term d = t →
  th_wf (v_hist d ++ [MkTermLsn t (start_from d)]) ∧
  match v_hist d ++ [MkTermLsn t (start_from d)] with x :: _ => lsn x = L | [] => True end.
Proof.
  intros Hi Hd Et. destruct (i_vote _ Hi d Hd) as ((th & r & Hk & Er) & Hle & Ht & _ & Hf).
  pose proof (known_wf w th Hi Hk) as Hw. rewrite Er in Hw. apply th_wf_app_l in Hw as [Ht1 Hl1].
  assert (Forall (λ x, lsn x ≤ start_from d) (v_hist d)) as H2.
  { unfold start_from. destruct (Z.eqb_spec (v_flush d) 0) as [E|]; [|done].
    destruct Hf as [[-> _]|[? _]]; [constructor|lia]. }
  split; cycle 1.
  { pose proof (i_head _ Hi th Hk) as Hh. rewrite Er in Hh. destruct (v_hist d) as [|x l]; [|done]. cbn. unfold start_from.
    destruct (Z.eqb_spec (v_flush d) 0); [done|]. destruct Hf as [[_ ?]|[_ Hf]]; [done|by apply Hf]. }
  rewrite Forall_forall in H2. split; apply StronglySorted_app; split_and!; try done; try by repeat constructor.
  - intros x y Hx ->%list_elem_of_singleton. cbn. rewrite Et in Ht. destruct Ht as [_ Ht].
    destruct (exists_last (l := v_hist d)) as (h & z & Ez); [by intros E; rewrite E in Hx; apply not_elem_of_nil in Hx|].
    rewrite Ez, last_term_app in Ht. rewrite Ez in Hx, Ht1. apply StronglySorted_app in Ht1 as (Ht1 & _).
    apply elem_of_app in Hx as [Hx| ->%list_elem_of_singleton]; [|done].
    specialize (Ht1 x z Hx ltac:(constructor)). cbv beta in Ht1. lia.
  - intros x y Hx ->%list_elem_of_singleton. cbn. by apply H2.
Qed.

(** A term is won once. *)
Lemma elect_fresh w p t Q e :
  invariant w → (∀ e, e ∈ elected w → l_prop e ≠ p) → quorum Q →
  (∀ a, a ∈ Q → ∃ v, v ∈ votes w ∧ v_acc v = a ∧ v_prop v = p ∧ v_term v = t) → e ∈ elected w → l_term e ≠ t.
Proof.
  intros Hi Hp HQ Hv He Et. destruct (i_leader _ Hi e He) as (_ & _ & d & Q' & HQ' & _ & _ & _ & Hv').
  destruct (quorum_meet Q Q' HQ HQ') as (a & Ha & Ha').
  destruct (Hv a Ha) as (v & H1 & H2 & H3 & H4), (Hv' a Ha') as (v' & H1' & H2' & H3' & H4' & _).
  apply (Hp e He). rewrite <-H3, <-H3'. f_equal. apply (i_vote_once _ Hi); congruence.
Qed.

Lemma elect_invariant w p t Q d :
  invariant w → (∀ e, e ∈ elected w → l_prop e ≠ p) → quorum Q →
  d ∈ votes w → v_prop d = p → v_term d = t →
  (∀ a, a ∈ Q → ∃ v, v ∈ votes w ∧ v_acc v = a ∧ v_prop v = p ∧ v_term v = t ∧ vote_le v d) →
  invariant (MkWorld (accs w) (votes w)
    (MkLeader p t (v_hist d ++ [MkTermLsn t (start_from d)]) :: elected w) (acks w)).
Proof.
  intros Hi Hp HQ Hd Edp Edt Hv. destruct (start_from_spec w d t Hi Hd Edt) as (Hwf & Hpos).
  assert (∀ e, e ∈ elected w → l_term e ≠ t) as Hfresh.
  { intros e. apply (elect_fresh w p t Q e Hi Hp HQ). intros a Ha. destruct (Hv a Ha) as (v & ? & ? & ? & ? & _). by exists v. }
  destruct (i_vote _ Hi d Hd) as ((thd & rd & Hkd & Erd) & Hled & Htd & _).
  set (e0 := MkLeader p t _). set (w' := MkWorld _ _ _ _).
  assert (∀ th, known w th → known w' th) as Hkw by (intros th [?|(e & ? & ?)]; [by left|right; exists e; split; [by right|done]]).
  assert (∀ k b h f, k ∈ acks w → kept w k b h f → kept w' k b h f) as Hkept.
  { intros k b h f Hk Hkk e s l [->|He]%elem_of_cons Et Es Hl Hall.
    - destruct (i_ack_leader _ Hi k Hk) as (e1 & He1 & Et1). destruct (Hfresh e1 He1). cbn in Et. congruence.
    - apply (Hkk e s l He Et Es Hl). intros e' He'. apply Hall. by right. }
  split.
  - intros a. destruct (i_hist _ Hi a) as (? & ?). split; [by apply Hkw|done].
  - intros v Hvv. destruct (i_vote _ Hi v Hvv) as ((th & r & ? & ?) & ?). split; [exists th, r; split; [by apply Hkw|done]|done].
  - apply (i_vote_once _ Hi).
  - intros e [->|He]%elem_of_cons; [|by apply (i_leader _ Hi)]. split_and!; [done|cbn; lia|]. exists d, Q. done.
  - intros e e' [->|He]%elem_of_cons [->|He']%elem_of_cons Et; [done|by destruct (Hfresh e' He')|by destruct (Hfresh e He)|by apply (i_leader_once _ Hi)].
  - intros th [->|(e & [->|He]%elem_of_cons & <-)]; [apply (i_head _ Hi); by left|done|apply (i_head _ Hi); right; eauto].
  - intros th h x rest Hk E. destruct Hk as [->|(e & [->|He]%elem_of_cons & Ee)].
    + apply Hkw. apply (i_prefix _ Hi (origin fresh) h x rest); [by left|done].
    + cbn in Ee. rewrite <-Ee in E. destruct rest as [|y rest _] using rev_ind.
      * right. exists e0. split; [by left|done].
      * rewrite app_comm_cons, app_assoc in E. apply app_inj_2 in E as [E _]; [|done].
        apply Hkw. apply (i_prefix _ Hi thd h x (rest ++ rd) Hkd). rewrite Erd, E, <-app_assoc. done.
    + apply Hkw. apply (i_prefix _ Hi th h x rest); [right; eauto|done].
  - intros k Hk. destruct (i_ack _ Hi k Hk). split; [done|by apply Hkept].
  - intros k v Hk Hvv Ea Ht. apply Hkept; [done|]. by apply (i_ack_vote _ Hi).
  - intros k Hk. destruct (i_ack_leader _ Hi k Hk) as (e & ? & ?). exists e. split; [by right|done].
Qed.

Lemma initial_invariant : invariant (initial fresh).
Proof.
  split; cbn [initial accs votes elected acks a_hist a_term a_flush].
  - intros _. split_and!; [by left|by destruct fresh..|]. destruct fresh; [by left|right; split; [lia|done]].
  - by intros v ?%elem_of_nil.
  - by intros v v' ?%elem_of_nil.
  - by intros e ?%elem_of_nil.
  - by intros e e' ?%elem_of_nil.
  - intros th [->|(e & ?%elem_of_nil & _)]; [|done]. by destruct fresh.
  - intros th d x rest [->|(e & ?%elem_of_nil & _)] E; [|done]. left. unfold origin in *.
    destruct fresh; [by destruct d|]. destruct d as [|y d]; [by simplify_eq/=|]. by destruct d.
  - by intros k ?%elem_of_nil.
  - by intros k v ?%elem_of_nil.
  - by intros k ?%elem_of_nil.
Qed.

Lemma cut_flush_ok w e a s :
  invariant w → e ∈ elected w → cut_ok (l_hist e) (accs w a) s → flush_ok (a_hist (accs w a)) s ∧ flush_ok (l_hist e) s.
Proof.
  intros Hi He Hc. destruct (leader_last w e Hi He) as (x & Ex & _). assert (known w (l_hist e)) as Hk by (right; eauto).
  pose proof (i_head _ Hi _ Hk) as Hh. pose proof (known_wf w _ Hi Hk) as Hw. pose proof (cut_start _ _ _ Hc) as Hs.
  destruct (l_hist e) as [|y th]; [done|]. split; right; (split; [done|]); [|done]. intros E.
  destruct (decide (s = L)) as [|Hn]; [done|]. pose proof (cut_agrees _ _ _ Hc L ltac:(lia)) as Ha. rewrite E in Ha.
  destruct (term_at_after [] y th L Hw ltac:(lia)) as (z & _ & Ez). cbn [app] in Ez. by rewrite Ez in Ha.
Qed.

Lemma ack_invariant w a e l :
  invariant w → e ∈ elected w → a_term (accs w a) = l_term e → a_hist (accs w a) = l_hist e → l ≤ a_flush (accs w a) →
  invariant (MkWorld (accs w) (votes w) (elected w) (MkAck a (l_term e) l :: acks w)).
Proof.
  intros Hi He Et Eh Hl. split; cbn [accs votes elected acks]; try apply Hi.
  - intros k [->|Hk]%elem_of_cons; [|by apply (i_ack _ Hi)]. cbn. split; [lia|].
    intros e1 s1 l1 He1 Et1 Es1 Hl1 _. cbn in *. rewrite (i_leader_once _ Hi e1 e He1 He Et1), Eh.
    split; [apply contains_refl|lia].
  - intros k v [->|Hk]%elem_of_cons Hv; [|by apply (i_ack_vote _ Hi)]. cbn. intros Ea Hlt.
    destruct (i_vote _ Hi v Hv) as (_ & _ & _ & Hle & _). rewrite Ea in Hle. lia.
  - intros k [->|Hk]%elem_of_cons; [by exists e|by apply (i_ack_leader _ Hi)].
Qed.

Lemma step_invariant w w' : invariant w → step w w' → invariant w'.
Proof.
  intros Hi Hs. destruct Hs as [a t Ht|a p t Ht|p t Q d Hp HQ Hd Ep Et Hv|a e s He Et Hc|a e s He Et Hc|a e s He Eh Hle|a e l He Et Eh Hl].
  - destruct (i_hist _ Hi a) as (? & ? & ?). apply set_acc_invariant; cbn; [done..|lia|done|lia|]. intros k Hk Ea.
    destruct (i_ack _ Hi k Hk) as [_ Hkept]. rewrite Ea in Hkept. eapply kept_mono; [|exact Hkept]. lia.
  - by apply vote_invariant.
  - by apply (elect_invariant w p t Q d).
  - destruct (i_hist _ Hi a) as (? & ? & ?). apply set_acc_invariant; cbn; [done..|by apply (cut_flush_ok w e a)|done|].
    intros k Hk Ea. by apply (cut_kept w e a s k).
  - destruct (i_leader _ Hi e He) as (_ & ? & _). destruct (leader_last w e Hi He) as (s' & Es' & Et').
    apply set_acc_invariant; cbn; [done|right; eauto|unfold last_term; rewrite Es'; lia|by apply (cut_flush_ok w e a)|done|].
    intros k Hk Ea. by apply (cut_kept w e a s k).
  - destruct (i_hist _ Hi a) as (? & ? & Hf). destruct (leader_last w e Hi He) as (x & Ex & _).
    assert (a_hist (accs w a) ≠ []) as Hn by (intros E; rewrite <-Eh, E in Ex; done).
    apply set_acc_invariant; cbn; [done..| |done|].
    { destruct Hf as [[? _]|[? _]]; [done|right; split; [lia|done]]. }
    intros k Hk Ea. destruct (i_ack _ Hi k Hk) as [_ Hkept]. rewrite Ea in Hkept. eapply kept_flush; [|exact Hkept]. done.
  - by apply ack_invariant.
Qed.

Inductive reachable : World → Prop :=
  | reach_initial : reachable (initial fresh)
  | reach_step w w' : reachable w → step w w' → reachable w'.

Lemma reachable_invariant w : reachable w → invariant w.
Proof. induction 1; [apply initial_invariant|by eapply step_invariant]. Qed.
End invariant.
End protocol.
Arguments Vote : clear implicits.
Arguments Leader : clear implicits.
Arguments Ack : clear implicits.
Arguments World : clear implicits.
