(* ===== verification/Feedbacks.v ===== *)
(** The feedback of a pageserver: [libs/utils/src/pageserver_feedback.rs], in the
    extensible key and value format that the safekeeper passes on to the compute,
    with the readers of byte buffers that the protocol parsers share.

    A buffer is the list of the bytes that are left.  The getters of a buffer
    panic when there are too few of them.  A time is a number of nanoseconds since
    the PostgreSQL epoch. *)

From S2P Require Import Prelude Text Lsns.
From stdpp Require Import strings.
Local Open Scope Z_scope.

(** * Buffers *)

(** Two's complement: the signed value of an integer of [bits] bits. *)
Definition to_signed (bits v : Z) : Z := if v <? 2 ^ (bits - 1) then v else v - 2 ^ bits.

Module Buf.
Section buf.
Context {E : Type}.
Abbreviation Rd := (M bytes E).

(** [Buf::advance], [copy_to_bytes] and the getters of [n] bytes. *)
Definition take_bytes (n : nat) : Rd bytes := λ b,
  if (length b <? n)%nat then (Panic, b) else (Ok (take n b), drop n b).
Definition get_be (n : nat) : Rd Z := l ← take_bytes n; mret (be_val l).
Definition get_le (n : nat) : Rd Z := l ← take_bytes n; mret (be_val (rev l)).

Definition get_signed (n : nat) : Rd Z := v ← get_be n; mret (to_signed (8 * Z.of_nat n) v).

(** Up to the terminating zero, which is dropped: the bytes before it, or [None]
    when there is none. *)
Fixpoint cstr (b : bytes) : option (bytes * bytes) :=
  match b with
  | [] => None
  | x :: b' => if x =? 0 then Some ([], b') else p ← cstr b'; Some (x :: p.1, p.2)
  end.

(** The fallible getters of the parsers: an error instead of a panic. *)
Definition get_f (e : E) (n : nat) : Rd Z := λ b, if (length b <? n)%nat then (Err e, b) else get_be n b.
End buf.

Definition put_be (n : nat) (z : Z) : bytes := be_bytes n (z mod 2 ^ (8 * Z.of_nat n)).
Definition put_le (n : nat) (z : Z) : bytes := rev (put_be n z).
Definition put_cstr (s : bytes) : bytes := s ++ [0].
End Buf.

(** * Feedback *)

Record PageserverFeedback := MkPageserverFeedback {
  current_timeline_size : Z;
  last_received_lsn : Lsn;
  disk_consistent_lsn : Lsn;
  fb_remote_consistent_lsn : Lsn;
  replytime : Z;
  shard_number : Z;
  corruption_detected : bool
}.

#[global] Instance PageserverFeedback_eq_dec : EqDecision PageserverFeedback.
Proof. solve_decision. Defined.

Module PageserverFeedback.
Definition empty : PageserverFeedback := MkPageserverFeedback 0 Lsn.INVALID Lsn.INVALID Lsn.INVALID 0 0 false.

(** One pair: the key, the length of the value, the value. *)
Definition entry (key : bytes) (len : nat) (v : Z) : bytes :=
  Buf.put_cstr key ++ Buf.put_be 4 (Z.of_nat len) ++ Buf.put_be len v.

Definition serialize (self : PageserverFeedback) : result unit bytes :=
  let base :=
    entry (bytes_of_string "current_timeline_size") 8 (current_timeline_size self) ++
    entry (bytes_of_string "ps_writelsn") 8 (last_received_lsn self) ++
    entry (bytes_of_string "ps_flushlsn") 8 (disk_consistent_lsn self) ++
    entry (bytes_of_string "ps_applylsn") 8 (fb_remote_consistent_lsn self) in
  if replytime self <? 0 then Panic (* expect *)
  else
    let shard := if 0 <? shard_number self then entry (bytes_of_string "shard_number") 4 (shard_number self) else [] in
    let corrupt := if corruption_detected self then entry (bytes_of_string "corruption_detected") 1 1 else [] in
    let nkeys := 5 + (if 0 <? shard_number self then 1 else 0) + (if corruption_detected self then 1 else 0) in
    Ok (Buf.put_be 1 nkeys ++ base ++ entry (bytes_of_string "ps_replytime") 8 (replytime self / 1000) ++ shard ++ corrupt).

(** The setters of the parser. *)
Definition set_size v f := MkPageserverFeedback v (last_received_lsn f) (disk_consistent_lsn f) (fb_remote_consistent_lsn f)
  (replytime f) (shard_number f) (corruption_detected f).
Definition set_received v f := MkPageserverFeedback (current_timeline_size f) v (disk_consistent_lsn f) (fb_remote_consistent_lsn f)
  (replytime f) (shard_number f) (corruption_detected f).
Definition set_disk v f := MkPageserverFeedback (current_timeline_size f) (last_received_lsn f) v (fb_remote_consistent_lsn f)
  (replytime f) (shard_number f) (corruption_detected f).
Definition set_remote v f := MkPageserverFeedback (current_timeline_size f) (last_received_lsn f) (disk_consistent_lsn f) v
  (replytime f) (shard_number f) (corruption_detected f).
Definition set_reply v f := MkPageserverFeedback (current_timeline_size f) (last_received_lsn f) (disk_consistent_lsn f)
  (fb_remote_consistent_lsn f) v (shard_number f) (corruption_detected f).
Definition set_shard v f := MkPageserverFeedback (current_timeline_size f) (last_received_lsn f) (disk_consistent_lsn f)
  (fb_remote_consistent_lsn f) (replytime f) v (corruption_detected f).
Definition set_corruption v f := MkPageserverFeedback (current_timeline_size f) (last_received_lsn f) (disk_consistent_lsn f)
  (fb_remote_consistent_lsn f) (replytime f) (shard_number f) v.

(** A value of the length that the key asks for. *)
Definition value (n : nat) : M bytes unit Z :=
  len ← Buf.get_signed 4; _ ← assertM (len =? Z.of_nat n); Buf.get_be n.

Definition key_is (key : bytes) (name : string) : bool := bool_decide (key = bytes_of_string name).

Definition parse_field (f : PageserverFeedback) : M bytes unit PageserverFeedback :=
  b ← getS;
  match Buf.cstr b with
  | None => liftR Panic (* unwrap *)
  | Some (key, rest) =>
      _ ← modifyS (λ _, rest);
      if key_is key "current_timeline_size" then v ← value 8; mret (set_size v f)
      else if key_is key "ps_writelsn" then v ← value 8; mret (set_received v f)
      else if key_is key "ps_flushlsn" then v ← value 8; mret (set_disk v f)
      else if key_is key "ps_applylsn" then v ← value 8; mret (set_remote v f)
      else if key_is key "ps_replytime" then v ← value 8; mret (set_reply (to_signed 64 v * 1000) f)
      else if key_is key "shard_number" then v ← value 4; mret (set_shard v f)
      else if key_is key "corruption_detected" then v ← value 1; mret (set_corruption (negb (v =? 0)) f)
      else
        len ← Buf.get_signed 4;
        (* as usize: a negative length is larger than every buffer *)
        _ ← (if len <? 0 then liftR Panic else _ ← Buf.take_bytes (Z.to_nat len); mret tt);
        mret f
  end.

Fixpoint parse_fields (n : nat) (f : PageserverFeedback) : M bytes unit PageserverFeedback :=
  match n with O => mret f | S n => f ← parse_field f; parse_fields n f end.

Definition parse (buf : bytes) : result unit PageserverFeedback :=
  ((n ← Buf.get_be 1; parse_fields (Z.to_nat n) empty) buf).1.
End PageserverFeedback.

(** * Reading back what was written *)

Section buffers.
Context {E : Type}.

Lemma take_bytes_app (l r : bytes) n : n = length l → Buf.take_bytes (E := E) n (l ++ r) = (Ok l, r).
Proof.
  intros ->. unfold Buf.take_bytes. rewrite length_app, (proj2 (Nat.ltb_ge _ _)) by lia.
  by rewrite take_app_length, drop_app_length.
Qed.

Lemma length_put_be n z : length (Buf.put_be n z) = n.
Proof. apply length_be_bytes. Qed.

Lemma get_be_put n z r : in_u (8 * Z.of_nat n) z → Buf.get_be (E := E) n (Buf.put_be n z ++ r) = (Ok z, r).
Proof.
  intros Hz. unfold Buf.get_be, mbind, M_bind. rewrite take_bytes_app by (by rewrite length_put_be). cbn.
  unfold Buf.put_be. rewrite Z.mod_small, be_val_be_bytes by done. done.
Qed.

Lemma get_le_put n z r : in_u (8 * Z.of_nat n) z → Buf.get_le (E := E) n (Buf.put_le n z ++ r) = (Ok z, r).
Proof.
  intros Hz. unfold Buf.get_le, mbind, M_bind, Buf.put_le. rewrite take_bytes_app by (by rewrite length_rev, length_put_be). cbn.
  unfold Buf.put_be. rewrite rev_involutive, Z.mod_small, be_val_be_bytes by done. done.
Qed.

Lemma get_f_put (e : E) n z r : in_u (8 * Z.of_nat n) z → Buf.get_f e n (Buf.put_be n z ++ r) = (Ok z, r).
Proof.
  intros Hz. unfold Buf.get_f. rewrite length_app, length_put_be, (proj2 (Nat.ltb_ge _ _)) by lia. by apply get_be_put.
Qed.

Lemma get_signed_put n z r : (0 < n)%nat → - 2 ^ (8 * Z.of_nat n - 1) ≤ z < 2 ^ (8 * Z.of_nat n - 1) →
  Buf.get_signed (E := E) n (Buf.put_be n z ++ r) = (Ok z, r).
Proof.
  intros Hn Hz. set (b := 8 * Z.of_nat n) in *. assert (8 ≤ b) by (unfold b; lia). assert (2 ^ b = 2 * 2 ^ (b - 1)) as Eb.
  { rewrite <-Z.pow_succ_r by lia. f_equal. lia. }
  assert (0 < 2 ^ (b - 1)) by (apply Z.pow_pos_nonneg; lia).
  assert (0 ≤ z mod 2 ^ b < 2 ^ b) as Hm by (apply Z.mod_pos_bound; lia).
  assert (Buf.put_be n z = Buf.put_be n (z mod 2 ^ b)) as -> by (unfold Buf.put_be; fold b; by rewrite Z.mod_mod by lia).
  unfold Buf.get_signed, mbind, M_bind. rewrite get_be_put by done. fold b. unfold mret, M_ret. do 2 f_equal. unfold to_signed.
  destruct (Z.lt_ge_cases z 0) as [Hneg|Hpos].
  - assert (z mod 2 ^ b = z + 2 ^ b) as -> by (symmetry; apply (Z.mod_unique _ _ (-1)); lia).
    rewrite (proj2 (Z.ltb_ge (z + 2 ^ b) (2 ^ (b - 1)))) by lia. lia.
  - rewrite Z.mod_small by lia. by rewrite (proj2 (Z.ltb_lt z (2 ^ (b - 1)))) by lia.
Qed.

Lemma cstr_put s r : Forall (λ b, b ≠ 0) s → Buf.cstr (Buf.put_cstr s ++ r) = Some (s, r).
Proof.
  unfold Buf.put_cstr. induction 1 as [|b s Hb _ IH]; [done|]. cbn. rewrite (proj2 (Z.eqb_neq _ _)) by done.
  by rewrite IH.
Qed.
End buffers.

Module FeedbackFacts.
Import PageserverFeedback.

Lemma value_entry n v r : (n ≤ 8)%nat → in_u (8 * Z.of_nat n) v →
  value n (Buf.put_be 4 (Z.of_nat n) ++ Buf.put_be n v ++ r) = (Ok v, r).
Proof.
  intros Hn Hv. unfold value, mbind, M_bind.
  rewrite (get_signed_put 4 (Z.of_nat n)) by (cbn; lia). unfold assertM. rewrite Z.eqb_refl. by apply get_be_put.
Qed.

(** A pair that was written is read back, and the rest of the buffer is left. *)
Lemma parse_entry f key n v r g :
  Forall (λ b, b ≠ 0) key → (n ≤ 8)%nat → in_u (8 * Z.of_nat n) v →
  (∀ b, parse_field f (Buf.put_cstr key ++ b) = (v ← value n; mret (g v)) b) →
  parse_field f (entry key n v ++ r) = (Ok (g v), r).
Proof.
  intros Hk Hn Hv Hp. unfold entry. rewrite <-!app_assoc, Hp. unfold mbind, M_bind. by rewrite value_entry.
Qed.

(** Values that fit the wire: 64-bit numbers, a 32-bit shard number and a time that
    is a whole number of microseconds after the epoch. *)
Record feedback_ok (f : PageserverFeedback) : Prop := {
  fo_size : in_u 64 (current_timeline_size f);
  fo_received : in_u 64 (last_received_lsn f);
  fo_disk : in_u 64 (disk_consistent_lsn f);
  fo_remote : in_u 64 (fb_remote_consistent_lsn f);
  fo_reply : ∃ micros, replytime f = micros * 1000 ∧ 0 ≤ micros < 2 ^ 63;
  fo_shard : in_u 32 (shard_number f)
}.

Ltac parse_known :=
  intros b; unfold parse_field; unfold mbind at 1, M_bind at 1; cbn [getS]; rewrite cstr_put by (vm_compute; repeat constructor; done);
  unfold mbind at 1, M_bind at 1; cbn [modifyS]; reflexivity.

(** The fields that the writer knows, each followed by whatever is next. *)
Lemma parse_size f v r : in_u 64 v → parse_field f (entry (bytes_of_string "current_timeline_size") 8 v ++ r) = (Ok (set_size v f), r).
Proof. intros Hv. apply (parse_entry f _ 8 v r (λ v, set_size v f)); [vm_compute; repeat constructor; done|lia|done|parse_known]. Qed.
Lemma parse_received f v r : in_u 64 v → parse_field f (entry (bytes_of_string "ps_writelsn") 8 v ++ r) = (Ok (set_received v f), r).
Proof. intros Hv. apply (parse_entry f _ 8 v r (λ v, set_received v f)); [vm_compute; repeat constructor; done|lia|done|parse_known]. Qed.
Lemma parse_disk f v r : in_u 64 v → parse_field f (entry (bytes_of_string "ps_flushlsn") 8 v ++ r) = (Ok (set_disk v f), r).
Proof. intros Hv. apply (parse_entry f _ 8 v r (λ v, set_disk v f)); [vm_compute; repeat constructor; done|lia|done|parse_known]. Qed.
Lemma parse_remote f v r : in_u 64 v → parse_field f (entry (bytes_of_string "ps_applylsn") 8 v ++ r) = (Ok (set_remote v f), r).
Proof. intros Hv. apply (parse_entry f _ 8 v r (λ v, set_remote v f)); [vm_compute; repeat constructor; done|lia|done|parse_known]. Qed.
Lemma parse_reply f v r : in_u 64 v → parse_field f (entry (bytes_of_string "ps_replytime") 8 v ++ r) = (Ok (set_reply (to_signed 64 v * 1000) f), r).
Proof. intros Hv. apply (parse_entry f _ 8 v r (λ v, set_reply (to_signed 64 v * 1000) f)); [vm_compute; repeat constructor; done|lia|done|parse_known]. Qed.
Lemma parse_shard f v r : in_u 32 v → parse_field f (entry (bytes_of_string "shard_number") 4 v ++ r) = (Ok (set_shard v f), r).
Proof. intros Hv. apply (parse_entry f _ 4 v r (λ v, set_shard v f)); [vm_compute; repeat constructor; done|lia|done|parse_known]. Qed.
Lemma parse_corruption f v r : in_u 8 v → parse_field f (entry (bytes_of_string "corruption_detected") 1 v ++ r) = (Ok (set_corruption (negb (v =? 0)) f), r).
Proof. intros Hv. apply (parse_entry f _ 1 v r (λ v, set_corruption (negb (v =? 0)) f)); [vm_compute; repeat constructor; done|lia|done|parse_known]. Qed.

#[local] Opaque entry parse_field.

Lemma parse_fields_step n f b f' b' :
  parse_field f b = (Ok f', b') → parse_fields (S n) f b = parse_fields n f' b'.
Proof. intros E. cbn [parse_fields]. unfold mbind, M_bind. by rewrite E. Qed.

Lemma parse_base f us k r : feedback_ok f → replytime f = us * 1000 → 0 ≤ us < 2 ^ 63 →
  parse_fields (S (S (S (S (S k))))) empty
    (entry (bytes_of_string "current_timeline_size") 8 (current_timeline_size f) ++
     entry (bytes_of_string "ps_writelsn") 8 (last_received_lsn f) ++
     entry (bytes_of_string "ps_flushlsn") 8 (disk_consistent_lsn f) ++
     entry (bytes_of_string "ps_applylsn") 8 (fb_remote_consistent_lsn f) ++
     entry (bytes_of_string "ps_replytime") 8 us ++ r) =
  parse_fields k (MkPageserverFeedback (current_timeline_size f) (last_received_lsn f) (disk_consistent_lsn f)
    (fb_remote_consistent_lsn f) (replytime f) 0 false) r.
Proof.
  intros [H1 H2 H3 H4 _ H6] Eus Hus. assert (in_u 64 us) as Hu by (unfold in_u; lia).
  assert (to_signed 64 us = us) as Es by (unfold to_signed; by rewrite (proj2 (Z.ltb_lt us (2 ^ (64 - 1)))) by (cbn; lia)).
  rewrite (parse_fields_step _ _ _ _ _ (parse_size _ _ _ H1)), (parse_fields_step _ _ _ _ _ (parse_received _ _ _ H2)),
    (parse_fields_step _ _ _ _ _ (parse_disk _ _ _ H3)), (parse_fields_step _ _ _ _ _ (parse_remote _ _ _ H4)),
    (parse_fields_step _ _ _ _ _ (parse_reply _ _ _ Hu)). by rewrite Es, Eus.
Qed.

(** The number of pairs and the pairs, read back. *)
Lemma parse_serialize f r : feedback_ok f → ∃ n b,
  serialize f = Ok (Buf.put_be 1 n ++ b) ∧ in_u 8 n ∧ parse_fields (Z.to_nat n) empty (b ++ r) = (Ok f, r).
Proof.
  intros Hf. pose proof Hf as [_ _ _ _ (us & Eus & Hus) H6]. unfold serialize.
  rewrite Eus, (proj2 (Z.ltb_ge (us * 1000) 0)), Z.div_mul by lia.
  eexists _, _. split; [reflexivity|]. split; [destruct (0 <? shard_number f), (corruption_detected f); vm_compute; done|].
  rewrite <-!app_assoc.
  destruct (Z.ltb_spec 0 (shard_number f)) as [Hs|Hs], (corruption_detected f) eqn:Ec;
    [change (Z.to_nat _) with 7%nat|change (Z.to_nat _) with 6%nat|change (Z.to_nat _) with 6%nat|change (Z.to_nat _) with 5%nat];
    rewrite (parse_base f us) by done; cbn [app].
  - rewrite (parse_fields_step _ _ _ _ _ (parse_shard _ _ _ H6)), (parse_fields_step _ _ _ _ _ (parse_corruption _ 1 _ ltac:(done))).
    destruct f; cbn in *. by subst.
  - rewrite (parse_fields_step _ _ _ _ _ (parse_shard _ _ _ H6)). destruct f; cbn in *. by subst.
  - rewrite (parse_fields_step _ _ _ _ _ (parse_corruption _ 1 _ ltac:(done))).
    assert (shard_number f = 0) by (unfold in_u in H6; lia). destruct f; cbn in *. by subst.
  - assert (shard_number f = 0) by (unfold in_u in H6; lia). destruct f; cbn in *. by subst.
Qed.

Lemma feedback_roundtrip f : feedback_ok f → ∃ b, serialize f = Ok b ∧ parse b = Ok f.
Proof.
  intros Hf. destruct (parse_serialize f [] Hf) as (n & b & E & Hn & Hp). eexists. split; [exact E|].
  unfold parse, mbind, M_bind. rewrite get_be_put by done. rewrite app_nil_r in Hp. by rewrite Hp.
Qed.
End FeedbackFacts.
