(* ===== verification/DiskBtrees.v ===== *)
(** The index of layer files: [pageserver/src/tenant/disk_btree.rs], a B-tree of
    fixed-width keys that is built in one go and written page by page, with the
    in-memory block writer of [block_io.rs].

    A key of [L] bytes and a page are byte lists.  The stack of the builder has the
    leaf first.  The reader of blocks is a function that may fail.  A visitor is a
    function of its own state that says whether to go on; [visit] is the loop over
    the stack of pages, with the fuel of all loops. *)

From S2P Require Import Prelude Text Loops Feedbacks.
Local Open Scope Z_scope.

Definition VALUE_SZ : nat := 5.
Definition MAX_VALUE : Z := 0x7fffffffff.
Definition PAGE_SZ : Z := 8192.
Definition NODE_SIZE : Z := PAGE_SZ.
Definition NODE_HDR_SIZE : Z := 2 + 1 + 1 + 1.

Inductive DiskBtreeError := AppendOverflow (v : Z) | UnsortedInput (key last_key : bytes) | FailedToPushToNewLeafNode | BtIo.

(** * Values *)

Module Value.
Definition byte_at (x shift : Z) : Z := Z.shiftr x shift mod 2 ^ 8.
Definition from_u64 (x : Z) : result DiskBtreeError bytes :=
  if x <=? MAX_VALUE then Ok [byte_at x 32; byte_at x 24; byte_at x 16; byte_at x 8; byte_at x 0] else Panic.
Definition from_blknum (x : Z) : bytes := [0x80; byte_at x 24; byte_at x 16; byte_at x 8; byte_at x 0].
Definition to_u64 (self : bytes) : result DiskBtreeError Z :=
  match self with
  | [b0; b1; b2; b3; b4] =>
      Ok (Z.lor (Z.shiftl b0 32) (Z.lor (Z.shiftl b1 24) (Z.lor (Z.shiftl b2 16) (Z.lor (Z.shiftl b3 8) b4))))
  | _ => Panic
  end.
Definition to_blknum (self : bytes) : result DiskBtreeError Z :=
  match self with
  | [b0; b1; b2; b3; b4] =>
      if b0 =? 0x80 then Ok (Z.lor (Z.shiftl b1 24) (Z.lor (Z.shiftl b2 16) (Z.lor (Z.shiftl b3 8) b4))) else Panic
  | _ => Panic
  end.
End Value.

(** [&buf[off..off + len]] *)
Definition slice {E} (buf : bytes) (off len : nat) : result E bytes :=
  if (off + len <=? length buf)%nat then Ok (take len (drop off buf)) else Panic.

(** * Pages on disk *)

Module OnDiskNode.
Record t := Mk { num_children : nat; level : Z; prefix_len : nat; suffix_len : nat; prefix : bytes; keys : bytes; values : bytes }.

Definition deparse (buf : bytes) : result DiskBtreeError t :=
  match buf with
  | n0 :: n1 :: level :: plen :: slen :: _ =>
      let num_children := Z.to_nat (n0 * 2 ^ 8 + n1) in
      let prefix_len := Z.to_nat plen in
      let suffix_len := Z.to_nat slen in
      let keys_off := (5 + prefix_len)%nat in
      let keys_len := (num_children * suffix_len)%nat in
      let values_off := (keys_off + keys_len)%nat in
      prefix ← slice buf 5 prefix_len;
      keys ← slice buf keys_off keys_len;
      values ← slice buf values_off (num_children * VALUE_SZ)%nat;
      Ok (Mk num_children level prefix_len suffix_len prefix keys values)
  | _ => Err BtIo
  end.

Definition value (self : t) (idx : nat) : result DiskBtreeError bytes := slice (values self) (idx * VALUE_SZ)%nat VALUE_SZ.

(** The key buffer after the suffix of [idx] is copied into it. *)
Definition key_at (self : t) (idx : nat) : result DiskBtreeError bytes :=
  suffix ← slice (keys self) (idx * suffix_len self)%nat (suffix_len self);
  Ok (prefix self ++ suffix).

Definition bs_step (self : t) (search_key : bytes) (s : nat * nat * nat) : nat * nat * nat + result DiskBtreeError (nat + nat) :=
  let '(low, high, size) := s in
  if (low <? high)%nat then
    let mid := (low + size / 2)%nat in
    match key_at self mid with
    | Ok keybuf =>
        match bytes_cmp keybuf search_key with
        | Lt => inl (mid + 1, high, high - (mid + 1))%nat
        | Gt => inl (low, mid, mid - low)%nat
        | Eq => inr (Ok (inl mid))
        end
    | Err e => inr (Err e)
    | Panic => inr Panic
    end
  else inr (Ok (inr low)).

(** [inl] is an index where the key is, [inr] where it would be inserted. *)
Definition binary_search (self : t) (search_key : bytes) : result DiskBtreeError (nat + nat) :=
  match run (bs_step self search_key) FUEL (0, num_children self, num_children self)%nat with inr r => r | inl _ => Panic end.
End OnDiskNode.

(** * Reading *)

Inductive VisitDirection := Forwards | Backwards.

(** [Either<Range, Rev<RangeInclusive>>]: from [i] up to [n], or the first [n]
    downwards. *)
Inductive Iter := Up (i n : nat) | Down (n : nat).
Definition iter_next (it : Iter) : option (nat * Iter) :=
  match it with
  | Up i n => if (i <? n)%nat then Some (i, Up (i + 1) n) else None
  | Down (S n) => Some (n, Down n)
  | Down O => None
  end.
Definition iter_len (it : Iter) : nat := match it with Up i n => (n - i)%nat | Down n => n end.

Module DiskBtreeReader.
Section reader.
Context {S : Type} (read_blk : Z → option bytes) (start_blk root_blk : Z) (visitor : bytes → Z → S → bool * S).

(** Where to start in a page; [None] ends the visit. *)
Definition first_iter (node : OnDiskNode.t) (search_key : bytes) (dir : VisitDirection) : result DiskBtreeError (option Iter) :=
  r ← OnDiskNode.binary_search node search_key;
  Ok (match dir, r with
      | Forwards, inl idx => Some (Up idx (OnDiskNode.num_children node))
      | Forwards, inr idx =>
          Some (Up (if OnDiskNode.level node =? 0 then idx else (idx - 1)%nat) (OnDiskNode.num_children node))
      | Backwards, inl idx => Some (Down (idx + 1))
      | Backwards, inr O => None
      | Backwards, inr (Datatypes.S idx) => Some (Down (idx + 1))
      end).

(** The entries of a leaf, until the visitor has enough. *)
Fixpoint scan_leaf (fuel : nat) (node : OnDiskNode.t) (it : Iter) (s : S) : result DiskBtreeError bool * S :=
  match fuel, iter_next it with
  | _, None => (Ok true, s)
  | O, Some _ => (Ok true, s)
  | Datatypes.S fuel, Some (idx, it) =>
      match OnDiskNode.key_at node idx, (v ← OnDiskNode.value node idx; Value.to_u64 v) with
      | Ok key, Ok value =>
          let '(go_on, s) := visitor key value s in
          if go_on then scan_leaf fuel node it s else (Ok false, s)
      | _, _ => (Panic, s)
      end
  end.

Definition Frame : Type := Z * option Iter.

(** A page of the stack. *)
Definition visit_node (search_key : bytes) (dir : VisitDirection) (frame : Frame) (s : S) :
    result DiskBtreeError (option (list Frame)) * S :=
  let '(node_blknum, opt_iter) := frame in
  match read_blk (start_blk + node_blknum) with
  | None => (Err BtIo, s)
  | Some buf =>
      match OnDiskNode.deparse buf with
      | Ok node =>
          if (OnDiskNode.num_children node =? 0)%nat then (Panic, s)
          else
            match (match opt_iter with Some it => Ok (Some it) | None => first_iter node search_key dir end) with
            | Ok (Some it) =>
                if OnDiskNode.level node =? 0 then
                  let '(r, s) := scan_leaf (iter_len it) node it s in
                  (go_on ← r; Ok (if go_on : bool then Some [] else None), s)
                else
                  match iter_next it with
                  | None => (Ok (Some []), s)
                  | Some (idx, it) =>
                      (v ← OnDiskNode.value node idx;
                       child ← Value.to_blknum v;
                       Ok (Some [(child, None); (node_blknum, Some it)]), s)
                  end
            | Ok None => (Ok None, s)
            | Err e => (Err e, s)
            | Panic => (Panic, s)
            end
      | Err e => (Err e, s)
      | Panic => (Panic, s)
      end
  end.

Definition visit_step (search_key : bytes) (dir : VisitDirection) (st : list Frame * S) :
    list Frame * S + result DiskBtreeError bool * S :=
  match st with
  | ([], s) => inr (Ok true, s)
  | (frame :: stack, s) =>
      match visit_node search_key dir frame s with
      | (Ok (Some pushed), s) => inl (pushed ++ stack, s)
      | (Ok None, s) => inr (Ok false, s)
      | (Err e, s) => inr (Err e, s)
      | (Panic, s) => inr (Panic, s)
      end
  end.

Definition visit (search_key : bytes) (dir : VisitDirection) (s : S) : option (result DiskBtreeError bool * S) :=
  match run (visit_step search_key dir) FUEL ([(root_blk, None)], s) with inr r => Some r | inl _ => None end.
End reader.

Definition get (read_blk : Z → option bytes) (start_blk root_blk : Z) (search_key : bytes) : option (result DiskBtreeError (option Z)) :=
  r ← visit read_blk start_blk root_blk
        (λ key value result, (false, if bool_decide (key = search_key) then Some value else result)) search_key Forwards None;
  let '(r, result) := r in Some (_ ← r; Ok result).

(** ** The stream of the pairs, a copy of [visit] in the source *)

Section stream.
Context (read_blk : Z → option bytes) (start_blk root_blk : Z) (start_key : bytes).
Abbreviation Yielded := (list (bytes * Z)).

Definition stream_iter (node : OnDiskNode.t) : result DiskBtreeError Iter :=
  r ← OnDiskNode.binary_search node start_key;
  let idx := match r with
    | inl idx => idx
    | inr idx => if OnDiskNode.level node =? 0 then idx else (idx - 1)%nat
    end in
  Ok (Up idx (OnDiskNode.num_children node)).

(** The entries of a leaf. *)
Fixpoint yield_leaf (fuel : nat) (node : OnDiskNode.t) (it : Iter) (yielded : Yielded) : result DiskBtreeError unit * Yielded :=
  match fuel, iter_next it with
  | _, None => (Ok tt, yielded)
  | O, Some _ => (Ok tt, yielded)
  | Datatypes.S fuel, Some (idx, it) =>
      match OnDiskNode.key_at node idx, (v ← OnDiskNode.value node idx; Value.to_u64 v) with
      | Ok key, Ok value => yield_leaf fuel node it (yielded ++ [(key, value)])
      | _, _ => (Panic, yielded)
      end
  end.

(** A page of the stack, and what is pushed for it. *)
Definition stream_node (frame : Frame) (yielded : Yielded) : result DiskBtreeError (list Frame) * Yielded :=
  let '(node_blknum, opt_iter) := frame in
  match read_blk (start_blk + node_blknum) with
  | None => (Err BtIo, yielded)
  | Some node_buf =>
      match OnDiskNode.deparse node_buf with
      | Ok node =>
          if (OnDiskNode.num_children node =? 0)%nat then (Panic, yielded)
          else
            match (match opt_iter with Some iter => Ok iter | None => stream_iter node end) with
            | Ok it =>
                if OnDiskNode.level node =? 0 then
                  let '(r, yielded) := yield_leaf (iter_len it) node it yielded in (_ ← r; Ok [], yielded)
                else
                  match iter_next it with
                  | None => (Ok [], yielded)
                  | Some (idx, it) =>
                      (value ← OnDiskNode.value node idx;
                       child ← Value.to_blknum value;
                       Ok [(child, None); (node_blknum, Some it)], yielded)
                  end
            | Err e => (Err e, yielded)
            | Panic => (Panic, yielded)
            end
      | Err e => (Err e, yielded)
      | Panic => (Panic, yielded)
      end
  end.

Definition stream_step (st : list Frame * Yielded) : list Frame * Yielded + result DiskBtreeError unit * Yielded :=
  match st with
  | ([], yielded) => inr (Ok tt, yielded)
  | (frame :: stack, yielded) =>
      match stream_node frame yielded with
      | (Ok pushed, yielded) => inl (pushed ++ stack, yielded)
      | (Err e, yielded) => inr (Err e, yielded)
      | (Panic, yielded) => inr (Panic, yielded)
      end
  end.

(** How the stream ends, and the pairs it has given until then. *)
Definition into_stream : option (result DiskBtreeError unit * Yielded) :=
  match run stream_step FUEL ([(root_blk, None)], []) with inr r => Some r | inl _ => None end.
End stream.
End DiskBtreeReader.

(** * Building *)

Module BuildNode.
Record t := Mk { num_children : Z; level : Z; prefix : bytes; suffix_len : nat; keys : bytes; values : bytes; size : Z }.

Definition new (level : Z) : t := Mk 0 level [] 0 [] [] NODE_HDR_SIZE.

Definition set_suffix_len v (n : t) : t := Mk (num_children n) (level n) (prefix n) v (keys n) (values n) (size n).

Definition starts_with (key p : bytes) : bool := bool_decide (take (length p) key = p).

(** The lengths of keys and values that the methods assert. *)
Definition lengths_ok (self : t) : bool :=
  (Z.of_nat (length (keys self)) =? num_children self * Z.of_nat (suffix_len self)) &&
  (Z.of_nat (length (values self)) =? num_children self * Z.of_nat VALUE_SZ).

Definition push (key value : bytes) (self : t) : result DiskBtreeError (bool * t) :=
  if (0 <? num_children self) && negb (starts_with key (prefix self)) then Ok (false, self)
  else
    let self := if 0 <? num_children self then self else set_suffix_len (length key) self in
    let entry := Z.of_nat (suffix_len self) + Z.of_nat VALUE_SZ in
    if NODE_SIZE <=? size self + entry then Ok (false, self)
    else
      let self' := Mk (num_children self + 1) (level self) (prefix self) (suffix_len self)
        (keys self ++ drop (length (prefix self)) key) (values self ++ value) (size self + entry) in
      if lengths_ok self' then Ok (true, self') else Panic.

Definition first_suffix (self : t) : result DiskBtreeError bytes := slice (keys self) 0 (suffix_len self).
Definition last_suffix (self : t) : result DiskBtreeError bytes :=
  if (suffix_len self <=? length (keys self))%nat then slice (keys self) (length (keys self) - suffix_len self)%nat (suffix_len self) else Panic.

(** The loop over the two suffixes. *)
Fixpoint common_len (a b : bytes) : nat :=
  match a, b with
  | x :: a, y :: b => if x =? y then Datatypes.S (common_len a b) else O
  | _, _ => O
  end.

(** The loop that rewrites the keys. *)
Fixpoint strip_keys (fuel suffix_len prefix_len : nat) (keys : bytes) : bytes :=
  match fuel, keys with
  | _, [] => []
  | O, _ => []
  | Datatypes.S fuel, _ => drop prefix_len (take suffix_len keys) ++ strip_keys fuel suffix_len prefix_len (drop suffix_len keys)
  end.

Definition compress (self : t) : result DiskBtreeError (bool * t) :=
  first ← first_suffix self;
  last ← last_suffix self;
  let prefix_len := common_len first last in
  if (prefix_len =? 0)%nat then Ok (false, self)
  else
    let self' := Mk (num_children self) (level self) (prefix self ++ take prefix_len (keys self)) (suffix_len self - prefix_len)%nat
      (strip_keys (length (keys self)) (suffix_len self) prefix_len (keys self)) (values self)
      (size self - Z.of_nat prefix_len * num_children self + Z.of_nat prefix_len) in
    if lengths_ok self' then Ok (true, self') else Panic.

Definition pack (self : t) : result DiskBtreeError bytes :=
  if negb (lengths_ok self) || negb (0 <? num_children self) then Panic
  else
    let buf := Buf.put_be 2 (num_children self) ++ Buf.put_be 1 (level self) ++ Buf.put_be 1 (Z.of_nat (length (prefix self))) ++
      Buf.put_be 1 (Z.of_nat (suffix_len self)) ++ prefix self ++ keys self ++ values self in
    let len := Z.of_nat (length buf) in
    if (len =? size self) && (len <=? PAGE_SZ) then Ok (buf ++ replicate (Z.to_nat (PAGE_SZ - len)) 0) else Panic.

Definition first_key (L : nat) (self : t) : result DiskBtreeError bytes :=
  suffix ← first_suffix self;
  if (length (prefix self) + length suffix =? L)%nat then Ok (prefix self ++ suffix) else Panic.
End BuildNode.

(** [BlockBuf] of [block_io.rs] *)
Module BlockBuf.
Definition write_blk (buf : bytes) (blocks : list bytes) : result DiskBtreeError (Z * list bytes) :=
  if Z.of_nat (length buf) =? PAGE_SZ then Ok (Z.of_nat (length blocks) mod 2 ^ 32, blocks ++ [buf]) else Panic.
End BlockBuf.

Module DiskBtreeBuilder.
Section builder.
Context (L : nat).

(** The stack has the leaf first. *)
Record t := Mk { writer : list bytes; stack : list BuildNode.t; last_key : option bytes }.

Definition new (writer : list bytes) : t := Mk writer [BuildNode.new 0] None.

(** The part of [flush_node] before the downlink is appended. *)
Definition flush_page (last : BuildNode.t) (writer : list bytes) : result DiskBtreeError (bytes * bytes * list bytes) :=
  buf ← BuildNode.pack last;
  downlink_key ← BuildNode.first_key L last;
  w ← BlockBuf.write_blk buf writer;
  let '(downlink_ptr, writer) := w in
  Ok (downlink_key, Value.from_blknum downlink_ptr, writer).

(** [append_internal], with the call of [flush_node] for the node that is full; the
    stack without that node is either empty, then a new root is made, or shorter. *)
Fixpoint append_internal (fuel : nat) (key value : bytes) (stack : list BuildNode.t) (writer : list bytes) :
    result DiskBtreeError (list BuildNode.t * list bytes) :=
  match fuel, stack with
  | O, _ => Panic
  | _, [] => Panic (* expect *)
  | Datatypes.S fuel, last :: rest =>
      let level := BuildNode.level last in
      p ← BuildNode.push key value last;
      let '(pushed, last) := p in
      if pushed : bool then Ok (last :: rest, writer)
      else
        c ← BuildNode.compress last;
        let '(compressed, last) := c in
        p ← (if compressed : bool then BuildNode.push key value last else Ok (false, last));
        let '(pushed, last) := p in
        if pushed : bool then Ok (last :: rest, writer)
        else
          f ← flush_page last writer;
          let '(downlink_key, downlink, writer) := f in
          let rest := match rest with [] => [BuildNode.new (BuildNode.level last + 1)] | _ => rest end in
          r ← append_internal fuel downlink_key downlink rest writer;
          let '(rest, writer) := r in
          n ← BuildNode.push key value (BuildNode.new level);
          let '(pushed, n) := n in
          if pushed : bool then Ok (n :: rest, writer) else Err FailedToPushToNewLeafNode
  end.

(** A downlink goes up at most to a new root. *)
Definition append_to (key value : bytes) (stack : list BuildNode.t) (writer : list bytes) :=
  append_internal (length stack + 2) key value stack writer.

Definition flush_node (self : t) : result DiskBtreeError t :=
  match stack self with
  | [] => Panic
  | last :: rest =>
      f ← flush_page last (writer self);
      let '(downlink_key, downlink, writer) := f in
      let rest := match rest with [] => [BuildNode.new (BuildNode.level last + 1)] | _ => rest end in
      r ← append_to downlink_key downlink rest writer;
      let '(rest, writer) := r in
      Ok (Mk writer rest (last_key self))
  end.

Definition append (key : bytes) (value : Z) (self : t) : result DiskBtreeError t :=
  if MAX_VALUE <? value then Err (AppendOverflow value)
  else
    let unsorted := match last_key self with
      | Some last => match bytes_cmp key last with Gt => false | _ => true end
      | None => false
      end in
    if unsorted then Err (UnsortedInput key (default [] (last_key self)))
    else
      v ← Value.from_u64 value;
      r ← append_to key v (stack self) (writer self);
      let '(stack, writer) := r in
      Ok (Mk writer stack (Some key)).

Definition finish_step (self : t) : t + result DiskBtreeError (Z * list bytes) :=
  if (1 <? length (stack self))%nat then
    match flush_node self with Ok s => inl s | Err e => inr (Err e) | Panic => inr Panic end
  else
    inr (match stack self with
         | root :: _ => buf ← BuildNode.pack root; BlockBuf.write_blk buf (writer self)
         | [] => Panic
         end).

Definition finish (self : t) : option (result DiskBtreeError (Z * list bytes)) := run_result finish_step self.

(** A whole tree: the callers append one pair after the other. *)
Fixpoint appends (kvs : list (bytes * Z)) (self : t) : result DiskBtreeError t :=
  match kvs with [] => Ok self | (k, v) :: kvs => self ← append k v self; appends kvs self end.
End builder.
End DiskBtreeBuilder.
