(* ===== verification/BtreeFacts.v ===== *)
(** Pages of the B-tree: what a page that is being built holds, that pushing and prefix
    compression keep it, and that a page is read back from its bytes. *)

From S2P Require Import Prelude Text Loops Lsns Feedbacks DiskBtrees.
Local Open Scope Z_scope.

(** * The order of keys *)

Lemma bytes_cmp_eq a b : bytes_cmp a b = Eq ↔ a = b.
Proof.
  split; [|intros ->; induction b as [|x b IH]; [done|]; cbn; by rewrite Z.compare_refl].
  revert b. induction a as [|x a IH]; intros [|y b]; try done. cbn.
  destruct (Z.compare_spec x y) as [->|?|?]; try done. intros E. by rewrite (IH b E).
Qed.

Lemma cmp_refl a : bytes_cmp a a = Eq.
Proof. by apply bytes_cmp_eq. Qed.

Lemma cmp_antisym a b : bytes_cmp b a = CompOpp (bytes_cmp a b).
Proof.
  revert b. induction a as [|x a IH]; intros [|y b]; try done. cbn. rewrite (Z.compare_antisym x y).
  destruct (x ?= y); cbn; [apply IH|done|done].
Qed.

Lemma cmp_gt a b : bytes_cmp a b = Gt ↔ bytes_cmp b a = Lt.
Proof. rewrite (cmp_antisym a b). by destruct (bytes_cmp a b). Qed.

Lemma cmp_trans a b c : bytes_cmp a b = Lt → bytes_cmp b c = Lt → bytes_cmp a c = Lt.
Proof.
  revert b c. induction a as [|x a IH]; intros [|y b] [|z c]; try done. cbn.
  destruct (Z.compare_spec x y) as [->|?|?], (Z.compare_spec y z) as [->|?|?]; try done; intros H1 H2.
  - by apply (IH b).
  - by rewrite (proj2 (Z.compare_lt_iff _ _)).
  - by rewrite (proj2 (Z.compare_lt_iff x z)) by lia.
Qed.

Lemma cmp_lt_irrefl a : bytes_cmp a a ≠ Lt.
Proof. by rewrite cmp_refl. Qed.

(** What is between two keys shares the bytes that they share. *)
Lemma cmp_squeeze k a b c : length a = length b → length b = length c →
  bytes_cmp a b ≠ Gt → bytes_cmp b c ≠ Gt → take k a = take k c → take k b = take k a.
Proof.
  revert k b c. induction a as [|x a IH]; intros k [|y b] [|z c]; try done. intros [= Hl1] [= Hl2] H1 H2 Ht.
  destruct k as [|k]; [done|]. cbn in *. injection Ht as <- Ht.
  destruct (Z.compare_spec x y) as [<-|Hxy|Hxy]; [|destruct (Z.compare_spec y x) as [->|?|?]; [lia|lia|done]|done].
  rewrite Z.compare_refl in H2. f_equal. by apply (IH k b c).
Qed.

(** * Slices *)

Lemma slice_ok {E} (a b c : bytes) off len : off = length a → len = length b → slice (E := E) (a ++ b ++ c) off len = Ok b.
Proof.
  intros -> ->. unfold slice. rewrite (proj2 (Nat.leb_le _ _)) by (rewrite !length_app; lia).
  by rewrite drop_app_length, take_app_length.
Qed.

Lemma length_concat_fixed m (ls : list bytes) : Forall (λ l, length l = m) ls → length (concat ls) = (length ls * m)%nat.
Proof. induction 1 as [|l ls Hl _ IH]; [done|]. cbn. rewrite length_app, IH, Hl. lia. Qed.

Lemma slice_concat {E} m (ls : list bytes) i x : Forall (λ l, length l = m) ls → ls !! i = Some x →
  slice (E := E) (concat ls) (i * m)%nat m = Ok x.
Proof.
  intros Hls Hi. pose proof (list_elem_of_split_length ls i x Hi) as (l1 & l2 & -> & ->).
  apply Forall_app in Hls as [H1 [Hx H2]%Forall_cons].
  rewrite concat_app. cbn [concat]. apply slice_ok; [|done]. by rewrite (length_concat_fixed m).
Qed.

(** * Values *)

Lemma value_u64 x : 0 ≤ x ≤ MAX_VALUE → ∃ v, Value.from_u64 x = Ok v ∧ length v = 5%nat ∧ Value.to_u64 v = Ok x.
Proof.
  intros Hx. unfold Value.from_u64. rewrite (proj2 (Z.leb_le _ _)) by lia. eexists. split; [done|]. split; [done|].
  unfold Value.to_u64, Value.byte_at. f_equal. rewrite !Z.shiftr_div_pow2 by done. unfold MAX_VALUE in Hx.
  rewrite (lor_shiftl_add (x / 2 ^ 8 mod 2 ^ 8)), (lor_shiftl_add (x / 2 ^ 16 mod 2 ^ 8)), (lor_shiftl_add (x / 2 ^ 24 mod 2 ^ 8)),
    (lor_shiftl_add (x / 2 ^ 32 mod 2 ^ 8)) by (pose proof (Z.mod_pos_bound (x / 2 ^ 0) (2 ^ 8)); pose proof (Z.mod_pos_bound (x / 2 ^ 8) (2 ^ 8)); pose proof (Z.mod_pos_bound (x / 2 ^ 16) (2 ^ 8)); pose proof (Z.mod_pos_bound (x / 2 ^ 24) (2 ^ 8)); lia).
  Z.div_mod_to_equations. lia.
Qed.

Lemma value_blknum b : in_u 32 b → Value.to_blknum (Value.from_blknum b) = Ok b.
Proof.
  intros Hb. unfold Value.to_blknum, Value.from_blknum, Value.byte_at. rewrite Z.eqb_refl. f_equal.
  rewrite !Z.shiftr_div_pow2 by done. unfold in_u in Hb.
  pose proof (Z.mod_pos_bound (b / 2 ^ 0) (2 ^ 8)). pose proof (Z.mod_pos_bound (b / 2 ^ 8) (2 ^ 8)).
  pose proof (Z.mod_pos_bound (b / 2 ^ 16) (2 ^ 8)).
  rewrite (lor_shiftl_add (b / 2 ^ 8 mod 2 ^ 8)), (lor_shiftl_add (b / 2 ^ 16 mod 2 ^ 8)), (lor_shiftl_add (b / 2 ^ 24 mod 2 ^ 8)) by lia.
  Z.div_mod_to_equations. lia.
Qed.

(** * A page that is being built *)

Abbreviation Entry := (bytes * bytes)%type.

(** Keys in strictly ascending order. *)
Definition keys_sorted {A} (es : list (bytes * A)) : Prop := StronglySorted (λ a b, bytes_cmp a.1 b.1 = Lt) es.

Section page.
Context (L : nat).
Hypothesis key_len : (L ≤ 255)%nat.

(** A page with the entries [es]; only a page of two entries is ever compressed. *)
Record node_ok (n : BuildNode.t) (es : list Entry) : Prop := {
  no_children : BuildNode.num_children n = Z.of_nat (length es);
  no_prefix : Forall (λ e, take (length (BuildNode.prefix n)) e.1 = BuildNode.prefix n ∧ length e.1 = L) es;
  no_suffix : es ≠ [] → (length (BuildNode.prefix n) + BuildNode.suffix_len n = L)%nat;
  no_keys : BuildNode.keys n = concat ((λ e, drop (length (BuildNode.prefix n)) e.1) <$> es);
  no_values : BuildNode.values n = concat (snd <$> es);
  no_value_len : Forall (λ e, length e.2 = VALUE_SZ) es;
  no_size : BuildNode.size n = NODE_HDR_SIZE + Z.of_nat (length (BuildNode.prefix n)) +
    Z.of_nat (length es) * Z.of_nat (BuildNode.suffix_len n + VALUE_SZ);
  no_room : BuildNode.size n < NODE_SIZE;
  no_few : (length es ≤ 1)%nat → BuildNode.prefix n = []
}.

Lemma node_ok_new l : node_ok (BuildNode.new l) [].
Proof. by split; try done; constructor. Qed.

Lemma suffixes_fixed n es : node_ok n es →
  Forall (λ l, length l = BuildNode.suffix_len n) ((λ e : Entry, drop (length (BuildNode.prefix n)) e.1) <$> es).
Proof.
  intros [_ Hp Hs _ _ _ _ _ _]. destruct es as [|e0 es']; [constructor|]. specialize (Hs ltac:(done)).
  apply Forall_fmap. apply (Forall_impl _ _ _ Hp). intros e [_ Hl]. cbn. rewrite length_drop. lia.
Qed.

Lemma lengths_hold n es : node_ok n es → BuildNode.lengths_ok n = true.
Proof.
  intros Hn. pose proof (suffixes_fixed n es Hn) as Hf. destruct Hn as [Hc _ _ Hk Hv Hvl _ _ _].
  unfold BuildNode.lengths_ok. rewrite Hc, Hk, Hv, (length_concat_fixed _ _ Hf), length_fmap.
  rewrite (length_concat_fixed VALUE_SZ) by (by apply Forall_fmap). rewrite length_fmap.
  rewrite andb_true_iff, !Z.eqb_eq. lia.
Qed.

Lemma node_ok_add n es key value : node_ok n es → (length (BuildNode.prefix n) + BuildNode.suffix_len n = L)%nat →
  take (length (BuildNode.prefix n)) key = BuildNode.prefix n → length key = L → length value = VALUE_SZ →
  BuildNode.size n + (Z.of_nat (BuildNode.suffix_len n) + Z.of_nat VALUE_SZ) < NODE_SIZE →
  node_ok (BuildNode.Mk (BuildNode.num_children n + 1) (BuildNode.level n) (BuildNode.prefix n) (BuildNode.suffix_len n)
    (BuildNode.keys n ++ drop (length (BuildNode.prefix n)) key) (BuildNode.values n ++ value)
    (BuildNode.size n + (Z.of_nat (BuildNode.suffix_len n) + Z.of_nat VALUE_SZ))) (es ++ [(key, value)]).
Proof.
  intros [Hc Hp Hs Hks Hvs Hvl Hsz Hroom Hfew] Hl Ht Hk Hv Hr.
  split; cbn [BuildNode.num_children BuildNode.prefix BuildNode.suffix_len BuildNode.keys BuildNode.values BuildNode.size].
  - rewrite length_app. cbn. lia.
  - apply Forall_app. split; [done|]. by apply Forall_singleton.
  - done.
  - rewrite fmap_app, concat_app, Hks. cbn. by rewrite app_nil_r.
  - rewrite fmap_app, concat_app, Hvs. cbn. by rewrite app_nil_r.
  - apply Forall_app. split; [done|]. by apply Forall_singleton.
  - rewrite length_app, Hsz. cbn [length]. lia.
  - done.
  - rewrite length_app. cbn. intros ?. apply Hfew. lia.
Qed.

(** Pushing fails only on a page with two entries. *)
Lemma push_spec n es key value : node_ok n es → length key = L → length value = VALUE_SZ →
  ∃ b n', BuildNode.push key value n = Ok (b, n') ∧ BuildNode.level n' = BuildNode.level n ∧
    if b : bool then node_ok n' (es ++ [(key, value)]) else node_ok n' es ∧ (2 ≤ length es)%nat.
Proof.
  intros Hn Hk Hv. unfold BuildNode.push.
  assert (0 <? BuildNode.num_children n = negb (length es =? 0)%nat) as Epos.
  { rewrite (no_children _ _ Hn). destruct (length es); [done|]. by rewrite (proj2 (Z.ltb_lt _ _)) by lia. }
  rewrite Epos. destruct (negb (length es =? 0)%nat && negb (BuildNode.starts_with key (BuildNode.prefix n))) eqn:Eguard.
  { exists false, n. split_and!; [done..|]. apply andb_true_iff in Eguard as [E0 E1].
    destruct (Nat.le_gt_cases (length es) 1) as [Hle|]; [|lia]. by rewrite (no_few _ _ Hn Hle) in E1. }
  set (self := if negb (length es =? 0)%nat then n else _).
  assert (node_ok self es ∧ (length (BuildNode.prefix self) + BuildNode.suffix_len self = L)%nat ∧
    take (length (BuildNode.prefix self)) key = BuildNode.prefix self ∧ BuildNode.level self = BuildNode.level n) as (Hok & Hl & Ht & El).
  { subst self. destruct es as [|e es']; cbn [length Nat.eqb negb andb] in *.
    - pose proof (no_few _ _ Hn ltac:(cbn; lia)) as Ep. destruct Hn as [Hc Hp _ Hks Hvs Hvl Hsz Hroom Hfew].
      split_and!; [|cbn; by rewrite Ep|cbn; by rewrite Ep|done]. split; cbn in *; try done.
    - split_and!; [done|by apply Hn| |done]. apply negb_false_iff, bool_decide_eq_true in Eguard. done. }
  clearbody self. destruct (Z.leb_spec NODE_SIZE (BuildNode.size self + (Z.of_nat (BuildNode.suffix_len self) + Z.of_nat VALUE_SZ))) as [Hfull|Hroom].
  - exists false, self. split_and!; [done..|]. pose proof (no_size _ _ Hok) as Hsz. unfold NODE_SIZE, PAGE_SZ, NODE_HDR_SIZE, VALUE_SZ in *.
    destruct es as [|e [|e' es]]; cbn [length] in *; lia.
  - pose proof (node_ok_add self es key value Hok Hl Ht Hk Hv Hroom) as Hadd. rewrite (lengths_hold _ _ Hadd). eexists true, _. by split_and!.
Qed.

(** ** Prefix compression *)

Lemma common_len_spec a b : take (BuildNode.common_len a b) a = take (BuildNode.common_len a b) b ∧
  (BuildNode.common_len a b ≤ length a)%nat ∧ (BuildNode.common_len a b ≤ length b)%nat.
Proof.
  revert b. induction a as [|x a IH]; intros [|y b]; cbn; try (split_and!; [done|lia|lia]).
  destruct (Z.eqb_spec x y) as [->|?]; cbn; [|split_and!; [done|lia|lia]]. destruct (IH b) as (H1 & H2 & H3).
  split_and!; [by rewrite H1|lia|lia].
Qed.

Lemma strip_keys_spec fuel m k (ls : list bytes) : (0 < m)%nat → Forall (λ l, length l = m) ls → (length ls ≤ fuel)%nat →
  BuildNode.strip_keys fuel m k (concat ls) = concat (drop k <$> ls).
Proof.
  intros Hm Hls. revert fuel. induction Hls as [|l ls Hl _ IH]; intros fuel Hf; [by destruct fuel|].
  destruct fuel as [|fuel]; cbn in Hf; [lia|]. cbn [concat fmap list_fmap].
  destruct l as [|x l]; [cbn in Hl; lia|]. cbn [app BuildNode.strip_keys].
  change (x :: l ++ concat ls) with ((x :: l) ++ concat ls). rewrite take_app_length', drop_app_length' by done.
  by rewrite IH by lia.
Qed.

Lemma first_suffix_spec n e es : node_ok n (e :: es) →
  BuildNode.first_suffix n = Ok (drop (length (BuildNode.prefix n)) e.1).
Proof.
  intros Hn. unfold BuildNode.first_suffix. rewrite (no_keys _ _ Hn). cbn [fmap list_fmap concat].
  apply (slice_ok []); [done|]. pose proof (suffixes_fixed _ _ Hn) as Hf. apply Forall_cons in Hf as [Hf _]. by symmetry.
Qed.

Lemma last_suffix_spec n e es : node_ok n (es ++ [e]) →
  BuildNode.last_suffix n = Ok (drop (length (BuildNode.prefix n)) e.1).
Proof.
  intros Hn. pose proof (suffixes_fixed _ _ Hn) as Hf. unfold BuildNode.last_suffix. rewrite (no_keys _ _ Hn), fmap_app, concat_app.
  cbn [fmap list_fmap concat]. rewrite app_nil_r. rewrite fmap_app in Hf. apply Forall_app in Hf as [_ Hf].
  apply Forall_cons in Hf as [Hf _]. rewrite length_app, Hf, (proj2 (Nat.leb_le _ _)) by lia.
  rewrite <-(app_nil_r (drop _ _)) at 1. apply slice_ok; [lia|done].
Qed.

(** Every key lies between the first and the last. *)
Lemma sorted_between (e0 el e : Entry) mid : keys_sorted (e0 :: mid ++ [el]) → e ∈ e0 :: mid ++ [el] →
  bytes_cmp e0.1 e.1 ≠ Gt ∧ bytes_cmp e.1 el.1 ≠ Gt.
Proof.
  intros Hs He. unfold keys_sorted in Hs. split.
  - apply elem_of_cons in He as [->|He]; [by rewrite cmp_refl|]. apply StronglySorted_cons in Hs as [Hs _].
    rewrite Forall_forall in Hs. by rewrite (Hs e He).
  - change (e0 :: mid ++ [el]) with ((e0 :: mid) ++ [el]) in *. apply elem_of_app in He as [He|He]; [|apply list_elem_of_singleton in He as ->; by rewrite cmp_refl].
    apply list_elem_of_lookup_1 in He as [i Hi]. rewrite (StronglySorted_lookup _ _ i (length (e0 :: mid)) e el Hs); [done| | |].
    + by apply lookup_lt_Some in Hi.
    + by apply lookup_app_l_Some.
    + by apply list_lookup_middle.
Qed.

Lemma take_prefix_more (p x : bytes) k : take (length p) x = p → take (length p + k) x = p ++ take k (drop (length p) x).
Proof. intros Hp. rewrite <-Hp at 2. rewrite <-(take_drop (length p) x) at 1. rewrite take_app_ge; rewrite Hp; [|lia]. do 2 f_equal. lia. Qed.

(** The page with a longer prefix. *)
Lemma node_ok_strip n es k : node_ok n es → (2 ≤ length es)%nat → (0 < k ≤ BuildNode.suffix_len n)%nat →
  ∀ p, length p = (length (BuildNode.prefix n) + k)%nat → Forall (λ e : Entry, take (length p) e.1 = p) es →
  node_ok (BuildNode.Mk (BuildNode.num_children n) (BuildNode.level n) p (BuildNode.suffix_len n - k)
    (BuildNode.strip_keys (length (BuildNode.keys n)) (BuildNode.suffix_len n) k (BuildNode.keys n)) (BuildNode.values n)
    (BuildNode.size n - Z.of_nat k * BuildNode.num_children n + Z.of_nat k)) es.
Proof.
  intros Hn H2 Hk p Hp Hall. pose proof (suffixes_fixed _ _ Hn) as Hf. destruct Hn as [Hc Hpre Hs Hks Hvs Hvl Hsz Hroom Hfew].
  split; cbn [BuildNode.num_children BuildNode.prefix BuildNode.suffix_len BuildNode.keys BuildNode.values BuildNode.size]; try done.
  - rewrite Forall_forall in *. intros e He. split; [by apply Hall|by apply Hpre].
  - intros Hne. specialize (Hs Hne). lia.
  - rewrite Hks, strip_keys_spec; [|lia|done|rewrite (length_concat_fixed _ _ Hf), length_fmap; nia].
    f_equal. rewrite <-list_fmap_compose. apply list_fmap_ext. intros i e _. cbn. by rewrite drop_drop, Hp.
  - rewrite Hsz, Hc, Hp. unfold VALUE_SZ. nia.
  - rewrite Hc in *. nia.
  - lia.
Qed.

Lemma compress_spec n es : node_ok n es → (2 ≤ length es)%nat → keys_sorted es →
  ∃ b n', BuildNode.compress n = Ok (b, n') ∧ BuildNode.level n' = BuildNode.level n ∧ node_ok n' es.
Proof.
  intros Hn H2 Hsort. destruct es as [|e0 es]; [cbn in H2; lia|]. destruct (exists_last (l := es)) as (mid & el & ->); [by intros ->; cbn in H2; lia|].
  unfold BuildNode.compress. rewrite (first_suffix_spec _ _ _ Hn). cbn [mbind result_bind].
  change (e0 :: mid ++ [el]) with ((e0 :: mid) ++ [el]) in Hn. rewrite (last_suffix_spec _ _ _ Hn). cbn [mbind result_bind].
  change ((e0 :: mid) ++ [el]) with (e0 :: mid ++ [el]) in Hn. pose proof Hn as [_ Hpre _ Hks _ _ _ _ _]. set (p := BuildNode.prefix n) in *.
  destruct (common_len_spec (drop (length p) e0.1) (drop (length p) el.1)) as (Hc & Hl0 & Hll).
  set (k := BuildNode.common_len _ _) in *. destruct (Nat.eqb_spec k 0) as [_|Hk]; [by exists false, n|].
  rewrite Forall_forall in Hpre. destruct (Hpre e0 ltac:(constructor)) as [Hp0 HL0]. destruct (Hpre el) as [Hpl HLl]; [right; apply elem_of_app; right; constructor|].
  assert (BuildNode.suffix_len n = length (drop (length p) e0.1)) as Es.
  { rewrite length_drop. pose proof (no_suffix _ _ Hn ltac:(done)). fold p in H. lia. }
  assert (take k (BuildNode.keys n) = take k (drop (length p) e0.1)) as Ek.
  { rewrite Hks. cbn [fmap list_fmap concat]. by rewrite take_app_le. }
  rewrite Ek. rewrite <-(take_prefix_more p e0.1 k Hp0).
  assert (length (take (length p + k) e0.1) = (length p + k)%nat) as Lp by (rewrite length_take; rewrite length_drop in Hl0; lia).
  pose proof (node_ok_strip n _ k Hn H2 ltac:(lia) (take (length p + k) e0.1) Lp) as Hn'.
  ospecialize (Hn' _).
  { rewrite Forall_forall. intros e He. rewrite Lp. destruct (Hpre e He) as [Hpe HLe].
    destruct (sorted_between _ _ e mid Hsort He) as [B1 B2]. apply (cmp_squeeze _ _ _ el.1); [congruence..|done|done|].
    rewrite !take_prefix_more by done. by rewrite Hc. }
  rewrite (lengths_hold _ _ Hn'). by eexists true, _.
Qed.

(** ** Writing a page *)

Lemma put_byte z : in_u 8 z → Buf.put_be 1 z = [z].
Proof.
  intros Hz. unfold Buf.put_be, in_u in *. cbn.
  change (2 ^ (8 * Z.of_nat 1)) with 256. change (2 ^ (8 * Z.of_nat 0)) with 1. by rewrite Z.div_1_r, Z.mod_mod, Z.mod_small by lia.
Qed.

Lemma put_u16 z : in_u 16 z → Buf.put_be 2 z = [z / 2 ^ 8; z mod 2 ^ 8].
Proof.
  intros Hz. unfold Buf.put_be, in_u in *. cbn. change (2 ^ (8 * Z.of_nat 2)) with 65536. change (2 ^ (8 * Z.of_nat 1)) with 256.
  change (2 ^ (8 * Z.of_nat 0)) with 1. change (2 ^ 8) with 256. rewrite (Z.mod_small z 65536), Z.div_1_r by lia.
  rewrite (Z.mod_small (z / 256)) by (split; [apply Z.div_pos; lia|apply Z.div_lt_upper_bound; lia]). done.
Qed.

(** The bytes of a page of a level with the given entries. *)
Definition page_of (buf : bytes) (level : Z) (es : list Entry) : Prop :=
  ∃ d, OnDiskNode.deparse buf = Ok d ∧ OnDiskNode.num_children d = length es ∧ OnDiskNode.level d = level ∧
    ∀ i e, es !! i = Some e → OnDiskNode.key_at d i = Ok e.1 ∧ OnDiskNode.value d i = Ok e.2.

Lemma node_small n es : node_ok n es → (length es < 1638)%nat.
Proof. intros Hn. pose proof (no_size _ _ Hn). pose proof (no_room _ _ Hn). unfold NODE_SIZE, PAGE_SZ, NODE_HDR_SIZE, VALUE_SZ in *. nia. Qed.

Lemma first_key_spec n e es : node_ok n (e :: es) → BuildNode.first_key L n = Ok e.1.
Proof.
  intros Hn. unfold BuildNode.first_key. rewrite (first_suffix_spec _ _ _ Hn). cbn [mbind result_bind].
  pose proof (no_prefix _ _ Hn) as Hp. apply Forall_cons in Hp as [[Hp HL] _]. set (p := BuildNode.prefix n) in *.
  rewrite <-Hp at 3. rewrite take_drop. rewrite length_drop.
  pose proof (no_suffix _ _ Hn ltac:(done)) as Hs. fold p in Hs. by rewrite (proj2 (Nat.eqb_eq _ _)) by lia.
Qed.

Lemma pack_spec n es : node_ok n es → es ≠ [] → in_u 8 (BuildNode.level n) →
  ∃ buf, BuildNode.pack n = Ok buf ∧ Z.of_nat (length buf) = PAGE_SZ ∧ page_of buf (BuildNode.level n) es.
Proof.
  intros Hn Hne Hlv. pose proof (suffixes_fixed _ _ Hn) as Hf. pose proof (node_small _ _ Hn) as Hsmall.
  pose proof Hn as [Hc Hp Hs Hks Hvs Hvl Hsz Hroom _]. specialize (Hs Hne). unfold BuildNode.pack.
  rewrite (lengths_hold _ _ Hn), (proj2 (Z.ltb_lt 0 _)) by (destruct es; [done|cbn in Hc; lia]). cbn [negb orb].
  rewrite put_u16 by (unfold in_u; lia). rewrite !put_byte by (unfold in_u in *; cbn; lia). cbn [app].
  set (buf := _ :: _). assert (Z.of_nat (length buf) = BuildNode.size n) as Hlen.
  { subst buf. cbn [length]. rewrite !length_app, Hks, Hvs, (length_concat_fixed _ _ Hf), length_fmap,
      (length_concat_fixed VALUE_SZ) by (by apply Forall_fmap). rewrite length_fmap, Hsz. unfold NODE_HDR_SIZE. lia. }
  rewrite Hlen, Z.eqb_refl, (proj2 (Z.leb_le _ _)) by (unfold NODE_SIZE in *; lia). cbn [andb]. set (zs := replicate _ 0).
  exists (buf ++ zs). split; [done|]. unfold NODE_SIZE in *.
  split; [subst zs; rewrite length_app, length_replicate; lia|]. unfold page_of.
  set (d := OnDiskNode.Mk (length es) (BuildNode.level n) (length (BuildNode.prefix n)) (BuildNode.suffix_len n) (BuildNode.prefix n)
    (BuildNode.keys n) (BuildNode.values n)).
  assert (length (BuildNode.keys n) = (length es * BuildNode.suffix_len n)%nat) as Lk by (by rewrite Hks, (length_concat_fixed _ _ Hf), length_fmap).
  assert (length (BuildNode.values n) = (length es * VALUE_SZ)%nat) as Lv
    by (rewrite Hvs, (length_concat_fixed VALUE_SZ) by (by apply Forall_fmap); by rewrite length_fmap).
  exists d. split; [|split_and!; [done..|]].
  - subst buf. cbn [app]. unfold OnDiskNode.deparse.
    assert (Z.to_nat (BuildNode.num_children n / 2 ^ 8 * 2 ^ 8 + BuildNode.num_children n mod 2 ^ 8) = length es) as ->.
    { rewrite Z.mul_comm, <-Z.div_mod, Hc by lia. lia. }
    rewrite !Nat2Z.id. set (hdr := [BuildNode.num_children n / 2 ^ 8; BuildNode.num_children n mod 2 ^ 8; BuildNode.level n;
      Z.of_nat (length (BuildNode.prefix n)); Z.of_nat (BuildNode.suffix_len n)]).
    set (all := BuildNode.num_children n / 2 ^ 8 :: _).
    assert (all = hdr ++ BuildNode.prefix n ++ BuildNode.keys n ++ BuildNode.values n ++ zs) as ->
      by (subst all hdr; cbn [app]; by rewrite <-!app_assoc).
    rewrite (slice_ok hdr _ _ 5) by done. cbn [mbind result_bind].
    rewrite (app_assoc hdr), (slice_ok (hdr ++ BuildNode.prefix n) _ _ (5 + length (BuildNode.prefix n)))
      by (rewrite ?length_app; subst hdr; cbn [length]; lia). cbn [mbind result_bind].
    rewrite (app_assoc _ (BuildNode.keys n)), slice_ok by (rewrite ?length_app; subst hdr; cbn [length]; lia). done.
  - intros i e Hi. split.
    + unfold OnDiskNode.key_at. subst d. cbn [OnDiskNode.keys OnDiskNode.suffix_len OnDiskNode.prefix]. rewrite Hks.
      rewrite (slice_concat _ _ _ (drop (length (BuildNode.prefix n)) e.1) Hf) by (by rewrite list_lookup_fmap, Hi). cbn.
      rewrite Forall_forall in Hp. destruct (Hp e) as [Ht _]; [by apply list_elem_of_lookup_2 in Hi|]. by rewrite <-Ht at 1; rewrite take_drop.
    + unfold OnDiskNode.value. subst d. cbn [OnDiskNode.values]. rewrite Hvs.
      apply slice_concat; [by apply Forall_fmap|]. by rewrite list_lookup_fmap, Hi.
Qed.
End page.
