(* ===== verification/BtreeBuild.v ===== *)
(** Building the B-tree: the stack of unfinished pages holds exactly what was appended,
    every flushed page is the root of a tree of its part of the input, and [finish]
    terminates with the tree of the whole input. *)

From S2P Require Import Prelude Text Loops Lsns Feedbacks DiskBtrees BtreeFacts.
Local Open Scope Z_scope.

Abbreviation kv := (bytes * Z)%type.

(** * Trees on disk *)

(** Page [b] is the root of a tree of level [l] with the pairs [ks]: a leaf has a pair
    per entry, an inner page has the first key and the number of a subtree per
    entry. *)
Fixpoint tree_at (blocks : list bytes) (l b : nat) (ks : list kv) : Prop :=
  ∃ buf es segs, blocks !! b = Some buf ∧ page_of buf (Z.of_nat l) es ∧ es ≠ [] ∧ ks = concat segs ∧
    match l with
    | O => Forall2 (λ (e : Entry) s, ∃ v, s = [(e.1, v)] ∧ 0 ≤ v ≤ MAX_VALUE ∧ Value.from_u64 v = Ok e.2) es segs
    | S l => Forall2 (λ (e : Entry) s, ∃ b, e.2 = Value.from_blknum (Z.of_nat b) ∧ fst <$> head s = Some e.1 ∧ tree_at blocks l b s) es segs
    end.

(** An entry of a page of level [l], and the pairs below it. *)
Definition entry_at (blocks : list bytes) (l : nat) (e : Entry) (s : list kv) : Prop :=
  match l with
  | O => ∃ v, s = [(e.1, v)] ∧ 0 ≤ v ≤ MAX_VALUE ∧ Value.from_u64 v = Ok e.2
  | S l => ∃ b, e.2 = Value.from_blknum (Z.of_nat b) ∧ fst <$> head s = Some e.1 ∧ tree_at blocks l b s
  end.

Lemma tree_at_eq blocks l b ks : tree_at blocks l b ks ↔
  ∃ buf es segs, blocks !! b = Some buf ∧ page_of buf (Z.of_nat l) es ∧ es ≠ [] ∧ ks = concat segs ∧ Forall2 (entry_at blocks l) es segs.
Proof. destruct l; done. Qed.

Lemma entry_mono blocks blocks' l e s : blocks `prefix_of` blocks' → entry_at blocks l e s → entry_at blocks' l e s.
Proof.
  intros [k ->]. revert e s. induction l as [|l IH]; intros e s; [done|].
  intros (b & Eb & Hh & Ht). exists b. split_and!; [done..|]. apply tree_at_eq in Ht as (buf & es & segs & Hb & Hp & Hne & -> & Hf).
  apply tree_at_eq. exists buf, es, segs. split_and!; [by apply lookup_app_l_Some|done..|]. by apply (Forall2_impl _ _ _ _ Hf).
Qed.

Lemma entry_head blocks l e s : entry_at blocks l e s → fst <$> head s = Some e.1.
Proof. destruct l; [by intros (v & -> & _)|by intros (b & _ & ? & _)]. Qed.

(** ** Order *)

Lemma sorted_app_inv {A} (a b : list (bytes * A)) : keys_sorted (a ++ b) →
  keys_sorted a ∧ keys_sorted b ∧ ∀ x y, x ∈ a → y ∈ b → bytes_cmp x.1 y.1 = Lt.
Proof.
  unfold keys_sorted. induction a as [|x a IH]; cbn [app].
  { intros Hb. split_and!; [constructor|done|by intros ? ? ?%elem_of_nil]. }
  rewrite !StronglySorted_cons. intros [Hx Hs]. destruct (IH Hs) as (Ha & Hb & Hab). apply Forall_app in Hx as [Hxa Hxb].
  split_and!; [done..|]. intros y z [->|Hy]%elem_of_cons Hz; [|by apply Hab]. rewrite Forall_forall in Hxb. by apply Hxb.
Qed.

Lemma sorted_app {A} (a b : list (bytes * A)) : keys_sorted a → keys_sorted b →
  (∀ x y, x ∈ a → y ∈ b → bytes_cmp x.1 y.1 = Lt) → keys_sorted (a ++ b).
Proof.
  unfold keys_sorted. induction 1 as [|x a _ IH Hx]; intros Hb Hab; [done|]. cbn [app]. constructor.
  - apply IH; [done|]. intros y z Hy. apply Hab. by right.
  - apply Forall_app. split; [done|]. rewrite Forall_forall. intros y Hy. apply Hab; [constructor|done].
Qed.

Lemma entries_sorted blocks l es segs : Forall2 (entry_at blocks l) es segs → keys_sorted (concat segs) → keys_sorted es.
Proof.
  induction 1 as [|e s es segs He Hes IH]; intros Hs; [constructor|]. cbn [concat] in Hs.
  apply sorted_app_inv in Hs as (_ & Hs & Hlt). constructor; [by apply IH|].
  rewrite Forall_forall. intros e' [i Hi]%list_elem_of_lookup_1. destruct (Forall2_lookup_l _ _ _ _ _ Hes Hi) as (s' & Hs' & He').
  apply entry_head in He, He'. destruct s as [|x s]; [done|]. destruct s' as [|y s']; [done|]. cbn in He, He'. injection He as <-. injection He' as <-.
  apply Hlt; [constructor|]. apply list_elem_of_In, in_concat. exists (y :: s'). split; [by apply list_elem_of_In, (list_elem_of_lookup_2 _ i)|by left].
Qed.

(** * Pages that are being built *)

Section build.
Context (L : nat).
Hypothesis key_len : (L ≤ 255)%nat.

(** A page of level [l] that holds [ks]; with [w], every part below it is as large as a
    tree of its level must be. *)
Definition holds (w : Prop) (blocks : list bytes) (l : nat) (n : BuildNode.t) (ks : list kv) : Prop :=
  ∃ es segs, node_ok L n es ∧ BuildNode.level n = Z.of_nat l ∧ ks = concat segs ∧ Forall2 (entry_at blocks l) es segs ∧
    (w → Forall (λ s, 2 ^ Z.of_nat l ≤ Z.of_nat (length s)) segs).

Fixpoint stack_holds (w : Prop) (blocks : list bytes) (l : nat) (stack : list BuildNode.t) (ks : list kv) : Prop :=
  match stack with
  | [] => ks = []
  | n :: rest => ∃ k1 k2, ks = k1 ++ k2 ∧ holds w blocks l n k2 ∧ k2 ≠ [] ∧ stack_holds w blocks (S l) rest k1
  end.

Definition fresh (n : BuildNode.t) : bool := BuildNode.num_children n =? 1.

Lemma holds_mono (w w' : Prop) blocks blocks' l n ks : (w' → w) → blocks `prefix_of` blocks' → holds w blocks l n ks → holds w' blocks' l n ks.
Proof.
  intros Hw Hp (es & segs & Hn & Hl & -> & Hf & Hwt). exists es, segs. split_and!; [done..| |auto].
  apply (Forall2_impl _ _ _ _ Hf). intros e s. by apply entry_mono.
Qed.

Lemma stack_holds_mono (w w' : Prop) blocks blocks' l stack ks : (w' → w) → blocks `prefix_of` blocks' →
  stack_holds w blocks l stack ks → stack_holds w' blocks' l stack ks.
Proof.
  intros Hw Hp. revert l ks. induction stack as [|n rest IH]; intros l ks; [done|].
  intros (k1 & k2 & -> & Hn & Hne & Hr). exists k1, k2. split_and!; [done|by apply (holds_mono w w' blocks)|done|by apply IH].
Qed.

(** A page with one more entry, and one with a single entry. *)
Lemma holds_add (w : Prop) blocks l n n' es segs e s : Forall2 (entry_at blocks l) es segs →
  (w → Forall (λ s : list kv, 2 ^ Z.of_nat l ≤ Z.of_nat (length s)) segs) → entry_at blocks l e s → (w → 2 ^ Z.of_nat l ≤ Z.of_nat (length s)) →
  node_ok L n' (es ++ [e]) → BuildNode.level n = Z.of_nat l → BuildNode.level n' = BuildNode.level n →
  holds w blocks l n' (concat segs ++ s).
Proof.
  intros Hf Hw He Hws Hn Hl Hl'. exists (es ++ [e]), (segs ++ [s]). split_and!; [done|congruence| | |].
  - by rewrite concat_app; cbn; rewrite app_nil_r.
  - apply Forall2_app; [done|]. by constructor.
  - intros W. apply Forall_app. split; [by apply Hw|]. apply Forall_singleton. by apply Hws.
Qed.

Lemma push_new (w : Prop) blocks l e s : entry_at blocks l e s → (w → 2 ^ Z.of_nat l ≤ Z.of_nat (length s)) → length e.1 = L → length e.2 = VALUE_SZ →
  ∃ n, BuildNode.push e.1 e.2 (BuildNode.new (Z.of_nat l)) = Ok (true, n) ∧ holds w blocks l n s ∧ fresh n = true.
Proof.
  intros He Hw Hk Hv. destruct (push_spec L key_len _ [] e.1 e.2 (node_ok_new L (Z.of_nat l)) Hk Hv) as (b & n & E & Hl & Hb).
  destruct b; [|destruct Hb as [_ Hb]; cbn in Hb; lia]. exists n. split; [done|]. destruct e as [k v]. split.
  - apply (holds_add w blocks l (BuildNode.new (Z.of_nat l)) n [] [] (k, v) s); try done.
  - unfold fresh. by rewrite (no_children _ _ _ Hb).
Qed.

Lemma from_blknum_mod b : Value.from_blknum (b mod 2 ^ 32) = Value.from_blknum b.
Proof.
  unfold Value.from_blknum, Value.byte_at. rewrite !Z.shiftr_div_pow2 by done.
  assert (b mod 2 ^ 32 / 2 ^ 24 mod 2 ^ 8 = b / 2 ^ 24 mod 2 ^ 8) as -> by (Z.div_mod_to_equations; lia).
  assert (b mod 2 ^ 32 / 2 ^ 16 mod 2 ^ 8 = b / 2 ^ 16 mod 2 ^ 8) as -> by (Z.div_mod_to_equations; lia).
  assert (b mod 2 ^ 32 / 2 ^ 8 mod 2 ^ 8 = b / 2 ^ 8 mod 2 ^ 8) as -> by (Z.div_mod_to_equations; lia).
  assert (b mod 2 ^ 32 / 2 ^ 0 mod 2 ^ 8 = b / 2 ^ 0 mod 2 ^ 8) as -> by (Z.div_mod_to_equations; lia). done.
Qed.

(** ** Flushing a page *)

Lemma flush_page_ok (w : Prop) blocks l n ks : holds w blocks l n ks → ks ≠ [] → (l < 256)%nat →
  ∃ e blocks', DiskBtreeBuilder.flush_page L n blocks = Ok (e.1, e.2, blocks') ∧ blocks `prefix_of` blocks' ∧
    length e.1 = L ∧ length e.2 = VALUE_SZ ∧ entry_at blocks' (S l) e ks.
Proof.
  intros (es & segs & Hn & Hl & -> & Hf & _) Hne Hl256. unfold DiskBtreeBuilder.flush_page.
  assert (es ≠ []) as Hes by (intros ->; by inversion Hf; subst).
  destruct (pack_spec L key_len n es Hn Hes) as (buf & -> & Hlen & Hpage); [rewrite Hl; unfold in_u; lia|]. cbn [mbind result_bind].
  destruct es as [|e es]; [done|]. rewrite (first_key_spec L key_len n e es Hn). cbn [mbind result_bind].
  unfold BlockBuf.write_blk. rewrite Hlen, Z.eqb_refl. cbn [mbind result_bind]. rewrite from_blknum_mod.
  exists (e.1, Value.from_blknum (Z.of_nat (length blocks))), (blocks ++ [buf]). split_and!; [done|by eexists| |done|].
  - pose proof (no_prefix _ _ _ Hn) as Hp. by apply Forall_cons in Hp as [[_ Hp] _].
  - assert (blocks `prefix_of` blocks ++ [buf]) as Hpre by (by eexists). exists (length blocks). split_and!; [done| |].
    + inversion Hf as [|? s ? segs' He _ E1 E2]; subst. apply entry_head in He. by destruct s.
    + apply tree_at_eq. exists buf, (e :: es), segs. rewrite Hl in Hpage. split_and!; [by apply list_lookup_middle|done..|].
      apply (Forall2_impl _ _ _ _ Hf). intros e' s. by apply entry_mono.
Qed.

Lemma two_weights l (segs : list (list kv)) : (2 ≤ length segs)%nat → Forall (λ s, 2 ^ Z.of_nat l ≤ Z.of_nat (length s)) segs →
  2 ^ Z.of_nat (S l) ≤ Z.of_nat (length (concat segs)).
Proof.
  intros H2 Hw. destruct segs as [|s1 [|s2 segs]]; cbn in H2; [lia..|]. apply Forall_cons in Hw as [W1 [W2 _]%Forall_cons].
  cbn [concat]. rewrite !length_app, Nat2Z.inj_succ, Z.pow_succ_r by lia. lia.
Qed.

(** How the stack grows: when a root was flushed, every page has a single entry; a page
    with a single entry takes one more. *)
Definition grown (stack stack' : list BuildNode.t) : Prop :=
  (length stack' = length stack ∨ length stack' = S (length stack) ∧ forallb fresh stack' = true) ∧
  (∀ r, head stack = Some r → fresh r = true → ∃ r', stack' = r' :: tail stack).

(** What [append_internal] does to a stack that holds [ks]: the new one holds the new
    part, too. *)
Definition appends_to (w : Prop) (fuel l : nat) (stack : list BuildNode.t) (blocks : list bytes) (ks : list kv) (e : Entry) (s : list kv) : Prop :=
  ∃ stack' blocks', DiskBtreeBuilder.append_internal L fuel e.1 e.2 stack blocks = Ok (stack', blocks') ∧ blocks `prefix_of` blocks' ∧
    stack_holds w blocks' l stack' (ks ++ s) ∧ grown stack stack'.

(** A page is flushed and linked to the rest of the stack, or to a new root. *)
Lemma link_ok (w : Prop) fuel l n k2 rest k1 blocks :
  holds w blocks l n k2 → k2 ≠ [] → (l < 256)%nat → stack_holds w blocks (S l) rest k1 → (w → 2 ^ Z.of_nat (S l) ≤ Z.of_nat (length k2)) →
  (0 < fuel)%nat →
  (rest ≠ [] → ∀ blocks' e, stack_holds w blocks' (S l) rest k1 → entry_at blocks' (S l) e k2 → length e.1 = L → length e.2 = VALUE_SZ →
     appends_to w fuel (S l) rest blocks' k1 e k2) →
  ∃ rest' blocks', (f ← DiskBtreeBuilder.flush_page L n blocks;
      let '(downlink_key, downlink, writer) := f in
      DiskBtreeBuilder.append_internal L fuel downlink_key downlink
        (match rest with [] => [BuildNode.new (BuildNode.level n + 1)] | _ => rest end) writer) = Ok (rest', blocks') ∧
    blocks `prefix_of` blocks' ∧ stack_holds w blocks' (S l) rest' (k1 ++ k2) ∧ grown rest rest'.
Proof.
  intros Hn Hne Hl Hr Hw Hfuel Happ. destruct (flush_page_ok w blocks l n k2 Hn Hne Hl) as (e & blocks1 & -> & Hp1 & Hk & Hv & He).
  cbn [mbind result_bind]. destruct rest as [|r rest].
  - destruct fuel as [|fuel]; [lia|]. cbn [DiskBtreeBuilder.append_internal]. cbn in Hr. subst k1.
    destruct Hn as (es & segs & _ & -> & _). replace (Z.of_nat l + 1) with (Z.of_nat (S l)) by lia.
    destruct (push_new w blocks1 (S l) e k2 He Hw Hk Hv) as (root & -> & Hroot & Hfresh). cbn [mbind result_bind].
    exists [root], blocks1. split_and!; [done..| |split; [right; cbn; by rewrite Hfresh|done]]. exists [], k2. by split_and!.
  - destruct (Happ ltac:(done) blocks1 e (stack_holds_mono w w _ _ _ _ _ (λ x, x) Hp1 Hr) He Hk Hv) as (rest' & blocks2 & -> & Hp2 & Hr' & Hlen).
    exists rest', blocks2. split_and!; [done|by trans blocks1|done|done].
Qed.

Lemma append_ok (w : Prop) fuel l stack ks blocks e s :
  (length stack + 2 ≤ fuel)%nat → stack ≠ [] → stack_holds w blocks l stack ks → entry_at blocks l e s →
  length e.1 = L → length e.2 = VALUE_SZ → keys_sorted (ks ++ s) → (w → 2 ^ Z.of_nat l ≤ Z.of_nat (length s)) → (l + length stack < 256)%nat →
  appends_to w fuel l stack blocks ks e s.
Proof.
  revert fuel l ks blocks e s. induction stack as [|n rest IH]; [done|]. intros fuel l ks blocks e s Hfuel _ Hst He Hk Hv Hsort Hws Hlv.
  destruct fuel as [|fuel]; [lia|]. destruct Hst as (k1 & k2 & -> & Hn & Hne & Hrest).
  pose proof Hn as (es & segs & Hok & Hl & -> & Hf & Hw). rewrite <-app_assoc in Hsort.
  assert (keys_sorted es) as Hses.
  { apply sorted_app_inv in Hsort as (_ & Hsort & _). apply sorted_app_inv in Hsort as (Hsort & _). by apply (entries_sorted blocks l es segs). }
  assert (∀ n', node_ok L n' (es ++ [(e.1, e.2)]) → BuildNode.level n' = BuildNode.level n →
    stack_holds w blocks l (n' :: rest) ((k1 ++ concat segs) ++ s)) as Hpushed.
  { intros n' Hn' Hl'. exists k1, (concat segs ++ s). rewrite app_assoc. split_and!; [done| |by destruct (concat segs)|done].
    destruct e as [ek ev]. by apply (holds_add w blocks l n n' es segs (ek, ev) s). }
  unfold appends_to. cbn [DiskBtreeBuilder.append_internal].
  assert (∀ n', grown (n :: rest) (n' :: rest)) as Hg by (intros n'; split; [by left|intros r [= <-] _; by exists n']).
  destruct (push_spec L key_len n es e.1 e.2 Hok Hk Hv) as (b1 & n1 & -> & Hl1 & Hb1). cbn [mbind result_bind].
  destruct b1; [exists (n1 :: rest), blocks; split_and!; [done..|by apply Hpushed|apply Hg]|]. destruct Hb1 as [Hn1 H2].
  destruct (compress_spec L key_len n1 es Hn1 H2 Hses) as (bc & n2 & -> & Hl2 & Hn2). cbn [mbind result_bind].
  destruct (push_spec L key_len n2 es e.1 e.2 Hn2 Hk Hv) as (b3 & n3 & Ep3 & Hl3 & Hb3).
  assert (∃ n4, (if bc then BuildNode.push e.1 e.2 n2 else Ok (false, n2)) = Ok (if bc then b3 else false, n4) ∧
    BuildNode.level n4 = BuildNode.level n ∧ (if (if bc then b3 else false) then node_ok L n4 (es ++ [(e.1, e.2)]) else node_ok L n4 es)) as (n4 & -> & Hl4 & Hb4).
  { destruct bc; [exists n3|exists n2]; split_and!; [done|congruence|by destruct b3; [|destruct Hb3]|done|congruence|done]. }
  cbn [mbind result_bind]. destruct (if bc then b3 else false); [exists (n4 :: rest), blocks; split_and!; [done..|by apply Hpushed|apply Hg]|].
  assert (holds w blocks l n4 (concat segs)) as Hh4 by (exists es, segs; split_and!; [done|congruence|done..]).
  destruct (link_ok w fuel l n4 (concat segs) rest k1 blocks Hh4 Hne ltac:(lia) Hrest) as (rest' & blocks' & E & Hp & Hr' & Hlen).
  { intros W. apply two_weights; [|by apply Hw]. by rewrite <-(Forall2_length _ _ _ Hf). }
  { cbn in Hfuel. lia. }
  { intros Hnr blocks1 e1 Hr1 He1 Hk1 Hv1. apply IH; cbn [length] in *; [lia|done..| | |lia].
    - rewrite app_assoc in Hsort. by apply sorted_app_inv in Hsort as [? _].
    - intros W. apply two_weights; [|by apply Hw]. by rewrite <-(Forall2_length _ _ _ Hf). }
  destruct (push_new w blocks' l e s (entry_mono _ _ _ _ _ Hp He) Hws Hk Hv) as (nn & Enn & Hnn & Hfn).
  exists (nn :: rest'), blocks'. split_and!; [| done| |].
  - destruct (DiskBtreeBuilder.flush_page L n4 blocks) as [[[dk dl] w1]| |]; cbn [mbind result_bind] in E |- *; [|done..]. rewrite E. cbn [mbind result_bind].
    by rewrite Hl, Enn.
  - exists (k1 ++ concat segs), s. split_and!; [done..| |done]. intros ->. by apply entry_head in He.
  - destruct Hlen as [Hlen _]. split.
    + cbn [length forallb]. destruct Hlen as [->|[-> Hfr]]; [by left|right]. by rewrite Hfn.
    + intros r [= <-] Hfr%Z.eqb_eq. rewrite (no_children _ _ _ Hok) in Hfr. lia.
Qed.

(** ** Appending *)

Lemma holds_weight blocks l n ks : holds True blocks l n ks → ks ≠ [] → 2 ^ Z.of_nat l ≤ Z.of_nat (length ks).
Proof.
  intros (es & segs & _ & _ & -> & _ & Hw) Hne. specialize (Hw I). destruct segs as [|s segs]; [done|].
  apply Forall_cons in Hw as [Hs _]. cbn [concat]. rewrite length_app. lia.
Qed.

(** A stack is at most logarithmic in what it holds. *)
Lemma stack_weight blocks l stack ks : stack_holds True blocks l stack ks → stack ≠ [] →
  2 ^ (Z.of_nat l + Z.of_nat (length stack) - 1) ≤ Z.of_nat (length ks).
Proof.
  revert l ks. induction stack as [|n rest IH]; intros l ks; [done|]. intros (k1 & k2 & -> & Hn & Hne & Hr) _. rewrite length_app.
  destruct rest as [|r rest].
  - pose proof (holds_weight _ _ _ _ Hn Hne). cbn [length]. replace (Z.of_nat l + Z.of_nat 1 - 1) with (Z.of_nat l) by lia. lia.
  - specialize (IH (S l) k1 Hr ltac:(done)). cbn [length] in *.
    replace (Z.of_nat l + Z.of_nat (S (S (length rest))) - 1) with (Z.of_nat (S l) + Z.of_nat (S (length rest)) - 1) by lia. lia.
Qed.

Lemma stack_small blocks stack ks : stack_holds True blocks 0 stack ks → Z.of_nat (length ks) < 2 ^ 64 → (length stack ≤ 64)%nat.
Proof.
  intros Hst Hlen. destruct stack as [|n rest]; [cbn; lia|]. pose proof (stack_weight _ _ _ _ Hst ltac:(done)) as Hw.
  assert (2 ^ (Z.of_nat 0 + Z.of_nat (length (n :: rest)) - 1) < 2 ^ 64) as Hlt by lia. apply Z.pow_lt_mono_r_iff in Hlt; lia.
Qed.

(** The builder after the pairs [ks]. *)
Definition builder_ok (b : DiskBtreeBuilder.t) (ks : list kv) : Prop :=
  DiskBtreeBuilder.last_key b = fst <$> last ks ∧
  (ks = [] ∧ DiskBtreeBuilder.stack b = [BuildNode.new 0] ∨
   ks ≠ [] ∧ stack_holds True (DiskBtreeBuilder.writer b) 0 (DiskBtreeBuilder.stack b) ks).

Lemma append_spec b ks k v : builder_ok b ks → keys_sorted (ks ++ [(k, v)]) → length k = L → 0 ≤ v ≤ MAX_VALUE →
  Z.of_nat (length ks) < 2 ^ 64 →
  ∃ b', DiskBtreeBuilder.append L k v b = Ok b' ∧ builder_ok b' (ks ++ [(k, v)]).
Proof.
  intros [Hlast Hb] Hsort Hk Hv Hlen. unfold DiskBtreeBuilder.append. rewrite (proj2 (Z.ltb_ge _ _)) by lia.
  assert (match DiskBtreeBuilder.last_key b with Some last => match bytes_cmp k last with Gt => false | _ => true end | None => false end = false) as ->.
  { rewrite Hlast. destruct (last ks) as [[kl vl]|] eqn:El; [|done]. cbn. apply sorted_app_inv in Hsort as (_ & _ & Hlt).
    rewrite (proj2 (cmp_gt k kl)); [done|]. apply (Hlt (kl, vl) (k, v)); [by apply last_Some_elem_of|constructor]. }
  destruct (value_u64 v Hv) as (bv & Ev & Hbv & _). rewrite Ev. cbn [mbind result_bind]. unfold DiskBtreeBuilder.append_to.
  assert (entry_at (DiskBtreeBuilder.writer b) 0 (k, bv) [(k, v)]) as He by (by exists v).
  destruct Hb as [[-> Es]|[Hne Hst]].
  - rewrite Es. cbn [length Nat.add DiskBtreeBuilder.append_internal].
    destruct (push_new True _ 0 (k, bv) [(k, v)] He ltac:(cbn; lia) Hk Hbv) as (n & En & Hn & _). change (Z.of_nat 0) with 0 in En. cbn [fst snd] in En. rewrite En.
    cbn [mbind result_bind]. eexists. split; [done|]. split; [done|]. right. split; [done|]. exists [], [(k, v)]. by split_and!.
  - assert (DiskBtreeBuilder.stack b ≠ []) as Hns by (intros E0; rewrite E0 in Hst; done). pose proof (stack_small _ _ _ Hst Hlen).
    destruct (append_ok True (length (DiskBtreeBuilder.stack b) + 2) 0 (DiskBtreeBuilder.stack b) ks _ (k, bv) [(k, v)] ltac:(lia) Hns Hst He Hk Hbv Hsort ltac:(cbn; lia) ltac:(lia))
      as (stack' & blocks' & E & _ & Hst' & _).
    cbn [fst snd] in E. rewrite E. cbn [mbind result_bind]. eexists. split; [done|]. split; [by rewrite last_snoc|].
    right. split; [by destruct ks|done].
Qed.

Lemma appends_spec kvs b ks : builder_ok b ks → keys_sorted (ks ++ kvs) → Forall (λ p, length p.1 = L ∧ 0 ≤ p.2 ≤ MAX_VALUE) kvs →
  Z.of_nat (length (ks ++ kvs)) < 2 ^ 64 → ∃ b', DiskBtreeBuilder.appends L kvs b = Ok b' ∧ builder_ok b' (ks ++ kvs).
Proof.
  revert b ks. induction kvs as [|[k v] kvs IH]; intros b ks Hb Hsort Hall Hlen.
  { exists b. by rewrite app_nil_r. }
  apply Forall_cons in Hall as [[Hk Hv] Hall]. assert (ks ++ (k, v) :: kvs = (ks ++ [(k, v)]) ++ kvs) as Ea by (by rewrite <-app_assoc).
  rewrite Ea in Hsort, Hlen. destruct (append_spec b ks k v Hb) as (b1 & E1 & Hb1); [by apply sorted_app_inv in Hsort as [? _]|done|done| |].
  { rewrite !length_app in Hlen. lia. }
  cbn [DiskBtreeBuilder.appends]. rewrite E1. cbn [mbind result_bind]. rewrite Ea. by apply IH.
Qed.

(** ** Finishing *)

Definition all_fresh (stack : list BuildNode.t) : bool := forallb fresh (tail stack).

(** While pages are flushed: the level of the lowest page and the pages above it. *)
Definition finishing (ks : list kv) (b : DiskBtreeBuilder.t) : Prop :=
  ∃ l, stack_holds False (DiskBtreeBuilder.writer b) l (DiskBtreeBuilder.stack b) ks ∧ DiskBtreeBuilder.stack b ≠ [] ∧
    (l + length (DiskBtreeBuilder.stack b) + (if all_fresh (DiskBtreeBuilder.stack b) then 0 else 1) ≤ 200)%nat.

Definition finish_measure (b : DiskBtreeBuilder.t) : Z :=
  2 * Z.of_nat (length (DiskBtreeBuilder.stack b)) + (if all_fresh (DiskBtreeBuilder.stack b) then 0 else 1).

Lemma flush_node_ok ks b : keys_sorted ks → finishing ks b → (1 < length (DiskBtreeBuilder.stack b))%nat →
  ∃ b', DiskBtreeBuilder.flush_node L b = Ok b' ∧ finishing ks b' ∧ finish_measure b' < finish_measure b.
Proof.
  intros Hsort (l & Hst & _ & Hlv) H1. unfold DiskBtreeBuilder.flush_node, finish_measure. destruct b as [blocks stack lk].
  cbn [DiskBtreeBuilder.stack DiskBtreeBuilder.writer DiskBtreeBuilder.last_key] in *. destruct stack as [|n [|r rest]]; cbn [length] in H1; [lia..|].
  destruct Hst as (k1 & k2 & -> & Hn & Hne & Hr). cbn [length] in Hlv.
  destruct (link_ok False (length (r :: rest) + 2) l n k2 (r :: rest) k1 blocks Hn Hne ltac:(lia) Hr ltac:(done) ltac:(cbn; lia))
    as (rest' & blocks' & E & Hp & Hr' & [Hlen Hhead]).
  { intros _ blocks1 e1 Hr1 He1 Hk1 Hv1. apply append_ok; try done; cbn [length]; lia. }
  destruct (DiskBtreeBuilder.flush_page L n blocks) as [[[dk dl] w1]| |]; cbn [mbind result_bind] in E |- *; [|done..].
  unfold DiskBtreeBuilder.append_to. rewrite E. cbn [mbind result_bind]. eexists. split; [done|].
  assert (rest' ≠ []) as Hne' by (intros ->; destruct Hlen as [Hlen|[Hlen _]]; cbn in Hlen; lia).
  assert ((length rest' = S (length rest) ∨ length rest' = S (S (length rest)) ∧ all_fresh rest' = true ∧ all_fresh (n :: r :: rest) = false) ∧
    (all_fresh (n :: r :: rest) = true → all_fresh rest' = true)) as [Hlen' Hfr'].
  { unfold all_fresh in *. cbn [tail length forallb] in *. destruct (fresh r) eqn:Efr.
    - destruct (Hhead r eq_refl Efr) as (r' & ->). cbn [tail length] in *. split; [by left|done].
    - split; [|done]. destruct Hlen as [->|[-> Hf]]; [by left|right]. split_and!; [done| |done]. destruct rest'; [done|]. cbn in Hf. by apply andb_true_iff in Hf as [_ ?]. }
  split.
  - exists (S l). cbn [DiskBtreeBuilder.stack DiskBtreeBuilder.writer]. split_and!; [done..|].
    destruct Hlen' as [->|(-> & Ef1 & Ef2)]; [|rewrite Ef1; rewrite Ef2 in Hlv; lia]. destruct (all_fresh (n :: r :: rest)); [rewrite Hfr' by done|destruct (all_fresh rest')]; lia.
  - cbn [length DiskBtreeBuilder.stack]. destruct Hlen' as [->|(-> & Ef1 & Ef2)]; [|rewrite Ef1, Ef2; lia].
    destruct (all_fresh (n :: r :: rest)); [rewrite Hfr' by done|destruct (all_fresh rest')]; lia.
Qed.

(** [finish] returns the root of the tree of everything appended. *)
Lemma finish_spec b ks : builder_ok b ks → ks ≠ [] → keys_sorted ks → Z.of_nat (length ks) < 2 ^ 64 →
  ∃ l root blocks, DiskBtreeBuilder.finish L b = Some (Ok (Z.of_nat root mod 2 ^ 32, blocks)) ∧ tree_at blocks l root ks ∧ (l < 256)%nat.
Proof.
  intros [_ Hb] Hne Hsort Hlen. destruct Hb as [[-> _]|[_ Hst]]; [done|]. pose proof (stack_small _ _ _ Hst Hlen) as Hsm.
  set (Post := λ r : result DiskBtreeError (Z * list bytes), ∃ l root blocks, r = Ok (Z.of_nat root mod 2 ^ 32, blocks) ∧ tree_at blocks l root ks ∧ (l < 256)%nat).
  destruct (run_total (DiskBtreeBuilder.finish_step L) (finishing ks) finish_measure Post FUEL b) as (r & E & HP).
  - intros s Hs. unfold DiskBtreeBuilder.finish_step. destruct (Nat.ltb_spec 1 (length (DiskBtreeBuilder.stack s))) as [H1|H1].
    + destruct (flush_node_ok ks s Hsort Hs H1) as (s' & -> & Hs' & Hm). split; [done|]. unfold finish_measure in *. case_match; lia.
    + destruct Hs as (l & Hsh & Hn0 & Hl). destruct (DiskBtreeBuilder.stack s) as [|root [|]]; [done| |cbn in H1; lia].
      destruct Hsh as (k1 & k2 & Ek & Hroot & _ & Ek1). cbn in Ek1. subst k1. destruct Hroot as (es & segs & Hok & Hlv & -> & Hf & _). cbn [app] in Ek.
      assert (es ≠ []) as Hes by (intros ->; by inversion Hf; subst). cbn [length] in Hl.
      destruct (pack_spec L key_len root es Hok Hes) as (buf & -> & Hbl & Hpg); [rewrite Hlv; unfold in_u; lia|]. cbn [mbind result_bind].
      unfold BlockBuf.write_blk. rewrite Hbl, Z.eqb_refl. exists l, (length (DiskBtreeBuilder.writer s)), (DiskBtreeBuilder.writer s ++ [buf]).
      split_and!; [done| |lia]. apply tree_at_eq. exists buf, es, segs. rewrite Hlv in Hpg. split_and!; [by apply list_lookup_middle|done..|].
      apply (Forall2_impl _ _ _ _ Hf). intros e s0. apply entry_mono. by eexists.
  - exists 0%nat. split_and!; [by apply (stack_holds_mono True False (DiskBtreeBuilder.writer b) (DiskBtreeBuilder.writer b))| |case_match; lia].
    intros E0. rewrite E0 in Hst. done.
  - unfold finish_measure, FUEL. case_match; lia.
  - destruct HP as (l & root & blocks & -> & Ht & Hl). exists l, root, blocks. unfold DiskBtreeBuilder.finish, run_result. by rewrite E.
Qed.
End build.
