(* ===== verification/BtreeRead.v ===== *)
(** Reading the B-tree: the binary search of a page, and that a visit calls the visitor
    with exactly the pairs from the search key on, in order, until it has enough. *)

From S2P Require Import Prelude Text Loops Lsns Feedbacks DiskBtrees BtreeFacts BtreeBuild.
Local Open Scope Z_scope.

(** * Binary search in a page *)

Definition search_post (key : bytes) (es : list Entry) (r : result DiskBtreeError (nat + nat)) : Prop :=
  match r with
  | Ok (inl i) => ∃ e, es !! i = Some e ∧ e.1 = key
  | Ok (inr i) => (i ≤ length es)%nat ∧ (∀ j e, (j < i)%nat → es !! j = Some e → bytes_cmp e.1 key = Lt) ∧
      (∀ j e, (i ≤ j)%nat → es !! j = Some e → bytes_cmp e.1 key = Gt)
  | _ => False
  end.

Definition search_inv (key : bytes) (es : list Entry) (s : nat * nat * nat) : Prop :=
  let '(low, high, size) := s in
  (low ≤ high ≤ length es)%nat ∧ size = (high - low)%nat ∧
  (∀ j e, (j < low)%nat → es !! j = Some e → bytes_cmp e.1 key = Lt) ∧
  (∀ j e, (high ≤ j)%nat → es !! j = Some e → bytes_cmp e.1 key = Gt).

Lemma search_step key es d s : keys_sorted es → (∀ i e, es !! i = Some e → OnDiskNode.key_at d i = Ok e.1) → search_inv key es s →
  match OnDiskNode.bs_step d key s with
  | inl s' => search_inv key es s' ∧ 0 ≤ Z.of_nat (s'.1.2 - s'.1.1) < Z.of_nat (s.1.2 - s.1.1)
  | inr r => search_post key es r
  end.
Proof.
  intros Hsort Hkey. destruct s as [[low high] size]. intros ([Hlh Hh] & -> & Hlo & Hhi). unfold OnDiskNode.bs_step.
  destruct (Nat.ltb_spec low high) as [Hlt|Hge].
  2:{ cbn. assert (low = high) as <- by lia. by split_and!. }
  set (mid := (low + (high - low) / 2)%nat). assert (low ≤ mid < high)%nat as Hmid.
  { subst mid. pose proof (Nat.div_lt (high - low) 2). lia. }
  destruct (lookup_lt_is_Some_2 es mid) as [e He]; [lia|]. rewrite (Hkey _ _ He).
  assert (∀ i j a b, (i < j)%nat → es !! i = Some a → es !! j = Some b → bytes_cmp a.1 b.1 = Lt) as Hord.
  { intros i j a b Hij Ha Hb. by apply (StronglySorted_lookup _ es i j a b Hsort). }
  destruct (bytes_cmp e.1 key) eqn:Ec; cbn [search_inv fst snd].
  - cbn. exists e. split; [done|]. by apply bytes_cmp_eq.
  - split; [|lia]. split_and!; [lia|lia|lia| |done]. intros j a Hj Ha. destruct (decide (j = mid)) as [->|]; [congruence|].
    apply (cmp_trans _ e.1); [|done]. apply (Hord j mid); [lia|done..].
  - split; [|lia]. split_and!; [lia|lia|lia|done|]. intros j a Hj Ha. destruct (decide (j = mid)) as [->|]; [congruence|].
    apply cmp_gt. apply cmp_gt in Ec. apply (cmp_trans _ e.1); [done|]. apply (Hord mid j); [lia|done..].
Qed.

Lemma binary_search_spec key es d : keys_sorted es → OnDiskNode.num_children d = length es → Z.of_nat (length es) < 2 ^ 64 →
  (∀ i e, es !! i = Some e → OnDiskNode.key_at d i = Ok e.1) → search_post key es (OnDiskNode.binary_search d key).
Proof.
  intros Hsort Hn Hlen Hkey. unfold OnDiskNode.binary_search. rewrite Hn.
  destruct (run_total (OnDiskNode.bs_step d key) (search_inv key es) (λ s, Z.of_nat (s.1.2 - s.1.1)) (search_post key es) FUEL
    (0, length es, length es)%nat) as (r & -> & Hr); [by intros s; apply search_step| | |done].
  - split_and!; [lia|lia|lia|intros; lia|]. intros j e Hj He%lookup_lt_Some. lia.
  - cbn. unfold FUEL. lia.
Qed.

(** * Pairs from a key on *)

Definition from (key : bytes) (p : kv) : bool := match bytes_cmp p.1 key with Lt => false | _ => true end.
Definition upto (key : bytes) (p : kv) : bool := match bytes_cmp p.1 key with Gt => false | _ => true end.

(** The pairs to visit, in the order of the visit. *)
Definition matching (key : bytes) (dir : VisitDirection) (ks : list kv) : list kv :=
  match dir with
  | Forwards => List.filter (from key) ks
  | Backwards => rev (List.filter (upto key) ks)
  end.

(** What a visit of these pairs answers, when the visitor left off with [g]. *)
Definition visit_answer (dir : VisitDirection) (visited : list kv) (g : bool) : bool :=
  match dir, visited with Backwards, [] => false | _, _ => g end.

Lemma elem_of_take_lookup {A} (x : A) i l : x ∈ take i l → ∃ j, (j < i)%nat ∧ l !! j = Some x.
Proof. intros [j Hj]%list_elem_of_lookup_1. apply lookup_take_Some in Hj as [? ?]. by exists j. Qed.

Lemma elem_of_drop_lookup {A} (x : A) i l : x ∈ drop i l → ∃ j, (i ≤ j)%nat ∧ l !! j = Some x.
Proof. intros [j Hj]%list_elem_of_lookup_1. rewrite lookup_drop in Hj. exists (i + j)%nat. split; [lia|done]. Qed.

Lemma filter_drop {A} (P : A → bool) l i : (∀ j x, (j < i)%nat → l !! j = Some x → P x = false) →
  (∀ j x, (i ≤ j)%nat → l !! j = Some x → P x = true) → List.filter P l = drop i l.
Proof.
  intros H1 H2. rewrite <-(take_drop i l) at 1. rewrite List.filter_app, (filter_false P (take i l)), (filter_true P (drop i l)); [done| |].
  - intros x (j & ? & ?)%elem_of_drop_lookup. by apply (H2 j).
  - intros x (j & ? & ?)%elem_of_take_lookup. by apply (H1 j).
Qed.

Lemma filter_take {A} (P : A → bool) l i : (∀ j x, (j < i)%nat → l !! j = Some x → P x = true) →
  (∀ j x, (i ≤ j)%nat → l !! j = Some x → P x = false) → List.filter P l = take i l.
Proof.
  intros H1 H2. rewrite <-(take_drop i l) at 1. rewrite List.filter_app, (filter_true P (take i l)), (filter_false P (drop i l)), app_nil_r; [done| |].
  - intros x (j & ? & ?)%elem_of_drop_lookup. by apply (H2 j).
  - intros x (j & ? & ?)%elem_of_take_lookup. by apply (H1 j).
Qed.

Lemma cmp_lt_le a b c : bytes_cmp a b = Lt → bytes_cmp b c ≠ Gt → bytes_cmp a c = Lt.
Proof. intros H1 H2. destruct (bytes_cmp b c) eqn:E; [apply bytes_cmp_eq in E as ->; done|by apply (cmp_trans a b)|done]. Qed.

Lemma cmp_le_gt a b c : bytes_cmp a b ≠ Gt → bytes_cmp a c = Gt → bytes_cmp b c = Gt.
Proof.
  intros H1 H2. apply cmp_gt. apply cmp_gt in H2. apply (cmp_lt_le c a b H2 H1).
Qed.

Section segments.
Context (blocks : list bytes) (l : nat) (es : list Entry) (segs : list (list kv)).
Hypothesis entries : Forall2 (entry_at blocks l) es segs.
Hypothesis sorted : keys_sorted (concat segs).

Lemma segs_split i e : es !! i = Some e → ∃ v t, segs !! i = Some ((e.1, v) :: t) ∧
  concat segs = concat (take i segs) ++ ((e.1, v) :: t) ++ concat (drop (S i) segs).
Proof.
  intros He. destruct (Forall2_lookup_l _ _ _ _ _ entries He) as (s & Hs & Hes). apply entry_head in Hes.
  destruct s as [|[k v] t]; [done|]. injection Hes as ->. exists v, t. split; [done|].
  rewrite <-(take_drop i segs) at 1. rewrite concat_app. f_equal. by rewrite (drop_S segs ((e.1, v) :: t) i Hs).
Qed.

Lemma seg_below i e x : es !! i = Some e → x ∈ concat (take i segs) → bytes_cmp x.1 e.1 = Lt.
Proof.
  intros He Hx. destruct (segs_split i e He) as (v & t & _ & E). pose proof sorted as Hs. rewrite E in Hs.
  apply sorted_app_inv in Hs as (_ & _ & Hlt). apply (Hlt x (e.1, v) Hx). constructor.
Qed.

Lemma seg_above i e x : es !! i = Some e → x ∈ concat (drop i segs) → bytes_cmp e.1 x.1 ≠ Gt.
Proof.
  intros He Hx. destruct (segs_split i e He) as (v & t & Hi & E). rewrite (drop_S _ _ _ Hi) in Hx. cbn [concat] in Hx.
  pose proof sorted as Hs. rewrite E in Hs. apply sorted_app_inv in Hs as (_ & Hs & _). cbn [app] in Hs, Hx.
  apply elem_of_cons in Hx as [->|Hx]; [by rewrite cmp_refl|]. unfold keys_sorted in Hs. apply StronglySorted_cons in Hs as [Hs _].
  rewrite Forall_forall in Hs. specialize (Hs x Hx). cbn in Hs. by rewrite Hs.
Qed.

Lemma matching_drop key i : i = 0%nat ∨ (∃ e, es !! i = Some e ∧ bytes_cmp e.1 key ≠ Gt) →
  List.filter (from key) (concat segs) = List.filter (from key) (concat (drop i segs)).
Proof.
  intros [->|(e & He & Hle)]; [done|]. rewrite <-(take_drop i segs) at 1. rewrite concat_app, List.filter_app.
  rewrite filter_false; [done|]. intros x Hx. unfold from. by rewrite (cmp_lt_le x.1 e.1 key (seg_below i e x He Hx) Hle).
Qed.

Lemma matching_take key i : (∀ e, es !! i = Some e → bytes_cmp e.1 key = Gt) → (i ≤ length es)%nat →
  List.filter (upto key) (concat segs) = List.filter (upto key) (concat (take i segs)).
Proof.
  intros Hgt Hi. rewrite <-(take_drop i segs) at 1. rewrite concat_app, List.filter_app.
  rewrite (filter_false _ (concat (drop i segs))); [by rewrite app_nil_r|]. intros x Hx. unfold upto.
  destruct (decide (i = length es)) as [->|Hne].
  { rewrite (Forall2_length _ _ _ entries), drop_all in Hx. by apply elem_of_nil in Hx. }
  destruct (lookup_lt_is_Some_2 es i) as [e He]; [lia|].
  by rewrite (cmp_le_gt e.1 x.1 key (seg_above i e x He Hx) (Hgt e He)).
Qed.
End segments.

(** * Leaves *)

Section visit.
Context {S : Type} (visitor : bytes → Z → S → bool * S).

(** The visitor on a list of pairs, until it has enough. *)
Fixpoint feed (l : list kv) (s : S) : bool * S :=
  match l with
  | [] => (true, s)
  | (k, v) :: l => let '(go_on, s) := visitor k v s in if go_on then feed l s else (false, s)
  end.

Lemma feed_app l1 l2 s : feed (l1 ++ l2) s = let '(go_on, s) := feed l1 s in if go_on then feed l2 s else (false, s).
Proof.
  revert s. induction l1 as [|[k v] l1 IH]; intros s; [done|]. cbn. destruct (visitor k v s) as [[] s']; [apply IH|done].
Qed.

(** A leaf page with the pairs [ks]. *)
Definition leaf_of (d : OnDiskNode.t) (ks : list kv) : Prop :=
  ∀ i p, ks !! i = Some p → OnDiskNode.key_at d i = Ok p.1 ∧ (v ← OnDiskNode.value d i; Value.to_u64 v) = Ok p.2.

Lemma scan_up d ks fuel i s : leaf_of d ks → fuel = (length ks - i)%nat →
  DiskBtreeReader.scan_leaf visitor fuel d (Up i (length ks)) s = (let '(g, s) := feed (drop i ks) s in (Ok g, s)).
Proof.
  intros Hd. revert i s. induction fuel as [|fuel IH]; intros i s Hf.
  - rewrite drop_ge by lia. cbn [DiskBtreeReader.scan_leaf iter_next feed]. by rewrite (proj2 (Nat.ltb_ge _ _)) by lia.
  - destruct (lookup_lt_is_Some_2 ks i) as [[k v] Hp]; [lia|]. rewrite (drop_S _ _ _ Hp). cbn [DiskBtreeReader.scan_leaf iter_next feed].
    rewrite (proj2 (Nat.ltb_lt _ _)) by lia. destruct (Hd _ _ Hp) as [-> ->]. cbn [fst snd]. destruct (visitor k v s) as [[] s']; [|done].
    rewrite Nat.add_1_r. apply IH. lia.
Qed.

Lemma scan_down d ks fuel s : leaf_of d ks → (fuel ≤ length ks)%nat →
  DiskBtreeReader.scan_leaf visitor fuel d (Down fuel) s = (let '(g, s) := feed (rev (take fuel ks)) s in (Ok g, s)).
Proof.
  intros Hd. revert s. induction fuel as [|fuel IH]; intros s Hf; [done|].
  destruct (lookup_lt_is_Some_2 ks fuel) as [[k v] Hp]; [lia|]. rewrite (take_S_r _ _ _ Hp), rev_app_distr.
  cbn [rev app DiskBtreeReader.scan_leaf iter_next feed]. destruct (Hd _ _ Hp) as [-> ->]. cbn [fst snd].
  destruct (visitor k v s) as [[] s']; [|done]. apply IH. lia.
Qed.

(** The pairs of a leaf are its entries. *)
Lemma leaf_pairs blocks es segs : Forall2 (entry_at blocks 0) es segs → length (concat segs) = length es ∧
  ∀ i p, concat segs !! i = Some p → ∃ e, es !! i = Some e ∧ e.1 = p.1 ∧ Value.to_u64 e.2 = Ok p.2.
Proof.
  induction 1 as [|e s es segs (v & -> & Hv & Ev) _ [IHl IH]]; [done|]. cbn [concat app length]. split; [by rewrite IHl|].
  intros [|i] p Hp; [|by apply IH]. injection Hp as <-. exists e. split_and!; [done..|]. cbn.
  destruct (value_u64 v Hv) as (b & Eb & _ & Et). rewrite Ev in Eb. by injection Eb as ->.
Qed.

(** ** Where a page is entered *)

Definition starts_at (key : bytes) (dir : VisitDirection) (leaf : bool) (es : list Entry) (it : Iter) : Prop :=
  match dir, it with
  | Forwards, Up i n => n = length es ∧
      (if leaf then (∀ j e, (j < i)%nat → es !! j = Some e → bytes_cmp e.1 key = Lt) ∧ (∀ j e, (i ≤ j)%nat → es !! j = Some e → bytes_cmp e.1 key ≠ Lt)
       else (i < n)%nat ∧ (i = 0%nat ∨ ∃ e, es !! i = Some e ∧ bytes_cmp e.1 key ≠ Gt))
  | Backwards, Down k => (0 < k ≤ length es)%nat ∧ (∀ j e, (j < k)%nat → es !! j = Some e → bytes_cmp e.1 key ≠ Gt) ∧
      (∀ j e, (k ≤ j)%nat → es !! j = Some e → bytes_cmp e.1 key = Gt)
  | _, _ => False
  end.

Lemma first_iter_ok d es key dir : keys_sorted es → es ≠ [] → Z.of_nat (length es) < 2 ^ 64 → OnDiskNode.num_children d = length es →
  (∀ i e, es !! i = Some e → OnDiskNode.key_at d i = Ok e.1) → (dir = Backwards → ∀ e, head es = Some e → bytes_cmp e.1 key ≠ Gt) →
  ∃ it, DiskBtreeReader.first_iter d key dir = Ok (Some it) ∧ starts_at key dir (OnDiskNode.level d =? 0) es it.
Proof.
  intros Hsort Hne Hlen Hn Hkey Hback. pose proof (binary_search_spec key es d Hsort Hn Hlen Hkey) as Hbs.
  assert (∀ i j a b, (i < j)%nat → es !! i = Some a → es !! j = Some b → bytes_cmp a.1 b.1 = Lt) as Hord.
  { intros i j a b Hij Ha Hb. by apply (StronglySorted_lookup _ es i j a b Hsort). }
  unfold DiskBtreeReader.first_iter. rewrite Hn. destruct (OnDiskNode.binary_search d key) as [[i|i]| |]; [| |done..]; cbn [mbind result_bind].
  - destruct Hbs as (e & He & <-). assert (∀ j a, (j < i)%nat → es !! j = Some a → bytes_cmp a.1 e.1 = Lt) as Hlt by (intros j a Hj Ha; by apply (Hord j i)).
    assert (∀ j a, (i < j)%nat → es !! j = Some a → bytes_cmp a.1 e.1 = Gt) as Hgt by (intros j a Hj Ha; apply cmp_gt; by apply (Hord i j)).
    pose proof (lookup_lt_Some _ _ _ He) as Hi. destruct dir; eexists; (split; [done|]).
    + split; [done|]. destruct (OnDiskNode.level d =? 0).
      * split; [done|]. intros j a Hj Ha. destruct (decide (j = i)) as [->|]; [assert (a = e) as -> by congruence; by rewrite cmp_refl|by rewrite (Hgt j a) by (done || lia)].
      * split; [done|]. right. exists e. by rewrite cmp_refl.
    + split_and!; [lia|lia| |].
      * intros j a Hj Ha. destruct (decide (j = i)) as [->|]; [assert (a = e) as -> by congruence; by rewrite cmp_refl|by rewrite (Hlt j a) by (done || lia)].
      * intros j a Hj Ha. apply (Hgt j); [lia|done].
  - destruct Hbs as (Hi & Hlt & Hgt). destruct dir.
    + eexists. split; [done|]. split; [done|]. destruct (OnDiskNode.level d =? 0).
      * split; [done|]. intros j a Hj Ha. by rewrite (Hgt j a).
      * assert (0 < length es)%nat by (destruct es; [done|cbn; lia]). split; [lia|]. destruct i as [|i]; [by left|right]. cbn. rewrite Nat.sub_0_r.
        destruct (lookup_lt_is_Some_2 es i) as [e He]; [lia|]. exists e. split; [done|]. by rewrite (Hlt i e) by (done || lia).
    + destruct i as [|i].
      * destruct es as [|e es]; [done|]. destruct (Hback eq_refl e eq_refl). by apply (Hgt 0%nat).
      * eexists. split; [done|]. rewrite Nat.add_1_r. split_and!; [lia|done| |done]. intros j a Hj Ha. by rewrite (Hlt j a).
Qed.

(** ** The stack of the visit *)

Section stack.
Context (blocks : list bytes) (read_blk : Z → option bytes) (start_blk : Z) (key : bytes) (dir : VisitDirection).
Hypothesis reads_blocks : ∀ b buf, blocks !! b = Some buf → read_blk (start_blk + Z.of_nat b) = Some buf.
Hypothesis few_blocks : Z.of_nat (length blocks) ≤ 2 ^ 32.

(** What is left of the parts of a page. *)
Definition iter_rest (it : Iter) (segs : list (list kv)) : list kv :=
  match it with Up i _ => concat (drop i segs) | Down k => concat (take k segs) end.

Definition iter_fits (it : Iter) (es : list Entry) : Prop :=
  match dir, it with
  | Forwards, Up _ n => n = length es
  | Backwards, Down k => (k ≤ length es)%nat ∧ ∀ j e, (j < k)%nat → es !! j = Some e → bytes_cmp e.1 key ≠ Gt
  | _, _ => False
  end.

(** A frame, the pairs that it still gives, and a bound on its steps. *)
Inductive frame_ok : DiskBtreeReader.Frame → list kv → Z → Prop :=
  | frame_tree l b ks : tree_at blocks l b ks → keys_sorted ks → Z.of_nat (length ks) < 2 ^ 50 →
      (dir = Backwards → ∀ p, head ks = Some p → bytes_cmp p.1 key ≠ Gt) →
      frame_ok (Z.of_nat b, None) (matching key dir ks) ((2 * Z.of_nat l + 1) * Z.of_nat (length ks))
  | frame_rest l b buf es segs it : blocks !! b = Some buf → page_of buf (Z.of_nat (Datatypes.S l)) es → es ≠ [] →
      Forall2 (entry_at blocks (Datatypes.S l)) es segs → keys_sorted (concat segs) → Z.of_nat (length (concat segs)) < 2 ^ 50 → iter_fits it es →
      frame_ok (Z.of_nat b, Some it) (matching key dir (iter_rest it segs))
        (2 * Z.of_nat (Datatypes.S l) * Z.of_nat (length (iter_rest it segs)) + 1).

Inductive stack_ok : list DiskBtreeReader.Frame → list kv → Z → Prop :=
  | stack_nil : stack_ok [] [] 0
  | stack_cons f p w fs ps ws : frame_ok f p w → stack_ok fs ps ws → stack_ok (f :: fs) (p ++ ps) (w + ws).

Lemma frame_weight f p w : frame_ok f p w → 0 < w.
Proof.
  destruct 1 as [l b ks Ht _ _ _|l b buf es segs it _ _ _ _ _ _ _]; [|lia].
  apply tree_at_eq in Ht as (buf & es & segs & _ & _ & Hne & -> & Hf). inversion Hf as [|e s ? ? He _]; subst; [done|].
  apply entry_head in He. destruct s; [done|]. cbn. lia.
Qed.

Lemma stack_app fs ps ws fs' ps' ws' : stack_ok fs ps ws → stack_ok fs' ps' ws' → stack_ok (fs ++ fs') (ps ++ ps') (ws + ws').
Proof.
  induction 1 as [|f p w fs ps ws Hf _ IH]; intros H'; [by rewrite Z.add_0_l|].
  rewrite <-!app_assoc, <-Z.add_assoc. cbn [app]. constructor; [done|]. by apply IH.
Qed.

Lemma matching_app ks1 ks2 : matching key dir (ks1 ++ ks2) =
  match dir with Forwards => matching key dir ks1 ++ matching key dir ks2 | Backwards => matching key dir ks2 ++ matching key dir ks1 end.
Proof. unfold matching. destruct dir; rewrite List.filter_app; [done|by rewrite rev_app_distr]. Qed.

(** A part of a page is visited next: its tree, and what is left of the page. *)
Lemma iter_step l b buf es segs it idx it' : blocks !! b = Some buf → page_of buf (Z.of_nat (Datatypes.S l)) es → es ≠ [] →
  Forall2 (entry_at blocks (Datatypes.S l)) es segs → keys_sorted (concat segs) → Z.of_nat (length (concat segs)) < 2 ^ 50 → iter_fits it es →
  iter_next it = Some (idx, it') →
  ∃ e child (s : list kv), es !! idx = Some e ∧ e.2 = Value.from_blknum (Z.of_nat child) ∧ in_u 32 (Z.of_nat child) ∧ s ≠ [] ∧
    length (iter_rest it segs) = (length s + length (iter_rest it' segs))%nat ∧
    stack_ok [(Z.of_nat child, None); (Z.of_nat b, Some it')] (matching key dir (iter_rest it segs))
      ((2 * Z.of_nat l + 1) * Z.of_nat (length s) + (2 * Z.of_nat (Datatypes.S l) * Z.of_nat (length (iter_rest it' segs)) + 1)).
Proof.
  intros Hb Hpg Hne Hf Hsort Hlen Hfit Hnext.
  assert (idx < length es)%nat as Hidx.
  { destruct it as [i n|[|k]]; cbn [iter_next] in Hnext; [|done|]; [destruct (Nat.ltb_spec i n); [|done]; injection Hnext as <- <-|injection Hnext as <- <-];
      unfold iter_fits in Hfit; destruct dir; try done; lia. }
  destruct (lookup_lt_is_Some_2 es idx Hidx) as [e He]. destruct (Forall2_lookup_l _ _ _ _ _ Hf He) as (s & Hs & (child & Ec & Hh & Ht)).
  assert (s ≠ []) as Hsne by (by intros ->).
  assert (iter_rest it segs = match dir with Forwards => s ++ iter_rest it' segs | Backwards => iter_rest it' segs ++ s end ∧ iter_fits it' es) as [Er Hfit'].
  { unfold iter_fits in *. destruct dir, it as [i n|[|k]]; cbn [iter_next] in Hnext; try done.
    - destruct (Nat.ltb_spec i n); [|done]. injection Hnext as <- <-. cbn. rewrite (drop_S _ _ _ Hs), Nat.add_1_r. by split.
    - injection Hnext as <- <-. cbn. rewrite (take_S_r _ _ _ Hs), concat_app. cbn. rewrite app_nil_r. split; [done|]. destruct Hfit as [? Hle].
      split; [lia|]. intros j a Hj. apply Hle. lia. }
  assert (keys_sorted s ∧ Z.of_nat (length s) < 2 ^ 50) as [Hss Hsl].
  { rewrite <-(take_drop_middle segs idx s Hs), concat_app in Hsort, Hlen. cbn [concat] in Hsort, Hlen.
    apply sorted_app_inv in Hsort as (_ & Hsort & _). apply sorted_app_inv in Hsort as (Hsort & _). split; [done|]. rewrite !length_app in Hlen. lia. }
  exists e, child, s. split_and!; [done|done| |done| |].
  - apply tree_at_eq in Ht as (cb & _ & _ & Hcb%lookup_lt_Some & _). unfold in_u. lia.
  - rewrite Er. destruct dir; rewrite length_app; lia.
  - assert (frame_ok (Z.of_nat child, None) (matching key dir s) ((2 * Z.of_nat l + 1) * Z.of_nat (length s))) as F1.
    { constructor; [done..|]. intros Hd p Hp. rewrite Hp in Hh. injection Hh as ->. clear Er Hfit' Hs. unfold iter_fits in Hfit. rewrite Hd in Hfit.
      destruct it as [|[|k]]; [done..|]. cbn [iter_next] in Hnext. injection Hnext as <- <-. apply (proj2 Hfit k); [lia|done]. }
    pose proof (frame_rest l b buf es segs it' Hb Hpg Hne Hf Hsort Hlen Hfit') as F2.
    pose proof (stack_cons _ _ _ _ _ _ F1 (stack_cons _ _ _ _ _ _ F2 stack_nil)) as Hst. rewrite app_nil_r, Z.add_0_r in Hst.
    rewrite Er. assert (matching key dir (match dir with Forwards => s ++ iter_rest it' segs | Backwards => iter_rest it' segs ++ s end) =
      matching key dir s ++ matching key dir (iter_rest it' segs)) as -> by (destruct dir; unfold matching; rewrite List.filter_app, ?rev_app_distr; done).
    exact Hst.
Qed.

(** What visiting a frame does: it feeds the visitor with the first of its pairs, and
    leaves frames for the others. *)
Definition visits (f : DiskBtreeReader.Frame) (p : list kv) (w : Z) (s : S) : Prop :=
  ∃ g pushed p1 p2 wt s', DiskBtreeReader.visit_node read_blk start_blk visitor key dir f s = (Ok (if g : bool then Some pushed else None), s') ∧
    p = p1 ++ p2 ∧ feed p1 s = (g, s') ∧ stack_ok pushed p2 wt ∧ 0 ≤ wt < w.

(** The rest of an inner page. *)
Lemma visit_rest l b buf d es segs it s : blocks !! b = Some buf → OnDiskNode.deparse buf = Ok d → OnDiskNode.num_children d = length es →
  OnDiskNode.level d = Z.of_nat (Datatypes.S l) → (∀ i e, es !! i = Some e → OnDiskNode.key_at d i = Ok e.1 ∧ OnDiskNode.value d i = Ok e.2) → es ≠ [] →
  Forall2 (entry_at blocks (Datatypes.S l)) es segs → keys_sorted (concat segs) → Z.of_nat (length (concat segs)) < 2 ^ 50 → iter_fits it es →
  ∀ o, (match o with Some it => Ok (Some it) | None => DiskBtreeReader.first_iter d key dir end) = Ok (Some it) →
  visits (Z.of_nat b, o) (matching key dir (iter_rest it segs)) (2 * Z.of_nat (Datatypes.S l) * Z.of_nat (length (iter_rest it segs)) + 1) s.
Proof.
  intros Hb Ed Hn Hlv Hkv Hne Hf Hsort Hlen Hfit o Ho. unfold visits, DiskBtreeReader.visit_node. rewrite (reads_blocks _ _ Hb), Ed, Hn.
  rewrite (proj2 (Nat.eqb_neq _ _)) by (destruct es; [done|cbn; lia]). rewrite Ho, Hlv, (proj2 (Z.eqb_neq _ _)) by lia.
  assert (page_of buf (Z.of_nat (Datatypes.S l)) es) as Hpg by (by exists d).
  destruct (iter_next it) as [[idx it']|] eqn:En.
  - destruct (iter_step l b buf es segs it idx it' Hb Hpg Hne Hf Hsort Hlen Hfit En) as (e & child & sg & He & Ec & Hc & Hs & Hl & Hst).
    destruct (Hkv _ _ He) as [_ ->]. cbn [mbind result_bind]. rewrite Ec, value_blknum by done. cbn [mbind result_bind].
    eexists true, _, [], _, _, s. split_and!; [done|done|done|exact Hst|lia|]. destruct sg; [done|]. cbn [length] in *. rewrite Hl. lia.
  - exists true, [], [], [], 0, s. split_and!; [done| |done|constructor|lia|lia].
    assert (iter_rest it segs = []) as ->; [|by unfold matching; destruct dir].
    destruct it as [i n|[|k]]; cbn [iter_next] in En; [|done|done]. destruct (Nat.ltb_spec i n); [done|]. unfold iter_fits in Hfit.
    cbn. rewrite drop_ge; [done|]. rewrite <-(Forall2_length _ _ _ Hf). destruct dir; [lia|done].
Qed.

Lemma starts_fits leaf es it : starts_at key dir leaf es it → leaf = false → iter_fits it es.
Proof. unfold starts_at, iter_fits. destruct dir, it; try done; [by intros [? _]|by intros [[_ ?] [? _]]]. Qed.

Lemma length_segs (bl : list bytes) lv es segs : Forall2 (entry_at bl lv) es segs → (length es ≤ length (concat segs))%nat.
Proof.
  induction 1 as [|e s es segs He _ IH]; [done|]. cbn [concat length]. rewrite length_app. apply entry_head in He. destruct s; [done|cbn; lia].
Qed.

Lemma visit_tree l b ks s : tree_at blocks l b ks → keys_sorted ks → Z.of_nat (length ks) < 2 ^ 50 →
  (dir = Backwards → ∀ p, head ks = Some p → bytes_cmp p.1 key ≠ Gt) →
  visits (Z.of_nat b, None) (matching key dir ks) ((2 * Z.of_nat l + 1) * Z.of_nat (length ks)) s.
Proof.
  intros Ht Hsort Hlen Hback. apply tree_at_eq in Ht as (buf & es & segs & Hb & (d & Ed & Hn & Hlv & Hkv) & Hne & -> & Hf).
  pose proof (length_segs _ _ _ _ Hf) as Hle. pose proof (entries_sorted _ _ _ _ Hf Hsort) as Hses.
  destruct (first_iter_ok d es key dir Hses Hne ltac:(lia) Hn) as (it & Eit & Hst).
  { intros i e He. by apply Hkv. }
  { intros Hd e He. destruct es as [|e0 es]; [done|]. injection He as ->. inversion Hf as [|? s0 ? segs' He0 _]; subst.
    apply entry_head in He0. destruct s0 as [|p0 s0]; [done|]. injection He0 as <-. by apply Hback. }
  destruct l as [|l].
  - unfold visits, DiskBtreeReader.visit_node. rewrite (reads_blocks _ _ Hb), Ed, Hn.
    rewrite (proj2 (Nat.eqb_neq _ _)) by (destruct es; [done|cbn; lia]). rewrite Eit, Hlv in *. change (Z.of_nat 0 =? 0) with true in *.
    destruct (leaf_pairs _ _ _ Hf) as [Hll Hlp]. assert (leaf_of d (concat segs)) as Hleaf.
    { intros i p Hp. destruct (Hlp i p Hp) as (e & He & E1 & E2). destruct (Hkv _ _ He) as [-> ->]. by rewrite E1. }
    assert (DiskBtreeReader.scan_leaf visitor (iter_len it) d it s = (let '(g, s) := feed (matching key dir (concat segs)) s in (Ok g, s))) as ->.
    { unfold starts_at, matching in *. destruct dir, it as [i n|k]; try done.
      - destruct Hst as (-> & H1 & H2). cbn [iter_len]. rewrite <-Hll, (scan_up d (concat segs)) by done.
        rewrite (filter_drop (from key) (concat segs) i); [done|..]; intros j p Hj Hp; destruct (Hlp j p Hp) as (e & He & E1 & _); unfold from; rewrite <-E1.
        + by rewrite (H1 j e).
        + specialize (H2 j e Hj He). by destruct (bytes_cmp e.1 key).
      - destruct Hst as ([_ Hk] & H1 & H2). cbn [iter_len]. rewrite (scan_down d (concat segs)) by (done || lia).
        rewrite (filter_take (upto key) (concat segs) k); [done|..]; intros j p Hj Hp; destruct (Hlp j p Hp) as (e & He & E1 & _); unfold upto; rewrite <-E1.
        + specialize (H1 j e Hj He). by destruct (bytes_cmp e.1 key).
        + by rewrite (H2 j e). }
    destruct (feed (matching key dir (concat segs)) s) as [g s'] eqn:Eg. exists g, [], (matching key dir (concat segs)), [], 0, s'.
    rewrite app_nil_r. split_and!; [|done|done|constructor|lia|]; [by destruct g|]. destruct es; [done|]. cbn in Hll. lia.
  - rewrite Hlv in Hst. rewrite (proj2 (Z.eqb_neq _ _)) in Hst by lia. pose proof (starts_fits _ _ _ Hst eq_refl) as Hfit.
    assert (matching key dir (concat segs) = matching key dir (iter_rest it segs)) as ->.
    { unfold starts_at, matching in *. destruct dir, it as [i n|k]; try done; cbn [iter_rest].
      - destruct Hst as (_ & _ & Hi). by apply (matching_drop blocks (Datatypes.S l) es).
      - destruct Hst as ([_ Hk] & _ & H2). f_equal. apply (matching_take blocks (Datatypes.S l) es); [done..| |done]. intros e. by apply H2. }
    destruct (visit_rest l b buf d es segs it s Hb Ed Hn Hlv Hkv Hne Hf Hsort Hlen Hfit None Eit) as (g & pushed & p1 & p2 & wt & s' & E & Ep & Ef & Hso & Hw).
    exists g, pushed, p1, p2, wt, s'. split_and!; [done..|lia|].
    assert (length (iter_rest it segs) ≤ length (concat segs))%nat as Hr.
    { rewrite <-(take_drop (match it with Up i _ => i | Down k => k end) segs) at 2. rewrite concat_app, length_app. destruct it; cbn [iter_rest]; lia. }
    assert (1 ≤ length (concat segs))%nat by (destruct es; [done|cbn in Hle; lia]). nia.
Qed.

Lemma frame_visits f p w s : frame_ok f p w → visits f p w s.
Proof.
  destruct 1 as [l b ks Ht Hsort Hlen Hback|l b buf es segs it Hb (d & Ed & Hn & Hlv & Hkv) Hne Hf Hsort Hlen Hfit].
  - by apply visit_tree.
  - by eapply visit_rest.
Qed.

(** The loop over the stack ends, within its weight, having fed the visitor with the pairs
    of the stack. *)
Lemma visit_loop n fs ps ws s : stack_ok fs ps ws → ws < Z.of_nat n →
  iter (DiskBtreeReader.visit_step read_blk start_blk visitor key dir) n (fs, s) = inr (let '(g, s) := feed ps s in (Ok g, s)).
Proof.
  revert fs ps ws s. induction n as [|n IH]; intros fs ps ws s Hst Hw.
  { assert (0 ≤ ws); [|lia]. clear -Hst few_blocks reads_blocks. induction Hst as [|f p w ? ? ? Hf _ IH]; [done|]. pose proof (frame_weight _ _ _ Hf). lia. }
  destruct Hst as [|f p w fs ps ws Hf Hst]; [done|]. cbn [iter DiskBtreeReader.visit_step].
  destruct (frame_visits f p w s Hf) as (g & pushed & p1 & p2 & wt & s' & E & -> & Ef & Hso & Hwt). rewrite E, <-app_assoc, feed_app, Ef.
  destruct g; [|done]. apply (IH _ _ (wt + ws)); [by apply stack_app|lia].
Qed.

(** Every pair is above the key when the first one is. *)
Lemma first_above (q : kv) ks : keys_sorted (q :: ks) → bytes_cmp q.1 key = Gt → ∀ p, p ∈ q :: ks → bytes_cmp p.1 key = Gt.
Proof.
  intros [_ Hq]%StronglySorted_inv Hg p [->|Hp]%elem_of_cons; [done|]. rewrite Forall_forall in Hq. specialize (Hq p Hp). cbn in Hq.
  apply cmp_gt in Hg. apply cmp_gt. by apply (cmp_trans _ q.1).
Qed.

Lemma matching_below (q : kv) ks : keys_sorted (q :: ks) → bytes_cmp q.1 key = Gt → matching key Backwards (q :: ks) = [].
Proof. intros Hs Hg. unfold matching. rewrite filter_false; [done|]. intros p Hp. unfold upto. by rewrite (first_above q ks Hs Hg p Hp). Qed.

Lemma matching_some (q : kv) ks : bytes_cmp q.1 key ≠ Gt → matching key Backwards (q :: ks) ≠ [].
Proof.
  intros Hg. unfold matching. cbn [List.filter]. unfold upto at 1. destruct (bytes_cmp q.1 key); [| |done]; cbn [rev]; by destruct (rev _).
Qed.

(** Backwards from below every key, a visit ends at the root. *)
Lemma visit_below l root (q : kv) ks s : dir = Backwards → tree_at blocks l root (q :: ks) → keys_sorted (q :: ks) → Z.of_nat (length (q :: ks)) < 2 ^ 50 →
  bytes_cmp q.1 key = Gt → DiskBtreeReader.visit_node read_blk start_blk visitor key dir (Z.of_nat root, None) s = (Ok None, s).
Proof.
  intros Hd Ht Hsort Hlen Hg. apply tree_at_eq in Ht as (buf & es & segs & Hb & (d & Ed & Hn & Hlv & Hkv) & Hnes & Ek & Hf).
  pose proof (first_above q ks Hsort Hg) as Hall. rewrite Ek in *. clear Ek.
  pose proof (length_segs _ _ _ _ Hf) as Hle. pose proof (entries_sorted _ _ _ _ Hf Hsort) as Hses.
  unfold DiskBtreeReader.visit_node. rewrite (reads_blocks _ _ Hb), Ed, Hn, (proj2 (Nat.eqb_neq _ _)) by (destruct es; [done|cbn; lia]).
  pose proof (binary_search_spec key es d Hses Hn ltac:(lia) (λ i e He, proj1 (Hkv i e He))) as Hbs.
  assert (∀ i e, es !! i = Some e → bytes_cmp e.1 key = Gt) as Hgt.
  { intros i e He. destruct (Forall2_lookup_l _ _ _ _ _ Hf He) as (sg & Hs & Hes%entry_head). destruct sg as [|p sg]; [done|].
    injection Hes as <-. apply Hall, list_elem_of_In, in_concat. exists (p :: sg). split; [|by left]. by eapply list_elem_of_In, list_elem_of_lookup_2. }
  unfold DiskBtreeReader.first_iter. rewrite Hd. destruct (OnDiskNode.binary_search d key) as [[i|i]| |]; [| |done..].
  - destruct Hbs as (e & He & Ek). specialize (Hgt i e He). by rewrite Ek, cmp_refl in Hgt.
  - destruct Hbs as (Hi & Hlt & _). destruct i as [|i]; [done|]. destruct (lookup_lt_is_Some_2 es i) as [e He]; [lia|].
    specialize (Hgt i e He). by rewrite (Hlt i e) in Hgt by (done || lia).
Qed.

(** The whole visit. *)
Lemma visit_run l root ks s : tree_at blocks l root ks → (l < 256)%nat → keys_sorted ks → ks ≠ [] → Z.of_nat (length ks) < 2 ^ 50 →
  DiskBtreeReader.visit read_blk start_blk (Z.of_nat root) visitor key dir s =
  Some (let '(g, s) := feed (matching key dir ks) s in
        (Ok (visit_answer dir (matching key dir ks) g), s)).
Proof.
  intros Ht Hl Hsort Hne Hlen. destruct ks as [|q ks]; [done|]. unfold DiskBtreeReader.visit.
  assert (2 ^ 60 ≤ Zpos FUEL) as Hfuel by done. revert Hfuel. generalize FUEL. intros fuel Hp. rewrite run_iter.
  assert ((dir = Backwards ∧ bytes_cmp q.1 key = Gt) ∨ (dir = Backwards → bytes_cmp q.1 key ≠ Gt)) as [[Hd Hg]|Hback].
  { destruct dir; [by right|]. destruct (bytes_cmp q.1 key); [by right|by right|by left]. }
  - destruct (Pos2Nat.is_succ fuel) as [n ->]. cbn [iter DiskBtreeReader.visit_step].
    rewrite (visit_below l root q ks s) by done. rewrite Hd, matching_below by done. done.
  - assert (dir = Backwards → ∀ p, head (q :: ks) = Some p → bytes_cmp p.1 key ≠ Gt) as Hb by (intros Hd p [= <-]; by apply Hback).
    pose proof (stack_cons _ _ _ _ _ _ (frame_tree l root _ Ht Hsort Hlen Hb) stack_nil) as Hst. rewrite app_nil_r, Z.add_0_r in Hst.
    rewrite (visit_loop _ _ _ _ s Hst) by (rewrite positive_nat_Z; nia). destruct (feed _ s) as [g s']. destruct dir; [done|].
    pose proof (matching_some q ks (Hback eq_refl)). by destruct (matching key Backwards (q :: ks)).
Qed.
End stack.
End visit.
