(* ===== verification/BtreeRuns.v ===== *)
(** The disk B-tree as a whole: a tree that is built from sorted pairs is read back by
    visits, lookups and streams, and what an append that is refused answers. *)

From S2P Require Import Prelude Text Loops Lsns Feedbacks DiskBtrees BtreeFacts BtreeBuild BtreeRead.
Local Open Scope Z_scope.

(** A tree in a new block buffer. *)
Definition build (L : nat) (kvs : list kv) : option (result DiskBtreeError (Z * list bytes)) :=
  match DiskBtreeBuilder.appends L kvs (DiskBtreeBuilder.new []) with
  | Ok b => DiskBtreeBuilder.finish L b
  | Err e => Some (Err e)
  | Panic => Some Panic
  end.

(** What the builder takes. *)
Definition buildable (L : nat) (kvs : list kv) : Prop :=
  (L ≤ 255)%nat ∧ keys_sorted kvs ∧ Forall (λ p, length p.1 = L ∧ 0 ≤ p.2 ≤ MAX_VALUE) kvs ∧ Z.of_nat (length kvs) < 2 ^ 50.

(** The blocks are where the reader looks for them. *)
Definition stored (blocks : list bytes) (start_blk : Z) (read_blk : Z → option bytes) : Prop :=
  Z.of_nat (length blocks) ≤ 2 ^ 32 ∧ ∀ b buf, blocks !! b = Some buf → read_blk (start_blk + Z.of_nat b) = Some buf.

Lemma builder_new L : builder_ok L (DiskBtreeBuilder.new []) [].
Proof. split; [done|]. by left. Qed.

Lemma built L kvs : buildable L kvs → ∃ b, DiskBtreeBuilder.appends L kvs (DiskBtreeBuilder.new []) = Ok b ∧ builder_ok L b kvs.
Proof.
  intros (HL & Hsort & Hall & Hlen). destruct (appends_spec L HL kvs _ [] (builder_new L)) as (b & E & Hb); [done|done|cbn; lia|]. by exists b.
Qed.

(** What a builder that was fed sorted pairs leaves behind is read by visits. *)
Lemma finish_visit L b kvs : (L ≤ 255)%nat → builder_ok L b kvs → kvs ≠ [] → keys_sorted kvs → Z.of_nat (length kvs) < 2 ^ 50 →
  ∃ root blocks, DiskBtreeBuilder.finish L b = Some (Ok (root, blocks)) ∧ 0 ≤ root < 2 ^ 32 ∧
    ∀ start_blk read_blk, stored blocks start_blk read_blk → ∀ (S : Type) visitor key dir (s : S),
      DiskBtreeReader.visit read_blk start_blk root visitor key dir s =
      Some (let '(g, s) := feed visitor (matching key dir kvs) s in
            (Ok (visit_answer dir (matching key dir kvs) g), s)).
Proof.
  intros HL Hb Hne Hsort Hlen. destruct (finish_spec L HL b kvs Hb Hne Hsort ltac:(lia)) as (l & root & blocks & E & Ht & Hl).
  eexists _, blocks. split; [exact E|]. split; [apply Z.mod_pos_bound; lia|]. intros start_blk read_blk [Hfew Hreads] S visitor key dir s.
  pose proof Ht as Hroot. apply tree_at_eq in Hroot as (buf & _ & _ & Hroot%lookup_lt_Some & _).
  rewrite Z.mod_small by lia. by apply (visit_run visitor blocks read_blk start_blk key dir Hreads Hfew l).
Qed.

Lemma build_visit L kvs : buildable L kvs → kvs ≠ [] →
  ∃ root blocks, build L kvs = Some (Ok (root, blocks)) ∧
    ∀ start_blk read_blk, stored blocks start_blk read_blk → ∀ (S : Type) visitor key dir (s : S),
      DiskBtreeReader.visit read_blk start_blk root visitor key dir s =
      Some (let '(g, s) := feed visitor (matching key dir kvs) s in
            (Ok (visit_answer dir (matching key dir kvs) g), s)).
Proof.
  intros Hok Hne. destruct (built L kvs Hok) as (b & Eb & Hb). destruct Hok as (HL & Hsort & Hall & Hlen).
  destruct (finish_visit L b kvs HL Hb Hne Hsort Hlen) as (root & blocks & E & _ & Hv). exists root, blocks. split; [|done]. unfold build. by rewrite Eb.
Qed.

(** The pairs from a key on start with its own pair. *)
Lemma from_head key kvs : keys_sorted kvs →
  match List.filter (from key) kvs with
  | p :: _ => snd <$> List.find (λ p, bool_decide (p.1 = key)) kvs = if bool_decide (p.1 = key) then Some p.2 else None
  | [] => List.find (λ p, bool_decide (p.1 = key)) kvs = None
  end.
Proof.
  induction kvs as [|p kvs IH]; intros Hsort; [done|]. apply StronglySorted_inv in Hsort as [Hsort Hp]. specialize (IH Hsort). cbn [List.filter List.find].
  unfold from at 1. destruct (bytes_cmp p.1 key) eqn:Ec.
  - apply bytes_cmp_eq in Ec. by rewrite bool_decide_eq_true_2.
  - rewrite bool_decide_eq_false_2 by (intros E; by rewrite E, cmp_refl in Ec). done.
  - assert (p.1 ≠ key) as Hne by (intros E; by rewrite E, cmp_refl in Ec). rewrite bool_decide_eq_false_2 by done.
    destruct (List.find _ kvs) as [q|] eqn:Eq; [|done]. apply List.find_some in Eq as [Hin Hq].
    apply bool_decide_eq_true in Hq. rewrite Forall_forall in Hp. specialize (Hp q (proj2 (list_elem_of_In _ _) Hin)). cbn in Hp. rewrite Hq in Hp.
    by rewrite Hp in Ec.
Qed.

Lemma feed_all (l : list kv) (s : list kv) :
  feed (λ key value yielded, (true, yielded ++ [(key, value)])) l s = (true, s ++ l).
Proof.
  revert s. induction l as [|[k v] l IH]; intros s; [by rewrite app_nil_r|]. cbn [feed]. rewrite IH, <-app_assoc. done.
Qed.

Lemma sorted_snoc (kvs : list kv) lk lv k v : keys_sorted kvs → last kvs = Some (lk, lv) → bytes_cmp k lk = Gt → keys_sorted (kvs ++ [(k, v)]).
Proof.
  intros Hsort [kvs' ->]%last_Some Hg%cmp_gt. apply sorted_app; [done|by repeat constructor|]. intros x y Hx ->%list_elem_of_singleton. cbn.
  apply elem_of_app in Hx as [Hx| ->%list_elem_of_singleton]; [|done]. apply sorted_app_inv in Hsort as (_ & _ & Hxy).
  apply (cmp_trans _ lk); [|done]. apply (Hxy x (lk, lv)); [done|by apply list_elem_of_singleton].
Qed.

(** * Properties *)

(** C24: building a tree from sorted pairs of keys of the right length and 5-byte values
    succeeds, and whatever the number of its levels, visiting it from any key in either
    direction ends without error and calls the visitor with exactly the pairs whose key is
    not below (backwards: not above) the search key, in that order, until the visitor
    says it has enough; backwards from below every key it answers [false]. *)
Theorem btree_visit_correct L kvs : buildable L kvs → kvs ≠ [] →
  ∃ root blocks, build L kvs = Some (Ok (root, blocks)) ∧
    ∀ start_blk read_blk, stored blocks start_blk read_blk → ∀ (S : Type) visitor key dir (s : S),
      DiskBtreeReader.visit read_blk start_blk root visitor key dir s =
      Some (let '(g, s) := feed visitor (matching key dir kvs) s in
            (Ok (visit_answer dir (matching key dir kvs) g), s)).
Proof. apply build_visit. Qed.

(** ** The stream is a visit that collects the pairs *)

Definition collect (key : bytes) (value : Z) (yielded : list (bytes * Z)) : bool * list (bytes * Z) := (true, yielded ++ [(key, value)]).

Lemma yield_leaf_scan fuel node it ys :
  DiskBtreeReader.scan_leaf collect fuel node it ys =
  (let '(r, ys) := DiskBtreeReader.yield_leaf fuel node it ys in (_ ← r; Ok true, ys)).
Proof.
  revert it ys. induction fuel as [|fuel IH]; intros it ys; cbn; [by destruct (iter_next it)|]. destruct (iter_next it) as [[idx it']|]; [|done].
  destruct (OnDiskNode.key_at node idx); [|done..]. destruct (_ ≫= _); [|done..]. apply IH.
Qed.

Lemma stream_iter_first node key : DiskBtreeReader.first_iter node key Forwards = (it ← DiskBtreeReader.stream_iter key node; Ok (Some it)).
Proof. unfold DiskBtreeReader.first_iter, DiskBtreeReader.stream_iter. by destruct (OnDiskNode.binary_search node key) as [[idx|idx]| |]. Qed.

Lemma stream_node_visit read_blk start_blk key frame ys :
  DiskBtreeReader.visit_node read_blk start_blk collect key Forwards frame ys =
  (let '(r, ys) := DiskBtreeReader.stream_node read_blk start_blk key frame ys in (pushed ← r; Ok (Some pushed), ys)).
Proof.
  destruct frame as [b o]. unfold DiskBtreeReader.visit_node, DiskBtreeReader.stream_node. destruct (read_blk _) as [buf|]; [|done].
  destruct (OnDiskNode.deparse buf) as [node| |]; [|done..]. destruct (_ =? 0)%nat; [done|]. rewrite stream_iter_first.
  replace (match o with Some it => Ok (Some it) | None => _ end) with (it ← match o with Some it => Ok it | None => DiskBtreeReader.stream_iter key node end; Ok (Some it)) by (by destruct o).
  destruct (match o with Some it => Ok it | None => _ end) as [it| |]; [|done..]. cbn [mbind result_bind]. destruct (OnDiskNode.level node =? 0).
  - rewrite yield_leaf_scan. by destruct (DiskBtreeReader.yield_leaf _ _ _ _) as [[] ?].
  - destruct (iter_next it) as [[idx it']|]; [|done]. destruct (OnDiskNode.value node idx) as [v| |]; [|done..]. cbn [mbind result_bind]. by destruct (Value.to_blknum v).
Qed.

Lemma run_map {A B C} (f : A → A + B) (g : A → A + C) (h : C → B) fuel a :
  (∀ a, f a = match g a with inl a => inl a | inr c => inr (h c) end) →
  run f fuel a = match run g fuel a with inl a => inl a | inr c => inr (h c) end.
Proof.
  intros Hfg. revert a. induction fuel as [p IH|p IH|]; intros a; cbn; rewrite ?Hfg, ?IH; [|by destruct (run g p a)|done].
  destruct (g a); [|done]. rewrite IH. by destruct (run g p _).
Qed.

Lemma into_stream_visit read_blk start_blk root key :
  DiskBtreeReader.visit read_blk start_blk root collect key Forwards [] =
  (λ x, (_ ← x.1; Ok true, x.2)) <$> DiskBtreeReader.into_stream read_blk start_blk root key.
Proof.
  unfold DiskBtreeReader.visit, DiskBtreeReader.into_stream.
  rewrite (run_map _ (DiskBtreeReader.stream_step read_blk start_blk key) (λ x, (_ ← x.1; Ok true, x.2))); [by destruct (run _ _ _)|].
  intros [[|frame stack] ys]; [done|]. cbn [DiskBtreeReader.visit_step DiskBtreeReader.stream_step]. rewrite stream_node_visit.
  by destruct (DiskBtreeReader.stream_node _ _ _ _ _) as [[] ?].
Qed.

(** C25: in a tree built from sorted pairs, [get] finds the value of a key exactly when the
    key was appended, and [into_stream] yields exactly the pairs from the start key on. *)
Theorem btree_get_correct L kvs : buildable L kvs → kvs ≠ [] →
  ∃ root blocks, build L kvs = Some (Ok (root, blocks)) ∧
    ∀ start_blk read_blk, stored blocks start_blk read_blk → ∀ key,
      DiskBtreeReader.get read_blk start_blk root key = Some (Ok (snd <$> List.find (λ p, bool_decide (p.1 = key)) kvs)) ∧
      DiskBtreeReader.into_stream read_blk start_blk root key = Some (Ok tt, List.filter (from key) kvs).
Proof.
  intros Hok Hne. destruct (build_visit L kvs Hok Hne) as (root & blocks & E & Hv). exists root, blocks. split; [done|].
  intros start_blk read_blk Hst key. split.
  2:{ pose proof (into_stream_visit read_blk start_blk root key) as Es. rewrite (Hv _ _ Hst) in Es. cbn [matching] in Es. unfold collect in Es. rewrite feed_all in Es.
      destruct (DiskBtreeReader.into_stream _ _ _ _) as [[[[]|e|] ys]|]; cbn in Es; by simplify_eq. }
  unfold DiskBtreeReader.get. rewrite (Hv _ _ Hst). cbn [matching]. destruct Hok as (_ & Hsort & _). pose proof (from_head key kvs Hsort) as Hh.
  destruct (List.filter (from key) kvs) as [|[k v] ps]; cbn [feed mbind option_bind]; [by rewrite Hh|]. cbn [fst snd] in Hh.
  cbn [mbind result_bind]. by rewrite Hh.
Qed.

(** after any pairs the builder has taken, an append takes the next pair exactly when its
    value fits in five bytes and its key is above the last one; otherwise it answers which
    of the two is wrong, with the value or the keys, and no append panics. *)
Theorem btree_append_outcome L kvs k v : buildable L kvs → length k = L → 0 ≤ v →
  ∃ b, DiskBtreeBuilder.appends L kvs (DiskBtreeBuilder.new []) = Ok b ∧
  match DiskBtreeBuilder.append L k v b with
  | Ok _ => v ≤ MAX_VALUE ∧ keys_sorted (kvs ++ [(k, v)])
  | Err (AppendOverflow v') => v' = v ∧ MAX_VALUE < v
  | Err (UnsortedInput k' last_key) => v ≤ MAX_VALUE ∧ k' = k ∧ (∃ v', last kvs = Some (last_key, v')) ∧ bytes_cmp k last_key ≠ Gt
  | _ => False
  end.
Proof.
  intros Hok Hk Hv. destruct (built L kvs Hok) as (b & Eb & Hb). exists b. split; [done|]. destruct Hok as (HL & Hsort & Hall & Hlen).
  destruct (Z.ltb_spec MAX_VALUE v) as [Hbig|Hfit].
  { unfold DiskBtreeBuilder.append. by rewrite (proj2 (Z.ltb_lt _ _)) by lia. }
  destruct (last kvs) as [[lk lv]|] eqn:El.
  - destruct (bytes_cmp k lk) eqn:Ec; [| |pose proof (sorted_snoc kvs lk lv k v Hsort El Ec) as Hs].
    1,2: unfold DiskBtreeBuilder.append; rewrite (proj2 (Z.ltb_ge _ _)) by lia; destruct Hb as [-> _]; rewrite El; cbn; rewrite Ec;
      split_and!; [lia|done|by exists lv|by rewrite Ec].
    destruct (append_spec L HL b kvs k v Hb Hs Hk) as (b' & -> & _); [lia|lia|]. by split.
  - apply last_None in El as ->. assert (keys_sorted ([] ++ [(k, v)])) as Hs by (repeat constructor).
    destruct (append_spec L HL b [] k v Hb Hs Hk) as (b' & -> & _); [lia|cbn; lia|]. split; [lia|done].
Qed.

(** * Runs *)

Definition wide_key (i : Z) : bytes := i :: repeat 0 254.

(** Forty keys of 255 bytes, which need two leaves and a root. *)
Definition wide : list kv := (λ i, (wide_key i, 7 * i)) <$> seqZ 1 40.

Definition block_of (blocks : list bytes) (b : Z) : option bytes := blocks !! Z.to_nat b.

Lemma wide_buildable : buildable 255 wide.
Proof.
  split_and!; [lia| | |vm_compute; reflexivity].
  - apply Sorted_StronglySorted; [intros a b c; apply cmp_trans|]. unfold wide. repeat (constructor; [|try constructor; vm_compute; reflexivity]). constructor.
  - unfold wide. repeat (constructor; [vm_compute; split; [reflexivity|split; discriminate]|]). constructor.
Qed.

Lemma block_of_stored blocks : Z.of_nat (length blocks) ≤ 2 ^ 32 → stored blocks 0 (block_of blocks).
Proof. intros Hl. split; [done|]. intros b buf Hb. unfold block_of. by rewrite Z.add_0_l, Nat2Z.id. Qed.

Definition built_blocks (r : option (result DiskBtreeError (Z * list bytes))) : option nat :=
  match r with Some (Ok (_, blocks)) => Some (length blocks) | _ => None end.

Lemma wide_blocks : built_blocks (build 255 wide) = Some 3%nat.
Proof. vm_compute. reflexivity. Qed.

Lemma btree_visit_correct_witness : ∃ root blocks, build 255 wide = Some (Ok (root, blocks)) ∧ length blocks = 3%nat ∧
  DiskBtreeReader.visit (block_of blocks) 0 root (λ _ v s, (negb (v =? 231), s ++ [v])) (wide_key 35) Backwards [] = Some (Ok false, [245; 238; 231]) ∧
  DiskBtreeReader.visit (block_of blocks) 0 root (λ _ v s, (true, s ++ [v])) (wide_key 38) Forwards [] = Some (Ok true, [266; 273; 280]) ∧
  DiskBtreeReader.visit (block_of blocks) 0 root (λ _ v s, (true, s ++ [v])) (wide_key 0) Backwards [] = Some (Ok false, []).
Proof.
  destruct (btree_visit_correct 255 wide wide_buildable ltac:(done)) as (root & blocks & E & Hv). exists root, blocks.
  pose proof wide_blocks as Hl. rewrite E in Hl. injection Hl as Hl. split_and!; [done..| | |].
  all: rewrite (Hv 0 (block_of blocks)) by (apply block_of_stored; lia); vm_compute; reflexivity.
Defined.

Lemma btree_get_correct_witness : ∃ root blocks, build 255 wide = Some (Ok (root, blocks)) ∧
  DiskBtreeReader.get (block_of blocks) 0 root (wide_key 33) = Some (Ok (Some 231)) ∧
  DiskBtreeReader.get (block_of blocks) 0 root (wide_key 41) = Some (Ok None).
Proof.
  destruct (btree_get_correct 255 wide wide_buildable ltac:(done)) as (root & blocks & E & Hv). exists root, blocks.
  pose proof wide_blocks as Hl. rewrite E in Hl. injection Hl as Hl. split_and!; [done|..].
  all: rewrite (proj1 (Hv 0 (block_of blocks) ltac:(apply block_of_stored; lia) _)); vm_compute; reflexivity.
Defined.

Lemma btree_append_outcome_witness : ∃ b, DiskBtreeBuilder.appends 255 wide (DiskBtreeBuilder.new []) = Ok b ∧
  match DiskBtreeBuilder.append 255 (wide_key 40) 5 b with Err (UnsortedInput _ last_key) => last_key = wide_key 40 | _ => False end.
Proof.
  destruct (btree_append_outcome 255 wide (wide_key 40) 5 wide_buildable eq_refl ltac:(lia)) as (b & E & H). exists b. split; [exact E|]. clear E.
  destruct (DiskBtreeBuilder.append 255 (wide_key 40) 5 b) as [b'|[]|]; try exact H.
  - destruct H as [_ H]. exfalso. apply sorted_app_inv in H as (_ & _ & H).
    specialize (H (wide_key 40, 280) (wide_key 40, 5)). cbn [fst] in H. rewrite cmp_refl in H. discriminate H; [|by apply list_elem_of_singleton].
    apply (list_elem_of_lookup_2 _ 39). reflexivity.
  - destruct H as [_ H]. vm_compute in H. discriminate.
  - destruct H as (_ & _ & [v' H] & _). vm_compute in H. injection H as <- _. reflexivity.
Defined.
