(* ===== verification/Blobs.v ===== *)
(** Blobs in layer files, [pageserver/src/tenant/blob_io.rs]: a header of one or four bytes
    with the length and the compression, and the data.

    The [zstd] compression of the [async_compression] crate is the class [Zstd]. *)

From S2P Require Import Prelude Text DiskBtrees FileBytes BufferedWriters.
Local Open Scope Z_scope.

Definition LEN_COMPRESSION_BIT_MASK : Z := 0xf0.
Definition MAX_SUPPORTED_BLOB_LEN : Z := 0x0fffffff.
Definition BYTE_UNCOMPRESSED : Z := 0x80.
Definition BYTE_ZSTD : Z := Z.lor BYTE_UNCOMPRESSED 0x10.

(** The encoder, by its level, and the decoder, which may refuse its input. *)
Class Zstd := { zstd_encode : option Z → bytes → bytes; zstd_decode : bytes → option bytes }.
Class ZstdLaws `{Zstd} := { zstd_roundtrip level b : zstd_decode (zstd_encode level b) = Some b }.

Inductive ImageCompressionAlgorithm := Disabled | ZstdLevel (level : option Z).

(** * Headers *)

Inductive HeaderError := ZeroLengthHeader.

Module Header.
Record t := Mk { header_len : Z; data_len : Z; compression_bits : Z }.

Definition decode (b : bytes) : result HeaderError t :=
  match b with
  | [] => Err ZeroLengthHeader
  | first_header_byte :: _ =>
      if first_header_byte <? 0x80 then Ok (Mk 1 first_header_byte BYTE_UNCOMPRESSED)
      else
        header_buf ← slice_of 0 4 b;
        let compression_bits := Z.land first_header_byte LEN_COMPRESSION_BIT_MASK in
        let data_len := be_val (Z.land first_header_byte (0xff - LEN_COMPRESSION_BIT_MASK) :: tail header_buf) in
        Ok (Mk 4 data_len compression_bits)
  end.

Definition total_len (self : t) : Z := header_len self + data_len self.
End Header.

(** * Writing *)

Inductive WriteBlobError := Flush (e : FlushTaskError) | BlobTooLarge | BadHeader | HeaderLengthMismatch.
Record CompressionInfo := MkCompression { written_compressed : bool; compressed_size : option Z }.

Module BlobWriter.
Section writer.
Context `{Zstd}.

Record t := Mk { writer : BufferedWriter.t; offset : Z }.
Definition CAPACITY : Z := 64 * 1024.

Definition new (file : bytes) (start_offset : Z) (cancels : list bool) : t :=
  Mk (BufferedWriter.new file start_offset CAPACITY cancels) start_offset.

Definition size (self : t) : Z := offset self.

Definition write_all (src_buf : bytes) : M t WriteBlobError unit := λ self,
  match BufferedWriter.write_buffered_borrowed src_buf (writer self) with
  | (Ok len, w) => (Ok tt, Mk w (offset self + len))
  | (Err e, w) => (Err (Flush e), Mk w (offset self))
  | (Panic, w) => (Panic, Mk w (offset self))
  end.

(** How the data is stored: the high bits, the data and what is reported. *)
Definition compress (srcbuf : bytes) (algorithm : ImageCompressionAlgorithm) : Z * bytes * CompressionInfo :=
  match algorithm with
  | ZstdLevel level =>
      let compressed := zstd_encode level srcbuf in
      if blen compressed <? blen srcbuf then (BYTE_ZSTD, compressed, MkCompression true (Some (blen compressed)))
      else (BYTE_UNCOMPRESSED, srcbuf, MkCompression false (Some (blen compressed)))
  | Disabled => (BYTE_UNCOMPRESSED, srcbuf, MkCompression false None)
  end.

Definition write_blob_maybe_compressed (srcbuf : bytes) (algorithm : ImageCompressionAlgorithm) : M t WriteBlobError (Z * CompressionInfo) :=
  self ← getS;
  let off := offset self in
  let len := blen srcbuf in
  if len <? 128 then
    _ ← write_all [len];
    _ ← write_all srcbuf;
    mret (off, MkCompression false None)
  else if MAX_SUPPORTED_BLOB_LEN <? len then bail BlobTooLarge
  else
    let '(high_bit_mask, data, info) := compress srcbuf algorithm in
    match be_bytes 4 (blen data) with
    | first :: rest =>
        _ ← assertM (Z.land first 0xf0 =? 0);
        _ ← write_all (Z.lor first high_bit_mask :: rest);
        _ ← write_all data;
        mret (off, info)
    | [] => liftR Panic
    end.

Definition write_blob (srcbuf : bytes) : M t WriteBlobError Z :=
  r ← write_blob_maybe_compressed srcbuf Disabled; mret r.1.

Definition write_blob_raw (raw_with_header : bytes) : M t WriteBlobError Z :=
  match Header.decode raw_with_header with
  | Err _ => bail BadHeader
  | Panic => liftR Panic
  | Ok header =>
      _ ← ensure (blen raw_with_header =? Header.total_len header) HeaderLengthMismatch;
      self ← getS;
      let off := offset self in
      _ ← write_all raw_with_header;
      mret off
  end.

Definition shutdown (mode : BufferedWriter.BufferedWriterShutdownMode) : M t WriteBlobError bytes := λ self,
  match BufferedWriter.shutdown mode (writer self) with
  | (Ok (_, file), w) => (Ok file, Mk w (offset self))
  | (Err e, w) => (Err (Flush e), Mk w (offset self))
  | (Panic, w) => (Panic, Mk w (offset self))
  end.
End writer.
End BlobWriter.

(** * Reading through blocks *)

Inductive BlobReadError := BlockError | InvalidCompressionByte | Undecodable.

Module BlockCursor.
Section cursor.
Context `{Zstd} (read_blk : Z → option bytes) (read_compressed : bool).

Definition blk (blknum : Z) : result BlobReadError bytes := of_option BlockError (read_blk blknum).

(** The payload: a round takes a byte at least. *)
Fixpoint read_payload (fuel : nat) (blknum : Z) (buf : bytes) (off remain : Z) (acc : bytes) : result BlobReadError bytes :=
  if remain <=? 0 then Ok acc
  else
    match fuel with
    | O => Panic
    | S fuel =>
        p ← (if PAGE_SZ - off =? 0 then buf ← blk (blknum + 1); Ok (blknum + 1, buf, 0) else Ok (blknum, buf, off));
        let '(blknum, buf, off) := p in
        let this_blk_len := Z.min remain (PAGE_SZ - off) in
        part ← slice_of off (off + this_blk_len) buf;
        read_payload fuel blknum buf (off + this_blk_len) (remain - this_blk_len) (acc ++ part)
    end.

(** The four bytes of a length, possibly across two blocks. *)
Definition read_len (blknum : Z) (buf : bytes) (off : Z) : result BlobReadError (bytes * (Z * bytes * Z)) :=
  let thislen := PAGE_SZ - off in
  if thislen <? 4 then
    a ← slice_of off PAGE_SZ buf;
    buf ← blk (blknum + 1);
    b ← slice_of 0 (4 - thislen) buf;
    Ok (a ++ b, (blknum + 1, buf, 4 - thislen))
  else
    a ← slice_of off (off + 4) buf;
    Ok (a, (blknum, buf, off + 4)).

Definition read_blob (offset : Z) : result BlobReadError bytes :=
  let blknum := (offset / PAGE_SZ) mod 2 ^ 32 in
  let off := offset mod PAGE_SZ in
  buf ← blk blknum;
  match buf !! Z.to_nat off with
  | None => Panic
  | Some first_len_byte =>
      h ← (if first_len_byte <? 0x80 then Ok (first_len_byte, (blknum, buf, off + 1))
           else
             l ← read_len blknum buf off;
             let bit_mask := if read_compressed then 0xff - LEN_COMPRESSION_BIT_MASK else 0x7f in
             match l.1 with
             | b :: rest => Ok (be_val (Z.land b bit_mask :: rest), l.2)
             | [] => Panic
             end);
      let '(len, (blknum, buf, off)) := h in
      let compression_bits := Z.land first_len_byte LEN_COMPRESSION_BIT_MASK in
      if (compression_bits <=? BYTE_UNCOMPRESSED) || negb read_compressed then read_payload (Z.to_nat len) blknum buf off len []
      else if compression_bits =? BYTE_ZSTD then
        data ← read_payload (Z.to_nat len) blknum buf off len [];
        of_option Undecodable (zstd_decode data)
      else Err InvalidCompressionByte
  end.
End cursor.
End BlockCursor.
