(* ===== verification/BlobFacts.v ===== *)
(** Facts of blobs: the bytes that are written for a blob, and that they read back. *)

From S2P Require Import Prelude Text DiskBtrees FileBytes BufferedWriters BufferedWriterFacts Blobs.
Local Open Scope Z_scope.

(** ** The bytes of a blob *)

Definition header_bytes (high_bit_mask len : Z) : bytes :=
  match be_bytes 4 len with first :: rest => Z.lor first high_bit_mask :: rest | [] => [] end.

Definition blob_bytes `{Zstd} (algorithm : ImageCompressionAlgorithm) (src : bytes) : bytes :=
  if blen src <? 128 then blen src :: src
  else let '(high_bit_mask, data, _) := BlobWriter.compress src algorithm in header_bytes high_bit_mask (blen data) ++ data.

(** The data of a blob with the compression that its header says. *)
Definition unpack `{Zstd} (bits : Z) (data : bytes) : option bytes :=
  if bits =? BYTE_UNCOMPRESSED then Some data else if bits =? BYTE_ZSTD then zstd_decode data else None.

Lemma be_bytes_4 n : 0 ≤ n < 2 ^ 28 → ∃ f x y z, be_bytes 4 n = [f; x; y; z] ∧ 0 ≤ f < 16 ∧ be_val [f; x; y; z] = n.
Proof.
  intros Hn. assert (be_val (be_bytes 4 n) = n) as Hv by (apply be_val_be_bytes; unfold in_u; cbn in *; lia).
  exists (n / 2 ^ 24 mod 256), (n / 2 ^ 16 mod 256), (n / 2 ^ 8 mod 256), (n / 2 ^ 0 mod 256). split; [done|]. split; [|done].
  assert (0 ≤ n / 2 ^ 24 < 16) by (split; [apply Z.div_pos; lia|apply Z.div_lt_upper_bound; lia]). rewrite Z.mod_small by lia. done.
Qed.

(** The four low bits and the four high bits of the first byte. *)
Lemma first_byte f m : 0 ≤ f < 16 → m = BYTE_UNCOMPRESSED ∨ m = BYTE_ZSTD →
  Z.land f 0xf0 = 0 ∧ 0x80 ≤ Z.lor f m < 256 ∧ Z.land (Z.lor f m) LEN_COMPRESSION_BIT_MASK = m ∧ Z.land (Z.lor f m) (0xff - LEN_COMPRESSION_BIT_MASK) = f.
Proof.
  intros Hf Hm. assert (f ∈ seqZ 0 16) as Hin by (apply elem_of_seqZ; lia).
  assert (Forall (λ f, ∀ m, m = BYTE_UNCOMPRESSED ∨ m = BYTE_ZSTD →
    Z.land f 0xf0 = 0 ∧ 0x80 ≤ Z.lor f m < 256 ∧ Z.land (Z.lor f m) LEN_COMPRESSION_BIT_MASK = m ∧ Z.land (Z.lor f m) (0xff - LEN_COMPRESSION_BIT_MASK) = f) (seqZ 0 16)) as Hall.
  { change (seqZ 0 16) with [0; 1; 2; 3; 4; 5; 6; 7; 8; 9; 10; 11; 12; 13; 14; 15].
    repeat (constructor; [intros m0 [-> | ->]; vm_compute; intuition congruence|]). constructor. }
  rewrite Forall_forall in Hall. by apply Hall.
Qed.

Section blobs.
Context `{ZstdLaws}.

Lemma compress_mask src alg : let '(m, data, _) := BlobWriter.compress src alg in
  (m = BYTE_UNCOMPRESSED ∨ m = BYTE_ZSTD) ∧ blen data ≤ blen src ∧ unpack m data = Some src.
Proof.
  unfold BlobWriter.compress. destruct alg as [|level]; [split_and!; [by left|done|done]|].
  destruct (Z.ltb_spec (blen (zstd_encode level src)) (blen src)); split_and!; [by right|lia|apply zstd_roundtrip|by left|done|done].
Qed.

Lemma blob_bytes_large src alg : 128 ≤ blen src ≤ MAX_SUPPORTED_BLOB_LEN → ∃ m data f x y z,
  BlobWriter.compress src alg = (m, data, (BlobWriter.compress src alg).2) ∧ be_bytes 4 (blen data) = [f; x; y; z] ∧ 0 ≤ f < 16 ∧ be_val [f; x; y; z] = blen data ∧
  (m = BYTE_UNCOMPRESSED ∨ m = BYTE_ZSTD) ∧ unpack m data = Some src ∧ blob_bytes alg src = (Z.lor f m :: [x; y; z]) ++ data.
Proof.
  intros Hs. unfold blob_bytes. rewrite (proj2 (Z.ltb_ge _ _)) by lia. pose proof (compress_mask src alg) as Hc.
  destruct (BlobWriter.compress src alg) as [[m data] info]. destruct Hc as (Hm & Hd & Hu). pose proof (blen_nonneg data). unfold MAX_SUPPORTED_BLOB_LEN in Hs.
  destruct (be_bytes_4 (blen data)) as (f & x & y & z & E & Hf & Hv); [lia|]. exists m, data, f, x, y, z. split_and!; [done|done|lia|lia|done|done|done|].
  unfold header_bytes. by rewrite E.
Qed.

(** The header tells where the blob ends and how to unpack it. *)
Lemma decode_blob src alg rest : blen src ≤ MAX_SUPPORTED_BLOB_LEN → ∃ h, Header.decode (blob_bytes alg src ++ rest) = Ok h ∧
  Header.total_len h = blen (blob_bytes alg src) ∧ 0 < Header.header_len h ≤ Header.total_len h ∧
  unpack (Header.compression_bits h) (cut (Header.header_len h) (Header.total_len h) (blob_bytes alg src ++ rest)) = Some src.
Proof.
  intros Hs. destruct (decide (blen src < 128)) as [Hsmall|Hlarge].
  - unfold blob_bytes. rewrite (proj2 (Z.ltb_lt _ _)) by done. pose proof (blen_nonneg src). cbn [app Header.decode]. rewrite (proj2 (Z.ltb_lt _ _)) by lia.
    eexists; split; [done|]. unfold Header.total_len. cbn [Header.header_len Header.data_len Header.compression_bits].
    assert (blen (blen src :: src) = 1 + blen src) as E by (unfold blen; cbn; lia). split_and!; [lia|lia|lia|]. unfold unpack. rewrite Z.eqb_refl.
    f_equal. apply (cut_mid [blen src] src rest).
  - destruct (blob_bytes_large src alg) as (m & data & f & x & y & z & _ & _ & Hf & Hv & Hm & Hu & ->); [lia|].
    destruct (first_byte f m Hf Hm) as (_ & Hb & Hbits & Hlow). cbn [app Header.decode]. rewrite (proj2 (Z.ltb_ge _ _)) by lia.
    rewrite slice_of_ok; [|lia|unfold blen; cbn; lia]. cbn [mbind result_bind].
    change (cut 0 4 (Z.lor f m :: x :: y :: z :: data ++ rest)) with [Z.lor f m; x; y; z]. cbn [tail]. rewrite Hbits, Hlow, Hv. eexists; split; [done|].
    unfold Header.total_len. cbn [Header.header_len Header.data_len Header.compression_bits]. pose proof (blen_nonneg data).
    assert (blen (Z.lor f m :: x :: y :: z :: data) = 4 + blen data) as E by (unfold blen; cbn; lia). split_and!; [lia|lia|lia|].
    rewrite <-Hu. f_equal. apply (cut_mid [Z.lor f m; x; y; z] data rest).
Qed.

Lemma blob_bytes_nonempty src alg : blen src ≤ MAX_SUPPORTED_BLOB_LEN → 0 < blen (blob_bytes alg src).
Proof. intros Hs. destruct (decode_blob src alg [] Hs) as (h & _ & <- & ? & _). lia. Qed.

(** ** Writing *)

(** The bytes [x] were written from [s0] on, and the task is not stopped. *)
Definition writer_good (s0 : Z) (x : bytes) (w : BlobWriter.t) : Prop :=
  BufferedWriter.cap (BlobWriter.writer w) = BlobWriter.CAPACITY ∧ BlobWriter.offset w = s0 + blen x ∧
  Forall (λ c, c = false) (BufferedWriter.cancels (BlobWriter.writer w)) ∧
  ∃ a b m k, parts s0 (BlobWriter.writer w) a b m k ∧ full (BlobWriter.writer w) a b ∧ blen m < BlobWriter.CAPACITY ∧ a ++ b ++ m = x.

Lemma writer_new f s0 cancels : 0 ≤ s0 → blen f ≤ s0 → Forall (λ c, c = false) cancels → writer_good s0 [] (BlobWriter.new f s0 cancels).
Proof.
  intros ???. split_and!; [done|cbn [BlobWriter.new BlobWriter.offset]; change (blen (@nil Z)) with 0; lia|done|]. exists [], [], [], 0. destruct (parts_new s0 BlobWriter.CAPACITY f cancels) as [Hp Hf]; [done..|]. by split_and!.
Qed.

Lemma write_all_good s0 x w src : writer_good s0 x w → ∃ w', BlobWriter.write_all src w = (Ok tt, w') ∧ writer_good s0 (x ++ src) w'.
Proof.
  intros (Hc & Ho & Hcalm & a & b & m & k & Hp & Hf & Hm & <-). unfold BlobWriter.write_all, BufferedWriter.write_buffered_borrowed, mbind, M_bind.
  destruct (write_loop_ok (length src) src s0 _ a b m k ltac:(done) Hp Hf ltac:(lia) Hcalm) as (w' & E & Hcalm').
  pose proof (write_loop_parts (length src) src s0 _ a b m k ltac:(done) Hp Hf ltac:(lia)) as Hl. rewrite E in Hl |- *. cbn [mret M_ret].
  destruct Hl as (Hcap & a' & b' & m' & k' & Hp' & Hf' & Hm' & Ex). eexists; split; [done|]. split_and!; cbn; [congruence|rewrite Ho, !blen_app; lia|done|].
  exists a', b', m', k'. split_and!; [done|done|congruence|done].
Qed.

(** A blob that is not too large is written at the offset that is returned. *)
Lemma write_blob_good s0 x w src alg : writer_good s0 x w → blen src ≤ MAX_SUPPORTED_BLOB_LEN →
  ∃ info w', BlobWriter.write_blob_maybe_compressed src alg w = (Ok (s0 + blen x, info), w') ∧ writer_good s0 (x ++ blob_bytes alg src) w'.
Proof.
  intros Hg Hs. pose proof Hg as (_ & Ho & _). unfold BlobWriter.write_blob_maybe_compressed, mbind at 1, M_bind at 1, getS. rewrite Ho.
  destruct (Z.ltb_spec (blen src) 128) as [Hsmall|Hlarge].
  - destruct (write_all_good s0 x w [blen src] Hg) as (w1 & E1 & Hg1). rewrite (M_bind_ok _ _ _ _ _ E1).
    destruct (write_all_good s0 _ w1 src Hg1) as (w2 & E2 & Hg2). rewrite (M_bind_ok _ _ _ _ _ E2). eexists _, w2. split; [done|].
    unfold blob_bytes. rewrite (proj2 (Z.ltb_lt _ _)) by done. by rewrite <-app_assoc in Hg2.
  - rewrite (proj2 (Z.ltb_ge _ _)) by done. destruct (blob_bytes_large src alg) as (m & data & f & x0 & y & z & -> & E & Hf & Hv & Hm & _ & ->); [lia|]. rewrite E.
    destruct (first_byte f m Hf Hm) as (-> & _). rewrite (M_bind_ok (assertM (0 =? 0)) _ w tt w eq_refl).
    destruct (write_all_good s0 x w (Z.lor f m :: [x0; y; z]) Hg) as (w1 & E1 & Hg1).  rewrite (M_bind_ok _ _ _ _ _ E1).
    destruct (write_all_good s0 _ w1 data Hg1) as (w2 & E2 & Hg2). rewrite (M_bind_ok _ _ _ _ _ E2). eexists _, w2. split; [done|].
    by rewrite <-app_assoc in Hg2.
Qed.

(** ** Reading through blocks *)

(** A file of whole blocks. *)
Definition blocks_of (f : bytes) (n : Z) : option bytes := pread_exact (n * PAGE_SZ) PAGE_SZ f.

Section blocks.
Context (f : bytes) (whole : blen f mod PAGE_SZ = 0) (few : blen f ≤ 2 ^ 32 * PAGE_SZ).
Abbreviation page n := (cut (n * PAGE_SZ) ((n + 1) * PAGE_SZ) f).

Lemma page_inside n p : 0 ≤ n → n * PAGE_SZ ≤ p < blen f → p < (n + 1) * PAGE_SZ → (n + 1) * PAGE_SZ ≤ blen f.
Proof. intros ?? _. apply Z.mod_divide in whole as [j Hj]; [|done]. unfold PAGE_SZ in *. nia. Qed.

Lemma blk_page n : 0 ≤ n → (n + 1) * PAGE_SZ ≤ blen f → BlockCursor.blk (blocks_of f) n = Ok (page n).
Proof.
  intros ??. unfold BlockCursor.blk, blocks_of. rewrite pread_exact_some by (unfold PAGE_SZ in *; lia). cbn. do 2 f_equal. unfold PAGE_SZ. lia.
Qed.

Lemma page_slice n a b : 0 ≤ n → (n + 1) * PAGE_SZ ≤ blen f → 0 ≤ a ≤ b → b ≤ PAGE_SZ →
  slice_of (E := BlobReadError) a b (page n) = Ok (cut (n * PAGE_SZ + a) (n * PAGE_SZ + b) f).
Proof.
  intros. assert (blen (page n) = PAGE_SZ) as E by (rewrite blen_cut; unfold PAGE_SZ in *; lia). rewrite slice_of_ok by lia. f_equal. apply cut_cut; unfold PAGE_SZ in *; lia.
Qed.

Lemma read_payload_spec fuel n off remain acc : (Z.to_nat remain ≤ fuel)%nat → 0 ≤ n → 0 ≤ off ≤ PAGE_SZ → 0 ≤ remain → (n + 1) * PAGE_SZ ≤ blen f →
  n * PAGE_SZ + off + remain ≤ blen f →
  BlockCursor.read_payload (blocks_of f) fuel n (page n) off remain acc = Ok (acc ++ cut (n * PAGE_SZ + off) (n * PAGE_SZ + off + remain) f).
Proof.
  revert n off remain acc. induction fuel as [|fuel IH]; intros n off remain acc Hf Hn Hoff Hr Hpage Hend.
  { cbn. rewrite (proj2 (Z.leb_le _ _)) by lia. by rewrite cut_empty, app_nil_r by lia. }
  cbn [BlockCursor.read_payload]. destruct (Z.leb_spec remain 0); [by rewrite cut_empty, app_nil_r by lia|].
  destruct (Z.eqb_spec (PAGE_SZ - off) 0) as [E|E].
  - assert ((n + 1 + 1) * PAGE_SZ ≤ blen f) as Hnext by (apply (page_inside (n + 1) ((n + 1) * PAGE_SZ)); unfold PAGE_SZ in *; lia).
    rewrite blk_page by lia. cbn [mbind result_bind]. rewrite page_slice by (unfold PAGE_SZ in *; lia). cbn [mbind result_bind].
    rewrite IH by (unfold PAGE_SZ in *; lia). rewrite <-app_assoc, cut_app by (unfold PAGE_SZ in *; lia). do 3 f_equal; unfold PAGE_SZ in *; lia.
  - cbn [mbind result_bind]. rewrite page_slice by (unfold PAGE_SZ in *; lia). cbn [mbind result_bind].
    rewrite IH by (unfold PAGE_SZ in *; lia). rewrite <-app_assoc.
    replace (n * PAGE_SZ + (off + Z.min remain (PAGE_SZ - off))) with (n * PAGE_SZ + off + Z.min remain (PAGE_SZ - off)) by lia.
    rewrite cut_app by (unfold PAGE_SZ in *; lia). do 3 f_equal. lia.
Qed.

Lemma read_len_spec n off : 0 ≤ n → 0 ≤ off < PAGE_SZ → n * PAGE_SZ + off + 4 ≤ blen f →
  ∃ n' off', BlockCursor.read_len (blocks_of f) n (page n) off = Ok (cut (n * PAGE_SZ + off) (n * PAGE_SZ + off + 4) f, (n', page n', off')) ∧
    0 ≤ n' ∧ 0 ≤ off' ≤ PAGE_SZ ∧ (n' + 1) * PAGE_SZ ≤ blen f ∧ n' * PAGE_SZ + off' = n * PAGE_SZ + off + 4.
Proof.
  intros Hn Hoff Hend. assert ((n + 1) * PAGE_SZ ≤ blen f) as Hpage by (apply (page_inside n (n * PAGE_SZ + off)); unfold PAGE_SZ in *; lia).
  unfold BlockCursor.read_len. destruct (Z.ltb_spec (PAGE_SZ - off) 4).
  - assert ((n + 1 + 1) * PAGE_SZ ≤ blen f) as Hnext by (apply (page_inside (n + 1) ((n + 1) * PAGE_SZ)); unfold PAGE_SZ in *; lia).
    rewrite page_slice by (unfold PAGE_SZ in *; lia). cbn [mbind result_bind]. rewrite blk_page by lia. cbn [mbind result_bind].
    rewrite page_slice by (unfold PAGE_SZ in *; lia). cbn [mbind result_bind]. exists (n + 1), (4 - (PAGE_SZ - off)). split; [|unfold PAGE_SZ in *; lia]. do 2 f_equal.
    replace (n * PAGE_SZ + PAGE_SZ) with ((n + 1) * PAGE_SZ + 0) by lia. rewrite cut_app by (unfold PAGE_SZ in *; lia). f_equal. lia.
  - rewrite page_slice by (unfold PAGE_SZ in *; lia). cbn [mbind result_bind]. exists n, (off + 4). split; [|unfold PAGE_SZ in *; lia]. do 3 f_equal. lia.
Qed.

Lemma lookup_page n off : 0 ≤ n → 0 ≤ off < PAGE_SZ → (n + 1) * PAGE_SZ ≤ blen f → page n !! Z.to_nat off = head (cut (n * PAGE_SZ + off) (blen f) f).
Proof.
  intros. unfold cut. rewrite lookup_take_lt by (unfold PAGE_SZ in *; lia). rewrite lookup_drop. rewrite head_lookup, lookup_take_lt by (unfold PAGE_SZ in *; lia).
  rewrite lookup_drop. f_equal. unfold PAGE_SZ in *. lia.
Qed.

(** A blob at an offset is read back. *)
Lemma read_blob_spec src alg offset : blen src ≤ MAX_SUPPORTED_BLOB_LEN → 0 ≤ offset →
  offset + blen (blob_bytes alg src) ≤ blen f → cut offset (offset + blen (blob_bytes alg src)) f = blob_bytes alg src →
  BlockCursor.read_blob (blocks_of f) true offset = Ok src.
Proof.
  intros Hs Ho Hend Hcut. pose proof (blob_bytes_nonempty src alg Hs) as Hne. set (n := offset / PAGE_SZ). set (off := offset mod PAGE_SZ).
  assert (offset = n * PAGE_SZ + off ∧ 0 ≤ n ∧ 0 ≤ off < PAGE_SZ) as (Eo & Hn & Hoff).
  { unfold n, off, PAGE_SZ. pose proof (Z.div_mod offset 8192). pose proof (Z.mod_pos_bound offset 8192). lia. }
  assert ((n + 1) * PAGE_SZ ≤ blen f) as Hpage by (apply (page_inside n offset); unfold PAGE_SZ in *; lia).
  unfold BlockCursor.read_blob. fold off. rewrite Z.mod_small by (unfold PAGE_SZ in *; lia). fold n. rewrite blk_page by lia. cbn [mbind result_bind]. rewrite lookup_page by lia.
  rewrite <-Eo. rewrite <-(cut_app offset (offset + blen (blob_bytes alg src)) (blen f) f), Hcut by lia. destruct (decide (blen src < 128)) as [Hsmall|Hlarge].
  - revert Hend Hcut. unfold blob_bytes. rewrite (proj2 (Z.ltb_lt _ _)) by done. assert (blen (blen src :: src) = 1 + blen src) as -> by (unfold blen; cbn; lia). intros Hend Hcut.
    pose proof (blen_nonneg src). cbn [app head]. rewrite (proj2 (Z.ltb_lt _ _)) by lia. cbn [mbind result_bind].
    assert (Z.land (blen src) LEN_COMPRESSION_BIT_MASK <=? BYTE_UNCOMPRESSED = true) as ->.
    { assert (forallb (λ l, Z.land l LEN_COMPRESSION_BIT_MASK <=? BYTE_UNCOMPRESSED) (seqZ 0 128) = true) as Hall by done.
      rewrite forallb_forall in Hall. apply Hall, list_elem_of_In, elem_of_seqZ. lia. }
    cbn [orb]. rewrite read_payload_spec by (unfold PAGE_SZ in *; lia). cbn [app]. f_equal.
    destruct (cut_halves offset [blen src] src f Ho) as [_ Hd]; [by rewrite blen_app|]. change (blen [blen src]) with 1 in Hd.
    etrans; [|exact Hd]. f_equal; unfold PAGE_SZ in *; lia.
  - destruct (blob_bytes_large src alg) as (m & data & b & x & y & z & _ & _ & Hb & Hv & Hm & Hu & Eb); [lia|].
    destruct (first_byte b m Hb Hm) as (_ & Hfb & Hbits & Hlow). revert Hend Hcut. rewrite Eb.
    assert (blen ((Z.lor b m :: [x; y; z]) ++ data) = 4 + blen data) as -> by (unfold blen; cbn; lia). intros Hend Hcut.
    pose proof (blen_nonneg data). cbn [app head]. rewrite (proj2 (Z.ltb_ge _ _)) by lia.
    destruct (read_len_spec n off) as (n' & off' & -> & Hn' & Hoff' & Hpage' & Epos); [lia|lia|lia|]. cbn [mbind result_bind fst snd]. rewrite <-Eo in *.
    destruct (cut_halves offset [Z.lor b m; x; y; z] data f Ho) as [Hh Hd]; [by rewrite blen_app|]. change (blen [Z.lor b m; x; y; z]) with 4 in Hh, Hd. rewrite Hh.
    rewrite Hlow, Hv, Hbits. cbn [mbind result_bind]. assert (BlockCursor.read_payload (blocks_of f) (Z.to_nat (blen data)) n' (page n') off' (blen data) [] = Ok data) as ->.
    { rewrite read_payload_spec by (unfold PAGE_SZ in *; lia). cbn [app]. f_equal. by rewrite Epos. }
    destruct Hm as [-> | ->]; [by injection Hu as ->|]. change (zstd_decode data = Some src) in Hu. cbn. by rewrite Hu.
Qed.
End blocks.

(** ** Files of blobs *)

Definition padding (x : bytes) : bytes := zeros (next_multiple_of (blen x) PAGE_SZ - blen x).

Lemma padded_whole x : blen (x ++ padding x) = next_multiple_of (blen x) PAGE_SZ ∧ blen (x ++ padding x) mod PAGE_SZ = 0.
Proof.
  destruct (next_multiple_of_spec (blen x) PAGE_SZ) as [? E]; [done|]. unfold padding. rewrite blen_app, blen_zeros by lia.
  replace (blen x + (next_multiple_of (blen x) PAGE_SZ - blen x)) with (next_multiple_of (blen x) PAGE_SZ) by lia. done.
Qed.

Lemma writer_shutdown s0 x w : writer_good s0 x w →
  ∃ f w', BlobWriter.shutdown (BufferedWriter.ZeroPadToNextMultiple PAGE_SZ) w = (Ok f, w') ∧ on_disk s0 f (x ++ padding x).
Proof.
  intros (Hc & _ & Hcalm & a & b & m & k & Hp & Hf & Hm & <-).
  destruct (shutdown_pads s0 (BlobWriter.writer w) a b m k PAGE_SZ Hp Hf ltac:(lia) Hcalm ltac:(done)) as (f & w' & E & Hd); [exists 8; by rewrite Hc|].
  cbv zeta in E. unfold BlobWriter.shutdown. rewrite E. eexists f, _. split; [done|]. exact Hd.
Qed.

Fixpoint write_blobs (l : list (ImageCompressionAlgorithm * bytes)) : M BlobWriter.t WriteBlobError (list Z) :=
  match l with
  | [] => mret []
  | (alg, src) :: l => r ← BlobWriter.write_blob_maybe_compressed src alg; offsets ← write_blobs l; mret (r.1 :: offsets)
  end.

(** The blobs are at their offsets. *)
Definition blob_at (f : bytes) (off : Z) (alg : ImageCompressionAlgorithm) (src : bytes) : Prop :=
  0 ≤ off ∧ off + blen (blob_bytes alg src) ≤ blen f ∧ cut off (off + blen (blob_bytes alg src)) f = blob_bytes alg src.

Lemma blob_at_disk s0 f x y alg src : 0 ≤ s0 → blen src ≤ MAX_SUPPORTED_BLOB_LEN → on_disk s0 f (x ++ blob_bytes alg src ++ y) → blob_at f (s0 + blen x) alg src.
Proof.
  intros Hs Hsrc Hd. pose proof (blob_bytes_nonempty src alg Hsrc). pose proof (blen_nonneg x). pose proof (blen_nonneg y).
  assert (x ++ blob_bytes alg src ++ y ≠ []) as Hne by (intros E; apply (f_equal blen) in E; rewrite !blen_app in E; change (blen (@nil Z)) with 0 in E; lia).
  pose proof (on_disk_len s0 f _ Hs Hd Hne) as Hlen. rewrite !blen_app in Hlen. split_and!; [lia|lia|].
  replace (s0 + blen x + blen (blob_bytes alg src)) with (s0 + (blen x + blen (blob_bytes alg src))) by lia.
  rewrite (on_disk_cut s0 f _ _ _ Hs Hd) by (rewrite ?blen_app; lia). apply cut_mid.
Qed.

Lemma write_blobs_good s0 l x w : writer_good s0 x w → Forall (λ y, blen y.2 ≤ MAX_SUPPORTED_BLOB_LEN) l →
  ∃ offsets z w', write_blobs l w = (Ok offsets, w') ∧ writer_good s0 (x ++ z) w' ∧ (l ≠ [] → z ≠ []) ∧
    ∀ f rest, 0 ≤ s0 → on_disk s0 f (x ++ z ++ rest) → Forall2 (λ off y, blob_at f off y.1 y.2) offsets l.
Proof.
  revert x w. induction l as [|[alg src] l IH]; intros x w Hg Hall.
  { exists [], [], w. rewrite app_nil_r. split_and!; [done|done|done|]. constructor. }
  apply Forall_cons in Hall as [Hsrc Hall]. cbn in Hsrc. cbn [write_blobs]. destruct (write_blob_good s0 x w src alg Hg Hsrc) as (info & w1 & E1 & Hg1).
  rewrite (M_bind_ok _ _ _ _ _ E1). destruct (IH _ w1 Hg1 Hall) as (offsets & z & w' & E2 & Hg2 & _ & Hat). rewrite (M_bind_ok _ _ _ _ _ E2).
  exists ((s0 + blen x) :: offsets), (blob_bytes alg src ++ z), w'. split_and!; [done|by rewrite app_assoc| |].
  - intros _ E. apply app_eq_nil in E as [E _]. apply (f_equal blen) in E. pose proof (blob_bytes_nonempty src alg Hsrc). change (blen (@nil Z)) with 0 in E. lia.
  - intros f rest Hs Hd. constructor.
    + cbn. apply (blob_at_disk s0 f x (z ++ rest)); [done..|]. by rewrite <-app_assoc in Hd.
    + apply (Hat f rest Hs). by rewrite <-!app_assoc in Hd |- *.
Qed.

(** C21: Blobs read back: whatever blobs are written one after the other, with or without
    compression, each one is read from the padded file at the offset that its write
    returned. *)
Theorem blob_roundtrip s0 l : 0 ≤ s0 → s0 mod PAGE_SZ = 0 → Forall (λ y, blen y.2 ≤ MAX_SUPPORTED_BLOB_LEN) l →
  ∃ offsets w f w', write_blobs l (BlobWriter.new [] s0 []) = (Ok offsets, w) ∧
    BlobWriter.shutdown (BufferedWriter.ZeroPadToNextMultiple PAGE_SZ) w = (Ok f, w') ∧
    (blen f ≤ 2 ^ 32 * PAGE_SZ → Forall2 (λ off y, BlockCursor.read_blob (blocks_of f) true off = Ok y.2) offsets l).
Proof.
  intros Hs Hmod Hall. destruct (write_blobs_good s0 l [] (BlobWriter.new [] s0 [])) as (offsets & z & w & E & Hg & Hz & Hat); [by apply writer_new|done|].
  destruct (writer_shutdown s0 _ w Hg) as (f & w' & E' & Hd). exists offsets, w, f, w'. split_and!; [done..|]. intros Hfew. cbn [app] in *.
  specialize (Hat f (padding z) Hs Hd). destruct (decide (l = [])) as [->|Hne]; [apply Forall2_nil_inv_r in Hat as ->; constructor|].
  assert (blen f mod PAGE_SZ = 0) as Hwhole.
  { rewrite (on_disk_len s0 f _ Hs Hd); [|intros E0; apply app_eq_nil in E0 as [E0 _]; by apply Hz]. rewrite Z.add_mod, Hmod by done.
    by rewrite (proj2 (padded_whole z)). }
  clear E Hz Hne. induction Hat as [|off [alg src] offs l (? & ? & ?) _ IH]; constructor; apply Forall_cons in Hall as [? Hall]; [|auto].
  by apply (read_blob_spec f Hwhole Hfew src alg).
Qed.
End blobs.

(** A compression for the witness: a run of zeros becomes its length. *)
#[local] Instance toy_zstd : Zstd := {| zstd_encode _ b := match b with 0 :: _ => if decide (b = zeros (blen b)) then [0; blen b] else 1 :: b | _ => 1 :: b end;
  zstd_decode c := match c with [0; n] => Some (zeros n) | 1 :: b => Some b | _ => None end |}.
#[local] Instance toy_zstd_laws : ZstdLaws.
Proof. split. intros level b. cbn. destruct b as [|x b]; [done|]. destruct x; [|done..]. destruct (decide _) as [E|_]; [|done]. by rewrite <-E. Qed.

Lemma blob_roundtrip_witness : ∃ offsets w f w',
  write_blobs [(Disabled, [1; 2; 3]); (ZstdLevel None, zeros 300); (Disabled, zeros 200)] (BlobWriter.new [] 8192 []) = (Ok offsets, w) ∧
  BlobWriter.shutdown (BufferedWriter.ZeroPadToNextMultiple PAGE_SZ) w = (Ok f, w') ∧
  (blen f ≤ 2 ^ 32 * PAGE_SZ → Forall2 (λ off y, BlockCursor.read_blob (blocks_of f) true off = Ok y.2) offsets
    [(Disabled, [1; 2; 3]); (ZstdLevel None, zeros 300); (Disabled, zeros 200)]).
Proof. apply (blob_roundtrip 8192); [done|done|]. repeat (constructor; [vm_compute; congruence|]). constructor. Defined.
