(* ===== verification/VectoredBlobs.v ===== *)
(** Vectored reads of blobs, [pageserver/src/tenant/vectored_blob_io.rs]: a plan collects
    the blobs of the keys that are asked for, joins those that are close to each other
    into reads of whole chunks, and takes the blobs apart that a read returns.

    A file is the string of its bytes; [disk_reads] tells which of its parts the disk
    reads.  Sizes are [usize], whose arithmetic wraps. *)

From S2P Require Import Prelude Text OrdMaps Lsns Keys KeysFacts FileBytes VecMaps BufferedWriters Blobs.
Local Open Scope Z_scope.

#[global] Instance Key_cmp : TotalCmp Key := Key.cmp.

(** * Blobs of a read *)

Record BlobMeta := MkMeta { bm_key : Key; bm_lsn : Lsn; bm_will_init : bool }.

Inductive BlobIoError := ReadExactFailed | InvalidHeader | InvalidCompression | DecoderFailed.

Module VectoredBlob.
Record t := Mk { meta : BlobMeta; header_start : Z; data_start : Z; end_ : Z; compression_bits : Z }.

(** [BufView::view] *)
Definition view (start end_ : Z) (buf : bytes) : result BlobIoError bytes := slice_of start end_ buf.

Definition read `{Zstd} (self : t) (buf : bytes) : result BlobIoError bytes :=
  v ← view (data_start self) (end_ self) buf;
  if compression_bits self =? BYTE_UNCOMPRESSED then Ok v
  else if compression_bits self =? BYTE_ZSTD then of_option DecoderFailed (zstd_decode v)
  else Err InvalidCompression.

Definition raw_with_header (self : t) (buf : bytes) : result BlobIoError bytes := view (header_start self) (end_ self) buf.
End VectoredBlob.

Record VectoredBlobsBuf := MkBlobsBuf { vb_buf : bytes; vb_blobs : list VectoredBlob.t }.

Module VectoredRead.
Record t := Mk { start : Z; end_ : Z; blobs_at : VecMap.t Z BlobMeta }.

Definition size (self : t) : Z := wrapping_sub 64 (end_ self) (start self).
End VectoredRead.

(** * Joining blobs *)

Module ChunkedVectoredReadBuilder.
Record t := Mk { start_blk_no : Z; end_blk_no : Z; blobs_at : VecMap.t Z BlobMeta; max_read_size : option Z }.

Definition CHUNK_SIZE : Z := 512.
Definition div_ceil (n m : Z) : Z := (n + (m - 1)) / m.

Definition new_impl (start_offset end_offset : Z) (meta : BlobMeta) (max_read_size : option Z) : t :=
  Mk (start_offset / CHUNK_SIZE) (div_ceil end_offset CHUNK_SIZE) (VecMap.push start_offset meta VecMap.default) max_read_size.

Definition new (start_offset end_offset : Z) (meta : BlobMeta) (max_read_size : Z) : t := new_impl start_offset end_offset meta (Some max_read_size).
Definition new_streaming (start_offset end_offset : Z) (meta : BlobMeta) : t := new_impl start_offset end_offset meta None.

Definition size_to (self : t) (end_blk_no : Z) : Z := wrap 64 (wrapping_sub 64 end_blk_no (start_blk_no self) * CHUNK_SIZE).

(** [VectoredReadExtended] as a boolean; a blob that is not behind the others panics. *)
Definition extend (start end_ : Z) (meta : BlobMeta) (self : t) : result unit (bool * t) :=
  let start_blk_no' := start / CHUNK_SIZE in
  let end_blk_no' := div_ceil end_ CHUNK_SIZE in
  let not_limited_by_max_read_size :=
    match max_read_size self with Some max_read_size => size_to self end_blk_no' <=? max_read_size | None => true end in
  let is_adjacent_chunk_read := (end_blk_no self =? start_blk_no' + 1) || (end_blk_no self =? start_blk_no') in
  if is_adjacent_chunk_read && not_limited_by_max_read_size then
    match VecMap.append start meta (blobs_at self) with
    | (Ok _, blobs_at) => Ok (true, Mk (start_blk_no self) end_blk_no' blobs_at (max_read_size self))
    | _ => Panic
    end
  else Ok (false, self).

Definition size (self : t) : Z := size_to self (end_blk_no self).

Definition build (self : t) : VectoredRead.t :=
  VectoredRead.Mk (start_blk_no self * CHUNK_SIZE) (end_blk_no self * CHUNK_SIZE) (blobs_at self).
End ChunkedVectoredReadBuilder.

(** * The planner *)

Inductive BlobFlag := FlagNone | FlagIgnore | FlagReplaceAll.

Module VectoredReadPlanner.
Abbreviation Builder := ChunkedVectoredReadBuilder.t.

(** A blob of a key: its LSN, start, end, and whether it initializes the page. *)
Definition Entry : Type := Z * Z * Z * bool.

Record t := Mk { blobs : list (Key * list Entry); prev : option (Key * Lsn * Z * BlobFlag); max_read_size : Z }.

Definition new (max_read_size : Z) : t := Mk [] None max_read_size.

Definition add_blob (key : Key) (lsn : Lsn) (start_offset end_offset : Z) (flag : BlobFlag) (self : t) : t :=
  let blobs_for_key := default [] (bt_get key (blobs self)) in
  match flag with
  | FlagNone => Mk (bt_insert key (blobs_for_key ++ [(lsn, start_offset, end_offset, false)]) (blobs self)) (prev self) (max_read_size self)
  | FlagReplaceAll => Mk (bt_insert key [(lsn, start_offset, end_offset, true)] (blobs self)) (prev self) (max_read_size self)
  | FlagIgnore => self
  end.

Definition set_prev p (self : t) : t := Mk (blobs self) p (max_read_size self).

(** The blob before this one ends here. *)
Definition add_prev (offset : Z) (self : t) : t :=
  match prev self with
  | Some (prev_key, prev_lsn, prev_offset, prev_flag) => add_blob prev_key prev_lsn prev_offset offset prev_flag self
  | None => self
  end.

Definition handle (key : Key) (lsn : Lsn) (offset : Z) (flag : BlobFlag) (self : t) : t :=
  set_prev (Some (key, lsn, offset, flag)) (add_prev offset self).

Definition handle_range_end (offset : Z) (self : t) : t := set_prev None (add_prev offset self).

(** One blob of [finish]: the builder that is open, and the reads that are complete. *)
Definition finish_blob (max_read_size : Z) (key : Key) (e : Entry) (s : option Builder * list VectoredRead.t) :
    result unit (option Builder * list VectoredRead.t) :=
  let '(lsn, start_offset, end_offset, will_init) := e in
  let '(current_read_builder, reads) := s in
  let meta := MkMeta key lsn will_init in
  let next_read_builder := ChunkedVectoredReadBuilder.new start_offset end_offset meta max_read_size in
  match current_read_builder with
  | None => Ok (Some next_read_builder, reads)
  | Some read_builder =>
      r ← ChunkedVectoredReadBuilder.extend start_offset end_offset meta read_builder;
      let '(extended, read_builder) := r in
      Ok (if extended : bool then (Some read_builder, reads)
          else (Some next_read_builder, reads ++ [ChunkedVectoredReadBuilder.build read_builder]))
  end.

Fixpoint finish_blobs (max_read_size : Z) (l : list (Key * Entry)) (s : option Builder * list VectoredRead.t) :
    result unit (option Builder * list VectoredRead.t) :=
  match l with
  | [] => Ok s
  | (key, e) :: l => s ← finish_blob max_read_size key e s; finish_blobs max_read_size l s
  end.

Definition all_blobs (self : t) : list (Key * Entry) := concat (map (λ x, map (pair x.1) x.2) (blobs self)).

Definition finish (self : t) : result unit (list VectoredRead.t) :=
  s ← finish_blobs (max_read_size self) (all_blobs self) (None, []);
  let '(current_read_builder, reads) := s in
  Ok (match current_read_builder with Some read_builder => reads ++ [ChunkedVectoredReadBuilder.build read_builder] | None => reads end).
End VectoredReadPlanner.

(** * Reading *)

Module VectoredBlobReader.
Section reader.
Context (disk_reads : Z → Z → bool) (file : bytes).

(** Where the blobs are in the buffer, from the headers. *)
Fixpoint blob_offsets (start : Z) (buf : bytes) (blobs_at : list (Z * BlobMeta)) : result BlobIoError (list VectoredBlob.t) :=
  match blobs_at with
  | [] => Ok []
  | (blob_start, meta) :: blobs_at =>
      let header_start := wrapping_sub 64 blob_start start in
      rest ← (if header_start <=? blen buf then Ok (cut header_start (blen buf) buf) else Panic);
      header ← map_err (λ _, InvalidHeader) (Header.decode rest);
      let data_start := header_start + Header.header_len header in
      blobs ← blob_offsets start buf blobs_at;
      Ok (VectoredBlob.Mk meta header_start data_start (data_start + Header.data_len header) (Header.compression_bits header) :: blobs)
  end.

(** [capacity]: that of the buffer *)
Definition read_blobs (read : VectoredRead.t) (capacity : Z) : result BlobIoError VectoredBlobsBuf :=
  let size := VectoredRead.size read in
  if (0 <? size) && (size <=? capacity) then
    buf ← map_err (λ _, ReadExactFailed) (EphemeralFile.read_exact_at disk_reads (VectoredRead.start read) size file);
    blobs ← blob_offsets (VectoredRead.start read) buf (VecMap.as_slice (VectoredRead.blobs_at read));
    Ok (MkBlobsBuf buf blobs)
  else Panic.
End reader.
End VectoredBlobReader.

(** * Streams of reads *)

Module StreamingVectoredReadPlanner.
Record t := Mk { read_builder : option ChunkedVectoredReadBuilder.t; prev : option (Key * Lsn * Z * bool); max_read_size : Z; max_cnt : Z; cnt : Z }.

Definition new (max_read_size max_cnt : Z) : result unit t :=
  if (0 <? max_cnt) && (0 <? max_read_size) then Ok (Mk None None max_read_size max_cnt 0) else Panic.

Definition add_blob (key : Key) (lsn : Lsn) (start_offset end_offset : Z) (is_last_blob_in_read will_init : bool) (self : t) :
    result unit (option VectoredRead.t * t) :=
  let meta := MkMeta key lsn will_init in
  builder ← match read_builder self with
            | Some b =>
                r ← ChunkedVectoredReadBuilder.extend start_offset end_offset meta b;
                if (r.1 : bool) then Ok r.2 else Panic
            | None => Ok (ChunkedVectoredReadBuilder.new_streaming start_offset end_offset meta)
            end;
  let cnt := cnt self + 1 in
  if is_last_blob_in_read || (max_read_size self <=? ChunkedVectoredReadBuilder.size builder) || (max_cnt self <=? cnt) then
    Ok (Some (ChunkedVectoredReadBuilder.build builder), Mk None (prev self) (max_read_size self) (max_cnt self) 0)
  else Ok (None, Mk (Some builder) (prev self) (max_read_size self) (max_cnt self) cnt).

Definition set_prev p (self : t) : t := Mk (read_builder self) p (max_read_size self) (max_cnt self) (cnt self).

Definition handle (key : Key) (lsn : Lsn) (offset : Z) (will_init : bool) (self : t) : result unit (option VectoredRead.t * t) :=
  r ← match prev self with
      | None => Ok (None, self)
      | Some (prev_key, prev_lsn, prev_offset, prev_will_init) => add_blob prev_key prev_lsn prev_offset offset false prev_will_init self
      end;
  Ok (r.1, set_prev (Some (key, lsn, offset, will_init)) r.2).

Definition handle_range_end (offset : Z) (self : t) : result unit (option VectoredRead.t * t) :=
  r ← match prev self with
      | Some (prev_key, prev_lsn, prev_offset, prev_will_init) => add_blob prev_key prev_lsn prev_offset offset true prev_will_init self
      | None => Ok (None, self)
      end;
  Ok (r.1, set_prev None r.2).
End StreamingVectoredReadPlanner.
