(* ===== verification/VectoredBlobFacts.v ===== *)
(** Facts of vectored reads of blobs: the reads of a plan cover the blobs that were
    handed to it, in their order, and what is read are the blobs. *)

From S2P Require Import Prelude Text OrdMaps Lsns Keys KeysFacts FileBytes VecMaps BufferedWriters BufferedWriterFacts DiskBtrees Blobs BlobFacts VectoredBlobs.
Local Open Scope Z_scope.

#[global] Instance Key_cmp_laws : TotalCmpLaws Key.
Proof.
  split; unfold kcmp, Key_cmp.
  - intros a b. split; [apply cmp_eq|]. intros <-. unfold Key.cmp. by rewrite !Z.compare_refl.
  - intros a b. unfold Key.cmp. rewrite (Z.compare_antisym (field1 a)), (Z.compare_antisym (field2 a)), (Z.compare_antisym (field3 a)),
      (Z.compare_antisym (field4 a)), (Z.compare_antisym (field5 a)), (Z.compare_antisym (field6 a)).
    destruct (field1 a ?= field1 b); [|done..]. destruct (field2 a ?= field2 b); [|done..]. destruct (field3 a ?= field3 b); [|done..].
    destruct (field4 a ?= field4 b); [|done..]. by destruct (field5 a ?= field5 b).
  - intros a b c H1 H2. assert (key_lt a c) as H3; [|unfold key_lt, Key.ltb in H3; by destruct (Key.cmp a c)].
    assert (key_lt a b) by (unfold key_lt, Key.ltb; by rewrite H1). assert (key_lt b c) by (unfold key_lt, Key.ltb; by rewrite H2). key_order.
Qed.

Abbreviation Blob := (Key * VectoredReadPlanner.Entry)%type.
Definition b_lsn (x : Blob) : Z := x.2.1.1.1.
Definition b_start (x : Blob) : Z := x.2.1.1.2.
Definition b_end (x : Blob) : Z := x.2.1.2.
Definition b_init (x : Blob) : bool := x.2.2.
Definition b_meta (x : Blob) : BlobMeta := MkMeta x.1 (b_lsn x) (b_init x).

(** The chunk of a number, and the next chunk border. *)
Definition CHUNK : Z := ChunkedVectoredReadBuilder.CHUNK_SIZE.
Abbreviation ceil n := (ChunkedVectoredReadBuilder.div_ceil n CHUNK).

Ltac chunk_lia := unfold CHUNK, ChunkedVectoredReadBuilder.CHUNK_SIZE in *; lia.

Lemma chunk_floor n : 0 ≤ n → 0 ≤ n / CHUNK ∧ n / CHUNK * CHUNK ≤ n < (n / CHUNK + 1) * CHUNK.
Proof. intros Hn. unfold CHUNK, ChunkedVectoredReadBuilder.CHUNK_SIZE. pose proof (Z.div_mod n 512). pose proof (Z.mod_pos_bound n 512). lia. Qed.

Lemma chunk_ceil n : (ceil n - 1) * CHUNK < n ≤ ceil n * CHUNK.
Proof.
  unfold ChunkedVectoredReadBuilder.div_ceil, CHUNK, ChunkedVectoredReadBuilder.CHUNK_SIZE. pose proof (Z.div_mod (n + (512 - 1)) 512). pose proof (Z.mod_pos_bound (n + (512 - 1)) 512). lia.
Qed.

Section reads.
(** The end of the values; a border of chunks *)
Context (D : Z) (HD : 0 ≤ D < 2 ^ 63) (Hchunks : D mod CHUNK = 0).

Lemma ceil_below n : n ≤ D → ceil n * CHUNK ≤ D.
Proof.
  intros Hn. pose proof (chunk_ceil n). pose proof (Z.div_mod D CHUNK ltac:(done)) as E. rewrite Hchunks in E. unfold CHUNK, ChunkedVectoredReadBuilder.CHUNK_SIZE in *.
  set (d := D / 512) in *. nia.
Qed.

(** Blobs one after the other. *)
Definition in_place (x : Blob) : Prop := 0 ≤ b_start x < b_end x ∧ b_end x ≤ D.
Definition in_order (l : list Blob) : Prop := Forall in_place l ∧ StronglySorted (λ x y, b_end x ≤ b_start y) l.

Definition entries_of (l : list Blob) : list (Z * BlobMeta) := (λ x, (b_start x, b_meta x)) <$> l.

(** A read that covers blobs. *)
Definition read_has (r : VectoredRead.t) (xs : list Blob) : Prop :=
  VecMap.data (VectoredRead.blobs_at r) = entries_of xs ∧ xs ≠ [] ∧ 0 ≤ VectoredRead.start r < VectoredRead.end_ r ∧ VectoredRead.end_ r ≤ D ∧
  VectoredRead.start r mod CHUNK = 0 ∧ Forall (λ x, VectoredRead.start r ≤ b_start x ∧ b_end x ≤ VectoredRead.end_ r) xs.

Definition builder_has (b : ChunkedVectoredReadBuilder.t) (xs : list Blob) : Prop :=
  read_has (ChunkedVectoredReadBuilder.build b) xs ∧ VecMap.ordering (ChunkedVectoredReadBuilder.blobs_at b) = Greater ∧ in_order xs.

Lemma read_has_new x m : in_place x → builder_has (ChunkedVectoredReadBuilder.new_impl (b_start x) (b_end x) (b_meta x) m) [x].
Proof.
  intros (Hs & He). pose proof (chunk_floor (b_start x) ltac:(lia)). pose proof (chunk_ceil (b_end x)). pose proof (ceil_below _ He).
  split; [|split; [done|split; repeat constructor; cbn; lia]].
  unfold read_has, ChunkedVectoredReadBuilder.new_impl, ChunkedVectoredReadBuilder.build.
  cbn [ChunkedVectoredReadBuilder.start_blk_no ChunkedVectoredReadBuilder.end_blk_no ChunkedVectoredReadBuilder.blobs_at VectoredRead.blobs_at VectoredRead.start VectoredRead.end_].
  split_and!; [done|done|chunk_lia|chunk_lia|chunk_lia|apply Z_mod_mult|constructor; [chunk_lia|constructor]].
Qed.

Lemma in_order_app l1 l2 : in_order (l1 ++ l2) ↔ in_order l1 ∧ in_order l2 ∧ ∀ x y, x ∈ l1 → y ∈ l2 → b_end x ≤ b_start y.
Proof. unfold in_order. rewrite Forall_app, StronglySorted_app. tauto. Qed.

Lemma entries_ascending xs : in_order xs → bt_wf (entries_of xs).
Proof.
  intros [Hin Hs]. induction Hs as [|x xs _ IH Hx]; [constructor|]. apply Forall_cons in Hin as [[Hx0 _] Hin]. constructor; [by apply IH|].
  rewrite Forall_forall in Hx. apply Forall_forall. intros y (z & -> & Hz)%list_elem_of_fmap. specialize (Hx z Hz). apply klt_Z. cbn [fst]. lia.
Qed.

Lemma extend_spec b xs x : builder_has b xs → in_order (xs ++ [x]) →
  ∃ ext b', ChunkedVectoredReadBuilder.extend (b_start x) (b_end x) (b_meta x) b = Ok (ext, b') ∧ (if ext : bool then builder_has b' (xs ++ [x]) else b' = b).
Proof.
  intros ((Ed & Hne & Hse & HeD & Hm & Hall) & Ho & _) Hord. pose proof Hord as (Hxs & [[[Hs He] _]%Forall_cons _] & Hx)%in_order_app.
  unfold ChunkedVectoredReadBuilder.extend. destruct (_ && _) eqn:Ea; [|by eexists _, _]. clear Ea.
  cbn [ChunkedVectoredReadBuilder.build VectoredRead.blobs_at VectoredRead.start VectoredRead.end_] in *.
  destruct (vec_append_spec (ChunkedVectoredReadBuilder.blobs_at b) (b_start x) (b_meta x)) as [-> [Ho' _]].
  { split; [done|]. rewrite Ed. by apply entries_ascending. }
  { intros y. rewrite Ed. unfold entries_of. rewrite fmap_last. destruct (last xs) as [z|] eqn:Ez; [|done]. intros [= <-]. apply klt_Z. cbn [fst].
    apply last_Some in Ez as [xs' ->]. apply in_order_app in Hxs as (_ & [[[? _] _]%Forall_cons _] & _).
    specialize (Hx z x ltac:(apply elem_of_app; right; by apply list_elem_of_singleton) ltac:(by apply list_elem_of_singleton)). lia. }
  eexists _, _. split; [done|]. split; [|by split]. pose proof (chunk_ceil (b_end x)). pose proof (ceil_below _ He). unfold read_has, VecMap.push.
  cbn [ChunkedVectoredReadBuilder.build ChunkedVectoredReadBuilder.blobs_at ChunkedVectoredReadBuilder.start_blk_no ChunkedVectoredReadBuilder.end_blk_no
    VecMap.data VectoredRead.blobs_at VectoredRead.start VectoredRead.end_]. rewrite Ed. unfold entries_of. rewrite fmap_app.
  assert (∃ y, y ∈ xs) as [y Hy] by (destruct xs as [|y ?]; [done|exists y; by left]).
  assert (∀ y, y ∈ xs → ChunkedVectoredReadBuilder.start_blk_no b * ChunkedVectoredReadBuilder.CHUNK_SIZE ≤ b_start y ∧ b_start y < b_end y ≤ b_start x) as Hys.
  { intros z Hz. rewrite Forall_forall in Hall. split; [by apply Hall|]. split; [|apply Hx; [done|by apply list_elem_of_singleton]].
    destruct Hxs as [Hp _]. rewrite Forall_forall in Hp. destruct (Hp z Hz). lia. }
  pose proof (Hys y Hy). split_and!; [done|by intros [_ ?]%app_eq_nil|lia|chunk_lia|chunk_lia|done|].
  apply Forall_app. split; [|constructor; [chunk_lia|constructor]]. apply Forall_forall. intros z Hz. specialize (Hys z Hz). chunk_lia.
Qed.

(** The state of [finish] after blobs [l]. *)
Definition finished (s : option ChunkedVectoredReadBuilder.t * list VectoredRead.t) (l : list Blob) : Prop :=
  ∃ xss xs, Forall2 read_has s.2 xss ∧ concat xss ++ xs = l ∧ match s.1 with Some b => builder_has b xs | None => xs = [] end.

Lemma finish_blob_spec m x s l : finished s l → in_order (l ++ [x]) →
  ∃ s', VectoredReadPlanner.finish_blob m x.1 x.2 s = Ok s' ∧ finished s' (l ++ [x]).
Proof.
  destruct x as [key [[[lsn st] en] init]]. set (x := (key, (lsn, st, en, init)) : Blob). destruct s as [cur reads].
  intros (xss & xs & Hr & <- & Hcur) Hord. assert (in_place x) as Hx by (apply in_order_app in Hord as (_ & [[? _]%Forall_cons _] & _); done).
  pose proof (read_has_new x (Some m) Hx) as Hnew. unfold VectoredReadPlanner.finish_blob. cbn [fst snd x] in *. destruct cur as [b|].
  - rewrite <-app_assoc in Hord. apply in_order_app in Hord as (_ & Hord & _). destruct (extend_spec b xs x Hcur Hord) as (ext & b' & E & Hb').
    change (ChunkedVectoredReadBuilder.extend st en (MkMeta key lsn init) b = Ok (ext, b')) in E. rewrite E. cbn [mbind result_bind]. destruct ext; eexists; (split; [done|]).
    + exists xss, (xs ++ [x]). by rewrite app_assoc.
    + exists (xss ++ [xs]), [x]. split_and!; [|by rewrite concat_app; cbn; rewrite app_nil_r|done].
      apply Forall2_app; [done|]. constructor; [subst b'; apply Hcur|constructor].
  - eexists; split; [done|]. subst xs. exists xss, [x]. split_and!; [done|by rewrite app_nil_r|done].
Qed.

Lemma finish_blobs_spec m l s l0 : finished s l0 → in_order (l0 ++ l) →
  ∃ s', VectoredReadPlanner.finish_blobs m l s = Ok s' ∧ finished s' (l0 ++ l).
Proof.
  revert s l0. induction l as [|x l IH]; intros s l0 Hs Hord; [exists s; by rewrite app_nil_r|].
  replace (l0 ++ x :: l) with ((l0 ++ [x]) ++ l) in * by (by rewrite <-app_assoc).
  destruct (finish_blob_spec m x s l0 Hs) as (s1 & E & Hs1); [by apply in_order_app in Hord as [? _]|].
  destruct (IH s1 _ Hs1 Hord) as (s' & E' & Hs'). exists s'. split; [|done]. destruct x as [key e]. cbn [VectoredReadPlanner.finish_blobs fst snd] in *.
  rewrite E. done.
Qed.

Lemma planner_finish_spec p : in_order (VectoredReadPlanner.all_blobs p) →
  ∃ reads xss, VectoredReadPlanner.finish p = Ok reads ∧ Forall2 read_has reads xss ∧ concat xss = VectoredReadPlanner.all_blobs p.
Proof.
  intros Hord. destruct (finish_blobs_spec (VectoredReadPlanner.max_read_size p) _ (None, []) [] ltac:(by exists [], []) Hord) as ([cur reads] & E & xss & xs & Hr & El & Hcur).
  unfold VectoredReadPlanner.finish. rewrite E. cbn [mbind result_bind]. cbn [fst snd app] in *. destruct cur as [b|].
  - exists (reads ++ [ChunkedVectoredReadBuilder.build b]), (xss ++ [xs]). split_and!; [done| |by rewrite concat_app; cbn; rewrite app_nil_r].
    apply Forall2_app; [done|]. constructor; [apply Hcur|constructor].
  - subst xs. exists reads, xss. by rewrite app_nil_r in El.
Qed.

(** ** What is read *)

Context `{ZstdLaws} (f : bytes) (content : Z → ImageCompressionAlgorithm * bytes).
Abbreviation bytes_at off := (blob_bytes (content off).1 (content off).2).

(** The blob is where the plan has it. *)
Definition holds (x : Blob) : Prop :=
  blen (content (b_start x)).2 ≤ MAX_SUPPORTED_BLOB_LEN ∧ blob_at f (b_start x) (content (b_start x)).1 (content (b_start x)).2 ∧
  b_start x + blen (bytes_at (b_start x)) ≤ b_end x.

Lemma wrapping_sub_small a b : 0 ≤ b ≤ a → a < 2 ^ 64 → wrapping_sub 64 a b = a - b.
Proof. intros ??. unfold wrapping_sub, wrap. by rewrite Z.mod_small by lia. Qed.

(** A blob is taken out of the buffer of a read. *)
Definition taken (buf : bytes) (b : VectoredBlob.t) (x : Blob) : Prop :=
  VectoredBlob.meta b = b_meta x ∧ VectoredBlob.read b buf = Ok (content (b_start x)).2 ∧ VectoredBlob.raw_with_header b buf = Ok (bytes_at (b_start x)).

Lemma blob_offsets_spec start e xs : 0 ≤ start ≤ e → e ≤ blen f → e < 2 ^ 63 → Forall (λ x, start ≤ b_start x ∧ b_end x ≤ e) xs → Forall holds xs →
  let buf := cut start e f in
  ∃ blobs, VectoredBlobReader.blob_offsets start buf (entries_of xs) = Ok blobs ∧ Forall2 (taken buf) blobs xs.
Proof.
  intros Hse He Hbig Hin Hh buf. assert (blen buf = e - start) as Hb by (apply blen_cut; lia).
  induction xs as [|x xs IH]; [exists []; split; [done|constructor]|]. apply Forall_cons in Hin as [[Hx1 Hx2] Hin], Hh as [(Hmax & (H1 & H2 & Hat) & Hend) Hh].
  destruct (IH Hin Hh) as (blobs & E & Hb'). cbn [entries_of fmap list_fmap VectoredBlobReader.blob_offsets]. set (off := b_start x) in *.
  set (alg := (content off).1) in *. set (src := (content off).2) in *. pose proof (blob_bytes_nonempty src alg Hmax).
  rewrite wrapping_sub_small by lia. rewrite (proj2 (Z.leb_le _ _)) by lia. cbn [mbind result_bind].
  assert (cut (off - start) (blen buf) buf = blob_bytes alg src ++ cut (off + blen (blob_bytes alg src)) e f) as Erest.
  { rewrite Hb. unfold buf. rewrite cut_cut by lia. replace (start + (off - start)) with off by lia.
    replace (start + (e - start)) with e by lia. rewrite <-(cut_app off (off + blen (blob_bytes alg src)) e) by lia. by rewrite Hat. }
  rewrite Erest. destruct (decode_blob src alg (cut (off + blen (blob_bytes alg src)) e f) Hmax) as (h & Eh & Ht & Hlen & Hu). rewrite Eh. cbn [map_err mbind result_bind].
  unfold entries_of in E. cbn [fmap] in E. rewrite E. eexists; split; [done|]. constructor; [|done]. split_and!; [done| |].
  - unfold VectoredBlob.read, VectoredBlob.view. cbn [VectoredBlob.data_start VectoredBlob.end_ VectoredBlob.compression_bits]. unfold Header.total_len in *.
    rewrite slice_of_ok by lia. cbn [mbind result_bind].
    replace (cut (off - start + Header.header_len h) _ buf) with (cut (Header.header_len h) (Header.header_len h + Header.data_len h) (cut (off - start) (blen buf) buf)).
    2: { rewrite cut_cut by lia. f_equal. lia. }
    rewrite Erest. unfold unpack in Hu. destruct (_ =? BYTE_UNCOMPRESSED); [by injection Hu as ->|]. destruct (_ =? BYTE_ZSTD); [by rewrite Hu|done].
  - unfold VectoredBlob.raw_with_header, VectoredBlob.view. cbn [VectoredBlob.header_start VectoredBlob.end_]. unfold Header.total_len in *.
    rewrite slice_of_ok by lia. f_equal. unfold buf. rewrite cut_cut by lia. etrans; [|exact Hat]. f_equal; lia.
Qed.

Lemma read_has_size r xs : read_has r xs → VectoredRead.size r = VectoredRead.end_ r - VectoredRead.start r ∧ 0 < VectoredRead.size r.
Proof. intros (_ & _ & Hse & He & _). unfold VectoredRead.size. rewrite wrapping_sub_small by lia. lia. Qed.

Lemma read_blobs_spec (disk_reads : Z → Z → bool) r xs capacity : D ≤ blen f → read_has r xs → Forall holds xs → VectoredRead.size r ≤ capacity →
  if disk_reads (VectoredRead.start r) (VectoredRead.size r) then
    ∃ buf blobs, VectoredBlobReader.read_blobs disk_reads f r capacity = Ok (MkBlobsBuf buf blobs) ∧ Forall2 (taken buf) blobs xs
  else VectoredBlobReader.read_blobs disk_reads f r capacity = Err ReadExactFailed.
Proof.
  intros Hf Hr Hh Hcap. destruct (read_has_size r xs Hr) as [Es Hs]. destruct Hr as (Ed & _ & Hse & He & _ & Hin). unfold VectoredBlobReader.read_blobs.
  rewrite (proj2 (Z.ltb_lt _ _)), (proj2 (Z.leb_le _ _)) by lia. cbn [andb]. unfold EphemeralFile.read_exact_at.
  destruct (disk_reads _ _); [|done]. rewrite pread_exact_some by lia. cbn [of_option map_err mbind result_bind]. unfold VecMap.as_slice. rewrite Ed, Es.
  replace (VectoredRead.start r + (VectoredRead.end_ r - VectoredRead.start r)) with (VectoredRead.end_ r) by lia.
  destruct (blob_offsets_spec (VectoredRead.start r) (VectoredRead.end_ r) xs) as (blobs & E & Hb); [lia|lia|lia|done|done|].
  cbv zeta in E, Hb. rewrite E. by eexists _, _.
Qed.
End reads.

(** ** Collecting blobs *)

Record Event := MkEvent { ev_key : Key; ev_lsn : Z; ev_start : Z; ev_end : Z; ev_flag : BlobFlag }.

Definition ev_blob (e : Event) : Blob := (ev_key e, (ev_lsn e, ev_start e, ev_end e, match ev_flag e with FlagReplaceAll => true | _ => false end)).
Definition ev_add (e : Event) (p : VectoredReadPlanner.t) : VectoredReadPlanner.t :=
  VectoredReadPlanner.add_blob (ev_key e) (ev_lsn e) (ev_start e) (ev_end e) (ev_flag e) p.

(** What an event does to the blobs in their order. *)
Definition plan_add (l : list Blob) (e : Event) : list Blob :=
  match ev_flag e with
  | FlagNone => l ++ [ev_blob e]
  | FlagReplaceAll => List.filter (λ x, negb (Key.eqb x.1 (ev_key e))) l ++ [ev_blob e]
  | FlagIgnore => l
  end.

(** No key of the plan is above this one. *)
Definition planner_upto (key : Key) (p : VectoredReadPlanner.t) : Prop :=
  bt_wf (VectoredReadPlanner.blobs p) ∧ Forall (λ x, ¬ klt key x.1) (VectoredReadPlanner.blobs p).

Lemma bt_insert_last {V} key (v : V) l : bt_wf l → Forall (λ x, ¬ klt key x.1) l →
  (∃ l0 v0, l = l0 ++ [(key, v0)] ∧ bt_get key l = Some v0 ∧ bt_insert key v l = l0 ++ [(key, v)] ∧ Forall (λ x, x.1 ≠ key) l0) ∨
  bt_get key l = None ∧ bt_insert key v l = l ++ [(key, v)] ∧ Forall (λ x, x.1 ≠ key) l.
Proof.
  induction 1 as [|[k w] l Hl IH Hk]; intros Hall; [by right|]. apply Forall_cons in Hall as [Hkey Hall]. cbn [bt_get bt_insert fst snd] in *.
  destruct (kcmp key k) eqn:Ec; [|done|].
  - apply kcmp_eq in Ec as ->. left. assert (l = []) as ->.
    { destruct l as [|x l]; [done|]. apply Forall_cons in Hk as [Hk _], Hall as [Hall _]. done. }
    by exists [], w.
  - assert (k ≠ key) by (intros ->; by rewrite (proj2 (kcmp_eq key key) eq_refl) in Ec). destruct (IH Hall) as [(l0 & v0 & -> & -> & -> & Hn)|(-> & -> & Hn)].
    + left. exists ((k, w) :: l0), v0. split_and!; [done..|]. by constructor.
    + right. split_and!; [done..|]. by constructor.
Qed.

Lemma all_blobs_app l1 l2 pr m : VectoredReadPlanner.all_blobs (VectoredReadPlanner.Mk (l1 ++ l2) pr m) =
  VectoredReadPlanner.all_blobs (VectoredReadPlanner.Mk l1 pr m) ++ VectoredReadPlanner.all_blobs (VectoredReadPlanner.Mk l2 pr m).
Proof. unfold VectoredReadPlanner.all_blobs. cbn. by rewrite map_app, concat_app. Qed.

Lemma elem_of_all_blobs p (x : Blob) : x ∈ VectoredReadPlanner.all_blobs p ↔ ∃ es, (x.1, es) ∈ VectoredReadPlanner.blobs p ∧ x.2 ∈ es.
Proof.
  unfold VectoredReadPlanner.all_blobs. rewrite list_elem_of_In, in_concat. split.
  - intros (l & Hl & Hx). apply in_map_iff in Hl as ([k es] & <- & Hes). apply in_map_iff in Hx as (e & <- & He). exists es. by rewrite !list_elem_of_In.
  - intros (es & Hes & He). eexists. split; [by apply in_map_iff; eexists; split; [done|apply list_elem_of_In]|]. destruct x. apply in_map_iff. eexists. split; [done|].
    by apply list_elem_of_In.
Qed.

(** The blobs of the other keys. *)
Lemma other_blobs key l pr m : Forall (λ x, x.1 ≠ key) l →
  List.filter (λ x : Blob, negb (Key.eqb x.1 key)) (VectoredReadPlanner.all_blobs (VectoredReadPlanner.Mk l pr m)) = VectoredReadPlanner.all_blobs (VectoredReadPlanner.Mk l pr m).
Proof.
  intros Hl. apply filter_true. intros x (es & Hx & _)%elem_of_all_blobs. rewrite Forall_forall in Hl. specialize (Hl _ Hx). unfold Key.eqb. by rewrite bool_decide_eq_false_2.
Qed.

Lemma same_blobs key (es : list VectoredReadPlanner.Entry) pr m :
  List.filter (λ x : Blob, negb (Key.eqb x.1 key)) (VectoredReadPlanner.all_blobs (VectoredReadPlanner.Mk [(key, es)] pr m)) = [].
Proof.
  apply filter_false. intros x (es' & Hx%list_elem_of_singleton & _)%elem_of_all_blobs. injection Hx as -> _. unfold Key.eqb. by rewrite bool_decide_eq_true_2.
Qed.

Lemma ev_add_spec e p : planner_upto (ev_key e) p →
  VectoredReadPlanner.all_blobs (ev_add e p) = plan_add (VectoredReadPlanner.all_blobs p) e ∧ planner_upto (ev_key e) (ev_add e p) ∧
  VectoredReadPlanner.prev (ev_add e p) = VectoredReadPlanner.prev p ∧ VectoredReadPlanner.max_read_size (ev_add e p) = VectoredReadPlanner.max_read_size p.
Proof.
  destruct p as [bl pr m]. intros [Hwf Hall]. cbn [VectoredReadPlanner.blobs] in *. unfold ev_add, VectoredReadPlanner.add_blob, plan_add, ev_blob.
  assert (∀ v, planner_upto (ev_key e) (VectoredReadPlanner.Mk (bt_insert (ev_key e) v bl) pr m)) as Hup.
  { intros v. split; [by apply bt_insert_wf|]. apply Forall_forall. intros x Hx. cbn in Hx. apply bt_insert_elem in Hx; [|done].
    rewrite Forall_forall in Hall. destruct Hx as [-> |[Hx _]]; [apply klt_irrefl|by apply Hall]. }
  destruct (ev_flag e); split_and!; try done; cbn [VectoredReadPlanner.blobs VectoredReadPlanner.prev VectoredReadPlanner.max_read_size].
  - set (es := (ev_lsn e, ev_start e, ev_end e, false)). destruct (bt_insert_last (ev_key e) (default [] (bt_get (ev_key e) bl) ++ [es]) bl Hwf Hall) as
      [(l0 & v0 & -> & Eg & Ei & _)|(Eg & Ei & _)]; rewrite Ei, Eg, !all_blobs_app; cbn [default]; [rewrite <-app_assoc|]; f_equal.
    unfold VectoredReadPlanner.all_blobs. cbn. rewrite !app_nil_r. unfold id. by rewrite map_app.
  - set (es := (ev_lsn e, ev_start e, ev_end e, true)). destruct (bt_insert_last (ev_key e) [es] bl Hwf Hall) as [(l0 & v0 & -> & _ & -> & Hn)|(_ & -> & Hn)].
    + rewrite !all_blobs_app, List.filter_app, same_blobs, other_blobs, app_nil_r by done. done.
    + by rewrite all_blobs_app, other_blobs.
Qed.

Definition keys_ascend (evs : list Event) : Prop := StronglySorted (λ a b, ¬ klt (ev_key b) (ev_key a)) evs.
Definition plan_all (l : list Blob) (evs : list Event) : list Blob := foldl plan_add l evs.

Lemma not_klt_trans (a b c : Key) : ¬ klt b a → ¬ klt c b → ¬ klt c a.
Proof.
  intros H1 H2 H3. destruct (klt_trichotomy a b) as [Hab|[->|]]; [|done|done]. apply H2. by apply (klt_trans _ a).
Qed.

Lemma planner_upto_mono key key' p : planner_upto key p → ¬ klt key' key → planner_upto key' p.
Proof.
  intros [Hwf Hall] Hk. split; [done|]. eapply Forall_impl; [exact Hall|]. cbn. intros x Hx. by apply (not_klt_trans _ key).
Qed.

Lemma ev_adds_spec evs p : keys_ascend evs → (∀ e, e ∈ evs → planner_upto (ev_key e) p) →
  let p' := foldl (λ p e, ev_add e p) p evs in
  VectoredReadPlanner.all_blobs p' = plan_all (VectoredReadPlanner.all_blobs p) evs ∧ VectoredReadPlanner.prev p' = VectoredReadPlanner.prev p ∧
  VectoredReadPlanner.max_read_size p' = VectoredReadPlanner.max_read_size p ∧
  ∀ key, planner_upto key p → (∀ e, e ∈ evs → ¬ klt key (ev_key e)) → planner_upto key p'.
Proof.
  revert p. induction evs as [|e evs IH]; intros p Hs Hp; [done|]. apply StronglySorted_inv in Hs as [Hs He].
  destruct (ev_add_spec e p (Hp e ltac:(by left))) as (Eb & Hup & Ep & Em). cbn [foldl plan_all].
  destruct (IH (ev_add e p) Hs) as (Eb' & Ep' & Em' & Hk).
  { intros e' He'. apply (planner_upto_mono (ev_key e)); [done|]. rewrite Forall_forall in He. by apply He. }
  cbv zeta in *. rewrite Eb', Eb, Ep', Ep, Em', Em. split_and!; [done..|]. intros key Hkey Hall. apply Hk.
  - apply (planner_upto_mono (ev_key e)); [done|]. apply Hall. by left.
  - intros e' He'. apply Hall. by right.
Qed.

(** The blobs of the plan are some of those of the events, in their order. *)
Lemma plan_add_sublist l e : plan_add l e `sublist_of` l ++ [ev_blob e].
Proof.
  unfold plan_add. destruct (ev_flag e); [done|by apply sublist_inserts_r|]. apply sublist_app; [|done].
  induction l as [|x l IH]; [constructor|]. cbn. destruct (negb _); by constructor.
Qed.

Lemma plan_all_sublist l evs : plan_all l evs `sublist_of` l ++ (ev_blob <$> evs).
Proof.
  revert l. induction evs as [|e evs IH]; intros l; [by rewrite app_nil_r|]. cbn [plan_all foldl fmap list_fmap].
  etrans; [apply IH|]. replace (l ++ ev_blob e :: (ev_blob <$> evs)) with ((l ++ [ev_blob e]) ++ (ev_blob <$> evs)) by (by rewrite <-app_assoc).
  apply sublist_app; [apply plan_add_sublist|done].
Qed.

Lemma in_order_sublist D l1 l2 : l1 `sublist_of` l2 → in_order D l2 → in_order D l1.
Proof.
  intros Hs. induction Hs as [|x l1 l2 Hs IH|x l1 l2 _ IH]; [done| |].
  - intros [[Hx Hf]%Forall_cons [Ho Hall]%StronglySorted_inv]. destruct (IH (conj Hf Ho)) as [Hf' Ho']. split; [by constructor|]. constructor; [done|].
    rewrite Forall_forall in *. intros y Hy. apply Hall. by eapply elem_of_submseteq, sublist_submseteq.
  - intros [[_ Hf]%Forall_cons [Ho _]%StronglySorted_inv]. by apply IH.
Qed.

(** The blobs of a key. *)
Definition of_key (k : Key) (l : list Blob) : list Blob := List.filter (λ x, Key.eqb x.1 k) l.

Lemma of_key_other k key l : key ≠ k → of_key k (List.filter (λ x, negb (Key.eqb x.1 key)) l) = of_key k l.
Proof.
  intros Hne. unfold of_key. induction l as [|x l IH]; [done|]. cbn [List.filter]. destruct (Key.eqb x.1 key) eqn:E; cbn [negb List.filter]; [|by rewrite IH].
  apply bool_decide_eq_true in E. assert (Key.eqb x.1 k = false) as -> by (apply bool_decide_eq_false_2; congruence). done.
Qed.

Definition wanted_of (k : Key) (e : Event) : bool := Key.eqb (ev_key e) k && match ev_flag e with FlagIgnore => false | _ => true end.

(** Of the blobs of a key those are left from the last one on that replaces the others. *)
Lemma of_key_plan_all k l evs : of_key k (plan_all l evs) =
  foldl (λ acc e, match ev_flag e with FlagReplaceAll => [ev_blob e] | _ => acc ++ [ev_blob e] end) (of_key k l) (List.filter (wanted_of k) evs).
Proof.
  revert l. induction evs as [|e evs IH]; intros l; [done|]. cbn [plan_all foldl List.filter]. fold (plan_all (plan_add l e) evs). rewrite IH. clear IH.
  assert (of_key k (plan_add l e) = if wanted_of k e then match ev_flag e with FlagReplaceAll => [ev_blob e] | _ => of_key k l ++ [ev_blob e] end else of_key k l) as ->.
  { unfold plan_add, wanted_of, of_key. cbn [ev_blob fst]. destruct (Key.eqb (ev_key e) k) eqn:Ek.
    - apply bool_decide_eq_true in Ek. subst k. destruct (ev_flag e) eqn:Ef; cbn [andb]; [|done|]; rewrite List.filter_app; cbn [List.filter fst ev_blob]; unfold Key.eqb;
        rewrite (bool_decide_eq_true_2 (ev_key e = ev_key e)) by done; [done|]. rewrite filter_false; [done|].
      intros x Hx. apply list_elem_of_In, List.filter_In in Hx as [_ Hx]. by apply negb_true_iff in Hx.
    - destruct (ev_flag e) eqn:Ef; cbn [andb]; [|done|]; rewrite List.filter_app; cbn [List.filter ev_blob fst]; rewrite Ek, app_nil_r; [done|].
      apply (of_key_other k (ev_key e) l). intros E. unfold Key.eqb in Ek. by rewrite bool_decide_eq_true_2 in Ek. }
  by destruct (wanted_of k e).
Qed.
