(* ===== verification/WalRedos.v ===== *)
(** Values of pages and how they are reconstructed from WAL:
    [libs/wal_decoder/src/models/{value,record}.rs], the redo functions of
    [pageserver/src/walredo/apply_neon.rs] (with [nonrelfile_utils.rs] and
    [pg_constants.rs] of [libs/postgres_ffi]), the redo manager
    [pageserver/src/walredo.rs] and [Timeline::reconstruct_value].

    A page is the list of its bytes.  Records of PostgreSQL are applied by a process of
    PostgreSQL, which is the class [RedoProcess]: a function of the request, which
    applies one record after the other.  Launching the process and talking to it may
    fail: every attempt takes one outcome from a list, [None] or an empty list is
    success.  LSNs that are only logged are left out, and so are the records and the
    pre-checks of test builds. *)

From S2P Require Import Prelude Text Lsns Keys Feedbacks.
Local Open Scope Z_scope.

(** * Constants of PostgreSQL *)

Definition BLCKSZ : Z := 8192.
Definition SIZE_OF_PAGE_HEADER : Z := 24.
Definition MAXALIGN_SIZE_OF_PAGE_HEADER_DATA : Z := 24.
Definition CLOG_XACTS_PER_BYTE : Z := 4.
Definition CLOG_XACTS_PER_PAGE : Z := BLCKSZ * CLOG_XACTS_PER_BYTE.
Definition CLOG_BITS_PER_XACT : Z := 2.
Definition CLOG_XACT_BITMASK : Z := Z.shiftl 1 CLOG_BITS_PER_XACT - 1.
Definition TRANSACTION_STATUS_COMMITTED : Z := 0x01.
Definition TRANSACTION_STATUS_ABORTED : Z := 0x02.
Definition SLRU_PAGES_PER_SEGMENT : Z := 32.
Definition BITS_PER_HEAPBLOCK : Z := 2.
Definition HEAPBLOCKS_PER_PAGE : Z := (BLCKSZ - SIZE_OF_PAGE_HEADER) * 8 / BITS_PER_HEAPBLOCK.
Definition HEAPBLOCKS_PER_BYTE : Z := 8 / BITS_PER_HEAPBLOCK.
Definition HEAPBLK_TO_MAPBLOCK (x : Z) : Z := x / HEAPBLOCKS_PER_PAGE.
Definition HEAPBLK_TO_MAPBYTE (x : Z) : Z := (x mod HEAPBLOCKS_PER_PAGE) / HEAPBLOCKS_PER_BYTE.
Definition HEAPBLK_TO_OFFSET (x : Z) : Z := (x mod HEAPBLOCKS_PER_BYTE) * BITS_PER_HEAPBLOCK.
Definition MULTIXACT_OFFSETS_PER_PAGE : Z := BLCKSZ / 4.
Definition MXACT_MEMBER_BITS_PER_XACT : Z := 8.
Definition MXACT_MEMBER_FLAGS_PER_BYTE : Z := 1.
Definition MULTIXACT_FLAGBYTES_PER_GROUP : Z := 4.
Definition MULTIXACT_MEMBERS_PER_MEMBERGROUP : Z := MULTIXACT_FLAGBYTES_PER_GROUP * MXACT_MEMBER_FLAGS_PER_BYTE.
Definition MULTIXACT_MEMBERGROUP_SIZE : Z := 4 * MULTIXACT_MEMBERS_PER_MEMBERGROUP + MULTIXACT_FLAGBYTES_PER_GROUP.
Definition MULTIXACT_MEMBERGROUPS_PER_PAGE : Z := BLCKSZ / MULTIXACT_MEMBERGROUP_SIZE.
Definition MULTIXACT_MEMBERS_PER_PAGE : Z := MULTIXACT_MEMBERGROUPS_PER_PAGE * MULTIXACT_MEMBERS_PER_MEMBERGROUP.

(** * Values *)

Inductive NeonWalRecord :=
  | Postgres (will_init : bool) (rec : bytes)
  | ClearVisibilityMapFlags (new_heap_blkno old_heap_blkno : option Z) (flags : Z)
  | ClogSetCommitted (xids : list Z) (timestamp : Z)
  | ClogSetAborted (xids : list Z)
  | MultixactOffsetCreate (mid moff : Z)
  | MultixactMembersCreate (moff : Z) (members : list (Z * Z)) (** the xid and the status *)
  | AuxFile (file_path : bytes) (content : option bytes)
  | TruncateVisibilityMap (trunc_byte trunc_offs : Z).

Module NeonWalRecord.
Definition will_init (self : NeonWalRecord) : bool := match self with Postgres will_init _ => will_init | _ => false end.
End NeonWalRecord.

Inductive Value := Image (img : bytes) | WalRecord (rec : NeonWalRecord).

Module Value.
Definition is_image (self : Value) : bool := match self with Image _ => true | _ => false end.
Definition will_init (self : Value) : bool := match self with Image _ => true | WalRecord rec => NeonWalRecord.will_init rec end.
End Value.

(** * Bytes of a page *)

Inductive RedoError := Cancelled | Other.

Abbreviation Res := (result RedoError).

Definition page_byte (page : bytes) (i : Z) : Res Z :=
  match page !! Z.to_nat i with Some b => Ok b | None => Panic end.
Definition set_byte (i v : Z) (page : bytes) : bytes := <[Z.to_nat i := v]> page.

(** [page[off..off + 4]] and [LittleEndian::write_u32] to it. *)
Definition read_u32 (page : bytes) (off : Z) : Res Z :=
  if Z.of_nat (length page) <? off + 4 then Panic else Ok (be_val (rev (take 4 (drop (Z.to_nat off) page)))).
Definition write_u32 (page : bytes) (off v : Z) : Res bytes :=
  if Z.of_nat (length page) <? off + 4 then Panic
  else Ok (take (Z.to_nat off) page ++ Buf.put_le 4 v ++ drop (Z.to_nat off + 4) page).

(** [u8] arithmetic: [x << k] and [!x]. *)
Definition shl8 (x k : Z) : Z := Z.shiftl x k mod 2 ^ 8.
Definition not8 (x : Z) : Z := 0xFF - x.

Definition page_is_new (pg : bytes) : Res bool :=
  b14 ← page_byte pg 14; if negb (b14 =? 0) then Ok false else b15 ← page_byte pg 15; Ok (b15 =? 0).

Definition page_set_lsn (pg : bytes) (lsn : Lsn) : Res bytes :=
  pg ← write_u32 pg 0 (Z.shiftr lsn 32); write_u32 pg 4 lsn.

Definition transaction_id_set_status (xid status : Z) (page : bytes) : Res bytes :=
  let byteno := (xid mod CLOG_XACTS_PER_PAGE) / CLOG_XACTS_PER_BYTE in
  let bshift := (xid mod CLOG_XACTS_PER_BYTE) * CLOG_BITS_PER_XACT in
  b ← page_byte page byteno;
  Ok (set_byte byteno (Z.lor (Z.land b (not8 (shl8 CLOG_XACT_BITMASK bshift))) (shl8 status bshift)) page).

Definition transaction_id_get_status (xid : Z) (page : bytes) : Res Z :=
  let byteno := (xid mod CLOG_XACTS_PER_PAGE) / CLOG_XACTS_PER_BYTE in
  let bshift := (xid mod CLOG_XACTS_PER_BYTE) * CLOG_BITS_PER_XACT in
  b ← page_byte page byteno;
  Ok (Z.land (Z.shiftr b bshift) CLOG_XACT_BITMASK).

Definition mx_offset_to_flags_offset (xid : Z) : Z :=
  (xid / MULTIXACT_MEMBERS_PER_MEMBERGROUP) mod MULTIXACT_MEMBERGROUPS_PER_PAGE * MULTIXACT_MEMBERGROUP_SIZE.
Definition mx_offset_to_flags_bitshift (xid : Z) : Z :=
  (xid mod 2 ^ 16) mod MULTIXACT_MEMBERS_PER_MEMBERGROUP * MXACT_MEMBER_BITS_PER_XACT.
Definition mx_offset_to_member_offset (xid : Z) : Z :=
  mx_offset_to_flags_offset xid + (MULTIXACT_FLAGBYTES_PER_GROUP + (xid mod 2 ^ 16) mod MULTIXACT_MEMBERS_PER_MEMBERGROUP * 4).

(** * Redo of the records of the pageserver *)

Definition can_apply_in_neon (rec : NeonWalRecord) : bool := match rec with Postgres _ _ => false | _ => true end.

(** [assert!(c)] *)
Definition assertR (c : bool) : Res unit := if c then Ok tt else Panic.

(** The bits of one heap block in a page of the visibility map. *)
Definition clear_vm_flags (heap_blkno : option Z) (flags blknum : Z) (lsn : Lsn) (page : bytes) : Res bytes :=
  match heap_blkno with
  | None => Ok page
  | Some heap_blkno =>
      let map_byte := HEAPBLK_TO_MAPBYTE heap_blkno in
      let map_offset := HEAPBLK_TO_OFFSET heap_blkno in
      _ ← assertR (HEAPBLK_TO_MAPBLOCK heap_blkno =? blknum);
      let i := MAXALIGN_SIZE_OF_PAGE_HEADER_DATA + map_byte in
      b ← page_byte page i;
      let page := set_byte i (Z.land b (not8 (shl8 flags map_offset))) page in
      new ← page_is_new page;
      if new : bool then Ok page else page_set_lsn page lsn
  end.

(** A loop over transactions on a page of the CLOG. *)
Fixpoint set_statuses (xids : list Z) (status segno blknum : Z) (page : bytes) : Res bytes :=
  match xids with
  | [] => Ok page
  | xid :: xids =>
      let pageno := xid / CLOG_XACTS_PER_PAGE in
      _ ← assertR (segno =? pageno / SLRU_PAGES_PER_SEGMENT);
      _ ← assertR (blknum =? pageno mod SLRU_PAGES_PER_SEGMENT);
      page ← transaction_id_set_status xid status page;
      set_statuses xids status segno blknum page
  end.

(** A loop over the members of a multixact; [offset] is that of the first. *)
Fixpoint create_members (offset : Z) (members : list (Z * Z)) (segno blknum : Z) (page : bytes) : Res bytes :=
  match members with
  | [] => Ok page
  | (xid, status) :: members =>
      let pageno := offset / MULTIXACT_MEMBERS_PER_PAGE in
      let memberoff := mx_offset_to_member_offset offset in
      let flagsoff := mx_offset_to_flags_offset offset in
      let bshift := mx_offset_to_flags_bitshift offset in
      _ ← assertR (segno =? pageno / SLRU_PAGES_PER_SEGMENT);
      _ ← assertR (blknum =? pageno mod SLRU_PAGES_PER_SEGMENT);
      flagsval ← read_u32 page flagsoff;
      let mask := Z.shiftl (Z.shiftl 1 MXACT_MEMBER_BITS_PER_XACT - 1) bshift mod 2 ^ 32 in
      let flagsval := Z.land flagsval (2 ^ 32 - 1 - mask) in
      let flagsval := Z.lor flagsval (Z.shiftl status bshift mod 2 ^ 32) in
      page ← write_u32 page flagsoff flagsval;
      page ← write_u32 page memberoff xid;
      create_members ((offset + 1) mod 2 ^ 32) members segno blknum page
  end.

(** [to_slru_block().context(..)?] and the assertion on the kind. *)
Definition slru_block (key : Key) (kind : SlruKind) : Res (Z * Z) :=
  b ← map_err (λ _, Other) (KeyClass.to_slru_block key);
  let '(slru_kind, segno, blknum) := b in
  _ ← assertR (bool_decide (slru_kind = kind));
  Ok (segno, blknum).

Definition rel_block (key : Key) : Res (RelTag * Z) := map_err (λ _, Other) (KeyClass.to_rel_block key).

Definition apply_in_neon (record : NeonWalRecord) (lsn : Lsn) (key : Key) (page : bytes) : Res bytes :=
  match record with
  | Postgres _ _ => Err Other
  | TruncateVisibilityMap trunc_byte trunc_offs =>
      r ← rel_block key;
      _ ← assertR (forknum r.1 =? VISIBILITYMAP_FORKNUM);
      let hdr := Z.to_nat MAXALIGN_SIZE_OF_PAGE_HEADER_DATA in
      _ ← assertR (hdr <=? length page)%nat;
      let map := drop hdr page in
      _ ← assertR (Z.to_nat trunc_byte + 1 <=? length map)%nat;
      let map := take (Z.to_nat trunc_byte + 1) map ++ replicate (length map - (Z.to_nat trunc_byte + 1)) 0 in
      b ← page_byte map trunc_byte;
      Ok (take hdr page ++ set_byte trunc_byte (Z.land b (shl8 1 (trunc_offs mod 8) - 1)) map)
  | ClearVisibilityMapFlags new_heap_blkno old_heap_blkno flags =>
      r ← rel_block key;
      _ ← assertR (forknum r.1 =? VISIBILITYMAP_FORKNUM);
      page ← clear_vm_flags new_heap_blkno flags r.2 lsn page;
      clear_vm_flags old_heap_blkno flags r.2 lsn page
  | ClogSetCommitted xids timestamp =>
      b ← slru_block key Clog;
      page ← set_statuses xids TRANSACTION_STATUS_COMMITTED b.1 b.2 page;
      let page := if Z.of_nat (length page) =? BLCKSZ + 8 then take (Z.to_nat BLCKSZ) page else page in
      if Z.of_nat (length page) =? BLCKSZ then Ok (page ++ Buf.put_be 8 timestamp) else Ok page
  | ClogSetAborted xids =>
      b ← slru_block key Clog;
      set_statuses xids TRANSACTION_STATUS_ABORTED b.1 b.2 page
  | MultixactOffsetCreate mid moff =>
      b ← slru_block key MultiXactOffsets;
      let pageno := mid / MULTIXACT_OFFSETS_PER_PAGE in
      let entryno := mid mod MULTIXACT_OFFSETS_PER_PAGE in
      _ ← assertR (b.1 =? pageno / SLRU_PAGES_PER_SEGMENT);
      _ ← assertR (b.2 =? pageno mod SLRU_PAGES_PER_SEGMENT);
      write_u32 page (entryno * 4) moff
  | MultixactMembersCreate moff members =>
      b ← slru_block key MultiXactMembers;
      create_members moff members b.1 b.2 page
  | AuxFile _ _ => Ok page
  end.

(** * The redo manager *)

Inductive RedoAttemptType := ReadPage | LegacyCompaction | GcCompaction.

(** The process: what it makes of a block, the image it starts from and records with
    their LSNs; [None] when a record cannot be applied. *)
Class RedoProcess := { apply_wal_records : RelTag → Z → option bytes → list (Lsn * bytes) → option bytes }.

(** It applies one record after the other to the page. *)
Class RedoProcessLaws `{RedoProcess} := {
  apply_wal_records_cons rel blknum img r r' rs :
    apply_wal_records rel blknum img (r :: r' :: rs) =
    match apply_wal_records rel blknum img [r] with
    | Some page => apply_wal_records rel blknum (Some page) (r' :: rs)
    | None => None
    end
}.

Abbreviation Redo := (M (list (option RedoError)) RedoError).

(** The outcome of an attempt. *)
Definition attempt : Redo unit := λ io,
  match io with
  | [] => (Ok tt, [])
  | None :: io => (Ok tt, io)
  | Some e :: io => (Err e, io)
  end.

Module PostgresRedoManager.
Section redo.
Context `{RedoProcess}.

Definition apply_record_neon (key : Key) (page : bytes) (record_lsn : Lsn) (record : NeonWalRecord) : Res bytes :=
  apply_in_neon record record_lsn key page.

Fixpoint apply_records_neon (key : Key) (page : bytes) (records : list (Lsn * NeonWalRecord)) : Res bytes :=
  match records with
  | [] => Ok page
  | (record_lsn, record) :: records => page ← apply_record_neon key page record_lsn record; apply_records_neon key page records
  end.

Definition apply_batch_neon (key : Key) (base_img : option bytes) (records : list (Lsn * NeonWalRecord)) : Res bytes :=
  match base_img with
  | Some fpi => apply_records_neon key fpi records
  | None => Err Other
  end.

(** The records of a batch; another kind of record is [unreachable!]. *)
Fixpoint postgres_records (records : list (Lsn * NeonWalRecord)) : Res (list (Lsn * bytes)) :=
  match records with
  | [] => Ok []
  | (lsn, Postgres _ rec) :: records => rest ← postgres_records records; Ok ((lsn, rec) :: rest)
  | _ :: _ => Panic
  end.

(** One attempt: launching the process when there is none, and the request. *)
Definition do_with_walredo_process (rel : RelTag) (blknum : Z) (base_img : option bytes) (records : list (Lsn * NeonWalRecord)) : Redo bytes :=
  _ ← attempt;
  recs ← liftR (postgres_records records);
  match apply_wal_records rel blknum base_img recs with
  | Some page => mret page
  | None => bail Other
  end.

(** The loop of [apply_batch_postgres]; [retries] attempts follow the first. *)
Fixpoint attempts (retries : nat) (m : Redo bytes) : Redo bytes := λ io,
  match m io with
  | (Err e, io) => match retries with O => (Err e, io) | Datatypes.S n => attempts n m io end
  | r => r
  end.

Definition apply_batch_postgres (key : Key) (base_img : option bytes) (records : list (Lsn * NeonWalRecord))
    (max_retry_attempts : nat) : Redo bytes :=
  r ← liftR (rel_block key);
  attempts max_retry_attempts (do_with_walredo_process r.1 r.2 base_img records).

Definition max_retry_attempts (redo_attempt_type : RedoAttemptType) : nat :=
  match redo_attempt_type with ReadPage => 2 | LegacyCompaction => 1 | GcCompaction => 0 end.

Definition apply_batch (key : Key) (neon : bool) (img : option bytes) (batch : list (Lsn * NeonWalRecord)) (retries : nat) : Redo bytes :=
  if neon then liftR (apply_batch_neon key img batch) else apply_batch_postgres key img batch retries.

(** The loop over the records; [batch] is [records[batch_start..i]]. *)
Fixpoint redo_batches (key : Key) (img : option bytes) (batch_neon : bool) (batch records : list (Lsn * NeonWalRecord))
    (retries : nat) : Redo bytes :=
  match records with
  | [] => apply_batch key batch_neon img batch retries
  | record :: records =>
      let rec_neon := can_apply_in_neon record.2 in
      if negb (Bool.eqb rec_neon batch_neon) then
        result ← apply_batch key batch_neon img batch retries;
        redo_batches key (Some result) rec_neon [record] records retries
      else redo_batches key img batch_neon (batch ++ [record]) records retries
  end.

Definition request_redo (key : Key) (base_img : option (Lsn * bytes)) (records : list (Lsn * NeonWalRecord))
    (redo_attempt_type : RedoAttemptType) : Redo bytes :=
  match records with
  | [] => bail Other
  | r :: rs => redo_batches key (snd <$> base_img) (can_apply_in_neon r.2) [r] rs (max_retry_attempts redo_attempt_type)
  end.
End redo.
End PostgresRedoManager.

(** * Reconstruction of a value *)

(** The records are in the reverse order of their LSNs. *)
Record ValueReconstructState := MkReconstruct { records : list (Lsn * NeonWalRecord); img : option (Lsn * bytes) }.

Definition reconstruct_value `{RedoProcess} (key : Key) (data : ValueReconstructState) (redo_attempt_type : RedoAttemptType) : Redo bytes :=
  match rev (records data) with
  | [] => match img data with Some (_, img) => mret img | None => bail Other end
  | r :: rs =>
      if bool_decide (img data = None) && negb (NeonWalRecord.will_init r.2) then bail Other
      else PostgresRedoManager.request_redo key (img data) (r :: rs) redo_attempt_type
  end.
