(* ===== verification/ReadPaths.v ===== *)
(** Reading page versions: what a read collects from the layers of a timeline and of its
    ancestors, and the values it makes of it.

    - [pageserver/src/tenant/storage_layer.rs]: the values collected for a key
      ([VectoredValueReconstructState], [ValuesReconstructState]) and the layers that are
      still to be visited ([LayerFringe]);
    - [tenant/timeline/layer_manager.rs]: [update_search_fringe];
    - [tenant/timeline.rs]: [VersionedKeySpaceQuery], [get_vectored_reconstruct_data] and
      what it calls, [get_vectored_impl] and [get].

    A layer is visited through [LayerAccess], which gives the values that the layer feeds
    to [update_key], in order, with the outcome of reading each.  The lock of the layer
    map is taken once per visited layer, and between two times the map may change: the
    layers of a timeline are a function of the time.  The loop over the fringe takes fuel;
    without fuel it is a panic.  Statistics, tracing and debugging are left out. *)

From stdpp Require Import gmap.
From S2P Require Import Prelude Text Loops OrdMaps Lsns Keys Shards KeySpaces LayerCoverage HistoricCoverage LayerMaps.
From S2P Require Import WalRedos.
Local Open Scope Z_scope.

#[global] Instance Key_countable : Countable Key.
Proof.
  apply (inj_countable' (λ k, (field1 k, field2 k, field3 k, (field4 k, field5 k, field6 k)))
    (λ '(a, b, c, (d, e, f)), MkKey a b c d e f)). by intros [].
Defined.

Inductive GetVectoredError :=
  | GvCancelled
  | InvalidLsn (lsn : Lsn)
  | MissingKey (keyspace : KeySpace)
  | GetReadyAncestorError
  | GvOther.

(** A loop of the key spaces; it does not run out of fuel. *)
Definition of_loop {A} (o : option (result unit A)) : result GetVectoredError A :=
  match o with Some (Ok a) => Ok a | _ => Panic end.

(** * Values of a key *)

Inductive ValueReconstructSituation := Complete | Continue.

Inductive OnDiskValue := RawImage (img : bytes) | WalRecordOrImage (buf : bytes).
Inductive IoError := IoDropped | IoFailed.
Abbreviation IoResult := (IoError + OnDiskValue)%type.

#[global] Instance ValueReconstructSituation_eq_dec : EqDecision ValueReconstructSituation.
Proof. solve_decision. Defined.

(** [Value::des], of the [bincode] crate. *)
Class ValueCodec := { Value_des : bytes → option Value }.

Module VectoredValueReconstructState.
Record t := Mk { on_disk_values : list (Lsn * IoResult); situation : ValueReconstructSituation }.
Definition default : t := Mk [] Continue.

(** What a value that was read adds. *)
Definition add_value (v : Value) (lsn : Lsn) (ok : ValueReconstructState) : Res ValueReconstructState :=
  match v with
  | WalRecord rec => Ok (MkReconstruct (records ok ++ [(lsn, rec)]) (img ok))
  | WalRedos.Image image => match img ok with None => Ok (MkReconstruct (records ok) (Some (lsn, image))) | Some _ => Panic end
  end.

Definition collect_one `{ValueCodec} (res : Res ValueReconstructState) (x : Lsn * IoResult) : Res ValueReconstructState :=
  ok ← res;
  match x.2 with
  | inl _ => Err Other
  | inr (RawImage image) => add_value (WalRedos.Image image) x.1 ok
  | inr (WalRecordOrImage buf) => match Value_des buf with Some v => add_value v x.1 ok | None => Err Other end
  end.

Definition collect_pending_ios `{ValueCodec} (self : t) : Res ValueReconstructState :=
  foldl collect_one (Ok (MkReconstruct [] None)) (on_disk_values self).
End VectoredValueReconstructState.
Abbreviation KeyState := VectoredValueReconstructState.t.

Module ValuesReconstructState.
Record t := Mk {
  keys : gmap Key KeyState;
  keys_done : list (Range Key);
  keys_with_image_coverage : option (Range Key);
  layers_visited : Z;
  delta_layers_visited : Z
}.

Definition new : t := Mk ∅ [] None 0 0.

Definition set_keys ks (self : t) : t :=
  Mk ks (keys_done self) (keys_with_image_coverage self) (layers_visited self) (delta_layers_visited self).
Definition set_done d (self : t) : t :=
  Mk (keys self) d (keys_with_image_coverage self) (layers_visited self) (delta_layers_visited self).
Definition set_coverage c (self : t) : t :=
  Mk (keys self) (keys_done self) c (layers_visited self) (delta_layers_visited self).

Definition on_image_layer_visited {E} (key_range : Range Key) : M t E unit :=
  self ← getS;
  _ ← modifyS (set_coverage (Some key_range));
  assertM (bool_decide (keys_with_image_coverage self = None)).

(** [io] is what reading the value will give. *)
Definition update_key {E} (key : Key) (lsn : Lsn) (completes : bool) (io : IoResult) : M t E unit := λ self,
  let state := default VectoredValueReconstructState.default (keys self !! key) in
  let is_sparse_key := KeyClass.is_sparse key in
  match VectoredValueReconstructState.situation state with
  | Complete => if is_sparse_key then (Ok tt, self) else (Panic, self)
  | Continue =>
      let values := VectoredValueReconstructState.on_disk_values state ++ [(lsn, io)] in
      if completes then
        let self := set_keys (<[key := VectoredValueReconstructState.Mk values Complete]> (keys self)) self in
        if is_sparse_key then (Ok tt, self)
        else match KeySpaceRandomAccum.add_key key (keys_done self) with
             | (Ok _, d) => (Ok tt, set_done d self)
             | _ => (Panic, self)
             end
      else (Ok tt, set_keys (<[key := VectoredValueReconstructState.Mk values Continue]> (keys self)) self)
  end.

Definition consume_done_keys {E} : M t E (KeySpace * option (Range Key)) := λ self,
  let coverage := keys_with_image_coverage self in
  match KeySpaceRandomAccum.to_keyspace (keys_done self) with
  | Ok done => (Ok (done, coverage), set_coverage None (set_done [] self))
  | _ => (Panic, set_done [] self)
  end.
End ValuesReconstructState.

(** * Layers *)

Inductive LayerId := PersistentLayerId (key : PersistentLayerKey) | InMemoryLayerId (file_id : Z).
#[global] Instance LayerId_eq_dec : EqDecision LayerId.
Proof. solve_decision. Defined.

Module ReadableLayer.
Inductive t := PersistentLayer (layer : PersistentLayerDesc) | InMemoryLayer (layer : LayerMaps.InMemoryLayer).

Definition id (self : t) : LayerId :=
  match self with
  | PersistentLayer layer => PersistentLayerId (PersistentLayerDesc.key layer)
  | InMemoryLayer layer => InMemoryLayerId (im_file_id layer)
  end.

(** What is read: a persistent layer is a file of its timeline. *)
Definition file (self : t) : bytes * LayerId :=
  (match self with PersistentLayer layer => pd_timeline_id layer | InMemoryLayer _ => [] end, id self).
End ReadableLayer.

(** A call of [update_key] that a layer makes. *)
Record Call := MkCall { c_key : Key; c_lsn : Lsn; c_will_init : bool; c_io : IoResult }.

Class LayerAccess := { layer_calls : bytes * LayerId → KeySpace → Range Z → result GetVectoredError (list Call) }.

Fixpoint update_keys {E} (calls : list Call) : M ValuesReconstructState.t E unit :=
  match calls with
  | [] => mret tt
  | c :: calls => _ ← ValuesReconstructState.update_key (c_key c) (c_lsn c) (c_will_init c) (c_io c); update_keys calls
  end.

Definition get_values_reconstruct_data `{LayerAccess} (self : ReadableLayer.t) (keyspace : KeySpace) (lsn_range : Range Z)
    : M ValuesReconstructState.t GetVectoredError unit :=
  calls ← liftR (layer_calls (ReadableLayer.file self) keyspace lsn_range);
  _ ← update_keys calls;
  match self with
  | ReadableLayer.PersistentLayer layer =>
      whenM (negb (pd_is_delta layer)) (ValuesReconstructState.on_image_layer_visited (pd_key_range layer))
  | ReadableLayer.InMemoryLayer _ => mret tt
  end.

Definition on_layer_visited {E} (layer : ReadableLayer.t) : M ValuesReconstructState.t E unit :=
  modifyS (λ self, ValuesReconstructState.Mk (ValuesReconstructState.keys self) (ValuesReconstructState.keys_done self)
    (ValuesReconstructState.keys_with_image_coverage self) (ValuesReconstructState.layers_visited self + 1)
    (ValuesReconstructState.delta_layers_visited self +
       match layer with ReadableLayer.PersistentLayer l => if pd_is_delta l then 1 else 0 | _ => 0 end)).

(** * The fringe *)

(** [BinaryHeap::pop]: an element that no other one is above; which one of several is up
    to the heap. *)
Class BinaryHeap := heap_pop : ∀ {A}, (A → A → comparison) → list A → option (A * list A).
Class BinaryHeapLaws `{BinaryHeap} := {
  heap_pop_nil {A} (cmp : A → A → comparison) : heap_pop cmp [] = None;
  heap_pop_some {A} (cmp : A → A → comparison) (l : list A) : l ≠ [] →
    (∀ a b c, cmp a b ≠ Gt → cmp b c ≠ Gt → cmp a c ≠ Gt) → (∀ a b, cmp a b = CompOpp (cmp b a)) →
    ∃ x l', heap_pop cmp l = Some (x, l') ∧ l ≡ₚ x :: l' ∧ ∀ y, y ∈ l → cmp y x ≠ Gt
}.

(** The order in which a [HashMap] gives its entries. *)
Class HashOrder := hash_order : ∀ {A}, list A → list A.
Class HashOrderLaws `{HashOrder} := { hash_order_perm {A} (l : list A) : hash_order l ≡ₚ l }.

Module LayerToVisitId.
Record t := Mk { layer_id : LayerId; lsn_floor : Z; lsn_ceil : Z }.
End LayerToVisitId.
#[global] Instance LayerToVisitId_eq_dec : EqDecision LayerToVisitId.t.
Proof. solve_decision. Defined.

Module LayerVisit.
Record t := Mk { layer_to_visit_id : LayerToVisitId.t; lsn_range : Range Z }.

Definition cmp (self other : t) : comparison :=
  match r_end (lsn_range self) ?= r_end (lsn_range other) with
  | Eq => CompOpp (r_start (lsn_range self) ?= r_start (lsn_range other))
  | ord => ord
  end.
End LayerVisit.

Module LayerFringe.
Section fringe.
Context `{BinaryHeap}.

Record LayerVisitReads := MkReads { layer : ReadableLayer.t; target_keyspace : list (Range Key) }.
Record t := Mk { planned_visits_by_lsn : list LayerVisit.t; visit_reads : list (LayerToVisitId.t * LayerVisitReads) }.

Definition new : t := Mk [] [].

(** [HashMap::remove_entry] *)
Fixpoint remove_entry (id : LayerToVisitId.t) (l : list (LayerToVisitId.t * LayerVisitReads))
    : option (LayerVisitReads * list (LayerToVisitId.t * LayerVisitReads)) :=
  match l with
  | [] => None
  | (id', r) :: l' =>
      if bool_decide (id' = id) then Some (r, l')
      else p ← remove_entry id l'; let '(x, rest) := p in Some (x, (id', r) :: rest)
  end.

Definition next_layer (self : t) : result GetVectoredError (option (ReadableLayer.t * KeySpace * Range Z) * t) :=
  match heap_pop LayerVisit.cmp (planned_visits_by_lsn self) with
  | None => Ok (None, self)
  | Some (read_desc, planned) =>
      match remove_entry (LayerVisit.layer_to_visit_id read_desc) (visit_reads self) with
      | Some (reads, rest) =>
          match KeySpaceRandomAccum.to_keyspace (target_keyspace reads) with
          | Ok ks => Ok (Some (layer reads, ks, LayerVisit.lsn_range read_desc), Mk planned rest)
          | _ => Panic
          end
      | None => Panic (* unreachable *)
      end
  end.

Fixpoint add_to_entry (id : LayerToVisitId.t) (keyspace : KeySpace) (l : list (LayerToVisitId.t * LayerVisitReads))
    : option (list (LayerToVisitId.t * LayerVisitReads)) :=
  match l with
  | [] => None
  | (id', r) :: l' =>
      if bool_decide (id' = id) then Some ((id', MkReads (layer r) (target_keyspace r ++ keyspace)) :: l')
      else rest ← add_to_entry id keyspace l'; Some ((id', r) :: rest)
  end.

Definition update (lr : ReadableLayer.t) (keyspace : KeySpace) (lsn_range : Range Z) (self : t) : t :=
  let layer_to_visit_id := LayerToVisitId.Mk (ReadableLayer.id lr) (r_start lsn_range) (r_end lsn_range) in
  match add_to_entry layer_to_visit_id keyspace (visit_reads self) with
  | Some reads => Mk (planned_visits_by_lsn self) reads
  | None => Mk (planned_visits_by_lsn self ++ [LayerVisit.Mk layer_to_visit_id lsn_range])
              (visit_reads self ++ [(layer_to_visit_id, MkReads lr keyspace)])
  end.
End fringe.
End LayerFringe.

(** * The layers of a timeline *)

Module LayerManager.
Section manager.
Context {T : Type → Type} `{RedBlackTree T} `{BinaryHeap} `{HashOrder}.

(** The files of the persistent layers by their keys. *)
Inductive t := Open (layer_map : LayerMap.t T) (layer_fmgr : list (PersistentLayerKey * PersistentLayerDesc)) | Closed.

Fixpoint get_from_key (key : PersistentLayerKey) (layer_fmgr : list (PersistentLayerKey * PersistentLayerDesc))
    : option PersistentLayerDesc :=
  match layer_fmgr with
  | [] => None
  | (key', layer) :: rest => if bool_decide (key' = key) then Some layer else get_from_key key rest
  end.

Definition in_memory_layer (desc : InMemoryLayerDesc) (self : LayerMap.t T) : option InMemoryLayer :=
  match handle desc with
  | LayerMaps.Open => LayerMap.open_layer self
  | Frozen idx => LayerMap.frozen_layers self !! idx
  end.

Definition upgrade (map : LayerMap.t T) (layer_fmgr : list (PersistentLayerKey * PersistentLayerDesc)) (weak : ReadableLayerWeak)
    : result GetVectoredError ReadableLayer.t :=
  match weak with
  | PersistentLayer desc =>
      match get_from_key (PersistentLayerDesc.key desc) layer_fmgr with
      | Some layer => Ok (ReadableLayer.PersistentLayer layer)
      | None => Panic
      end
  | InMemory desc =>
      match in_memory_layer desc map with
      | Some layer => Ok (ReadableLayer.InMemoryLayer layer)
      | None => Panic
      end
  end.

Fixpoint add_results (map : LayerMap.t T) (layer_fmgr : list (PersistentLayerKey * PersistentLayerDesc)) (cont_lsn : Z)
    (results : RangeSearchCollector.Found) (fringe : LayerFringe.t) : result GetVectoredError LayerFringe.t :=
  match results with
  | [] => Ok fringe
  | (r, keyspace_accum) :: results =>
      layer ← upgrade map layer_fmgr (sr_layer r);
      add_results map layer_fmgr cont_lsn results
        (LayerFringe.update layer (KeySpaceAccum.to_keyspace keyspace_accum) (mkRange (lsn_floor r) cont_lsn) fringe)
  end.

Fixpoint add_ranges (map : LayerMap.t T) (layer_fmgr : list (PersistentLayerKey * PersistentLayerDesc)) (ranges : KeySpace)
    (cont_lsn : Z) (fringe : LayerFringe.t) : result GetVectoredError LayerFringe.t :=
  match ranges with
  | [] => Ok fringe
  | range :: ranges =>
      found ← of_loop (range_search range cont_lsn map);
      fringe ← add_results map layer_fmgr cont_lsn (hash_order found) fringe;
      add_ranges map layer_fmgr ranges cont_lsn fringe
  end.

Definition update_search_fringe (self : t) (keyspace : KeySpace) (cont_lsn : Z) (fringe : LayerFringe.t)
    : result GetVectoredError LayerFringe.t :=
  match self with
  | Open map layer_fmgr => add_ranges map layer_fmgr keyspace cont_lsn fringe
  | Closed => Err GvCancelled
  end.
End manager.
Arguments t _ : clear implicits.
End LayerManager.

(** * Queries *)

Module VersionedKeySpaceQuery.
Section query.
Context `{MergeBy}.

Inductive t := Uniform (keyspace : KeySpace) (lsn : Lsn) | Scattered (keyspaces_at_lsn : list (Lsn * KeySpace)).

Definition is_valid (lsn : Lsn) : bool := negb (lsn =? 0).

Fixpoint max_lsn (l : list (Lsn * KeySpace)) (max : option Lsn) : result GetVectoredError (option Lsn) :=
  match l with
  | [] => Ok max
  | (lsn, _) :: l =>
      if is_valid lsn then max_lsn l (Some (match max with Some m => Z.max m lsn | None => lsn end)) else Err (InvalidLsn lsn)
  end.

Definition high_watermark_lsn (self : t) : result GetVectoredError Lsn :=
  match self with
  | Uniform _ lsn => if is_valid lsn then Ok lsn else Err (InvalidLsn lsn)
  | Scattered l => m ← max_lsn l None; match m with Some computed => Ok computed | None => Err GvOther end
  end.

Fixpoint merge_all (l : list (Lsn * KeySpace)) (acc : KeySpace) : result GetVectoredError KeySpace :=
  match l with
  | [] => Ok acc
  | (_, v) :: l => match KeySpace.merge v acc with (Ok _, acc) => merge_all l acc | _ => Panic end
  end.

Definition total_keyspace (self : t) : result GetVectoredError KeySpace :=
  match self with
  | Uniform keyspace _ => Ok keyspace
  | Scattered l => merge_all l []
  end.

Fixpoint find_lsn (key : Key) (l : list (Lsn * KeySpace)) : result GetVectoredError Lsn :=
  match l with
  | [] => Panic (* expect *)
  | (lsn, keyspace) :: l =>
      match KeySpace.contains keyspace key with
      | Ok true => Ok lsn
      | Ok false => find_lsn key l
      | _ => Panic
      end
  end.

Definition map_key_to_lsn (self : t) (key : Key) : result GetVectoredError Lsn :=
  match self with Uniform _ lsn => Ok lsn | Scattered l => find_lsn key l end.

Fixpoint remove_all (l : list (Lsn * KeySpace)) (to_remove : KeySpace) (removed_accum : list (Range Key))
    : result GetVectoredError (list (Lsn * KeySpace) * list (Range Key)) :=
  match l with
  | [] => Ok ([], removed_accum)
  | (lsn, keyspace) :: l =>
      r ← of_loop (KeySpace.remove_overlapping_with keyspace to_remove);
      rest ← remove_all l to_remove (removed_accum ++ r.2);
      Ok ((lsn, r.1) :: rest.1, rest.2)
  end.

(** The query that is left and what was removed. *)
Definition remove_overlapping_with (self : t) (to_remove : KeySpace) : result GetVectoredError (t * KeySpace) :=
  match self with
  | Uniform keyspace lsn =>
      r ← of_loop (KeySpace.remove_overlapping_with keyspace to_remove); Ok (Uniform r.1 lsn, r.2)
  | Scattered l =>
      r ← remove_all l to_remove [];
      match KeySpaceRandomAccum.to_keyspace r.2 with Ok removed => Ok (Scattered r.1, removed) | _ => Panic end
  end.

Definition is_empty (self : t) : bool :=
  match self with
  | Uniform keyspace _ => KeySpace.is_empty keyspace
  | Scattered l => forallb (λ x, KeySpace.is_empty x.2) l
  end.

Definition lower (to : Lsn) (self : t) : t :=
  match self with
  | Uniform keyspace lsn => Uniform keyspace (Z.min lsn to)
  | Scattered l => Scattered ((λ x, (Z.min x.1 to, x.2)) <$> l)
  end.
End query.
End VersionedKeySpaceQuery.
Abbreviation Query := VersionedKeySpaceQuery.t.

(** * Timelines *)

Section read.
Context {T : Type → Type} `{RedBlackTree T} `{MergeBy} `{BinaryHeap} `{HashOrder} `{LayerAccess}.

(** The layers are those that the lock of the layer map gives at a time; waiting for the
    ancestor to be ready may fail. *)
Inductive Timeline := MkTimeline
  (layers : nat → LayerManager.t T) (ancestor_lsn : Lsn) (ancestor_timeline : option Timeline) (ancestor_ready : option GetVectoredError).
Definition layers (self : Timeline) : nat → LayerManager.t T := let 'MkTimeline l _ _ _ := self in l.
Definition ancestor_lsn (self : Timeline) : Lsn := let 'MkTimeline _ l _ _ := self in l.
Definition ancestor_timeline (self : Timeline) : option Timeline := let 'MkTimeline _ _ a _ := self in a.

(** The time, and what is collected. *)
Record Reading := MkReading { clock : nat; reconstruct_state : ValuesReconstructState.t }.
Abbreviation R := (M Reading GetVectoredError).

(** A step on the reconstruct state. *)
Definition on_state {A} (m : M ValuesReconstructState.t GetVectoredError A) : R A := λ s,
  let '(r, st) := m (reconstruct_state s) in (r, MkReading (clock s) st).

(** The layer map at this time, under its lock. *)
Definition read_layers (timeline : Timeline) : R (LayerManager.t T) := λ s,
  (Ok (layers timeline (clock s)), MkReading (S (clock s)) (reconstruct_state s)).

(** Whether the timeline is shut down at a time. *)
Context (cancelled : nat → bool).
Definition check_cancelled : R unit := s ← getS; ensure (negb (cancelled (clock s))) GvCancelled.

Fixpoint init_scattered (guard : LayerManager.t T) (l : list (Lsn * KeySpace)) (fringe : LayerFringe.t)
    : result GetVectoredError LayerFringe.t :=
  match l with
  | [] => Ok fringe
  | (lsn, keyspace) :: l =>
      fringe ← LayerManager.update_search_fringe guard keyspace (wrapping_add 64 lsn 1) fringe;
      init_scattered guard l fringe
  end.

Definition get_vectored_init_fringe (timeline : Timeline) (query : Query) : R LayerFringe.t :=
  guard ← read_layers timeline;
  liftR (match query with
         | VersionedKeySpaceQuery.Uniform keyspace lsn =>
             LayerManager.update_search_fringe guard keyspace (wrapping_add 64 lsn 1) LayerFringe.new
         | VersionedKeySpaceQuery.Scattered l => init_scattered guard l LayerFringe.new
         end).

(** What the loop over the fringe keeps. *)
Record Traversal := MkTraversal { fringe : LayerFringe.t; completed_keyspace : KeySpace; image_covered_keyspace : list (Range Key) }.

(** [merge] on a local variable. *)
Definition merged (self other : KeySpace) : result GetVectoredError KeySpace :=
  match KeySpace.merge other self with (Ok _, ks) => Ok ks | _ => Panic end.

(** The visit of the next layer; [None] when there is none left. *)
Definition visit_next (timeline : Timeline) (st : Traversal) : R (option Traversal) :=
  next ← liftR (LayerFringe.next_layer (fringe st));
  match next with
  | (None, _) => mret None
  | (Some (layer_to_read, keyspace_to_read, lsn_range), fringe) =>
      _ ← check_cancelled;
      let cont_lsn := r_start lsn_range in
      _ ← on_state (get_values_reconstruct_data layer_to_read keyspace_to_read lsn_range);
      _ ← on_state (on_layer_visited layer_to_read);
      done ← on_state ValuesReconstructState.consume_done_keys;
      let '(keys_done_last_step, keys_with_image_coverage) := done in
      r ← liftR (of_loop (KeySpace.remove_overlapping_with keyspace_to_read keys_done_last_step));
      completed ← liftR (merged (completed_keyspace st) keys_done_last_step);
      u ← (match keys_with_image_coverage with
           | Some range =>
               r' ← liftR (of_loop (KeySpace.remove_overlapping_with r.1 [range]));
               mret (r'.1, image_covered_keyspace st ++ [range])
           | None => mret (r.1, image_covered_keyspace st)
           end);
      let '(unmapped_keyspace, image_covered) := u in
      fringe ← (if negb (KeySpace.is_empty unmapped_keyspace) then
                  guard ← read_layers timeline;
                  liftR (LayerManager.update_search_fringe guard unmapped_keyspace cont_lsn fringe)
                else mret fringe);
      mret (Some (MkTraversal fringe completed image_covered))
  end.

Fixpoint visit_all (fuel : nat) (timeline : Timeline) (st : Traversal) : R Traversal :=
  match fuel with
  | O => liftR Panic
  | S fuel =>
      r ← visit_next timeline st;
      match r with Some st => visit_all fuel timeline st | None => mret st end
  end.

Record TimelineVisitOutcome := MkOutcome { vo_completed_keyspace : KeySpace; vo_image_covered_keyspace : KeySpace }.

Definition get_vectored_reconstruct_data_timeline (fuel : nat) (timeline : Timeline) (query : Query) : R TimelineVisitOutcome :=
  fringe ← get_vectored_init_fringe timeline query;
  st ← visit_all fuel timeline (MkTraversal fringe [] []);
  match KeySpaceRandomAccum.to_keyspace (image_covered_keyspace st) with
  | Ok covered => mret (MkOutcome (completed_keyspace st) covered)
  | _ => liftR Panic
  end.

(** The loop over the timeline and its ancestors: the keys that are missing, if any. *)
Fixpoint visit_timelines (fuel : nat) (timeline : Timeline) (query : Query) : R (option KeySpace) :=
  _ ← check_cancelled;
  out ← get_vectored_reconstruct_data_timeline fuel timeline query;
  q ← liftR (VersionedKeySpaceQuery.remove_overlapping_with query (vo_completed_keyspace out));
  q ← liftR (VersionedKeySpaceQuery.remove_overlapping_with q.1 [NON_INHERITED_RANGE; Key.sparse_non_inherited_keyspace]);
  if VersionedKeySpaceQuery.is_empty q.1 then mret None
  else
    match timeline with
    | MkTimeline _ _ None _ => ks ← liftR (VersionedKeySpaceQuery.total_keyspace q.1); mret (Some ks)
    | MkTimeline _ ancestor_lsn (Some ancestor_timeline) ancestor_ready =>
        q ← liftR (VersionedKeySpaceQuery.remove_overlapping_with q.1 (vo_image_covered_keyspace out));
        removed ← liftR (of_loop (KeySpace.remove_overlapping_with q.2 [SPARSE_RANGE]));
        if negb (KeySpace.is_empty removed.1) then mret (Some removed.1)
        else
          match ancestor_ready with
          | Some e => bail e
          | None => visit_timelines fuel ancestor_timeline (VersionedKeySpaceQuery.lower ancestor_lsn q.1)
          end
    end.

Definition get_vectored_reconstruct_data (fuel : nat) (self : Timeline) (query : Query) : R unit :=
  _ ← liftR (match VersionedKeySpaceQuery.high_watermark_lsn query with Ok l => Ok l | _ => Panic (* unwrap *) end);
  missing_keyspace ← visit_timelines fuel self query;
  match missing_keyspace with
  | Some ks =>
      missing ← liftR (of_loop (KeySpace.remove_overlapping_with ks [SPARSE_RANGE]));
      if KeySpace.is_empty missing.1 then mret tt else bail (MissingKey missing.1)
  | None => mret tt
  end.

(** The future of one key; [outcomes] are those of its redo attempts. *)
Definition reconstruct_key `{ValueCodec} `{RedoProcess} (outcomes : list (option RedoError)) (redo_attempt_type : RedoAttemptType)
    (key : Key) (state : KeyState) : Res bytes :=
  if bool_decide (VectoredValueReconstructState.situation state = Complete) then
    converted ← VectoredValueReconstructState.collect_pending_ios state;
    (reconstruct_value key converted redo_attempt_type outcomes).1
  else Panic.

Definition get_vectored_impl `{ValueCodec} `{RedoProcess} (outcomes : Key → list (option RedoError)) (redo_attempt_type : RedoAttemptType)
    (fuel : nat) (self : Timeline) (query : Query) : R (gmap Key (Res bytes)) :=
  if VersionedKeySpaceQuery.is_empty query then mret ∅
  else λ s,
    let '(traversal_res, s) := get_vectored_reconstruct_data fuel self query s in
    let keys := ValuesReconstructState.keys (reconstruct_state s) in
    let taken := MkReading (clock s) (ValuesReconstructState.set_keys ∅ (reconstruct_state s)) in
    match traversal_res with
    | Panic => (Panic, s)
    | Err err =>
        (* the values are waited for *)
        if forallb (λ x, negb (is_panic (VectoredValueReconstructState.collect_pending_ios x.2))) (map_to_list keys)
        then (Err err, taken) else (Panic, taken)
    | Ok _ =>
        let results := map_imap (λ key state, Some (reconstruct_key (outcomes key) redo_attempt_type key state)) keys in
        if forallb (λ x, is_ok (VersionedKeySpaceQuery.map_key_to_lsn query x.1)) (map_to_list keys) &&
           forallb (λ x, negb (is_panic x.2)) (map_to_list results)
        then (Ok results, taken) else (Panic, taken)
    end.

(** [PageReconstructError], as far as [get] tells the cases apart. *)
Inductive PageReconstructError := PrVectored (e : GetVectoredError) | PrRedo (e : RedoError) | PrInvalidLsn | PrWrongKey | PrMissingKey.

Definition get `{ValueCodec} `{RedoProcess} (outcomes : Key → list (option RedoError)) (redo_attempt_type : RedoAttemptType)
    (fuel : nat) (self : Timeline) (key : Key) (lsn : Lsn) (time : nat) : result PageReconstructError bytes :=
  if negb (VersionedKeySpaceQuery.is_valid lsn) then Err PrInvalidLsn
  else
    match singleton_range key with
    | Ok range =>
        vectored_res ← map_err PrVectored
          (get_vectored_impl outcomes redo_attempt_type fuel self (VersionedKeySpaceQuery.Uniform [range] lsn)
             (MkReading time ValuesReconstructState.new)).1;
        match head (sort_by (λ a b, Key.leb a.1 b.1) (map_to_list vectored_res)) with
        | Some (got_key, value) => if Key.eqb got_key key then map_err PrRedo value else Err PrWrongKey
        | None => Err PrMissingKey
        end
    | _ => Panic
    end.
End read.
