(* ===== verification/ReadFringe.v ===== *)
(** The fringe of a read: which layer is visited next and for which keys, and what the
    search of the layer map adds to it. *)

From stdpp Require Import gmap.
From S2P Require Import Prelude Text Loops OrdMaps Lsns Keys KeysFacts Shards KeySpaces KeySpaceFacts.
From S2P Require Import LayerCoverage HistoricCoverage LayerMaps LayerMapUpdates LayerMapFacts LayerSearch RangeSearchFacts.
From S2P Require Import WalRedos ReadPaths.
Local Open Scope Z_scope.

Abbreviation VisitId := LayerToVisitId.t.
Abbreviation Fringe := LayerFringe.t.
Abbreviation Reads := LayerFringe.LayerVisitReads.

(** A key is to be looked up in a visit. *)
Definition in_fringe (F : Fringe) (id : VisitId) (k : Key) : Prop :=
  ∃ r, (id, r) ∈ LayerFringe.visit_reads F ∧ mem (LayerFringe.target_keyspace r) k.

(** The files of one timeline. *)
Definition file_of (tlid : bytes) (id : LayerId) : bytes * LayerId :=
  (match id with PersistentLayerId _ => tlid | InMemoryLayerId _ => [] end, id).

Section timeline.
Context (tlid : bytes).

Definition reads_ok (id : VisitId) (r : Reads) : Prop :=
  ReadableLayer.file (LayerFringe.layer r) = file_of tlid (LayerToVisitId.layer_id id) ∧
  Forall nonempty (LayerFringe.target_keyspace r) ∧ ks_in compactable (LayerFringe.target_keyspace r).

Definition visit_range (id : VisitId) : Range Z := mkRange (LayerToVisitId.lsn_floor id) (LayerToVisitId.lsn_ceil id).
Definition visit_of (id : VisitId) : LayerVisit.t := LayerVisit.Mk id (visit_range id).

(** The heap has the visits of the map, each once. *)
Record fringe_wf (F : Fringe) : Prop := {
  fw_nodup : NoDup (LayerFringe.visit_reads F).*1;
  fw_heap : LayerFringe.planned_visits_by_lsn F ≡ₚ visit_of <$> (LayerFringe.visit_reads F).*1;
  fw_reads id r : (id, r) ∈ LayerFringe.visit_reads F → reads_ok id r
}.

Lemma fringe_wf_new : fringe_wf LayerFringe.new.
Proof. split; [constructor|done|]. by intros id r ?%not_elem_of_nil. Qed.

Lemma in_fringe_new id k : ¬ in_fringe LayerFringe.new id k.
Proof. by intros (r & ?%not_elem_of_nil & _). Qed.

Lemma entry_unique (l : list (VisitId * Reads)) id r r' : NoDup l.*1 → (id, r) ∈ l → (id, r') ∈ l → r = r'.
Proof.
  intros Hn [i Hi]%list_elem_of_lookup_1 [j Hj]%list_elem_of_lookup_1.
  assert (i = j) as ->; [|congruence]. apply (NoDup_lookup _ _ _ id Hn); rewrite list_lookup_fmap; [by rewrite Hi|by rewrite Hj].
Qed.

(** * The next layer *)

Lemma remove_entry_spec id l :
  match LayerFringe.remove_entry id l with
  | Some (r, rest) => l ≡ₚ (id, r) :: rest
  | None => id ∉ l.*1
  end.
Proof.
  induction l as [|[id' r'] l IH]; cbn [LayerFringe.remove_entry]; [apply not_elem_of_nil|].
  case_bool_decide as E; [by subst|]. cbn [mbind option_bind]. destruct (LayerFringe.remove_entry id l) as [[r rest]|]; cbn.
  - rewrite IH. apply perm_swap.
  - apply not_elem_of_cons. by split.
Qed.

Lemma visit_cmp_opp a b : LayerVisit.cmp a b = CompOpp (LayerVisit.cmp b a).
Proof.
  unfold LayerVisit.cmp. rewrite (Z.compare_antisym (r_end (LayerVisit.lsn_range b))).
  rewrite (Z.compare_antisym (r_start (LayerVisit.lsn_range b))). by destruct (_ ?= _); cbn; rewrite ?CompOpp_involutive.
Qed.

Lemma visit_cmp_le a b : LayerVisit.cmp a b ≠ Gt ↔
  r_end (LayerVisit.lsn_range a) < r_end (LayerVisit.lsn_range b) ∨
  r_end (LayerVisit.lsn_range a) = r_end (LayerVisit.lsn_range b) ∧ r_start (LayerVisit.lsn_range b) ≤ r_start (LayerVisit.lsn_range a).
Proof.
  unfold LayerVisit.cmp. destruct (Z.compare_spec (r_end (LayerVisit.lsn_range a)) (r_end (LayerVisit.lsn_range b))).
  - destruct (Z.compare_spec (r_start (LayerVisit.lsn_range a)) (r_start (LayerVisit.lsn_range b))); cbn; split; intros; try done; try lia.
  - split; [lia|done].
  - split; [done|lia].
Qed.

Section pop.
Context `{BinaryHeapLaws}.

(** The visit that is taken has an upper end that no other one is above; its keys leave
    the fringe. *)
Lemma next_layer_spec F : fringe_wf F →
  (LayerFringe.visit_reads F = [] ∧ LayerFringe.next_layer F = Ok (None, F)) ∨
  ∃ id r ks F', LayerFringe.next_layer F = Ok (Some (LayerFringe.layer r, ks, visit_range id), F') ∧ fringe_wf F' ∧
    LayerFringe.visit_reads F ≡ₚ (id, r) :: LayerFringe.visit_reads F' ∧
    ks_normal ks ∧ ks_in compactable ks ∧ (∀ k, mem ks k ↔ mem (LayerFringe.target_keyspace r) k) ∧
    ∀ id', id' ∈ (LayerFringe.visit_reads F).*1 → LayerToVisitId.lsn_ceil id' ≤ LayerToVisitId.lsn_ceil id.
Proof.
  intros Hwf. pose proof (fw_heap _ Hwf) as Hheap. unfold LayerFringe.next_layer.
  destruct (LayerFringe.planned_visits_by_lsn F) as [|v0 vs] eqn:Ep.
  { left. rewrite heap_pop_nil. symmetry in Hheap. apply Permutation_nil_r in Hheap. by apply fmap_nil_inv, fmap_nil_inv in Hheap. }
  right. destruct (heap_pop_some LayerVisit.cmp (v0 :: vs)) as (v & rest & -> & Hperm & Hmax); [done| |apply visit_cmp_opp|].
  { intros a b c. rewrite !visit_cmp_le. lia. }
  rewrite Hheap in Hperm. setoid_rewrite Hheap in Hmax. clear v0 vs Ep Hheap. set (ids := (LayerFringe.visit_reads F).*1) in *.
  assert (v ∈ visit_of <$> ids) as (id & -> & Hid)%list_elem_of_fmap by (rewrite Hperm; by left). cbn [LayerVisit.layer_to_visit_id visit_of].
  pose proof (remove_entry_spec id (LayerFringe.visit_reads F)) as Hrem.
  destruct (LayerFringe.remove_entry id (LayerFringe.visit_reads F)) as [[r l]|]; [|done].
  destruct (fw_reads _ Hwf id r) as (Hlay & Hne & Hin); [rewrite Hrem; by left|].
  destruct (random_accum_spec _ Hne) as (ks & E & Hks & Hmem). rewrite E. exists id, r, ks, (LayerFringe.Mk rest l).
  split; [done|]. split; [split; cbn|split; [done|]].
  - pose proof (fw_nodup _ Hwf) as Hn. rewrite Hrem in Hn. by apply NoDup_cons in Hn as [_ ?].
  - assert (visit_of id :: rest ≡ₚ visit_of id :: (visit_of <$> l.*1)) as Hp; [|by apply (Permutation_cons_inv (a := visit_of id))].
    rewrite <-Hperm. unfold ids. by rewrite Hrem.
  - intros id' r' Hr'. apply (fw_reads _ Hwf). rewrite Hrem. by right.
  - split; [done|]. split; [by apply (random_accum_in _ _ _ E)|]. split; [done|].
    intros id' Hid'. assert (visit_of id' ∈ visit_of <$> ids) as Hv by (by apply list_elem_of_fmap_2).
    specialize (Hmax _ Hv). rewrite visit_cmp_le in Hmax. cbn in Hmax. lia.
Qed.
End pop.

(** * Adding keys *)

Lemma add_to_entry_spec id ks l :
  match LayerFringe.add_to_entry id ks l with
  | Some l' => l'.*1 = l.*1 ∧ ∃ l1 r l2, l = l1 ++ (id, r) :: l2 ∧
      l' = l1 ++ (id, LayerFringe.MkReads (LayerFringe.layer r) (LayerFringe.target_keyspace r ++ ks)) :: l2
  | None => id ∉ l.*1
  end.
Proof.
  induction l as [|[id' r'] l IH]; cbn [LayerFringe.add_to_entry]; [apply not_elem_of_nil|].
  case_bool_decide as E; [subst; split; [done|]; by exists [], r', l|]. cbn [mbind option_bind].
  destruct (LayerFringe.add_to_entry id ks l) as [l'|]; cbn.
  - destruct IH as (-> & l1 & r & l2 & -> & ->). split; [done|]. by exists ((id', r') :: l1), r, l2.
  - apply not_elem_of_cons. by split.
Qed.

Lemma update_spec lr ks range F : fringe_wf F → ReadableLayer.file lr = file_of tlid (ReadableLayer.id lr) → Forall nonempty ks → ks_in compactable ks →
  let id := LayerToVisitId.Mk (ReadableLayer.id lr) (r_start range) (r_end range) in
  let F' := LayerFringe.update lr ks range F in
  fringe_wf F' ∧ (∀ id' k, in_fringe F' id' k ↔ in_fringe F id' k ∨ id' = id ∧ mem ks k) ∧
  (∀ id', id' ∈ (LayerFringe.visit_reads F').*1 → id' ∈ (LayerFringe.visit_reads F).*1 ∨ id' = id).
Proof.
  intros Hwf Hfile Hne Hin id F'. unfold F', LayerFringe.update. fold id.
  pose proof (add_to_entry_spec id ks (LayerFringe.visit_reads F)) as Hadd.
  destruct (LayerFringe.add_to_entry id ks (LayerFringe.visit_reads F)) as [l'|].
  - destruct Hadd as (Efst & l1 & r & l2 & El & ->). destruct (fw_reads _ Hwf id r) as (H1 & H2 & H3).
    { rewrite El. apply elem_of_app. right. by left. }
    split; [split; cbn; rewrite ?Efst; [apply Hwf|apply Hwf|]|split].
    + intros id' r'. rewrite elem_of_app, elem_of_cons. intros [Hr|[[= -> ->]|Hr]].
      * apply (fw_reads _ Hwf). rewrite El. apply elem_of_app. by left.
      * split; [done|]. split; [by apply Forall_app|by apply ks_in_app].
      * apply (fw_reads _ Hwf). rewrite El. apply elem_of_app. right. by right.
    + intros id' k. unfold in_fringe. cbn. rewrite El. setoid_rewrite elem_of_app. setoid_rewrite elem_of_cons. split.
      * intros (r' & [Hr|[[= -> ->]|Hr]] & Hk); [left; eauto| |left; eauto]. cbn in Hk. apply mem_app in Hk as [Hk|Hk]; [left; eauto|by right].
      * intros [(r' & [Hr|[[= -> ->]|Hr]] & Hk)|[-> Hk]]; [eauto| |eauto|].
        -- eexists. split; [right; by left|]. cbn. apply mem_app. by left.
        -- eexists. split; [right; by left|]. cbn. apply mem_app. by right.
    + cbn. rewrite Efst. by left.
  - split; [split; cbn|split].
    + rewrite fmap_app. apply NoDup_app. split; [apply Hwf|]. split; [|apply NoDup_singleton]. intros x Hx ->%list_elem_of_singleton. done.
    + rewrite fmap_app, fmap_app. cbn [fmap list_fmap fst]. rewrite (fw_heap _ Hwf).
      enough (LayerVisit.Mk id range = visit_of id) as -> by done. unfold visit_of, visit_range. cbn. by destruct range.
    + intros id' r'. rewrite elem_of_app, list_elem_of_singleton. intros [Hr|[= -> ->]]; [by apply (fw_reads _ Hwf)|done].
    + intros id' k. unfold in_fringe. cbn. setoid_rewrite elem_of_app. setoid_rewrite list_elem_of_singleton. split.
      * intros (r' & [Hr|[= -> ->]] & Hk); [left; eauto|by right].
      * intros [(r' & Hr & Hk)|[-> Hk]]; [eauto|]. eexists. split; [by right|done].
    + intros id'. cbn. rewrite fmap_app, elem_of_app. cbn. rewrite list_elem_of_singleton. tauto.
Qed.

(** * Searching the layer map *)

Lemma mem_first q (l : KeySpace) : nonempty q → mem (q :: l) (r_start q).
Proof. intros Hq. exists q. split; [by left|]. rng. Qed.

Section search.
Context {T : Type → Type} `{RedBlackTreeLaws T} `{BinaryHeap} `{HashOrderLaws}.

(** The layer map and the files of its layers. *)
Record manager_ok (lm : LayerMap.t T) (fmgr : list (PersistentLayerKey * PersistentLayerDesc)) (A : list PersistentLayerDesc) : Prop := {
  mo_represents : represents lm A;
  mo_flushed : flushed lm;
  mo_layers : layers_ok lm A;
  mo_files d : d ∈ A → ∃ d', LayerManager.get_from_key (PersistentLayerDesc.key d) fmgr = Some d' ∧
    PersistentLayerDesc.key d' = PersistentLayerDesc.key d ∧ pd_timeline_id d' = tlid
}.

Definition weak_id (lm : LayerMap.t T) (w : ReadableLayerWeak) : LayerId :=
  match w with
  | PersistentLayer d => PersistentLayerId (PersistentLayerDesc.key d)
  | InMemory desc => InMemoryLayerId (default 0 (im_file_id <$> mem_at lm (handle desc)))
  end.

Definition visit_id (lm : LayerMap.t T) (c : Z) (r : SearchResult) : VisitId := LayerToVisitId.Mk (weak_id lm (sr_layer r)) (lsn_floor r) c.

Context (lm : LayerMap.t T) (fmgr : list (PersistentLayerKey * PersistentLayerDesc)) (A : list PersistentLayerDesc).
Context (Hok : manager_ok lm fmgr A) (c : Z) (Hc : 1 ≤ c < 2 ^ 64).

Lemma search_total k : compactable k → ∃ o, LayerMap.search k c lm = Ok o.
Proof.
  intros Hk. destruct (compactable_key_of k Hk) as (x & _ & _ & Ex). destruct Hok as [Hr Hf Hl _].
  destruct (search_spec lm A k x c Hr Hf Hl Ex Hc) as (o & E & _). by exists o.
Qed.

Lemma upgrade_found k r : compactable k → LayerMap.search k c lm = Ok (Some r) →
  ∃ lr, LayerManager.upgrade lm fmgr (sr_layer r) = Ok lr ∧ ReadableLayer.file lr = file_of tlid (weak_id lm (sr_layer r)).
Proof.
  intros Hk Es. destruct (compactable_key_of k Hk) as (x & _ & _ & Ex). destruct Hok as [Hr Hf Hl Hfiles].
  destruct (search_spec lm A k x c Hr Hf Hl Ex Hc) as (o & E & Ho). rewrite Es in E. injection E as <-. destruct Ho as [_ Ho].
  unfold LayerManager.upgrade, weak_id. destruct (sr_layer r) as [d|desc].
  - destruct Ho as (Hd & _). destruct (Hfiles d Hd) as (d' & -> & Ek & Et). eexists. split; [done|]. unfold ReadableLayer.file, file_of. cbn. by rewrite Ek, Et.
  - destruct Ho as (m & Em & _). unfold LayerManager.in_memory_layer. unfold mem_at in Em |- *. rewrite Em. by eexists.
Qed.

Lemma add_results_spec results F : fringe_wf F →
  (∀ r acc, (r, acc) ∈ results → Forall nonempty (KeySpaceAccum.to_keyspace acc) ∧ ks_in compactable (KeySpaceAccum.to_keyspace acc) ∧
     ∃ lr, LayerManager.upgrade lm fmgr (sr_layer r) = Ok lr ∧ ReadableLayer.file lr = file_of tlid (weak_id lm (sr_layer r))) →
  ∃ F', LayerManager.add_results lm fmgr c results F = Ok F' ∧ fringe_wf F' ∧
    (∀ id k, in_fringe F' id k ↔ in_fringe F id k ∨ ∃ r acc, (r, acc) ∈ results ∧ mem (KeySpaceAccum.to_keyspace acc) k ∧ id = visit_id lm c r) ∧
    (∀ id, id ∈ (LayerFringe.visit_reads F').*1 → id ∈ (LayerFringe.visit_reads F).*1 ∨ ∃ r acc, (r, acc) ∈ results ∧ id = visit_id lm c r).
Proof.
  revert F. induction results as [|[r acc] results IH]; intros F HF Hres; cbn [LayerManager.add_results].
  { exists F. split; [done|]. split; [done|]. split; [|by left]. intros id k. split; [by left|]. intros [?|(r & acc & ?%not_elem_of_nil & _)]; done. }
  destruct (Hres r acc) as (Hne & Hin & lr & -> & Elr); [by left|]. cbn [mbind result_bind].
  assert (ReadableLayer.id lr = weak_id lm (sr_layer r)) as Eid by by injection Elr.
  destruct (update_spec lr (KeySpaceAccum.to_keyspace acc) (mkRange (lsn_floor r) c) F HF ltac:(by rewrite Eid) Hne Hin) as (HF1 & Hmem & Hids).
  rewrite Eid in Hmem, Hids. cbn [r_start r_end] in *. change (LayerToVisitId.Mk _ _ _) with (visit_id lm c r) in Hmem, Hids.
  destruct (IH _ HF1) as (F' & E & HF' & Hmem' & Hids'). { intros r' acc' Hr'. apply Hres. by right. }
  exists F'. split; [done|]. split; [done|]. split.
  - intros id k. rewrite Hmem', Hmem. setoid_rewrite elem_of_cons. split.
    + intros [[?|[-> Hk]]|(r' & acc' & Hr & Hk & ->)]; [by left|right; exists r, acc; split; [by left|done]|right; exists r', acc'; split; [by right|done]].
    + intros [?|(r' & acc' & [[= -> ->]|Hr] & Hk & ->)]; [left; by left|left; by right|right; by exists r', acc'].
  - intros id [[?| ->]%Hids|(r' & acc' & Hr & ->)]%Hids'; [by left|right; exists r, acc; split; [by left|done]|right; exists r', acc'; split; [by right|done]].
Qed.

Definition search_adds (ks : KeySpace) (F F' : Fringe) : Prop :=
  (∀ id k, compactable k → in_fringe F' id k ↔
     in_fringe F id k ∨ mem ks k ∧ ∃ r, LayerMap.search k c lm = Ok (Some r) ∧ id = visit_id lm c r) ∧
  (∀ id k, in_fringe F' id k → in_fringe F id k ∨ mem ks k) ∧
  (∀ id, id ∈ (LayerFringe.visit_reads F').*1 → id ∈ (LayerFringe.visit_reads F).*1 ∨
     ∃ k r, compactable k ∧ mem ks k ∧ LayerMap.search k c lm = Ok (Some r) ∧ id = visit_id lm c r).

(** The keys that are searched enter the fringe where [search] finds them. *)
Lemma add_ranges_spec ks F : Forall nonempty ks → ks_in compactable ks → fringe_wf F →
  ∃ F', LayerManager.add_ranges lm fmgr ks c F = Ok F' ∧ fringe_wf F' ∧ search_adds ks F F'.
Proof.
  revert F. induction ks as [|kr ks IH]; intros F Hne Hin HF; cbn [LayerManager.add_ranges].
  { exists F. split; [done|]. split; [done|]. unfold search_adds. setoid_rewrite mem_nil. split_and!; [tauto|tauto|by left]. }
  apply Forall_cons in Hne as [Hkr Hne], Hin as [[Hs He] Hin].
  destruct (range_search_spec lm kr c Hs He Hkr) as (found & -> & _ & Hfound & Hsearch); [by intros k Hk _; apply search_total|].
  cbn [of_loop mbind result_bind]. assert (∀ x, x ∈ hash_order found ↔ x ∈ found) as Hho by (intros x; by rewrite hash_order_perm).
  assert (∀ r acc, (r, acc) ∈ found → ∃ k, compactable k ∧ in_range kr k ∧ mem (KeySpaceAccum.to_keyspace acc) k ∧ LayerMap.search k c lm = Ok (Some r)) as Hkey.
  { intros r acc Hr. destruct (Hfound r acc Hr) as ([Hn _] & Hi & Hnil & Hsub). destruct (KeySpaceAccum.to_keyspace acc) as [|q l] eqn:Eacc; [done|].
    apply Forall_cons in Hn as [Hq _], Hi as [[Hq1 _] _]. pose proof (mem_first q l Hq) as Hm.
    pose proof (Hsub _ Hm) as Hin'. exists (r_start q). split; [exact Hq1|]. split; [exact Hin'|]. split; [exact Hm|].
    apply (Hsearch _ _ Hq1 Hin'). exists acc. rewrite Eacc. split; [exact Hr|exact Hm]. }
  destruct (add_results_spec (hash_order found) F HF) as (F1 & -> & HF1 & Hmem1 & Hids1).
  { intros r acc Hr%Hho. destruct (Hfound r acc Hr) as ([Hn _] & Hi & _). split; [done|]. split; [done|].
    destruct (Hkey r acc Hr) as (k & Hk & _ & _ & Es). by apply (upgrade_found k). }
  cbn [mbind result_bind]. destruct (IH F1 Hne Hin HF1) as (F' & E & HF' & Hmem' & Hsub' & Hids'). exists F'. split; [done|]. split; [done|].
  split; [|split].
  - intros id k Hk. rewrite Hmem', Hmem1, mem_cons by done. split.
    + intros [[?|(r & acc & Hr%Hho & Hka & ->)]|[Hm Hr]]; [by left| |right; split; [by right|done]].
      right. destruct (Hfound r acc Hr) as (_ & _ & _ & Hsub). split; [left; by apply Hsub|]. exists r. split; [|done].
      apply Hsearch; [done|by apply Hsub|by exists acc].
    + intros [?|[[Hkr'|Hm] (r & Es & ->)]]; [left; by left| |right; split; [done|by exists r]].
      left. right. destruct (proj2 (Hsearch k r Hk Hkr') Es) as (acc & Hr & Hka). exists r, acc. by rewrite Hho.
  - intros id k Hf. setoid_rewrite mem_cons. destruct (Hsub' id k Hf) as [Hf1|?]; [|tauto]. apply Hmem1 in Hf1 as [?|(r & acc & Hr%Hho & Hka & ->)]; [tauto|].
    destruct (Hfound r acc Hr) as (_ & _ & _ & Hsub). specialize (Hsub k Hka). tauto.
  - intros id [[?|(r & acc & Hr%Hho & ->)]%Hids1|(k & r & Hk & Hm & Es & ->)]%Hids'; [by left| |].
    + right. destruct (Hkey r acc Hr) as (k & Hk & Hkr' & _ & Es). exists k, r. rewrite mem_cons. tauto.
    + right. exists k, r. rewrite mem_cons. tauto.
Qed.
End search.
End timeline.
