(* ===== verification/WalRedoFacts.v ===== *)
(** WAL redo: the batches in which records are applied make no difference, and what the
    records of the commit log do to the status of transactions. *)

From S2P Require Import Prelude Text Lsns Keys Feedbacks WalRedos.
Local Open Scope Z_scope.

(** * Computations that may fail for a reason of their own *)

(** [m] gives [r] when no attempt fails, and whenever it succeeds or panics. *)
Definition runs_as {A} (m : Redo A) (r : Res A) : Prop :=
  ∀ io, (Forall (λ o, o = None) io → (m io).1 = r ∧ Forall (λ o, o = None) (m io).2) ∧
        (∀ a, (m io).1 = Ok a → r = Ok a) ∧ ((m io).1 = Panic → r = Panic).

Lemma runs_ret {A} (a : A) : runs_as (mret a) (Ok a).
Proof. intros io. split_and!; [by intros ?|by intros ? [= ->]|done]. Qed.

Lemma runs_bail {A} e : runs_as (bail e : Redo A) (Err e).
Proof. intros io. by split_and!. Qed.

Lemma runs_lift {A} (r : Res A) : runs_as (liftR r) r.
Proof. intros io. by split_and!. Qed.

Lemma runs_attempt : runs_as attempt (Ok tt).
Proof.
  intros [|[e|] io]; cbn; split_and!; try done; try (by intros [] [= ]).
  - intros H. by apply Forall_cons in H as [? _].
  - intros H. by apply Forall_cons in H as [_ ?].
Qed.

Lemma runs_bind {A B} (m : Redo A) r (f : A → Redo B) g : runs_as m r → (∀ a, r = Ok a → runs_as (f a) (g a)) → runs_as (m ≫= f) (r ≫= g).
Proof.
  intros Hm Hf io. destruct (Hm io) as (Hs & Ho & Hp). unfold mbind, M_bind. destruct (m io) as [[a|e|] io1]; cbn [fst snd] in *.
  - specialize (Ho a eq_refl) as ->. destruct (Hf a eq_refl io1) as (Hs' & Ho' & Hp'). cbn [mbind result_bind]. split_and!; [|done..].
    intros Hio. by apply Hs', Hs.
  - split_and!; [|done..]. intros Hio. by destruct (Hs Hio) as [<- ?].
  - specialize (Hp eq_refl) as ->. split_and!; [|done..]. intros Hio. by destruct (Hs Hio).
Qed.

Lemma runs_seq {A B} (m : Redo A) a (f : A → Redo B) r : runs_as m (Ok a) → runs_as (f a) r → runs_as (m ≫= f) r.
Proof. intros Hm Hf. apply (runs_bind m (Ok a) f (λ _, r) Hm). by intros ? [= <-]. Qed.

Lemma runs_attempts n m r : runs_as m r → runs_as (PostgresRedoManager.attempts n m) r.
Proof.
  intros Hm. induction n as [|n IH]; intros io; cbn [PostgresRedoManager.attempts]; destruct (Hm io) as (Hs & Ho & Hp);
    destruct (m io) as [[a|e|] io1]; cbn [fst snd] in *; try (by split_and!).
  destruct (IH io1) as (Hs' & Ho' & Hp'). split_and!; [|done..]. intros Hio. by apply Hs', Hs.
Qed.

Lemma runs_eq {A} (m : Redo A) r r' : runs_as m r → r = r' → runs_as m r'.
Proof. by intros ? <-. Qed.

(** * Batches *)

Section batches.
Context `{RedoProcessLaws} (key : Key).

(** One record at a time. *)
Definition replay_one (cur : option bytes) (r : Lsn * NeonWalRecord) : Res bytes :=
  match r.2 with
  | Postgres _ rec => b ← rel_block key; of_option Other (apply_wal_records b.1 b.2 cur [(r.1, rec)])
  | rec => match cur with Some page => apply_in_neon rec r.1 key page | None => Err Other end
  end.

Fixpoint replay_from (page : bytes) (rs : list (Lsn * NeonWalRecord)) : Res bytes :=
  match rs with [] => Ok page | r :: rs => page ← replay_one (Some page) r; replay_from page rs end.

Definition replay (cur : option bytes) (rs : list (Lsn * NeonWalRecord)) : Res bytes :=
  match rs with
  | [] => of_option Other cur
  | r :: rs => page ← replay_one cur r; replay_from page rs
  end.

Lemma replay_Some page rs : replay (Some page) rs = replay_from page rs.
Proof. by destruct rs. Qed.

Lemma replay_from_app page rs1 rs2 : replay_from page (rs1 ++ rs2) = (page ← replay_from page rs1; replay_from page rs2).
Proof. revert page. induction rs1 as [|r rs1 IH]; intros page; [done|]. cbn. destruct (replay_one (Some page) r); [apply IH|done..]. Qed.

Lemma replay_app cur rs1 rs2 : rs1 ≠ [] → replay cur (rs1 ++ rs2) = (page ← replay cur rs1; replay_from page rs2).
Proof. destruct rs1 as [|r rs1]; [done|]. intros _. cbn. destruct (replay_one cur r); [apply replay_from_app|done..]. Qed.

Definition batch_ok (neon : bool) (batch : list (Lsn * NeonWalRecord)) : Prop :=
  batch ≠ [] ∧ Forall (λ r, can_apply_in_neon r.2 = neon) batch.

Lemma replay_neon page r : can_apply_in_neon r.2 = true → replay_one (Some page) r = apply_in_neon r.2 r.1 key page.
Proof. unfold replay_one. by destruct (r.2). Qed.

Lemma neon_batch batch page : Forall (λ r, can_apply_in_neon r.2 = true) batch →
  PostgresRedoManager.apply_records_neon key page batch = replay_from page batch.
Proof.
  intros Hb. revert page. induction Hb as [|[lsn rec] batch Hr _ IH]; intros page; [done|]. cbn [PostgresRedoManager.apply_records_neon replay_from].
  rewrite replay_neon by done. unfold PostgresRedoManager.apply_record_neon. cbn [fst snd]. destruct (apply_in_neon _ _ _ _); [apply IH|done..].
Qed.

Lemma postgres_records_ok batch : Forall (λ r, can_apply_in_neon r.2 = false) batch →
  ∃ recs, PostgresRedoManager.postgres_records batch = Ok recs ∧ length recs = length batch ∧
    ∀ rb, rel_block key = Ok rb →
      (∀ page, replay_from page batch = match recs with [] => Ok page | _ => of_option Other (apply_wal_records rb.1 rb.2 (Some page) recs) end) ∧
      (∀ cur, batch ≠ [] → replay cur batch = of_option Other (apply_wal_records rb.1 rb.2 cur recs)).
Proof.
  induction 1 as [|[lsn rec] batch Hr _ (recs & E & Hl & IH)]; [by exists []|]. destruct rec as [wi rec| | | | | | |]; try done. cbn. rewrite E. cbn.
  eexists. split_and!; [done|cbn; by rewrite Hl|]. intros rb Erb. destruct (IH rb Erb) as [IH1 _].
  assert (∀ cur, (page ← replay_one cur (lsn, Postgres wi rec); replay_from page batch) = of_option Other (apply_wal_records rb.1 rb.2 cur ((lsn, rec) :: recs))) as Hcur.
  { intros cur. unfold replay_one. cbn [snd fst]. rewrite Erb. cbn [mbind result_bind]. destruct recs as [|r recs].
    - destruct batch; [|done]. by destruct (apply_wal_records _ _ cur _).
    - rewrite apply_wal_records_cons. destruct (apply_wal_records rb.1 rb.2 cur [(lsn, rec)]) as [page|]; [|done]. cbn. by rewrite IH1. }
  split; [intros page; apply Hcur|by intros cur _; apply Hcur].
Qed.

(** A batch is the replay of its records. *)
Lemma batch_runs neon img batch retries : batch_ok neon batch →
  runs_as (PostgresRedoManager.apply_batch key neon img batch retries) (replay img batch).
Proof.
  intros [Hne Hb]. unfold PostgresRedoManager.apply_batch. destruct neon.
  - unfold PostgresRedoManager.apply_batch_neon. destruct img as [page|].
    + rewrite replay_Some, <-neon_batch by done. apply runs_lift.
    + destruct batch as [|[lsn rec] batch]; [done|]. apply Forall_cons in Hb as [Hr _]. cbn. destruct rec; try done; apply runs_lift.
  - unfold PostgresRedoManager.apply_batch_postgres. destruct (postgres_records_ok batch Hb) as (recs & E & Hl & Hrec).
    destruct (rel_block key) as [rb|e|] eqn:Erb.
    + destruct (Hrec rb eq_refl) as [_ Hrep]. rewrite Hrep by done. eapply runs_seq; [apply runs_lift|].
      apply runs_attempts. eapply runs_seq; [apply runs_attempt|]. rewrite E. eapply runs_seq; [apply runs_lift|].
      destruct (apply_wal_records rb.1 rb.2 img recs); [apply runs_ret|apply runs_bail].
    + eapply runs_eq; [apply (runs_bind _ (Err e) _ (λ _, Panic)); [apply runs_lift|done]|]. destruct batch as [|[lsn rec] batch]; [done|].
      apply Forall_cons in Hb as [Hr _]. destruct rec; try done. cbn. unfold replay_one. cbn. by rewrite Erb.
    + unfold rel_block, KeyClass.to_rel_block in Erb. by destruct (field1 key =? 0).
Qed.

Lemma batches_run img neon batch rs retries : batch_ok neon batch →
  runs_as (PostgresRedoManager.redo_batches key img neon batch rs retries) (replay img (batch ++ rs)).
Proof.
  revert img neon batch. induction rs as [|r rs IH]; intros img neon batch Hb; cbn [PostgresRedoManager.redo_batches].
  { rewrite app_nil_r. by apply batch_runs. }
  destruct (Bool.eqb (can_apply_in_neon r.2) neon) eqn:Eb; cbn [negb].
  - apply Bool.eqb_prop in Eb. replace (batch ++ r :: rs) with ((batch ++ [r]) ++ rs) by by rewrite <-app_assoc.
    apply IH. destruct Hb as [Hne Hb]. split; [by destruct batch|]. apply Forall_app. split; [done|]. by repeat constructor.
  - rewrite replay_app by apply Hb. eapply runs_bind; [by apply batch_runs|]. intros page _. rewrite <-replay_Some. apply (IH (Some page) _ [r]).
    split; [done|by repeat constructor].
Qed.

Lemma request_redo_runs base rs ty : rs ≠ [] →
  runs_as (PostgresRedoManager.request_redo key base rs ty) (replay (snd <$> base) rs).
Proof. destruct rs as [|r rs]; [done|]. intros _. apply (batches_run _ _ [r]). split; [done|by repeat constructor]. Qed.
End batches.

(** * The commit log *)

Definition same_page (xid xid' : Z) : Prop := xid / CLOG_XACTS_PER_PAGE = xid' / CLOG_XACTS_PER_PAGE.

Definition status_bits (b xid : Z) : Z := Z.land (Z.shiftr b ((xid mod CLOG_XACTS_PER_BYTE) * CLOG_BITS_PER_XACT)) CLOG_XACT_BITMASK.
Definition with_status (b xid status : Z) : Z :=
  Z.lor (Z.land b (not8 (shl8 CLOG_XACT_BITMASK ((xid mod CLOG_XACTS_PER_BYTE) * CLOG_BITS_PER_XACT))))
    (shl8 status ((xid mod CLOG_XACTS_PER_BYTE) * CLOG_BITS_PER_XACT)).

(** The two bits of a transaction in a byte. *)
Lemma status_table : forallb (λ b, forallb (λ x, forallb (λ y, forallb (λ s,
    (status_bits (with_status b x s) y =? (if x =? y then s else status_bits b y)) && in_ub 8 (with_status b x s))
  (seqZ 0 4)) (seqZ 0 4)) (seqZ 0 4)) (seqZ 0 256) = true.
Proof. vm_compute. reflexivity. Qed.

Lemma status_set b xid xid' s : in_u 8 b → 0 ≤ s < 4 →
  status_bits (with_status b xid s) xid' = (if xid mod 4 =? xid' mod 4 then s else status_bits b xid') ∧ in_u 8 (with_status b xid s).
Proof.
  intros Hb Hs. pose proof status_table as H. apply (forallb_seqZ _ _ b) in H; [|done].
  apply (forallb_seqZ _ _ (xid mod 4)) in H; [|apply Z.mod_pos_bound; lia]. apply (forallb_seqZ _ _ (xid' mod 4)) in H; [|apply Z.mod_pos_bound; lia].
  apply (forallb_seqZ _ _ s) in H; [|done].
  apply andb_true_iff in H as [H1 H2]. apply Z.eqb_eq in H1. apply in_ub_spec in H2. unfold status_bits, with_status, CLOG_XACTS_PER_BYTE in *.
  rewrite !Zmod_mod in *. done.
Qed.

Definition clog_byte (xid : Z) : Z := (xid mod CLOG_XACTS_PER_PAGE) / CLOG_XACTS_PER_BYTE.

Lemma clog_byte_bound xid : 0 ≤ clog_byte xid < BLCKSZ.
Proof. unfold clog_byte, CLOG_XACTS_PER_PAGE, CLOG_XACTS_PER_BYTE, BLCKSZ. pose proof (Z.mod_pos_bound xid (8192 * 4) ltac:(lia)).
  split; [apply Z.div_pos; lia|apply Z.div_lt_upper_bound; lia].
Qed.

(** Transactions of a page have bits of their own. *)
Lemma clog_apart xid xid' : same_page xid xid' → clog_byte xid = clog_byte xid' → xid mod 4 = xid' mod 4 → xid = xid'.
Proof.
  unfold same_page, clog_byte, CLOG_XACTS_PER_PAGE, CLOG_XACTS_PER_BYTE, BLCKSZ. intros Hp Hb Hm.
  assert (xid mod (8192 * 4) mod 4 = xid mod 4) by (rewrite <-Znumtheory.Zmod_div_mod; [done|lia|lia|by exists 8192]).
  assert (xid' mod (8192 * 4) mod 4 = xid' mod 4) by (rewrite <-Znumtheory.Zmod_div_mod; [done|lia|lia|by exists 8192]).
  rewrite (Z.div_mod xid (8192 * 4)), (Z.div_mod xid' (8192 * 4)) by lia. rewrite Hp. f_equal.
  rewrite (Z.div_mod (xid mod (8192 * 4)) 4), (Z.div_mod (xid' mod (8192 * 4)) 4) by lia. congruence.
Qed.

Definition clog_page (page : bytes) : Prop := BLCKSZ ≤ Z.of_nat (length page) ∧ Forall (in_u 8) page.

Lemma clog_lookup page xid : clog_page page → ∃ b, page !! Z.to_nat (clog_byte xid) = Some b ∧ in_u 8 b.
Proof.
  intros [Hl Hb]. pose proof (clog_byte_bound xid). destruct (lookup_lt_is_Some_2 page (Z.to_nat (clog_byte xid))) as [b E]; [lia|].
  exists b. split; [done|]. by apply (Forall_lookup_1 _ _ _ _ Hb E).
Qed.

Lemma set_status_spec page xid status : clog_page page → 0 ≤ status < 4 →
  ∃ page', transaction_id_set_status xid status page = Ok page' ∧ clog_page page' ∧ length page' = length page ∧
    ∀ xid', same_page xid xid' → transaction_id_get_status xid' page' = if xid' =? xid then Ok status else transaction_id_get_status xid' page.
Proof.
  intros Hp Hs. destruct (clog_lookup page xid Hp) as (b & E & Hb). unfold transaction_id_set_status, page_byte. fold (clog_byte xid). rewrite E.
  cbn [mbind result_bind]. eexists. split; [done|]. fold (with_status b xid status). unfold set_byte. split_and!.
  - destruct Hp as [Hl Hf]. split; [by rewrite length_insert|]. apply Forall_insert; [done|]. by apply (status_set b xid xid status).
  - by rewrite length_insert.
  - intros xid' Hsame. destruct (clog_lookup page xid' Hp) as (b' & E' & Hb'). unfold transaction_id_get_status, page_byte. fold (clog_byte xid').
    destruct (decide (clog_byte xid = clog_byte xid')) as [Ec|Ec].
    + rewrite <-Ec, list_lookup_insert_eq by (by eapply lookup_lt_Some). rewrite E. cbn [mbind result_bind].
      fold (status_bits (with_status b xid status) xid') (status_bits b xid'). destruct (status_set b xid xid' status Hb Hs) as [-> _].
      destruct (Z.eqb_spec xid' xid) as [->|Hne]; [by rewrite Z.eqb_refl|]. destruct (Z.eqb_spec (xid mod 4) (xid' mod 4)) as [Em|]; [|done].
      destruct Hne. symmetry. by apply clog_apart.
    + pose proof (clog_byte_bound xid). pose proof (clog_byte_bound xid'). rewrite list_lookup_insert_ne by lia.
      destruct (Z.eqb_spec xid' xid) as [->|]; done.
Qed.

Lemma set_statuses_spec xids status segno blknum page pageno : clog_page page → 0 ≤ status < 4 →
  segno = pageno / SLRU_PAGES_PER_SEGMENT → blknum = pageno mod SLRU_PAGES_PER_SEGMENT → Forall (λ xid, xid / CLOG_XACTS_PER_PAGE = pageno) xids →
  ∃ page', set_statuses xids status segno blknum page = Ok page' ∧ clog_page page' ∧ length page' = length page ∧
    ∀ xid', xid' / CLOG_XACTS_PER_PAGE = pageno →
      transaction_id_get_status xid' page' = if bool_decide (xid' ∈ xids) then Ok status else transaction_id_get_status xid' page.
Proof.
  intros Hp Hs -> -> Hx. revert page Hp. induction Hx as [|xid xids Hxid _ IH]; intros page Hp.
  { exists page. by split_and!. }
  destruct (set_status_spec page xid status Hp Hs) as (page1 & E1 & Hp1 & Hl1 & Hg1). destruct (IH page1 Hp1) as (page2 & E2 & Hp2 & Hl2 & Hg2).
  exists page2. cbn [set_statuses]. rewrite Hxid, !Z.eqb_refl. cbn. rewrite E1. cbn. rewrite E2. split_and!; [done|apply Hp2..|congruence|].
  intros xid' Hx'. rewrite Hg2, Hg1 by (unfold same_page; congruence). destruct (Z.eqb_spec xid' xid) as [->|Hne].
  - rewrite (bool_decide_eq_true_2 (xid ∈ xid :: xids)) by (by left). by destruct (bool_decide _).
  - destruct (bool_decide_reflect (xid' ∈ xids)) as [Hin|Hin]; [by rewrite bool_decide_eq_true_2 by (by right)|].
    rewrite bool_decide_eq_false_2; [done|]. by intros [?|?]%elem_of_cons.
Qed.

Lemma get_status_ext page page' xid : (∀ i, (i < Z.to_nat BLCKSZ)%nat → page !! i = page' !! i) →
  transaction_id_get_status xid page = transaction_id_get_status xid page'.
Proof.
  intros He. pose proof (clog_byte_bound xid). unfold transaction_id_get_status, page_byte. fold (clog_byte xid). by rewrite He by lia.
Qed.

(** * Properties *)

(** C23: the redo manager splits the records of a page into batches for its own code and for
    the redo process. Whatever attempts fail and are retried, a page that it returns is
    the page that applying the records one at a time gives, and when no attempt fails its
    outcome is that of applying them one at a time, errors and panics included. *)
Theorem redo_batching_irrelevant `{RedoProcessLaws} key base rs ty io : rs ≠ [] →
  let out := (PostgresRedoManager.request_redo key base rs ty io).1 in
  (∀ page, out = Ok page → replay key (snd <$> base) rs = Ok page) ∧
  (Forall (λ o, o = None) io → out = replay key (snd <$> base) rs).
Proof. intros Hne. destruct (request_redo_runs key base rs ty Hne io) as (H1 & H2 & _). split; [done|]. intros Hio. by apply H1. Qed.

(** C34: a record that commits transactions on a page of the commit log gives exactly these
    transactions the status committed, leaves the status of every other transaction of
    the page alone, and puts its timestamp at the end of the page. *)
Theorem clog_commit_exact segno blknum xids timestamp lsn page pageno :
  segno = pageno / SLRU_PAGES_PER_SEGMENT → blknum = pageno mod SLRU_PAGES_PER_SEGMENT →
  Forall (λ xid, xid / CLOG_XACTS_PER_PAGE = pageno) xids →
  Z.of_nat (length page) = BLCKSZ ∨ Z.of_nat (length page) = BLCKSZ + 8 → Forall (in_u 8) page →
  ∃ page', apply_in_neon (ClogSetCommitted xids timestamp) lsn (slru_block_to_key Clog segno blknum) page = Ok page' ∧
    drop (Z.to_nat BLCKSZ) page' = Buf.put_be 8 timestamp ∧
    ∀ xid, xid / CLOG_XACTS_PER_PAGE = pageno →
      transaction_id_get_status xid page' =
      if bool_decide (xid ∈ xids) then Ok TRANSACTION_STATUS_COMMITTED else transaction_id_get_status xid page.
Proof.
  intros Hseg Hblk Hx Hlen Hb. assert (clog_page page) as Hp by (split; [lia|done]).
  destruct (set_statuses_spec xids TRANSACTION_STATUS_COMMITTED segno blknum page pageno Hp ltac:(unfold TRANSACTION_STATUS_COMMITTED; lia) Hseg Hblk Hx) as (page1 & E & Hp1 & Hl1 & Hg).
  unfold apply_in_neon. assert (slru_block (slru_block_to_key Clog segno blknum) Clog = Ok (segno, blknum)) as -> by done.
  cbn [mbind result_bind fst snd]. rewrite E. cbn [mbind result_bind].
  set (page2 := if Z.of_nat (length page1) =? BLCKSZ + 8 then take (Z.to_nat BLCKSZ) page1 else page1).
  assert (Z.of_nat (length page2) = BLCKSZ ∧ ∀ i, (i < Z.to_nat BLCKSZ)%nat → page2 !! i = page1 !! i) as [Hl2 Hi2].
  { subst page2. destruct (Z.eqb_spec (Z.of_nat (length page1)) (BLCKSZ + 8)).
    - rewrite length_take. split; [unfold BLCKSZ in *; lia|]. intros i Hi. by rewrite lookup_take_lt.
    - split; [lia|done]. }
  rewrite (proj2 (Z.eqb_eq _ _)) by done. eexists. split; [done|]. split.
  - rewrite drop_app_le by lia. rewrite drop_ge by lia. done.
  - intros xid Hxid. rewrite <-Hg by done. apply get_status_ext. intros i Hi. rewrite lookup_app_l by lia. by apply Hi2.
Qed.
