(* ===== verification/GcCompactions.v ===== *)
(** Garbage collection by compaction: what [pageserver/src/tenant/timeline/compaction.rs]
    keeps of the history of one key, [generate_key_retention], its verification
    [KeyHistoryRetention::verify] and how it is written out, [pipe_to].

    All items of a history are of one key, which is an argument of its own.  The checks
    and the images of test builds are left out, and so are the statistics.  The layer
    writers are the lists of what was put into them. *)

From S2P Require Import Prelude Text Lsns Keys Feedbacks WalRedos.
Local Open Scope Z_scope.

Abbreviation Item := (Lsn * Value)%type.

Record KeyHistoryRetention := MkRetention { below_horizon : list (Lsn * list Item); above_horizon : list Item }.

(** * Splitting the history *)

(** [while current_idx < lsn_split_points.len() && lsn > lsn_split_points[current_idx]] *)
Fixpoint skip_points (lsn_split_points : list Lsn) (lsn : Lsn) : nat :=
  match lsn_split_points with
  | [] => 0
  | p :: ps => if p <? lsn then Datatypes.S (skip_points ps lsn) else 0
  end.

Definition split_push (lsn_split_points : list Lsn) (s : nat * list (list Item)) (item : Item) : nat * list (list Item) :=
  let '(current_idx, split_history) := s in
  let current_idx := (current_idx + skip_points (drop current_idx lsn_split_points) item.1)%nat in
  (current_idx, alter (λ bucket, bucket ++ [item]) current_idx split_history).

Definition split_history (lsn_split_points : list Lsn) (full_history : list Item) : list (list Item) :=
  (foldl (split_push lsn_split_points) (0%nat, replicate (length lsn_split_points + 1) []) full_history).2.

(** Of the items with one LSN only the first is kept. *)
Fixpoint drop_duplicates (prev_lsn : option Lsn) (l : list Item) : list Item :=
  match l with
  | [] => []
  | item :: l =>
      if bool_decide (prev_lsn = Some item.1) then drop_duplicates prev_lsn l
      else item :: drop_duplicates (Some item.1) l
  end.

(** * Replaying it *)

(** The items from the last one on that initializes the page. *)
Fixpoint last_init (l : list Item) : option (list Item) :=
  match l with
  | [] => None
  | x :: l' => match last_init l' with Some r => Some r | None => if Value.will_init x.2 then Some l else None end
  end.

Definition trim_history (l : list Item) : list Item := default l (last_init l).

Fixpoint walrecords (l : list Item) : Res (list (Lsn * NeonWalRecord)) :=
  match l with
  | [] => Ok []
  | (lsn, WalRecord rec) :: l => rest ← walrecords l; Ok ((lsn, rec) :: rest)
  | (_, Image _) :: _ => Err Other
  end.

Definition history_state (history : list Item) : Res ValueReconstructState :=
  match history with
  | (lsn, Image val) :: rest => records ← walrecords rest; Ok (MkReconstruct (rev records) (Some (lsn, val)))
  | _ => records ← walrecords history; Ok (MkReconstruct (rev records) None)
  end.

Definition LSN_MAX : Lsn := 2 ^ 64 - 1.

Section gc.
Context `{RedoProcess} (key : Key).

Record GcState := MkGc { retention : list (list Item); records_since_last_image : nat; replay_history : list Item; key_exists : bool }.

(** Whether a batch is replaced by an image. *)
Definition produce_image (i batch_cnt since delta_threshold_cnt : nat) (has_ancestor : bool) : bool :=
  if (i =? 0)%nat && negb has_ancestor then true
  else if (i =? batch_cnt - 1)%nat then false
  else if (since =? 0)%nat then false
  else (delta_threshold_cnt <=? since)%nat.

(** An iteration of the loop over the batches. *)
Definition retain_batch (lsn_split_points : list Lsn) (batch_cnt delta_threshold_cnt : nat) (has_ancestor : bool)
    (i : nat) (split_for_lsn : list Item) (st : GcState) : Redo GcState :=
  let since := (records_since_last_image st + length split_for_lsn)%nat in
  let produce := produce_image i batch_cnt since delta_threshold_cnt has_ancestor in
  let replay := trim_history (replay_history st ++ split_for_lsn) in
  match replay with
  | [] =>
      if key_exists st then liftR Panic (* unreachable *)
      else mret (MkGc (retention st ++ [[]]) since replay false)
  | first :: _ =>
      if negb (Value.will_init first.2) then bail Other
      else if produce then
        state ← liftR (history_state replay);
        let request_lsn := default LSN_MAX (lsn_split_points !! i) in
        img ← reconstruct_value key state GcCompaction;
        mret (MkGc (retention st ++ [[(request_lsn, Image img)]]) 0 [(request_lsn, Image img)] true)
      else mret (MkGc (retention st ++ [split_for_lsn]) since replay true)
  end.

Fixpoint retain_batches (lsn_split_points : list Lsn) (batch_cnt delta_threshold_cnt : nat) (has_ancestor : bool)
    (i : nat) (batches : list (list Item)) (st : GcState) : Redo GcState :=
  match batches with
  | [] => mret st
  | b :: bs =>
      st ← retain_batch lsn_split_points batch_cnt delta_threshold_cnt has_ancestor i b st;
      retain_batches lsn_split_points batch_cnt delta_threshold_cnt has_ancestor (i + 1) bs st
  end.

(** * Verification *)

Record Verify := MkVerify { base_img : option (Lsn * bytes); history : list (Lsn * NeonWalRecord) }.

Definition collect_and_verify (v : Verify) (skip_empty : bool) : Redo unit :=
  match base_img v, history v with
  | None, [] => if skip_empty then mret tt else bail Other
  | _, _ => _ ← reconstruct_value key (MkReconstruct (rev (history v)) (base_img v)) GcCompaction; mret tt
  end.

(** What a value leaves to replay. *)
Definition verify_push (v : Verify) (item : Item) : Verify :=
  match item.2 with
  | Image img => MkVerify (Some (item.1, img)) []
  | WalRecord rec =>
      if NeonWalRecord.will_init rec then MkVerify None [(item.1, rec)] else MkVerify (base_img v) (history v ++ [(item.1, rec)])
  end.

Fixpoint verify_below (min_lsn : Lsn) (below : list (Lsn * list Item)) (v : Verify) : Redo Verify :=
  match below with
  | [] => mret v
  | (retain_lsn, logs) :: below =>
      let v := foldl verify_push v logs in
      _ ← whenM (min_lsn <=? retain_lsn) (collect_and_verify v false);
      verify_below min_lsn below v
  end.

Fixpoint verify_above (above : list Item) (v : Verify) : Redo Verify :=
  match above with
  | [] => mret v
  | item :: above =>
      _ ← whenM (Value.will_init item.2) (collect_and_verify v true);
      verify_above above (verify_push v item)
  end.

Definition verify (self : KeyHistoryRetention) (base_img_from_ancestor : option (Lsn * bytes)) (full_history : list Item) : Redo unit :=
  match full_history.*1 with
  | [] => mret tt
  | l :: ls =>
      v ← verify_below (foldl Z.min l ls) (below_horizon self) (MkVerify base_img_from_ancestor []);
      v ← verify_above (above_horizon self) v;
      collect_and_verify v false
  end.

(** * Retention *)

Definition generate_key_retention (full_history : list Item) (horizon : Lsn) (retain_lsn_below_horizon : list Lsn)
    (delta_threshold_cnt : nat) (base_img_from_ancestor : option (Lsn * bytes)) (verification : bool) : Redo KeyHistoryRetention :=
  let has_ancestor := bool_decide (base_img_from_ancestor ≠ None) in
  let lsn_split_points := retain_lsn_below_horizon ++ [horizon] in
  let split := drop_duplicates None <$> split_history lsn_split_points full_history in
  let batch_cnt := length split in
  let replay_history := match base_img_from_ancestor with Some (lsn, img) => [(lsn, Image img)] | None => [] end in
  st ← retain_batches lsn_split_points batch_cnt delta_threshold_cnt has_ancestor 0 split (MkGc [] 0 replay_history false);
  _ ← assertM (length (retention st) =? length lsn_split_points + 1)%nat;
  let r := MkRetention (zip lsn_split_points (retention st)) (default [] (last (retention st))) in
  _ ← whenM verification (verify r base_img_from_ancestor full_history);
  mret r.
End gc.

(** * Writing it out *)

(** What is put into the image layer and into the delta layers. *)
Record Written := MkWritten { images : list bytes; deltas : list Item }.

Definition put_value (item : Item) (w : Written) : Written := MkWritten (images w) (deltas w ++ [item]).

Fixpoint pipe_below (image_writer first_batch : bool) (below : list (Lsn * list Item)) (w : Written) : Written :=
  match below with
  | [] => w
  | (cutoff_lsn, logs) :: below =>
      let w := match first_batch, logs with
        | true, [(_, Image img)] => if image_writer then MkWritten (images w ++ [img]) (deltas w) else put_value (cutoff_lsn, Image img) w
        | _, _ => foldl (λ w item, put_value item w) w logs
        end in
      pipe_below image_writer false below w
  end.

Definition pipe_to (self : KeyHistoryRetention) (image_writer : bool) : Written :=
  foldl (λ w item, put_value item w) (pipe_below image_writer true (below_horizon self) (MkWritten [] [])) (above_horizon self).
