(* ===== verification/GcFacts.v ===== *)
(** What garbage collection by compaction keeps: the value of a key at every retained
    LSN, at the horizon and at every LSN above it. *)

From S2P Require Import Prelude Text Lsns Keys Feedbacks WalRedos WalRedoFacts GcCompactions.
Local Open Scope Z_scope.

(** * The value of a history *)

Section values.
Context `{RedoProcessLaws} (key : Key).

(** A history gives a value item by item: an image is the value, a record that
    initializes the page needs no value before it. *)
Definition value_step (cur : Res bytes) (x : Item) : Res bytes :=
  match x.2 with
  | Image img => Ok img
  | WalRecord rec => if NeonWalRecord.will_init rec then replay_one key None (x.1, rec) else page ← cur; replay_one key (Some page) (x.1, rec)
  end.

Definition value_of (cur : Res bytes) (l : list Item) : Res bytes := foldl value_step cur l.

Lemma value_of_app cur l1 l2 : value_of cur (l1 ++ l2) = value_of (value_of cur l1) l2.
Proof. apply foldl_app. Qed.

Lemma value_of_init cur cur' x l : Value.will_init x.2 = true → value_of cur (x :: l) = value_of cur' (x :: l).
Proof. intros Hx. unfold value_of. cbn [foldl]. f_equal. unfold value_step. destruct x.2; [done|]. cbn in Hx. by rewrite Hx. Qed.

Lemma last_init_spec l :
  match last_init l with
  | Some r => ∃ l0 x r', l = l0 ++ r ∧ r = x :: r' ∧ Value.will_init x.2 = true ∧ Forall (λ y : Item, Value.will_init y.2 = false) r'
  | None => Forall (λ y : Item, Value.will_init y.2 = false) l
  end.
Proof.
  induction l as [|x l IH]; [constructor|]. cbn. destruct (last_init l) as [r|].
  - destruct IH as (l0 & y & r' & -> & -> & Hy & Hr). by exists (x :: l0), y, r'.
  - destruct (Value.will_init x.2) eqn:Ex; [|by constructor]. by exists [], x, l.
Qed.

Lemma trim_value cur l : value_of cur (trim_history l) = value_of cur l.
Proof.
  unfold trim_history. pose proof (last_init_spec l) as Hl. destruct (last_init l) as [r|]; [|done]. destruct Hl as (l0 & x & r' & -> & -> & Hx & _).
  cbn [default]. rewrite value_of_app. by apply value_of_init.
Qed.

(** Records after a value. *)
Lemma walrecords_value l : Forall (λ y : Item, Value.will_init y.2 = false) l →
  ∃ rs, walrecords l = Ok rs ∧ length rs = length l ∧ ∀ cur, value_of cur l = (page ← cur; replay_from key page rs).
Proof.
  induction 1 as [|[lsn v] l Hv _ (rs & E & Hlen & IH)].
  { exists []. split_and!; [done|done|]. intros cur. by destruct cur. }
  destruct v as [img|rec]; [done|]. cbn in Hv. exists ((lsn, rec) :: rs). cbn. rewrite E, Hlen. split_and!; [done|done|]. intros cur.
  unfold value_of. cbn [foldl]. change (foldl value_step ?c l) with (value_of c l). rewrite IH. unfold value_step. cbn [snd fst]. rewrite Hv.
  by destruct cur.
Qed.

(** A history that starts with an item that initializes the page is reconstructed to its
    value. *)
Lemma history_state_runs x l ty : Value.will_init x.2 = true → Forall (λ y : Item, Value.will_init y.2 = false) l →
  ∃ st, history_state (x :: l) = Ok st ∧ runs_as (reconstruct_value key st ty) (value_of (Err Other) (x :: l)).
Proof.
  intros Hx Hl. destruct (walrecords_value l Hl) as (rs & E & _ & Hv). destruct x as [lsn [img|rec]]; cbn [history_state walrecords].
  - rewrite E. eexists. split; [done|]. change (value_of (Err Other) ((lsn, Image img) :: l)) with (value_of (Ok img) l). rewrite Hv. cbn.
    unfold reconstruct_value. cbn [records WalRedos.img]. rewrite rev_involutive. destruct rs as [|r rs]; [apply runs_ret|]. cbn [bool_decide].
    rewrite bool_decide_eq_false_2 by done. cbn [andb]. rewrite <-(replay_Some key img). by apply (request_redo_runs key (Some (lsn, img))).
  - cbn in Hx. rewrite E. eexists. split; [done|]. unfold reconstruct_value. cbn [records WalRedos.img]. rewrite rev_involutive.
    rewrite bool_decide_eq_true_2 by done. cbn [snd]. rewrite Hx. cbn [andb negb].
    eapply runs_eq; [by apply (request_redo_runs key None)|]. cbn [replay fmap option_fmap option_map].
    unfold value_of. cbn [foldl]. change (foldl value_step ?c l) with (value_of c l). rewrite Hv. unfold value_step. cbn [snd fst]. by rewrite Hx.
Qed.
End values.

(** * The batches *)

Lemma skip_points_le ps lsn : (skip_points ps lsn ≤ length ps)%nat.
Proof. induction ps as [|p ps IH]; cbn; [done|]. destruct (p <? lsn); lia. Qed.

Lemma skip_points_below ps lsn j p : (j < skip_points ps lsn)%nat → ps !! j = Some p → p < lsn.
Proof.
  revert j. induction ps as [|q ps IH]; intros j; cbn; [lia|]. destruct (Z.ltb_spec q lsn); [|lia]. destruct j as [|j]; [by intros _ [= <-]|].
  cbn. intros Hj. apply IH. lia.
Qed.

Lemma skip_points_at ps lsn p : ps !! skip_points ps lsn = Some p → lsn ≤ p.
Proof. induction ps as [|q ps IH]; cbn; [done|]. destruct (Z.ltb_spec q lsn); [apply IH|]. by intros [= <-]. Qed.

Lemma skip_points_from ps prev lsn : prev ≤ lsn →
  (skip_points ps prev + skip_points (drop (skip_points ps prev) ps) lsn)%nat = skip_points ps lsn.
Proof.
  intros Hle. induction ps as [|q ps IH]; [done|]. cbn [skip_points]. destruct (Z.ltb_spec q prev); [|done].
  rewrite (proj2 (Z.ltb_lt q lsn)) by lia. cbn. by rewrite IH.
Qed.

Definition split_inv (ps : list Lsn) (done : list Item) (s : nat * list (list Item)) : Prop :=
  length s.2 = (length ps + 1)%nat ∧ concat s.2 = done ∧
  (∀ i b, s.2 !! i = Some b → (s.1 < i)%nat → b = []) ∧
  (∀ i b x, s.2 !! i = Some b → x ∈ b → skip_points ps x.1 = i) ∧
  (done = [] ∧ s.1 = 0%nat ∨ ∃ x, last done = Some x ∧ skip_points ps x.1 = s.1).

Lemma concat_empty {A} (l : list (list A)) : (∀ b, b ∈ l → b = []) → concat l = [].
Proof. induction l as [|b l IH]; intros Hl; [done|]. cbn. rewrite (Hl b) by constructor. apply IH. intros c Hc. apply Hl. by right. Qed.

Lemma split_step ps prefix s x : split_inv ps prefix s → (∀ y, last prefix = Some y → y.1 ≤ x.1) →
  split_inv ps (prefix ++ [x]) (split_push ps s x).
Proof.
  destruct s as [idx bs]. intros (Hlen & Hcat & Hempty & Hin & Hidx) Hle. cbn [fst snd] in *. unfold split_push.
  assert ((idx + skip_points (drop idx ps) x.1)%nat = skip_points ps x.1) as ->.
  { destruct Hidx as [[_ ->]|(y & Hy & <-)]; [done|]. apply skip_points_from. by apply Hle. }
  assert (idx ≤ skip_points ps x.1)%nat as Hge.
  { destruct Hidx as [[_ ->]|(y & Hy & <-)]; [lia|]. rewrite <-(skip_points_from ps y.1 x.1) by (by apply Hle). lia. }
  pose proof (skip_points_le ps x.1) as Hi. destruct (lookup_lt_is_Some_2 bs (skip_points ps x.1)) as [b Hb]; [lia|].
  split_and!; cbn [fst snd].
  - by rewrite length_alter.
  - rewrite <-Hcat. rewrite <-(take_drop_middle bs _ b Hb) at 1 2. rewrite alter_app_r_alt by (rewrite length_take; lia).
    rewrite length_take_le by (apply lookup_lt_Some in Hb; lia). rewrite Nat.sub_diag. cbn [alter list_alter].
    rewrite !concat_app. cbn [concat]. rewrite (concat_empty (drop _ bs)); [by rewrite !app_nil_r, app_assoc|].
    intros c [j Hj]%list_elem_of_lookup_1. rewrite lookup_drop in Hj. apply (Hempty _ _ Hj). lia.
  - intros i c Hc Hlt. rewrite list_lookup_alter_ne in Hc by lia. apply (Hempty _ _ Hc). lia.
  - intros i c y Hc Hy. destruct (decide (i = skip_points ps x.1)) as [->|Hne].
    + rewrite list_lookup_alter_eq, Hb in Hc. injection Hc as <-. apply elem_of_app in Hy as [Hy|Hy]; [by apply (Hin _ _ _ Hb)|].
      by apply list_elem_of_singleton in Hy as ->.
    + rewrite list_lookup_alter_ne in Hc by done. by apply (Hin _ _ _ Hc).
  - right. exists x. by rewrite last_snoc.
Qed.

Definition lsn_sorted (l : list Item) : Prop := StronglySorted (λ a b : Item, a.1 ≤ b.1) l.

Lemma split_run ps rest prefix s : split_inv ps prefix s → lsn_sorted (prefix ++ rest) → split_inv ps (prefix ++ rest) (foldl (split_push ps) s rest).
Proof.
  revert prefix s. induction rest as [|x rest IH]; intros prefix s Hs Hsort; [by rewrite app_nil_r|]. cbn [foldl].
  replace (prefix ++ x :: rest) with ((prefix ++ [x]) ++ rest) in * by by rewrite <-app_assoc. apply IH; [|done]. apply split_step; [done|].
  intros y [l ->]%last_Some. unfold lsn_sorted in Hsort. rewrite <-!app_assoc in Hsort. cbn in Hsort.
  apply StronglySorted_app_1_r in Hsort as [_ Hf]%StronglySorted_inv. by apply Forall_cons in Hf as [? _].
Qed.

Lemma split_history_inv ps hist : lsn_sorted hist → split_inv ps hist (foldl (split_push ps) (0%nat, replicate (length ps + 1) []) hist).
Proof.
  intros Hs. apply (split_run ps hist []); [|done]. split_and!; cbn [fst snd].
  - apply length_replicate.
  - apply concat_empty. intros b Hb. by apply elem_of_replicate in Hb as [-> _].
  - intros i b Hb _. by apply lookup_replicate in Hb as [-> _].
  - intros i b x Hb. apply lookup_replicate in Hb as [-> _]. by intros ?%elem_of_nil.
  - by left.
Qed.

(** ** Duplicates *)

Lemma drop_duplicates_elem o l x : x ∈ drop_duplicates o l → x ∈ l.
Proof.
  revert o. induction l as [|y l IH]; intros o; cbn; [done|]. case_bool_decide.
  - intros Hx. right. by apply (IH o).
  - intros [->|Hx]%elem_of_cons; [by left|]. right. by apply (IH (Some y.1)).
Qed.

Lemma drop_duplicates_fresh o l : (∀ x, x ∈ l → o ≠ Some x.1) → drop_duplicates o l = drop_duplicates None l.
Proof. destruct l as [|x l]; [done|]. intros Hx. cbn. rewrite bool_decide_eq_false_2 by (apply Hx; by left). by rewrite bool_decide_eq_false_2. Qed.

Lemma drop_duplicates_app o l1 l2 : (∀ x y, x ∈ l1 → y ∈ l2 → x.1 ≠ y.1) → (∀ y, y ∈ l2 → o ≠ Some y.1) →
  drop_duplicates o (l1 ++ l2) = drop_duplicates o l1 ++ drop_duplicates None l2.
Proof.
  revert o. induction l1 as [|x l1 IH]; intros o Hxy Ho; [by apply drop_duplicates_fresh|]. cbn.
  case_bool_decide; [|cbn; f_equal]; apply IH.
  1,3: intros a y Ha; apply Hxy; by right.
  - done.
  - intros y Hy [= E]. apply (Hxy x y); [by left|done..].
Qed.

(** Batches that are apart. *)
Definition apart (bs : list (list Item)) : Prop := ∀ i j a b x y, (i < j)%nat → bs !! i = Some a → bs !! j = Some b → x ∈ a → y ∈ b → x.1 ≠ y.1.

Lemma drop_duplicates_concat bs : apart bs → concat (drop_duplicates None <$> bs) = drop_duplicates None (concat bs).
Proof.
  induction bs as [|b bs IH]; intros Ha; [done|]. rewrite fmap_cons. cbn [concat]. rewrite IH, drop_duplicates_app; [done| |done|].
  - intros x y Hx Hy. apply list_elem_of_In, in_concat in Hy as (c & Hc & Hy). apply list_elem_of_In in Hy, Hc.
    apply list_elem_of_lookup_1 in Hc as [j Hj]. by apply (Ha 0%nat (Datatypes.S j) b c); [lia|..].
  - intros i j a c x y Hij Hi Hj. apply (Ha (Datatypes.S i) (Datatypes.S j) a c); [lia|done..].
Qed.

Lemma split_apart ps hist : lsn_sorted hist → apart (split_history ps hist).
Proof.
  intros Hs. destruct (split_history_inv ps hist Hs) as (_ & _ & _ & Hin & _). intros i j a b x y Hij Ha Hb Hx Hy E.
  pose proof (Hin _ _ _ Ha Hx). pose proof (Hin _ _ _ Hb Hy). rewrite E in *. lia.
Qed.

(** The batches of a history without duplicates, each with the LSNs above the point
    before it and up to its own. *)
Definition batches_of (ps : list Lsn) (hist : list Item) : list (list Item) := drop_duplicates None <$> split_history ps hist.

Lemma batches_spec ps hist : lsn_sorted hist →
  length (batches_of ps hist) = (length ps + 1)%nat ∧ concat (batches_of ps hist) = drop_duplicates None hist ∧
  ∀ i b x, batches_of ps hist !! i = Some b → x ∈ b →
    (∀ p, ps !! i = Some p → x.1 ≤ p) ∧ (∀ j p, (j < i)%nat → ps !! j = Some p → p < x.1).
Proof.
  intros Hs. pose proof (split_apart ps hist Hs) as Ha. destruct (split_history_inv ps hist Hs) as (Hlen & Hcat & _ & Hin & _).
  unfold batches_of. split_and!.
  - by rewrite length_fmap.
  - rewrite drop_duplicates_concat by done. unfold split_history. by rewrite Hcat.
  - intros i b x Hb Hx. rewrite list_lookup_fmap in Hb. apply fmap_Some in Hb as (c & Hc & ->). apply drop_duplicates_elem in Hx.
    pose proof (Hin _ _ _ Hc Hx) as Ei. split.
    + intros p Hp. rewrite <-Ei in Hp. by apply (skip_points_at ps).
    + intros j p Hj Hp. rewrite <-Ei in Hj. by apply (skip_points_below ps x.1 j).
Qed.

(** * The loop over the batches *)

Definition base_items (base : option (Lsn * bytes)) : list Item := match base with Some (lsn, img) => [(lsn, Image img)] | None => [] end.

Definition starts_init (l : list Item) : Prop :=
  match l with [] => True | x :: l => Value.will_init x.2 = true ∧ Forall (λ y : Item, Value.will_init y.2 = false) l end.

Lemma trim_shape l : match trim_history l with
  | [] => l = []
  | x :: r => if Value.will_init x.2 then Forall (λ y : Item, Value.will_init y.2 = false) r else Forall (λ y : Item, Value.will_init y.2 = false) l
  end.
Proof.
  unfold trim_history. pose proof (last_init_spec l) as Hl. destruct (last_init l) as [r|]; cbn.
  - destruct Hl as (l0 & x & r' & -> & -> & Hx & Hr). by rewrite Hx.
  - destruct l as [|x l]; [done|]. pose proof Hl as Hl'. apply Forall_cons in Hl as [Hx Hl]. by rewrite Hx.
Qed.

Lemma produce_lt i n since threshold anc : produce_image i (n + 1) since threshold anc = true → (0 < n)%nat → (i ≤ n)%nat → (i < n)%nat.
Proof. unfold produce_image. destruct (Nat.eqb_spec i 0), (Nat.eqb_spec i (n + 1 - 1)); cbn; lia. Qed.

Section batches.
Context `{RedoProcessLaws} (key : Key) (ps : list Lsn) (threshold : nat) (base : option (Lsn * bytes)).

(** The value after some part of the history. *)
Definition V (l : list Item) : Res bytes := value_of key (Err Other) (base_items base ++ l).

Lemma V_app l1 l2 : V (l1 ++ l2) = value_of key (V l1) l2.
Proof. unfold V. by rewrite app_assoc, value_of_app. Qed.

Record gc_inv (batches : list (list Item)) (st : GcState) : Prop := {
  inv_length : length (retention st) = length batches;
  inv_value j : (j ≤ length batches)%nat → V (concat (take j (retention st))) = V (concat (take j batches));
  inv_replay : value_of key (Err Other) (replay_history st) = V (concat batches);
  inv_shape : starts_init (replay_history st);
  inv_empty : replay_history st = [] → key_exists st = false ∧ base = None ∧ concat batches = [];
  inv_none : base_items base ++ concat batches = [] → replay_history st = [];
  inv_items i b : retention st !! i = Some b → batches !! i = Some b ∨ ∃ p img, ps !! i = Some p ∧ b = [(p, Image img)]
}.

Lemma gc_inv_start : gc_inv [] (MkGc [] 0 (base_items base) false).
Proof.
  split; cbn; try done.
  - unfold V. by rewrite app_nil_r.
  - destruct base as [[lsn i]|]; cbn; [|done]. by split.
  - destruct base as [[lsn i]|]; [done|]. by repeat split.
  - by rewrite app_nil_r.
Qed.

Lemma take_snoc_concat {A} (l : list (list A)) x j : (j ≤ length l)%nat → concat (take j (l ++ [x])) = concat (take j l).
Proof. intros Hj. by rewrite take_app_le. Qed.

(** What is added to the retention: either the batch, or an image of the value after it. *)
Lemma gc_inv_push batches st b b' since replay exists' : gc_inv batches st →
  V (concat (retention st) ++ b') = V (concat (batches ++ [b])) → value_of key (Err Other) replay = V (concat (batches ++ [b])) → starts_init replay →
  (replay = [] → exists' = false ∧ base = None ∧ concat (batches ++ [b]) = []) → (base_items base ++ concat (batches ++ [b]) = [] → replay = []) → (b' = b ∨ ∃ p img, ps !! length batches = Some p ∧ b' = [(p, Image img)]) →
  gc_inv (batches ++ [b]) (MkGc (retention st ++ [b']) since replay exists').
Proof.
  intros [Hlen Hval _ _ _ _ Hit] Hv Hr Hsh He Hn Hb. split; cbn; try done.
  - by rewrite !length_app, Hlen.
  - intros j Hj. rewrite length_app in Hj. cbn in Hj. destruct (decide (j ≤ length batches)%nat) as [Hle|Hgt].
    + rewrite !take_snoc_concat by lia. by apply Hval.
    + rewrite !take_ge by (rewrite length_app; cbn; lia). rewrite concat_app. cbn. by rewrite app_nil_r.
  - intros i c Hc. apply lookup_app_Some in Hc as [Hc|[Hi Hc]].
    + destruct (Hit i c Hc) as [Hb'|?]; [left|by right]. by apply lookup_app_l_Some.
    + rewrite Hlen in *. apply list_lookup_singleton_Some in Hc as [Hi0 <-]. assert (i = length batches) as -> by lia.
      destruct Hb as [->|?]; [left|by right]. rewrite lookup_app_r by lia. by rewrite Nat.sub_diag.
Qed.

Definition batch_post (batches : list (list Item)) (b : list Item) (r : Res GcState) : Prop :=
  match r with
  | Ok st => gc_inv (batches ++ [b]) st
  | Err _ => (∀ page, V (concat (batches ++ [b])) ≠ Ok page) ∧ base_items base ++ concat (batches ++ [b]) ≠ []
  | Panic => V (concat (batches ++ [b])) = Panic
  end.

Lemma value_no_init l : Forall (λ y : Item, Value.will_init y.2 = false) l → value_of key (Err Other) l = Err Other.
Proof. intros Hl. by destruct (walrecords_value key l Hl) as (rs & _ & _ & ->). Qed.

(** An iteration, whatever the attempts to replay give. *)
Lemma retain_batch_runs batches b st : gc_inv batches st → (length batches ≤ length ps)%nat → (0 < length ps)%nat →
  ∃ r, runs_as (retain_batch key ps (length ps + 1) threshold (bool_decide (base ≠ None)) (length batches) b st) r ∧ batch_post batches b r.
Proof.
  intros Hinv Hi Hps. unfold retain_batch. set (since := (records_since_last_image st + length b)%nat).
  assert (V (concat (batches ++ [b])) = value_of key (Err Other) (replay_history st ++ b)) as Hv0.
  { rewrite value_of_app, (inv_replay _ _ Hinv), concat_app. cbn. by rewrite app_nil_r, V_app. }
  assert (V (concat (retention st)) = V (concat batches)) as Hret.
  { pose proof (inv_value _ _ Hinv (length batches) ltac:(lia)) as Hj. by rewrite !take_ge in Hj by (by rewrite ?(inv_length _ _ Hinv)). }
  pose proof Hv0 as Hv. rewrite <-trim_value in Hv.
  pose proof (trim_shape (replay_history st ++ b)) as Hsh. destruct (trim_history (replay_history st ++ b)) as [|x l] eqn:Et.
  { apply app_eq_nil in Hsh as [Hr ->]. destruct (inv_empty _ _ Hinv Hr) as (He & Hb & Hc). rewrite He.
    eexists. split; [apply runs_ret|]. cbn. eapply gc_inv_push; [done| |by rewrite Hv|done| |done|by left].
    - rewrite app_nil_r, concat_app. cbn. by rewrite app_nil_r.
    - intros _. split_and!; [done|done|]. rewrite concat_app, Hc. done. }
  assert (base_items base ++ concat (batches ++ [b]) ≠ []) as Hne.
  { rewrite concat_app, app_assoc. cbn. rewrite app_nil_r. intros [Hb ->]%app_eq_nil. by rewrite (inv_none _ _ Hinv Hb) in Et. }
  destruct (Value.will_init x.2) eqn:Ex; cbn [negb].
  2:{ exists (Err Other). split; [apply runs_bail|]. cbn. by rewrite Hv0, value_no_init. }
  destruct (produce_image _ _ _ _ _) eqn:Ep.
  - destruct (history_state_runs key x l GcCompaction Ex Hsh) as (state & -> & Hrun). rewrite <-Hv in Hrun.
    destruct (lookup_lt_is_Some_2 ps (length batches)) as [p Hp].
    { apply produce_lt in Ep; [lia|done|done]. }
    rewrite Hp. cbn [default]. eexists. split.
    + eapply runs_seq; [apply runs_lift|]. eapply (runs_bind _ _ _ (λ img, Ok (MkGc (retention st ++ [[(p, Image img)]]) 0 [(p, Image img)] true))); [exact Hrun|].
      intros img _. apply runs_ret.
    + destruct (V (concat (batches ++ [b]))) as [img|e|] eqn:EV; cbn.
      * eapply gc_inv_push; [done| |by rewrite EV| | |done|].
        -- by rewrite V_app, EV.
        -- split; [done|constructor].
        -- done.
        -- right. by exists p, img.
      * by rewrite EV.
      * done.
  - eexists. split; [apply runs_ret|]. cbn. eapply gc_inv_push; [done| |by rewrite Hv| |done|done|by left].
    + rewrite !V_app, concat_app. cbn. by rewrite app_nil_r, V_app, Hret.
    + by split.
Qed.

(** Some value of the history cannot be reconstructed. *)
Definition broken (batches : list (list Item)) : Prop :=
  ∃ k, (∀ page, V (concat (take k batches)) ≠ Ok page) ∧ base_items base ++ concat (take k batches) ≠ [].

Lemma retain_batches_runs rest batches st : gc_inv batches st → length (batches ++ rest) = (length ps + 1)%nat → (0 < length ps)%nat →
  ∃ r, runs_as (retain_batches key ps (length ps + 1) threshold (bool_decide (base ≠ None)) (length batches) rest st) r ∧
    match r with Ok st' => gc_inv (batches ++ rest) st' | _ => broken (batches ++ rest) end.
Proof.
  revert batches st. induction rest as [|b rest IH]; intros batches st Hinv Hlen Hps.
  { exists (Ok st). rewrite app_nil_r. split; [apply runs_ret|done]. }
  rewrite length_app in Hlen. cbn in Hlen. destruct (retain_batch_runs batches b st Hinv ltac:(lia) Hps) as (r & Hr & Hpost). cbn [retain_batches].
  assert (concat (take (length batches + 1) (batches ++ b :: rest)) = concat (batches ++ [b])) as Etake.
  { rewrite take_app_add. by cbn. }
  replace (batches ++ b :: rest) with ((batches ++ [b]) ++ rest) in * by by rewrite <-app_assoc.
  destruct r as [st'|e|]; cbn in Hpost.
  - destruct (IH _ _ Hpost) as (r & Hr' & Hp); [rewrite !length_app; cbn; lia|done|]. rewrite length_app in Hr'. exists r.
    split; [|done]. by eapply runs_seq.
  - exists (Err e). split; [eapply runs_eq; [apply (runs_bind _ _ _ (λ _, Panic) Hr); done|done]|]. exists (length batches + 1)%nat. by rewrite Etake.
  - exists Panic. split; [eapply runs_eq; [apply (runs_bind _ _ _ (λ _, Panic) Hr); done|done]|]. exists (length batches + 1)%nat. rewrite Etake, Hpost.
    split; [done|]. intros Hn. unfold V in Hpost. by rewrite Hn in Hpost.
Qed.
End batches.

(** * Reading at an LSN *)

Definition at_most (t : Lsn) (x : Item) : bool := x.1 <=? t.
Definition upto (t : Lsn) (l : list Item) : list Item := List.filter (at_most t) l.

Lemma history_upto_all t l : (∀ x, x ∈ l → x.1 ≤ t) → upto t l = l.
Proof. intros Hl. apply filter_true. intros x Hx. apply Z.leb_le. by apply Hl. Qed.

Lemma upto_none t l : (∀ x, x ∈ l → t < x.1) → upto t l = [].
Proof. intros Hl. apply filter_false. intros x Hx. apply Z.leb_gt. by apply Hl. Qed.

Lemma upto_concat t m (bs : list (list Item)) : (∀ i b x, (i < m)%nat → bs !! i = Some b → x ∈ b → x.1 ≤ t) →
  upto t (concat bs) = concat (take m bs) ++ upto t (concat (drop m bs)).
Proof.
  intros Hb. rewrite <-(take_drop m bs) at 1. rewrite concat_app. unfold upto. rewrite List.filter_app. f_equal. apply history_upto_all.
  intros x Hx. apply list_elem_of_In, in_concat in Hx as (c & Hc & Hx). apply list_elem_of_In in Hx, Hc. apply list_elem_of_lookup_1 in Hc as [i Hi].
  apply lookup_take_Some in Hi as [Hi Hlt]. by apply (Hb i c).
Qed.

Lemma upto_drop t m (bs : list (list Item)) : (∀ i b x, (m ≤ i)%nat → bs !! i = Some b → x ∈ b → t < x.1) → upto t (concat (drop m bs)) = [].
Proof.
  intros Hb. apply upto_none. intros x Hx. apply list_elem_of_In, in_concat in Hx as (c & Hc & Hx). apply list_elem_of_In in Hx, Hc.
  apply list_elem_of_lookup_1 in Hc as [i Hi]. rewrite lookup_drop in Hi. apply (Hb (m + i)%nat c); [lia|done..].
Qed.

Section reads.
Context `{RedoProcessLaws} (key : Key) (retain : list Lsn) (horizon : Lsn) (base : option (Lsn * bytes)).
Context (hist : list Item) (st : GcState).
Let ps := retain ++ [horizon].
Hypothesis sorted_hist : lsn_sorted hist.
Hypothesis sorted_ps : StronglySorted Z.le ps.
Hypothesis final : gc_inv key ps base (batches_of ps hist) st.

Let m t := skip_points ps (t + 1).

Lemma points_above t i p : (m t ≤ i)%nat → ps !! i = Some p → t < p.
Proof.
  intros Hi Hp. destruct (lookup_lt_is_Some_2 ps (m t)) as [q Hq]; [apply lookup_lt_Some in Hp; lia|].
  pose proof (skip_points_at ps (t + 1) q Hq). destruct (decide (i = m t)) as [->|Hne]; [assert (p = q) as -> by congruence; lia|].
  pose proof (StronglySorted_lookup _ _ (m t) i q p sorted_ps ltac:(lia) Hq Hp). lia.
Qed.

Lemma horizon_last i p : ps !! i = Some p → p ≤ horizon.
Proof.
  intros Hp. pose proof (lookup_lt_Some _ _ _ Hp) as Hi. unfold ps in Hi. rewrite length_app in Hi. cbn in Hi.
  assert (ps !! length retain = Some horizon) as Hh by (unfold ps; by apply list_lookup_middle).
  destruct (decide (i = length retain)) as [->|]; [assert (p = horizon) as -> by congruence; lia|].
  by apply (StronglySorted_lookup _ _ i (length retain) p horizon sorted_ps ltac:(lia) Hp Hh).
Qed.

(** In the batches and in what is retained of them the LSNs lie between the points. *)
Lemma items_between (bs : list (list Item)) t :
  (∀ i b, bs !! i = Some b → batches_of ps hist !! i = Some b ∨ ∃ p img, ps !! i = Some p ∧ b = [(p, Image img)]) →
  (∀ i b x, (i < m t)%nat → bs !! i = Some b → x ∈ b → x.1 ≤ t) ∧
  (t ∈ ps → ∀ i b x, (m t ≤ i)%nat → bs !! i = Some b → x ∈ b → t < x.1).
Proof.
  intros Hbs. destruct (batches_spec ps hist sorted_hist) as (_ & _ & Hsp). split.
  - intros i b x Hi Hb Hx. pose proof (skip_points_le ps (t + 1)). fold (m t) in *. destruct (lookup_lt_is_Some_2 ps i) as [p Hp]; [lia|].
    pose proof (skip_points_below ps (t + 1) i p Hi Hp). destruct (Hbs i b Hb) as [Hb'|(q & img & Hq & ->)].
    + destruct (Hsp _ _ _ Hb' Hx) as [Hle _]. specialize (Hle p Hp). lia.
    + apply list_elem_of_singleton in Hx as ->. cbn. assert (q = p) as -> by congruence. lia.
  - intros [j Hj]%list_elem_of_lookup_1 i b x Hi Hb Hx. destruct (Hbs i b Hb) as [Hb'|(q & img & Hq & ->)].
    + destruct (Hsp _ _ _ Hb' Hx) as [_ Hlt]. apply (Hlt j t); [|done]. destruct (decide (j < i)%nat); [done|].
      pose proof (points_above t j t ltac:(lia) Hj). lia.
    + apply list_elem_of_singleton in Hx as ->. cbn. by apply (points_above t i q).
Qed.

Lemma retention_reads t : t ∈ retain ∨ horizon ≤ t → V key base (upto t (concat (retention st))) = V key base (upto t (drop_duplicates None hist)).
Proof.
  intros Ht. destruct (batches_spec ps hist sorted_hist) as (Hlen & Hcat & _). rewrite <-Hcat.
  destruct (items_between (retention st) t (inv_items _ _ _ _ _ final)) as [Hlo Hhi].
  destruct (items_between (batches_of ps hist) t) as [Hlo' Hhi']; [by left|].
  rewrite (upto_concat t (m t) (retention st) Hlo), (upto_concat t (m t) (batches_of ps hist) Hlo'). pose proof (skip_points_le ps (t + 1)) as Hm. fold (m t) in *.
  rewrite !V_app. rewrite (inv_value _ _ _ _ _ final (m t)) by (rewrite Hlen; lia).
  enough (upto t (concat (drop (m t) (retention st))) = upto t (concat (drop (m t) (batches_of ps hist)))) as -> by done.
  destruct (decide (t ∈ ps)) as [Hin|Hout]; [by rewrite (upto_drop t _ (retention st) (Hhi Hin)), (upto_drop t _ _ (Hhi' Hin))|].
  assert (m t = length ps) as Em.
  { destruct Ht as [Ht|Ht]; [destruct Hout; apply elem_of_app; by left|]. destruct (decide (m t < length ps)%nat) as [Hlt|]; [|lia].
    destruct (lookup_lt_is_Some_2 ps (m t) Hlt) as [p Hp]. pose proof (points_above t (m t) p ltac:(lia) Hp).
    pose proof (horizon_last (m t) p Hp). lia. }
  rewrite Em. f_equal. f_equal. apply list_eq. intros i. rewrite !lookup_drop.
  destruct (retention st !! (length ps + i)%nat) as [b|] eqn:Eb.
  - destruct (inv_items _ _ _ _ _ final _ _ Eb) as [->|(p & img & Hp%lookup_lt_Some & _)]; [done|lia].
  - apply lookup_ge_None in Eb. rewrite (inv_length _ _ _ _ _ final) in Eb. symmetry. by apply lookup_ge_None.
Qed.
End reads.
