(* ===== verification/GcSafety.v ===== *)
(** Garbage collection by compaction as a whole: no read that is still allowed changes,
    and on a history that can be read it succeeds, its verification included.  At the end
    runs of WAL redo and of the compaction, with a redo process that appends the records
    to the page. *)

From S2P Require Import Prelude Text Lsns Keys Feedbacks WalRedos WalRedoFacts GcCompactions GcFacts.
Local Open Scope Z_scope.

(** What is kept of a history, in the order of LSNs. *)
Definition retained (r : KeyHistoryRetention) : list Item := concat (below_horizon r).*2 ++ above_horizon r.

Lemma retained_eq (ps : list Lsn) (ret : list (list Item)) : length ret = (length ps + 1)%nat →
  retained (MkRetention (zip ps ret) (default [] (last ret))) = concat ret.
Proof.
  intros Hlen. unfold retained. cbn [below_horizon above_horizon]. destruct (exists_last (l := ret)) as (ret' & b & ->); [by destruct ret; [cbn in Hlen; lia|]|].
  rewrite length_app in Hlen. cbn in Hlen. rewrite last_snoc, concat_app. cbn. rewrite app_nil_r. f_equal. f_equal.
  rewrite zip_with_app_r, take_ge by lia. rewrite (drop_ge ps) by lia. cbn. rewrite app_nil_r. apply snd_zip. lia.
Qed.

Section generate.
Context `{RedoProcessLaws} (key : Key).

Lemma generate_inv hist horizon retain threshold base verification io r io' : lsn_sorted hist →
  generate_key_retention key hist horizon retain threshold base verification io = (Ok r, io') →
  ∃ st, gc_inv key (retain ++ [horizon]) base (batches_of (retain ++ [horizon]) hist) st ∧
    r = MkRetention (zip (retain ++ [horizon]) (retention st)) (default [] (last (retention st))).
Proof.
  intros Hs. unfold generate_key_retention. set (ps := retain ++ [horizon]). change (drop_duplicates None <$> split_history ps hist) with (batches_of ps hist).
  destruct (batches_spec ps hist Hs) as (Hlen & _). rewrite Hlen. assert (0 < length ps)%nat as Hps by (unfold ps; rewrite length_app; cbn; lia).
  destruct (retain_batches_runs key ps threshold base (batches_of ps hist) [] _ (gc_inv_start key ps base) Hlen Hps) as (r0 & Hr0 & Hpost).
  intros (st & io1 & E1 & E)%M_bind_inv. apply M_bind_inv in E as (_ & io2 & _ & E). apply M_bind_inv in E as (_ & io3 & _ & E). injection E as <- _.
  exists st. split; [|done]. destruct (Hr0 io) as (_ & Hok & _). unfold base_items in Hok. cbn [length] in Hok. rewrite E1 in Hok. rewrite (Hok st eq_refl) in Hpost. done.
Qed.

(** ** What is written *)

Lemma put_values logs w : foldl (λ w item, put_value item w) w logs = MkWritten (images w) (deltas w ++ logs).
Proof.
  revert w. induction logs as [|x logs IH]; intros w; cbn; [by destruct w; cbn; rewrite app_nil_r|]. rewrite IH. cbn. by rewrite <-app_assoc.
Qed.

Lemma pipe_rest iw below w : pipe_below iw false below w = MkWritten (images w) (deltas w ++ concat below.*2).
Proof.
  revert w. induction below as [|[c logs] below IH]; intros w; cbn; [by destruct w; cbn; rewrite app_nil_r|].
  rewrite put_values, IH. cbn. by rewrite <-app_assoc.
Qed.

(** The image layer is at the lowest retained LSN. *)
Definition written_items (lowest : Lsn) (w : Written) : list Item := ((λ img, (lowest, Image img)) <$> images w) ++ deltas w.

(** What is written is what is retained, but for the LSN of a first image. *)
Lemma pipe_spec c logs below above iw :
  written_items c (pipe_to (MkRetention ((c, logs) :: below) above) iw) = retained (MkRetention ((c, logs) :: below) above) ∨
  ∃ l img, logs = [(l, Image img)] ∧
    written_items c (pipe_to (MkRetention ((c, logs) :: below) above) iw) = (c, Image img) :: concat below.*2 ++ above.
Proof.
  unfold pipe_to, retained, written_items. cbn [below_horizon above_horizon pipe_below]. rewrite put_values, pipe_rest.
  destruct logs as [|[l [img|rec]] [|y logs]].
  2:{ right. exists l, img. split; [done|]. by destruct iw. }
  all: left; cbn; rewrite ?put_values; cbn; by rewrite <-?app_assoc.
Qed.

Lemma written_reads hist horizon retain threshold base verification io r io' t iw : lsn_sorted hist → StronglySorted Z.le (retain ++ [horizon]) →
  generate_key_retention key hist horizon retain threshold base verification io = (Ok r, io') → t ∈ retain ∨ horizon ≤ t →
  V key base (upto t (retained r)) = V key base (upto t (drop_duplicates None hist)) ∧
  V key base (upto t (written_items (default horizon (head retain)) (pipe_to r iw))) = V key base (upto t (drop_duplicates None hist)).
Proof.
  intros Hs Hps E Ht. destruct (generate_inv _ _ _ _ _ _ _ _ _ Hs E) as (st & Hinv & ->).
  destruct (batches_spec (retain ++ [horizon]) hist Hs) as (Hlen & _ & _). pose proof (inv_length _ _ _ _ _ Hinv) as Hl.
  pose proof (retention_reads key retain horizon base hist st Hs Hps Hinv t Ht) as Hr. pose proof (retained_eq (retain ++ [horizon]) (retention st) ltac:(lia)) as Er.
  rewrite <-Er in Hr. split; [done|]. rewrite <-Hr. clear Hr Er.
  assert (∃ ps', retain ++ [horizon] = default horizon (head retain) :: ps') as [ps' Eps] by (destruct retain; by eexists).
  destruct (items_between retain horizon hist Hs Hps (retention st) t (inv_items _ _ _ _ _ Hinv)) as [Hle _].
  assert (default horizon (head retain) ≤ t) as Hlow.
  { destruct Ht as [[j Hj]%list_elem_of_lookup_1|Ht]; [|pose proof (horizon_last retain horizon Hps 0 (default horizon (head retain))) as Hh; rewrite Eps in Hh; specialize (Hh eq_refl); lia].
    destruct retain as [|p retain]; [done|]. cbn. destruct j as [|j]; [injection Hj as ->; lia|].
    apply (StronglySorted_lookup _ _ 0 (Datatypes.S j) p t Hps); [lia|done|]. apply lookup_app_l_Some. exact Hj. }
  destruct (retention st) as [|logs ret]; [cbn in Hl; lia|]. rewrite Eps. cbn [zip_with].
  destruct (pipe_spec (default horizon (head retain)) logs (zip ps' ret) (default [] (last (logs :: ret))) iw) as [->|(l & img & -> & ->)]; [done|].
  unfold retained, upto. cbn [below_horizon above_horizon fmap list_fmap snd concat app List.filter].
  assert (at_most t (default horizon (head retain), Image img) = true) as -> by (apply Z.leb_le; cbn; lia).
  assert (at_most t (l, Image img) = true) as ->.
  { apply Z.leb_le. apply (Hle 0%nat [(l, Image img)]); [|done|by apply list_elem_of_singleton].
    rewrite Eps. cbn [skip_points]. rewrite (proj2 (Z.ltb_lt _ _)) by lia. lia. }
  unfold V. by rewrite !value_of_app.
Qed.

(** ** Verification *)

Lemma last_init_snoc q x : last_init (q ++ [x]) = if Value.will_init x.2 then Some [x] else (λ r, r ++ [x]) <$> last_init q.
Proof.
  induction q as [|y q IH]; [cbn; by destruct (Value.will_init x.2)|]. cbn [app last_init]. rewrite IH. destruct (Value.will_init x.2); [done|].
  destruct (last_init q); [done|]. cbn. by destruct (Value.will_init y.2).
Qed.

Lemma trim_snoc q x : trim_history (q ++ [x]) = if Value.will_init x.2 then [x] else trim_history q ++ [x].
Proof. unfold trim_history. rewrite last_init_snoc. destruct (Value.will_init x.2); [done|]. by destruct (last_init q). Qed.

Definition record_items (rs : list (Lsn * NeonWalRecord)) : list Item := (λ r, (r.1, WalRecord r.2)) <$> rs.

Definition verify_items (v : Verify) : list Item := base_items (base_img v) ++ record_items (history v).

Lemma verify_pushes base l : verify_items (foldl verify_push (MkVerify base []) l) = trim_history (base_items base ++ l).
Proof.
  induction l as [|x l IH] using rev_ind; cbn [foldl].
  { rewrite app_nil_r. unfold verify_items. cbn. rewrite app_nil_r. destruct base as [[lsn i]|]; done. }
  rewrite foldl_snoc, app_assoc, trim_snoc, <-IH. unfold verify_push. destruct x as [lsn [img|rec]]; [done|]. cbn [snd fst Value.will_init].
  destruct (NeonWalRecord.will_init rec); [done|]. unfold verify_items, record_items. cbn [base_img history]. by rewrite fmap_app, app_assoc.
Qed.

Lemma walrecords_items rs : walrecords (record_items rs) = Ok rs.
Proof. induction rs as [|[lsn rec] rs IH]; [done|]. cbn. change (walrecords _) with (walrecords (record_items rs)). by rewrite IH. Qed.

Lemma history_state_items v : verify_items v ≠ [] → history_state (verify_items v) = Ok (MkReconstruct (rev (history v)) (base_img v)).
Proof.
  destruct v as [[[lsn img]|] hs]; unfold verify_items; cbn [base_img history base_items app].
  - intros _. cbn. change (walrecords _) with (walrecords (record_items hs)). by rewrite walrecords_items.
  - destruct hs as [|[lsn rec] hs]; [done|]. intros _.
    change (history_state _) with (rs ← walrecords (record_items ((lsn, rec) :: hs)); Ok (MkReconstruct (rev rs) None) : Res ValueReconstructState).
    by rewrite walrecords_items.
Qed.

(** The check reconstructs the value of what came before. *)
Lemma collect_runs base l skip : runs_as (collect_and_verify key (foldl verify_push (MkVerify base []) l) skip)
  (match base_items base ++ l with [] => if skip then Ok tt else Err Other | _ => _ ← V key base l; Ok tt end).
Proof.
  set (v := foldl verify_push (MkVerify base []) l). pose proof (verify_pushes base l) as Hv. fold v in Hv.
  pose proof (trim_shape (base_items base ++ l)) as Hsh. unfold collect_and_verify.
  assert (V key base l = value_of key (Err Other) (verify_items v)) as EV by (unfold V; by rewrite Hv, trim_value).
  destruct (trim_history (base_items base ++ l)) as [|x q] eqn:Et.
  { rewrite Hsh. unfold verify_items in Hv. apply app_eq_nil in Hv as [Hb Hh]. destruct (base_img v) as [[? ?]|]; [done|].
    apply fmap_nil_inv in Hh. rewrite Hh. destruct skip; [apply runs_ret|apply runs_bail]. }
  assert (base_items base ++ l ≠ []) as Hne by (intros E; by rewrite E in Et).
  destruct (base_items base ++ l) as [|y l'] eqn:El; [done|]. rewrite EV. pose proof (history_state_items v ltac:(by rewrite Hv)) as Hst. rewrite Hv in *.
  assert (runs_as (reconstruct_value key (MkReconstruct (rev (history v)) (base_img v)) GcCompaction) (value_of key (Err Other) (x :: q))) as Hrun.
  { destruct (Value.will_init x.2) eqn:Ex.
    - destruct (history_state_runs key x q GcCompaction Ex Hsh) as (st & E & Hr). rewrite Hst in E. by injection E as <-.
    - rewrite <-Et, trim_value, value_no_init by done. unfold reconstruct_value. cbn [records img]. rewrite rev_involutive.
      unfold verify_items in Hv. destruct (base_img v) as [[lsn i]|]; [injection Hv as <- _; done|]. destruct (history v) as [|[lsn rec] hs]; [done|].
      injection Hv as <- _. cbn in Ex. rewrite bool_decide_eq_true_2 by done. cbn [snd]. rewrite Ex. apply runs_bail. }
  assert (runs_as (_ ← reconstruct_value key (MkReconstruct (rev (history v)) (base_img v)) GcCompaction; mret tt) (_ ← value_of key (Err Other) (x :: q); Ok tt)) as Hall
    by (eapply runs_bind; [exact Hrun|intros _ _; apply runs_ret]).
  unfold verify_items in Hv. destruct (base_img v) as [[lsn i]|]; [done|]. by destruct (history v).
Qed.

Lemma collect_ok base l skip page : V key base l = Ok page → runs_as (collect_and_verify key (foldl verify_push (MkVerify base []) l) skip) (Ok tt).
Proof.
  intros EV. eapply runs_eq; [apply collect_runs|]. rewrite EV. destruct (base_items base ++ l) eqn:E; [|done]. unfold V in EV. by rewrite E in EV.
Qed.

Lemma runs_when c m : (c = true → runs_as m (Ok tt)) → runs_as (whenM c m) (Ok tt).
Proof. destruct c; intros Hm; [by apply Hm|apply runs_ret]. Qed.

Lemma verify_below_runs base min_lsn ps ret1 ret2 :
  (∀ j p, ps !! j = Some p → (min_lsn ≤ p) → ∃ page, V key base (concat (ret1 ++ take (j + 1) ret2)) = Ok page) → (length ps ≤ length ret2)%nat →
  runs_as (verify_below key min_lsn (zip ps ret2) (foldl verify_push (MkVerify base []) (concat ret1)))
    (Ok (foldl verify_push (MkVerify base []) (concat (ret1 ++ take (length ps) ret2)))).
Proof.
  revert ret1 ret2. induction ps as [|p ps IH]; intros ret1 ret2 Hv Hlen; [cbn; rewrite app_nil_r; apply runs_ret|].
  destruct ret2 as [|b ret2]; [cbn in Hlen; lia|]. cbn [zip_with verify_below length take].
  assert (foldl verify_push (foldl verify_push (MkVerify base []) (concat ret1)) b = foldl verify_push (MkVerify base []) (concat (ret1 ++ [b]))) as ->.
  { rewrite concat_app. cbn. by rewrite app_nil_r, foldl_app. }
  eapply runs_seq.
  - apply runs_when. intros Hc%Z.leb_le. destruct (Hv 0%nat p eq_refl Hc) as [page EV]. by eapply collect_ok.
  - replace (ret1 ++ b :: take (length ps) ret2) with ((ret1 ++ [b]) ++ take (length ps) ret2) by by rewrite <-app_assoc. apply IH; [|cbn in Hlen; lia].
    intros j q Hq Hc. destruct (Hv (Datatypes.S j) q Hq Hc) as [page EV]. exists page. by rewrite <-app_assoc.
Qed.

Lemma verify_above_runs base q above : (∀ l1 l2, above = l1 ++ l2 → base_items base ++ q ++ l1 = [] ∨ ∃ page, V key base (q ++ l1) = Ok page) →
  runs_as (verify_above key above (foldl verify_push (MkVerify base []) q)) (Ok (foldl verify_push (MkVerify base []) (q ++ above))).
Proof.
  revert q. induction above as [|x above IH]; intros q Hv; [rewrite app_nil_r; apply runs_ret|]. cbn [verify_above]. eapply runs_seq.
  - apply runs_when. intros _. destruct (Hv [] _ eq_refl) as [E|[page EV]]; rewrite app_nil_r in *; [|by eapply collect_ok].
    eapply runs_eq; [apply collect_runs|]. by rewrite E.
  - rewrite <-foldl_snoc. replace (q ++ x :: above) with ((q ++ [x]) ++ above) by by rewrite <-app_assoc. apply IH. intros l1 l2 ->.
    rewrite <-app_assoc. by apply (Hv (x :: l1) l2).
Qed.

(** Every value of the history can be reconstructed. *)
Definition readable (base : option (Lsn * bytes)) (hist : list Item) : Prop :=
  ∀ l1 l2, drop_duplicates None hist = l1 ++ l2 → base_items base ++ l1 ≠ [] → ∃ page, V key base l1 = Ok page.

Lemma drop_duplicates_keeps l x o : x ∈ l → o ≠ Some x.1 → ∃ y, y ∈ drop_duplicates o l ∧ y.1 = x.1.
Proof.
  revert o. induction l as [|z l IH]; intros o Hx Ho; [by apply elem_of_nil in Hx|]. cbn. case_bool_decide as Hz.
  - apply elem_of_cons in Hx as [->|Hx]; [done|]. by apply IH.
  - apply elem_of_cons in Hx as [->|Hx]; [exists z; split; [by left|done]|]. destruct (decide (z.1 = x.1)) as [E|E]; [exists z; split; [by left|done]|].
    destruct (IH (Some z.1) Hx) as (y & Hy & Ey); [congruence|]. exists y. split; [by right|done].
Qed.

Lemma foldl_min_elem l ls : foldl Z.min l ls = l ∨ foldl Z.min l ls ∈ ls.
Proof.
  revert l. induction ls as [|x ls IH]; intros l; cbn; [by left|]. destruct (IH (Z.min l x)) as [->|Hin]; [|right; by right].
  destruct (Z.min_spec l x) as [[_ ->]|[_ ->]]; [by left|]. right. by left.
Qed.

Section verify.
Context (hist : list Item) (retain : list Lsn) (horizon : Lsn) (base : option (Lsn * bytes)) (st : GcState).
Let ps := retain ++ [horizon].
Hypothesis sorted_hist : lsn_sorted hist.
Hypothesis readable_hist : readable base hist.
Hypothesis final : gc_inv key ps base (batches_of ps hist) st.

Lemma batch_prefix k : ∃ l2, drop_duplicates None hist = concat (take k (batches_of ps hist)) ++ l2.
Proof.
  destruct (batches_spec ps hist sorted_hist) as (_ & <- & _). exists (concat (drop k (batches_of ps hist))). by rewrite <-concat_app, take_drop.
Qed.

Lemma readable_batches k : base_items base ++ concat (take k (batches_of ps hist)) ≠ [] → ∃ page, V key base (concat (take k (batches_of ps hist))) = Ok page.
Proof. destruct (batch_prefix k) as [l2 E]. by apply (readable_hist _ l2). Qed.

(** The batches up to a point at or above some item are not empty. *)
Lemma batches_reach x j p : x ∈ hist → ps !! j = Some p → x.1 ≤ p → concat (take (j + 1) (batches_of ps hist)) ≠ [].
Proof.
  intros Hx Hp Hle Hn. destruct (batches_spec ps hist sorted_hist) as (_ & Hcat & Hsp).
  destruct (drop_duplicates_keeps hist x None Hx) as (y & Hy & Ey); [done|]. rewrite <-Hcat in Hy.
  apply list_elem_of_In, in_concat in Hy as (b & Hb & Hy). apply list_elem_of_In in Hb, Hy. apply list_elem_of_lookup_1 in Hb as [i Hi].
  destruct (Hsp _ _ _ Hi Hy) as [_ Hlt]. destruct (decide (j < i)%nat) as [Hji|]; [specialize (Hlt j p Hji Hp); lia|].
  assert (y ∈ concat (take (j + 1) (batches_of ps hist))) as Hin; [|rewrite Hn in Hin; by apply elem_of_nil in Hin].
  apply list_elem_of_In, in_concat. exists b. split; [|by apply list_elem_of_In]. apply list_elem_of_In, (list_elem_of_lookup_2 _ i).
  apply lookup_take_Some. split; [done|lia].
Qed.

(** Nothing is retained of nothing. *)
Lemma retention_empty k : (k ≤ length ps + 1)%nat → base_items base ++ concat (take k (batches_of ps hist)) = [] → concat (take k (retention st)) = [].
Proof.
  intros Hk [Hb Hn]%app_eq_nil. destruct (batches_spec ps hist sorted_hist) as (Hlen & _ & _).
  destruct (concat (take k (retention st))) as [|x l] eqn:E; [done|]. exfalso.
  assert (x ∈ concat (take k (retention st))) as Hx by (rewrite E; by left). clear E.
  apply list_elem_of_In, in_concat in Hx as (b & Hb' & Hx). apply list_elem_of_In in Hb', Hx. apply list_elem_of_lookup_1 in Hb' as [i [Hi Hik]%lookup_take_Some].
  assert (concat (take (i + 1) (batches_of ps hist)) = []) as Hn'.
  { rewrite <-(take_drop (i + 1) (take k (batches_of ps hist))), concat_app, take_take, Nat.min_l in Hn by lia. by apply app_eq_nil in Hn as [? _]. }
  destruct (inv_items _ _ _ _ _ final i b Hi) as [Hbi|(p & img & _ & ->)].
  - rewrite Nat.add_1_r, (take_S_r _ _ _ Hbi), concat_app in Hn'. cbn in Hn'. rewrite app_nil_r in Hn'. apply app_eq_nil in Hn' as [_ ->]. by apply elem_of_nil in Hx.
  - pose proof (inv_value _ _ _ _ _ final (i + 1) ltac:(lia)) as Hv. rewrite Hn' in Hv. rewrite Nat.add_1_r, (take_S_r _ _ _ Hi), concat_app, V_app in Hv.
    unfold V in Hv. by rewrite Hb in Hv.
Qed.

(** What is above the horizon stays. *)
Lemma above_eq : ∃ above, retention st = take (length ps) (retention st) ++ [above] ∧ batches_of ps hist = take (length ps) (batches_of ps hist) ++ [above].
Proof.
  destruct (batches_spec ps hist sorted_hist) as (Hlen & _ & _). pose proof (inv_length _ _ _ _ _ final) as Hl.
  destruct (lookup_lt_is_Some_2 (retention st) (length ps)) as [above Ha]; [lia|]. exists above. split.
  - rewrite <-(take_S_r _ _ _ Ha). by rewrite take_ge by lia.
  - destruct (inv_items _ _ _ _ _ final _ _ Ha) as [Hb|(p & img & Hp%lookup_lt_Some & _)]; [|lia]. rewrite <-(take_S_r _ _ _ Hb). by rewrite take_ge by lia.
Qed.

Lemma verify_runs : runs_as (verify key (MkRetention (zip ps (retention st)) (default [] (last (retention st)))) base hist) (Ok tt).
Proof.
  unfold verify. destruct hist.*1 as [|l ls] eqn:El; [apply runs_ret|]. cbn [below_horizon above_horizon].
  destruct (batches_spec ps hist sorted_hist) as (Hlen & Hcat & Hsp). pose proof (inv_length _ _ _ _ _ final) as Hl.
  assert (∀ x, x ∈ l :: ls → ∃ y, y ∈ hist ∧ y.1 = x) as Hfst.
  { intros x Hx. rewrite <-El in Hx. apply list_elem_of_fmap in Hx as (y & -> & Hy). by exists y. }
  assert (foldl Z.min l ls ∈ l :: ls) as Hmin.
  { destruct (foldl_min_elem l ls) as [->|Hin]; [by left|by right]. }
  destruct (Hfst _ Hmin) as (x & Hx & Ex). rewrite <-Ex. clear Hmin Ex El Hfst.
  eapply runs_seq.
  { apply (verify_below_runs base x.1 ps [] (retention st)); [|lia]. intros j p Hp Hle. cbn [app].
    rewrite (inv_value _ _ _ _ _ final) by (apply lookup_lt_Some in Hp; lia). apply readable_batches.
    intros [_ Hn]%app_eq_nil. by apply (batches_reach x j p Hx Hp Hle). }
  cbn [app]. destruct above_eq as (above & Er & Eb). set (q := concat (take (length ps) (retention st))).
  assert (default [] (last (retention st)) = above) as -> by (rewrite Er; by rewrite last_snoc).
  assert (∀ l1 l2, above = l1 ++ l2 → base_items base ++ q ++ l1 = [] ∨ ∃ page, V key base (q ++ l1) = Ok page) as Hab.
  { intros l1 l2 ->. destruct (decide (base_items base ++ concat (take (length ps) (batches_of ps hist)) ++ l1 = [])) as [E|E].
    - left. rewrite app_assoc in E. apply app_eq_nil in E as [E ->]. unfold q. rewrite (retention_empty (length ps) ltac:(lia) E).
      by apply app_eq_nil in E as [-> _].
    - right. unfold q. rewrite V_app, (inv_value _ _ _ _ _ final) by lia. rewrite <-V_app. apply (readable_hist _ l2); [|done].
      rewrite <-Hcat, Eb at 1. rewrite concat_app. cbn. by rewrite app_nil_r, <-app_assoc. }
  eapply runs_seq; [by apply verify_above_runs|].
  assert (V key base (q ++ above) = V key base (drop_duplicates None hist)) as EV.
  { rewrite <-Hcat. pose proof (inv_value _ _ _ _ _ final (length ps + 1) ltac:(lia)) as Hv. rewrite !take_ge in Hv by lia. rewrite <-Hv, Er at 1.
    rewrite concat_app. cbn. by rewrite app_nil_r. }
  destruct (readable_hist (drop_duplicates None hist) []) as [page Hp]; [by rewrite app_nil_r| |eapply collect_ok; by rewrite EV].
  intros [_ Hn]%app_eq_nil. destruct (drop_duplicates_keeps hist x None Hx) as (y & Hy & _); [done|]. rewrite Hn in Hy. by apply elem_of_nil in Hy.
Qed.
End verify.

(** On a readable history the retention is generated, and passes its verification. *)
Lemma generate_runs hist horizon retain threshold base verification : lsn_sorted hist → readable base hist →
  ∃ r, runs_as (generate_key_retention key hist horizon retain threshold base verification) (Ok r).
Proof.
  intros Hs Hread. unfold generate_key_retention. set (ps := retain ++ [horizon]). change (drop_duplicates None <$> split_history ps hist) with (batches_of ps hist).
  destruct (batches_spec ps hist Hs) as (Hlen & _). rewrite Hlen. assert (0 < length ps)%nat as Hps by (unfold ps; rewrite length_app; cbn; lia).
  destruct (retain_batches_runs key ps threshold base (batches_of ps hist) [] _ (gc_inv_start key ps base) Hlen Hps) as (r0 & Hr0 & Hpost).
  cbn [app] in Hpost. assert (¬ broken key base (batches_of ps hist)) as Hnb.
  { intros (k & Hk & Hn). destruct (readable_batches hist retain horizon base Hs Hread k Hn) as [page EV]. by apply (Hk page). }
  destruct r0 as [st| |]; [|done..]. eexists. eapply runs_seq; [exact Hr0|]. rewrite (inv_length _ _ _ _ _ Hpost), Hlen.
  eapply runs_seq; [unfold assertM; rewrite Nat.eqb_refl; apply runs_ret|]. eapply runs_seq; [|apply runs_ret].
  apply runs_when. intros _. by apply verify_runs.
Qed.
End generate.

(** * Properties *)

(** C17: garbage collection by compaction changes no read that is still allowed: when it
    succeeds, whichever attempts at replaying were made, the value of the key at every
    retained LSN, at the horizon and at every LSN above it is that of the history, both in
    what is retained and in what is written to the layers. The value of a history is that of
    its items one after the other, on top of the image of the ancestor if there is one; of
    several items with one LSN the first, which is the image, counts. *)
Theorem gc_compaction_preserves_reads `{RedoProcessLaws} key hist horizon retain threshold base verification io r io' t image_writer :
  lsn_sorted hist → StronglySorted Z.le (retain ++ [horizon]) →
  generate_key_retention key hist horizon retain threshold base verification io = (Ok r, io') → t ∈ retain ∨ horizon ≤ t →
  V key base (upto t (retained r)) = V key base (upto t (drop_duplicates None hist)) ∧
  V key base (upto t (written_items (default horizon (head retain)) (pipe_to r image_writer))) = V key base (upto t (drop_duplicates None hist)).
Proof. apply written_reads. Qed.

(** C18: when every value of the history can be reconstructed and no attempt at replaying
    fails, garbage collection by compaction returns a retention, and the retention passes
    its verification; otherwise the only errors are those of the attempts. *)
Theorem gc_compaction_succeeds `{RedoProcessLaws} key hist horizon retain threshold base verification io :
  lsn_sorted hist → readable key base hist →
  let out := (generate_key_retention key hist horizon retain threshold base verification io).1 in
  (Forall (λ o, o = None) io → ∃ r, out = Ok r) ∧ out ≠ Panic.
Proof.
  intros Hs Hr. destruct (generate_runs key hist horizon retain threshold base verification Hs Hr) as (r & Hrun).
  destruct (Hrun io) as (H1 & _ & H3). split; [|by intros E; specialize (H3 E)]. intros Hio. exists r. by apply H1.
Qed.

(** * Runs *)

#[local] Instance append_process : RedoProcess := {|
  apply_wal_records _ _ img rs := Some (default [] img ++ concat rs.*2)
|}.

#[local] Instance append_process_laws : RedoProcessLaws.
Proof. split. intros rel blknum img [l r] [l' r'] rs. cbn. by rewrite app_nil_r, <-!app_assoc. Qed.

(** A block of a relation, and one of the commit log. *)
Definition a_key : Key := MkKey 0 1663 5 1259 0 7.

Definition rec (c : Z) : Value := WalRecord (Postgres false [c]).

(** A@0x10, +B@0x20, +C@0x30, +D@0x40, +E@0x50, +F@0x60 *)
Definition letters : list Item :=
  [(0x10, Image [65]); (0x10, rec 90); (0x20, rec 66); (0x30, rec 67); (0x40, rec 68); (0x50, rec 69); (0x60, rec 70)].

Lemma letters_sorted : lsn_sorted letters.
Proof. unfold lsn_sorted, letters. repeat constructor; cbn; lia. Qed.

(** Image below the lowest retained LSN, records at the next, an image at the horizon, the
    history above it. *)
Definition letters_retention : KeyHistoryRetention :=
  MkRetention [(0x20, [(0x20, Image [65; 66])]); (0x40, [(0x30, rec 67); (0x40, rec 68)]); (0x50, [(0x50, Image [65; 66; 67; 68; 69])])]
    [(0x60, rec 70)].

Lemma gc_compaction_preserves_reads_witness :
  generate_key_retention a_key letters 0x50 [0x20; 0x40] 3 None true [] = (Ok letters_retention, []) ∧
  V a_key None (upto 0x40 (retained letters_retention)) = Ok [65; 66; 67; 68] ∧
  V a_key None (upto 0x70 (written_items 0x20 (pipe_to letters_retention true))) = Ok [65; 66; 67; 68; 69; 70].
Proof.
  assert (generate_key_retention a_key letters 0x50 [0x20; 0x40] 3 None true [] = (Ok letters_retention, [])) as E by (vm_compute; reflexivity).
  assert (StronglySorted Z.le ([0x20; 0x40] ++ [0x50])) as Hs by (repeat constructor; lia).
  destruct (gc_compaction_preserves_reads a_key letters 0x50 [0x20; 0x40] 3 None true [] letters_retention [] 0x40 true letters_sorted Hs E) as [H1 _]; [left; by right; left|].
  destruct (gc_compaction_preserves_reads a_key letters 0x50 [0x20; 0x40] 3 None true [] letters_retention [] 0x70 true letters_sorted Hs E) as [_ H2]; [by right|].
  cbn [default head option_map] in H2. split; [exact E|]. split; [rewrite H1|etransitivity; [exact H2|]]; vm_compute; reflexivity.
Defined.

Lemma letters_readable : readable a_key None letters.
Proof.
  intros l1 l2 E Hne. assert (length l1 ≤ 6)%nat as Hl.
  { apply (f_equal length) in E. rewrite length_app in E. change (length (drop_duplicates None letters)) with 6%nat in E. lia. }
  assert (length l1 ≠ 0)%nat as Hn by (by destruct l1).
  assert (take (length l1) (drop_duplicates None letters) = l1) as E1 by (rewrite E; by rewrite take_app_length). rewrite <-E1.
  destruct (length l1) as [|[|[|[|[|[|[|n]]]]]]]; [done|by (eexists; vm_compute; reflexivity)..|lia].
Qed.

Lemma gc_compaction_succeeds_witness : ∃ r, (generate_key_retention a_key letters 0x50 [0x20; 0x40] 3 None true [None]).1 = Ok r.
Proof.
  destruct (gc_compaction_succeeds a_key letters 0x50 [0x20; 0x40] 3 None true [None] letters_sorted letters_readable) as [H _].
  apply H. by repeat constructor.
Defined.

(** Batches of both kinds, the second attempt at the first of them succeeding. *)
Definition mixed : list (Lsn * NeonWalRecord) := [(1, Postgres true [1; 2]); (2, Postgres false [3]); (3, AuxFile [] None); (4, Postgres false [4])].

Lemma redo_batching_irrelevant_witness :
  (PostgresRedoManager.request_redo a_key None mixed ReadPage [Some Other; None]).1 = Ok [1; 2; 3; 4] ∧ replay a_key None mixed = Ok [1; 2; 3; 4].
Proof.
  assert ((PostgresRedoManager.request_redo a_key None mixed ReadPage [Some Other; None]).1 = Ok [1; 2; 3; 4]) as E by (vm_compute; reflexivity).
  split; [exact E|]. destruct (redo_batching_irrelevant a_key None mixed ReadPage [Some Other; None] ltac:(discriminate)) as [H _]. exact (H _ E).
Defined.

Definition zero_page : bytes := replicate 8192 0.

Lemma clog_commit_exact_witness : ∃ page', apply_in_neon (ClogSetCommitted [32769; 32771] 5) 9 (slru_block_to_key Clog 0 1) zero_page = Ok page' ∧
  transaction_id_get_status 32771 page' = Ok 1 ∧ transaction_id_get_status 32770 page' = Ok 0.
Proof.
  destruct (clog_commit_exact 0 1 [32769; 32771] 5 9 zero_page 1) as (page' & E & _ & Hg).
  - reflexivity.
  - reflexivity.
  - repeat constructor.
  - left. vm_compute. reflexivity.
  - apply Forall_replicate. unfold in_u. lia.
  - exists page'. split; [exact E|]. rewrite !Hg by reflexivity. split; vm_compute; reflexivity.
Defined.
