(* ===== verification/ReadHistories.v ===== *)
(** Histories of a key as a read sees them: the parts of a history that layers hold, and
    what the values collected for a key are reconstructed to. *)

From stdpp Require Import gmap.
From S2P Require Import Prelude Text Loops Lsns Keys Feedbacks WalRedos WalRedoFacts ReadPaths GcCompactions GcFacts.
Local Open Scope Z_scope.

(** * Parts of a history *)

Definition in_lsn_range (r : Range Z) (x : Item) : bool := (r_start r <=? x.1) && (x.1 <? r_end r).
Definition within (r : Range Z) (l : list Item) : list Item := List.filter (in_lsn_range r) l.

Lemma elem_of_within r l x : x ∈ within r l ↔ r_start r ≤ x.1 < r_end r ∧ x ∈ l.
Proof. unfold within, in_lsn_range. rewrite !list_elem_of_In, List.filter_In, andb_true_iff, Z.leb_le, Z.ltb_lt. tauto. Qed.

Lemma elem_of_history_upto t l x : x ∈ upto t l ↔ x.1 ≤ t ∧ x ∈ l.
Proof. unfold upto, at_most. rewrite !list_elem_of_In, List.filter_In, Z.leb_le. tauto. Qed.

Lemma filter_sorted_app (P Q R : Item → bool) (t : Z) l : lsn_sorted l →
  (∀ x, P x = true → x.1 < t) → (∀ x, Q x = true → t ≤ x.1) → (∀ x, R x = P x || Q x) →
  List.filter R l = List.filter P l ++ List.filter Q l.
Proof.
  intros Hs HP HQ HR. induction Hs as [|x l Hs IH Hx]; [done|]. cbn. rewrite HR. specialize (HP x) as HPx. specialize (HQ x) as HQx.
  destruct (P x); destruct (Q x); cbn [orb].
  - specialize (HPx eq_refl). specialize (HQx eq_refl). lia.
  - cbn. by rewrite IH.
  - rewrite IH, (filter_false P l); [done|]. intros y Hy. rewrite Forall_forall in Hx. specialize (Hx y Hy). specialize (HQx eq_refl).
    destruct (P y) eqn:E; [|done]. apply HP in E. lia.
  - done.
Qed.

Lemma within_split a b c l : lsn_sorted l → a ≤ b ≤ c → within (mkRange a c) l = within (mkRange a b) l ++ within (mkRange b c) l.
Proof.
  intros Hs Hb. apply (filter_sorted_app _ _ _ b); [done|..]; unfold in_lsn_range; cbn; lia.
Qed.

Lemma upto_split c s l : lsn_sorted l → c ≤ s + 1 → upto s l = upto (c - 1) l ++ within (mkRange c (s + 1)) l.
Proof. intros Hs Hc. apply (filter_sorted_app _ _ _ c); [done|..]; unfold in_lsn_range, at_most; cbn; lia. Qed.

Lemma within_upto r t l : r_end r ≤ t + 1 → within r (upto t l) = within r l.
Proof.
  intros Hr. induction l as [|x l IH]; [done|]. unfold within, upto, at_most, in_lsn_range in *. cbn.
  destruct (Z.leb_spec x.1 t); cbn; [by rewrite IH|]. rewrite IH, (proj2 (Z.ltb_ge x.1 (r_end r))), andb_false_r by lia. done.
Qed.

Lemma within_within r r' l : (∀ x, x ∈ l → in_lsn_range r x = true → in_lsn_range r' x = true) → within r (within r' l) = within r l.
Proof.
  induction l as [|x l IH]; intros Hx; [done|]. unfold within in *. cbn. specialize (IH (λ y Hy, Hx y (list_elem_of_further _ _ _ Hy))).
  specialize (Hx x (list_elem_of_here _ _)). destruct (in_lsn_range r x) eqn:E.
  - rewrite Hx by done. cbn. by rewrite E, IH.
  - destruct (in_lsn_range r' x); cbn; rewrite ?E; apply IH.
Qed.

Lemma upto_upto a b l : a ≤ b → upto a (upto b l) = upto a l.
Proof.
  intros Hab. induction l as [|x l IH]; [done|]. unfold upto, at_most in *. cbn. destruct (Z.leb_spec x.1 b); cbn; [by rewrite IH|].
  rewrite IH, (proj2 (Z.leb_gt x.1 a)) by lia. done.
Qed.

(** * The item that the value starts from *)

Definition inits (l : list Item) : bool := match last_init l with Some _ => true | None => false end.

Lemma inits_false l : inits l = false ↔ Forall (λ y : Item, Value.will_init y.2 = false) l.
Proof.
  unfold inits. pose proof (last_init_spec l) as Hl. destruct (last_init l) as [r|]; [|done]. destruct Hl as (l0 & x & r' & -> & -> & Hx & _).
  split; [done|]. intros [_ [E _]%Forall_cons]%Forall_app. congruence.
Qed.

Lemma last_init_app l1 l2 : last_init (l1 ++ l2) = match last_init l2 with Some r => Some r | None => (λ r, r ++ l2) <$> last_init l1 end.
Proof.
  induction l1 as [|x l1 IH]; cbn; [by destruct (last_init l2)|]. rewrite IH. destruct (last_init l2) as [r|]; [done|].
  destruct (last_init l1) as [r|]; [done|]. cbn. by destruct (Value.will_init x.2).
Qed.

Lemma inits_app l1 l2 : inits (l1 ++ l2) = inits l1 || inits l2.
Proof. unfold inits. rewrite last_init_app. destruct (last_init l2); [by rewrite orb_true_r|]. by destruct (last_init l1). Qed.

Lemma inits_single x : inits [x] = Value.will_init x.2.
Proof. unfold inits. cbn. by destruct (Value.will_init x.2). Qed.

Lemma inits_elem l x : x ∈ l → Value.will_init x.2 = true → inits l = true.
Proof. intros Hx Hi. destruct (inits l) eqn:E; [done|]. apply inits_false in E. rewrite Forall_forall in E. specialize (E x Hx). congruence. Qed.

Lemma trim_app l1 l2 : trim_history (l1 ++ l2) = if inits l2 then trim_history l2 else trim_history l1 ++ l2.
Proof. unfold trim_history, inits. rewrite last_init_app. destruct (last_init l2); [done|]. by destruct (last_init l1). Qed.

Lemma trim_history_id l : inits l = false → trim_history l = l.
Proof. unfold trim_history, inits. by destruct (last_init l). Qed.

Lemma inits_cons x l : inits (x :: l) = Value.will_init x.2 || inits l.
Proof. rewrite <-(inits_single x). apply (inits_app [x] l). Qed.

Lemma trim_cons x l : trim_history (x :: l) = if inits l then trim_history l else x :: l.
Proof. rewrite (trim_app [x] l : trim_history (x :: l) = _). destruct (inits l); [done|]. unfold trim_history. cbn. by destruct (Value.will_init x.2). Qed.

Lemma trim_nil l : trim_history l = [] → l = [].
Proof. unfold trim_history. pose proof (last_init_spec l) as Hl. destruct (last_init l); [|done]. destruct Hl as (? & ? & ? & _ & -> & _). done. Qed.

Lemma inits_trim l : inits (trim_history l) = inits l.
Proof.
  unfold trim_history. destruct (last_init l) as [r|] eqn:E; [|done]. cbn [default]. unfold inits at 2. rewrite E.
  pose proof (last_init_spec l) as Hl. rewrite E in Hl. destruct Hl as (l0 & x & r' & _ & -> & Hx & _). apply (inits_elem _ x); [by left|done].
Qed.

Lemma inits_rev l : inits (rev l) = inits l.
Proof. induction l as [|x l IH]; [done|]. cbn [rev]. rewrite inits_app, IH, inits_single, inits_cons. apply orb_comm. Qed.

Lemma trim_trim l : trim_history (trim_history l) = trim_history l.
Proof.
  destruct (inits l) eqn:Ei; [|by rewrite (trim_history_id l), trim_history_id]. pose proof (last_init_spec l) as Hl. unfold inits in Ei.
  assert (trim_history l = default l (last_init l)) as -> by done. destruct (last_init l) as [l1|]; [|done].
  destruct Hl as (l0 & x & r' & _ & -> & Hx & Hr). unfold default, id. by rewrite trim_cons, (proj2 (inits_false r') Hr).
Qed.

Section history_values.
Context `{RedoProcessLaws} (key : Key).

Lemma value_of_inits cur cur' l : inits l = true → value_of key cur l = value_of key cur' l.
Proof.
  intros Hl. rewrite <-(trim_value key cur), <-(trim_value key cur'). unfold inits in Hl. unfold trim_history. pose proof (last_init_spec l) as Hs.
  destruct (last_init l) as [r|]; [|done]. destruct Hs as (l0 & x & r' & _ & -> & Hx & _). by apply value_of_init.
Qed.

Lemma value_of_suffix cur l1 l2 : inits l2 = true → value_of key cur (l1 ++ l2) = value_of key cur l2.
Proof. intros Hl. rewrite value_of_app. by apply value_of_inits. Qed.

(** A history with a value starts from an item. *)
Lemma value_of_readable l page : value_of key (Err Other) l = Ok page → inits l = true.
Proof.
  intros E. destruct (inits l) eqn:Hi; [done|]. apply inits_false in Hi. destruct (walrecords_value key l Hi) as (rs & _ & _ & Hv). by rewrite Hv in E.
Qed.
End history_values.

(** * What was collected *)

Section collect.
Context `{ValueCodec} `{RedoProcessLaws}.

(** The outcome of reading a value: it fails, or it is the value. *)
Definition reads_as (io : IoResult) (v : Value) : Prop :=
  match io with
  | inl _ => True
  | inr (RawImage img) => v = Image img
  | inr (WalRecordOrImage buf) => Value_des buf = Some v
  end.
Definition disk_as (y : Lsn * IoResult) (x : Item) : Prop := y.1 = x.1 ∧ reads_as y.2 x.2.
Definition io_failed (y : Lsn * IoResult) : Prop := ∃ e, y.2 = inl e.

Lemma collect_err vals : foldl VectoredValueReconstructState.collect_one (Err Other) vals = Err Other.
Proof. induction vals as [|y vals IH]; [done|apply IH]. Qed.

Lemma collect_one_spec y x ok : disk_as y x → (∀ img, x.2 = Image img → WalRedos.img ok = None) →
  VectoredValueReconstructState.collect_one (Ok ok) y = Err Other ∧ io_failed y ∨
  VectoredValueReconstructState.collect_one (Ok ok) y = Ok (match x.2 with
    | Image i => MkReconstruct (records ok) (Some (x.1, i)) | WalRecord r => MkReconstruct (records ok ++ [(x.1, r)]) (img ok) end).
Proof.
  destruct y as [lsn io], x as [lsn' v]. intros [E Hr] Hi. cbn in *. subst lsn'. unfold VectoredValueReconstructState.collect_one. cbn.
  destruct io as [e|[i|buf]]; cbn in Hr; [left; split; [done|by exists e]|right|right].
  - subst v. cbn. by rewrite (Hi i).
  - rewrite Hr. unfold VectoredValueReconstructState.add_value. destruct v as [i|r]; [by rewrite (Hi i)|done].
Qed.

(** Records come first, the newest one first. *)
Lemma collect_records vals d rs0 : Forall2 disk_as vals d → Forall (λ x : Item, Value.is_image x.2 = false) d →
  foldl VectoredValueReconstructState.collect_one (Ok (MkReconstruct rs0 None)) vals = Err Other ∧ List.Exists io_failed vals ∨
  ∃ rs, walrecords (rev d) = Ok (rev rs) ∧
    foldl VectoredValueReconstructState.collect_one (Ok (MkReconstruct rs0 None)) vals = Ok (MkReconstruct (rs0 ++ rs) None).
Proof.
  intros Hf. revert rs0. induction Hf as [|y x vals d Hy _ IH]; intros rs0 Hd.
  { right. exists []. split; [done|]. by rewrite app_nil_r. }
  apply Forall_cons in Hd as [Hx Hd]. cbn [foldl].
  destruct (collect_one_spec y x (MkReconstruct rs0 None) Hy) as [[E He]|E]; [done|..]; rewrite E.
  { left. split; [apply collect_err|by left]. }
  destruct x as [lsn [i|r]]; [done|]. cbn [snd fst records img]. destruct (IH (rs0 ++ [(lsn, r)]) Hd) as [[E1 He]|(rs & Ew & E1)].
  - left. split; [done|by right].
  - right. exists ((lsn, r) :: rs). rewrite E1, <-app_assoc. split; [|done]. cbn [rev]. revert Ew. generalize (rev d) (rev rs). clear.
    intros l. induction l as [|[lsn' [?|r']] l IHl]; intros rs; cbn; [by intros [= <-]|done|].
    destruct (walrecords l) as [rs'| |]; [|done..]. intros [= <-]. by rewrite (IHl rs' eq_refl).
Qed.

Lemma collect_history x l vals : Value.will_init x.2 = true → Forall (λ y : Item, Value.will_init y.2 = false) l →
  Forall2 disk_as vals (rev (x :: l)) →
  foldl VectoredValueReconstructState.collect_one (Ok (MkReconstruct [] None)) vals = Err Other ∧ List.Exists io_failed vals ∨
  foldl VectoredValueReconstructState.collect_one (Ok (MkReconstruct [] None)) vals = history_state (x :: l).
Proof.
  intros Hx Hl Hv. assert (Forall (λ y : Item, Value.is_image y.2 = false) (rev l)) as Hr.
  { apply Forall_rev. eapply Forall_impl; [exact Hl|]. by intros [lsn [i|r]]. }
  destruct x as [lsn [i|r]].
  - cbn [rev] in Hv. apply Forall2_app_inv_r in Hv as (v1 & v2 & Hv1 & Hv2 & ->). apply Forall2_cons_inv_r in Hv2 as (y & v3 & Hy & Hv3 & ->).
    apply Forall2_nil_inv_r in Hv3 as ->. rewrite foldl_app. destruct (collect_records v1 (rev l) [] Hv1 Hr) as [[-> He]|(rs & Ew & ->)].
    { left. split; [apply collect_err|]. apply Exists_app. by left. }
    cbn [foldl app]. destruct (collect_one_spec y (lsn, Image i) (MkReconstruct rs None) Hy) as [[-> He]| ->]; [done|..].
    + left. split; [done|]. apply Exists_app. right. by left.
    + right. cbn [history_state snd fst records]. rewrite rev_involutive in Ew. rewrite Ew. cbn. by rewrite rev_involutive.
  - destruct (collect_records vals (rev ((lsn, WalRecord r) :: l)) [] Hv) as [?|(rs & Ew & ->)]; [by apply Forall_app; repeat constructor|by left|].
    right. rewrite rev_involutive in Ew. cbn [history_state]. rewrite Ew. cbn. by rewrite rev_involutive.
Qed.

(** Collecting what is there of a history does not panic. *)
Lemma collect_no_panic (key : Key) l vals : Forall2 disk_as vals (rev (trim_history l)) →
  foldl VectoredValueReconstructState.collect_one (Ok (MkReconstruct [] None)) vals ≠ Panic.
Proof.
  intros Hv. unfold trim_history in Hv. pose proof (last_init_spec l) as Hl. destruct (last_init l) as [r|].
  - destruct Hl as (l0 & x & r' & _ & -> & Hx & Hr). destruct (collect_history x r' vals Hx Hr Hv) as [[-> _]| ->]; [done|].
    destruct (history_state_runs key x r' ReadPage Hx Hr) as (h & -> & _). done.
  - destruct (collect_records vals (rev l) [] Hv) as [[-> _]|(rs & _ & ->)]; [|done..]. apply Forall_rev. eapply Forall_impl; [exact Hl|]. by intros [lsn [i|r]].
Qed.

(** The value of a key that was collected. *)
Definition reconstructs (r v : Res bytes) (reliable : Prop) : Prop :=
  (∀ page, r = Ok page → v = Ok page) ∧ (r = Panic → v = Panic) ∧ (reliable → r = v).

Lemma reconstruct_key_spec key st l outcomes ty : inits l = true → VectoredValueReconstructState.situation st = Complete →
  Forall2 disk_as (VectoredValueReconstructState.on_disk_values st) (rev (trim_history l)) →
  reconstructs (reconstruct_key outcomes ty key st) (value_of key (Err Other) l)
    (Forall (λ o, o = None) outcomes ∧ ¬ List.Exists io_failed (VectoredValueReconstructState.on_disk_values st)).
Proof.
  intros Hi Es Hv. rewrite <-trim_value. unfold reconstruct_key, VectoredValueReconstructState.collect_pending_ios. rewrite bool_decide_eq_true_2 by done.
  unfold inits in Hi. unfold trim_history in *. pose proof (last_init_spec l) as Hl. destruct (last_init l) as [r|]; [|done].
  destruct Hl as (l0 & x & r' & _ & -> & Hx & Hr). cbn [default] in *.
  destruct (history_state_runs key x r' ty Hx Hr) as (h & Eh & Hruns). destruct (collect_history x r' _ Hx Hr Hv) as [[-> He]| ->].
  - split_and!; [done|done|]. by intros [_ ?].
  - rewrite Eh. destruct (Hruns outcomes) as (Hr1 & Hr2 & Hr3). split_and!; [apply Hr2|apply Hr3|]. intros [Ho _]. by apply Hr1.
Qed.
End collect.
