(* ===== verification/ReadStates.v ===== *)
(** What a visit of a layer adds to the values of a read: the calls of [update_key], the
    keys that are done and the image layer that was visited. *)

From stdpp Require Import gmap.
From S2P Require Import Prelude Text Loops Lsns Keys KeysFacts Shards KeySpaces KeySpaceFacts LayerMaps.
From S2P Require Import Feedbacks WalRedos WalRedoFacts ReadPaths GcCompactions GcFacts ReadHistories.
Local Open Scope Z_scope.

Abbreviation RState := ValuesReconstructState.t.
Abbreviation sparse := KeyClass.is_sparse.

(** * Keys with data *)

(** Keys that a layer can hold: the next key is one that layers can end at. *)
Definition regular (k : Key) : Prop := compactable k ∧ ∃ k', Key.next k = Ok k' ∧ compactable k'.

Lemma regular_next k : regular k → ∃ k', singleton_range k = Ok (mkRange k k') ∧ compactable k' ∧ key_lt k k' ∧
  ∀ j, Key.wf j → in_range (mkRange k k') j ↔ j = k.
Proof.
  intros ((Hk & H1 & H2) & k' & E & Hk'). assert (key_lt k Key.MAX) as Hm.
  { unfold key_lt. rewrite ltb_key_Z by (done || by vm_compute). change (key_Z Key.MAX) with (2 ^ 144 - 1). destruct Hk as (? & ? & ? & ? & ? & ?). unfold in_u, key_Z in *. lia. }
  destruct (key_next_Z k Hk Hm) as (k2 & E2 & Hw & Ez). rewrite E in E2. injection E2 as <-. exists k'.
  assert (key_lt k k') as Hlt by (unfold key_lt; rewrite ltb_key_Z by done; lia).
  unfold singleton_range. rewrite E. split; [done|]. split; [done|]. split; [done|]. intros j Hj. unfold in_range. cbn. split.
  - intros [Hl Hu]. unfold key_lt in Hu. rewrite ltb_key_Z in Hu by done. destruct (key_lt_total j k) as [H|[H|H]]; [key_order|done|].
    unfold key_lt in H. rewrite ltb_key_Z in H by done. lia.
  - intros ->. split; [key_order|done].
Qed.

(** * The state of a key *)

Section states.
Context `{ValueCodec} (reliable : Key → Prop).

(** What a read of a key found on disk; values of reliable keys are read. *)
Definition found_as (k : Key) (y : Lsn * IoResult) (x : Item) : Prop := disk_as y x ∧ (reliable k → ¬ io_failed y).

(** The state of a key has the items of [l] from the last one on that initializes the
    page, the newest one first. *)
Definition represents_key (rs : RState) (k : Key) (l : list Item) : Prop :=
  match ValuesReconstructState.keys rs !! k with
  | None => l = []
  | Some st => l ≠ [] ∧ Forall2 (found_as k) (VectoredValueReconstructState.on_disk_values st) (rev (trim_history l)) ∧
      VectoredValueReconstructState.situation st = if inits l then Complete else Continue
  end.

Lemma represents_key_same rs rs' k l : ValuesReconstructState.keys rs' !! k = ValuesReconstructState.keys rs !! k →
  represents_key rs k l → represents_key rs' k l.
Proof. unfold represents_key. by intros ->. Qed.

Lemma represents_key_trim rs k l l' : trim_history l = trim_history l' → represents_key rs k l → represents_key rs k l'.
Proof.
  intros E. unfold represents_key. rewrite <-(inits_trim l), <-(inits_trim l'), E. destruct (_ !! k) as [st|].
  - intros (Hne & Hf & Hs). split; [|done]. intros ->. apply Hne. by apply trim_nil.
  - intros ->. by apply trim_nil.
Qed.

Definition call_reads (k : Key) (c : Call) (x : Item) : Prop :=
  c_will_init c = Value.will_init x.2 ∧ found_as k (c_lsn c, c_io c) x.

(** An item is added in front of those that are there. *)
Lemma update_key_spec rs k k' c x : singleton_range k = Ok (mkRange k k') → call_reads k c x →
  (∃ l, represents_key rs k l ∧ (sparse k = false → inits l = false)) →
  ∃ rs', ValuesReconstructState.update_key (E := GetVectoredError) k (c_lsn c) (c_will_init c) (c_io c) rs = (Ok tt, rs') ∧
    (∀ l, represents_key rs k l → represents_key rs' k (x :: l)) ∧
    (∀ j, j ≠ k → ValuesReconstructState.keys rs' !! j = ValuesReconstructState.keys rs !! j) ∧
    ValuesReconstructState.keys_with_image_coverage rs' = ValuesReconstructState.keys_with_image_coverage rs ∧
    ValuesReconstructState.keys_done rs' =
      ValuesReconstructState.keys_done rs ++ (if negb (sparse k) && Value.will_init x.2 then [mkRange k k'] else []).
Proof.
  intros Ek [Ew Hf] (l0 & Hl0 & Hsp). rewrite Ew. unfold ValuesReconstructState.update_key.
  set (st := default VectoredValueReconstructState.default (ValuesReconstructState.keys rs !! k)).
  assert (∀ l, represents_key rs k l → Forall2 (found_as k) (VectoredValueReconstructState.on_disk_values st) (rev (trim_history l)) ∧
    VectoredValueReconstructState.situation st = (if inits l then Complete else Continue)) as Hst.
  { intros l. unfold represents_key, st. destruct (_ !! k); cbn; [tauto|]. intros ->. split; [constructor|done]. }
  assert (∀ l, represents_key rs k l → inits l = inits l0) as Hinit.
  { intros l [_ Hs]%Hst. destruct (Hst l0 Hl0) as [_ Hs0]. rewrite Hs in Hs0. by destruct (inits l), (inits l0). }
  destruct (Hst l0 Hl0) as [_ Hs0]. rewrite Hs0. destruct (inits l0) eqn:Ei.
  - destruct (sparse k) eqn:Es; [|by specialize (Hsp eq_refl)]. exists rs. split; [done|]. split; [|by rewrite app_nil_r].
    intros l Hl. apply (represents_key_trim _ _ l); [|done]. by rewrite trim_cons, (Hinit l Hl).
  - assert (∀ l s ks, represents_key rs k l → s = (if Value.will_init x.2 then Complete else Continue) →
      ks !! k = Some (VectoredValueReconstructState.Mk (VectoredValueReconstructState.on_disk_values st ++ [(c_lsn c, c_io c)]) s) →
      represents_key (ValuesReconstructState.set_keys ks rs) k (x :: l)) as Hnew.
    { intros l s ks Hl -> E. unfold represents_key. cbn [ValuesReconstructState.set_keys ValuesReconstructState.keys]. rewrite E.
      cbn [VectoredValueReconstructState.on_disk_values VectoredValueReconstructState.situation]. specialize (Hinit l Hl). destruct (Hst l Hl) as [Hv _]. rewrite trim_history_id in Hv by done.
      rewrite trim_cons, inits_cons, Hinit, orb_false_r. split; [done|]. split; [|done]. cbn [rev]. apply Forall2_app; [done|by constructor]. }
    assert (∀ (v : KeyState) j, j ≠ k → <[k := v]> (ValuesReconstructState.keys rs) !! j = ValuesReconstructState.keys rs !! j) as Hother.
    { intros v j Hj. by rewrite lookup_insert_ne. }
    destruct (Value.will_init x.2) eqn:Ex; [|eexists; split; [done|]; rewrite andb_false_r, app_nil_r; split; [|by split; [apply Hother|]];
      intros l Hl; apply (Hnew l Continue); [done|by rewrite ?Ex|apply lookup_insert_eq]].
    rewrite andb_true_r. destruct (sparse k) eqn:Es; cbn [negb].
    + eexists. split; [done|]. rewrite app_nil_r. split; [|by split; [apply Hother|]]. intros l Hl. apply (Hnew l Complete); [done|done|apply lookup_insert_eq].
    + unfold KeySpaceRandomAccum.add_key. rewrite Ek. cbn. eexists. split; [done|]. split; [|by split; [apply Hother|]].
      intros l Hl. eapply represents_key_same, (Hnew l Complete _ Hl); [done|done|apply lookup_insert_eq].
Qed.

(** ** The calls of a layer *)

Definition calls_of (k : Key) (calls : list Call) : list Call := List.filter (λ c, bool_decide (c_key c = k)) calls.

(** An item that initializes the page is the last one. *)
Fixpoint stops (l : list Item) : Prop :=
  match l with [] => True | x :: l => (Value.will_init x.2 = true → l = []) ∧ stops l end.

Lemma stops_app l x : Forall (λ y : Item, Value.will_init y.2 = false) l → stops (l ++ [x]).
Proof. induction 1 as [|y l Hy _ IH]; cbn; [done|]. split; [congruence|done]. Qed.

Lemma stops_trim l : stops (rev (trim_history l)).
Proof.
  unfold trim_history. pose proof (last_init_spec l) as Hl. destruct (last_init l) as [r|]; cbn [default].
  - destruct Hl as (l0 & x & r' & _ & -> & _ & Hr). cbn [rev]. apply stops_app. by apply Forall_rev.
  - apply Forall_rev in Hl. induction Hl as [|y l' Hy _ IH]; cbn; [done|]. split; [congruence|done].
Qed.

(** What the layer gives for a key can be added to what there is. *)
Definition to_add (rs : RState) (k : Key) (todo : list Item) : Prop :=
  todo ≠ [] → regular k ∧ ∃ l, represents_key rs k l ∧ (sparse k = false → inits l = false ∧ stops todo).

Lemma update_keys_spec calls rs (todo : Key → list Item) :
  (∀ k, Forall2 (call_reads k) (calls_of k calls) (todo k)) → (∀ k, to_add rs k (todo k)) →
  ∃ rs' d, update_keys (E := GetVectoredError) calls rs = (Ok tt, rs') ∧
    (∀ k l, represents_key rs k l → represents_key rs' k (rev (todo k) ++ l)) ∧
    (∀ k, todo k = [] → ValuesReconstructState.keys rs' !! k = ValuesReconstructState.keys rs !! k) ∧
    ValuesReconstructState.keys_with_image_coverage rs' = ValuesReconstructState.keys_with_image_coverage rs ∧
    ValuesReconstructState.keys_done rs' = ValuesReconstructState.keys_done rs ++ d ∧
    Forall nonempty d ∧ ks_in compactable d ∧ (∀ k, Key.wf k → mem d k ↔ sparse k = false ∧ inits (todo k) = true).
Proof.
  revert rs todo. induction calls as [|c calls IH]; intros rs todo Hc Hadd.
  { assert (∀ k, todo k = []) as Hnil by (intros k; by apply (Forall2_nil_inv_l _ _ (Hc k))).
    exists rs, []. rewrite app_nil_r. split; [done|]. split; [intros k l; by rewrite Hnil|]. do 3 (split; [done|]).
    split; [constructor|]. split; [constructor|]. intros k _. rewrite mem_nil, Hnil. by split; [|intros []]. }
  set (k0 := c_key c). pose proof (Hc k0) as Hc0. unfold calls_of in Hc0. cbn [List.filter] in Hc0. rewrite bool_decide_eq_true_2 in Hc0 by done.
  apply Forall2_cons_inv_l in Hc0 as (x & t & Hx & Ht & Et). destruct (Hadd k0) as (Hreg & l0 & Hl0 & Hstop); [by rewrite Et|]. rewrite Et in Hstop.
  destruct (regular_next k0 Hreg) as (k' & Ek & Hk' & Hlt & Hone).
  destruct (update_key_spec rs k0 k' c x Ek Hx) as (rs1 & E1 & Hnew & Hold & Hcov & Hd); [exists l0; split; [done|]; intros Hs; by apply Hstop|].
  set (todo' := λ k, if decide (k = k0) then t else todo k).
  assert (todo' k0 = t) as Et' by (unfold todo'; by rewrite decide_True). assert (∀ k, k ≠ k0 → todo' k = todo k) as Ene by (intros k Hk; unfold todo'; by rewrite decide_False).
  assert (∀ k l, k ≠ k0 → represents_key rs k l → represents_key rs1 k l) as Hkeep by (intros k l Hk; apply represents_key_same; by apply Hold).
  destruct (IH rs1 todo') as (rs' & d & E' & Hnew' & Hold' & Hcov' & Hd' & Hne & Hin & Hmem).
  - intros k. specialize (Hc k). unfold calls_of in Hc. cbn [List.filter] in Hc. destruct (decide (k = k0)) as [->|Hk]; [by rewrite Et'|].
    rewrite Ene by done. by rewrite bool_decide_eq_false_2 in Hc.
  - intros k Hk. destruct (decide (k = k0)) as [->|Hne].
    + rewrite Et' in *. split; [done|]. exists (x :: l0). split; [by apply Hnew|]. intros Hs. destruct (Hstop Hs) as [Hi [H1 H2]].
      split; [|done]. rewrite inits_cons, Hi, orb_false_r. destruct (Value.will_init x.2); [|done]. by destruct Hk; apply H1.
    + rewrite Ene in * by done. destruct (Hadd k Hk) as (? & l & ? & ?). split; [done|]. exists l. split; [by apply Hkeep|done].
  - exists rs', ((if negb (sparse k0) && Value.will_init x.2 then [mkRange k0 k'] else []) ++ d).
    cbn [update_keys]. rewrite (M_bind_ok _ _ _ _ _ E1). split; [done|]. split; [|split; [|split; [congruence|split; [by rewrite Hd', Hd, <-app_assoc|]]]].
    + intros k l Hl. destruct (decide (k = k0)) as [->|Hk].
      * rewrite Et. cbn [rev]. rewrite <-app_assoc. rewrite <-Et'. by apply Hnew', Hnew.
      * rewrite <-Ene by done. by apply Hnew', Hkeep.
    + intros k Hk. assert (k ≠ k0) as Hk0 by (intros ->; congruence). rewrite Hold', Hold by (by rewrite ?Ene). done.
    + split; [|split].
      * apply Forall_app. split; [|done]. destruct (_ && _); by repeat constructor.
      * apply ks_in_app. split; [|done]. destruct (_ && _); [|constructor]. apply ks_in_single. by split; [apply Hreg|].
      * intros k Hk. rewrite mem_app, Hmem by done. assert (mem (if negb (sparse k0) && Value.will_init x.2 then [mkRange k0 k'] else []) k ↔
          k = k0 ∧ sparse k0 = false ∧ Value.will_init x.2 = true) as ->.
        { destruct (sparse k0), (Value.will_init x.2); cbn [negb andb]; rewrite ?mem_nil, ?mem_singleton, ?Hone by done; naive_solver. }
        destruct (decide (k = k0)) as [->|Hne0]; [|rewrite Ene by done; naive_solver]. rewrite Et, Et', inits_cons.
        destruct (Value.will_init x.2); cbn [orb]; naive_solver.
Qed.
End states.

(** * The visit of a layer *)

#[global] Instance in_range_dec r k : Decision (in_range r k).
Proof. unfold in_range, key_le, key_lt. apply _. Defined.

#[global] Instance mem_dec ks k : Decision (mem ks k).
Proof.
  refine (cast_if (decide (List.Exists (λ r, in_range r k) ks))); rewrite Exists_exists in *; [done|].
  by intros (r & Hr & Hk); apply n; exists r.
Defined.

Definition id_is_image (id : LayerId) : bool := match id with PersistentLayerId key => negb (plk_is_delta key) | InMemoryLayerId _ => false end.

Section visit.
Context `{ValueCodec} `{LayerAccess} (items : bytes * LayerId → Key → list Item) (reliable : Key → Prop).

(** The items of a layer that a visit for an LSN range gives for a key: an image layer
    has values of one LSN. *)
Definition seen (id : bytes * LayerId) (r : Range Z) (k : Key) : list Item :=
  if id_is_image id.2 then items id k else within r (items id k).

(** What the files of the layers give: for every key that is asked for the items from the
    last one on that initializes the page, the newest one first. *)
Record access_ok : Prop := {
  ao_regular id k : items id k ≠ [] → regular k;
  ao_calls id ks r : ks_wf ks → ks_in compactable ks → ∃ calls, layer_calls id ks r = Ok calls ∧
    ∀ k, Forall2 (call_reads reliable k) (calls_of k calls) (if decide (mem ks k) then rev (trim_history (seen id r k)) else [])
}.

Context (Ha : access_ok).

Lemma seen_regular id r k : seen id r k ≠ [] → regular k.
Proof.
  intros Hs. apply (ao_regular Ha id). intros E. apply Hs. unfold seen, within. rewrite E. by destruct (id_is_image id.2).
Qed.

Definition coverage_of (lr : ReadableLayer.t) : option (Range Key) :=
  match lr with ReadableLayer.PersistentLayer d => if pd_is_delta d then None else Some (pd_key_range d) | _ => None end.

(** No visit is under way. *)
Definition at_rest (rs : RState) : Prop :=
  ValuesReconstructState.keys_done rs = [] ∧ ValuesReconstructState.keys_with_image_coverage rs = None.

Lemma visit_layer_spec lr ks r rs : at_rest rs → ks_wf ks → ks_in compactable ks →
  (∀ k, mem ks k → regular k → ∃ l, represents_key reliable rs k l ∧ (sparse k = false → inits l = false)) →
  ∃ rs1 rs2 rs' done,
    get_values_reconstruct_data lr ks r rs = (Ok tt, rs1) ∧ on_layer_visited (E := GetVectoredError) lr rs1 = (Ok tt, rs2) ∧
    ValuesReconstructState.consume_done_keys (E := GetVectoredError) rs2 = (Ok (done, coverage_of lr), rs') ∧
    at_rest rs' ∧ ks_normal done ∧ ks_in compactable done ∧
    (∀ k, Key.wf k → mem done k ↔ mem ks k ∧ sparse k = false ∧ inits (seen (ReadableLayer.file lr) r k) = true) ∧
    (∀ k l, mem ks k → represents_key reliable rs k l → represents_key reliable rs' k (seen (ReadableLayer.file lr) r k ++ l)) ∧
    (∀ k, ¬ (regular k ∧ mem ks k) → ValuesReconstructState.keys rs' !! k = ValuesReconstructState.keys rs !! k).
Proof.
  intros [Hd0 Hc0] Hwf Hin Hrep. set (id := ReadableLayer.file lr).
  destruct (ao_calls Ha id ks r Hwf Hin) as (calls & Ec & Hcalls). set (todo := λ k, if decide (mem ks k) then rev (trim_history (seen id r k)) else []).
  assert (∀ k, todo k ≠ [] → mem ks k ∧ regular k) as Htodo.
  { intros k. unfold todo. destruct (decide (mem ks k)); [|done]. intros Hne. split; [done|]. apply (seen_regular id r). intros E. by rewrite E in Hne. }
  destruct (update_keys_spec reliable calls rs todo Hcalls) as (rs1 & d & E1 & Hnew & Hold & Hcov & Hd & Hne & Hdin & Hmem).
  { intros k Hk. destruct (Htodo k Hk) as [Hm Hreg]. split; [done|]. destruct (Hrep k Hm Hreg) as (l & Hl & Hi). exists l. split; [done|].
    intros Hs. split; [by apply Hi|]. unfold todo. rewrite decide_True by done. apply stops_trim. }
  rewrite Hd0 in Hd. cbn [app] in Hd. rewrite Hc0 in Hcov. destruct (random_accum_spec d Hne) as (done & Ed & Hn & Hmd).
  set (rs1' := ValuesReconstructState.set_coverage (coverage_of lr) rs1).
  assert (get_values_reconstruct_data lr ks r rs = (Ok tt, rs1')) as Eget.
  { unfold get_values_reconstruct_data. fold id. rewrite Ec. cbn [liftR]. rewrite (M_bind_ok _ _ _ calls rs) by done. rewrite (M_bind_ok _ _ _ _ _ E1).
    unfold rs1', coverage_of. destruct lr as [desc|m]; [destruct (pd_is_delta desc)|]; cbn [negb whenM].
    - rewrite <-Hcov. by destruct rs1.
    - unfold ValuesReconstructState.on_image_layer_visited, getS, modifyS, mbind, M_bind. by rewrite Hcov.
    - rewrite <-Hcov. by destruct rs1. }
  eexists rs1', _, _, done. split; [exact Eget|]. split; [done|]. split.
  { unfold ValuesReconstructState.consume_done_keys. cbn. rewrite Hd, Ed. done. }
  split; [done|]. split; [done|]. split; [by apply (random_accum_in compactable d)|]. split; [|split].
  - intros k Hk. rewrite Hmd, Hmem by done. unfold todo. destruct (decide (mem ks k)); [|by split; [intros [_ ?]|intros [? _]]].
    rewrite inits_rev, inits_trim. tauto.
  - intros k l Hk Hl. eapply represents_key_same; [|eapply represents_key_trim; [|exact (Hnew k l Hl)]]; [done|].
    unfold todo. rewrite decide_True, rev_involutive by done. rewrite !trim_app. by rewrite trim_trim.
  - intros k Hk. apply Hold. destruct (decide (todo k = [])) as [|Hnil]; [done|]. destruct Hk. by destruct (Htodo k Hnil).
Qed.
End visit.
