(* ===== verification/ReadVersions.v ===== *)
(** What the layers of a timeline hold for a key, and what one visit of a layer finds: the
    part of the history between the floor of the visit and its end, or an image that
    stands for everything below. *)

From stdpp Require Import gmap.
From S2P Require Import Prelude Text Loops OrdMaps Lsns Keys KeysFacts Shards KeySpaces KeySpaceFacts.
From S2P Require Import LayerCoverage HistoricCoverage LayerMaps LayerMapUpdates LayerMapFacts LayerSearch RangeSearchFacts.
From S2P Require Import Feedbacks WalRedos WalRedoFacts ReadPaths ReadFringe GcCompactions GcFacts ReadHistories ReadStates.
Local Open Scope Z_scope.

Abbreviation Layers := (list PersistentLayerDesc).
Abbreviation is_image_layer d := (pd_is_delta d = false).
Abbreviation layer_lsn d := (r_start (pd_lsn_range d)).
Abbreviation layer_id_of d := (PersistentLayerId (PersistentLayerDesc.key d)).

(** * Layers and keys *)

Definition covers (d : PersistentLayerDesc) (k : Key) : Prop := ∃ x, Key.to_i128 k = Ok x ∧ covers_key d x.

Definition compactable_range (r : Range Key) : Prop := nonempty r ∧ compactable (r_start r) ∧ compactable (r_end r).

Lemma covers_range d k : compactable_range (pd_key_range d) → compactable k → covers d k ↔ in_range (pd_key_range d) k.
Proof.
  intros (_ & Hs & He) Hk. destruct (compactable_key_of _ Hs) as (a & Ha & Ea & Ia), (compactable_key_of _ He) as (b & Hb & Eb & Ib).
  destruct (compactable_key_of _ Hk) as (x & Hx & Ex & Ix). unfold covers, covers_key, layer_key_of. rewrite Ia, Ib. cbn [mbind result_bind].
  destruct (pd_key_range d) as [rs re] eqn:E. cbn in Ea, Eb. subst rs re. assert (in_range (mkRange (key_of a) (key_of b)) k ↔ a ≤ x < b) as -> by (rewrite Ex; by apply key_of_range). split.
  - intros (y & Iy & lk & [= <-] & Hl). cbn in Hl. congruence.
  - intros Hr. exists x. split; [done|]. eexists. split; [done|]. done.
Qed.

(** The floor of an image layer is its LSN. *)
Lemma select_image_floor delta image inmem end_lsn r d :
  select_layer delta image inmem end_lsn = Ok (Some r) → sr_layer r = PersistentLayer d → is_image_layer d → lsn_floor r = layer_lsn d.
Proof.
  assert (∀ delta image r, pd_is_delta delta = true → select_delta_image delta image end_lsn = Ok r → sr_layer r = PersistentLayer d → is_image_layer d →
    d = image ∧ lsn_floor r = layer_lsn d) as Hdi.
  { intros dl im r' Hd. unfold select_delta_image, mbind, result_bind. destruct (Lsn.add _ 1) as [next| |]; [|done..].
    destruct (_ || _); intros [= <-] [= <-]; [done|congruence]. }
  assert (∀ image inmem r, select_image_inmem image inmem end_lsn = Ok r → sr_layer r = PersistentLayer d → d = image ∧ lsn_floor r = layer_lsn d) as Him.
  { intros im m r'. unfold select_image_inmem, mbind, result_bind. destruct (Lsn.add _ 1) as [next| |]; [|done..].
    by destruct (_ || _); intros [= <-] [= <-]. }
  assert (∀ delta inmem, pd_is_delta delta = true → sr_layer (select_delta_inmem delta inmem end_lsn) = PersistentLayer d → ¬ is_image_layer d) as Hdm.
  { intros dl m Hd. unfold select_delta_inmem. destruct (_ || _); intros [= <-]. congruence. }
  unfold select_layer. destruct (negb (default true (pd_is_delta <$> delta))) eqn:Ed; [done|]. destruct (default false _) eqn:Ei; [done|].
  destruct delta as [dl|]; cbn in Ed; [apply negb_false_iff in Ed|]; destruct image as [im|], inmem as [m|]; cbn [mbind result_bind].
  - destruct (select_delta_image dl im end_lsn) as [r1| |] eqn:E1; [|done..]. cbn [mbind result_bind]. destruct (sr_layer r1) as [p|] eqn:E2; [|done].
    destruct (pd_is_delta p) eqn:Ep.
    + intros [= <-]. cbn. intros Hs Hi. by destruct (Hdm p m Ep Hs).
    + destruct (select_image_inmem p m end_lsn) as [r2| |] eqn:E3; [|done..]. intros [= <-]. cbn. intros Hs Hi.
      destruct (Him _ _ _ E3 Hs) as [-> ->]. destruct (Hdi _ _ _ Ed E1 E2 Ep) as [_ ->]. lia.
  - destruct (select_delta_image dl im end_lsn) as [r1| |] eqn:E1; [|done..]. intros [= <-] Hs Hi. by apply (Hdi _ _ _ Ed E1).
  - intros [= <-] Hs Hi. by destruct (Hdm dl m Ed Hs).
  - intros [= <-] [= <-] Hi. congruence.
  - destruct (select_image_inmem im m end_lsn) as [r2| |] eqn:E3; [|done..]. intros [= <-] Hs Hi. by apply (Him _ _ _ E3).
  - by intros [= <-] [= <-].
  - by intros [= <-] [= ].
  - done.
Qed.

(** * The layers at one time *)

Section versions.
Context {T : Type → Type} `{RedBlackTreeLaws T} `{RedoProcessLaws}.
(** What the layers hold, the history of the timeline, what it inherits and what was
    found above; the LSN of the read, its keys and the image layers. *)
Context (tlid : bytes) (items : bytes * LayerId → Key → list Item) (own base above : Key → list Item) (s : Lsn) (K : Key → Prop) (images : Layers).

(** An image layer has the value of a key, unless the key does not exist or is a
    tombstone among the metadata keys. *)
Definition image_holds (k : Key) (L : Lsn) (l : list Item) : Prop :=
  let history := base k ++ upto L (own k) in
  l = [] ∧ history = [] ∨
  l = [] ∧ sparse k = true ∧ value_of k (Err Other) history = Ok [] ∨
  ∃ page, l = [(L, Image page)] ∧ value_of k (Err Other) history = Ok page.

Record version_ok (lm : LayerMap.t T) (A : Layers) : Prop := {
  vo_start d : d ∈ A → 1 ≤ layer_lsn d;
  vo_mem_start m : m ∈ mem_layers lm → 1 ≤ mem_start m;
  vo_images d : d ∈ A ∧ is_image_layer d ↔ d ∈ images;
  vo_delta d k : d ∈ A → pd_is_delta d = true → K k → covers d k →
    upto s (items (file_of tlid (layer_id_of d)) k) = within (pd_lsn_range d) (upto s (own k));
  vo_mem m k : m ∈ mem_layers lm → K k →
    upto s (items (file_of tlid (InMemoryLayerId (im_file_id m))) k) = within (InMemoryLayer.get_lsn_range m) (upto s (own k));
  (** every item is in a layer, or an image stands for it *)
  vo_held k x : K k → x ∈ own k → x.1 ≤ s →
    (∃ d, d ∈ images ∧ covers d k ∧ x.1 ≤ layer_lsn d ≤ s) ∨
    (∃ d, d ∈ A ∧ pd_is_delta d = true ∧ covers d k ∧ in_lsns (pd_lsn_range d) x.1) ∨
    (∃ m, m ∈ mem_layers lm ∧ in_lsns (InMemoryLayer.get_lsn_range m) x.1)
}.

Record images_ok : Prop := {
  io_range d : d ∈ images → compactable_range (pd_key_range d);
  io_holds d k : d ∈ images → K k → covers d k → layer_lsn d ≤ s → image_holds k (layer_lsn d) (items (file_of tlid (layer_id_of d)) k)
}.

Record histories_ok : Prop := {
  ho_lsn : 1 ≤ s < 2 ^ 64 - 1;
  ho_sorted k : K k → lsn_sorted (own k);
  (** metadata keys are written as images *)
  ho_sparse k : K k → sparse k = true → Forall (λ x : Item, Value.will_init x.2 = true) (own k ++ above k)
}.

(** No image layer of the key is in [c..=s]. *)
Definition no_image (k : Key) (c : Z) : Prop := ∀ d, d ∈ images → covers d k → layer_lsn d ≤ s → layer_lsn d < c.

Context (Hh : histories_ok).

Lemma image_range d (lm : LayerMap.t T) A : layers_ok lm A → d ∈ A → is_image_layer d → in_lsns (pd_lsn_range d) (layer_lsn d).
Proof.
  intros Hl Hd Hi. pose proof (lo_desc _ _ Hl) as Hdesc. rewrite Forall_forall in Hdesc. specialize (Hdesc d Hd). unfold desc_ok in Hdesc. rewrite Hi in Hdesc.
  destruct Hdesc as (_ & _ & E). unfold in_lsns. rewrite E. lia.
Qed.

Lemma mem_at_elem (lm : LayerMap.t T) h m : mem_at lm h = Some m → m ∈ mem_layers lm.
Proof.
  unfold mem_at, mem_layers. intros E. apply elem_of_app. destruct h as [|i].
  - right. rewrite E. by left.
  - left. by apply list_elem_of_lookup_2 in E.
Qed.

(** Where the layers of other LSNs are quiet, the history is what this layer has. *)
Lemma seen_within id R f c k : K k → c ≤ s + 1 → id_is_image id = false → upto s (items (file_of tlid id) k) = within R (upto s (own k)) →
  (∀ x, x ∈ own k → x.1 ≤ s → f ≤ x.1 < c → in_lsns R x.1) →
  seen items (file_of tlid id) (mkRange f c) k = within (mkRange f c) (own k).
Proof.
  intros HK Hc Hi E Hin. unfold seen. cbn [file_of snd]. rewrite Hi, <-(within_upto _ s (items _ k)), E by (cbn; lia).
  rewrite within_within; [apply within_upto; cbn; lia|]. intros x [Hx1 Hx2]%elem_of_history_upto. unfold in_lsn_range. cbn. intros Hr.
  specialize (Hin x Hx2 Hx1 ltac:(lia)). unfold in_lsns in Hin. lia.
Qed.

Section one.
Context (lm : LayerMap.t T) (fm : list (PersistentLayerKey * PersistentLayerDesc)) (A : Layers).
Context (Hm : manager_ok tlid lm fm A) (Hv : version_ok lm A) (k : Key) (HK : K k) (Hk : compactable k).
Context (c : Z) (Hc : 1 ≤ c ≤ s + 1) (Hno : no_image k c).

(** What a visit finds. *)
Definition visit_found (r : SearchResult) : Prop :=
  let id := weak_id lm (sr_layer r) in
  let f := lsn_floor r in
  1 ≤ f < c ∧
  if id_is_image id
  then ∃ d, d ∈ images ∧ covers d k ∧ layer_lsn d = f ∧ id = layer_id_of d ∧ within (mkRange (f + 1) c) (own k) = []
  else seen items (file_of tlid id) (mkRange f c) k = within (mkRange f c) (own k) ∧ no_image k f.

Lemma search_ok r : LayerMap.search k c lm = Ok (Some r) → ∃ x, Key.to_i128 k = Ok x ∧ search_result_ok lm A x c r ∧
  ∀ d, sr_layer r = PersistentLayer d → is_image_layer d → lsn_floor r = layer_lsn d.
Proof.
  intros Es. destruct (compactable_key_of k Hk) as (x & _ & _ & Ex). destruct Hm as [Hr Hf Hl _]. pose proof (ho_lsn Hh).
  destruct (search_spec lm A k x c Hr Hf Hl Ex ltac:(lia)) as (o & E & Ho). rewrite Es in E. injection E as <-. exists x. split; [done|]. split; [done|].
  intros d Ed Hi. rewrite (search_select lm k x) in Es by (done || lia). by eapply select_image_floor.
Qed.

Lemma covers_of d x : Key.to_i128 k = Ok x → covers d k → covers_key d x.
Proof. intros E (y & Ey & Hy). congruence. Qed.

Lemma found_mem x desc f : Key.to_i128 k = Ok x → search_result_ok lm A x c (MkSearchResult (InMemory desc) f) → visit_found (MkSearchResult (InMemory desc) f).
Proof.
  intros Ex (Hf & m & Em & Hfm & Hd & Hms). cbn [sr_layer lsn_floor] in *. pose proof (mem_at_elem _ _ _ Em) as Hin. pose proof (vo_mem_start _ _ Hv m Hin).
  unfold visit_found. cbn [sr_layer lsn_floor weak_id id_is_image]. split; [lia|]. rewrite Em. cbn [fmap option_fmap option_map default from_option]. split.
  - apply (seen_within _ (InMemoryLayer.get_lsn_range m)); [done|lia|done|by apply (vo_mem _ _ Hv)|]. intros y Hy Hys Hyc.
    destruct (vo_held _ _ Hv k y HK Hy Hys) as [(d & Hdi & Hcov & HL)|[(d & HdA & _ & Hcov & Hl)|(m' & Hm' & Hl)]].
    + specialize (Hno d Hdi Hcov ltac:(lia)). apply (vo_images _ _ Hv) in Hdi as [HdA Hi].
      destruct (Hd d HdA (covers_of _ _ Ex Hcov) (layer_lsn d)); [lia|]. by apply (image_range d lm A); [apply Hm|..].
    + by destruct (Hd d HdA (covers_of _ _ Ex Hcov) y.1).
    + destruct (decide (m' = m)) as [->|Hne]; [done|]. by destruct (Hms m' Hm' Hne y.1).
  - intros d Hdi Hcov HL. specialize (Hno d Hdi Hcov HL). apply (vo_images _ _ Hv) in Hdi as [HdA Hi].
    destruct (Z.ltb_spec (layer_lsn d) f) as [|Hge]; [done|]. destruct (Hd d HdA (covers_of _ _ Ex Hcov) (layer_lsn d)); [lia|].
    by apply (image_range d lm A); [apply Hm|..].
Qed.

Lemma found_delta x d f : Key.to_i128 k = Ok x → pd_is_delta d = true → search_result_ok lm A x c (MkSearchResult (PersistentLayer d) f) →
  visit_found (MkSearchResult (PersistentLayer d) f).
Proof.
  intros Ex Hdel (Hf & HdA & Hcd & Hfd & Hd & Hms). cbn [sr_layer lsn_floor] in *. rewrite Hdel in Hd, Hms. pose proof (vo_start _ _ Hv d HdA).
  unfold visit_found. cbn [sr_layer lsn_floor weak_id id_is_image plk_is_delta PersistentLayerDesc.key]. rewrite Hdel. cbn [negb]. split; [lia|]. split.
  - apply (seen_within _ (pd_lsn_range d)); [done|lia|cbn; by rewrite Hdel|apply (vo_delta _ _ Hv); [done..|by exists x]|]. intros y Hy Hys Hyc.
    destruct (vo_held _ _ Hv k y HK Hy Hys) as [(d' & Hdi & Hcov & HL)|[(d' & HdA' & _ & Hcov & Hl)|(m' & Hm' & Hl)]].
    + specialize (Hno d' Hdi Hcov ltac:(lia)). apply (vo_images _ _ Hv) in Hdi as [HdA' Hi].
      destruct (Hd d' HdA' (covers_of _ _ Ex Hcov)) with (layer_lsn d'); [congruence|lia|]. by apply (image_range d' lm A); [apply Hm|..].
    + destruct (decide (d' = d)) as [->|Hne]; [done|]. by destruct (Hd d' HdA' (covers_of _ _ Ex Hcov) Hne y.1).
    + by destruct (Hms m' Hm' y.1).
  - intros d' Hdi Hcov HL. specialize (Hno d' Hdi Hcov HL). apply (vo_images _ _ Hv) in Hdi as [HdA' Hi].
    destruct (Z.ltb_spec (layer_lsn d') f) as [|Hge]; [done|]. destruct (Hd d' HdA' (covers_of _ _ Ex Hcov)) with (layer_lsn d'); [congruence|lia|].
    by apply (image_range d' lm A); [apply Hm|..].
Qed.

Lemma found_image x d f : Key.to_i128 k = Ok x → is_image_layer d → f = layer_lsn d → search_result_ok lm A x c (MkSearchResult (PersistentLayer d) f) →
  visit_found (MkSearchResult (PersistentLayer d) f).
Proof.
  intros Ex Hi Ef (Hf & HdA & Hcd & Hfd & Hd & Hms). cbn [sr_layer lsn_floor] in *. rewrite Hi in Hd, Hms. pose proof (vo_start _ _ Hv d HdA).
  unfold visit_found. cbn [sr_layer lsn_floor weak_id id_is_image plk_is_delta PersistentLayerDesc.key]. rewrite Hi. cbn [negb]. split; [lia|]. exists d. split; [by apply (vo_images _ _ Hv)|]. split; [by exists x|]. split; [done|]. split; [done|].
  apply filter_false. intros y Hy. destruct (in_lsn_range _ y) eqn:E; [|done]. exfalso. unfold in_lsn_range in E. cbn in E.
  destruct (vo_held _ _ Hv k y HK Hy ltac:(lia)) as [(d' & Hdi & Hcov & HL)|[(d' & HdA' & Hdel & Hcov & Hl)|(m' & Hm' & Hl)]].
  - specialize (Hno d' Hdi Hcov ltac:(lia)). apply (vo_images _ _ Hv) in Hdi as [HdA' Hi'].
    destruct (Hd d' HdA' (covers_of _ _ Ex Hcov)) with (layer_lsn d'); [intros ->; lia|lia|]. by apply (image_range d' lm A); [apply Hm|..].
  - destruct (Hd d' HdA' (covers_of _ _ Ex Hcov)) with y.1; [congruence|lia|done].
  - destruct (Hms m' Hm' y.1); [lia|done].
Qed.

Lemma search_finds r : LayerMap.search k c lm = Ok (Some r) → visit_found r.
Proof.
  intros Es. destruct (search_ok r Es) as (x & Ex & Hr & Hi). destruct r as [[d|desc] f]; [|by apply (found_mem x)].
  destruct (pd_is_delta d) eqn:Ed; [by apply (found_delta x)|]. apply (found_image x); [done|done| |done]. by apply (Hi d).
Qed.

(** Where the search finds nothing there is nothing. *)
Lemma search_nothing : LayerMap.search k c lm = Ok None → upto (c - 1) (own k) = [] ∧ ∀ d, d ∈ images → covers d k → s < layer_lsn d.
Proof.
  intros Es. destruct (compactable_key_of k Hk) as (x & _ & _ & Ex). pose proof Hm as [Hr Hf Hl _]. pose proof (ho_lsn Hh).
  destruct (search_spec lm A k x c Hr Hf Hl Ex ltac:(lia)) as (o & E & Ho). rewrite Es in E. injection E as <-. destruct Ho as [Hd Hms].
  assert (∀ d, d ∈ images → covers d k → s < layer_lsn d) as Himg.
  { intros d Hdi Hcov. destruct (Z.ltb_spec s (layer_lsn d)) as [|Hle]; [done|]. specialize (Hno d Hdi Hcov Hle).
    apply (vo_images _ _ Hv) in Hdi as [HdA _]. specialize (Hd d HdA (covers_of _ _ Ex Hcov)). lia. }
  split; [|done]. apply upto_none. intros y Hy. destruct (Z.ltb_spec (c - 1) y.1) as [|Hle]; [done|]. exfalso.
  destruct (vo_held _ _ Hv k y HK Hy ltac:(lia)) as [(d' & Hdi & Hcov & HL)|[(d' & HdA' & Hdel & Hcov & Hl')|(m' & Hm' & Hl')]].
  - specialize (Himg d' Hdi Hcov). lia.
  - specialize (Hd d' HdA' (covers_of _ _ Ex Hcov)). unfold in_lsns in Hl'. lia.
  - specialize (Hms m' Hm'). unfold in_lsns, mem_start in *. lia.
Qed.
End one.
End versions.
