(* ===== verification/ReadTraversal.v ===== *)
(** The traversal of the layers of one timeline: for every key the invariant of the loop
    over the fringe, and that the loop ends. *)

From stdpp Require Import gmap.
From S2P Require Import Prelude Text Loops OrdMaps Lsns Keys KeysFacts Shards KeySpaces KeySpaceFacts.
From S2P Require Import LayerCoverage HistoricCoverage LayerMaps LayerMapUpdates LayerMapFacts LayerSearch RangeSearchFacts.
From S2P Require Import Feedbacks WalRedos WalRedoFacts ReadPaths ReadFringe GcCompactions GcFacts ReadHistories ReadStates ReadVersions.
Local Open Scope Z_scope.

(** * Key spaces with compactable ends *)

Lemma ks_wf_first q (l : KeySpace) : ks_wf (q :: l) → ks_in compactable (q :: l) → compactable (r_start q) ∧ mem (q :: l) (r_start q).
Proof. intros [Hq _]%ks_wf_cons [[Hs _] _]%Forall_cons. split; [done|]. by apply mem_first. Qed.

Lemma subtract_spec self other : ks_wf self → ks_in compactable self → ks_wf other → ks_in compactable other →
  ∃ left removed, of_loop (KeySpace.remove_overlapping_with self other) = Ok (left, removed) ∧
    ks_wf left ∧ ks_in compactable left ∧ ks_wf removed ∧ ks_in compactable removed ∧
    (∀ k, mem left k ↔ mem self k ∧ ¬ mem other k) ∧ (∀ k, mem removed k ↔ mem self k ∧ mem other k).
Proof.
  intros Hs Si Ho Oi. destruct (remove_overlapping_spec self other Hs Ho) as (left & removed & E & H1 & H2 & H3 & H4).
  destruct (remove_in compactable _ _ _ _ E Si Oi). pose proof (ks_normal_wf _ H2). exists left, removed. rewrite E. done.
Qed.

(** Two key spaces that have a key in common have one that starts a range. *)
Lemma common_start (a b : KeySpace) k : ks_in compactable a → ks_in compactable b → mem a k → mem b k →
  ∃ j, compactable j ∧ mem a j ∧ mem b j.
Proof.
  intros Ha Hb (p & Hp & Hkp) (q & Hq & Hkq). unfold ks_in in *. rewrite Forall_forall in Ha, Hb. specialize (Ha p Hp). specialize (Hb q Hq).
  destruct (Key.leb (r_start p) (r_start q)) eqn:E.
  - exists (r_start q). split; [apply Hb|]. split; [exists p|exists q]; (split; [done|]); rng.
  - exists (r_start p). split; [apply Ha|]. split; [exists p|exists q]; (split; [done|]); rng.
Qed.

Lemma merged_spec `{MergeByLaws} self other : ks_wf self → ks_in compactable self → ks_wf other → ks_in compactable other →
  (∀ k, compactable k → mem self k → ¬ mem other k) →
  ∃ ks, merged self other = Ok ks ∧ ks_wf ks ∧ ks_in compactable ks ∧ ∀ k, mem ks k ↔ mem self k ∨ mem other k.
Proof.
  intros Hs Si Ho Oi Hd. destruct (merge_correct self other Hs Ho) as [Hm _]. destruct Hm as (ks & E & Hn & Hk).
  { intros k [H1 H2]. destruct (common_start self other k Si Oi H1 H2) as (j & Hj & Hj1 & Hj2). by apply (Hd j). }
  exists ks. unfold merged. rewrite E. split; [done|]. split; [by apply ks_normal_wf|]. split; [|done]. by apply (merge_in compactable self other).
Qed.

(** Ranges of these keys do not have a count that wraps to zero. *)
Definition sized (Q : KeySpace) : Prop :=
  ∀ a b, compactable a → compactable b → key_lt a b → (∀ k, in_range (mkRange a b) k → mem Q k) → 0 < raw_size (mkRange a b).

(** The count of a range wraps to zero only between two keys with the highest block
    number. *)
Lemma raw_size_pos a b : Key.wf a → Key.wf b → key_lt a b → field6 a ≠ 0xffffffff ∨ field6 b ≠ 0xffffffff → 0 < raw_size (mkRange a b).
Proof.
  intros Ha Hb Hlt Hor. unfold key_lt in Hlt. rewrite ltb_key_Z in Hlt by done. unfold raw_size. destruct (is_contiguous_range (mkRange a b)) eqn:Ec; [|done].
  unfold is_contiguous_range in Ec. cbn [r_start r_end] in Ec. unfold contiguous_range_len, wrapping_add, wrapping_sub, wrap in *. cbn [r_start r_end] in *.
  destruct Ha as (? & ? & ? & ? & ? & ?), Hb as (? & ? & ? & ? & ? & ?). unfold in_u, key_Z in *.
  destruct (Z.eqb_spec (field6 a) 0xffffffff) as [E|E].
  - rewrite Z.mod_small by lia. lia.
  - rewrite Z.mod_small by lia. lia.
Qed.

Lemma is_empty_spec Q ks : sized Q → Forall nonempty ks → ks_in compactable ks → (∀ k, mem ks k → mem Q k) → KeySpace.is_empty ks = bool_decide (ks = []).
Proof.
  intros HQ Hne Hin Hsub. assert (0 ≤ KeySpace.total_raw_size ks ∧ (ks ≠ [] → 0 < KeySpace.total_raw_size ks)) as [_ Hpos].
  { unfold KeySpace.total_raw_size. induction Hne as [|r ks Hr Hne IH]; cbn [foldr]; [done|].
    apply Forall_cons in Hin as [[Hra Hrb] Hin]. destruct IH as [IH _]; [done|intros k Hk; apply Hsub; apply mem_cons; by right|].
    assert (0 < raw_size r); [|lia]. destruct r as [a b]. apply HQ; [done..|]. intros k Hk. apply Hsub, mem_cons. by left. }
  unfold KeySpace.is_empty. destruct (decide (ks = [])) as [->|Hn]; [done|]. rewrite bool_decide_eq_false_2 by done. specialize (Hpos Hn). lia.
Qed.

(** * The fringe without its next visit *)

Abbreviation fringe_ids F := ((LayerFringe.visit_reads F).*1).
Abbreviation ceil := LayerToVisitId.lsn_ceil.
Abbreviation floor := LayerToVisitId.lsn_floor.

Lemma next_visit_spec `{BinaryHeapLaws} tlid F : fringe_wf tlid F →
  (fringe_ids F = [] ∧ LayerFringe.next_layer F = Ok (None, F)) ∨
  ∃ id lr ks F1, LayerFringe.next_layer F = Ok (Some (lr, ks, visit_range id), F1) ∧ fringe_wf tlid F1 ∧
    ReadableLayer.file lr = file_of tlid (LayerToVisitId.layer_id id) ∧ ks_wf ks ∧ ks_in compactable ks ∧
    fringe_ids F ≡ₚ id :: fringe_ids F1 ∧ (∀ id', id' ∈ fringe_ids F → ceil id' ≤ ceil id) ∧
    (∀ id' k, in_fringe F id' k ↔ id' = id ∧ mem ks k ∨ in_fringe F1 id' k) ∧ (∀ k, ¬ in_fringe F1 id k).
Proof.
  intros Hwf. destruct (next_layer_spec tlid F Hwf) as [[E ->]|(id & r & ks & F1 & -> & Hwf1 & Hp & Hn & Hin & Hmem & Hmax)]; [left; by rewrite E|right].
  exists id, (LayerFringe.layer r), ks, F1. destruct (fw_reads _ _ Hwf id r) as (Hid & _ & _); [rewrite Hp; by left|].
  assert (fringe_ids F ≡ₚ id :: fringe_ids F1) as Hids by (by rewrite Hp).
  pose proof (fw_nodup _ _ Hwf) as Hnd. rewrite Hids in Hnd. apply NoDup_cons in Hnd as [Hout _].
  assert (∀ k, ¬ in_fringe F1 id k) as Hnot by (intros k (r' & Hr' & _); apply Hout; by apply (list_elem_of_fmap_2 fst _ (id, r'))).
  do 3 (split; [done|]). split; [by apply ks_normal_wf|]. do 3 (split; [done|]). split; [|done].
  intros id' k. unfold in_fringe. setoid_rewrite Hp. setoid_rewrite elem_of_cons. split.
  - intros (r' & [[= -> ->]|Hr'] & Hk); [left; by rewrite Hmem|right; by exists r'].
  - intros [[-> Hk]|(r' & Hr' & Hk)]; [exists r; rewrite <-Hmem; by split; [left|]|exists r'; by split; [right|]].
Qed.

(** * The keys of a read *)

Section outcomes.
Context `{RedoProcess}.

(** What was found has the value of the history [W]. *)
Definition yields (k : Key) (W l : list Item) : Prop := inits l = true ∧ W ≠ [] ∧ value_of k (Err Other) l = value_of k (Err Other) W.

(** Nothing below what was found matters. *)
Definition settles (k : Key) (W l : list Item) : Prop :=
  yields k W l ∨ l = W ∨ l = [] ∧ sparse k = true ∧ value_of k (Err Other) W = Ok [].
End outcomes.

Section traversal.
Context {T : Type → Type} `{RedBlackTreeLaws T} `{MergeByLaws} `{BinaryHeapLaws} `{HashOrderLaws} `{ValueCodec} `{LayerAccess} `{RedoProcessLaws}.
Context (tlid : bytes) (items : bytes * LayerId → Key → list Item) (reliable : Key → Prop).
Context (own base above : Key → list Item) (s : Lsn) (K : Key → Prop) (images : Layers).
Context (Hh : histories_ok own above s K) (Hi : images_ok tlid items own base s K images) (Ha : access_ok items reliable).

(** The history that a read is to find, with what was found above. *)
Definition whole (k : Key) : list Item := base k ++ upto s (own k) ++ above k.
Abbreviation good k := (yields k (whole k)).
Abbreviation settled k := (settles k (whole k)).

Lemma good_suffix k l0 l : inits l = true → whole k = l0 ++ l → good k l.
Proof. intros Hl E. split; [done|]. rewrite E. split; [by destruct l0; [destruct l|]|]. symmetry. by apply value_of_suffix. Qed.

Lemma whole_from k c : K k → c ≤ s + 1 → whole k = (base k ++ upto (c - 1) (own k)) ++ within (mkRange c (s + 1)) (own k) ++ above k.
Proof. intros HK Hc. unfold whole. rewrite (upto_split c s) by (done || by apply (ho_sorted _ _ _ _ Hh)). by rewrite <-!app_assoc. Qed.

(** The image layer of a key settles it. *)
Lemma image_settles k d c l : K k → d ∈ images → covers d k → layer_lsn d < c → c ≤ s + 1 → within (mkRange (layer_lsn d + 1) c) (own k) = [] →
  l = within (mkRange c (s + 1)) (own k) ++ above k →
  let sn := items (file_of tlid (layer_id_of d)) k in settled k (sn ++ l) ∧ (inits sn = true → good k (sn ++ l)) ∧ (inits sn = false → sn = []).
Proof.
  intros HK Hd Hcov HL Hc Hnone -> sn. pose proof (ho_sorted _ _ _ _ Hh k HK) as Hs. set (l := within _ _ ++ above k).
  assert (whole k = (base k ++ upto (layer_lsn d) (own k)) ++ l) as Ew.
  { rewrite (whole_from k (layer_lsn d + 1)) by (done || lia). replace (layer_lsn d + 1 - 1) with (layer_lsn d) by lia.
    by rewrite (within_split _ c), Hnone by (done || lia). }
  destruct (io_holds _ _ _ _ _ _ _ Hi d k Hd HK Hcov ltac:(lia)) as [[E Eh]|[(E & Hsp & Ev)|(page & E & Ev)]]; fold sn in E.
  - rewrite E. cbn [app]. split; [|done]. right. left. by rewrite Ew, Eh.
  - rewrite E. cbn [app]. split; [|done]. destruct (decide (l = [])) as [El|Hne].
    + right. right. split; [done|]. split; [done|]. by rewrite Ew, El, app_nil_r.
    + left. apply (good_suffix k (base k ++ upto (layer_lsn d) (own k))); [|done]. destruct l as [|x l'] eqn:El; [done|].
      apply (inits_elem _ x); [by left|]. pose proof (ho_sparse _ _ _ _ Hh k HK Hsp) as Hf. rewrite Forall_forall in Hf. apply Hf.
      assert (x ∈ within (mkRange c (s + 1)) (own k) ++ above k) as Hx by (fold l; rewrite El; by left).
      apply elem_of_app in Hx as [[_ Hx]%elem_of_within|Hx]; apply elem_of_app; [by left|by right].
  - assert (good k (sn ++ l)) as Hg.
    { rewrite E. split; [by rewrite inits_app|]. rewrite Ew. split; [intros [En _]%app_nil; by rewrite En in Ev|]. rewrite (value_of_app k _ (base k ++ _)), Ev. done. }
    split; [by left|]. split; [done|]. by rewrite E.
Qed.

(** What is known of a key that is to be looked up in a visit. *)
Definition found_at (k : Key) (id : VisitId) (l : list Item) : Prop :=
  ∃ (lm : LayerMap.t T) fm A r, manager_ok tlid lm fm A ∧ version_ok tlid items own s K images lm A ∧
    LayerMap.search k (ceil id) lm = Ok (Some r) ∧ id = visit_id lm (ceil id) r ∧
    1 ≤ ceil id ≤ s + 1 ∧ no_image s images k (ceil id) ∧ l = within (mkRange (ceil id) (s + 1)) (own k) ++ above k.

Lemma visit_key k id l : compactable k → K k → found_at k id l →
  let sn := seen items (file_of tlid (LayerToVisitId.layer_id id)) (visit_range id) k in
  1 ≤ floor id < ceil id ∧
  if id_is_image (LayerToVisitId.layer_id id)
  then ∃ d, d ∈ images ∧ covers d k ∧ layer_lsn d ≤ s ∧ LayerToVisitId.layer_id id = layer_id_of d ∧
    settled k (sn ++ l) ∧ (inits sn = true → good k (sn ++ l)) ∧ (inits sn = false → sn = [])
  else sn ++ l = within (mkRange (floor id) (s + 1)) (own k) ++ above k ∧ no_image s images k (floor id).
Proof.
  intros Hk HK (lm & fm & A & r & Hm & Hv & Es & Eid & Hc & Hno & El). pose proof (search_finds tlid items own above s K images Hh lm fm A Hm Hv k HK Hk (ceil id) Hc Hno r Es) as Hf.
  unfold visit_found in Hf. assert (LayerToVisitId.layer_id id = weak_id lm (sr_layer r) ∧ floor id = lsn_floor r) as [E1 E2] by (rewrite Eid; done).
  rewrite <-E1, <-E2 in Hf.
  destruct Hf as [Hfl Hf]. cbn zeta. split; [done|]. destruct (id_is_image (LayerToVisitId.layer_id id)) eqn:Ei.
  - destruct Hf as (d & Hd & Hcov & HL & Eid' & Hnone). exists d. split; [done|]. split; [done|]. split; [lia|]. split; [done|].
    unfold seen. cbn [file_of snd]. rewrite Ei, Eid'. rewrite <-HL in Hnone. by apply (image_settles k d (ceil id)); [..|lia|lia| |].
  - destruct Hf as [Esn Hno']. split; [|done]. unfold visit_range. rewrite Esn, El, app_assoc. f_equal. symmetry. apply within_split; [|lia].
    by apply (ho_sorted _ _ _ _ Hh).
Qed.

(** The keys of a read: still to be looked up, completed, covered by an image that was
    visited, or without anything below. *)
Inductive key_status (st : Traversal) (k : Key) (l : list Item) : Prop :=
  | Pending id : (∀ id', in_fringe (fringe st) id' k ↔ id' = id) → ¬ mem (completed_keyspace st) k →
      found_at k id l → (sparse k = false → inits l = false) → key_status st k l
  | Done : (∀ id, ¬ in_fringe (fringe st) id k) → mem (completed_keyspace st) k → sparse k = false → good k l → key_status st k l
  | Imaged : (∀ id, ¬ in_fringe (fringe st) id k) → ¬ mem (completed_keyspace st) k → mem (image_covered_keyspace st) k →
      settled k l → (sparse k = false → inits l = false) → key_status st k l
  | Exhausted : (∀ id, ¬ in_fringe (fringe st) id k) → ¬ mem (completed_keyspace st) k →
      (∀ d, d ∈ images → covers d k → s < layer_lsn d) → l = upto s (own k) ++ above k → (sparse k = false → inits l = false) → key_status st k l.

Lemma status_frame st st' k l : (∀ id, in_fringe (fringe st') id k ↔ in_fringe (fringe st) id k) →
  (mem (completed_keyspace st') k ↔ mem (completed_keyspace st) k) →
  (mem (image_covered_keyspace st) k → mem (image_covered_keyspace st') k) → key_status st k l → key_status st' k l.
Proof.
  intros Hf Hc Hi' [id Hx1 Hx2 Hx3 Hx4|Hx1 Hx2 Hx3 Hx4|Hx1 Hx2 Hx3 Hx4 Hx5|Hx1 Hx2 Hx3 Hx4 Hx5].
  - apply (Pending _ _ _ id); [|by rewrite Hc|done..]. intros id'. by rewrite Hf.
  - apply Done; [|by rewrite Hc|done..]. intros id. by rewrite Hf.
  - apply Imaged; [|by rewrite Hc|by apply Hi'|done..]. intros id. by rewrite Hf.
  - apply Exhausted; [|by rewrite Hc|done..]. intros id. by rewrite Hf.
Qed.

(** A key that is searched below [c]. *)
Lemma search_status st k c (lm : LayerMap.t T) fm A : compactable k → K k → manager_ok tlid lm fm A → version_ok tlid items own s K images lm A →
  1 ≤ c ≤ s + 1 → no_image s images k c →
  (∀ id, in_fringe (fringe st) id k ↔ ∃ r, LayerMap.search k c lm = Ok (Some r) ∧ id = visit_id lm c r) →
  ¬ mem (completed_keyspace st) k →
  (sparse k = false → inits (within (mkRange c (s + 1)) (own k) ++ above k) = false) →
  key_status st k (within (mkRange c (s + 1)) (own k) ++ above k).
Proof.
  intros Hk HK Hm Hv Hc Hno Hf Hcomp Hsp. pose proof (ho_lsn _ _ _ _ Hh). destruct (search_total tlid lm fm A Hm c ltac:(lia) k Hk) as ([r|] & Es).
  - apply (Pending _ _ _ (visit_id lm c r)); [|done| |done].
    + intros id. rewrite Hf, Es. split; [by intros (r' & [= <-] & ->)|]. intros ->. by exists r.
    + exists lm, fm, A, r. done.
  - destruct (search_nothing tlid items own above s K images Hh lm fm A Hm Hv k HK Hk c Hc Hno Es) as [Hnone Himg].
    apply Exhausted; [|done|done| |done].
    + intros id. rewrite Hf, Es. by intros (r & [=] & _).
    + f_equal. rewrite (upto_split c s) by (lia || by apply (ho_sorted _ _ _ _ Hh)). by rewrite Hnone.
Qed.

(** ** The invariant *)

Context (Q : KeySpace) (HQ : sized Q) (HQK : ∀ k, compactable k → mem Q k → K k) (rs0 : RState).

Definition visit_ok (id : VisitId) : Prop :=
  (1 ≤ floor id < ceil id ∧ ceil id ≤ s + 1) ∧
  (id_is_image (LayerToVisitId.layer_id id) = true → ∃ d, d ∈ images ∧ layer_lsn d ≤ s ∧ LayerToVisitId.layer_id id = layer_id_of d).

Lemma found_visit_ok k id l : compactable k → K k → found_at k id l → visit_ok id.
Proof.
  intros Hk HK Hf. destruct (visit_key k id l Hk HK Hf) as [Hfl Hv].
  destruct Hf as (_ & _ & _ & _ & _ & _ & _ & _ & Hc & _). split; [lia|]. intros Ei. rewrite Ei in Hv.
  destruct Hv as (d & ? & _ & ? & ? & _). by exists d.
Qed.

Record tinv (st : Traversal) (rs : RState) : Prop := {
  ti_fringe : fringe_wf tlid (fringe st);
  ti_ids id : id ∈ fringe_ids (fringe st) → visit_ok id;
  ti_sub id k : in_fringe (fringe st) id k → mem Q k;
  ti_completed : ks_wf (completed_keyspace st) ∧ ks_in compactable (completed_keyspace st);
  ti_covered : Forall nonempty (image_covered_keyspace st) ∧ ks_in compactable (image_covered_keyspace st);
  ti_images k : compactable k → mem (image_covered_keyspace st) k → ∃ d, d ∈ images ∧ covers d k ∧ layer_lsn d ≤ s;
  ti_rest : at_rest rs;
  ti_frame k : ¬ (regular k ∧ mem Q k) → ValuesReconstructState.keys rs !! k = ValuesReconstructState.keys rs0 !! k;
  ti_keys k : compactable k → mem Q k → ∃ l, represents_key reliable rs k l ∧ key_status st k l
}.

(** What a visit of [id] for the keys of [ks] leaves: the layer is not among the visits any
    more, and the keys that are neither done nor covered are searched below its floor. *)
Record visited (st st' : Traversal) (rs rs' : RState) (id : VisitId) (ks done unmapped : KeySpace) (F1 : Fringe) : Prop := {
  vi_popped id' k : in_fringe (fringe st) id' k ↔ id' = id ∧ mem ks k ∨ in_fringe F1 id' k;
  vi_gone k : ¬ in_fringe F1 id k;
  vi_id : visit_ok id;
  vi_ids : fringe_ids (fringe st) ≡ₚ id :: fringe_ids F1;
  vi_rest : at_rest rs';
  vi_done k : Key.wf k → mem done k ↔ mem ks k ∧ sparse k = false ∧ inits (seen items (file_of tlid (LayerToVisitId.layer_id id)) (visit_range id) k) = true;
  vi_values k l : mem ks k → represents_key reliable rs k l →
    represents_key reliable rs' k (seen items (file_of tlid (LayerToVisitId.layer_id id)) (visit_range id) k ++ l);
  vi_others k : ¬ (regular k ∧ mem ks k) → ValuesReconstructState.keys rs' !! k = ValuesReconstructState.keys rs !! k;
  vi_completed : ks_wf (completed_keyspace st') ∧ ks_in compactable (completed_keyspace st');
  vi_completed_mem k : mem (completed_keyspace st') k ↔ mem (completed_keyspace st) k ∨ mem done k;
  vi_covered : image_covered_keyspace st' = image_covered_keyspace st ++
    match LayerToVisitId.layer_id id with PersistentLayerId key => if plk_is_delta key then [] else [plk_key_range key] | _ => [] end;
  vi_unmapped k : mem unmapped k ↔ mem ks k ∧ ¬ mem done k ∧
    match LayerToVisitId.layer_id id with PersistentLayerId key => plk_is_delta key = true ∨ ¬ in_range (plk_key_range key) k | _ => True end;
  vi_fringe : fringe_wf tlid (fringe st');
  vi_search : unmapped = [] ∧ fringe st' = F1 ∨
    ∃ lm fm A, manager_ok tlid (T := T) lm fm A ∧ version_ok tlid items own s K images lm A ∧ search_adds lm (floor id) unmapped F1 (fringe st')
}.

Section step.
Context (st st' : Traversal) (rs rs' : RState) (id : VisitId) (ks done unmapped : KeySpace) (F1 : Fringe).
Context (Hinv : tinv st rs) (Hvis : visited st st' rs rs' id ks done unmapped F1).

Lemma popped_pending k : compactable k → mem ks k →
  mem Q k ∧ K k ∧ ¬ mem (completed_keyspace st) k ∧ (∀ id', ¬ in_fringe F1 id' k) ∧
  ∃ l, represents_key reliable rs k l ∧ found_at k id l ∧ (sparse k = false → inits l = false).
Proof.
  intros Hk Hm. assert (in_fringe (fringe st) id k) as Hf by (apply (vi_popped _ _ _ _ _ _ _ _ _ Hvis); by left).
  pose proof (ti_sub _ _ Hinv _ _ Hf) as Hq. destruct (ti_keys _ _ Hinv k Hk Hq) as (l & Hl & Hst). split; [done|]. split; [by apply HQK|].
  destruct Hst as [id' Hid Hc Hfound Hsp|Hno|Hno|Hno]; try by destruct (Hno id). assert (id = id') as <- by by apply Hid. split; [done|]. split; [|by exists l].
  intros id' Hf'. assert (id' = id) as -> by (apply Hid, (vi_popped _ _ _ _ _ _ _ _ _ Hvis); by right). by apply (vi_gone _ _ _ _ _ _ _ _ _ Hvis k).
Qed.

Lemma step_ids id' : id' ∈ fringe_ids (fringe st') → visit_ok id' ∧ (id' ∈ fringe_ids F1 ∨ ceil id' = floor id).
Proof.
  intros Hid. assert (id' ∈ fringe_ids F1 → visit_ok id') as Hold.
  { intros H'. apply (ti_ids _ _ Hinv). rewrite (vi_ids _ _ _ _ _ _ _ _ _ Hvis). by right. }
  destruct (vi_search _ _ _ _ _ _ _ _ _ Hvis) as [[_ EF]|(lm & fm & A & Hm & Hv & _ & _ & Hids)]; [rewrite EF in Hid; split; [by apply Hold|by left]|].
  destruct (Hids id' Hid) as [H'|(k & r & Hk & Hun & Es & ->)]; [split; [by apply Hold|by left]|]. split; [|by right].
  apply (vi_unmapped _ _ _ _ _ _ _ _ _ Hvis) in Hun as (Hks & _ & Hcov). destruct (popped_pending k Hk Hks) as (_ & HK & _ & _ & l & _ & Hfound & _).
  destruct (visit_key k id l Hk HK Hfound) as [Hfl Hvk]. destruct (id_is_image (LayerToVisitId.layer_id id)) eqn:Ei.
  { exfalso. destruct Hvk as (d & Hd & Hdk & _ & Eid & _). rewrite Eid in Hcov, Ei. cbn in Hcov, Ei. destruct Hcov as [E|Hr]; [by rewrite E in Ei|].
    apply Hr, covers_range; [by apply (io_range _ _ _ _ _ _ _ Hi)|done..]. }
  destruct Hvk as [_ Hno]. apply (found_visit_ok k _ (within (mkRange (floor id) (s + 1)) (own k) ++ above k) Hk HK).
  exists lm, fm, A, r. destruct Hfound as (_ & _ & _ & _ & _ & _ & _ & _ & Hc & _). split_and!; try done; cbn; lia.
Qed.

Lemma step_images k : compactable k → mem (image_covered_keyspace st') k → ∃ d, d ∈ images ∧ covers d k ∧ layer_lsn d ≤ s.
Proof.
  intros Hk. rewrite (vi_covered _ _ _ _ _ _ _ _ _ Hvis), mem_app. intros [Hm|Hm]; [by apply (ti_images _ _ Hinv)|].
  destruct (vi_id _ _ _ _ _ _ _ _ _ Hvis) as [_ Him]. destruct (LayerToVisitId.layer_id id) as [key|] eqn:Eid; [|by apply mem_nil in Hm].
  cbn in Him. destruct (plk_is_delta key); [by apply mem_nil in Hm|]. destruct (Him eq_refl) as (d & Hd & HL & [= ->]).
  exists d. split; [done|]. split; [|done]. apply covers_range; [by apply (io_range _ _ _ _ _ _ _ Hi)|done|]. by apply mem_singleton in Hm.
Qed.

Lemma step_covered : Forall nonempty (image_covered_keyspace st') ∧ ks_in compactable (image_covered_keyspace st').
Proof.
  rewrite (vi_covered _ _ _ _ _ _ _ _ _ Hvis). destruct (ti_covered _ _ Hinv) as [H1' H2']. rewrite ks_in_app, Forall_app.
  split; (split; [done|]); destruct (vi_id _ _ _ _ _ _ _ _ _ Hvis) as [_ Him];
    (destruct (LayerToVisitId.layer_id id) as [key|] eqn:Eid; [|constructor]); cbn in Him; (destruct (plk_is_delta key); [constructor|]);
    destruct (Him eq_refl) as (d & Hd & HL & [= ->]); destruct (io_range _ _ _ _ _ _ _ Hi d Hd) as (Hne & Hs & He); by constructor.
Qed.

(** The keys that were looked up. *)
Lemma step_popped k : compactable k → mem ks k → ∃ l, represents_key reliable rs' k l ∧ key_status st' k l.
Proof.
  intros Hk Hks. destruct (popped_pending k Hk Hks) as (Hq & HK & Hc & HF1 & l & Hl & Hfound & Hsp).
  destruct (visit_key k id l Hk HK Hfound) as [Hfl Hvk]. set (sn := seen items (file_of tlid (LayerToVisitId.layer_id id)) (visit_range id) k) in *.
  exists (sn ++ l). split; [by apply (vi_values _ _ _ _ _ _ _ _ _ Hvis)|]. pose proof (vi_done _ _ _ _ _ _ _ _ _ Hvis k (proj1 Hk)) as Hdone. fold sn in Hdone.
  assert (¬ mem unmapped k → ∀ id', ¬ in_fringe (fringe st') id' k) as Hun.
  { intros Hun id' Hf. destruct (vi_search _ _ _ _ _ _ _ _ _ Hvis) as [[_ EF]|(lm & fm & A & _ & _ & _ & Hsub & _)]; [rewrite EF in Hf; by apply (HF1 id')|].
    destruct (Hsub id' k Hf); [by apply (HF1 id')|done]. }
  destruct (decide (mem done k)) as [Hd|Hd].
  - destruct (proj1 Hdone Hd) as (_ & Hns & Hin). apply Done; [apply Hun; rewrite (vi_unmapped _ _ _ _ _ _ _ _ _ Hvis); tauto|by apply (vi_completed_mem _ _ _ _ _ _ _ _ _ Hvis); right|done|].
    destruct (id_is_image _); [destruct Hvk as (d & _ & _ & _ & _ & _ & Hg & _); by apply Hg|].
    destruct Hvk as [E _]. destruct Hfound as (_ & _ & _ & _ & _ & _ & _ & _ & Hcl & _). eapply good_suffix; [by rewrite inits_app, Hin|]. rewrite E. apply whole_from; [done|lia].
  - assert (¬ mem (completed_keyspace st') k) as Hc' by (rewrite (vi_completed_mem _ _ _ _ _ _ _ _ _ Hvis); tauto).
    assert (sparse k = false → inits sn = false) as Hsn by (intros Hs; destruct (inits sn); [|done]; destruct Hd; tauto).
    destruct (id_is_image (LayerToVisitId.layer_id id)) eqn:Ei.
    + destruct Hvk as (d & Hd' & Hcov & HL & Eid & Hset & _ & Hnil). rewrite Eid in Ei. cbn in Ei. apply negb_true_iff in Ei.
      assert (in_range (pd_key_range d) k) as Hr by (apply covers_range; [by apply (io_range _ _ _ _ _ _ _ Hi)|done..]).
      apply Imaged; [|done| |done|].
      * apply Hun. rewrite (vi_unmapped _ _ _ _ _ _ _ _ _ Hvis), Eid. cbn. rewrite Ei. intros (_ & _ & [?|?]); done.
      * rewrite (vi_covered _ _ _ _ _ _ _ _ _ Hvis), Eid, mem_app. right. cbn. rewrite Ei. by apply mem_singleton.
      * intros Hs. rewrite inits_app, Hsn, Hsp by done. done.
    + destruct Hvk as [E Hno]. assert (mem unmapped k) as Hu.
      { apply (vi_unmapped _ _ _ _ _ _ _ _ _ Hvis). split; [done|]. split; [done|]. destruct (LayerToVisitId.layer_id id); [|done]. left. by apply negb_false_iff. }
      destruct (vi_search _ _ _ _ _ _ _ _ _ Hvis) as [[Hnil _]|(lm & fm & A & Hm & Hv & Hadd & _ & _)]; [rewrite Hnil in Hu; by apply mem_nil in Hu|].
      rewrite E. destruct Hfound as (_ & _ & _ & _ & _ & _ & _ & _ & Hcl & _). apply (search_status st' k (floor id) lm fm A); try done; [lia|..].
      * intros id'. rewrite (Hadd id' k Hk). specialize (HF1 id'). tauto.
      * intros Hs. rewrite <-E, inits_app, Hsn, Hsp by done. done.
Qed.

Lemma step_tinv : tinv st' rs'.
Proof.
  split; try apply Hvis.
  - intros id' Hid'. by apply step_ids.
  - intros id' k Hf. assert (in_fringe F1 id' k → mem Q k) as Hold.
    { intros H'. apply (ti_sub _ _ Hinv id'). apply (vi_popped _ _ _ _ _ _ _ _ _ Hvis). by right. }
    destruct (vi_search _ _ _ _ _ _ _ _ _ Hvis) as [[_ EF]|(lm & fm & A & _ & _ & _ & Hsub & _)]; [rewrite EF in Hf; by apply Hold|].
    destruct (Hsub id' k Hf) as [?|Hun]; [by apply Hold|]. apply (vi_unmapped _ _ _ _ _ _ _ _ _ Hvis) in Hun as (Hks & _).
    apply (ti_sub _ _ Hinv id). apply (vi_popped _ _ _ _ _ _ _ _ _ Hvis). by left.
  - apply step_covered.
  - apply step_images.
  - intros k Hk. rewrite <-(ti_frame _ _ Hinv k Hk). apply (vi_others _ _ _ _ _ _ _ _ _ Hvis). intros [Hr Hks]. apply Hk. split; [done|].
    apply (ti_sub _ _ Hinv id). apply (vi_popped _ _ _ _ _ _ _ _ _ Hvis). by left.
  - intros k Hk Hq. destruct (decide (mem ks k)) as [Hks|Hks]; [by apply step_popped|].
    destruct (ti_keys _ _ Hinv k Hk Hq) as (l & Hl & Hst). exists l. split.
    + eapply represents_key_same; [|done]. apply (vi_others _ _ _ _ _ _ _ _ _ Hvis). tauto.
    + eapply status_frame; [..|exact Hst].
      * intros id'. rewrite (vi_popped _ _ _ _ _ _ _ _ _ Hvis). destruct (vi_search _ _ _ _ _ _ _ _ _ Hvis) as [[_ EF]|(lm & fm & A & _ & _ & Hadd & _)]; [rewrite EF; tauto|].
        rewrite (Hadd id' k Hk), (vi_unmapped _ _ _ _ _ _ _ _ _ Hvis). tauto.
      * rewrite (vi_completed_mem _ _ _ _ _ _ _ _ _ Hvis), (vi_done _ _ _ _ _ _ _ _ _ Hvis k (proj1 Hk)). tauto.
      * rewrite (vi_covered _ _ _ _ _ _ _ _ _ Hvis), mem_app. tauto.
Qed.
End step.

(** ** The loop *)

Context (cancelled : nat → bool) (Hcan : ∀ n, cancelled n = false) (tl : Timeline (T := T)).
Context (Hv : ∀ n, ∃ lm fm A, layers tl n = LayerManager.Open lm fm ∧ manager_ok tlid lm fm A ∧ version_ok tlid items own s K images lm A).

Lemma on_state_ok {A} (m : M RState GetVectoredError A) rd a st : m (reconstruct_state rd) = (Ok a, st) → on_state m rd = (Ok a, MkReading (clock rd) st).
Proof. intros E. unfold on_state. by rewrite E. Qed.

Lemma liftR_ok {S E A B} (r : result E A) a (f : A → M S E B) x : r = Ok a → (liftR r ≫= f) x = f a x.
Proof. by intros ->. Qed.

Lemma coverage_of_id lr : coverage_of lr =
  match ReadableLayer.id lr with PersistentLayerId key => if plk_is_delta key then None else Some (plk_key_range key) | _ => None end.
Proof. by destruct lr as [d|m]. Qed.

(** The keys that are left to be searched. *)
Lemma unmapped_spec ks cov (covered : list (Range Key)) (x : Reading) : ks_wf ks → ks_in compactable ks →
  (∀ range, cov = Some range → compactable_range range) →
  ∃ unmapped, (match cov with
    | Some range => r' ← liftR (of_loop (KeySpace.remove_overlapping_with ks [range])); mret (r'.1, covered ++ [range])
    | None => mret (ks, covered)
    end : M Reading GetVectoredError (KeySpace * list (Range Key))) x = (Ok (unmapped, covered ++ option_list cov), x) ∧
    ks_wf unmapped ∧ ks_in compactable unmapped ∧ ∀ k, mem unmapped k ↔ mem ks k ∧ ∀ range, cov = Some range → ¬ in_range range k.
Proof.
  intros Hwf Hin Hcov. destruct cov as [range|].
  - destruct (Hcov range eq_refl) as (Hne & Hs & He). destruct (subtract_spec ks [range] Hwf Hin) as (left & removed & E & H1' & H2' & _ & _ & Hm & _);
      [by apply ks_wf_singleton|by apply ks_in_single|]. exists left. rewrite (liftR_ok _ _ _ _ E). split; [done|]. split; [done|]. split; [done|].
    intros k. rewrite Hm, mem_singleton. naive_solver.
  - exists ks. rewrite app_nil_r. split; [done|]. split; [done|]. split; [done|]. intros k. split; [|tauto]. by intros ?; split; [|intros ? [=]].
Qed.

(** The search for them. *)
Lemma search_spec_at unmapped c F1 rd : ks_wf unmapped → ks_in compactable unmapped → (∀ k, mem unmapped k → mem Q k) → 1 ≤ c ≤ s + 1 → fringe_wf tlid F1 →
  ∃ F' rd', ((if negb (KeySpace.is_empty unmapped) then
      guard ← read_layers tl; liftR (LayerManager.update_search_fringe guard unmapped c F1) else mret F1) : M Reading GetVectoredError Fringe) rd = (Ok F', rd') ∧
    reconstruct_state rd' = reconstruct_state rd ∧ fringe_wf tlid F' ∧
    (unmapped = [] ∧ F' = F1 ∨ ∃ lm fm A, manager_ok tlid (T := T) lm fm A ∧ version_ok tlid items own s K images lm A ∧ search_adds lm c unmapped F1 F').
Proof.
  intros Hwf Hin Hsub Hc HF. rewrite (is_empty_spec Q unmapped HQ (proj1 Hwf) Hin Hsub). destruct (decide (unmapped = [])) as [->|Hne].
  { rewrite bool_decide_eq_true_2 by done. exists F1, rd. split; [done|]. split; [done|]. split; [done|]. by left. }
  rewrite bool_decide_eq_false_2 by done. cbn [negb]. destruct (Hv (clock rd)) as (lm & fm & A & El & Hm & Hver). pose proof (ho_lsn _ _ _ _ Hh).
  destruct (add_ranges_spec tlid lm fm A Hm c ltac:(lia) unmapped F1 (proj1 Hwf) Hin HF) as (F' & E & HF' & Hadd).
  exists F'. unfold read_layers, mbind, M_bind. rewrite El. unfold liftR. cbn [LayerManager.update_search_fringe]. rewrite E.
  eexists. split; [done|]. split; [done|]. split; [done|]. right. by exists lm, fm, A.
Qed.

Lemma visit_next_spec st rd : tinv st (reconstruct_state rd) →
  (fringe_ids (fringe st) = [] ∧ visit_next cancelled tl st rd = (Ok None, rd)) ∨
  ∃ st' rd' id ks done unmapped F1, visit_next cancelled tl st rd = (Ok (Some st'), rd') ∧
    visited st st' (reconstruct_state rd) (reconstruct_state rd') id ks done unmapped F1 ∧
    ∀ id', id' ∈ fringe_ids (fringe st) → ceil id' ≤ ceil id.
Proof.
  intros Hinv. unfold visit_next. destruct (next_visit_spec tlid (fringe st) (ti_fringe _ _ Hinv)) as [[E ->]|(id & lr & ks & F1 & -> & HF1 & Eid & Hwf & Hin & Hids & Hmax & Hpop & Hgone)];
    [by left|right]. assert (ReadableLayer.id lr = LayerToVisitId.layer_id id) as Eid' by by injection Eid. unfold liftR at 1. rewrite (M_bind_ok _ _ _ _ rd) by done. cbn [fst snd].
  assert (check_cancelled cancelled rd = (Ok tt, rd)) as Ec by (unfold check_cancelled, getS, mbind, M_bind; by rewrite Hcan). rewrite (M_bind_ok _ _ _ _ _ Ec).
  assert (visit_ok id) as Hid by (apply (ti_ids _ _ Hinv); rewrite Hids; by left).
  assert (∀ k, compactable k → mem ks k → ¬ mem (completed_keyspace st) k ∧ ∃ l, represents_key reliable (reconstruct_state rd) k l ∧ (sparse k = false → inits l = false)) as Hkeys.
  { intros k Hk Hks. assert (in_fringe (fringe st) id k) as Hf by (apply Hpop; by left). destruct (ti_keys _ _ Hinv k Hk (ti_sub _ _ Hinv _ _ Hf)) as (l & Hl & Hst).
    destruct Hst as [id' Hid' Hc Hfound Hsp|Hno|Hno|Hno]; try by destruct (Hno id). assert (id = id') as <- by by apply Hid'. split; [done|]. by exists l. }
  destruct (visit_layer_spec items reliable Ha lr ks (visit_range id) (reconstruct_state rd) (ti_rest _ _ Hinv) Hwf Hin)
    as (rs1 & rs2 & rs' & done & E1 & E2 & E3 & Hrest & Hdn & Hdin & Hdone & Hvals & Hold).
  { intros k Hks Hr. destruct (Hkeys k (proj1 Hr) Hks) as (_ & l & Hl & Hsp). by exists l. }
  rewrite (M_bind_ok _ _ _ _ _ (on_state_ok _ rd _ _ E1)), (M_bind_ok _ _ _ _ _ (on_state_ok _ (MkReading (clock rd) rs1) _ _ E2)),
    (M_bind_ok _ _ _ _ _ (on_state_ok _ (MkReading (clock rd) rs2) _ _ E3)). cbn [clock].
  destruct (subtract_spec ks done Hwf Hin (ks_normal_wf _ Hdn) Hdin) as (left & removed & E4 & Hlw & Hlin & _ & _ & Hlm & _). rewrite (liftR_ok _ _ _ _ E4).
  destruct (merged_spec (completed_keyspace st) done) as (completed & E5 & Hcw & Hcin & Hcm); [apply Hinv|apply Hinv|by apply ks_normal_wf|done| |].
  { intros k Hk Hc Hd. apply (Hdone k (proj1 Hk)) in Hd as [Hks _]. by destruct (Hkeys k Hk Hks). }
  rewrite (liftR_ok _ _ _ _ E5). cbn [fst snd].
  destruct (unmapped_spec left (coverage_of lr) (image_covered_keyspace st) (MkReading (clock rd) rs') Hlw Hlin) as (unmapped & E6 & Huw & Huin & Hum).
  { intros range. rewrite coverage_of_id, Eid'. destruct Hid as [_ Him]. destruct (LayerToVisitId.layer_id id) as [key|]; [|done]. cbn in Him.
    destruct (plk_is_delta key); [done|]. intros [= <-]. destruct (Him eq_refl) as (d & Hd & _ & [= ->]). by apply (io_range _ _ _ _ _ _ _ Hi). }
  rewrite (M_bind_ok _ _ _ _ _ E6).
  assert (∀ k, mem unmapped k → mem ks k) as Hus by (intros k [[? _]%Hlm _]%Hum; done).
  destruct (search_spec_at unmapped (floor id) F1 (MkReading (clock rd) rs') Huw Huin) as (F' & rd' & E7 & Ers & HF' & Hsearch);
    [intros k Hk; apply (ti_sub _ _ Hinv id), Hpop; left; by split; [|apply Hus]|destruct Hid as [? _]; lia|done|].
  change (r_start (visit_range id)) with (floor id). rewrite (M_bind_ok _ _ _ _ _ E7). eexists _, rd', id, ks, done, unmapped, F1. split; [done|]. split; [|done].
  rewrite Ers. split; rewrite <-?Eid, <-?Eid'; cbn [fringe completed_keyspace image_covered_keyspace reconstruct_state]; try done.
  - by rewrite coverage_of_id; destruct (ReadableLayer.id lr) as [key|]; [destruct (plk_is_delta key)|].
  - intros k. rewrite Hum, Hlm, coverage_of_id. destruct (ReadableLayer.id lr) as [key|]; [destruct (plk_is_delta key)|]; naive_solver.
Qed.

(** The loop ends: below the highest end of the visits there is always less to visit. *)
Definition ends_within (st : Traversal) (rd : Reading) : Prop :=
  ∃ n st' rd', (∀ fuel, (n ≤ fuel)%nat → visit_all cancelled fuel tl st rd = (Ok st', rd')) ∧
    tinv st' (reconstruct_state rd') ∧ fringe_ids (fringe st') = [].

Definition at_top (m : Z) (ids : list VisitId) : list VisitId := filter (λ id, ceil id = m) ids.

Lemma ends_empty st rd : tinv st (reconstruct_state rd) → fringe_ids (fringe st) = [] → ends_within st rd.
Proof.
  intros Hinv Hnil. destruct (visit_next_spec st rd Hinv) as [[_ E]|(st' & rd' & id & ks & done & un & F1 & _ & Hvis & _)].
  - exists 1%nat, st, rd. split; [|done]. intros [|fuel]; [lia|]. intros _. cbn [visit_all]. by rewrite (M_bind_ok _ _ _ _ _ E).
  - pose proof (vi_ids _ _ _ _ _ _ _ _ _ Hvis) as Hp. rewrite Hnil in Hp. by apply Permutation_nil_cons in Hp.
Qed.

Lemma visited_top st st' rs rs' id ks done un F1 m : tinv st rs → visited st st' rs rs' id ks done un F1 → ceil id = m →
  (length (at_top m (fringe_ids (fringe st'))) < length (at_top m (fringe_ids (fringe st))))%nat.
Proof.
  intros Hinv Hvis Hm. unfold at_top. rewrite (vi_ids _ _ _ _ _ _ _ _ _ Hvis), filter_cons_True by done. cbn [length].
  enough (length (filter (λ id, ceil id = m) (fringe_ids (fringe st'))) ≤ length (filter (λ id, ceil id = m) (fringe_ids F1)))%nat by lia.
  apply submseteq_length, NoDup_submseteq; [by eapply NoDup_filter, fw_nodup, vi_fringe|]. intros id' [Hc Hid']%list_elem_of_filter.
  apply list_elem_of_filter. split; [done|]. destruct (step_ids _ _ _ _ _ _ _ _ _ Hinv Hvis id' Hid') as [_ [?|E]]; [done|].
  destruct (vi_id _ _ _ _ _ _ _ _ _ Hvis) as [? _]. lia.
Qed.

Lemma loop_ends st rd : tinv st (reconstruct_state rd) → ends_within st rd.
Proof.
  intros Hinv. assert (∀ id, id ∈ fringe_ids (fringe st) → ceil id ≤ Z.of_nat (Z.to_nat (s + 1))) as Hle.
  { intros id Hid. destruct (ti_ids _ _ Hinv id Hid) as [? _]. lia. }
  revert Hle. generalize (Z.to_nat (s + 1)). intros m. revert st rd Hinv. induction m as [|m IHm]; intros st rd Hinv Hle.
  { apply ends_empty; [done|]. destruct (fringe_ids (fringe st)) as [|id l] eqn:E; [done|]. exfalso.
    destruct (ti_ids _ _ Hinv id) as [? _]; [rewrite E; by left|]. specialize (Hle id ltac:(by left)). lia. }
  remember (length (at_top (Z.of_nat (S m)) (fringe_ids (fringe st)))) as n eqn:En. revert st rd Hinv Hle En.
  induction n as [n IHn] using lt_wf_ind. intros st rd Hinv Hle En.
  destruct (visit_next_spec st rd Hinv) as [[Hnil _]|(st' & rd' & id & ks & done & un & F1 & E & Hvis & Hmax)]; [by apply ends_empty|].
  pose proof (vi_ids _ _ _ _ _ _ _ _ _ Hvis) as Hids.
  destruct (decide (ceil id = Z.of_nat (S m))) as [Htop|Hbelow].
  - pose proof (step_tinv _ _ _ _ _ _ _ _ _ Hinv Hvis) as Hinv'. pose proof (visited_top _ _ _ _ _ _ _ _ _ _ Hinv Hvis Htop) as Hlt.
    destruct (IHn _ ltac:(rewrite En; exact Hlt) st' rd' Hinv') as (n' & st2 & rd2 & Hrun & Hrest); [|done|].
    + intros id' Hid'. destruct (step_ids _ _ _ _ _ _ _ _ _ Hinv Hvis id' Hid') as [_ [?|Ec]]; [apply Hle; rewrite Hids; by right|].
      destruct (vi_id _ _ _ _ _ _ _ _ _ Hvis) as [? _]. lia.
    + exists (S n'), st2, rd2. split; [|done]. intros [|fuel]; [lia|]. intros Hf. cbn [visit_all]. rewrite (M_bind_ok _ _ _ _ _ E). apply Hrun. lia.
  - apply IHm; [done|]. intros id' Hid'. specialize (Hmax id' Hid'). specialize (Hle id ltac:(rewrite Hids; by left)). lia.
Qed.

(** ** The visit of a timeline *)

Lemma init_tinv F (lm : LayerMap.t T) fm A : ks_wf Q → manager_ok tlid lm fm A → version_ok tlid items own s K images lm A →
  fringe_wf tlid F → search_adds lm (s + 1) Q LayerFringe.new F → at_rest rs0 →
  (∀ k, compactable k → mem Q k → represents_key reliable rs0 k (above k) ∧ (sparse k = false → inits (above k) = false)) →
  tinv (MkTraversal F [] []) rs0.
Proof.
  intros Hwf Hm Hver HF (Hadd & Hsub & Hids) Hrest Hrep. pose proof (ho_lsn _ _ _ _ Hh) as Hs.
  assert (∀ k, within (mkRange (s + 1) (s + 1)) (own k) = []) as Hnil by (intros k; apply filter_false; intros x _; unfold in_lsn_range; cbn; lia).
  assert (∀ k, no_image s images k (s + 1)) as Hno by (intros k d; lia).
  split; cbn [fringe completed_keyspace image_covered_keyspace]; try done.
  - intros id Hid. destruct (Hids id Hid) as [?%not_elem_of_nil|(k & r & Hk & Hq & Es & ->)]; [done|].
    apply (found_visit_ok k _ (within (mkRange (s + 1) (s + 1)) (own k) ++ above k) Hk (HQK k Hk Hq)). exists lm, fm, A, r. split_and!; try done; cbn; lia.
  - intros id k Hf. destruct (Hsub id k Hf) as [Hf'|]; [by apply in_fringe_new in Hf'|done].
  - split; [apply ks_wf_nil|constructor].
  - by split; constructor.
  - intros k _ Hk. by apply mem_nil in Hk.
  - intros k Hk Hq. destruct (Hrep k Hk Hq) as [Hl Hsp]. exists (above k). split; [done|]. replace (above k) with (within (mkRange (s + 1) (s + 1)) (own k) ++ above k) by by rewrite Hnil.
    apply (search_status _ k (s + 1) lm fm A); try done; [by apply HQK|lia| |by intros ?%mem_nil|by rewrite Hnil].
    intros id. cbn [fringe]. rewrite (Hadd id k Hk). pose proof (in_fringe_new id k). tauto.
Qed.

(** What a visit of the timeline leaves of a key. *)
Inductive key_outcome (completed covered : KeySpace) (k : Key) (l : list Item) : Prop :=
  | OutDone : mem completed k → sparse k = false → good k l → key_outcome completed covered k l
  | OutImage : ¬ mem completed k → mem covered k → settled k l → (sparse k = false → inits l = false) → key_outcome completed covered k l
  | OutBelow : ¬ mem completed k → ¬ mem covered k → l = upto s (own k) ++ above k → (sparse k = false → inits l = false) →
      key_outcome completed covered k l.

Lemma visit_timeline_spec rd : ks_wf Q → ks_in compactable Q → reconstruct_state rd = rs0 → at_rest rs0 →
  (∀ k, compactable k → mem Q k → represents_key reliable rs0 k (above k) ∧ (sparse k = false → inits (above k) = false)) →
  ∃ n completed covered rd', (∀ fuel, (n ≤ fuel)%nat →
      get_vectored_reconstruct_data_timeline cancelled fuel tl (VersionedKeySpaceQuery.Uniform Q s) rd = (Ok (MkOutcome completed covered), rd')) ∧
    ks_wf completed ∧ ks_in compactable completed ∧ ks_wf covered ∧ ks_in compactable covered ∧ at_rest (reconstruct_state rd') ∧
    (∀ k, ¬ (regular k ∧ mem Q k) → ValuesReconstructState.keys (reconstruct_state rd') !! k = ValuesReconstructState.keys rs0 !! k) ∧
    ∀ k, compactable k → mem Q k → ∃ l, represents_key reliable (reconstruct_state rd') k l ∧ key_outcome completed covered k l.
Proof.
  intros Hwf Hin Ers Hrest Hrep. pose proof (ho_lsn _ _ _ _ Hh) as Hs. destruct (Hv (clock rd)) as (lm & fm & A & El & Hm & Hver).
  destruct (add_ranges_spec tlid lm fm A Hm (s + 1) ltac:(lia) Q LayerFringe.new (proj1 Hwf) Hin (fringe_wf_new tlid)) as (F & EF & HF & Hadd).
  pose proof (init_tinv F lm fm A Hwf Hm Hver HF Hadd Hrest Hrep) as Hinv. rewrite <-Ers in Hinv.
  assert (get_vectored_init_fringe tl (VersionedKeySpaceQuery.Uniform Q s) rd = (Ok F, MkReading (S (clock rd)) (reconstruct_state rd))) as Einit.
  { unfold get_vectored_init_fringe, read_layers, mbind, M_bind. rewrite El. unfold liftR. cbn [LayerManager.update_search_fringe].
    unfold wrapping_add. rewrite wrap_small by (unfold in_u; lia). by rewrite EF. }
  destruct (loop_ends _ (MkReading (S (clock rd)) (reconstruct_state rd)) Hinv) as (n & st & rd' & Hrun & Hinv' & Hempty).
  destruct (ti_covered _ _ Hinv') as [Hcne Hcin]. destruct (random_accum_spec _ Hcne) as (covered & Ec & Hcn & Hcm).
  exists n, (completed_keyspace st), covered, rd'. split.
  { intros fuel Hf. unfold get_vectored_reconstruct_data_timeline. rewrite (M_bind_ok _ _ _ _ _ Einit), (M_bind_ok _ _ _ _ _ (Hrun fuel Hf)). by rewrite Ec. }
  destruct (ti_completed _ _ Hinv') as [Hcw Hci]. split; [done|]. split; [done|]. split; [by apply ks_normal_wf|]. split; [by apply (random_accum_in _ _ _ Ec)|].
  split; [apply Hinv'|]. split; [apply Hinv'|]. intros k Hk Hq. destruct (ti_keys _ _ Hinv' k Hk Hq) as (l & Hl & Hst). exists l. split; [done|].
  destruct Hst as [id Hid _ _ _|_ Hc Hsp Hg|_ Hc Hco Hset Hsp|_ Hc Hno El' Hsp].
  - exfalso. destruct (proj2 (Hid id) eq_refl) as (r & Hr & _). apply (list_elem_of_fmap_2 fst) in Hr. rewrite Hempty in Hr. by apply not_elem_of_nil in Hr.
  - by apply OutDone.
  - apply OutImage; [done|by rewrite Hcm|done|done].
  - apply OutBelow; [done| |done|done]. rewrite Hcm. intros Hco. destruct (ti_images _ _ Hinv' k Hk Hco) as (d & Hd & Hcov & HL).
    specialize (Hno d Hd Hcov). lia.
Qed.
End traversal.
