(* ===== verification/ReadChains.v ===== *)
(** Reads of a timeline and its ancestors: what the layers of the timelines hold of the
    history of a key, and what [get_vectored_reconstruct_data] finds of it. *)

From stdpp Require Import gmap.
From S2P Require Import Prelude Text Loops OrdMaps Lsns Keys KeysFacts Shards KeySpaces KeySpaceFacts.
From S2P Require Import LayerCoverage HistoricCoverage LayerMaps LayerMapUpdates LayerMapFacts LayerSearch RangeSearchFacts.
From S2P Require Import Feedbacks WalRedos WalRedoFacts ReadPaths ReadFringe GcCompactions GcFacts ReadHistories ReadStates ReadVersions ReadTraversal.
Local Open Scope Z_scope.

(** * Histories of timelines *)

(** A timeline with its own items, and the timeline it was branched off. *)
Inductive Lineage := Root (own : Key → list Item) | Branch (own : Key → list Item) (branch_lsn : Lsn) (parent : Lineage).

Definition inherited (k : Key) : bool := bool_decide (¬ in_range NON_INHERITED_RANGE k ∧ ¬ in_range Key.sparse_non_inherited_keyspace k).

(** The history of a key up to an LSN. *)
Fixpoint history_at (h : Lineage) (k : Key) (lsn : Lsn) : list Item :=
  match h with
  | Root own => upto lsn (own k)
  | Branch own a p => (if inherited k then history_at p k (Z.min lsn a) else []) ++ upto lsn (own k)
  end.

Definition own_of (h : Lineage) : Key → list Item := match h with Root own => own | Branch own _ _ => own end.
Definition base_of (h : Lineage) (lsn : Lsn) (k : Key) : list Item :=
  match h with Root _ => [] | Branch _ a p => if inherited k then history_at p k (Z.min lsn a) else [] end.

Lemma history_split h k lsn : history_at h k lsn = base_of h lsn k ++ upto lsn (own_of h k).
Proof. by destruct h. Qed.

(** * Ranges of keys *)

Lemma prefix_range_spec p q k : Key.wf k → 0 ≤ p < 2 ^ 8 → 0 ≤ q < 2 ^ 8 → in_range (Key.prefix_range p q) k ↔ p ≤ field1 k < q.
Proof.
  intros Hk Hp Hq. assert (∀ x, 0 ≤ x < 2 ^ 8 → Key.wf (MkKey x 0 0 0 0 0)) as Hw by (intros x Hx; unfold Key.wf, in_u; cbn; lia).
  unfold in_range, Key.prefix_range, key_le, key_lt. cbn. rewrite leb_key_Z, ltb_key_Z by auto. unfold key_Z. cbn.
  destruct Hk as (H1 & H2 & H3 & H4 & H5 & H6). unfold in_u in *. lia.
Qed.

Lemma sparse_range k : Key.wf k → in_range SPARSE_RANGE k ↔ sparse k = true.
Proof.
  intros Hk. unfold SPARSE_RANGE, Key.metadata_key_range. rewrite prefix_range_spec by (done || (unfold METADATA_KEY_BEGIN_PREFIX, METADATA_KEY_END_PREFIX; lia)).
  unfold KeyClass.is_sparse. lia.
Qed.

Definition non_inherited_ranges : KeySpace := [NON_INHERITED_RANGE; Key.sparse_non_inherited_keyspace].

Lemma non_inherited_ok : ks_wf non_inherited_ranges ∧ ks_in compactable non_inherited_ranges.
Proof.
  split; [split|].
  - by repeat constructor.
  - by repeat constructor.
  - repeat constructor; by vm_compute.
Qed.

Lemma sparse_ok : ks_wf [SPARSE_RANGE] ∧ ks_in compactable [SPARSE_RANGE].
Proof. split; [by apply ks_wf_singleton|]. repeat constructor; by vm_compute. Qed.

Lemma inherited_false k : inherited k = false ↔ mem non_inherited_ranges k.
Proof.
  unfold inherited, non_inherited_ranges. rewrite mem_cons, mem_singleton, bool_decide_eq_false.
  destruct (decide (in_range NON_INHERITED_RANGE k)), (decide (in_range Key.sparse_non_inherited_keyspace k)); tauto.
Qed.

(** * The layers of the timelines *)

Section chains.
Context {T : Type → Type} `{RedBlackTreeLaws T} `{MergeByLaws} `{BinaryHeapLaws} `{HashOrderLaws} `{ValueCodec} `{LayerAccess} `{RedoProcessLaws}.
Context (items : bytes * LayerId → Key → list Item) (reliable : Key → Prop) (Ha : access_ok items reliable).
Context (cancelled : nat → bool) (Hcan : ∀ n, cancelled n = false).

(** An image layer shows the value that the history has at its LSN. *)
Definition image_shows (h : Lineage) (k : Key) (L : Lsn) (l : list Item) : Prop :=
  l = [] ∧ history_at h k L = [] ∨
  l = [] ∧ sparse k = true ∧ value_of k (Err Other) (history_at h k L) = Ok [] ∨
  ∃ page, l = [(L, Image page)] ∧ value_of k (Err Other) (history_at h k L) = Ok page.

(** At every time the layers of the timeline hold its history up to [s] for the keys of
    [K]; the image layers up to [s] stay the same during the read. *)
Record timeline_holds (tlid : bytes) (K : Key → Prop) (tl : Timeline (T := T)) (h : Lineage) (s : Lsn) (images : Layers) : Prop := {
  th_lsn : 1 ≤ s < 2 ^ 64 - 1;
  th_sorted k : K k → lsn_sorted (own_of h k);
  th_sparse k : K k → sparse k = true → Forall (λ x : Item, Value.will_init x.2 = true) (own_of h k);
  th_layers n : ∃ lm fm A, layers tl n = LayerManager.Open lm fm ∧ manager_ok tlid lm fm A ∧ version_ok tlid items (own_of h) s K images lm A;
  th_image_range d : d ∈ images → compactable_range (pd_key_range d);
  th_image d k : d ∈ images → K k → covers d k → layer_lsn d ≤ s → image_shows h k (layer_lsn d) (items (file_of tlid (layer_id_of d)) k)
}.

(** The ancestors hold the keys that are inherited. *)
Inductive backed : (Key → Prop) → Timeline (T := T) → Lineage → Lsn → Prop :=
  | backed_root tlid (K : Key → Prop) ls a ready own s images :
      timeline_holds tlid K (MkTimeline ls a None ready) (Root own) s images →
      backed K (MkTimeline ls a None ready) (Root own) s
  | backed_branch tlid (K : Key → Prop) ls a tl own p s images :
      timeline_holds tlid K (MkTimeline ls a (Some tl) None) (Branch own a p) s images →
      (∀ d, d ∈ images → layer_lsn d ≤ s → a ≤ layer_lsn d) →
      backed (λ k, K k ∧ inherited k = true) tl p (Z.min s a) →
      backed K (MkTimeline ls a (Some tl) None) (Branch own a p) s.

(** ** One timeline *)

(** What was found above, with the state that has it. *)
Record found_above (K : Key → Prop) (Q : KeySpace) (above : Key → list Item) (rs : RState) : Prop := {
  fa_rest : at_rest rs;
  fa_sparse k : K k → sparse k = true → Forall (λ x : Item, Value.will_init x.2 = true) (above k);
  fa_keys k : compactable k → mem Q k → represents_key reliable rs k (above k) ∧ (sparse k = false → inits (above k) = false)
}.

Record query_ok (K : Key → Prop) (Q : KeySpace) : Prop := {
  qo_wf : ks_wf Q;
  qo_in : ks_in compactable Q;
  qo_sized : sized Q;
  qo_keys k : compactable k → mem Q k → K k
}.

Lemma query_sub K (K' : Key → Prop) Q Q' : query_ok K Q → ks_wf Q' → ks_in compactable Q' → (∀ k, mem Q' k → mem Q k) →
  (∀ k, compactable k → mem Q' k → K k → K' k) → query_ok K' Q'.
Proof.
  intros HQ Hwf Hin Hsub HK. split; [done|done| |].
  - intros a b Ha' Hb' Hab Hr. apply (qo_sized _ _ HQ); [done..|]. intros k Hk. by apply Hsub, Hr.
  - intros k Hk Hm. apply HK; [done|done|]. by apply (qo_keys _ _ HQ k Hk), Hsub.
Qed.

Lemma image_shows_holds h s k L l : L ≤ s → (∀ own a p, h = Branch own a p → a ≤ L) → image_shows h k L l → image_holds (own_of h) (base_of h s) k L l.
Proof.
  intros HL Hb. unfold image_shows, image_holds. rewrite history_split. assert (base_of h L k = base_of h s k) as ->; [|done].
  destruct h as [own|own a p]; [done|]. cbn. specialize (Hb own a p eq_refl). by rewrite !Z.min_r by lia.
Qed.

(** The history that a read is to find. *)
Definition history_above (h : Lineage) (s : Lsn) (above : Key → list Item) (k : Key) : list Item := history_at h k s ++ above k.

Lemma whole_history h s above k : whole (own_of h) (base_of h s) above s k = history_above h s above k.
Proof. unfold whole, history_above. by rewrite history_split, <-app_assoc. Qed.

Inductive outcome_of (h : Lineage) (s : Lsn) (above : Key → list Item) (completed covered : KeySpace) (k : Key) (l : list Item) : Prop :=
  | KeyDone : mem completed k → sparse k = false → yields k (history_above h s above k) l → outcome_of h s above completed covered k l
  | KeyImage : ¬ mem completed k → mem covered k → settles k (history_above h s above k) l → (sparse k = false → inits l = false) →
      outcome_of h s above completed covered k l
  | KeyBelow : ¬ mem completed k → ¬ mem covered k → l = upto s (own_of h k) ++ above k → (sparse k = false → inits l = false) →
      outcome_of h s above completed covered k l.

Lemma timeline_spec tlid K tl h s images Q above rd : timeline_holds tlid K tl h s images →
  (∀ own a p, h = Branch own a p → ∀ d, d ∈ images → layer_lsn d ≤ s → a ≤ layer_lsn d) →
  query_ok K Q → found_above K Q above (reconstruct_state rd) →
  ∃ n completed covered rd', (∀ fuel, (n ≤ fuel)%nat →
      get_vectored_reconstruct_data_timeline cancelled fuel tl (VersionedKeySpaceQuery.Uniform Q s) rd = (Ok (MkOutcome completed covered), rd')) ∧
    ks_wf completed ∧ ks_in compactable completed ∧ ks_wf covered ∧ ks_in compactable covered ∧ at_rest (reconstruct_state rd') ∧
    (∀ k, ¬ (regular k ∧ mem Q k) → ValuesReconstructState.keys (reconstruct_state rd') !! k = ValuesReconstructState.keys (reconstruct_state rd) !! k) ∧
    ∀ k, compactable k → mem Q k → ∃ l, represents_key reliable (reconstruct_state rd') k l ∧ outcome_of h s above completed covered k l.
Proof.
  intros Hth Hbr HQ Hab. assert (histories_ok (own_of h) above s K) as Hh.
  { split; [apply Hth|apply Hth|]. intros k HK Hs. apply Forall_app. split; [by apply (th_sparse _ _ _ _ _ _ Hth)|by apply (fa_sparse _ _ _ _ Hab)]. }
  assert (images_ok tlid items (own_of h) (base_of h s) s K images) as Hi.
  { split; [apply Hth|]. intros d k Hd HK Hc HL. apply image_shows_holds; [done| |by apply (th_image _ _ _ _ _ _ Hth)]. intros own a p E. by apply (Hbr own a p). }
  destruct (visit_timeline_spec tlid items reliable (own_of h) (base_of h s) above s K images Hh Hi Ha Q (qo_sized _ _ HQ) (qo_keys _ _ HQ)
    (reconstruct_state rd) cancelled Hcan tl (th_layers _ _ _ _ _ _ Hth) rd (qo_wf _ _ HQ) (qo_in _ _ HQ) eq_refl (fa_rest _ _ _ _ Hab) (fa_keys _ _ _ _ Hab))
    as (n & completed & covered & rd' & Hrun & H1' & H2' & H3' & H4' & H5' & H6' & Hkeys).
  exists n, completed, covered, rd'. do 7 (split; [done|]). intros k Hk Hq. destruct (Hkeys k Hk Hq) as (l & Hl & Ho). exists l. split; [done|].
  destruct Ho as [? ? Hg|? ? Hs ?|]; rewrite ?whole_history in *; [by apply KeyDone|by apply KeyImage|by apply KeyBelow].
Qed.

(** ** The timeline and its ancestors *)

(** Keys that a read reports when they have no value. *)
Definition required (k : Key) : Prop := sparse k = false ∧ inherited k = true.

(** The keys that are reported, apart from those of the sparse key space. *)
Definition reported (Q : KeySpace) (o : option KeySpace) (left : KeySpace) : Prop :=
  ks_wf left ∧ ks_in compactable left ∧ (∀ k, mem left k → mem Q k) ∧
  match o with None => left = [] | Some ks => ∃ removed, of_loop (KeySpace.remove_overlapping_with ks [SPARSE_RANGE]) = Ok (left, removed) end.

(** Every key is settled, or those that are reported have no value. *)
Definition read_result (h : Lineage) (s : Lsn) (above : Key → list Item) (Q left : KeySpace) (rs : RState) : Prop :=
  if bool_decide (left = [])
  then ∀ k, compactable k → mem Q k → ∃ l, represents_key reliable rs k l ∧ settles k (history_above h s above k) l ∧ (required k → inits l = true)
  else ∀ k, compactable k → mem left k → required k ∧ inits (history_above h s above k) = false.

Lemma remove_query Q lsn other : ks_wf Q → ks_in compactable Q → ks_wf other → ks_in compactable other →
  ∃ left removed, VersionedKeySpaceQuery.remove_overlapping_with (VersionedKeySpaceQuery.Uniform Q lsn) other =
      Ok (VersionedKeySpaceQuery.Uniform left lsn, removed) ∧
    ks_wf left ∧ ks_in compactable left ∧ ks_wf removed ∧ ks_in compactable removed ∧
    (∀ k, mem left k ↔ mem Q k ∧ ¬ mem other k) ∧ (∀ k, mem removed k ↔ mem Q k ∧ mem other k).
Proof.
  intros H1' H2' H3' H4'. destruct (subtract_spec Q other H1' H2' H3' H4') as (left & removed & E & Hrest). exists left, removed.
  unfold VersionedKeySpaceQuery.remove_overlapping_with. by rewrite E.
Qed.

Lemma below_whole h s above k : base_of h s k = [] → upto s (own_of h k) ++ above k = history_above h s above k.
Proof. intros E. unfold history_above. by rewrite history_split, E. Qed.

Lemma base_not_inherited h s k : inherited k = false → base_of h s k = [].
Proof. destruct h; [done|]. cbn. by intros ->. Qed.

(** Keys that need not be looked for below. *)
Lemma outcome_settled h s above completed covered k l : outcome_of h s above completed covered k l →
  mem completed k ∨ mem covered k ∨ base_of h s k = [] → settles k (history_above h s above k) l.
Proof.
  intros [Hc _ Hy|Hc Hco Hs _|Hc Hco -> _] Hor; [by left|done|]. right. left. apply below_whole. tauto.
Qed.

Lemma outcome_done h s above completed covered k l : outcome_of h s above completed covered k l → mem completed k → inits l = true.
Proof. by intros [_ _ [? _]| |]. Qed.

Lemma outcome_missing h s above completed covered k l : outcome_of h s above completed covered k l → sparse k = false →
  ¬ mem completed k → mem covered k ∨ base_of h s k = [] → inits (history_above h s above k) = false.
Proof.
  intros [?|_ _ Hs Hi|_ Hco -> Hi] Hsp Hc Hor; [done| |].
  - specialize (Hi Hsp). destruct Hs as [[? _]|[<-|(_ & ? & _)]]; [congruence|done|congruence].
  - rewrite <-below_whole by tauto. by apply Hi.
Qed.

(** What is left of a query when a timeline was visited. *)
Lemma residual_spec Q s completed : ks_wf Q → ks_in compactable Q → ks_wf completed → ks_in compactable completed →
  ∃ Q1 removed1 Q2 removed2,
    VersionedKeySpaceQuery.remove_overlapping_with (VersionedKeySpaceQuery.Uniform Q s) completed = Ok (VersionedKeySpaceQuery.Uniform Q1 s, removed1) ∧
    VersionedKeySpaceQuery.remove_overlapping_with (VersionedKeySpaceQuery.Uniform Q1 s) non_inherited_ranges = Ok (VersionedKeySpaceQuery.Uniform Q2 s, removed2) ∧
    ks_wf Q2 ∧ ks_in compactable Q2 ∧ ∀ k, mem Q2 k ↔ mem Q k ∧ ¬ mem completed k ∧ inherited k = true.
Proof.
  intros H1' H2' H3' H4'. destruct (remove_query Q s completed H1' H2' H3' H4') as (Q1 & r1 & E1 & Hw1 & Hi1 & _ & _ & Hm1 & _).
  destruct (remove_query Q1 s non_inherited_ranges Hw1 Hi1 (proj1 non_inherited_ok) (proj2 non_inherited_ok)) as (Q2 & r2 & E2 & Hw2 & Hi2 & _ & _ & Hm2 & _).
  exists Q1, r1, Q2, r2. do 4 (split; [done|]). intros k. rewrite Hm2, Hm1, <-inherited_false, not_false_iff_true. tauto.
Qed.

Lemma without_sparse Q : ks_wf Q → ks_in compactable Q → ∃ left removed, of_loop (KeySpace.remove_overlapping_with Q [SPARSE_RANGE]) = Ok (left, removed) ∧
  ks_wf left ∧ ks_in compactable left ∧ (∀ k, mem left k → mem Q k) ∧ (∀ k, compactable k → mem left k ↔ mem Q k ∧ sparse k = false).
Proof.
  intros Hw Hin. destruct (subtract_spec Q [SPARSE_RANGE] Hw Hin (proj1 sparse_ok) (proj2 sparse_ok)) as (l & r & E' & Hlw & Hlin & _ & _ & Hm & _).
  exists l, r. split; [done|]. split; [done|]. split; [done|]. split; [by intros k [? _]%Hm|].
  intros k Hk. rewrite Hm, mem_singleton, (sparse_range k (proj1 Hk)), not_true_iff_false. tauto.
Qed.

Lemma check_not_cancelled rd : check_cancelled cancelled rd = (Ok tt, rd).
Proof. unfold check_cancelled, getS, mbind, M_bind. by rewrite Hcan. Qed.

(** The statement for a timeline and its ancestors. *)
Definition reads_chain (K : Key → Prop) (tl : Timeline (T := T)) (h : Lineage) (s : Lsn) : Prop := ∀ Q above rd,
  query_ok K Q → found_above K Q above (reconstruct_state rd) →
  ∃ n o left rd', (∀ fuel, (n ≤ fuel)%nat → visit_timelines cancelled fuel tl (VersionedKeySpaceQuery.Uniform Q s) rd = (Ok o, rd')) ∧
    (∀ k, ¬ (regular k ∧ mem Q k) → ValuesReconstructState.keys (reconstruct_state rd') !! k = ValuesReconstructState.keys (reconstruct_state rd) !! k) ∧
    (∀ k, compactable k → mem Q k → ∃ l, represents_key reliable (reconstruct_state rd') k l) ∧
    reported Q o left ∧ read_result h s above Q left (reconstruct_state rd').

Lemma reported_none Q : reported Q None [].
Proof. split; [apply ks_wf_nil|]. split; [constructor|]. split; [by intros k ?%mem_nil|done]. Qed.

Lemma chain_root tlid K ls a ready own s images : timeline_holds tlid K (MkTimeline ls a None ready) (Root own) s images →
  reads_chain K (MkTimeline ls a None ready) (Root own) s.
Proof.
  intros Hth Q above rd HQ Hab. destruct (timeline_spec tlid K _ _ s images Q above rd Hth) as (n & completed & covered & rd' & Hrun & Hcw & Hci & _ & _ & _ & Hframe & Hkeys); [done..|].
  destruct (residual_spec Q s completed) as (Q1 & r1 & Q2 & r2 & E1 & E2 & Hw2 & Hi2 & Hm2); [apply HQ|apply HQ|done..|].
  pose proof (is_empty_spec Q Q2 (qo_sized _ _ HQ) (proj1 Hw2) Hi2 ltac:(intros k [? _]%Hm2; done)) as Hemp.
  destruct (without_sparse Q2 Hw2 Hi2) as (left & r3 & E3 & Hw3 & Hi3 & Hs3 & Hm3).
  exists n, (if bool_decide (Q2 = []) then None else Some Q2), left, rd'. split.
  { intros fuel Hf. cbn [visit_timelines]. rewrite (M_bind_ok _ _ _ _ _ (check_not_cancelled rd)), (M_bind_ok _ _ _ _ _ (Hrun fuel Hf)). cbn [vo_completed_keyspace].
    rewrite (liftR_ok _ _ _ _ E1). cbn [fst]. rewrite (liftR_ok _ _ _ _ E2). cbn [fst VersionedKeySpaceQuery.is_empty]. rewrite Hemp. by case_bool_decide. }
  clear Hemp. split; [done|]. split; [intros k Hk Hq; destruct (Hkeys k Hk Hq) as (l & Hl & _); by exists l|]. split.
  - case_bool_decide as En; [|by split; [|split; [|split; [intros k Hk; apply Hm2; by apply Hs3|exists r3]]]]. subst Q2.
    assert (left = []) as -> by (destruct left as [|q l]; [done|]; destruct (ks_wf_first q l Hw3 Hi3) as [_ Hm]; by apply Hs3, mem_nil in Hm). apply reported_none.
  - unfold read_result. case_bool_decide as En.
    + intros k Hk Hq. destruct (Hkeys k Hk Hq) as (l & Hl & Ho). exists l. split; [done|]. split; [eapply outcome_settled; [exact Ho|right; by right]|].
      intros [Hsp Hinh]. eapply outcome_done; [exact Ho|]. destruct (decide (mem completed k)) as [|Hc]; [done|]. exfalso. subst left.
      apply (mem_nil k), Hm3; [done|]. by rewrite Hm2.
    + intros k Hk Hleft. apply Hm3 in Hleft as [Hq2 Hsp]; [|done]. apply Hm2 in Hq2 as (Hq & Hc & Hinh). destruct (Hkeys k Hk Hq) as (l & Hl & Ho).
      split; [done|]. eapply outcome_missing; [exact Ho|done|done|by right].
Qed.

Lemma no_keys (Q : KeySpace) : ks_wf Q → ks_in compactable Q → (∀ k, compactable k → ¬ mem Q k) → Q = [].
Proof. intros Hw Hin Hno. destruct Q as [|q l]; [done|]. destruct (ks_wf_first q l Hw Hin) as [Hc Hm]. by destruct (Hno _ Hc). Qed.

(** A branch: the keys that are neither found nor covered by an image are looked up in
    the ancestor. *)
Section branch.
Context (K : Key → Prop) (own : Key → list Item) (a : Lsn) (p : Lineage) (s : Lsn) (Q : KeySpace) (above : Key → list Item).
Context (completed covered Q2 : KeySpace) (rs : RState).
Context (Hm2 : ∀ k, mem Q2 k ↔ mem Q k ∧ ¬ mem completed k ∧ inherited k = true).
Context (Hkeys : ∀ k, compactable k → mem Q k → ∃ l, represents_key reliable rs k l ∧ outcome_of (Branch own a p) s above completed covered k l).

Definition found_below (k : Key) : list Item := upto s (own k) ++ above k.

Lemma branch_above Q3 : at_rest rs → (∀ k, K k → sparse k = true → Forall (λ x : Item, Value.will_init x.2 = true) (own k ++ above k)) →
  (∀ k, mem Q3 k ↔ mem Q2 k ∧ ¬ mem covered k) → found_above (λ k, K k ∧ inherited k = true) Q3 found_below rs.
Proof.
  intros Hrest Hsp Hm3. split; [done|..].
  - intros k [HK _] Hs. specialize (Hsp k HK Hs). apply Forall_app in Hsp as [Hsp ?]. apply Forall_app. split; [|done]. apply Forall_forall. intros x [_ Hx]%elem_of_history_upto.
    rewrite Forall_forall in Hsp. by apply Hsp.
  - intros k Hk Hq3. apply Hm3 in Hq3 as [(Hq & Hc & _)%Hm2 Hco]. destruct (Hkeys k Hk Hq) as (l & Hl & [?|? ?|_ _ -> Hi]); [done|done|]. done.
Qed.

Lemma branch_whole k : inherited k = true → history_above p (Z.min s a) found_below k = history_above (Branch own a p) s above k.
Proof. intros Hi. unfold history_above, found_below. cbn. rewrite Hi. by rewrite <-app_assoc. Qed.

(** The keys that are not looked up in the ancestor, when no image hides a key. *)
Lemma branch_settled k : compactable k → mem Q k → (∀ j, compactable j → mem Q2 j → mem covered j → sparse j = true) →
  ¬ (mem Q2 k ∧ ¬ mem covered k) →
  ∃ l, represents_key reliable rs k l ∧ settles k (history_above (Branch own a p) s above k) l ∧ (required k → inits l = true).
Proof.
  intros Hk Hq Hsp Hnot. destruct (Hkeys k Hk Hq) as (l & Hl & Ho). exists l. split; [done|].
  destruct (decide (mem completed k)) as [Hc|Hc]; [split; [eapply outcome_settled; [exact Ho|by left]|]; intros _; by eapply outcome_done|].
  destruct (inherited k) eqn:Ei.
  - assert (mem Q2 k) as Hq2 by (by apply Hm2). destruct (decide (mem covered k)) as [Hco|Hco]; [|by destruct Hnot].
    split; [eapply outcome_settled; [exact Ho|right; by left]|]. intros [Hs _]. specialize (Hsp k Hk Hq2 Hco). congruence.
  - split; [eapply outcome_settled; [exact Ho|right; right; by apply base_not_inherited]|]. intros [_ ?]. congruence.
Qed.

Lemma branch_missing k : compactable k → mem Q2 k → mem covered k → sparse k = false →
  required k ∧ inits (history_above (Branch own a p) s above k) = false.
Proof.
  intros Hk (Hq & Hc & Hi)%Hm2 Hco Hs. split; [done|]. destruct (Hkeys k Hk Hq) as (l & Hl & Ho). eapply outcome_missing; [exact Ho|done|done|by left].
Qed.
End branch.

Lemma reported_sub Q Q' o left : (∀ k, mem Q' k → mem Q k) → reported Q' o left → reported Q o left.
Proof. intros Hsub (Hw & Hin & Hm & Ho). split; [done|]. split; [done|]. split; [|done]. intros k Hk. by apply Hsub, Hm. Qed.

Lemma chain_branch tlid K ls a tl own p s images : timeline_holds tlid K (MkTimeline ls a (Some tl) None) (Branch own a p) s images →
  (∀ d, d ∈ images → layer_lsn d ≤ s → a ≤ layer_lsn d) → reads_chain (λ k, K k ∧ inherited k = true) tl p (Z.min s a) →
  reads_chain K (MkTimeline ls a (Some tl) None) (Branch own a p) s.
Proof.
  intros Hth Hbr IH Q above rd HQ Hab. destruct (timeline_spec tlid K _ _ s images Q above rd Hth) as (n & completed & covered & rd1 & Hrun & Hcw & Hci & Hvw & Hvi & Hrest & Hframe & Hkeys);
    [by intros ? ? ? [= <- <- <-]|done|done|].
  destruct (residual_spec Q s completed) as (Q1 & r1 & Q2 & r2 & E1 & E2 & Hw2 & Hi2 & Hm2); [apply HQ|apply HQ|done..|].
  assert (∀ k, mem Q2 k → mem Q k) as Hsub2 by (intros k [? _]%Hm2; done). pose proof (is_empty_spec Q Q2 (qo_sized _ _ HQ) (proj1 Hw2) Hi2 Hsub2) as Hemp2.
  destruct (remove_query Q2 s covered Hw2 Hi2 Hvw Hvi) as (Q3 & hidden & E3 & Hw3 & Hi3 & Hhw & Hhi & Hm3 & Hhm).
  destruct (without_sparse hidden Hhw Hhi) as (gap & r4 & E4 & Hgw & Hgi & Hgs & Hgm).
  assert (∀ k, mem gap k → mem Q k) as Hsubg by (intros k [Hk _]%Hgs%Hhm; by apply Hsub2). pose proof (is_empty_spec Q gap (qo_sized _ _ HQ) (proj1 Hgw) Hgi Hsubg) as Hempg.
  assert (∀ fuel, (n ≤ fuel)%nat → visit_timelines cancelled fuel (MkTimeline ls a (Some tl) None) (VersionedKeySpaceQuery.Uniform Q s) rd =
    if bool_decide (Q2 = []) then (Ok None, rd1) else if bool_decide (gap = []) then visit_timelines cancelled fuel tl (VersionedKeySpaceQuery.Uniform Q3 (Z.min s a)) rd1
    else (Ok (Some gap), rd1)) as Hvisit.
  { intros fuel Hf. cbn [visit_timelines]. rewrite (M_bind_ok _ _ _ _ _ (check_not_cancelled rd)), (M_bind_ok _ _ _ _ _ (Hrun fuel Hf)). cbn [vo_completed_keyspace vo_image_covered_keyspace].
    rewrite (liftR_ok _ _ _ _ E1). cbn [fst]. rewrite (liftR_ok _ _ _ _ E2). cbn [fst VersionedKeySpaceQuery.is_empty]. rewrite Hemp2.
    destruct (bool_decide (Q2 = [])); [done|]. rewrite (liftR_ok _ _ _ _ E3). cbn [fst snd]. rewrite (liftR_ok _ _ _ _ E4). cbn [fst]. rewrite Hempg.
    by destruct (bool_decide (gap = [])). }
  assert (∀ k, compactable k → mem Q k → ∃ l, represents_key reliable (reconstruct_state rd1) k l) as Hrepr by (intros k Hk Hq; destruct (Hkeys k Hk Hq) as (l & Hl & _); by exists l).
  clear Hemp2 Hempg Hrun E1 E2 E3 E4. destruct (decide (Q2 = [])) as [Hn2|Hn2].
  { exists n, None, [], rd1. split; [intros fuel Hf; by rewrite (Hvisit fuel Hf), bool_decide_eq_true_2|]. split; [done|]. split; [done|]. split; [apply reported_none|].
    unfold read_result. rewrite bool_decide_eq_true_2 by done. intros k Hk Hq. apply (branch_settled own a p s Q above completed covered Q2); [done..| |]; rewrite Hn2.
    - by intros j _ ?%mem_nil.
    - by intros [?%mem_nil _]. }
  rewrite bool_decide_eq_false_2 in Hvisit by done. destruct (decide (gap = [])) as [Hng|Hng].
  - rewrite bool_decide_eq_true_2 in Hvisit by done.
    assert (∀ j, compactable j → mem Q2 j → mem covered j → sparse j = true) as Hsp.
    { intros j Hj Hj2 Hjc. apply not_false_iff_true. intros Hs. apply (mem_nil j). rewrite <-Hng. apply Hgm; [done|]. by rewrite Hhm. }
    assert (∀ k, mem Q3 k → mem Q k) as Hsub3 by (intros k [? _]%Hm3; by apply Hsub2).
    destruct (IH Q3 (found_below own s above) rd1) as (n' & o & left & rd2 & Hrun' & Hframe' & Hrepr' & Hrep & Hres).
    { apply (query_sub K _ Q); [done..|]. intros k _ [Hq2 _]%Hm3 HK. split; [done|]. by apply Hm2. }
    { apply (branch_above K own a p s Q above completed covered Q2); [done..| |done]. intros k HK Hs. apply Forall_app.
      split; [by apply (th_sparse _ _ _ _ _ _ Hth)|by apply (fa_sparse _ _ _ _ Hab)]. }
    exists (Nat.max n n'), o, left, rd2. split; [intros fuel Hf; rewrite Hvisit by lia; apply Hrun'; lia|]. split.
    { intros k Hk. rewrite Hframe', Hframe; [done|done|]. intros [? ?]. apply Hk. split; [done|]. by apply Hsub3. }
    split.
    { intros k Hk Hq. destruct (decide (mem Q3 k)) as [Hk3|Hk3]; [by apply Hrepr'|]. destruct (Hrepr k Hk Hq) as (l & Hl). exists l.
      eapply represents_key_same; [|done]. apply Hframe'. tauto. }
    split; [by apply (reported_sub Q Q3)|]. unfold read_result in *. case_bool_decide as El.
    + intros k Hk Hq. destruct (decide (mem Q3 k)) as [Hk3|Hk3].
      * rewrite <-branch_whole; [by apply Hres|]. apply Hm3 in Hk3 as [Hk2 _]. by apply Hm2 in Hk2 as (_ & _ & ?).
      * destruct (branch_settled own a p s Q above completed covered Q2 _ Hm2 Hkeys k Hk Hq Hsp) as (l & Hl & Hrest'); [by rewrite <-Hm3|].
        exists l. split; [|done]. eapply represents_key_same; [|done]. apply Hframe'. tauto.
    + intros k Hk Hleft. destruct (Hres k Hk Hleft) as [Hreq Hi]. split; [done|]. rewrite branch_whole in Hi; [done|]. apply Hreq.
  - rewrite bool_decide_eq_false_2 in Hvisit by done. destruct (without_sparse gap Hgw Hgi) as (left & r5 & E5 & Hw5 & Hi5 & Hs5 & Hm5).
    exists n, (Some gap), left, rd1. split; [done|]. split; [done|]. split; [done|]. split; [split; [done|]; split; [done|]; split; [intros k Hk; by apply Hsubg, Hs5|by exists r5]|].
    assert (∀ k, compactable k → mem gap k → mem Q2 k ∧ mem covered k ∧ sparse k = false) as Hgap by (intros k Hk [[? ?]%Hhm ?]%Hgm; done).
    unfold read_result. rewrite bool_decide_eq_false_2.
    + intros k Hk Hleft. apply Hm5 in Hleft as [Hg Hs]; [|done]. destruct (Hgap k Hk Hg) as (? & ? & ?). by eapply branch_missing.
    + intros El. apply Hng. apply no_keys; [done..|]. intros k Hk Hg. apply (mem_nil k). rewrite <-El. apply Hm5; [done|]. by destruct (Hgap k Hk Hg) as (? & ? & ?).
Qed.

Lemma chain_spec K tl h s : backed K tl h s → reads_chain K tl h s.
Proof.
  induction 1 as [tlid K ls a ready own s images Hth|tlid K ls a tl own p s images Hth Hbr Hb IH]; [by eapply chain_root|by eapply chain_branch].
Qed.
End chains.
