(* ===== verification/ReadSafety.v ===== *)
(** Reads are correct: [get_vectored_impl] and [get] give every key the value of its
    history, or report keys without one. *)

From stdpp Require Import gmap.
From S2P Require Import Prelude Text Loops OrdMaps Lsns Keys KeysFacts Shards KeySpaces KeySpaceFacts.
From S2P Require Import LayerCoverage HistoricCoverage LayerMaps LayerMapUpdates LayerMapFacts LayerSearch RangeSearchFacts.
From S2P Require Import Feedbacks WalRedos WalRedoFacts ReadPaths ReadFringe GcCompactions GcFacts ReadHistories ReadStates ReadVersions ReadTraversal ReadChains.
Local Open Scope Z_scope.

#[global] Instance compactable_dec k : Decision (compactable k).
Proof. unfold compactable, Key.wf, in_u. apply _. Defined.

Section reads.
Context {T : Type → Type} `{RedBlackTreeLaws T} `{MergeByLaws} `{BinaryHeapLaws} `{HashOrderLaws} `{ValueCodec} `{LayerAccess} `{RedoProcessLaws}.
Context (items : bytes * LayerId → Key → list Item) (reliable : Key → Prop) (Ha : access_ok items reliable).
Context (cancelled : nat → bool) (Hcan : ∀ n, cancelled n = false).
Context (K : Key → Prop) (tl : Timeline (T := T)) (h : Lineage) (s : Lsn) (Hb : backed items K tl h s).

(** The value of a key at the LSN of the read. *)
Definition value_at (k : Key) : Res bytes := value_of k (Err Other) (history_at h k s).

(** The history of a key is empty or has a value. *)
Definition readable (k : Key) : Prop := history_at h k s = [] ∨ ∃ page, value_at k = Ok page.

Lemma backed_lsn : 1 ≤ s < 2 ^ 64 - 1.
Proof. destruct Hb as [? ? ? ? ? ? ? ? Hth|? ? ? ? ? ? ? ? ? Hth]; apply Hth. Qed.

Lemma found_above_new Q : found_above reliable K Q (λ _, []) ValuesReconstructState.new.
Proof. split; [done|done|]. intros k _ _. split; [|done]. unfold represents_key. cbn. by rewrite lookup_empty. Qed.

Lemma history_above_new k : history_above h s (λ _, []) k = history_at h k s.
Proof. apply app_nil_r. Qed.

(** What the traversal collects for the keys of a query. *)
Lemma reconstruct_data_spec Q time : query_ok K Q →
  ∃ n left rd', (∀ fuel, (n ≤ fuel)%nat →
      get_vectored_reconstruct_data cancelled fuel tl (VersionedKeySpaceQuery.Uniform Q s) (MkReading time ValuesReconstructState.new) =
      (if bool_decide (left = []) then Ok tt else Err (MissingKey left), rd')) ∧
    ks_wf left ∧ ks_in compactable left ∧ (∀ k, mem left k → mem Q k) ∧
    (∀ k, ValuesReconstructState.keys (reconstruct_state rd') !! k ≠ None → compactable k ∧ mem Q k) ∧
    (∀ k, compactable k → mem Q k → ∃ l, represents_key reliable (reconstruct_state rd') k l) ∧
    read_result reliable h s (λ _, []) Q left (reconstruct_state rd').
Proof.
  intros HQ. pose proof backed_lsn as Hs.
  destruct (chain_spec items reliable Ha cancelled Hcan K tl h s Hb Q (λ _, []) (MkReading time ValuesReconstructState.new) HQ (found_above_new Q))
    as (n & o & left & rd' & Hrun & Hframe & Hrepr & (Hw & Hin & Hsub & Ho) & Hres).
  exists n, left, rd'. split; [|do 3 (split; [done|])].
  - intros fuel Hf. unfold get_vectored_reconstruct_data. cbn [VersionedKeySpaceQuery.high_watermark_lsn VersionedKeySpaceQuery.is_valid].
    unfold VersionedKeySpaceQuery.is_valid. rewrite (proj2 (Z.eqb_neq s 0)) by lia. cbn [negb]. rewrite (liftR_ok _ s _ _ eq_refl), (M_bind_ok _ _ _ _ _ (Hrun fuel Hf)).
    destruct o as [ks|]; [|rewrite Ho; by rewrite bool_decide_eq_true_2]. destruct Ho as (removed & E). rewrite (liftR_ok _ _ _ _ E). cbn [fst].
    rewrite (is_empty_spec Q left (qo_sized _ _ HQ) (proj1 Hw) Hin Hsub). by case_bool_decide.
  - split; [|done]. intros k Hk. apply dec_stable. intros Hn. apply Hk. rewrite Hframe; [apply lookup_empty|]. intros [[? _] ?]. by apply Hn.
Qed.

(** A key that was settled: its state is reconstructed to its value. *)
Lemma settled_reconstructs k l rs st outcomes ty : readable k → represents_key reliable rs k l → settles k (history_at h k s) l →
  ValuesReconstructState.keys rs !! k = Some st →
  history_at h k s ≠ [] ∧ reconstructs (reconstruct_key outcomes ty k st) (value_at k) (reliable k ∧ Forall (λ o, o = None) outcomes).
Proof.
  intros Hr Hrep Hset E. unfold represents_key in Hrep. rewrite E in Hrep. destruct Hrep as (Hne & Hvals & Hsit).
  assert (inits l = true ∧ history_at h k s ≠ [] ∧ value_of k (Err Other) l = value_at k) as (Hi & Hw & Hv).
  { destruct Hset as [(? & ? & ?)|[->|[-> _]]]; [done| |done]. destruct Hr as [?|(page & Hp)]; [done|]. split; [|done]. by eapply value_of_readable. }
  split; [done|]. rewrite Hi in Hsit. destruct (reconstruct_key_spec k st l outcomes ty Hi Hsit) as (H1' & H2' & H3').
  { eapply Forall2_impl; [exact Hvals|]. by intros ? ? [? _]. }
  rewrite Hv in *. split; [done|]. split; [done|]. intros [Hrel Hout]. apply H3'. split; [done|]. rewrite Exists_exists. intros (y & Hy & Hf).
  apply list_elem_of_lookup_1 in Hy as [i Hyi]. destruct (Forall2_lookup_l _ _ _ _ _ Hvals Hyi) as (x & _ & [_ Hnf]). by apply Hnf.
Qed.

Lemma settled_absent k l rs : represents_key reliable rs k l → settles k (history_at h k s) l → ValuesReconstructState.keys rs !! k = None →
  l = [] ∧ (history_at h k s = [] ∨ sparse k = true ∧ value_at k = Ok []).
Proof.
  intros Hrep Hset E. unfold represents_key in Hrep. rewrite E in Hrep. subst l. split; [done|].
  destruct Hset as [[? _]|[<-|(_ & ? & ?)]]; [done|by left|by right].
Qed.

(** What a vectored read may return: for every key the value of its history, where a
    deleted metadata key may also be absent; or keys that have no history.  A value whose
    read or redo fails is an error of its own. *)
Definition vectored_ok (Q : KeySpace) (outcomes : Key → list (option RedoError)) (r : result GetVectoredError (gmap Key (Res bytes))) : Prop :=
  match r with
  | Ok results => ∀ k,
      match results !! k with
      | Some res => compactable k ∧ mem Q k ∧ history_at h k s ≠ [] ∧
          reconstructs res (value_at k) (reliable k ∧ Forall (λ o, o = None) (outcomes k))
      | None => compactable k → mem Q k → ¬ required k ∧ (history_at h k s = [] ∨ sparse k = true ∧ value_at k = Ok [])
      end
  | Err (MissingKey missing) => (∃ k, compactable k ∧ mem missing k) ∧
      ∀ k, compactable k → mem missing k → mem Q k ∧ required k ∧ history_at h k s = []
  | _ => False
  end.

Lemma vectored_result Q outcomes ty rs : (∀ k, compactable k → mem Q k → readable k) →
  (∀ k, ValuesReconstructState.keys rs !! k ≠ None → compactable k ∧ mem Q k) → read_result reliable h s (λ _, []) Q [] rs →
  let results := map_imap (λ key state, Some (reconstruct_key (outcomes key) ty key state)) (ValuesReconstructState.keys rs) in
  vectored_ok Q outcomes (Ok results) ∧ forallb (λ x, negb (is_panic x.2)) (map_to_list results) = true.
Proof.
  intros Hread Hdom Hres results. unfold read_result in Hres. rewrite bool_decide_eq_true_2 in Hres by done. setoid_rewrite history_above_new in Hres.
  assert (∀ k, results !! k = (λ st, reconstruct_key (outcomes k) ty k st) <$> ValuesReconstructState.keys rs !! k) as Hlk.
  { intros k. unfold results. rewrite map_lookup_imap. by destruct (_ !! k). }
  split.
  - intros k. rewrite Hlk. destruct (ValuesReconstructState.keys rs !! k) as [st|] eqn:E; cbn.
    + destruct (Hdom k) as [Hk Hq]; [by rewrite E|]. split; [done|]. split; [done|]. destruct (Hres k Hk Hq) as (l & Hl & Hset & Hreq).
      eapply settled_reconstructs; [by apply Hread|done..].
    + intros Hk Hq. destruct (Hres k Hk Hq) as (l & Hl & Hset & Hreq). destruct (settled_absent k l rs Hl Hset E) as [-> Ho]. split; [|done]. intros Hr. by specialize (Hreq Hr).
  - apply forallb_forall. intros [k res] Hin%list_elem_of_In. apply elem_of_map_to_list in Hin. rewrite Hlk in Hin. apply fmap_Some in Hin as (st & E & ->). cbn.
    destruct (reconstruct_key (outcomes k) ty k st) eqn:Er; [done..|]. exfalso. destruct (Hdom k) as [Hk Hq]; [by rewrite E|].
    destruct (Hres k Hk Hq) as (l & Hl & Hset & _). destruct (settled_reconstructs k l rs st (outcomes k) ty (Hread k Hk Hq) Hl Hset E) as (Hne & _ & Hp & _).
    specialize (Hp Er). destruct (Hread k Hk Hq) as [?|(page & ?)]; [done|]. congruence.
Qed.

Lemma vectored_reads Q outcomes ty time : query_ok K Q → (∀ k, compactable k → mem Q k → readable k) →
  ∃ n r rd', vectored_ok Q outcomes r ∧ ∀ fuel, (n ≤ fuel)%nat →
    get_vectored_impl cancelled outcomes ty fuel tl (VersionedKeySpaceQuery.Uniform Q s) (MkReading time ValuesReconstructState.new) = (r, rd').
Proof.
  intros HQ Hread. destruct (reconstruct_data_spec Q time HQ) as (n & left & rd' & Hrun & Hw & Hin & Hsub & Hdom & Hrepr & Hres).
  unfold get_vectored_impl. cbn [VersionedKeySpaceQuery.is_empty]. rewrite (is_empty_spec Q Q (qo_sized _ _ HQ) (proj1 (qo_wf _ _ HQ)) (qo_in _ _ HQ)) by done.
  destruct (decide (Q = [])) as [->|Hne].
  { exists 0%nat, (Ok ∅), (MkReading time ValuesReconstructState.new). split; [intros k; rewrite lookup_empty; by intros _ ?%mem_nil|]. by rewrite bool_decide_eq_true_2. }
  rewrite bool_decide_eq_false_2 by done. destruct (decide (left = [])) as [->|Hl].
  - rewrite bool_decide_eq_true_2 in Hrun by done. destruct (vectored_result Q outcomes ty (reconstruct_state rd') Hread Hdom Hres) as [Hok Hnp].
    eexists n, (Ok _), _. split; [exact Hok|]. intros fuel Hf. rewrite (Hrun fuel Hf). cbn zeta. rewrite Hnp, andb_true_r.
    cbn [VersionedKeySpaceQuery.map_key_to_lsn is_ok]. by rewrite (proj2 (forallb_forall _ _)).
  - rewrite bool_decide_eq_false_2 in Hrun by done. eexists n, (Err (MissingKey left)), _. split.
    + unfold read_result in Hres. rewrite bool_decide_eq_false_2 in Hres by done. setoid_rewrite history_above_new in Hres. split.
      * destruct left as [|q l]; [done|]. destruct (ks_wf_first q l Hw Hin) as [? ?]. by exists (r_start q).
      * intros k Hk Hm. destruct (Hres k Hk Hm) as [Hreq Hi]. split; [by apply Hsub|]. split; [done|].
        destruct (Hread k Hk (Hsub k Hm)) as [?|(page & Hp)]; [done|]. apply value_of_readable in Hp. congruence.
    + intros fuel Hf. rewrite (Hrun fuel Hf). cbn zeta. rewrite (proj2 (forallb_forall _ _)); [done|]. intros [k st] Hin'%list_elem_of_In. apply elem_of_map_to_list in Hin'.
      destruct (Hdom k) as [Hk Hq]; [by rewrite Hin'|]. destruct (Hrepr k Hk Hq) as (l & Hr). unfold represents_key in Hr. rewrite Hin' in Hr. destruct Hr as (_ & Hv & _).
      cbn [snd]. destruct (VectoredValueReconstructState.collect_pending_ios st) eqn:E; [done..|]. exfalso. eapply (collect_no_panic k); [|exact E].
      eapply Forall2_impl; [exact Hv|]. by intros ? ? [? _].
Qed.

(** C2: A vectored read of a timeline at one LSN returns, and what it returns is right: it
    gives every key of the query the value that the key's history has at that LSN, looking
    through the layers of the timeline and of its ancestors, while layers other than
    image layers come and go; or it fails with [MissingKey] and some keys, each of which
    has no history.  Keys of the sparse key space and keys that are not inherited may be
    absent.  Where a layer cannot be read or a redo fails, the value of the key is an
    error, never a wrong page. *)
Theorem vectored_read_correct Q outcomes ty time : query_ok K Q → (∀ k, compactable k → mem Q k → readable k) →
  ∃ n r rd', vectored_ok Q outcomes r ∧ ∀ fuel, (n ≤ fuel)%nat →
    get_vectored_impl cancelled outcomes ty fuel tl (VersionedKeySpaceQuery.Uniform Q s) (MkReading time ValuesReconstructState.new) = (r, rd').
Proof. apply vectored_reads. Qed.

(** ** A single key *)

Lemma singleton_query k k' : regular k → K k → singleton_range k = Ok (mkRange k k') → query_ok K [mkRange k k'].
Proof.
  intros Hr HK E. destruct (regular_next k Hr) as (k2 & E2 & Hk' & Hlt & Hone). rewrite E in E2. injection E2 as <-. destruct Hr as [Hk (k2 & En & _)].
  unfold singleton_range in E. rewrite En in E. injection E as ->.
  split; [by apply ks_wf_singleton|by apply ks_in_single| |].
  - intros a b Hca Hcb Hab Hsub. setoid_rewrite mem_singleton in Hsub.
    assert (a = k) as -> by (apply (Hone a (proj1 Hca)), Hsub; rng). apply raw_size_pos; [apply Hk|apply Hcb|done|].
    assert (¬ key_lt k' b) as Hle by (intros Hb'; specialize (Hsub k' ltac:(rng)); rng).
    destruct (decide (field6 k = 0xffffffff)) as [E6|]; [|by left]. right.
    assert (key_le b k') as Hbk by key_order. destruct (key_next_Z k (proj1 Hk)) as (k2 & En2 & Hw2 & Ez); [|].
    + unfold key_lt. rewrite ltb_key_Z by (apply Hk || by vm_compute). change (key_Z Key.MAX) with (2 ^ 144 - 1). destruct Hk as ((? & ? & ? & ? & ? & ?) & ? & ?). unfold in_u, key_Z in *. lia.
    + rewrite En in En2. injection En2 as <-. unfold key_lt in Hab. unfold key_le in Hbk. rewrite ltb_key_Z in Hab by (apply Hk || apply Hcb). rewrite leb_key_Z in Hbk by (apply Hcb || done).
      destruct Hk as ((? & ? & ? & ? & ? & ?) & ? & ?), Hcb as ((? & ? & ? & ? & ? & ?) & ? & ?). unfold in_u, key_Z in *. lia.
  - intros j Hj Hm. apply mem_singleton, (Hone j (proj1 Hj)) in Hm as ->. done.
Qed.

(** What [get] may return. *)
Definition get_ok (k : Key) (outcomes : list (option RedoError)) (r : result PageReconstructError bytes) : Prop :=
  match r with
  | Ok page => value_at k = Ok page
  | Err (PrRedo _) => history_at h k s ≠ [] ∧ ¬ (reliable k ∧ Forall (λ o, o = None) outcomes)
  | Err (PrVectored (MissingKey _)) => required k ∧ history_at h k s = []
  | Err PrMissingKey => ¬ required k ∧ (history_at h k s = [] ∨ sparse k = true ∧ value_at k = Ok [])
  | _ => False
  end.

(** C6: [Timeline::get] returns the page that the history of the key has at the LSN, when the
    layers can be read and redo works; it reports a key as missing only when the key has
    no history there (or is a deleted metadata key); it never returns a wrong page, the
    page of another key, or panics. *)
Theorem get_correct k outcomes ty time : regular k → K k → readable k →
  ∃ n r, get_ok k (outcomes k) r ∧ ∀ fuel, (n ≤ fuel)%nat → get cancelled outcomes ty fuel tl k s time = r.
Proof.
  intros Hr HK Hread. pose proof backed_lsn as Hs. destruct (regular_next k Hr) as (k' & E & _ & _ & Hone). pose proof (singleton_query k k' Hr HK E) as HQ.
  assert (∀ j, compactable j → mem [mkRange k k'] j ↔ j = k) as Hj by (intros j Hj; rewrite mem_singleton; by apply Hone, Hj).
  destruct (vectored_reads [mkRange k k'] outcomes ty time HQ) as (n & r & rd' & Hok & Hrun).
  { intros j Hjc ->%Hj; done. }
  exists n, (vectored_res ← map_err PrVectored r;
     match head (sort_by (λ a b, Key.leb a.1 b.1) (map_to_list vectored_res)) with
     | Some (got_key, value) => if Key.eqb got_key k then map_err PrRedo value else Err PrWrongKey
     | None => Err PrMissingKey
     end). split.
  - destruct r as [results|[| |missing| |]|]; cbn [vectored_ok map_err mbind result_bind] in *; try done.
    + destruct (results !! k) as [res|] eqn:Ek.
      * assert (results = {[k := res]}) as ->.
        { apply map_eq. intros j. destruct (decide (j = k)) as [->|Hne]; [by rewrite Ek, lookup_singleton_eq|]. rewrite lookup_singleton_ne by done.
          specialize (Hok j). destruct (results !! j); [|done]. destruct Hok as (Hjc & Hm & _). by apply Hj in Hm. }
        rewrite map_to_list_singleton. cbn [sort_by foldr insert_by head]. specialize (Hok k). rewrite lookup_singleton_eq in Hok. destruct Hok as (_ & _ & Hne & H1' & H2' & H3').
        assert (Key.eqb k k = true) as -> by (by apply bool_decide_eq_true). destruct res as [page|e|]; cbn [map_err get_ok]; [by apply H1'| |].
        -- split; [done|]. intros Hrel. specialize (H3' Hrel). destruct Hread as [?|(page & Hp)]; [done|]. congruence.
        -- specialize (H2' eq_refl). destruct Hread as [?|(page & Hp)]; [done|]. congruence.
      * assert (results = ∅) as ->.
        { apply map_eq. intros j. rewrite lookup_empty. specialize (Hok j). destruct (results !! j) eqn:Ej; [|done]. destruct Hok as (Hjc & Hm & _). apply Hj in Hm as ->; [|done]. congruence. }
        rewrite map_to_list_empty. cbn [sort_by foldr head get_ok]. specialize (Hok k). rewrite lookup_empty in Hok. apply Hok; [apply Hr|]. by apply Hj; [apply Hr|].
    + destruct Hok as [(j & Hjc & Hm) Hall]. destruct (Hall j Hjc Hm) as (Hq & Hreq & Hh). apply Hj in Hq as ->; done.
  - intros fuel Hf. unfold get. unfold VersionedKeySpaceQuery.is_valid. rewrite (proj2 (Z.eqb_neq s 0)) by lia. cbn [negb]. rewrite E. by rewrite (Hrun fuel Hf).
Qed.
End reads.
