(* ===== verification/ReadRuns.v ===== *)
(** Reads of a branch with concrete layers, and what goes wrong outside of the conditions
    of the theorems: a query at several LSNs and an image layer that is added during a
    read. *)

From stdpp Require Import gmap.
From S2P Require Import Prelude Text Loops OrdMaps Lsns Keys KeysFacts Shards KeySpaces KeySpaceFacts.
From S2P Require Import LayerCoverage HistoricCoverage LayerMaps LayerMapUpdates LayerMapFacts LayerSearch RangeSearchFacts.
From S2P Require Import Feedbacks WalRedos WalRedoFacts ReadPaths ReadFringe GcCompactions GcFacts ReadHistories ReadStates ReadVersions ReadTraversal ReadChains.
From S2P Require Import ReadSafety.
Local Open Scope Z_scope.

(** * The libraries *)

#[local] Existing Instance merge_with_merge_by.
#[local] Existing Instance merge_with_laws.

#[local] Instance in_order : HashOrder := λ A l, l.
#[local] Instance in_order_laws : HashOrderLaws.
Proof. split. done. Qed.

(** The first one of the largest elements. *)
Fixpoint pop_max {A} (cmp : A → A → comparison) (l : list A) : option (A * list A) :=
  match l with
  | [] => None
  | x :: l =>
      match pop_max cmp l with
      | None => Some (x, [])
      | Some (y, r) => match cmp y x with Gt => Some (y, x :: r) | _ => Some (x, y :: r) end
      end
  end.

#[local] Instance max_heap : BinaryHeap := @pop_max.
#[local] Instance max_heap_laws : BinaryHeapLaws.
Proof.
  split; [done|]. intros A cmp l Hne Htr Hop. unfold heap_pop, max_heap.
  assert (∀ a, cmp a a ≠ Gt) as Hrefl. { intros a. specialize (Hop a a). by destruct (cmp a a). }
  induction l as [|x l IH]; [done|]. cbn [pop_max]. destruct (decide (l = [])) as [->|Hl].
  { exists x, []. split; [done|]. split; [done|]. by intros y ->%list_elem_of_singleton. }
  destruct (IH Hl) as (y & r & -> & Hp & Hmax). assert (cmp y x = Gt → cmp x y ≠ Gt) as Hxy by (intros E; rewrite Hop, E; done).
  destruct (cmp y x) eqn:E.
  1,2: exists x, (y :: r); split; [done|]; split; [by rewrite Hp|]; intros z [->|Hz]%elem_of_cons; [apply Hrefl|apply (Htr z y x); [by apply Hmax|by rewrite E]].
  exists y, (x :: r). split; [done|]. split; [by rewrite Hp, Permutation_swap|]. intros z [->|Hz]%elem_of_cons; [by apply Hxy|by apply Hmax].
Qed.

(** Records on disk are those of PostgreSQL that append their bytes to the page. *)
#[local] Instance raw_codec : ValueCodec := { Value_des buf := Some (WalRecord (Postgres false buf)) }.
#[local] Instance append_redo : RedoProcess := {| apply_wal_records _ _ img rs := Some (default [] img ++ concat rs.*2) |}.
#[local] Instance append_redo_laws : RedoProcessLaws.
Proof. split. intros rel blknum img [l r] [l' r'] rs. cbn. by rewrite app_nil_r, <-!app_assoc. Qed.

(** * Layers given by a table *)

Definition on_disk (v : Value) : OnDiskValue :=
  match v with Image b => RawImage b | WalRecord (Postgres _ b) => WalRecordOrImage b | _ => RawImage [] end.
Definition stored (v : Value) : Prop := match v with Image _ | WalRecord (Postgres false _) => True | _ => False end.

Definition call_of (k : Key) (x : Item) : Call := MkCall k x.1 (Value.will_init x.2) (inr (on_disk x.2)).

Section table.
Context (items : bytes * LayerId → Key → list Item) (keys : list Key).

Definition table_calls (f : bytes * LayerId) (ks : KeySpace) (r : Range Z) (k : Key) : list Call :=
  if decide (mem ks k) then call_of k <$> rev (trim_history (seen items f r k)) else [].

Definition table_access : LayerAccess := {| layer_calls f ks r := Ok (concat (table_calls f ks r <$> keys)) |}.

Lemma calls_of_app k a b : calls_of k (a ++ b) = calls_of k a ++ calls_of k b.
Proof. apply List.filter_app. Qed.

Lemma calls_of_table k k' f ks r : calls_of k (table_calls f ks r k') = if decide (k' = k) then table_calls f ks r k' else [].
Proof.
  unfold calls_of, table_calls. destruct (decide (mem ks k')); [|by destruct (decide (k' = k))].
  destruct (decide (k' = k)) as [->|Hne]; [apply filter_true|apply filter_false]; intros c (x & -> & _)%list_elem_of_fmap; cbn; by case_bool_decide.
Qed.

Lemma table_access_ok : (∀ f k, items f k ≠ [] → k ∈ keys ∧ regular k) → NoDup keys → (∀ f k x, x ∈ items f k → stored x.2) →
  access_ok (H0 := table_access) items (λ _, True).
Proof.
  intros Hreg Hnd Hst. split; [by intros f k [_ ?]%Hreg|]. intros f ks r _ _. eexists. split; [done|]. intros k.
  assert (calls_of k (concat (table_calls f ks r <$> keys)) = if decide (k ∈ keys) then table_calls f ks r k else []) as ->.
  { clear Hreg. induction Hnd as [|k' l Hk' Hnd IH]; [by destruct (decide (k ∈ [])) as [?%not_elem_of_nil|]|]. cbn [fmap list_fmap concat]. rewrite calls_of_app, IH, calls_of_table.
    destruct (decide (k' = k)) as [->|Hne].
    - rewrite (decide_False (P := k ∈ l)), app_nil_r by done. by rewrite decide_True by by left.
    - destruct (decide (k ∈ l)) as [Hin|Hout]; [by rewrite decide_True by by right|]. rewrite decide_False; [done|]. intros [?|?]%elem_of_cons; [congruence|done]. }
  unfold table_calls. destruct (decide (mem ks k)) as [Hm|Hm]; [|by destruct (decide (k ∈ keys))].
  assert (∀ x, x ∈ trim_history (seen items f r k) → x ∈ items f k) as Hsub.
  { intros x Hx. assert (x ∈ seen items f r k) as Hs.
    { unfold trim_history in Hx. pose proof (last_init_spec (seen items f r k)) as Hl. destruct (last_init _) as [l1|]; [|done]. destruct Hl as (l0 & y & r' & -> & _).
      apply elem_of_app. by right. }
    unfold seen in Hs. destruct (id_is_image f.2); [done|]. by apply elem_of_within in Hs as [_ ?]. }
  destruct (decide (k ∈ keys)) as [Hin|Hout].
  - revert Hsub. generalize (trim_history (seen items f r k)). intros l Hsub. apply Forall2_fmap_l.
    apply Forall_Forall2_diag, Forall_rev, Forall_forall. intros x Hx. split; [done|]. split; [|by intros _ [? ?]]. split; [done|]. cbn.
    specialize (Hst f k x (Hsub x Hx)). destruct x as [lsn [b|[[] b| | | | | | |]]]; done.
  - destruct (trim_history (seen items f r k)) as [|x l] eqn:E; [constructor|]. exfalso. apply Hout. apply (Hreg f).
    specialize (Hsub x ltac:(by left)). intros E'. rewrite E' in Hsub. by apply not_elem_of_nil in Hsub.
Qed.
End table.

(** * A branch *)

(** Blocks of a relation. *)
Definition block (n : Z) : Key := MkKey 0 1663 5 1259 0 n.
Definition k5 : Key := block 5.
Definition k6 : Key := block 6.

Definition layer_of (tlid : bytes) (is_delta : bool) (lo hi start end_ : Z) : PersistentLayerDesc :=
  MkPersistentLayerDesc (MkTenantShardId [] 0 0) tlid (mkRange (block lo) (block hi)) (mkRange start end_) is_delta 0.

Definition map_of (open : option InMemoryLayer) (ds : Layers) : LayerMap.t sorted_list :=
  (LayerMap.batch_update (LayerMap.InsertHistoric <$> ds) (LayerMap.Mk open None [] BufferedHistoricLayerCoverage.new [] 0)).2.
Definition files_of (ds : Layers) : list (PersistentLayerKey * PersistentLayerDesc) := (λ d, (PersistentLayerDesc.key d, d)) <$> ds.
Definition manager_of (open : option InMemoryLayer) (ds : Layers) : LayerManager.t sorted_list := LayerManager.Open (map_of open ds) (files_of ds).

Lemma insert_all ds A : foldl spec_update A (LayerMap.InsertHistoric <$> ds) = A ++ ds.
Proof. revert A. induction ds as [|d ds IH]; intros A; cbn; [by rewrite app_nil_r|]. by rewrite IH, <-app_assoc. Qed.

Lemma map_of_spec open ds : valid_updates [] (LayerMap.InsertHistoric <$> ds) →
  represents (map_of open ds) ds ∧ flushed (map_of open ds) ∧ mem_layers (map_of open ds) = option_list open.
Proof.
  intros Hv. destruct (batch_update_spec (LayerMap.Mk open None [] BufferedHistoricLayerCoverage.new [] 0) [] _ (represents_empty _ _ _) Hv)
    as (lm & E & Hr & Hf & Ho & Hfr & _). unfold map_of. rewrite E. cbn [snd]. rewrite insert_all in Hr. split; [done|]. split; [done|].
  unfold mem_layers. cbn in Ho, Hfr. rewrite Ho, Hfr. by destruct open.
Qed.

(** The parent has one layer.  The branch at LSN 100 has a delta and an image layer, and
    an in-memory layer that is flushed during the read. *)
Definition d_base := layer_of [1] true 0 10 50 101.
Definition d_delta := layer_of [2] true 0 10 150 200.
Definition d_image := layer_of [2] false 6 10 200 201.
Definition d_flushed := layer_of [2] true 0 10 210 230.
Definition open_before := MkInMemoryLayer 1 210 None.
Definition open_after := MkInMemoryLayer 2 230 None.

Definition append (b : Z) : Value := WalRecord (Postgres false [b]).

Definition run_items (f : bytes * LayerId) (k : Key) : list Item :=
  if bool_decide (k = k5) then
    if bool_decide (f = ([1], layer_id_of d_base)) then [(60, Image [65])]
    else if bool_decide (f = ([2], layer_id_of d_delta)) then [(160, append 66)]
    else if bool_decide (f = ([2], layer_id_of d_flushed)) then [(220, append 67)]
    else if bool_decide (f = ([], InMemoryLayerId 1)) then [(220, append 67)]
    else []
  else if bool_decide (k = k6) then
    if bool_decide (f = ([1], layer_id_of d_base)) then [(70, Image [80])]
    else if bool_decide (f = ([2], layer_id_of d_image)) then [(200, Image [80])]
    else []
  else [].

Definition own_parent (k : Key) : list Item := if bool_decide (k = k5) then [(60, Image [65])] else if bool_decide (k = k6) then [(70, Image [80])] else [].
Definition own_child (k : Key) : list Item := if bool_decide (k = k5) then [(160, append 66); (220, append 67)] else [].

Definition run_parent : Timeline (T := sorted_list) := MkTimeline (λ _, manager_of None [d_base]) 0 None None.
Definition run_child : Timeline (T := sorted_list) :=
  MkTimeline (λ n, match n with O => manager_of (Some open_before) [d_delta; d_image] | _ => manager_of (Some open_after) [d_delta; d_image; d_flushed] end)
    100 (Some run_parent) None.
Definition run_lineage : Lineage := Branch own_child 100 (Root own_parent).
Definition run_keys (k : Key) : Prop := k = k5 ∨ k = k6.

#[local] Instance run_access : LayerAccess := table_access run_items [k5; k6].

Lemma run_regular n : 0 ≤ n < 100 → regular (block n).
Proof.
  intros Hn. assert (∀ m, 0 ≤ m < 200 → compactable (block m)) as Hc by (intros m Hm; unfold compactable, Key.wf, in_u, block; cbn; lia).
  split; [apply Hc; lia|]. exists (block (n + 1)). split; [|apply Hc; lia]. unfold Key.next, Key.add, overflowing_add, block. cbn [field6].
  rewrite (proj2 (Z.leb_gt (2 ^ 32) (n + 1))) by lia. unfold wrap. rewrite Z.mod_small by lia. done.
Qed.

Definition lsns_apart (d d' : PersistentLayerDesc) : Prop :=
  r_end (pd_lsn_range d) ≤ r_start (pd_lsn_range d') ∨ r_end (pd_lsn_range d') ≤ r_start (pd_lsn_range d).

Lemma files_of_spec ds d : d ∈ ds → ∃ d', LayerManager.get_from_key (PersistentLayerDesc.key d) (files_of ds) = Some d' ∧
  PersistentLayerDesc.key d' = PersistentLayerDesc.key d ∧ d' ∈ ds.
Proof.
  induction ds as [|d0 ds IH]; [by intros ?%not_elem_of_nil|]. cbn [files_of fmap list_fmap LayerManager.get_from_key]. intros Hd.
  case_bool_decide as E; [exists d0; split; [done|]; split; [done|by left]|]. apply elem_of_cons in Hd as [->|Hd]; [done|].
  destruct (IH Hd) as (d' & ? & ? & ?). exists d'. split; [done|]. split; [done|by right].
Qed.

Lemma manager_of_ok tlid open ds : valid_updates [] (LayerMap.InsertHistoric <$> ds) → Forall desc_ok ds → Forall (λ d, pd_timeline_id d = tlid) ds →
  (∀ d d', d ∈ ds → d' ∈ ds → pd_is_delta d = true → pd_is_delta d' = true → d ≠ d' → lsns_apart d d') →
  (∀ m, open = Some m → mem_start m < mem_end m ∧ ∀ d, d ∈ ds → pd_is_delta d = true → r_end (pd_lsn_range d) ≤ mem_start m) →
  manager_ok tlid (map_of open ds) (files_of ds) ds.
Proof.
  intros Hv Hd Ht Hap Ho. destruct (map_of_spec open ds Hv) as (Hr & Hf & Hm). rewrite Forall_forall in Ht. split; [done|done| |].
  - split; rewrite ?Hm; [done|..].
    + intros d d' x Hin Hin' E E' Hne _ _ l Hl Hl'. destruct (Hap d d' Hin Hin' E E' Hne); unfold in_lsns in *; lia.
    + destruct open as [m|]; repeat constructor. by apply Ho.
    + destruct open as [m|]; repeat constructor.
    + intros d m Hin E. destruct open as [m'|]; [|by intros ?%not_elem_of_nil]. intros ->%list_elem_of_singleton. by apply Ho.
  - intros d Hin. destruct (files_of_spec ds d Hin) as (d' & E & Ek & Hd'). exists d'. split; [done|]. split; [done|]. by apply Ht.
Qed.

(** Checks a list of concrete layers. *)
Ltac check_layers :=
  repeat match goal with
    | H : _ ∈ [] |- _ => by apply not_elem_of_nil in H
    | H : _ ∈ _ :: _ |- _ => apply elem_of_cons in H as [->|H]
    | H : Some _ = Some _ |- _ => injection H as <-
    end.

Lemma run_desc_ok : Forall desc_ok [d_base; d_delta; d_image; d_flushed].
Proof. repeat constructor; cbn; lia. Qed.

Lemma run_valid ds : ds ∈ [[d_base]; [d_delta; d_image]; [d_delta; d_image; d_flushed]] → valid_updates [] (LayerMap.InsertHistoric <$> ds).
Proof.
  intros Hds. check_layers; cbn -[layer_key_of Z.pow]; split_and!; try done; try lia.
  all: try (eexists; split; [by vm_compute|by split; vm_compute]).
  all: try (intros o Ho; check_layers; by vm_compute).
Qed.

Lemma run_manager tlid open ds : (tlid, open, ds) ∈ [([1], None, [d_base]); ([2], Some open_before, [d_delta; d_image]); ([2], Some open_after, [d_delta; d_image; d_flushed])] →
  manager_ok tlid (map_of open ds) (files_of ds) ds.
Proof.
  rewrite !elem_of_cons, elem_of_nil. intros Hin. pose proof run_desc_ok as Hok. rewrite Forall_forall in Hok.
  destruct Hin as [[= -> -> ->]|[[= -> -> ->]|[[= -> -> ->]|[]]]]; (apply manager_of_ok;
    [apply run_valid; rewrite !elem_of_cons; tauto
    |apply Forall_forall; intros d Hd; apply Hok; check_layers; rewrite !elem_of_cons; tauto
    |apply Forall_forall; intros d Hd; by check_layers
    |intros d d' Hd Hd' E E' Hne; check_layers; try done; unfold lsns_apart; cbn; lia
    |intros m Em; first [done|injection Em as <-; split; [by vm_compute|intros d Hd E; check_layers; try done; cbn; lia]]]).
Qed.

Lemma block_compactable n : 0 ≤ n < 100 → compactable (block n).
Proof. intros Hn. by apply run_regular. Qed.

Lemma block_range lo hi n : 0 ≤ lo < 100 → 0 ≤ hi < 100 → 0 ≤ n < 100 → in_range (mkRange (block lo) (block hi)) (block n) ↔ lo ≤ n < hi.
Proof.
  intros Hlo Hhi Hn. unfold in_range, key_le, key_lt. cbn [r_start r_end]. rewrite leb_key_Z, ltb_key_Z by (by apply block_compactable). unfold key_Z, block. cbn. lia.
Qed.

Lemma layer_covers_block tlid del lo hi a b n : 0 ≤ lo < 100 → 0 ≤ hi < 100 → lo < hi → 0 ≤ n < 100 → covers (layer_of tlid del lo hi a b) (block n) ↔ lo ≤ n < hi.
Proof.
  intros Hlo Hhi Hlt Hn. rewrite covers_range; [by apply block_range| |by apply block_compactable].
  split; [|split; by apply block_compactable]. unfold nonempty, key_lt. cbn. rewrite ltb_key_Z by (by apply block_compactable). unfold key_Z, block. cbn. lia.
Qed.

Lemma run_version open ds : (open, ds) ∈ [(open_before, [d_delta; d_image]); (open_after, [d_delta; d_image; d_flushed])] →
  version_ok [2] run_items own_child 250 run_keys [d_image] (map_of (Some open) ds) ds.
Proof.
  rewrite !elem_of_cons, elem_of_nil. intros Hin.
  destruct Hin as [[= -> ->]|[[= -> ->]|[]]].
  all: match goal with |- version_ok _ _ _ _ _ _ (map_of ?o ?l) _ => destruct (map_of_spec o l) as (_ & _ & Hm); [apply run_valid; rewrite !elem_of_cons; tauto|] end.
  all: unfold option_list in Hm; cbn [option_rect] in Hm; split; rewrite ?Hm.
  all: try (intros d Hd; check_layers; cbn; lia).
  all: try (intros d; rewrite !elem_of_cons, !elem_of_nil; split; [intros [Hd E]; destruct_or? Hd; subst; by auto|intros [->|[]]; split; [tauto|done]]).
  all: try (intros d k Hd E [-> | ->] Hc; check_layers; try done; by vm_compute).
  all: try (intros m k Hd [-> | ->]; check_layers; by vm_compute).
  all: intros k x [-> | ->] Hx Hs; [|by apply not_elem_of_nil in Hx]; apply elem_of_cons in Hx as [->|[->|?%not_elem_of_nil]%elem_of_cons]; [..|done].
  - right. left. exists d_delta. split; [by left|]. split; [done|]. split; [apply layer_covers_block; lia|by cbn].
  - right. right. exists open_before. split; [by left|]. by cbn.
  - right. left. exists d_delta. split; [by left|]. split; [done|]. split; [apply layer_covers_block; lia|by cbn].
  - right. left. exists d_flushed. split; [right; right; by left|]. split; [done|]. split; [apply layer_covers_block; lia|by cbn].
Qed.

Lemma run_parent_version : version_ok [1] run_items own_parent (Z.min 250 100) (λ k, run_keys k ∧ inherited k = true) [] (map_of None [d_base]) [d_base].
Proof.
  destruct (map_of_spec None [d_base]) as (_ & _ & Hm); [apply run_valid; by left|]. unfold option_list in Hm; cbn [option_rect] in Hm. split; rewrite ?Hm.
  - intros d Hd. check_layers. cbn. lia.
  - intros m Hd. check_layers.
  - intros d. rewrite elem_of_cons, !elem_of_nil. split; [|done]. intros [[->|[]] ?]. done.
  - intros d k Hd E [[-> | ->] _] Hc; check_layers; by vm_compute.
  - intros m k Hd. check_layers.
  - intros k x [[-> | ->] _] Hx Hs; apply elem_of_cons in Hx as [->|?%not_elem_of_nil]; try done.
    all: right; left; exists d_base; split; [by left|]; split; [done|]; split; [apply layer_covers_block; lia|by cbn].
Qed.

Lemma run_backed : backed run_items run_keys run_child run_lineage 250.
Proof.
  apply (backed_branch _ [2] _ _ _ _ _ _ _ [d_image]); [|intros d Hd; check_layers; cbn; lia|apply (backed_root _ [1] _ _ _ _ _ _ [])].
  - split; [lia|..].
    + intros k [-> | ->]; by repeat constructor.
    + by intros k [-> | ->].
    + intros n. destruct n as [|n]; eexists _, _, _; (split; [done|]); (split; [apply run_manager|apply run_version]); rewrite !elem_of_cons; auto.
    + intros d Hd. check_layers. split; [by vm_compute|]. split; by apply block_compactable.
    + intros d k Hd [-> | ->] Hc _; check_layers.
      * exfalso. apply layer_covers_block in Hc; lia.
      * right. right. exists [80]. split; by vm_compute.
  - split; [lia|..].
    + intros k [[-> | ->] _]; by repeat constructor.
    + by intros k [[-> | ->] _].
    + intros n. eexists _, _, _. split; [done|]. split; [apply run_manager; rewrite !elem_of_cons; auto|apply run_parent_version].
    + intros d Hd. check_layers.
    + intros d k Hd. check_layers.
Qed.

Lemma run_access_ok : access_ok run_items (λ _, True).
Proof.
  apply table_access_ok.
  - intros f k Hne. unfold run_items in Hne. case_bool_decide; [subst; split; [by left|by apply run_regular]|].
    case_bool_decide; [subst; split; [by right; left|by apply run_regular]|done].
  - repeat constructor; rewrite ?list_elem_of_singleton; [done|apply not_elem_of_nil].
  - intros f k x. unfold run_items. repeat case_bool_decide; rewrite ?elem_of_cons, ?elem_of_nil; intros Hx; destruct_or? Hx; by subst.
Qed.

Definition run_query : KeySpace := [mkRange k5 (block 7)].

Lemma run_query_keys k : compactable k → mem run_query k → k = k5 ∨ k = k6.
Proof.
  intros [Hw Hc] [Hl Hu]%mem_singleton. unfold key_le, key_lt in *. cbn [r_start r_end] in *. unfold k5, k6 in *.
  rewrite leb_key_Z in Hl by (done || by apply block_compactable). rewrite ltb_key_Z in Hu by (done || by apply block_compactable).
  assert (key_Z k = key_Z (block 5) ∨ key_Z k = key_Z (block 6)) as [E|E] by (unfold key_Z, block in *; cbn in *; lia);
    [left|right]; apply key_Z_inj; (done || by apply block_compactable).
Qed.

Lemma run_query_ok : query_ok run_keys run_query.
Proof.
  split; [by apply ks_wf_singleton|apply ks_in_single; split; by apply block_compactable| |by intros k Hk Hm; apply run_query_keys].
  intros a b Ha Hb Hab Hsub. apply raw_size_pos; [apply Ha|apply Hb|done|]. left.
  destruct (run_query_keys a Ha) as [-> | ->]; [|done..]. apply Hsub. rng.
Qed.

(** The values that the branch has at LSN 250. *)
Lemma run_values k : compactable k → mem run_query k → value_at run_lineage 250 k = Ok (if bool_decide (k = k5) then [65; 66; 67] else [80]).
Proof. intros Hk Hm. destruct (run_query_keys k Hk Hm) as [-> | ->]; by vm_compute. Qed.

(** The pages that a read returns. *)
Definition read_with (access : LayerAccess) (tl : Timeline (T := sorted_list)) (q : Query) : result GetVectoredError (list (Key * Res bytes)) :=
  results ← (get_vectored_impl (λ _, false) (λ _, []) ReadPage 20 tl q (MkReading 0 ValuesReconstructState.new)).1;
  Ok (sort_by (λ a b, Key.leb a.1 b.1) (map_to_list results)).

Lemma vectored_read_correct_witness :
  read_with run_access run_child (VersionedKeySpaceQuery.Uniform run_query 250) = Ok [(k5, Ok [65; 66; 67]); (k6, Ok [80])] ∧
  ∃ n r rd', vectored_ok (λ _, True) run_lineage 250 run_query (λ _, []) r ∧ ∀ fuel, (n ≤ fuel)%nat →
    get_vectored_impl (λ _, false) (λ _, []) ReadPage fuel run_child (VersionedKeySpaceQuery.Uniform run_query 250) (MkReading 0 ValuesReconstructState.new) = (r, rd').
Proof.
  split; [vm_compute; reflexivity|].
  apply (vectored_read_correct run_items (λ _, True) run_access_ok (λ _, false) (λ _, eq_refl) run_keys run_child run_lineage 250 run_backed); [apply run_query_ok|].
  intros k Hk Hm. right. eexists. by apply run_values.
Defined.

Lemma get_correct_witness :
  get (λ _, false) (λ _, []) ReadPage 20 run_child k5 250 0 = Ok [65; 66; 67] ∧
  ∃ n r, get_ok (λ _, True) run_lineage 250 k5 [] r ∧ ∀ fuel, (n ≤ fuel)%nat → get (λ _, false) (λ _, []) ReadPage fuel run_child k5 250 0 = r.
Proof.
  split; [vm_compute; reflexivity|].
  apply (get_correct run_items (λ _, True) run_access_ok (λ _, false) (λ _, eq_refl) run_keys run_child run_lineage 250 run_backed k5 (λ _, []));
    [by apply run_regular|by left|]. right. eexists. by vm_compute.
Defined.

(** * Keys that are lost *)

(** A branch with an image layer at LSN 200 of the values that it inherited. *)
Definition d_full_image := layer_of [2] false 0 10 200 201.
Definition image_items (f : bytes * LayerId) (k : Key) : list Item :=
  if bool_decide (f = ([2], layer_id_of d_full_image)) then (λ x, (200, x.2)) <$> own_parent k
  else if bool_decide (f = ([1], layer_id_of d_base)) then own_parent k else [].
Definition image_child : Timeline (T := sorted_list) := MkTimeline (λ _, manager_of None [d_full_image]) 100 (Some run_parent) None.
Definition image_read (q : Query) : result GetVectoredError (list (Key * Res bytes)) :=
  read_with (table_access image_items [k5; k6]) image_child q.

Definition only (k : Key) (n : Z) : KeySpace := [mkRange k (block n)].

(** A query at several LSNs loses a key: block 6 is read at LSN 250 from an image layer at
    LSN 200, whose key range is then taken as covered, and block 5, which is read at LSN
    150 from the ancestor, is reported as missing.  Either key by itself is read. *)
Remark scattered_read_loses_key :
  image_read (VersionedKeySpaceQuery.Scattered [(250, only k6 7); (150, only k5 6)]) = Err (MissingKey (only k5 6)) ∧
  image_read (VersionedKeySpaceQuery.Scattered [(250, only k6 7)]) = Ok [(k6, Ok [80])] ∧
  image_read (VersionedKeySpaceQuery.Scattered [(150, only k5 6)]) = Ok [(k5, Ok [65])].
Proof. split_and!; vm_compute; reflexivity. Qed.

(** Deltas of the two blocks, and the image layer that is added. *)
Definition d_five := layer_of [2] true 5 6 150 260.
Definition d_six := layer_of [2] true 6 7 230 260.
Definition race_items (f : bytes * LayerId) (k : Key) : list Item :=
  if bool_decide (f = ([2], layer_id_of d_five)) then if bool_decide (k = k5) then [(160, append 66)] else []
  else if bool_decide (f = ([2], layer_id_of d_full_image)) then
    if bool_decide (k = k5) then [(200, Image [65; 66])] else if bool_decide (k = k6) then [(200, Image [80])] else []
  else if bool_decide (f = ([1], layer_id_of d_base)) then own_parent k else [].
Definition race_child (added : nat → bool) : Timeline (T := sorted_list) :=
  MkTimeline (λ n, manager_of None (if added n then [d_five; d_six; d_full_image] else [d_five; d_six])) 100 (Some run_parent) None.
Definition race_read (added : nat → bool) : result GetVectoredError (list (Key * Res bytes)) :=
  read_with (table_access race_items [k5; k6]) (race_child added) (VersionedKeySpaceQuery.Uniform run_query 259).

(** An image layer that is added during a read makes the read fail: block 5 was already
    looked up below the LSN of the image, block 6 then finds the image, and block 5 counts
    as covered by it although its value starts in the ancestor.  With the image layer from
    the start, or without it, the read returns both blocks. *)
Remark image_added_during_read :
  race_read (λ n, (1 <=? n)%nat) = Err (MissingKey (only k5 6)) ∧
  race_read (λ _, true) = Ok [(k5, Ok [65; 66]); (k6, Ok [80])] ∧
  race_read (λ _, false) = Ok [(k5, Ok [65; 66]); (k6, Ok [80])].
Proof. split_and!; vm_compute; reflexivity. Qed.
