(* ===== verification/LayerReads.v ===== *)
(** What the layer files have in common: the form of a file, the first block, the calls of
    [update_key] for the blobs of a read, whose IOs are completed when the blobs were read;
    and the facts of them.

    The [OnDiskValueIo] of a call is its index in the list of the calls.  One that is
    dropped before it is completed leaves the error [IoDropped]. *)

From stdpp Require Import gmap.
From S2P Require Import Prelude Text Loops OrdMaps Lsns Keys KeysFacts KeySpaces KeySpaceFacts VecMaps FileBytes BufferedWriters.
From S2P Require Import BufferedWriterFacts DiskBtrees BtreeFacts BtreeBuild BtreeRead BtreeRuns Blobs BlobFacts VectoredBlobs VectoredBlobFacts.
From S2P Require Import WalRedos ReadPaths.
Local Open Scope Z_scope.

(** [ios]: [HashMap<(Key, Lsn), OnDiskValueIo>] *)
Abbreviation Ios := (gmap (Key * Lsn) nat).

(** [update_key] for a blob, whose IO is kept. *)
Definition start_io (key : Key) (lsn : Lsn) (will_init : bool) (s : list Call * Ios) : list Call * Ios :=
  (s.1 ++ [MkCall key lsn will_init (inl IoDropped)], <[(key, lsn) := length s.1]> s.2).

(** [OnDiskValueIo::complete] *)
Definition complete_io (idx : nat) (io : IoResult) (calls : list Call) : list Call :=
  alter (λ c, MkCall (c_key c) (c_lsn c) (c_will_init c) io) idx calls.

Section ios.
Context `{Zstd} (value : bytes → OnDiskValue).

Fixpoint complete_blobs (buf : bytes) (blobs : list VectoredBlob.t) (s : list Call * Ios) : result unit (list Call * Ios) :=
  match blobs with
  | [] => Ok s
  | blob :: blobs =>
      let at_ := (bm_key (VectoredBlob.meta blob), bm_lsn (VectoredBlob.meta blob)) in
      match s.2 !! at_ with
      | None => Panic
      | Some io =>
          r ← match VectoredBlob.read blob buf with Ok v => Ok (inr (value v)) | Err _ => Ok (inl IoFailed) | Panic => Panic end;
          complete_blobs buf blobs (complete_io io r s.1, delete at_ s.2)
      end
  end.

Definition fail_ios (s : list Call * Ios) : list Call :=
  foldr (λ x calls, complete_io x.2 (inl IoFailed) calls) s.1 (map_to_list s.2).

(** What becomes of the IOs of a read; [order] is that in which its blobs are looked at. *)
Definition complete_read (order : list VectoredBlob.t → list VectoredBlob.t) (res : result BlobIoError VectoredBlobsBuf) (s : list Call * Ios) :
    result unit (list Call) :=
  match res with
  | Ok blobs_buf =>
      s ← complete_blobs (vb_buf blobs_buf) (order (vb_blobs blobs_buf)) s;
      if decide (s.2 = ∅) then Ok s.1 else Panic
  | Err _ => Ok (fail_ios s)
  | Panic => Panic
  end.
End ios.

(** [FileBlockReader::read_blk]: whole blocks, through the page cache. *)
Definition FileBlockReader_read_blk (disk_reads : Z → Z → bool) (file : bytes) (blknum : Z) : option bytes :=
  if disk_reads (blknum * PAGE_SZ) PAGE_SZ then pread_exact (blknum * PAGE_SZ) PAGE_SZ file else None.

(** [write_all_at] of the blocks of an index, one after the other. *)
Fixpoint write_blocks (offset : Z) (blocks : list bytes) (file : bytes) : bytes :=
  match blocks with
  | [] => file
  | buf :: blocks => write_blocks (offset + PAGE_SZ) blocks (pwrite offset buf file)
  end.

(** The first block of a layer file: what [bincode] writes, filled up with zeros. *)
Definition summary_page (ser : bytes) : bytes := ser ++ zeros (PAGE_SZ - blen ser).

(** [bincode] with big-endian integers of fixed size: the fields one after the other. *)
Definition ser_key (k : Key) : bytes := Key.to_bytes k.
Definition ser_key_range (r : Range Key) : bytes := ser_key (r_start r) ++ ser_key (r_end r).

(** Reads [n] bytes. *)
Definition take_bytes (n : Z) (buf : bytes) : option (bytes * bytes) :=
  if n <=? blen buf then Some (cut 0 n buf, cut n (blen buf) buf) else None.
Definition des_int (n : Z) (buf : bytes) : option (Z * bytes) := '(b, buf) ← take_bytes n buf; Some (be_val b, buf).
Definition des_key (buf : bytes) : option (Key * bytes) :=
  '(b, buf) ← take_bytes 18 buf;
  match Key.from_slice b with Ok k => Some (k, buf) | _ => None end.

(** * Facts *)

(** ** The blocks of an index *)

Definition pages (blocks : list bytes) : Prop := Forall (λ b, blen b = PAGE_SZ) blocks.

Lemma write_blk_pages buf blocks n blocks' : pages blocks → BlockBuf.write_blk buf blocks = Ok (n, blocks') → pages blocks'.
Proof.
  unfold BlockBuf.write_blk. destruct (Z.eqb_spec (Z.of_nat (length buf)) PAGE_SZ); [|done]. intros Hp [= _ <-]. apply Forall_app. by repeat constructor.
Qed.

Lemma flush_page_pages L n w k v w' : pages w → DiskBtreeBuilder.flush_page L n w = Ok (k, v, w') → pages w'.
Proof.
  unfold DiskBtreeBuilder.flush_page. intros Hp. destruct (BuildNode.pack n) as [buf| |]; [|done..]. destruct (BuildNode.first_key L n) as [dk| |]; [|done..].
  cbn [mbind result_bind]. destruct (BlockBuf.write_blk buf w) as [[m w0]| |] eqn:Ew; [|done..]. cbn. intros [= _ _ <-]. by eapply write_blk_pages.
Qed.

Lemma append_internal_pages L fuel k v st w st' w' : pages w → DiskBtreeBuilder.append_internal L fuel k v st w = Ok (st', w') → pages w'.
Proof.
  revert k v st w st' w'. induction fuel as [|fuel IH]; intros k v st w st' w' Hp; [done|]. cbn [DiskBtreeBuilder.append_internal]. destruct st as [|last rest]; [done|].
  destruct (BuildNode.push k v last) as [[[] n1]| |]; cbn [mbind result_bind]; [by intros [= _ <-]| |done..].
  destruct (BuildNode.compress n1) as [[c n2]| |]; cbn [mbind result_bind]; [|done..].
  destruct (if c then BuildNode.push k v n2 else Ok (false, n2)) as [[[] n3]| |]; cbn [mbind result_bind]; [by intros [= _ <-]| |done..].
  destruct (DiskBtreeBuilder.flush_page L n3 w) as [[[dk dv] w1]| |] eqn:Ef; cbn [mbind result_bind]; [|done..].
  destruct (DiskBtreeBuilder.append_internal L fuel dk dv _ w1) as [[rest' w2]| |] eqn:Ea; cbn [mbind result_bind]; [|done..].
  destruct (BuildNode.push k v _) as [[[] n4]| |]; cbn [mbind result_bind]; [|done..]. intros [= _ <-].
  eapply IH; [|exact Ea]. by eapply flush_page_pages.
Qed.

Lemma append_pages L k v b b' : pages (DiskBtreeBuilder.writer b) → DiskBtreeBuilder.append L k v b = Ok b' → pages (DiskBtreeBuilder.writer b').
Proof.
  unfold DiskBtreeBuilder.append, DiskBtreeBuilder.append_to. intros Hp. case_match; [done|]. case_match; [done|]. destruct (Value.from_u64 v) as [bv| |]; [|done..].
  cbn [mbind result_bind]. destruct (DiskBtreeBuilder.append_internal _ _ _ _ _ _) as [[st w]| |] eqn:Ea; cbn [mbind result_bind]; [|done..]. intros [= <-].
  by eapply append_internal_pages.
Qed.

Lemma finish_pages L b root blocks : pages (DiskBtreeBuilder.writer b) → DiskBtreeBuilder.finish L b = Some (Ok (root, blocks)) → pages blocks.
Proof.
  intros Hp. unfold DiskBtreeBuilder.finish, run_result.
  pose proof (run_inv (DiskBtreeBuilder.finish_step L) (λ b, pages (DiskBtreeBuilder.writer b)) (λ r, ∀ root blocks, r = Ok (root, blocks) → pages blocks) FUEL b) as Hr.
  destruct (run _ _ _) as [s|r]; [done|]. intros [= ->]. eapply Hr; [|exact Hp|done]. clear. intros s Hp. unfold DiskBtreeBuilder.finish_step.
  destruct (_ <? _)%nat.
  - unfold DiskBtreeBuilder.flush_node. destruct (DiskBtreeBuilder.stack s) as [|n rest]; [done|].
    destruct (DiskBtreeBuilder.flush_page L n _) as [[[dk dv] w1]| |] eqn:Ef; cbn [mbind result_bind]; [|done..].
    destruct (DiskBtreeBuilder.append_to L dk dv _ w1) as [[rest' w2]| |] eqn:Ea; cbn [mbind result_bind]; [|done..].
    eapply append_internal_pages; [|exact Ea]. by eapply flush_page_pages.
  - destruct (DiskBtreeBuilder.stack s) as [|n rest]; [done|]. destruct (BuildNode.pack n) as [buf| |]; cbn [mbind result_bind]; [|done..].
    intros root blocks Hw. by eapply write_blk_pages.
Qed.

Lemma write_blocks_spec blocks f : pages blocks → write_blocks (blen f) blocks f = f ++ concat blocks.
Proof.
  intros Hp. revert f. induction Hp as [|b blocks Hb _ IH]; intros f; [by rewrite app_nil_r|]. cbn [write_blocks concat]. rewrite pwrite_end.
  replace (blen f + PAGE_SZ) with (blen (f ++ b)) by (rewrite blen_app; lia). by rewrite IH, app_assoc.
Qed.

Lemma pages_block blocks b buf : pages blocks → blocks !! b = Some buf →
  cut (Z.of_nat b * PAGE_SZ) ((Z.of_nat b + 1) * PAGE_SZ) (concat blocks) = buf ∧ (Z.of_nat b + 1) * PAGE_SZ ≤ blen (concat blocks).
Proof.
  intros Hp. revert b. induction Hp as [|x blocks Hx Hp IH]; intros b; [done|]. cbn [concat]. destruct b as [|b]; cbn [lookup list_lookup].
  - intros [= ->]. rewrite blen_app. pose proof (blen_nonneg (concat blocks)). split; [|lia]. rewrite cut_app_l by lia. apply cut_all. lia.
  - intros Hb. destruct (IH b Hb) as [<- Hl]. rewrite blen_app. split; [|unfold PAGE_SZ in *; lia]. rewrite cut_app_r by (unfold PAGE_SZ in *; lia). f_equal; lia.
Qed.

Lemma pages_len blocks : pages blocks → blen (concat blocks) = blen blocks * PAGE_SZ.
Proof.
  induction 1 as [|b blocks Hb _ IH]; [done|]. cbn [concat]. rewrite blen_app, IH, Hb. unfold blen. cbn [length]. unfold PAGE_SZ. lia.
Qed.

(** ** The file of a layer *)

Lemma pwrite_start buf file : blen buf ≤ blen file → pwrite 0 buf file = buf ++ cut (blen buf) (blen file) file.
Proof.
  intros Hl. destruct (decide (buf = [])) as [->|Hne]; [cbn [app]; unfold pwrite; cbn|].
  - by rewrite cut_whole.
  - assert (blen (pwrite 0 buf file) = blen file) as El by (rewrite blen_pwrite by done; lia). pose proof (blen_nonneg buf).
    rewrite <-(cut_whole (pwrite 0 buf file)), El, <-(cut_app 0 (blen buf)) by lia. f_equal.
    + rewrite pwrite_inside by lia. rewrite !Z.sub_0_r. apply cut_whole.
    + by rewrite pwrite_after by lia.
Qed.

(** The summary, the values and the index. *)
Definition layer_file (page data : bytes) (blocks : list bytes) : bytes := page ++ (data ++ padding data) ++ concat blocks.

Section file.
Context (page data : bytes) (blocks : list bytes) (Hpage : blen page = PAGE_SZ) (Hpages : pages blocks).
Abbreviation f := (layer_file page data blocks).

(** Where the index starts. *)
Definition index_blk : Z := 1 + next_multiple_of (blen data) PAGE_SZ / PAGE_SZ.

Lemma index_blk_spec : index_blk * PAGE_SZ = PAGE_SZ + blen (data ++ padding data) ∧ 1 ≤ index_blk.
Proof.
  destruct (padded_whole data) as [E Hm]. unfold index_blk. rewrite <-E in *. pose proof (Z.div_mod (blen (data ++ padding data)) PAGE_SZ ltac:(done)) as Hd.
  rewrite Hm in Hd. pose proof (blen_nonneg (data ++ padding data)). pose proof (Z.div_pos (blen (data ++ padding data)) PAGE_SZ ltac:(lia) ltac:(done)). lia.
Qed.

Lemma index_blk_ceil : blen data < 2 ^ 38 → wrap 32 (ChunkedVectoredReadBuilder.div_ceil (PAGE_SZ + blen data) PAGE_SZ) = index_blk ∧ u32 index_blk.
Proof.
  intros Hl. destruct index_blk_spec as [E H1]. destruct (padded_whole data) as [Ep _]. destruct (next_multiple_of_spec (blen data) PAGE_SZ ltac:(done)) as [Hn _].
  assert (ChunkedVectoredReadBuilder.div_ceil (PAGE_SZ + blen data) PAGE_SZ = index_blk) as ->.
  { unfold ChunkedVectoredReadBuilder.div_ceil. symmetry. apply (Z.div_unique _ _ index_blk (PAGE_SZ + blen data + (PAGE_SZ - 1) - PAGE_SZ * index_blk)); [|lia].
    left. unfold PAGE_SZ in *. lia. }
  assert (u32 index_blk) by (unfold in_u, PAGE_SZ in *; lia). split; [by apply wrap_small|done].
Qed.

Lemma layer_file_len : blen f = index_blk * PAGE_SZ + blen (concat blocks).
Proof. unfold layer_file. rewrite !blen_app, <-blen_app. destruct index_blk_spec. lia. Qed.

Lemma layer_file_page disk_reads : disk_reads 0 PAGE_SZ = true → FileBlockReader_read_blk disk_reads f 0 = Some page.
Proof.
  intros Hd. unfold FileBlockReader_read_blk. change (0 * PAGE_SZ) with 0. rewrite Hd. pose proof layer_file_len. pose proof (blen_nonneg (concat blocks)). destruct index_blk_spec.
  rewrite pread_exact_some by (unfold PAGE_SZ in *; lia). f_equal. unfold layer_file. rewrite cut_app_l by lia. apply cut_all. lia.
Qed.

Lemma layer_file_stored disk_reads : (∀ n, disk_reads (n * PAGE_SZ) PAGE_SZ = true) → blen f ≤ 2 ^ 32 * PAGE_SZ →
  stored blocks index_blk (FileBlockReader_read_blk disk_reads f).
Proof.
  intros Hd Hlen. pose proof layer_file_len as El. destruct index_blk_spec as [Ei Hi]. pose proof (blen_nonneg (data ++ padding data)). split.
  - fold (blen blocks). rewrite (pages_len blocks Hpages) in El. unfold PAGE_SZ in *. lia.
  - intros b buf Hb. destruct (pages_block blocks b buf Hpages Hb) as [Hc Hb1]. unfold FileBlockReader_read_blk. rewrite Hd.
    rewrite pread_exact_some by (unfold PAGE_SZ in *; lia). f_equal. rewrite <-Hc. unfold layer_file. rewrite app_assoc, cut_app_r.
    + rewrite !blen_app in *. f_equal; unfold PAGE_SZ in *; lia.
    + rewrite !blen_app in *. unfold PAGE_SZ in *; lia.
Qed.

(** What [finish] of a writer leaves. *)
Lemma finished_file f0 : on_disk PAGE_SZ f0 (data ++ padding data) → data ≠ [] → pwrite 0 page (write_blocks (index_blk * PAGE_SZ) blocks f0) = f.
Proof.
  intros Hd Hne. assert (data ++ padding data ≠ []) as Hne' by (by intros [? _]%app_eq_nil). pose proof (on_disk_len PAGE_SZ f0 _ ltac:(done) Hd Hne') as Hl.
  destruct index_blk_spec as [-> _]. rewrite <-Hl, write_blocks_spec by done. pose proof (blen_nonneg (data ++ padding data)). pose proof (blen_nonneg (concat blocks)). pose proof (blen_nonneg page).
  rewrite pwrite_start by (rewrite blen_app; lia). unfold layer_file. f_equal. rewrite blen_app, cut_across by lia. f_equal.
  - rewrite Hl, Hpage. apply Hd.
  - replace (blen f0 + blen (concat blocks) - blen f0) with (blen (concat blocks)) by lia. apply cut_whole.
Qed.

Lemma layer_file_blob `{ZstdLaws} x y alg src : data = x ++ blob_bytes alg src ++ y → blob_at f (PAGE_SZ + blen x) alg src.
Proof.
  intros E. pose proof layer_file_len as Hl. destruct index_blk_spec as [Hi _]. pose proof (blen_nonneg x). pose proof (blen_nonneg y). pose proof (blen_nonneg (padding data)).
  pose proof (blen_nonneg (concat blocks)). assert (blen data = blen x + blen (blob_bytes alg src) + blen y) as Ed by (rewrite E, !blen_app; lia).
  split_and!; [unfold PAGE_SZ; lia|rewrite Hl, Hi, blen_app; lia|]. unfold layer_file. rewrite cut_app_r by lia. rewrite E, <-!app_assoc.
  replace (PAGE_SZ + blen x - blen page) with (blen x) by lia.
  replace (PAGE_SZ + blen x + blen (blob_bytes alg src) - blen page) with (blen x + blen (blob_bytes alg src)) by lia. apply cut_mid.
Qed.
End file.

(** ** The calls of a read *)

Definition blob_id (x : Blob) : Key * Lsn := (x.1, b_lsn x).

Section calls.
Context `{ZstdLaws} (content : Z → ImageCompressionAlgorithm * bytes) (value : bytes → OnDiskValue) (will_init : Blob → bool).

Definition call_of (io : Blob → IoResult) (x : Blob) : Call := MkCall x.1 (b_lsn x) (will_init x) (io x).
Definition found (x : Blob) : IoResult := inr (value (content (b_start x)).2).

Definition start_all (xs : list Blob) (s : list Call * Ios) : list Call * Ios := foldl (λ s x, start_io x.1 (b_lsn x) (will_init x) s) s xs.

(** The IOs that are open are those of the blobs from the [n]-th on. *)
Definition open_ios (n : nat) (xs : list Blob) (ios : Ios) : Prop :=
  ∀ at_ i, ios !! at_ = Some i ↔ ∃ j x, xs !! j = Some x ∧ blob_id x = at_ ∧ i = (n + j)%nat.

Lemma start_all_spec xs ys calls ios : length calls = length ys → NoDup (blob_id <$> ys ++ xs) → open_ios 0 ys ios →
  ∃ ios', start_all xs (calls, ios) = (calls ++ (call_of (λ _, inl IoDropped) <$> xs), ios') ∧ open_ios 0 (ys ++ xs) ios'.
Proof.
  revert ys calls ios. induction xs as [|x xs IH]; intros ys calls ios Hlen Hnd Ho; [exists ios; by rewrite !app_nil_r|].
  replace (ys ++ x :: xs) with ((ys ++ [x]) ++ xs) in * by (by rewrite <-app_assoc).
  destruct (IH (ys ++ [x]) (calls ++ [MkCall x.1 (b_lsn x) (will_init x) (inl IoDropped)]) (<[(x.1, b_lsn x) := length calls]> ios)) as (ios' & E & Ho').
  - rewrite !length_app, Hlen. done.
  - done.
  - intros at_ i. rewrite fmap_app, NoDup_app in Hnd. destruct Hnd as [Hnd _]. rewrite fmap_app, NoDup_app in Hnd. destruct Hnd as (_ & Hx & _).
    destruct (decide (at_ = blob_id x)) as [->|Hne].
    + unfold blob_id at 1. rewrite lookup_insert_eq. split.
      * intros [= <-]. exists (length ys), x. split_and!; [by apply list_lookup_middle|done|lia].
      * intros (j & y & Hj & Ey & ->). destruct (decide (j < length ys)%nat) as [Hlt|Hge].
        -- rewrite lookup_app_l in Hj by done. exfalso. apply (Hx (blob_id y)); [by apply list_elem_of_fmap_2, (list_elem_of_lookup_2 _ j)|].
           rewrite Ey. by apply list_elem_of_singleton.
        -- apply lookup_lt_Some in Hj. rewrite length_app in Hj. cbn in Hj. f_equal. lia.
    + rewrite lookup_insert_ne by done. rewrite (Ho at_ i). split; intros (j & y & Hj & Ey & ->); exists j, y; split_and!; try done.
      * by apply lookup_app_l_Some.
      * apply lookup_app_Some in Hj as [|[_ Hj]]; [done|]. apply list_lookup_singleton_Some in Hj as [_ ->]. by rewrite Ey in Hne.
  - exists ios'. split; [|done]. etrans; [exact E|]. by rewrite <-app_assoc.
Qed.

Lemma open_ios_next n x xs ios : NoDup (blob_id <$> x :: xs) → open_ios n (x :: xs) ios →
  ios !! blob_id x = Some n ∧ open_ios (S n) xs (delete (blob_id x) ios).
Proof.
  intros [Hx Hnd]%NoDup_cons Ho. split; [apply Ho; exists 0%nat, x; split_and!; [done|done|lia]|]. intros at_ i. rewrite lookup_delete_Some, (Ho at_ i). split.
  - intros (Hne & [|j] & y & Hj & Ey & ->); [injection Hj as ->; done|]. exists j, y. split_and!; [done|done|lia].
  - intros (j & y & Hj & Ey & ->). split; [|exists (S j), y; split_and!; [done|done|lia]]. intros <-. apply Hx. rewrite <-Ey.
    by apply list_elem_of_fmap_2, (list_elem_of_lookup_2 _ j).
Qed.

Lemma open_ios_nil n ios : open_ios n [] ios → ios = ∅.
Proof. intros Ho. apply map_eq. intros at_. rewrite lookup_empty. destruct (ios !! at_) as [i|] eqn:E; [|done]. by apply Ho in E as (j & x & ? & _). Qed.

(** The blobs are completed one after the other. *)
Lemma complete_blobs_spec buf blobs xs calls ios : NoDup (blob_id <$> xs) → open_ios (length calls) xs ios → Forall2 (taken content buf) blobs xs →
  complete_blobs value buf blobs (calls ++ (call_of (λ _, inl IoDropped) <$> xs), ios) = Ok (calls ++ (call_of found <$> xs), ∅).
Proof.
  intros Hnd Ho Hb. revert calls ios Hnd Ho. induction Hb as [|b x blobs xs (Em & Er & _) _ IH]; intros calls ios Hnd Ho.
  { apply open_ios_nil in Ho as ->. done. }
  destruct (open_ios_next _ x xs ios Hnd Ho) as [Hx Ho']. cbn [complete_blobs fst snd]. rewrite Em. cbn [b_meta bm_key bm_lsn]. fold (blob_id x). rewrite Hx, Er.
  cbn [mbind result_bind fmap list_fmap]. apply NoDup_cons in Hnd as [_ Hnd].
  assert (complete_io (length calls) (found x) (calls ++ call_of (λ _, inl IoDropped) x :: (call_of (λ _, inl IoDropped) <$> xs)) =
    (calls ++ [call_of found x]) ++ (call_of (λ _, inl IoDropped) <$> xs)) as Ec.
  { unfold complete_io. rewrite alter_app_r_alt by lia. rewrite Nat.sub_diag. cbn. by rewrite <-app_assoc. }
  fold (found x). rewrite Ec, IH; [by rewrite <-app_assoc|done|]. by rewrite length_app, Nat.add_1_r.
Qed.

Lemma fail_all_ios l calls i : foldr (λ (x : Key * Lsn * nat) calls, complete_io x.2 (inl IoFailed) calls) calls l !! i =
  (λ c, if decide (i ∈ snd <$> l) then MkCall (c_key c) (c_lsn c) (c_will_init c) (inl IoFailed) else c) <$> calls !! i.
Proof.
  induction l as [|x l IH]; cbn [foldr fmap list_fmap].
  { destruct (calls !! i); [|done]. cbn. by rewrite decide_False by apply not_elem_of_nil. }
  unfold complete_io at 1. destruct (decide (x.2 = i)) as [Ei|Hne].
  - subst i. rewrite list_lookup_alter_eq, IH. destruct (calls !! x.2) as [c|]; [|done]. cbn. rewrite (decide_True (P := x.2 ∈ x.2 :: _)) by (by left). by case_decide.
  - rewrite list_lookup_alter_ne, IH by done. destruct (calls !! i) as [c|]; [|done]. cbn. f_equal.
    destruct (decide (i ∈ snd <$> l)); [by rewrite decide_True by (by right)|]. rewrite decide_False; [done|]. by intros [?|?]%elem_of_cons.
Qed.

Lemma fail_ios_spec xs ios : open_ios 0 xs ios → fail_ios (call_of (λ _, inl IoDropped) <$> xs, ios) = (call_of (λ _, inl IoFailed) <$> xs).
Proof.
  intros Ho. unfold fail_ios. cbn [fst snd]. apply list_eq. intros i. rewrite fail_all_ios, !list_lookup_fmap. destruct (xs !! i) as [x|] eqn:Ei; [|done]. cbn.
  rewrite decide_True; [done|]. apply list_elem_of_fmap. exists (blob_id x, i). split; [done|]. apply elem_of_map_to_list, Ho. by exists i, x.
Qed.

(** A read that was planned: the calls for its blobs, which are completed with their
    values, or fail with the disk. *)
Lemma complete_read_spec D f (disk_reads : Z → Z → bool) r xs capacity (order : ∀ A, list A → list A) :
  0 ≤ D < 2 ^ 63 → D ≤ blen f → read_has D r xs → Forall (holds f content) xs → VectoredRead.size r ≤ capacity →
  (∀ A B (P : A → B → Prop) l k, Forall2 P l k → Forall2 P (order A l) (order B k)) → order _ xs ≡ₚ xs → NoDup (blob_id <$> xs) →
  complete_read value (order _) (VectoredBlobReader.read_blobs disk_reads f r capacity) (start_all (order _ xs) ([], ∅)) =
  Ok (call_of (λ x, if disk_reads (VectoredRead.start r) (VectoredRead.size r) then found x else inl IoFailed) <$> order _ xs).
Proof.
  intros HD Hf Hr Hh Hcap Hord Hperm Hnd. assert (NoDup (blob_id <$> order _ xs)) as Hnd' by (by rewrite Hperm).
  destruct (start_all_spec (order _ xs) [] [] ∅) as (ios & -> & Ho); [done|done| |].
  { intros at_ i. rewrite lookup_empty. split; [done|]. by intros (j & x & ? & _). }
  cbn [app] in *. pose proof (read_blobs_spec D HD f content disk_reads r xs capacity Hf Hr Hh Hcap) as Hrd.
  destruct (disk_reads _ _).
  - destruct Hrd as (buf & blobs & -> & Hb). unfold complete_read. cbn [vb_buf vb_blobs].
    pose proof (complete_blobs_spec buf (order _ blobs) (order _ xs) [] ios Hnd' Ho (Hord _ _ _ _ _ Hb)) as E. cbn [app] in E. rewrite E. cbn [mbind result_bind snd fst].
    by rewrite decide_True.
  - rewrite Hrd. unfold complete_read. by rewrite fail_ios_spec.
Qed.

(** A call gives the value of a blob, unless the disk fails. *)
Definition answers (disk_reads : Z → Z → bool) (c : Call) (x : Blob) : Prop :=
  c_key c = x.1 ∧ c_lsn c = b_lsn x ∧ c_will_init c = will_init x ∧ (c_io c = found x ∨ c_io c = inl IoFailed ∧ ∃ off n, disk_reads off n = false).

Lemma calls_answer (disk_reads : Z → Z → bool) off n xs :
  Forall2 (answers disk_reads) (call_of (λ x, if disk_reads off n then found x else inl IoFailed) <$> xs) xs.
Proof.
  induction xs as [|x xs IH]; [constructor|]. constructor; [|done]. split_and!; [done..|]. cbn. destruct (disk_reads off n) eqn:E; [by left|right]. split; [done|]. by exists off, n.
Qed.

(** The calls for a key. *)
Lemma answers_key disk_reads k calls xs : Forall2 (answers disk_reads) calls xs →
  Forall2 (answers disk_reads) (List.filter (λ c, bool_decide (c_key c = k)) calls) (of_key k xs).
Proof.
  unfold of_key. induction 1 as [|c x calls xs Hc _ IH]; [constructor|]. cbn [List.filter]. unfold Key.eqb. destruct Hc as (Ek & Hc). rewrite Ek.
  destruct (bool_decide (x.1 = k)); [|done]. by constructor.
Qed.
End calls.

Lemma Forall2_rev {A B} (P : A → B → Prop) l k : Forall2 P l k → Forall2 P (rev l) (rev k).
Proof. intros Hl. rewrite !rev_alt. by apply Forall2_reverse. Qed.

Lemma max_size_ge n reads : n ≤ foldl (λ n read, Z.max n (VectoredRead.size read)) n reads ∧
  Forall (λ r, VectoredRead.size r ≤ foldl (λ n read, Z.max n (VectoredRead.size read)) n reads) reads.
Proof.
  revert n. induction reads as [|r reads IH]; intros n; cbn [foldl]; [split; [lia|constructor]|]. destruct (IH (Z.max n (VectoredRead.size r))) as [H1 H2].
  split; [lia|]. constructor; [lia|done].
Qed.

Lemma concat_rev_rev {A} (ls : list (list A)) : concat (@rev A <$> rev ls) = rev (concat ls).
Proof. induction ls as [|l ls IH]; [done|]. cbn [rev concat]. rewrite fmap_app, concat_app, IH, rev_app_distr. cbn. by rewrite app_nil_r. Qed.

(** ** Summaries *)

Lemma take_field_app n b rest : blen b = n → take_bytes n (b ++ rest) = Some (b, rest).
Proof.
  intros <-. unfold take_bytes. rewrite blen_app. pose proof (blen_nonneg rest). rewrite (proj2 (Z.leb_le _ _)) by lia. f_equal. f_equal.
  - rewrite cut_app_l by lia. apply cut_whole.
  - rewrite cut_app_r by lia. rewrite Z.sub_diag. replace (blen b + blen rest - blen b) with (blen rest) by lia. apply cut_whole.
Qed.

Lemma des_int_app m n v rest : n = Z.of_nat m → in_u (8 * n) v → des_int n (be_bytes m v ++ rest) = Some (v, rest).
Proof. intros -> Hv. unfold des_int. rewrite take_field_app by (unfold blen; by rewrite length_be_bytes). cbn. by rewrite be_val_be_bytes. Qed.

Lemma des_key_app k rest : Key.wf k → des_key (ser_key k ++ rest) = Some (k, rest).
Proof.
  intros Hk. unfold des_key, ser_key. rewrite take_field_app by (unfold blen; by rewrite length_to_bytes). cbn [mbind option_bind].
  pose proof (from_slice_to_bytes k [] Hk) as E. rewrite app_nil_r in E. by rewrite E.
Qed.
