(* ===== verification/DeltaLayers.v ===== *)
(** Delta layer files, [pageserver/src/tenant/storage_layer/delta_layer.rs]: a summary in
    the first block, the values as blobs, and a B-tree from keys and LSNs to them.

    A file is the string of its bytes; its name and the reservations around it are left
    out.  Writes succeed, [disk_reads] tells which parts of the file the disk reads. *)

From stdpp Require Import gmap.
From S2P Require Import Prelude Text Loops OrdMaps Lsns Keys Shards KeysFacts KeySpaces FileBytes VecMaps LayerCoverage HistoricCoverage LayerMaps.
From S2P Require Import BufferedWriters DiskBtrees Blobs VectoredBlobs WalRedos ReadPaths LayerReads.
Local Open Scope Z_scope.

Definition DELTA_FILE_MAGIC : Z := 0x5A61.
Definition STORAGE_FORMAT_VERSION : Z := 3.
Definition S3_UPLOAD_LIMIT : Z := 4500000000.
Definition DELTA_KEY_SIZE : nat := KEY_SIZE + 8.

(** * Data *)

Module DeltaSummary.
Record t := Mk {
  magic : Z; format_version : Z; tenant_id : bytes; timeline_id : bytes; key_range : Range Key; lsn_range : Range Z;
  index_start_blk : Z; index_root_blk : Z
}.
#[global] Instance eq_dec : EqDecision t.
Proof. solve_decision. Defined.

Definition ser (s : t) : bytes :=
  be_bytes 2 (magic s) ++ be_bytes 2 (format_version s) ++ tenant_id s ++ timeline_id s ++ ser_key_range (key_range s) ++
  be_bytes 8 (r_start (lsn_range s)) ++ be_bytes 8 (r_end (lsn_range s)) ++ be_bytes 4 (index_start_blk s) ++ be_bytes 4 (index_root_blk s).

Definition des_prefix (buf : bytes) : option t :=
  '(magic, buf) ← des_int 2 buf;
  '(format_version, buf) ← des_int 2 buf;
  '(tenant_id, buf) ← take_bytes 16 buf;
  '(timeline_id, buf) ← take_bytes 16 buf;
  '(key_start, buf) ← des_key buf;
  '(key_end, buf) ← des_key buf;
  '(lsn_start, buf) ← des_int 8 buf;
  '(lsn_end, buf) ← des_int 8 buf;
  '(index_start_blk, buf) ← des_int 4 buf;
  '(index_root_blk, _) ← des_int 4 buf;
  Some (Mk magic format_version tenant_id timeline_id (mkRange key_start key_end) (mkRange lsn_start lsn_end) index_start_blk index_root_blk).

Definition ser_into_page (s : t) : bytes := summary_page (ser s).

Definition expected (tenant_id timeline_id : bytes) (keys : Range Key) (lsns : Range Z) : t :=
  Mk DELTA_FILE_MAGIC STORAGE_FORMAT_VERSION tenant_id timeline_id keys lsns 0 0.
End DeltaSummary.

Module BlobRef.
Definition WILL_INIT : Z := 1.
Definition will_init (self : Z) : bool := negb (Z.land self WILL_INIT =? 0).
Definition pos (self : Z) : Z := Z.shiftr self 1.
Definition new (pos : Z) (will_init : bool) : Z :=
  let blob_ref := wrap 64 (Z.shiftl pos 1) in if will_init then Z.lor blob_ref WILL_INIT else blob_ref.
End BlobRef.

Module DeltaKey.
Definition from_slice (buf : bytes) : result unit bytes := if decide (length buf = DELTA_KEY_SIZE) then Ok buf else Panic.
Definition from_key_lsn (key : Key) (lsn : Lsn) : bytes := Key.to_bytes key ++ be_bytes 8 lsn.
Definition key (self : bytes) : result unit Key := Key.from_slice self.
Definition extract_lsn_from_buf (buf : bytes) : result unit Lsn :=
  let lsn_buf := drop KEY_SIZE buf in if decide (length lsn_buf = 8%nat) then Ok (be_val lsn_buf) else Panic.
Definition lsn (self : bytes) : result unit Lsn := extract_lsn_from_buf self.
End DeltaKey.

(** * Writing *)

Inductive PutError := PutWriteBlob (e : WriteBlobError) | PutOther (e : DiskBtreeError).
Inductive FinishError := FinishWrite (e : WriteBlobError) | FinishIndex (e : DiskBtreeError) | AboveS3Limit.

(** [Value::ser], of the [bincode] crate. *)
Class ValueEncoder := { Value_ser : Value → bytes }.

Module DeltaLayerWriter.
Record t := Mk {
  timeline_id : bytes; tenant_shard_id : TenantShardId; key_start : Key; lsn_range : Range Z;
  tree : DiskBtreeBuilder.t; blob_writer : BlobWriter.t; num_keys : Z
}.

Definition new (timeline_id : bytes) (tenant_shard_id : TenantShardId) (key_start : Key) (lsn_range : Range Z) (cancels : list bool) : t :=
  Mk timeline_id tenant_shard_id key_start lsn_range (DiskBtreeBuilder.new []) (BlobWriter.new [] PAGE_SZ cancels) 0.

Definition set_blob_writer w (s : t) : t := Mk (timeline_id s) (tenant_shard_id s) (key_start s) (lsn_range s) (tree s) w (num_keys s).
Definition set_tree tr n (s : t) : t := Mk (timeline_id s) (tenant_shard_id s) (key_start s) (lsn_range s) tr (blob_writer s) n.

Definition is_empty (self : t) : bool := num_keys self =? 0.

Section writer.
Context `{Zstd}.

Definition put_value_bytes (key : Key) (lsn : Lsn) (val : bytes) (will_init : bool) : M t PutError unit := λ self,
  if r_start (lsn_range self) <=? lsn then
    match BlobWriter.write_blob_maybe_compressed val Disabled (blob_writer self) with
    | (Err e, w) => (Err (PutWriteBlob e), set_blob_writer w self)
    | (Panic, w) => (Panic, set_blob_writer w self)
    | (Ok (off, _), w) =>
        let self := set_blob_writer w self in
        let blob_ref := BlobRef.new off will_init in
        let delta_key := DeltaKey.from_key_lsn key lsn in
        match DiskBtreeBuilder.append DELTA_KEY_SIZE delta_key blob_ref (tree self) with
        | Ok tree => (Ok tt, set_tree tree (num_keys self + 1) self)
        | Err e => (Err (PutOther e), set_tree (tree self) (num_keys self + 1) self)
        | Panic => (Panic, self)
        end
    end
  else (Panic, self).

Definition put_value `{ValueEncoder} (key : Key) (lsn : Lsn) (val : Value) : M t PutError unit :=
  put_value_bytes key lsn (Value_ser val) (Value.will_init val).

Definition size (self : t) : Z := BlobWriter.size (blob_writer self) + blen (DiskBtreeBuilder.writer (tree self)) * PAGE_SZ.
Definition estimated_size (self : t) : Z := size self + PAGE_SZ.

(** The descriptor of the layer, and its file. *)
Definition finish (key_end : Key) (self : t) : result FinishError (PersistentLayerDesc * bytes) :=
  let index_start_blk := wrap 32 (ChunkedVectoredReadBuilder.div_ceil (BlobWriter.size (blob_writer self)) PAGE_SZ) in
  file ← map_err FinishWrite (BlobWriter.shutdown (BufferedWriter.ZeroPadToNextMultiple PAGE_SZ) (blob_writer self)).1;
  index ← match DiskBtreeBuilder.finish DELTA_KEY_SIZE (tree self) with Some r => map_err FinishIndex r | None => Panic end;
  let '(index_root_blk, blocks) := index in
  let file := write_blocks (index_start_blk * PAGE_SZ) blocks file in
  if r_start (lsn_range self) <? r_end (lsn_range self) then
    let summary := DeltaSummary.Mk DELTA_FILE_MAGIC STORAGE_FORMAT_VERSION (Shards.tenant_id (tenant_shard_id self)) (timeline_id self)
                     (mkRange (key_start self) key_end) (lsn_range self) index_start_blk index_root_blk in
    let file := pwrite 0 (DeltaSummary.ser_into_page summary) file in
    if blen file <=? S3_UPLOAD_LIMIT then
      Ok (PersistentLayerDesc.new_delta (tenant_shard_id self) (timeline_id self) (mkRange (key_start self) key_end) (lsn_range self) (blen file), file)
    else Err AboveS3Limit
  else Panic.
End writer.
End DeltaLayerWriter.

(** * Reading *)

Inductive LoadError := ReadFirstBlock | DeserializeFirstBlock | SummaryMismatch.
Inductive RewriteSummaryError := MagicMismatch | RewriteOther.
Inductive PlanError := IndexFailed (e : DiskBtreeError).

Module DeltaLayerInner.
Record t := Mk {
  index_start_blk : Z; index_root_blk : Z; file : bytes; layer_key_range : Range Key; layer_lsn_range : Range Z;
  max_vectored_read_bytes : option Z
}.

Section inner.
Context (disk_reads : Z → Z → bool).

Definition load (file : bytes) (summary : option DeltaSummary.t) (max_vectored_read_bytes : option Z) : result LoadError t :=
  summary_blk ← of_option ReadFirstBlock (FileBlockReader_read_blk disk_reads file 0);
  actual_summary ← of_option DeserializeFirstBlock (DeltaSummary.des_prefix summary_blk);
  _ ← match summary with
      | Some s =>
          let expected_summary :=
            DeltaSummary.Mk (DeltaSummary.magic s) (DeltaSummary.format_version s) (DeltaSummary.tenant_id s) (DeltaSummary.timeline_id actual_summary)
              (DeltaSummary.key_range s) (DeltaSummary.lsn_range s) (DeltaSummary.index_start_blk actual_summary) (DeltaSummary.index_root_blk actual_summary) in
          if decide (actual_summary = expected_summary) then Ok tt else Err SummaryMismatch
      | None => Ok tt
      end;
  Ok (Mk (DeltaSummary.index_start_blk actual_summary) (DeltaSummary.index_root_blk actual_summary) file
        (DeltaSummary.key_range actual_summary) (DeltaSummary.lsn_range actual_summary) max_vectored_read_bytes).

(** [DeltaLayer::rewrite_summary] *)
Definition rewrite_summary (rewrite : DeltaSummary.t → DeltaSummary.t) (file : bytes) : result RewriteSummaryError bytes :=
  summary_blk ← of_option RewriteOther (FileBlockReader_read_blk disk_reads file 0);
  actual_summary ← of_option RewriteOther (DeltaSummary.des_prefix summary_blk);
  if DeltaSummary.magic actual_summary =? DELTA_FILE_MAGIC then
    Ok (pwrite 0 (DeltaSummary.ser_into_page (rewrite actual_summary)) file)
  else Err MagicMismatch.

Definition index_start_offset (self : t) : Z := index_start_blk self * PAGE_SZ.

(** The plan of a range while the index is read: the planner, and whether the end of the
    range was seen.  A panic ends it. *)
Abbreviation PlanState := (result unit (VectoredReadPlanner.t * bool)).

Definition plan_entry (range : Range Key) (lsn_range : Range Z) (raw_key : bytes) (value : Z) (s : PlanState) : bool * PlanState :=
  match (p ← s; key ← Key.from_slice (take KEY_SIZE raw_key); lsn ← DeltaKey.extract_lsn_from_buf raw_key; Ok (p.1, key, lsn)) with
  | Ok (planner, key, lsn) =>
      let blob_ref := value in
      if Key.leb (r_start range) key then
        let outside_lsn_range := negb ((r_start lsn_range <=? lsn) && (lsn <? r_end lsn_range)) in
        let flag := if outside_lsn_range then FlagIgnore else if BlobRef.will_init blob_ref then FlagReplaceAll else FlagNone in
        match (if Key.leb (r_end range) key then Ok true else next ← Key.next key; Ok (bool_decide (next = r_end range) && (r_end lsn_range <=? lsn))) with
        | Ok true => (false, Ok (VectoredReadPlanner.handle_range_end (BlobRef.pos blob_ref) planner, true))
        | Ok false => (true, Ok (VectoredReadPlanner.handle key lsn (BlobRef.pos blob_ref) flag planner, false))
        | _ => (false, Panic)
        end
      else (false, Panic)
  | _ => (false, Panic)
  end.

Definition plan_range (self : t) (lsn_range : Range Z) (range : Range Key) (planner : VectoredReadPlanner.t) : result PlanError VectoredReadPlanner.t :=
  let start_key := DeltaKey.from_key_lsn (r_start range) (r_start lsn_range) in
  match DiskBtreeReader.visit (FileBlockReader_read_blk disk_reads (file self)) (index_start_blk self) (index_root_blk self)
          (plan_entry range lsn_range) start_key Forwards (Ok (planner, false)) with
  | Some (Ok _, Ok (planner, range_end_handled)) =>
      Ok (if range_end_handled : bool then planner else VectoredReadPlanner.handle_range_end (index_start_offset self) planner)
  | Some (Err e, Ok _) => Err (IndexFailed e)
  | _ => Panic
  end.

Fixpoint plan_ranges (self : t) (lsn_range : Range Z) (ranges : KeySpace) (planner : VectoredReadPlanner.t) : result PlanError VectoredReadPlanner.t :=
  match ranges with
  | [] => Ok planner
  | range :: ranges => planner ← plan_range self lsn_range range planner; plan_ranges self lsn_range ranges planner
  end.

Definition plan_reads (self : t) (keyspace : KeySpace) (lsn_range : Range Z) (planner : VectoredReadPlanner.t) : result PlanError (list VectoredRead.t) :=
  planner ← plan_ranges self lsn_range keyspace planner;
  match VectoredReadPlanner.finish planner with Ok reads => Ok reads | _ => Panic end.

Definition get_min_read_buffer_size (planned_reads : list VectoredRead.t) (read_size_soft_max : Z) : Z :=
  match planned_reads with
  | [] => read_size_soft_max
  | read :: reads => foldl (λ n read, Z.max n (VectoredRead.size read)) (VectoredRead.size read) reads
  end.

Section reads.
Context `{Zstd}.

(** One read of [do_reads_and_update_state]. *)
Definition do_read (self : t) (buf_size : Z) (read : VectoredRead.t) : result unit (list Call) :=
  let s := foldl (λ s m, start_io (bm_key m) (bm_lsn m) (bm_will_init m) s) ([], ∅) (rev (snd <$> VecMap.as_slice (VectoredRead.blobs_at read))) in
  complete_read WalRecordOrImage (@rev _) (VectoredBlobReader.read_blobs disk_reads (file self) read buf_size) s.

Fixpoint do_reads (self : t) (buf_size : Z) (reads : list VectoredRead.t) : result unit (list Call) :=
  match reads with
  | [] => Ok []
  | read :: reads => calls ← do_read self buf_size read; rest ← do_reads self buf_size reads; Ok (calls ++ rest)
  end.

Definition do_reads_and_update_state (self : t) (reads : list VectoredRead.t) : result unit (list Call) :=
  match max_vectored_read_bytes self with
  | Some max => do_reads self (get_min_read_buffer_size reads max) (rev reads)
  | None => Panic
  end.

(** The calls of [update_key] that the layer makes. *)
Definition get_values_reconstruct_data (self : t) (keyspace : KeySpace) (lsn_range : Range Z) : result GetVectoredError (list Call) :=
  match max_vectored_read_bytes self with
  | Some max =>
      reads ← map_err (λ _, GvOther) (plan_reads self keyspace lsn_range (VectoredReadPlanner.new max));
      match do_reads_and_update_state self reads with Ok calls => Ok calls | _ => Panic end
  | None => Panic
  end.
End reads.

(** ** The entries of the index *)

Record DeltaEntry := MkEntry { de_key : Key; de_lsn : Lsn; de_size : Z; de_val : Z }.

(** [entry.size] is the position until the next entry is seen. *)
Definition close_last (pos : Z) (all_keys : list DeltaEntry) : list DeltaEntry :=
  match last all_keys with
  | Some e => removelast all_keys ++ [MkEntry (de_key e) (de_lsn e) (wrapping_sub 64 pos (de_size e)) (de_val e)]
  | None => all_keys
  end.

Definition index_entry (raw_key : bytes) (value : Z) (s : result unit (list DeltaEntry)) : bool * result unit (list DeltaEntry) :=
  match (all_keys ← s; delta_key ← DeltaKey.from_slice raw_key; key ← DeltaKey.key delta_key; lsn ← DeltaKey.lsn delta_key; Ok (all_keys, key, lsn)) with
  | Ok (all_keys, key, lsn) =>
      let pos := BlobRef.pos value in
      (true, Ok (close_last pos all_keys ++ [MkEntry key lsn pos value]))
  | _ => (false, Panic)
  end.

Definition index_entries (self : t) : result PlanError (list DeltaEntry) :=
  match DiskBtreeReader.visit (FileBlockReader_read_blk disk_reads (file self)) (index_start_blk self) (index_root_blk self)
          index_entry (replicate DELTA_KEY_SIZE 0) Forwards (Ok []) with
  | Some (Ok _, Ok all_keys) => Ok (close_last (index_start_offset self) all_keys)
  | Some (Err e, Ok _) => Err (IndexFailed e)
  | _ => Panic
  end.
End inner.
End DeltaLayerInner.
