(* ===== verification/DeltaFacts.v ===== *)
(** Facts of delta layers: the keys of their index, and what a layer that was written from
    sorted values gives for a key space and a range of LSNs. *)

From stdpp Require Import gmap.
From S2P Require Import Prelude Text Loops OrdMaps Lsns Keys Shards KeysFacts KeySpaces KeySpaceFacts FileBytes VecMaps LayerCoverage HistoricCoverage LayerMaps.
From S2P Require Import BufferedWriters BufferedWriterFacts DiskBtrees BtreeFacts BtreeBuild BtreeRead BtreeRuns Blobs BlobFacts VectoredBlobs VectoredBlobFacts.
From S2P Require Import WalRedos ReadPaths GcCompactions GcFacts ReadHistories ReadStates LayerReads DeltaLayers.
Local Open Scope Z_scope.

(** ** Keys of the index *)

Definition delta_key_Z (k : Key) (lsn : Z) : Z := key_Z k * 2 ^ 64 + lsn.

Lemma delta_key_len k lsn : length (DeltaKey.from_key_lsn k lsn) = DELTA_KEY_SIZE.
Proof. unfold DeltaKey.from_key_lsn. by rewrite length_app, length_to_bytes, length_be_bytes. Qed.

Lemma delta_key_val k lsn : Key.wf k → u64 lsn → be_val (DeltaKey.from_key_lsn k lsn) = delta_key_Z k lsn.
Proof.
  intros Hk Hl. unfold DeltaKey.from_key_lsn. rewrite be_val_app, length_be_bytes, be_val_to_bytes by done. rewrite (be_val_be_bytes 8) by done. done.
Qed.

Lemma delta_key_cmp a la b lb : Key.wf a → Key.wf b → u64 la → u64 lb →
  bytes_cmp (DeltaKey.from_key_lsn a la) (DeltaKey.from_key_lsn b lb) = (delta_key_Z a la ?= delta_key_Z b lb).
Proof.
  intros Ha Hb Hla Hlb. rewrite bytes_cmp_be_val; [by rewrite !delta_key_val|by rewrite !delta_key_len|..];
    unfold DeltaKey.from_key_lsn; apply Forall_app; split; auto using to_bytes_u8, be_bytes_u8.
Qed.

Lemma delta_key_key k lsn : Key.wf k → Key.from_slice (take KEY_SIZE (DeltaKey.from_key_lsn k lsn)) = Ok k.
Proof.
  intros Hk. unfold DeltaKey.from_key_lsn. rewrite take_app_le by (by rewrite length_to_bytes). rewrite take_ge by (by rewrite length_to_bytes).
  rewrite <-(app_nil_r (Key.to_bytes k)). by apply from_slice_to_bytes.
Qed.

Lemma delta_key_lsn k lsn : u64 lsn → DeltaKey.extract_lsn_from_buf (DeltaKey.from_key_lsn k lsn) = Ok lsn.
Proof.
  intros Hl. unfold DeltaKey.extract_lsn_from_buf, DeltaKey.from_key_lsn. rewrite drop_app_ge by (by rewrite length_to_bytes). rewrite length_to_bytes, Nat.sub_diag.
  change (drop 0 (be_bytes 8 lsn)) with (be_bytes 8 lsn). rewrite decide_True by (by rewrite length_be_bytes). by rewrite (be_val_be_bytes 8).
Qed.

(** ** References to blobs *)

Lemma blob_ref_new p i : 0 ≤ p < 2 ^ 63 → BlobRef.new p i = 2 * p + (if i then 1 else 0).
Proof.
  intros Hp. unfold BlobRef.new, wrap. rewrite Z.shiftl_mul_pow2 by lia. change (2 ^ 1) with 2. rewrite Z.mod_small by lia. destruct i; [|lia].
  rewrite Z.mul_comm. destruct p as [|p|p]; [done| |lia]. done.
Qed.

Lemma blob_ref_pos p i : 0 ≤ p < 2 ^ 63 → BlobRef.pos (BlobRef.new p i) = p.
Proof.
  intros Hp. rewrite blob_ref_new by done. unfold BlobRef.pos. rewrite Z.shiftr_div_pow2 by lia. change (2 ^ 1) with 2.
  symmetry. apply (Z.div_unique _ 2 p (if i then 1 else 0)); destruct i; lia.
Qed.

Lemma blob_ref_init p i : 0 ≤ p < 2 ^ 63 → BlobRef.will_init (BlobRef.new p i) = i.
Proof.
  intros Hp. rewrite blob_ref_new by done. unfold BlobRef.will_init, BlobRef.WILL_INIT. rewrite (Z.land_ones _ 1 ltac:(lia) : Z.land _ 1 = _). change (2 ^ 1) with 2.
  rewrite <-(Z.mod_unique (2 * p + (if i then 1 else 0)) 2 p (if i then 1 else 0)) by (destruct i; lia). by destruct i.
Qed.

(** ** Writing *)

(** A value of a layer: its key, LSN, bytes, and whether it initializes the page. *)
Abbreviation DEntry := (Key * Z * bytes * bool)%type.
Definition e_key (e : DEntry) : Key := e.1.1.1.
Definition e_lsn (e : DEntry) : Z := e.1.1.2.
Definition e_val (e : DEntry) : bytes := e.1.2.
Definition e_init (e : DEntry) : bool := e.2.

Definition entry_wf (e : DEntry) : Prop := Key.wf (e_key e) ∧ u64 (e_lsn e) ∧ blen (e_val e) ≤ MAX_SUPPORTED_BLOB_LEN.
Definition entry_lt (a b : DEntry) : Prop := delta_key_Z (e_key a) (e_lsn a) < delta_key_Z (e_key b) (e_lsn b).
Definition entries_wf (es : list DEntry) : Prop := Forall entry_wf es ∧ StronglySorted entry_lt es.

Section delta.
Context `{ZstdLaws}.

Definition entry_bytes (e : DEntry) : bytes := blob_bytes Disabled (e_val e).
Definition data_of (es : list DEntry) : bytes := concat (entry_bytes <$> es).

(** The pairs of the index, for values from an offset on. *)
Fixpoint index_of (off : Z) (es : list DEntry) : list kv :=
  match es with
  | [] => []
  | e :: es => (DeltaKey.from_key_lsn (e_key e) (e_lsn e), BlobRef.new off (e_init e)) :: index_of (off + blen (entry_bytes e)) es
  end.

Lemma data_of_app es es' : data_of (es ++ es') = data_of es ++ data_of es'.
Proof. unfold data_of. by rewrite fmap_app, concat_app. Qed.

Lemma index_of_app off es es' : index_of off (es ++ es') = index_of off es ++ index_of (off + blen (data_of es)) es'.
Proof.
  revert off. induction es as [|e es IH]; intros off; [cbn; by rewrite Z.add_0_r|]. cbn [app index_of]. rewrite IH. unfold data_of. cbn [fmap list_fmap concat].
  rewrite blen_app, Z.add_assoc. done.
Qed.

Lemma index_of_len off es : length (index_of off es) = length es.
Proof. revert off. induction es as [|e es IH]; intros off; [done|]. cbn. by rewrite IH. Qed.

Lemma index_of_keys off es p : p ∈ index_of off es → ∃ e, e ∈ es ∧ p.1 = DeltaKey.from_key_lsn (e_key e) (e_lsn e).
Proof.
  revert off. induction es as [|e es IH]; intros off; [by intros ?%not_elem_of_nil|]. cbn [index_of]. intros [->|Hp]%elem_of_cons; [exists e; split; [by left|done]|].
  destruct (IH _ Hp) as (e' & He' & Ep). exists e'. split; [by right|done].
Qed.

Lemma index_of_sorted off es : entries_wf es → keys_sorted (index_of off es).
Proof.
  intros [Hwf Hs]. revert off Hwf. induction Hs as [|e es _ IH He]; intros off Hwf; [constructor|]. apply Forall_cons in Hwf as [(Hk & Hl & _) Hwf]. cbn [index_of].
  constructor; [by apply IH|]. apply Forall_forall. intros p (e' & He' & Ep)%index_of_keys. rewrite Forall_forall in He, Hwf. specialize (He e' He').
  destruct (Hwf e' He') as (Hk' & Hl' & _). cbn [fst]. rewrite Ep, delta_key_cmp by done. by apply Z.compare_lt_iff.
Qed.

(** The values [es] were written. *)
Record writer_has (es : list DEntry) (w : DeltaLayerWriter.t) : Prop := {
  wh_blobs : writer_good PAGE_SZ (data_of es) (DeltaLayerWriter.blob_writer w);
  wh_tree : builder_ok DELTA_KEY_SIZE (DeltaLayerWriter.tree w) (index_of PAGE_SZ es);
  wh_pages : pages (DiskBtreeBuilder.writer (DeltaLayerWriter.tree w))
}.

Lemma writer_has_new tl ts ks lr cancels : Forall (λ c, c = false) cancels → writer_has [] (DeltaLayerWriter.new tl ts ks lr cancels).
Proof. intros Hc. split; [by apply writer_new|apply builder_new|constructor]. Qed.

Lemma put_value_bytes_spec es w e : writer_has es w → entries_wf (es ++ [e]) → r_start (DeltaLayerWriter.lsn_range w) ≤ e_lsn e →
  PAGE_SZ + blen (data_of es) < 2 ^ 38 → Z.of_nat (length es) < 2 ^ 64 →
  ∃ w', DeltaLayerWriter.put_value_bytes (e_key e) (e_lsn e) (e_val e) (e_init e) w = (Ok tt, w') ∧ writer_has (es ++ [e]) w' ∧
    DeltaLayerWriter.timeline_id w' = DeltaLayerWriter.timeline_id w ∧ DeltaLayerWriter.tenant_shard_id w' = DeltaLayerWriter.tenant_shard_id w ∧
    DeltaLayerWriter.key_start w' = DeltaLayerWriter.key_start w ∧ DeltaLayerWriter.lsn_range w' = DeltaLayerWriter.lsn_range w.
Proof.
  intros [Hb Ht Hp] Hwf Hl Hsize Hcnt. pose proof Hwf as [[_ [(Hk & Hlsn & Hval) _]%Forall_cons]%Forall_app _]. unfold DeltaLayerWriter.put_value_bytes.
  rewrite (proj2 (Z.leb_le _ _)) by done. destruct (write_blob_good PAGE_SZ _ _ (e_val e) Disabled Hb Hval) as (info & bw & E & Hb'). rewrite E.
  cbn [DeltaLayerWriter.set_blob_writer DeltaLayerWriter.tree]. pose proof (blen_nonneg (data_of es)).
  destruct (append_spec DELTA_KEY_SIZE ltac:(cbn; lia) (DeltaLayerWriter.tree w) (index_of PAGE_SZ es) (DeltaKey.from_key_lsn (e_key e) (e_lsn e))
    (BlobRef.new (PAGE_SZ + blen (data_of es)) (e_init e)) Ht) as (tree & Ea & Ht').
  - pose proof (index_of_sorted PAGE_SZ _ Hwf) as Hs. by rewrite index_of_app in Hs.
  - apply delta_key_len.
  - rewrite blob_ref_new by (unfold PAGE_SZ in *; lia). unfold MAX_VALUE, PAGE_SZ in *. destruct (e_init e); lia.
  - by rewrite index_of_len.
  - rewrite Ea. eexists. split; [done|]. split; [|done]. split; cbn.
    + rewrite data_of_app. unfold data_of at 2. cbn. by rewrite app_nil_r.
    + by rewrite index_of_app.
    + by apply (append_pages _ _ _ _ _ Hp Ea).
Qed.

Fixpoint put_values (es : list DEntry) : M DeltaLayerWriter.t PutError unit :=
  match es with
  | [] => mret tt
  | e :: es => _ ← DeltaLayerWriter.put_value_bytes (e_key e) (e_lsn e) (e_val e) (e_init e); put_values es
  end.

Lemma data_len es : Forall entry_wf es → Z.of_nat (length es) ≤ blen (data_of es).
Proof.
  induction 1 as [|e es (_ & _ & He) _ IH]; [done|]. unfold data_of. cbn [fmap list_fmap concat length]. rewrite blen_app. pose proof (blob_bytes_nonempty _ Disabled He).
  unfold data_of in IH. unfold entry_bytes at 1. lia.
Qed.

Lemma put_values_spec es es0 w : writer_has es0 w → entries_wf (es0 ++ es) → Forall (λ e, r_start (DeltaLayerWriter.lsn_range w) ≤ e_lsn e) es →
  PAGE_SZ + blen (data_of (es0 ++ es)) < 2 ^ 38 →
  ∃ w', put_values es w = (Ok tt, w') ∧ writer_has (es0 ++ es) w' ∧
    DeltaLayerWriter.timeline_id w' = DeltaLayerWriter.timeline_id w ∧ DeltaLayerWriter.tenant_shard_id w' = DeltaLayerWriter.tenant_shard_id w ∧
    DeltaLayerWriter.key_start w' = DeltaLayerWriter.key_start w ∧ DeltaLayerWriter.lsn_range w' = DeltaLayerWriter.lsn_range w.
Proof.
  revert es0 w. induction es as [|e es IH]; intros es0 w Hw Hwf Hl Hsize; [exists w; by rewrite app_nil_r|].
  replace (es0 ++ e :: es) with ((es0 ++ [e]) ++ es) in * by (by rewrite <-app_assoc). apply Forall_cons in Hl as [Hle Hl].
  pose proof Hwf as [[[Hwf0 He]%Forall_app Hwf1]%Forall_app (_ & Hs & _)%StronglySorted_app].
  rewrite !data_of_app, !blen_app in Hsize. pose proof (blen_nonneg (data_of [e])). pose proof (blen_nonneg (data_of es)). pose proof (data_len es0 Hwf0).
  destruct (put_value_bytes_spec es0 w e Hw) as (w1 & E1 & Hw1 & F1 & F2 & F3 & F4); [split; [by apply Forall_app|done]|done|lia|unfold PAGE_SZ in *; lia|].
  cbn [put_values]. rewrite (M_bind_ok _ _ _ _ _ E1).
  destruct (IH _ _ Hw1 Hwf) as (w' & E & Hw' & G1 & G2 & G3 & G4); [by rewrite F4|by rewrite !data_of_app, !blen_app|].
  exists w'. split_and!; [done|done|congruence..].
Qed.

(** The summary that [finish] writes. *)
Definition summary_of (w : DeltaLayerWriter.t) (key_end : Key) (es : list DEntry) (root : Z) : DeltaSummary.t :=
  DeltaSummary.Mk DELTA_FILE_MAGIC STORAGE_FORMAT_VERSION (Shards.tenant_id (DeltaLayerWriter.tenant_shard_id w)) (DeltaLayerWriter.timeline_id w)
    (mkRange (DeltaLayerWriter.key_start w) key_end) (DeltaLayerWriter.lsn_range w) (index_blk (data_of es)) root.

Lemma summary_ser_len s : length (DeltaSummary.tenant_id s) = 16%nat → length (DeltaSummary.timeline_id s) = 16%nat → blen (DeltaSummary.ser s) = 96.
Proof.
  intros H1 H2. unfold DeltaSummary.ser, ser_key_range, ser_key, blen. rewrite !length_app, !length_be_bytes, !length_to_bytes, H1, H2. done.
Qed.

Lemma summary_page_len ser : blen ser ≤ PAGE_SZ → blen (summary_page ser) = PAGE_SZ.
Proof. intros Hs. unfold summary_page. rewrite blen_app, blen_zeros by lia. lia. Qed.

(** The index of a file, as the visits see it. *)
Definition index_reads (kvs : list kv) (root : Z) (blocks : list bytes) : Prop :=
  ∀ start_blk read_blk, stored blocks start_blk read_blk → ∀ (S : Type) visitor key dir (s : S),
    DiskBtreeReader.visit read_blk start_blk root visitor key dir s =
    Some (let '(g, s) := feed visitor (matching key dir kvs) s in (Ok (visit_answer dir (matching key dir kvs) g), s)).

Lemma finish_eq w key_end idx f0 bw root blocks :
  wrap 32 (ChunkedVectoredReadBuilder.div_ceil (BlobWriter.size (DeltaLayerWriter.blob_writer w)) PAGE_SZ) = idx →
  BlobWriter.shutdown (BufferedWriter.ZeroPadToNextMultiple PAGE_SZ) (DeltaLayerWriter.blob_writer w) = (Ok f0, bw) →
  DiskBtreeBuilder.finish DELTA_KEY_SIZE (DeltaLayerWriter.tree w) = Some (Ok (root, blocks)) →
  r_start (DeltaLayerWriter.lsn_range w) < r_end (DeltaLayerWriter.lsn_range w) →
  DeltaLayerWriter.finish key_end w =
    let summary := DeltaSummary.Mk DELTA_FILE_MAGIC STORAGE_FORMAT_VERSION (Shards.tenant_id (DeltaLayerWriter.tenant_shard_id w)) (DeltaLayerWriter.timeline_id w)
                     (mkRange (DeltaLayerWriter.key_start w) key_end) (DeltaLayerWriter.lsn_range w) idx root in
    let f := pwrite 0 (DeltaSummary.ser_into_page summary) (write_blocks (idx * PAGE_SZ) blocks f0) in
    if blen f <=? S3_UPLOAD_LIMIT then
      Ok (PersistentLayerDesc.new_delta (DeltaLayerWriter.tenant_shard_id w) (DeltaLayerWriter.timeline_id w)
            (mkRange (DeltaLayerWriter.key_start w) key_end) (DeltaLayerWriter.lsn_range w) (blen f), f)
    else Err AboveS3Limit.
Proof.
  intros Hi Hs Hf Hl. unfold DeltaLayerWriter.finish. rewrite Hi, Hs, Hf. apply Z.ltb_lt in Hl. cbn [fst map_err mbind result_bind]. rewrite Hl. reflexivity.
Qed.

Lemma writer_finish es w key_end : writer_has es w → entries_wf es → es ≠ [] → r_start (DeltaLayerWriter.lsn_range w) < r_end (DeltaLayerWriter.lsn_range w) →
  length (Shards.tenant_id (DeltaLayerWriter.tenant_shard_id w)) = 16%nat → length (DeltaLayerWriter.timeline_id w) = 16%nat → PAGE_SZ + blen (data_of es) < 2 ^ 38 →
  ∃ root blocks, u32 root ∧ pages blocks ∧ index_reads (index_of PAGE_SZ es) root blocks ∧
    let f := layer_file (DeltaSummary.ser_into_page (summary_of w key_end es root)) (data_of es) blocks in
    DeltaLayerWriter.finish key_end w =
      if blen f <=? S3_UPLOAD_LIMIT then
        Ok (PersistentLayerDesc.new_delta (DeltaLayerWriter.tenant_shard_id w) (DeltaLayerWriter.timeline_id w)
              (mkRange (DeltaLayerWriter.key_start w) key_end) (DeltaLayerWriter.lsn_range w) (blen f), f)
      else Err AboveS3Limit.
Proof.
  intros [Hb Ht Hp] Hwf Hne Hlsn Hten Htl Hsize. pose proof (data_len es (proj1 Hwf)) as Hlen. pose proof (blen_nonneg (data_of es)).
  destruct (finish_visit DELTA_KEY_SIZE (DeltaLayerWriter.tree w) (index_of PAGE_SZ es)) as (root & blocks & Ef & Hroot & Hv).
  - cbn; lia.
  - done.
  - by destruct es.
  - by apply index_of_sorted.
  - rewrite index_of_len. unfold PAGE_SZ in *. lia.
  - pose proof (finish_pages _ _ _ _ Hp Ef) as Hpages. exists root, blocks. split; [unfold in_u; lia|]. split_and!; [done|done|].
    destruct (index_blk_ceil (data_of es) ltac:(unfold PAGE_SZ in *; lia)) as [Ei Hi]. destruct (writer_shutdown PAGE_SZ _ _ Hb) as (f0 & bw & Es & Hd).
    assert (data_of es ≠ []) as Hdne by (destruct es; [done|]; intros E; rewrite E in Hlen; change (blen (@nil Z)) with 0 in Hlen; cbn [length] in Hlen; lia).
    assert (blen (DeltaSummary.ser_into_page (summary_of w key_end es root)) = PAGE_SZ) as Hpg by (unfold DeltaSummary.ser_into_page; apply summary_page_len; rewrite summary_ser_len by done; done).
    pose proof (finished_file _ _ _ Hpg Hpages f0 Hd Hdne) as Eff.
    pose proof Hb as (_ & Eo & _). cbv zeta. rewrite (finish_eq w key_end (index_blk (data_of es)) f0 bw root blocks); [|unfold BlobWriter.size; by rewrite Eo|done..].
    cbv zeta. unfold summary_of in *. by rewrite Eff.
Qed.

(** ** Loading *)

Definition summary_wf (s : DeltaSummary.t) : Prop :=
  u16 (DeltaSummary.magic s) ∧ u16 (DeltaSummary.format_version s) ∧ length (DeltaSummary.tenant_id s) = 16%nat ∧ length (DeltaSummary.timeline_id s) = 16%nat ∧
  Key.wf (r_start (DeltaSummary.key_range s)) ∧ Key.wf (r_end (DeltaSummary.key_range s)) ∧ u64 (r_start (DeltaSummary.lsn_range s)) ∧
  u64 (r_end (DeltaSummary.lsn_range s)) ∧ u32 (DeltaSummary.index_start_blk s) ∧ u32 (DeltaSummary.index_root_blk s).

Lemma summary_roundtrip s : summary_wf s → DeltaSummary.des_prefix (DeltaSummary.ser_into_page s) = Some s.
Proof.
  destruct s as [m v ten tl [ks ke] [ls le] ib rb]. intros (H1 & H2 & H3 & H4 & H5 & H6 & H7 & H8 & H9 & H10).
  unfold DeltaSummary.ser_into_page, summary_page. set (rest := zeros _). clearbody rest. unfold DeltaSummary.ser, DeltaSummary.des_prefix, ser_key_range.
  cbn [DeltaSummary.magic DeltaSummary.format_version DeltaSummary.tenant_id DeltaSummary.timeline_id DeltaSummary.key_range DeltaSummary.lsn_range
    DeltaSummary.index_start_blk DeltaSummary.index_root_blk r_start r_end] in *. rewrite <-!app_assoc.
  rewrite (des_int_app 2 2 m) by done. cbn [mbind option_bind]. rewrite (des_int_app 2 2 v) by done. cbn [mbind option_bind].
  rewrite (take_field_app 16 ten) by (unfold blen; by rewrite H3). cbn [mbind option_bind]. rewrite (take_field_app 16 tl) by (unfold blen; by rewrite H4). cbn [mbind option_bind].
  rewrite (des_key_app ks) by done. cbn [mbind option_bind]. rewrite (des_key_app ke) by done. cbn [mbind option_bind].
  rewrite (des_int_app 8 8 ls) by done. cbn [mbind option_bind]. rewrite (des_int_app 8 8 le) by done. cbn [mbind option_bind].
  rewrite (des_int_app 4 4 ib) by done. cbn [mbind option_bind]. rewrite (des_int_app 4 4 rb) by done. done.
Qed.

(** A file that was written is loaded: its tenant and ranges are the expected ones. *)
Lemma load_spec disk_reads s data blocks max : summary_wf s → (∀ n, disk_reads (n * PAGE_SZ) PAGE_SZ = true) → pages blocks →
  DeltaSummary.magic s = DELTA_FILE_MAGIC → DeltaSummary.format_version s = STORAGE_FORMAT_VERSION → ∀ tl,
  let f := layer_file (DeltaSummary.ser_into_page s) data blocks in
  DeltaLayerInner.load disk_reads f (Some (DeltaSummary.expected (DeltaSummary.tenant_id s) tl (DeltaSummary.key_range s) (DeltaSummary.lsn_range s))) max =
  Ok (DeltaLayerInner.Mk (DeltaSummary.index_start_blk s) (DeltaSummary.index_root_blk s) f (DeltaSummary.key_range s) (DeltaSummary.lsn_range s) max).
Proof.
  intros Hs Hd Hp Hm Hv tl. cbv zeta. unfold DeltaLayerInner.load.
  assert (blen (DeltaSummary.ser_into_page s) = PAGE_SZ) as Hpg by (unfold DeltaSummary.ser_into_page; apply summary_page_len; rewrite summary_ser_len by apply Hs; done).
  rewrite (layer_file_page _ data blocks Hpg disk_reads (Hd 0)). cbn [of_option mbind result_bind]. rewrite summary_roundtrip by done. cbn [of_option mbind result_bind].
  rewrite decide_True; [done|]. destruct s; cbn in *. by subst.
Qed.
End delta.
