(* ===== verification/DeltaReadFacts.v ===== *)
(** What a delta layer gives: the plan of a read over its index, and the calls for the
    values of a key. *)

From stdpp Require Import gmap.
From S2P Require Import Prelude Text Loops OrdMaps Lsns Keys Shards KeysFacts KeySpaces KeySpaceFacts FileBytes VecMaps LayerCoverage HistoricCoverage LayerMaps.
From S2P Require Import BufferedWriters BufferedWriterFacts DiskBtrees BtreeFacts BtreeBuild BtreeRead BtreeRuns Blobs BlobFacts VectoredBlobs VectoredBlobFacts.
From S2P Require Import WalRedos ReadPaths GcCompactions GcFacts GcSafety ReadHistories ReadStates LayerReads DeltaLayers DeltaFacts.
Local Open Scope Z_scope.

(** ** The plan of a range *)

Lemma StronglySorted_bfilter {A} (R : A → A → Prop) (f : A → bool) l : StronglySorted R l → StronglySorted R (List.filter f l).
Proof.
  induction 1 as [|x l _ IH Hx]; [constructor|]. cbn [List.filter]. destruct (f x); [|done]. constructor; [done|]. rewrite Forall_forall in *.
  intros y [Hy _]%list_elem_of_In%List.filter_In. by apply Hx, list_elem_of_In.
Qed.

Lemma ev_add_set_prev e q p : ev_add e (VectoredReadPlanner.set_prev q p) = VectoredReadPlanner.set_prev q (ev_add e p).
Proof. unfold ev_add, VectoredReadPlanner.add_blob. by destruct (ev_flag e). Qed.

Lemma ev_adds_set_prev evs q p : foldl (λ p e, ev_add e p) (VectoredReadPlanner.set_prev q p) evs = VectoredReadPlanner.set_prev q (foldl (λ p e, ev_add e p) p evs).
Proof. revert p. induction evs as [|e evs IH]; intros p; [done|]. cbn. by rewrite ev_add_set_prev, IH. Qed.

(** A value with where it starts in the file. *)
Abbreviation Placed := (DEntry * Z)%type.

Section delta.
Context `{ZstdLaws}.

Fixpoint place (off : Z) (es : list DEntry) : list Placed :=
  match es with
  | [] => []
  | e :: es => (e, off) :: place (off + blen (entry_bytes e)) es
  end.

Definition kv_of (x : Placed) : kv := (DeltaKey.from_key_lsn (e_key x.1) (e_lsn x.1), BlobRef.new x.2 (e_init x.1)).

Lemma index_of_place off es : index_of off es = kv_of <$> place off es.
Proof. revert off. induction es as [|e es IH]; intros off; [done|]. cbn. by rewrite IH. Qed.

(** Where the next value starts; [D] after the last one. *)
Definition first_start (D : Z) (xs : list Placed) : Z := match xs with x :: _ => x.2 | [] => D end.
Fixpoint with_next (D : Z) (xs : list Placed) : list (Placed * Z) :=
  match xs with
  | [] => []
  | x :: xs => (x, first_start D xs) :: with_next D xs
  end.

Section range.
Context (D : Z) (lr : Range Z) (range : Range Key).

Definition flag_of (e : DEntry) : BlobFlag :=
  if negb ((r_start lr <=? e_lsn e) && (e_lsn e <? r_end lr)) then FlagIgnore else if e_init e then FlagReplaceAll else FlagNone.
Definition event_of (n : Placed * Z) : Event := MkEvent (e_key n.1.1) (e_lsn n.1.1) n.1.2 n.2 (flag_of n.1.1).

(** The end of the range. *)
Definition ends_range (e : DEntry) : bool :=
  Key.leb (r_end range) (e_key e) || match Key.next (e_key e) with Ok next => bool_decide (next = r_end range) && (r_end lr <=? e_lsn e) | _ => false end.

Fixpoint take_until (ns : list (Placed * Z)) : list (Placed * Z) :=
  match ns with
  | [] => []
  | n :: ns => if ends_range n.1.1 then [] else n :: take_until ns
  end.

Definition plan_result (s : bool * result unit (VectoredReadPlanner.t * bool)) : result unit VectoredReadPlanner.t :=
  '(p, handled) ← s.2; Ok (if handled : bool then p else VectoredReadPlanner.handle_range_end D p).

(** Values that the index can have. *)
Definition placed_ok (x : Placed) : Prop :=
  Key.wf (e_key x.1) ∧ u64 (e_lsn x.1) ∧ 0 ≤ x.2 < 2 ^ 63 ∧ (∃ k', Key.next (e_key x.1) = Ok k').

Lemma plan_entry_spec x p : placed_ok x → Key.leb (r_start range) (e_key x.1) = true →
  DeltaLayerInner.plan_entry range lr (kv_of x).1 (kv_of x).2 (Ok (p, false)) =
  if ends_range x.1 then (false, Ok (VectoredReadPlanner.handle_range_end x.2 p, true))
  else (true, Ok (VectoredReadPlanner.handle (e_key x.1) (e_lsn x.1) x.2 (flag_of x.1) p, false)).
Proof.
  intros (Hk & Hl & Hpos & k' & Hn) Hge. unfold DeltaLayerInner.plan_entry, kv_of. cbn [fst snd mbind result_bind].
  rewrite delta_key_key by done. cbn [mbind result_bind]. rewrite delta_key_lsn by done. cbn [mbind result_bind]. rewrite Hge, blob_ref_pos, blob_ref_init by done.
  unfold ends_range, flag_of. rewrite Hn. cbn [mbind result_bind]. destruct (Key.leb (r_end range) (e_key x.1)); cbn [orb]; [done|]. by destruct (_ && _).
Qed.

Lemma feed_plan xs p : Forall placed_ok xs → Forall (λ x, Key.leb (r_start range) (e_key x.1) = true) xs →
  plan_result (feed (DeltaLayerInner.plan_entry range lr) (kv_of <$> xs) (Ok (p, false))) =
  Ok (VectoredReadPlanner.set_prev None (foldl (λ p e, ev_add e p) (VectoredReadPlanner.add_prev (first_start D xs) p) (event_of <$> take_until (with_next D xs)))).
Proof.
  revert p. induction xs as [|x xs IH]; intros p Hok Hge; [done|]. apply Forall_cons in Hok as [Hx Hok], Hge as [Hgx Hge].
  cbn [fmap list_fmap feed]. pose proof (plan_entry_spec x p Hx Hgx) as E. destruct (kv_of x) as [k v] eqn:Ekv. cbn [fst snd] in E. rewrite E.
  cbn [with_next take_until fst]. destruct (ends_range x.1); [done|]. fold (kv_of <$> xs). rewrite IH by done. f_equal. cbn [fmap list_fmap foldl first_start].
  set (p0 := VectoredReadPlanner.add_prev x.2 p). set (q := Some (e_key x.1, e_lsn x.1, x.2, flag_of x.1)).
  change (VectoredReadPlanner.handle (e_key x.1) (e_lsn x.1) x.2 (flag_of x.1) p) with (VectoredReadPlanner.set_prev q p0).
  change (VectoredReadPlanner.add_prev (first_start D xs) (VectoredReadPlanner.set_prev q p0))
    with (ev_add (event_of (x, first_start D xs)) (VectoredReadPlanner.set_prev q p0)).
  by rewrite ev_add_set_prev, ev_adds_set_prev.
Qed.
End range.

(** ** The values of a file *)

Lemma place_elem off es x : x ∈ place off es → x.1 ∈ es ∧ ∃ y z, data_of es = y ++ entry_bytes x.1 ++ z ∧ x.2 = off + blen y.
Proof.
  revert off. induction es as [|e es IH]; intros off; cbn [place]; [by intros ?%not_elem_of_nil|]. intros [->|Hx]%elem_of_cons.
  - split; [by left|]. exists [], (data_of es). split; [done|]. change (blen (@nil Z)) with 0. cbn [snd]. lia.
  - destruct (IH _ Hx) as (He & y & z & Ed & Eo). split; [by right|]. exists (entry_bytes e ++ y), z. unfold data_of in *. cbn [fmap list_fmap concat].
    rewrite Ed, <-!app_assoc, blen_app. split; [done|lia].
Qed.

Lemma place_fst off es : fst <$> place off es = es.
Proof. revert off. induction es as [|e es IH]; intros off; [done|]. cbn. by rewrite IH. Qed.

Lemma place_positions off es : Forall entry_wf es → NoDup (snd <$> place off es).
Proof.
  intros Hwf. revert off. induction Hwf as [|e es (_ & _ & Hmax) _ IH]; intros off; [constructor|]. cbn [place fmap list_fmap]. constructor; [|apply IH].
  intros (x & E & Hx)%list_elem_of_fmap. apply place_elem in Hx as (_ & y & _ & _ & Ex). pose proof (blob_bytes_nonempty _ Disabled Hmax). pose proof (blen_nonneg y).
  cbn in E. unfold entry_bytes in *. lia.
Qed.

Lemma with_next_fst D xs : fst <$> with_next D xs = xs.
Proof. induction xs as [|x xs IH]; [done|]. cbn. by rewrite IH. Qed.

(** In the order of the file: the next value starts where one ends. *)
Definition next_lt (a b : Placed * Z) : Prop := entry_lt a.1.1 b.1.1 ∧ a.2 ≤ b.1.2.
Definition next_ok (D : Z) (n : Placed * Z) : Prop := n.1.2 + blen (entry_bytes n.1.1) ≤ n.2 ≤ D.

Lemma first_start_place D off es : off + blen (data_of es) ≤ D → off ≤ first_start D (place off es) ≤ D.
Proof. pose proof (blen_nonneg (data_of es)). destruct es as [|e es]; cbn [place first_start snd]; lia. Qed.

Lemma place_order D off es : entries_wf es → off + blen (data_of es) ≤ D →
  StronglySorted next_lt (with_next D (place off es)) ∧ Forall (λ n, off ≤ n.1.2 ∧ next_ok D n) (with_next D (place off es)).
Proof.
  intros [Hwf Hs]. revert off Hwf. induction Hs as [|e es _ IH He]; intros off Hwf HD; [by split; constructor|]. apply Forall_cons in Hwf as [Hw Hwf].
  assert (blen (data_of (e :: es)) = blen (entry_bytes e) + blen (data_of es)) as El by (unfold data_of; cbn [fmap list_fmap concat]; by rewrite blen_app).
  pose proof (blen_nonneg (entry_bytes e)). destruct (IH (off + blen (entry_bytes e)) Hwf) as [Hsort Hall]; [lia|]. cbn [place with_next].
  assert (off + blen (entry_bytes e) ≤ first_start D (place (off + blen (entry_bytes e)) es) ≤ D) as Hfs by (apply first_start_place; lia). split.
  - constructor; [done|]. apply Forall_forall. intros n Hn. split.
    + cbn. rewrite Forall_forall in He. apply He. assert (n.1 ∈ place (off + blen (entry_bytes e)) es) as Hn1 by (rewrite <-(with_next_fst D); by apply list_elem_of_fmap_2).
      by apply place_elem in Hn1 as [? _].
    + cbn [fst snd]. destruct es as [|e' es]; [by apply not_elem_of_nil in Hn|]. cbn [place first_start snd]. rewrite Forall_forall in Hall. by apply Hall.
  - constructor; [cbn [fst snd]; unfold next_ok; cbn [fst snd]; lia|]. eapply Forall_impl; [exact Hall|]. cbn. intros n [Hn ?]. split; [lia|done].
Qed.

(** The values from a key of the index on. *)
Lemma filter_from kz key xs : Forall placed_ok xs → Key.wf key.1 → u64 key.2 → kz = delta_key_Z key.1 key.2 →
  List.filter (from (DeltaKey.from_key_lsn key.1 key.2)) (kv_of <$> xs) = kv_of <$> List.filter (λ x, kz <=? delta_key_Z (e_key x.1) (e_lsn x.1)) xs.
Proof.
  intros Hok Hk Hl ->. induction Hok as [|x xs (Hxk & Hxl & _) _ IH]; [done|]. cbn [fmap list_fmap List.filter]. fold (kv_of <$> xs). rewrite IH. unfold from. cbn [kv_of fst].
  rewrite delta_key_cmp by done. destruct (Z.leb_spec (delta_key_Z key.1 key.2) (delta_key_Z (e_key x.1) (e_lsn x.1))); destruct (Z.compare_spec (delta_key_Z (e_key x.1) (e_lsn x.1)) (delta_key_Z key.1 key.2)); try lia; done.
Qed.

Lemma with_next_from D kz xs : StronglySorted (λ a b, entry_lt a.1 b.1) xs →
  with_next D (List.filter (λ x, kz <=? delta_key_Z (e_key x.1) (e_lsn x.1)) xs) =
  List.filter (λ n, kz <=? delta_key_Z (e_key n.1.1) (e_lsn n.1.1)) (with_next D xs).
Proof.
  induction 1 as [|x xs _ IH Hx]; [done|]. cbn [with_next List.filter fst]. destruct (Z.leb_spec kz (delta_key_Z (e_key x.1) (e_lsn x.1))) as [Hle|]; [|done].
  cbn [with_next]. rewrite Forall_forall in Hx. f_equal; [|done]. f_equal. f_equal. apply filter_true. intros y Hy. specialize (Hx y Hy). unfold entry_lt in Hx. lia.
Qed.

(** ** The values of a range *)

Lemma key_next_ok k k' : Key.wf k → Key.next k = Ok k' → Key.wf k' ∧ key_Z k' = key_Z k + 1.
Proof. intros Hk Hn. pose proof (key_add_Z k 1 Hk ltac:(by vm_compute)) as Ha. unfold Key.next in Hn. rewrite Hn in Ha. case_match; [|done]. by destruct Ha as (? & [= <-] & ? & ?). Qed.

Lemma delta_key_le k lsn k' lsn' : u64 lsn → u64 lsn' → delta_key_Z k lsn ≤ delta_key_Z k' lsn' → key_Z k ≤ key_Z k' ∧ (key_Z k = key_Z k' → lsn ≤ lsn').
Proof. unfold delta_key_Z, in_u. cbn. lia. Qed.

Section ranges.
Context (D : Z) (lr : Range Z).

(** A value that the plan of a range looks at. *)
Definition selected (range : Range Key) (n : Placed * Z) : bool :=
  (delta_key_Z (r_start range) (r_start lr) <=? delta_key_Z (e_key n.1.1) (e_lsn n.1.1)) && negb (ends_range lr range n.1.1).

Lemma ends_range_Z range x : placed_ok x → Key.wf (r_end range) →
  ends_range lr range x.1 = true ↔ key_Z (r_end range) ≤ key_Z (e_key x.1) ∨ key_Z (e_key x.1) + 1 = key_Z (r_end range) ∧ r_end lr ≤ e_lsn x.1.
Proof.
  intros (Hk & _ & _ & k' & Hn) He. unfold ends_range. rewrite Hn, orb_true_iff, andb_true_iff, leb_key_Z, !Z.leb_le, bool_decide_eq_true by done.
  destruct (key_next_ok _ _ Hk Hn) as [Hk' Ek']. split; (intros [?|[E ?]]; [by left|right; split; [|done]]).
  - by rewrite <-E, Ek'.
  - apply key_Z_inj; [done..|lia].
Qed.

(** Once the end of the range is reached, it is. *)
Lemma ends_range_mono range x y : placed_ok x → placed_ok y → Key.wf (r_end range) → entry_lt x.1 y.1 → ends_range lr range x.1 = true → ends_range lr range y.1 = true.
Proof.
  intros Hx Hy He Hlt. rewrite !ends_range_Z by done. destruct Hx as (_ & Hlx & _), Hy as (_ & Hly & _).
  destruct (delta_key_le (e_key x.1) (e_lsn x.1) (e_key y.1) (e_lsn y.1) Hlx Hly) as [H1 H2]; [unfold entry_lt in Hlt; lia|]. intros [?|[? ?]]; [left; lia|].
  destruct (decide (key_Z (r_end range) ≤ key_Z (e_key y.1))); [by left|right]. split; [lia|]. specialize (H2 ltac:(lia)). lia.
Qed.

Lemma take_until_filter range ns : StronglySorted next_lt ns → Forall (λ n, placed_ok n.1) ns → Key.wf (r_end range) →
  take_until lr range ns = List.filter (λ n, negb (ends_range lr range n.1.1)) ns.
Proof.
  intros Hs Hok He. induction Hs as [|n ns _ IH Hn]; [done|]. apply Forall_cons in Hok as [Hx Hok]. cbn [take_until List.filter]. destruct (ends_range lr range n.1.1) eqn:Ee; cbn [negb].
  - symmetry. apply filter_false. intros m Hm. apply negb_false_iff. rewrite Forall_forall in Hn, Hok. apply (ends_range_mono range n.1); [done|by apply Hok|done|by apply Hn|done].
  - by rewrite IH.
Qed.

Lemma filter_andb {A} (f g : A → bool) l : List.filter (λ x, f x && g x) l = List.filter g (List.filter f l).
Proof. induction l as [|x l IH]; [done|]. cbn [List.filter]. destruct (f x); cbn [andb List.filter]; [destruct (g x)|]; by rewrite ?IH. Qed.
End ranges.

(** ** A file *)

(** The layer was written with these values. *)
Record layer_ok (disk_reads : Z → Z → bool) (es : list DEntry) (inner : DeltaLayerInner.t) : Prop := {
  lo_wf : entries_wf es;
  lo_next : Forall (λ e, ∃ k', Key.next (e_key e) = Ok k') es;
  lo_file : ∃ page blocks, blen page = PAGE_SZ ∧ pages blocks ∧ DeltaLayerInner.file inner = layer_file page (data_of es) blocks ∧
    index_reads (index_of PAGE_SZ es) (DeltaLayerInner.index_root_blk inner) blocks;
  lo_start : DeltaLayerInner.index_start_blk inner = index_blk (data_of es);
  lo_size : blen (DeltaLayerInner.file inner) ≤ S3_UPLOAD_LIMIT;
  lo_disk : ∀ n, disk_reads (n * PAGE_SZ) PAGE_SZ = true
}.

Section layer.
Context (disk_reads : Z → Z → bool) (es : list DEntry) (inner : DeltaLayerInner.t) (ok : layer_ok disk_reads es inner).
Context (lr : Range Z) (lsn_start : u64 (r_start lr)).

Abbreviation D := (DeltaLayerInner.index_start_offset inner).
Abbreviation N := (with_next D (place PAGE_SZ es)).

Lemma data_end : D = PAGE_SZ + blen (data_of es ++ padding (data_of es)) ∧ D ≤ blen (DeltaLayerInner.file inner) ∧ 0 ≤ D < 2 ^ 63 ∧ D mod CHUNK = 0.
Proof.
  destruct (lo_file _ _ _ ok) as (page & blocks & Hp & Hb & Ef & _). unfold DeltaLayerInner.index_start_offset. rewrite (lo_start _ _ _ ok). pose proof (lo_size _ _ _ ok) as Hs.
  destruct (index_blk_spec (data_of es)) as [E1 E2]. pose proof (layer_file_len page (data_of es) blocks Hp) as El. rewrite Ef in *. pose proof (blen_nonneg (concat blocks)).
  split_and!; [done|lia|unfold PAGE_SZ; lia|unfold S3_UPLOAD_LIMIT in *; lia|]. change PAGE_SZ with (16 * CHUNK). rewrite Z.mul_assoc. apply Z_mod_mult.
Qed.

Lemma place_ok : StronglySorted next_lt N ∧ Forall (λ n, PAGE_SZ ≤ n.1.2 ∧ next_ok D n) N ∧ Forall placed_ok (place PAGE_SZ es).
Proof.
  destruct data_end as (Ed & _ & HD & _). pose proof (blen_nonneg (padding (data_of es))). rewrite blen_app in Ed.
  destruct (place_order D PAGE_SZ es (lo_wf _ _ _ ok) ltac:(lia)) as [Hs Hall]. split_and!; [done..|].
  apply Forall_forall. intros x Hx. rewrite <-(with_next_fst D) in Hx. apply list_elem_of_fmap in Hx as (n & -> & Hn). rewrite Forall_forall in Hall. destruct (Hall n Hn) as [Hn1 Hn2].
  assert (n.1 ∈ place PAGE_SZ es) as Hx by (rewrite <-(with_next_fst D); by apply list_elem_of_fmap_2). apply place_elem in Hx as [Hx _].
  destruct (lo_wf _ _ _ ok) as [Hwf _]. pose proof (lo_next _ _ _ ok) as Hnx. rewrite Forall_forall in Hwf, Hnx. destruct (Hwf _ Hx) as (? & ? & ?).
  pose proof (blen_nonneg (entry_bytes n.1.1)). unfold next_ok, PAGE_SZ in *. split; [done|]. split; [done|]. split; [lia|by apply Hnx].
Qed.

Lemma next_placed_ok : Forall (λ n, placed_ok n.1) N.
Proof.
  destruct place_ok as (_ & _ & Hp). apply Forall_forall. intros n Hn. rewrite Forall_forall in Hp. apply Hp. rewrite <-(with_next_fst D (place PAGE_SZ es)).
  by apply list_elem_of_fmap_2.
Qed.

Lemma placed_sorted : StronglySorted (λ a b, entry_lt a.1 b.1) (place PAGE_SZ es).
Proof.
  destruct place_ok as (Hs & _ & _). rewrite <-(with_next_fst D (place PAGE_SZ es)). induction Hs as [|n ns _ IH Hn]; [constructor|]. constructor; [done|].
  apply Forall_fmap. eapply Forall_impl; [exact Hn|]. by intros m [? _].
Qed.

Lemma plan_range_spec range p : Key.wf (r_start range) → Key.wf (r_end range) → VectoredReadPlanner.prev p = None →
  DeltaLayerInner.plan_range disk_reads inner lr range p =
  Ok (VectoredReadPlanner.set_prev None (foldl (λ p e, ev_add e p) p (event_of lr <$> List.filter (selected lr range) N))).
Proof.
  intros Hks Hke Hprev. destruct (lo_file _ _ _ ok) as (page & blocks & Hp & Hb & Ef & Hv). pose proof (lo_size _ _ _ ok) as Hsz. destruct place_ok as (Hs & _ & Hpl).
  unfold DeltaLayerInner.plan_range. rewrite Ef, (lo_start _ _ _ ok). rewrite Hv.
  2: { apply layer_file_stored; [done|done|apply (lo_disk _ _ _ ok)|]. rewrite <-Ef. unfold S3_UPLOAD_LIMIT, PAGE_SZ in *. lia. }
  cbn [matching]. rewrite index_of_place, (filter_from (delta_key_Z (r_start range) (r_start lr)) (r_start range, r_start lr)) by done.
  set (xs := List.filter (λ x, delta_key_Z (r_start range) (r_start lr) <=? delta_key_Z (e_key x.1) (e_lsn x.1)) (place PAGE_SZ es)).
  assert (Forall placed_ok xs) as Hxs by (rewrite Forall_forall in *; intros x [Hx _]%list_elem_of_In%List.filter_In; by apply Hpl, list_elem_of_In).
  assert (Forall (λ x, Key.leb (r_start range) (e_key x.1) = true) xs) as Hge.
  { apply Forall_forall. intros x Hx. rewrite Forall_forall in Hxs. destruct (Hxs x Hx) as (Hk & Hl & _). rewrite leb_key_Z by done. apply Z.leb_le.
    apply list_elem_of_In, List.filter_In in Hx as [_ Hx]. apply Z.leb_le in Hx. by apply delta_key_le in Hx as [? _]. }
  pose proof (feed_plan D lr range xs p Hxs Hge) as Hf. unfold plan_result in Hf. destruct (feed _ _ _) as [g s]. cbn [snd] in Hf.
  destruct s as [[p' h]| |]; cbn [mbind result_bind] in Hf; [|done..]. injection Hf as Hf. rewrite Hf.
  unfold VectoredReadPlanner.add_prev. rewrite Hprev. unfold selected. rewrite filter_andb. unfold xs. rewrite with_next_from by apply placed_sorted.
  rewrite take_until_filter; [done|by apply StronglySorted_bfilter| |done]. pose proof next_placed_ok as Hn. rewrite Forall_forall in *.
  intros n [Hn' _]%list_elem_of_In%List.filter_In. by apply Hn, list_elem_of_In.
Qed.

Definition range_events (range : Range Key) : list Event := event_of lr <$> List.filter (selected lr range) N.

Lemma plan_ranges_spec ks p : ks_in Key.wf ks → VectoredReadPlanner.prev p = None →
  DeltaLayerInner.plan_ranges disk_reads inner lr ks p = Ok (foldl (λ p e, ev_add e p) p (concat (range_events <$> ks))).
Proof.
  revert p. induction ks as [|range ks IH]; intros p Hks Hprev; [done|]. apply Forall_cons in Hks as [[Hk1 Hk2] Hks]. cbn [DeltaLayerInner.plan_ranges].
  rewrite plan_range_spec by done. cbn [mbind result_bind]. rewrite IH by done. cbn [fmap list_fmap concat]. rewrite foldl_app. f_equal. f_equal. fold (range_events range).
  assert (∀ evs q, VectoredReadPlanner.prev q = None → VectoredReadPlanner.prev (foldl (λ p e, ev_add e p) q evs) = None) as Hpr.
  { induction evs as [|e evs IHe]; intros q Hq; [done|]. cbn. apply IHe. unfold ev_add, VectoredReadPlanner.add_blob. by destruct (ev_flag e). }
  specialize (Hpr (range_events range) p Hprev). destruct (foldl _ p (range_events range)). cbn in *. by subst.
Qed.

(** *** The order of the plan *)

Definition range_values (range : Range Key) : list (Placed * Z) := List.filter (selected lr range) N.

Lemma selected_keys range n : n ∈ range_values range → Key.wf (r_start range) → Key.wf (r_end range) →
  n ∈ N ∧ placed_ok n.1 ∧ key_Z (r_start range) ≤ key_Z (e_key n.1.1) < key_Z (r_end range).
Proof.
  intros [Hn Hsel]%list_elem_of_In%List.filter_In Hs He. apply list_elem_of_In in Hn. pose proof next_placed_ok as Hok. rewrite Forall_forall in Hok. specialize (Hok n Hn).
  split_and!; [done|done|..]; apply andb_true_iff in Hsel as [Hge Hend].
  - apply Z.leb_le in Hge. destruct Hok as (_ & Hl & _). by apply delta_key_le in Hge as [? _].
  - apply negb_true_iff, not_true_iff_false in Hend. rewrite ends_range_Z in Hend by done. lia.
Qed.

Lemma next_lt_pick m n : m ∈ N → n ∈ N → entry_lt m.1.1 n.1.1 → next_lt m n.
Proof.
  intros Hm Hn Hlt. destruct place_ok as (Hs & _ & _). induction Hs as [|x l _ IH Hx]; [by apply not_elem_of_nil in Hm|]. rewrite Forall_forall in Hx.
  apply elem_of_cons in Hm as [->|Hm], Hn as [->|Hn]; [unfold entry_lt in Hlt; lia|by apply Hx| |by apply IH]. destruct (Hx m Hm) as [Hlt' _]. unfold entry_lt in *. lia.
Qed.

Definition plan_values (ks : KeySpace) : list (Placed * Z) := concat (range_values <$> ks).

Lemma plan_events ks : concat (range_events <$> ks) = event_of lr <$> plan_values ks.
Proof. unfold plan_values. induction ks as [|r ks IH]; [done|]. cbn [fmap list_fmap concat]. rewrite fmap_app. f_equal. exact IH. Qed.

Lemma elem_of_plan_values ks n : n ∈ plan_values ks → ∃ r, r ∈ ks ∧ n ∈ range_values r.
Proof.
  unfold plan_values. rewrite list_elem_of_In, in_concat. intros (l & Hl%list_elem_of_In & Hn%list_elem_of_In). apply list_elem_of_fmap in Hl as (r & -> & Hr). by exists r.
Qed.

Lemma plan_values_sorted ks : ks_wf ks → ks_in Key.wf ks → StronglySorted next_lt (plan_values ks).
Proof.
  intros [_ Hs] Hin. unfold plan_values. induction Hs as [|r ks _ IH Hr]; [constructor|]. apply Forall_cons in Hin as [[Hr1 Hr2] Hin]. cbn [fmap list_fmap concat].
  apply StronglySorted_app. split_and!; [|apply StronglySorted_bfilter, place_ok|by apply IH]. intros m n Hm (r' & Hr' & Hn)%elem_of_plan_values.
  rewrite Forall_forall in Hr, Hin. specialize (Hr r' Hr'). destruct (Hin r' Hr') as [Hw1 Hw2]. destruct (selected_keys r m Hm Hr1 Hr2) as (Hm' & (_ & Hlm & _) & Hkm).
  destruct (selected_keys r' n Hn Hw1 Hw2) as (Hn' & (_ & Hln & _) & Hkn). apply next_lt_pick; [done..|]. unfold before, key_le in Hr.
  rewrite leb_key_Z in Hr by done. apply Z.leb_le in Hr. unfold entry_lt, delta_key_Z, in_u in *. lia.
Qed.

Lemma plan_values_elem ks n : ks_in Key.wf ks → n ∈ plan_values ks → n ∈ N ∧ placed_ok n.1.
Proof.
  intros Hin (r & Hr & Hn)%elem_of_plan_values. destruct (proj1 (Forall_forall _ _) Hin r Hr). by destruct (selected_keys r n Hn) as (? & ? & _).
Qed.

Lemma entry_lt_key (m n : Placed) : placed_ok m → placed_ok n → entry_lt m.1 n.1 → ¬ klt (e_key n.1) (e_key m.1) ∧ (e_key m.1, e_lsn m.1) ≠ (e_key n.1, e_lsn n.1).
Proof.
  intros (Hmk & Hml & _) (Hnk & Hnl & _) Hlt. split; [|intros [= E1 E2]; unfold entry_lt in Hlt; rewrite E1, E2 in Hlt; lia].
  unfold klt, kcmp, Key_cmp. rewrite cmp_key_Z, Z.compare_lt_iff by done. unfold entry_lt, delta_key_Z, in_u in *. lia.
Qed.

Lemma plan_keys_ascend ks : ks_wf ks → ks_in Key.wf ks → keys_ascend (event_of lr <$> plan_values ks).
Proof.
  intros Hwf Hin. pose proof (plan_values_sorted ks Hwf Hin) as Hs. pose proof (λ n, plan_values_elem ks n Hin) as Hok.
  induction Hs as [|n ns _ IH Hn]; [constructor|]. cbn [fmap list_fmap]. constructor; [apply IH; intros m Hm; apply Hok; by right|].
  apply Forall_fmap, Forall_forall. intros m Hm. rewrite Forall_forall in Hn. destruct (Hn m Hm) as [Hlt _].
  apply (entry_lt_key n.1 m.1); [by apply Hok; left|by apply Hok; right|done].
Qed.

Lemma plan_in_order ks : ks_wf ks → ks_in Key.wf ks → in_order D (ev_blob <$> (event_of lr <$> plan_values ks)).
Proof.
  intros Hwf Hin. pose proof (plan_values_sorted ks Hwf Hin) as Hs. pose proof (λ n, plan_values_elem ks n Hin) as Hok. destruct place_ok as (_ & Hall & _).
  rewrite Forall_forall in Hall. destruct (lo_wf _ _ _ ok) as [Hew _]. rewrite Forall_forall in Hew. split.
  - rewrite !Forall_fmap. apply Forall_forall. intros n Hn. destruct (Hok n Hn) as [HnN Hpl]. destruct (Hall n HnN) as [Hst Hnx]. unfold in_place, b_start, b_end. cbn.
    assert (n.1 ∈ place PAGE_SZ es) as Hx by (rewrite <-(with_next_fst D (place PAGE_SZ es)); by apply list_elem_of_fmap_2). apply place_elem in Hx as [Hx _].
    destruct (Hew _ Hx) as (_ & _ & Hmax). pose proof (blob_bytes_nonempty _ Disabled Hmax). unfold next_ok, entry_bytes, PAGE_SZ in *. lia.
  - clear Hall Hew. induction Hs as [|n ns _ IH Hn]; [constructor|]. cbn [fmap list_fmap]. constructor; [apply IH; intros m Hm; apply Hok; by right|].
    rewrite !Forall_fmap. eapply Forall_impl; [exact Hn|]. by intros m [_ Hm].
Qed.

Lemma plan_distinct ks : ks_wf ks → ks_in Key.wf ks → NoDup (blob_id <$> (ev_blob <$> (event_of lr <$> plan_values ks))).
Proof.
  intros Hwf Hin. pose proof (plan_values_sorted ks Hwf Hin) as Hs. pose proof (λ n, plan_values_elem ks n Hin) as Hok.
  induction Hs as [|n ns _ IH Hn]; [constructor|]. cbn [fmap list_fmap]. constructor; [|apply IH; intros m Hm; apply Hok; by right].
  intros Hd. rewrite <-!list_fmap_compose in Hd. apply list_elem_of_fmap in Hd as (m & Em & Hm). rewrite Forall_forall in Hn. destruct (Hn m Hm) as [Hlt _].
  destruct (entry_lt_key n.1 m.1) as [_ Hne]; [by apply Hok; left|by apply Hok; right|done|]. done.
Qed.

(** *** The values of a key *)

(** The values of a key that are asked for. *)
Definition asked (k : Key) (n : Placed * Z) : bool := Key.eqb (e_key n.1.1) k && ((r_start lr <=? e_lsn n.1.1) && (e_lsn n.1.1 <? r_end lr)).

Lemma wanted_event k n : wanted_of k (event_of lr n) = asked k n.
Proof. unfold wanted_of, asked, event_of, flag_of. cbn [ev_key ev_flag]. destruct (_ <=? _), (_ <? _), (Key.eqb _ _), (e_init n.1.1); done. Qed.

Lemma range_asked k r : Key.wf (r_start r) → Key.wf (r_end r) →
  List.filter (asked k) (range_values r) = if decide (in_range r k) then List.filter (asked k) N else [].
Proof.
  intros Hs He. unfold range_values. rewrite <-filter_andb. pose proof next_placed_ok as Hok. rewrite Forall_forall in Hok. destruct (decide (in_range r k)) as [[H1 H2]|Hout].
  - apply List.filter_ext_in. intros n Hn%list_elem_of_In. destruct (asked k n) eqn:Ea; [|by rewrite andb_false_r]. rewrite andb_true_r.
    unfold asked in Ea. rewrite !andb_true_iff, Z.leb_le, Z.ltb_lt in Ea. destruct Ea as (Ek & Hl1 & Hl2). apply bool_decide_eq_true in Ek. subst k. destruct (Hok n Hn) as (Hw & Hu & Hrest).
    unfold key_le, key_lt in *. rewrite leb_key_Z in H1 by done. rewrite ltb_key_Z in H2 by done. apply andb_true_iff. split; [unfold delta_key_Z, in_u in *; lia|].
    apply negb_true_iff, not_true_iff_false. rewrite ends_range_Z by done. lia.
  - apply filter_false. intros n Hn. destruct (selected lr r n) eqn:Es; [|done]. destruct (asked k n) eqn:Ea; [|done]. destruct Hout. apply andb_true_iff in Ea as [Ek _].
    apply bool_decide_eq_true in Ek. subst k. destruct (selected_keys r n) as (_ & (Hw & _) & H1); [by apply list_elem_of_In, List.filter_In; split; [apply list_elem_of_In|]|done..|].
    split; [unfold key_le; rewrite leb_key_Z by done; lia|unfold key_lt; rewrite ltb_key_Z by done; lia].
Qed.

Lemma plan_asked k ks : ks_wf ks → ks_in Key.wf ks → List.filter (asked k) (plan_values ks) = if decide (mem ks k) then List.filter (asked k) N else [].
Proof.
  intros Hwf Hin. induction ks as [|r ks IH]; [done|]. apply Forall_cons in Hin as [[Hr1 Hr2] Hin]. change (plan_values (r :: ks)) with (range_values r ++ plan_values ks).
  assert (ks_wf ks) as Hwf' by (destruct Hwf as [[_ ?]%Forall_cons [? _]%StronglySorted_inv]; done). rewrite List.filter_app, range_asked, IH by done.
  pose proof (ks_wf_middle_disjoint [] r ks k Hwf) as Hd. destruct (decide (in_range r k)) as [Hk|Hk].
  - rewrite (decide_False (P := mem ks k)), app_nil_r by (by apply Hd). rewrite decide_True; [done|]. apply mem_cons. by left.
  - cbn [app]. destruct (decide (mem ks k)) as [Hm|Hm]; [rewrite decide_True|rewrite decide_False]; [done| |done|]; rewrite mem_cons; tauto.
Qed.

(** *** The reads *)

Lemma plan_all_elem evs (x : Blob) : x ∈ plan_all [] evs → ∃ e, e ∈ evs ∧ x = ev_blob e.
Proof.
  intros Hx. pose proof (plan_all_sublist [] evs) as Hs. cbn [app] in Hs. eapply elem_of_submseteq in Hx; [|by apply sublist_submseteq].
  apply list_elem_of_fmap in Hx as (e & -> & He). by exists e.
Qed.

Definition plan_blobs (ks : KeySpace) : list Blob := plan_all [] (event_of lr <$> plan_values ks).

Lemma plan_reads_spec ks max : ks_wf ks → ks_in Key.wf ks →
  ∃ reads xss, DeltaLayerInner.plan_reads disk_reads inner ks lr (VectoredReadPlanner.new max) = Ok reads ∧ Forall2 (read_has D) reads xss ∧ concat xss = plan_blobs ks ∧
    NoDup (blob_id <$> plan_blobs ks).
Proof.
  intros Hwf Hin. destruct data_end as (_ & _ & HD & Hm). unfold DeltaLayerInner.plan_reads. rewrite plan_ranges_spec, plan_events by done. cbn [mbind result_bind].
  set (evs := event_of lr <$> plan_values ks). destruct (ev_adds_spec evs (VectoredReadPlanner.new max)) as (Eb & _); [by apply plan_keys_ascend|by intros; split; constructor|].
  cbv zeta in Eb. change (VectoredReadPlanner.all_blobs (VectoredReadPlanner.new max)) with (@nil Blob) in Eb. pose proof (plan_all_sublist [] evs) as Hsub. cbn [app] in Hsub.
  destruct (planner_finish_spec D HD Hm (foldl (λ p e, ev_add e p) (VectoredReadPlanner.new max) evs)) as (reads & xss & Ef & Hr & Ec).
  { rewrite Eb. eapply in_order_sublist; [exact Hsub|]. by apply plan_in_order. }
  rewrite Ef. exists reads, xss. split_and!; [done|done|by rewrite Ec|]. eapply sublist_NoDup; [by apply (plan_distinct ks)|]. unfold plan_blobs. by apply fmap_sublist.
Qed.

(** The value at an offset. *)
Definition content_at (off : Z) : ImageCompressionAlgorithm * bytes :=
  (Disabled, default [] ((list_to_map ((λ x : Placed, (x.2, e_val x.1)) <$> place PAGE_SZ es) : gmap Z bytes) !! off)).

Lemma content_at_spec n : n ∈ N → content_at n.1.2 = (Disabled, e_val n.1.1).
Proof.
  intros Hn. unfold content_at. f_equal. rewrite (elem_of_list_to_map_1 _ n.1.2 (e_val n.1.1)); [done| |].
  - rewrite <-list_fmap_compose. apply (place_positions PAGE_SZ es), (lo_wf _ _ _ ok).
  - apply list_elem_of_fmap. exists n.1. split; [done|]. rewrite <-(with_next_fst D (place PAGE_SZ es)). by apply list_elem_of_fmap_2.
Qed.

Lemma plan_holds ks : ks_in Key.wf ks → Forall (holds (DeltaLayerInner.file inner) content_at) (plan_blobs ks).
Proof.
  intros Hin. apply Forall_forall. intros x (e & He & ->)%plan_all_elem. apply list_elem_of_fmap in He as (n & -> & Hn). destruct (plan_values_elem ks n Hin Hn) as [HnN _].
  unfold holds. change (b_start (ev_blob (event_of lr n))) with n.1.2. rewrite content_at_spec by done. cbn [fst snd]. change (b_end (ev_blob (event_of lr n))) with n.2.
  destruct place_ok as (_ & Hall & _). rewrite Forall_forall in Hall. destruct (Hall n HnN) as [_ [Hnx _]].
  assert (n.1 ∈ place PAGE_SZ es) as Hx by (rewrite <-(with_next_fst D (place PAGE_SZ es)); by apply list_elem_of_fmap_2). apply place_elem in Hx as (Hx & y & z & Ed & Eo).
  destruct (lo_wf _ _ _ ok) as [Hew _]. rewrite Forall_forall in Hew. destruct (Hew _ Hx) as (_ & _ & Hmax). split_and!; [done| |done].
  destruct (lo_file _ _ _ ok) as (page & blocks & Hp & _ & Ef & _). rewrite Ef, Eo. by apply (layer_file_blob page (data_of es) blocks Hp y z).
Qed.

Abbreviation answer := (answers content_at WalRecordOrImage b_init disk_reads).

Lemma do_read_spec r xs cap : read_has D r xs → Forall (holds (DeltaLayerInner.file inner) content_at) xs → VectoredRead.size r ≤ cap → NoDup (blob_id <$> xs) →
  ∃ calls, DeltaLayerInner.do_read disk_reads inner cap r = Ok calls ∧ Forall2 answer calls (rev xs).
Proof.
  intros Hr Hh Hcap Hnd. destruct data_end as (_ & Hf & HD & _). unfold DeltaLayerInner.do_read. destruct Hr as (Ed & Hr). unfold VecMap.as_slice. rewrite Ed.
  unfold entries_of. rewrite <-list_fmap_compose. replace (foldl _ _ _) with (start_all b_init (rev xs) ([], ∅)).
  2: { unfold start_all. generalize (@nil Call, ∅ : Ios). change (rev ((snd ∘ (λ x, (b_start x, b_meta x))) <$> xs)) with (rev (map b_meta xs)). rewrite <-map_rev.
       induction (rev xs) as [|x l IH]; intros s; [done|]. cbn [foldl map]. apply IH. }
  rewrite (complete_read_spec content_at WalRecordOrImage b_init D (DeltaLayerInner.file inner) disk_reads r xs cap (@rev)); [|done..| | |done].
  - eexists. split; [done|]. apply calls_answer.
  - intros A B P l k Hl. by apply Forall2_rev.
  - symmetry. apply Permutation_rev.
Qed.

Lemma do_reads_spec reads xss cap : Forall2 (read_has D) reads xss → Forall (holds (DeltaLayerInner.file inner) content_at) (concat xss) →
  Forall (λ r, VectoredRead.size r ≤ cap) reads → NoDup (blob_id <$> concat xss) →
  ∃ calls, DeltaLayerInner.do_reads disk_reads inner cap reads = Ok calls ∧ Forall2 answer calls (concat (@rev _ <$> xss)).
Proof.
  induction 1 as [|r xs reads xss Hr _ IH]; cbn [concat]; intros Hh Hcap Hnd; [by exists []|]. apply Forall_app in Hh as [Hh1 Hh]. apply Forall_cons in Hcap as [Hc1 Hcap].
  rewrite fmap_app in Hnd. apply NoDup_app in Hnd as (Hnd1 & _ & Hnd). destruct (do_read_spec r xs cap Hr Hh1 Hc1 Hnd1) as (c1 & E1 & Ha1).
  destruct (IH Hh Hcap Hnd) as (c2 & E2 & Ha2). cbn [DeltaLayerInner.do_reads]. rewrite E1. cbn [mbind result_bind]. rewrite E2. cbn [mbind result_bind].
  eexists. split; [done|]. cbn [fmap list_fmap concat]. by apply Forall2_app.
Qed.

Lemma min_buffer_fits reads max : Forall (λ r, VectoredRead.size r ≤ DeltaLayerInner.get_min_read_buffer_size reads max) reads.
Proof. destruct reads as [|r reads]; [constructor|]. cbn [DeltaLayerInner.get_min_read_buffer_size]. destruct (max_size_ge (VectoredRead.size r) reads). by constructor. Qed.

(** The values of the plan, those of the file before the others. *)
Lemma get_values_spec ks max : ks_wf ks → ks_in Key.wf ks → DeltaLayerInner.max_vectored_read_bytes inner = Some max →
  ∃ calls, DeltaLayerInner.get_values_reconstruct_data disk_reads inner ks lr = Ok calls ∧ Forall2 answer calls (rev (plan_blobs ks)).
Proof.
  intros Hwf Hin Hmax. destruct (plan_reads_spec ks max Hwf Hin) as (reads & xss & Ep & Hr & Ec & Hnd). unfold DeltaLayerInner.get_values_reconstruct_data.
  rewrite Hmax, Ep. cbn [map_err mbind result_bind]. unfold DeltaLayerInner.do_reads_and_update_state. rewrite Hmax.
  assert (concat (rev xss) ≡ₚ plan_blobs ks) as Hp by (rewrite <-Ec; by rewrite <-(Permutation_rev xss)).
  destruct (do_reads_spec (rev reads) (rev xss) (DeltaLayerInner.get_min_read_buffer_size reads max)) as (calls & E & Ha).
  - by apply Forall2_rev.
  - rewrite Hp. by apply plan_holds.
  - apply Forall_rev, min_buffer_fits.
  - by rewrite Hp.
  - rewrite E. exists calls. split; [done|]. by rewrite concat_rev_rev, Ec in Ha.
Qed.

(** *** The items of a key *)

Context `{ValueCodec} (items : Key → list Item).

(** The bytes of a value are those of an item. *)
Definition entry_is (e : DEntry) (x : Item) : Prop := e_lsn e = x.1 ∧ Value_des (e_val e) = Some x.2 ∧ e_init e = Value.will_init x.2.

Context (Hitems : ∀ k, Forall2 entry_is (List.filter (λ e, Key.eqb (e_key e) k) es) (items k)).

Lemma asked_items_of k ns l : Forall (λ n, n ∈ N) ns → Forall2 entry_is (List.filter (λ e, Key.eqb (e_key e) k) ((λ n, n.1.1) <$> ns)) l →
  Forall2 (λ n x, n ∈ N ∧ (asked k n = true ∧ entry_is n.1.1 x)) (List.filter (asked k) ns) (within lr l).
Proof.
  revert l. induction ns as [|n ns IH]; intros l Hall Hl; [by apply Forall2_nil_inv_l in Hl as ->; constructor|].
  apply Forall_cons in Hall as [Hn Hall]. cbn [fmap list_fmap List.filter] in Hl. cbn [List.filter]. destruct (asked k n) eqn:Ea; unfold asked in Ea.
  - apply andb_true_iff in Ea as [Ek El]. rewrite Ek in Hl. apply Forall2_cons_inv_l in Hl as (x & l' & Hx & Hl & ->). cbn [within List.filter]. unfold in_lsn_range.
    destruct Hx as (Hx1 & Hx). rewrite <-Hx1, El. constructor; [|by apply IH]. split; [done|]. split; [unfold asked; by rewrite Ek|done].
  - destruct (Key.eqb (e_key n.1.1) k); [|by apply IH]. cbn [andb] in Ea. apply Forall2_cons_inv_l in Hl as (x & l' & (Hx1 & _) & Hl & ->). cbn [within List.filter]. unfold in_lsn_range.
    rewrite <-Hx1, Ea. by apply IH.
Qed.

Lemma asked_items k : Forall2 (λ n x, n ∈ N ∧ (asked k n = true ∧ entry_is n.1.1 x)) (List.filter (asked k) N) (within lr (items k)).
Proof.
  apply asked_items_of; [by apply Forall_forall|]. replace ((λ n, n.1.1) <$> N) with es; [done|]. rewrite <-(place_fst PAGE_SZ es) at 1.
  rewrite <-(with_next_fst D (place PAGE_SZ es)) at 1. by rewrite <-list_fmap_compose.
Qed.

Lemma kept_items (R : Event → Item → Prop) evs l : (∀ e x, R e x → match ev_flag e with FlagReplaceAll => true | _ => false end = Value.will_init x.2) → Forall2 R evs l →
  Forall2 (λ b x, ∃ e, b = ev_blob e ∧ R e x) (foldl (λ acc e, match ev_flag e with FlagReplaceAll => [ev_blob e] | _ => acc ++ [ev_blob e] end) [] evs) (trim_history l).
Proof.
  intros HR. revert l. induction evs as [|e evs IH] using rev_ind; intros l Hl; [by apply Forall2_nil_inv_l in Hl as ->; constructor|].
  apply Forall2_app_inv_l in Hl as (l1 & l2 & Hl1 & Hl2 & ->). apply Forall2_cons_inv_l in Hl2 as (x & l3 & Hx & Hl3 & ->). apply Forall2_nil_inv_l in Hl3 as ->.
  rewrite foldl_app, trim_snoc. cbn [foldl]. pose proof (HR e x Hx) as Hi. specialize (IH _ Hl1). rewrite <-Hi.
  destruct (ev_flag e); try (apply Forall2_app; [done|]); (constructor; [by exists e|constructor]).
Qed.

Lemma plan_items k ks : ks_wf ks → ks_in Key.wf ks →
  Forall2 (λ b x, b_lsn b = x.1 ∧ b_init b = Value.will_init x.2 ∧ Value_des (content_at (b_start b)).2 = Some x.2) (of_key k (plan_blobs ks))
    (if decide (mem ks k) then trim_history (within lr (items k)) else []).
Proof.
  intros Hwf Hin. unfold plan_blobs. rewrite of_key_plan_all. cbn [of_key List.filter].
  assert (List.filter (wanted_of k) (event_of lr <$> plan_values ks) = event_of lr <$> List.filter (asked k) (plan_values ks)) as ->.
  { induction (plan_values ks) as [|n ns IH]; [done|]. cbn [fmap list_fmap List.filter]. rewrite wanted_event. destruct (asked k n); [|done]. cbn [fmap list_fmap]. by f_equal. }
  rewrite plan_asked by done. destruct (decide (mem ks k)); [|constructor].
  eapply Forall2_impl; [apply (kept_items (λ e x, ∃ n, e = event_of lr n ∧ n ∈ N ∧ asked k n = true ∧ entry_is n.1.1 x))|].
  - intros e x (n & -> & _ & Ha & _ & _ & Hi). apply andb_true_iff in Ha as [_ Ha]. unfold event_of, flag_of. cbn [ev_flag]. rewrite Ha, <-Hi. by destruct (e_init n.1.1).
  - apply Forall2_fmap_l. eapply Forall2_impl; [apply asked_items|]. intros n x (Hn & Ha & He). by exists n.
  - intros b x (e & -> & n & -> & Hn & Ha & Hl & Hd & Hi). change (b_start (ev_blob (event_of lr n))) with n.1.2. rewrite content_at_spec by done. split_and!; [done| |done].
    apply andb_true_iff in Ha as [_ Ha]. unfold b_init, ev_blob, event_of, flag_of. cbn. rewrite Ha, <-Hi. by destruct (e_init n.1.1).
Qed.

(** For every key that is asked for the newest values first, down to the last one that
    initializes the page. *)
Lemma delta_layer_reads (reliable : Key → Prop) ks max : ks_wf ks → ks_in Key.wf ks → DeltaLayerInner.max_vectored_read_bytes inner = Some max →
  (∀ k off n, reliable k → disk_reads off n = true) →
  ∃ calls, DeltaLayerInner.get_values_reconstruct_data disk_reads inner ks lr = Ok calls ∧
    ∀ k, Forall2 (call_reads reliable k) (calls_of k calls) (if decide (mem ks k) then rev (trim_history (within lr (items k))) else []).
Proof.
  intros Hwf Hin Hmax Hrel. destruct (get_values_spec ks max Hwf Hin Hmax) as (calls & E & Ha). exists calls. split; [done|]. intros k. apply (answers_key _ _ _ _ k) in Ha.
  assert (of_key k (rev (plan_blobs ks)) = rev (of_key k (plan_blobs ks))) as Er by apply filter_rev. rewrite Er in Ha.
  pose proof (plan_items k ks Hwf Hin) as Hp. apply Forall2_rev in Hp.
  replace (if decide (mem ks k) then rev _ else []) with (rev (if decide (mem ks k) then trim_history (within lr (items k)) else [])) by (by destruct (decide _)).
  eapply Forall2_trans; [|exact Ha|exact Hp]. intros c b x (_ & Ec & Ei & Hio) (Hl & Hi & Hd). split; [congruence|]. split.
  - split; [cbn; congruence|]. cbn [snd]. destruct Hio as [->|[-> _]]; [|done]. done.
  - intros Hk. intros [e He]. cbn in He. destruct Hio as [Hio|[_ (off & n & Hn)]]; [by rewrite Hio in He|]. by rewrite (Hrel k off n Hk) in Hn.
Qed.
End layer.

(** ** A layer from its writer to its readers *)

Context `{ValueCodec} `{ValueEncoder}.

(** Versions of pages, as the writer gets them. *)
Abbreviation Version := (Key * Lsn * Value)%type.
Definition delta_entry (x : Version) : DEntry := (x.1.1, x.1.2, Value_ser x.2, Value.will_init x.2).
Definition versions_of (k : Key) (vs : list Version) : list Item := (λ x : Version, (x.1.2, x.2)) <$> List.filter (λ x, Key.eqb x.1.1 k) vs.

Fixpoint put_versions (vs : list Version) : M DeltaLayerWriter.t PutError unit :=
  match vs with
  | [] => mret tt
  | x :: vs => _ ← DeltaLayerWriter.put_value x.1.1 x.1.2 x.2; put_versions vs
  end.

Lemma put_versions_entries vs w : put_versions vs w = put_values (delta_entry <$> vs) w.
Proof.
  revert w. induction vs as [|x vs IH]; intros w; [done|]. cbn [put_versions fmap list_fmap put_values]. unfold mbind, M_bind.
  change (DeltaLayerWriter.put_value x.1.1 x.1.2 x.2 w) with
    (DeltaLayerWriter.put_value_bytes (e_key (delta_entry x)) (e_lsn (delta_entry x)) (e_val (delta_entry x)) (e_init (delta_entry x)) w).
  destruct (DeltaLayerWriter.put_value_bytes _ _ _ _ w) as [[[]| |] w1]; [|done..]. apply IH.
Qed.

Lemma versions_items vs k : Forall (λ x, Value_des (Value_ser x.2) = Some x.2) vs →
  Forall2 entry_is (List.filter (λ e, Key.eqb (e_key e) k) (delta_entry <$> vs)) (versions_of k vs).
Proof.
  unfold versions_of. induction 1 as [|x vs Hx _ IH]; [constructor|]. cbn [fmap list_fmap List.filter]. change (e_key (delta_entry x)) with x.1.1.
  destruct (Key.eqb x.1.1 k); [|done]. by constructor.
Qed.

(** Versions that a writer for a range of LSNs takes. *)
Record versions_ok (lsn_range : Range Z) (vs : list Version) : Prop := {
  vo_wf : entries_wf (delta_entry <$> vs);
  vo_next : Forall (λ x, ∃ k', Key.next x.1.1 = Ok k') vs;
  vo_some : vs ≠ [];
  vo_lsn : Forall (λ x, r_start lsn_range ≤ x.1.2) vs;
  vo_codec : Forall (λ x, Value_des (Value_ser x.2) = Some x.2) vs;
  vo_size : PAGE_SZ + blen (data_of (delta_entry <$> vs)) < 2 ^ 38
}.

Record layer_id_ok (timeline_id : bytes) (tenant_shard_id : TenantShardId) (key_range : Range Key) (lsn_range : Range Z) : Prop := {
  li_tenant : length (Shards.tenant_id tenant_shard_id) = 16%nat;
  li_timeline : length timeline_id = 16%nat;
  li_keys : Key.wf (r_start key_range) ∧ Key.wf (r_end key_range);
  li_lsns : u64 (r_start lsn_range) ∧ u64 (r_end lsn_range) ∧ r_start lsn_range < r_end lsn_range
}.

Section roundtrip.
Context (tl : bytes) (ts : TenantShardId) (keys : Range Key) (lsns : Range Z) (Hid : layer_id_ok tl ts keys lsns).

Lemma summary_of_wf w es root : DeltaLayerWriter.timeline_id w = tl → DeltaLayerWriter.tenant_shard_id w = ts → DeltaLayerWriter.key_start w = r_start keys →
  DeltaLayerWriter.lsn_range w = lsns → u32 root → blen (data_of es) < 2 ^ 38 → summary_wf (summary_of w (r_end keys) es root).
Proof.
  intros E1 E2 E3 E4 Hr Hs. destruct Hid as [Ht Hl [Hk1 Hk2] (Hl1 & Hl2 & _)]. destruct (index_blk_ceil (data_of es) Hs) as [_ Hi].
  unfold summary_wf, summary_of. cbn. rewrite E1, E2, E3, E4. split_and!; done.
Qed.

(** The file of a writer is the layer of its versions. *)
Lemma written_layer_ok (disk_reads : Z → Z → bool) cancels vs max : Forall (λ c, c = false) cancels → versions_ok lsns vs → (∀ n, disk_reads (n * PAGE_SZ) PAGE_SZ = true) →
  ∃ w, put_versions vs (DeltaLayerWriter.new tl ts (r_start keys) lsns cancels) = (Ok tt, w) ∧
  match DeltaLayerWriter.finish (r_end keys) w with
  | Ok (desc, file) =>
      desc = PersistentLayerDesc.new_delta ts tl keys lsns (blen file) ∧
      ∃ inner, DeltaLayerInner.load disk_reads file (Some (DeltaSummary.expected (Shards.tenant_id ts) tl keys lsns)) (Some max) = Ok inner ∧
        layer_ok disk_reads (delta_entry <$> vs) inner ∧ DeltaLayerInner.max_vectored_read_bytes inner = Some max
  | Err e => e = AboveS3Limit
  | Panic => False
  end.
Proof.
  intros Hc [Hwf Hnx Hne Hl Hcod Hsz] Hd. set (es := delta_entry <$> vs) in *. pose proof Hid as [Ht Htl _ (_ & _ & Hlt)].
  destruct (put_values_spec es [] (DeltaLayerWriter.new tl ts (r_start keys) lsns cancels)) as (w & E & Hw & F1 & F2 & F3 & F4); [by apply writer_has_new|done| |done|].
  { unfold es. by apply Forall_fmap. }
  cbn [app] in Hw. cbn in F1, F2, F3, F4. exists w. split; [by rewrite put_versions_entries|].
  destruct (writer_finish es w (r_end keys) Hw Hwf) as (root & blocks & Hr & Hp & Hv & Ef).
  { unfold es. by destruct vs. }
  { by rewrite F4. }
  { by rewrite F2. }
  { by rewrite F1. }
  { done. }
  cbv zeta in Ef. rewrite Ef. clear Ef. set (s := summary_of w (r_end keys) es root) in *. assert (summary_wf s) as Hs by (apply summary_of_wf; try done; unfold PAGE_SZ in Hsz; lia).
  destruct (Z.leb_spec (blen (layer_file (DeltaSummary.ser_into_page s) (data_of es) blocks)) S3_UPLOAD_LIMIT) as [Hle|]; [|done].
  rewrite F1, F2, F3, F4. assert (mkRange (r_start keys) (r_end keys) = keys) as -> by (by destruct keys). split; [done|].
  pose proof (load_spec disk_reads s (data_of es) blocks (Some max) Hs Hd Hp eq_refl eq_refl tl) as El. cbv zeta in El.
  assert (DeltaSummary.tenant_id s = Shards.tenant_id ts ∧ DeltaSummary.key_range s = keys ∧ DeltaSummary.lsn_range s = lsns) as (G1 & G2 & G3).
  { unfold s, summary_of. cbn. rewrite F2, F3, F4. by destruct keys. }
  rewrite G1, G2, G3 in El. eexists. split; [exact El|]. split; [|done]. split; [done| | |done|done|done].
  - unfold es. by apply Forall_fmap.
  - eexists _, blocks. split_and!; [|done|done|done]. unfold DeltaSummary.ser_into_page. apply summary_page_len. rewrite summary_ser_len by apply Hs. done.
Qed.
End roundtrip.

(** C20: A delta layer that was written gives back what was written to it.  Versions of
    pages in the order of keys and LSNs go through [put_value] and [finish], which fails
    only when the file is larger than what can be uploaded; the file is loaded under the
    expected summary; and a read of a key space and a range of LSNs calls, for every key
    that is asked for, with the versions of the range from the last one on that
    initializes the page, the newest one first, and for no other key.  When the disk
    fails, the calls carry errors and nothing else changes. *)
Theorem delta_layer_roundtrip tl ts keys lsns (disk_reads : Z → Z → bool) cancels vs max :
  layer_id_ok tl ts keys lsns → Forall (λ c, c = false) cancels → versions_ok lsns vs → (∀ n, disk_reads (n * PAGE_SZ) PAGE_SZ = true) →
  ∃ w, put_versions vs (DeltaLayerWriter.new tl ts (r_start keys) lsns cancels) = (Ok tt, w) ∧
  match DeltaLayerWriter.finish (r_end keys) w with
  | Ok (desc, file) =>
      desc = PersistentLayerDesc.new_delta ts tl keys lsns (blen file) ∧
      ∃ inner, DeltaLayerInner.load disk_reads file (Some (DeltaSummary.expected (Shards.tenant_id ts) tl keys lsns)) (Some max) = Ok inner ∧
        ∀ (reliable : Key → Prop) lr ks, (∀ k off n, reliable k → disk_reads off n = true) → u64 (r_start lr) → ks_wf ks → ks_in Key.wf ks →
          ∃ calls, DeltaLayerInner.get_values_reconstruct_data disk_reads inner ks lr = Ok calls ∧
            ∀ k, Forall2 (call_reads reliable k) (calls_of k calls) (if decide (mem ks k) then rev (trim_history (within lr (versions_of k vs))) else [])
  | Err e => e = AboveS3Limit
  | Panic => False
  end.
Proof.
  intros Hid Hc Hvs Hd. destruct (written_layer_ok tl ts keys lsns Hid disk_reads cancels vs max Hc Hvs Hd) as (w & E & Hf). exists w. split; [done|].
  destruct (DeltaLayerWriter.finish _ _) as [[desc file]| |]; [|done..]. destruct Hf as (Ed & inner & El & Hok & Hmax). split; [done|]. exists inner. split; [done|].
  intros reliable lr ks Hrel Hlr Hwf Hin. apply (delta_layer_reads disk_reads _ inner Hok lr Hlr (λ k, versions_of k vs)) with max; [|done..].
  intros k. apply versions_items, Hvs.
Qed.
End delta.

(** *** A layer with three versions *)

#[local] Existing Instance toy_zstd.
#[local] Existing Instance toy_zstd_laws.
#[local] Instance tagged_encoder : ValueEncoder :=
  { Value_ser v := match v with Image b => 0 :: b | WalRecord (Postgres false b) => 1 :: b | WalRecord (Postgres true b) => 2 :: b | _ => [] end }.
#[local] Instance tagged_codec : ValueCodec :=
  { Value_des buf := match buf with 0 :: b => Some (Image b) | 1 :: b => Some (WalRecord (Postgres false b)) | 2 :: b => Some (WalRecord (Postgres true b)) | _ => None end }.

Definition example_key (n : Z) : Key := MkKey 0 1663 5 16384 0 n.
Definition example_versions : list (Key * Lsn * Value) :=
  [(example_key 1, 10, Image [7; 7]); (example_key 1, 20, WalRecord (Postgres false [8])); (example_key 2, 15, WalRecord (Postgres true [9]))].
Definition example_shard : TenantShardId := MkTenantShardId (replicate 16 1) 0 0.

Lemma delta_layer_roundtrip_witness :
  ∃ w, put_versions example_versions (DeltaLayerWriter.new (replicate 16 2) example_shard (example_key 0) (mkRange 8 32) []) = (Ok tt, w) ∧
  match DeltaLayerWriter.finish (example_key 9) w with
  | Ok (desc, file) => ∃ inner calls,
      DeltaLayerInner.load (λ _ _, true) file (Some (DeltaSummary.expected (replicate 16 1) (replicate 16 2) (mkRange (example_key 0) (example_key 9)) (mkRange 8 32))) (Some 131072) = Ok inner ∧
      DeltaLayerInner.get_values_reconstruct_data (λ _ _, true) inner [mkRange (example_key 1) (example_key 2)] (mkRange 8 32) = Ok calls ∧
      Forall2 (call_reads (λ _, True) (example_key 1)) (calls_of (example_key 1) calls) [(20, WalRecord (Postgres false [8])); (10, Image [7; 7])]
  | Err e => e = AboveS3Limit
  | Panic => False
  end.
Proof.
  destruct (delta_layer_roundtrip (replicate 16 2) example_shard (mkRange (example_key 0) (example_key 9)) (mkRange 8 32) (λ _ _, true) [] example_versions 131072) as (w & E & Hf).
  - split; [done|done|split; by vm_compute|split_and!; by vm_compute].
  - constructor.
  - split; [split|..].
    + repeat (constructor; [by vm_compute|]). constructor.
    + repeat (constructor; [|repeat (constructor; [by vm_compute|]); constructor]). constructor.
    + repeat (constructor; [by vm_compute; eexists|]). constructor.
    + done.
    + repeat (constructor; [by vm_compute|]). constructor.
    + repeat (constructor; [done|]). constructor.
    + by vm_compute.
  - done.
  - exists w. split; [exact E|]. destruct (DeltaLayerWriter.finish _ _) as [[desc file]| |]; [|done..]. destruct Hf as (_ & inner & El & Hr).
    destruct (Hr (λ _, True) (mkRange 8 32) [mkRange (example_key 1) (example_key 2)]) as (calls & Ec & Hk); [done|by vm_compute| | |].
    + split; [by repeat constructor|by repeat constructor].
    + repeat constructor; by vm_compute.
    + exists inner, calls. split_and!; [done..|]. exact (Hk (example_key 1)).
Defined.
