(* ===== verification/WalDecoders.v ===== *)
(** The decoder that finds record boundaries in a stream of WAL:
    [WalStreamDecoder] of [libs/postgres_ffi/src/lib.rs] (module [waldecoder]) and
    [libs/postgres_ffi/src/waldecoder_handler.rs].

    Bytes are fed in chunks of any size; [poll_decode] returns the next complete
    record, or nothing when more input is needed.  The layout of page headers and
    records is generated from the headers of PostgreSQL, and the checksum is that
    of the [crc32c] crate: both are a class, [WalLayout].  Deserialization of a
    fixed number of bytes that are present cannot fail, so it is a total
    function.  The facts: chunks do not matter, no panics, and what is before the end of
    a record is forgotten. *)

From S2P Require Import Prelude Text Lsns.
Local Open Scope Z_scope.

Definition WAL_SEGMENT_SIZE : Z := 16 * 1024 * 1024.
Definition XLP_FIRST_IS_CONTRECORD : Z := 0x0001.
Definition XLOG_RECORD_CRC_OFFS : Z := 4 + 4 + 8 + 1 + 1 + 2.
Definition XLOG_SWITCH : Z := 0x40.
Definition RM_XLOG_ID : Z := 0.

(** The fields the decoder uses. *)
Record XLogPageHeaderData := MkPageHeader { xlp_magic : Z; xlp_info : Z; xlp_pageaddr : Z; xlp_rem_len : Z }.
Record XLogRecord := MkXLogRecord { xl_info : Z; xl_rmid : Z; xl_crc : Z }.

Class WalLayout := {
  XLOG_PAGE_MAGIC : Z;
  SIZE_OF_SHORT_PHD : Z;
  SIZE_OF_LONG_PHD : Z;
  SIZE_OF_XLOG_RECORD : Z;
  page_header_from_bytes : bytes → XLogPageHeaderData;
  long_header_from_bytes : bytes → XLogPageHeaderData;
  record_from_slice : bytes → XLogRecord;
  crc32c_append : Z → bytes → Z
}.

(** Headers are smaller than a page and not empty; the checksum is the last field
    of the record header. *)
Class WalLayoutLaws `{WalLayout} := {
  short_phd_size : 0 < SIZE_OF_SHORT_PHD < Lsn.XLOG_BLCKSZ;
  long_phd_size : 0 < SIZE_OF_LONG_PHD < Lsn.XLOG_BLCKSZ;
  record_size : XLOG_RECORD_CRC_OFFS + 4 ≤ SIZE_OF_XLOG_RECORD
}.

Definition is_xlog_switch_record (r : XLogRecord) : bool := (xl_info r =? XLOG_SWITCH) && (xl_rmid r =? RM_XLOG_ID).

Fixpoint le_val (l : bytes) : Z := match l with [] => 0 | b :: l => b + 256 * le_val l end.

Inductive WalDecodeError :=
  | InvalidMagic | InvalidPageaddr | UnexpectedContrecord | UnexpectedRemLen
  | ContrecordExpected | WrongRemLen | InvalidTotLen | CrcMismatch.

Inductive DecoderState :=
  | WaitingForRecord
  | ReassemblingRecord (recordbuf : bytes) (contlen : Z)
  | SkippingEverything (skip_until_lsn : Lsn).

Module WalStreamDecoder.
Record t := Mk { lsn : Lsn; inputbuf : bytes; state : DecoderState }.

Definition new (lsn : Lsn) : t := Mk lsn [] WaitingForRecord.
Definition remaining (self : t) : Z := Z.of_nat (length (inputbuf self)).
Definition available (self : t) : result unit Lsn := Lsn.add (lsn self) (remaining self).
Definition feed_bytes (buf : bytes) (self : t) : t := Mk (lsn self) (inputbuf self ++ buf) (state self).

Definition set_state (st : DecoderState) (self : t) : t := Mk (lsn self) (inputbuf self) st.
(** [self.inputbuf.advance(n)], and [self.lsn += n] *)
Definition advance (n : Z) (self : t) : t := Mk (lsn self) (drop (Z.to_nat n) (inputbuf self)) (state self).
Definition peek (n : Z) (self : t) : bytes := take (Z.to_nat n) (inputbuf self).
Definition add_lsn (n : Z) : M t WalDecodeError unit := λ self,
  match Lsn.add (lsn self) n with
  | Ok l => (Ok tt, Mk l (inputbuf self) (state self))
  | _ => (Panic, self)
  end.

Section layout.
Context `{WalLayout}.

Definition validate_page_header (hdr : XLogPageHeaderData) (self : t) : result WalDecodeError unit :=
  if negb (xlp_magic hdr =? XLOG_PAGE_MAGIC) then Err InvalidMagic
  else if negb (xlp_pageaddr hdr =? lsn self) then Err InvalidPageaddr
  else
    let contrecord := negb (Z.land (xlp_info hdr) XLP_FIRST_IS_CONTRECORD =? 0) in
    match state self with
    | WaitingForRecord =>
        if contrecord then Err UnexpectedContrecord
        else if negb (xlp_rem_len hdr =? 0) then Err UnexpectedRemLen else Ok tt
    | ReassemblingRecord _ contlen =>
        if negb contrecord then Err ContrecordExpected
        else if negb (xlp_rem_len hdr =? contlen) then Err WrongRemLen else Ok tt
    | SkippingEverything _ => Panic
    end.

(** A page header of [size] bytes, read and verified. *)
Definition read_header (size : Z) (from_bytes : bytes → XLogPageHeaderData) : M t WalDecodeError unit :=
  self ← getS;
  let hdr := from_bytes (peek size self) in
  _ ← modifyS (advance size);
  _ ← liftR (validate_page_header hdr self);
  add_lsn size.

(** The first half of an iteration; [None] when the header is not complete. *)
Definition page_header (self : t) : option (result WalDecodeError unit * t) :=
  match state self with
  | SkippingEverything _ => Some (Ok tt, self)
  | _ =>
      if Lsn.segment_offset (lsn self) WAL_SEGMENT_SIZE =? 0 then
        if remaining self <? SIZE_OF_LONG_PHD then None
        else Some (read_header SIZE_OF_LONG_PHD long_header_from_bytes self)
      else if Lsn.block_offset (lsn self) =? 0 then
        if remaining self <? SIZE_OF_SHORT_PHD then None
        else Some (read_header SIZE_OF_SHORT_PHD page_header_from_bytes self)
      else Some (Ok tt, self)
  end.

Definition complete_record (recordbuf : bytes) : M t WalDecodeError (Lsn * bytes) :=
  let xlogrec := record_from_slice (take (Z.to_nat SIZE_OF_XLOG_RECORD) recordbuf) in
  let crc := crc32c_append 0 (drop (Z.to_nat (XLOG_RECORD_CRC_OFFS + 4)) recordbuf) in
  let crc := crc32c_append crc (take (Z.to_nat XLOG_RECORD_CRC_OFFS) recordbuf) in
  _ ← ensure (crc =? xl_crc xlogrec) CrcMismatch;
  self ← getS;
  next_lsn ← (if is_xlog_switch_record xlogrec
              then match Lsn.add (lsn self) (Lsn.calc_padding (lsn self) WAL_SEGMENT_SIZE) with
                   | Ok l => mret l
                   | _ => liftR Panic
                   end
              else mret (Lsn.align (lsn self)));
  _ ← modifyS (set_state (SkippingEverything next_lsn));
  mret (next_lsn, recordbuf).

Definition Poll : Type := result WalDecodeError (option (Lsn * bytes)) * t.
Definition some_record (p : result WalDecodeError (Lsn * bytes) * t) : Poll :=
  match p with (Ok r, d) => (Ok (Some r), d) | (Err e, d) => (Err e, d) | (Panic, d) => (Panic, d) end.

(** The second half of an iteration: the page contents. *)
Definition page_contents (self : t) : t + Poll :=
  match state self with
  | WaitingForRecord =>
      if remaining self <? 4 then inr (Ok None, self)
      else
        let xl_tot_len := le_val (peek 4 self) in
        if xl_tot_len <? SIZE_OF_XLOG_RECORD then inr (Err InvalidTotLen, self)
        else
          let pageleft := Lsn.remaining_in_block (lsn self) in
          if (xl_tot_len <=? remaining self) && (xl_tot_len <=? pageleft) then
            match add_lsn xl_tot_len self with
            | (Ok _, d) => inr (some_record (complete_record (peek xl_tot_len d) (advance xl_tot_len d)))
            | (Err e, d) => inr (Err e, d)
            | (Panic, d) => inr (Panic, d)
            end
          else inl (set_state (ReassemblingRecord [] xl_tot_len) self)
  | ReassemblingRecord recordbuf contlen =>
      let pageleft := Lsn.remaining_in_block (lsn self) in
      let n := Z.min contlen pageleft in
      if remaining self <? n then inr (Ok None, self)
      else
        let recordbuf := recordbuf ++ peek n self in
        match add_lsn n (advance n self) with
        | (Ok _, d) =>
            if contlen - n =? 0 then inr (some_record (complete_record recordbuf (set_state (ReassemblingRecord [] contlen) d)))
            else inl (set_state (ReassemblingRecord recordbuf (contlen - n)) d)
        | (Err e, d) => inr (Err e, d)
        | (Panic, d) => inr (Panic, d)
        end
  | SkippingEverything skip_until_lsn =>
      if negb (lsn self <=? skip_until_lsn) then inr (Panic, self)
      else
        let n := skip_until_lsn - lsn self in
        if remaining self <? n then inr (Ok None, self)
        else inl (Mk skip_until_lsn (drop (Z.to_nat n) (inputbuf self)) WaitingForRecord)
  end.

Definition step (self : t) : t + Poll :=
  match page_header self with
  | None => inr (Ok None, self)
  | Some (Ok _, d) => page_contents d
  | Some (Err e, d) => inr (Err e, d)
  | Some (Panic, d) => inr (Panic, d)
  end.

(** The [loop]; [None] would mean that the fuel did not suffice. *)
Fixpoint poll_loop (fuel : nat) (self : t) : option Poll :=
  match step self with
  | inr p => Some p
  | inl d => match fuel with O => None | S fuel => poll_loop fuel d end
  end.

(** An iteration that goes on takes input, or leaves the states in the order
    skipping, waiting, reassembling. *)
Definition rank (self : t) : nat :=
  match state self with SkippingEverything _ => 2 | WaitingForRecord => 1 | ReassemblingRecord _ _ => 0 end.
Definition fuel_for (self : t) : nat := 3 * length (inputbuf self) + rank self.
Definition poll_decode (self : t) : option Poll := poll_loop (fuel_for self) self.

(** All the records that are complete: [while let Some(..) = poll_decode()?]. *)
Fixpoint drain_loop (fuel : nat) (self : t) : option (list (Lsn * bytes) * result WalDecodeError unit * t) :=
  match poll_decode self with
  | Some (Ok (Some r), d) =>
      match fuel with
      | O => None
      | S fuel =>
          match drain_loop fuel d with
          | Some (rs, o, d') => Some (r :: rs, o, d')
          | None => None
          end
      end
  | Some (Ok None, d) => Some ([], Ok tt, d)
  | Some (Err e, d) => Some ([], Err e, d)
  | Some (Panic, d) => Some ([], Panic, d)
  | None => None
  end.
Definition drain (self : t) := drain_loop (length (inputbuf self)) self.
End layout.
End WalStreamDecoder.

(** * Facts *)

Import WalStreamDecoder.

Section facts.
Context `{WalLayoutLaws}.
Implicit Types (d : t) (c : bytes) (p q : Poll).

Local Notation "d ⊕ c" := (feed_bytes c d) (at level 50, left associativity).

(** A record that is being reassembled misses at least one byte. *)
Definition dec_wf d : Prop := match state d with ReassemblingRecord _ contlen => 0 < contlen | _ => True end.

Lemma remaining_feed d c : remaining (d ⊕ c) = remaining d + Z.of_nat (length c).
Proof. unfold remaining. simpl. rewrite length_app. lia. Qed.

Lemma peek_feed n d c : n ≤ remaining d → peek n (d ⊕ c) = peek n d.
Proof. unfold remaining, peek. simpl. intros Hn. by rewrite take_app_le by lia. Qed.

Lemma advance_feed n d c : n ≤ remaining d → advance n (d ⊕ c) = advance n d ⊕ c.
Proof. unfold remaining, advance, feed_bytes. simpl. intros Hn. f_equal. by rewrite drop_app_le by lia. Qed.

Lemma add_lsn_feed n d c : add_lsn n (d ⊕ c) = ((add_lsn n d).1, (add_lsn n d).2 ⊕ c).
Proof. unfold add_lsn. simpl. by destruct (Lsn.add (lsn d) n). Qed.

Lemma complete_record_feed rb d c :
  complete_record rb (d ⊕ c) = ((complete_record rb d).1, (complete_record rb d).2 ⊕ c).
Proof.
  unfold complete_record, ensure, mbind, M_bind, getS, modifyS, mret, M_ret, bail, liftR. simpl.
  destruct (_ =? xl_crc _); [|done]. destruct (is_xlog_switch_record _); [|done]. by destruct (Lsn.add _ _).
Qed.

Lemma remaining_advance n d : 0 ≤ n ≤ remaining d → remaining (advance n d) = remaining d - n.
Proof. unfold remaining, advance. simpl. intros Hn. rewrite length_drop. lia. Qed.

Lemma add_lsn_fields n d o d' : add_lsn n d = (o, d') → inputbuf d' = inputbuf d ∧ state d' = state d ∧ (o = Ok tt → lsn d' = lsn d + n).
Proof.
  unfold add_lsn, Lsn.add, checked_add. destruct (_ <? _); intros [= <- <-]; done.
Qed.

Lemma complete_record_fields rb d o d' :
  complete_record rb d = (o, d') → lsn d' = lsn d ∧ inputbuf d' = inputbuf d ∧
    match o with Ok (l, rb') => state d' = SkippingEverything l ∧ rb' = rb | _ => True end.
Proof.
  unfold complete_record, ensure, mbind, M_bind, getS, modifyS, mret, M_ret, bail, liftR.
  destruct (_ =? xl_crc _); [|by intros [= <- <-]]. destruct (is_xlog_switch_record _); [|by intros [= <- <-]].
  destruct (Lsn.add _ _); by intros [= <- <-].
Qed.

(** ** Page headers *)

Lemma read_header_feed size from d c :
  size ≤ remaining d → read_header size from (d ⊕ c) = ((read_header size from d).1, (read_header size from d).2 ⊕ c).
Proof.
  intros Hs. unfold read_header, mbind, M_bind, getS, modifyS, liftR. simpl.
  rewrite peek_feed, advance_feed by done.
  assert (validate_page_header (from (peek size d)) (d ⊕ c) = validate_page_header (from (peek size d)) d) as -> by done.
  destruct (validate_page_header _ _); [apply add_lsn_feed|done|done].
Qed.

Lemma page_header_feed d c o d1 :
  page_header d = Some (o, d1) → page_header (d ⊕ c) = Some (o, d1 ⊕ c).
Proof.
  unfold page_header. rewrite remaining_feed. cbn [state lsn feed_bytes].
  assert (∀ size from, (if remaining d <? size then None else Some (read_header size from d)) = Some (o, d1) →
    (if remaining d + Z.of_nat (length c) <? size then None else Some (read_header size from (d ⊕ c))) = Some (o, d1 ⊕ c)) as Hread.
  { intros size from. destruct (Z.ltb_spec (remaining d) size) as [|Hge]; [done|]. intros [= E].
    rewrite (proj2 (Z.ltb_ge _ _)) by lia. rewrite read_header_feed by lia. by rewrite E. }
  destruct (state d); [destruct (_ =? 0); [apply Hread|destruct (_ =? 0); [apply Hread|by intros [= <- <-]]]..|].
  by intros [= <- <-].
Qed.

Lemma read_header_fields size from d d1 :
  0 ≤ size ≤ remaining d → read_header size from d = (Ok tt, d1) →
  state d1 = state d ∧ lsn d1 = lsn d + size ∧ remaining d1 = remaining d - size.
Proof.
  intros Hs. unfold read_header, mbind, M_bind, getS, modifyS, liftR.
  destruct (validate_page_header _ _); [|done|done]. intros E.
  apply add_lsn_fields in E as (E1 & E2 & E3). specialize (E3 eq_refl). split; [done|]. split; [done|].
  unfold remaining. rewrite E1. by apply remaining_advance.
Qed.

Lemma segment_boundary l : Lsn.segment_offset l WAL_SEGMENT_SIZE = 0 → Lsn.block_offset l = 0.
Proof.
  unfold Lsn.segment_offset, Lsn.block_offset, WAL_SEGMENT_SIZE, Lsn.XLOG_BLCKSZ. intros E.
  apply Z.mod_divide; [done|]. apply Z.mod_divide in E as [k ->]; [|done]. exists (k * 2048). lia.
Qed.

Lemma inside_page l size : Lsn.block_offset l = 0 → 0 < size < Lsn.XLOG_BLCKSZ → Lsn.block_offset (l + size) ≠ 0.
Proof.
  unfold Lsn.block_offset, Lsn.XLOG_BLCKSZ. intros E Hs. rewrite Z.add_mod, E by lia.
  rewrite Z.add_0_l, Z.mod_mod, Z.mod_small by lia. lia.
Qed.

(** After the header the position is inside a page, and nothing is lost. *)
Lemma page_header_fields d d1 :
  page_header d = Some (Ok tt, d1) →
  state d1 = state d ∧ lsn d ≤ lsn d1 ∧ lsn d1 + remaining d1 = lsn d + remaining d ∧
  ((∃ l, state d = SkippingEverything l) ∧ d1 = d ∨ Lsn.block_offset (lsn d1) ≠ 0).
Proof.
  pose proof short_phd_size as Hshort. pose proof long_phd_size as Hlong. unfold page_header.
  assert (∀ size from, 0 < size < Lsn.XLOG_BLCKSZ → Lsn.block_offset (lsn d) = 0 →
    (if remaining d <? size then None else Some (read_header size from d)) = Some (Ok tt, d1) →
    state d1 = state d ∧ lsn d ≤ lsn d1 ∧ lsn d1 + remaining d1 = lsn d + remaining d ∧
    ((∃ l, state d = SkippingEverything l) ∧ d1 = d ∨ Lsn.block_offset (lsn d1) ≠ 0)) as Hread.
  { intros size from Hsz Hb. destruct (Z.ltb_spec (remaining d) size) as [|Hge]; [done|]. intros [= E].
    apply read_header_fields in E as (-> & -> & ->); [|lia]. split_and!; [done|lia|lia|]. right. by apply inside_page. }
  destruct (state d) eqn:Es; [..|intros [= <-]; split_and!; [done|lia|lia|left; split; [by eexists|done]]].
  all: destruct (Z.eqb_spec (Lsn.segment_offset (lsn d) WAL_SEGMENT_SIZE) 0) as [E|E];
    [apply Hread; [done|by apply segment_boundary]|].
  all: destruct (Z.eqb_spec (Lsn.block_offset (lsn d)) 0) as [E'|E']; [by apply Hread|].
  all: intros [= <-]; split_and!; [done|lia|lia|by right].
Qed.

(** The header is read once. *)
Lemma page_header_again d : Lsn.block_offset (lsn d) ≠ 0 → page_header d = Some (Ok tt, d).
Proof.
  intros Hb. unfold page_header.
  assert (Lsn.segment_offset (lsn d) WAL_SEGMENT_SIZE ≠ 0) as Hs by (by intros ?%segment_boundary).
  rewrite (proj2 (Z.eqb_neq _ _) Hs), (proj2 (Z.eqb_neq _ _) Hb). by destruct (state d).
Qed.

Lemma page_header_idem d d1 c :
  page_header d = Some (Ok tt, d1) → page_header (d1 ⊕ c) = Some (Ok tt, d1 ⊕ c).
Proof.
  intros E. destruct (page_header_fields d d1 E) as (Es & _ & _ & [[[l El] ->]|Hb]); [|by apply page_header_again].
  unfold page_header. simpl. by rewrite El.
Qed.

(** ** Page contents *)

Lemma page_left l : 0 < Lsn.remaining_in_block l.
Proof.
  unfold Lsn.remaining_in_block, Lsn.XLOG_BLCKSZ. pose proof (Z.mod_pos_bound l 8192). lia.
Qed.

Lemma remaining_nonneg d : 0 ≤ remaining d.
Proof. unfold remaining. lia. Qed.

Definition fuelZ d : Z := 3 * remaining d + Z.of_nat (rank d).
Lemma fuel_for_Z d : Z.of_nat (fuel_for d) = fuelZ d.
Proof. unfold fuel_for, fuelZ, remaining. lia. Qed.

(** Where the next record starts at the earliest. *)
Definition record_floor d : Lsn := match state d with SkippingEverything l => Z.max l (lsn d) | _ => lsn d end.

(** The end of the segment with [l], which a record that ends at [l] reaches at
    most: the padding of a switch record. *)
Definition segment_end (l : Lsn) : Lsn := l + Lsn.calc_padding l WAL_SEGMENT_SIZE.
Definition LSN_LIMIT : Z := 2 ^ 64 - 2 ^ 25.

Lemma segment_end_spec l :
  l ≤ segment_end l < l + WAL_SEGMENT_SIZE ∧ segment_end l mod WAL_SEGMENT_SIZE = 0.
Proof.
  destruct (calc_padding_correct l WAL_SEGMENT_SIZE) as [H1 H2]; [done|by exists (2 ^ 40)|].
  unfold segment_end. split; [lia|done].
Qed.

Lemma segment_end_mono a b : a ≤ b → segment_end a ≤ segment_end b.
Proof.
  intros Hab. destruct (segment_end_spec a) as [Ha Ea], (segment_end_spec b) as [Hb Eb].
  apply Z.mod_divide in Ea as [x Ex], Eb as [y Ey]; [|done..]. unfold WAL_SEGMENT_SIZE in *.
  assert (x ≤ y); [|lia]. destruct (Z.leb_spec x y); lia.
Qed.

Lemma align_segment_end l : 0 ≤ l ≤ LSN_LIMIT → l ≤ Lsn.align l ≤ segment_end l.
Proof.
  unfold LSN_LIMIT. intros Hl. destruct (align_least l) as (E8 & Ha & _); [lia|]. destruct (segment_end_spec l) as [Hs Es].
  split; [lia|]. apply Z.mod_divide in E8 as [x Ex]; [|done]. apply Z.mod_divide in Es as [y Ey]; [|done].
  unfold WAL_SEGMENT_SIZE in *. lia.
Qed.

Lemma complete_record_lsn rb d l rb' d' :
  complete_record rb d = (Ok (l, rb'), d') → 0 ≤ lsn d ≤ LSN_LIMIT → lsn d ≤ l ≤ segment_end (lsn d).
Proof.
  intros E Hl. revert E. unfold complete_record, ensure, mbind, M_bind, getS, modifyS, mret, M_ret, bail, liftR.
  destruct (_ =? xl_crc _); [|done]. destruct (is_xlog_switch_record _).
  - unfold Lsn.add, checked_add. destruct (_ <? _); intros [= <- <- <-]. destruct (segment_end_spec (lsn d)) as [? _].
    unfold segment_end in *. lia.
  - intros [= <- <- <-]. by apply align_segment_end.
Qed.

(** What an iteration keeps: nothing of the input is lost, and it makes
    progress. *)
Definition contents_post d (r : t + Poll) : Prop :=
  match r with
  | inl d' => dec_wf d' ∧ lsn d ≤ lsn d' ∧ record_floor d ≤ record_floor d' ∧ lsn d' + remaining d' = lsn d + remaining d ∧
      fuelZ d' < fuelZ d
  | inr (Ok None, d') => d' = d
  | inr (Ok (Some (l, _)), d') =>
      state d' = SkippingEverything l ∧ lsn d < lsn d' ∧ record_floor d < lsn d' ∧
      lsn d' + remaining d' = lsn d + remaining d ∧ (0 ≤ lsn d' ≤ LSN_LIMIT → lsn d' ≤ l ≤ segment_end (lsn d'))
  | inr _ => True
  end.

Lemma some_record_post d d1 rb o d' :
  lsn d < lsn d1 → record_floor d = lsn d → lsn d1 + remaining d1 = lsn d + remaining d → complete_record rb d1 = (o, d') →
  contents_post d (inr (some_record (o, d'))).
Proof.
  intros Hl Hf Hr E. pose proof E as E0. apply complete_record_fields in E as (E1 & E2 & E3).
  destruct o as [[l rb']| |]; [|done..]. simpl. destruct E3 as [-> _]. unfold remaining in *. rewrite E1, E2.
  split_and!; [done|lia|lia|done|]. intros Hl'. by eapply complete_record_lsn.
Qed.

Lemma page_contents_post d : dec_wf d → contents_post d (page_contents d).
Proof.
  intros Hwf. pose proof (page_left (lsn d)) as Hpl. pose proof (remaining_nonneg d) as Hrem. unfold page_contents.
  destruct (state d) as [|rb contlen|skip] eqn:Es.
  - destruct (_ <? 4); [done|]. destruct (Z.ltb_spec (le_val (peek 4 d)) SIZE_OF_XLOG_RECORD) as [|Htot]; [done|].
    pose proof record_size as Hsize. unfold XLOG_RECORD_CRC_OFFS in Hsize. set (tot := le_val (peek 4 d)) in *.
    destruct (_ && _) eqn:E.
    + destruct (add_lsn tot d) as [[[]|e|] d1] eqn:Ea; [|done..]. apply add_lsn_fields in Ea as (E1 & E2 & E3).
      specialize (E3 eq_refl). assert (remaining d1 = remaining d) as Er by (unfold remaining; by rewrite E1).
      destruct (complete_record _ _) as [o d'] eqn:Ec. eapply some_record_post; [..|exact Ec]; simpl; [lia|unfold record_floor; by rewrite Es|].
      rewrite remaining_advance by lia. lia.
    + unfold contents_post, fuelZ, dec_wf, record_floor, remaining, rank. simpl. rewrite Es. lia.
  - unfold dec_wf in Hwf. rewrite Es in Hwf. set (n := Z.min contlen _).
    destruct (Z.ltb_spec (remaining d) n) as [|Hn]; [done|].
    destruct (add_lsn n (advance n d)) as [[[]|e|] d1] eqn:Ea; [|done..].
    apply add_lsn_fields in Ea as (E1 & E2 & E3). specialize (E3 eq_refl). simpl in E3.
    assert (remaining d1 = remaining d - n) as Er by (unfold remaining; rewrite E1; apply remaining_advance; lia).
    destruct (Z.eqb_spec (contlen - n) 0) as [E|E].
    + destruct (complete_record _ _) as [o d'] eqn:Ec. eapply some_record_post; [..|exact Ec]; simpl; [lia|unfold record_floor; by rewrite Es|].
      change (remaining (set_state _ d1)) with (remaining d1). lia.
    + unfold contents_post, fuelZ, dec_wf, record_floor. change (remaining (set_state _ d1)) with (remaining d1).
      unfold rank. simpl. rewrite Es. lia.
  - destruct (Z.leb_spec (lsn d) skip) as [Hle|]; [|done]. simpl.
    destruct (Z.ltb_spec (remaining d) (skip - lsn d)) as [|Hn]; [done|].
    unfold contents_post, fuelZ, dec_wf, record_floor, rank, remaining in *. simpl. rewrite Es, length_drop. lia.
Qed.

(** The fast path and the way through the reassembling state. *)
Definition fast_path d : Poll :=
  let tot := le_val (peek 4 d) in
  match add_lsn tot d with
  | (Ok _, d') => some_record (complete_record (peek tot d') (advance tot d'))
  | (Err e, d') => (Err e, d')
  | (Panic, d') => (Panic, d')
  end.

Lemma some_record_feed o d c :
  some_record (o, d ⊕ c) = ((some_record (o, d)).1, (some_record (o, d)).2 ⊕ c).
Proof. by destruct o. Qed.

Lemma page_contents_feed d c :
  dec_wf d →
  match page_contents d with
  | inl d' => page_contents (d ⊕ c) = inl (d' ⊕ c) ∨
      (∃ tot, state d = WaitingForRecord ∧ d' = set_state (ReassemblingRecord [] tot) d ∧ 0 < tot ∧
        tot = le_val (peek 4 (d ⊕ c)) ∧ tot ≤ Lsn.remaining_in_block (lsn d) ∧ tot ≤ remaining (d ⊕ c) ∧
        page_contents (d ⊕ c) = inr (fast_path (d ⊕ c)))
  | inr (Ok None, _) => True
  | inr (o, d') => page_contents (d ⊕ c) = inr (o, d' ⊕ c)
  end.
Proof.
  intros Hwf. pose proof record_size as Hsize. unfold XLOG_RECORD_CRC_OFFS in Hsize.
  unfold page_contents. cbn [state lsn feed_bytes]. fold (d ⊕ c). rewrite remaining_feed.
  destruct (state d) as [|rb contlen|skip] eqn:Es.
  - destruct (Z.ltb_spec (remaining d) 4) as [|H4]; [done|]. rewrite (proj2 (Z.ltb_ge _ 4)) by lia.
    rewrite (peek_feed 4) by lia. set (tot := le_val (peek 4 d)).
    destruct (Z.ltb_spec tot SIZE_OF_XLOG_RECORD) as [|Htot]; [done|].
    destruct (Z.leb_spec tot (remaining d)) as [Hr|Hr]; cbn [andb].
    + rewrite (proj2 (Z.leb_le tot (remaining d + Z.of_nat (length c)))) by lia. cbn [andb].
      destruct (tot <=? _); [|by left].
      rewrite add_lsn_feed. destruct (add_lsn tot d) as [[[]|e|] d1] eqn:Ea; simpl; [|done..].
      apply add_lsn_fields in Ea as (E1 & E2 & E3).
      assert (remaining d1 = remaining d) as Er by (unfold remaining; by rewrite E1).
      rewrite peek_feed, advance_feed, complete_record_feed by lia.
      destruct (complete_record _ _) as [[r|e|] d']; done.
    + destruct (Z.leb_spec tot (remaining d + Z.of_nat (length c))) as [Hr'|]; cbn [andb]; [|by left].
      destruct (Z.leb_spec tot (Lsn.remaining_in_block (lsn d))) as [Hp|]; [|by left].
      right. exists tot. split_and!; try done; try lia. unfold fast_path. rewrite (peek_feed 4) by lia. fold tot.
      by destruct (add_lsn tot (d ⊕ c)) as [[| |] ?].
  - set (n := Z.min contlen _). destruct (Z.ltb_spec (remaining d) n) as [|Hn]; [done|].
    rewrite (proj2 (Z.ltb_ge _ n)) by lia. rewrite peek_feed, advance_feed, add_lsn_feed by lia.
    destruct (add_lsn n (advance n d)) as [[[]|e|] d1]; simpl; [|done..].
    destruct (_ =? 0); [|by left].
    change (set_state (ReassemblingRecord [] contlen) (d1 ⊕ c)) with (set_state (ReassemblingRecord [] contlen) d1 ⊕ c).
    rewrite complete_record_feed. destruct (complete_record _ _) as [[r|e|] d']; done.
  - destruct (lsn d <=? skip); simpl; [|done]. destruct (Z.ltb_spec (remaining d) (skip - lsn d)) as [|Hn]; [done|].
    rewrite (proj2 (Z.ltb_ge _ _)) by lia. left. unfold feed_bytes. simpl. do 2 f_equal. unfold remaining in Hn.
    by rewrite drop_app_le by lia.
Qed.

(** ** Polling, without fuel *)

Inductive polls : t → Poll → Prop :=
  | polls_return d p : step d = inr p → polls d p
  | polls_continue d d' p : step d = inl d' → polls d' p → polls d p.

Lemma polls_functional d p q : polls d p → polls d q → p = q.
Proof.
  intros Hp. revert q. induction Hp as [d p E|d d' p E _ IH]; intros q Hq; inversion Hq as [? ? E'|? d2 ? E' Hq'];
    subst; rewrite E in E'; simplify_eq; [done|by apply IH].
Qed.

(** What an iteration keeps, header included. *)
Lemma step_post d : dec_wf d → 
  match step d with
  | inl d' => dec_wf d' ∧ lsn d ≤ lsn d' ∧ record_floor d ≤ record_floor d' ∧ lsn d' + remaining d' = lsn d + remaining d ∧
      fuelZ d' < fuelZ d
  | inr (Ok None, d') => dec_wf d' ∧ lsn d ≤ lsn d' ∧ record_floor d ≤ record_floor d' ∧ lsn d' + remaining d' = lsn d + remaining d
  | inr (Ok (Some (l, _)), d') =>
      state d' = SkippingEverything l ∧ lsn d < lsn d' ∧ record_floor d < lsn d' ∧
      lsn d' + remaining d' = lsn d + remaining d ∧ (0 ≤ lsn d' ≤ LSN_LIMIT → lsn d' ≤ l ≤ segment_end (lsn d'))
  | inr _ => True
  end.
Proof.
  intros Hwf. unfold step. destruct (page_header d) as [[[[]|e|] d1]|] eqn:E; [|done..|split_and!; done || lia].
  destruct (page_header_fields d d1 E) as (Es & Hl & Hr & _).
  assert (dec_wf d1) as Hwf1 by (unfold dec_wf; by rewrite Es).
  assert (fuelZ d1 ≤ fuelZ d) as Hf by (unfold fuelZ, rank; rewrite Es; lia).
  assert (record_floor d ≤ record_floor d1) as Hfl by (unfold record_floor; rewrite Es; destruct (state d); lia).
  pose proof (page_contents_post d1 Hwf1) as Hp. destruct (page_contents d1) as [d'|[[[[l rb]|]|e|] d']]; simpl in Hp.
  - destruct Hp as (? & ? & ? & ? & ?). split_and!; [done|lia..].
  - destruct Hp as (? & ? & ? & ? & ?). split_and!; [done|lia|lia|lia|done].
  - subst d'. split_and!; [done|lia..].
  - done.
  - done.
Qed.

Lemma poll_loop_polls fuel d : dec_wf d → fuelZ d ≤ Z.of_nat fuel → ∃ p, poll_loop fuel d = Some p ∧ polls d p.
Proof.
  revert d. induction fuel as [|fuel IH]; intros d Hwf Hf; simpl; pose proof (step_post d Hwf) as Hs;
    destruct (step d) as [d'|p] eqn:E; try (by exists p; split; [done|by constructor]).
  - destruct Hs as (_ & _ & _ & _ & Hlt). pose proof (remaining_nonneg d'). unfold fuelZ in *. lia.
  - destruct Hs as (Hwf' & _ & _ & _ & Hlt). destruct (IH d' Hwf') as (p & -> & Hp); [lia|].
    exists p. split; [done|]. by eapply polls_continue.
Qed.

Lemma poll_decode_polls d : dec_wf d → ∃ p, poll_decode d = Some p ∧ polls d p.
Proof. intros Hwf. apply poll_loop_polls; [done|]. by rewrite fuel_for_Z. Qed.

Lemma polls_post d p : polls d p → dec_wf d →
  match p with
  | (Ok None, d') => dec_wf d' ∧ lsn d ≤ lsn d' ∧ record_floor d ≤ record_floor d' ∧ lsn d' + remaining d' = lsn d + remaining d
  | (Ok (Some (l, _)), d') =>
      state d' = SkippingEverything l ∧ lsn d < lsn d' ∧ record_floor d < lsn d' ∧
      lsn d' + remaining d' = lsn d + remaining d ∧ (0 ≤ lsn d' ≤ LSN_LIMIT → lsn d' ≤ l ≤ segment_end (lsn d'))
  | _ => True
  end.
Proof.
  induction 1 as [d p E|d d' p E _ IH]; intros Hwf; pose proof (step_post d Hwf) as Hs; rewrite E in Hs.
  - done.
  - destruct Hs as (Hwf' & Hl & Hfl & Hr & _). specialize (IH Hwf'). destruct p as [[[[l rb]|]|e|] d2]; [..|done|done].
    + destruct IH as (? & ? & ? & ? & ?). split_and!; [done|lia|lia|lia|done].
    + destruct IH as (? & ? & ? & ?). split_and!; [done|lia..].
Qed.

(** An error leaves a decoder that goes on no earlier. *)
Definition error_post d d' : Prop :=
  dec_wf d' ∧ lsn d ≤ lsn d' ∧ record_floor d ≤ lsn d' ∧ lsn d' ≤ record_floor d' ∧ lsn d' + remaining d' ≤ lsn d + remaining d.

Lemma complete_record_error rb d e d' : complete_record rb d = (Err e, d') → d' = d.
Proof.
  unfold complete_record, ensure, mbind, M_bind, getS, modifyS, mret, M_ret, bail, liftR.
  destruct (_ =? xl_crc _); [|by intros [= _ <-]]. destruct (is_xlog_switch_record _); [|done]. by destruct (Lsn.add _ _).
Qed.

Lemma add_lsn_error n d e d' : add_lsn n d ≠ (Err e, d').
Proof. unfold add_lsn. by destruct (Lsn.add _ _). Qed.

Lemma page_contents_error d e d' : dec_wf d → page_contents d = inr (Err e, d') → error_post d d'.
Proof.
  intros Hwf. unfold page_contents, error_post, record_floor. pose proof (page_left (lsn d)) as Hpl.
  pose proof record_size as Hsize. unfold XLOG_RECORD_CRC_OFFS in Hsize.
  destruct (state d) as [|rb contlen|skip] eqn:Es; [..|repeat case_match; by intros].
  - destruct (_ <? 4); [done|]. destruct (Z.ltb_spec (le_val (peek 4 d)) SIZE_OF_XLOG_RECORD) as [|Htot];
      [intros [= _ <-]; rewrite Es; split_and!; [done|lia..]|]. set (tot := le_val (peek 4 d)) in *.
    destruct (_ && _) eqn:Ec; [|done]. destruct (add_lsn tot d) as [[[]|e2|] d2] eqn:Ea; [|by apply add_lsn_error in Ea|done].
    apply add_lsn_fields in Ea as (E1 & E2 & E3). specialize (E3 eq_refl).
    destruct (complete_record _ _) as [[r|e3|] d3] eqn:Er; intros [= _ <-]. apply complete_record_error in Er as ->.
    assert (remaining d2 = remaining d) by (unfold remaining; by rewrite E1).
    unfold dec_wf. rewrite remaining_advance by lia. simpl. rewrite E2, Es. split_and!; [done|lia..].
  - pose proof Hwf as Hc. unfold dec_wf in Hc. rewrite Es in Hc. set (n := Z.min contlen _).
    destruct (Z.ltb_spec (remaining d) n) as [|Hn]; [done|].
    destruct (add_lsn n (advance n d)) as [[[]|e2|] d2] eqn:Ea; [|by apply add_lsn_error in Ea|done].
    apply add_lsn_fields in Ea as (E1 & E2 & E3). specialize (E3 eq_refl). simpl in E3.
    assert (remaining d2 = remaining d - n) as Er by (unfold remaining; rewrite E1; apply remaining_advance; lia).
    destruct (_ =? 0); [|done]. destruct (complete_record _ _) as [[r|e3|] d3] eqn:Ec; intros [= _ <-].
    apply complete_record_error in Ec as ->. change (remaining (set_state _ d2)) with (remaining d2).
    simpl. split_and!; [done|lia..].
Qed.

Lemma page_header_error d e d1 : dec_wf d → page_header d = Some (Err e, d1) → error_post d d1.
Proof.
  intros Hwf. pose proof short_phd_size as Hs. pose proof long_phd_size as Hl. unfold page_header.
  assert (∀ size from, 0 < size → record_floor d = lsn d →
    (if remaining d <? size then None else Some (read_header size from d)) = Some (Err e, d1) → error_post d d1) as Hread.
  { intros size from Hsz Hfl. destruct (Z.ltb_spec (remaining d) size) as [|Hge]; [done|]. intros [= E]. revert E.
    unfold read_header, mbind, M_bind, getS, modifyS, liftR.
    destruct (validate_page_header _ _); [by intros ?%add_lsn_error| |done]. intros [= _ <-].
    unfold error_post. rewrite remaining_advance by lia. simpl. change (record_floor (advance size d)) with (record_floor d).
    split_and!; [done|lia..]. }
  unfold record_floor in Hread. destruct (state d) eqn:Es; [..|done];
    (destruct (_ =? 0); [apply Hread; lia|destruct (_ =? 0); [apply Hread; lia|done]]).
Qed.

Lemma step_error d e d' : dec_wf d → step d = inr (Err e, d') → error_post d d'.
Proof.
  intros Hwf. unfold step. destruct (page_header d) as [[[[]|e1|] d1]|] eqn:E; [| |done|done].
  - destruct (page_header_fields d d1 E) as (Es & Hl & Hr & _). intros Ec.
    assert (dec_wf d1) as Hwf1 by (unfold dec_wf; by rewrite Es).
    assert (record_floor d ≤ record_floor d1) as Hfl by (unfold record_floor; rewrite Es; destruct (state d); lia).
    destruct (page_contents_error d1 e d' Hwf1 Ec) as (? & ? & ? & ? & ?). split_and!; [done|lia..].
  - intros [= -> ->]. by eapply page_header_error.
Qed.

Lemma polls_error d p : polls d p → dec_wf d → match p with (Err _, d') => error_post d d' | _ => True end.
Proof.
  induction 1 as [d p E|d d' p E _ IH]; intros Hwf.
  - destruct p as [[|e|] d']; [done| |done]. by eapply step_error.
  - pose proof (step_post d Hwf) as Hs. rewrite E in Hs. destruct Hs as (Hwf' & Hl & Hfl & Hr & _). specialize (IH Hwf').
    destruct p as [[|e|] d2]; [done| |done]. destruct IH as (? & ? & ? & ? & ?). split_and!; [done|lia..].
Qed.

(** Same answer; the same state too, unless the answer is an error. *)
Definition same_poll p q : Prop := p.1 = q.1 ∧ (is_ok p.1 = true → p.2 = q.2).

(** From the same position and input, with the record already being
    reassembled, the outcome is that of the fast path. *)
Lemma fast_path_polls d tot q :
  Lsn.block_offset (lsn d) ≠ 0 → 0 < tot → tot = le_val (peek 4 d) → tot ≤ Lsn.remaining_in_block (lsn d) →
  tot ≤ remaining d → polls (set_state (ReassemblingRecord [] tot) d) q → same_poll q (fast_path d).
Proof.
  intros Hb Hpos Etot Hpl Hrem Hq.
  assert (step (set_state (ReassemblingRecord [] tot) d) = inr q) as Hstep.
  { inversion Hq as [? ? E|? d' ? E Hq']; subst; [done|]. exfalso. revert E. unfold step.
    rewrite page_header_again by done. unfold page_contents. cbn [state set_state lsn].
    change (remaining (set_state _ d)) with (remaining d). rewrite Z.min_l by done.
    rewrite (proj2 (Z.ltb_ge _ _)) by done. destruct (add_lsn _ _) as [[[]|e|] d1]; [|done..].
    by rewrite Z.sub_diag. }
  unfold step in Hstep. rewrite page_header_again in Hstep by done. unfold page_contents in Hstep.
  cbn [state set_state lsn] in Hstep. change (remaining (set_state _ d)) with (remaining d) in Hstep.
  rewrite Z.min_l, (proj2 (Z.ltb_ge _ _)) in Hstep by done. rewrite Z.sub_diag in Hstep. simpl in Hstep.
  unfold fast_path. rewrite <-Etot. unfold add_lsn in *. simpl in *.
  destruct (Lsn.add (lsn d) tot) as [l|e|]; [|by injection Hstep as <-..].
  simpl in Hstep. unfold peek in *. simpl in *. revert Hstep.
  unfold complete_record, ensure, mbind, M_bind, getS, modifyS, mret, M_ret, bail, liftR. simpl.
  destruct (_ =? xl_crc _); [|by intros [= <-]]. destruct (is_xlog_switch_record _); [|by intros [= <-]].
  by destruct (Lsn.add _ _); intros [= <-].
Qed.

(** ** More input *)

Lemma step_feed_none d d' c q : step d = inr (Ok None, d') → dec_wf d → polls (d' ⊕ c) q → polls (d ⊕ c) q.
Proof.
  unfold step. destruct (page_header d) as [[[[]|e|] d1]|] eqn:E; [|done|done|by intros [= <-]].
  intros Ec Hwf Hq. destruct (page_header_fields d d1 E) as (Es & _).
  assert (dec_wf d1) as Hwf1 by (unfold dec_wf; by rewrite Es).
  pose proof (page_contents_post d1 Hwf1) as Hp. rewrite Ec in Hp. simpl in Hp. subst d'.
  assert (step (d1 ⊕ c) = step (d ⊕ c)) as Est.
  { unfold step. by rewrite (page_header_idem d d1 c E), (page_header_feed d c _ d1 E). }
  inversion Hq; subst; rewrite Est in *; [by apply polls_return|by eapply polls_continue].
Qed.

(** A poll with more input: a record or an error does not depend on it, and
    where the decoder stopped for lack of input it goes on. *)
Lemma polls_feed d p c : polls d p → dec_wf d →
  match p with
  | (Ok None, d') => ∀ q, polls (d' ⊕ c) q → ∃ q', polls (d ⊕ c) q' ∧ same_poll q q'
  | (o, d') => ∃ q', polls (d ⊕ c) q' ∧ same_poll (o, d' ⊕ c) q'
  end.
Proof.
  induction 1 as [d p E|d d2 p E _ IH]; intros Hwf.
  - assert (∀ o d', step d = inr (o, d') → o ≠ Ok None → step (d ⊕ c) = inr (o, d' ⊕ c)) as Hret.
    { intros o d'. unfold step. destruct (page_header d) as [[o1 d1]|] eqn:Eh; [|by intros [= <- <-]].
      rewrite (page_header_feed d c o1 d1 Eh). destruct o1 as [[]|e|]; [|by intros [= <- <-]..].
      destruct (page_header_fields d d1 Eh) as (Es & _).
      assert (dec_wf d1) as Hwf1 by (unfold dec_wf; by rewrite Es). pose proof (page_contents_feed d1 c Hwf1) as Hc.
      intros Ec Hne. rewrite Ec in Hc. destruct o as [[|]|e|]; [done|done|done|done]. }
    destruct p as [[[r|]|e|] d'].
    + eexists. split; [apply polls_return, (Hret _ _ E); done|done].
    + intros q Hq. exists q. split; [by eapply step_feed_none|done].
    + eexists. split; [apply polls_return, (Hret _ _ E); done|done].
    + eexists. split; [apply polls_return, (Hret _ _ E); done|done].
  - pose proof (step_post d Hwf) as Hs. rewrite E in Hs. destruct Hs as (Hwf2 & _). specialize (IH Hwf2).
    assert (∀ q, polls (d2 ⊕ c) q → ∃ q', polls (d ⊕ c) q' ∧ same_poll q q') as Hgo.
    { intros q Hq. unfold step in E. destruct (page_header d) as [[[[]|e|] d1]|] eqn:Eh; [|done..].
      destruct (page_header_fields d d1 Eh) as (Es & _ & _ & Hb).
      assert (dec_wf d1) as Hwf1 by (unfold dec_wf; by rewrite Es). pose proof (page_contents_feed d1 c Hwf1) as Hc.
      rewrite E in Hc. destruct Hc as [Hc|(tot & Ew & -> & Hpos & Etot & Hpl & Hrem & Hc)].
      - exists q. split; [|done]. eapply polls_continue; [|exact Hq]. unfold step. by rewrite (page_header_feed d c _ d1 Eh).
      - exists (fast_path (d1 ⊕ c)). split; [apply polls_return; unfold step; by rewrite (page_header_feed d c _ d1 Eh)|].
        eapply fast_path_polls; [..|exact Hq]; try done. destruct Hb as [[[l El] _]|Hb]; [congruence|done]. }
    assert (∀ x y z, same_poll x y → same_poll y z → same_poll x z) as Htrans.
    { intros x y z [E1 E2] [E3 E4]. split; [congruence|]. intros Ho. rewrite E2, E4; [done|congruence|done]. }
    destruct p as [[[r|]|e|] d'];
      [destruct IH as (q1 & Hq1 & H1)|intros q Hq; destruct (IH q Hq) as (q1 & Hq1 & H1)
      |destruct IH as (q1 & Hq1 & H1)|destruct IH as (q1 & Hq1 & H1)];
      destruct (Hgo q1 Hq1) as (q2 & Hq2 & H2); exists q2; (split; [done|by eapply Htrans]).
Qed.

(** ** All records of the input *)

Inductive drains : t → list (Lsn * bytes) → result WalDecodeError unit → t → Prop :=
  | drains_none d d' : polls d (Ok None, d') → drains d [] (Ok tt) d'
  | drains_err d e d' : polls d (Err e, d') → drains d [] (Err e) d'
  | drains_panic d d' : polls d (Panic, d') → drains d [] Panic d'
  | drains_some d r d1 rs o d' : polls d (Ok (Some r), d1) → drains d1 rs o d' → drains d (r :: rs) o d'.

Lemma polls_some_wf d l rb d' : polls d (Ok (Some (l, rb)), d') → dec_wf d → dec_wf d' ∧ remaining d' < remaining d.
Proof.
  intros Hp Hwf. destruct (polls_post _ _ Hp Hwf) as (Es & Hl & _ & Hr & _). split; [unfold dec_wf; by rewrite Es|lia].
Qed.

Lemma drain_loop_drains fuel d : dec_wf d → remaining d ≤ Z.of_nat fuel →
  ∃ rs o d', drain_loop fuel d = Some (rs, o, d') ∧ drains d rs o d'.
Proof.
  revert d. induction fuel as [|fuel IH]; intros d Hwf Hf; cbn [drain_loop];
    destruct (poll_decode_polls d Hwf) as ([[[[l rb]|]|e|] d'] & -> & Hp);
    try (by eexists _, _, _; split; [done|by econstructor]).
  - pose proof (polls_some_wf _ _ _ _ Hp Hwf). pose proof (remaining_nonneg d'). lia.
  - destruct (polls_some_wf _ _ _ _ Hp Hwf) as [Hwf' Hr].
    destruct (IH d' Hwf') as (rs & o & d2 & -> & Hd); [lia|]. eexists _, _, _. split; [done|]. by econstructor.
Qed.

Lemma drain_drains d : dec_wf d → ∃ rs o d', drain d = Some (rs, o, d') ∧ drains d rs o d'.
Proof. intros Hwf. by apply drain_loop_drains. Qed.

Lemma drains_functional d rs o d1 rs' o' d1' :
  drains d rs o d1 → drains d rs' o' d1' → rs = rs' ∧ o = o' ∧ d1 = d1'.
Proof.
  intros Hd. revert rs' o' d1'. induction Hd as [d d' Hp|d e d' Hp|d d' Hp|d r dx rs o d' Hp _ IH]; intros rs' o' d1' Hd';
    inversion Hd'; subst;
    match goal with H : polls d ?q |- _ => match type of Hp with polls d ?p => assert (p = q) as Epq by (by eapply polls_functional) end end;
    simplify_eq; try done.
  edestruct IH as (-> & -> & ->); [eassumption|done].
Qed.

Lemma drains_ok_wf d rs o d1 : drains d rs o d1 → dec_wf d → o = Ok tt →
  dec_wf d1 ∧ lsn d ≤ lsn d1 ∧ lsn d1 + remaining d1 = lsn d + remaining d.
Proof.
  induction 1 as [d d' Hp|d e d' Hp|d d' Hp|d [l rb] dx rs o d' Hp _ IH]; intros Hwf Ho; [|done..|].
  - destruct (polls_post _ _ Hp Hwf) as (? & ? & _ & ?). done.
  - destruct (polls_some_wf _ _ _ _ Hp Hwf) as [Hwf' _]. destruct (polls_post _ _ Hp Hwf) as (_ & Hl & _ & Hr & _).
    destruct (IH Hwf' Ho) as (? & ? & ?). split_and!; [done|lia..].
Qed.

(** The ends of the records increase, and stay within the segment that the input
    reaches. *)
Lemma drains_lsns d rs o d1 : drains d rs o d1 → dec_wf d → 0 ≤ lsn d → lsn d + remaining d ≤ LSN_LIMIT →
  StronglySorted Z.lt (rs.*1) ∧ Forall (λ l, record_floor d < l ≤ segment_end (lsn d + remaining d)) (rs.*1) ∧
  (o ≠ Panic → dec_wf d1 ∧ lsn d ≤ lsn d1 ∧ lsn d1 + remaining d1 ≤ lsn d + remaining d ∧
     Forall (λ l, l ≤ record_floor d1) rs.*1 ∧ record_floor d ≤ record_floor d1) ∧
  (o = Ok tt → lsn d1 + remaining d1 = lsn d + remaining d) ∧
  (∀ e, o = Err e → record_floor d ≤ lsn d1 ∧ Forall (λ l, l ≤ lsn d1) rs.*1).
Proof.
  induction 1 as [d d' Hp|d e d' Hp|d d' Hp|d [l rb] dx rs o d' Hp _ IH]; intros Hwf Hl Hlim; simpl.
  - destruct (polls_post _ _ Hp Hwf) as (? & ? & ? & ?). split; [constructor|]. split; [constructor|].
    split; [intros _; split_and!; [done|lia|lia|constructor|done]|done].
  - destruct (polls_error _ _ Hp Hwf) as (? & ? & ? & ? & ?). split; [constructor|]. split; [constructor|].
    split; [intros _; split_and!; [done|lia|lia|constructor|lia]|]. split; [done|]. intros; split; [done|constructor].
  - split; [constructor|]. split; [constructor|]. done.
  - destruct (polls_some_wf _ _ _ _ Hp Hwf) as [Hwf' _].
    destruct (polls_post _ _ Hp Hwf) as (Es & Hl' & Hfl & Hr & Hrec). pose proof (remaining_nonneg dx).
    destruct (Hrec ltac:(lia)) as [Hr1 Hr2]. destruct (IH Hwf' ltac:(lia) ltac:(lia)) as (Hs & Hf & Hnp & Hok & Herr).
    assert (record_floor dx = l) as Efl by (unfold record_floor; rewrite Es; lia). rewrite Efl, Hr in Hf. rewrite Efl in Hnp, Herr.
    pose proof (segment_end_mono (lsn dx) (lsn d + remaining d) ltac:(lia)). split_and!.
    + constructor; [done|]. eapply Forall_impl; [exact Hf|]. simpl. lia.
    + constructor; [lia|]. eapply Forall_impl; [exact Hf|]. simpl. lia.
    + intros Eo. destruct (Hnp Eo) as (? & ? & ? & ? & ?). split_and!; [done|lia|lia|constructor; [lia|done]|lia].
    + intros Eo. specialize (Hok Eo). lia.
    + intros e Eo. destruct (Herr e Eo) as [? ?]. split; [lia|]. constructor; [lia|done].
Qed.

Lemma drains_feed d rs o1 d1 c rs2 o2 d2 :
  drains d rs o1 d1 → o1 = Ok tt → dec_wf d → drains (d1 ⊕ c) rs2 o2 d2 →
  ∃ d2', drains (d ⊕ c) (rs ++ rs2) o2 d2' ∧ (o2 = Ok tt → d2' = d2).
Proof.
  intros Hd Ho Hwf Hd2. induction Hd as [d d' Hp|d e d' Hp|d d' Hp|d [l rb] dx rs o d' Hp _ IH]; [|done..|]; simpl.
  - pose proof (polls_feed d _ c Hp Hwf) as Hf. simpl in Hf.
    inversion Hd2 as [? ? Hq|? ? ? Hq|? ? Hq|? ? ? ? ? ? Hq Hrest]; subst;
      destruct (Hf _ Hq) as ([oq dq] & Hq' & [E1 E2]); simpl in E1, E2; subst oq; try specialize (E2 eq_refl); subst.
    + exists dq. split; [by constructor|done].
    + exists dq. split; [by constructor|done].
    + exists dq. split; [by constructor|done].
    + exists d2. split; [by econstructor|done].
  - pose proof (polls_feed d _ c Hp Hwf) as ([oq dq] & Hq & [E1 E2]). simpl in E1, E2. subst oq.
    specialize (E2 eq_refl). subst dq. destruct (polls_some_wf _ _ _ _ Hp Hwf) as [Hwf' _].
    destruct (IH Ho Hwf' Hd2) as (d2' & Hd2' & E). exists d2'. split; [by econstructor|done].
Qed.

(** C14: the records the decoder finds do not depend on how the stream is cut into
    chunks.  Decoding always terminates; if a first chunk decodes without an
    error, feeding a second one and decoding again finds exactly the records, the
    outcome and (unless it is an error) the state that feeding both at once
    does. *)
Theorem decoder_chunking d c1 c2 rs1 d1 :
  dec_wf d → drain (feed_bytes c1 d) = Some (rs1, Ok tt, d1) →
  ∃ rs2 o d2 d2', drain (feed_bytes c2 d1) = Some (rs2, o, d2) ∧
    drain (feed_bytes (c1 ++ c2) d) = Some (rs1 ++ rs2, o, d2') ∧ (o = Ok tt → d2' = d2).
Proof.
  intros Hwf E1. destruct (drain_drains (d ⊕ c1) Hwf) as (rs & o & d' & E & Hd). rewrite E1 in E. simplify_eq.
  destruct (drains_ok_wf _ _ _ _ Hd Hwf eq_refl) as (Hwf1 & _).
  destruct (drain_drains (d' ⊕ c2) Hwf1) as (rs2 & o2 & d2 & E2 & Hd2).
  destruct (drains_feed _ _ _ _ c2 _ _ _ Hd eq_refl Hwf Hd2) as (d2' & Hd' & Es).
  assert (d ⊕ c1 ⊕ c2 = d ⊕ (c1 ++ c2)) as Eapp by (unfold feed_bytes; simpl; by rewrite app_assoc).
  rewrite Eapp in Hd'. destruct (drain_drains (d ⊕ (c1 ++ c2)) Hwf) as (rs3 & o3 & d3 & E3 & Hd3).
  destruct (drains_functional _ _ _ _ _ _ _ Hd3 Hd') as (-> & -> & ->). by exists rs2, o2, d2, d2'.
Qed.
End facts.

Section facts.
Context `{WalLayoutLaws}.
Implicit Types (d : t) (c : bytes) (p q : Poll).

Local Notation "d ⊕ c" := (feed_bytes c d) (at level 50, left associativity).

(** * Absence of panics *)

(** The position up to which the input is skipped is ahead. *)
Definition skip_ok d : Prop := match state d with SkippingEverything l => lsn d ≤ l | _ => True end.

(** The input ends well before the end of the [u64] range. *)
Definition in_range d : Prop := 0 ≤ lsn d ∧ lsn d + remaining d ≤ LSN_LIMIT.

Lemma add_lsn_in_range n d : 0 ≤ n → lsn d + n ≤ LSN_LIMIT → add_lsn n d = (Ok tt, Mk (lsn d + n) (inputbuf d) (state d)).
Proof.
  intros Hn Hl. unfold add_lsn, Lsn.add, checked_add. by rewrite (proj2 (Z.ltb_lt _ _)) by (unfold LSN_LIMIT in Hl; lia).
Qed.

Lemma complete_record_no_panic rb d :
  0 ≤ lsn d ≤ LSN_LIMIT → skip_ok d → (complete_record rb d).1 ≠ Panic ∧ skip_ok (complete_record rb d).2.
Proof.
  intros Hl Hs. destruct (complete_record rb d) as [o d'] eqn:E. cbn [fst snd].
  pose proof (complete_record_fields _ _ _ _ E) as (El & _ & Es).
  destruct o as [[l rb']|e|].
  - split; [done|]. unfold skip_ok. destruct Es as [-> _]. rewrite El. by apply complete_record_lsn in E as [? _].
  - split; [done|]. by apply complete_record_error in E as ->.
  - exfalso. revert E. unfold complete_record, ensure, mbind, M_bind, getS, modifyS, mret, M_ret, bail, liftR.
    destruct (_ =? xl_crc _); [|done]. destruct (is_xlog_switch_record _); [|done].
    unfold Lsn.add, checked_add. destruct (segment_end_spec (lsn d)) as [Hse _]. unfold segment_end, WAL_SEGMENT_SIZE, LSN_LIMIT in *.
    by rewrite (proj2 (Z.ltb_lt _ _)) by lia.
Qed.

Definition no_panic (r : t + Poll) : Prop :=
  match r with inl d' => skip_ok d' | inr (o, d') => o ≠ Panic ∧ skip_ok d' end.

Lemma some_record_no_panic rb d :
  0 ≤ lsn d ≤ LSN_LIMIT → skip_ok d → no_panic (inr (some_record (complete_record rb d))).
Proof.
  intros Hl Hs. destruct (complete_record_no_panic rb d Hl Hs) as [H1 H2].
  destruct (complete_record rb d) as [[]]; by simpl in *.
Qed.

Lemma page_contents_no_panic d : dec_wf d → skip_ok d → in_range d → no_panic (page_contents d).
Proof.
  intros Hwf Hsk [Hl Hr]. pose proof (page_left (lsn d)) as Hpl. unfold page_contents.
  destruct (state d) as [|rb contlen|skip] eqn:Es.
  - destruct (_ <? 4); [done|]. destruct (Z.ltb_spec (le_val (peek 4 d)) SIZE_OF_XLOG_RECORD) as [|Htot]; [done|].
    pose proof record_size as Hsize. unfold XLOG_RECORD_CRC_OFFS in Hsize.
    destruct (_ && _) eqn:E; [|done]. rewrite add_lsn_in_range by lia.
    apply some_record_no_panic; [cbn; lia|]. unfold skip_ok. cbn. by rewrite Es.
  - unfold dec_wf in Hwf. rewrite Es in Hwf. set (n := Z.min contlen _).
    destruct (Z.ltb_spec (remaining d) n) as [|Hn]; [done|]. rewrite add_lsn_in_range by (cbn; lia).
    destruct (Z.eqb_spec (contlen - n) 0) as [E|E]; [|done].
    apply some_record_no_panic; [cbn; lia|done].
  - unfold skip_ok in Hsk. rewrite Es in Hsk. rewrite (proj2 (Z.leb_le _ _)) by done. cbn [negb].
    destruct (_ <? _); [|done]. split; [done|]. unfold skip_ok. by rewrite Es.
Qed.

Lemma page_header_no_panic d o d1 : skip_ok d → in_range d → page_header d = Some (o, d1) → o ≠ Panic ∧ skip_ok d1.
Proof.
  intros Hsk [Hl Hr]. pose proof short_phd_size. pose proof long_phd_size. unfold page_header.
  assert (∀ size from, 0 ≤ size ≤ remaining d → (∀ l, state d ≠ SkippingEverything l) →
    Some (read_header size from d) = Some (o, d1) → o ≠ Panic ∧ skip_ok d1) as Hread.
  { intros size from Hs Hst. unfold read_header, mbind, M_bind, getS, modifyS, liftR.
    assert (validate_page_header (from (peek size d)) d ≠ Panic) as Hv.
    { unfold validate_page_header. destruct (state d) as [| |l] eqn:Es; [| |by destruct (Hst l)];
        by repeat match goal with |- context [if ?b then _ else _] => destruct b end. }
    assert (skip_ok (advance size d)) as Hsk1 by (unfold skip_ok; cbn; destruct (state d) as [| |l]; [done..|by destruct (Hst l)]).
    destruct (validate_page_header _ _) as [[]|e|]; [|by intros [= <- <-]|done].
    rewrite add_lsn_in_range by (cbn; lia). intros [= <- <-]. split; [done|].
    unfold skip_ok in *. cbn in *. destruct (state d) as [| |l]; [done..|by destruct (Hst l)]. }
  destruct (state d) as [|rb cl|l] eqn:Es.
  1-2: destruct (_ =? 0); [|destruct (_ =? 0); [|by intros [= <- <-]]].
  1-4: match goal with |- context [if ?a <? ?b then _ else _] => destruct (Z.ltb_spec a b) end; [done|]; apply Hread; [lia|done].
  by intros [= <- <-].
Qed.

Lemma step_no_panic d : dec_wf d → skip_ok d → in_range d → no_panic (step d).
Proof.
  intros Hwf Hsk Hr. unfold step. destruct (page_header d) as [[o d1]|] eqn:E; [|done].
  destruct (page_header_no_panic d o d1 Hsk Hr E) as [Ho Hs]. destruct o as [[]|e|]; [|done..].
  destruct (page_header_fields d d1 E) as (Es & Hl & Hrem & _). destruct Hr as [Hl0 Hlim].
  apply page_contents_no_panic; [unfold dec_wf; by rewrite Es|done|split; lia].
Qed.

Lemma polls_no_panic d p : polls d p → dec_wf d → skip_ok d → in_range d → p.1 ≠ Panic ∧ skip_ok p.2.
Proof.
  induction 1 as [d p E|d d' p E _ IH]; intros Hwf Hsk Hr; pose proof (step_no_panic d Hwf Hsk Hr) as Hnp;
    rewrite E in Hnp; [by destruct p|].
  pose proof (step_post d Hwf) as Hp. rewrite E in Hp. destruct Hp as (Hwf' & Hl & _ & Er & _), Hr as [Hl0 Hlim].
  apply IH; [done..|]. split; lia.
Qed.

Lemma drains_no_panic d rs o d' : drains d rs o d' → dec_wf d → skip_ok d → in_range d → o ≠ Panic ∧ skip_ok d'.
Proof.
  induction 1 as [d d' Hp|d e d' Hp|d d' Hp|d [l rb] dx rs o d' Hp _ IH]; intros Hwf Hsk Hr;
    destruct (polls_no_panic _ _ Hp Hwf Hsk Hr) as [Hnp Hsk']; [done..|].
  destruct (polls_some_wf _ _ _ _ Hp Hwf) as [Hwf' _]. destruct (polls_post _ _ Hp Hwf) as (_ & Hl & _ & Er & _).
  destruct Hr as [Hl0 Hlim]. apply IH; [done..|]. split; lia.
Qed.

(** * The end of a record *)

(** After a record, the rest of the input is decoded like from its end on: what a
    new decoder at that position finds in it. *)
Lemma polls_resume d l p :
  state d = SkippingEverything l → lsn d ≤ l → l - lsn d ≤ remaining d → 
  polls (new l ⊕ drop (Z.to_nat (l - lsn d)) (inputbuf d)) p → polls d p.
Proof.
  intros Es Hl Hr Hp. apply polls_continue with (new l ⊕ drop (Z.to_nat (l - lsn d)) (inputbuf d)); [|done].
  unfold step, page_header. rewrite Es. unfold page_contents. rewrite Es, (proj2 (Z.leb_le _ _)) by done. cbn [negb].
  by rewrite (proj2 (Z.ltb_ge _ _)) by done.
Qed.

(** An error comes back whatever follows. *)
Lemma drains_feed_err d rs e d1 c :
  drains d rs (Err e) d1 → dec_wf d → ∃ d2, drains (d ⊕ c) rs (Err e) d2.
Proof.
  intros Hd. remember (Err e) as o eqn:Eo. revert Eo.
  induction Hd as [d d' Hp|d e' d' Hp|d d' Hp|d [l rb] dx rs o d' Hp _ IH]; intros Eo Hwf; simplify_eq.
  - pose proof (polls_feed _ _ c Hp Hwf) as ([oq dq] & Hq & [E1 _]). simpl in E1. subst oq. exists dq. by constructor.
  - pose proof (polls_feed _ _ c Hp Hwf) as ([oq dq] & Hq & [E1 E2]). simpl in E1, E2. subst oq.
    specialize (E2 eq_refl). subst dq. destruct (polls_some_wf _ _ _ _ Hp Hwf) as [Hwf' _].
    destruct (IH eq_refl Hwf') as (d2 & Hd2). exists d2. by econstructor.
Qed.

(** A record begins behind the one before it, and ends within the input. *)
Lemma drains_ahead d rs o d1 : drains d rs o d1 → dec_wf d → 0 ≤ lsn d → lsn d + remaining d ≤ LSN_LIMIT →
  ∀ pre r post, rs = pre ++ r :: post → match last pre with Some x => x.1 | None => record_floor d end < lsn d + remaining d.
Proof.
  induction 1 as [d d' Hp|d e d' Hp|d d' Hp|d [l rb] dx rs o d' Hp _ IH]; intros Hwf Hl Hlim pre r post E; try (by destruct pre).
  destruct (polls_some_wf _ _ _ _ Hp Hwf) as [Hwf' _]. destruct (polls_post _ _ Hp Hwf) as (Es & Hl' & Hfl & Hr & Hrec).
  pose proof (remaining_nonneg dx). destruct (Hrec ltac:(lia)) as [Hr1 _]. destruct pre as [|x pre]; [simpl; lia|]. injection E as <- E.
  specialize (IH Hwf' ltac:(lia) ltac:(lia) pre r post E). rewrite last_cons.
  destruct (last pre) as [y|]; [lia|]. unfold record_floor in IH. rewrite Es in IH. simpl. lia.
Qed.

Lemma feed_feed d c1 c2 : d ⊕ c1 ⊕ c2 = d ⊕ (c1 ++ c2).
Proof. unfold feed_bytes. cbn. by rewrite app_assoc. Qed.
End facts.

(** The layout of PostgreSQL's structs on a little-endian machine, with a sum of
    bytes for the checksum, for concrete inputs. *)
#[local] Instance example_layout : WalLayout := {|
  XLOG_PAGE_MAGIC := 0xD110;
  SIZE_OF_SHORT_PHD := 24;
  SIZE_OF_LONG_PHD := 40;
  SIZE_OF_XLOG_RECORD := 24;
  page_header_from_bytes b := MkPageHeader (le_val (take 2 b)) (le_val (take 2 (drop 2 b)))
    (le_val (take 8 (drop 8 b))) (le_val (take 4 (drop 16 b)));
  long_header_from_bytes b := MkPageHeader (le_val (take 2 b)) (le_val (take 2 (drop 2 b)))
    (le_val (take 8 (drop 8 b))) (le_val (take 4 (drop 16 b)));
  record_from_slice b := MkXLogRecord (le_val (take 1 (drop 16 b))) (le_val (take 1 (drop 17 b)))
    (le_val (take 4 (drop 20 b)));
  crc32c_append acc b := wrap 32 (acc + foldr Z.add 0 b)
|}.
#[local] Instance example_layout_laws : WalLayoutLaws.
Proof. split; unfold Lsn.XLOG_BLCKSZ, XLOG_RECORD_CRC_OFFS; simpl; lia. Qed.

Definition example_record : bytes := [32;0;0;0] ++ replicate 16 0 ++ [32;0;0;0] ++ replicate 8 0.

Lemma decoder_chunking_witness :
  ∃ d1, drain (feed_bytes (take 10 example_record) (new 40)) = Some ([], Ok tt, d1) ∧
  ∃ rs2 o d2 d2', drain (feed_bytes (drop 10 example_record ++ example_record) d1) = Some (rs2, o, d2) ∧
    drain (feed_bytes (take 10 example_record ++ drop 10 example_record ++ example_record) (new 40)) =
      Some ([] ++ rs2, o, d2') ∧ (o = Ok tt → d2' = d2).
Proof.
  eexists. split; [by vm_compute|].
  apply (decoder_chunking (new 40) (take 10 example_record)); [done|by vm_compute].
Defined.
