(* ===== verification/SkStates.v ===== *)
(** The state of a timeline on a safekeeper: [safekeeper/src/state.rs] with the
    types it stores ([libs/safekeeper_api], [libs/postgres_versioninfo]), and the
    control file of [safekeeper/src/control_file.rs].

    A control file is used through the trait [control_file::Storage], here the
    class [ControlStorage] with its laws.  [FileStorage] implements it: the state
    in memory, the state on disk and the outcomes of the coming attempts to
    replace the file. *)

From S2P Require Import Prelude Text Lsns Membership TermHistories WalDecoders.
Local Open Scope Z_scope.

(** * Server versions *)

Inductive PgMajorVersion := PG14 | PG15 | PG16 | PG17.

#[global] Instance PgMajorVersion_eq_dec : EqDecision PgMajorVersion.
Proof. solve_decision. Defined.

Abbreviation PgVersionId := Z (only parsing).
Definition UNKNOWN_SERVER_VERSION : PgVersionId := 0.

Module PgVersion.
Definition from_full_pg_version (version : Z) : result unit PgVersionId :=
  if (version =? 0) || ((140000 <=? version) && (version <? 180000)) then Ok version else Panic.

Definition try_from (value : PgVersionId) : option PgMajorVersion :=
  let major := value / 10000 in
  if major =? 14 then Some PG14
  else if major =? 15 then Some PG15
  else if major =? 16 then Some PG16
  else if major =? 17 then Some PG17
  else None.

Definition major_version_num (v : PgMajorVersion) : Z :=
  match v with PG14 => 14 | PG15 => 15 | PG16 => 16 | PG17 => 17 end.

Definition of_major (value : PgMajorVersion) : PgVersionId := major_version_num value * 10000.
End PgVersion.

Record ServerInfo := MkServerInfo { pg_version : PgVersionId; system_id : Z; wal_seg_size : Z }.

#[global] Instance ServerInfo_eq_dec : EqDecision ServerInfo.
Proof. solve_decision. Defined.

Definition INITIAL_TERM : Term := 0.

(** * The partial backup *)

Inductive UploadStatus := InProgress | Uploaded | Deleting.

Record PartialRemoteSegment := MkPartialRemoteSegment {
  up_status : UploadStatus;
  up_name : bytes;
  up_commit_lsn : Lsn;
  up_flush_lsn : Lsn;
  up_term : Term
}.

#[global] Instance UploadStatus_eq_dec : EqDecision UploadStatus.
Proof. solve_decision. Defined.
#[global] Instance PartialRemoteSegment_eq_dec : EqDecision PartialRemoteSegment.
Proof. solve_decision. Defined.

Inductive EvictionState := Present | Offloaded (flush_lsn : Lsn).

#[global] Instance EvictionState_eq_dec : EqDecision EvictionState.
Proof. solve_decision. Defined.

(** * The persistent state *)

Record TimelinePersistentState := MkPersistent {
  tenant_id : bytes;
  timeline_id : bytes;
  mconf : Configuration;
  acceptor_state : AcceptorState;
  server : ServerInfo;
  proposer_uuid : bytes;
  timeline_start_lsn : Lsn;
  local_start_lsn : Lsn;
  commit_lsn : Lsn;
  backup_lsn : Lsn;
  peer_horizon_lsn : Lsn;
  remote_consistent_lsn : Lsn;
  partial_backup : list PartialRemoteSegment;
  eviction_state : EvictionState;
  creation_ts : Z
}.

#[global] Instance TimelinePersistentState_eq_dec : EqDecision TimelinePersistentState.
Proof. solve_decision. Defined.

Inductive TimelineError := UninitializedWalSegSize | UninitializedPgVersion | CommitBeforeStart.

Module TimelinePersistentState.
(** Updates of one field. *)
Definition with_mconf v (s : TimelinePersistentState) := MkPersistent (tenant_id s) (timeline_id s) v (acceptor_state s)
  (server s) (proposer_uuid s) (timeline_start_lsn s) (local_start_lsn s) (commit_lsn s) (backup_lsn s) (peer_horizon_lsn s)
  (remote_consistent_lsn s) (partial_backup s) (eviction_state s) (creation_ts s).
Definition with_acceptor v (s : TimelinePersistentState) := MkPersistent (tenant_id s) (timeline_id s) (mconf s) v
  (server s) (proposer_uuid s) (timeline_start_lsn s) (local_start_lsn s) (commit_lsn s) (backup_lsn s) (peer_horizon_lsn s)
  (remote_consistent_lsn s) (partial_backup s) (eviction_state s) (creation_ts s).
Definition with_server v (s : TimelinePersistentState) := MkPersistent (tenant_id s) (timeline_id s) (mconf s) (acceptor_state s)
  v (proposer_uuid s) (timeline_start_lsn s) (local_start_lsn s) (commit_lsn s) (backup_lsn s) (peer_horizon_lsn s)
  (remote_consistent_lsn s) (partial_backup s) (eviction_state s) (creation_ts s).
(** Updates of the LSNs: timeline start, local start, commit, backup, peer horizon, remote consistent. *)
Definition with_lsns (ts ls c b p r : Lsn) (s : TimelinePersistentState) := MkPersistent (tenant_id s) (timeline_id s) (mconf s)
  (acceptor_state s) (server s) (proposer_uuid s) ts ls c b p r (partial_backup s) (eviction_state s) (creation_ts s).
Definition with_term t (s : TimelinePersistentState) :=
  with_acceptor (MkAcceptorState t (acc_history (acceptor_state s))) s.

Definition new (ttid : bytes * bytes) (conf : Configuration) (server_info : ServerInfo) (start_lsn commit : Lsn) (now : Z)
    : result TimelineError TimelinePersistentState :=
  if wal_seg_size server_info =? 0 then Err UninitializedWalSegSize
  else if pg_version server_info =? UNKNOWN_SERVER_VERSION then Err UninitializedPgVersion
  else if commit <? start_lsn then Err CommitBeforeStart
  else
    let term_history := if negb (commit =? Lsn.INVALID) then [MkTermLsn INITIAL_TERM start_lsn] else TermHistory.empty in
    Ok (MkPersistent ttid.1 ttid.2 conf (MkAcceptorState INITIAL_TERM term_history) server_info (replicate 16 0)
          start_lsn start_lsn commit start_lsn start_lsn 0 [] Present now).

Definition empty (now : Z) : result TimelineError TimelinePersistentState :=
  match new (replicate 16 0, replicate 16 0) Configuration.empty
          (MkServerInfo (PgVersion.of_major PG17) 0 WAL_SEGMENT_SIZE) Lsn.INVALID Lsn.INVALID now with
  | Ok s => Ok s
  | _ => Panic (* unwrap *)
  end.
End TimelinePersistentState.

(** * Control files *)

Inductive ControlError := ControlIo.

(** [control_file::Storage]: the state it holds, and replacing it durably.
    [cs_disk] is the state a restart would read. *)
Class ControlStorage (C : Type) := {
  cs_state : C → TimelinePersistentState;
  cs_disk : C → TimelinePersistentState;
  cs_persist : TimelinePersistentState → M C ControlError unit
}.

(** A success stores the new state, in memory and on disk; a failure keeps the one
    in memory, and the disk has the old or the new one. *)
Class ControlStorageLaws (C : Type) `{ControlStorage C} := {
  persist_ok s c c' : cs_persist s c = (Ok tt, c') → cs_state c' = s ∧ cs_disk c' = s;
  persist_err s c c' e : cs_persist s c = (Err e, c') → cs_state c' = cs_state c ∧ (cs_disk c' = cs_disk c ∨ cs_disk c' = s);
  persist_total s c c' : cs_persist s c ≠ (Panic, c')
}.

(** Where an attempt to replace the file fails: before the rename takes effect, or
    after it, when the directory is synced. *)
Inductive PersistOutcome := PersistOk | FailBeforeRename | FailAfterRename.

Module FileStorage.
Record t := Mk { state : TimelinePersistentState; disk : TimelinePersistentState; outcomes : list PersistOutcome }.

Definition restore_new (disk : TimelinePersistentState) (outcomes : list PersistOutcome) : t := Mk disk disk outcomes.

Definition persist (s : TimelinePersistentState) : M t ControlError unit := λ c,
  match outcomes c with
  | [] => (Ok tt, Mk s s [])
  | PersistOk :: rest => (Ok tt, Mk s s rest)
  | FailBeforeRename :: rest => (Err ControlIo, Mk (state c) (disk c) rest)
  | FailAfterRename :: rest => (Err ControlIo, Mk (state c) s rest)
  end.

(** New timelines are not created in the offloaded state. *)
Definition create_new (s : TimelinePersistentState) (outcomes : list PersistOutcome) (old_disk : TimelinePersistentState)
    : result ControlError t :=
  match eviction_state s with
  | Offloaded _ => Panic
  | Present =>
      match persist s (Mk s old_disk outcomes) with
      | (Ok _, c) => Ok c
      | (Err e, _) => Err e
      | (Panic, _) => Panic
      end
  end.
End FileStorage.

#[global] Instance FileStorage_storage : ControlStorage FileStorage.t := {|
  cs_state := FileStorage.state;
  cs_disk := FileStorage.disk;
  cs_persist := FileStorage.persist
|}.

#[global] Instance FileStorage_laws : ControlStorageLaws FileStorage.t.
Proof.
  split; unfold cs_persist, FileStorage_storage, FileStorage.persist; intros;
    destruct (FileStorage.outcomes c) as [|[] l]; naive_solver.
Qed.

(** * State in memory and on disk *)

Record TimelineMemState := MkMem {
  mem_commit_lsn : Lsn;
  mem_backup_lsn : Lsn;
  mem_peer_horizon_lsn : Lsn;
  mem_remote_consistent_lsn : Lsn;
  mem_proposer_uuid : bytes
}.

Definition mem_of (s : TimelinePersistentState) : TimelineMemState :=
  MkMem (commit_lsn s) (backup_lsn s) (peer_horizon_lsn s) (remote_consistent_lsn s) (proposer_uuid s).

Record TimelineTermBumpResponse := MkTermBump { previous_term : Term; current_term : Term }.
Record MembershipSwitchResult := MkMembershipSwitch { previous_conf : Configuration; current_conf : Configuration }.

Module TimelineState.
Section state.
Context {C : Type} `{ControlStorage C}.

Record t := Mk { inmem : TimelineMemState; pers : C }.

(** The persistent part, to which the struct dereferences. *)
Definition deref (self : t) : TimelinePersistentState := cs_state (pers self).
Definition set_inmem m (self : t) : t := Mk m (pers self).
Definition set_commit_lsn l (self : t) : t :=
  let m := inmem self in
  set_inmem (MkMem l (mem_backup_lsn m) (mem_peer_horizon_lsn m) (mem_remote_consistent_lsn m) (mem_proposer_uuid m)) self.
Definition set_peer_horizon_lsn l (self : t) : t :=
  let m := inmem self in
  set_inmem (MkMem (mem_commit_lsn m) (mem_backup_lsn m) l (mem_remote_consistent_lsn m) (mem_proposer_uuid m)) self.

Definition new (state : C) : t := Mk (mem_of (cs_state state)) state.

Definition start_change (self : t) : TimelinePersistentState :=
  let s := deref self in
  let m := inmem self in
  MkPersistent (tenant_id s) (timeline_id s) (mconf s) (acceptor_state s) (server s) (mem_proposer_uuid m)
    (timeline_start_lsn s) (local_start_lsn s) (mem_commit_lsn m) (mem_backup_lsn m) (mem_peer_horizon_lsn m)
    (mem_remote_consistent_lsn m) (partial_backup s) (eviction_state s) (creation_ts s).

Definition on_pers {A} (m : M C ControlError A) : M t ControlError A := λ self,
  let '(r, c) := m (pers self) in (r, Mk (inmem self) c).

Definition finish_change (s : TimelinePersistentState) : M t ControlError unit :=
  self ← getS;
  _ ← whenM (negb (bool_decide (s = deref self))) (on_pers (cs_persist s));
  modifyS (set_inmem (mem_of s)).

Definition flush : M t ControlError unit :=
  self ← getS;
  finish_change (start_change self).

Definition term_bump (to : option Term) : M t ControlError TimelineTermBumpResponse :=
  self ← getS;
  let before := acc_term (acceptor_state (deref self)) in
  let state := start_change self in
  let term := acc_term (acceptor_state state) in
  let new := match to with Some to => Z.max term to | None => wrapping_add 64 term 1 end in
  _ ← whenM (term <? new) (finish_change (TimelinePersistentState.with_term new state));
  self ← getS;
  mret (MkTermBump before (acc_term (acceptor_state (deref self)))).

Definition membership_switch (to : Configuration) : M t ControlError MembershipSwitchResult :=
  self ← getS;
  let before := mconf (deref self) in
  _ ← whenM (negb (generation to <=? generation before))
        (finish_change (TimelinePersistentState.with_mconf to (start_change self)));
  self ← getS;
  mret (MkMembershipSwitch before (mconf (deref self))).
End state.
Arguments t : clear implicits.
End TimelineState.
