(* ===== verification/WalStorages.v ===== *)
(** The WAL of a timeline on the safekeeper's disk: [PhysicalStorage] of
    [safekeeper/src/wal_storage.rs].

    The disk has, for every byte of WAL, the value a reader sees and the value
    that survives a crash ([fdatasync] copies the former to the latter, a segment
    at a time), and the segment files with their kind.  Every system call takes
    one outcome from the list [io]: success, or failure after a number of bytes;
    an empty list means success.  The LSNs of the struct are those of the source;
    [file] says whether the last segment is cached open.

    [find_end_of_wal] ([libs/postgres_ffi/src/xlog_utils.rs]) reads the segments
    back with a decoder of its own when the storage is opened.

    Segment files have the whole size of a segment: they are made with it under a
    temporary name, and a read gives the rest of its block.  So the search does not see a
    read of fewer bytes or an empty one, which the source has where the file ends (after
    the second [set_len] of [truncate_wal] has failed, say: there the model has zeros,
    which end the search as well).  A call that fails has no effect on the disk, except
    for a write: a rename that fails has not happened, also where the source may have
    renamed and then failed to sync the directory.

    [close] and [remove_up_to] only release resources or delete old segments;
    the segment image [generate_wal_segment] writes is a parameter. *)

From S2P Require Import Prelude Text Lsns WalDecoders SkStates.
From stdpp Require Import gmap.
Local Open Scope Z_scope.

Inductive SegmentKind := Partial | Complete.

Record Disk := MkDisk {
  seen : Z → Z;               (* what a reader sees *)
  durable : Z → Z;            (* what survives a crash *)
  segments : gmap Z SegmentKind
}.

Inductive WalError :=
  | IoError | RewritesWal | CreatesGap | PendingTruncation | UnflushedNoFile | TruncateNonWritten
  | BadRecord (e : WalDecodeError) | PotentialDataLoss.

(** * Finding the end of the WAL *)

Module WalEnd.
Section find.
Context `{WalLayout} (size : Z) (d : Disk).

(** Outcomes of the coming system calls on the files that are read. *)
Abbreviation Io := (M (list (option nat)) WalError).
Definition call : Io unit := λ io,
  match io with [] => (Ok tt, []) | None :: io => (Ok tt, io) | Some _ :: io => (Err IoError, io) end.

(** [n] bytes of the segment files. *)
Definition read_at (l n : Z) : bytes := seen d <$> seqZ l n.

(** Where the search is: the decoder, the position and the end of the last record. *)
Record Cursor := MkCursor { dec : WalStreamDecoder.t; curr_lsn : Lsn; last_lsn : Lsn }.

(** Feeding a chunk and taking all records it completes; the search ends with an
    error of the decoder. *)
Definition feed (chunk : bytes) (c : Cursor) : option (Cursor * bool) :=
  match Lsn.add (curr_lsn c) (Z.of_nat (length chunk)) with
  | Ok curr =>
      match WalStreamDecoder.drain (WalStreamDecoder.feed_bytes chunk (dec c)) with
      | Some (records, o, d') =>
          let c' := MkCursor d' curr (match last records with Some r => r.1 | None => last_lsn c end) in
          match o with Ok _ => Some (c', true) | Err _ => Some (c', false) | Panic => None end
      | None => None
      end
  | _ => None
  end.

(** The loop inside a segment; true if it was read to its end. *)
Fixpoint segment_loop (fuel : nat) (segno : Z) (c : Cursor) : Io (Cursor * bool) :=
  if negb (Lsn.segment_number (curr_lsn c) size =? segno) then mret (c, true)
  else
    match fuel with
    | O => liftR Panic
    | S fuel =>
        _ ← call; (* read *)
        let n := Z.min Lsn.XLOG_BLCKSZ (size - Lsn.segment_offset (curr_lsn c) size) in
        match feed (read_at (curr_lsn c) n) c with
        | Some (c, true) => segment_loop fuel segno c
        | Some (c, false) => mret (c, false)
        | None => liftR Panic
        end
    end.

Fixpoint segments_loop (fuel : nat) (c : Cursor) : Io Lsn :=
  match fuel with
  | O => liftR Panic
  | S fuel =>
      _ ← call; (* open *)
      let segno := Lsn.segment_number (curr_lsn c) size in
      match segments d !! segno with
      | None => mret (last_lsn c)
      | Some _ =>
          _ ← call; (* seek *)
          r ← segment_loop (S (Z.to_nat (size / Lsn.XLOG_BLCKSZ))) segno c;
          match r with (c, true) => segments_loop fuel c | (c, false) => mret (last_lsn c) end
      end
  end.

Definition find_end_of_wal (start_lsn : Lsn) : Io Lsn :=
  segments_loop (S (base.size (segments d))) (MkCursor (WalStreamDecoder.new start_lsn) start_lsn start_lsn).
End find.
End WalEnd.

Module PhysicalStorage.
Record t := Mk {
  wal_seg_size : Z;
  write_lsn : Lsn;
  write_record_lsn : Lsn;
  flush_lsn : Lsn;
  flush_record_lsn : Lsn;
  decoder : WalStreamDecoder.t;
  file : bool;
  pending_wal_truncation : bool;
  disk : Disk;
  io : list (option nat)
}.

Definition St := M t WalError.

Definition set_io v (s : t) : t := Mk (wal_seg_size s) (write_lsn s) (write_record_lsn s) (flush_lsn s)
  (flush_record_lsn s) (decoder s) (file s) (pending_wal_truncation s) (disk s) v.
Definition set_disk v (s : t) : t := Mk (wal_seg_size s) (write_lsn s) (write_record_lsn s) (flush_lsn s)
  (flush_record_lsn s) (decoder s) (file s) (pending_wal_truncation s) v (io s).
Definition set_file v (s : t) : t := Mk (wal_seg_size s) (write_lsn s) (write_record_lsn s) (flush_lsn s)
  (flush_record_lsn s) (decoder s) v (pending_wal_truncation s) (disk s) (io s).
Definition set_pending v (s : t) : t := Mk (wal_seg_size s) (write_lsn s) (write_record_lsn s) (flush_lsn s)
  (flush_record_lsn s) (decoder s) (file s) v (disk s) (io s).
Definition set_decoder v (s : t) : t := Mk (wal_seg_size s) (write_lsn s) (write_record_lsn s) (flush_lsn s)
  (flush_record_lsn s) v (file s) (pending_wal_truncation s) (disk s) (io s).
Definition set_write_lsn v (s : t) : t := Mk (wal_seg_size s) v (write_record_lsn s) (flush_lsn s)
  (flush_record_lsn s) (decoder s) (file s) (pending_wal_truncation s) (disk s) (io s).
Definition set_write_record_lsn v (s : t) : t := Mk (wal_seg_size s) (write_lsn s) v (flush_lsn s)
  (flush_record_lsn s) (decoder s) (file s) (pending_wal_truncation s) (disk s) (io s).
Definition set_flush_lsn v (s : t) : t := Mk (wal_seg_size s) (write_lsn s) (write_record_lsn s) v
  (flush_record_lsn s) (decoder s) (file s) (pending_wal_truncation s) (disk s) (io s).
Definition set_flush_record_lsn v (s : t) : t := Mk (wal_seg_size s) (write_lsn s) (write_record_lsn s) (flush_lsn s)
  v (decoder s) (file s) (pending_wal_truncation s) (disk s) (io s).

(** ** System calls *)

(** The outcome of the next call: [None] is success. *)
Definition next_io : St (option nat) := λ s,
  match io s with [] => (Ok None, s) | o :: rest => (Ok o, set_io rest s) end.
(** A call without an effect of its own that the model shows. *)
Definition syscall : St unit := o ← next_io; match o with None => mret tt | Some _ => bail IoError end.
(** A call with an effect on the disk. *)
Definition disk_call (f : Disk → Disk) : St unit := _ ← syscall; modifyS (λ s, set_disk (f (disk s)) s).

Definition in_segment (size segno l : Z) : bool := (segno * size <=? l) && (l <? (segno + 1) * size).
Definition set_segment segno kind (d : Disk) : Disk := MkDisk (seen d) (durable d) (<[segno := kind]> (segments d)).
Definition write_bytes (pos : Z) (buf : bytes) (d : Disk) : Disk :=
  MkDisk (λ l, if (pos <=? l) && (l <? pos + Z.of_nat (length buf)) then nth (Z.to_nat (l - pos)) buf 0 else seen d l)
    (durable d) (segments d).
Definition sync_segment (size segno : Z) (d : Disk) : Disk :=
  MkDisk (seen d) (λ l, if in_segment size segno l then seen d l else durable d l) (segments d).
(** Zeros from [pos] to the end of the segment. *)
Definition zero_tail (size segno pos : Z) (d : Disk) : Disk :=
  MkDisk (λ l, if in_segment size segno l && (pos <=? l) then 0 else seen d l) (durable d) (segments d).
(** A new segment file of zeros, durably renamed into place. *)
Definition create_segment (size segno : Z) (d : Disk) : Disk :=
  MkDisk (λ l, if in_segment size segno l then 0 else seen d l)
    (λ l, if in_segment size segno l then 0 else durable d l) (<[segno := Partial]> (segments d)).

(** Opening the storage: the end of the WAL is found from the committed LSN on. *)
Definition new `{WalLayout} (state : TimelinePersistentState) (d : Disk) (read_io io : list (option nat)) : result WalError t :=
  let size := SkStates.wal_seg_size (server state) in
  write_lsn ←
    (if commit_lsn state =? 0 then Ok 0
     else
       match PgVersion.try_from (pg_version (server state)) with
       | None => Panic (* unwrap *)
       | Some _ => (WalEnd.find_end_of_wal size d (commit_lsn state) read_io).1
       end);
  if write_lsn <? commit_lsn state then Err PotentialDataLoss
  else
    match PgVersion.try_from (pg_version (server state)) with
    | None => Panic
    | Some _ => Ok (Mk size write_lsn write_lsn write_lsn write_lsn (WalStreamDecoder.new write_lsn) false true d io)
    end.

Section storage.
Context `{WalLayout} (generate_wal_segment : Z → Lsn → bytes).

(** Opens or creates the file of a segment; true if it is a partial one.  Opening
    what exists does not fail in the source: an error means the next attempt. *)
Definition open_or_create (segno : Z) : St bool :=
  s ← getS;
  match segments (disk s) !! segno with
  | Some Complete => mret false
  | Some Partial => mret true
  | None =>
      _ ← syscall; (* create the temporary file *)
      _ ← syscall; (* set its length *)
      _ ← disk_call (create_segment (wal_seg_size s) segno); (* durable rename *)
      mret true
  end.

(** Writes at [pos]; a failed write may have written a part. *)
Definition write_all (pos : Z) (buf : bytes) : St unit :=
  o ← next_io;
  match o with
  | None => modifyS (λ s, set_disk (write_bytes pos buf (disk s)) s)
  | Some n => _ ← modifyS (λ s, set_disk (write_bytes pos (take n buf) (disk s)) s); bail IoError
  end.

Definition fdatasync_file (segno : Z) : St unit :=
  s ← getS; disk_call (sync_segment (wal_seg_size s) segno).
Definition fsync_file (segno : Z) : St unit := fdatasync_file segno.

Definition write_in_segment (segno xlogoff : Z) (buf : bytes) : St bool :=
  s ← getS;
  _ ← (if file s then modifyS (set_file false)
       else
         is_partial ← open_or_create segno;
         _ ← assertM is_partial;
         syscall (* seek *));
  _ ← write_all (segno * wal_seg_size s + xlogoff) buf;
  _ ← syscall; (* flush *)
  if xlogoff + Z.of_nat (length buf) =? wal_seg_size s then
    _ ← fdatasync_file segno;
    _ ← disk_call (set_segment segno Complete); (* rename *)
    mret true
  else _ ← modifyS (set_file true); mret false.

(** The [while] of [write_exact]; every iteration writes to one segment. *)
Fixpoint write_loop (fuel : nat) (buf : bytes) : St unit :=
  match buf with
  | [] => mret tt
  | _ =>
      match fuel with
      | O => λ s, (Panic, s)
      | S fuel =>
          s ← getS;
          let xlogoff := Lsn.segment_offset (write_lsn s) (wal_seg_size s) in
          let segno := Lsn.segment_number (write_lsn s) (wal_seg_size s) in
          let bytes_write :=
            if wal_seg_size s <? xlogoff + Z.of_nat (length buf) then wal_seg_size s - xlogoff
            else Z.of_nat (length buf) in
          flushed ← write_in_segment segno xlogoff (take (Z.to_nat bytes_write) buf);
          l ← (match Lsn.add (write_lsn s) bytes_write with Ok l => mret l | _ => liftR Panic end);
          _ ← modifyS (set_write_lsn l);
          _ ← whenM flushed (modifyS (λ s, set_flush_lsn (write_lsn s) s));
          write_loop fuel (drop (Z.to_nat bytes_write) buf)
      end
  end.

Definition write_exact (pos : Lsn) (buf : bytes) : St unit :=
  s ← getS;
  _ ← whenM (negb (write_lsn s =? pos))
        (_ ← whenM (file s)
               (_ ← modifyS (set_file false);
                fdatasync_file (Lsn.segment_number (write_lsn s) (wal_seg_size s)));
         modifyS (set_write_lsn pos));
  write_loop (length buf) buf.

(** The loop over the decoded records. *)
Definition on_record (lsn : Lsn) (s : t) : t :=
  let s := set_write_record_lsn lsn s in
  if lsn <=? flush_lsn s then set_flush_record_lsn lsn s else s.

Definition decode_records (buf : bytes) : St unit := λ s,
  match WalStreamDecoder.drain (WalStreamDecoder.feed_bytes buf (decoder s)) with
  | Some (records, o, d) =>
      let s := set_decoder d (foldl (λ s r, on_record r.1 s) s records) in
      match o with Ok _ => (Ok tt, s) | Err e => (Err (BadRecord e), s) | Panic => (Panic, s) end
  | None => (Panic, s)
  end.

Definition write_wal (startpos : Lsn) (buf : bytes) : St unit :=
  s ← getS;
  if startpos <? write_lsn s then bail RewritesWal
  else if (write_lsn s <? startpos) && negb (write_lsn s =? 0) then bail CreatesGap
  else if pending_wal_truncation s then bail PendingTruncation
  else
    _ ← write_exact startpos buf;
    s ← getS;
    avail ← (match WalStreamDecoder.available (decoder s) with Ok l => mret l | _ => liftR Panic end);
    _ ← whenM (negb (avail =? startpos)) (modifyS (set_decoder (WalStreamDecoder.new startpos)));
    _ ← modifyS (λ s, if write_record_lsn s <=? flush_lsn s
                      then set_flush_record_lsn (write_record_lsn s) s else s);
    decode_records buf.

Definition flush_wal : St unit :=
  s ← getS;
  if flush_record_lsn s =? write_record_lsn s then mret tt
  else if file s then
    _ ← modifyS (set_file false);
    _ ← fdatasync_file (Lsn.segment_number (write_lsn s) (wal_seg_size s));
    _ ← modifyS (set_file true);
    modifyS (λ s, set_flush_record_lsn (write_record_lsn s) (set_flush_lsn (write_lsn s) s))
  else bail UnflushedNoFile.

(** [remove_segments_from_disk], one file after the other. *)
Fixpoint remove_entries (l : list Z) (remove : Z → bool) : St unit :=
  match l with
  | [] => mret tt
  | segno :: l =>
      _ ← (if remove segno
           then disk_call (λ d, MkDisk (seen d) (durable d) (delete segno (segments d)))
           else mret tt);
      remove_entries l remove
  end.
Definition remove_segments_from_disk (remove : Z → bool) : St unit :=
  _ ← syscall; (* read the directory *)
  s ← getS;
  remove_entries ((map_to_list (segments (disk s))).*1) remove.

Definition truncate_wal (end_pos : Lsn) : St unit :=
  s ← getS;
  if negb (write_record_lsn s =? 0) && (write_record_lsn s <? end_pos) then bail TruncateNonWritten
  else if negb (pending_wal_truncation s) && (end_pos =? write_lsn s) && (end_pos =? flush_record_lsn s)
  then mret tt
  else
    let size := wal_seg_size s in
    _ ← modifyS (λ s, set_flush_record_lsn end_pos (set_write_record_lsn end_pos
          (set_flush_lsn end_pos (set_write_lsn end_pos (set_pending true s)))));
    _ ← whenM (file s)
          (_ ← modifyS (set_file false);
           fdatasync_file (Lsn.segment_number (write_lsn s) size));
    let xlogoff := Lsn.segment_offset end_pos size in
    let segno := Lsn.segment_number end_pos size in
    _ ← remove_segments_from_disk (λ x, segno <? x);
    is_partial ← open_or_create segno;
    _ ← disk_call (zero_tail size segno (segno * size + xlogoff)); (* set_len, shorter *)
    _ ← syscall; (* set_len, back to the segment size *)
    _ ← fsync_file segno;
    _ ← whenM (negb is_partial) (disk_call (set_segment segno Partial)); (* rename *)
    modifyS (set_pending false).

Definition initialize_first_segment (init_lsn : Lsn) : St unit :=
  s ← getS;
  let segno := Lsn.segment_number init_lsn (wal_seg_size s) in
  _ ← open_or_create segno;
  _ ← syscall; (* seek *)
  _ ← write_all (segno * wal_seg_size s) (generate_wal_segment segno init_lsn);
  syscall (* flush *).
End storage.
End PhysicalStorage.
