(* ===== verification/WalEndFacts.v ===== *)
(** [find_end_of_wal] and opening the storage. *)

From S2P Require Import Prelude Text Lsns WalDecoders SkStates WalStorages.
From stdpp Require Import gmap.
Local Open Scope Z_scope.

Import WalStreamDecoder WalEnd.

Section facts.
Context `{WalLayoutLaws} (d : Disk).

Local Notation "d ⊕ c" := (feed_bytes c d) (at level 50, left associativity).
Local Notation size := WAL_SEGMENT_SIZE.

(** The end of the last record of a list. *)
Definition end_of (start : Lsn) (rs : list (Lsn * bytes)) : Lsn := match last rs with Some r => r.1 | None => start end.

Lemma end_of_app start rs1 rs2 : end_of start (rs1 ++ rs2) = end_of (end_of start rs1) rs2.
Proof. unfold end_of. rewrite last_app. by destruct (last rs2). Qed.

Lemma read_at_length l n : 0 ≤ n → Z.of_nat (length (read_at d l n)) = n.
Proof. intros Hn. unfold read_at. rewrite length_fmap, length_seqZ. lia. Qed.

Lemma read_at_app l n m : 0 ≤ n → 0 ≤ m → read_at d l (n + m) = read_at d l n ++ read_at d (l + n) m.
Proof. intros Hn Hm. unfold read_at. by rewrite seqZ_app, fmap_app. Qed.

(** ** One chunk *)

(** What the search has done at [c]: everything from the start is decoded. *)
Definition decoded (start : Lsn) (c : Cursor) : Prop :=
  ∃ rs, drains (new start ⊕ read_at d start (curr_lsn c - start)) rs (Ok tt) (dec c) ∧
    last_lsn c = end_of start rs ∧ start ≤ curr_lsn c.

(** The records of the WAL up to [stop], as one piece. *)
Definition wal_end (start stop : Lsn) (l : Lsn) : Prop :=
  ∃ rs o d', drains (new start ⊕ read_at d start (stop - start)) rs o d' ∧ o ≠ Panic ∧ l = end_of start rs.

Lemma new_in_range start stop : 0 ≤ start ≤ stop → stop ≤ LSN_LIMIT → in_range (new start ⊕ read_at d start (stop - start)).
Proof. intros Hs Hl. split; [cbn; lia|]. rewrite remaining_feed, read_at_length by lia. unfold remaining. cbn. lia. Qed.

Lemma feed_spec start c n stop :
  decoded start c → 0 ≤ start → 0 ≤ n → curr_lsn c + n ≤ stop → stop ≤ LSN_LIMIT →
  ∃ c' more, feed (read_at d (curr_lsn c) n) c = Some (c', more) ∧ curr_lsn c' = curr_lsn c + n ∧
    if more then decoded start c' else wal_end start stop (last_lsn c').
Proof.
  intros (rs & Hd & El & Hle) Hs Hn Hstop Hlim. unfold feed. rewrite read_at_length by done.
  unfold Lsn.add, checked_add. rewrite (proj2 (Z.ltb_lt _ _)) by (unfold LSN_LIMIT in Hlim; lia).
  destruct (drains_ok_wf _ _ _ _ Hd I eq_refl) as (Hwf & _).
  destruct (drain_drains (dec c ⊕ read_at d (curr_lsn c) n) Hwf) as (rs2 & o & d2 & -> & Hd2).
  destruct (drains_feed _ _ _ _ _ _ _ _ Hd eq_refl I Hd2) as (d2' & Hall & Ed). rewrite feed_feed in Hall.
  assert (∀ start' m, start' = start + m → 0 ≤ m → read_at d start m ++ read_at d start' n = read_at d start (m + n)) as Happ
    by (intros start' m -> Hm; by rewrite read_at_app).
  rewrite (Happ (curr_lsn c) (curr_lsn c - start)) in Hall by lia.
  replace (curr_lsn c - start + n) with (curr_lsn c + n - start) in Hall by lia.
  destruct (drains_no_panic _ _ _ _ Hall I I) as [Hnp _]; [apply new_in_range; lia|].
  assert (match last rs2 with Some r => r.1 | None => last_lsn c end = end_of start (rs ++ rs2)) as ->
    by (rewrite end_of_app, El; done).
  destruct o as [[]|e|]; [| |done]; eexists _, _; (split; [done|]; split; [done|]); cbn.
  - exists (rs ++ rs2). rewrite <-Ed by done. split; [done|]. split; [done|]. cbn. lia.
  - destruct (drains_feed_err _ _ _ _ (read_at d (curr_lsn c + n) (stop - (curr_lsn c + n))) Hall I) as (d3 & Hd3).
    exists (rs ++ rs2), (Err e), d3. split; [|done]. rewrite feed_feed in Hd3.
    replace (stop - start) with (curr_lsn c + n - start + (stop - (curr_lsn c + n))) by lia.
    rewrite read_at_app by lia. by replace (start + (curr_lsn c + n - start)) with (curr_lsn c + n) by lia.
Qed.

(** ** A segment *)

Lemma segment_span l : Lsn.segment_number l size * size ≤ l < (Lsn.segment_number l size + 1) * size.
Proof. unfold Lsn.segment_number. pose proof (Z.div_mod l size ltac:(done)). pose proof (Z.mod_pos_bound l size ltac:(done)). lia. Qed.

Lemma seg_number_unique l k : k * size ≤ l < (k + 1) * size → Lsn.segment_number l size = k.
Proof. intros Hk. pose proof (segment_span l). unfold WAL_SEGMENT_SIZE in *. nia. Qed.

Lemma segment_offset_span l : l - Lsn.segment_number l size * size = Lsn.segment_offset l size.
Proof. unfold Lsn.segment_number, Lsn.segment_offset. pose proof (Z.div_mod l size ltac:(done)). lia. Qed.

(** A method that fails only if one of the system calls does. *)
Definition io_ok {A} (io : list (option nat)) (P : A → Prop) (r : result WalError A) (io' : list (option nat)) : Prop :=
  match r with Ok a => P a | Err _ => io ≠ [] | Panic => False end ∧ (io = [] → io' = []).

Lemma wp_call {A} (m : M (list (option nat)) WalError A) P io :
  (∀ io', wp m (io_ok io' P) io') → wp (call ≫= λ _, m) (io_ok io P) io.
Proof.
  intros Hm. apply wp_bind. unfold wp at 1, call. destruct io as [|[n|] io]; cbn; [apply Hm|split; done|].
  eapply wp_mono; [apply Hm|]. intros [a|e|] io' [Hr _]; (split; [done|done]).
Qed.

Lemma segment_loop_spec fuel start stop segno c io :
  decoded start c → 0 ≤ start → (segno + 1) * size ≤ stop → stop ≤ LSN_LIMIT →
  segno * size ≤ curr_lsn c ≤ (segno + 1) * size → (segno + 1) * size - curr_lsn c ≤ Z.of_nat fuel * Lsn.XLOG_BLCKSZ →
  wp (segment_loop size d fuel segno c) (io_ok io (λ r : Cursor * bool, if r.2
    then decoded start r.1 ∧ curr_lsn r.1 = (segno + 1) * size else wal_end start stop (last_lsn r.1))) io.
Proof.
  intros Hc Hs Hstop Hlim. revert c Hc io. induction fuel as [|fuel IH]; intros c Hc io Hcur Hfuel; cbn [segment_loop].
  - assert (curr_lsn c = (segno + 1) * size) as Ec by lia.
    rewrite (seg_number_unique (curr_lsn c) (segno + 1)) by (unfold WAL_SEGMENT_SIZE in *; lia).
    rewrite (proj2 (Z.eqb_neq _ _)) by lia. split; done.
  - destruct (Z.eqb_spec (Lsn.segment_number (curr_lsn c) size) segno) as [Es|Es]; cbn [negb].
    + pose proof (segment_span (curr_lsn c)) as Hspan. pose proof (segment_offset_span (curr_lsn c)) as Hoff. rewrite Es in *.
      set (n := Z.min Lsn.XLOG_BLCKSZ (size - Lsn.segment_offset (curr_lsn c) size)).
      assert (0 < n ∧ curr_lsn c + n ≤ (segno + 1) * size ∧ (n = Lsn.XLOG_BLCKSZ ∨ curr_lsn c + n = (segno + 1) * size)) as (Hn & Hn2 & Hn3)
        by (subst n; unfold Lsn.XLOG_BLCKSZ in *; lia).
      destruct (feed_spec start c n stop Hc) as (c' & more & Ef & Ec & Hmore); [lia..|].
      apply wp_call. intros io'. rewrite Ef. destruct more; [|by split].
      apply (IH c' Hmore); rewrite Ec; [lia|]. unfold Lsn.XLOG_BLCKSZ in *. lia.
    + split; [|done]. split; [done|]. cbn. destruct (decide (curr_lsn c = (segno + 1) * size)) as [|Hne]; [done|].
      destruct Es. apply seg_number_unique. lia.
Qed.

(** ** All segments *)

(** The segments from that of [start] up to [stop] exist, the next one does not. *)
Record contiguous (start : Lsn) (stop : Z) : Prop := {
  ct_le : Lsn.segment_number start size ≤ stop;
  ct_in k : Lsn.segment_number start size ≤ k < stop → is_Some (segments d !! k);
  ct_end : segments d !! stop = None
}.

Lemma segments_bound (m : gmap Z SegmentKind) (a n : Z) :
  0 ≤ n → (∀ k, a ≤ k < a + n → is_Some (m !! k)) → n ≤ Z.of_nat (base.size m).
Proof.
  intros Hn. revert a m. revert n Hn.
  refine (natlike_ind _ _ _); [lia|]. intros n Hn IH a m Hk. destruct (Hk a) as [x Hx]; [lia|].
  specialize (IH (a + 1) (delete a m)). rewrite map_size_delete_Some in IH by eauto.
  assert (base.size m ≠ 0%nat) by (intros E; apply map_size_empty_inv in E; subst; by rewrite lookup_empty in Hx).
  enough (n ≤ Z.of_nat (Nat.pred (base.size m))) by lia. apply IH.
  intros k Hlk. rewrite lookup_delete_ne by lia. apply Hk. lia.
Qed.

Lemma segments_loop_spec fuel start stop c io :
  decoded start c → 0 ≤ start → contiguous start stop → stop * size ≤ LSN_LIMIT →
  (curr_lsn c = start ∨ ∃ k, curr_lsn c = k * size ∧ Lsn.segment_number start size < k ≤ stop) →
  stop - Lsn.segment_number (curr_lsn c) size < Z.of_nat fuel →
  wp (segments_loop size d fuel c) (io_ok io (wal_end start (Z.max start (stop * size)))) io.
Proof.
  intros Hc Hs Hct Hlim. revert c Hc io. induction fuel as [|fuel IH]; intros c Hc io Hcur Hfuel.
  { exfalso. assert (Lsn.segment_number (curr_lsn c) size ≤ stop); [|lia]. destruct Hct as [Hle _ _].
    destruct Hcur as [->|(k & -> & Hk)]; [done|]. rewrite (seg_number_unique (k * size) k) by (unfold WAL_SEGMENT_SIZE; lia). lia. }
  cbn [segments_loop]. apply wp_call. intros io1. set (segno := Lsn.segment_number (curr_lsn c) size).
  assert (Lsn.segment_number start size ≤ segno ≤ stop ∧ segno * size ≤ curr_lsn c < (segno + 1) * size) as [Hseg Hspan].
  { split; [|apply segment_span]. destruct Hct as [Hle _ _]. subst segno.
    destruct Hcur as [->|(k & -> & Hk)]; [lia|]. rewrite (seg_number_unique (k * size) k) by (unfold WAL_SEGMENT_SIZE; lia). lia. }
  destruct (segments d !! segno) as [kind|] eqn:Ek.
  - assert (segno < stop) as Hlt.
    { destruct (decide (segno = stop)) as [->|]; [|lia]. rewrite (ct_end _ _ Hct) in Ek. done. }
    assert (start < stop * size ∧ (segno + 1) * size ≤ stop * size) as [Hst Hse]
      by (pose proof (segment_span start); unfold WAL_SEGMENT_SIZE in *; lia).
    assert (Z.of_nat (S (Z.to_nat (size / Lsn.XLOG_BLCKSZ))) = 2049) as Ef by done.
    apply wp_call. intros io2. apply wp_bind. eapply wp_mono.
    { apply (segment_loop_spec _ start (Z.max start (stop * size)) segno c io2 Hc Hs); [lia|lia|lia|].
      rewrite Ef. unfold Lsn.XLOG_BLCKSZ, WAL_SEGMENT_SIZE in *. lia. }
    intros [[c' more]|e|] io' [Hmore Hio]; cbn [wp_next]; [|done..]. cbn [fst snd] in Hmore.
    assert (∀ r (io'' : list (option nat)), io_ok io' (wal_end start (Z.max start (stop * size))) r io'' →
      io_ok io2 (wal_end start (Z.max start (stop * size))) r io'') as Hweak.
    { intros r io'' [Hr Hio']. split; [|auto]. destruct r; [done| |done]. intros ->. by apply Hr, Hio. }
    destruct more; [|apply (wp_mono _ (io_ok io' (wal_end start (Z.max start (stop * size))))); [by split|done]].
    destruct Hmore as [Hc' Ec']. eapply wp_mono; [apply (IH c' Hc' io')|done];
      [right; exists (segno + 1); split; [done|lia]|].
    rewrite Ec', (seg_number_unique _ (segno + 1)) by (unfold WAL_SEGMENT_SIZE in *; lia). lia.
  - assert (segno = stop) as Estop.
    { destruct (decide (segno = stop)) as [|]; [done|]. destruct (ct_in _ _ Hct segno) as [x Hx]; [lia|]. congruence. }
    split; [|done]. destruct Hc as (rs & Hd & El & Hle). exists rs, (Ok tt), (dec c).
    split; [|done]. replace (Z.max start (stop * size)) with (curr_lsn c); [done|].
    destruct Hcur as [Ec|(k & Ec & Hk)]; [pose proof (segment_span start); rewrite Ec in *; lia|].
    rewrite Estop in Hspan. rewrite Ec in *. unfold WAL_SEGMENT_SIZE in *. lia.
Qed.

Lemma fresh_decoded start : decoded start (MkCursor (new start) start start).
Proof.
  exists []. cbn. rewrite Z.sub_diag. split; [|split; [done|lia]]. constructor. apply polls_return. unfold step, page_header. cbn.
  pose proof short_phd_size. pose proof long_phd_size.
  destruct (_ =? 0); [|destruct (_ =? 0)]; rewrite ?(proj2 (Z.ltb_lt 0 _)) by lia; done.
Qed.

Lemma find_end_of_wal_spec start stop io :
  0 ≤ start → contiguous start stop → stop * size ≤ LSN_LIMIT →
  wp (find_end_of_wal size d start) (io_ok io (wal_end start (Z.max start (stop * size)))) io.
Proof.
  intros Hs Hct Hlim. apply segments_loop_spec; [apply fresh_decoded|done..|by left|]. cbn [curr_lsn].
  pose proof (segments_bound (segments d) (Lsn.segment_number start size) (stop - Lsn.segment_number start size)) as Hb.
  destruct Hct as [Hle Hin _]. specialize (Hb ltac:(lia)).
  rewrite Z.add_sub_assoc, Z.add_comm, Z.add_simpl_r in Hb. specialize (Hb Hin). lia.
Qed.

(** The segments end somewhere. *)
Lemma contiguous_exists start : ∃ stop, contiguous start stop.
Proof.
  set (a := Lsn.segment_number start size).
  assert (∀ n, 0 ≤ n → (∀ k, a ≤ k < a + n → is_Some (segments d !! k)) ∨ ∃ stop, contiguous start stop) as Hn.
  { refine (natlike_ind _ _ _); [left; lia|]. intros n Hn [IH|IH]; [|by right].
    destruct (segments d !! (a + n)) as [x|] eqn:E.
    - left. intros k Hk. destruct (decide (k = a + n)) as [->|]; [by eexists|apply IH; lia].
    - right. exists (a + n). split; [fold a; lia|done|done]. }
  destruct (Hn (Z.of_nat (base.size (segments d)) + 1) ltac:(lia)) as [Hall|]; [|done].
  pose proof (segments_bound (segments d) a (Z.of_nat (base.size (segments d)) + 1) ltac:(lia) Hall). lia.
Qed.

(** All segments end before the limit. *)
Definition disk_in_range : Prop := ∀ k, is_Some (segments d !! k) → (k + 1) * size ≤ LSN_LIMIT.

Lemma segment_end_limit l : l ≤ LSN_LIMIT → segment_end l ≤ LSN_LIMIT.
Proof. intros Hl. apply segment_end_mono in Hl. by change (segment_end LSN_LIMIT) with LSN_LIMIT in Hl. Qed.

(** The end that is found is not before the start. *)
Lemma find_end_of_wal_bounds start io :
  0 ≤ start ≤ LSN_LIMIT → disk_in_range →
  wp (find_end_of_wal size d start) (io_ok io (λ l, start ≤ l ≤ LSN_LIMIT)) io.
Proof.
  intros Hs Hd. destruct (contiguous_exists start) as [stop Hct]. pose proof (segment_span start) as Hspan.
  assert (stop * size ≤ LSN_LIMIT) as Hstop.
  { destruct Hct as [Hle Hin _]. destruct (decide (stop = Lsn.segment_number start size)) as [->|Hne]; [lia|].
    specialize (Hd (stop - 1) (Hin (stop - 1) ltac:(lia))). by rewrite Z.sub_add in Hd. }
  eapply wp_mono; [apply (find_end_of_wal_spec start stop io); done || lia|].
  intros [l|e|] io' [Hr Hio]; (split; [|done]); [|done..]. destruct Hr as (rs & o & d' & Hdr & Ho & ->).
  destruct (drains_lsns _ _ _ _ Hdr I) as (_ & Hall & _); [cbn; lia|apply new_in_range; lia|].
  unfold end_of. destruct (last rs) as [r|] eqn:El; [|lia].
  assert (r.1 ∈ rs.*1) as Hin by (apply list_elem_of_fmap; exists r; split; [done|by apply last_Some_elem_of]).
  rewrite Forall_forall in Hall. specialize (Hall _ Hin). cbv beta in Hall.
  pose proof (segment_end_limit _ (proj2 (new_in_range start (Z.max start (stop * size)) ltac:(lia) ltac:(lia)))).
  change (record_floor _) with start in Hall. lia.
Qed.

(** C12: the search for the end of the WAL terminates without a panic when no system
    call fails, and returns what decoding the existing segments from the start
    position on, as one piece, finds: the end of the last record before the first
    error, or the start position when there is none.  Reading in blocks, the
    boundaries of segments and where the decoder stops do not matter. *)
Theorem find_end_of_wal_correct start stop :
  0 ≤ start → contiguous start stop → stop * size ≤ LSN_LIMIT →
  ∃ rs o d', drain (feed_bytes (read_at d start (Z.max start (stop * size) - start)) (new start)) = Some (rs, o, d') ∧
    o ≠ Panic ∧ find_end_of_wal size d start [] = (Ok (end_of start rs), []).
Proof.
  intros Hs Hct Hlim. destruct (find_end_of_wal_spec start stop [] Hs Hct Hlim) as [Hr Hio]. specialize (Hio eq_refl).
  destruct (find_end_of_wal size d start []) as [[l|e|] io']; cbn in *; subst io'; [|done..].
  destruct Hr as (rs & o & d' & Hd & Ho & ->).
  destruct (drain_drains (new start ⊕ read_at d start (Z.max start (stop * size) - start)) I) as (rs' & o' & d2 & E & Hd').
  destruct (drains_functional _ _ _ _ _ _ _ Hd Hd') as (-> & -> & ->). by exists rs', o', d2.
Qed.
End facts.

#[local] Existing Instance example_layout.
#[local] Existing Instance example_layout_laws.

(** One segment with one record at 40, zeros after it. *)
Definition example_disk : Disk :=
  let f l := if l <? 72 then nth (Z.to_nat (l - 40)) example_record 0 else 0 in MkDisk f f {[0 := Partial]}.

Lemma example_disk_contiguous : contiguous example_disk 40 1.
Proof.
  split; [done| |by vm_compute]. intros k Hk. change (Lsn.segment_number 40 WAL_SEGMENT_SIZE) with 0 in Hk.
  assert (k = 0) as -> by lia. by eexists.
Qed.

Lemma find_end_of_wal_correct_witness :
  find_end_of_wal WAL_SEGMENT_SIZE example_disk 40 [] = (Ok 72, []) ∧
  ∃ rs o d', drain (feed_bytes (read_at example_disk 40 (Z.max 40 (1 * WAL_SEGMENT_SIZE) - 40)) (new 40)) = Some (rs, o, d') ∧
    o ≠ Panic ∧ find_end_of_wal WAL_SEGMENT_SIZE example_disk 40 [] = (Ok (end_of 40 rs), []).
Proof.
  split; [by vm_compute|].
  apply (find_end_of_wal_correct example_disk 40 1); [lia|apply example_disk_contiguous|unfold LSN_LIMIT, WAL_SEGMENT_SIZE; lia].
Defined.
