(* ===== verification/WalStorageFacts.v ===== *)
(** Facts about [PhysicalStorage]: which LSNs its operations keep, what they
    write to disk, and that what is below the flushed LSN is durable. *)

From S2P Require Import Prelude Text Lsns WalDecoders SkStates WalStorages WalEndFacts.
From stdpp Require Import gmap.
Local Open Scope Z_scope.

Import PhysicalStorage.

(** * What the operations on files leave alone *)

Definition lsns (s : t) :=
  (wal_seg_size s, write_lsn s, write_record_lsn s, flush_lsn s, flush_record_lsn s, decoder s, pending_wal_truncation s).

Lemma next_io_keeps : keeps lsns next_io.
Proof. intros s. unfold next_io. by destruct (io s). Qed.
#[export] Hint Resolve next_io_keeps : keeps.

Lemma syscall_keeps : keeps lsns syscall.
Proof. apply keeps_bind; [apply next_io_keeps|]. by intros []. Qed.
#[export] Hint Resolve syscall_keeps : keeps.

Lemma disk_call_keeps f : keeps lsns (disk_call f).
Proof. unfold disk_call. eauto with keeps. Qed.
#[export] Hint Resolve disk_call_keeps : keeps.

Lemma fdatasync_keeps segno : keeps lsns (fdatasync_file segno).
Proof. unfold fdatasync_file. eauto with keeps. Qed.
#[export] Hint Resolve fdatasync_keeps : keeps.

Lemma open_or_create_keeps segno : keeps lsns (open_or_create segno).
Proof.
  apply keeps_bind; [apply keeps_get|]. intros s. destruct (segments (disk s) !! segno) as [[]|]; eauto with keeps.
Qed.
#[export] Hint Resolve open_or_create_keeps : keeps.

Lemma write_all_keeps pos buf : keeps lsns (write_all pos buf).
Proof. apply keeps_bind; [apply next_io_keeps|]. intros []; eauto with keeps. Qed.
#[export] Hint Resolve write_all_keeps : keeps.

Lemma write_in_segment_keeps segno off buf : keeps lsns (write_in_segment segno off buf).
Proof.
  unfold write_in_segment. apply keeps_bind; [apply keeps_get|]. intros s. apply keeps_bind.
  { destruct (file s); eauto 10 with keeps. }
  intros _. apply keeps_bind; [apply write_all_keeps|]. intros _. apply keeps_bind; [apply syscall_keeps|].
  intros _. destruct (_ =? _); eauto 10 with keeps.
Qed.

Lemma remove_entries_keeps l remove : keeps lsns (remove_entries l remove).
Proof.
  induction l as [|segno l IH]; simpl; [apply keeps_ret|]. apply keeps_bind; [|done].
  destruct (remove segno); eauto with keeps.
Qed.

Lemma remove_segments_keeps remove : keeps lsns (remove_segments_from_disk remove).
Proof.
  unfold remove_segments_from_disk. apply keeps_bind; [apply syscall_keeps|]. intros _.
  apply keeps_bind; [apply keeps_get|]. intros s. apply remove_entries_keeps.
Qed.

(** * Writing across segments *)

(** What writing to segments does not change. *)
Definition rest (s : t) := (wal_seg_size s, write_record_lsn s, flush_record_lsn s, decoder s, pending_wal_truncation s).

Lemma segment_end_offset w :
  segment_end w ≤ w + (WAL_SEGMENT_SIZE - Lsn.segment_offset w WAL_SEGMENT_SIZE) ∧
  0 ≤ Lsn.segment_offset w WAL_SEGMENT_SIZE < WAL_SEGMENT_SIZE.
Proof.
  destruct (segment_end_spec w) as [Hs Es]. unfold Lsn.segment_offset.
  pose proof (Z.mod_pos_bound w WAL_SEGMENT_SIZE ltac:(done)). pose proof (Z.div_mod w WAL_SEGMENT_SIZE ltac:(done)).
  apply Z.mod_divide in Es as [k Ek]; [|done]. split; [|done]. unfold WAL_SEGMENT_SIZE in *. lia.
Qed.

(** Success writes everything; a failure stops where it was, or at the end of a
    segment. *)
Definition loop_post (s : t) (len : Z) (r : result WalError unit) (s' : t) : Prop :=
  rest s' = rest s ∧ flush_lsn s ≤ flush_lsn s' ≤ write_lsn s' ∧
  match r with
  | Ok _ => write_lsn s' = write_lsn s + len
  | _ => 0 < len ∧ write_lsn s ≤ write_lsn s' ≤ write_lsn s + len ∧ (write_lsn s' = write_lsn s ∨ segment_end (write_lsn s) ≤ write_lsn s')
  end.

Lemma write_loop_spec fuel buf s :
  (length buf ≤ fuel)%nat → wal_seg_size s = WAL_SEGMENT_SIZE → 0 ≤ write_lsn s → flush_lsn s ≤ write_lsn s →
  write_lsn s + Z.of_nat (length buf) ≤ LSN_LIMIT →
  wp (write_loop fuel buf) (loop_post s (Z.of_nat (length buf))) s.
Proof.
  revert buf s. induction fuel as [|fuel IH]; intros buf s Hfuel Hsz Hw Hfl Hlim.
  { destruct buf; [|simpl in Hfuel; lia]. split; [done|]. simpl. lia. }
  destruct buf as [|b0 buf0] eqn:Ebuf; [split; [done|]; simpl; lia|]. rewrite <-Ebuf in *.
  assert (0 < Z.of_nat (length buf)) as Hpos by (subst buf; simpl; lia).
  replace (write_loop (S fuel) buf) with (write_loop (S fuel) (b0 :: buf0)) by (by rewrite Ebuf).
  cbn [write_loop]. rewrite <-Ebuf. apply wp_bind. unfold wp at 1. cbn [getS fst snd wp_next].
  rewrite Hsz. set (off := Lsn.segment_offset (write_lsn s) WAL_SEGMENT_SIZE).
  destruct (segment_end_offset (write_lsn s)) as [Hse Hoff]. fold off in Hse, Hoff.
  set (bw := if WAL_SEGMENT_SIZE <? off + Z.of_nat (length buf) then WAL_SEGMENT_SIZE - off else Z.of_nat (length buf)).
  assert (0 < bw ≤ Z.of_nat (length buf) ∧ (bw = Z.of_nat (length buf) ∨ segment_end (write_lsn s) ≤ write_lsn s + bw)) as [Hbw Hend]
    by (subst bw; destruct (Z.ltb_spec WAL_SEGMENT_SIZE (off + Z.of_nat (length buf))); lia).
  apply wp_bind. unfold wp at 1.
  pose proof (write_in_segment_keeps (Lsn.segment_number (write_lsn s) WAL_SEGMENT_SIZE) off (take (Z.to_nat bw) buf) s) as Hk.
  destruct (write_in_segment _ _ _ s) as [r s1]. cbn [fst snd] in *. unfold lsns in Hk. injection Hk as K1 K2 K3 K4 K5 K6 K7.
  assert (rest s1 = rest s) as Hrest by (unfold rest; congruence).
  destruct r as [flushed|e|]; cbn [wp_next]; [|split; [done|]; split; [lia|split_and!; [lia|lia|lia|by left]]..].
  apply wp_bind. unfold Lsn.add, checked_add. rewrite (proj2 (Z.ltb_lt (write_lsn s + bw) (2 ^ 64))) by (unfold LSN_LIMIT in *; lia).
  unfold wp at 1. cbn [mret M_ret fst snd wp_next]. apply wp_bind. unfold wp at 1. cbn [modifyS fst snd wp_next].
  apply wp_bind.
  assert (∀ s2, rest s2 = rest s → write_lsn s2 = write_lsn s + bw → flush_lsn s ≤ flush_lsn s2 ≤ write_lsn s2 →
    wp (write_loop fuel (drop (Z.to_nat bw) buf)) (loop_post s (Z.of_nat (length buf))) s2) as Hgo.
  { intros s2 E1 E2 E3. eapply wp_mono; [apply IH|].
    - rewrite length_drop. lia.
    - unfold rest in E1. congruence.
    - lia.
    - lia.
    - rewrite length_drop. lia.
    - intros r s' (R1 & R2 & R3). rewrite length_drop in R3. split; [congruence|]. split; [lia|].
      destruct r; [lia|..]; (split_and!; [lia|lia|lia|]); destruct Hend; lia. }
  apply wp_when; intros _; unfold wp; cbn [modifyS fst snd wp_next]; apply Hgo; cbn; try done; lia.
Qed.

(** * The invariant of the LSNs *)

Definition avail (s : t) : Lsn := WalStreamDecoder.lsn (decoder s) + WalStreamDecoder.remaining (decoder s).

Record wal_inv (s : t) : Prop := {
  wi_size : wal_seg_size s = WAL_SEGMENT_SIZE;
  wi_dec : dec_wf (decoder s) ∧ 0 ≤ WalStreamDecoder.lsn (decoder s) ∧ avail s ≤ LSN_LIMIT;
  wi_skip : skip_ok (decoder s);
  wi_write : 0 ≤ write_lsn s ≤ LSN_LIMIT;
  wi_flush : flush_lsn s ≤ write_lsn s;
  wi_record : flush_record_lsn s ≤ write_record_lsn s;
  (* the decoder is not behind the last record, unless it was never used *)
  wi_floor : write_record_lsn s ≤ record_floor (decoder s) ∨ avail s = 0;
  (* the decoder is at the end of the WAL, or a restart there loses no record *)
  wi_avail : avail s ≠ write_lsn s → write_record_lsn s ≤ write_lsn s;
  wi_seg : write_record_lsn s ≤ segment_end (write_lsn s);
  wi_pending : pending_wal_truncation s = false → 0 < write_lsn s ∧ 0 < write_record_lsn s;
  wi_zero : write_record_lsn s = 0 → avail s = 0;
  (* a record that is not flushed begins behind the ones that are *)
  wi_ahead : flush_record_lsn s < write_record_lsn s → flush_record_lsn s < write_lsn s
}.

Lemma wal_inv_lsns s s' : lsns s' = lsns s → wal_inv s → wal_inv s'.
Proof.
  unfold lsns. intros [= E1 E2 E3 E4 E5 E6 E7] [].
  split; unfold avail in *; rewrite ?E1, ?E2, ?E3, ?E4, ?E5, ?E6, ?E7; done.
Qed.

(** The records found by the decoder, one after the other. *)
Lemma fold_records rs s :
  StronglySorted Z.lt rs.*1 → Forall (λ l, write_record_lsn s < l) rs.*1 → flush_record_lsn s ≤ write_record_lsn s →
  let s' := foldl (λ s (r : Lsn * bytes), on_record r.1 s) s rs in
  (wal_seg_size s', write_lsn s', flush_lsn s', decoder s', pending_wal_truncation s', disk s', file s', io s') =
    (wal_seg_size s, write_lsn s, flush_lsn s, decoder s, pending_wal_truncation s, disk s, file s, io s) ∧
  flush_record_lsn s ≤ flush_record_lsn s' ≤ write_record_lsn s' ∧ write_record_lsn s ≤ write_record_lsn s' ∧
  (write_record_lsn s' = write_record_lsn s ∨ write_record_lsn s' ∈ rs.*1).
Proof.
  revert s. induction rs as [|[l rb] rs IH]; intros s Hs Hf Hr s'.
  { simpl in s'. subst s'. split; [done|]. split; [lia|]. split; [lia|by left]. }
  cbn [fmap list_fmap fst] in Hs, Hf. apply StronglySorted_cons in Hs as [Hl Hs]. apply Forall_cons in Hf as [Hl0 _].
  simpl in s'. set (s1 := on_record l s) in *.
  assert (write_record_lsn s1 = l ∧ flush_record_lsn s ≤ flush_record_lsn s1 ≤ l ∧
    (wal_seg_size s1, write_lsn s1, flush_lsn s1, decoder s1, pending_wal_truncation s1, disk s1, file s1, io s1) =
    (wal_seg_size s, write_lsn s, flush_lsn s, decoder s, pending_wal_truncation s, disk s, file s, io s)) as (E1 & E2 & E3).
  { subst s1. unfold on_record. simpl. destruct (l <=? flush_lsn s); simpl; (split; [done|split; [lia|done]]). }
  destruct (IH s1 Hs) as (R1 & R2 & R3 & R4); [rewrite E1; exact Hl|lia|]. fold s' in R1, R2, R3, R4.
  split; [congruence|]. split; [lia|]. split; [lia|]. right. simpl. destruct R4 as [->|R4]; [rewrite E1|]; by constructor.
Qed.

(** A record that is not flushed begins behind the ones that are. *)
Lemma fold_ahead rs s F B :
  StronglySorted Z.lt rs.*1 → Forall (λ l, write_record_lsn s < l) rs.*1 →
  flush_record_lsn s ≤ write_record_lsn s ≤ F → (flush_record_lsn s < write_record_lsn s → flush_record_lsn s < B) →
  (∀ pre r post, rs = pre ++ r :: post → match last pre with Some x => x.1 | None => F end < B) →
  let s' := foldl (λ s (r : Lsn * bytes), on_record r.1 s) s rs in flush_record_lsn s' < write_record_lsn s' → flush_record_lsn s' < B.
Proof.
  revert s F. induction rs as [|[l rb] rs IH]; intros s F Hs Hf HF Ha Hrs; [done|]. cbn [foldl].
  cbn [fmap list_fmap fst] in Hs, Hf. apply StronglySorted_cons in Hs as [Hl Hs]. apply Forall_cons in Hf as [Hl0 _].
  pose proof (Hrs [] (l, rb) rs eq_refl) as HB. cbn in HB.
  assert (write_record_lsn (on_record l s) = l ∧ (flush_record_lsn (on_record l s) = l ∨ flush_record_lsn (on_record l s) = flush_record_lsn s)) as [E1 E2]
    by (unfold on_record; cbn; destruct (_ <=? _); cbn; auto).
  apply (IH _ l); cbn [fst]; rewrite ?E1; [done|done|lia|lia|].
  intros pre r post E. specialize (Hrs ((l, rb) :: pre) r post ltac:(by rewrite E)). rewrite last_cons in Hrs. by destruct (last pre).
Qed.

Section laws.
Context `{WalLayoutLaws} (generate_wal_segment : Z → Lsn → bytes).

Lemma decode_records_spec s startpos buf :
  wal_seg_size s = WAL_SEGMENT_SIZE → 0 ≤ startpos → write_lsn s = startpos + Z.of_nat (length buf) →
  write_lsn s ≤ LSN_LIMIT → flush_lsn s ≤ write_lsn s → flush_record_lsn s ≤ write_record_lsn s →
  dec_wf (decoder s) → skip_ok (decoder s) → 0 ≤ WalStreamDecoder.lsn (decoder s) → avail s = startpos →
  write_record_lsn s ≤ record_floor (decoder s) → write_record_lsn s ≤ segment_end (write_lsn s) →
  0 < write_record_lsn s → 0 < write_lsn s → (flush_record_lsn s < write_record_lsn s → flush_record_lsn s < write_lsn s) →
  wp (decode_records buf) (λ r s', r ≠ Panic ∧ wal_inv s' ∧ flush_record_lsn s ≤ flush_record_lsn s') s.
Proof.
  intros Hsz Hsp Hw Hlim Hfl Hfr Hwf Hsk Hl0 Hav Hfloor Hseg Hwr0 Hw0 Hah. unfold wp, decode_records.
  set (d := WalStreamDecoder.feed_bytes buf (decoder s)).
  assert (WalStreamDecoder.lsn d + WalStreamDecoder.remaining d = write_lsn s) as Hd
    by (unfold d; rewrite remaining_feed; unfold avail in Hav; simpl; lia).
  destruct (drain_drains d Hwf) as (rs & o & d1 & -> & Hdr).
  destruct (drains_no_panic _ _ _ _ Hdr Hwf Hsk) as [Hnop Hsk1]; [split; [done|lia]|].
  destruct (drains_lsns _ _ _ _ Hdr Hwf) as (Hs & Hin & Hnp & Hok & Herr); [done|lia|]. rewrite Hd in *.
  pose proof (drains_ahead _ _ _ _ Hdr Hwf Hl0 ltac:(lia)) as Hahead. rewrite Hd in Hahead.
  change (record_floor d) with (record_floor (decoder s)) in *.
  assert (Forall (λ l, write_record_lsn s < l) rs.*1) as Hgt by (eapply Forall_impl; [exact Hin|]; simpl; lia).
  pose proof (fold_ahead rs s (record_floor (decoder s)) (write_lsn s) Hs Hgt ltac:(lia) Hah Hahead) as Hah1. cbv zeta in Hah1.
  destruct (fold_records rs s Hs) as (F1 & F2 & F3 & F4); [eapply Forall_impl; [exact Hin|]; simpl; lia|done|].
  set (s1 := foldl _ s rs) in *. injection F1 as K1 K2 K3 K4 K5 K6 K7 K8.
  assert (∀ B, write_record_lsn s ≤ B → Forall (λ l, l ≤ B) rs.*1 → write_record_lsn s1 ≤ B) as Hbound.
  { intros B HB HF. destruct F4 as [->|F4]; [done|]. rewrite Forall_forall in HF. by apply HF. }
  assert (wal_inv (set_decoder d1 s1)) as Hinv.
  { destruct (Hnp Hnop) as (Hwf1 & Hl1 & Hr1 & Hf1 & Hf2). pose proof (remaining_nonneg d1) as Hrem.
    change (WalStreamDecoder.lsn d) with (WalStreamDecoder.lsn (decoder s)) in Hl1.
    split; unfold avail; cbn; rewrite ?K1, ?K2, ?K3; try done; try lia.
    - split_and!; [done|lia|lia].
    - left. apply Hbound; [lia|done].
    - intros Hne. destruct o as [[]|e|]; [specialize (Hok eq_refl); lia| |done].
      destruct (Herr e eq_refl) as [He1 He2]. apply Hbound; [lia|]. eapply Forall_impl; [exact He2|]. simpl. lia.
    - apply Hbound; [done|]. eapply Forall_impl; [exact Hin|]. simpl. lia. }
  destruct o as [[]|e|]; cbn; try done; (split; [done|]; split; [done|cbn; lia]).
Qed.

(** The bytes are written and the decoder stands where they start. *)
Lemma after_write_spec s s1 s2 buf :
  wal_inv s → 0 < write_lsn s → 0 < write_record_lsn s → flush_lsn s1 ≤ write_lsn s1 → write_lsn s1 ≤ LSN_LIMIT →
  write_lsn s1 = write_lsn s + Z.of_nat (length buf) →
  lsns s2 = (WAL_SEGMENT_SIZE, write_lsn s1, write_record_lsn s, flush_lsn s1, flush_record_lsn s, decoder s2, false) →
  dec_wf (decoder s2) → skip_ok (decoder s2) → 0 ≤ WalStreamDecoder.lsn (decoder s2) → avail s2 = write_lsn s →
  write_record_lsn s ≤ record_floor (decoder s2) →
  wp (_ ← modifyS (λ s, if write_record_lsn s <=? flush_lsn s then set_flush_record_lsn (write_record_lsn s) s else s);
      decode_records buf) (λ r s', r ≠ Panic ∧ wal_inv s' ∧ flush_record_lsn s ≤ flush_record_lsn s') s2.
Proof.
  intros [Hsz _ _ Hw Hfl Hfr _ _ Hseg _ _ Hah] Hw0 Hwr0 Hfl1 Hlim Hw1 E Hwf2 Hsk2 Hl2 Hav2 Hfl2. injection E as J1 J2 J3 J4 J5 J6.
  pose proof (segment_end_mono (write_lsn s) (write_lsn s1) ltac:(lia)) as Hmono.
  apply wp_bind. unfold wp at 1. cbn [modifyS fst snd wp_next].
  set (s3 := if write_record_lsn s2 <=? flush_lsn s2 then set_flush_record_lsn (write_record_lsn s2) s2 else s2).
  assert (flush_record_lsn s2 ≤ flush_record_lsn s3 ≤ write_record_lsn s3 ∧
    (flush_record_lsn s3 = flush_record_lsn s2 ∨ flush_record_lsn s3 = write_record_lsn s3) ∧
    (wal_seg_size s3, write_lsn s3, write_record_lsn s3, flush_lsn s3, decoder s3) =
    (wal_seg_size s2, write_lsn s2, write_record_lsn s2, flush_lsn s2, decoder s2)) as (L1 & L1' & L2)
    by (subst s3; destruct (_ <=? _); cbn; (split_and!; [lia..|by auto|done])).
  injection L2 as L2 L3 L4 L5 L6.
  eapply wp_mono; [apply (decode_records_spec s3 (write_lsn s)); unfold avail in *;
    rewrite ?L2, ?L3, ?L4, ?L5, ?L6, ?J1, ?J2, ?J3, ?J4; try lia; try done|].
  intros r s' (Hr & Hp & Hle). split; [done|]. split; [done|lia].
Qed.

(** Only the assertion in the loop over the segments can fail. *)
Lemma write_wal_law startpos buf s :
  wal_inv s → startpos + Z.of_nat (length buf) ≤ LSN_LIMIT →
  wp (write_wal startpos buf) (λ r s',
    (startpos = write_lsn s ∧ pending_wal_truncation s = false ∧ (write_loop (length buf) buf s).1 = Panic) ∨
    r ≠ Panic ∧ wal_inv s' ∧ flush_record_lsn s ≤ flush_record_lsn s') s.
Proof.
  intros Hinv Hlim. pose proof Hinv as [Hsz (Hwf & Hl0 & Hav) Hsk Hw Hfl Hfr Hfloor Havail Hseg Hpend Hzero].
  unfold write_wal. apply wp_bind. unfold wp at 1. cbn [getS fst snd wp_next].
  destruct (Z.ltb_spec startpos (write_lsn s)) as [|Hge]; [by right|].
  destruct (_ && _) eqn:Egap; [by right|]. destruct (pending_wal_truncation s) eqn:Ep; [by right|].
  destruct (Hpend eq_refl) as [Hw0 Hwr0]. assert (startpos = write_lsn s) as -> by lia.
  apply wp_bind. unfold write_exact. apply wp_bind. unfold wp at 1. cbn [getS fst snd wp_next].
  rewrite Z.eqb_refl. cbn [negb whenM]. apply wp_bind. unfold wp at 1. cbn [mret M_ret fst snd wp_next].
  pose proof (write_loop_spec (length buf) buf s ltac:(lia) Hsz ltac:(lia) Hfl Hlim) as Hloop. unfold wp in Hloop |- * at 1.
  destruct (write_loop (length buf) buf s) as [r s1]. cbn [fst snd] in *.
  destruct Hloop as (R1 & R2 & R3). injection R1 as K1 K2 K3 K4 K5.
  pose proof (segment_end_mono (write_lsn s)) as Hmono.
  destruct r as [[]|e|]; cbn [wp_next]; [| |by left].
  2: { right. split; [done|]. split; [|lia]. destruct R3 as (Hpos & Hb & Hor).
    specialize (Hmono (write_lsn s1) ltac:(lia)).
    split; unfold avail; rewrite ?K1, ?K2, ?K3, ?K4, ?K5; try done; try lia.
    intros Hne. destruct Hor as [E|Hor]; [rewrite E in *; by apply Havail|lia]. }
  apply wp_bind. unfold wp at 1. cbn [getS fst snd wp_next]. rewrite K4. apply wp_bind.
  unfold WalStreamDecoder.available, Lsn.add, checked_add.
  change (WalStreamDecoder.lsn (decoder s) + WalStreamDecoder.remaining (decoder s)) with (avail s).
  rewrite (proj2 (Z.ltb_lt (avail s) (2 ^ 64))) by (unfold LSN_LIMIT in *; lia).
  unfold wp at 1. cbn [mret M_ret fst snd wp_next]. specialize (Hmono (write_lsn s1) ltac:(lia)).
  apply wp_bind. apply wp_when; intros Eav; cbn [wp_next]; [unfold wp at 1; cbn [modifyS fst snd wp_next]|];
    (apply (wp_mono _ (λ r s', r ≠ Panic ∧ wal_inv s' ∧ flush_record_lsn s ≤ flush_record_lsn s')); [|by intros; right]).
  - apply (after_write_spec s s1); cbn; try done; try lia; [unfold lsns; cbn; congruence|].
    unfold avail, WalStreamDecoder.remaining. cbn. lia.
  - assert (avail s = write_lsn s) as Ea by lia.
    apply (after_write_spec s s1); rewrite ?K4; try done; try lia; [unfold lsns; congruence|unfold avail in *; by rewrite K4].
Qed.

(** What a step on the files leaves is described by the LSNs it started from. *)
Lemma wp_keeps {A B} (m : St A) (f : A → St B) Q s :
  keeps lsns m → (∀ a s', lsns s' = lsns s → wp (f a) Q s') → (∀ e s', lsns s' = lsns s → Q (Err e) s') →
  (∀ s', lsns s' = lsns s → Q Panic s') → wp (m ≫= f) Q s.
Proof.
  intros Hk Hok Herr Hp. apply wp_bind. unfold wp at 1. specialize (Hk s). destruct (m s) as [[a|e|] s1]; cbn in *; auto.
Qed.

Lemma flush_wal_law s :
  wal_inv s →
  wp flush_wal (λ r s', r ≠ Panic → wal_inv s' ∧ flush_record_lsn s ≤ flush_record_lsn s') s.
Proof.
  intros Hinv. unfold flush_wal. apply wp_bind. unfold wp at 1. cbn [getS fst snd wp_next].
  assert (∀ s', lsns s' = lsns s → wal_inv s' ∧ flush_record_lsn s ≤ flush_record_lsn s') as Hsame.
  { intros s' E. split; [by apply (wal_inv_lsns s)|]. unfold lsns in E. injection E. lia. }
  destruct (_ =? _); [intros _; by apply Hsame|]. destruct (file s); [|intros _; by apply Hsame].
  apply wp_keeps; [by eauto with keeps|intros _ s1 E1|intros; by apply Hsame..].
  apply wp_keeps; [by eauto with keeps|intros _ s2 E2|intros; apply Hsame; congruence..].
  apply wp_keeps; [by eauto with keeps|intros _ s3 E3|intros; apply Hsame; congruence..].
  assert (lsns s3 = lsns s) as E by congruence. destruct (Hsame s3 E) as [[] Hfr].
  intros _. unfold avail in *. split; [|cbn; lia].
  split; unfold avail; cbn; try done; lia.
Qed.

(** A truncation moves every LSN to its end, also if it fails on the way. *)
Lemma truncate_wal_law e s :
  wal_inv s → 0 < e ≤ LSN_LIMIT →
  wp (truncate_wal e) (λ r s', r ≠ Panic → wal_inv s' ∧
    (flush_record_lsn s' = e ∨ r ≠ Ok tt ∧ flush_record_lsn s' = flush_record_lsn s)) s.
Proof.
  intros Hinv He. unfold truncate_wal. apply wp_bind. unfold wp at 1. cbn [getS fst snd wp_next].
  destruct (_ && _) eqn:Eg; [intros _; split; [done|by right]|].
  destruct (negb (pending_wal_truncation s) && _ && _) eqn:Ed; [intros _; split; [done|left; cbn; lia]|].
  apply wp_bind. unfold wp at 1. cbn [modifyS fst snd wp_next].
  set (s1 := set_flush_record_lsn e _).
  assert (∀ b s', lsns s' = (wal_seg_size s, e, e, e, e, decoder s, b) → wal_inv s' ∧ flush_record_lsn s' = e) as Hend.
  { intros b s' E. unfold lsns in E. injection E as E1 E2 E3 E4 E5 E6 E7. destruct Hinv.
    destruct (segment_end_spec e) as [Hse _]. split; [|done].
    split; unfold avail in *; rewrite ?E1, ?E2, ?E3, ?E4, ?E5, ?E6; try done; try lia. }
  assert (∀ s' (r : result WalError unit), lsns s' = lsns s1 → r ≠ Panic → wal_inv s' ∧
    (flush_record_lsn s' = e ∨ r ≠ Ok tt ∧ flush_record_lsn s' = flush_record_lsn s)) as Hmid.
  { intros s' r E _. destruct (Hend true s') as [Hi Hf]; [by rewrite E|]. auto. }
  apply wp_keeps; [destruct (file s); by eauto with keeps|intros _ s2 E2|intros; by apply Hmid..].
  apply wp_keeps; [apply remove_segments_keeps|intros _ s3 E3|intros; apply Hmid; congruence..].
  apply wp_keeps; [by eauto with keeps|intros b s4 E4|intros; apply Hmid; congruence..].
  apply wp_keeps; [by eauto with keeps|intros _ s5 E5|intros; apply Hmid; congruence..].
  apply wp_keeps; [by eauto with keeps|intros _ s6 E6|intros; apply Hmid; congruence..].
  apply wp_keeps; [by unfold fsync_file; eauto with keeps|intros _ s7 E7|intros; apply Hmid; congruence..].
  apply wp_keeps; [by eauto with keeps|intros _ s8 E8|intros; apply Hmid; congruence..].
  intros _. assert (lsns s8 = lsns s1) as E by congruence.
  destruct (Hend false (set_pending false s8)) as [Hi Hf]; [|by auto].
  unfold lsns in E. injection E as K1 K2 K3 K4 K5 K6 _. unfold lsns. cbn. rewrite K1, K2, K3, K4, K5, K6. done.
Qed.

Lemma initialize_first_segment_law l s :
  wal_inv s → wp (initialize_first_segment generate_wal_segment l) (λ r s', wal_inv s' ∧ flush_record_lsn s' = flush_record_lsn s) s.
Proof.
  intros Hinv. assert (keeps lsns (initialize_first_segment generate_wal_segment l)) as Hk.
  { unfold initialize_first_segment. apply keeps_bind; [apply keeps_get|]. intros s0. eauto 10 with keeps. }
  specialize (Hk s). unfold wp. split; [by apply (wal_inv_lsns s)|]. unfold lsns in Hk. injection Hk. done.
Qed.
End laws.
