(* ===== verification/WalDiskFacts.v ===== *)
(** What the file operations of [PhysicalStorage] do to the disk: a write changes
    nothing below the position it writes at, what is durable stays durable, and a
    segment that is full is synced before it is renamed. *)

From S2P Require Import Prelude Text Lsns WalDecoders WalStorages WalStorageFacts.
From stdpp Require Import gmap.
Local Open Scope Z_scope.

Import PhysicalStorage.

Local Notation size := WAL_SEGMENT_SIZE.

(** * Steps *)

Lemma set_io_same (s : t) : set_io (io s) s = s.
Proof. by destruct s. Qed.

Lemma wp_next_io {A} (f : option nat → St A) Q s :
  (∀ v, wp (f None) Q (set_io v s)) → (∀ n v, wp (f (Some n)) Q (set_io v s)) → wp (next_io ≫= f) Q s.
Proof.
  intros H1 H2. apply wp_bind. unfold wp at 1, next_io. destruct (io s) as [|[n|] l] eqn:E; cbn; [|apply H2|apply H1].
  specialize (H1 []). by rewrite <-E, set_io_same in H1.
Qed.

Lemma wp_syscall {A} (f : unit → St A) Q s :
  (∀ v, wp (f tt) Q (set_io v s)) → (∀ v, Q (Err IoError) (set_io v s)) → wp (syscall ≫= f) Q s.
Proof.
  intros H1 H2. apply wp_bind. unfold syscall. apply wp_next_io; intros; [apply H1|apply H2].
Qed.

Lemma wp_disk_call {A} (g : Disk → Disk) (f : unit → St A) Q s :
  (∀ v, wp (f tt) Q (set_disk (g (disk s)) (set_io v s))) → (∀ v, Q (Err IoError) (set_io v s)) → wp (disk_call g ≫= f) Q s.
Proof.
  intros H1 H2. apply wp_bind. unfold disk_call. apply wp_syscall; [intros; apply H1|done].
Qed.

(** * Effects on the disk *)

(** Nothing below [pos] changes, and what is durable there stays so. *)
Definition below_kept (pos : Z) (d d' : Disk) : Prop :=
  (∀ l, l < pos → seen d' l = seen d l) ∧ (∀ l, l < pos → durable d l = seen d l → durable d' l = seen d' l).

Lemma below_kept_refl pos d : below_kept pos d d.
Proof. by split. Qed.

Lemma below_kept_trans pos d1 d2 d3 : below_kept pos d1 d2 → below_kept pos d2 d3 → below_kept pos d1 d3.
Proof. intros [A1 B1] [A2 B2]. split; [intros l Hl; by rewrite A2, A1|auto]. Qed.

Lemma below_kept_write pos p buf d : pos ≤ p → below_kept pos d (write_bytes p buf d).
Proof.
  intros Hp. assert (∀ l, l < pos → seen (write_bytes p buf d) l = seen d l) as Hs.
  { intros l Hl. cbn. by rewrite (proj2 (Z.leb_gt p l)) by lia. }
  split; [done|]. intros l Hl E. rewrite Hs by done. done.
Qed.

Lemma below_kept_sync pos segno d : below_kept pos d (sync_segment size segno d).
Proof. split; [done|]. intros l _ E. cbn. by destruct (in_segment size segno l). Qed.

Lemma below_kept_segment pos segno k d : below_kept pos d (set_segment segno k d).
Proof. by split. Qed.

Lemma below_kept_create pos segno d : pos ≤ segno * size → below_kept pos d (create_segment size segno d).
Proof.
  intros Hp. assert (∀ l, l < pos → in_segment size segno l = false) as Hin by (intros l Hl; unfold in_segment; lia).
  split; [intros l Hl; cbn; by rewrite Hin|]. intros l Hl E. cbn. by rewrite Hin.
Qed.

Lemma below_kept_zero pos segno p d : pos ≤ p → below_kept pos d (zero_tail size segno p d).
Proof.
  intros Hp. assert (∀ l, l < pos → seen (zero_tail size segno p d) l = seen d l) as Hs.
  { intros l Hl. cbn. rewrite (proj2 (Z.leb_gt p l)) by lia. by rewrite andb_false_r. }
  split; [done|]. intros l Hl E. rewrite Hs by done. done.
Qed.

Lemma write_bytes_at pos buf d i b : buf !! i = Some b → seen (write_bytes pos buf d) (pos + Z.of_nat i) = b.
Proof.
  intros Hi. pose proof (lookup_lt_Some _ _ _ Hi). cbn. rewrite (proj2 (andb_true_iff _ _)) by lia.
  replace (Z.to_nat (pos + Z.of_nat i - pos)) with i by lia. by apply nth_lookup_Some.
Qed.

Lemma sync_durable segno l d : in_segment size segno l = true → durable (sync_segment size segno d) l = seen d l.
Proof. intros E. cbn. by rewrite E. Qed.

(** * Writing in a segment *)

(** The segment files: [segno] may have been created or completed, the others are
    as before. *)
Definition others_kept (segno : Z) (d d' : Disk) : Prop := ∀ k, k ≠ segno → segments d' !! k = segments d !! k.

(** The outcome of writing [buf] at [pos] in segment [segno]. *)
Record wrote (pos segno : Z) (buf : bytes) (s : t) (r : result WalError bool) (s' : t) : Prop := {
  wr_total : r ≠ Panic;
  wr_below : below_kept pos (disk s) (disk s');
  wr_others : others_kept segno (disk s) (disk s');
  wr_bytes : r ≠ Err IoError → ∀ i b, buf !! i = Some b → seen (disk s') (pos + Z.of_nat i) = b;
  wr_full b : r = Ok b → b = (pos + Z.of_nat (length buf) =? (segno + 1) * size);
  wr_case : match r with
    | Ok true => segments (disk s') !! segno = Some Complete ∧ file s' = false ∧
        ∀ l, in_segment size segno l = true → durable (disk s') l = seen (disk s') l
    | Ok false => segments (disk s') !! segno = Some Partial ∧ file s' = true
    | _ => r = Err IoError ∧ segments (disk s') !! segno ≠ Some Complete ∧ file s' = false ∧
        (is_Some (segments (disk s) !! segno) → is_Some (segments (disk s') !! segno))
    end
}.

(** The second part: the segment file is open at [pos]. *)
Lemma write_opened_spec (s0 s : t) segno off buf :
  wal_seg_size s0 = size → segments (disk s) !! segno = Some Partial → file s = false → wal_seg_size s = size →
  wp (_ ← write_all (segno * wal_seg_size s0 + off) buf;
      _ ← syscall;
      if off + Z.of_nat (length buf) =? wal_seg_size s0 then
        _ ← fdatasync_file segno; _ ← disk_call (set_segment segno Complete); mret true
      else _ ← modifyS (set_file true); mret false)
    (wrote (segno * size + off) segno buf s) s.
Proof.
  intros Hsz0 Hseg Hfile Hsz. rewrite Hsz0. set (pos := segno * size + off).
  assert (∀ s', disk s' = disk s → file s' = false → wrote pos segno buf s (Err IoError) s') as Hfail0.
  { intros s' Ed Ef. split; [done|rewrite Ed; apply below_kept_refl|by rewrite Ed|done|done|].
    rewrite Ed, Hseg. split_and!; [done|done|done|by eauto]. }
  assert (∀ s' b, disk s' = write_bytes pos b (disk s) → file s' = false → wrote pos segno buf s (Err IoError) s') as Hfail.
  { intros s' b Ed Ef. split; [done|rewrite Ed; by apply below_kept_write|by rewrite Ed|done|done|].
    rewrite Ed. cbn. rewrite Hseg. split_and!; [done|done|done|by eauto]. }
  apply wp_bind. unfold write_all. apply wp_next_io; [intros v1|intros n v1; by eapply Hfail].
  unfold wp at 1. cbn [modifyS fst snd wp_next]. apply wp_syscall; [intros v2|intros v2; by eapply Hfail].
  destruct (_ =? _) eqn:Eend.
  - apply wp_bind. unfold fdatasync_file. apply wp_bind. unfold wp at 1. cbn [getS fst snd wp_next].
    change (wal_seg_size (set_io v2 (set_disk (write_bytes pos buf (disk (set_io v1 s))) (set_io v1 s)))) with (wal_seg_size s).
    rewrite Hsz. unfold disk_call at 1. apply wp_syscall; [intros v3|intros v3; by eapply Hfail].
    unfold wp at 1. cbn [modifyS fst snd wp_next]. apply wp_disk_call; [intros v4|intros v4].
    + split; cbn [mret M_ret fst snd disk set_disk set_io]; [done| | |intros _; by apply write_bytes_at|intros b [= <-]; subst pos; lia|].
      * eapply below_kept_trans; [by apply (below_kept_write pos pos buf)|].
        eapply below_kept_trans; [apply below_kept_sync|apply below_kept_segment].
      * intros k Hk. cbn. by rewrite lookup_insert_ne.
      * split; [cbn; by rewrite lookup_insert_eq|]. split; [done|]. intros l Hl. cbn. by rewrite Hl.
    + split; cbn [disk set_disk set_io]; [done| |done|done|done|].
      * eapply below_kept_trans; [by apply (below_kept_write pos pos buf)|apply below_kept_sync].
      * cbn. rewrite Hseg. split_and!; [done|done|done|by eauto].
  - split; cbn [mbind M_bind modifyS mret M_ret fst snd disk set_disk set_io set_file]; [done|by apply below_kept_write|done|intros _; by apply write_bytes_at|intros b [= <-]; subst pos; lia|].
    by cbn.
Qed.

Lemma wrote_from (s s1 : t) pos segno buf r s' :
  below_kept pos (disk s) (disk s1) → others_kept segno (disk s) (disk s1) →
  (is_Some (segments (disk s) !! segno) → is_Some (segments (disk s1) !! segno)) →
  wrote pos segno buf s1 r s' → wrote pos segno buf s r s'.
Proof.
  intros Hb Ho Hs [W1 W2 W3 W4 W6 W5]. split; [done|by eapply below_kept_trans|intros k Hk; by rewrite W3, Ho|done|done|].
  destruct r as [[]|e|]; [done|done| |].
  - destruct W5 as (? & ? & ? & ?). split_and!; auto.
  - destruct W5 as (? & _). done.
Qed.

Lemma write_in_segment_spec segno off buf s :
  wal_seg_size s = size → segments (disk s) !! segno ≠ Some Complete →
  (file s = true → segments (disk s) !! segno = Some Partial) → (segments (disk s) !! segno = None → off = 0) →
  wp (write_in_segment segno off buf) (wrote (segno * size + off) segno buf s) s.
Proof.
  intros Hsz Hc Hf Hn. unfold write_in_segment. apply wp_bind. unfold wp at 1. cbn [getS fst snd wp_next].
  assert (∀ s', disk s' = disk s → file s' = false → wrote (segno * size + off) segno buf s (Err IoError) s') as Hfail.
  { intros s' Ed Ef. split; [done|rewrite Ed; apply below_kept_refl|by rewrite Ed|done|done|]. by rewrite Ed. }
  apply wp_bind. destruct (file s) eqn:Efile.
  - unfold wp at 1. cbn [modifyS fst snd wp_next].
    eapply wp_mono; [apply write_opened_spec; [done|by apply Hf|done|done]|]. intros r s'. apply wrote_from; try done.
  - apply wp_bind. unfold open_or_create. apply wp_bind. unfold wp at 1. cbn [getS fst snd wp_next].
    destruct (segments (disk s) !! segno) as [[]|] eqn:Eseg; [|done|].
    + unfold wp at 1. cbn [mret M_ret fst snd wp_next assertM]. apply wp_bind. unfold wp at 1. cbn [mret M_ret fst snd wp_next].
      apply wp_next_io; [intros v|intros n v; by apply Hfail].
      unfold wp at 1. cbn [mret M_ret fst snd wp_next].
      eapply wp_mono; [apply write_opened_spec; done|]. intros r s'. apply wrote_from; done.
    + specialize (Hn eq_refl). subst off.
      apply wp_syscall; [intros v1|intros v1; by apply Hfail]. apply wp_syscall; [intros v2|intros v2; by apply Hfail].
      apply wp_disk_call; [intros v3|intros v3; by apply Hfail]. unfold wp at 1. cbn [mret M_ret fst snd wp_next assertM].
      apply wp_bind. unfold wp at 1. cbn [mret M_ret fst snd wp_next]. rewrite Hsz.
      set (s1 := set_disk _ _).
      assert (segments (disk s1) !! segno = Some Partial) as Es1 by (cbn; by rewrite lookup_insert_eq).
      assert (below_kept (segno * size + 0) (disk s) (disk s1)) as Hb1 by (apply below_kept_create; lia).
      assert (others_kept segno (disk s) (disk s1)) as Ho1 by (intros k Hk; cbn; by rewrite lookup_insert_ne).
      assert (∀ r s', wrote (segno * size + 0) segno buf s1 r s' → wrote (segno * size + 0) segno buf s r s') as Hfrom
        by (intros r s'; apply wrote_from; [done|done|by eauto]).
      apply wp_next_io; [intros v|intros n v; apply Hfrom].
      * unfold wp at 1. cbn [mret M_ret fst snd wp_next].
        pose proof (write_opened_spec s (set_io v s1) segno 0 buf) as Hw. rewrite Hsz in Hw.
        eapply wp_mono; [by apply Hw|]. intros r s' W. apply Hfrom. revert W. by apply wrote_from.
      * split; [done|apply below_kept_refl|done|done|done|]. cbn [bail snd].
        change (disk (set_io v s1)) with (disk s1). rewrite Es1. split_and!; done || exact Efile || by eauto.
Qed.

(** * Writing across segments *)

Definition seg (s : t) : Z := Lsn.segment_number (write_lsn s) size.
Definition off (s : t) : Z := Lsn.segment_offset (write_lsn s) size.

(** The segment files are in order. *)
Record seg_inv (s : t) : Prop := {
  (* the segments that are written to are not complete *)
  di_kinds : pending_wal_truncation s = false → ∀ k, seg s ≤ k → segments (disk s) !! k ≠ Some Complete;
  di_current : pending_wal_truncation s = false → off s ≠ 0 → is_Some (segments (disk s) !! seg s);
  di_file : file s = true → pending_wal_truncation s = false ∧ off s ≠ 0;
  di_range k : is_Some (segments (disk s) !! k) → (k + 1) * size ≤ LSN_LIMIT
}.

(** From [start] on what is flushed, and every segment before the current one, is
    durable. *)
Definition dur_inv (start : Lsn) (s : t) : Prop := ∀ l, start ≤ l < Z.max (flush_lsn s) (seg s * size) → durable (disk s) l = seen (disk s) l.

Lemma seg_off s : write_lsn s = seg s * size + off s ∧ 0 ≤ off s < size.
Proof.
  unfold seg, off, Lsn.segment_number, Lsn.segment_offset. pose proof (Z.div_mod (write_lsn s) size ltac:(done)).
  pose proof (Z.mod_pos_bound (write_lsn s) size ltac:(done)). lia.
Qed.

Lemma seg_of s k o : write_lsn s = k * size + o → 0 ≤ o < size → seg s = k ∧ off s = o.
Proof. intros E Ho. destruct (seg_off s) as [E1 H1]. unfold WAL_SEGMENT_SIZE in *. lia. Qed.

Lemma file_partial s : seg_inv s → file s = true → segments (disk s) !! seg s = Some Partial.
Proof.
  intros [Hk Hc Hf _] E. destruct (Hf E) as [Ep Eo]. destruct (Hc Ep Eo) as [k Ek]. specialize (Hk Ep (seg s) ltac:(lia)).
  rewrite Ek in *. by destruct k.
Qed.

(** One segment: the invariants afterwards, with the LSNs moved after a success. *)
Lemma wrote_inv s buf r s1 s2 :
  seg_inv s → pending_wal_truncation s = false → (0 < length buf)%nat → off s + Z.of_nat (length buf) ≤ size →
  flush_lsn s ≤ write_lsn s → write_lsn s + Z.of_nat (length buf) ≤ LSN_LIMIT → wrote (write_lsn s) (seg s) buf s r s1 →
  disk s2 = disk s1 → file s2 = file s1 → pending_wal_truncation s2 = false →
  match r with
  | Ok full => write_lsn s2 = write_lsn s + Z.of_nat (length buf) ∧ flush_lsn s2 = (if full then write_lsn s2 else flush_lsn s)
  | _ => write_lsn s2 = write_lsn s ∧ flush_lsn s2 = flush_lsn s
  end → seg_inv s2 ∧ (∀ start, dur_inv start s → dur_inv start s2).
Proof.
  intros [D1 D2 D3 D4] Hp Hlen Hfit Hfl Hlim [W1 W2 W3 W4 W6 W5] Ed Ef Ep Hr.
  destruct (seg_off s) as [Ew Hoff].
  assert (∀ k, is_Some (segments (disk s1) !! k) → (k + 1) * size ≤ LSN_LIMIT) as Hrange.
  { intros k. destruct (decide (k = seg s)) as [->|]; [|rewrite W3 by done; apply D4]. intros _. unfold LSN_LIMIT, WAL_SEGMENT_SIZE in *. lia. } destruct W2 as [B1 B2]. unfold dur_inv. rewrite Ed.
  assert (∀ start, dur_inv start s → ∀ l, start ≤ l < Z.max (flush_lsn s) (seg s * size) → durable (disk s1) l = seen (disk s1) l) as Hdur
    by (intros start D l Hl; apply B2; [lia|by apply D]).
  destruct r as [[|]|e|]; [destruct Hr as [Ew2 Efl]..|done].
  - specialize (W6 true eq_refl). destruct W5 as (Hc & Hf & Hd).
    assert (seg s2 = seg s + 1 ∧ off s2 = 0) as [Es2 Eo2] by (apply seg_of; unfold WAL_SEGMENT_SIZE in *; lia).
    rewrite Es2. split; [split; rewrite ?Ed, ?Ef, ?Es2, ?Eo2, ?Hf; [|done|done|done]|].
    + intros _ k Hk. rewrite W3 by lia. apply D1; [done|lia].
    + intros start D l Hl. destruct (decide (l < Z.max (flush_lsn s) (seg s * size))) as [|Hge]; [apply (Hdur start); [done|lia]|].
      apply Hd. unfold in_segment. unfold WAL_SEGMENT_SIZE in *. lia.
  - specialize (W6 false eq_refl). destruct W5 as (Hc & Hf).
    assert (seg s2 = seg s ∧ off s2 = off s + Z.of_nat (length buf)) as [Es2 Eo2] by (apply seg_of; lia).
    rewrite Es2, Efl. split; [split; rewrite ?Ed, ?Es2; [|by eauto|split; [done|lia]|done]|done].
    intros _ k Hk. destruct (decide (k = seg s)) as [->|]; [by rewrite Hc|]. rewrite W3 by done. by apply D1.
  - destruct W5 as (_ & Hnc & Hf & Hsome).
    assert (seg s2 = seg s ∧ off s2 = off s) as [Es1 Eo1] by (unfold seg, off; by rewrite Ew2).
    rewrite Es1, Efl. split; [split; rewrite ?Ed, ?Es1, ?Eo1, ?Ef, ?Hf; [| |done|done]|done].
    + intros _ k Hk. destruct (decide (k = seg s)) as [->|]; [done|]. rewrite W3 by done. by apply D1.
    + intros _ Ho. by apply Hsome, D2.
Qed.

(** The outcome of writing [buf] at the end of the WAL. *)
Record appended (s : t) (buf : bytes) (r : result WalError unit) (s' : t) : Prop := {
  ap_total : r ≠ Panic;
  ap_seg : seg_inv s';
  ap_dur start : dur_inv start s → dur_inv start s';
  ap_below : below_kept (write_lsn s) (disk s) (disk s');
  ap_bytes : r = Ok tt → ∀ i b, buf !! i = Some b → seen (disk s') (write_lsn s + Z.of_nat i) = b
}.

Lemma write_loop_disk fuel buf s :
  (length buf ≤ fuel)%nat → wal_seg_size s = size → 0 ≤ write_lsn s → flush_lsn s ≤ write_lsn s →
  write_lsn s + Z.of_nat (length buf) ≤ LSN_LIMIT → pending_wal_truncation s = false → seg_inv s →
  wp (write_loop fuel buf) (appended s buf) s.
Proof.
  revert buf s. induction fuel as [|fuel IH]; intros buf s Hfuel Hsz Hw Hfl Hlim Hp Hinv.
  { destruct buf; [|simpl in Hfuel; lia]. split; done || by intros. }
  destruct buf as [|b0 buf0] eqn:Ebuf; [split; done || by intros|]. rewrite <-Ebuf in *.
  assert (0 < Z.of_nat (length buf)) as Hpos by (subst buf; simpl; lia).
  replace (write_loop (S fuel) buf) with (write_loop (S fuel) (b0 :: buf0)) by (by rewrite Ebuf).
  cbn [write_loop]. rewrite <-Ebuf. apply wp_bind. unfold wp at 1. cbn [getS fst snd wp_next]. rewrite Hsz.
  fold (off s) (seg s). destruct (seg_off s) as [Ew Hoff].
  set (bw := if size <? off s + Z.of_nat (length buf) then size - off s else Z.of_nat (length buf)).
  assert (0 < bw ≤ Z.of_nat (length buf) ∧ off s + bw ≤ size ∧ (bw < Z.of_nat (length buf) → off s + bw = size)) as (Hbw & Hfit & Hfull)
    by (subst bw; destruct (Z.ltb_spec size (off s + Z.of_nat (length buf))); lia).
  set (piece := take (Z.to_nat bw) buf).
  assert (Z.of_nat (length piece) = bw) as Hlen by (subst piece; rewrite length_take; lia).
  pose proof (write_in_segment_spec (seg s) (off s) piece s Hsz) as Hspec. rewrite <-Ew in Hspec.
  pose proof (write_in_segment_keeps (seg s) (off s) piece s) as Hk.
  apply wp_bind. unfold wp in Hspec |- *. destruct (write_in_segment _ _ _ s) as [r s1]. cbn [fst snd] in *.
  pose proof Hinv as [D1 D2 D3 _].
  assert (wrote (write_lsn s) (seg s) piece s r s1) as Hwr.
  { apply Hspec; [apply D1; [done|lia]|by apply file_partial|]. intros E.
    destruct (decide (off s = 0)) as [|Ho]; [done|]. destruct (D2 Hp Ho). congruence. }
  pose proof (λ s2, wrote_inv s piece r s1 s2 Hinv Hp ltac:(lia) ltac:(lia) Hfl ltac:(lia) Hwr) as Hinv1.
  destruct Hwr as [W1 W2 W3 W4 W6 W5]. unfold lsns in Hk. injection Hk as K1 K2 K3 K4 K5 K6 K7.
  destruct r as [flushed|e|]; cbn [wp_next]; [|destruct W5 as [[= ->] _]; destruct (Hinv1 s1); [done|done|congruence|split; congruence|by split]|done].
  unfold Lsn.add, checked_add. rewrite (proj2 (Z.ltb_lt (write_lsn s + bw) (2 ^ 64))) by (unfold LSN_LIMIT in *; lia).
  apply wp_bind. unfold wp at 1. cbn [mret M_ret fst snd wp_next]. apply wp_bind. unfold wp at 1. cbn [modifyS fst snd wp_next].
  set (s2 := if flushed then set_flush_lsn (write_lsn s + bw) (set_write_lsn (write_lsn s + bw) s1) else set_write_lsn (write_lsn s + bw) s1).
  assert (seg_inv s2 ∧ (∀ start, dur_inv start s → dur_inv start s2)) as [Hinv2 Hdur2]
    by (apply Hinv1; subst s2; destruct flushed; cbn; rewrite ?K7; try done; lia).
  apply wp_bind. assert (wp (write_loop fuel (drop (Z.to_nat bw) buf)) (appended s buf) s2) as Hgo.
  { assert (write_lsn s2 = write_lsn s + bw ∧ wal_seg_size s2 = size ∧ pending_wal_truncation s2 = false ∧ flush_lsn s2 ≤ write_lsn s2 ∧
      disk s2 = disk s1) as (E1 & E2 & E3 & E4 & E5) by (subst s2; destruct flushed; cbn; split_and!; congruence || lia).
    eapply wp_mono; [apply IH; try done; rewrite ?length_drop; lia|].
    intros r s' [A1 A2 A0 A3 A4]. rewrite E1, E5 in *. split; [done|done|by auto| |].
    - eapply below_kept_trans; [exact W2|]. destruct A3 as [B1 B2]. split; intros l Hl; [apply B1|apply B2]; lia.
    - intros Hr i b Hi. destruct (decide (Z.of_nat i < bw)) as [Hlt|Hge].
      + destruct A3 as [B1 _]. rewrite B1 by lia. apply W4; [done|]. subst piece. by rewrite lookup_take_lt by lia.
      + specialize (A4 Hr (i - Z.to_nat bw)%nat b). rewrite lookup_drop in A4.
        replace (Z.to_nat bw + (i - Z.to_nat bw))%nat with i in A4 by lia. rewrite <-(A4 Hi). f_equal. lia. }
  apply wp_when; intros E; subst flushed; [unfold wp at 1; cbn [modifyS fst snd wp_next]|cbn [wp_next]]; exact Hgo.
Qed.
