(* ===== verification/WalStorageSafety.v ===== *)
(** The operations of [PhysicalStorage] as a whole: they never panic, they keep
    the LSNs and the segment files in order, the bytes that are written are those
    that are read back, and what is flushed is durable, whichever system calls
    fail. *)

From S2P Require Import Prelude Text Lsns Membership TermHistories WalDecoders SkStates.
From S2P Require Import WalStorages WalEndFacts WalStorageFacts WalDiskFacts.
From stdpp Require Import gmap.
Local Open Scope Z_scope.

Import PhysicalStorage.

Local Notation size := WAL_SEGMENT_SIZE.

(** What the invariants of the files depend on. *)
Definition files (s : t) := (disk s, file s, pending_wal_truncation s, write_lsn s, flush_lsn s).

Lemma seg_inv_files s s' : files s' = files s → seg_inv s → seg_inv s'.
Proof.
  unfold files. intros [= E1 E2 E3 E4 E5] [D1 D2 D3 D4]. unfold seg, off in *.
  split; unfold seg, off; rewrite ?E1, ?E2, ?E3, ?E4; done.
Qed.

Lemma dur_inv_files start s s' : files s' = files s → dur_inv start s → dur_inv start s'.
Proof. unfold files. intros [= E1 E2 E3 E4 E5] D. unfold dur_inv, seg in *. by rewrite E1, E4, E5. Qed.

(** Putting two postconditions together. *)
Lemma wp_and {S E A} (m : M S E A) (P Q : result E A → S → Prop) s :
  wp m P s → wp m Q s → wp m (λ r s', P r s' ∧ Q r s') s.
Proof. by split. Qed.

(** What holds of every state with the same view holds after a method that keeps it. *)
Lemma wp_view {S E V A} (view : S → V) (m : M S E A) (Q : result E A → S → Prop) s :
  keeps view m → (∀ r s', view s' = view s → Q r s') → wp m Q s.
Proof. intros Hk HQ. apply HQ, Hk. Qed.

Section ops.
Context `{WalLayoutLaws} (generate_wal_segment : Z → Lsn → bytes).

Lemma decode_records_files buf : keeps files (decode_records buf).
Proof.
  intros s. unfold decode_records. destruct (WalStreamDecoder.drain _) as [[[rs o] d]|]; [|done].
  assert (files (foldl (λ s (r : Lsn * bytes), on_record r.1 s) s rs) = files s) as E.
  { revert s. induction rs as [|r rs IH]; intros s; [done|]. simpl. rewrite IH. unfold on_record.
    by destruct (r.1 <=? _). }
  destruct o as [[]|e|]; exact E.
Qed.

Lemma after_write_files buf (b : bool) p :
  keeps files (_ ← whenM b (modifyS (set_decoder (WalStreamDecoder.new p)));
    _ ← modifyS (λ s, if write_record_lsn s <=? flush_lsn s then set_flush_record_lsn (write_record_lsn s) s else s);
    decode_records buf).
Proof.
  apply keeps_bind; [apply keeps_when, keeps_modify; done|]. intros _. apply keeps_bind; [|intros _; apply decode_records_files].
  apply keeps_modify. intros s. by destruct (_ <=? _).
Qed.

(** Where a write may go: at the end, or anywhere in a WAL without data. *)
Lemma write_wal_disk startpos buf s :
  wal_inv s → seg_inv s → startpos + Z.of_nat (length buf) ≤ LSN_LIMIT →
  wp (write_wal startpos buf) (λ r s',
    r ≠ Panic ∧ wal_inv s' ∧ flush_record_lsn s ≤ flush_record_lsn s' ∧ seg_inv s' ∧ (∀ start, dur_inv start s → dur_inv start s') ∧
    below_kept (write_lsn s) (disk s) (disk s') ∧
    (r = Ok tt → startpos = write_lsn s ∧ write_lsn s' = startpos + Z.of_nat (length buf) ∧
      ∀ i b, buf !! i = Some b → seen (disk s') (startpos + Z.of_nat i) = b)) s.
Proof.
  intros Hinv Hseg Hlim. pose proof (write_wal_law startpos buf s Hinv Hlim) as Hlaw.
  pose proof Hinv as [Hsz (Hwf & Hl0 & Hav) Hsk Hw Hfl Hfr Hfloor Havail Hsegm Hpend Hzero].
  assert (wp (write_wal startpos buf) (λ r s',
    (startpos = write_lsn s → pending_wal_truncation s = false → (write_loop (length buf) buf s).1 ≠ Panic) ∧
    seg_inv s' ∧ (∀ start, dur_inv start s → dur_inv start s') ∧ below_kept (write_lsn s) (disk s) (disk s') ∧
    (r = Ok tt → startpos = write_lsn s ∧ write_lsn s' = startpos + Z.of_nat (length buf) ∧
      ∀ i b, buf !! i = Some b → seen (disk s') (startpos + Z.of_nat i) = b)) s) as Hdisk; [|].
  2: { eapply wp_mono; [exact (wp_and _ _ _ _ Hlaw Hdisk)|].
    intros r s' [[(E & Ep & Hp)|(Hr & Hi & Hle)] (Hnp & H1 & H2 & H3 & H4)]; [by destruct (Hnp E Ep)|by split_and!]. }
  clear Hlaw. assert (∀ e, seg_inv s ∧ (∀ start, dur_inv start s → dur_inv start s) ∧ below_kept (write_lsn s) (disk s) (disk s) ∧
    (Err (E := WalError) (A := unit) e = Ok tt → startpos = write_lsn s ∧ write_lsn s = startpos + Z.of_nat (length buf) ∧
      ∀ i b, buf !! i = Some b → seen (disk s) (startpos + Z.of_nat i) = b)) as Hbail by (intros e; split_and!; done || apply below_kept_refl).
  unfold write_wal. apply wp_bind. unfold wp at 1. cbn [getS fst snd wp_next].
  destruct (Z.ltb_spec startpos (write_lsn s)) as [|Hge]; [split; [lia|apply Hbail]|].
  destruct (_ && _) eqn:Egap; [split; [lia|apply Hbail]|].
  destruct (pending_wal_truncation s) eqn:Ep; [split; [done|apply Hbail]|].
  destruct (Hpend eq_refl) as [Hw0 Hwr0]. assert (startpos = write_lsn s) as -> by lia.
  apply wp_bind. unfold write_exact. apply wp_bind. unfold wp at 1. cbn [getS fst snd wp_next].
  rewrite Z.eqb_refl. cbn [negb whenM]. apply wp_bind. unfold wp at 1. cbn [mret M_ret fst snd wp_next].
  pose proof (write_loop_disk (length buf) buf s ltac:(lia) Hsz ltac:(lia) Hfl Hlim Ep Hseg) as Hloop.
  pose proof (write_loop_spec (length buf) buf s ltac:(lia) Hsz ltac:(lia) Hfl Hlim) as Hlsn.
  unfold wp in Hloop, Hlsn |- * at 1. destruct (write_loop (length buf) buf s) as [r s1]. cbn [fst snd] in *.
  destruct Hloop as [A1 A2 A3 A4 A5], Hlsn as (_ & _ & R3).
  destruct r as [[]|e|]; cbn [wp_next]; [|by split_and!|done].
  apply wp_bind. unfold wp at 1. cbn [getS fst snd wp_next].
  apply (wp_view files).
  { apply keeps_bind; [destruct (WalStreamDecoder.available _); apply keeps_lift|]. intros l. apply after_write_files. }
  intros r s' E. split; [done|]. pose proof E as [= E1 E2 E3 E4 E5]. rewrite E1, E4.
  split_and!; [by apply (seg_inv_files s1)|intros start D; by apply (dur_inv_files start s1); [|apply A3]|done|auto].
Qed.

Lemma flush_wal_disk s :
  wal_inv s → seg_inv s →
  wp flush_wal (λ r s',
    r ≠ Panic ∧ wal_inv s' ∧ flush_record_lsn s ≤ flush_record_lsn s' ∧ seg_inv s' ∧ (∀ start, dur_inv start s → dur_inv start s') ∧
    seen (disk s') = seen (disk s) ∧ write_lsn s' = write_lsn s ∧
    (r = Ok tt → flush_record_lsn s' = write_record_lsn s ∧ (flush_record_lsn s < write_record_lsn s → flush_lsn s' = write_lsn s))) s.
Proof.
  intros Hinv Hseg. pose proof (flush_wal_law s Hinv) as Hlaw. pose proof Hinv as [Hsz _ _ _ _ _ _ _ _ _ _].
  assert (wp flush_wal (λ r s', r ≠ Panic ∧ seg_inv s' ∧ (∀ start, dur_inv start s → dur_inv start s') ∧ seen (disk s') = seen (disk s) ∧
    write_lsn s' = write_lsn s ∧
    (r = Ok tt → flush_record_lsn s' = write_record_lsn s ∧ (flush_record_lsn s < write_record_lsn s → flush_lsn s' = write_lsn s))) s) as Hdisk.
  2: { eapply wp_mono; [exact (wp_and _ _ _ _ Hlaw Hdisk)|]. intros r s' [Hl (Hr & H1 & H2 & H3 & H4 & H5)].
    destruct (Hl Hr). by split_and!. }
  clear Hlaw. unfold flush_wal. apply wp_bind. unfold wp at 1. cbn [getS fst snd wp_next].
  destruct (Z.eqb_spec (flush_record_lsn s) (write_record_lsn s)) as [E|E]; [split_and!; try done; intros _; split; [done|lia]|].
  destruct (file s) eqn:Ef; [|by split_and!]. destruct (di_file s Hseg Ef) as [Ep Eo].
  apply wp_bind. unfold wp at 1. cbn [modifyS fst snd wp_next]. apply wp_bind. unfold fdatasync_file.
  apply wp_bind. unfold wp at 1. cbn [getS fst snd wp_next].
  assert (∀ d', segments d' = segments (disk s) → ∀ v, seg_inv (set_io v (set_disk d' (set_file false s)))) as Hoff.
  { intros d' Ed v. destruct Hseg as [D1 D2 D3 D4]. split; cbn; rewrite ?Ed; done. }
  unfold disk_call. apply wp_syscall; [intros v|intros v; by split_and!; [|apply Hoff|..]].
  unfold wp at 1. cbn [modifyS fst snd wp_next]. apply wp_bind. unfold wp at 1. cbn [modifyS fst snd wp_next].
  unfold wp. cbn. split_and!; try done.
  - destruct Hseg as [D1 D2 D3 D4]. split; cbn; try done.
  - intros start D l Hl. unfold seg in Hl. cbn in Hl. fold (seg s) in Hl. destruct (seg_off s) as [Ew Hoff2]. cbn.
    rewrite Hsz. destruct (in_segment size _ l) eqn:El; [done|]. apply D. unfold in_segment in El. fold (seg s) in El.
    unfold WAL_SEGMENT_SIZE in *. lia.
Qed.

(** ** Truncation *)

(** Below [e], what is durable stays durable, and no byte of a segment changes; only
    the segment of [e] may be new. *)
Definition trunc_kept (e : Z) (d d' : Disk) : Prop :=
  (∀ l, l < e → durable d l = seen d l → durable d' l = seen d' l) ∧
  (∀ l, l < e → is_Some (segments d !! Lsn.segment_number l size) →
     seen d' l = seen d l ∧ is_Some (segments d' !! Lsn.segment_number l size)) ∧
  (∀ k, is_Some (segments d' !! k) → is_Some (segments d !! k) ∨ k = Lsn.segment_number e size).

Lemma trunc_kept_refl e d : trunc_kept e d d.
Proof. split_and!; auto. Qed.

Lemma trunc_kept_trans e d1 d2 d3 : trunc_kept e d1 d2 → trunc_kept e d2 d3 → trunc_kept e d1 d3.
Proof.
  intros (A1 & B1 & C1) (A2 & B2 & C2). split_and!; [by auto| |].
  - intros l Hl Hs. destruct (B1 l Hl Hs) as [E1 S1]. destruct (B2 l Hl S1) as [E2 S2]. split; [congruence|done].
  - intros k Hk. destruct (C2 k Hk) as [Hk2|]; [by apply C1|by right].
Qed.

Lemma trunc_kept_sync e k d : trunc_kept e d (sync_segment size k d).
Proof. split_and!; [|done|by left]. intros l _ E. cbn. by destruct (in_segment size k l). Qed.

Lemma trunc_kept_kind e kind d : trunc_kept e d (set_segment (Lsn.segment_number e size) kind d).
Proof.
  split_and!; [done| |].
  - intros l _ Hs. split; [done|]. cbn. destruct (decide (Lsn.segment_number e size = Lsn.segment_number l size)) as [->|];
      [rewrite lookup_insert_eq; by eauto|by rewrite lookup_insert_ne].
  - intros k. cbn. destruct (decide (k = Lsn.segment_number e size)) as [->|]; [by right|]. rewrite lookup_insert_ne by done. by left.
Qed.

Lemma trunc_kept_zero e k p d : e ≤ p → trunc_kept e d (zero_tail size k p d).
Proof.
  intros Hp. assert (∀ l, l < e → seen (zero_tail size k p d) l = seen d l) as Hs.
  { intros l Hl. cbn. rewrite (proj2 (Z.leb_gt p l)) by lia. by rewrite andb_false_r. }
  split_and!; [intros l Hl E; by rewrite Hs|intros l Hl ?; by rewrite Hs|by left].
Qed.

Lemma in_segment_number k l : in_segment size k l = true ↔ Lsn.segment_number l size = k.
Proof.
  unfold in_segment. split; [intros; apply seg_number_unique; lia|]. intros <-. pose proof (segment_span l). lia.
Qed.

Lemma trunc_kept_create e d :
  segments d !! Lsn.segment_number e size = None → trunc_kept e d (create_segment size (Lsn.segment_number e size) d).
Proof.
  set (k := Lsn.segment_number e size). intros Hk. split_and!.
  - intros l _ E. cbn. by destruct (in_segment size k l).
  - intros l _ Hs. cbn. destruct (in_segment size k l) eqn:E.
    + apply in_segment_number in E. rewrite E, Hk in Hs. by destruct Hs.
    + split; [done|]. rewrite lookup_insert_ne; [done|]. intros Ek. symmetry in Ek. apply in_segment_number in Ek. congruence.
  - intros x. cbn. destruct (decide (x = k)) as [->|]; [by right|]. rewrite lookup_insert_ne by done. by left.
Qed.

Lemma trunc_kept_delete e k d :
  Lsn.segment_number e size < k → trunc_kept e d (MkDisk (seen d) (durable d) (delete k (segments d))).
Proof.
  intros Hk. split_and!; [done| |].
  - intros l Hl Hs. split; [done|]. cbn. rewrite lookup_delete_ne; [done|].
    intros ->. pose proof (segment_span l). pose proof (segment_span e). unfold WAL_SEGMENT_SIZE in *. nia.
  - intros x [y Hx]. cbn in Hx. apply lookup_delete_Some in Hx as [_ Hx]. left. by eexists.
Qed.

(** A state during truncation: only the disk and the coming outcomes differ. *)
Definition mid (s : t) (e : Lsn) (s' : t) : Prop := ∃ d v, s' = set_disk d (set_io v s) ∧ trunc_kept e (disk s) d.

Lemma mid_refl e s : mid s e s.
Proof. exists (disk s), (io s). split; [by destruct s|apply trunc_kept_refl]. Qed.

Lemma mid_step e s s1 d v : mid s e s1 → trunc_kept e (disk s1) d → mid s e (set_disk d (set_io v s1)).
Proof. intros (d1 & v1 & -> & H1) H2. exists d, v. split; [done|]. by eapply trunc_kept_trans. Qed.

Lemma mid_io e s s1 v : mid s e s1 → mid s e (set_io v s1).
Proof. intros (d1 & v1 & -> & H1). exists d1, v. done. Qed.

Lemma remove_entries_spec e l s s1 :
  mid s e s1 →
  wp (remove_entries l (λ x, Lsn.segment_number e size <? x)) (λ r s', r ≠ Panic ∧ mid s e s' ∧
    (∀ k, segments (disk s') !! k = segments (disk s1) !! k ∨ segments (disk s') !! k = None) ∧
    (r = Ok tt → ∀ k, k ∈ l → Lsn.segment_number e size < k → segments (disk s') !! k = None)) s1.
Proof.
  revert s1. induction l as [|x l IH]; intros s1 Hm; cbn [remove_entries].
  { split_and!; try done; [by left|]. intros _ k Hk. by apply not_elem_of_nil in Hk. }
  destruct (Z.ltb_spec (Lsn.segment_number e size) x) as [Hx|Hx].
  - apply wp_disk_call; [intros v|intros v; split_and!; try done; [by apply mid_io|by left]].
    eapply wp_mono; [apply IH, mid_step; [done|by apply trunc_kept_delete]|].
    intros r s' (Hr & Hm' & Hk & Hin). split_and!; [done|done| |].
    + intros k. destruct (Hk k) as [->|]; [|by right]. cbn. destruct (decide (k = x)) as [->|];
        [right; by rewrite lookup_delete_eq|left; by rewrite lookup_delete_ne].
    + intros Er k [->|Hkl]%elem_of_cons Hlt; [|by apply Hin]. destruct (Hk x) as [->|]; [|done]. cbn. by rewrite lookup_delete_eq.
  - apply wp_bind. unfold wp at 1. cbn [mret M_ret fst snd wp_next]. eapply wp_mono; [by apply IH|].
    intros r s' (Hr & Hm' & Hk & Hin). split_and!; [done..|].
    intros Er k [->|Hkl]%elem_of_cons Hlt; [lia|by apply Hin].
Qed.

Lemma open_or_create_spec e s s1 :
  mid s e s1 → wal_seg_size s1 = size →
  wp (open_or_create (Lsn.segment_number e size)) (λ r s', r ≠ Panic ∧ mid s e s' ∧
    (∀ b, r = Ok b → segments (disk s') !! Lsn.segment_number e size = Some (if b then Partial else Complete)) ∧
    (∀ k, k ≠ Lsn.segment_number e size → segments (disk s') !! k = segments (disk s1) !! k)) s1.
Proof.
  intros Hm Hsz. unfold open_or_create. apply wp_bind. unfold wp at 1. cbn [getS fst snd wp_next].
  destruct (segments (disk s1) !! _) as [[]|] eqn:E; [by split_and!; [..|intros b [= <-]|]..|].
  apply wp_syscall; [intros v1|intros v1; by split_and!; [|apply mid_io|..]].
  apply wp_syscall; [intros v2|intros v2; by split_and!; [|by do 2 apply mid_io|..]].
  apply wp_disk_call; [intros v3|intros v3; by split_and!; [|by do 3 apply mid_io|..]].
  unfold wp. cbn [mret M_ret fst snd]. rewrite Hsz. split_and!; [done| | |].
  - apply (mid_step e s _ _ v3); [by do 2 apply mid_io|]. by apply trunc_kept_create.
  - intros b [= <-]. cbn. by rewrite lookup_insert_eq.
  - intros k Hk. cbn. by rewrite lookup_insert_ne.
Qed.

(** The state after the LSNs are moved and the cached file is closed. *)
Definition truncating (e : Lsn) (s : t) : t :=
  set_file false (set_flush_record_lsn e (set_write_record_lsn e (set_flush_lsn e (set_write_lsn e (set_pending true s))))).

(** Where the WAL begins after a truncation at [e]: once the LSNs are moved, not after
    [e]. *)
Definition start_after (e start : Lsn) (s' : t) : Lsn := if write_record_lsn s' =? e then Z.min start e else start.

(** What a truncation at [e] leaves, also when it fails on the way. *)
Definition truncated (e : Lsn) (s s' : t) : Prop :=
  (seg_inv s → seg_inv s') ∧ (∀ start, e ≤ flush_lsn s ∨ e ≤ start → dur_inv start s → dur_inv (start_after e start s') s') ∧ trunc_kept e (disk s) (disk s').

Lemma truncated_range e s d :
  e < LSN_LIMIT → seg_inv s → trunc_kept e (disk s) d → ∀ k, is_Some (segments d !! k) → (k + 1) * size ≤ LSN_LIMIT.
Proof.
  intros He Hs (_ & _ & Hk) k Hx. destruct (Hk k Hx) as [Hy| ->]; [by apply (di_range s Hs)|].
  pose proof (segment_span e). unfold LSN_LIMIT, WAL_SEGMENT_SIZE in *. lia.
Qed.

Lemma truncated_mid e s s' : e < LSN_LIMIT → mid (truncating e s) e s' → truncated e s s'.
Proof.
  intros Hlim (d & v & -> & Hk). split_and!; [intros Hs; split; try done; by apply (truncated_range e s)| |done]. intros start He Hd l Hl. unfold start_after in Hl. cbn in Hl. rewrite Z.eqb_refl in Hl.
  pose proof (seg_off (set_disk d (set_io v (truncating e s)))) as [Ew Ho]. cbn in *.
  assert (start ≤ l < e ∧ e ≤ flush_lsn s) by lia. apply Hk; [lia|]. apply Hd. lia.
Qed.

Lemma truncated_done e s s' :
  e < LSN_LIMIT → mid (truncating e s) e s' → segments (disk s') !! Lsn.segment_number e size = Some Partial →
  (∀ k, Lsn.segment_number e size < k → segments (disk s') !! k = None) → truncated e s (set_pending false s').
Proof.
  intros Hlim Hm Hp Hk. destruct (truncated_mid e s s' Hlim Hm) as (Hs & Hd & Ht). destruct Hm as (d & v & -> & _).
  split_and!; [|done|done]. intros Hs0. split; cbn; [|by eauto|done|apply (Hs Hs0)].
  intros _ k Hle. change (seg _) with (Lsn.segment_number e size) in Hle. cbn in Hp, Hk.
  destruct (decide (k = Lsn.segment_number e size)) as [->|]; [by rewrite Hp|]. rewrite Hk by lia. done.
Qed.

(** From the removal of the segments after [e] on. *)
Lemma truncate_files_spec e s :
  wal_seg_size s = size → e < LSN_LIMIT → ∀ s1, mid (truncating e s) e s1 →
  wp (_ ← remove_segments_from_disk (λ x, Lsn.segment_number e size <? x);
      is_partial ← open_or_create (Lsn.segment_number e size);
      _ ← disk_call (zero_tail size (Lsn.segment_number e size) (Lsn.segment_number e size * size + Lsn.segment_offset e size));
      _ ← syscall;
      _ ← fsync_file (Lsn.segment_number e size);
      _ ← whenM (negb is_partial) (disk_call (set_segment (Lsn.segment_number e size) Partial));
      modifyS (set_pending false)) (λ r s', r ≠ Panic ∧ truncated e s s') s1.
Proof.
  intros Hsz Hlim s1 Hm1. set (k := Lsn.segment_number e size).
  assert (∀ s', mid (truncating e s) e s' → wal_seg_size s' = size) as Hmsz by (by intros s' (d & v & -> & _)).
  assert (∀ s', mid (truncating e s) e s' → Err (A := unit) IoError ≠ Panic ∧ truncated e s s') as Hfail by (split; [done|by apply truncated_mid]).
  apply wp_bind. unfold remove_segments_from_disk. apply wp_syscall; [intros v1|intros v1; by apply Hfail, mid_io].
  apply wp_bind. unfold wp at 1. cbn [getS fst snd wp_next].
  eapply wp_mono; [apply (remove_entries_spec e), mid_io, Hm1|]. intros r2 s2 (Hr2 & Hm2 & Hk2 & Hin2).
  destruct r2 as [[]|e2|]; cbn [wp_next]; [|split; [done|by apply truncated_mid]|done]. specialize (Hin2 eq_refl).
  assert (∀ x, k < x → segments (disk s2) !! x = None) as Habove.
  { intros x Hx. destruct (segments (disk (set_io v1 s1)) !! x) as [kind|] eqn:Ex; [|destruct (Hk2 x); congruence].
    apply Hin2; [|done]. apply list_elem_of_fmap. exists (x, kind). split; [done|]. by apply elem_of_map_to_list. }
  apply wp_bind. eapply wp_mono; [apply (open_or_create_spec e (truncating e s)); auto|].
  intros r3 s3 (Hr3 & Hm3 & Hb3 & Ho3). destruct r3 as [b|e3|]; cbn [wp_next]; [|split; [done|by apply truncated_mid]|done].
  specialize (Hb3 b eq_refl). fold k in Hb3, Ho3.
  apply wp_disk_call; [intros v4|intros v4; by apply Hfail, mid_io].
  set (s4 := set_disk _ _). assert (mid (truncating e s) e s4) as Hm4.
  { apply mid_step; [done|]. apply trunc_kept_zero. subst k. unfold Lsn.segment_number, Lsn.segment_offset.
    pose proof (Z.div_mod e size ltac:(done)). lia. }
  apply wp_syscall; [intros v5|intros v5; by apply Hfail, mid_io].
  apply wp_bind. unfold fsync_file, fdatasync_file. apply wp_bind. unfold wp at 1. cbn [getS fst snd wp_next].
  rewrite (Hmsz (set_io v5 s4)) by (by apply mid_io). unfold disk_call at 1.
  apply wp_syscall; [intros v6|intros v6; by apply Hfail; do 2 apply mid_io]. unfold wp at 1. cbn [modifyS fst snd wp_next].
  set (s6 := set_disk _ _). assert (mid (truncating e s) e s6) as Hm6
    by (apply mid_step; [by apply mid_io|apply trunc_kept_sync]).
  apply wp_bind. destruct b; cbn [negb whenM].
  - unfold wp. cbn [mret M_ret fst snd wp_next modifyS]. split; [done|]. apply truncated_done; [done|done|done|].
    intros x Hx. cbn. rewrite Ho3 by (fold k in Hx; lia). by apply Habove.
  - unfold disk_call. apply wp_syscall; [intros v7|intros v7; by apply Hfail, mid_io].
    unfold wp. cbn [modifyS fst snd wp_next]. split; [done|]. apply truncated_done; [done|..].
    + apply mid_step; [done|apply trunc_kept_kind].
    + cbn. by rewrite lookup_insert_eq.
    + intros x Hx. cbn. fold k in Hx |- *. rewrite lookup_insert_ne by lia. rewrite Ho3 by lia. by apply Habove.
Qed.

Lemma truncate_wal_disk e s :
  wal_inv s → seg_inv s → 0 < e < LSN_LIMIT →
  wp (truncate_wal e) (λ r s',
    r ≠ Panic ∧ wal_inv s' ∧ (flush_record_lsn s' = e ∨ r ≠ Ok tt ∧ flush_record_lsn s' = flush_record_lsn s) ∧
    truncated e s s') s.
Proof.
  intros Hinv Hseg He. pose proof (truncate_wal_law e s Hinv ltac:(lia)) as Hlaw. pose proof Hinv as [Hsz _ _ _ _ _ _ _ _ _ _].
  assert (wp (truncate_wal e) (λ r s', r ≠ Panic ∧ truncated e s s') s) as Hdisk.
  2: { eapply wp_mono; [exact (wp_and _ _ _ _ Hlaw Hdisk)|]. intros r s' [Hl (Hr & Ht)]. destruct (Hl Hr). by split_and!. }
  unfold truncate_wal. apply wp_bind. unfold wp at 1. cbn [getS fst snd wp_next].
  assert (truncated e s s ↔ ∀ start, e ≤ flush_lsn s ∨ e ≤ start → dur_inv start s → dur_inv (start_after e start s) s) as Hsame
    by (unfold truncated; pose proof (trunc_kept_refl e (disk s)); tauto).
  destruct (_ && _) eqn:Eb; [split; [done|]; apply Hsame; intros start _ Hd; unfold start_after; by rewrite (proj2 (Z.eqb_neq _ _)) by lia|].
  destruct (negb (pending_wal_truncation s) && _ && _) eqn:Eq.
  { split; [done|]. apply Hsame. intros start _ Hd l Hl. unfold start_after in Hl. destruct (seg_off s). destruct (write_record_lsn s =? e); [|by apply Hd].
    apply Hd. pose proof (wi_flush s Hinv). lia. }
  rewrite Hsz. apply wp_bind. unfold wp at 1. cbn [modifyS fst snd wp_next]. apply wp_bind.
  destruct (file s) eqn:Ef; cbn [whenM].
  - apply wp_bind. unfold wp at 1. cbn [modifyS fst snd wp_next]. fold (truncating e s).
    unfold fdatasync_file. apply wp_bind. unfold wp at 1. cbn [getS fst snd wp_next]. unfold disk_call at 1.
    apply wp_syscall; [intros v|intros v; split; [done|]; apply truncated_mid, mid_io, mid_refl; lia].
    unfold wp at 1. cbn [modifyS fst snd wp_next]. apply truncate_files_spec; [done|lia|].
    apply mid_step; [apply mid_refl|]. change (wal_seg_size (truncating e s)) with (wal_seg_size s). rewrite Hsz. apply trunc_kept_sync.
  - unfold wp at 1. cbn [mret M_ret fst snd wp_next]. apply truncate_files_spec; [done|lia|].
    replace (set_flush_record_lsn e _) with (truncating e s) by (destruct s; cbn in *; by subst). apply mid_refl.
Qed.

(** A state during the initialization of segment [k]. *)
Definition started (k : Z) (s s' : t) : Prop :=
  ∃ d v, s' = set_disk d (set_io v s) ∧
    (∀ x, segments d !! x = segments (disk s) !! x ∨ x = k ∧ segments (disk s) !! x = None ∧ segments d !! x = Some Partial) ∧
    (write_lsn s ≤ k * size → below_kept (write_lsn s) (disk s) d).

Lemma started_refl k s : started k s s.
Proof. exists (disk s), (io s). split_and!; [by destruct s|by left|intros; apply below_kept_refl]. Qed.

Lemma started_io k s s1 v : started k s s1 → started k s (set_io v s1).
Proof. intros (d & v1 & -> & H1). by exists d, v. Qed.

Lemma started_write k s s1 buf v : started k s s1 → started k s (set_disk (write_bytes (k * size) buf (disk s1)) (set_io v s1)).
Proof.
  intros (d & v1 & -> & H1 & H2). exists (write_bytes (k * size) buf d), v. split_and!; [done|done|]. intros Hle.
  eapply below_kept_trans; [by apply H2|by apply below_kept_write].
Qed.

Lemma started_create k s s1 v : segments (disk s1) !! k = None →
  started k s s1 → started k s (set_disk (create_segment size k (disk s1)) (set_io v s1)).
Proof.
  intros Hk (d & v1 & -> & H1 & H2). exists (create_segment size k d), v. cbn in Hk. split_and!; [done| |].
  - intros x. cbn. destruct (decide (x = k)) as [->|]; [|by rewrite lookup_insert_ne].
    rewrite lookup_insert_eq. right. split_and!; [done| |done]. destruct (H1 k) as [E|(_ & E & _)]; congruence.
  - intros Hle. eapply below_kept_trans; [by apply H2|by apply below_kept_create].
Qed.

Lemma started_inv k s s' : seg_inv s → (k + 1) * size ≤ LSN_LIMIT → flush_lsn s ≤ write_lsn s → started k s s' →
  seg_inv s' ∧ (write_lsn s ≤ k * size → ∀ start, dur_inv start s → dur_inv start s').
Proof.
  intros [D1 D2 D3 D4] Hk Hfl (d & v & -> & Hs & Hb). split; [split; cbn|].
  - intros Ep x Hx. destruct (Hs x) as [->|(_ & _ & ->)]; [by apply D1|done].
  - intros Ep Ho. change (seg _) with (seg s). destruct (Hs (seg s)) as [->|(_ & _ & ->)]; [by apply D2|by eauto].
  - done.
  - intros x Hx. destruct (Hs x) as [E|(-> & _)]; [apply D4; by rewrite <-E|done].
  - intros Hle start D x Hx. destruct (Hb Hle) as [_ B]. change (seg _) with (seg s) in Hx. cbn in Hx. destruct (seg_off s).
    apply B; [lia|by apply D].
Qed.

Lemma initialize_disk l s :
  wal_inv s → seg_inv s → l < LSN_LIMIT →
  wp (initialize_first_segment generate_wal_segment l) (λ r s',
    r ≠ Panic ∧ wal_inv s' ∧ flush_record_lsn s' = flush_record_lsn s ∧ seg_inv s' ∧
    (write_lsn s ≤ Lsn.segment_number l size * size → ∀ start, dur_inv start s → dur_inv start s')) s.
Proof.
  intros Hinv Hseg Hl. pose proof (initialize_first_segment_law generate_wal_segment l s Hinv) as Hlaw.
  pose proof Hinv as [Hsz _ _ Hw Hfl _ _ _ _ _ _]. set (k := Lsn.segment_number l size) in *.
  assert (wp (initialize_first_segment generate_wal_segment l) (λ r s', r ≠ Panic ∧ started k s s') s) as Hdisk.
  2: { eapply wp_mono; [exact (wp_and _ _ _ _ Hlaw Hdisk)|]. intros r s' [(Hi & Hf) (Hr & Hs)].
    destruct (started_inv k s s' Hseg) as [? ?]; [|done..|by split_and!].
    subst k. pose proof (segment_span l). unfold LSN_LIMIT, WAL_SEGMENT_SIZE in *. lia. }
  clear Hlaw. pose proof (started_refl k s) as H0'.
  unfold initialize_first_segment. apply wp_bind. unfold wp at 1. cbn [getS fst snd wp_next]. rewrite Hsz. fold k.
  assert (∀ s1 : t, started k s s1 → wp (_ ← syscall; _ ← write_all (k * size) (generate_wal_segment k l); syscall)
    (λ r s', r ≠ Panic ∧ started k s s') s1) as Hrest.
  { intros s1 H1. apply wp_syscall; [intros v2|intros v2; split; [done|by apply started_io]].
    apply wp_bind. unfold write_all. apply wp_next_io.
    - intros v3. unfold wp at 1. cbn [modifyS fst snd wp_next]. apply wp_next_io; [intros v4|intros n v4];
        (split; [done|]); by apply started_io, (started_write k s (set_io v2 s1) _ v3), started_io.
    - intros n v3. split; [done|]. by apply (started_write k s (set_io v2 s1) _ v3), started_io. }
  apply wp_bind. unfold open_or_create. apply wp_bind. unfold wp at 1. cbn [getS fst snd wp_next].
  destruct (segments (disk s) !! k) as [[]|] eqn:Ek; [by apply Hrest..|].
  apply wp_syscall; [intros v1|intros v1; split; [done|by apply started_io]].
  apply wp_syscall; [intros v2|intros v2; split; [done|by do 2 apply started_io]].
  apply wp_disk_call; [intros v3|intros v3; split; [done|by do 3 apply started_io]].
  apply Hrest. rewrite Hsz. apply (started_create k s _ v3); [done|by do 2 apply started_io].
Qed.

(** * Sequences of operations *)

Inductive StorageOp := OpWrite (startpos : Lsn) (buf : bytes) | OpFlush | OpTruncate (end_pos : Lsn) | OpInit (init_lsn : Lsn).

Definition run_op (op : StorageOp) : St unit :=
  match op with
  | OpWrite startpos buf => write_wal startpos buf
  | OpFlush => flush_wal
  | OpTruncate end_pos => truncate_wal end_pos
  | OpInit init_lsn => initialize_first_segment generate_wal_segment init_lsn
  end.

(** What the caller sees to: positions are in range; the WAL is truncated at a position
    that is flushed, or anywhere while there is none; a first segment is initialized
    while nothing is flushed, or ahead of the WAL. *)
Definition op_ok (s : t) (op : StorageOp) : Prop :=
  match op with
  | OpWrite startpos buf => startpos + Z.of_nat (length buf) ≤ LSN_LIMIT
  | OpFlush => True
  | OpTruncate end_pos => 0 < end_pos < LSN_LIMIT ∧ (end_pos ≤ flush_lsn s ∨ write_record_lsn s = 0)
  | OpInit init_lsn => 0 ≤ init_lsn < LSN_LIMIT ∧ (flush_record_lsn s = 0 ∨ write_lsn s ≤ Lsn.segment_number init_lsn size * size)
  end.

(** [start]: where the WAL begins; at no position while there is no WAL. *)
Record storage_ok (start : Lsn) (s : t) : Prop := {
  so_lsns : wal_inv s;
  so_files : seg_inv s;
  so_durable : dur_inv start s;
  so_none : write_record_lsn s = 0 → LSN_LIMIT ≤ start;
  so_empty : 0 ≤ flush_record_lsn s ∧ (flush_record_lsn s = 0 → write_lsn s = 0);
  so_start : pending_wal_truncation s = false → start ≤ write_lsn s
}.

Definition next_start (op : StorageOp) (start : Lsn) (s' : t) : Lsn :=
  match op with OpTruncate end_pos => start_after end_pos start s' | _ => start end.

(** What a write does to the LSNs. *)
Lemma write_wal_moves startpos buf s : wal_inv s → startpos + Z.of_nat (length buf) ≤ LSN_LIMIT →
  wp (write_wal startpos buf) (λ r s', pending_wal_truncation s' = pending_wal_truncation s ∧ write_lsn s ≤ write_lsn s' ∧
    (pending_wal_truncation s = true → s' = s)) s.
Proof.
  intros [Hsz _ _ Hw Hfl _ _ _ _ Hpend _] Hlim. unfold write_wal. apply wp_bind. unfold wp at 1. cbn [getS fst snd wp_next].
  destruct (startpos <? write_lsn s) eqn:E1; [by split|]. destruct (_ && _) eqn:E2; [by split|].
  destruct (pending_wal_truncation s) eqn:Ep; [by split|]. destruct (Hpend eq_refl) as [Hw0 _]. assert (startpos = write_lsn s) as -> by lia.
  apply wp_bind. unfold write_exact. apply wp_bind. unfold wp at 1. cbn [getS fst snd wp_next].
  rewrite Z.eqb_refl. cbn [negb whenM]. apply wp_bind. unfold wp at 1. cbn [mret M_ret fst snd wp_next].
  pose proof (write_loop_spec (length buf) buf s ltac:(lia) Hsz ltac:(lia) Hfl Hlim) as Hlsn. unfold wp in Hlsn |- * at 1.
  destruct (write_loop (length buf) buf s) as [r s1]. cbn [fst snd] in *. destruct Hlsn as (Er & _ & R). unfold rest in Er. injection Er as _ _ _ _ E5.
  assert (write_lsn s ≤ write_lsn s1) by (destruct r; lia). destruct r as [[]|e|]; cbn [wp_next]; [|split_and!; [congruence|done|done]..].
  apply wp_bind. unfold wp at 1. cbn [getS fst snd wp_next]. apply (wp_view files).
  { apply keeps_bind; [destruct (WalStreamDecoder.available _); apply keeps_lift|]. intros l. apply after_write_files. }
  intros r s' [= _ _ E3 E4 _]. split_and!; [congruence|lia|done].
Qed.

(** What a truncation does to the LSNs. *)
Lemma truncate_wal_moves e s : 
  wp (truncate_wal e) (λ r s', s' = s ∨ write_lsn s' = e ∧ write_record_lsn s' = e ∧ flush_record_lsn s' = e) s.
Proof.
  unfold truncate_wal. apply wp_bind. unfold wp at 1. cbn [getS fst snd wp_next]. destruct (_ && _); [by left|]. destruct (_ && _); [by left|].
  apply wp_bind. unfold wp at 1. cbn [modifyS fst snd wp_next]. set (s1 := set_flush_record_lsn _ _).
  apply (wp_view (λ s, (write_lsn s, write_record_lsn s, flush_record_lsn s))); [|intros r s' [= -> -> ->]; by right].
  clear s1. assert (∀ A (m : St A), keeps lsns m → keeps (λ s, (write_lsn s, write_record_lsn s, flush_record_lsn s)) m) as Hk.
  { intros A m Hm s0. specialize (Hm s0). unfold lsns in Hm. injection Hm. congruence. }
  repeat first [apply Hk, remove_segments_keeps|by apply Hk; eauto with keeps|apply keeps_modify; by intros|apply keeps_when|apply keeps_bind; [|intros ?]].
Qed.

Lemma flush_wal_moves s : wp flush_wal (λ r s', pending_wal_truncation s' = pending_wal_truncation s ∧ write_record_lsn s' = write_record_lsn s) s.
Proof.
  apply (wp_view (λ s, (pending_wal_truncation s, write_record_lsn s))); [|by intros r s' [= -> ->]]. unfold flush_wal.
  assert (∀ A (m : St A), keeps lsns m → keeps (λ s, (pending_wal_truncation s, write_record_lsn s)) m) as Hk.
  { intros A m Hm s0. specialize (Hm s0). unfold lsns in Hm. injection Hm. congruence. }
  apply keeps_bind; [apply keeps_get|]. intros s0. destruct (_ =? _); [apply keeps_ret|]. destruct (file s0); [|apply keeps_bail].
  repeat first [by apply Hk; eauto with keeps|apply keeps_modify; by intros|apply keeps_bind; [|intros ?]].
Qed.

Lemma initialize_moves l s : wp (initialize_first_segment generate_wal_segment l) (λ r s', lsns s' = lsns s) s.
Proof.
  apply (wp_view lsns); [|by intros]. unfold initialize_first_segment. apply keeps_bind; [apply keeps_get|]. intros s0. eauto 10 with keeps.
Qed.

Lemma run_op_ok op start s : storage_ok start s → op_ok s op → wp (run_op op) (λ r s', r ≠ Panic ∧ storage_ok (next_start op start s') s') s.
Proof.
  intros [Hi Hs Hd Hn [H0f He] Hst] Hop. destruct op as [startpos buf| |e|l]; cbn [run_op op_ok next_start] in *.
  - eapply wp_mono; [exact (wp_and _ _ _ _ (write_wal_disk _ _ _ Hi Hs Hop) (write_wal_moves _ _ _ Hi Hop))|].
    intros r s' [(Hr & Hi' & Hf & Hs' & Hd' & _) (Ep & Hw & Hsame)]. split; [done|]. destruct (pending_wal_truncation s) eqn:E.
    + rewrite Hsame by done. by split; [..|rewrite E].
    + specialize (Hst eq_refl). pose proof (wi_pending s' Hi' Ep). pose proof (wi_pending s Hi E). split; [done|done|by apply Hd'|lia|split; lia|lia].
  - eapply wp_mono; [exact (wp_and _ _ _ _ (flush_wal_disk _ Hi Hs) (flush_wal_moves s))|].
    intros r s' [(Hr & Hi' & Hf & Hs' & Hd' & _ & Ew & _) [Ep Er]]. split; [done|].
    split; [done|done|by apply Hd'|by rewrite Er|rewrite Ew; split; [lia|intros; apply He; lia]|by rewrite Ep, Ew].
  - destruct Hop as [He0 Hf]. eapply wp_mono; [exact (wp_and _ _ _ _ (truncate_wal_disk _ _ Hi Hs He0) (truncate_wal_moves e s))|].
    intros r s' [(Hr & Hi' & _ & Hs' & Hd' & _) Hm]. split; [done|]. unfold start_after.
    assert (dur_inv (start_after e start s') s') as Hd2 by (apply Hd'; [destruct Hf as [|Hf]; [by left|right; specialize (Hn Hf); lia]|done]).
    destruct Hm as [->|(E1 & E2 & E3)].
    + split; [done|by apply Hs'|done|intros E; rewrite (proj2 (Z.eqb_neq _ _)) by lia; by apply Hn|done|].
      intros Ep. specialize (Hst Ep). destruct (_ =? _); lia.
    + split; [done|by apply Hs'|done|lia|split; lia|]. intros _. rewrite E1, E2, Z.eqb_refl. lia.
  - destruct Hop as [Hl Hw]. eapply wp_mono; [exact (wp_and _ _ _ _ (initialize_disk l s Hi Hs ltac:(lia)) (initialize_moves l s))|].
    intros r s' [(Hr & Hi' & Ef & Hs' & Hd') Em]. split; [done|]. unfold lsns in Em. injection Em as _ Ew Er _ _ _ Ep.
    split; [done|done| |by rewrite Er|by rewrite Ef, Ew|by rewrite Ep, Ew]. apply Hd'; [|done]. destruct Hw as [Hw|]; [|done]. rewrite (He Hw).
    unfold Lsn.segment_number. pose proof (Z.div_pos l size). unfold WAL_SEGMENT_SIZE in *. lia.
Qed.

(** States that operations lead to, whether they succeed or fail. *)
Inductive reaches (start : Lsn) (s : t) : Lsn → t → Prop :=
  | reaches_start : reaches start s start s
  | reaches_op op start1 s1 : reaches start s start1 s1 → op_ok s1 op → reaches start s (next_start op start1 (run_op op s1).2) (run_op op s1).2.

Lemma reaches_ok start s start' s' : storage_ok start s → reaches start s start' s' → storage_ok start' s'.
Proof. intros Hs. induction 1 as [|op start1 s1 _ IH Hop]; [done|]. by destruct (run_op_ok op start1 s1 IH Hop). Qed.

(** * Opening the storage *)

(** A control file the storage can be opened with: the size of segments is the one
    the decoder knows, the version is supported. *)
Record openable (state : TimelinePersistentState) (d : Disk) : Prop := {
  op_size : SkStates.wal_seg_size (server state) = size;
  op_version : is_Some (PgVersion.try_from (pg_version (server state)));
  op_commit : 0 ≤ commit_lsn state ≤ LSN_LIMIT;
  op_disk : disk_in_range d
}.

Lemma new_spec state d read_io io :
  openable state d →
  match new state d read_io io with
  | Ok s => wal_inv s ∧ seg_inv s ∧ commit_lsn state ≤ flush_record_lsn s ∧ disk s = d
  | Err _ => read_io ≠ []
  | Panic => False
  end.
Proof.
  intros [Hsz [v Hv] Hc Hd]. unfold new. rewrite Hsz, Hv.
  assert (∃ r, (if commit_lsn state =? 0 then Ok 0 else (WalEnd.find_end_of_wal size d (commit_lsn state) read_io).1) = r ∧
    match r with Ok l => commit_lsn state ≤ l ≤ LSN_LIMIT | Err _ => read_io ≠ [] | Panic => False end) as (r & -> & Hr).
  { eexists. split; [done|]. destruct (Z.eqb_spec (commit_lsn state) 0) as [->|]; [unfold LSN_LIMIT; lia|].
    destruct (find_end_of_wal_bounds d (commit_lsn state) read_io Hc Hd) as [Hr _].
    by destruct (WalEnd.find_end_of_wal _ _ _ _) as [[|e|] ?]; cbn in *. }
  destruct r as [l|e|]; cbn [mbind result_bind]; [|done..]. rewrite (proj2 (Z.ltb_ge _ _)) by lia.
  destruct (segment_end_spec l) as [Hse _].
  split_and!; [|by split; try done; apply Hd|cbn; lia|done]. split; unfold avail, WalStreamDecoder.remaining; cbn; try done; try lia.
Qed.

(** Where the WAL begins that a storage is opened with. *)
Definition opened_start (s0 : t) : Lsn := if write_lsn s0 =? 0 then LSN_LIMIT else 0.

Lemma opened_ok state d read_io io s0 : openable state d → (∀ l, durable d l = seen d l) → new state d read_io io = Ok s0 → storage_ok (opened_start s0) s0.
Proof.
  intros Ho Hd En. pose proof (new_spec state d read_io io Ho) as Hn. rewrite En in Hn. destruct Hn as (Hi & Hs & Hc & Ed).
  assert (write_record_lsn s0 = write_lsn s0 ∧ flush_record_lsn s0 = write_lsn s0 ∧ pending_wal_truncation s0 = true) as (E1 & E2 & E3).
  { unfold new in En. destruct (if commit_lsn state =? 0 then _ else _) as [w| |]; cbn [mbind result_bind] in En; [|done..].
    destruct (w <? _); [done|]. destruct (PgVersion.try_from _); [|done]. by injection En as <-. }
  pose proof (wi_write s0 Hi). unfold opened_start. split; [done|done|intros l _; by rewrite Ed|rewrite E1|rewrite E2|by rewrite E3].
  - intros ->. rewrite Z.eqb_refl. lia.
  - split; [lia|done].
Qed.

(** C10: a storage is opened on a synced disk, with WAL or for a new timeline, and is then
    initialized, truncated, written to and flushed in any order, with any of its system
    calls failing at any point.  Positions are in range, the WAL is truncated where it is
    flushed, or anywhere while there is none, and a first segment is initialized while
    nothing is flushed, as the safekeeper does.  The storage never panics; its LSNs stay
    in order, the segment it writes to is never a completed one, and from the start of
    the WAL (for a new timeline the lowest position it was truncated at) every byte below
    its flushed position is durable. *)
Theorem storage_invariant state d read_io io s0 start s op :
  openable state d → (∀ l, durable d l = seen d l) → new state d read_io io = Ok s0 → reaches (opened_start s0) s0 start s → op_ok s op →
  storage_ok start s ∧ (run_op op s).1 ≠ Panic ∧ storage_ok (next_start op start (run_op op s).2) (run_op op s).2.
Proof.
  intros Ho Hd En Hr Hop. pose proof (reaches_ok _ _ _ _ (opened_ok _ _ _ _ _ Ho Hd En) Hr) as Hok.
  split; [done|]. apply (run_op_ok op start s Hok Hop).
Qed.

(** C11: what is written is what is read back, and what is flushed is what survives
    a crash.  A successful write starts exactly at the end of the WAL and leaves
    every earlier byte as it is; a successful flush after it moves the flushed
    record to the last record written, and every byte of the message below the
    flushed position is then durable with the value that was sent; that is the
    whole message if it completed a record that was not flushed. *)
Theorem written_wal_durable start startpos buf s s1 s2 :
  storage_ok start s → startpos + Z.of_nat (length buf) ≤ LSN_LIMIT →
  write_wal startpos buf s = (Ok tt, s1) → flush_wal s1 = (Ok tt, s2) →
  startpos = write_lsn s ∧ write_lsn s2 = startpos + Z.of_nat (length buf) ∧ flush_record_lsn s2 = write_record_lsn s1 ∧
  (∀ l, l < startpos → seen (disk s2) l = seen (disk s) l) ∧
  (∀ i b, buf !! i = Some b → seen (disk s2) (startpos + Z.of_nat i) = b ∧
     (startpos + Z.of_nat i < flush_lsn s2 → durable (disk s2) (startpos + Z.of_nat i) = b)) ∧
  (flush_record_lsn s1 < write_record_lsn s1 → flush_lsn s2 = startpos + Z.of_nat (length buf)).
Proof.
  intros [Hi Hs Hd _ _ Hst] Hlim Ew Ef. assert (pending_wal_truncation s = false) as Hp.
  { destruct (pending_wal_truncation s) eqn:E; [|done]. unfold write_wal, mbind, M_bind, getS in Ew. rewrite E in Ew. by repeat case_match. }
  specialize (Hst Hp).
  pose proof (write_wal_disk startpos buf s Hi Hs Hlim) as H1. unfold wp in H1. rewrite Ew in H1. cbn in H1.
  destruct H1 as (_ & Hi1 & _ & Hs1 & Hd1 & [Hb _] & Hok). destruct (Hok eq_refl) as (E1 & E2 & Hbytes).
  pose proof (flush_wal_disk s1 Hi1 Hs1) as H2. unfold wp in H2. rewrite Ef in H2. cbn in H2.
  destruct H2 as (_ & _ & _ & _ & Hd2 & Es & Ewr & Hok2). destruct (Hok2 eq_refl) as [E3 E4].
  split_and!; [done|congruence|done| | |intros; rewrite E4; congruence].
  - intros l Hl. rewrite Es. apply Hb. lia.
  - intros i b Hib. rewrite Es. split; [by apply Hbytes|]. intros Hlt.
    rewrite (Hd2 start (Hd1 start Hd)) by lia. rewrite Es. by apply Hbytes.
Qed.
End ops.

(** * A storage with one record, opened, truncated and written to *)

#[local] Existing Instance example_layout.
#[local] Existing Instance example_layout_laws.

Definition example_state : TimelinePersistentState :=
  MkPersistent (replicate 16 1) (replicate 16 2) (Configuration.new [])
    (MkAcceptorState 1 [MkTermLsn 1 40]) (MkServerInfo 170000 7 size) (replicate 16 0) 40 40 40 40 40 0 [] Present 0.

Definition example_opened : t :=
  Mk size 72 72 72 72 (WalStreamDecoder.new 72) false true example_disk [].

Definition example_segment (segno : Z) (l : Lsn) : bytes := [].

Definition example_truncated : t := (run_op example_segment (OpTruncate 72) example_opened).2.

Lemma example_new : new example_state example_disk [] [] = Ok example_opened.
Proof. by vm_compute. Qed.

Lemma example_openable : openable example_state example_disk.
Proof.
  split; [done|by eexists|cbn; unfold LSN_LIMIT; lia|]. intros k [x Hx]. cbn in Hx.
  apply lookup_singleton_Some in Hx as [<- _]. unfold LSN_LIMIT, WAL_SEGMENT_SIZE. lia.
Qed.

Lemma example_reaches : reaches example_segment 0 example_opened 0 example_truncated.
Proof. apply (reaches_op _ _ _ (OpTruncate 72) 0 example_opened); [constructor|]. cbn. unfold LSN_LIMIT. lia. Qed.

(** A new timeline that begins at 40. *)
Definition fresh_state : TimelinePersistentState :=
  MkPersistent (replicate 16 1) (replicate 16 2) (Configuration.new [])
    (MkAcceptorState 1 []) (MkServerInfo 170000 7 size) (replicate 16 0) 0 0 0 0 0 0 [] Present 0.
Definition fresh_disk : Disk := MkDisk (λ _, 0) (λ _, 0) ∅.
Definition fresh_opened : t := Mk size 0 0 0 0 (WalStreamDecoder.new 0) false true fresh_disk [].
Definition fresh_initialized : t := (run_op example_segment (OpInit 40) fresh_opened).2.
Definition fresh_truncated : t := (run_op example_segment (OpTruncate 40) fresh_initialized).2.

Lemma fresh_reaches : reaches example_segment LSN_LIMIT fresh_opened 40 fresh_truncated.
Proof.
  apply (reaches_op _ _ _ (OpTruncate 40) LSN_LIMIT fresh_initialized).
  - apply (reaches_op _ _ _ (OpInit 40) LSN_LIMIT fresh_opened); [constructor|]. cbn. unfold LSN_LIMIT. lia.
  - split; [unfold LSN_LIMIT; lia|right; by vm_compute].
Qed.

Lemma storage_invariant_witness :
  let op := OpWrite 40 example_record in
  storage_ok 40 fresh_truncated ∧ (run_op example_segment op fresh_truncated).1 ≠ Panic ∧
  storage_ok 40 (run_op example_segment op fresh_truncated).2.
Proof.
  apply (storage_invariant example_segment fresh_state fresh_disk [] [] fresh_opened 40 fresh_truncated (OpWrite 40 example_record)); [|done|done|apply fresh_reaches|].
  - split; [done|by eexists|cbn; unfold LSN_LIMIT; lia|]. intros k [x Hx]. done.
  - cbn. unfold LSN_LIMIT. lia.
Defined.

Lemma run_ok {S E} (m : M S E unit) s : (m s).1 = Ok tt → m s = (Ok tt, (m s).2).
Proof. intros <-. by destruct (m s). Qed.

Lemma written_wal_durable_witness :
  let s := example_truncated in
  let s1 := (write_wal 72 example_record s).2 in
  let s2 := (flush_wal s1).2 in
  flush_record_lsn s1 < write_record_lsn s1 ∧
  72 = write_lsn s ∧ write_lsn s2 = 72 + Z.of_nat (length example_record) ∧ flush_record_lsn s2 = write_record_lsn s1 ∧
  (∀ l, l < 72 → seen (disk s2) l = seen (disk s) l) ∧
  (∀ i b, example_record !! i = Some b → seen (disk s2) (72 + Z.of_nat i) = b ∧
     (72 + Z.of_nat i < flush_lsn s2 → durable (disk s2) (72 + Z.of_nat i) = b)) ∧
  (flush_record_lsn s1 < write_record_lsn s1 → flush_lsn s2 = 72 + Z.of_nat (length example_record)).
Proof.
  intros s s1 s2. split; [by vm_compute|].
  apply (written_wal_durable 0 72 example_record s s1 s2); [| |apply run_ok; by vm_compute|apply run_ok; by vm_compute].
  - eapply (reaches_ok example_segment); [|apply example_reaches]. apply (opened_ok example_state example_disk [] [] example_opened); [apply example_openable|done|apply example_new].
  - cbn. unfold LSN_LIMIT. lia.
Defined.
