(* ===== verification/SafeKeepers.v ===== *)
(** The consensus state machine of a safekeeper: the protocol messages and
    [SafeKeeper] of [safekeeper/src/safekeeper.rs].

    The struct is generic over the control file and the WAL storage; both traits
    are classes ([ControlStorage], [WalStore]), the latter with the laws the
    state machine relies on, stated for an invariant of the storage.  A handler
    is a method of the state monad: the state is left behind on failures too, as
    the next message finds it there. *)

From S2P Require Import Prelude Text Lsns Membership TermHistories Feedbacks WalDecoders SkStates.
Local Open Scope Z_scope.

(** * The WAL storage, [wal_storage::Storage] *)

Class WalStore (W E : Type) := {
  ws_write_lsn : W → Lsn;
  ws_flush_lsn : W → Lsn;
  ws_initialize_first_segment : Lsn → M W E unit;
  ws_write_wal : Lsn → bytes → M W E unit;
  ws_truncate_wal : Lsn → M W E unit;
  ws_flush_wal : M W E unit
}.

(** What a storage promises while its invariant holds: it does not panic, writing
    and flushing never move the flushed position back, truncation moves it to
    where it is asked to, or fails and may leave it. *)
Class WalStoreLaws (W E : Type) `{WalStore W E} (inv : W → Prop) := {
  write_wal_spec start buf w : inv w → start + Z.of_nat (length buf) ≤ LSN_LIMIT →
    wp (ws_write_wal start buf) (λ r w', r ≠ Panic ∧ inv w' ∧ ws_flush_lsn w ≤ ws_flush_lsn w') w;
  flush_wal_spec w : inv w →
    wp ws_flush_wal (λ r w', r ≠ Panic ∧ inv w' ∧ ws_flush_lsn w ≤ ws_flush_lsn w') w;
  truncate_wal_spec e w : inv w → 0 < e < LSN_LIMIT →
    wp (ws_truncate_wal e) (λ r w', r ≠ Panic ∧ inv w' ∧
      (ws_flush_lsn w' = e ∨ r ≠ Ok tt ∧ ws_flush_lsn w' = ws_flush_lsn w)) w;
  initialize_spec l w : inv w → l < LSN_LIMIT →
    wp (ws_initialize_first_segment l) (λ r w', r ≠ Panic ∧ inv w' ∧ ws_flush_lsn w' = ws_flush_lsn w) w;
  flush_limit w : inv w → ws_flush_lsn w ≤ LSN_LIMIT
}.

(** * Protocol messages *)

Record ProposerGreeting := MkProposerGreeting {
  pg_tenant_id : bytes;
  pg_timeline_id : bytes;
  pg_mconf : Configuration;
  pg_pg_version : PgVersionId;
  pg_system_id : Z;
  pg_wal_seg_size : Z
}.
Record VoteRequest := MkVoteRequest { vr_generation : Generation; vr_term : Term }.
Record ProposerElected := MkProposerElected {
  pe_generation : Generation;
  pe_term : Term;
  pe_start_streaming_at : Lsn;
  pe_term_history : TermHistory.t
}.
Record AppendRequestHeader := MkAppendRequestHeader {
  ar_generation : Generation;
  ar_term : Term;
  ar_begin_lsn : Lsn;
  ar_end_lsn : Lsn;
  ar_commit_lsn : Lsn;
  ar_truncate_lsn : Lsn
}.
Record AppendRequest := MkAppendRequest { h : AppendRequestHeader; wal_data : bytes }.

Inductive ProposerAcceptorMessage :=
  | Greeting (m : ProposerGreeting)
  | VoteRequestMsg (m : VoteRequest)
  | Elected (m : ProposerElected)
  | AppendRequestMsg (m : AppendRequest)
  | NoFlushAppendRequest (m : AppendRequest)
  | FlushWAL.

Record AcceptorGreeting := MkAcceptorGreeting { ag_node_id : NodeId; ag_mconf : Configuration; ag_term : Term }.
Record VoteResponse := MkVoteResponse {
  vs_generation : Generation;
  vs_term : Term;
  vote_given : bool;
  vs_flush_lsn : Lsn;
  vs_truncate_lsn : Lsn;
  vs_term_history : TermHistory.t
}.
Record HotStandbyFeedback := MkHotStandbyFeedback { hs_ts : Z; hs_xmin : Z; hs_catalog_xmin : Z }.
Definition HotStandbyFeedback_empty : HotStandbyFeedback := MkHotStandbyFeedback 0 0 0.
(** The pageserver's feedback is filled in by the sender of the message. *)
Record AppendResponse := MkAppendResponse {
  as_generation : Generation;
  as_term : Term;
  as_flush_lsn : Lsn;
  as_commit_lsn : Lsn;
  as_hs_feedback : HotStandbyFeedback;
  as_pageserver_feedback : option PageserverFeedback
}.

Definition term_only (generation : Generation) (term : Term) : AppendResponse :=
  MkAppendResponse generation term 0 0 HotStandbyFeedback_empty None.

Inductive AcceptorProposerMessage :=
  | AGreeting (m : AcceptorGreeting)
  | AVoteResponse (m : VoteResponse)
  | AAppendResponse (m : AppendResponse).

(** [SafekeeperTimelineInfo], without the ids and addresses of the sender. *)
Record SafekeeperTimelineInfo := MkTimelineInfo {
  ti_term : Term;
  ti_last_log_term : Term;
  ti_flush_lsn : Lsn;
  ti_commit_lsn : Lsn;
  ti_remote_consistent_lsn : Lsn;
  ti_peer_horizon_lsn : Lsn;
  ti_backup_lsn : Lsn;
  ti_local_start_lsn : Lsn;
  ti_standby_horizon : Lsn
}.

Inductive SkError (E : Type) :=
  | InvalidPgVersion | IncompatibleVersion | InvalidTenant | InvalidTimeline | InvalidSegSize | NotMember
  | GenerationMismatch | EmptyHistory | UnexpectedTruncation | BeforeElected | Rewrites | Gap | EmptyIds
  | CtrlError (e : ControlError)
  | WalStoreError (e : E).
Arguments InvalidPgVersion {_}.
Arguments IncompatibleVersion {_}.
Arguments InvalidTenant {_}.
Arguments InvalidTimeline {_}.
Arguments InvalidSegSize {_}.
Arguments NotMember {_}.
Arguments GenerationMismatch {_}.
Arguments EmptyHistory {_}.
Arguments UnexpectedTruncation {_}.
Arguments BeforeElected {_}.
Arguments Rewrites {_}.
Arguments Gap {_}.
Arguments EmptyIds {_}.
Arguments CtrlError {_} _.
Arguments WalStoreError {_} _.

Module SafeKeeper.
Section safekeeper.
Context {C W E : Type} `{ControlStorage C} `{WalStore W E}.

Record t := Mk { term_start_lsn : Lsn; state : TimelineState.t C; wal_store : W; node_id : NodeId }.

Abbreviation St := (M t (SkError E)).

Definition set_term_start_lsn l (self : t) : t := Mk l (state self) (wal_store self) (node_id self).
Definition set_state s (self : t) : t := Mk (term_start_lsn self) s (wal_store self) (node_id self).

(** Methods of the two parts. *)
Definition on_state {A} (m : M (TimelineState.t C) ControlError A) : St A := λ self,
  let '(r, s) := m (state self) in (map_err CtrlError r, set_state s self).
Definition on_wal {A} (m : M W E A) : St A := λ self,
  let '(r, w) := m (wal_store self) in
  (map_err WalStoreError r, Mk (term_start_lsn self) (state self) w (node_id self)).

(** The persistent state and its consensus part. *)
Definition ps (self : t) : TimelinePersistentState := TimelineState.deref (state self).
Definition acceptor_term (self : t) : Term := acc_term (acceptor_state (ps self)).
Definition mem (self : t) : TimelineMemState := TimelineState.inmem (state self).

Definition new (state : TimelineState.t C) (wal_store : W) (node_id : NodeId) : result (SkError E) t :=
  let s := TimelineState.deref state in
  if bool_decide (tenant_id s = replicate 16 0) || bool_decide (timeline_id s = replicate 16 0) then Err EmptyIds
  else Ok (Mk 0 state wal_store node_id).

Definition flush_lsn (self : t) : Lsn := Z.max (ws_flush_lsn (wal_store self)) (timeline_start_lsn (ps self)).
Definition get_term_history (self : t) : TermHistory.t :=
  TermHistory.up_to (acc_history (acceptor_state (ps self))) (flush_lsn self).
Definition get_last_log_term (self : t) : Term := AcceptorState.get_last_log_term (acceptor_state (ps self)) (flush_lsn self).

Definition handle_greeting (msg : ProposerGreeting) : St (option AcceptorProposerMessage) :=
  self ← getS;
  let srv := server (ps self) in
  v ← liftR (of_option InvalidPgVersion (PgVersion.try_from (pg_pg_version msg)));
  own ← liftR (of_option InvalidPgVersion (PgVersion.try_from (pg_version srv)));
  if negb (bool_decide (v = own)) && negb (pg_version srv =? UNKNOWN_SERVER_VERSION) then bail IncompatibleVersion
  else if negb (bool_decide (pg_tenant_id msg = tenant_id (ps self))) then bail InvalidTenant
  else if negb (bool_decide (pg_timeline_id msg = timeline_id (ps self))) then bail InvalidTimeline
  else if negb (wal_seg_size srv =? pg_wal_seg_size msg) then bail InvalidSegSize
  else
    _ ← whenM (negb (system_id srv =? pg_system_id msg) && negb (pg_system_id msg =? 0))
          (let version := if negb (pg_pg_version msg =? UNKNOWN_SERVER_VERSION) then pg_pg_version msg else pg_version srv in
           on_state (TimelineState.finish_change
             (TimelinePersistentState.with_server (MkServerInfo version (pg_system_id msg) (wal_seg_size srv))
                (TimelineState.start_change (state self)))));
    self ← getS;
    if (generation (mconf (ps self)) <? generation (pg_mconf msg)) && negb (Configuration.contains (pg_mconf msg) (node_id self))
    then bail NotMember
    else
      _ ← on_state (TimelineState.membership_switch (pg_mconf msg));
      self ← getS;
      mret (Some (AGreeting (MkAcceptorGreeting (node_id self) (mconf (ps self)) (acceptor_term self)))).

Definition handle_vote_request (msg : VoteRequest) : St (option AcceptorProposerMessage) :=
  self ← getS;
  if negb (generation (mconf (ps self)) =? vr_generation msg) then bail GenerationMismatch
  else
    _ ← on_wal ws_flush_wal;
    self ← getS;
    let resp term given := MkVoteResponse (generation (mconf (ps self))) term given (flush_lsn self)
                             (mem_peer_horizon_lsn (mem self)) (get_term_history self) in
    if acceptor_term self <? vr_term msg then
      _ ← on_state (TimelineState.finish_change
            (TimelinePersistentState.with_term (vr_term msg) (TimelineState.start_change (state self))));
      after ← getS;
      mret (Some (AVoteResponse (resp (acceptor_term after) true)))
    else mret (Some (AVoteResponse (resp (acceptor_term self) false))).

Definition append_response (self : t) : AppendResponse :=
  MkAppendResponse (generation (mconf (ps self))) (acceptor_term self) (flush_lsn self) (commit_lsn (ps self))
    HotStandbyFeedback_empty None.

(** Adopting the term history of an elected proposer, with the LSNs learnt from it. *)
Definition adopt_history (msg : ProposerElected) (s : TimelinePersistentState) : TimelinePersistentState :=
  let ts := match head (pe_term_history msg) with
            | Some start => if timeline_start_lsn s =? 0 then lsn start else timeline_start_lsn s
            | None => timeline_start_lsn s
            end in
  let p := if peer_horizon_lsn s =? 0 then ts else peer_horizon_lsn s in
  let ls := if local_start_lsn s =? 0 then pe_start_streaming_at msg else local_start_lsn s in
  TimelinePersistentState.with_acceptor (MkAcceptorState (acc_term (acceptor_state s)) (pe_term_history msg))
    (TimelinePersistentState.with_lsns ts ls (Z.max (commit_lsn s) ts) (Z.max (backup_lsn s) ts) p
       (Z.max (remote_consistent_lsn s) ts) s).

Definition handle_elected (msg : ProposerElected) : St (option AcceptorProposerMessage) :=
  self ← getS;
  if negb (generation (mconf (ps self)) =? pe_generation msg) then bail GenerationMismatch
  else
    _ ← whenM (acceptor_term self <? pe_term msg)
          (on_state (TimelineState.finish_change
             (TimelinePersistentState.with_term (pe_term msg) (TimelineState.start_change (state self)))));
    self ← getS;
    if pe_term msg <? acceptor_term self then mret None
    else
      let sk_th := get_term_history self in
      common ← (match TermHistory.find_highest_common_point (pe_term_history msg) sk_th (flush_lsn self) with
                | Ok o => mret o
                | _ => liftR Panic
                end);
      last_common_point ← liftR (match common with
                                 | Some lcp => Ok lcp
                                 | None => of_option EmptyHistory (head (pe_term_history msg))
                                 end);
      if negb (lsn last_common_point =? pe_start_streaming_at msg) then bail UnexpectedTruncation
      else
        _ ← assertM (mem_commit_lsn (mem self) <=? pe_start_streaming_at msg);
        _ ← whenM (ws_flush_lsn (wal_store self) =? Lsn.INVALID)
              (on_wal (ws_initialize_first_segment (pe_start_streaming_at msg)));
        _ ← on_wal (ws_truncate_wal (pe_start_streaming_at msg));
        self ← getS;
        _ ← on_state (TimelineState.finish_change (adopt_history msg (TimelineState.start_change (state self))));
        match last (pe_term_history msg) with
        | None => bail EmptyHistory
        | Some start => _ ← modifyS (set_term_start_lsn (lsn start)); mret None
        end.

Definition update_commit_lsn (candidate : Lsn) : St unit :=
  self ← getS;
  let candidate := Z.max candidate (mem_commit_lsn (mem self)) in
  let commit := Z.min candidate (flush_lsn self) in
  _ ← assertM (mem_commit_lsn (mem self) <=? commit);
  _ ← modifyS (λ self, set_state (TimelineState.set_commit_lsn commit (state self)) self);
  whenM ((term_start_lsn self <=? commit) && (commit_lsn (ps self) <? term_start_lsn self)) (on_state TimelineState.flush).

Definition handle_append_request (msg : AppendRequest) (require_flush : bool) : St (option AcceptorProposerMessage) :=
  self ← getS;
  if negb (generation (mconf (ps self)) =? ar_generation (h msg)) then bail GenerationMismatch
  else if acceptor_term self <? ar_term (h msg) then bail BeforeElected
  else if ar_term (h msg) <? acceptor_term self
  then mret (Some (AAppendResponse (term_only (generation (mconf (ps self))) (acceptor_term self))))
  else
    let write_lsn := ws_write_lsn (wal_store self) in
    let flush := ws_flush_lsn (wal_store self) in
    if ar_begin_lsn (h msg) <? write_lsn then bail Rewrites
    else if (write_lsn <? ar_begin_lsn (h msg)) && negb (write_lsn =? 0) then bail Gap
    else
      _ ← whenM (negb (bool_decide (wal_data msg = []))) (on_wal (ws_write_wal (ar_begin_lsn (h msg)) (wal_data msg)));
      _ ← whenM require_flush (on_wal ws_flush_wal);
      _ ← whenM (negb (ar_commit_lsn (h msg) =? 0)) (update_commit_lsn (ar_commit_lsn (h msg)));
      _ ← modifyS (λ self, set_state (TimelineState.set_peer_horizon_lsn
            (Z.max (mem_peer_horizon_lsn (mem self)) (ar_truncate_lsn (h msg))) (state self)) self);
      self ← getS;
      if negb require_flush && (flush =? flush_lsn self) then mret None
      else mret (Some (AAppendResponse (append_response self))).

Definition handle_flush : St (option AcceptorProposerMessage) :=
  _ ← on_wal ws_flush_wal;
  self ← getS;
  mret (Some (AAppendResponse (append_response self))).

Definition record_safekeeper_info (sk_info : SafekeeperTimelineInfo) : St unit :=
  self ← getS;
  if negb (ti_commit_lsn sk_info =? Lsn.INVALID) then
    whenM (ti_last_log_term sk_info =? get_last_log_term self) (update_commit_lsn (ti_commit_lsn sk_info))
  else mret tt.

Definition process_msg (msg : ProposerAcceptorMessage) : St (option AcceptorProposerMessage) :=
  match msg with
  | Greeting m => handle_greeting m
  | VoteRequestMsg m => handle_vote_request m
  | Elected m => handle_elected m
  | AppendRequestMsg m => handle_append_request m true
  | NoFlushAppendRequest m => handle_append_request m false
  | FlushWAL => handle_flush
  end.
End safekeeper.
Arguments t : clear implicits.
End SafeKeeper.
