(* ===== verification/Timelines.v ===== *)
(** A timeline of the safekeeper around its state machine: [StateSK] and
    [SharedState] of [safekeeper/src/timeline.rs], with the eviction of the WAL. *)

From S2P Require Import Prelude Text Lsns Membership TermHistories WalDecoders SkStates SafeKeepers.
Local Open Scope Z_scope.

Inductive TlError (E : Type) :=
  | TlSafekeeper (e : SkError E)
  | NotPresent | NotOffloaded | FlushLsnMismatch | CommitLsnMismatch | TermMismatch | UninitializedTimeline.
Arguments TlSafekeeper {_} _.
Arguments NotPresent {_}.
Arguments NotOffloaded {_}.
Arguments FlushLsnMismatch {_}.
Arguments CommitLsnMismatch {_}.
Arguments TermMismatch {_}.
Arguments UninitializedTimeline {_}.

Definition with_eviction v (s : TimelinePersistentState) := MkPersistent (tenant_id s) (timeline_id s) (mconf s) (acceptor_state s)
  (server s) (proposer_uuid s) (timeline_start_lsn s) (local_start_lsn s) (commit_lsn s) (backup_lsn s) (peer_horizon_lsn s)
  (remote_consistent_lsn s) (partial_backup s) v (creation_ts s).

Module StateSK.
Section timeline.
Context {C W E : Type} `{ControlStorage C} `{WalStore W E}.

Inductive t := Loaded (sk : SafeKeeper.t C W) | Offloaded (state : TimelineState.t C) | Empty.

Abbreviation St := (M t (TlError E)).

Definition state (self : t) : result (TlError E) (TimelineState.t C) :=
  match self with Loaded sk => Ok (SafeKeeper.state sk) | Offloaded s => Ok s | Empty => Panic end.

Definition flush_lsn (self : t) : result (TlError E) Lsn :=
  match self with
  | Loaded sk => Ok (ws_flush_lsn (SafeKeeper.wal_store sk))
  | Offloaded s => match eviction_state (TimelineState.deref s) with SkStates.Offloaded l => Ok l | _ => Panic end
  | Empty => Panic
  end.

Definition last_log_term (self : t) : result (TlError E) Term :=
  s ← state self; l ← flush_lsn self; Ok (AcceptorState.get_last_log_term (acceptor_state (TimelineState.deref s)) l).

(** A method of the state in the control file. *)
Definition on_state {A} (m : M (TimelineState.t C) ControlError A) : St A := λ self,
  match self with
  | Loaded sk => let '(r, sk') := SafeKeeper.on_state m sk in (map_err TlSafekeeper r, Loaded sk')
  | Offloaded s => let '(r, s') := m s in (map_err (λ e, TlSafekeeper (CtrlError e)) r, Offloaded s')
  | Empty => (Panic, Empty)
  end.

Definition term_bump (to : option Term) : St TimelineTermBumpResponse := on_state (TimelineState.term_bump to).

Record TimelineMembershipSwitchResponse := MkSwitchResponse {
  sr_previous_conf : Configuration;
  sr_current_conf : Configuration;
  sr_last_log_term : Term;
  sr_flush_lsn : Lsn
}.

Definition membership_switch (to : Configuration) : St TimelineMembershipSwitchResponse :=
  r ← on_state (TimelineState.membership_switch to);
  self ← getS;
  l ← liftR (flush_lsn self);
  t ← liftR (last_log_term self);
  mret (MkSwitchResponse (previous_conf r) (current_conf r) t l).

(** The commit LSN, if there is a state machine. *)
Definition record_commit (sk_info : SafekeeperTimelineInfo) : St unit := λ self,
  match self with
  | Loaded sk => let '(r, sk') := SafeKeeper.record_safekeeper_info sk_info sk in (map_err TlSafekeeper r, Loaded sk')
  | Offloaded s => (Ok tt, Offloaded s)
  | Empty => (Panic, Empty)
  end.

(** The other positions; they are stored when they are a segment ahead. *)
Definition with_positions (backup remote horizon : Lsn) (m : TimelineMemState) : TimelineMemState :=
  MkMem (mem_commit_lsn m) backup horizon remote (mem_proposer_uuid m).

Definition record_positions (sk_info : SafekeeperTimelineInfo) : M (TimelineState.t C) ControlError unit :=
  s ← getS;
  let seg := wal_seg_size (server (TimelineState.deref s)) in
  let m := TimelineState.inmem s in
  let p := TimelineState.deref s in
  let backup := Z.max (ti_backup_lsn sk_info) (mem_backup_lsn m) in
  let remote := Z.max (ti_remote_consistent_lsn sk_info) (mem_remote_consistent_lsn m) in
  let horizon := Z.max (ti_peer_horizon_lsn sk_info) (mem_peer_horizon_lsn m) in
  let ahead l b := match Lsn.add l seg with Ok l => mret (l <? b) | _ => liftR Panic end : M (TimelineState.t C) ControlError bool in
  _ ← modifyS (TimelineState.set_inmem (with_positions backup (mem_remote_consistent_lsn m) (mem_peer_horizon_lsn m) m));
  b1 ← ahead (backup_lsn p) backup;
  _ ← modifyS (TimelineState.set_inmem (with_positions backup remote (mem_peer_horizon_lsn m) m));
  b2 ← ahead (remote_consistent_lsn p) remote;
  _ ← modifyS (TimelineState.set_inmem (with_positions backup remote horizon m));
  b3 ← ahead (peer_horizon_lsn p) horizon;
  whenM (b1 || b2 || b3) TimelineState.flush.

Definition record_safekeeper_info (sk_info : SafekeeperTimelineInfo) : St unit :=
  _ ← record_commit sk_info; on_state (record_positions sk_info).

(** A method of the state machine, which must be there. *)
Definition safekeeper {A} (m : M (SafeKeeper.t C W) (SkError E) A) : St A := λ self,
  match self with
  | Loaded sk => let '(r, sk') := m sk in (map_err TlSafekeeper r, Loaded sk')
  | _ => (Panic, self)
  end.

Definition term_start_lsn (self : t) : result (TlError E) Lsn :=
  match self with Loaded sk => Ok (SafeKeeper.term_start_lsn sk) | Offloaded _ => Ok 0 | Empty => Panic end.

Definition take_state (self : t) : result (TlError E) (TimelineState.t C) := state self.

(** ** [SharedState] *)

(** Opening the WAL, with the state in the control file. *)
Context (open_wal : TimelinePersistentState → result E W) (my_id : NodeId).

Definition restore (control_store : C) : result (TlError E) t :=
  let s := cs_state control_store in
  if wal_seg_size (server s) =? 0 then Err UninitializedTimeline
  else
    match eviction_state s with
    | Present =>
        w ← map_err (λ e, TlSafekeeper (WalStoreError e)) (open_wal s);
        sk ← map_err TlSafekeeper (SafeKeeper.new (TimelineState.new control_store) w my_id);
        Ok (Loaded sk)
    | SkStates.Offloaded _ => Ok (Offloaded (TimelineState.new control_store))
    end.

Definition get_safekeeper_info (standby_apply_lsn : Lsn) (self : t) : result (TlError E) SafekeeperTimelineInfo :=
  s ← state self;
  llt ← last_log_term self;
  fl ← flush_lsn self;
  let m := TimelineState.inmem s in
  Ok (MkTimelineInfo (acc_term (acceptor_state (TimelineState.deref s))) llt fl (mem_commit_lsn m) (mem_remote_consistent_lsn m)
        (mem_peer_horizon_lsn m) (mem_backup_lsn m) (local_start_lsn (TimelineState.deref s)) standby_apply_lsn).

(** ** Eviction *)

Definition switch_to_offloaded (partial : PartialRemoteSegment) : St unit :=
  self ← getS;
  s ← liftR (state self);
  let pstate := TimelineState.start_change s in
  if negb (bool_decide (eviction_state pstate = Present)) then bail NotPresent
  else
    fl ← liftR (flush_lsn self);
    if negb (up_flush_lsn partial =? fl) then bail FlushLsnMismatch
    else if negb (up_commit_lsn partial =? commit_lsn pstate) then bail CommitLsnMismatch
    else
      llt ← liftR (last_log_term self);
      if negb (up_term partial =? llt) then bail TermMismatch
      else
        _ ← on_state (TimelineState.finish_change (with_eviction (SkStates.Offloaded fl) pstate));
        self ← getS;
        _ ← modifyS (λ _, Empty);
        s ← liftR (take_state self);
        modifyS (λ _, Offloaded s).

Definition switch_to_present : St unit :=
  self ← getS;
  s ← liftR (state self);
  w ← liftR (map_err (λ e, TlSafekeeper (WalStoreError e)) (open_wal (TimelineState.deref s)));
  let pstate := TimelineState.start_change s in
  if negb (match eviction_state pstate with SkStates.Offloaded _ => true | Present => false end) then bail NotOffloaded
  else
    fl ← liftR (flush_lsn self);
    if negb (ws_flush_lsn w =? fl) then bail FlushLsnMismatch
    else
      _ ← on_state (TimelineState.finish_change (with_eviction Present pstate));
      self ← getS;
      _ ← modifyS (λ _, Empty);
      s ← liftR (take_state self);
      sk ← liftR (map_err TlSafekeeper (SafeKeeper.new s w my_id));
      modifyS (λ _, Loaded sk).
End timeline.
Arguments t : clear implicits.
End StateSK.
