(* ===== verification/SafeKeeperFacts.v ===== *)
(** Facts about the safekeeper's state machine, for every control file and WAL
    storage that keep their laws: what each handler keeps, whatever the message
    and whichever call fails on the way. *)

From S2P Require Import Prelude Text Lsns Membership TermHistories WalDecoders SkStates SafeKeepers.
Local Open Scope Z_scope.

Import SafeKeeper.

Section facts.
Context {C W E : Type} `{ControlStorageLaws C} `{WalStoreLaws W E inv}.

Abbreviation SK := (SafeKeeper.t C W).

(** * What evolves *)

Definition disk_state (self : SK) : TimelinePersistentState := cs_disk (TimelineState.pers (state self)).

(** A state the timeline can be opened with: LSNs in range, segments of the size
    the decoder knows, a server version that is supported. *)
Record state_ok (s : TimelinePersistentState) : Prop := {
  st_commit : 0 ≤ commit_lsn s ≤ LSN_LIMIT;
  st_start : timeline_start_lsn s ≤ LSN_LIMIT;
  st_size : wal_seg_size (server s) = WAL_SEGMENT_SIZE;
  st_version : is_Some (PgVersion.try_from (pg_version (server s)))
}.

(** The state a restart reads is not behind the one in memory. *)
Definition disk_ok (self : SK) : Prop :=
  acceptor_term self ≤ acc_term (acceptor_state (disk_state self)) ∧
  generation (mconf (ps self)) ≤ generation (mconf (disk_state self)) ∧ state_ok (disk_state self).

(** The WAL storage is in order and the committed WAL is flushed. *)
Record log_inv (self : SK) : Prop := {
  li_wal : inv (wal_store self);
  li_state : state_ok (ps self);
  li_pers : commit_lsn (ps self) ≤ mem_commit_lsn (mem self);
  li_flush : mem_commit_lsn (mem self) ≤ flush_lsn self
}.

(** Terms and generations only grow, on disk too, and the WAL storage stays in order,
    also when a method panics; the log stays in order and the committed position grows unless it panics. *)
Definition evolves {A} (self : SK) (r : result (SkError E) A) (self' : SK) : Prop :=
  (acceptor_term self ≤ acceptor_term self' ∧ generation (mconf (ps self)) ≤ generation (mconf (ps self')) ∧
   (disk_ok self → disk_ok self') ∧ inv (wal_store self')) ∧
  (r ≠ Panic → log_inv self' ∧ mem_commit_lsn (mem self) ≤ mem_commit_lsn (mem self')).

Lemma evolves_refl {A} self (r : result (SkError E) A) : log_inv self → evolves self r self.
Proof. intros Hl. split; [split_and!; auto with lia; apply Hl|]. intros Hr. split; [auto|lia]. Qed.

Lemma evolves_trans {A B} self self1 self2 (r1 : result (SkError E) A) (r2 : result (SkError E) B) :
  r1 ≠ Panic → evolves self r1 self1 → evolves self1 r2 self2 → evolves self r2 self2.
Proof.
  intros Hr ((T1 & G1 & D1 & N1) & L1) ((T2 & G2 & D2 & N2) & L2). destruct (L1 Hr) as [_ M1].
  split; [split_and!; [lia|lia|auto|done]|]. intros Hr2. destruct (L2 Hr2) as [? M2]. split; [done|lia].
Qed.

(** A method that keeps the state in order, and does not panic unless [p] allows
    it. *)
Definition safe {A} (p : bool) (m : M SK (SkError E) A) (self : SK) : Prop :=
  log_inv self → wp m (λ r self', (p = false → r ≠ Panic) ∧ evolves self r self') self.

Lemma safe_bind {A B} p (m : M SK (SkError E) A) (f : A → M SK (SkError E) B) self :
  safe p m self → (∀ a self1, log_inv self → m self = (Ok a, self1) → safe p (f a) self1) → safe p (m ≫= f) self.
Proof.
  intros Hm Hf Hl. destruct (Hm Hl) as [Hp Hev]. apply wp_bind. unfold wp in *. destruct (m self) as [r self1] eqn:E1.
  cbn [fst snd] in *. destruct r as [a|e|]; cbn [wp_next].
  - assert (log_inv self1) as Hl1 by (apply Hev; done). destruct (Hf a self1 Hl eq_refl Hl1) as [Hp2 Hev2]. unfold wp in *.
    split; [done|]. by apply (evolves_trans self self1 _ (Ok a)).
  - destruct Hev as [Hc Hev]. split; [done|]. split; [done|]. intros _. by apply Hev.
  - destruct Hev as [Hc Hev]. split; [|by split]. intros E0. by destruct (Hp E0).
Qed.

Lemma safe_get {B} p (f : SK → M SK (SkError E) B) self : safe p (f self) self → safe p (getS ≫= f) self.
Proof. done. Qed.
Lemma safe_ret {A} p (a : A) self : safe p (mret a) self.
Proof. intros Hl. split; [done|]. by apply evolves_refl. Qed.
Lemma safe_bail {A} p e self : safe (A := A) p (bail e) self.
Proof. intros Hl. split; [done|]. by apply evolves_refl. Qed.
Lemma safe_lift {A} p (r : result (SkError E) A) self : (p = false → r ≠ Panic) → safe p (liftR r) self.
Proof. intros Hr Hl. split; [done|]. by apply evolves_refl. Qed.
Lemma safe_assert c self : safe true (assertM c) self.
Proof. intros Hl. split; [done|]. by destruct c; apply evolves_refl. Qed.
Lemma safe_when p c m self : (c = true → safe p m self) → safe p (whenM c m) self.
Proof. destruct c; intros Hm; [by apply Hm|apply safe_ret]. Qed.

(** * The two parts *)

(** The outcomes of [finish_change]: a failure, the state stored, or nothing to
    store. *)
Lemma finish_change_spec s (ts : TimelineState.t C) :
  wp (TimelineState.finish_change s) (λ r ts',
    let disk := cs_disk (TimelineState.pers ts) in
    let disk' := cs_disk (TimelineState.pers ts') in
    TimelineState.deref ts' = TimelineState.deref ts ∧ TimelineState.inmem ts' = TimelineState.inmem ts ∧
      (∃ e, r = Err e) ∧ (disk' = disk ∨ disk' = s) ∨
    TimelineState.deref ts' = s ∧ TimelineState.inmem ts' = mem_of s ∧ r = Ok tt ∧
      (disk' = s ∨ disk' = disk ∧ s = TimelineState.deref ts)) ts.
Proof.
  unfold TimelineState.finish_change. apply wp_bind. unfold wp at 1. cbn [getS fst snd wp_next].
  apply wp_bind. apply wp_when; intros E1.
  - unfold wp at 1, TimelineState.on_pers. destruct (cs_persist s (TimelineState.pers ts)) as [[[]|e|] c'] eqn:E2; cbn.
    + apply persist_ok in E2 as [E3 E4]. right. cbn. auto.
    + apply persist_err in E2 as [E3 E4]. left. cbn. eauto.
    + by apply persist_total in E2.
  - apply negb_false_iff, bool_decide_eq_true in E1. right. cbn. split; [done|]. auto.
Qed.

Lemma set_state_same (self : SK) : set_state (state self) self = self.
Proof. by destruct self. Qed.

Lemma safe_finish_change p s self :
  (log_inv self → state_ok s) →
  acceptor_term self ≤ acc_term (acceptor_state s) → generation (mconf (ps self)) ≤ generation (mconf s) →
  mem_commit_lsn (mem self) ≤ commit_lsn s ≤ Z.max (ws_flush_lsn (wal_store self)) (timeline_start_lsn s) →
  safe p (on_state (TimelineState.finish_change s)) self.
Proof.
  intros Hst Ht Hg Hc Hl. specialize (Hst Hl). destruct Hl as [Hi Hst0 Hp Hf]. unfold wp, on_state. pose proof (finish_change_spec s (state self)) as Hs. unfold wp in Hs.
  destruct (TimelineState.finish_change s (state self)) as [r ts']. cbn [fst snd] in *.
  split; [intros _; destruct Hs as [(_ & _ & (e & ->) & _)|(_ & _ & -> & _)]; done|].
  unfold evolves, disk_ok, disk_state, acceptor_term, ps, mem in *. cbn.
  destruct Hs as [(E1 & E2 & (e & ->) & Hd)|(E1 & E2 & -> & Hd)]; cbn; rewrite E1.
  - split; [split_and!; [lia|lia| |done]|].
    + intros (D1 & D2 & D3). destruct Hd as [->| ->]; (split_and!; [lia|lia|done]).
    + intros _. rewrite E2. split; [split|lia]; unfold flush_lsn, mem, ps in *; cbn; rewrite ?E1, ?E2; done.
  - split; [split_and!; [lia|lia| |done]|].
    + intros (D1 & D2 & D3). destruct Hd as [->|[-> ->]]; (split_and!; [lia|lia|done]).
    + intros _. rewrite E2. cbn. split; [split|lia]; unfold flush_lsn, mem, ps in *; cbn; rewrite ?E1, ?E2; cbn; done || lia.
Qed.

Lemma safe_on_wal p (m : M W E unit) self :
  wp m (λ r w', r ≠ Panic ∧ inv w' ∧ mem_commit_lsn (mem self) ≤ Z.max (ws_flush_lsn w') (timeline_start_lsn (ps self)))
    (wal_store self) → safe p (on_wal m) self.
Proof.
  intros Hm [Hi Hst Hp Hf]. unfold wp, on_wal in *. destruct (m (wal_store self)) as [r w']. cbn [fst snd] in *.
  destruct Hm as (Hr & Hi' & Hc). split; [by destruct r|]. split; [split_and!; done|]. intros _. split; [by split|done].
Qed.

(** Storage methods that never move the flushed position back. *)
Lemma safe_on_wal_mono p (m : M W E unit) self :
  (inv (wal_store self) → wp m (λ r w', r ≠ Panic ∧ inv w' ∧ ws_flush_lsn (wal_store self) ≤ ws_flush_lsn w') (wal_store self)) →
  safe p (on_wal m) self.
Proof.
  intros Hm Hl. pose proof Hl as [Hi Hst Hp Hf]. revert Hl. apply safe_on_wal. eapply wp_mono; [by apply Hm|].
  intros r w' (Hr & Hi' & Hle). split_and!; [done|done|]. unfold flush_lsn in Hf. lia.
Qed.

Lemma safe_flush_wal p self : safe p (on_wal ws_flush_wal) self.
Proof. apply safe_on_wal_mono. intros Hi. by apply flush_wal_spec. Qed.

Lemma safe_modify p f self :
  ps (f self) = ps self → wal_store (f self) = wal_store self → disk_state (f self) = disk_state self →
  (log_inv self → mem_commit_lsn (mem self) ≤ mem_commit_lsn (mem (f self)) ≤ flush_lsn self) → safe p (modifyS f) self.
Proof.
  intros E1 E2 E4 Hm Hl. specialize (Hm Hl). destruct Hl as [Hi Hst Hp Hf]. unfold wp. cbn [modifyS fst snd].
  split; [done|]. unfold evolves, acceptor_term, disk_ok, acceptor_term. rewrite E1, E2, E4.
  split; [split_and!; auto with lia|]. intros _. split; [split|lia]; rewrite ?E1, ?E2; [done|done|lia|].
  unfold flush_lsn in *. rewrite E1, E2. lia.
Qed.

(** * The handlers *)

(** Positions far enough from the end of the [u64] range, and past its start. *)
Definition msg_ok (msg : ProposerAcceptorMessage) : Prop :=
  match msg with
  | Elected m => 0 < pe_start_streaming_at m < LSN_LIMIT ∧
      (∀ start, head (pe_term_history m) = Some start → lsn start ≤ LSN_LIMIT)
  | AppendRequestMsg m | NoFlushAppendRequest m => ar_begin_lsn (h m) + Z.of_nat (length (wal_data m)) ≤ LSN_LIMIT
  | _ => True
  end.

(** What is in memory fits the persistent state. *)
Lemma start_change_ok self : log_inv self → state_ok (TimelineState.start_change (state self)).
Proof.
  intros [Hi [Hc Hs Hz Hv] Hp Hf]. pose proof (flush_limit _ Hi). unfold flush_lsn, mem, ps in *.
  split; cbn; [lia|done..].
Qed.

Lemma safe_flush p self : safe p (on_state TimelineState.flush) self.
Proof.
  intros Hl. pose proof Hl as [Hi Hst Hp Hf]. revert Hl. unfold TimelineState.flush.
  change (safe p (on_state (TimelineState.finish_change (TimelineState.start_change (state self)))) self).
  apply safe_finish_change; cbn; [apply start_change_ok|unfold acceptor_term, ps; lia|unfold ps; lia|].
  unfold flush_lsn, mem, ps in *. lia.
Qed.

(** The assertion that the committed position does not move back never fails. *)
Lemma safe_update_commit_lsn p candidate self : safe p (update_commit_lsn candidate) self.
Proof.
  intros Hl. pose proof Hl as [Hi Hst Hp Hf]. revert Hl. unfold update_commit_lsn. apply safe_get.
  rewrite (proj2 (Z.leb_le (mem_commit_lsn (mem self)) _)) by lia.
  apply safe_bind; [apply safe_ret|]. intros [] self1 _ [= <-].
  apply safe_bind; [|intros [] self1 _ _; apply safe_when; intros _; apply safe_flush].
  apply safe_modify; try done. intros _. cbn. unfold mem in *. lia.
Qed.

Lemma safe_set_term p term self :
  acceptor_term self ≤ term →
  safe p (on_state (TimelineState.finish_change (TimelinePersistentState.with_term term (TimelineState.start_change (state self))))) self.
Proof.
  intros Ht Hl. pose proof Hl as [Hi Hst Hp Hf]. revert Hl.
  apply safe_finish_change; cbn; [intros Hl; by destruct (start_change_ok self Hl)|done|unfold ps; lia|].
  unfold flush_lsn, mem, ps in *. lia.
Qed.

(** A change that is conditional on the state, as in [term_bump] and
    [membership_switch]. *)
Lemma safe_change {A} p (c : bool) s (g : TimelineState.t C → A) self :
  (c = true → log_inv self → state_ok s ∧ acceptor_term self ≤ acc_term (acceptor_state s) ∧
     generation (mconf (ps self)) ≤ generation (mconf s) ∧
     mem_commit_lsn (mem self) ≤ commit_lsn s ≤ Z.max (ws_flush_lsn (wal_store self)) (timeline_start_lsn s)) →
  safe p (on_state (_ ← whenM c (TimelineState.finish_change s); ts ← getS; mret (g ts))) self.
Proof.
  intros Hc Hl. unfold on_state, wp, getS, mbind, M_bind. destruct c; cbn [whenM].
  - destruct (Hc eq_refl Hl) as (H3 & H4 & H5 & H6).
    pose proof (safe_finish_change p s self (λ _, H3) H4 H5 H6 Hl) as Hs. unfold wp, on_state in Hs.
    destruct (TimelineState.finish_change _ _) as [r ts']. cbn [fst snd] in Hs. destruct Hs as (Hnp & Hev & Hw).
    destruct r; cbn; (split; [naive_solver|]; split; [exact Hev|]); intros ?; by apply Hw.
  - cbn. rewrite set_state_same. split; [done|]. by apply evolves_refl.
Qed.

Lemma safe_membership_switch p conf self : safe p (on_state (TimelineState.membership_switch conf)) self.
Proof.
  apply (safe_change p _ (TimelinePersistentState.with_mconf conf (TimelineState.start_change (state self)))
    (λ ts, MkMembershipSwitch (mconf (TimelineState.deref (state self))) (mconf (TimelineState.deref ts)))).
  intros Eg Hl. destruct (start_change_ok self Hl). pose proof Hl as [Hi Hst Hp Hf]. cbn.
  split_and!; [done|unfold acceptor_term, ps; lia|unfold ps; lia|unfold mem; lia|unfold flush_lsn, mem, ps in *; lia].
Qed.

Lemma safe_term_bump p to self : safe p (on_state (TimelineState.term_bump to)) self.
Proof.
  set (term := acc_term (acceptor_state (TimelineState.start_change (state self)))).
  set (new := match to with Some to => Z.max term to | None => wrapping_add 64 term 1 end).
  apply (safe_change p (term <? new) (TimelinePersistentState.with_term new (TimelineState.start_change (state self)))
    (λ ts, MkTermBump (acc_term (acceptor_state (TimelineState.deref (state self)))) (acc_term (acceptor_state (TimelineState.deref ts))))).
  intros Eg Hl. destruct (start_change_ok self Hl). pose proof Hl as [Hi Hst Hp Hf]. cbn.
  change term with (acceptor_term self) in Eg.
  split_and!; [done|lia|unfold ps; lia|unfold mem; lia|unfold flush_lsn, mem, ps in *; lia].
Qed.

Lemma of_option_no_panic {A B} (e : B) (o : option A) : of_option e o ≠ Panic.
Proof. by destruct o. Qed.

Create HintDb safe.
Hint Resolve safe_ret safe_bail safe_lift safe_assert of_option_no_panic safe_flush_wal safe_update_commit_lsn safe_membership_switch : safe.

Lemma safe_greeting p m self : safe p (handle_greeting m) self.
Proof.
  unfold handle_greeting. apply safe_get. apply safe_bind; [auto with safe|]. intros v self1 _ [= E1 <-].
  apply safe_bind; [auto with safe|]. intros own self2 _ [= E2 <-].
  destruct (negb _ && _); [auto with safe|]. destruct (negb _); [auto with safe|]. destruct (negb _); [auto with safe|].
  destruct (negb _); [auto with safe|]. apply safe_bind.
  { apply safe_when. intros _ Hl. pose proof Hl as [Hi Hst Hp Hf]. revert Hl.
    apply safe_finish_change; cbn; [|unfold acceptor_term, ps; lia|unfold ps; lia|unfold flush_lsn, mem, ps in *; lia].
    intros Hl. destruct (start_change_ok self Hl). split; cbn; [done|done|done|].
    destruct (negb _); [|done]. destruct (PgVersion.try_from (pg_pg_version m)); [by eexists|done]. }
  intros _ self3 _ _. apply safe_get. destruct (_ && _); [auto with safe|]. apply safe_bind; [auto with safe|].
  intros _ self4 _ _. apply safe_get. auto with safe.
Qed.

Lemma safe_vote p m self : safe p (handle_vote_request m) self.
Proof.
  unfold handle_vote_request. apply safe_get. destruct (negb _); [auto with safe|].
  apply safe_bind; [auto with safe|]. intros _ self1 _ _. apply safe_get.
  destruct (Z.ltb_spec (acceptor_term self1) (vr_term m)); [|auto with safe].
  apply safe_bind; [apply safe_set_term; lia|]. intros _ self2 _ _. apply safe_get. auto with safe.
Qed.

Lemma safe_append p m b self : msg_ok (AppendRequestMsg m) → safe p (handle_append_request m b) self.
Proof.
  intros Hm. unfold handle_append_request. apply safe_get. destruct (negb _); [auto with safe|].
  destruct (_ <? _); [auto with safe|]. destruct (_ <? _); [auto with safe|]. destruct (_ <? _); [auto with safe|].
  destruct (_ && _); [auto with safe|]. apply safe_bind.
  { apply safe_when. intros _. apply safe_on_wal_mono. intros Hi. by apply write_wal_spec. }
  intros _ self1 _ _. apply safe_bind; [apply safe_when; auto with safe|]. intros _ self2 _ _.
  apply safe_bind; [apply safe_when; auto with safe|]. intros _ self3 _ _.
  apply safe_bind; [apply safe_modify; try done; intros [Hi Hst Hp Hf]; cbn; unfold mem in *; lia|]. intros _ self4 _ _.
  apply safe_get. destruct (_ && _); auto with safe.
Qed.

Lemma safe_handle_flush p self : safe p handle_flush self.
Proof. apply safe_bind; [auto with safe|]. intros _ self1 _ _. apply safe_get. auto with safe. Qed.

Lemma safe_record_info p info self : safe p (record_safekeeper_info info) self.
Proof. apply safe_get. destruct (negb _); [apply safe_when|]; auto with safe. Qed.

Lemma adopt_history_lsns m s :
  timeline_start_lsn (adopt_history m s) = timeline_start_lsn s ∨ timeline_start_lsn s = 0.
Proof. unfold adopt_history. cbn. destruct (head _); [destruct (Z.eqb_spec (timeline_start_lsn s) 0)|]; auto. Qed.

Lemma adopt_history_ok m s :
  state_ok s → (∀ start, head (pe_term_history m) = Some start → lsn start ≤ LSN_LIMIT) → state_ok (adopt_history m s).
Proof.
  intros [Hc Hs Hz Hv] Hm. unfold adopt_history. split; cbn; [| |done|done];
    (destruct (head _) as [e|]; [specialize (Hm e eq_refl); destruct (_ =? _)|]; lia).
Qed.

(** Nothing committed is cut off: the WAL ends at or after the committed position. *)
Lemma safe_elected m self : msg_ok (Elected m) → safe true (handle_elected m) self.
Proof.
  intros Hm. unfold handle_elected. apply safe_get. destruct (negb _); [auto with safe|]. apply safe_bind.
  { apply safe_when. intros Eb. apply safe_set_term. lia. }
  intros _ self1 _ _. apply safe_get. destruct (_ <? _); [auto with safe|].
  apply safe_bind; [destruct (TermHistory.find_highest_common_point _ _ _); [auto with safe|by apply safe_lift..]|].
  intros common self2 _ E2.
  assert (self2 = self1) as -> by (destruct (TermHistory.find_highest_common_point _ _ _); by inversion E2). clear E2.
  apply safe_bind; [by apply safe_lift|]. intros lcp self2 _ [= _ <-].
  destruct (negb _); [auto with safe|]. apply safe_bind; [auto with safe|]. intros [] self2 _ Ea.
  assert (self2 = self1 ∧ mem_commit_lsn (mem self1) ≤ pe_start_streaming_at m) as [-> Hc].
  { unfold assertM in Ea. destruct (_ <=? _) eqn:El; [|done]. injection Ea as <-. split; [done|lia]. }
  clear Ea. apply safe_bind.
  { apply safe_when. intros _. apply safe_on_wal_mono. intros Hi. eapply wp_mono; [apply initialize_spec; [done|apply Hm]|].
    intros r w' (Hr & Hi' & ->). split_and!; [done|done|lia]. }
  intros [] self2 Hl1 E2. apply safe_bind.
  { intros Hl. pose proof Hl as [Hi Hst Hp Hf]. revert Hl. apply safe_on_wal. eapply wp_mono; [apply truncate_wal_spec; [done|apply Hm]|].
    intros r w' (Hr & Hi' & He). split_and!; [done|done|].
    assert (mem self2 = mem self1 ∧ ps self2 = ps self1) as [Em Ep].
    { unfold whenM, on_wal in E2. destruct (_ =? _); [destruct (ws_initialize_first_segment _ _) as [[[]| |] w2]|];
        by inversion E2. }
    rewrite Em. unfold flush_lsn in Hf. rewrite Em in Hf. destruct He as [->|[_ ->]]; lia. }
  intros [] self3 [Hi2 _ _ _] E3. apply safe_get. apply safe_bind.
  { intros Hl. pose proof Hl as [Hi Hst Hp Hf]. revert Hl.
    assert (0 < ws_flush_lsn (wal_store self3)) as Hpos.
    { pose proof (truncate_wal_spec (pe_start_streaming_at m) (wal_store self2) Hi2 (proj1 Hm)) as Ht. unfold wp in Ht.
      unfold on_wal in E3. destruct (ws_truncate_wal _ _) as [[[]| |] w3]; simplify_eq/=.
      destruct Ht as (_ & _ & [->|[? _]]); [simpl in Hm; lia|done]. }
    apply safe_finish_change; [intros Hl; apply adopt_history_ok; [by apply start_change_ok|apply Hm]|cbn; unfold acceptor_term, ps; lia|cbn; unfold ps; lia|].
    pose proof (adopt_history_lsns m (TimelineState.start_change (state self3))) as Hts.
    set (s' := adopt_history m _) in *. change (timeline_start_lsn (TimelineState.start_change (state self3))) with
      (timeline_start_lsn (ps self3)) in Hts. unfold flush_lsn in Hf.
    assert (commit_lsn s' = Z.max (mem_commit_lsn (mem self3)) (timeline_start_lsn s')) as -> by done.
    lia. }
  intros _ self4 _ _. destruct (last _); [|auto with safe].
  apply safe_bind; [|auto with safe]. apply safe_modify; try done. intros [Hi Hst Hp Hf]. cbn. unfold mem in *. cbn. lia.
Qed.

Lemma safe_process_msg msg self : msg_ok msg → safe (match msg with Elected _ => true | _ => false end) (process_msg msg) self.
Proof.
  intros Hm. destruct msg; cbn [process_msg]; auto using safe_greeting, safe_vote, safe_elected, safe_append, safe_handle_flush.
Qed.

(** * Votes *)

(** Every reply of a method satisfies [P]. *)
Definition replies {A} (P : A → Prop) (m : M SK (SkError E) A) : Prop :=
  ∀ self, match (m self).1 with Ok a => P a | _ => True end.

Lemma replies_bind {A B} (P : B → Prop) (m : M SK (SkError E) A) (f : A → M SK (SkError E) B) :
  (∀ a, replies P (f a)) → replies P (m ≫= f).
Proof. intros Hf self. unfold mbind, M_bind. destruct (m self) as [[a|e|] self1]; [apply Hf|done..]. Qed.

Lemma replies_ret {A} (P : A → Prop) (a : A) : P a → replies P (mret a).
Proof. by intros ? self. Qed.
Lemma replies_bail {A} (P : A → Prop) e : replies P (bail e).
Proof. done. Qed.

Definition no_vote (o : option AcceptorProposerMessage) : Prop := match o with Some (AVoteResponse _) => False | _ => True end.

Ltac no_vote_tac := repeat first [apply replies_bind; intros ?| apply replies_ret; exact I | apply replies_bail |
  match goal with |- replies _ (if ?b then _ else _) => destruct b end |
  match goal with |- replies _ (match ?o with _ => _ end) => destruct o end].

Lemma only_votes_vote msg self v self' :
  process_msg msg self = (Ok (Some (AVoteResponse v)), self') → ∃ m, msg = VoteRequestMsg m.
Proof.
  intros E0. assert (match msg with VoteRequestMsg _ => True | _ => replies no_vote (process_msg msg) end) as Hr.
  { destruct msg; cbn [process_msg]; try exact I; [unfold handle_greeting|unfold handle_elected|unfold handle_append_request..|unfold handle_flush];
      no_vote_tac. }
  destruct msg as [|m| | | |]; [|by eexists|..]; specialize (Hr self); rewrite E0 in Hr; done.
Qed.

Lemma vote_given_spec m self v self' :
  handle_vote_request m self = (Ok (Some (AVoteResponse v)), self') → vote_given v = true →
  acceptor_term self < vs_term v ∧ vs_term v = acceptor_term self' ∧ vs_term v = vr_term m.
Proof.
  unfold handle_vote_request. intros Ev Hg. apply M_bind_inv in Ev as (self0 & self1 & [= <- <-] & Ev).
  destruct (negb _); [done|]. apply M_bind_inv in Ev as ([] & self1 & Ew & Ev).
  assert (acceptor_term self1 = acceptor_term self) as Et.
  { unfold on_wal in Ew. destruct (ws_flush_wal _) as [[[]| |] w]; by simplify_eq/=. }
  apply M_bind_inv in Ev as (self0 & self2 & [= <- <-] & Ev).
  destruct (Z.ltb_spec (acceptor_term self1) (vr_term m)) as [Hlt|]; [|by injection Ev as <- <-].
  apply M_bind_inv in Ev as ([] & self2 & Ef & Ev). apply M_bind_inv in Ev as (self0 & self3 & [= <- <-] & [= <- <-]).
  cbn. enough (acceptor_term self2 = vr_term m) by lia.
  pose proof (finish_change_spec (TimelinePersistentState.with_term (vr_term m) (TimelineState.start_change (state self1))) (state self1)) as Hs.
  unfold wp, on_state in *. destruct (TimelineState.finish_change _ _) as [r ts']. cbn in *. injection Ef as Er <-.
  destruct Hs as [(_ & _ & (e & ->) & _)|(E1 & _)]; [done|]. unfold acceptor_term, ps. cbn. by rewrite E1.
Qed.

(** * Who may write *)

Lemma on_state_keeps {A} (m : M (TimelineState.t C) ControlError A) : keeps (E := SkError E) (wal_store (C := C) (W := W)) (on_state m).
Proof. intros self. unfold on_state. by destruct (m (state self)). Qed.

Lemma greeting_keeps m : keeps (E := SkError E) (wal_store (C := C) (W := W)) (handle_greeting m).
Proof.
  unfold handle_greeting. apply keeps_bind; [apply keeps_get|]. intros self.
  apply keeps_bind; [apply keeps_lift|]. intros v. apply keeps_bind; [apply keeps_lift|]. intros own.
  repeat match goal with |- keeps _ (if ?b then _ else _) => destruct b; [apply keeps_bail|] end.
  apply keeps_bind; [apply keeps_when, on_state_keeps|]. intros _. apply keeps_bind; [apply keeps_get|]. intros self1.
  destruct (_ && _); [apply keeps_bail|]. apply keeps_bind; [apply on_state_keeps|]. intros _.
  apply keeps_bind; [apply keeps_get|]. intros self2. apply keeps_ret.
Qed.

(** A proposer that may write: of the current configuration, and not of a term the
    safekeeper has left behind; to append, it has to be in its very term and at
    the end of the WAL, which is anywhere while there is none. *)
Definition may_write (msg : ProposerAcceptorMessage) (self : SK) : Prop :=
  let generation := generation (mconf (ps self)) in
  match msg with
  | Greeting _ => False
  | VoteRequestMsg m => vr_generation m = generation
  | Elected m => pe_generation m = generation ∧ acceptor_term self ≤ pe_term m ∧ pe_term_history m ≠ []
  | AppendRequestMsg m | NoFlushAppendRequest m =>
      ar_generation (h m) = generation ∧ ar_term (h m) = acceptor_term self ∧
      (ar_begin_lsn (h m) = ws_write_lsn (wal_store self) ∨ ws_write_lsn (wal_store self) = 0)
  | FlushWAL => True
  end.

Lemma elected_may_write m self :
  wp (handle_elected m) (λ _ self', wal_store self' = wal_store self ∨ may_write (Elected m) self) self.
Proof.
  unfold handle_elected. apply wp_bind. unfold wp at 1. cbn [getS fst snd wp_next].
  destruct (Z.eqb_spec (generation (mconf (ps self))) (pe_generation m)) as [Eg|]; cbn [negb]; [|by left].
  apply wp_bind. unfold wp at 1.
  assert (wal_store (whenM (acceptor_term self <? pe_term m) (on_state (E := E) (TimelineState.finish_change
    (TimelinePersistentState.with_term (pe_term m) (TimelineState.start_change (state self))))) self).2 = wal_store self) as Ew
    by (apply keeps_when, on_state_keeps).
  assert (acceptor_term self ≤ pe_term m ∨ (whenM (acceptor_term self <? pe_term m) (on_state (E := E) (TimelineState.finish_change
    (TimelinePersistentState.with_term (pe_term m) (TimelineState.start_change (state self))))) self).2 = self) as Ht
    by (destruct (Z.ltb_spec (acceptor_term self) (pe_term m)); [left; lia|by right]).
  destruct (whenM _ _ self) as [[[]|e|] self1]; cbn [fst snd wp_next] in *; [|by left..].
  apply wp_bind. unfold wp at 1. cbn [getS fst snd wp_next].
  destruct (Z.ltb_spec (pe_term m) (acceptor_term self1)) as [|Hle]; [by left|].
  assert (acceptor_term self ≤ pe_term m) as Ht' by (destruct Ht as [|<-]; done). clear Ht.
  destruct (pe_term_history m) as [|e0 th] eqn:Eth.
  - left. unfold TermHistory.find_highest_common_point, wp.
    destruct (match last (get_term_history self1) with Some _ => _ | None => _ end); [done|]. done.
  - eapply (wp_mono _ (λ _ _, True)); [done|]. intros _ self2 _. right. cbn. by rewrite Eth.
Qed.

Lemma append_may_write m b self :
  wp (handle_append_request m b) (λ _ self', wal_store self' = wal_store self ∨ may_write (AppendRequestMsg m) self) self.
Proof.
  unfold handle_append_request. apply wp_bind. unfold wp at 1. cbn [getS fst snd wp_next].
  destruct (Z.eqb_spec (generation (mconf (ps self))) (ar_generation (h m))) as [Eg|]; cbn [negb]; [|by left].
  destruct (Z.ltb_spec (acceptor_term self) (ar_term (h m))); [by left|].
  destruct (Z.ltb_spec (ar_term (h m)) (acceptor_term self)); [by left|].
  destruct (Z.ltb_spec (ar_begin_lsn (h m)) (ws_write_lsn (wal_store self))); [by left|].
  destruct (_ && _) eqn:Egap; [by left|]. eapply (wp_mono _ (λ _ _, True)); [done|]. intros _ self2 _. right. cbn.
  split_and!; [done|lia|]. lia.
Qed.

(** C9: only a proposer of the current configuration and of a term that is not left
    behind has the WAL changed: whatever a message does and however it ends, if
    the WAL storage is not as it was, the message satisfies [may_write]. *)
Theorem only_current_leader_writes msg self r self' :
  process_msg msg self = (r, self') → wal_store self' ≠ wal_store self → may_write msg self.
Proof.
  intros E0 Hne. assert (wp (process_msg msg) (λ _ self', wal_store self' = wal_store self ∨ may_write msg self) self) as Hw.
  { destruct msg as [m|m|m|m|m|]; cbn [process_msg].
    - left. apply greeting_keeps.
    - unfold handle_vote_request. apply wp_bind. unfold wp at 1. cbn [getS fst snd wp_next].
      destruct (Z.eqb_spec (generation (mconf (ps self))) (vr_generation m)); cbn [negb]; [|by left].
      eapply (wp_mono _ (λ _ _, True)); [done|]. by right.
    - apply elected_may_write.
    - apply append_may_write.
    - apply append_may_write.
    - eapply (wp_mono _ (λ _ _, True)); [done|]. by right. }
  unfold wp in Hw. rewrite E0 in Hw. cbn in Hw. by destruct Hw.
Qed.
End facts.
