(* ===== verification/TimelineFacts.v ===== *)
(** What holds of a timeline while its WAL is evicted and brought back: [StateSK]. *)

From S2P Require Import Prelude Text Lsns Membership TermHistories WalDecoders SkStates SafeKeepers Timelines SafeKeeperFacts.
Local Open Scope Z_scope.

(** * Methods that leave a value of the state as it is *)

Section pres.
Context {S V : Type} (view : S → V) (v : V).

Definition pres {E A} (m : M S E A) : Prop := ∀ s, view s = v → view (m s).2 = v.

Lemma pres_bind {E A B} (m : M S E A) (f : A → M S E B) : pres m → (∀ a, pres (f a)) → pres (m ≫= f).
Proof. intros Hm Hf s Hs. unfold mbind, M_bind. specialize (Hm s Hs). destruct (m s) as [[a|e|] s1]; cbn in *; [by apply Hf|done..]. Qed.
Lemma pres_get {E B} (f : S → M S E B) : (∀ s, view s = v → pres (f s)) → pres (getS ≫= f).
Proof. intros Hf s Hs. by apply (Hf s Hs s). Qed.
Lemma pres_lift {E A} (r : result E A) : pres (liftR r).
Proof. by intros s Hs. Qed.
Lemma pres_ret {E A} (a : A) : pres (E := E) (mret a).
Proof. by intros s Hs. Qed.
Lemma pres_bail {E A} (e : E) : pres (A := A) (bail e).
Proof. by intros s Hs. Qed.
Lemma pres_assert {E} b : pres (E := E) (assertM b).
Proof. intros s Hs. by destruct b. Qed.
Lemma pres_when {E} c (m : M S E unit) : pres m → pres (whenM c m).
Proof. intros Hm. destruct c; [done|]. by intros s. Qed.
Lemma pres_modify {E} f : (∀ s, view (f s) = view s) → pres (E := E) (modifyS f).
Proof. intros Hf s Hs. cbn. by rewrite Hf. Qed.
End pres.

Create HintDb pres.
#[export] Hint Resolve pres_lift pres_ret pres_bail pres_assert pres_when : pres.

(** Following the structure of a method. *)
Ltac pres_step :=
  match goal with
  | |- pres _ _ (getS ≫= _) => apply pres_get; intros ? ?
  | |- pres _ _ (_ ≫= _) => apply pres_bind; [|intros ?]
  | |- pres _ _ (whenM _ _) => apply pres_when
  | |- pres _ _ (modifyS _) => apply pres_modify; intros ?
  | |- pres _ _ _ => progress cbv beta zeta
  | |- pres _ _ (match ?b with _ => _ end) => destruct b
  end.

Section timeline.
Context {C W E : Type} `{ControlStorageLaws C} `{WalStore W E}.
Abbreviation SK := (SafeKeeper.t C W).
Abbreviation TL := (StateSK.t C W).

(** The eviction state and the ids. *)
Definition fixed (s : TimelinePersistentState) : EvictionState * bytes * bytes := (eviction_state s, tenant_id s, timeline_id s).
Definition evicted (s : TimelineState.t C) : EvictionState * bytes * bytes := fixed (TimelineState.deref s).
Definition sk_evicted (self : SK) : EvictionState * bytes * bytes := evicted (SafeKeeper.state self).

(** * The state machine leaves the eviction state *)

Lemma pres_finish v s : fixed s = v → pres evicted v (TimelineState.finish_change s).
Proof.
  intros Es ts Hts. pose proof (finish_change_spec s ts) as Hf. unfold wp in Hf. unfold evicted in *.
  destruct Hf as [(-> & _)|(-> & _)]; done.
Qed.

Lemma pres_state {A} v (m : M (TimelineState.t C) ControlError A) : pres evicted v m → pres sk_evicted v (SafeKeeper.on_state (E := E) m).
Proof. intros Hm self Hs. unfold SafeKeeper.on_state, sk_evicted in *. specialize (Hm _ Hs). by destruct (m (SafeKeeper.state self)). Qed.
Lemma pres_wal {A} v (m : M W E A) : pres sk_evicted v (SafeKeeper.on_wal m).
Proof. intros self Hs. unfold SafeKeeper.on_wal. by destruct (m (SafeKeeper.wal_store self)). Qed.

Lemma pres_flush v : pres evicted v TimelineState.flush.
Proof. unfold TimelineState.flush. pres_step. by apply pres_finish. Qed.
Lemma pres_bump v to : pres evicted v (TimelineState.term_bump to).
Proof. unfold TimelineState.term_bump. repeat pres_step; auto with pres. by apply pres_finish. Qed.
Lemma pres_switch v to : pres evicted v (TimelineState.membership_switch to).
Proof. unfold TimelineState.membership_switch. repeat pres_step; auto with pres. by apply pres_finish. Qed.
Hint Resolve pres_flush : pres.
Lemma pres_positions v info : pres evicted v (StateSK.record_positions info).
Proof. unfold StateSK.record_positions. repeat pres_step; auto with pres. Qed.
Hint Resolve pres_finish pres_state pres_wal pres_flush pres_switch pres_positions : pres.

Lemma pres_update_commit v c : pres sk_evicted v (SafeKeeper.update_commit_lsn c).
Proof. unfold SafeKeeper.update_commit_lsn. repeat pres_step; auto with pres. Qed.
Hint Resolve pres_update_commit : pres.

Lemma pres_info v info : pres sk_evicted v (SafeKeeper.record_safekeeper_info info).
Proof. unfold SafeKeeper.record_safekeeper_info. repeat pres_step; auto with pres. Qed.

Lemma pres_process v msg : pres sk_evicted v (SafeKeeper.process_msg msg).
Proof.
  destruct msg; cbn [SafeKeeper.process_msg].
  - unfold SafeKeeper.handle_greeting. repeat pres_step; auto with pres.
  - unfold SafeKeeper.handle_vote_request. repeat pres_step; auto with pres.
  - unfold SafeKeeper.handle_elected. repeat pres_step; auto with pres.
  - unfold SafeKeeper.handle_append_request. repeat pres_step; auto with pres.
  - unfold SafeKeeper.handle_append_request. repeat pres_step; auto with pres.
  - unfold SafeKeeper.handle_flush. repeat pres_step; auto with pres.
Qed.

(** * Runs of a timeline *)

Context (my_id : NodeId).

Inductive TlOp :=
  | OpMsg (msg : ProposerAcceptorMessage)
  | OpInfo (info : SafekeeperTimelineInfo)
  | OpBump (to : option Term)
  | OpSwitch (to : Configuration)
  | OpSave
  | OpOffload (partial : PartialRemoteSegment)
  | OpPresent (opened : TimelinePersistentState → result E W).

Definition run_tl (op : TlOp) : M TL (TlError E) unit :=
  match op with
  | OpMsg msg => _ ← StateSK.safekeeper (SafeKeeper.process_msg msg); mret tt
  | OpInfo info => StateSK.record_safekeeper_info info
  | OpBump to => _ ← StateSK.term_bump to; mret tt
  | OpSwitch to => _ ← StateSK.membership_switch to; mret tt
  | OpSave => StateSK.on_state TimelineState.flush
  | OpOffload partial => StateSK.switch_to_offloaded partial
  | OpPresent opened => StateSK.switch_to_present opened my_id
  end.

(** The enum agrees with the control file. *)
Definition tl_ok (self : TL) : Prop :=
  ∃ e t1 t2, t1 ≠ replicate 16 0 ∧ t2 ≠ replicate 16 0 ∧
    match self with
    | StateSK.Loaded sk => sk_evicted sk = (e, t1, t2) ∧ e = Present
    | StateSK.Offloaded s => evicted s = (e, t1, t2) ∧ ∃ l, e = Offloaded l
    | StateSK.Empty => False
    end.

Definition tl_view (self : TL) : option (bool * (EvictionState * bytes * bytes)) :=
  match self with StateSK.Loaded sk => Some (true, sk_evicted sk) | StateSK.Offloaded s => Some (false, evicted s) | StateSK.Empty => None end.

Lemma tl_ok_view self self' : tl_view self' = tl_view self → tl_ok self → tl_ok self'.
Proof.
  intros Ev (e & t1 & t2 & H1' & H2' & Hm). exists e, t1, t2. split_and!; [done..|]. destruct self as [sk|s|], self' as [sk'|s'|]; cbn in *; try done;
    [assert (sk_evicted sk' = sk_evicted sk) as -> by congruence|assert (evicted s' = evicted s) as -> by congruence]; done.
Qed.

Lemma keeps_pres {S V} (view : S → V) {X A} (m : M S X A) : (∀ v, pres view v m) → ∀ s, view (m s).2 = view s.
Proof. intros Hm s. by apply (Hm (view s)). Qed.

Lemma tl_on_state {A} (m : M (TimelineState.t C) ControlError A) self :
  (∀ v, pres evicted v m) → tl_view (StateSK.on_state (E := E) m self).2 = tl_view self.
Proof.
  intros Hm. destruct self as [sk|s|]; cbn; [|by specialize (keeps_pres _ m Hm s); destruct (m s); cbn; intros ->|done].
  pose proof (keeps_pres _ _ (λ v, pres_state v m (Hm v)) sk) as Hk. destruct (SafeKeeper.on_state m sk); cbn in *. by rewrite Hk.
Qed.
Lemma tl_safekeeper {A} (m : M SK (SkError E) A) self :
  (∀ v, pres sk_evicted v m) → tl_view (StateSK.safekeeper m self).2 = tl_view self.
Proof. intros Hm. destruct self as [sk|s|]; cbn; [|done..]. specialize (keeps_pres _ m Hm sk). destruct (m sk); cbn. by intros ->. Qed.

(** ** Eviction *)

(** Storing a state with another eviction state, in either form. *)
Lemma offload_step partial self :
  tl_ok self →
  wp (StateSK.switch_to_offloaded partial) (λ r self', r ≠ Panic ∧ tl_ok self' ∧
    (r = Ok tt → ∃ sk s, self = StateSK.Loaded sk ∧ self' = StateSK.Offloaded s ∧
       TimelineState.deref s = with_eviction (Offloaded (ws_flush_lsn (SafeKeeper.wal_store sk))) (TimelineState.start_change (SafeKeeper.state sk)) ∧
       TimelineState.inmem s = TimelineState.inmem (SafeKeeper.state sk))) self.
Proof.
  intros Hok. pose proof Hok as (e & t1 & t2 & Ht1 & Ht2 & Hm). unfold wp, StateSK.switch_to_offloaded, mbind, M_bind, getS, liftR.
  destruct self as [sk|s|]; cbn [StateSK.state]; [| |done].
  - destruct Hm as [Es ->]. rewrite bool_decide_true by (by injection Es). cbn [negb StateSK.flush_lsn].
    destruct (_ =? _); cbn [negb]; [|by split_and!]. destruct (_ =? _); cbn [negb]; [|by split_and!].
    cbn [StateSK.last_log_term StateSK.state StateSK.flush_lsn mbind result_bind]. destruct (_ =? _); cbn [negb]; [|by split_and!].
    set (s' := with_eviction _ _). pose proof (finish_change_spec s' (SafeKeeper.state sk)) as Hf. unfold wp in Hf.
    unfold StateSK.on_state, SafeKeeper.on_state. destruct (TimelineState.finish_change s' (SafeKeeper.state sk)) as [r ts]. cbn [fst snd] in Hf.
    destruct Hf as [(E1 & E2 & (x & ->) & _)|(E1 & E2 & -> & _)]; cbn.
    + split_and!; [done| |done]. exists Present, t1, t2. split_and!; [done|done| |done]. unfold sk_evicted, evicted in *. cbn. by rewrite E1.
    + split_and!; [done| |].
      * eexists _, t1, t2. split_and!; [done|done| |by eexists]. cbn. unfold evicted. rewrite E1. injection Es as E3 E4 E5.
        unfold fixed. cbn. by rewrite E4, E5.
      * intros _. exists sk, ts. split_and!; [done|done|done|]. rewrite E2. subst s'. unfold mem_of. cbn. by destruct (TimelineState.inmem (SafeKeeper.state sk)).
  - destruct Hm as [Es [l ->]]. rewrite bool_decide_false; [by split_and!|]. injection Es as E1 _ _. cbn. by rewrite E1.
Qed.

Lemma present_step opened self :
  tl_ok self →
  wp (StateSK.switch_to_present opened my_id) (λ r self', (∀ s, opened s ≠ Panic) → r ≠ Panic ∧ tl_ok self' ∧
    (r = Ok tt → ∃ s sk, self = StateSK.Offloaded s ∧ self' = StateSK.Loaded sk ∧
       Ok (ws_flush_lsn (SafeKeeper.wal_store sk)) = StateSK.flush_lsn (E := E) self ∧ opened (TimelineState.deref s) = Ok (SafeKeeper.wal_store sk) ∧
       SafeKeeper.ps sk = with_eviction Present (TimelineState.start_change s) ∧ SafeKeeper.mem sk = TimelineState.inmem s)) self.
Proof.
  intros Hok. pose proof Hok as (e & t1 & t2 & Ht1 & Ht2 & Hm). unfold wp, StateSK.switch_to_present, mbind, M_bind, getS, liftR.
  intros Hop. assert (∃ s, StateSK.state (E := E) self = Ok s ∧ fixed (TimelineState.deref s) = (e, t1, t2)) as (s & Es & Ef).
  { destruct self as [sk|s|]; [exists (SafeKeeper.state sk)|exists s|done]; destruct Hm as [? _]; done. }
  rewrite Es. specialize (Hop (TimelineState.deref s)). destruct (opened (TimelineState.deref s)) as [w|x|] eqn:Eo; cbn [map_err]; [|by split_and!|done].
  change (eviction_state (TimelineState.start_change s)) with (fixed (TimelineState.deref s)).1.1. rewrite Ef. cbn [fst].
  destruct e as [|l]; cbn [negb]; [by split_and!|]. destruct self as [sk|s1|]; [by destruct Hm as [_ ?]| |done]. injection Es as ->.
  pose proof Ef as [= Ee E1' E2']. cbn [StateSK.flush_lsn]. rewrite Ee. destruct (Z.eqb_spec (ws_flush_lsn w) l) as [El|]; cbn [negb]; [|by split_and!].
  set (s' := with_eviction _ _). pose proof (finish_change_spec s' s) as Hf. unfold wp in Hf.
  unfold StateSK.on_state. destruct (TimelineState.finish_change s' s) as [r ts]. cbn [fst snd] in Hf.
  destruct Hf as [(E1 & E2 & (x & ->) & _)|(E1 & E2 & -> & _)]; cbn.
  - split_and!; [done| |done]. exists (Offloaded l), t1, t2. split_and!; [done|done| |by eexists]. unfold evicted. by rewrite E1.
  - unfold SafeKeeper.new. rewrite E1. change (tenant_id s') with (tenant_id (TimelineState.deref s)). change (timeline_id s') with (timeline_id (TimelineState.deref s)).
    rewrite E1', E2', !bool_decide_false by done. cbn. split_and!; [done| |].
    + exists Present, t1, t2. split_and!; [done|done| |done]. unfold sk_evicted, evicted. cbn. rewrite E1. unfold fixed. cbn. by rewrite E1', E2'.
    + intros _. eexists s, _. split_and!; [done|done| | | |]; cbn.
      * by rewrite El.
      * done.
      * exact E1.
      * unfold SafeKeeper.mem. cbn. rewrite E2. subst s'. unfold mem_of. cbn. by destruct (TimelineState.inmem s).
Qed.

(** ** Every operation *)

Definition op_total (op : TlOp) : Prop := match op with OpPresent opened => ∀ s, opened s ≠ Panic | _ => True end.

Lemma view_bind {X A B} (m : M TL X A) (f : A → M TL X B) self :
  tl_view (m self).2 = tl_view self → (∀ a self', tl_view self' = tl_view self → tl_view (f a self').2 = tl_view self) →
  tl_view ((m ≫= f) self).2 = tl_view self.
Proof. intros Hm Hf. unfold mbind, M_bind. destruct (m self) as [[a|e|] self1]; cbn in *; [by apply Hf|done..]. Qed.

Lemma tl_record info self : tl_view (StateSK.record_safekeeper_info (E := E) info self).2 = tl_view self.
Proof.
  apply view_bind; [|intros a self' <-; apply tl_on_state; intros v; apply pres_positions].
  destruct self as [sk|s|]; cbn; [|done..]. pose proof (keeps_pres _ _ (λ v, pres_info v info) sk) as Hk.
  destruct (SafeKeeper.record_safekeeper_info info sk); cbn in *. by rewrite Hk.
Qed.

Lemma run_tl_ok op self : op_total op → tl_ok self → tl_ok (run_tl op self).2.
Proof.
  intros Ht Hok. destruct op as [msg|info|to|to| |partial|opened]; cbn [run_tl].
  - apply (tl_ok_view self); [|done]. apply view_bind; [apply tl_safekeeper; intros v; apply pres_process|done].
  - apply (tl_ok_view self); [apply tl_record|done].
  - apply (tl_ok_view self); [|done]. apply view_bind; [apply tl_on_state; intros v; apply pres_bump|done].
  - apply (tl_ok_view self); [|done]. apply view_bind; [|done]. apply view_bind; [apply tl_on_state; intros v; apply pres_switch|].
    intros a self' Hv. unfold mbind, M_bind, getS, liftR. destruct (StateSK.flush_lsn self'); [|done..]. by destruct (StateSK.last_log_term self').
  - apply (tl_ok_view self); [apply tl_on_state; intros v; apply pres_flush|done].
  - apply (offload_step partial self Hok).
  - by apply (present_step opened self Hok).
Qed.

Inductive tl_reaches (self0 : TL) : TL → Prop :=
  | tl_start : tl_reaches self0 self0
  | tl_op self op : tl_reaches self0 self → op_total op → tl_reaches self0 (run_tl op self).2.

Lemma reaches_tl_ok self0 self : tl_ok self0 → tl_reaches self0 self → tl_ok self.
Proof. intros H0'. induction 1; [done|by apply run_tl_ok]. Qed.

Lemma restore_ok (opened : TimelinePersistentState → result E W) c self :
  StateSK.restore opened my_id c = Ok self → tenant_id (cs_state c) ≠ replicate 16 0 → timeline_id (cs_state c) ≠ replicate 16 0 → tl_ok self.
Proof.
  intros Hr H1' H2'. unfold StateSK.restore in Hr. destruct (_ =? 0); [done|]. eexists _, _, _. split_and!; [exact H1'|exact H2'|].
  destruct (eviction_state (cs_state c)) as [|l] eqn:Ee; [|injection Hr as <-; unfold evicted, fixed; cbn; split; [done|by exists l]].
  destruct (map_err _ (opened (cs_state c))) as [w|x|]; [|done..]. cbn in Hr. unfold SafeKeeper.new in Hr.
  destruct (_ || _); [done|]. injection Hr as <-. unfold sk_evicted, evicted, fixed. by cbn.
Qed.

(** C15: The enum of a timeline always agrees with its control file: whatever messages,
    peer information, requests, evictions and returns it has seen, failures of the
    control file and of the WAL included, it is loaded exactly when the control file
    says that the WAL is present, so that asking for its flush LSN, its last log
    term or its state for the broker never panics. *)
Theorem eviction_state_agrees (opened : TimelinePersistentState → result E W) c self0 self standby :
  StateSK.restore opened my_id c = Ok self0 → tenant_id (cs_state c) ≠ replicate 16 0 → timeline_id (cs_state c) ≠ replicate 16 0 →
  tl_reaches self0 self →
  (∃ l t info, StateSK.flush_lsn (E := E) self = Ok l ∧ StateSK.last_log_term (E := E) self = Ok t ∧
     StateSK.get_safekeeper_info (E := E) standby self = Ok info) ∧
  match self with
  | StateSK.Loaded sk => eviction_state (SafeKeeper.ps sk) = Present
  | StateSK.Offloaded s => eviction_state (TimelineState.deref s) ≠ Present
  | StateSK.Empty => False
  end.
Proof.
  intros Hr H1' H2' Hreach. destruct (reaches_tl_ok _ _ (restore_ok _ _ _ Hr H1' H2') Hreach) as (e & t1 & t2 & _ & _ & Hm).
  destruct self as [sk|s|]; [| |done].
  - destruct Hm as [[= Ee _ _] ->]. split; [by eexists _, _, _|done].
  - destruct Hm as [[= Ee _ _] (l & ->)]. split; [|by rewrite Ee]. eexists l, _, _. unfold StateSK.get_safekeeper_info, StateSK.last_log_term. cbn. by rewrite Ee.
Qed.

(** C16: Eviction and return keep a timeline: when both succeed, the state machine has the
    persistent state and the positions in memory from before, stored in the control
    file, and its flush LSN, last log term and term history. *)
Theorem eviction_roundtrip partial (opened : TimelinePersistentState → result E W) sk self1 self2 :
  eviction_state (SafeKeeper.ps sk) = Present → tenant_id (SafeKeeper.ps sk) ≠ replicate 16 0 → timeline_id (SafeKeeper.ps sk) ≠ replicate 16 0 →
  (∀ s, opened s ≠ Panic) →
  StateSK.switch_to_offloaded (E := E) partial (StateSK.Loaded sk) = (Ok tt, self1) →
  StateSK.switch_to_present opened my_id self1 = (Ok tt, self2) →
  ∃ sk2, self2 = StateSK.Loaded sk2 ∧ SafeKeeper.ps sk2 = TimelineState.start_change (SafeKeeper.state sk) ∧
    SafeKeeper.mem sk2 = SafeKeeper.mem sk ∧ ws_flush_lsn (SafeKeeper.wal_store sk2) = ws_flush_lsn (SafeKeeper.wal_store sk) ∧
    SafeKeeper.get_term_history sk2 = SafeKeeper.get_term_history sk.
Proof.
  intros Hp H1' H2' Hop E1 E2. assert (tl_ok (StateSK.Loaded sk)) as Hok.
  { eexists _, _, _. split_and!; [exact H1'|exact H2'|done|exact Hp]. }
  pose proof (offload_step partial _ Hok) as Ho. unfold wp in Ho. rewrite E1 in Ho. cbn [fst snd] in Ho. destruct Ho as (_ & Hok1 & Ho).
  destruct (Ho eq_refl) as (sk' & s & [= <-] & -> & Ed & Em).
  pose proof (present_step opened _ Hok1) as Hpr. unfold wp in Hpr. rewrite E2 in Hpr. cbn [fst snd] in Hpr. destruct (Hpr Hop) as (_ & _ & Hpr2).
  destruct (Hpr2 eq_refl) as (s' & sk2 & [= <-] & -> & Ef & _ & Eps & Emem). exists sk2.
  assert (SafeKeeper.ps sk2 = TimelineState.start_change (SafeKeeper.state sk)) as Eps'.
  { rewrite Eps. unfold TimelineState.start_change. rewrite Ed, Em. unfold with_eviction. cbn. rewrite <-Hp. done. }
  assert (ws_flush_lsn (SafeKeeper.wal_store sk2) = ws_flush_lsn (SafeKeeper.wal_store sk)) as Efl.
  { cbn in Ef. rewrite Ed in Ef. by injection Ef. }
  split_and!; [done|done|by rewrite Emem, Em|done|]. unfold SafeKeeper.get_term_history, SafeKeeper.flush_lsn. by rewrite Eps', Efl.
Qed.
End timeline.
