(* ===== verification/SafeKeeperRuns.v ===== *)
(** Runs of a safekeeper with its control file and its WAL on disk: messages,
    information from peers, administrative requests, failures of every system
    call, crashes and restarts in any order; at the end evaluated runs, one of them of a
    timeline that is evicted and brought back. *)

From S2P Require Import Prelude Text Lsns Membership TermHistories WalDecoders SkStates WalStorages WalEndFacts WalStorageFacts.
From S2P Require Import WalDiskFacts WalStorageSafety SafeKeepers Timelines SafeKeeperFacts TimelineFacts.
From stdpp Require Import gmap.
Local Open Scope Z_scope.

(** * The storages *)

Definition store_inv (w : PhysicalStorage.t) : Prop := wal_inv w ∧ seg_inv w.

Section store.
Context `{WalLayoutLaws} (generate_wal_segment : Z → Lsn → bytes).

(** [PhysicalStorage] implements the trait. *)
Definition physical_store : WalStore PhysicalStorage.t WalError := {|
  ws_write_lsn := PhysicalStorage.write_lsn;
  ws_flush_lsn := PhysicalStorage.flush_record_lsn;
  ws_initialize_first_segment := PhysicalStorage.initialize_first_segment generate_wal_segment;
  ws_write_wal := PhysicalStorage.write_wal;
  ws_truncate_wal := PhysicalStorage.truncate_wal;
  ws_flush_wal := PhysicalStorage.flush_wal
|}.
#[local] Existing Instance physical_store.

#[local] Instance physical_store_laws : WalStoreLaws PhysicalStorage.t WalError store_inv.
Proof.
  split; cbn.
  - intros start buf w [Hi Hs] Hlim. eapply wp_mono; [by apply write_wal_disk|]. by intros r w' (? & ? & ? & ? & _).
  - intros w [Hi Hs]. eapply wp_mono; [by apply flush_wal_disk|]. by intros r w' (? & ? & ? & ? & _).
  - intros e w [Hi Hs] He. eapply wp_mono; [by apply truncate_wal_disk|].
    intros r w' (? & ? & ? & [? _]). split_and!; [done|by split; auto|done].
  - intros l w [Hi Hs] Hl. eapply wp_mono; [by apply initialize_disk|]. by intros r w' (? & ? & ? & ? & _).
  - intros w [Hi Hs]. pose proof Hi as [_ _ _ Hw _ Hr _ _ Hse _ _].
    pose proof (segment_end_limit (PhysicalStorage.write_lsn w) ltac:(lia)). lia.
Qed.

(** * Steps *)

Abbreviation Sk := (SafeKeeper.t FileStorage.t PhysicalStorage.t).

(** What a crash leaves of the disk: every byte that is not durable may be lost. *)
Definition survives (d d' : Disk) : Prop :=
  segments d' = segments d ∧ ∀ l, seen d' l = durable d' l ∧ (durable d' l = durable d l ∨ durable d' l = seen d l).

(** Starting on a control file and a disk. *)
Definition started_on (s : TimelinePersistentState) (d : Disk) (self : Sk) : Prop :=
  ∃ outcomes read_io io w node,
    PhysicalStorage.new s d read_io io = Ok w ∧
    SafeKeeper.new (E := WalError) (TimelineState.new (FileStorage.restore_new s outcomes)) w node = Ok self.

Inductive step : Sk → option AcceptorProposerMessage → Sk → Prop :=
  | step_msg msg self r self' :
      msg_ok msg → SafeKeeper.process_msg msg self = (r, self') → r ≠ Panic →
      step self (match r with Ok o => o | _ => None end) self'
  | step_info info self r self' :
      SafeKeeper.record_safekeeper_info info self = (r, self') → r ≠ Panic → step self None self'
  | step_bump to self r self' :
      SafeKeeper.on_state (E := WalError) (TimelineState.term_bump to) self = (r, self') → r ≠ Panic → step self None self'
  | step_switch conf self r self' :
      SafeKeeper.on_state (E := WalError) (TimelineState.membership_switch conf) self = (r, self') → r ≠ Panic → step self None self'
  | step_save self r self' :
      SafeKeeper.on_state (E := WalError) TimelineState.flush self = (r, self') → r ≠ Panic → step self None self'
  | step_restart self self1 d self' :
      (* after a crash, or after a panic *)
      self1 = self ∨ (∃ msg, msg_ok msg ∧ SafeKeeper.process_msg msg self = (Panic, self1)) →
      survives (PhysicalStorage.disk (SafeKeeper.wal_store self1)) d → started_on (disk_state self1) d self' →
      step self None self'.

(** A run, with the replies it sent, the last one first. *)
Inductive runs (self0 : Sk) : list AcceptorProposerMessage → Sk → Prop :=
  | runs_start : runs self0 [] self0
  | runs_step tr self o self' : runs self0 tr self → step self o self' → runs self0 (option_list o ++ tr) self'.

(** * What holds in every run *)

Definition run_inv (self : Sk) : Prop := log_inv (inv := store_inv) self ∧ disk_ok self.

Lemma started_on_inv s d self :
  state_ok s → disk_in_range d → started_on s d self →
  run_inv self ∧ SafeKeeper.ps self = s ∧ commit_lsn s ≤ SafeKeeper.flush_lsn self.
Proof.
  intros Hs Hd (outcomes & read_io & io & w & node & Ew & En).
  assert (openable s d) as Ho by (destruct Hs; by split).
  pose proof (new_spec s d read_io io Ho) as Hn. rewrite Ew in Hn. destruct Hn as (Hi & Hse & Hc & _).
  unfold SafeKeeper.new in En. destruct (_ || _); [done|]. injection En as <-.
  assert (commit_lsn s ≤ SafeKeeper.flush_lsn (SafeKeeper.Mk 0 (TimelineState.new (FileStorage.restore_new s outcomes)) w node)) as Hf
    by (unfold SafeKeeper.flush_lsn; cbn; lia).
  split_and!; [|done|done]. split; [|split_and!; [apply Z.le_refl|apply Z.le_refl|done]].
  split; [by split|done|apply Z.le_refl|exact Hf].
Qed.

Lemma step_inv self o self' :
  run_inv self → step self o self' →
  run_inv self' ∧ SafeKeeper.acceptor_term self ≤ SafeKeeper.acceptor_term self' ∧
  (∀ v, o = Some (AVoteResponse v) → vote_given v = true →
     SafeKeeper.acceptor_term self < vs_term v ≤ SafeKeeper.acceptor_term self').
Proof.
  intros [Hl Hd] Hstep.
  assert (∀ A (m : M Sk (SkError WalError) A) p r self1, safe (inv := store_inv) p m self → m self = (r, self1) →
    disk_ok self1 ∧ store_inv (SafeKeeper.wal_store self1) ∧ SafeKeeper.acceptor_term self ≤ SafeKeeper.acceptor_term self1 ∧
    (r ≠ Panic → run_inv self1)) as Hsafe.
  { intros A m p r self1 Hm Em. specialize (Hm Hl). unfold wp in Hm. rewrite Em in Hm. cbn in Hm.
    destruct Hm as (_ & (T & _ & D & I) & L). split_and!; [auto|done|done|]. intros Hr. split; [by apply L|auto]. }
  inversion Hstep as [msg ? r ? Hm E Hr|info ? r ? E Hr|to ? r ? E Hr|conf ? r ? E Hr|? r ? E Hr|? self1 d ? Hcause Hsv Hst]; subst.
  - destruct (Hsafe _ _ _ _ _ (safe_process_msg msg self Hm) E) as (_ & _ & Ht & Hri). split_and!; [by apply Hri|done|].
    intros v Ev Hg. destruct r as [o| |]; [subst o|done..]. destruct (only_votes_vote _ _ _ _ E) as [m ->].
    destruct (vote_given_spec _ _ _ _ E Hg) as (? & ? & _). lia.
  - destruct (Hsafe _ _ _ _ _ (safe_record_info true info self) E) as (_ & _ & Ht & Hri). split_and!; auto; done.
  - destruct (Hsafe _ _ _ _ _ (safe_term_bump true to self) E) as (_ & _ & Ht & Hri). split_and!; auto; done.
  - destruct (Hsafe _ _ _ _ _ (safe_membership_switch true conf self) E) as (_ & _ & Ht & Hri). split_and!; auto; done.
  - destruct (Hsafe _ _ _ _ _ (safe_flush true self) E) as (_ & _ & Ht & Hri). split_and!; auto; done.
  - assert (disk_ok self1 ∧ store_inv (SafeKeeper.wal_store self1) ∧ SafeKeeper.acceptor_term self ≤ SafeKeeper.acceptor_term self1)
      as ((D1 & D2 & D3) & [_ Hse] & Ht).
    { destruct Hcause as [->|(msg & Hm & E)]; [split_and!; [done|apply Hl|lia]|].
      by destruct (Hsafe _ _ _ _ _ (safe_process_msg msg self Hm) E) as (? & ? & ? & _). }
    assert (disk_in_range d) as Hdr by (intros k; destruct Hsv as [-> _]; apply (di_range _ Hse)).
    destruct (started_on_inv _ _ _ D3 Hdr Hst) as (Hri & Ep & _). split_and!; [done| |done].
    unfold SafeKeeper.acceptor_term at 2. rewrite Ep. lia.
Qed.

(** The terms of the votes given, the last one first. *)
Definition vote_terms (tr : list AcceptorProposerMessage) : list Term :=
  omap (λ m, match m with AVoteResponse v => if vote_given v then Some (vs_term v) else None | _ => None end) tr.

Lemma runs_inv self0 tr self :
  run_inv self0 → runs self0 tr self →
  run_inv self ∧ StronglySorted (λ a b, b < a) (vote_terms tr) ∧ Forall (λ t, t ≤ SafeKeeper.acceptor_term self) (vote_terms tr).
Proof.
  intros H0'. induction 1 as [|tr self o self' _ (Hi & Hs & Hf) Hstep]; [split_and!; [done|constructor..]|].
  destruct (step_inv self o self' Hi Hstep) as (Hi' & Ht & Hv). split; [done|].
  assert (Forall (λ t, t ≤ SafeKeeper.acceptor_term self') (vote_terms tr)) as Hf'
    by (eapply Forall_impl; [exact Hf|]; cbn; lia).
  unfold vote_terms. rewrite omap_app. fold (vote_terms tr). destruct o as [[g|v|a]|]; cbn; [by split| |by split..].
  destruct (vote_given v) eqn:Eg; [|by split]. cbn. specialize (Hv v eq_refl Eg).
  split; constructor; [done| |lia|done]. eapply Forall_impl; [exact Hf|]. cbn. lia.
Qed.

(** C7: a safekeeper votes at most once per term.  In every run, with messages,
    requests, failing system calls, panics, crashes and restarts in any order,
    the votes it gives have strictly increasing terms, and none is above the term
    that its control file on disk has. *)
Theorem one_vote_per_term s d self0 tr self :
  state_ok s → disk_in_range d → started_on s d self0 → runs self0 tr self →
  StronglySorted (λ later earlier, earlier < later) (vote_terms tr) ∧ NoDup (vote_terms tr) ∧
  Forall (λ t, t ≤ acc_term (acceptor_state (disk_state self))) (vote_terms tr).
Proof.
  intros Hs Hd Hst Hr. destruct (started_on_inv s d self0 Hs Hd Hst) as (Hi & _).
  destruct (runs_inv self0 tr self Hi Hr) as ((_ & D & _) & Hso & Hf). split_and!; [done| |].
  - clear -Hso. induction Hso as [|t l _ IH Hall]; constructor; [|done]. intros Hin. rewrite Forall_forall in Hall.
    specialize (Hall t Hin). lia.
  - eapply Forall_impl; [exact Hf|]. intros x Hx. cbv beta in Hx. lia.
Qed.

(** C8: in every run the committed position that is persisted is at most the one
    in memory, and that is at most the position up to which the WAL is flushed;
    the WAL storage stays in order; and no message except the announcement of an
    elected proposer, nor information from a peer, makes the safekeeper panic:
    the assertion that the committed position never moves back holds. *)
Theorem commit_within_flushed s d self0 tr self :
  state_ok s → disk_in_range d → started_on s d self0 → runs self0 tr self →
  commit_lsn (SafeKeeper.ps self) ≤ mem_commit_lsn (SafeKeeper.mem self) ≤ SafeKeeper.flush_lsn self ∧
  store_inv (SafeKeeper.wal_store self) ∧
  (∀ msg, msg_ok msg → match msg with Elected _ => True | _ => (SafeKeeper.process_msg msg self).1 ≠ Panic end) ∧
  (∀ info, (SafeKeeper.record_safekeeper_info info self).1 ≠ Panic).
Proof.
  intros Hs Hd Hst Hr. destruct (started_on_inv s d self0 Hs Hd Hst) as (Hi & _).
  destruct (runs_inv self0 tr self Hi Hr) as ((Hl & _) & _). pose proof Hl as [Hw _ Hp Hf]. split_and!; [done..| |].
  - intros msg Hm. destruct (safe_process_msg msg self Hm Hl) as [Hnp _]. destruct msg; by try apply Hnp.
  - intros info. destruct (safe_record_info false info self Hl) as [Hnp _]. by apply Hnp.
Qed.
End store.

(** * A run: a vote, a crash, the same request again *)

#[local] Existing Instance example_layout.
#[local] Existing Instance example_layout_laws.
#[local] Existing Instance physical_store.

Abbreviation example_store := (physical_store example_segment).

Definition example_sk (s : TimelinePersistentState) : SafeKeeper.t FileStorage.t PhysicalStorage.t :=
  SafeKeeper.Mk 0 (TimelineState.new (FileStorage.restore_new s [])) example_opened 1.

Definition example_vote (self : SafeKeeper.t FileStorage.t PhysicalStorage.t) :=
  SafeKeeper.process_msg (H0 := example_store) (VoteRequestMsg (MkVoteRequest 1 5)) self.

Definition reply_of {A} (r : result (SkError WalError) (option A)) : option A := match r with Ok o => o | _ => None end.

Definition example_sk1 := (example_vote (example_sk example_state)).2.
Definition example_sk2 := example_sk (disk_state example_sk1).
Definition example_trace : list AcceptorProposerMessage :=
  option_list (reply_of (example_vote example_sk2).1) ++ option_list (reply_of (example_vote (example_sk example_state)).1).

Lemma example_state_ok : state_ok example_state.
Proof. split; [cbn; unfold LSN_LIMIT; lia|cbn; unfold LSN_LIMIT; lia|done|by eexists]. Qed.

Lemma example_started s : s = example_state ∨ s = disk_state example_sk1 → started_on s example_disk (example_sk s).
Proof.
  intros Hs. exists [], [], [], example_opened, 1. split.
  - destruct Hs as [->| ->]; [apply example_new|by vm_compute].
  - destruct Hs as [->| ->]; by vm_compute.
Qed.

Lemma example_run : runs example_segment (example_sk example_state) example_trace (example_vote example_sk2).2.
Proof.
  assert (∀ self, (example_vote self).1 ≠ Panic → step example_segment self (reply_of (example_vote self).1) (example_vote self).2) as Hvote.
  { intros self Hp. unfold reply_of. apply (step_msg _ (VoteRequestMsg (MkVoteRequest 1 5))); [exact I|apply surjective_pairing|done]. }
  apply (runs_step _ _ (option_list (reply_of (example_vote (example_sk example_state)).1)) example_sk2); [|apply Hvote; by vm_compute].
  apply (runs_step _ _ (option_list (reply_of (example_vote (example_sk example_state)).1)) example_sk1 None).
  - rewrite <-(app_nil_r (option_list _)). apply (runs_step _ _ [] (example_sk example_state)); [constructor|apply Hvote; by vm_compute].
  - apply (step_restart _ example_sk1 example_sk1 example_disk); [by left| |apply example_started; by right].
    split; [by vm_compute|]. intros l. split; [done|]. by left.
Qed.

Lemma one_vote_per_term_witness :
  vote_terms example_trace = [5] ∧ length example_trace = 2%nat ∧
  StronglySorted (λ later earlier, earlier < later) (vote_terms example_trace) ∧ NoDup (vote_terms example_trace) ∧
  Forall (λ t, t ≤ acc_term (acceptor_state (disk_state (example_vote example_sk2).2))) (vote_terms example_trace).
Proof.
  split; [by vm_compute|]. split; [by vm_compute|].
  apply (one_vote_per_term example_segment example_state example_disk (example_sk example_state));
    [apply example_state_ok|apply example_openable|apply example_started; by left|apply example_run].
Defined.

Lemma commit_within_flushed_witness :
  let self := (example_vote example_sk2).2 in
  commit_lsn (SafeKeeper.ps self) ≤ mem_commit_lsn (SafeKeeper.mem self) ≤ SafeKeeper.flush_lsn (H0 := example_store) self ∧
  store_inv (SafeKeeper.wal_store self) ∧
  (∀ msg, msg_ok msg → match msg with Elected _ => True | _ => (SafeKeeper.process_msg (H0 := example_store) msg self).1 ≠ Panic end) ∧
  (∀ info, (SafeKeeper.record_safekeeper_info (H0 := example_store) info self).1 ≠ Panic).
Proof.
  apply (commit_within_flushed example_segment example_state example_disk (example_sk example_state) example_trace);
    [apply example_state_ok|apply example_openable|apply example_started; by left|apply example_run].
Defined.

Definition example_append : ProposerAcceptorMessage :=
  AppendRequestMsg (MkAppendRequest (MkAppendRequestHeader 1 1 72 104 104 40) example_record).
Definition example_leader_sk : SafeKeeper.t FileStorage.t PhysicalStorage.t :=
  SafeKeeper.Mk 0 (TimelineState.new (FileStorage.restore_new example_state [])) example_truncated 1.

Lemma only_current_leader_writes_witness :
  PhysicalStorage.write_lsn (SafeKeeper.wal_store (SafeKeeper.process_msg (H0 := example_store) example_append example_leader_sk).2) = 104 ∧
  may_write (H1 := example_store) example_append example_leader_sk.
Proof.
  assert (PhysicalStorage.write_lsn (SafeKeeper.wal_store (SafeKeeper.process_msg (H0 := example_store) example_append example_leader_sk).2) = 104) as E
    by (by vm_compute).
  split; [exact E|]. eapply (only_current_leader_writes example_append example_leader_sk); [apply surjective_pairing|].
  intros Ew. apply (f_equal PhysicalStorage.write_lsn) in Ew. rewrite E in Ew. done.
Defined.

(** * A timeline that is evicted and brought back, on files *)

#[local] Instance evict_store : WalStore PhysicalStorage.t WalError := physical_store example_segment.

Definition evict_sk : SafeKeeper.t FileStorage.t PhysicalStorage.t := example_sk example_state.
Definition evict_partial : PartialRemoteSegment := MkPartialRemoteSegment Uploaded [] 40 72 1.
(** The segments are downloaded to a disk like the one before. *)
Definition evict_open (s : TimelinePersistentState) : result WalError PhysicalStorage.t := Ok example_opened.

Definition evict1 := (StateSK.switch_to_offloaded (E := WalError) evict_partial (StateSK.Loaded evict_sk)).2.
Definition evict2 := (StateSK.switch_to_present evict_open 1 evict1).2.

Lemma eviction_roundtrip_witness :
  StateSK.flush_lsn (E := WalError) evict1 = Ok 72 ∧
  ∃ sk2, evict2 = StateSK.Loaded sk2 ∧ SafeKeeper.ps sk2 = TimelineState.start_change (SafeKeeper.state evict_sk) ∧
    SafeKeeper.mem sk2 = SafeKeeper.mem evict_sk ∧ ws_flush_lsn (SafeKeeper.wal_store sk2) = ws_flush_lsn (SafeKeeper.wal_store evict_sk) ∧
    SafeKeeper.get_term_history sk2 = SafeKeeper.get_term_history evict_sk.
Proof.
  split; [by vm_compute|]. apply (eviction_roundtrip 1 evict_partial evict_open evict_sk evict1 evict2); done.
Defined.

Lemma eviction_state_agrees_witness :
  (∃ l t info, StateSK.flush_lsn (E := WalError) evict1 = Ok l ∧ StateSK.last_log_term (E := WalError) evict1 = Ok t ∧
     StateSK.get_safekeeper_info (E := WalError) 0 evict1 = Ok info) ∧
  match evict1 with
  | StateSK.Loaded sk => eviction_state (SafeKeeper.ps sk) = Present
  | StateSK.Offloaded s => eviction_state (TimelineState.deref s) ≠ Present
  | StateSK.Empty => False
  end.
Proof.
  apply (eviction_state_agrees 1 evict_open (FileStorage.restore_new example_state []) (StateSK.Loaded evict_sk) evict1 0); [by vm_compute|done|done|].
  apply (tl_op 1 _ _ (OpOffload evict_partial)); [constructor|done].
Defined.
