(* ===== verification/WalProposers.v ===== *)
(** The proposer of the consensus, which runs in the compute:
    [pgxn/neon/walproposer.c] with the structs of [walproposer.h].

    The structs of messages and configurations pair those of the safekeeper and
    are the same records here; an absent [new_members] and one of length zero are
    the same for the proposer.  A pointer to a safekeeper is its index in the
    array of connections.  Callbacks of [walproposer_api] take their outcome from
    the lists [io] (calls on connections) and [inbox] (what reading a connection
    gives); an empty list means success, or nothing to read.  What is written to
    a connection is appended to [outbox].  [FATAL] and [PANIC] end the process and
    are errors, and so is the end of sync-safekeepers; reading freed memory is a
    panic.  Assertions are off, as in a release build; logging, metrics and the
    wait event set are left out. *)

From S2P Require Import Prelude Text Lsns Membership TermHistories Feedbacks WalDecoders SkStates SafeKeepers.
Local Open Scope Z_scope.

Definition MAX_SAFEKEEPERS : nat := 32.
Definition MAX_SEND_SIZE : Z := Lsn.XLOG_BLCKSZ * 16.

(** * State *)

Inductive SafekeeperState :=
  | SS_OFFLINE | SS_CONNECTING_WRITE | SS_CONNECTING_READ | SS_WAIT_EXEC_RESULT | SS_HANDSHAKE_RECV
  | SS_WAIT_VOTING | SS_WAIT_VERDICT | SS_SEND_ELECTED_FLUSH | SS_WAIT_ELECTED | SS_ACTIVE.

#[global] Instance SafekeeperState_eq_dec : EqDecision SafekeeperState.
Proof. solve_decision. Defined.

(** The order of the enum. *)
Definition ss_rank (s : SafekeeperState) : nat :=
  match s with
  | SS_OFFLINE => 0 | SS_CONNECTING_WRITE => 1 | SS_CONNECTING_READ => 2 | SS_WAIT_EXEC_RESULT => 3
  | SS_HANDSHAKE_RECV => 4 | SS_WAIT_VOTING => 5 | SS_WAIT_VERDICT => 6 | SS_SEND_ELECTED_FLUSH => 7
  | SS_WAIT_ELECTED => 8 | SS_ACTIVE => 9
  end.

Inductive SafekeeperActiveState := SS_ACTIVE_SEND | SS_ACTIVE_READ_WAL | SS_ACTIVE_FLUSH.

#[global] Instance SafekeeperActiveState_eq_dec : EqDecision SafekeeperActiveState.
Proof. solve_decision. Defined.

Inductive WalProposerState := WPS_COLLECTING_TERMS | WPS_CAMPAIGN | WPS_ELECTED.

#[global] Instance WalProposerState_eq_dec : EqDecision WalProposerState.
Proof. solve_decision. Defined.

(** A connection slot.  [conn] numbers the connections made from it; [freed] says
    that the entries of the term history of [voteResponse] were freed. *)
Record Safekeeper := MkSafekeeper {
  sk_host : bytes;
  sk_port : bytes;
  sk_state : SafekeeperState;
  active_state : SafekeeperActiveState;
  greetResponse : AcceptorGreeting;
  voteResponse : VoteResponse;
  freed : bool;
  startStreamingAt : Lsn;
  streamingAt : Lsn;
  appendRequest : AppendRequestHeader;
  appendResponse : AppendResponse;
  conn : nat
}.

(** Outcomes of callbacks, and of reading a connection. *)
Inductive ApiResult := ApiOk | ApiReading | ApiWriting | ApiAgain | ApiFail.
Inductive ReadResult := ReadMsg (m : AcceptorProposerMessage) | ReadAgain | ReadFail.

(** The parts of [WalProposerConfig] and of the server that are used: the basebackup
    LSN, the sizes of the page headers, and whether a replica is promoted. *)
Record WalProposerConfig := MkConfig {
  neon_tenant : bytes;
  neon_timeline : bytes;
  safekeepers_list : bytes;
  wp_wal_segment_size : Z;
  syncSafekeepers : bool;
  systemId : Z;
  proto_version : Z;
  PG_VERSION_NUM : Z;
  redo_start_lsn : Lsn;
  SizeOfXLogLongPHD : Z;
  SizeOfXLogShortPHD : Z;
  replica_promote : bool
}.

Inductive WpError := Fatal | PanicRestart | SyncFinished (lsn : Lsn).

Definition of_option_panic {E A} (o : option A) : result E A := match o with Some a => Ok a | None => Panic end.

Module WalProposer.
Record t := Mk {
  config : WalProposerConfig;
  state : WalProposerState;
  wp_mconf : Configuration;
  members_safekeepers : list (option nat);
  new_members_safekeepers : list (option nat);
  wp_quorum : Z;
  safekeepers_generation : Generation;
  safekeeper : list Safekeeper;
  availableLsn : Lsn;
  commitLsn : Lsn;
  greetRequest : ProposerGreeting;
  voteRequest : VoteRequest;
  truncateLsn : Lsn;
  propTerm : Term;
  propTermHistory : TermHistory.t;
  propTermStartLsn : Lsn;
  donorLastLogTerm : Term;
  donor : option nat;
  n_connected : Z;
  (* shared memory *)
  mineLastElectedTerm : Term;
  shmem_donor : option (nat * Lsn);
  (* the environment *)
  io : list ApiResult;
  inbox : list ReadResult;
  outbox : list (nat * nat * ProposerAcceptorMessage)
}.

(** Updates of one field. *)
Definition set_state v (w : t) : t := Mk (config w) v (wp_mconf w) (members_safekeepers w) (new_members_safekeepers w)
  (wp_quorum w) (safekeepers_generation w) (safekeeper w) (availableLsn w) (commitLsn w) (greetRequest w) (voteRequest
  w) (truncateLsn w) (propTerm w) (propTermHistory w) (propTermStartLsn w) (donorLastLogTerm w) (donor w) (n_connected
  w) (mineLastElectedTerm w) (shmem_donor w) (io w) (inbox w) (outbox w).
Definition set_wp_mconf v (w : t) : t := Mk (config w) (state w) v (members_safekeepers w) (new_members_safekeepers w)
  (wp_quorum w) (safekeepers_generation w) (safekeeper w) (availableLsn w) (commitLsn w) (greetRequest w) (voteRequest
  w) (truncateLsn w) (propTerm w) (propTermHistory w) (propTermStartLsn w) (donorLastLogTerm w) (donor w) (n_connected
  w) (mineLastElectedTerm w) (shmem_donor w) (io w) (inbox w) (outbox w).
Definition set_members_safekeepers v (w : t) : t := Mk (config w) (state w) (wp_mconf w) v (new_members_safekeepers w)
  (wp_quorum w) (safekeepers_generation w) (safekeeper w) (availableLsn w) (commitLsn w) (greetRequest w) (voteRequest
  w) (truncateLsn w) (propTerm w) (propTermHistory w) (propTermStartLsn w) (donorLastLogTerm w) (donor w) (n_connected
  w) (mineLastElectedTerm w) (shmem_donor w) (io w) (inbox w) (outbox w).
Definition set_new_members_safekeepers v (w : t) : t := Mk (config w) (state w) (wp_mconf w) (members_safekeepers w) v
  (wp_quorum w) (safekeepers_generation w) (safekeeper w) (availableLsn w) (commitLsn w) (greetRequest w) (voteRequest
  w) (truncateLsn w) (propTerm w) (propTermHistory w) (propTermStartLsn w) (donorLastLogTerm w) (donor w) (n_connected
  w) (mineLastElectedTerm w) (shmem_donor w) (io w) (inbox w) (outbox w).
Definition set_safekeeper v (w : t) : t := Mk (config w) (state w) (wp_mconf w) (members_safekeepers w)
  (new_members_safekeepers w) (wp_quorum w) (safekeepers_generation w) v (availableLsn w) (commitLsn w) (greetRequest
  w) (voteRequest w) (truncateLsn w) (propTerm w) (propTermHistory w) (propTermStartLsn w) (donorLastLogTerm w) (donor
  w) (n_connected w) (mineLastElectedTerm w) (shmem_donor w) (io w) (inbox w) (outbox w).
Definition set_availableLsn v (w : t) : t := Mk (config w) (state w) (wp_mconf w) (members_safekeepers w)
  (new_members_safekeepers w) (wp_quorum w) (safekeepers_generation w) (safekeeper w) v (commitLsn w) (greetRequest w)
  (voteRequest w) (truncateLsn w) (propTerm w) (propTermHistory w) (propTermStartLsn w) (donorLastLogTerm w) (donor w)
  (n_connected w) (mineLastElectedTerm w) (shmem_donor w) (io w) (inbox w) (outbox w).
Definition set_commitLsn v (w : t) : t := Mk (config w) (state w) (wp_mconf w) (members_safekeepers w)
  (new_members_safekeepers w) (wp_quorum w) (safekeepers_generation w) (safekeeper w) (availableLsn w) v (greetRequest
  w) (voteRequest w) (truncateLsn w) (propTerm w) (propTermHistory w) (propTermStartLsn w) (donorLastLogTerm w) (donor
  w) (n_connected w) (mineLastElectedTerm w) (shmem_donor w) (io w) (inbox w) (outbox w).
Definition set_voteRequest v (w : t) : t := Mk (config w) (state w) (wp_mconf w) (members_safekeepers w)
  (new_members_safekeepers w) (wp_quorum w) (safekeepers_generation w) (safekeeper w) (availableLsn w) (commitLsn w)
  (greetRequest w) v (truncateLsn w) (propTerm w) (propTermHistory w) (propTermStartLsn w) (donorLastLogTerm w) (donor
  w) (n_connected w) (mineLastElectedTerm w) (shmem_donor w) (io w) (inbox w) (outbox w).
Definition set_truncateLsn v (w : t) : t := Mk (config w) (state w) (wp_mconf w) (members_safekeepers w)
  (new_members_safekeepers w) (wp_quorum w) (safekeepers_generation w) (safekeeper w) (availableLsn w) (commitLsn w)
  (greetRequest w) (voteRequest w) v (propTerm w) (propTermHistory w) (propTermStartLsn w) (donorLastLogTerm w) (donor
  w) (n_connected w) (mineLastElectedTerm w) (shmem_donor w) (io w) (inbox w) (outbox w).
Definition set_propTerm v (w : t) : t := Mk (config w) (state w) (wp_mconf w) (members_safekeepers w)
  (new_members_safekeepers w) (wp_quorum w) (safekeepers_generation w) (safekeeper w) (availableLsn w) (commitLsn w)
  (greetRequest w) (voteRequest w) (truncateLsn w) v (propTermHistory w) (propTermStartLsn w) (donorLastLogTerm w)
  (donor w) (n_connected w) (mineLastElectedTerm w) (shmem_donor w) (io w) (inbox w) (outbox w).
Definition set_propTermHistory v (w : t) : t := Mk (config w) (state w) (wp_mconf w) (members_safekeepers w)
  (new_members_safekeepers w) (wp_quorum w) (safekeepers_generation w) (safekeeper w) (availableLsn w) (commitLsn w)
  (greetRequest w) (voteRequest w) (truncateLsn w) (propTerm w) v (propTermStartLsn w) (donorLastLogTerm w) (donor w)
  (n_connected w) (mineLastElectedTerm w) (shmem_donor w) (io w) (inbox w) (outbox w).
Definition set_propTermStartLsn v (w : t) : t := Mk (config w) (state w) (wp_mconf w) (members_safekeepers w)
  (new_members_safekeepers w) (wp_quorum w) (safekeepers_generation w) (safekeeper w) (availableLsn w) (commitLsn w)
  (greetRequest w) (voteRequest w) (truncateLsn w) (propTerm w) (propTermHistory w) v (donorLastLogTerm w) (donor w)
  (n_connected w) (mineLastElectedTerm w) (shmem_donor w) (io w) (inbox w) (outbox w).
Definition set_donorLastLogTerm v (w : t) : t := Mk (config w) (state w) (wp_mconf w) (members_safekeepers w)
  (new_members_safekeepers w) (wp_quorum w) (safekeepers_generation w) (safekeeper w) (availableLsn w) (commitLsn w)
  (greetRequest w) (voteRequest w) (truncateLsn w) (propTerm w) (propTermHistory w) (propTermStartLsn w) v (donor w)
  (n_connected w) (mineLastElectedTerm w) (shmem_donor w) (io w) (inbox w) (outbox w).
Definition set_donor v (w : t) : t := Mk (config w) (state w) (wp_mconf w) (members_safekeepers w)
  (new_members_safekeepers w) (wp_quorum w) (safekeepers_generation w) (safekeeper w) (availableLsn w) (commitLsn w)
  (greetRequest w) (voteRequest w) (truncateLsn w) (propTerm w) (propTermHistory w) (propTermStartLsn w)
  (donorLastLogTerm w) v (n_connected w) (mineLastElectedTerm w) (shmem_donor w) (io w) (inbox w) (outbox w).
Definition set_n_connected v (w : t) : t := Mk (config w) (state w) (wp_mconf w) (members_safekeepers w)
  (new_members_safekeepers w) (wp_quorum w) (safekeepers_generation w) (safekeeper w) (availableLsn w) (commitLsn w)
  (greetRequest w) (voteRequest w) (truncateLsn w) (propTerm w) (propTermHistory w) (propTermStartLsn w)
  (donorLastLogTerm w) (donor w) v (mineLastElectedTerm w) (shmem_donor w) (io w) (inbox w) (outbox w).
Definition set_mineLastElectedTerm v (w : t) : t := Mk (config w) (state w) (wp_mconf w) (members_safekeepers w)
  (new_members_safekeepers w) (wp_quorum w) (safekeepers_generation w) (safekeeper w) (availableLsn w) (commitLsn w)
  (greetRequest w) (voteRequest w) (truncateLsn w) (propTerm w) (propTermHistory w) (propTermStartLsn w)
  (donorLastLogTerm w) (donor w) (n_connected w) v (shmem_donor w) (io w) (inbox w) (outbox w).
Definition set_shmem_donor v (w : t) : t := Mk (config w) (state w) (wp_mconf w) (members_safekeepers w)
  (new_members_safekeepers w) (wp_quorum w) (safekeepers_generation w) (safekeeper w) (availableLsn w) (commitLsn w)
  (greetRequest w) (voteRequest w) (truncateLsn w) (propTerm w) (propTermHistory w) (propTermStartLsn w)
  (donorLastLogTerm w) (donor w) (n_connected w) (mineLastElectedTerm w) v (io w) (inbox w) (outbox w).
Definition set_io v (w : t) : t := Mk (config w) (state w) (wp_mconf w) (members_safekeepers w)
  (new_members_safekeepers w) (wp_quorum w) (safekeepers_generation w) (safekeeper w) (availableLsn w) (commitLsn w)
  (greetRequest w) (voteRequest w) (truncateLsn w) (propTerm w) (propTermHistory w) (propTermStartLsn w)
  (donorLastLogTerm w) (donor w) (n_connected w) (mineLastElectedTerm w) (shmem_donor w) v (inbox w) (outbox w).
Definition set_inbox v (w : t) : t := Mk (config w) (state w) (wp_mconf w) (members_safekeepers w)
  (new_members_safekeepers w) (wp_quorum w) (safekeepers_generation w) (safekeeper w) (availableLsn w) (commitLsn w)
  (greetRequest w) (voteRequest w) (truncateLsn w) (propTerm w) (propTermHistory w) (propTermStartLsn w)
  (donorLastLogTerm w) (donor w) (n_connected w) (mineLastElectedTerm w) (shmem_donor w) (io w) v (outbox w).
Definition set_outbox v (w : t) : t := Mk (config w) (state w) (wp_mconf w) (members_safekeepers w)
  (new_members_safekeepers w) (wp_quorum w) (safekeepers_generation w) (safekeeper w) (availableLsn w) (commitLsn w)
  (greetRequest w) (voteRequest w) (truncateLsn w) (propTerm w) (propTermHistory w) (propTermStartLsn w)
  (donorLastLogTerm w) (donor w) (n_connected w) (mineLastElectedTerm w) (shmem_donor w) (io w) (inbox w) v.

(** Updates of a connection slot. *)
Definition sk_set_state v (s : Safekeeper) : Safekeeper := MkSafekeeper (sk_host s) (sk_port s) v (active_state s)
  (greetResponse s) (voteResponse s) (freed s) (startStreamingAt s) (streamingAt s) (appendRequest s) (appendResponse
  s) (conn s).
Definition sk_set_active_state v (s : Safekeeper) : Safekeeper := MkSafekeeper (sk_host s) (sk_port s) (sk_state s) v
  (greetResponse s) (voteResponse s) (freed s) (startStreamingAt s) (streamingAt s) (appendRequest s) (appendResponse
  s) (conn s).
Definition sk_set_greetResponse v (s : Safekeeper) : Safekeeper := MkSafekeeper (sk_host s) (sk_port s) (sk_state s)
  (active_state s) v (voteResponse s) (freed s) (startStreamingAt s) (streamingAt s) (appendRequest s) (appendResponse
  s) (conn s).
Definition sk_set_voteResponse v (s : Safekeeper) : Safekeeper := MkSafekeeper (sk_host s) (sk_port s) (sk_state s)
  (active_state s) (greetResponse s) v (freed s) (startStreamingAt s) (streamingAt s) (appendRequest s)
  (appendResponse s) (conn s).
Definition sk_set_freed v (s : Safekeeper) : Safekeeper := MkSafekeeper (sk_host s) (sk_port s) (sk_state s)
  (active_state s) (greetResponse s) (voteResponse s) v (startStreamingAt s) (streamingAt s) (appendRequest s)
  (appendResponse s) (conn s).
Definition sk_set_startStreamingAt v (s : Safekeeper) : Safekeeper := MkSafekeeper (sk_host s) (sk_port s) (sk_state
  s) (active_state s) (greetResponse s) (voteResponse s) (freed s) v (streamingAt s) (appendRequest s) (appendResponse
  s) (conn s).
Definition sk_set_streamingAt v (s : Safekeeper) : Safekeeper := MkSafekeeper (sk_host s) (sk_port s) (sk_state s)
  (active_state s) (greetResponse s) (voteResponse s) (freed s) (startStreamingAt s) v (appendRequest s)
  (appendResponse s) (conn s).
Definition sk_set_appendRequest v (s : Safekeeper) : Safekeeper := MkSafekeeper (sk_host s) (sk_port s) (sk_state s)
  (active_state s) (greetResponse s) (voteResponse s) (freed s) (startStreamingAt s) (streamingAt s) v (appendResponse
  s) (conn s).
Definition sk_set_appendResponse v (s : Safekeeper) : Safekeeper := MkSafekeeper (sk_host s) (sk_port s) (sk_state s)
  (active_state s) (greetResponse s) (voteResponse s) (freed s) (startStreamingAt s) (streamingAt s) (appendRequest s)
  v (conn s).
Definition sk_set_conn v (s : Safekeeper) : Safekeeper := MkSafekeeper (sk_host s) (sk_port s) (sk_state s)
  (active_state s) (greetResponse s) (voteResponse s) (freed s) (startStreamingAt s) (streamingAt s) (appendRequest s)
  (appendResponse s) v.

Abbreviation St := (M t WpError).

(** ** The environment *)

Definition get_sk (i : nat) : St Safekeeper := w ← getS; liftR (match safekeeper w !! i with Some s => Ok s | None => Panic end).
Definition upd_sk (i : nat) (f : Safekeeper → Safekeeper) : St unit := modifyS (λ w, set_safekeeper (alter f i (safekeeper w)) w).
Definition api : St ApiResult := λ w, match io w with [] => (Ok ApiOk, w) | r :: io => (Ok r, set_io io w) end.
Definition conn_read : St ReadResult := λ w,
  match inbox w with [] => (Ok ReadAgain, w) | r :: inbox => (Ok r, set_inbox inbox w) end.
(** A message is handed to the connection; whether it arrives is another matter. *)
Definition conn_write (i : nat) (m : ProposerAcceptorMessage) : St ApiResult :=
  s ← get_sk i;
  _ ← modifyS (λ w, set_outbox (outbox w ++ [(i, conn s, m)]) w);
  api.

(** ** Connections *)

Definition ShutdownConnection (i : nat) : St unit :=
  upd_sk i (λ s, sk_set_freed true (sk_set_streamingAt 0 (sk_set_state SS_OFFLINE s))).

Definition ResetConnection (i : nat) : St unit :=
  s ← get_sk i;
  _ ← whenM (negb (bool_decide (sk_state s = SS_OFFLINE))) (ShutdownConnection i);
  _ ← upd_sk i (λ s, sk_set_conn (S (conn s)) s);
  r ← api;
  match r with
  | ApiFail => mret tt
  | _ => upd_sk i (sk_set_state SS_CONNECTING_WRITE)
  end.

Definition BlockingWrite (i : nat) (msg : ProposerAcceptorMessage) (success_state : SafekeeperState) : St bool :=
  r ← conn_write i msg;
  match r with
  | ApiFail => _ ← ShutdownConnection i; mret false
  | _ => _ ← upd_sk i (sk_set_state success_state); mret true
  end.

Definition AsyncWrite (i : nat) (msg : ProposerAcceptorMessage) (flush_state : SafekeeperState) : St bool :=
  r ← conn_write i msg;
  match r with
  | ApiOk => mret true
  | ApiFail => _ ← ShutdownConnection i; mret false
  | _ => _ ← upd_sk i (sk_set_state flush_state); mret false
  end.

Definition AsyncFlush (i : nat) : St bool :=
  r ← api;
  match r with
  | ApiOk => mret true
  | ApiFail => _ ← ResetConnection i; mret false
  | _ => mret false
  end.

Inductive Tag := TagGreeting | TagVote | TagAppend.
Definition tag_of (m : AcceptorProposerMessage) : Tag :=
  match m with AGreeting _ => TagGreeting | AVoteResponse _ => TagVote | AAppendResponse _ => TagAppend end.

#[global] Instance Tag_eq_dec : EqDecision Tag.
Proof. solve_decision. Defined.

(** The next message, if it can be read and is of the kind that is expected. *)
Definition AsyncReadMessage (i : nat) (expected : Tag) : St (option AcceptorProposerMessage) :=
  r ← conn_read;
  match r with
  | ReadAgain => mret None
  | ReadFail => _ ← ShutdownConnection i; mret None
  | ReadMsg m =>
      if bool_decide (tag_of m = expected) then mret (Some m)
      else _ ← ResetConnection i; mret None
  end.

Definition SendProposerGreeting (i : nat) : St unit :=
  w ← getS; _ ← BlockingWrite i (Greeting (greetRequest w)) SS_HANDSHAKE_RECV; mret tt.

Definition SendStartWALPush (i : nat) : St unit :=
  r ← api;
  match r with
  | ApiFail => ShutdownConnection i
  | _ => upd_sk i (sk_set_state SS_WAIT_EXEC_RESULT)
  end.

Definition HandleConnectionEvent (i : nat) : St unit :=
  r ← api;
  match r with
  | ApiOk | ApiAgain => SendStartWALPush i
  | ApiReading => upd_sk i (sk_set_state SS_CONNECTING_READ)
  | ApiWriting => upd_sk i (sk_set_state SS_CONNECTING_WRITE)
  | ApiFail => ShutdownConnection i
  end.

Definition RecvStartWALPushResult (i : nat) : St unit :=
  r ← api;
  match r with
  | ApiOk => SendProposerGreeting i
  | ApiFail => ShutdownConnection i
  | _ => mret tt
  end.

(** ** Members and their connections *)

Definition WalProposerGenerationsEnabled (w : t) : bool := negb (safekeepers_generation w =? INVALID_GENERATION).

(** Are generations neither asked for nor known from a safekeeper? *)
Definition legacy (w : t) : bool :=
  negb (WalProposerGenerationsEnabled w) && (generation (wp_mconf w) =? INVALID_GENERATION).

Definition new_mset (c : Configuration) : list SafekeeperId := default [] (new_members c).

Definition point_members (mset : list SafekeeperId) (node : NodeId) (i : nat) (ptrs : list (option nat)) : list (option nat) :=
  imap (λ k p, match mset !! k with Some m => if sk_id m =? node then Some i else p | None => p end) ptrs.

Definition UpdateMemberSafekeeperPtr (i : nat) : St unit :=
  w ← getS;
  if (MAX_SAFEKEEPERS <? length (members (wp_mconf w)))%nat then bail Fatal
  else if (MAX_SAFEKEEPERS <? length (new_mset (wp_mconf w)))%nat then bail Fatal
  else
    s ← get_sk i;
    let node := ag_node_id (greetResponse s) in
    if (ss_rank (sk_state s) <? ss_rank SS_WAIT_VOTING)%nat then mret tt
    else if node =? 0 then mret tt
    else
      _ ← modifyS (λ w, set_members_safekeepers (point_members (members (wp_mconf w)) node i (members_safekeepers w)) w);
      modifyS (λ w, set_new_members_safekeepers (point_members (new_mset (wp_mconf w)) node i (new_members_safekeepers w)) w).

(** A loop over all slots. *)
Fixpoint for_slots (l : list nat) (f : nat → St unit) : St unit :=
  match l with [] => mret tt | i :: l => _ ← f i; for_slots l f end.

Definition slots (w : t) : list nat := seq 0 (length (safekeeper w)).

Definition ResetMemberSafekeeperPtrs : St unit :=
  _ ← modifyS (λ w, set_new_members_safekeepers (replicate MAX_SAFEKEEPERS None)
                      (set_members_safekeepers (replicate MAX_SAFEKEEPERS None) w));
  w ← getS;
  for_slots (slots w) (λ i,
    s ← get_sk i;
    whenM (ss_rank SS_WAIT_VOTING <=? ss_rank (sk_state s))%nat (UpdateMemberSafekeeperPtr i)).

Definition MsetQuorum (len : Z) : Z := len / 2 + 1.
Definition MsetHasQuorum (len n : Z) : bool := MsetQuorum len <=? n.

(** The slots of the members of a set, for those that have one. *)
Definition member_slots (w : t) (mset : list SafekeeperId) (msk : list (option nat)) : list (option (nat * Safekeeper)) :=
  (λ k, i ← mjoin (msk !! k); s ← safekeeper w !! i; Some (i, s)) <$> seq 0 (length mset).

Definition in_state (st : SafekeeperState) (o : option (nat * Safekeeper)) : bool :=
  match o with Some (_, s) => bool_decide (sk_state s = st) | None => false end.

Definition TermsCollectedMset (w : t) (mset : list SafekeeperId) (msk : list (option nat)) : bool :=
  MsetHasQuorum (Z.of_nat (length mset)) (Z.of_nat (length (filter (λ o, in_state SS_WAIT_VOTING o) (member_slots w mset msk)))).

Definition TermsCollected : St bool :=
  w ← getS;
  let campaign : St bool := (_ ← modifyS (set_propTerm (wrapping_add 64 (propTerm w) 1)); mret true) in
  if legacy w then if wp_quorum w <=? n_connected w then campaign else mret false
  else if generation (wp_mconf w) =? INVALID_GENERATION then mret false
  else if negb (TermsCollectedMset w (members (wp_mconf w)) (members_safekeepers w)) then mret false
  else if negb (bool_decide (new_mset (wp_mconf w) = [])) &&
          negb (TermsCollectedMset w (new_mset (wp_mconf w)) (new_members_safekeepers w)) then mret false
  else campaign.

(** ** Greetings and votes *)

Definition SendVoteRequest (i : nat) : St unit :=
  w ← getS; _ ← BlockingWrite i (VoteRequestMsg (voteRequest w)) SS_WAIT_VERDICT; mret tt.

Definition adopt_mconf (c : Configuration) : St unit :=
  w ← getS;
  if generation (wp_mconf w) <? generation c then
    if bool_decide (members c = []) then bail Fatal
    else if negb (bool_decide (state w = WPS_COLLECTING_TERMS)) then bail Fatal
    else _ ← modifyS (set_wp_mconf c); ResetMemberSafekeeperPtrs
  else mret tt.

Definition RecvAcceptorGreeting (i : nat) : St unit :=
  r ← AsyncReadMessage i TagGreeting;
  match r with
  | Some (AGreeting g) =>
      _ ← upd_sk i (sk_set_greetResponse g);
      _ ← adopt_mconf (ag_mconf g);
      _ ← upd_sk i (sk_set_state SS_WAIT_VOTING);
      _ ← UpdateMemberSafekeeperPtr i;
      _ ← modifyS (λ w, set_n_connected (n_connected w + 1) w);
      w ← getS;
      _ ← (if bool_decide (state w = WPS_COLLECTING_TERMS) then
             _ ← modifyS (set_propTerm (Z.max (ag_term g) (propTerm w)));
             collected ← TermsCollected;
             whenM collected
               (modifyS (λ w, set_voteRequest (MkVoteRequest (generation (wp_mconf w)) (propTerm w)) (set_state WPS_CAMPAIGN w)))
           else if propTerm w <? ag_term g then bail Fatal else mret tt);
      w ← getS;
      whenM (negb (bool_decide (state w = WPS_COLLECTING_TERMS)))
        (for_slots (slots w) (λ j, s ← get_sk j; whenM (bool_decide (sk_state s = SS_WAIT_VOTING)) (SendVoteRequest j)))
  | _ => mret tt
  end.

(** The entries of a term history that may have been freed. *)
Definition vote_entries (s : Safekeeper) : result WpError TermHistory.t :=
  match vs_term_history (voteResponse s) with
  | [] => Ok []
  | th => if freed s then Panic else Ok th
  end.

Definition GetHighestTerm (th : TermHistory.t) : Term := last_term th.
Definition GetLastLogTerm (s : Safekeeper) : result WpError Term := th ← vote_entries s; Ok (GetHighestTerm th).

(** One vote in the search for the highest. *)
Definition consider_vote (i : nat) (s : Safekeeper) : St unit :=
  w ← getS;
  llt ← liftR (GetLastLogTerm s);
  let flush := vs_flush_lsn (voteResponse s) in
  _ ← whenM ((donorLastLogTerm w <? llt) || ((llt =? donorLastLogTerm w) && (propTermStartLsn w <? flush)) ||
             bool_decide (donor w = None))
        (modifyS (λ w, set_donor (Some i) (set_propTermStartLsn flush (set_donorLastLogTerm llt w))));
  modifyS (λ w, set_truncateLsn (Z.max (vs_truncate_lsn (voteResponse s)) (truncateLsn w)) w).

(** The slots that have voted, one after the other. *)
Fixpoint consider_votes (l : list (option (nat * Safekeeper))) : St Z :=
  match l with
  | [] => mret 0
  | Some (i, s) :: l =>
      if bool_decide (sk_state s = SS_WAIT_ELECTED) then _ ← consider_vote i s; n ← consider_votes l; mret (n + 1)
      else consider_votes l
  | None :: l => consider_votes l
  end.

Definition VotesCollectedMset (mset : list SafekeeperId) (msk : list (option nat)) : St bool :=
  w ← getS;
  n ← consider_votes (member_slots w mset msk);
  mret (MsetHasQuorum (Z.of_nat (length mset)) n).

Definition VotesCollected : St bool :=
  _ ← modifyS (λ w, set_truncateLsn 0 (set_donorLastLogTerm 0 (set_propTermStartLsn 0 w)));
  w ← getS;
  if legacy w then
    n ← consider_votes (imap (λ i s, Some (i, s)) (safekeeper w));
    mret (wp_quorum w <=? n)
  else
    b ← VotesCollectedMset (members (wp_mconf w)) (members_safekeepers w);
    if negb b then mret false
    else if bool_decide (new_mset (wp_mconf w) = []) then mret true
    else VotesCollectedMset (new_mset (wp_mconf w)) (new_members_safekeepers w).

(** ** Streaming *)

Section streaming.
(** The WAL that the reader gives for a position and a length. *)
Context (wal_read : Lsn → Z → bytes).

Definition PrepareAppendRequest (w : t) (beginLsn endLsn : Lsn) : AppendRequestHeader :=
  MkAppendRequestHeader (generation (wp_mconf w)) (propTerm w) beginLsn endLsn (commitLsn w) (truncateLsn w).

(** The loop of [SendAppendRequests]; [sent] is its [sentAnything]. *)
Fixpoint send_loop (fuel : nat) (i : nat) (sent : bool) : St bool :=
  s ← get_sk i;
  w ← getS;
  if (streamingAt s =? availableLsn w) && sent then mret true
  else
    match fuel with
    | O => liftR Panic
    | S fuel =>
        let send := bool_decide (active_state s = SS_ACTIVE_SEND) in
        let endLsn := Z.min (streamingAt s + MAX_SEND_SIZE) (availableLsn w) in
        _ ← whenM send (upd_sk i (λ s, sk_set_active_state SS_ACTIVE_READ_WAL
              (sk_set_appendRequest (PrepareAppendRequest w (streamingAt s) endLsn) s)));
        s ← get_sk i;
        if bool_decide (active_state s = SS_ACTIVE_READ_WAL) then
          let req := appendRequest s in
          let req_len := ar_end_lsn req - ar_begin_lsn req in
          r ← (if 0 <? req_len then api else mret ApiOk);
          match r with
          | ApiFail => _ ← ShutdownConnection i; mret false
          | ApiOk =>
              let data := if 0 <? req_len then wal_read (ar_begin_lsn req) req_len else [] in
              r ← conn_write i (AppendRequestMsg (MkAppendRequest req data));
              _ ← upd_sk i (sk_set_streamingAt (ar_end_lsn req));
              match r with
              | ApiOk => _ ← upd_sk i (sk_set_active_state SS_ACTIVE_SEND); send_loop fuel i (sent || send)
              | ApiFail => _ ← ShutdownConnection i; mret false
              | _ => _ ← upd_sk i (sk_set_active_state SS_ACTIVE_FLUSH); mret true
              end
          | _ => mret true
          end
        else send_loop fuel i (sent || send)
    end.

Definition send_fuel (w : t) (s : Safekeeper) : nat := Z.to_nat ((availableLsn w - streamingAt s) / MAX_SEND_SIZE) + 4.

Definition SendAppendRequests (i : nat) : St bool :=
  s ← get_sk i;
  let go : St bool :=
    (_ ← upd_sk i (λ s, if bool_decide (active_state s = SS_ACTIVE_FLUSH) then sk_set_active_state SS_ACTIVE_SEND s else s);
     s ← get_sk i; w ← getS; send_loop (send_fuel w s) i false) in
  if bool_decide (active_state s = SS_ACTIVE_FLUSH) then
    b ← AsyncFlush i;
    if (b : bool) then go else (s ← get_sk i; mret (bool_decide (sk_state s = SS_ACTIVE)))
  else go.

Definition SendMessageToNode (i : nat) : St unit := _ ← SendAppendRequests i; mret tt.

Definition BroadcastAppendRequest : St unit :=
  w ← getS;
  for_slots (slots w) (λ i, s ← get_sk i; whenM (bool_decide (sk_state s = SS_ACTIVE)) (SendMessageToNode i)).

(** Which safekeeper WAL can be fetched from, for the readers of the other backends. *)
Definition UpdateDonorShmem : St unit :=
  w ← getS;
  if negb (bool_decide (state w = WPS_ELECTED)) then mret tt
  else
    d ← liftR (of_option_panic (donor w));
    s ← get_sk d;
    let first := if (ss_rank SS_WAIT_ELECTED <=? ss_rank (sk_state s))%nat then (Some d, propTermStartLsn w) else (None, 0) in
    let best := foldl (λ best i, match safekeeper w !! i with
                  | Some s => if bool_decide (sk_state s = SS_ACTIVE) && (best.2 <? as_flush_lsn (appendResponse s))
                              then (Some i, as_flush_lsn (appendResponse s)) else best
                  | None => best end) first (slots w) in
    match best.1 with
    | Some d => modifyS (set_shmem_donor (Some (d, best.2)))
    | None => mret tt
    end.

Definition StartStreaming (i : nat) : St unit :=
  _ ← upd_sk i (λ s, sk_set_streamingAt (startStreamingAt s) (sk_set_active_state SS_ACTIVE_SEND (sk_set_state SS_ACTIVE s)));
  _ ← UpdateDonorShmem;
  SendMessageToNode i.

(** ** Election *)

(** The number of entries at the beginning whose terms are equal. *)
Fixpoint common_entries (a b : TermHistory.t) : nat :=
  match a, b with
  | x :: a, y :: b => if term x =? term y then S (common_entries a b) else O
  | _, _ => O
  end.

(** Where to start streaming to a safekeeper: the end of the last common term. *)
Definition start_streaming_at (prop_th th : TermHistory.t) (propTerm : Term) (flush : Lsn) : result WpError Lsn :=
  match common_entries prop_th th with
  | O => of_option_panic (lsn <$> prop_th !! 0%nat)
  | S idx =>
      last_common ← of_option_panic (prop_th !! idx);
      if term last_common =? propTerm then Ok flush
      else
        next ← of_option_panic (prop_th !! S idx);
        let skEndLsn := match th !! S idx with Some e => lsn e | None => flush end in
        Ok (Z.min (lsn next) skEndLsn)
  end.

Definition SendProposerElected (i : nat) : St unit :=
  w ← getS;
  s ← get_sk i;
  th ← liftR (vote_entries s);
  start ← liftR (start_streaming_at (propTermHistory w) th (propTerm w) (vs_flush_lsn (voteResponse s)));
  _ ← upd_sk i (sk_set_startStreamingAt start);
  b ← AsyncWrite i (Elected (MkProposerElected (generation (wp_mconf w)) (propTerm w) start (propTermHistory w))) SS_SEND_ELECTED_FLUSH;
  whenM b (StartStreaming i).

Definition SkipXLogPageHeader (c : WalProposerConfig) (l : Lsn) : Lsn :=
  if l mod wp_wal_segment_size c =? 0 then l + SizeOfXLogLongPHD c
  else if l mod Lsn.XLOG_BLCKSZ =? 0 then l + SizeOfXLogShortPHD c
  else l.

Definition ProcessPropStartPos : St unit :=
  w ← getS;
  let redo := redo_start_lsn (config w) in
  let sync := syncSafekeepers (config w) in
  _ ← (if propTermStartLsn w =? 0 then
         if sync then bail (SyncFinished 0)
         else modifyS (λ w, set_truncateLsn redo (set_propTermStartLsn redo w))
       else mret tt);
  _ ← modifyS (λ w, set_availableLsn (propTermStartLsn w) w);
  w ← getS;
  d ← liftR (of_option_panic (donor w));
  s ← get_sk d;
  dth ← liftR (vote_entries s);
  _ ← modifyS (set_propTermHistory (dth ++ [MkTermLsn (propTerm w) (propTermStartLsn w)]));
  _ ← whenM (negb sync && negb (replica_promote (config w)) &&
             negb (SkipXLogPageHeader (config w) (propTermStartLsn w) =? redo) &&
             negb (match last dth with Some e => term e =? mineLastElectedTerm w | None => false end))
        (bail PanicRestart);
  modifyS (set_mineLastElectedTerm (propTerm w)).

Definition HandleElectedProposer : St unit :=
  _ ← ProcessPropStartPos;
  r ← api; (* recovery_download *)
  match r with
  | ApiFail => bail Fatal
  | _ =>
      w ← getS;
      let sync := syncSafekeepers (config w) in
      if (truncateLsn w =? propTermStartLsn w) && sync then bail (SyncFinished (propTermStartLsn w))
      else
        _ ← for_slots (slots w) (λ i, s ← get_sk i;
              whenM (bool_decide (sk_state s = SS_WAIT_ELECTED)) (SendProposerElected i));
        whenM sync BroadcastAppendRequest
  end.

Definition RecvVoteResponse (i : nat) : St unit :=
  r ← AsyncReadMessage i TagVote;
  match r with
  | Some (AVoteResponse v) =>
      _ ← upd_sk i (λ s, sk_set_freed false (sk_set_voteResponse v s));
      w ← getS;
      if negb (vote_given v) && ((propTerm w <? vs_term v) || bool_decide (state w = WPS_CAMPAIGN)) then bail Fatal
      else
        _ ← upd_sk i (sk_set_state SS_WAIT_ELECTED);
        if bool_decide (state w = WPS_CAMPAIGN) then
          b ← VotesCollected;
          whenM b (_ ← modifyS (set_state WPS_ELECTED); HandleElectedProposer)
        else SendProposerElected i
  | _ => mret tt
  end.

(** ** Acknowledgements *)

Definition CalculateMinFlushLsn (w : t) : Lsn :=
  match safekeeper w with
  | [] => 0
  | s :: l => foldl (λ m s, Z.min m (as_flush_lsn (appendResponse s))) (as_flush_lsn (appendResponse s)) l
  end.

(** What counts of the position that a safekeeper has reported. *)
Definition acked (w : t) (s : Safekeeper) : Lsn :=
  let flush := as_flush_lsn (appendResponse s) in if propTermStartLsn w <=? flush then flush else 0.

(** The largest position that a quorum of the sorted responses has reached. *)
Definition quorum_lsn (responses : list Lsn) (quorum : Z) : result WpError Lsn :=
  of_option_panic (merge_sort Z.le responses !! Z.to_nat (Z.of_nat (length responses) - quorum)).

Definition GetCommittedMset (w : t) (mset : list SafekeeperId) (msk : list (option nat)) : result WpError Lsn :=
  let responses := (λ o, match o with Some (_, s) => acked w s | None => 0 end) <$> member_slots w mset msk in
  quorum_lsn responses (MsetQuorum (Z.of_nat (length mset))).

Definition GetAcknowledgedByQuorumWALPosition (w : t) : result WpError Lsn :=
  if legacy w then quorum_lsn (acked w <$> safekeeper w) (wp_quorum w)
  else
    committed ← GetCommittedMset w (members (wp_mconf w)) (members_safekeepers w);
    if bool_decide (new_mset (wp_mconf w) = []) then Ok committed
    else
      new_mset_committed ← GetCommittedMset w (new_mset (wp_mconf w)) (new_members_safekeepers w);
      Ok (Z.min committed new_mset_committed).

Definition HandleSafekeeperResponse : St unit :=
  w ← getS;
  newCommitLsn ← liftR (GetAcknowledgedByQuorumWALPosition w);
  _ ← whenM (commitLsn w <? newCommitLsn) (_ ← modifyS (set_commitLsn newCommitLsn); BroadcastAppendRequest);
  _ ← modifyS (λ w, let candidate := Z.min (CalculateMinFlushLsn w) (commitLsn w) in
                    if truncateLsn w <? candidate then set_truncateLsn candidate w else w);
  w ← getS;
  if syncSafekeepers (config w) then
    if existsb (λ s, negb (bool_decide (sk_state s = SS_OFFLINE)) &&
                     negb (propTermStartLsn w <=? as_commit_lsn (appendResponse s))) (safekeeper w) then mret tt
    else if propTermStartLsn w <=? newCommitLsn then _ ← BroadcastAppendRequest; bail (SyncFinished (propTermStartLsn w))
    else mret tt
  else mret tt.

(** The loop of [RecvAppendResponses], once per message that can be read. *)
Fixpoint recv_loop (fuel : nat) (i : nat) : St bool :=
  match fuel with
  | O => liftR Panic
  | S fuel =>
      r ← AsyncReadMessage i TagAppend;
      match r with
      | Some (AAppendResponse m) =>
          _ ← upd_sk i (sk_set_appendResponse m);
          w ← getS;
          if negb (as_generation m =? generation (wp_mconf w)) then bail Fatal
          else if propTerm w <? as_term m then bail Fatal
          else _ ← HandleSafekeeperResponse; recv_loop fuel i
      | _ => s ← get_sk i; mret (bool_decide (sk_state s = SS_ACTIVE))
      end
  end.

Definition RecvAppendResponses (i : nat) : St bool := w ← getS; recv_loop (S (length (inbox w))) i.

(** ** Events *)

(** The events of a socket. *)
Record Events := MkEvents { readable : bool; writable : bool; closed : bool }.

Definition HandleActiveState (i : nat) (ev : Events) : St unit :=
  s ← get_sk i;
  b ← (if writable ev || bool_decide (active_state s = SS_ACTIVE_READ_WAL) then SendAppendRequests i else mret true);
  if negb b then mret tt
  else
    b ← (if readable ev then RecvAppendResponses i else mret true);
    if negb b then mret tt
    else whenM (closed ev) (ShutdownConnection i).

Definition AdvancePollState (i : nat) (ev : Events) : St unit :=
  s ← get_sk i;
  match sk_state s with
  | SS_OFFLINE => bail Fatal
  | SS_CONNECTING_READ | SS_CONNECTING_WRITE => HandleConnectionEvent i
  | SS_WAIT_EXEC_RESULT => RecvStartWALPushResult i
  | SS_HANDSHAKE_RECV => RecvAcceptorGreeting i
  | SS_WAIT_VOTING | SS_WAIT_ELECTED => ResetConnection i
  | SS_WAIT_VERDICT => RecvVoteResponse i
  | SS_SEND_ELECTED_FLUSH => b ← AsyncFlush i; whenM b (StartStreaming i)
  | SS_ACTIVE => HandleActiveState i ev
  end.

Definition ReconnectSafekeepers : St unit :=
  w ← getS;
  for_slots (slots w) (λ i, s ← get_sk i; whenM (bool_decide (sk_state s = SS_OFFLINE)) (ResetConnection i)).

(** One round of [WalProposerPoll]: an event of a socket or none, then what is due
    by the clock: reconnecting, a keepalive message, and giving up connections
    that were silent for too long. *)
Definition WalProposerPoll (ev : option (nat * Events)) (reconnect timeout : bool) (silent : list nat) : St unit :=
  _ ← (match ev with Some (i, ev) => AdvancePollState i ev | None => mret tt end);
  _ ← whenM reconnect ReconnectSafekeepers;
  whenM timeout
    (w ← getS;
     _ ← whenM (negb (availableLsn w =? 0)) BroadcastAppendRequest;
     for_slots silent ShutdownConnection).

Definition WalProposerStart : St unit := w ← getS; for_slots (slots w) ResetConnection.

Definition WalProposerBroadcast (endpos : Lsn) : St unit := _ ← modifyS (set_availableLsn endpos); BroadcastAppendRequest.
End streaming.

(** ** Creation *)

(** [strchr] and cutting the string there: what is before, and what follows if the
    character occurs. *)
Fixpoint split_at (c : Z) (s : bytes) : bytes * option bytes :=
  match s with
  | [] => ([], None)
  | x :: s => if x =? c then ([], Some s) else let p := split_at c s in (x :: p.1, p.2)
  end.

Definition is_digit (c : Z) : bool := (48 <=? c) && (c <=? 57).
Definition is_space (c : Z) : bool := (c =? 32) || ((9 <=? c) && (c <=? 13)).

Fixpoint digits (s : bytes) (acc : Z) : Z * bytes :=
  match s with x :: s' => if is_digit x then digits s' (acc * 10 + (x - 48)) else (acc, s) | [] => (acc, []) end.

Fixpoint skip_spaces (s : bytes) : bytes := match s with x :: s' => if is_space x then skip_spaces s' else s | [] => [] end.

(** [strtoul] of base 10: the value, or [None] when it is out of range, and where it
    stopped; without digits nothing is consumed. *)
Definition strtoul (s : bytes) : option Z * bytes :=
  let s1 := skip_spaces s in
  let '(neg, s2) := match s1 with x :: s' => if x =? 45 then (true, s') else if x =? 43 then (false, s') else (false, s1) | [] => (false, []) end in
  match s2 with
  | x :: _ =>
      if is_digit x then
        let '(v, rest) := digits s2 0 in
        ((if v <? 2 ^ 64 then Some (if neg : bool then (- v) mod 2 ^ 64 else v) else None), rest)
      else (Some 0, s)
  | [] => (Some 0, s)
  end.

(** The list of hosts and ports. *)
Fixpoint parse_hosts (fuel : nat) (s : bytes) (acc : list (bytes * bytes)) : result WpError (list (bytes * bytes)) :=
  match s with
  | [] => Ok acc
  | _ =>
      match fuel with
      | O => Panic
      | S fuel =>
          match split_at 58 s with
          | (_, None) => Err Fatal (* port is not specified *)
          | (host, Some rest) =>
              let '(port, sep) := split_at 44 rest in
              if (MAX_SAFEKEEPERS <=? length acc + 1)%nat then Err Fatal
              else match sep with
                   | None => Ok (acc ++ [(host, port)])
                   | Some s => parse_hosts fuel s (acc ++ [(host, port)])
                   end
          end
      end
  end.

Definition parse_safekeepers_list (s : bytes) : result WpError (Generation * list (bytes * bytes)) :=
  if bool_decide (take 2 s = [103; 35]) then
    match strtoul (drop 2 s) with
    | (None, _) => Err Fatal
    | (Some g, 58 :: rest) => hosts ← parse_hosts (length s) rest []; Ok (g mod 2 ^ 32, hosts)
    | (Some _, _) => Err Fatal
    end
  else hosts ← parse_hosts (length s) s []; Ok (INVALID_GENERATION, hosts).

(** Zeroed memory. *)
Definition no_greeting : AcceptorGreeting := MkAcceptorGreeting 0 (MkConfiguration INVALID_GENERATION [] None) 0.
Definition no_vote : VoteResponse := MkVoteResponse 0 0 false 0 0 [].
Definition no_header : AppendRequestHeader := MkAppendRequestHeader 0 0 0 0 0 0.
Definition no_response : AppendResponse := MkAppendResponse 0 0 0 0 HotStandbyFeedback_empty None.

Definition new_slot (hp : bytes * bytes) : Safekeeper :=
  MkSafekeeper hp.1 hp.2 SS_OFFLINE SS_ACTIVE_SEND no_greeting no_vote true 0 0 no_header no_response 0.

Definition WalProposerCreate (c : WalProposerConfig) (tenant timeline : bytes) (mine : Term) : result WpError t :=
  p ← parse_safekeepers_list (safekeepers_list c);
  let '(gen, hosts) := p in
  if (length hosts <? 1)%nat then Err Fatal
  else if negb (proto_version c =? 2) && negb (proto_version c =? 3) then Err Fatal
  else if (INVALID_GENERATION <? gen) && (proto_version c <? 3) then Err Fatal
  else
    Ok (Mk c WPS_COLLECTING_TERMS (MkConfiguration INVALID_GENERATION [] None)
          (replicate MAX_SAFEKEEPERS None) (replicate MAX_SAFEKEEPERS None) (Z.of_nat (length hosts) / 2 + 1) gen
          (new_slot <$> hosts) 0 0
          (MkProposerGreeting tenant timeline (MkConfiguration INVALID_GENERATION [] None)
             (PG_VERSION_NUM c) (systemId c) (wp_wal_segment_size c))
          (MkVoteRequest 0 0) 0 0 [] 0 0 None 0 mine None [] [] []).
End WalProposer.
