(* ===== verification/Wires.v ===== *)
(** The bytes of the protocol between proposer and safekeeper, on both sides:
    [PAMessageSerialize], [AsyncReadMessage] and their helpers in
    [pgxn/neon/walproposer.c] (with [neon_utils.c] and [walproposer_compat.c]), and
    [ProposerAcceptorMessage::parse], [AcceptorProposerMessage::serialize] in
    [safekeeper/src/safekeeper.rs], for the versions 2 and 3 of the protocol.

    A buffer is the list of the bytes that are left.  The structs that version 2
    sends as they are have no padding and are little-endian.  A time in C is a
    number of microseconds; the shared record of the feedback counts nanoseconds.
    Memory is not modelled: the source reserves room for the entries that the length of a
    term history promises ([Vec::with_capacity]) before it reads them.
    [bincode] and [byteorder], which read version 2 in the safekeeper, are a class
    with their documented laws. *)

From S2P Require Import Prelude Text Lsns Shards Membership TermHistories Feedbacks SkStates SafeKeepers WalProposers.
Local Open Scope Z_scope.

Definition SK_PROTO_VERSION_2 : Z := 2.
Definition SK_PROTO_VERSION_3 : Z := 3.

(** The tags, as bytes. *)
Definition tag_g : Z := 103.
Definition tag_v : Z := 118.
Definition tag_e : Z := 101.
Definition tag_a : Z := 97.

(** [std::str::from_utf8]: the well-formed sequences of the Unicode standard. *)
Definition cont (b : Z) : bool := (0x80 <=? b) && (b <=? 0xBF).
Definition between (lo hi b : Z) : bool := (lo <=? b) && (b <=? hi).
Fixpoint utf8_valid (b : bytes) : bool :=
  match b with
  | [] => true
  | b0 :: r =>
      if b0 <? 0x80 then utf8_valid r
      else match r with
      | [] => false
      | b1 :: r1 =>
          if between 0xC2 0xDF b0 then cont b1 && utf8_valid r1
          else match r1 with
          | [] => false
          | b2 :: r2 =>
              if b0 =? 0xE0 then between 0xA0 0xBF b1 && cont b2 && utf8_valid r2
              else if b0 =? 0xED then between 0x80 0x9F b1 && cont b2 && utf8_valid r2
              else if between 0xE1 0xEF b0 then cont b1 && cont b2 && utf8_valid r2
              else match r2 with
              | [] => false
              | b3 :: r3 =>
                  (if b0 =? 0xF0 then between 0x90 0xBF b1
                   else if b0 =? 0xF4 then between 0x80 0x8F b1
                   else between 0xF1 0xF3 b0 && cont b1) && cont b2 && cont b3 && utf8_valid r3
              end
          end
      end
  end.

Inductive WireError :=
  | NoBytesLeft | MissingTerminator | InvalidUtf8 | EmptyMembersLen | Member (e : MembershipError)
  | BadId (e : FromHexError) | MissingTag | UnknownTag (tag : Z) | BeginAfterEnd | LongerThanMax | ShortWal
  | NotComplete | HistoryIncomplete | UnsupportedVersion (v : Z) | Deserialize.

(** [LeSer] of fixed size integers and arrays, [ReadBytesExt::read_u64]: [n] bytes,
    in little-endian order, or an error. *)
Class LeReader := { read_le : nat → M bytes WireError Z; read_array : nat → M bytes WireError bytes }.

Class LeReaderLaws `{LeReader} := {
  read_le_spec : ∀ l r : bytes, read_le (length l) (l ++ r) = (Ok (be_val (rev l)), r);
  read_array_spec : ∀ l r : bytes, read_array (length l) (l ++ r) = (Ok l, r);
  read_le_short : ∀ n (b : bytes), (length b < n)%nat → ∃ e b', read_le n b = (Err e, b');
  read_array_short : ∀ n (b : bytes), (length b < n)%nat → ∃ e b', read_array n b = (Err e, b')
}.

(** * The safekeeper reads *)

Module Parse.
Section parse.
Context `{HexCrate} `{LeReader}.
Abbreviation Rd := (M bytes WireError).

(** [get_u8_f] to [get_u64_f]. *)
Definition get_f (n : nat) : Rd Z := Buf.get_f NoBytesLeft n.

Definition get_cstr : Rd bytes := λ b,
  match Buf.cstr b with
  | None => (Err MissingTerminator, b)
  | Some (s, r) => if utf8_valid s then (Ok s, r) else (Err InvalidUtf8, r)
  end.

Definition get_member : Rd SafekeeperId :=
  id ← get_f 8; host ← get_cstr; pg_port ← get_f 2; mret (MkSafekeeperId id host pg_port).

Fixpoint get_members (n : nat) (members : MemberSet.t) : Rd MemberSet.t :=
  match n with
  | O => mret members
  | S n =>
      sk ← get_member;
      members ← liftR (map_err Member (MemberSet.add sk members));
      get_members n members
  end.

Definition get_mconf : Rd Configuration :=
  generation ← get_f 4;
  members_len ← get_f 4;
  if negb (generation =? INVALID_GENERATION) && (members_len =? 0) then bail EmptyMembersLen
  else
    members ← get_members (Z.to_nat members_len) MemberSet.empty;
    new_members_len ← get_f 4;
    if new_members_len =? 0 then mret (MkConfiguration generation members None)
    else
      new_members ← get_members (Z.to_nat new_members_len) MemberSet.empty;
      mret (MkConfiguration generation members (Some new_members)).

(** [TermHistory::from_bytes] *)
Fixpoint history_entries (n : nat) : Rd TermHistory.t :=
  match n with
  | O => mret []
  | S n => term ← get_f 8; lsn ← get_f 8; rest ← history_entries n; mret (MkTermLsn term lsn :: rest)
  end.
Definition from_bytes : Rd TermHistory.t := n ← get_f 4; history_entries (Z.to_nat n).

(** [TermHistory::from_bytes_le] *)
Definition need (n : nat) (e : WireError) : Rd unit := b ← getS; ensure (n <=? length b)%nat e.
Fixpoint history_entries_le (n : nat) : Rd TermHistory.t :=
  match n with
  | O => mret []
  | S n =>
      _ ← need 16 HistoryIncomplete;
      term ← Buf.get_le 8; lsn ← Buf.get_le 8; rest ← history_entries_le n;
      mret (MkTermLsn term lsn :: rest)
  end.
Definition from_bytes_le : Rd TermHistory.t :=
  _ ← need 4 HistoryIncomplete; n ← Buf.get_le 4; history_entries_le (Z.to_nat n).

Definition id_of (s : bytes) : Rd bytes := liftR (map_err BadId (TenantShardId.id_from_hex s)).

Definition greeting : Rd ProposerGreeting :=
  tenant_id_str ← get_cstr;
  tenant_id ← id_of tenant_id_str;
  timeline_id_str ← get_cstr;
  timeline_id ← id_of timeline_id_str;
  mconf ← get_mconf;
  pg_version ← get_f 4;
  system_id ← get_f 8;
  wal_seg_size ← get_f 4;
  pg_version ← liftR (map_err (λ _, Deserialize) (PgVersion.from_full_pg_version pg_version));
  mret (MkProposerGreeting tenant_id timeline_id mconf pg_version system_id wal_seg_size).

(** The size of the WAL that follows a header. *)
Definition rec_size (hdr : AppendRequestHeader) : Rd nat :=
  match Lsn.checked_sub (ar_end_lsn hdr) (ar_begin_lsn hdr) with
  | None => bail BeginAfterEnd
  | Some size => if MAX_SEND_SIZE <? size then bail LongerThanMax else mret (Z.to_nat size)
  end.

Definition append_request : Rd AppendRequest :=
  generation ← get_f 4;
  term ← get_f 8;
  begin_lsn ← get_f 8;
  end_lsn ← get_f 8;
  commit_lsn ← get_f 8;
  truncate_lsn ← get_f 8;
  let hdr := MkAppendRequestHeader generation term begin_lsn end_lsn commit_lsn truncate_lsn in
  size ← rec_size hdr;
  _ ← need size ShortWal;
  wal_data ← Buf.take_bytes size;
  mret (MkAppendRequest hdr wal_data).

Definition parse_v3 : Rd ProposerAcceptorMessage :=
  _ ← need 1 MissingTag;
  tag ← get_f 1;
  if tag =? tag_g then m ← greeting; mret (Greeting m)
  else if tag =? tag_v then generation ← get_f 4; term ← get_f 8; mret (VoteRequestMsg (MkVoteRequest generation term))
  else if tag =? tag_e then
    generation ← get_f 4; term ← get_f 8; start_streaming_at ← get_f 8; term_history ← from_bytes;
    mret (Elected (MkProposerElected generation term start_streaming_at term_history))
  else if tag =? tag_a then m ← append_request; mret (AppendRequestMsg m)
  else bail (UnknownTag tag).

(** The structs of version 2, read field by field. *)
Definition greeting_v2 : Rd ProposerGreeting :=
  _protocol_version ← read_le 4;
  pg_version ← read_le 4;
  _proposer_id ← read_array 16;
  system_id ← read_le 8;
  timeline_id ← read_array 16;
  tenant_id ← read_array 16;
  _tli ← read_le 4;
  wal_seg_size ← read_le 4;
  mret (MkProposerGreeting tenant_id timeline_id (MkConfiguration INVALID_GENERATION MemberSet.empty None)
          pg_version system_id wal_seg_size).

Definition append_request_v2 : Rd AppendRequest :=
  term ← read_le 8;
  _term_start_lsn ← read_le 8;
  begin_lsn ← read_le 8;
  end_lsn ← read_le 8;
  commit_lsn ← read_le 8;
  truncate_lsn ← read_le 8;
  _proposer_uuid ← read_array 16;
  let hdr := MkAppendRequestHeader INVALID_GENERATION term begin_lsn end_lsn commit_lsn truncate_lsn in
  size ← rec_size hdr;
  _ ← need size ShortWal; (* read_exact *)
  wal_data ← Buf.take_bytes size;
  mret (MkAppendRequest hdr wal_data).

Definition parse_v2 : Rd ProposerAcceptorMessage :=
  tag ← read_le 8;
  let tag := tag mod 2 ^ 8 in (* as u8 *)
  if tag =? tag_g then m ← greeting_v2; mret (Greeting m)
  else if tag =? tag_v then term ← read_le 8; mret (VoteRequestMsg (MkVoteRequest INVALID_GENERATION term))
  else if tag =? tag_e then
    _ ← need 16 NotComplete;
    term ← Buf.get_le 8; start_streaming_at ← Buf.get_le 8; term_history ← from_bytes_le;
    _ ← need 8 NotComplete;
    _timeline_start_lsn ← Buf.get_le 8;
    mret (Elected (MkProposerElected INVALID_GENERATION term start_streaming_at term_history))
  else if tag =? tag_a then m ← append_request_v2; mret (AppendRequestMsg m)
  else bail (UnknownTag tag).

Definition parse (msg_bytes : bytes) (proto_version : Z) : result WireError ProposerAcceptorMessage :=
  if proto_version =? SK_PROTO_VERSION_3 then (parse_v3 msg_bytes).1
  else if proto_version =? SK_PROTO_VERSION_2 then (parse_v2 msg_bytes).1
  else Err (UnsupportedVersion proto_version).
End parse.
End Parse.

(** * The safekeeper writes *)

Module Serialize.
Definition put_member (sk : SafekeeperId) : bytes :=
  Buf.put_be 8 (sk_id sk) ++ Buf.put_cstr (host sk) ++ Buf.put_be 2 (pg_port sk).

Definition serialize_mconf (mconf : Configuration) : bytes :=
  Buf.put_be 4 (generation mconf) ++ Buf.put_be 4 (Z.of_nat (length (members mconf))) ++ (members mconf ≫= put_member) ++
  match new_members mconf with
  | Some new => Buf.put_be 4 (Z.of_nat (length new)) ++ (new ≫= put_member)
  | None => Buf.put_be 4 0
  end.

Definition put_entry (put : nat → Z → bytes) (e : TermLsn) : bytes := put 8%nat (term e) ++ put 8%nat (lsn e).

Definition feedback (f : option PageserverFeedback) : result WireError bytes :=
  match f with
  | Some f => map_err (λ _, Deserialize) (PageserverFeedback.serialize f)
  | None => Ok []
  end.

Definition serialize (msg : AcceptorProposerMessage) (proto_version : Z) : result WireError bytes :=
  if proto_version =? SK_PROTO_VERSION_3 then
    match msg with
    | AGreeting m => Ok (Buf.put_be 1 tag_g ++ Buf.put_be 8 (ag_node_id m) ++ serialize_mconf (ag_mconf m) ++ Buf.put_be 8 (ag_term m))
    | AVoteResponse m =>
        Ok (Buf.put_be 1 tag_v ++ Buf.put_be 4 (vs_generation m) ++ Buf.put_be 8 (vs_term m) ++
            Buf.put_be 1 (if vote_given m then 1 else 0) ++ Buf.put_be 8 (vs_flush_lsn m) ++ Buf.put_be 8 (vs_truncate_lsn m) ++
            Buf.put_be 4 (Z.of_nat (length (vs_term_history m))) ++ (vs_term_history m ≫= put_entry Buf.put_be))
    | AAppendResponse m =>
        fb ← feedback (as_pageserver_feedback m);
        Ok (Buf.put_be 1 tag_a ++ Buf.put_be 4 (as_generation m) ++ Buf.put_be 8 (as_term m) ++ Buf.put_be 8 (as_flush_lsn m) ++
            Buf.put_be 8 (as_commit_lsn m) ++ Buf.put_be 8 (hs_ts (as_hs_feedback m)) ++ Buf.put_be 8 (hs_xmin (as_hs_feedback m)) ++
            Buf.put_be 8 (hs_catalog_xmin (as_hs_feedback m)) ++ fb)
    end
  else if proto_version =? SK_PROTO_VERSION_2 then
    match msg with
    | AGreeting m => Ok (Buf.put_le 8 tag_g ++ Buf.put_le 8 (ag_term m) ++ Buf.put_le 8 (ag_node_id m))
    | AVoteResponse m =>
        Ok (Buf.put_le 8 tag_v ++ Buf.put_le 8 (vs_term m) ++ Buf.put_le 8 (if vote_given m then 1 else 0) ++
            Buf.put_le 8 (vs_flush_lsn m) ++ Buf.put_le 8 (vs_truncate_lsn m) ++
            Buf.put_le 4 (Z.of_nat (length (vs_term_history m))) ++ (vs_term_history m ≫= put_entry Buf.put_le) ++ Buf.put_le 8 0)
    | AAppendResponse m =>
        fb ← feedback (as_pageserver_feedback m);
        Ok (Buf.put_le 8 tag_a ++ Buf.put_le 8 (as_term m) ++ Buf.put_le 8 (as_flush_lsn m) ++ Buf.put_le 8 (as_commit_lsn m) ++
            Buf.put_le 8 (hs_ts (as_hs_feedback m)) ++ Buf.put_le 8 (hs_xmin (as_hs_feedback m)) ++
            Buf.put_le 8 (hs_catalog_xmin (as_hs_feedback m)) ++ fb)
    end
  else Err (UnsupportedVersion proto_version).
End Serialize.

(** * The proposer writes *)

Module Propose.
(** [pq_send_ascii_string] of a C string. *)
Fixpoint c_string (s : bytes) : bytes :=
  match s with [] => [] | ch :: s => if ch =? 0 then [] else ch :: c_string s end.
Definition pq_send_ascii_string (s : bytes) : bytes :=
  ((λ ch, if 0x80 <=? ch then 63 else ch) <$> c_string s) ++ [0].

Definition send_member (sk : SafekeeperId) : bytes :=
  Buf.put_be 8 (sk_id sk) ++ pq_send_ascii_string (host sk) ++ Buf.put_be 2 (pg_port sk).

Definition MembershipConfigurationSerialize (mconf : Configuration) : bytes :=
  Buf.put_be 4 (generation mconf) ++ Buf.put_be 4 (Z.of_nat (length (members mconf))) ++ (members mconf ≫= send_member) ++
  Buf.put_be 4 (Z.of_nat (length (WalProposer.new_mset mconf))) ++ (WalProposer.new_mset mconf ≫= send_member).

Definition HexDecodeChar (c : Z) : option Z :=
  if (48 <=? c) && (c <=? 57) then Some (c - 48)
  else if (97 <=? c) && (c <=? 102) then Some (c - 97 + 10)
  else if (65 <=? c) && (c <=? 70) then Some (c - 65 + 10)
  else None.

(** The characters after the end of a string are not hexadecimal digits: the loop
    stops at the terminating zero. *)
Fixpoint HexDecodeString (input : bytes) (nbytes : nat) : option bytes :=
  match nbytes with
  | O => Some []
  | S n =>
      match input with
      | c1 :: c2 :: input =>
          n1 ← HexDecodeChar c1; n2 ← HexDecodeChar c2; rest ← HexDecodeString input n; Some (n1 * 16 + n2 :: rest)
      | _ => None
      end
  end.

(** An id of the struct of version 2, which is left as it is for an empty string. *)
Definition id_v2 (s stack : bytes) : result WpError bytes :=
  if bool_decide (c_string s = []) then Ok stack
  else match HexDecodeString s 16 with Some id => Ok id | None => Err Fatal end.

(** [stack] is what the memory of the two ids holds before they are written. *)
Definition PAMessageSerialize (cfg : WalProposerConfig) (stack : bytes * bytes) (pgTimeline : Z) (msg : ProposerAcceptorMessage)
    (proto : Z) : result WpError bytes :=
  if proto =? 3 then
    match msg with
    | Greeting m =>
        Ok (Buf.put_be 1 tag_g ++ pq_send_ascii_string (neon_tenant cfg) ++ pq_send_ascii_string (neon_timeline cfg) ++
            MembershipConfigurationSerialize (pg_mconf m) ++ Buf.put_be 4 (pg_pg_version m) ++ Buf.put_be 8 (pg_system_id m) ++
            Buf.put_be 4 (pg_wal_seg_size m))
    | VoteRequestMsg m => Ok (Buf.put_be 1 tag_v ++ Buf.put_be 4 (vr_generation m) ++ Buf.put_be 8 (vr_term m))
    | Elected m =>
        Ok (Buf.put_be 1 tag_e ++ Buf.put_be 4 (pe_generation m) ++ Buf.put_be 8 (pe_term m) ++
            Buf.put_be 8 (pe_start_streaming_at m) ++ Buf.put_be 4 (Z.of_nat (length (pe_term_history m))) ++
            (pe_term_history m ≫= Serialize.put_entry Buf.put_be))
    | AppendRequestMsg m =>
        Ok (Buf.put_be 1 tag_a ++ Buf.put_be 4 (ar_generation (h m)) ++ Buf.put_be 8 (ar_term (h m)) ++
            Buf.put_be 8 (ar_begin_lsn (h m)) ++ Buf.put_be 8 (ar_end_lsn (h m)) ++ Buf.put_be 8 (ar_commit_lsn (h m)) ++
            Buf.put_be 8 (ar_truncate_lsn (h m)))
    | _ => Err Fatal
    end
  else if proto =? 2 then
    match msg with
    | Greeting m =>
        timeline ← id_v2 (neon_timeline cfg) stack.2;
        tenant ← id_v2 (neon_tenant cfg) stack.1;
        Ok (Buf.put_le 8 tag_g ++ Buf.put_le 4 proto ++ Buf.put_le 4 (pg_pg_version m) ++ replicate 16 0 ++
            Buf.put_le 8 (systemId cfg) ++ timeline ++ tenant ++ Buf.put_le 4 pgTimeline ++ Buf.put_le 4 (wp_wal_segment_size cfg))
    | VoteRequestMsg m => Ok (Buf.put_le 8 tag_v ++ Buf.put_le 8 (vr_term m) ++ replicate 16 0)
    | Elected m =>
        match pe_term_history m with
        | first :: _ =>
            Ok (Buf.put_le 8 tag_e ++ Buf.put_le 8 (pe_term m) ++ Buf.put_le 8 (pe_start_streaming_at m) ++
                Buf.put_le 4 (Z.of_nat (length (pe_term_history m))) ++ (pe_term_history m ≫= Serialize.put_entry Buf.put_le) ++
                Buf.put_le 8 (lsn first))
        | [] => Panic
        end
    | AppendRequestMsg m =>
        Ok (Buf.put_le 8 tag_a ++ Buf.put_le 8 (ar_term (h m)) ++ Buf.put_le 8 0 ++ Buf.put_le 8 (ar_begin_lsn (h m)) ++
            Buf.put_le 8 (ar_end_lsn (h m)) ++ Buf.put_le 8 (ar_commit_lsn (h m)) ++ Buf.put_le 8 (ar_truncate_lsn (h m)) ++
            replicate 16 0)
    | _ => Err Fatal
    end
  else Err Fatal.

(** The WAL follows the header of an append request. *)
Definition payload (msg : ProposerAcceptorMessage) : bytes := match msg with AppendRequestMsg m => wal_data m | _ => [] end.
End Propose.

(** * The proposer reads *)

Module Read.
Abbreviation Rd := (M bytes WpError).

(** The getters of [walproposer_compat.c]: too short a message ends the process. *)
Definition short (n : nat) : Rd unit := b ← getS; ensure (n <=? length b)%nat Fatal.
Definition pq_getmsgint (n : nat) : Rd Z := _ ← short n; Buf.get_be n.
Definition pq_getmsgint_le (n : nat) : Rd Z := _ ← short n; Buf.get_le n.
Definition pq_getmsgbytes (datalen : Z) : Rd bytes :=
  _ ← ensure (0 <=? datalen) Fatal; _ ← short (Z.to_nat datalen); Buf.take_bytes (Z.to_nat datalen).
Definition pq_getmsgrawstring : Rd bytes := λ b,
  match Buf.cstr b with Some (s, r) => (Ok s, r) | None => (Err Fatal, b) end.
Definition pq_getmsgend : Rd unit := b ← getS; ensure (length b =? 0)%nat Fatal.

Definition MAXCONNINFO : nat := 1024.

Definition read_member : Rd SafekeeperId :=
  node_id ← pq_getmsgint 8;
  buf_host ← pq_getmsgrawstring;
  port ← pq_getmsgint 2;
  mret (MkSafekeeperId node_id (take (MAXCONNINFO - 1) buf_host) port). (* strlcpy *)

Fixpoint times {A} (n : nat) (m : Rd A) : Rd (list A) :=
  match n with O => mret [] | S n => a ← m; l ← times n m; mret (a :: l) end.

Definition MembershipConfigurationDeserialize : Rd Configuration :=
  generation ← pq_getmsgint 4;
  len ← pq_getmsgint 4;
  members ← times (Z.to_nat len) read_member;
  new_len ← pq_getmsgint 4;
  new ← times (Z.to_nat new_len) read_member;
  mret (MkConfiguration generation members (match new with [] => None | _ => Some new end)).

Definition read_entry (get : nat → Rd Z) : Rd TermLsn := term ← get 8%nat; lsn ← get 8%nat; mret (MkTermLsn term lsn).

Definition read_history (get : nat → Rd Z) : Rd TermHistory.t :=
  n_entries ← get 4%nat; times (Z.to_nat n_entries) (read_entry get).

Definition read_signed (get : nat → Rd Z) : Rd Z := v ← get 8%nat; mret (to_signed 64 v).

(** [ParsePageserverFeedbackMessage]: one key. *)
Definition feedback_key (key : bytes) (value_len : Z) (f : PageserverFeedback) : Rd PageserverFeedback :=
  let named := PageserverFeedback.key_is key in
  if named "current_timeline_size" then v ← pq_getmsgint 8; mret (PageserverFeedback.set_size v f)
  else if named "ps_writelsn" || named "last_received_lsn" then v ← pq_getmsgint 8; mret (PageserverFeedback.set_received v f)
  else if named "ps_flushlsn" || named "disk_consistent_lsn" then v ← pq_getmsgint 8; mret (PageserverFeedback.set_disk v f)
  else if named "ps_applylsn" || named "remote_consistent_lsn" then v ← pq_getmsgint 8; mret (PageserverFeedback.set_remote v f)
  else if named "ps_replytime" || named "replytime" then v ← read_signed pq_getmsgint; mret (PageserverFeedback.set_reply (v * 1000) f)
  else if named "shard_number" then v ← pq_getmsgint 4; mret (PageserverFeedback.set_shard v f)
  else if named "corruption_detected" then v ← pq_getmsgint 1; mret (PageserverFeedback.set_corruption (negb (v =? 0)) f)
  else _ ← pq_getmsgbytes (to_signed 32 value_len); mret f.

Fixpoint feedback_keys (n : nat) (f : PageserverFeedback) : Rd PageserverFeedback :=
  match n with
  | O => mret f
  | S n => key ← pq_getmsgrawstring; value_len ← pq_getmsgint 4; f ← feedback_key key value_len f; feedback_keys n f
  end.

Definition ParsePageserverFeedbackMessage : Rd PageserverFeedback :=
  nkeys ← pq_getmsgint 1; feedback_keys (Z.to_nat nkeys) PageserverFeedback.empty.

Definition read_feedback : Rd (option PageserverFeedback) :=
  b ← getS;
  if (0 <? length b)%nat then f ← ParsePageserverFeedbackMessage; mret (Some f) else mret None.

Definition read_hs (get : nat → Rd Z) : Rd HotStandbyFeedback :=
  ts ← read_signed get; xmin ← get 8%nat; catalog_xmin ← get 8%nat; mret (MkHotStandbyFeedback ts xmin catalog_xmin).

Definition tag_of (anymsg : AcceptorProposerMessage) : Z :=
  match anymsg with AGreeting _ => tag_g | AVoteResponse _ => tag_v | AAppendResponse _ => tag_a end.

(** The parsing part of [AsyncReadMessage]: [anymsg] is the struct that is filled in;
    [None] resets the connection.  Version 2 leaves the configuration and the
    generation of the struct alone. *)
Definition read_v3 (anymsg : AcceptorProposerMessage) : Rd AcceptorProposerMessage :=
  match anymsg with
  | AGreeting _ =>
      nodeId ← pq_getmsgint 8; mconf ← MembershipConfigurationDeserialize; term ← pq_getmsgint 8; _ ← pq_getmsgend;
      mret (AGreeting (MkAcceptorGreeting nodeId mconf term))
  | AVoteResponse _ =>
      generation ← pq_getmsgint 4; term ← pq_getmsgint 8; voteGiven ← pq_getmsgint 1; flushLsn ← pq_getmsgint 8;
      truncateLsn ← pq_getmsgint 8; termHistory ← read_history pq_getmsgint; _ ← pq_getmsgend;
      mret (AVoteResponse (MkVoteResponse generation term (negb (voteGiven =? 0)) flushLsn truncateLsn termHistory))
  | AAppendResponse _ =>
      generation ← pq_getmsgint 4; term ← pq_getmsgint 8; flushLsn ← pq_getmsgint 8; commitLsn ← pq_getmsgint 8;
      hs ← read_hs pq_getmsgint; ps_feedback ← read_feedback; _ ← pq_getmsgend;
      mret (AAppendResponse (MkAppendResponse generation term flushLsn commitLsn hs ps_feedback))
  end.

Definition read_v2 (anymsg : AcceptorProposerMessage) : Rd AcceptorProposerMessage :=
  match anymsg with
  | AGreeting old =>
      term ← pq_getmsgint_le 8; nodeId ← pq_getmsgint_le 8; _ ← pq_getmsgend;
      mret (AGreeting (MkAcceptorGreeting nodeId (ag_mconf old) term))
  | AVoteResponse old =>
      term ← pq_getmsgint_le 8; voteGiven ← pq_getmsgint_le 8; flushLsn ← pq_getmsgint_le 8; truncateLsn ← pq_getmsgint_le 8;
      termHistory ← read_history pq_getmsgint_le; _timelineStartLsn ← pq_getmsgint_le 8; _ ← pq_getmsgend;
      mret (AVoteResponse (MkVoteResponse (vs_generation old) term (negb (voteGiven mod 2 ^ 8 =? 0)) flushLsn truncateLsn termHistory))
  | AAppendResponse old =>
      term ← pq_getmsgint_le 8; flushLsn ← pq_getmsgint_le 8; commitLsn ← pq_getmsgint_le 8;
      hs ← read_hs pq_getmsgint_le; ps_feedback ← read_feedback; _ ← pq_getmsgend;
      mret (AAppendResponse (MkAppendResponse (as_generation old) term flushLsn commitLsn hs ps_feedback))
  end.

Definition read_message (proto_version : Z) (anymsg : AcceptorProposerMessage) : Rd (option AcceptorProposerMessage) :=
  if proto_version =? 3 then
    tag ← pq_getmsgint 1;
    if negb (tag =? tag_of anymsg) then mret None else m ← read_v3 anymsg; mret (Some m)
  else if proto_version =? 2 then
    tag ← pq_getmsgint_le 8;
    if negb (tag mod 2 ^ 8 =? tag_of anymsg) then mret None else m ← read_v2 anymsg; mret (Some m)
  else bail Fatal.
End Read.
