(* ===== verification/WireFacts.v ===== *)
(** What one side of the protocol writes, the other reads back: the messages of the
    proposer at the safekeeper, the replies of the safekeeper at the proposer, in the
    versions 2 and 3.  The parser of the safekeeper rejects every message that is cut
    off, and panics only on a greeting. *)

From S2P Require Import Prelude Text Lsns Shards Membership TermHistories Feedbacks SkStates SafeKeepers WalProposers Wires.
Local Open Scope Z_scope.

(** * Readers *)

(** [m] reads [b] as [a], and leaves what follows. *)
Definition reads {E A} (m : M bytes E A) (b : bytes) (a : A) : Prop := ∀ r, m (b ++ r) = (Ok a, r).

Create HintDb reads.

Section readers.
Context {E : Type}.

Lemma reads_bind {A B} (m : M bytes E A) (f : A → M bytes E B) b1 b2 a c :
  reads m b1 a → reads (f a) b2 c → reads (m ≫= f) (b1 ++ b2) c.
Proof. intros H1 H2 r. rewrite <-app_assoc. rewrite (M_bind_ok m f _ a (b2 ++ r)) by apply H1. apply H2. Qed.

Lemma reads_ret {A} (a : A) : reads (E := E) (mret a) [] a.
Proof. done. Qed.

Lemma reads_map {A B} (m : M bytes E A) (g : A → B) b a : reads m b a → reads (m ≫= λ x, mret (g x)) b (g a).
Proof. intros Hm r. by rewrite (M_bind_ok m _ _ a r). Qed.

Lemma reads_skip {A B} (m : M bytes E A) (f : A → M bytes E B) b a c :
  (∀ r, m (b ++ r) = (Ok a, b ++ r)) → reads (f a) b c → reads (m ≫= f) b c.
Proof. intros H1 H2 r. rewrite (M_bind_ok m f _ a (b ++ r)) by apply H1. apply H2. Qed.

Lemma reads_lift {A B} (x : result E A) (f : A → M bytes E B) b a c : x = Ok a → reads (f a) b c → reads (liftR x ≫= f) b c.
Proof. intros -> Hf r. apply Hf. Qed.

Lemma reads_get_be n z : in_u (8 * Z.of_nat n) z → reads (E := E) (Buf.get_be n) (Buf.put_be n z) z.
Proof. intros Hz r. by apply get_be_put. Qed.
Lemma reads_get_le n z : in_u (8 * Z.of_nat n) z → reads (E := E) (Buf.get_le n) (Buf.put_le n z) z.
Proof. intros Hz r. by apply get_le_put. Qed.
Lemma reads_get_f (e : E) n z : in_u (8 * Z.of_nat n) z → reads (Buf.get_f e n) (Buf.put_be n z) z.
Proof. intros Hz r. by apply get_f_put. Qed.
Lemma reads_take n (l : bytes) : n = length l → reads (E := E) (Buf.take_bytes n) l l.
Proof. intros Hn r. by apply take_bytes_app. Qed.
End readers.

Lemma length_put_le n z : length (Buf.put_le n z) = n.
Proof. unfold Buf.put_le. by rewrite length_rev, length_put_be. Qed.

Lemma bind_nil {A B} (f : A → list B) : ([] : list A) ≫= f = [].
Proof. done. Qed.

(** * Well-formed messages *)

Definition entry_ok (e : TermLsn) : Prop := in_u 64 (term e) ∧ in_u 64 (lsn e).
Definition history_ok (th : TermHistory.t) : Prop := Forall entry_ok th ∧ Z.of_nat (length th) < 2 ^ 32.

(** A string of seven bit characters without a zero. *)
Definition ascii_ok (s : bytes) : Prop := Forall (λ c, 0 < c < 0x80) s.

Record member_ok (sk : SafekeeperId) : Prop := {
  mo_id : in_u 64 (sk_id sk);
  mo_host : ascii_ok (host sk) ∧ (length (host sk) < Read.MAXCONNINFO)%nat;
  mo_port : in_u 16 (pg_port sk)
}.

Definition mset_ok (m : MemberSet.t) : Prop := Forall member_ok m ∧ set_ok m ∧ Z.of_nat (length m) < 2 ^ 32.

Record mconf_ok (c : Configuration) : Prop := {
  co_generation : in_u 32 (generation c);
  co_members : mset_ok (members c);
  co_some : generation c = INVALID_GENERATION ∨ members c ≠ [];
  co_new : ∀ m, new_members c = Some m → mset_ok m ∧ m ≠ []
}.

(** ** Strings *)

Lemma ascii_utf8 s : ascii_ok s → utf8_valid s = true.
Proof. induction 1 as [|c s Hc _ IH]; [done|]. cbn. by rewrite (proj2 (Z.ltb_lt _ _)) by lia. Qed.

Lemma ascii_nonzero s : ascii_ok s → Forall (λ b, b ≠ 0) s.
Proof. intros Hs. apply (Forall_impl _ _ _ Hs). intros ?. lia. Qed.

Lemma send_ascii s : ascii_ok s → Propose.pq_send_ascii_string s = Buf.put_cstr s.
Proof.
  intros Hs. unfold Propose.pq_send_ascii_string, Buf.put_cstr. f_equal.
  induction Hs as [|c s Hc _ IH]; [done|]. cbn. rewrite (proj2 (Z.eqb_neq _ _)) by lia. cbn.
  by rewrite (proj2 (Z.leb_gt _ _)), IH by lia.
Qed.

Lemma reads_cstr s : ascii_ok s → reads Parse.get_cstr (Buf.put_cstr s) s.
Proof. intros Hs r. unfold Parse.get_cstr. by rewrite cstr_put, ascii_utf8 by auto using ascii_nonzero. Qed.

Lemma reads_rawstring s : ascii_ok s → reads Read.pq_getmsgrawstring (Buf.put_cstr s) s.
Proof. intros Hs r. unfold Read.pq_getmsgrawstring. by rewrite cstr_put by auto using ascii_nonzero. Qed.

Lemma need_ok n e (b : bytes) : (n ≤ length b)%nat → Parse.need n e b = (Ok tt, b).
Proof. intros Hn. unfold Parse.need, mbind, M_bind, getS, ensure. by rewrite (proj2 (Nat.leb_le _ _)). Qed.

Lemma reads_need {B} n e (f : unit → M bytes WireError B) b c :
  (n ≤ length b)%nat → reads (f tt) b c → reads (Parse.need n e ≫= f) b c.
Proof. intros Hn. apply reads_skip. intros r. apply need_ok. rewrite length_app. lia. Qed.

Lemma reads_short n : ∀ b : bytes, (n ≤ length b)%nat → Read.short n b = (Ok tt, b).
Proof. intros b Hn. unfold Read.short, mbind, M_bind, getS, ensure. by rewrite (proj2 (Nat.leb_le _ _)). Qed.

Lemma reads_getmsgint n z : in_u (8 * Z.of_nat n) z → reads (Read.pq_getmsgint n) (Buf.put_be n z) z.
Proof.
  intros Hz. apply (reads_skip _ _ _ tt); [|by apply reads_get_be].
  intros r. apply reads_short. rewrite length_app, length_put_be. lia.
Qed.

Lemma reads_getmsgint_le n z : in_u (8 * Z.of_nat n) z → reads (Read.pq_getmsgint_le n) (Buf.put_le n z) z.
Proof.
  intros Hz. apply (reads_skip _ _ _ tt); [|by apply reads_get_le].
  intros r. apply reads_short. rewrite length_app, length_put_le. lia.
Qed.

(** * Messages of the proposer *)

Section proposer.
Context `{HexLaws} `{LeReaderLaws}.

Lemma reads_le n z : in_u (8 * Z.of_nat n) z → reads (read_le n) (Buf.put_le n z) z.
Proof.
  intros Hz r. pose proof (read_le_spec (Buf.put_le n z) r) as Hl. rewrite length_put_le in Hl. rewrite Hl.
  unfold Buf.put_le, Buf.put_be. by rewrite rev_involutive, Z.mod_small, be_val_be_bytes.
Qed.

Lemma reads_array n (l : bytes) : n = length l → reads (read_array n) l l.
Proof. intros -> r. apply read_array_spec. Qed.

Lemma reads_member sk : member_ok sk → reads Parse.get_member (Propose.send_member sk) sk.
Proof.
  intros [Hi [Hh _] Hp]. unfold Parse.get_member, Propose.send_member. rewrite send_ascii by done.
  apply (reads_bind _ _ _ _ (sk_id sk)); [by apply reads_get_f|].
  apply (reads_bind _ _ _ _ (host sk)); [by apply reads_cstr|].
  destruct sk. apply (reads_map _ (λ p, _)). by apply reads_get_f.
Qed.

Lemma reads_members l acc :
  Forall member_ok l → set_ok (acc ++ l) → reads (Parse.get_members (length l) acc) (l ≫= Propose.send_member) (acc ++ l).
Proof.
  intros Hl. revert acc. induction Hl as [|sk l Hsk _ IH]; intros acc Hs.
  { rewrite app_nil_r. apply reads_ret. }
  change ((sk :: l) ≫= Propose.send_member) with (Propose.send_member sk ++ (l ≫= Propose.send_member)).
  assert (acc ++ sk :: l = (acc ++ [sk]) ++ l) as Ea by (by rewrite <-app_assoc). rewrite Ea in *.
  apply (reads_bind _ _ _ _ sk); [by apply reads_member|].
  apply (reads_lift _ _ _ (acc ++ [sk])); [|by apply IH].
  rewrite add_fresh; [done|]. unfold set_ok in *. rewrite fmap_app in Hs. by apply NoDup_app in Hs as [? _].
Qed.

Lemma reads_mset m : mset_ok m →
  reads (Parse.get_members (Z.to_nat (Z.of_nat (length m))) MemberSet.empty) (m ≫= Propose.send_member) m.
Proof. intros (Hm & Hs & _). rewrite Nat2Z.id. by apply (reads_members m []). Qed.

Lemma reads_len (e : WireError) {A} (l : list A) : Z.of_nat (length l) < 2 ^ 32 → reads (Buf.get_f e 4) (Buf.put_be 4 (Z.of_nat (length l))) (Z.of_nat (length l)).
Proof. intros Hl. apply reads_get_f. unfold in_u. cbn. lia. Qed.

Lemma reads_mconf c : mconf_ok c → reads Parse.get_mconf (Propose.MembershipConfigurationSerialize c) c.
Proof.
  intros [Hg Hm Hs Hn]. unfold Parse.get_mconf, Propose.MembershipConfigurationSerialize.
  apply (reads_bind _ _ _ _ (generation c)); [by apply reads_get_f|].
  apply (reads_bind _ _ _ _ (Z.of_nat (length (members c)))); [apply reads_len, Hm|].
  assert (negb (generation c =? INVALID_GENERATION) && (Z.of_nat (length (members c)) =? 0) = false) as ->.
  { destruct Hs as [->|Hs]; [done|]. destruct (members c); [done|]. cbn [length]. rewrite andb_false_iff, Z.eqb_neq. lia. }
  apply (reads_bind _ _ _ _ (members c)); [by apply reads_mset|].
  destruct c as [g m [n|]]; cbn [WalProposer.new_mset new_members default] in *.
  - destruct (Hn n eq_refl) as [Hok Hne]. apply (reads_bind _ _ _ _ (Z.of_nat (length n))); [apply reads_len, Hok|].
    rewrite (proj2 (Z.eqb_neq _ _)) by (destruct n; [done|cbn; lia]). apply (reads_map _ (λ n, _)). by apply reads_mset.
  - apply (reads_bind _ _ _ _ 0); [by apply reads_get_f|apply reads_ret].
Qed.

Lemma reads_entries th : Forall entry_ok th → reads (Parse.history_entries (length th)) (th ≫= Serialize.put_entry Buf.put_be) th.
Proof.
  induction 1 as [|[t l] th [Ht Hl] _ IH]; [apply reads_ret|].
  change ((MkTermLsn t l :: th) ≫= Serialize.put_entry Buf.put_be)
    with ((Buf.put_be 8 t ++ Buf.put_be 8 l) ++ (th ≫= Serialize.put_entry Buf.put_be)). rewrite <-app_assoc.
  apply (reads_bind _ _ _ _ t); [by apply reads_get_f|]. apply (reads_bind _ _ _ _ l); [by apply reads_get_f|].
  by apply (reads_map _ (λ th, _)).
Qed.

Lemma reads_history th : history_ok th →
  reads Parse.from_bytes (Buf.put_be 4 (Z.of_nat (length th)) ++ (th ≫= Serialize.put_entry Buf.put_be)) th.
Proof.
  intros [Hth Hl]. apply (reads_bind _ _ _ _ (Z.of_nat (length th))); [by apply reads_len|].
  rewrite Nat2Z.id. by apply reads_entries.
Qed.

Lemma reads_entries_le th : Forall entry_ok th →
  reads (Parse.history_entries_le (length th)) (th ≫= Serialize.put_entry Buf.put_le) th.
Proof.
  induction 1 as [|[t l] th [Ht Hl] _ IH]; [apply reads_ret|].
  change ((MkTermLsn t l :: th) ≫= Serialize.put_entry Buf.put_le)
    with ((Buf.put_le 8 t ++ Buf.put_le 8 l) ++ (th ≫= Serialize.put_entry Buf.put_le)). rewrite <-app_assoc.
  apply reads_need; [rewrite !length_app, !length_put_le; lia|].
  apply (reads_bind _ _ _ _ t); [by apply reads_get_le|]. apply (reads_bind _ _ _ _ l); [by apply reads_get_le|].
  by apply (reads_map _ (λ th, _)).
Qed.

Lemma reads_history_le th : history_ok th →
  reads Parse.from_bytes_le (Buf.put_le 4 (Z.of_nat (length th)) ++ (th ≫= Serialize.put_entry Buf.put_le)) th.
Proof.
  intros [Hth Hl]. apply reads_need; [rewrite !length_app, !length_put_le; lia|].
  apply (reads_bind _ _ _ _ (Z.of_nat (length th))); [apply reads_get_le; unfold in_u; cbn; lia|].
  rewrite Nat2Z.id. by apply reads_entries_le.
Qed.

(** The ids of the greeting, as the safekeeper and as the struct of version 2 read
    them. *)
Definition id_ok (id : bytes) : Prop := length id = 16%nat ∧ Forall u8 id.

Lemma hex_ascii id : Forall u8 id → ascii_ok (hex_encode id).
Proof.
  induction 1 as [|x id Hx _ IH]; [constructor|]. rewrite hex_encode_cons. apply Forall_app. split; [|exact IH].
  set (f := λ x, bool_decide (ascii_ok (hex_encode [x]))).
  assert (f x = true) as Ef by (by apply (forallb_seqZ f 256)). by apply bool_decide_eq_true in Ef.
Qed.

Lemma reads_id id {B} (f : bytes → M bytes WireError B) b c : id_ok id → reads (f id) b c → reads (Parse.id_of (hex_encode id) ≫= f) b c.
Proof.
  intros [Hl Hid]. apply (reads_lift _ _ _ id). unfold TenantShardId.id_from_hex. by rewrite <-Hl, decode_encode.
Qed.

Lemma hex_decode_string id : Forall u8 id → Propose.HexDecodeString (hex_encode id) (length id) = Some id.
Proof.
  induction 1 as [|x id Hx _ IH]; [done|]. rewrite hex_encode_cons.
  set (f := λ x, match hex_encode [x] with
    | [a; b] => bool_decide ((n1 ← Propose.HexDecodeChar a; n2 ← Propose.HexDecodeChar b; Some (n1 * 16 + n2)) = Some x)
    | _ => false end).
  assert (f x = true) as Ef by (by apply (forallb_seqZ f 256)). unfold f in Ef.
  destruct (hex_encode [x]) as [|u [|v []]]; try done. apply bool_decide_eq_true in Ef. cbn.
  destruct (Propose.HexDecodeChar u), (Propose.HexDecodeChar v); try done. cbn in *. rewrite IH. cbn. congruence.
Qed.

Lemma id_v2_hex id stack : id_ok id → Propose.id_v2 (hex_encode id) stack = Ok id.
Proof.
  intros [Hl Hid]. unfold Propose.id_v2. rewrite <-Hl at 1. rewrite hex_decode_string by done.
  rewrite bool_decide_eq_false_2; [done|]. intros E. pose proof (hex_ascii id Hid) as Ha.
  pose proof (length_hex_encode id) as L. destruct (hex_encode id) as [|c s]; [cbn in L; lia|].
  apply Forall_cons in Ha as [Hc _]. cbn in E. by rewrite (proj2 (Z.eqb_neq _ _)) in E by lia.
Qed.

Definition header_ok (m : AppendRequest) : Prop :=
  in_u 32 (ar_generation (h m)) ∧ in_u 64 (ar_term (h m)) ∧ in_u 64 (ar_begin_lsn (h m)) ∧ in_u 64 (ar_end_lsn (h m)) ∧
  in_u 64 (ar_commit_lsn (h m)) ∧ in_u 64 (ar_truncate_lsn (h m)) ∧
  ar_end_lsn (h m) = ar_begin_lsn (h m) + Z.of_nat (length (wal_data m)) ∧ Z.of_nat (length (wal_data m)) ≤ MAX_SEND_SIZE.

(** What the proposer of a configuration sends: numbers of their width, ids in hex
    notation, the greeting from the configuration, as much WAL as the header says. *)
Definition proposer_msg_ok (cfg : WalProposerConfig) (msg : ProposerAcceptorMessage) : Prop :=
  match msg with
  | Greeting m =>
      neon_tenant cfg = hex_encode (pg_tenant_id m) ∧ id_ok (pg_tenant_id m) ∧
      neon_timeline cfg = hex_encode (pg_timeline_id m) ∧ id_ok (pg_timeline_id m) ∧
      systemId cfg = pg_system_id m ∧ in_u 64 (pg_system_id m) ∧
      wp_wal_segment_size cfg = pg_wal_seg_size m ∧ in_u 32 (pg_wal_seg_size m) ∧
      140000 ≤ pg_pg_version m < 180000 ∧ mconf_ok (pg_mconf m)
  | VoteRequestMsg m => in_u 32 (vr_generation m) ∧ in_u 64 (vr_term m)
  | Elected m =>
      in_u 32 (pe_generation m) ∧ in_u 64 (pe_term m) ∧ in_u 64 (pe_start_streaming_at m) ∧
      history_ok (pe_term_history m) ∧ pe_term_history m ≠ []
  | AppendRequestMsg m => header_ok m
  | _ => False
  end.

(** What version 2 carries of a message. *)
Definition v2_content (msg : ProposerAcceptorMessage) : ProposerAcceptorMessage :=
  match msg with
  | Greeting m => Greeting (MkProposerGreeting (pg_tenant_id m) (pg_timeline_id m) Configuration.empty
                              (pg_pg_version m) (pg_system_id m) (pg_wal_seg_size m))
  | VoteRequestMsg m => VoteRequestMsg (MkVoteRequest INVALID_GENERATION (vr_term m))
  | Elected m => Elected (MkProposerElected INVALID_GENERATION (pe_term m) (pe_start_streaming_at m) (pe_term_history m))
  | AppendRequestMsg m =>
      AppendRequestMsg (MkAppendRequest (MkAppendRequestHeader INVALID_GENERATION (ar_term (h m)) (ar_begin_lsn (h m))
        (ar_end_lsn (h m)) (ar_commit_lsn (h m)) (ar_truncate_lsn (h m))) (wal_data m))
  | _ => msg
  end.

Lemma reads_le_any n z : reads (read_le n) (Buf.put_le n z) (z mod 2 ^ (8 * Z.of_nat n)).
Proof.
  assert (0 < 2 ^ (8 * Z.of_nat n)) by lia.
  assert (Buf.put_le n z = Buf.put_le n (z mod 2 ^ (8 * Z.of_nat n))) as ->
    by (unfold Buf.put_le, Buf.put_be; by rewrite Z.mod_mod by lia).
  apply reads_le. apply Z.mod_pos_bound. lia.
Qed.

(** The WAL after a header. *)
Lemma reads_wal m : header_ok m → ∀ gen,
  let hdr := MkAppendRequestHeader gen (ar_term (h m)) (ar_begin_lsn (h m)) (ar_end_lsn (h m)) (ar_commit_lsn (h m)) (ar_truncate_lsn (h m)) in
  reads (size ← Parse.rec_size hdr; _ ← Parse.need size ShortWal; wal_data ← Buf.take_bytes size; mret (MkAppendRequest hdr wal_data))
    (wal_data m) (MkAppendRequest hdr (wal_data m)).
Proof.
  intros (_ & _ & _ & _ & _ & _ & Hend & Hmax) gen hdr.
  assert (∀ b, Parse.rec_size hdr b = (Ok (length (wal_data m)), b)) as Hs.
  { intros b. unfold Parse.rec_size, Lsn.checked_sub, checked_sub. cbn. rewrite Hend.
    rewrite (proj2 (Z.leb_le _ _)) by lia.
    replace (ar_begin_lsn (h m) + Z.of_nat (length (wal_data m)) - ar_begin_lsn (h m)) with (Z.of_nat (length (wal_data m))) by lia.
    by rewrite (proj2 (Z.ltb_ge _ _)), Nat2Z.id by done. }
  apply (reads_skip _ _ _ _ _ (λ r, Hs _)). apply reads_need; [done|]. apply (reads_map _ (λ w, _)). by apply reads_take.
Qed.

Ltac rd_get := first [by apply reads_get_f|by apply reads_get_le|by apply reads_le|apply reads_le_any|by apply reads_array].
Ltac rd a := apply (reads_bind _ _ _ _ a); [rd_get|cbv beta].

Lemma reads_append m : header_ok m → reads Parse.append_request
  (Buf.put_be 4 (ar_generation (h m)) ++ Buf.put_be 8 (ar_term (h m)) ++ Buf.put_be 8 (ar_begin_lsn (h m)) ++
   Buf.put_be 8 (ar_end_lsn (h m)) ++ Buf.put_be 8 (ar_commit_lsn (h m)) ++ Buf.put_be 8 (ar_truncate_lsn (h m)) ++ wal_data m) m.
Proof.
  intros Hok. pose proof Hok as (Hg & Ht & Hb & He & Hc & Htr & _).
  rd (ar_generation (h m)). rd (ar_term (h m)). rd (ar_begin_lsn (h m)). rd (ar_end_lsn (h m)). rd (ar_commit_lsn (h m)).
  rd (ar_truncate_lsn (h m)). pose proof (reads_wal m Hok (ar_generation (h m))) as Hw. by destruct m as [[] w].
Qed.

Lemma reads_append_v2 m : header_ok m → reads Parse.append_request_v2
  (Buf.put_le 8 (ar_term (h m)) ++ Buf.put_le 8 0 ++ Buf.put_le 8 (ar_begin_lsn (h m)) ++ Buf.put_le 8 (ar_end_lsn (h m)) ++
   Buf.put_le 8 (ar_commit_lsn (h m)) ++ Buf.put_le 8 (ar_truncate_lsn (h m)) ++ replicate 16 0 ++ wal_data m)
  (MkAppendRequest (MkAppendRequestHeader INVALID_GENERATION (ar_term (h m)) (ar_begin_lsn (h m)) (ar_end_lsn (h m))
     (ar_commit_lsn (h m)) (ar_truncate_lsn (h m))) (wal_data m)).
Proof.
  intros Hok. pose proof Hok as (Hg & Ht & Hb & He & Hc & Htr & _).
  rd (ar_term (h m)). rd 0. rd (ar_begin_lsn (h m)). rd (ar_end_lsn (h m)). rd (ar_commit_lsn (h m)). rd (ar_truncate_lsn (h m)).
  rd (replicate 16 0). exact (reads_wal m Hok INVALID_GENERATION).
Qed.


Lemma reads_greeting cfg m : proposer_msg_ok cfg (Greeting m) → reads Parse.greeting
  (Propose.pq_send_ascii_string (neon_tenant cfg) ++ Propose.pq_send_ascii_string (neon_timeline cfg) ++
   Propose.MembershipConfigurationSerialize (pg_mconf m) ++ Buf.put_be 4 (pg_pg_version m) ++ Buf.put_be 8 (pg_system_id m) ++
   Buf.put_be 4 (pg_wal_seg_size m)) m.
Proof.
  intros (-> & Ht & -> & Hl & _ & Hs & _ & Hw & Hv & Hm).
  rewrite !send_ascii by (apply hex_ascii; first [apply Ht|apply Hl]).
  apply (reads_bind _ _ _ _ (hex_encode (pg_tenant_id m))); [apply reads_cstr, hex_ascii, Ht|]. apply reads_id; [done|].
  apply (reads_bind _ _ _ _ (hex_encode (pg_timeline_id m))); [apply reads_cstr, hex_ascii, Hl|]. apply reads_id; [done|].
  apply (reads_bind _ _ _ _ (pg_mconf m)); [by apply reads_mconf|].
  apply (reads_bind _ _ _ _ (pg_pg_version m)); [apply reads_get_f; unfold in_u; cbn; lia|]. rd (pg_system_id m).
  rewrite <-(app_nil_r (Buf.put_be 4 (pg_wal_seg_size m))). rd (pg_wal_seg_size m).
  apply (reads_lift _ _ _ (pg_pg_version m)); [|by destruct m].
  unfold PgVersion.from_full_pg_version. by rewrite (proj2 (Z.leb_le _ _)), (proj2 (Z.ltb_lt _ _)), orb_true_r by lia.
Qed.

Lemma reads_greeting_v2 cfg m tl : proposer_msg_ok cfg (Greeting m) → reads Parse.greeting_v2
  (Buf.put_le 4 2 ++ Buf.put_le 4 (pg_pg_version m) ++ replicate 16 0 ++ Buf.put_le 8 (systemId cfg) ++
   pg_timeline_id m ++ pg_tenant_id m ++ Buf.put_le 4 tl ++ Buf.put_le 4 (wp_wal_segment_size cfg))
  (MkProposerGreeting (pg_tenant_id m) (pg_timeline_id m) Configuration.empty (pg_pg_version m) (pg_system_id m) (pg_wal_seg_size m)).
Proof.
  intros (_ & Ht & _ & Hl & -> & Hs & -> & Hw & Hv & _).
  rd 2. apply (reads_bind _ _ _ _ (pg_pg_version m)); [apply reads_le; unfold in_u; cbn; lia|]. rd (replicate 16 0).
  rd (pg_system_id m). apply (reads_bind _ _ _ _ (pg_timeline_id m)); [apply reads_array; symmetry; apply Hl|].
  apply (reads_bind _ _ _ _ (pg_tenant_id m)); [apply reads_array; symmetry; apply Ht|].
  apply (reads_bind _ _ _ _ (tl mod 2 ^ 32)); [apply reads_le_any|]. apply (reads_map _ (λ w, _)). by apply reads_le.
Qed.

(** The messages of version 3 and 2. *)
Lemma reads_proposer_v3 cfg stack tl msg : proposer_msg_ok cfg msg →
  ∃ b, Propose.PAMessageSerialize cfg stack tl msg 3 = Ok b ∧ reads Parse.parse_v3 (b ++ Propose.payload msg) msg.
Proof.
  intros Hok. destruct msg as [m|m|m|m|m|]; try done; (eexists; split; [reflexivity|]); rewrite <-?app_assoc;
    (apply reads_need; [rewrite !length_app, length_put_be; lia|]); cbn [Propose.payload]; rewrite ?app_nil_r.
  - rd tag_g. apply (reads_map _ Greeting). by apply (reads_greeting cfg).
  - destruct Hok as [Hg Ht]. rd tag_v. rd (vr_generation m). destruct m. apply (reads_map _ (λ t, VoteRequestMsg _)). rd_get.
  - destruct Hok as (Hg & Ht & Hs & Hh & _). rd tag_e. rd (pe_generation m). rd (pe_term m). rd (pe_start_streaming_at m).
    destruct m. apply (reads_map _ (λ t, Elected _)). by apply reads_history.
  - rd tag_a. apply (reads_map _ AppendRequestMsg). by apply reads_append.
Qed.

(** The struct of a vote request ends with an id that is not read. *)
Lemma reads_proposer_v2 cfg stack tl msg : proposer_msg_ok cfg msg →
  ∃ b r, Propose.PAMessageSerialize cfg stack tl msg 2 = Ok (b ++ r) ∧ reads Parse.parse_v2 (b ++ (if decide (r = []) then Propose.payload msg else [])) (v2_content msg) ∧
    (r = [] ∨ Propose.payload msg = []).
Proof.
  intros Hok. destruct msg as [m|m|m|m|m|]; try done; cbn [Propose.payload].
  - pose proof Hok as (E1 & Ht & E2 & Hl & _). unfold Propose.PAMessageSerialize. rewrite E1, E2. rewrite !id_v2_hex by done.
    eexists _, []. split; [rewrite app_nil_r; reflexivity|]. split; [|by left]. rewrite decide_True, app_nil_r by done.
    rd tag_g. apply (reads_map _ Greeting). by apply (reads_greeting_v2 cfg).
  - destruct Hok as [Hg Ht]. exists (Buf.put_le 8 tag_v ++ Buf.put_le 8 (vr_term m)), (replicate 16 0).
    split; [unfold Propose.PAMessageSerialize; by rewrite <-app_assoc|]. split; [|by right]. rewrite decide_False, app_nil_r by done.
    rd tag_v. apply (reads_map _ (λ t, VoteRequestMsg _)). rd_get.
  - destruct Hok as (Hg & Ht & Hs & Hh & Hne). unfold Propose.PAMessageSerialize. destruct m as [g t s [|e th]]; [done|].
    cbn [pe_generation pe_term pe_start_streaming_at pe_term_history] in *. eexists _, []. split; [rewrite app_nil_r; reflexivity|].
    split; [|by left]. rewrite decide_True, app_nil_r by done. rd tag_e.
    apply reads_need; [rewrite !length_app, !length_put_le; lia|]. rd t. rd s. rewrite app_assoc.
    apply (reads_bind _ _ _ _ (e :: th)); [by apply reads_history_le|]. apply reads_need; [by rewrite length_put_le|].
    apply (reads_map _ (λ t, Elected _) _ (lsn e)). apply reads_get_le, (proj1 (proj1 (Forall_cons _ _ _) (proj1 Hh))).
  - eexists _, []. split; [rewrite app_nil_r; reflexivity|]. split; [|by left]. rewrite decide_True by done. rewrite <-!app_assoc.
    rd tag_a. apply (reads_map _ AppendRequestMsg). by apply reads_append_v2.
Qed.

(** C26: The messages of the proposer survive the wire: what [PAMessageSerialize] makes of
    a well-formed message, followed by the WAL of an append request, is parsed by the
    safekeeper as that message; in version 2 without the membership, which that
    version does not carry. *)
Theorem proposer_messages_roundtrip cfg stack tl msg v :
  proposer_msg_ok cfg msg → v = 2 ∨ v = 3 →
  ∃ b, Propose.PAMessageSerialize cfg stack tl msg v = Ok b ∧
    Parse.parse (b ++ Propose.payload msg) v = Ok (if v =? 3 then msg else v2_content msg).
Proof.
  intros Hok [->| ->].
  - destruct (reads_proposer_v2 cfg stack tl msg Hok) as (b & r & E & Hr & Hd). eexists. split; [exact E|].
    unfold Parse.parse. cbn [Z.eqb Pos.eqb SK_PROTO_VERSION_2 SK_PROTO_VERSION_3]. destruct (decide (r = [])) as [->|Hn].
    + rewrite app_nil_r. specialize (Hr []). rewrite app_nil_r in Hr. by rewrite Hr.
    + destruct Hd as [Hd|Hd]; [done|rewrite Hd]. rewrite !app_nil_r in *. by rewrite Hr.
  - destruct (reads_proposer_v3 cfg stack tl msg Hok) as (b & E & Hr). exists b. split; [exact E|].
    specialize (Hr []). rewrite app_nil_r in Hr. unfold Parse.parse. cbn. by rewrite Hr.
Qed.
End proposer.

(** * Replies of the safekeeper *)

Lemma reads_times {A} (m : M bytes WpError A) (enc : A → bytes) l :
  Forall (λ a, reads m (enc a) a) l → reads (Read.times (length l) m) (l ≫= enc) l.
Proof.
  induction 1 as [|a l Ha _ IH]; [apply reads_ret|]. change ((a :: l) ≫= enc) with (enc a ++ (l ≫= enc)).
  apply (reads_bind _ _ _ _ a); [done|]. by apply (reads_map _ (λ l, a :: l)).
Qed.

Lemma reads_c_member sk : member_ok sk → reads Read.read_member (Serialize.put_member sk) sk.
Proof.
  intros [Hi [Hh Hl] Hp]. apply (reads_bind _ _ _ _ (sk_id sk)); [by apply reads_getmsgint|].
  apply (reads_bind _ _ _ _ (host sk)); [by apply reads_rawstring|].
  rewrite take_ge by (unfold Read.MAXCONNINFO in *; lia).
  destruct sk. apply (reads_map _ (λ p, _)). by apply reads_getmsgint.
Qed.

Lemma reads_c_mset m : mset_ok m →
  reads (Read.times (Z.to_nat (Z.of_nat (length m))) Read.read_member) (m ≫= Serialize.put_member) m.
Proof.
  intros (Hm & _). rewrite Nat2Z.id. apply reads_times. apply (Forall_impl _ _ _ Hm). apply reads_c_member.
Qed.

Lemma reads_c_len {A} (l : list A) : Z.of_nat (length l) < 2 ^ 32 →
  reads (Read.pq_getmsgint 4) (Buf.put_be 4 (Z.of_nat (length l))) (Z.of_nat (length l)).
Proof. intros Hl. apply reads_getmsgint. unfold in_u. cbn. lia. Qed.

Lemma reads_c_mconf c : mconf_ok c → reads Read.MembershipConfigurationDeserialize (Serialize.serialize_mconf c) c.
Proof.
  intros [Hg Hm _ Hn]. unfold Read.MembershipConfigurationDeserialize, Serialize.serialize_mconf.
  apply (reads_bind _ _ _ _ (generation c)); [by apply reads_getmsgint|].
  apply (reads_bind _ _ _ _ (Z.of_nat (length (members c)))); [apply reads_c_len, Hm|].
  apply (reads_bind _ _ _ _ (members c)); [by apply reads_c_mset|].
  destruct c as [g m [n|]]; cbn [new_members generation members] in *.
  - destruct (Hn n eq_refl) as [Hok Hne]. apply (reads_bind _ _ _ _ (Z.of_nat (length n))); [apply reads_c_len, Hok|].
    assert (MkConfiguration g m (Some n) = MkConfiguration g m (match n with [] => None | _ => Some n end)) as -> by (by destruct n).
    apply (reads_map _ (λ n, _)). by apply reads_c_mset.
  - rewrite <-(app_nil_r (Buf.put_be 4 0)). apply (reads_bind _ _ _ _ 0); [by apply reads_getmsgint|]. apply reads_ret.
Qed.

Lemma reads_c_history (get : nat → M bytes WpError Z) put th :
  (∀ n z, in_u (8 * Z.of_nat n) z → reads (get n) (put n z) z) → history_ok th →
  reads (Read.read_history get) (put 4%nat (Z.of_nat (length th)) ++ (th ≫= Serialize.put_entry put)) th.
Proof.
  intros Hget [Hth Hl]. apply (reads_bind _ _ _ _ (Z.of_nat (length th))); [apply Hget; unfold in_u; cbn; lia|].
  rewrite Nat2Z.id. apply reads_times. apply (Forall_impl _ _ _ Hth). intros [t l] [Ht Hl'].
  apply (reads_bind _ _ _ _ t); [by apply Hget|]. apply (reads_map _ (λ l, _)). by apply Hget.
Qed.

(** Signed numbers keep their value. *)
Lemma reads_c_signed (get : nat → M bytes WpError Z) put z :
  (∀ n z, reads (get n) (put n z) (z mod 2 ^ (8 * Z.of_nat n))) → - 2 ^ 63 ≤ z < 2 ^ 63 →
  reads (Read.read_signed get) (put 8%nat z) z.
Proof.
  intros Hget Hz. assert (z = to_signed 64 (z mod 2 ^ 64)) as Es.
  { unfold to_signed. destruct (Z.lt_ge_cases z 0).
    - assert (z mod 2 ^ 64 = z + 2 ^ 64) as -> by (symmetry; apply (Z.mod_unique _ _ (-1)); lia).
      rewrite (proj2 (Z.ltb_ge _ _)) by lia. lia.
    - rewrite Z.mod_small, (proj2 (Z.ltb_lt _ _)) by lia. done. }
  rewrite Es at 2. apply (reads_map _ (to_signed 64)). apply (Hget 8%nat).
Qed.

Lemma put_be_mod n z : Buf.put_be n z = Buf.put_be n (z mod 2 ^ (8 * Z.of_nat n)).
Proof. unfold Buf.put_be. by rewrite Z.mod_mod by lia. Qed.

Lemma getmsgint_any n z : reads (Read.pq_getmsgint n) (Buf.put_be n z) (z mod 2 ^ (8 * Z.of_nat n)).
Proof. rewrite put_be_mod. apply reads_getmsgint, Z.mod_pos_bound. lia. Qed.

Lemma getmsgint_le_any n z : reads (Read.pq_getmsgint_le n) (Buf.put_le n z) (z mod 2 ^ (8 * Z.of_nat n)).
Proof. unfold Buf.put_le. rewrite put_be_mod. apply reads_getmsgint_le, Z.mod_pos_bound. lia. Qed.

(** ** The feedback *)

Module CFeedback.
Import PageserverFeedback.

Lemma c_entry f key n v r g k :
  Forall (λ b, b ≠ 0) key → (n ≤ 8)%nat → in_u (8 * Z.of_nat n) v →
  (∀ len b, Read.feedback_key key len f b = (v ← Read.pq_getmsgint n; mret (g v)) b) →
  Read.feedback_keys (S k) f (entry key n v ++ r) = Read.feedback_keys k (g v) r.
Proof.
  intros Hk Hn Hv Hg. cbn [Read.feedback_keys]. unfold entry. rewrite <-!app_assoc.
  erewrite M_bind_ok; [|unfold Read.pq_getmsgrawstring; by rewrite cstr_put].
  erewrite M_bind_ok; [|apply reads_getmsgint; unfold in_u; cbn; lia].
  erewrite M_bind_ok; [reflexivity|]. rewrite Hg. erewrite M_bind_ok; [reflexivity|]. by apply reads_getmsgint.
Qed.

Ltac c_field := intros len b; reflexivity.
Ltac nonzero := vm_compute; repeat constructor; done.

Lemma c_size f v r k : in_u 64 v →
  Read.feedback_keys (S k) f (entry (bytes_of_string "current_timeline_size") 8 v ++ r) = Read.feedback_keys k (set_size v f) r.
Proof. intros Hv. by apply (c_entry f _ 8 v r (λ v, set_size v f)); [nonzero|lia| |c_field]. Qed.
Lemma c_received f v r k : in_u 64 v →
  Read.feedback_keys (S k) f (entry (bytes_of_string "ps_writelsn") 8 v ++ r) = Read.feedback_keys k (set_received v f) r.
Proof. intros Hv. by apply (c_entry f _ 8 v r (λ v, set_received v f)); [nonzero|lia| |c_field]. Qed.
Lemma c_disk f v r k : in_u 64 v →
  Read.feedback_keys (S k) f (entry (bytes_of_string "ps_flushlsn") 8 v ++ r) = Read.feedback_keys k (set_disk v f) r.
Proof. intros Hv. by apply (c_entry f _ 8 v r (λ v, set_disk v f)); [nonzero|lia| |c_field]. Qed.
Lemma c_remote f v r k : in_u 64 v →
  Read.feedback_keys (S k) f (entry (bytes_of_string "ps_applylsn") 8 v ++ r) = Read.feedback_keys k (set_remote v f) r.
Proof. intros Hv. by apply (c_entry f _ 8 v r (λ v, set_remote v f)); [nonzero|lia| |c_field]. Qed.
Lemma c_reply f v r k : 0 ≤ v < 2 ^ 63 →
  Read.feedback_keys (S k) f (entry (bytes_of_string "ps_replytime") 8 v ++ r) = Read.feedback_keys k (set_reply (v * 1000) f) r.
Proof.
  intros Hv. rewrite (c_entry f _ 8 v r (λ v, set_reply (to_signed 64 v * 1000) f)); [|nonzero|lia|unfold in_u; cbn; lia|].
  - unfold to_signed. by rewrite (proj2 (Z.ltb_lt v (2 ^ (64 - 1)))) by (cbn; lia).
  - intros len b. transitivity ((v ← Read.read_signed Read.pq_getmsgint; mret (set_reply (v * 1000) f)) b); [reflexivity|].
    unfold Read.read_signed, mbind, M_bind. by destruct (Read.pq_getmsgint 8 b) as [[a|e|] s].
Qed.
Lemma c_shard f v r k : in_u 32 v →
  Read.feedback_keys (S k) f (entry (bytes_of_string "shard_number") 4 v ++ r) = Read.feedback_keys k (set_shard v f) r.
Proof. intros Hv. by apply (c_entry f _ 4 v r (λ v, set_shard v f)); [nonzero|lia| |c_field]. Qed.
Lemma c_corruption f r k :
  Read.feedback_keys (S k) f (entry (bytes_of_string "corruption_detected") 1 1 ++ r) = Read.feedback_keys k (set_corruption true f) r.
Proof. by apply (c_entry f _ 1 1 r (λ v, set_corruption (negb (v =? 0)) f)); [nonzero|lia| |c_field]. Qed.

#[local] Opaque entry Read.feedback_key.

(** What the safekeeper writes of a feedback, the proposer reads. *)
Lemma c_feedback f : FeedbackFacts.feedback_ok f →
  ∃ b, serialize f = Ok b ∧ b ≠ [] ∧ Read.ParsePageserverFeedbackMessage b = (Ok f, []).
Proof.
  intros [H1 H2 H3 H4 (us & Eus & Hus) H6]. unfold serialize, Read.ParsePageserverFeedbackMessage.
  rewrite Eus, (proj2 (Z.ltb_ge (us * 1000) 0)), Z.div_mul by lia.
  eexists. split; [reflexivity|]. split; [done|]. rewrite <-!app_assoc.
  erewrite M_bind_ok; [|apply reads_getmsgint; by destruct (0 <? shard_number f), (corruption_detected f)].
  destruct f as [sz re di rm rp sh co]; cbn [current_timeline_size last_received_lsn disk_consistent_lsn fb_remote_consistent_lsn
    replytime shard_number corruption_detected] in *. subst rp.
  destruct (Z.ltb_spec 0 sh) as [Hs|Hs], co; cbn [app];
    [change (Z.to_nat _) with 7%nat|change (Z.to_nat _) with 6%nat|change (Z.to_nat _) with 6%nat|change (Z.to_nat _) with 5%nat];
    rewrite c_size, c_received, c_disk, c_remote, c_reply by done.
  - rewrite c_shard by done. rewrite <-(app_nil_r (entry _ 1 1)), c_corruption. done.
  - rewrite app_nil_r, <-(app_nil_r (entry _ 4 sh)), c_shard by done. done.
  - rewrite <-(app_nil_r (entry _ 1 1)), c_corruption. by assert (sh = 0) as -> by (unfold in_u in H6; lia).
  - by assert (sh = 0) as -> by (unfold in_u in H6; lia).
Qed.
End CFeedback.

(** ** Replies *)

Definition i64 (z : Z) : Prop := - 2 ^ 63 ≤ z < 2 ^ 63.

Definition reply_ok (msg : AcceptorProposerMessage) : Prop :=
  match msg with
  | AGreeting m => in_u 64 (ag_node_id m) ∧ mconf_ok (ag_mconf m) ∧ in_u 64 (ag_term m)
  | AVoteResponse m =>
      in_u 32 (vs_generation m) ∧ in_u 64 (vs_term m) ∧ in_u 64 (vs_flush_lsn m) ∧ in_u 64 (vs_truncate_lsn m) ∧
      history_ok (vs_term_history m)
  | AAppendResponse m =>
      in_u 32 (as_generation m) ∧ in_u 64 (as_term m) ∧ in_u 64 (as_flush_lsn m) ∧ in_u 64 (as_commit_lsn m) ∧
      i64 (hs_ts (as_hs_feedback m)) ∧ in_u 64 (hs_xmin (as_hs_feedback m)) ∧ in_u 64 (hs_catalog_xmin (as_hs_feedback m)) ∧
      ∀ f, as_pageserver_feedback m = Some f → FeedbackFacts.feedback_ok f
  end.

(** What version 2 fills in of the struct [any]. *)
Definition v2_reply (any msg : AcceptorProposerMessage) : AcceptorProposerMessage :=
  match any, msg with
  | AGreeting o, AGreeting m => AGreeting (MkAcceptorGreeting (ag_node_id m) (ag_mconf o) (ag_term m))
  | AVoteResponse o, AVoteResponse m =>
      AVoteResponse (MkVoteResponse (vs_generation o) (vs_term m) (vote_given m) (vs_flush_lsn m) (vs_truncate_lsn m) (vs_term_history m))
  | AAppendResponse o, AAppendResponse m =>
      AAppendResponse (MkAppendResponse (as_generation o) (as_term m) (as_flush_lsn m) (as_commit_lsn m) (as_hs_feedback m)
        (as_pageserver_feedback m))
  | _, _ => msg
  end.

Ltac rd_c := first [by apply reads_getmsgint|by apply reads_getmsgint_le].
Ltac st a := erewrite (M_bind_ok _ _ _ a); [|rd_c].

Lemma read_hs_ok (get : nat → M bytes WpError Z) put hs :
  (∀ n z, reads (get n) (put n z) (z mod 2 ^ (8 * Z.of_nat n))) →
  i64 (hs_ts hs) → in_u 64 (hs_xmin hs) → in_u 64 (hs_catalog_xmin hs) →
  reads (Read.read_hs get) (put 8%nat (hs_ts hs) ++ put 8%nat (hs_xmin hs) ++ put 8%nat (hs_catalog_xmin hs)) hs.
Proof.
  intros Hget Ht Hx Hc. assert (∀ z, in_u 64 z → reads (get 8%nat) (put 8%nat z) z) as Hu.
  { intros z Hz. pose proof (Hget 8%nat z) as Hg. by rewrite Z.mod_small in Hg by apply Hz. }
  apply (reads_bind _ _ _ _ (hs_ts hs)); [by apply reads_c_signed|].
  apply (reads_bind _ _ _ _ (hs_xmin hs)); [by apply Hu|]. destruct hs. apply (reads_map _ (λ c, _)). by apply Hu.
Qed.

Lemma read_feedback_ok fb : (∀ f, fb = Some f → FeedbackFacts.feedback_ok f) →
  ∃ b, Serialize.feedback fb = Ok b ∧ Read.read_feedback b = (Ok fb, []).
Proof.
  intros Hf. destruct fb as [f|]; [|by exists []]. destruct (CFeedback.c_feedback f (Hf f eq_refl)) as (b & E & Hne & Hp).
  exists b. unfold Serialize.feedback. rewrite E. split; [done|]. unfold Read.read_feedback.
  erewrite M_bind_ok; [|reflexivity]. destruct b; [done|]. cbn [length Nat.ltb Nat.leb].
  by erewrite M_bind_ok; [|exact Hp].
Qed.

Lemma read_reply_v3 any msg : reply_ok msg → Read.tag_of any = Read.tag_of msg →
  ∃ b, Serialize.serialize msg 3 = Ok (Buf.put_be 1 (Read.tag_of msg) ++ b) ∧ Read.read_v3 any b = (Ok msg, []).
Proof.
  intros Hok Ht. destruct msg as [m|m|m], any as [o|o|o]; try done.
  - destruct Hok as (Hn & Hm & Hterm). eexists. split; [reflexivity|]. cbn [Read.read_v3]. st (ag_node_id m).
    erewrite (M_bind_ok _ _ _ (ag_mconf m)); [|by apply reads_c_mconf]. rewrite <-(app_nil_r (Buf.put_be 8 (ag_term m))). st (ag_term m).
    by destruct m.
  - destruct Hok as (Hg & Hterm & Hf & Htr & Hh). eexists. split; [reflexivity|]. cbn [Read.read_v3]. st (vs_generation m).
    st (vs_term m). erewrite (M_bind_ok _ _ _ (if vote_given m then 1 else 0)); [|apply reads_getmsgint; by destruct (vote_given m)].
    st (vs_flush_lsn m). st (vs_truncate_lsn m).
    rewrite <-(app_nil_r (_ ≫= _)), app_assoc.
    erewrite (M_bind_ok _ _ _ (vs_term_history m)); [|apply reads_c_history; [apply reads_getmsgint|done]].
    destruct m as [? ? [] ? ? ?]; done.
  - destruct Hok as (Hg & Hterm & Hf & Hc & Hts & Hx & Hcx & Hfb). destruct (read_feedback_ok _ Hfb) as (fb & Efb & Hr).
    unfold Serialize.serialize. rewrite Efb. eexists. split; [reflexivity|]. cbn [Read.read_v3]. st (as_generation m).
    st (as_term m). st (as_flush_lsn m). st (as_commit_lsn m). rewrite (app_assoc (Buf.put_be 8 (hs_xmin _))), (app_assoc (Buf.put_be 8 (hs_ts _))).
    erewrite (M_bind_ok _ _ _ (as_hs_feedback m)); [|apply read_hs_ok; [apply getmsgint_any|done..]].
    erewrite (M_bind_ok _ _ _ (as_pageserver_feedback m)); [|exact Hr]. by destruct m.
Qed.

Lemma read_reply_v2 any msg : reply_ok msg → Read.tag_of any = Read.tag_of msg →
  ∃ b, Serialize.serialize msg 2 = Ok (Buf.put_le 8 (Read.tag_of msg) ++ b) ∧ Read.read_v2 any b = (Ok (v2_reply any msg), []).
Proof.
  intros Hok Ht. destruct msg as [m|m|m], any as [o|o|o]; try done.
  - destruct Hok as (Hn & Hm & Hterm). eexists. split; [reflexivity|]. cbn [Read.read_v2]. st (ag_term m).
    rewrite <-(app_nil_r (Buf.put_le 8 (ag_node_id m))). by st (ag_node_id m).
  - destruct Hok as (Hg & Hterm & Hf & Htr & Hh). eexists. split; [reflexivity|]. cbn [Read.read_v2]. st (vs_term m).
    erewrite (M_bind_ok _ _ _ (if vote_given m then 1 else 0)); [|apply reads_getmsgint_le; by destruct (vote_given m)].
    st (vs_flush_lsn m). st (vs_truncate_lsn m). rewrite app_assoc.
    erewrite (M_bind_ok _ _ _ (vs_term_history m)); [|apply reads_c_history; [apply reads_getmsgint_le|done]].
    rewrite <-(app_nil_r (Buf.put_le 8 0)). st 0. destruct m as [? ? [] ? ? ?]; done.
  - destruct Hok as (Hg & Hterm & Hf & Hc & Hts & Hx & Hcx & Hfb). destruct (read_feedback_ok _ Hfb) as (fb & Efb & Hr).
    unfold Serialize.serialize. rewrite Efb. eexists. split; [reflexivity|]. cbn [Read.read_v2].
    st (as_term m). st (as_flush_lsn m). st (as_commit_lsn m). rewrite (app_assoc (Buf.put_le 8 (hs_xmin _))), (app_assoc (Buf.put_le 8 (hs_ts _))).
    erewrite (M_bind_ok _ _ _ (as_hs_feedback m)); [|apply read_hs_ok; [apply getmsgint_le_any|done..]].
    by erewrite (M_bind_ok _ _ _ (as_pageserver_feedback m)); [|exact Hr].
Qed.

(** C27: The replies of the safekeeper survive the wire: what it serializes of a
    well-formed reply fills in the struct of the proposer with exactly that reply and
    uses up the message; version 2 leaves configuration and generation of the struct
    as they were.  A struct of another kind resets the connection. *)
Theorem safekeeper_replies_roundtrip any msg v :
  reply_ok msg → v = 2 ∨ v = 3 →
  ∃ b, Serialize.serialize msg v = Ok b ∧
    (Read.tag_of any = Read.tag_of msg →
       Read.read_message v any b = (Ok (Some (if v =? 3 then msg else v2_reply any msg)), [])) ∧
    (Read.tag_of any ≠ Read.tag_of msg → (Read.read_message v any b).1 = Ok None).
Proof.
  intros Hok Hv. assert (∃ b r, Serialize.serialize msg v = Ok (b ++ r) ∧
    (if v =? 3 then b = Buf.put_be 1 (Read.tag_of msg) else b = Buf.put_le 8 (Read.tag_of msg))) as (b & r & E & Eb).
  { destruct Hv as [->| ->].
    - destruct (read_reply_v2 msg msg Hok eq_refl) as (r & E & _). by exists (Buf.put_le 8 (Read.tag_of msg)), r.
    - destruct (read_reply_v3 msg msg Hok eq_refl) as (r & E & _). by exists (Buf.put_be 1 (Read.tag_of msg)), r. }
  exists (b ++ r). split; [done|]. assert (0 ≤ Read.tag_of msg < 128) as Hr by (destruct msg; cbn; unfold tag_g, tag_v, tag_a; lia).
  unfold Read.read_message. destruct Hv as [->| ->]; cbn [Z.eqb Pos.eqb] in Eb |- *; subst b;
    (erewrite M_bind_ok; [|first [apply reads_getmsgint_le|apply reads_getmsgint]; unfold in_u; cbn; lia]); rewrite ?Z.mod_small by lia; split.
  - intros Ht. rewrite Ht, Z.eqb_refl. cbn [negb]. destruct (read_reply_v2 any msg Hok Ht) as (r' & E' & Hread).
    assert (r' = r) as -> by (rewrite E' in E; by injection E). by erewrite M_bind_ok.
  - intros Ht. by rewrite (proj2 (Z.eqb_neq _ _)).
  - intros Ht. rewrite Ht, Z.eqb_refl. cbn [negb]. destruct (read_reply_v3 any msg Hok Ht) as (r' & E' & Hread).
    assert (r' = r) as -> by (rewrite E' in E; by injection E). by erewrite M_bind_ok.
  - intros Ht. by rewrite (proj2 (Z.eqb_neq _ _)).
Qed.
