(* ===== verification/WireErrors.v ===== *)
(** Errors of the parser of the safekeeper: a message that is cut off is rejected with
    an error, whatever is left of it, and nothing but a greeting can make it panic.  At the
    end concrete messages of both sides, with a reader of little-endian numbers and a hex
    decoder that meet their laws. *)

From S2P Require Import Prelude Text Lsns Shards Membership TermHistories Feedbacks SkStates SafeKeepers WalProposers Wires WireFacts.
Local Open Scope Z_scope.

(** [m] uses up at least [n] bytes, and gives an error on every proper prefix, of at
    least [n] bytes, of what it uses up. *)
Definition tight {E A} (n : nat) (m : M bytes E A) : Prop := ∀ b a r, m b = (Ok a, r) →
  ∃ c, b = c ++ r ∧ (n ≤ length c)%nat ∧ reads m c a ∧
    ∀ c', c' `prefix_of` c → c' ≠ c → (n ≤ length c')%nat → ∃ e s, m c' = (Err e, s).

(** [m] does not panic when [n] bytes are left. *)
Definition safe {E A} (n : nat) (m : M bytes E A) : Prop := ∀ b, (n ≤ length b)%nat → (m b).1 ≠ Panic.

Create HintDb tight.

Section tight.
Context {E : Type}.

Lemma prefix_strict (c' c : bytes) : c' `prefix_of` c → c' ≠ c → (length c' < length c)%nat.
Proof.
  intros [k ->] Hne. rewrite length_app. destruct k; [by rewrite app_nil_r in Hne|cbn; lia].
Qed.

Lemma prefix_app_cases (c' c1 c2 : bytes) : c' `prefix_of` c1 ++ c2 →
  (c' `prefix_of` c1 ∧ c' ≠ c1) ∨ ∃ c2', c' = c1 ++ c2' ∧ c2' `prefix_of` c2.
Proof.
  intros [k Hk]. destruct (Nat.lt_ge_cases (length c') (length c1)) as [Hl|Hl].
  - left. split; [|intros ->; lia]. exists (drop (length c') c1).
    assert (take (length c') (c' ++ k) = take (length c') (c1 ++ c2)) as Ht by (by rewrite Hk).
    rewrite take_app_length, take_app_le in Ht by lia. rewrite Ht at 1. symmetry. by rewrite take_drop.
  - right. exists (drop (length c1) c').
    assert (take (length c1) (c' ++ k) = c1) as Ht by (by rewrite <-Hk, take_app_length).
    rewrite take_app_le in Ht by lia. split; [by rewrite <-Ht at 1; rewrite take_drop|].
    exists k. apply (f_equal (drop (length c1))) in Hk. by rewrite drop_app_length, drop_app_le in Hk by lia.
Qed.

Lemma tight_bind {A B} n (m : M bytes E A) (f : A → M bytes E B) : tight n m → (∀ a, tight 0 (f a)) → tight n (m ≫= f).
Proof.
  intros Hm Hf b c r Hb. apply M_bind_inv in Hb as (a & s & H1 & H2).
  destruct (Hm _ _ _ H1) as (c1 & -> & Hn & R1 & C1). destruct (Hf a _ _ _ H2) as (c2 & -> & _ & R2 & C2).
  exists (c1 ++ c2). split_and!; [by rewrite app_assoc|rewrite length_app; lia|by apply (reads_bind _ _ _ _ a)|].
  intros c' Hp Hne Hl. destruct (prefix_app_cases _ _ _ Hp) as [[Hp1 Hne1]|(c2' & -> & Hp2)].
  - destruct (C1 c' Hp1 Hne1 Hl) as (e & s' & Ee). exists e, s'. unfold mbind, M_bind. by rewrite Ee.
  - destruct (C2 c2' Hp2) as (e & s' & Ee); [by intros ->|lia|]. exists e, s'. by rewrite (M_bind_ok m f _ a c2').
Qed.

Lemma tight_ret {A} (a : A) : tight (E := E) 0 (mret a).
Proof.
  intros b a' r [= -> ->]. exists []. split_and!; [done|done|apply reads_ret|]. intros c' Hp Hne. by apply prefix_nil_inv in Hp.
Qed.

Lemma tight_lift {A} (x : result E A) : tight 0 (liftR x).
Proof.
  destruct x as [a|e|]; [apply tight_ret|intros b ? ? [=]..].
Qed.

Lemma tight_bail {A} (e : E) : tight (A := A) 0 (bail e).
Proof. by intros b a r [=]. Qed.

(** A reader of exactly [n] bytes. *)
Lemma tight_exact {A} n (m : M bytes E A) (val : bytes → A) :
  (∀ c r, length c = n → m (c ++ r) = (Ok (val c), r)) →
  (∀ b, (length b < n)%nat → ∃ e s, m b = (Err e, s)) → tight 0 m.
Proof.
  intros Hok Hs b a r Hb. destruct (Nat.lt_ge_cases (length b) n) as [Hl|Hl].
  { destruct (Hs b Hl) as (e & s & Ee). by rewrite Ee in Hb. }
  assert (length (take n b) = n) as Ht by (rewrite length_take; lia).
  pose proof (Hok (take n b) (drop n b) Ht) as Hm. rewrite take_drop in Hm. rewrite Hm in Hb. injection Hb as <- <-.
  exists (take n b). split_and!; [by rewrite take_drop|lia|intros r; by apply Hok|].
  intros c' Hp Hne _. apply Hs. pose proof (prefix_strict _ _ Hp Hne). lia.
Qed.

Lemma tight_get_f (e : E) n : tight 0 (Buf.get_f e n).
Proof.
  apply (tight_exact n _ be_val).
  - intros c r <-. unfold Buf.get_f. rewrite (proj2 (Nat.ltb_ge _ _)) by (rewrite length_app; lia).
    unfold Buf.get_be. erewrite M_bind_ok; [|by apply take_bytes_app]. done.
  - intros b Hb. exists e, b. unfold Buf.get_f. by rewrite (proj2 (Nat.ltb_lt _ _)).
Qed.

(** After a check of the length, reads of that many bytes. *)
Lemma tight_take {A B} n k (val : bytes → A) (m : M bytes E A) (f : A → M bytes E B) :
  (∀ c r, length c = n → m (c ++ r) = (Ok (val c), r)) → (∀ b, (length b < n)%nat → (m b).1 = Panic) →
  (∀ a, tight k (f a)) → tight (n + k) (m ≫= f).
Proof.
  intros Hok Hs Hf b x r Hb. apply M_bind_inv in Hb as (a & s & H1 & H2).
  destruct (Nat.lt_ge_cases (length b) n) as [Hl|Hl]; [specialize (Hs b Hl); by rewrite H1 in Hs|].
  assert (length (take n b) = n) as Ht by (rewrite length_take; lia).
  pose proof (Hok (take n b) (drop n b) Ht) as Hm. rewrite take_drop, H1 in Hm. injection Hm as -> ->.
  destruct (Hf _ _ _ _ H2) as (c2 & E2 & Hk & R2 & C2). exists (take n b ++ c2).
  split_and!; [by rewrite <-app_assoc, <-E2, take_drop|rewrite length_app; lia|apply (reads_bind _ _ _ _ (val (take n b))); [intros r'; by apply Hok|done]|].
  intros c' Hp Hne Hl'. destruct (prefix_app_cases _ _ _ Hp) as [[Hp1 Hne1]|(c2' & -> & Hp2)].
  { pose proof (prefix_strict _ _ Hp1 Hne1). lia. }
  destruct (C2 c2' Hp2) as (e & s' & Ee); [by intros ->|rewrite length_app in Hl'; lia|]. exists e, s'.
  by rewrite (M_bind_ok m f _ (val (take n b)) c2') by (by apply Hok).
Qed.
End tight.

Section readers.
Context {E : Type}.

Lemma take_bytes_exact n (c r : bytes) : length c = n → Buf.take_bytes (E := E) n (c ++ r) = (Ok c, r).
Proof. intros <-. by apply take_bytes_app. Qed.

Lemma take_bytes_short n (b : bytes) : (length b < n)%nat → (Buf.take_bytes (E := E) n b).1 = Panic.
Proof. intros Hb. unfold Buf.take_bytes. by rewrite (proj2 (Nat.ltb_lt _ _)). Qed.

Lemma tight_take_bytes {B} n k (f : bytes → M bytes E B) : (∀ a, tight k (f a)) → tight (n + k) (Buf.take_bytes n ≫= f).
Proof. apply (tight_take n k id); [apply take_bytes_exact|apply take_bytes_short]. Qed.

Lemma tight_get_le {B} n k (f : Z → M bytes E B) : (∀ a, tight k (f a)) → tight (n + k) (Buf.get_le n ≫= f).
Proof.
  apply (tight_take n k (λ l, be_val (rev l))).
  - intros c r Hc. unfold Buf.get_le. by rewrite (M_bind_ok _ _ _ c r) by (by apply take_bytes_exact).
  - intros b Hb. unfold Buf.get_le, mbind, M_bind. pose proof (take_bytes_short n b Hb). by destruct (Buf.take_bytes n b) as [[]].
Qed.
End readers.

Lemma tight_need {B} n e (f : unit → M bytes WireError B) : tight n (f tt) → tight 0 (Parse.need n e ≫= f).
Proof.
  intros Hf b a r Hb. destruct (Nat.le_gt_cases n (length b)) as [Hl|Hl].
  2:{ unfold Parse.need, mbind, M_bind, getS, ensure in Hb. by rewrite (proj2 (Nat.leb_gt _ _)) in Hb. }
  rewrite (M_bind_ok _ _ _ tt b) in Hb by (by apply need_ok). destruct (Hf _ _ _ Hb) as (c & -> & Hn & R & C).
  exists c. split_and!; [done|lia|by apply reads_need|]. intros c' Hp Hne _.
  destruct (Nat.le_gt_cases n (length c')) as [Hl'|Hl'].
  - rewrite (M_bind_ok _ _ _ tt c') by (by apply need_ok). by apply C.
  - exists e, c'. unfold Parse.need, mbind, M_bind, getS, ensure. by rewrite (proj2 (Nat.leb_gt _ _)).
Qed.

(** A string, up to its zero. *)
Lemma cstr_some b s r : Buf.cstr b = Some (s, r) → b = Buf.put_cstr s ++ r ∧ Forall (λ x, x ≠ 0) s.
Proof.
  revert s r. induction b as [|x b IH]; intros s r; [done|]. cbn. destruct (Z.eqb_spec x 0) as [->|Hx].
  - intros [= <- <-]. by split.
  - destruct (Buf.cstr b) as [[s' r']|]; [|done]. cbn. intros [= <- <-]. destruct (IH s' r' eq_refl) as [-> Hs]. by split; [|constructor].
Qed.

Lemma cstr_none s : Forall (λ x, x ≠ 0) s → Buf.cstr s = None.
Proof. induction 1 as [|x s Hx _ IH]; [done|]. cbn. by rewrite (proj2 (Z.eqb_neq _ _)), IH. Qed.

Lemma tight_cstr : tight 0 Parse.get_cstr.
Proof.
  intros b a r. unfold Parse.get_cstr. destruct (Buf.cstr b) as [[s r']|] eqn:Ec; [|done].
  destruct (utf8_valid s) eqn:Eu; [|done]. intros [= <- <-]. destruct (cstr_some _ _ _ Ec) as [-> Hs].
  exists (Buf.put_cstr s). split_and!; [done|lia|intros r; by rewrite cstr_put, Eu|]. intros c' Hp Hne _.
  exists MissingTerminator, c'. rewrite cstr_none; [done|]. destruct (prefix_app_cases c' s [0] Hp) as [[[k ->] _]|(c2 & -> & Hp2)].
  - by apply Forall_app in Hs as [? _].
  - apply prefix_strict in Hp2; [|by intros ->]. destruct c2; [by rewrite app_nil_r|cbn in Hp2; lia].
Qed.

Section parser.
Context `{HexLaws} `{LeReaderLaws}.

Lemma tight_read_le n : tight 0 (read_le n).
Proof.
  apply (tight_exact n _ (λ l, be_val (rev l))); [intros c r <-; apply read_le_spec|apply read_le_short].
Qed.
Lemma tight_read_array n : tight 0 (read_array n).
Proof. apply (tight_exact n _ id); [intros c r <-; apply read_array_spec|apply read_array_short]. Qed.

Ltac tg1 := first
  [ match goal with |- ∀ _, _ => intro end
  | apply tight_need
  | match goal with |- tight 0 (_ ≫= _) => apply tight_bind end
  | apply tight_ret | apply tight_lift | apply tight_bail | apply tight_get_f | apply tight_cstr
  | apply tight_read_le | apply tight_read_array
  | match goal with |- tight 0 (if ?c then _ else _) => destruct c end ].
Ltac tg := repeat tg1.

Lemma tight_members n acc : tight 0 (Parse.get_members n acc).
Proof. revert acc. induction n as [|n IH]; intros acc; cbn [Parse.get_members]; unfold Parse.get_member; tg. apply IH. Qed.

Lemma tight_mconf : tight 0 Parse.get_mconf.
Proof. unfold Parse.get_mconf. tg; try apply tight_members; tg. Qed.

Lemma tight_history : tight 0 Parse.from_bytes.
Proof.
  unfold Parse.from_bytes. tg. generalize (Z.to_nat a) as n. intros n. induction n as [|n IH]; cbn [Parse.history_entries]; tg. apply IH.
Qed.

Lemma tight_history_le : tight 0 Parse.from_bytes_le.
Proof.
  apply tight_need. apply (tight_get_le 4 0). intros a. generalize (Z.to_nat a) as n. intros n.
  induction n as [|n IH]; cbn [Parse.history_entries_le]; [tg|].
  apply tight_need. apply (tight_get_le 8 8). intros t. apply (tight_get_le 8 0). intros l. tg. apply IH.
Qed.

Lemma tight_wal {B} hdr (f : bytes → M bytes WireError B) : (∀ a, tight 0 (f a)) →
  tight 0 (size ← Parse.rec_size hdr; _ ← Parse.need size ShortWal; w ← Buf.take_bytes size; f w).
Proof.
  intros Hf. unfold Parse.rec_size. destruct (Lsn.checked_sub _ _); tg;
  rewrite <-(Nat.add_0_r a) at 1; apply tight_take_bytes, Hf.
Qed.

Lemma tight_raise {A} (m : M bytes WireError A) : tight 0 m → (∀ a, ¬ reads m [] a) → tight 1 m.
Proof.
  intros Hm Hne b a r Hb. destruct (Hm b a r Hb) as (c & -> & _ & R & C). exists c.
  split_and!; [done|destruct c; [by destruct (Hne a)|cbn; lia]|done|]. intros c' Hp Hn _. apply C; [done..|lia].
Qed.

Lemma tight_v3 : tight 0 Parse.parse_v3.
Proof.
  apply tight_need, tight_raise; [|intros a R; by specialize (R [])].
  unfold Parse.greeting, Parse.id_of, Parse.append_request. 
  repeat first [apply tight_mconf|apply tight_history|apply tight_wal|tg1].
Qed.

(** C28: A message that is cut off is rejected: of the bytes of a well-formed message of
    version 3 and its WAL, every proper prefix makes the parser of the safekeeper
    return an error, never another message and never a panic. *)
Theorem cut_message_rejected cfg stack tl msg b c :
  proposer_msg_ok cfg msg → Propose.PAMessageSerialize cfg stack tl msg 3 = Ok b →
  c `prefix_of` b ++ Propose.payload msg → c ≠ b ++ Propose.payload msg → ∃ e, Parse.parse c 3 = Err e.
Proof.
  intros Hok Eb Hp Hne. destruct (reads_proposer_v3 cfg stack tl msg Hok) as (b' & Eb' & R).
  assert (b' = b) as -> by congruence. destruct (tight_v3 _ _ _ (R [])) as (d & Ed & _ & _ & C).
  rewrite !app_nil_r in Ed. rewrite Ed in Hp, Hne. destruct (C c Hp Hne ltac:(lia)) as (e & s & Ee).
  exists e. unfold Parse.parse. cbn. by rewrite Ee.
Qed.

(** ** Panics *)

Lemma parse_safe_bind {A B} n (m : M bytes WireError A) (f : A → M bytes WireError B) : safe n m → (∀ a, safe 0 (f a)) → safe n (m ≫= f).
Proof.
  intros Hm Hf b Hb. specialize (Hm b Hb). unfold mbind, M_bind. destruct (m b) as [[a|e|] s]; [|done..]. apply Hf. lia.
Qed.
Lemma parse_safe_ret {A} (a : A) : safe (E := WireError) 0 (mret a).
Proof. done. Qed.
Lemma parse_safe_bail {A} (e : WireError) : safe (A := A) 0 (bail e).
Proof. done. Qed.
Lemma parse_safe_lift {A} (x : result WireError A) : x ≠ Panic → safe 0 (liftR x).
Proof. by intros ? b _. Qed.
Lemma safe_get_f n : safe 0 (Parse.get_f n).
Proof.
  intros b _. unfold Parse.get_f, Buf.get_f, Buf.get_be, Buf.take_bytes, mbind, M_bind.
  by destruct (length b <? n)%nat.
Qed.
Lemma safe_cstr : safe 0 Parse.get_cstr.
Proof. intros b _. unfold Parse.get_cstr. destruct (Buf.cstr b) as [[s r]|]; [|done]. by destruct (utf8_valid s). Qed.
Lemma safe_exact {A} n (m : M bytes WireError A) (val : bytes → A) :
  (∀ c r, length c = n → m (c ++ r) = (Ok (val c), r)) → (∀ b, (length b < n)%nat → ∃ e s, m b = (Err e, s)) → safe 0 m.
Proof.
  intros Hok Hs b _. destruct (Nat.lt_ge_cases (length b) n) as [Hl|Hl]; [by destruct (Hs b Hl) as (e & s & ->)|].
  rewrite <-(take_drop n b), Hok by (rewrite length_take; lia). done.
Qed.
Lemma safe_read_le n : safe 0 (read_le n).
Proof. apply (safe_exact n _ (λ l, be_val (rev l))); [intros c r <-; apply read_le_spec|apply read_le_short]. Qed.
Lemma safe_read_array n : safe 0 (read_array n).
Proof. apply (safe_exact n _ id); [intros c r <-; apply read_array_spec|apply read_array_short]. Qed.

Lemma safe_need {B} n e (f : unit → M bytes WireError B) : safe n (f tt) → safe 0 (Parse.need n e ≫= f).
Proof.
  intros Hf b _. destruct (Nat.le_gt_cases n (length b)) as [Hl|Hl].
  - rewrite (M_bind_ok _ _ _ tt b) by (by apply need_ok). by apply Hf.
  - unfold Parse.need, mbind, M_bind, getS, ensure. by rewrite (proj2 (Nat.leb_gt _ _)).
Qed.

Lemma safe_take {B} n k (f : bytes → M bytes WireError B) : (∀ a, safe k (f a)) → safe (n + k) (Buf.take_bytes n ≫= f).
Proof.
  intros Hf b Hb. rewrite <-(take_drop n b), (M_bind_ok _ _ _ (take n b) (drop n b)) by (apply take_bytes_exact; rewrite length_take; lia).
  apply Hf. rewrite length_drop. lia.
Qed.

Lemma safe_get_le {B} n k (f : Z → M bytes WireError B) : (∀ a, safe k (f a)) → safe (n + k) (Buf.get_le n ≫= f).
Proof.
  intros Hf b Hb. rewrite <-(take_drop n b). erewrite M_bind_ok.
  2:{ unfold Buf.get_le. by erewrite M_bind_ok by (apply take_bytes_exact; rewrite length_take; lia). }
  apply Hf. rewrite length_drop. lia.
Qed.

Ltac sf1 := first
  [ match goal with |- ∀ _, _ => intro end
  | apply safe_need
  | match goal with |- safe 0 (_ ≫= _) => apply parse_safe_bind end
  | apply parse_safe_ret | apply parse_safe_bail | apply safe_get_f | apply safe_cstr | apply safe_read_le | apply safe_read_array
  | match goal with |- safe 0 (if ?c then _ else _) => destruct c end ].

Lemma map_err_no_panic {E1 E2 A} (f : E1 → E2) (x : result E1 A) : x ≠ Panic → map_err f x ≠ Panic.
Proof. by destruct x. Qed.

Lemma safe_members n acc : safe 0 (Parse.get_members n acc).
Proof.
  revert acc. induction n as [|n IH]; intros acc; cbn [Parse.get_members]; unfold Parse.get_member; repeat sf1; [|apply IH].
  apply parse_safe_lift, map_err_no_panic. unfold MemberSet.add. by case_match.
Qed.

Lemma safe_mconf : safe 0 Parse.get_mconf.
Proof. unfold Parse.get_mconf. repeat first [apply safe_members|sf1]. Qed.

Lemma safe_history : safe 0 Parse.from_bytes.
Proof.
  unfold Parse.from_bytes. repeat sf1. generalize (Z.to_nat a) as n. intros n. induction n as [|n IH]; cbn [Parse.history_entries]; repeat sf1. apply IH.
Qed.

Lemma safe_history_le : safe 0 Parse.from_bytes_le.
Proof.
  apply safe_need, (safe_get_le 4 0). intros a. generalize (Z.to_nat a) as n. intros n.
  induction n as [|n IH]; cbn [Parse.history_entries_le]; [repeat sf1|].
  apply safe_need, (safe_get_le 8 8). intros t. apply (safe_get_le 8 0). intros l. repeat sf1. apply IH.
Qed.

Lemma safe_wal {B} hdr (f : bytes → M bytes WireError B) : (∀ a, safe 0 (f a)) →
  safe 0 (size ← Parse.rec_size hdr; _ ← Parse.need size ShortWal; w ← Buf.take_bytes size; f w).
Proof.
  intros Hf. unfold Parse.rec_size. destruct (Lsn.checked_sub _ _); repeat sf1; rewrite <-(Nat.add_0_r a) at 1; apply safe_take, Hf.
Qed.

Lemma safe_v2 : safe 0 Parse.parse_v2.
Proof.
  unfold Parse.parse_v2, Parse.greeting_v2, Parse.append_request_v2. repeat first [apply safe_wal|sf1].
  apply (safe_get_le 8 8). intros t. apply (safe_get_le 8 0). intros l. apply parse_safe_bind; [apply safe_history_le|]. intros th.
  apply safe_need, (safe_get_le 8 0). repeat sf1.
Qed.

(** A greeting of version 3 after its tag, before its server version is looked at. *)
Definition greeting_fields : M bytes WireError ProposerGreeting :=
  tenant_id_str ← Parse.get_cstr; tenant_id ← Parse.id_of tenant_id_str;
  timeline_id_str ← Parse.get_cstr; timeline_id ← Parse.id_of timeline_id_str;
  mconf ← Parse.get_mconf;
  pg_version ← Parse.get_f 4; system_id ← Parse.get_f 8; wal_seg_size ← Parse.get_f 4;
  mret (MkProposerGreeting tenant_id timeline_id mconf pg_version system_id wal_seg_size).

Lemma safe_greeting_fields : safe 0 greeting_fields.
Proof. unfold greeting_fields, Parse.id_of. repeat first [apply safe_mconf|sf1]; apply parse_safe_lift, map_err_no_panic, decode_no_panic. Qed.

(** The server versions that the safekeeper knows. *)
Definition known_version (v : Z) : bool := (v =? 0) || ((140000 <=? v) && (v <? 180000)).

Lemma greeting_split b : Parse.greeting b =
  match greeting_fields b with
  | (Ok m, r) => if known_version (pg_pg_version m) then (Ok m, r) else (Panic, r)
  | (Err e, r) => (Err e, r)
  | (Panic, r) => (Panic, r)
  end.
Proof.
  unfold Parse.greeting, greeting_fields, PgVersion.from_full_pg_version, known_version, mbind, M_bind, liftR, mret, M_ret.
  repeat match goal with |- (let (_, _) := ?x in _) = _ => lazymatch x with (_, _) => fail | _ => destruct x as [[?|?|] ?]; [|done..] end end.
  cbn [pg_pg_version]. by destruct (_ || _).
Qed.

(** C29: For which bytes the parser of the safekeeper panics, in whatever version: exactly
    for a greeting of version 3, all the fields of which can be read and which gives a
    server version that is neither 0 nor one of 14 to 17 (the conversion of the version
    panics, [PgVersionId::from_full_pg_version]).  All other bytes give a message or an
    error. *)
Theorem parse_panics_only_on_greeting b v :
  Parse.parse b v = Panic ↔
  v = 3 ∧ ∃ r m rest, b = tag_g :: r ∧ greeting_fields r = (Ok m, rest) ∧ pg_pg_version m ≠ 0 ∧ ¬ 140000 ≤ pg_pg_version m < 180000.
Proof.
  unfold Parse.parse, SK_PROTO_VERSION_2, SK_PROTO_VERSION_3. destruct (Z.eqb_spec v 3) as [->|Hv].
  2:{ split; [|by intros [? _]]. case_match; [|done]. intros Hp. by destruct (safe_v2 b ltac:(lia)). }
  destruct b as [|x b]; [split; [done|by intros (_ & ? & ? & ? & ? & _)]|].
  unfold Parse.parse_v3. rewrite (M_bind_ok _ _ _ tt (x :: b)), (M_bind_ok _ _ _ x b) by done. destruct (Z.eqb_spec x tag_g) as [->|Hx].
  - unfold mbind, M_bind, mret, M_ret. rewrite greeting_split. pose proof (safe_greeting_fields b ltac:(lia)) as Hs.
    destruct (greeting_fields b) as [[m|e|] r] eqn:E; [|split; [done|intros (_ & r' & m & rest & [= <-] & Em & _); congruence]|done].
    split; [|intros (_ & r' & m' & rest & [= <-] & Em & Hz & Hr)].
    + unfold known_version. destruct (_ || _) eqn:Ek; [done|]. intros _. split; [done|]. exists b, m, r. split_and!; [done..|lia|lia].
    + assert (m' = m) as -> by congruence. unfold known_version. destruct (_ || _) eqn:Ek; [lia|done].
  - split; [|by intros (_ & ? & ? & ? & [= ? ?] & _)]. intros Hp. exfalso. revert Hp.
    match goal with |- (?m b).1 = Panic → _ => assert (safe 0 m) as Hs; [|exact (Hs b ltac:(lia))] end.
    unfold Parse.append_request. repeat first [apply safe_wal|apply safe_history|sf1].
Qed.
End parser.

(** * Concrete messages of both sides *)

#[local] Instance simple_reader : LeReader := {
  read_le n b := if (length b <? n)%nat then (Err Deserialize, b) else (Ok (be_val (rev (take n b))), drop n b);
  read_array n b := if (length b <? n)%nat then (Err Deserialize, b) else (Ok (take n b), drop n b)
}.

#[local] Instance simple_reader_laws : LeReaderLaws.
Proof.
  split; unfold read_le, read_array, simple_reader.
  - intros l r. rewrite (proj2 (Nat.ltb_ge _ _)), take_app_length, drop_app_length by (rewrite length_app; lia). done.
  - intros l r. rewrite (proj2 (Nat.ltb_ge _ _)), take_app_length, drop_app_length by (rewrite length_app; lia). done.
  - intros n b Hb. rewrite (proj2 (Nat.ltb_lt _ _)) by done. eauto.
  - intros n b Hb. rewrite (proj2 (Nat.ltb_lt _ _)) by done. eauto.
Qed.

#[local] Existing Instance decode_pairs_crate.
#[local] Existing Instance decode_pairs_laws.

Definition a_tenant : bytes := seqZ 1 16.
Definition a_timeline : bytes := seqZ 160 16.
Definition a_config : WalProposerConfig :=
  MkConfig (hex_encode a_tenant) (hex_encode a_timeline) (bytes_of_string "g#1:a:1,b:1,c:1") 16777216 false 77 3 170004 40 40 24 false.
Definition a_mconf : Configuration :=
  MkConfiguration 1 [MkSafekeeperId 1 (bytes_of_string "a") 5454; MkSafekeeperId 2 (bytes_of_string "b") 5454] (Some [MkSafekeeperId 3 (bytes_of_string "c") 1]).
Definition a_greeting : ProposerAcceptorMessage := Greeting (MkProposerGreeting a_tenant a_timeline a_mconf 170004 77 16777216).
Definition a_append : ProposerAcceptorMessage := AppendRequestMsg (MkAppendRequest (MkAppendRequestHeader 1 5 40 45 40 40) [9; 8; 7; 6; 5]).

Lemma a_mconf_ok : mconf_ok a_mconf.
Proof.
  assert (∀ m : MemberSet.t, forallb (λ sk, in_ub 64 (sk_id sk) && bool_decide (ascii_ok (host sk)) &&
    (length (host sk) <? Read.MAXCONNINFO)%nat && in_ub 16 (pg_port sk)) m = true → NoDup (sk_id <$> m) → Z.of_nat (length m) < 2 ^ 32 → mset_ok m) as Hm.
  { intros m Hf Hn Hl. split_and!; [|done|done]. rewrite Forall_forall. rewrite forallb_forall in Hf. intros sk Hsk.
    apply list_elem_of_In, Hf in Hsk. repeat (apply andb_true_iff in Hsk as [Hsk ?]). zbool.
    split; [unfold in_u; lia|split; [done|by apply Nat.ltb_lt]|by apply in_ub_spec]. }
  split; [done|apply Hm; [done|by apply (bool_decide_unpack _)|done]|by right|].
  intros m [= <-]. split; [apply Hm; [done|by apply (bool_decide_unpack _)|done]|done].
Qed.

Lemma a_greeting_ok : proposer_msg_ok a_config a_greeting.
Proof.
  assert (∀ s, bool_decide (length s = 16%nat ∧ Forall (λ x, 0 ≤ x < 2 ^ 8) s) = true → id_ok s) as Hid by (intros s Hs; by zbool).
  split_and!; try done; [by apply Hid..|apply a_mconf_ok].
Qed.

Lemma a_append_ok : proposer_msg_ok a_config a_append.
Proof. by split_and!. Qed.

Lemma proposer_messages_roundtrip_witness :
  (∃ b, Propose.PAMessageSerialize a_config ([], []) 1 a_greeting 3 = Ok b ∧ Parse.parse (b ++ []) 3 = Ok a_greeting) ∧
  (∃ b, Propose.PAMessageSerialize a_config ([], []) 1 a_append 2 = Ok b ∧ Parse.parse (b ++ [9; 8; 7; 6; 5]) 2 = Ok (v2_content a_append)).
Proof.
  split.
  - apply (proposer_messages_roundtrip a_config ([], []) 1 a_greeting 3 a_greeting_ok). by right.
  - apply (proposer_messages_roundtrip a_config ([], []) 1 a_append 2 a_append_ok). by left.
Defined.

Definition append_bytes : bytes := match Propose.PAMessageSerialize a_config ([], []) 1 a_append 3 with Ok b => b | _ => [] end.

Lemma cut_message_rejected_witness :
  take 49 (append_bytes ++ [9; 8; 7; 6; 5]) ≠ append_bytes ++ [9; 8; 7; 6; 5] ∧ ∃ e, Parse.parse (take 49 (append_bytes ++ [9; 8; 7; 6; 5])) 3 = Err e.
Proof.
  split; [by vm_compute|].
  apply (cut_message_rejected a_config ([], []) 1 a_append append_bytes); [apply a_append_ok|done|apply prefix_take|by vm_compute].
Defined.

(** A greeting of an unknown server version: the parser panics. *)
Definition bad_greeting : bytes :=
  [103] ++ hex_encode a_tenant ++ [0] ++ hex_encode a_timeline ++ [0] ++ replicate 12 0 ++ [0; 0; 0; 9] ++ replicate 12 0.

Lemma parse_panics_only_on_greeting_witness : Parse.parse bad_greeting 3 = Panic.
Proof.
  apply (parse_panics_only_on_greeting bad_greeting 3). split; [done|].
  eexists (drop 1 bad_greeting), _, _. split_and!; [reflexivity|vm_compute; reflexivity|done|cbn; lia].
Defined.

Definition a_feedback : PageserverFeedback := MkPageserverFeedback 1000 72 64 56 5000 2 true.
Definition a_reply : AcceptorProposerMessage := AAppendResponse (MkAppendResponse 1 5 72 64 (MkHotStandbyFeedback (-3) 10 11) (Some a_feedback)).
Definition a_struct : AcceptorProposerMessage := AAppendResponse (MkAppendResponse 4 0 0 0 HotStandbyFeedback_empty None).

Lemma a_reply_ok : reply_ok a_reply.
Proof. split_and!; try done. intros f [= <-]. split; try done. by exists 5. Qed.

Lemma safekeeper_replies_roundtrip_witness :
  ∃ b, Serialize.serialize a_reply 3 = Ok b ∧
    (Read.tag_of a_struct = Read.tag_of a_reply → Read.read_message 3 a_struct b = (Ok (Some a_reply), [])) ∧
    (Read.tag_of a_struct ≠ Read.tag_of a_reply → (Read.read_message 3 a_struct b).1 = Ok None).
Proof. apply (safekeeper_replies_roundtrip a_struct a_reply 3 a_reply_ok). by right. Defined.
