(* ===== verification/ProposerInv.v ===== *)
(** What a proposer keeps while it runs, with respect to what the acceptors have
    done: [wp_inv].  Every entry point of the proposer keeps it, and the only one
    that adds to the world of the abstract protocol is the election.

    The proposer works with generations, on safekeepers that all have the
    configuration [conf]; the address of a connection slot leads to one
    safekeeper.  Before it, the functions of the proposer: the position that a quorum has
    reached, the start of streaming, the choice of the donor. *)

From S2P Require Import Prelude Text Lsns Membership TermHistories Consensus Feedbacks WalDecoders SkStates SafeKeepers WalProposers.
From stdpp Require Import gmap.
Local Open Scope Z_scope.

Import WalProposer.

(** * The position of a quorum *)

Lemma sorted_tail_ge (l : list Z) (n : nat) (c x : Z) :
  StronglySorted Z.le l → l !! n = Some c → x ∈ drop n l → c ≤ x.
Proof.
  intros Hs Hc Hx. rewrite <-(take_drop_middle l n c Hc) in Hs. apply StronglySorted_app in Hs as (_ & _ & Hs).
  apply StronglySorted_inv in Hs as [_ Hs]. rewrite (drop_S l c n Hc) in Hx. rewrite Forall_forall in Hs.
  apply elem_of_cons in Hx as [->|Hx]; [lia|]. by apply Hs.
Qed.

Lemma sorted_head_le (l : list Z) (n : nat) (c x : Z) :
  StronglySorted Z.le l → l !! n = Some c → x ∈ take (S n) l → x ≤ c.
Proof.
  intros Hs Hc Hx. rewrite (take_S_r l n c Hc) in Hx. rewrite <-(take_drop_middle l n c Hc) in Hs.
  apply StronglySorted_app in Hs as (Hs & _ & _). apply elem_of_app in Hx as [Hx| ->%list_elem_of_singleton]; [|lia].
  apply Hs; [done|constructor].
Qed.

(** How many reach a position. *)
Definition reaching (c : Z) (l : list Z) : nat := length (filter (λ x, c ≤ x) l).

Lemma reaching_perm c l l' : l ≡ₚ l' → reaching c l = reaching c l'.
Proof. intros Hp. unfold reaching. by rewrite Hp. Qed.

Lemma reaching_app c l l' : reaching c (l ++ l') = (reaching c l + reaching c l')%nat.
Proof. unfold reaching. by rewrite filter_app, length_app. Qed.

Lemma reaching_fmap {X} (f : X → Z) c l : reaching c (f <$> l) = length (filter (λ x, c ≤ f x) l).
Proof. unfold reaching. induction l as [|x l IH]; [done|]. rewrite fmap_cons, !filter_cons. destruct (decide (c ≤ f x)); cbn; by rewrite IH. Qed.

Lemma reaching_all c l : (∀ x, x ∈ l → c ≤ x) → reaching c l = length l.
Proof.
  intros Hl. unfold reaching. f_equal. induction l as [|x l IH]; [done|]. rewrite filter_cons_True by (apply Hl; constructor).
  f_equal. apply IH. intros y Hy. apply Hl. by constructor.
Qed.

Lemma reaching_none c l : (∀ x, x ∈ l → x < c) → reaching c l = 0%nat.
Proof.
  intros Hl. unfold reaching. induction l as [|x l IH]; [done|]. rewrite filter_cons_False.
  - apply IH. intros y Hy. apply Hl. by constructor.
  - specialize (Hl x ltac:(constructor)). lia.
Qed.

Lemma quorum_lsn_spec responses q :
  0 < q ≤ Z.of_nat (length responses) →
  ∃ c, quorum_lsn responses q = Ok c ∧ q ≤ Z.of_nat (reaching c responses) ∧
    ∀ c', q ≤ Z.of_nat (reaching c' responses) → c' ≤ c.
Proof.
  intros Hq. unfold quorum_lsn. pose proof (merge_sort_Permutation Z.le responses) as Hp.
  pose proof (StronglySorted_merge_sort Z.le responses) as Hs. pose proof (Permutation_length Hp) as Hlen.
  set (n := Z.to_nat (Z.of_nat (length responses) - q)).
  destruct (lookup_lt_is_Some_2 (merge_sort Z.le responses) n) as [c Hc]; [lia|]. exists c. rewrite Hc. split; [done|].
  split.
  - rewrite <-(reaching_perm _ _ _ Hp), <-(take_drop n (merge_sort Z.le responses)), reaching_app.
    rewrite (reaching_all c (drop n _)); [rewrite length_drop; lia|]. intros x Hx. by apply (sorted_tail_ge (merge_sort Z.le responses) n).
  - intros c' Hc'. destruct (Z.le_gt_cases c' c) as [|Hlt]; [done|]. exfalso.
    rewrite <-(reaching_perm _ _ _ Hp), <-(take_drop (S n) (merge_sort Z.le responses)), reaching_app in Hc'.
    rewrite (reaching_none c' (take (S n) _)) in Hc'.
    + assert (reaching c' (drop (S n) (merge_sort Z.le responses)) ≤ length (drop (S n) (merge_sort Z.le responses)))%nat as Hle.
      { unfold reaching. apply length_filter. }
      rewrite length_drop in Hle. lia.
    + intros x Hx. pose proof (sorted_head_le _ n c x Hs Hc Hx). lia.
Qed.

(** * The start of streaming *)

Lemma quorum_lsn_elem responses q c : quorum_lsn responses q = Ok c → c ∈ responses.
Proof.
  unfold quorum_lsn. destruct (_ !! _) as [x|] eqn:E; [|done]. intros [= <-]. apply list_elem_of_lookup_2 in E.
  by rewrite (merge_sort_Permutation Z.le responses) in E.
Qed.

Lemma common_entries_app pre p' s' :
  match p', s' with x :: _, y :: _ => term x ≠ term y | _, _ => True end →
  common_entries (pre ++ p') (pre ++ s') = length pre.
Proof.
  intros Hne. induction pre as [|x pre IH]; cbn.
  - destruct p' as [|x p'], s' as [|y s']; cbn; [done..|]. by rewrite (proj2 (Z.eqb_neq _ _)).
  - by rewrite Z.eqb_refl, IH.
Qed.

(** The proposer computes the position that the safekeeper will compute when it
    checks the announcement. *)
Lemma start_streaming_at_spec prop_th th t flush x :
  th_wf prop_th → last prop_th = Some x → term x = t →
  (∀ k x y, prop_th !! k = Some x → th !! k = Some y → term x = term y → x = y) →
  Forall (λ e, lsn e ≤ flush) th →
  ∃ o s, TermHistory.find_highest_common_point prop_th th flush = Ok o ∧
    cut_point prop_th o = Some s ∧ start_streaming_at prop_th th t flush = Ok s.
Proof.
  intros Hwf Hx Ht Hm Hf. destruct (common_point_form prop_th th flush Hm Hf) as (pre & p' & s' & E1 & E2 & Hne & ->).
  unfold start_streaming_at. rewrite E1 in Hwf, Hx |- *. rewrite E2, common_entries_app by done.
  destruct pre as [|e pre _] using rev_ind.
  { destruct p' as [|y p']; [done|]. exists None, (lsn y). by split_and!. }
  assert (length (pre ++ [e]) = S (length pre)) as -> by (rewrite length_app; cbn; lia).
  rewrite last_snoc, <-!app_assoc. cbn [app]. rewrite (list_lookup_middle pre p' e (length pre) eq_refl). cbn [of_option_panic mbind result_bind].
  rewrite !(lookup_app_r pre) by lia. replace (S (length pre) - length pre)%nat with 1%nat by lia. cbn [lookup list_lookup].
  eexists _, _. split; [reflexivity|]. split; [reflexivity|]. cbn [lsn]. unfold common_end.
  destruct p' as [|y p'].
  - rewrite app_nil_r, last_snoc in Hx. simplify_eq. by rewrite Z.eqb_refl.
  - rewrite (proj2 (Z.eqb_neq _ _)); [by destruct s'|]. destruct Hwf as [Hwt _]. apply StronglySorted_app in Hwt as (Hwt & _).
    rewrite last_app in Hx. destruct (last (y :: p')) as [z|] eqn:Ez; [|by apply last_None in Ez]. injection Hx as ->.
    specialize (Hwt e x ltac:(apply elem_of_app; right; constructor) (last_Some_elem_of _ _ Ez)). cbv beta in Hwt. lia.
Qed.

(** * Quorums of a configuration *)

Definition ids (m : list SafekeeperId) : gset Z := list_to_set (sk_id <$> m).

Definition mset_quorum (m : list SafekeeperId) (Q : gset Z) : Prop :=
  MsetQuorum (Z.of_nat (length m)) ≤ Z.of_nat (size (Q ∩ ids m)).

Definition conf_quorum (c : Configuration) (Q : gset Z) : Prop :=
  mset_quorum (members c) Q ∧ (new_mset c ≠ [] → mset_quorum (new_mset c) Q).

Lemma mset_quorum_meet m Q1 Q2 : set_ok m → mset_quorum m Q1 → mset_quorum m Q2 → ∃ a, a ∈ Q1 ∧ a ∈ Q2.
Proof.
  intros Hm H1 H2. unfold mset_quorum, MsetQuorum in *.
  assert (size (ids m) = length m) as Es.
  { unfold ids. rewrite size_list_to_set by done. by rewrite length_fmap. }
  destruct (decide ((Q1 ∩ ids m) ∩ (Q2 ∩ ids m) = ∅)) as [E|Hne].
  - exfalso. assert (size (Q1 ∩ ids m ∪ Q2 ∩ ids m) ≤ size (ids m))%nat as Hle by (apply subseteq_size; set_solver).
    rewrite size_union in Hle by set_solver.
    pose proof (Z.div_mod (Z.of_nat (length m)) 2 ltac:(done)). pose proof (Z.mod_pos_bound (Z.of_nat (length m)) 2 ltac:(done)). lia.
  - apply set_choose_L in Hne as [a Ha]. exists a. set_solver.
Qed.

(** The members whose entry of a list satisfies a predicate. *)
Lemma members_of {X} (mset : list SafekeeperId) (l : list X) (P : X → Prop) `{!∀ x, Decision (P x)} :
  set_ok mset → length l = length mset →
  ∃ Q, Q ⊆ ids mset ∧ size Q = length (filter P l) ∧
    ∀ a, a ∈ Q → ∃ k m x, mset !! k = Some m ∧ sk_id m = a ∧ l !! k = Some x ∧ P x.
Proof.
  revert l. induction mset as [|m mset IH]; intros [|x l] Hs Hl; [|done..|].
  - exists ∅. split_and!; [set_solver|by rewrite size_empty|set_solver].
  - apply NoDup_cons in Hs as [Hm Hs]. destruct (IH l Hs ltac:(cbn in Hl; lia)) as (Q & Hsub & Hsz & Hin).
    assert (∀ a, a ∈ Q → ∃ k m' x', (m :: mset) !! k = Some m' ∧ sk_id m' = a ∧ (x :: l) !! k = Some x' ∧ P x') as Hin'.
    { intros a Ha. destruct (Hin a Ha) as (k & m' & x' & ?). by exists (S k), m', x'. }
    rewrite filter_cons. case_decide as HP; cycle 1.
    { exists Q. split_and!; [|done..]. unfold ids in *. cbn. set_solver. }
    exists ({[sk_id m]} ∪ Q). split_and!.
    + unfold ids in *. cbn. set_solver.
    + rewrite size_union, size_singleton by (unfold ids in Hsub; set_solver). cbn. by rewrite Hsz.
    + intros a [->%elem_of_singleton|Ha]%elem_of_union; [by exists 0%nat, m, x|by apply Hin'].
Qed.

Lemma mset_quorum_of m Q : Q ⊆ ids m → MsetQuorum (Z.of_nat (length m)) ≤ Z.of_nat (size Q) → mset_quorum m Q.
Proof. intros Hs Hq. unfold mset_quorum. replace (Q ∩ ids m) with Q by set_solver. done. Qed.

Lemma mset_quorum_mono m Q Q' : Q ⊆ Q' → mset_quorum m Q → mset_quorum m Q'.
Proof.
  intros Hs Hq. unfold mset_quorum in *. assert (size (Q ∩ ids m) ≤ size (Q' ∩ ids m))%nat by (apply subseteq_size; set_solver). lia.
Qed.

Lemma mset_quorum_bound (m : list SafekeeperId) : m ≠ [] → 0 < MsetQuorum (Z.of_nat (length m)) ≤ Z.of_nat (length m).
Proof.
  intros Hm. destruct m as [|x m]; [done|]. cbn [length]. unfold MsetQuorum.
  pose proof (Z.div_mod (Z.of_nat (S (length m))) 2 ltac:(done)). pose proof (Z.mod_pos_bound (Z.of_nat (S (length m))) 2 ltac:(done)). lia.
Qed.

Record conf_ok (c : Configuration) : Prop := {
  co_generation : 0 < generation c;
  co_members : set_ok (members c) ∧ members c ≠ [] ∧ (length (members c) ≤ MAX_SAFEKEEPERS)%nat;
  co_new : set_ok (new_mset c) ∧ (length (new_mset c) ≤ MAX_SAFEKEEPERS)%nat;
  co_ids : 0 ∉ ids (members c) ∪ ids (new_mset c)
}.

Section proposer.
Context (conf : Configuration) (Hconf : conf_ok conf).

Definition conf_quorums : Quorum Z.
Proof using conf Hconf.
  refine {| quorum := conf_quorum conf |}. intros Q1 Q2 [H1 _] [H2 _].
  by apply (mset_quorum_meet (members conf)); [apply Hconf|..].
Defined.
#[local] Existing Instance conf_quorums.

(** The safekeeper that an address leads to, the proposer, and the safekeepers of its
    slots. *)
Context (addr : bytes * bytes → Z) (p : nat) (nodes : list Z) (Hnodes : NoDup nodes).
(** The proposer as it was before. *)
Context (w0 : WalProposer.t).

Abbreviation G := (World Z nat).

Definition sk_addr (s : Safekeeper) : Z := addr (sk_host s, sk_port s).

(** A vote that was given to this proposer. *)
Definition vote_of (g : G) (t : Term) (a : Z) (v : VoteResponse) : Prop :=
  MkVote a p t (vs_term_history v) (vs_flush_lsn v) ∈ votes g.

(** The leader that this proposer has become. *)
Definition leads (g : G) (t : Term) (th : TermHistory.t) : Prop := MkLeader p t th ∈ elected g.

(** A position that this proposer has committed in term [t], or none. *)
Definition committed_lsn (g : G) (t : Term) (c : Lsn) : Prop :=
  c = 0 ∨ 0 < c ∧ ∃ th, committed g (MkLeader p t th) c.

(** Messages on a connection, and the announcement of the election among them. *)
Definition sent_on (i c : nat) (out : list (nat * nat * ProposerAcceptorMessage)) : list ProposerAcceptorMessage :=
  omap (λ x, if bool_decide (x.1 = (i, c)) then Some x.2 else None) out.
Arguments sent_on : simpl never.

Definition is_elected (m : ProposerAcceptorMessage) : bool := match m with Elected _ => true | _ => false end.
Definition is_append (m : ProposerAcceptorMessage) : bool := match m with AppendRequestMsg _ => true | _ => false end.

(** WAL is only sent after the announcement. *)
Definition elected_first (l : list ProposerAcceptorMessage) : Prop :=
  ∀ k m, l !! k = Some m → is_append m = true → existsb is_elected (take k l) = true.

Definition header_ok (g : G) (t : Term) (r : AppendRequestHeader) : Prop :=
  ar_generation r = generation conf ∧ ar_term r = t ∧ committed_lsn g t (ar_commit_lsn r).

(** What may be sent in term [t]. *)
Definition out_ok (g : G) (t : Term) (m : ProposerAcceptorMessage) : Prop :=
  match m with
  | Greeting r => generation (pg_mconf r) = 0
  | VoteRequestMsg v => v = MkVoteRequest (generation conf) t
  | Elected e => pe_generation e = generation conf ∧ pe_term e = t ∧ leads g t (pe_term_history e)
  | AppendRequestMsg a => header_ok g t (h a)
  | _ => False
  end.

(** What has become of [w0]: messages were sent, and the phase has not gone back. *)
Definition since (w : WalProposer.t) : Prop :=
  config w = config w0 ∧ outbox w0 `prefix_of` outbox w ∧
  (state w0 ≠ WPS_COLLECTING_TERMS → state w ≠ WPS_COLLECTING_TERMS ∧ propTerm w = propTerm w0) ∧
  (state w0 = WPS_ELECTED → state w = WPS_ELECTED).

(** What holds of everything the proposer has done, also when it has failed. *)
Record wp_out (g : G) (w : WalProposer.t) : Prop := {
  wo_commit : committed_lsn g (propTerm w) (commitLsn w);
  wo_out x : x ∈ outbox w → out_ok g (propTerm w) x.2 ∧ (state w = WPS_COLLECTING_TERMS → ∃ r, x.2 = Greeting r);
  wo_order i c : elected_first (sent_on i c (outbox w));
  wo_leader e : e ∈ elected g → l_prop e = p → state w = WPS_ELECTED ∧ l_term e = propTerm w;
  wo_since : since w
}.

(** What safekeeper [n] may have answered. *)
Definition reply_ok (g : G) (w : WalProposer.t) (n : Z) (m : AcceptorProposerMessage) : Prop :=
  match m with
  | AGreeting r => ag_node_id r = n ∧ (ag_mconf r = conf ∨ generation (ag_mconf r) = 0)
  | AVoteResponse v => vote_given v = true → state w ≠ WPS_COLLECTING_TERMS ∧ vote_of g (propTerm w) n v
  | AAppendResponse a => state w = WPS_ELECTED ∧
      (propTerm w < as_term a ∨ as_flush_lsn a = 0 ∨ MkAck n (propTerm w) (as_flush_lsn a) ∈ acks g)
  end.

(** The states before the election. *)
Definition early (st : SafekeeperState) : bool := (ss_rank st <=? ss_rank SS_WAIT_VOTING)%nat.
(** The states after the announcement of the election. *)
Definition streaming (st : SafekeeperState) : bool :=
  match st with SS_SEND_ELECTED_FLUSH | SS_ACTIVE => true | _ => false end.

(** A connection slot, in each phase of the proposer. *)
Definition slot_ok (g : G) (w : WalProposer.t) (i : nat) (s : Safekeeper) : Prop :=
  (ag_node_id (greetResponse s) = 0 ∨ ag_node_id (greetResponse s) = sk_addr s) ∧
  (state w = WPS_COLLECTING_TERMS → early (sk_state s) = true) ∧
  (state w = WPS_CAMPAIGN → streaming (sk_state s) = false ∧
     (sk_state s = SS_WAIT_ELECTED → freed s = false ∧ vote_of g (propTerm w) (sk_addr s) (voteResponse s))) ∧
  (as_flush_lsn (appendResponse s) = 0 ∨
     state w = WPS_ELECTED ∧ MkAck (sk_addr s) (propTerm w) (as_flush_lsn (appendResponse s)) ∈ acks g) ∧
  (streaming (sk_state s) = true → existsb is_elected (sent_on i (conn s) (outbox w)) = true) ∧
  (active_state s = SS_ACTIVE_READ_WAL → state w = WPS_ELECTED ∧ header_ok g (propTerm w) (appendRequest s)).

(** Members point to slots of their safekeeper. *)
Definition ptrs_ok (sks : list Safekeeper) (mset : list SafekeeperId) (msk : list (option nat)) : Prop :=
  ∀ k i, msk !! k = Some (Some i) → ∃ m s, mset !! k = Some m ∧ sks !! i = Some s ∧ sk_id m = sk_addr s.

(** Some member points to the slot. *)
Definition pointed (w : WalProposer.t) (i : nat) : Prop :=
  Some i ∈ members_safekeepers w ∨ Some i ∈ new_members_safekeepers w.

(** The donor: a vote that still counts, or a connection that is gone. *)
Definition donor_ok (g : G) (w : WalProposer.t) (i : nat) : Prop :=
  pointed w i ∧ ∃ s, safekeeper w !! i = Some s ∧
    vote_of g (propTerm w) (sk_addr s) (voteResponse s) ∧ (freed s = true ∨ sk_state s = SS_WAIT_ELECTED).

Record wp_inv (g : G) (n : Z) (w : WalProposer.t) : Prop := {
  wi_enabled : WalProposerGenerationsEnabled w = true;
  wi_greet : generation (pg_mconf (greetRequest w)) = 0;
  wi_mconf : wp_mconf w = conf ∨ generation (wp_mconf w) = 0 ∧ state w = WPS_COLLECTING_TERMS;
  wi_nodes : sk_addr <$> safekeeper w = nodes;
  wi_inbox m : ReadMsg m ∈ inbox w → reply_ok g w n m;
  wi_ptrs : ptrs_ok (safekeeper w) (members (wp_mconf w)) (members_safekeepers w);
  wi_new_ptrs : ptrs_ok (safekeeper w) (new_mset (wp_mconf w)) (new_members_safekeepers w);
  wi_slots i s : safekeeper w !! i = Some s → slot_ok g w i s;
  wi_request : state w ≠ WPS_COLLECTING_TERMS → voteRequest w = MkVoteRequest (generation conf) (propTerm w);
  wi_donor i : state w = WPS_CAMPAIGN → donor w = Some i → donor_ok g w i;
  wi_nodonor : state w = WPS_COLLECTING_TERMS → donor w = None;
  wi_leads : state w = WPS_ELECTED → leads g (propTerm w) (propTermHistory w) ∧
    0 < propTermStartLsn w ∧ ∃ th, propTermHistory w = th ++ [MkTermLsn (propTerm w) (propTermStartLsn w)]
}.

(** ** Functions that keep what holds *)

Section keep.
(** The world, and the safekeeper whose messages are being read. *)
Context (g : G) (n : Z).

(** A function of the proposer keeps what holds, without a change of the world or of
    the phase; a failure ends the process. *)
Definition keep {A} (m : M WalProposer.t WpError A) (w : WalProposer.t) : Prop :=
  wp_out g w → wp_inv g n w → wp m (λ r w', wp_out g w' ∧ ∀ a, r = Ok a → wp_inv g n w' ∧ state w' = state w) w.

Lemma keep_bind {A B} (m : M WalProposer.t WpError A) (f : A → M WalProposer.t WpError B) w :
  keep m w → (∀ a w1, m w = (Ok a, w1) → wp_inv g n w1 → state w1 = state w → keep (f a) w1) → keep (m ≫= f) w.
Proof.
  intros Hm Hf Ho Hi. destruct (Hm Ho Hi) as [Ho1 Hi1]. apply wp_bind. unfold wp in *. destruct (m w) as [r w1] eqn:E. cbn [fst snd] in *.
  destruct r as [a|e|]; cbn [wp_next]; [|split; [done|by intros]..].
  destruct (Hi1 a eq_refl) as [Hi2 Es]. eapply wp_mono; [by apply (Hf a w1)|]. intros r w2 [Ho2 Hr]. split; [done|].
  intros b Eb. destruct (Hr b Eb) as [? E2]. split; [done|congruence].
Qed.
Lemma keep_ret {A} (a : A) w : keep (mret a) w.
Proof. intros Ho Hi. by split. Qed.
Lemma keep_get {B} (f : WalProposer.t → M WalProposer.t WpError B) w : keep (f w) w → keep (getS ≫= f) w.
Proof. done. Qed.
Lemma keep_getS w : keep getS w.
Proof. intros Ho Hi. by split. Qed.
Lemma keep_lift {A} (r : result WpError A) w : keep (liftR r) w.
Proof. intros Ho Hi. by split. Qed.
Lemma keep_bail {A} e w : keep (A := A) (bail e) w.
Proof. intros Ho Hi. by split. Qed.
Lemma keep_when c m w : (c = true → keep m w) → keep (whenM c m) w.
Proof. destruct c; intros Hm; [by apply Hm|apply keep_ret]. Qed.
Lemma keep_modify f w : (wp_out g w → wp_inv g n w → wp_out g (f w) ∧ wp_inv g n (f w)) → state (f w) = state w → keep (modifyS f) w.
Proof. intros Hf Es Ho Hi. destruct (Hf Ho Hi). by split. Qed.

Lemma keep_inv {A} (m : M WalProposer.t WpError A) w : (wp_inv g n w → keep m w) → keep m w.
Proof. intros Hm Ho Hi. by apply Hm. Qed.
Lemma keep_for_slots l f w : (∀ i w', state w' = state w → keep (f i) w') → keep (for_slots l f) w.
Proof.
  revert w. induction l as [|i l IH]; intros w Hf; [apply keep_ret|]. apply keep_bind; [by apply Hf|].
  intros [] w1 _ _ Es. apply IH. intros j w2 E2. apply Hf. congruence.
Qed.

(** Reading a slot. *)
Lemma keep_sk {B} i (f : Safekeeper → M WalProposer.t WpError B) w :
  (∀ s, safekeeper w !! i = Some s → keep (f s) w) → keep (s ← get_sk i; f s) w.
Proof.
  intros Hf. unfold get_sk. apply keep_bind; [by apply keep_get, keep_lift|]. intros s w1 E _ _.
  unfold mbind, M_bind, getS, liftR in E. destruct (safekeeper w !! i) as [s1|] eqn:Es; [|done]. simplify_eq. by apply Hf.
Qed.

Create HintDb keep.
Hint Resolve keep_ret keep_bail keep_lift : keep.

(** ** Changes of the state *)

Lemma elem_sent i c out m : m ∈ sent_on i c out ↔ (i, c, m) ∈ out.
Proof.
  unfold sent_on. rewrite list_elem_of_omap. split.
  - intros ([[j d] m'] & Hin & E). case_bool_decide as Eq; simplify_eq/=. done.
  - intros Hin. exists (i, c, m). split; [done|]. by rewrite bool_decide_true.
Qed.

Lemma sent_on_snoc i c out x : sent_on i c (out ++ [x]) = sent_on i c out ++ (if bool_decide (x.1 = (i, c)) then [x.2] else []).
Proof. unfold sent_on. rewrite omap_app. f_equal. cbn. by case_bool_decide. Qed.

(** A change of one slot. *)
Lemma upd_slot w i f :
  wp_out g w → wp_inv g n w →
  (∀ s, safekeeper w !! i = Some s → slot_ok g w i s →
     slot_ok g w i (f s) ∧ sk_addr (f s) = sk_addr s ∧
     (state w = WPS_CAMPAIGN → donor w = Some i → donor_ok g w i →
        vote_of g (propTerm w) (sk_addr s) (voteResponse (f s)) ∧ (freed (f s) = true ∨ sk_state (f s) = SS_WAIT_ELECTED))) →
  wp_out g (set_safekeeper (alter f i (safekeeper w)) w) ∧ wp_inv g n (set_safekeeper (alter f i (safekeeper w)) w).
Proof.
  intros Ho Hi Hf. split; [by destruct Ho|].
  assert (∀ mset msk, ptrs_ok (safekeeper w) mset msk → ptrs_ok (alter f i (safekeeper w)) mset msk) as Hptr.
  { intros mset msk Hp k j Hk. destruct (Hp k j Hk) as (m & s & Hm & Hs & E). destruct (decide (j = i)) as [->|Hn].
    - exists m, (f s). rewrite list_lookup_alter_eq, Hs. destruct (Hf s Hs) as (_ & -> & _); [by apply (wi_slots _ _ _ Hi)|done].
    - exists m, s. by rewrite list_lookup_alter_ne. }
  destruct Hi as [H1 H2 H3 H4 H5 H6 H7 H8 H9 H10 H11 H12]. split; cbn; auto.
  - rewrite <-H4. apply list_eq. intros j. rewrite !list_lookup_fmap. destruct (decide (j = i)) as [->|Hn]; [|by rewrite list_lookup_alter_ne].
    rewrite list_lookup_alter_eq. destruct (safekeeper w !! i) as [s|] eqn:Es; [|done]. cbn. f_equal. by apply Hf, H8.
  - intros j s Hs. destruct (decide (j = i)) as [->|Hn]; [|rewrite list_lookup_alter_ne in Hs by done; by apply H8].
    rewrite list_lookup_alter_eq in Hs. destruct (safekeeper w !! i) as [s1|] eqn:Es; [|done]. simplify_eq/=. by apply Hf, H8.
  - intros j Hst Hd. destruct (H10 j Hst Hd) as (Hpt & s & Hs & Hv). split; [done|]. cbn.
    destruct (decide (j = i)) as [->|Hn]; [|exists s; by rewrite list_lookup_alter_ne].
    exists (f s). rewrite list_lookup_alter_eq, Hs. destruct (Hf s Hs) as (_ & -> & Hdo); [by apply H8|]. split; [done|].
    apply Hdo; [done..|]. by apply H10.
Qed.

(** ** Connections *)

Lemma keep_upd i f w :
  (∀ s, safekeeper w !! i = Some s → slot_ok g w i s →
     slot_ok g w i (f s) ∧ sk_addr (f s) = sk_addr s ∧
     (state w = WPS_CAMPAIGN → donor w = Some i → donor_ok g w i →
        vote_of g (propTerm w) (sk_addr s) (voteResponse (f s)) ∧ (freed (f s) = true ∨ sk_state (f s) = SS_WAIT_ELECTED))) →
  keep (upd_sk i f) w.
Proof. intros Hf. apply keep_modify; [|done]. intros Ho Hi. by apply upd_slot. Qed.

(** The vote of the donor, as the slot has it. *)
Lemma donor_vote w i s : safekeeper w !! i = Some s → donor_ok g w i →
  vote_of g (propTerm w) (sk_addr s) (voteResponse s) ∧ (freed s = true ∨ sk_state s = SS_WAIT_ELECTED).
Proof. intros Hs (_ & s' & Hs' & Hv). by simplify_eq. Qed.

Lemma early_slot w i s st f :
  early st = true → slot_ok g w i s → slot_ok g w i (sk_set_freed f (sk_set_state st s)).
Proof.
  intros He (H1 & H2 & H3 & H4 & H5 & H6). unfold slot_ok. cbn.
  split_and!; [done|done| |done| |done]; destruct st; done.
Qed.

Lemma slot_same (s : Safekeeper) : sk_set_freed (freed s) s = s.
Proof. by destruct s. Qed.

Lemma keep_set_early w i st :
  early st = true → (∀ s, safekeeper w !! i = Some s → sk_state s ≠ SS_WAIT_ELECTED) → keep (upd_sk i (sk_set_state st)) w.
Proof.
  intros He Hs. apply keep_upd. intros s Hi Hok. split_and!; [|done|].
  - rewrite <-(slot_same (sk_set_state st s)). cbn. by apply early_slot.
  - intros _ _ Hd. destruct (donor_vote w i s Hi Hd) as [Hv [Hf|Hf]]; [by auto|by destruct (Hs s)].
Qed.

Lemma keep_shutdown i w : keep (ShutdownConnection i) w.
Proof.
  apply keep_upd. intros s Hi Hok. split_and!; [|done|].
  - apply (early_slot w i (sk_set_streamingAt 0 s)); [done|]. by destruct Hok as (? & ? & ? & ? & ? & ?).
  - intros _ _ Hd. destruct (donor_vote w i s Hi Hd) as [Hv _]. split; [done|by left].
Qed.

Lemma api_same w r w1 : api w = (r, w1) → ∃ v, w1 = set_io v w.
Proof. unfold api. destruct (io w) as [|x l] eqn:E; intros [= <- <-]; [exists (io w); by destruct w|by exists l]. Qed.

Lemma set_io_ok v w : wp_out g w → wp_inv g n w → wp_out g (set_io v w) ∧ wp_inv g n (set_io v w).
Proof. intros Ho Hi. split; [by destruct Ho|by destruct Hi]. Qed.

Lemma keep_api w : keep api w.
Proof.
  intros Ho Hi. unfold wp. destruct (api w) as [r w1] eqn:E. destruct (api_same _ _ _ E) as [v ->]. cbn.
  destruct (set_io_ok v w Ho Hi). split; [done|]. by intros.
Qed.

(** After a call of the environment the slots are the same. *)
Lemma keep_api_bind {B} (f : ApiResult → M WalProposer.t WpError B) w :
  (∀ r v, keep (f r) (set_io v w)) → keep (r ← api; f r) w.
Proof.
  intros Hf. apply keep_bind; [apply keep_api|]. intros r w1 E _ _. destruct (api_same _ _ _ E) as [v ->]. apply Hf.
Qed.

Lemma keep_reset i w : keep (ResetConnection i) w.
Proof.
  unfold ResetConnection. apply keep_sk. intros s Hs. apply keep_bind; [apply keep_when; intros _; apply keep_shutdown|].
  intros [] w1 E1 _ _.
  assert (∀ s, safekeeper w1 !! i = Some s → sk_state s = SS_OFFLINE) as Hoff.
  { case_bool_decide as Eo; injection E1 as <-; [by intros s1 ?; simplify_eq|]. cbn.
    intros s1. rewrite list_lookup_alter_eq, Hs. cbn. by intros [= <-]. }
  apply keep_bind.
  { apply keep_upd. intros s1 Hs1 (H1 & H2 & H3 & H4 & H5 & H6). specialize (Hoff s1 Hs1). split_and!; [|done|].
    - unfold slot_ok. cbn. rewrite Hoff in *. by split_and!.
    - intros _ _ Hd. by apply (donor_vote w1 i s1). }
  intros [] w2 E2 _ _. injection E2 as <-. apply keep_api_bind. intros r v.
  destruct r; auto with keep; (apply keep_set_early; [done|]); cbn; intros s1; rewrite list_lookup_alter_eq, fmap_Some;
    intros (s2 & Hs2 & ->); cbn; by rewrite (Hoff s2).
Qed.

(** ** Sending *)

Lemma set_outbox_ok w i s m :
  safekeeper w !! i = Some s → out_ok g (propTerm w) m → (state w = WPS_COLLECTING_TERMS → ∃ r, m = Greeting r) →
  (is_append m = true → existsb is_elected (sent_on i (conn s) (outbox w)) = true) →
  wp_out g w → wp_inv g n w →
  wp_out g (set_outbox (outbox w ++ [(i, conn s, m)]) w) ∧ wp_inv g n (set_outbox (outbox w ++ [(i, conn s, m)]) w).
Proof.
  intros Hs Hm Hc Ha Ho Hi. split.
  - destruct Ho as [H1 H2 H3 H4 H5]. split; cbn; [done|..|done|].
    3: { destruct H5 as (S1 & S2 & S3 & S4). split_and!; cbn; [done|by apply prefix_app_r|done|done]. }
    + intros x [Hx| ->%list_elem_of_singleton]%elem_of_app; [by apply H2|by split].
    + intros j c k m' Hk Hap. rewrite sent_on_snoc in Hk |- *. cbn in Hk |- *.
      destruct (decide (k < length (sent_on j c (outbox w)))%nat) as [Hlt|Hge].
      * rewrite take_app_le by lia. rewrite lookup_app_l in Hk by done. by apply (H3 j c k m').
      * rewrite lookup_app_r in Hk by lia. case_bool_decide as E; [|by rewrite lookup_nil in Hk]. injection E as -> <-.
        apply list_lookup_singleton_Some in Hk as [Hk ->]. rewrite take_app_ge, existsb_app by lia.
        by rewrite Ha.
  - destruct Hi as [H1 H2 H3 H4 H5 H6 H7 H8 H9 H10 H11 H12]. split; cbn; auto.
    intros j s1 Hs1. destruct (H8 j s1 Hs1) as (K1 & K2 & K3 & K4 & K5 & K6). unfold slot_ok. cbn. split_and!; auto.
    intros Hst. rewrite sent_on_snoc, existsb_app. by rewrite (K5 Hst).
Qed.

Lemma keep_write {B} i m (f : ApiResult → M WalProposer.t WpError B) w :
  (wp_out g w → wp_inv g n w → ∀ s, safekeeper w !! i = Some s →
     out_ok g (propTerm w) m ∧ (state w = WPS_COLLECTING_TERMS → ∃ r, m = Greeting r) ∧
     (is_append m = true → existsb is_elected (sent_on i (conn s) (outbox w)) = true)) →
  (∀ s r v, safekeeper w !! i = Some s → keep (f r) (set_io v (set_outbox (outbox w ++ [(i, conn s, m)]) w))) →
  keep (r ← conn_write i m; f r) w.
Proof.
  intros Hm Hf Ho Hi. pose proof Hm as Hm'. destruct (safekeeper w !! i) as [s|] eqn:Hs.
  - destruct (Hm' Ho Hi s eq_refl) as (H1 & H2 & H3). destruct (set_outbox_ok w i s m Hs H1 H2 H3 Ho Hi) as [Ho' Hi'].
    unfold conn_write. assert (∀ (k : St ApiResult), (s ← get_sk i; _ ← modifyS (λ w, set_outbox (outbox w ++ [(i, conn s, m)]) w); k) w =
      k (set_outbox (outbox w ++ [(i, conn s, m)]) w)) as Eq.
    { intros k. unfold get_sk, mbind, M_bind, getS, liftR, modifyS. by rewrite Hs. }
    apply wp_bind. unfold wp. rewrite Eq. set (w1 := set_outbox _ w) in *. destruct (api w1) as [r w2] eqn:Ea.
    destruct (api_same _ _ _ Ea) as [v ->]. cbn. destruct (set_io_ok v w1 Ho' Hi') as [Ho2 Hi2].
    destruct r as [r|e|]; cbn; [by apply (Hf s r v)|by split..].
  - unfold wp, conn_write, get_sk, mbind, M_bind, getS, liftR. rewrite Hs. by split.
Qed.

Lemma keep_set_state i st w :
  (∀ s, safekeeper w !! i = Some s → slot_ok g w i s → slot_ok g w i (sk_set_state st s) ∧ (sk_state s ≠ SS_WAIT_ELECTED ∨ state w ≠ WPS_CAMPAIGN)) →
  keep (upd_sk i (sk_set_state st)) w.
Proof.
  intros Hf. apply keep_upd. intros s Hs Hok. destruct (Hf s Hs Hok) as [Hok' Hne]. split_and!; [done..|].
  intros Hc _ Hd. destruct (donor_vote w i s Hs Hd) as [Hv [Hfr|Hw]]; [by auto|]. by destruct Hne.
Qed.

Lemma keep_blocking_write i m st w :
  (wp_out g w → wp_inv g n w → ∀ s, safekeeper w !! i = Some s →
     out_ok g (propTerm w) m ∧ (state w = WPS_COLLECTING_TERMS → ∃ r, m = Greeting r) ∧
     (is_append m = true → existsb is_elected (sent_on i (conn s) (outbox w)) = true)) →
  (∀ s, safekeeper w !! i = Some s → sk_state s ≠ SS_WAIT_ELECTED) →
  early st = true ∨ st = SS_WAIT_VERDICT ∧ state w ≠ WPS_COLLECTING_TERMS →
  keep (BlockingWrite i m st) w.
Proof.
  intros Hm Hne Hst. unfold BlockingWrite. apply keep_write; [done|]. intros s r v Hs.
  assert (keep (_ ← upd_sk i (sk_set_state st); mret true) (set_io v (set_outbox (outbox w ++ [(i, conn s, m)]) w))) as Hk.
  { apply keep_bind; [|auto with keep]. destruct Hst as [He|[-> Hc]]; [by apply keep_set_early|].
    apply keep_set_state. intros s1 Hs1 (H1 & H2 & H3 & H4 & H5 & H6). split; [|left; by apply Hne].
    unfold slot_ok. cbn. by split_and!. }
  destruct r; try exact Hk. apply keep_bind; [apply keep_shutdown|auto with keep].
Qed.

Lemma keep_greeting_write i w :
  (∀ s, safekeeper w !! i = Some s → sk_state s ≠ SS_WAIT_ELECTED) → keep (SendProposerGreeting i) w.
Proof.
  intros Hne. apply keep_get, keep_bind; [|auto with keep]. apply keep_blocking_write; [|done|by left].
  intros Ho Hi s Hs. split_and!; [apply (wi_greet _ _ _ Hi)|by eexists|done].
Qed.

Lemma keep_start_push i w :
  (∀ s, safekeeper w !! i = Some s → sk_state s ≠ SS_WAIT_ELECTED) → keep (SendStartWALPush i) w.
Proof.
  intros Hne. apply keep_api_bind. intros r v. destruct r; by (apply keep_shutdown || apply keep_set_early).
Qed.

Lemma keep_connection_event i w :
  (∀ s, safekeeper w !! i = Some s → sk_state s ≠ SS_WAIT_ELECTED) → keep (HandleConnectionEvent i) w.
Proof.
  intros Hne. apply keep_api_bind. intros r v. destruct r; by (apply keep_shutdown || apply keep_start_push || apply keep_set_early).
Qed.

Lemma keep_push_result i w :
  (∀ s, safekeeper w !! i = Some s → sk_state s ≠ SS_WAIT_ELECTED) → keep (RecvStartWALPushResult i) w.
Proof.
  intros Hne. apply keep_api_bind. intros r v. destruct r; by (apply keep_ret || apply keep_shutdown || apply keep_greeting_write).
Qed.

Lemma keep_vote_write i w :
  state w ≠ WPS_COLLECTING_TERMS → (∀ s, safekeeper w !! i = Some s → sk_state s ≠ SS_WAIT_ELECTED) → keep (SendVoteRequest i) w.
Proof.
  intros Hc Hne. apply keep_get, keep_bind; [|auto with keep]. apply keep_blocking_write; [|done|by right].
  intros Ho Hi s Hs. split_and!; [by apply (wi_request _ _ _ Hi)|done|done].
Qed.

(** ** Reading *)

Lemma tail_ok w x l : inbox w = x :: l → wp_out g w → wp_inv g n w → wp_out g (set_inbox l w) ∧ wp_inv g n (set_inbox l w).
Proof.
  intros E Ho Hi. split; [by destruct Ho|]. destruct Hi as [H1 H2 H3 H4 H5 H6 H7 H8 H9 H10 H11 H12]. split; cbn; auto.
  intros m Hm. apply H5. rewrite E. by right.
Qed.

Lemma keep_conn_read w : keep conn_read w.
Proof.
  intros Ho Hi. unfold wp, conn_read. destruct (inbox w) as [|x l] eqn:E; [by split|].
  by destruct (tail_ok w x l E Ho Hi).
Qed.

Lemma keep_read i tag w : keep (AsyncReadMessage i tag) w.
Proof.
  apply keep_bind; [apply keep_conn_read|]. intros [m| |] w1 _ _ _; [|auto with keep|apply keep_bind; [apply keep_shutdown|auto with keep]].
  case_bool_decide; [auto with keep|]. apply keep_bind; [apply keep_reset|auto with keep].
Qed.

(** A message that was read is one that may have been sent. *)
Lemma read_some i tag w m w1 :
  wp_inv g n w → AsyncReadMessage i tag w = (Ok (Some m), w1) → reply_ok g w n m ∧ tag_of m = tag ∧ ∃ v, w1 = set_inbox v w.
Proof.
  intros Hi. unfold AsyncReadMessage, conn_read, mbind, M_bind. destruct (inbox w) as [|[m'| |] l] eqn:E; [done|..].
  - case_bool_decide; [|by destruct (ResetConnection i _) as [[] ?]]. intros [= <- <-]. split_and!; [|done|by eexists].
    apply (wi_inbox _ _ _ Hi). rewrite E. by left.
  - done.
  - by destruct (ShutdownConnection i _) as [[] ?].
Qed.

(** ** Members *)

Lemma point_members_lookup mset node i ptrs k :
  point_members mset node i ptrs !! k =
  (λ o, match mset !! k with Some m => if sk_id m =? node then Some i else o | None => o end) <$> ptrs !! k.
Proof. unfold point_members. by rewrite list_lookup_imap. Qed.

Lemma point_members_ok sks mset node i s ptrs :
  sks !! i = Some s → node = sk_addr s → ptrs_ok sks mset ptrs → ptrs_ok sks mset (point_members mset node i ptrs).
Proof.
  intros Hs -> Hp k j Hk. rewrite point_members_lookup in Hk. destruct (ptrs !! k) as [o|] eqn:Ek; [|done]. cbn in Hk.
  assert (o = Some j → ∃ m s', mset !! k = Some m ∧ sks !! j = Some s' ∧ sk_id m = sk_addr s') as Hold by (intros ->; by apply Hp).
  destruct (mset !! k) as [m|] eqn:Em; [destruct (Z.eqb_spec (sk_id m) (sk_addr s))|]; simplify_eq/=; [by exists m, s|auto..].
Qed.

(** A slot that a member points to stays so: only its own safekeeper is that member. *)
Lemma point_members_keeps sks mset i s ptrs j :
  sks !! i = Some s → NoDup (sk_addr <$> sks) → ptrs_ok sks mset ptrs → Some j ∈ ptrs →
  Some j ∈ point_members mset (sk_addr s) i ptrs.
Proof.
  intros Hs Hnd Hp Hj. apply list_elem_of_lookup in Hj as [k Hk]. apply list_elem_of_lookup. exists k.
  rewrite point_members_lookup, Hk. cbn. destruct (Hp k j Hk) as (m & s' & -> & Hs' & E).
  destruct (Z.eqb_spec (sk_id m) (sk_addr s)) as [E2|]; [|done]. do 2 f_equal.
  apply (NoDup_lookup (sk_addr <$> sks) i j (sk_addr s)); [done|by rewrite list_lookup_fmap, Hs|].
  rewrite list_lookup_fmap, Hs'. cbn. congruence.
Qed.

Lemma keep_update_ptr i w : keep (UpdateMemberSafekeeperPtr i) w.
Proof.
  apply keep_get. destruct (_ <? _)%nat; [auto with keep|]. destruct (_ <? _)%nat; [auto with keep|].
  apply keep_sk. intros s Hs. destruct (_ <? _)%nat; [auto with keep|].
  destruct (Z.eqb_spec (ag_node_id (greetResponse s)) 0) as [|Hne]; [auto with keep|].
  apply keep_inv. intros Hi0. assert (ag_node_id (greetResponse s) = sk_addr s) as Ea.
  { by destruct (wi_slots _ _ _ Hi0 i s Hs) as ([?|?] & _). }
  assert (NoDup (sk_addr <$> safekeeper w)) as Hnd by (rewrite (wi_nodes _ _ _ Hi0); done). rewrite Ea.
  apply keep_bind; [apply keep_modify; [|done]|].
  - intros Ho Hi. split; [by destruct Ho|]. destruct Hi as [H1 H2 H3 H4 H5 H6 H7 H8 H9 H10 H11 H12].
    split; cbn; auto; [by eapply point_members_ok|]. intros j Hst Hd. destruct (H10 j Hst Hd) as ([Hpt|Hpt] & Hv); (split; [|done]).
    + left. by eapply point_members_keeps.
    + by right.
  - intros [] w1 [= <-] _ _. apply keep_modify; [|done]. cbn. intros Ho Hi. split; [by destruct Ho|].
    destruct Hi as [H1 H2 H3 H4 H5 H6 H7 H8 H9 H10 H11 H12]. split; cbn; auto; [by eapply point_members_ok|].
    intros j Hst Hd. destruct (H10 j Hst Hd) as ([Hpt|Hpt] & Hv); (split; [|done]).
    + by left.
    + right. by eapply point_members_keeps.
Qed.

(** The pointers of a new configuration, from scratch. *)
Lemma keep_adopt c w : c = conf ∨ generation c = 0 → keep (adopt_mconf c) w.
Proof.
  intros Hc. apply keep_get. destruct (Z.ltb_spec (generation (wp_mconf w)) (generation c)) as [Hlt|]; [|auto with keep].
  destruct (bool_decide _); [auto with keep|]. case_bool_decide as Est; [|apply keep_bail].
  intros Ho Hi. pose proof (co_generation _ Hconf) as Hg.
  assert (generation (wp_mconf w) = 0 ∧ c = conf) as [Hg0 ->].
  { destruct (wi_mconf _ _ _ Hi) as [E|[E _]]; rewrite E in Hlt; destruct Hc as [->|E2]; (done || lia). }
  unfold ResetMemberSafekeeperPtrs. do 2 (apply wp_bind; unfold wp at 1; cbn [modifyS fst snd wp_next]).
  set (w1 := set_new_members_safekeepers _ _).
  assert (∀ sks mset, ptrs_ok sks mset (replicate MAX_SAFEKEEPERS None)) as Hnone.
  { intros sks mset k j Hk. by apply lookup_replicate in Hk as [? _]. }
  assert (wp_out g w1 ∧ wp_inv g n w1) as [Ho1 Hi1].
  { split; [by destruct Ho|]. destruct Hi as [H1 H2 H3 H4 H5 H6 H7 H8 H9 H10 H11 H12]. split; cbn; auto; try congruence. }
  revert Ho1 Hi1. change (state w) with (state w1). clearbody w1. clear -Hnodes Hconf.
  apply keep_get, keep_for_slots. intros j w2 _. apply keep_sk. intros s Hs. apply keep_when. intros _. apply keep_update_ptr.
Qed.

(** Before the campaign nothing depends on the term. *)
Lemma set_term_ok t w :
  state w = WPS_COLLECTING_TERMS → wp_out g w → wp_inv g n w → wp_out g (set_propTerm t w) ∧ wp_inv g n (set_propTerm t w).
Proof.
  intros Hst Ho Hi.
  assert (∀ t c, committed_lsn g t c → c = 0) as Hno.
  { intros t' c [?|(_ & th & Hc & _)]; [done|]. destruct (wo_leader _ _ Ho _ Hc eq_refl) as [E _]. congruence. }
  split.
  - destruct Ho as [H1 H2 H3 H4 H5]. split; cbn; auto.
    + left. by apply (Hno (propTerm w)).
    + intros x Hx. destruct (H2 x Hx) as [Hm Hc]. destruct (Hc Hst) as [r E]. rewrite E in *. by split.
    + intros e He Ep. destruct (H4 e He Ep). congruence.
    + destruct H5 as (S1 & S2 & S3 & S4). split_and!; cbn; [done|done| |done]. intros Hn. by destruct (S3 Hn).
  - destruct Hi as [H1 H2 H3 H4 H5 H6 H7 H8 H9 H10 H11 H12]. split; cbn; auto; try congruence.
    + intros m Hm. specialize (H5 m Hm). destruct m; cbn in *; [done|intros Hv; by destruct (H5 Hv)|destruct H5; congruence].
    + intros i s Hs. destruct (H8 i s Hs) as (K1 & K2 & K3 & K4 & K5 & K6). unfold slot_ok. cbn.
      split_and!; auto; [congruence|destruct K4 as [?|[? _]]; [by left|congruence]|]. intros E. destruct (K6 E). congruence.
Qed.

Lemma campaign_ok w :
  state w = WPS_COLLECTING_TERMS → generation (wp_mconf w) ≠ 0 → wp_out g w → wp_inv g n w →
  let w' := set_voteRequest (MkVoteRequest (generation (wp_mconf w)) (propTerm w)) (set_state WPS_CAMPAIGN w) in
  wp_out g w' ∧ wp_inv g n w'.
Proof.
  intros Hst Hg Ho Hi w'. split.
  - destruct Ho as [H1 H2 H3 H4 H5]. split; cbn; auto.
    + intros x Hx. by destruct (H2 x Hx).
    + intros e He Ep. destruct (H4 e He Ep). congruence.
    + destruct H5 as (S1 & S2 & S3 & S4). split_and!; cbn; [done|done| |intros Hn; specialize (S4 Hn); congruence]. intros Hn. by destruct (S3 Hn).
  - destruct Hi as [H1 H2 H3 H4 H5 H6 H7 H8 H9 H10 H11 H12]. destruct H3 as [H3|[? _]]; [|done].
    split; cbn; auto; try congruence.
    + intros m Hm. specialize (H5 m Hm). destruct m; cbn in *; [done|intros Hv; by destruct (H5 Hv)|destruct H5; congruence].
    + intros i s Hs. destruct (H8 i s Hs) as (K1 & K2 & K3 & K4 & K5 & K6). unfold slot_ok. cbn. specialize (K2 Hst).
      split_and!; auto; try congruence; [|destruct K4 as [?|[? _]]; [by left|congruence]|].
      * intros _. by destruct (sk_state s).
      * intros E. destruct (K6 E). congruence.
    + intros i _ Hd. rewrite (H11 Hst) in Hd. done.
Qed.

Lemma not_legacy w : wp_inv g n w → legacy w = false.
Proof. intros Hi. unfold legacy. by rewrite (wi_enabled _ _ _ Hi). Qed.

Lemma keep_terms_collected w : state w = WPS_COLLECTING_TERMS → keep TermsCollected w.
Proof.
  intros Hst. assert (keep (_ ← modifyS (set_propTerm (wrapping_add 64 (propTerm w) 1)); mret true) w) as Hk.
  { apply keep_bind; [|auto with keep]. apply keep_modify; [|done]. intros. by apply set_term_ok. }
  apply keep_get. repeat (case_match; auto with keep).
Qed.

(** Enough terms are only collected with a configuration. *)
Lemma terms_collected_true w w1 :
  wp_inv g n w → TermsCollected w = (Ok true, w1) → wp_mconf w1 = wp_mconf w ∧ generation (wp_mconf w) ≠ 0.
Proof.
  intros Hi. unfold TermsCollected, mbind, M_bind, getS, modifyS, mret, M_ret. rewrite (not_legacy w Hi).
  destruct (Z.eqb_spec (generation (wp_mconf w)) INVALID_GENERATION) as [|Hne]; [done|].
  repeat case_match; intros [= <-]; by split.
Qed.

(** What an entry point promises: as [keep], but the phase may change. *)
Definition ends {A} (m : M WalProposer.t WpError A) (w : WalProposer.t) : Prop :=
  wp_out g w → wp_inv g n w → wp m (λ r w', wp_out g w' ∧ ∀ a, r = Ok a → wp_inv g n w') w.

Lemma keep_ends {A} (m : M WalProposer.t WpError A) w : keep m w → ends m w.
Proof.
  intros Hm Ho Hi. eapply wp_mono; [by apply Hm|]. intros r w' [Ho' Hr]. split; [done|]. intros a Ea. by apply (Hr a).
Qed.
Lemma ends_bind {A B} (m : M WalProposer.t WpError A) (f : A → M WalProposer.t WpError B) w :
  ends m w → (∀ a w1, m w = (Ok a, w1) → wp_inv g n w1 → ends (f a) w1) → ends (m ≫= f) w.
Proof.
  intros Hm Hf Ho Hi. destruct (Hm Ho Hi) as [Ho1 Hi1]. apply wp_bind. unfold wp in *. destruct (m w) as [r w1] eqn:E. cbn [fst snd] in *.
  destruct r as [a|e|]; cbn [wp_next]; [|split; [done|by intros]..]. pose proof (Hi1 a eq_refl). by apply (Hf a w1).
Qed.
(** A step that keeps the phase, and what follows. *)
Lemma keep_then {A B} (m : M WalProposer.t WpError A) (f : A → M WalProposer.t WpError B) w :
  keep m w → (∀ a w1, m w = (Ok a, w1) → wp_inv g n w1 → state w1 = state w → ends (f a) w1) → ends (m ≫= f) w.
Proof.
  intros Hm Hf Ho Hi. destruct (Hm Ho Hi) as [Ho1 Hi1]. apply wp_bind. unfold wp in *. destruct (m w) as [r w1] eqn:E. cbn [fst snd] in *.
  destruct r as [a|e|]; cbn [wp_next]; [|split; [done|by intros]..]. destruct (Hi1 a eq_refl). by apply (Hf a w1).
Qed.

Lemma ends_modify f w : (wp_out g w → wp_inv g n w → wp_out g (f w) ∧ wp_inv g n (f w)) → ends (modifyS f) w.
Proof. intros Hf Ho Hi. destruct (Hf Ho Hi). by split. Qed.

(** Members do not change the slots. *)
Lemma keeps_slots_update i : keeps safekeeper (UpdateMemberSafekeeperPtr i).
Proof.
  apply keeps_bind; [auto with keeps|]. intros w. do 2 (case_match; [auto with keeps|]).
  apply keeps_bind; [by apply keeps_bind; [apply keeps_get|intros; apply keeps_lift]|]. intros s.
  cbv zeta. do 2 (case_match; [auto with keeps|]). apply keeps_bind; auto with keeps.
Qed.

Lemma keeps_slots_adopt c : keeps safekeeper (adopt_mconf c).
Proof.
  apply keeps_bind; [auto with keeps|]. intros w. repeat (case_match; auto with keeps). apply keeps_bind; [auto with keeps|]. intros _.
  apply keeps_bind; [auto with keeps|]. intros _. apply keeps_bind; [auto with keeps|]. intros w'. generalize (slots w'). intros l.
  induction l as [|i l IH]; [apply keeps_ret|]. apply keeps_bind; [|done]. unfold get_sk.
  apply keeps_bind; [by apply keeps_bind; [apply keeps_get|intros; apply keeps_lift]|]. intros s. apply keeps_when, keeps_slots_update.
Qed.

(** The part of a greeting that may start the campaign. *)
Definition greeting_term (r : AcceptorGreeting) : M WalProposer.t WpError unit :=
  w ← getS;
  (if bool_decide (state w = WPS_COLLECTING_TERMS) then
     _ ← modifyS (set_propTerm (Z.max (ag_term r) (propTerm w)));
     collected ← TermsCollected;
     whenM collected
       (modifyS (λ w, set_voteRequest (MkVoteRequest (generation (wp_mconf w)) (propTerm w)) (set_state WPS_CAMPAIGN w)))
   else if propTerm w <? ag_term r then bail Fatal else mret tt).

Lemma ends_greeting_term r w : ends (greeting_term r) w.
Proof.
  apply (keep_then getS); [apply keep_getS|]. intros w2 w1 [= <- <-] _ _.
  case_bool_decide as Est; [|apply keep_ends; destruct (_ <? _); auto with keep].
  apply keep_then; [apply keep_modify; [|done]; intros; by apply set_term_ok|]. intros [] w1 [= <-] Hi1 E1.
  apply keep_then; [by apply keep_terms_collected|]. intros b w2 E2 Hi2 Es2. destruct b; [|by apply keep_ends, keep_when].
  destruct (terms_collected_true _ _ Hi1 E2) as [Ec Hg]. apply ends_modify. intros Ho Hi. apply campaign_ok; [congruence| |done..].
  by rewrite Ec.
Qed.

Lemma keep_request_votes l w :
  state w ≠ WPS_COLLECTING_TERMS →
  keep (for_slots l (λ j, s ← get_sk j; whenM (bool_decide (sk_state s = SS_WAIT_VOTING)) (SendVoteRequest j))) w.
Proof.
  intros Hst. apply keep_for_slots. intros j w1 E1. apply keep_sk. intros s Hs. apply keep_when. intros Hw%bool_decide_eq_true.
  apply keep_vote_write; [congruence|]. intros s' Hs'. simplify_eq. congruence.
Qed.

Lemma ends_recv_greeting i w :
  nodes !! i = Some n → (∀ s, safekeeper w !! i = Some s → sk_state s = SS_HANDSHAKE_RECV) → ends (RecvAcceptorGreeting i) w.
Proof.
  intros Hn Hs Ho0 Hi0. generalize Ho0 Hi0. apply keep_then; [apply keep_read|].
  intros [[r| |]|] w1 E1 _ _; [|apply keep_ends; auto with keep..].
  destruct (read_some _ _ _ _ _ Hi0 E1) as ([En Hc] & _ & v & ->).
  apply keep_then.
  { apply keep_inv. intros Hi. apply keep_upd. intros s Hs1 (K1 & K2 & K3 & K4 & K5 & K6). split_and!; [|done|].
    - split_and!; try done. right. cbn. rewrite En. pose proof (wi_nodes _ _ _ Hi) as E. rewrite <-E, list_lookup_fmap, Hs1 in Hn.
      by injection Hn.
    - intros _ _ Hd. by apply (donor_vote (set_inbox v w) i s). }
  intros [] w2 E2 _ _. apply keep_then; [by apply keep_adopt|]. intros [] w3 E3 _ _.
  assert (∀ s, safekeeper w3 !! i = Some s → sk_state s ≠ SS_WAIT_ELECTED) as Hs3.
  { pose proof (keeps_slots_adopt (ag_mconf r) w2) as Ek.
    rewrite E3 in Ek. cbn in Ek. rewrite Ek. injection E2 as <-. cbn. intros s. rewrite list_lookup_alter_eq, fmap_Some. intros (s' & Hs' & ->). cbn.
    by rewrite (Hs s'). }
  apply keep_then; [by apply keep_set_early|]. intros [] w4 _ _ _. apply keep_then; [apply keep_update_ptr|]. intros [] w5 _ _ _.
  apply keep_then; [apply keep_modify; [|done]; intros Ho Hi; split; [by destruct Ho|by destruct Hi]|]. intros [] w6 _ _ _.
  apply (ends_bind (greeting_term r)); [apply ends_greeting_term|]. intros [] w7 _ _.
  apply (keep_then getS); [apply keep_getS|]. intros w8 w9 [= <- <-] _ _. apply keep_ends, keep_when.
  intros Hst%negb_true_iff%bool_decide_eq_false. by apply keep_request_votes.
Qed.

(** ** Streaming *)

Section streaming.
Context (wal_read : Lsn → Z → bytes).

(** The slot is streaming WAL. *)
Definition is_active (w : WalProposer.t) (i : nat) : Prop := ∀ s, safekeeper w !! i = Some s → sk_state s = SS_ACTIVE.

Lemma streaming_elected w i s :
  wp_inv g n w → safekeeper w !! i = Some s → streaming (sk_state s) = true → state w = WPS_ELECTED ∧ wp_mconf w = conf.
Proof.
  intros Hi Hs Hst. destruct (wi_slots _ _ _ Hi i s Hs) as (_ & H2 & H3 & _).
  assert (state w = WPS_ELECTED) as E.
  { destruct (state w); [by destruct (sk_state s); specialize (H2 eq_refl)|destruct (H3 eq_refl); congruence|done]. }
  split; [done|]. destruct (wi_mconf _ _ _ Hi) as [?|[_ ?]]; [done|congruence].
Qed.

(** Changes of the streaming part of a slot. *)
Lemma keep_upd_stream i f w :
  (∀ s, f s = sk_set_active_state (active_state (f s)) (sk_set_appendRequest (appendRequest (f s)) (sk_set_streamingAt (streamingAt (f s)) s))) →
  (wp_out g w → wp_inv g n w → ∀ s, safekeeper w !! i = Some s → active_state (f s) = SS_ACTIVE_READ_WAL →
     active_state s = SS_ACTIVE_READ_WAL ∧ appendRequest (f s) = appendRequest s ∨
     state w = WPS_ELECTED ∧ header_ok g (propTerm w) (appendRequest (f s))) →
  keep (upd_sk i f) w.
Proof.
  intros Hf Hh Ho Hi. specialize (Hh Ho Hi). revert Ho Hi. apply keep_upd. intros s Hs (K1 & K2 & K3 & K4 & K5 & K6).
  specialize (Hh s Hs). rewrite (Hf s). split_and!; [|done|].
  - unfold slot_ok. cbn. split_and!; try done. intros E. destruct (Hh E) as [[E1 ->]|?]; auto.
  - intros _ _ Hd. by apply (donor_vote w i s).
Qed.

Lemma prepare_ok w i s b e :
  wp_out g w → wp_inv g n w → safekeeper w !! i = Some s → streaming (sk_state s) = true →
  state w = WPS_ELECTED ∧ header_ok g (propTerm w) (PrepareAppendRequest w b e).
Proof.
  intros Ho Hi Hs Hst. destruct (streaming_elected w i s Hi Hs Hst) as [E Ec]. split; [done|]. unfold header_ok. cbn.
  rewrite Ec. split_and!; [done..|apply Ho].
Qed.

Lemma keep_send_loop fuel i sent w : is_active w i → keep (send_loop wal_read fuel i sent) w.
Proof.
  revert sent w. induction fuel as [|fuel IH]; intros sent w Ha; cbn [send_loop]; apply keep_sk; intros s Hs; apply keep_get;
    (destruct (_ && _); [auto with keep|]); [auto with keep|].
  generalize (bool_decide (active_state s = SS_ACTIVE_SEND)). intros send. apply keep_bind.
  { apply keep_when. intros _. apply keep_upd_stream; [done|]. intros Ho Hi s1 Hs1 _. right. cbn.
    apply (prepare_ok w i s1); [done..|]. by rewrite (Ha s1). }
  intros [] w1 E1 _ _.
  assert (is_active w1 i) as Ha1.
  { destruct send; injection E1 as <-; [|done]. intros s1. cbn. rewrite list_lookup_alter_eq, fmap_Some. intros (s2 & Hs2 & ->).
    exact (Ha s2 Hs2). }
  apply keep_sk. intros s1 Hs1. case_bool_decide as Er; [|by apply IH].
  apply keep_bind; [destruct (_ <? _); [apply keep_api|auto with keep]|]. intros r w2 E2 Hi2 _.
  assert (∃ v, w2 = set_io v w1) as [v ->].
  { destruct (_ <? _); [by eapply api_same|]. injection E2 as _ <-. exists (io w1). by destruct w1. }
  destruct r; auto with keep; [|apply keep_bind; [apply keep_shutdown|auto with keep]].
  apply keep_write.
  { intros _ Hi s2 Hs2. cbn in Hs2. simplify_eq. destruct (wi_slots _ _ _ Hi i s1 Hs1) as (_ & _ & _ & _ & K5 & K6).
    destruct (K6 Er) as [E Hh]. split_and!; [exact Hh|congruence|]. intros _. apply K5. by rewrite (Ha1 s1). }
  intros s2 r v1 Hs2. apply keep_bind; [by apply keep_upd_stream; [done|]; intros; left|]. intros [] w3 E3 _ _. injection E3 as <-.
  destruct r; (apply keep_bind; [apply keep_shutdown || (apply keep_upd_stream; [done|]; by intros)|]); intros [] w4 E4 _ _; auto with keep.
  injection E4 as <-. apply IH. intros s4. cbn. rewrite list_lookup_alter_eq, fmap_Some. intros (s5 & Hs5 & ->).
  rewrite list_lookup_alter_eq, fmap_Some in Hs5. destruct Hs5 as (s6 & Hs6 & ->). exact (Ha1 s6 Hs6).
Qed.

Lemma keep_flush i w : keep (AsyncFlush i) w.
Proof. apply keep_api_bind. intros r v. destruct r; auto with keep. apply keep_bind; [apply keep_reset|auto with keep]. Qed.

Lemma flush_true i w w1 : AsyncFlush i w = (Ok true, w1) → ∃ v, w1 = set_io v w.
Proof.
  unfold AsyncFlush, mbind, M_bind. destruct (api w) as [r w2] eqn:E. destruct (api_same _ _ _ E) as [v ->].
  destruct r as [[]| |]; try done; [intros [= <-]; by eexists|]. by destruct (ResetConnection i _) as [[] ?].
Qed.

Lemma keep_send_requests i w : is_active w i → keep (SendAppendRequests wal_read i) w.
Proof.
  intros Ha. unfold SendAppendRequests. apply keep_sk. intros s Hs.
  assert (∀ w1, is_active w1 i → keep
    (_ ← upd_sk i (λ s, if bool_decide (active_state s = SS_ACTIVE_FLUSH) then sk_set_active_state SS_ACTIVE_SEND s else s);
     s ← get_sk i; w ← getS; send_loop wal_read (send_fuel w s) i false) w1) as Hgo.
  { intros w1 Ha1. apply keep_bind.
    - apply keep_upd_stream; [by intros []; cbn; case_bool_decide|]. intros _ _ s1 _. case_bool_decide; [done|]. auto.
    - intros [] w2 E2 _ _. apply keep_sk. intros s2 _. apply keep_get, keep_send_loop. injection E2 as <-.
      intros s3. cbn. rewrite list_lookup_alter_eq, fmap_Some. intros (s4 & Hs4 & ->). specialize (Ha1 s4 Hs4).
      by case_bool_decide. }
  case_bool_decide; [|by apply Hgo]. apply keep_bind; [apply keep_flush|]. intros b w1 E1 _ _.
  destruct b; [|apply keep_sk; auto with keep]. destruct (flush_true _ _ _ E1) as [v ->]. by apply Hgo.
Qed.

Lemma keep_broadcast w : keep (BroadcastAppendRequest wal_read) w.
Proof.
  apply keep_get, keep_for_slots. intros i w1 _. apply keep_sk. intros s Hs. apply keep_when. intros Ea%bool_decide_eq_true.
  apply keep_bind; [|auto with keep]. apply keep_send_requests. intros s' Hs'. by simplify_eq.
Qed.

Lemma keep_donor_shmem w : keep UpdateDonorShmem w.
Proof.
  apply keep_get. case_match; [auto with keep|]. apply keep_bind; [auto with keep|]. intros d w1 _ _ _. apply keep_sk. intros s _.
  cbv zeta. case_match; [|auto with keep]. apply keep_modify; [|done]. intros Ho Hi. split; [by destruct Ho|by destruct Hi].
Qed.

Lemma keeps_slots_shmem : keeps safekeeper UpdateDonorShmem.
Proof.
  apply keeps_bind; [auto with keeps|]. intros w. case_match; [auto with keeps|]. apply keeps_bind; [auto with keeps|]. intros d.
  apply keeps_bind; [by apply keeps_bind; [apply keeps_get|intros; apply keeps_lift]|]. intros s. cbv zeta. case_match; auto with keeps.
Qed.

(** Streaming starts after the announcement. *)
Lemma keep_start_streaming i w :
  state w = WPS_ELECTED →
  (∀ s, safekeeper w !! i = Some s → existsb is_elected (sent_on i (conn s) (outbox w)) = true) → keep (StartStreaming wal_read i) w.
Proof.
  intros Hst Hel. apply keep_bind.
  { apply keep_upd. intros s Hs (K1 & K2 & K3 & K4 & K5 & K6). split_and!; [|done|congruence].
    unfold slot_ok. cbn. split_and!; [done|congruence|congruence|done|intros _; by apply Hel|done]. }
  intros [] w1 E1 _ _. apply keep_bind; [apply keep_donor_shmem|]. intros [] w2 E2 _ _. apply keep_bind; [|auto with keep].
  apply keep_send_requests. pose proof (keeps_slots_shmem w1) as Ek. rewrite E2 in Ek. cbn in Ek. intros s. rewrite Ek.
  injection E1 as <-. cbn. rewrite list_lookup_alter_eq, fmap_Some. by intros (s' & _ & ->).
Qed.

Lemma keep_send_elected i w : state w = WPS_ELECTED → keep (SendProposerElected wal_read i) w.
Proof.
  intros Hst. apply keep_get, keep_sk. intros s Hs. apply keep_bind; [auto with keep|]. intros th w1 [= _ <-] _ _.
  apply keep_bind; [auto with keep|]. intros start w1 [= _ <-] _ _. apply keep_bind.
  { apply keep_upd. intros s1 Hs1 Hok. split_and!; [by destruct Hok as (? & ? & ? & ? & ? & ?)|done|congruence]. }
  intros [] w1 E1 _ _. injection E1 as <-.
  set (m := Elected _). set (w1 := set_safekeeper _ w). unfold AsyncWrite.
  assert (∀ (f : ApiResult → St bool), keep (r ← (r ← conn_write i m; f r); whenM r (StartStreaming wal_read i)) w1 ↔
    keep (r ← conn_write i m; b ← f r; whenM b (StartStreaming wal_read i)) w1) as Hassoc.
  { intros f. unfold keep, wp, mbind, M_bind. by destruct (conn_write i m w1) as [[] ?]. }
  apply Hassoc. apply keep_write.
  { intros Ho Hi s1 _. split_and!; [|cbn; congruence|done]. subst m. cbn.
    assert (wp_mconf w = conf) as -> by (destruct (wi_mconf _ _ _ Hi) as [?|[_ ?]]; [done|cbn in *; congruence]).
    split_and!; [done..|]. by apply (wi_leads _ _ _ Hi). }
  intros s1 r v Hs1. set (w2 := set_io v _).
  assert (∀ s, safekeeper w2 !! i = Some s → existsb is_elected (sent_on i (conn s) (outbox w2)) = true) as Hel.
  { cbn. intros s2 Hs2. cbn in Hs1. simplify_eq. rewrite sent_on_snoc, existsb_app. cbn. rewrite bool_decide_true by done. cbn. by rewrite orb_true_r. }
  assert (keep (upd_sk i (sk_set_state SS_SEND_ELECTED_FLUSH)) w2) as Hfl.
  { apply keep_set_state. intros s2 Hs2 (K1 & K2 & K3 & K4 & K5 & K6). split; [|right; cbn; congruence].
    unfold slot_ok. cbn. split_and!; [done|cbn in *; congruence|cbn in *; congruence|done|intros _; by apply Hel|done]. }
  destruct r; (apply keep_bind; [|]); try (intros b w3 E3 _ _); auto with keep.
  - injection E3 as <- <-. by apply keep_start_streaming.
  - apply keep_bind; auto with keep.
  - unfold mbind, M_bind in E3. destruct (upd_sk _ _ _) as [[] ?]; [|done..]. injection E3 as <- <-. by apply keep_when.
  - apply keep_bind; auto with keep.
  - unfold mbind, M_bind in E3. destruct (upd_sk _ _ _) as [[] ?]; [|done..]. injection E3 as <- <-. by apply keep_when.
  - apply keep_bind; auto with keep.
  - unfold mbind, M_bind in E3. destruct (upd_sk _ _ _) as [[] ?]; [|done..]. injection E3 as <- <-. by apply keep_when.
  - apply keep_bind; [apply keep_shutdown|auto with keep].
  - unfold mbind, M_bind in E3. destruct (ShutdownConnection _ _) as [[] ?]; [|done..]. injection E3 as <- <-. by apply keep_when.
Qed.

(** ** Acknowledgements *)

Lemma length_member_slots w mset msk : length (member_slots w mset msk) = length mset.
Proof. unfold member_slots. by rewrite length_fmap, length_seq. Qed.

Lemma member_slots_lookup w mset msk k i s :
  member_slots w mset msk !! k = Some (Some (i, s)) → msk !! k = Some (Some i) ∧ safekeeper w !! i = Some s.
Proof.
  unfold member_slots. rewrite list_lookup_fmap, fmap_Some. intros (k' & Hk & E). apply lookup_seq in Hk as [-> _].
  cbn in E. destruct (msk !! k) as [[j|]|]; try done. cbn in E. destruct (safekeeper w !! j) eqn:Es; [|done]. cbn in E. by simplify_eq.
Qed.

(** What the slots of a set have acknowledged. *)
Lemma committed_mset w mset msk c :
  wp_inv g n w → state w = WPS_ELECTED → set_ok mset → mset ≠ [] → ptrs_ok (safekeeper w) mset msk →
  GetCommittedMset w mset msk = Ok c → c ≠ 0 →
  propTermStartLsn w ≤ c ∧ ∃ Q, mset_quorum mset Q ∧ ∀ a, a ∈ Q → ∃ l, MkAck a (propTerm w) l ∈ acks g ∧ c ≤ l.
Proof.
  intros Hi Hst Hset Hne Hptr Hc Hc0. destruct (wi_leads _ _ _ Hi Hst) as (_ & Hpos & _).
  unfold GetCommittedMset in Hc. set (f := λ o, match o with Some (_, s) => acked w s | None => 0 end) in Hc.
  set (l := member_slots w mset msk) in *.
  assert (length (f <$> l) = length mset) as Hlen by (subst l; by rewrite length_fmap, length_member_slots).
  destruct (quorum_lsn_spec (f <$> l) (MsetQuorum (Z.of_nat (length mset)))) as (c' & Ec & Hq & _);
    [rewrite Hlen; by apply mset_quorum_bound|]. rewrite Hc in Ec. injection Ec as <-.
  assert (propTermStartLsn w ≤ c) as Hge.
  { apply quorum_lsn_elem, list_elem_of_fmap in Hc as ([[i s]|] & -> & _); [|done]. cbn in Hc0 |- *. unfold acked in *.
    destruct (Z.leb_spec (propTermStartLsn w) (as_flush_lsn (appendResponse s))); [done|done]. }
  split; [done|]. destruct (members_of mset l (λ o, c ≤ f o) Hset) as (Q & Hsub & Hsz & Hin); [subst l; by rewrite length_member_slots|].
  exists Q. split.
  - apply mset_quorum_of; [done|]. rewrite Hsz. by rewrite reaching_fmap in Hq.
  - intros a Ha. destruct (Hin a Ha) as (k & m & o & Hm & <- & Hk & Hle). destruct o as [[i s]|]; [|cbn in Hle; lia].
    destruct (member_slots_lookup _ _ _ _ _ _ Hk) as [Hp Hs]. destruct (Hptr k i Hp) as (m' & s' & Hm' & Hs' & E). simplify_eq.
    cbn in Hle. unfold acked in Hle. destruct (Z.leb_spec (propTermStartLsn w) (as_flush_lsn (appendResponse s))); [|lia].
    destruct (wi_slots _ _ _ Hi i s Hs) as (_ & _ & _ & [?|[_ Hack]] & _); [lia|]. rewrite E. eauto.
Qed.

Lemma acknowledged w c :
  wp_inv g n w → state w = WPS_ELECTED → GetAcknowledgedByQuorumWALPosition w = Ok c → 0 < c → committed_lsn g (propTerm w) c.
Proof.
  intros Hi Hst Hc Hpos. unfold GetAcknowledgedByQuorumWALPosition in Hc. rewrite (not_legacy w Hi) in Hc.
  assert (wp_mconf w = conf) as Econf by (destruct (wi_mconf _ _ _ Hi) as [?|[_ ?]]; [done|congruence]).
  destruct (wi_leads _ _ _ Hi Hst) as (Hl & Hps & th & Eth). pose proof (wi_ptrs _ _ _ Hi) as Hp. pose proof (wi_new_ptrs _ _ _ Hi) as Hpn.
  rewrite Econf in *. destruct (co_members _ Hconf) as (Hset & Hne & _). destruct (co_new _ Hconf) as (Hsetn & _).
  assert (∀ Q c, propTermStartLsn w ≤ c → conf_quorum conf Q → (∀ a, a ∈ Q → ∃ l, MkAck a (propTerm w) l ∈ acks g ∧ c ≤ l) →
    committed_lsn g (propTerm w) c) as Hcom.
  { intros Q c' Hge HQ Hack. right. split; [lia|]. exists (propTermHistory w). split_and!; [done| |].
    - exists (MkTermLsn (propTerm w) (propTermStartLsn w)). cbn. rewrite Eth, last_snoc. done.
    - exists Q. split; [done|]. intros a Ha. destruct (Hack a Ha) as (l & ? & ?). by exists (MkAck a (propTerm w) l). }
  destruct (GetCommittedMset w (members conf) (members_safekeepers w)) as [c1| |] eqn:E1; [|done..]. cbn in Hc.
  case_bool_decide as Enew.
  - injection Hc as ->. destruct (committed_mset _ _ _ _ Hi Hst Hset Hne Hp E1 ltac:(lia)) as (Hge & Q & HQ & Hack).
    apply (Hcom Q); [done|by split|done].
  - destruct (GetCommittedMset w (new_mset conf) _) as [c2| |] eqn:E2; [|done..]. cbn in Hc. injection Hc as <-.
    destruct (committed_mset _ _ _ _ Hi Hst Hset Hne Hp E1 ltac:(lia)) as (Hge & Q & HQ & Hack).
    destruct (committed_mset _ _ _ _ Hi Hst Hsetn Enew Hpn E2 ltac:(lia)) as (Hge2 & Q2 & HQ2 & Hack2).
    apply (Hcom (Q ∪ Q2)); [lia|split; [|intros _]; eapply mset_quorum_mono; [|done| |done]; set_solver|].
    intros a [Ha|Ha]%elem_of_union; [destruct (Hack a Ha) as (l & ? & ?)|destruct (Hack2 a Ha) as (l & ? & ?)]; exists l; (split; [done|lia]).
Qed.

Lemma keep_handle_response w : state w = WPS_ELECTED → keep (HandleSafekeeperResponse wal_read) w.
Proof.
  intros Hst. apply keep_get. apply keep_bind; [auto with keep|]. intros c w1 Ec _ _.
  assert (w1 = w ∧ GetAcknowledgedByQuorumWALPosition w = Ok c) as [-> Ec'] by (unfold liftR in Ec; by simplify_eq). clear Ec.
  apply keep_bind.
  { apply keep_when. intros Hlt. apply keep_bind; [apply keep_modify; [|done]|intros [] w1 _ _ _; apply keep_broadcast].
    intros Ho Hi. assert (0 ≤ commitLsn w) as Hge by (destruct (wo_commit _ _ Ho) as [->|[? _]]; lia).
    pose proof (acknowledged w c Hi Hst Ec' ltac:(lia)) as Hc. split; [destruct Ho; by split|by destruct Hi]. }
  intros [] w1 _ _ _. apply keep_bind.
  { apply keep_modify; [|cbv zeta; by case_match]. intros Ho Hi. cbv zeta. case_match; [|done]. split; [by destruct Ho|by destruct Hi]. }
  intros [] w2 _ _ _. apply keep_get. repeat (case_match; auto with keep). apply keep_bind; [apply keep_broadcast|auto with keep].
Qed.

Lemma keep_recv_loop fuel i w : nodes !! i = Some n → state w = WPS_ELECTED → keep (recv_loop wal_read fuel i) w.
Proof.
  intros Hn. revert w. induction fuel as [|fuel IH]; intros w Hst; cbn [recv_loop]; [auto with keep|].
  intros Ho0 Hi0. generalize Ho0 Hi0. apply keep_bind; [apply keep_read|].
  intros [[| |m]|] w1 E1 _ _; [apply keep_sk; auto with keep..| |apply keep_sk; auto with keep].
  destruct (read_some _ _ _ _ _ Hi0 E1) as ([_ Hr] & _ & v & ->). set (w1 := set_inbox v w).
  destruct (Z.ltb_spec (propTerm w) (as_term m)) as [Hlt|Hge].
  - intros Ho Hi. unfold wp, upd_sk, modifyS, getS, mbind, M_bind. cbn. rewrite (proj2 (Z.ltb_lt (propTerm w) (as_term m)) Hlt).
    case_match; cbn; (split; [by destruct Ho|done]).
  - apply keep_bind.
    { apply keep_inv. intros Hi. apply keep_upd. intros s Hs (K1 & K2 & K3 & K4 & K5 & K6). split_and!; [|done|subst w1; cbn; congruence].
      unfold slot_ok. cbn. split_and!; try done. destruct Hr as [?|[?|Hack]]; [lia|by left|]. right. split; [done|].
      replace (sk_addr _) with n; [done|]. pose proof (wi_nodes _ _ _ Hi) as E. rewrite <-E, list_lookup_fmap, Hs in Hn. by injection Hn. }
    intros [] w2 E2 _ _. injection E2 as <-. apply keep_get. case_match; [auto with keep|]. case_match; [auto with keep|].
    apply keep_bind; [by apply keep_handle_response|]. intros [] w3 _ _ E3. apply IH. rewrite E3. done.
Qed.

Lemma keep_active_state i ev w : nodes !! i = Some n → is_active w i → keep (HandleActiveState wal_read i ev) w.
Proof.
  intros Hn Ha. apply keep_sk. intros s Hs. apply keep_inv. intros Hi0.
  destruct (streaming_elected w i s Hi0 Hs) as [Hst _]; [by rewrite (Ha s)|].
  apply keep_bind; [case_match; [by apply keep_send_requests|auto with keep]|]. intros b w1 _ _ E1.
  destruct b; [|apply keep_ret]. apply keep_bind.
  { case_match; [|auto with keep]. apply keep_get, keep_recv_loop; [done|congruence]. }
  intros b w2 _ _ _. destruct b; [|apply keep_ret]. apply keep_when. intros _. apply keep_shutdown.
Qed.
End streaming.
End keep.
End proposer.
