(* ===== verification/ProposerElection.v ===== *)
(** The election of a proposer: the votes it counts, the donor it picks, and the step
    of the abstract protocol that this is. *)

From S2P Require Import Prelude Text Lsns Membership TermHistories Feedbacks WalDecoders SkStates SafeKeepers.
From S2P Require Import WalProposers Consensus ProposerInv.
From stdpp Require Import gmap.
Local Open Scope Z_scope.

Import WalProposer.

Section election.
Context (conf : Configuration) (Hconf : conf_ok conf) (addr : bytes * bytes → Z) (p : nat).
Context (nodes : list Z) (Hnodes : NoDup nodes) (n : Z) (L : Lsn) (fresh : bool) (start_pos : 0 < L) (wp0 : WalProposer.t).
#[local] Existing Instance conf_quorums.
#[local] Instance the_quorums : Quorum Z := conf_quorums conf Hconf.

Abbreviation G := (World Z nat).
Abbreviation wp_inv := (ProposerInv.wp_inv conf Hconf addr p nodes).
Abbreviation wp_out := (ProposerInv.wp_out conf Hconf p wp0).
Abbreviation vote_of := (ProposerInv.vote_of p).
Abbreviation sk_addr := (ProposerInv.sk_addr addr).
Abbreviation donor_ok := (ProposerInv.donor_ok addr p).

(** ** Counting votes *)

(** The parts of the state that counting votes does not touch. *)
Definition strip (w : WalProposer.t) : WalProposer.t :=
  set_truncateLsn 0 (set_donor None (set_propTermStartLsn 0 (set_donorLastLogTerm 0 w))).

Lemma strip_fields w w' : strip w' = strip w →
  safekeeper w' = safekeeper w ∧ state w' = state w ∧ propTerm w' = propTerm w ∧ wp_mconf w' = wp_mconf w ∧
  members_safekeepers w' = members_safekeepers w ∧ new_members_safekeepers w' = new_members_safekeepers w ∧
  config w' = config w ∧ outbox w' = outbox w ∧ commitLsn w' = commitLsn w.
Proof. intros E. destruct w, w'. unfold strip in E. cbn in *. by injection E. Qed.

(** The order in which votes are compared. *)
Definition vote_below (s : Safekeeper) (w : WalProposer.t) : Prop :=
  last_term (vs_term_history (voteResponse s)) < donorLastLogTerm w ∨
  last_term (vs_term_history (voteResponse s)) = donorLastLogTerm w ∧ vs_flush_lsn (voteResponse s) ≤ propTermStartLsn w.

Definition voted (w : WalProposer.t) (i : nat) (s : Safekeeper) : Prop :=
  safekeeper w !! i = Some s ∧ sk_state s = SS_WAIT_ELECTED.

(** After counting the votes of [seen]: none is above the best, and the donor has the
    best one, or none is better than nothing and it is an earlier donor. *)
Record counted (g : G) (w : WalProposer.t) (seen : list (option (nat * Safekeeper))) : Prop := {
  ct_best i s : Some (i, s) ∈ seen → voted w i s → vote_below s w;
  ct_some i s : Some (i, s) ∈ seen → voted w i s → donor w ≠ None;
  ct_none : donor w = None → donorLastLogTerm w = 0 ∧ propTermStartLsn w = 0;
  ct_donor d : donor w = Some d → donor_ok g w d ∧
    ((∃ s, voted w d s ∧ donorLastLogTerm w = last_term (vs_term_history (voteResponse s)) ∧
           propTermStartLsn w = vs_flush_lsn (voteResponse s)) ∨
     donorLastLogTerm w = 0 ∧ propTermStartLsn w = 0)
}.

Lemma voted_strip w w' i s : strip w' = strip w → voted w' i s ↔ voted w i s.
Proof. intros E. destruct (strip_fields w w' E) as (Es & _). unfold voted. by rewrite Es. Qed.

Lemma donor_strip g w w' d : strip w' = strip w → donor_ok g w d → donor_ok g w' d.
Proof.
  intros E. destruct (strip_fields w w' E) as (Es & _ & Et & _ & Em & En & _).
  unfold ProposerInv.donor_ok, pointed. by rewrite Es, Et, Em, En.
Qed.

(** Counting keeps what holds. *)
Lemma strip_inv g w w' :
  strip w' = strip w → state w = WPS_CAMPAIGN → wp_inv g n w → (∀ d, donor w' = Some d → donor_ok g w' d) → wp_inv g n w'.
Proof.
  intros E Hst Hi Hd. destruct w, w'. unfold strip in E. cbn in *. simplify_eq/=.
  destruct Hi as [H1 H2 H3 H4 H5 H6 H7 H8 H9 H10 H11 H12]. split; cbn in *; auto; done.
Qed.

Lemma strip_out g w w' : strip w' = strip w → wp_out g w → wp_out g w'.
Proof. intros E Ho. destruct w, w'. unfold strip in E. cbn in *. simplify_eq/=. by destruct Ho. Qed.

Lemma last_log_term_ok s : freed s = false → GetLastLogTerm s = Ok (last_term (vs_term_history (voteResponse s))).
Proof. intros Hf. unfold GetLastLogTerm, vote_entries. rewrite Hf. by destruct (vs_term_history (voteResponse s)). Qed.

Lemma consider_vote_spec g w seen i s :
  counted g w seen → voted w i s → freed s = false → donor_ok g w i →
  ∃ w', consider_vote i s w = (Ok tt, w') ∧ strip w' = strip w ∧ counted g w' (Some (i, s) :: seen).
Proof.
  intros Hc Hv Hf Hd. unfold consider_vote. rewrite (last_log_term_ok s Hf).
  unfold getS, liftR, modifyS, mbind, M_bind. cbv beta iota.
  destruct (_ || _ || _) eqn:Eb; cbn [whenM]; eexists; (split; [reflexivity|]; split; [done|]).
  - split; cbn [donor donorLastLogTerm propTermStartLsn set_truncateLsn set_donor set_propTermStartLsn set_donorLastLogTerm].
    + intros j s' [[= -> ->]|Hin]%elem_of_cons Hv'; unfold vote_below; cbn; [by right|].
      pose proof (ct_best _ _ _ Hc j s' Hin Hv') as Hb. unfold vote_below in Hb.
      pose proof (ct_some _ _ _ Hc j s' Hin Hv') as Hs. case_bool_decide; [done|]. lia.
    + done.
    + done.
    + intros d [= <-]. split; [done|]. left. by exists s.
  - case_bool_decide as En; [by rewrite orb_true_r in Eb|].
    split; cbn [donor donorLastLogTerm propTermStartLsn set_truncateLsn].
    + intros j s' [[= -> ->]|Hin]%elem_of_cons Hv'; [unfold vote_below; cbn; lia|]. by apply (ct_best _ _ _ Hc j).
    + done.
    + done.
    + apply (ct_donor _ _ _ Hc).
Qed.

Lemma counted_mono g w seen seen' :
  counted g w seen → (∀ i s, Some (i, s) ∈ seen' → voted w i s → Some (i, s) ∈ seen) → counted g w seen'.
Proof. intros [H1 H2 H3 H4] Hs. split; [eauto..|done|done]. Qed.

(** The slots that have voted. *)
Definition has_voted (o : option (nat * Safekeeper)) : bool := in_state SS_WAIT_ELECTED o.

Lemma consider_votes_spec g l w seen :
  counted g w seen → (∀ i s, Some (i, s) ∈ l → safekeeper w !! i = Some s ∧ (sk_state s = SS_WAIT_ELECTED → freed s = false ∧ donor_ok g w i)) →
  ∃ w', consider_votes l w = (Ok (Z.of_nat (length (filter (λ o, has_voted o) l))), w') ∧ strip w' = strip w ∧ counted g w' (l ++ seen).
Proof.
  revert w seen. induction l as [|[[i s]|] l IH]; intros w seen Hc Hl.
  - by exists w.
  - cbn [consider_votes]. destruct (Hl i s ltac:(constructor)) as [Hs Hv].
    assert (∀ j s', Some (j, s') ∈ l → safekeeper w !! j = Some s' ∧ (sk_state s' = SS_WAIT_ELECTED → freed s' = false ∧ donor_ok g w j)) as Hl'
      by (intros; apply Hl; by right).
    case_bool_decide as Ew.
    + destruct (Hv Ew) as [Hf Hd]. destruct (consider_vote_spec g w seen i s Hc (conj Hs Ew) Hf Hd) as (w1 & E1 & Es1 & Hc1).
      destruct (IH w1 _ Hc1) as (w2 & E2 & Es2 & Hc2).
      { intros j s' Hj. destruct (strip_fields _ _ Es1) as (-> & _). destruct (Hl' j s' Hj) as [? Hv']. split; [done|].
        intros E. destruct (Hv' E). split; [done|by apply (donor_strip g w)]. }
      exists w2. unfold mbind, M_bind. rewrite E1, E2. split_and!; [|congruence|].
      * rewrite filter_cons_True by (unfold has_voted, in_state; by rewrite bool_decide_true). cbn [length]. by rewrite Nat2Z.inj_succ.
      * apply (counted_mono _ _ _ _ Hc2). intros j s' Hj _. cbn in Hj. rewrite elem_of_app, elem_of_cons. rewrite elem_of_cons, elem_of_app in Hj. tauto.
    + destruct (IH w seen Hc Hl') as (w2 & E2 & Es2 & Hc2). exists w2. rewrite E2. split_and!; [|done|].
      * rewrite filter_cons_False by (unfold has_voted, in_state; rewrite bool_decide_false; [auto|done]). done.
      * apply (counted_mono _ _ _ _ Hc2). intros j s' [[= -> ->]|Hj]%elem_of_cons Hv'; [|done].
        apply (voted_strip _ _ _ _ Es2) in Hv' as [_ ?]. done.
  - cbn [consider_votes]. destruct (IH w seen Hc) as (w2 & E2 & Es2 & Hc2); [intros; apply Hl; by right|].
    exists w2. rewrite E2. split_and!; [rewrite filter_cons_False; [done|auto]|done|].
    apply (counted_mono _ _ _ _ Hc2). by intros j s' [?|Hj]%elem_of_cons _.
Qed.

Lemma voters_of_set g w mset msk :
  wp_inv g n w → state w = WPS_CAMPAIGN → (∀ i, Some i ∈ msk → pointed w i) →
  ∀ i s, Some (i, s) ∈ member_slots w mset msk →
    safekeeper w !! i = Some s ∧ (sk_state s = SS_WAIT_ELECTED → freed s = false ∧ donor_ok g w i).
Proof.
  intros Hi Hst Hp i s [k Hk]%list_elem_of_lookup. destruct (member_slots_lookup _ _ _ _ _ _ Hk) as [Hm Hs]. split; [done|].
  intros Ew. destruct (wi_slots _ _ _ _ _ _ _ _ Hi i s Hs) as (_ & _ & K & _). destruct (K Hst) as [_ Kv]. destruct (Kv Ew) as [Hf Hv].
  split; [done|]. split; [apply Hp; by eapply list_elem_of_lookup_2|]. exists s. auto.
Qed.

Lemma votes_mset_spec g w seen mset msk :
  wp_inv g n w → state w = WPS_CAMPAIGN → set_ok mset → ptrs_ok addr (safekeeper w) mset msk → (∀ i, Some i ∈ msk → pointed w i) →
  counted g w seen →
  ∃ b w', VotesCollectedMset mset msk w = (Ok b, w') ∧ strip w' = strip w ∧ counted g w' (member_slots w mset msk ++ seen) ∧
    (b = true → ∃ Q, mset_quorum mset Q ∧ ∀ a, a ∈ Q → ∃ i s, Some (i, s) ∈ member_slots w mset msk ∧ voted w i s ∧ sk_addr s = a).
Proof.
  intros Hi Hst Hset Hptr Hp Hc. set (l := member_slots w mset msk).
  destruct (consider_votes_spec g l w seen Hc (voters_of_set g w mset msk Hi Hst Hp)) as (w' & E & Es & Hc').
  eexists _, w'. unfold VotesCollectedMset, mbind, M_bind, getS. fold l. rewrite E. split_and!; [reflexivity|done..|].
  unfold MsetHasQuorum. intros Hq. destruct (members_of mset l (λ o, has_voted o) Hset) as (Q & Hsub & Hsz & Hin);
    [apply length_member_slots|]. exists Q. split; [apply mset_quorum_of; [done|]; rewrite Hsz; lia|].
  intros a Ha. destruct (Hin a Ha) as (k & m & o & Hm & <- & Hk & Hv). destruct o as [[i s]|]; [|done]. exists i, s.
  pose proof (list_elem_of_lookup_2 _ _ _ Hk) as Hel. apply bool_decide_unpack in Hv.
  destruct (member_slots_lookup _ _ _ _ _ _ Hk) as [Hmk Hs]. destruct (Hptr k i Hmk) as (m' & s' & ? & ? & ?). simplify_eq.
  split_and!; [done|by split|done].
Qed.

(** What holds when enough votes are collected. *)
Record elected_by (g : G) (w : WalProposer.t) (d : nat) (s : Safekeeper) (Q : gset Z) : Prop := {
  eb_donor : donor w = Some d ∧ safekeeper w !! d = Some s ∧ vote_of g (propTerm w) (sk_addr s) (voteResponse s);
  eb_quorum : conf_quorum conf Q;
  eb_votes a : a ∈ Q → ∃ s', vote_of g (propTerm w) a (voteResponse s') ∧ vote_below s' w;
  eb_best : freed s = false ∧ donorLastLogTerm w = last_term (vs_term_history (voteResponse s)) ∧ propTermStartLsn w = vs_flush_lsn (voteResponse s) ∨
    donorLastLogTerm w = 0 ∧ propTermStartLsn w = 0 ∧ (freed s = true ∨ vote_below s w)
}.

(** A donor that still counts was counted. *)
Lemma pointed_seen w i s :
  ptrs_ok addr (safekeeper w) (members (wp_mconf w)) (members_safekeepers w) →
  ptrs_ok addr (safekeeper w) (new_mset (wp_mconf w)) (new_members_safekeepers w) →
  pointed w i → safekeeper w !! i = Some s →
  Some (i, s) ∈ member_slots w (members (wp_mconf w)) (members_safekeepers w) ∨
  new_mset (wp_mconf w) ≠ [] ∧ Some (i, s) ∈ member_slots w (new_mset (wp_mconf w)) (new_members_safekeepers w).
Proof.
  assert (∀ mset msk, ptrs_ok addr (safekeeper w) mset msk → Some i ∈ msk → safekeeper w !! i = Some s →
    mset ≠ [] ∧ Some (i, s) ∈ member_slots w mset msk) as H.
  { intros mset msk Hp [k Hk]%list_elem_of_lookup Hs. destruct (Hp k i Hk) as (m & _ & Hm & _).
    split; [by intros ->|]. apply list_elem_of_lookup. exists k. unfold member_slots. rewrite list_lookup_fmap.
    pose proof (lookup_lt_Some _ _ _ Hm). rewrite lookup_seq_lt by lia. cbn. rewrite Hk. cbn. by rewrite Hs. }
  intros Hp Hpn [Hi|Hi] Hs; [left|right]; by apply H.
Qed.

Lemma counted_inv g w w' seen :
  strip w' = strip w → state w = WPS_CAMPAIGN → wp_inv g n w → counted g w' seen → wp_inv g n w'.
Proof. intros E Hst Hi Hc. apply (strip_inv g w); [done..|]. intros d Hd. by apply (ct_donor _ _ _ Hc). Qed.

Lemma member_slots_strip w w' mset msk : strip w' = strip w → member_slots w' mset msk = member_slots w mset msk.
Proof. intros E. destruct (strip_fields w w' E) as (Es & _). unfold member_slots. by rewrite Es. Qed.

(** The donor of a count in which a quorum has voted. *)
Lemma counted_elected g w seen Q :
  wp_inv g n w → state w = WPS_CAMPAIGN → counted g w seen → conf_quorum conf Q →
  (∀ a, a ∈ Q → ∃ i s, Some (i, s) ∈ seen ∧ voted w i s ∧ sk_addr s = a) →
  (∀ i s, pointed w i → safekeeper w !! i = Some s → Some (i, s) ∈ seen) →
  ∃ d s, elected_by g w d s Q.
Proof.
  intros Hi Hst Hc HQ Hvotes Hseen.
  assert (∃ a, a ∈ Q) as [a Ha].
  { apply set_choose_L. intros ->. destruct HQ as [HQ _]. unfold mset_quorum in HQ. rewrite intersection_empty_l_L, size_empty in HQ.
    destruct (co_members _ Hconf) as (_ & Hne & _). pose proof (mset_quorum_bound _ Hne). lia. }
  destruct (Hvotes a Ha) as (i0 & s0 & Hin0 & Hv0 & _). destruct (donor w) as [d|] eqn:Ed; [|by destruct (ct_some _ _ _ Hc i0 s0)].
  destruct (ct_donor _ _ _ Hc d Ed) as ((Hpt & s & Hs & Hv & Hfr) & Hbest). exists d, s. split; [done..| |].
  - intros b Hb. destruct (Hvotes b Hb) as (i & s' & Hin & Hv' & <-). exists s'. split; [|by apply (ct_best _ _ _ Hc i)].
    destruct Hv' as [Hs' Ew]. destruct (wi_slots _ _ _ _ _ _ _ _ Hi i s' Hs') as (_ & _ & K & _). destruct (K Hst) as [_ Kv]. by apply Kv.
  - destruct Hbest as [(s' & [Hs' Ew] & E1 & E2)|[E1 E2]].
    + left. simplify_eq. destruct (wi_slots _ _ _ _ _ _ _ _ Hi d s Hs) as (_ & _ & K & _). destruct (K Hst) as [_ Kv].
      by destruct (Kv Ew).
    + right. split_and!; [done..|]. destruct Hfr as [?|Ew]; [by left|right]. apply (ct_best _ _ _ Hc d); [by apply Hseen|by split].
Qed.

Lemma votes_collected g w :
  wp_inv g n w → state w = WPS_CAMPAIGN →
  ∃ b w', VotesCollected w = (Ok b, w') ∧ strip w' = strip w ∧ wp_inv g n w' ∧ (b = true → ∃ d s Q, elected_by g w' d s Q).
Proof.
  intros Hi Hst. set (w0 := set_truncateLsn 0 (set_donorLastLogTerm 0 (set_propTermStartLsn 0 w))).
  assert (strip w0 = strip w) as Es0 by done. assert (state w0 = WPS_CAMPAIGN) as Hst0 by done.
  assert (counted g w0 []) as Hc0.
  { split; [by intros ?? ?%elem_of_nil..|done|]. intros d Hd. split; [|by right]. by apply (wi_donor _ _ _ _ _ _ _ _ Hi). }
  pose proof (counted_inv g w w0 [] Es0 Hst Hi Hc0) as Hi0.
  assert (wp_mconf w0 = conf) as Econf by (destruct (wi_mconf _ _ _ _ _ _ _ _ Hi) as [?|[_ ?]]; [done|congruence]).
  destruct (co_members _ Hconf) as (Hset & Hne & _). destruct (co_new _ Hconf) as (Hsetn & _).
  pose proof (wi_ptrs _ _ _ _ _ _ _ _ Hi0) as Hp. pose proof (wi_new_ptrs _ _ _ _ _ _ _ _ Hi0) as Hpn. rewrite Econf in Hp, Hpn.
  destruct (votes_mset_spec g w0 [] (members conf) (members_safekeepers w0) Hi0 Hst Hset Hp) as (b1 & w1 & E1 & Es1 & Hc1 & Hq1);
    [by left|done|].
  pose proof (counted_inv g w0 w1 _ Es1 Hst Hi0 Hc1) as Hi1. destruct (strip_fields _ _ Es1) as (Esk & Est1 & _ & _ & Em1 & En1 & _).
  assert (∀ rest, (w ← getS; if legacy w then rest w else
    b ← VotesCollectedMset (members (wp_mconf w)) (members_safekeepers w);
    if negb b then mret false else if bool_decide (new_mset (wp_mconf w) = []) then mret true
    else VotesCollectedMset (new_mset (wp_mconf w)) (new_members_safekeepers w)) w0 =
    (if negb b1 then mret false else if bool_decide (new_mset conf = []) then mret true
     else VotesCollectedMset (new_mset conf) (new_members_safekeepers w0)) w1) as Erun.
  { intros rest. unfold mbind, M_bind, getS. rewrite (not_legacy _ _ _ _ _ _ _ _ Hi0), Econf, E1. done. }
  unfold VotesCollected. change ((_ ← modifyS _; ?k) w) with (k w0). rewrite Erun. clear Erun.
  destruct b1; cycle 1.
  { exists false, w1. split_and!; [done|congruence|done|done]. }
  destruct (Hq1 eq_refl) as (Q1 & HQ1 & Hv1). cbn [negb]. case_bool_decide as En.
  - exists true, w1. split_and!; [done|congruence|done|]. intros _.
    destruct (counted_elected g w1 _ Q1 Hi1 ltac:(congruence) Hc1) as (d & s & He); [by split| | |by exists d, s, Q1].
    + intros a Ha. destruct (Hv1 a Ha) as (i & s & Hin & Hv & Ea). exists i, s. rewrite app_nil_r. split_and!; [done| |done].
      by apply (voted_strip _ _ _ _ Es1).
    + intros i s Hpt Hs. rewrite app_nil_r, <-(member_slots_strip _ _ _ _ Es1).
      destruct (pointed_seen w0 i s) as [?|[? _]]; rewrite ?Econf in *; try done; [| |by rewrite (member_slots_strip _ _ _ _ Es1)].
      * unfold pointed. by rewrite <-Em1, <-En1.
      * by rewrite <-Esk.
  - destruct (votes_mset_spec g w1 (member_slots w0 (members conf) (members_safekeepers w0) ++ []) (new_mset conf) (new_members_safekeepers w0) Hi1 ltac:(congruence) Hsetn) as (b2 & w2 & E2 & Es2 & Hc2 & Hq2);
      [by rewrite Esk|by rewrite <-En1; right|exact Hc1|].
    pose proof (counted_inv g w1 w2 _ Es2 ltac:(congruence) Hi1 Hc2) as Hi2. exists b2, w2. split_and!; [done|congruence|done|].
    intros ->. destruct (Hq2 eq_refl) as (Q2 & HQ2 & Hv2). destruct (strip_fields _ _ Es2) as (Esk2 & Est2 & _ & _ & Em2 & En2 & _).
    destruct (counted_elected g w2 _ (Q1 ∪ Q2) Hi2 ltac:(congruence) Hc2) as (d & s & He); [| | |by exists d, s, (Q1 ∪ Q2)].
    + split; [|intros _]; eapply mset_quorum_mono; [|done| |done]; set_solver.
    + rewrite (member_slots_strip _ _ _ _ Es1) in *. intros a [Ha|Ha]%elem_of_union.
      * destruct (Hv1 a Ha) as (i & s & Hin & Hv & Ea). exists i, s. rewrite !elem_of_app. split_and!; [by auto| |done].
        by apply (voted_strip _ _ _ _ Es2), (voted_strip _ _ _ _ Es1).
      * destruct (Hv2 a Ha) as (i & s & Hin & Hv & Ea). exists i, s. rewrite !elem_of_app. split_and!; [by auto| |done].
        by apply (voted_strip _ _ _ _ Es2).
    + intros i s Hpt Hs. rewrite (member_slots_strip _ _ _ _ Es1), !elem_of_app.
      destruct (pointed_seen w0 i s) as [?|[_ ?]]; rewrite ?Econf in *; try done; [| |by auto..].
      * unfold pointed. by rewrite <-Em1, <-En1, <-Em2, <-En2.
      * by rewrite <-Esk, <-Esk2.
Qed.

(** ** The election *)

(** A proposer that finds an empty timeline knows where it starts. *)
Definition redo_ok (g : G) (redo : Lsn) : Prop :=
  ∀ Q t, conf_quorum conf Q →
    (∀ a, a ∈ Q → ∃ v, v ∈ votes g ∧ v_acc v = a ∧ v_prop v = p ∧ v_term v = t ∧ v_flush v ≤ 0) → redo = L.

(** Where the term starts. *)
Definition start_at (redo : Lsn) (w : WalProposer.t) : Lsn := if propTermStartLsn w =? 0 then redo else propTermStartLsn w.

(** The votes of a quorum, as the abstract protocol has them, and the donor's is the best. *)
Lemma elected_best g w d s Q :
  invariant L fresh g → elected_by g w d s Q →
  let v := MkVote (sk_addr s) p (propTerm w) (vs_term_history (voteResponse s)) (vs_flush_lsn (voteResponse s)) in
  (∀ dth, vote_entries s = Ok dth → dth = v_hist v ∧ (propTermStartLsn w = 0 → v_flush v = 0 ∨ v_flush v = L) ∧
     (propTermStartLsn w ≠ 0 → v_flush v = propTermStartLsn w) ∧
     ∀ a, a ∈ Q → ∃ v', v' ∈ votes g ∧ v_acc v' = a ∧ v_prop v' = p ∧ v_term v' = propTerm w ∧ vote_le v' v ∧
       (propTermStartLsn w = 0 → v_flush v' ≤ 0)).
Proof.
  intros Hi [(_ & _ & Hv) _ Hvotes Hbest] v dth Hth.
  assert (dth = v_hist v) as ->.
  { cbn. revert Hth. unfold vote_entries. destruct (vs_term_history (voteResponse s)), (freed s); by intros [= <-]. }
  destruct (i_vote _ _ _ Hi v Hv) as (_ & _ & Hlt & _ & Hfl). change (v_term v) with (propTerm w) in Hlt.
  change (v_hist v) with (vs_term_history (voteResponse s)) in *. change (v_flush v) with (vs_flush_lsn (voteResponse s)) in *.
  assert (∀ s' a, vote_of g (propTerm w) a (voteResponse s') → 0 ≤ last_term (vs_term_history (voteResponse s'))) as Hlt'.
  { intros s' a Hv'. destruct (i_vote _ _ _ Hi _ Hv') as (_ & _ & Hl & _). cbn in Hl. lia. }
  assert (donorLastLogTerm w = last_term (vs_term_history (voteResponse s)) ∧ propTermStartLsn w = vs_flush_lsn (voteResponse s) ∨
    donorLastLogTerm w = 0 ∧ propTermStartLsn w = 0 ∧ vs_term_history (voteResponse s) = [] ∧
    (vs_flush_lsn (voteResponse s) = 0 ∨ vs_flush_lsn (voteResponse s) = L)) as Hkey.
  { destruct Hbest as [(_ & ? & ?)|(E1 & E2 & Hst)]; [by left|right]. split; [done|]. split; [done|].
    assert (vs_term_history (voteResponse s) = []) as E.
    { destruct Hst as [Hf|[Hb|[Hb1 Hb2]]]; [|lia|destruct Hfl as [[? _]|[? _]]; [done|lia]].
      revert Hth. unfold vote_entries. rewrite Hf. by destruct (vs_term_history (voteResponse s)). }
    split; [done|]. destruct Hfl as [[_ ?]|[_ Hfl]]; [by left|right; by apply Hfl]. }
  assert (propTermStartLsn w = 0 → donorLastLogTerm w = 0) as Hz.
  { intros E. destruct Hkey as [[-> E2]|(? & _)]; [|done]. destruct Hfl as [[Eh _]|[Hge _]]; [by rewrite Eh|lia]. }
  split_and!; [done|..].
  - intros E. destruct Hkey as [[_ E2]|(_ & _ & _ & ?)]; [|done]. left. congruence.
  - intros E. by destruct Hkey as [[_ E2]|(_ & ? & _)].
  - intros a Ha. destruct (Hvotes a Ha) as (s' & Hv' & Hb). pose proof (Hlt' s' a Hv') as Hp. eexists. split; [exact Hv'|]. split_and!; [done..| |].
    + unfold vote_below in Hb. unfold vote_le, v. cbn [v_hist v_flush]. destruct Hkey as [[E1 E2]|(E1 & E2 & E3 & E4)].
      * rewrite E1, E2 in Hb. lia.
      * rewrite E3. change (last_term []) with 0. lia.
    + intros E. specialize (Hz E). unfold vote_below in Hb. cbn. lia.
Qed.

Lemma elect_step g w d s Q redo dth :
  invariant L fresh g → elected_by g w d s Q → redo_ok g redo → (∀ e, e ∈ elected g → l_prop e ≠ p) →
  vote_entries s = Ok dth →
  step L g (MkWorld (accs g) (votes g)
    (MkLeader p (propTerm w) (dth ++ [MkTermLsn (propTerm w) (start_at redo w)]) :: elected g) (acks g)) ∧
  0 < start_at redo w.
Proof.
  intros Hi He Hr Hfresh Hth. destruct (elected_best g w d s Q Hi He dth Hth) as (Eh & Hz & Hnz & Hvotes).
  pose proof He as [(_ & _ & Hv) HQ _ _]. set (v := MkVote _ _ _ _ _) in *.
  assert (start_at redo w = start_from L v ∧ 0 < start_at redo w) as [Est Hpos].
  { unfold start_at, start_from. destruct (Z.eqb_spec (propTermStartLsn w) 0) as [E|Hne].
    - assert (redo = L) as ->; [|destruct (Hz E) as [->| ->]; [done|]; destruct (Z.eqb_spec L 0); done].
      apply (Hr Q (propTerm w) HQ). intros a Ha. destruct (Hvotes a Ha) as (v' & ? & ? & ? & ? & _ & Hf). exists v'. split_and!; auto.
    - rewrite (Hnz Hne), (proj2 (Z.eqb_neq (propTermStartLsn w) 0) Hne). split; [done|].
      destruct (i_vote _ _ _ Hi v Hv) as (_ & _ & _ & _ & Hfl). specialize (Hnz Hne). destruct Hfl as [[_ ?]|[? _]]; lia. }
  split; [|done]. rewrite Eh, Est. apply (step_elect L g p (propTerm w) Q v); try done.
  intros a Ha. destruct (Hvotes a Ha) as (v' & ? & ? & ? & ? & ? & _). by exists v'.
Qed.

(** The state of an elected proposer. *)
Definition elected_state (w : WalProposer.t) (dth : TermHistory.t) (trunc : Lsn) : WalProposer.t :=
  let start := start_at (redo_start_lsn (config w)) w in
  set_mineLastElectedTerm (propTerm w) (set_propTermHistory (dth ++ [MkTermLsn (propTerm w) start])
    (set_availableLsn start (set_truncateLsn trunc (set_propTermStartLsn start w)))).

Lemma process_start w d s :
  donor w = Some d → safekeeper w !! d = Some s →
  wp ProcessPropStartPos (λ r w',
    outbox w' = outbox w ∧ commitLsn w' = commitLsn w ∧ propTerm w' = propTerm w ∧ state w' = state w ∧ config w' = config w ∧
    (r = Ok tt → ∃ dth trunc, vote_entries s = Ok dth ∧ w' = elected_state w dth trunc)) w.
Proof.
  intros Hd Hs. unfold ProcessPropStartPos, wp, getS, modifyS, liftR, get_sk, mbind, M_bind.
  assert (∀ w1, safekeeper w1 = safekeeper w → safekeeper w1 !! d = Some s) as Hs' by (by intros ? ->).
  destruct (propTermStartLsn w =? 0) eqn:Ez.
  - destruct (syncSafekeepers (config w)); [by cbn|]. cbn. rewrite Hd. cbn. rewrite Hs. cbn.
    destruct (vote_entries s) as [dth| |]; cbn; [|by split_and!..].
    destruct (_ && _ && _); cbn; split_and!; try done. intros _. exists dth, (redo_start_lsn (config w)). split; [done|].
    unfold elected_state, start_at. rewrite Ez. done.
  - cbn. rewrite Hd. cbn. rewrite Hs. cbn. destruct (vote_entries s) as [dth| |]; cbn; [|by split_and!..].
    destruct (_ && _ && _); cbn; split_and!; try done. intros _. exists dth, (truncateLsn w). split; [done|].
    unfold elected_state, start_at. rewrite Ez. by destruct w.
Qed.

(** The world after the election of this proposer. *)
Definition elect (g : G) (t : Term) (th : TermHistory.t) : G :=
  MkWorld (accs g) (votes g) (MkLeader p t th :: elected g) (acks g).

Lemma committed_elect g t th e c : committed g e c → committed (elect g t th) e c.
Proof. intros (He & Hs & HQ). split_and!; [by right|done|done]. Qed.

Lemma out_elect g t th t' m : out_ok conf Hconf p g t' m → out_ok conf Hconf p (elect g t th) t' m.
Proof.
  assert (∀ c, committed_lsn conf Hconf p g t' c → committed_lsn conf Hconf p (elect g t th) t' c) as Hc.
  { intros c [?|(Hp & th' & Hc)]; [by left|right]. split; [done|]. exists th'. by apply committed_elect. }
  destruct m; cbn; try done.
  - intros (? & ? & ?). split_and!; [done..|by right].
  - intros (? & ? & ?). split_and!; auto.
Qed.

(** In the phase [ELECTED], before the announcement. *)
Lemma elected_state_ok g w dth trunc :
  wp_out g w → wp_inv g n w → state w = WPS_CAMPAIGN → 0 < start_at (redo_start_lsn (config w)) w →
  let w' := elected_state (set_state WPS_ELECTED w) dth trunc in
  let g' := elect g (propTerm w) (propTermHistory w') in
  wp_out g' w' ∧ wp_inv g' n w'.
Proof.
  intros Ho Hi Hst Hpos w' g'.
  assert (∀ e, e ∈ elected g → l_prop e ≠ p) as Hfresh.
  { intros e He Ep. destruct (wo_leader _ _ _ _ _ _ Ho e He Ep). congruence. }
  assert (∀ t c, committed_lsn conf Hconf p g t c → c = 0) as Hno.
  { intros t c [?|(_ & th & Hc & _)]; [done|]. by destruct (Hfresh _ Hc). }
  split.
  - destruct Ho as [H1 H2 H3 H4 H5]. split; cbn; [left; by eapply Hno|..].
    + intros x Hx. destruct (H2 x Hx). split; [by apply out_elect|done].
    + done.
    + intros e [->|He]%elem_of_cons Ep; [done|]. by destruct (Hfresh e).
    + destruct H5 as (S1 & S2 & S3 & S4). split_and!; cbn; [done|done| |done]. intros Hn. by destruct (S3 Hn).
  - destruct Hi as [H1 H2 H3 H4 H5 H6 H7 H8 H9 H10 H11 H12]. split; cbn; auto; try congruence.
    + destruct H3 as [?|[_ ?]]; [by left|congruence].
    + intros m Hm. specialize (H5 m Hm). destruct m as [?|v|?]; cbn in *; [done| |destruct H5; congruence].
      intros Hv. by destruct (H5 Hv).
    + intros i s Hs. destruct (H8 i s Hs) as (K1 & K2 & K3 & K4 & K5 & K6). unfold slot_ok. cbn. destruct (K3 Hst) as [Hns _].
      split_and!; try done; [destruct K4 as [?|[? _]]; [by left|congruence]|]. intros E. destruct (K6 E). congruence.
    + intros _. apply H9. congruence.
    + intros _. split; [by left|]. split; [done|]. by eexists.
Qed.

(** ** The response to a vote request *)

Context (wal_read : Lsn → Z → bytes).
Abbreviation keep := (ProposerInv.keep conf Hconf addr p nodes wp0).

(** What follows the election. *)
Definition announce : M WalProposer.t WpError unit :=
  r ← api;
  match r with
  | ApiFail => bail Fatal
  | _ =>
      w ← getS;
      let sync := syncSafekeepers (config w) in
      if (truncateLsn w =? propTermStartLsn w) && sync then bail (SyncFinished (propTermStartLsn w))
      else
        _ ← for_slots (slots w) (λ i, s ← get_sk i;
              whenM (bool_decide (sk_state s = SS_WAIT_ELECTED)) (SendProposerElected wal_read i));
        whenM sync (BroadcastAppendRequest wal_read)
  end.

Lemma keep_announce g w : state w = WPS_ELECTED → keep g n announce w.
Proof.
  intros Hst. apply keep_api_bind. intros r v.
  assert (keep g n (w ← getS; let sync := syncSafekeepers (config w) in
    if (truncateLsn w =? propTermStartLsn w) && sync then bail (SyncFinished (propTermStartLsn w))
    else _ ← for_slots (slots w) (λ i, s ← get_sk i; whenM (bool_decide (sk_state s = SS_WAIT_ELECTED)) (SendProposerElected wal_read i));
         whenM sync (BroadcastAppendRequest wal_read)) (set_io v w)) as Hk.
  { apply keep_get. cbv zeta. destruct (_ && _); [apply keep_bail|]. apply keep_bind.
    - apply keep_for_slots. intros i w1 E1. apply keep_sk. intros s _. apply keep_when. intros _. apply keep_send_elected; [done|].
      rewrite E1. done.
    - intros [] w1 _ _ _. apply keep_when. intros _. by apply keep_broadcast. }
  destruct r; try exact Hk. apply keep_bail.
Qed.

(** What an entry point does to the world: nothing, or the election of this proposer. *)
Definition elects (g : G) (t : Term) (g' : G) : Prop := g' = g ∨ (∃ th, g' = elect g t th) ∧ step L g g'.

Definition ends_with (g : G) {A} (w : WalProposer.t) (r : result WpError A) (w' : WalProposer.t) : Prop :=
  ∃ g', elects g (propTerm w) g' ∧ wp_out g' w' ∧ ∀ a, r = Ok a → wp_inv g' n w'.

Lemma ends_same g {A} w (m : M WalProposer.t WpError A) :
  ends conf Hconf addr p nodes wp0 g n m w → wp_out g w → wp_inv g n w → wp m (ends_with g w) w.
Proof. intros Hm Ho Hi. eapply wp_mono; [by apply Hm|]. intros r w' [? ?]. exists g. split_and!; [by left|done|done]. Qed.

Lemma failed_out g w w' :
  wp_out g w → state w = WPS_CAMPAIGN → outbox w' = outbox w → commitLsn w' = commitLsn w → propTerm w' = propTerm w →
  state w' = WPS_ELECTED → config w' = config w → wp_out g w'.
Proof.
  intros [H1 H2 H3 H4 H5] Hst E1 E2 E3 E4 E5. split; rewrite ?E1, ?E2, ?E3; [done| |done| |].
  - intros x Hx. destruct (H2 x Hx). split; [done|congruence].
  - intros e He Ep. destruct (H4 e He Ep). congruence.
  - destruct H5 as (S1 & S2 & S3 & S4). unfold since. rewrite E1, E3, E4, E5. split_and!; [done|done| |done].
    intros Hn. by destruct (S3 Hn).
Qed.

Lemma count_and_elect g w :
  invariant L fresh g → redo_ok g (redo_start_lsn (config w)) → state w = WPS_CAMPAIGN → wp_out g w → wp_inv g n w →
  wp (b ← VotesCollected; whenM b (_ ← modifyS (set_state WPS_ELECTED); HandleElectedProposer wal_read)) (ends_with g w) w.
Proof.
  intros Hg Hr Hst Ho Hi. destruct (votes_collected g w Hi Hst) as (b & w4 & E4 & Es4 & Hi4 & Hel).
  destruct (strip_fields _ _ Es4) as (Esk & Est & Et & _ & _ & _ & Ecf & Eo & Ec). pose proof (strip_out g w w4 Es4 Ho) as Ho4.
  apply wp_bind. unfold wp at 1. rewrite E4. cbn [fst snd wp_next]. destruct b; cycle 1.
  { exists g. split_and!; [by left|done|]. by intros. }
  destruct (Hel eq_refl) as (d & s & Q & He). pose proof He as [(Ed & Esd & _) _ _ _].
  apply wp_bind. unfold wp at 1. cbn [modifyS fst snd wp_next]. set (w5 := set_state WPS_ELECTED w4).
  assert (∀ e, e ∈ elected g → l_prop e ≠ p) as Hfresh.
  { intros e He' Ep. destruct (wo_leader _ _ _ _ _ _ Ho e He' Ep). congruence. }
  apply (wp_bind ProcessPropStartPos (λ _, announce)). eapply wp_mono; [apply (process_start w5 d s Ed Esd)|].
  intros r w6 (E1 & E2 & E3 & E5 & E6 & Hok). destruct r as [[]|e|]; cbn [wp_next].
  - destruct (Hok eq_refl) as (dth & trunc & Hth & ->).
    assert (redo_start_lsn (config w4) = redo_start_lsn (config w)) as Erd by (by rewrite Ecf).
    destruct (elect_step g w4 d s Q (redo_start_lsn (config w4)) dth Hg He) as [Hstep Hpos]; [by rewrite Erd|done|done|].
    destruct (elected_state_ok g w4 dth trunc Ho4 Hi4) as [Ho' Hi']; [congruence|done|].
    eapply wp_mono; [by apply (keep_announce (elect g (propTerm w4) (propTermHistory (elected_state w5 dth trunc))))|].
    intros r w' [Ho2 Hi2]. eexists. split_and!; [|exact Ho2|intros a Ea; by apply (Hi2 a)].
    right. rewrite <-Et. split; [by eexists|exact Hstep].
  - exists g. split_and!; [by left| |done]. subst w5. cbn in E1, E2, E3, E5, E6. apply (failed_out g w); congruence.
  - exists g. split_and!; [by left| |done]. subst w5. cbn in E1, E2, E3, E5, E6. apply (failed_out g w); congruence.
Qed.

Abbreviation ends := (ProposerInv.ends conf Hconf addr p nodes wp0).

(** A vote that is recorded, and counts from now on. *)
Lemma record_vote g w i v :
  nodes !! i = Some n → (∀ s, safekeeper w !! i = Some s → sk_state s = SS_WAIT_VERDICT) →
  reply_ok conf p g w n (AVoteResponse v) → (state w = WPS_CAMPAIGN → vote_given v = true) → wp_out g w → wp_inv g n w →
  let w' := set_safekeeper (alter (sk_set_state SS_WAIT_ELECTED) i
              (alter (λ s, sk_set_freed false (sk_set_voteResponse v s)) i (safekeeper w))) w in
  wp_out g w' ∧ wp_inv g n w'.
Proof.
  intros Hn Hs Hv Hgiven Ho Hi. cbn zeta.
  rewrite list_alter_alter_eq.
  assert (∀ s, safekeeper w !! i = Some s → sk_addr s = n) as Ha.
  { intros s Hs'. pose proof (wi_nodes _ _ _ _ _ _ _ _ Hi) as E. rewrite <-E, list_lookup_fmap, Hs' in Hn. by injection Hn. }
  apply (upd_slot conf Hconf addr p nodes Hnodes wp0 g n w i); [done..|]. intros s Hs' (K1 & K2 & K3 & K4 & K5 & K6). specialize (Hs s Hs').
  assert (state w ≠ WPS_COLLECTING_TERMS) as Hnc by (intros E; specialize (K2 E); by rewrite Hs in K2).
  assert (state w = WPS_CAMPAIGN → vote_of g (propTerm w) (sk_addr s) v) as Hvote.
  { intros E. rewrite (Ha s Hs'). by destruct (Hv (Hgiven E)). }
  split_and!; [|done|].
  - unfold slot_ok. cbn. split_and!; try done. intros E. split; [done|]. intros _. split; [done|]. by apply Hvote.
  - intros E _ _. cbn. split; [by apply Hvote|by right].
Qed.

Lemma recv_vote g w i :
  invariant L fresh g → redo_ok g (redo_start_lsn (config w)) → nodes !! i = Some n →
  (∀ s, safekeeper w !! i = Some s → sk_state s = SS_WAIT_VERDICT) → wp_out g w → wp_inv g n w →
  wp (RecvVoteResponse wal_read i) (ends_with g w) w.
Proof.
  intros Hg Hr Hn Hs Ho Hi. unfold RecvVoteResponse. apply wp_bind.
  pose proof (keep_read conf Hconf addr p nodes Hnodes wp0 g n i TagVote w Ho Hi) as Hk. unfold wp in Hk |- *.
  destruct (AsyncReadMessage i TagVote w) as [r w1] eqn:E1. cbn [fst snd] in *. destruct Hk as [Ho1 Hk].
  assert (∀ A (r : result WpError A), (∀ a, r = Ok a → wp_inv g n w1) → ends_with g w r w1) as Hsame
    by (intros A r' Hr'; exists g; split_and!; [by left|done|done]).
  destruct r as [[[?|v|?]|]|e|]; cbn [wp_next]; try (apply Hsame; intros a Ea; by destruct (Hk _ eq_refl)).
  all: try (apply Hsame; by intros).
  destruct (read_some _ _ _ _ _ _ _ _ _ _ _ _ Hi E1) as (Hv & _ & l & ->). destruct (Hk _ eq_refl) as [Hi1 _]. clear Hsame Hk.
  set (w1 := set_inbox l w) in *. set (w2 := set_safekeeper (alter (λ s, sk_set_freed false (sk_set_voteResponse v s)) i (safekeeper w1)) w1).
  change (wp (w ← getS; if negb (vote_given v) && ((propTerm w <? vs_term v) || bool_decide (state w = WPS_CAMPAIGN)) then bail Fatal
    else _ ← upd_sk i (sk_set_state SS_WAIT_ELECTED);
      if bool_decide (state w = WPS_CAMPAIGN) then
        b ← VotesCollected; whenM b (_ ← modifyS (set_state WPS_ELECTED); HandleElectedProposer wal_read)
      else SendProposerElected wal_read i) (ends_with g w) w2).
  change (wp (if negb (vote_given v) && ((propTerm w <? vs_term v) || bool_decide (state w = WPS_CAMPAIGN)) then bail Fatal
    else _ ← upd_sk i (sk_set_state SS_WAIT_ELECTED);
      if bool_decide (state w = WPS_CAMPAIGN) then
        b ← VotesCollected; whenM b (_ ← modifyS (set_state WPS_ELECTED); HandleElectedProposer wal_read)
      else SendProposerElected wal_read i) (ends_with g w) w2).
  destruct (negb (vote_given v) && _) eqn:Ebad.
  { exists g. split_and!; [by left|by destruct Ho1|done]. }
  destruct (record_vote g w1 i v Hn Hs Hv) as [Ho3 Hi3]; [|done..|].
  { change (state w1) with (state w). intros E. rewrite (bool_decide_true _ E), orb_true_r, andb_true_r in Ebad. by destruct (vote_given v). }
  apply wp_bind. unfold wp at 1. cbn [upd_sk modifyS fst snd wp_next]. change (safekeeper w2) with (alter (λ s, sk_set_freed false (sk_set_voteResponse v s)) i (safekeeper w1)).
  set (w3 := set_safekeeper _ w2) in *. case_bool_decide as Est.
  - by apply (count_and_elect g w3).
  - apply (ends_same g w3); [|done|done]. apply keep_ends, keep_send_elected; [done|].
    pose proof (wi_nodes _ _ _ _ _ _ _ _ Hi) as En. rewrite <-En, list_lookup_fmap, fmap_Some in Hn. destruct Hn as (s & Hs' & _).
    destruct (wi_slots _ _ _ _ _ _ _ _ Hi i s Hs') as (_ & K2 & _). change (state w3) with (state w).
    destruct (state w); [by rewrite (Hs s Hs') in K2; specialize (K2 eq_refl)|done|done].
Qed.

(** ** The entry points *)

Lemma advance_poll g w i ev :
  invariant L fresh g → redo_ok g (redo_start_lsn (config w)) → nodes !! i = Some n → wp_out g w → wp_inv g n w →
  wp (AdvancePollState wal_read i ev) (ends_with g w) w.
Proof.
  intros Hg Hr Hn Ho Hi. unfold AdvancePollState.
  assert (∃ s, safekeeper w !! i = Some s) as [s Hs].
  { pose proof (wi_nodes _ _ _ _ _ _ _ _ Hi) as E. rewrite <-E, list_lookup_fmap, fmap_Some in Hn. destruct Hn as (s & ? & _). by exists s. }
  assert (∀ A (f : Safekeeper → M WalProposer.t WpError A) Φ, wp (f s) Φ w → wp (s ← get_sk i; f s) Φ w) as Hget.
  { intros A f Φ. unfold wp, get_sk, mbind, M_bind, getS, liftR. by rewrite Hs. }
  apply Hget. clear Hget. assert (∀ st, sk_state s = st → st ≠ SS_WAIT_ELECTED → ∀ s', safekeeper w !! i = Some s' → sk_state s' ≠ SS_WAIT_ELECTED) as Hne
    by (intros st <- ? s' ?; by simplify_eq).
  assert (∀ m : M WalProposer.t WpError unit, keep g n m w → wp m (ends_with g w) w) as Hk
    by (intros m Hm; apply (ends_same g w); [by apply keep_ends|done|done]).
  destruct (sk_state s) eqn:Est.
  - apply Hk, keep_bail.
  - apply Hk, keep_connection_event; [done|]. by apply (Hne SS_CONNECTING_WRITE).
  - apply Hk, keep_connection_event; [done|]. by apply (Hne SS_CONNECTING_READ).
  - apply Hk, keep_push_result; [done|]. by apply (Hne SS_WAIT_EXEC_RESULT).
  - apply (ends_same g w); [|done|done]. apply ends_recv_greeting; [done..|]. intros s' Hs'. by simplify_eq.
  - by apply Hk, keep_reset.
  - apply recv_vote; [done..| |done|done]. intros s' Hs'. by simplify_eq.
  - apply Hk, keep_bind; [by apply keep_flush|]. intros b w1 E1 _ _. apply keep_when. intros ->.
    destruct (flush_true _ _ _ E1) as [v ->]. destruct (wi_slots _ _ _ _ _ _ _ _ Hi i s Hs) as (_ & K2 & K3 & _ & K5 & _). rewrite Est in *.
    apply keep_start_streaming; [done|cbn; by destruct (state w); [specialize (K2 eq_refl)|destruct (K3 eq_refl)|]|].
    intros s' Hs'. cbn in Hs'. simplify_eq. by apply K5.
  - by apply Hk, keep_reset.
  - apply Hk, keep_active_state; [done..|]. intros s' Hs'. by simplify_eq.
Qed.

Lemma keep_reconnect g w : keep g n ReconnectSafekeepers w.
Proof. apply keep_get, keep_for_slots. intros i w1 _. apply keep_sk. intros s _. apply keep_when. intros _. by apply keep_reset. Qed.

Lemma keep_timers g w (reconnect timeout : bool) silent :
  keep g n (_ ← whenM reconnect ReconnectSafekeepers;
    whenM timeout (w ← getS; _ ← whenM (negb (availableLsn w =? 0)) (BroadcastAppendRequest wal_read); for_slots silent ShutdownConnection)) w.
Proof.
  apply keep_bind; [apply keep_when; intros _; apply keep_reconnect|]. intros [] w1 _ _ _. apply keep_when. intros _. apply keep_get.
  apply keep_bind; [apply keep_when; intros _; by apply keep_broadcast|]. intros [] w2 _ _ _. apply keep_for_slots. intros i w3 _. by apply keep_shutdown.
Qed.

(** A round of polling. *)
Lemma poll_ends g w ev reconnect timeout silent :
  invariant L fresh g → redo_ok g (redo_start_lsn (config w)) →
  match ev with Some (i, _) => nodes !! i = Some n | None => True end → wp_out g w → wp_inv g n w →
  wp (WalProposerPoll wal_read ev reconnect timeout silent) (ends_with g w) w.
Proof.
  intros Hg Hr Hn Ho Hi. unfold WalProposerPoll. apply wp_bind. eapply wp_mono.
  { instantiate (1 := ends_with g w). destruct ev as [[i ev]|]; [by apply advance_poll|].
    apply (ends_same g w); [apply keep_ends, keep_ret|done|done]. }
  intros r w1 (g1 & Hel & Ho1 & Hi1). destruct r as [[]|e|]; cbn [wp_next]; [|exists g1; by split_and!..].
  eapply wp_mono; [apply (keep_timers g1 w1 reconnect timeout silent Ho1 (Hi1 tt eq_refl))|].
  intros r w2 [Ho2 Hi2]. exists g1. split_and!; [done|done|]. intros a Ea. by apply (Hi2 a).
Qed.

Lemma keep_start g w : keep g n WalProposerStart w.
Proof. apply keep_get, keep_for_slots. intros i w1 _. by apply keep_reset. Qed.

Lemma keep_wal_broadcast g w endpos : keep g n (WalProposerBroadcast wal_read endpos) w.
Proof.
  apply keep_bind; [|intros [] w1 _ _ _; by apply keep_broadcast]. apply keep_modify; [|done].
  intros Ho Hi. split; [by destruct Ho|by destruct Hi].
Qed.
End election.
