(* ===== verification/AcceptorRel.v ===== *)
(** A safekeeper as an acceptor of the abstract protocol: the relation [sk_rel] between
    its state, in memory and on disk, and the world of [Consensus], and that every
    handler is a sequence of steps of the abstract protocol on this acceptor.

    The WAL storage promises, beyond [WalStoreLaws], when there is no WAL that is
    written and not flushed. *)

From S2P Require Import Prelude Text Lsns Membership TermHistories WalDecoders SkStates SafeKeepers Timelines SafeKeeperFacts.
From S2P Require Import Consensus ProposerInv.
From stdpp Require Import gmap.
Local Open Scope Z_scope.

Import SafeKeeper.

(** [pending w]: records are written that are not flushed.  Without them flushing
    moves nothing; a truncation that succeeds leaves none, and only writing makes
    new ones. *)
Class WalLogLaws (W E : Type) `{WalStore W E} (inv : W → Prop) (pending : W → bool) := {
  flush_clean w : inv w → pending w = false → wp ws_flush_wal (λ _ w', ws_flush_lsn w' = ws_flush_lsn w ∧ pending w' = false) w;
  flush_pending w : inv w → wp ws_flush_wal (λ _ w', pending w' = true → pending w = true) w;
  truncate_clean e w : inv w → 0 < e < LSN_LIMIT →
    wp (ws_truncate_wal e) (λ r w', (r = Ok tt → ws_flush_lsn w' = e ∧ pending w' = false) ∧ (pending w' = true → pending w = true)) w;
  initialize_clean l w : inv w → l < LSN_LIMIT → wp (ws_initialize_first_segment l) (λ _ w', pending w' = true → pending w = true) w
}.

Section acceptor.
Context {C W E : Type} `{ControlStorageLaws C} `{WalStoreLaws W E inv} {pending : W → bool} `{!WalLogLaws W E inv pending}.
Context (conf : Configuration) (Hconf : conf_ok conf) (L : Lsn) (fresh : bool) (start_pos : 0 < L).
#[local] Instance acceptor_quorums : Quorum Z := conf_quorums conf Hconf.
(** The node, and the proposer that votes are given to, if any. *)
Context (n : Z) (q : option nat).

Abbreviation G := (World Z nat).
Abbreviation SK := (SafeKeeper.t C W).
Abbreviation invariant := (Consensus.invariant L fresh).

(** * The relation *)

Definition hist (s : TimelinePersistentState) : TermHistory.t := acc_history (acceptor_state s).
Definition sterm (s : TimelinePersistentState) : Term := acc_term (acceptor_state s).

Definition flush_of (s : TimelinePersistentState) (w : W) : Lsn := Z.max (ws_flush_lsn w) (timeline_start_lsn s).

(** The configurations there are. *)
Definition conf_known (c : Configuration) : Prop := c = conf ∨ generation c = 0.

(** The log of history [th] up to [c] is committed. *)
Definition log_committed (g : G) (th : TermHistory.t) (c : Lsn) : Prop :=
  c ≤ L ∨ ∃ e c', committed g e c' ∧ c ≤ c' ∧ ∀ l, l < c → term_at th l = term_at (l_hist e) l.

(** The state [s] and the commit LSN [c] in memory, the state [d] on disk, and the WAL
    [w].  The disk may be ahead: in the term, or in the history, when storing the
    history of a proposer has failed after the file was replaced. *)
Record rel (g : G) (s : TimelinePersistentState) (c : Lsn) (d : TimelinePersistentState) (w : W) : Prop := {
  r_acc : accs g n = MkAcceptor (sterm s) (hist s) (flush_of s w);
  r_wal : inv w;
  r_state : state_ok s ∧ state_ok d;
  r_commit : commit_lsn s ≤ c ≤ flush_of s w;
  r_mconf : conf_known (mconf s) ∧ conf_known (mconf d);
  r_pending : pending w = true → ∃ e, e ∈ elected g ∧ l_hist e = hist s;
  r_start : (timeline_start_lsn s = 0 ∨ timeline_start_lsn s = L) ∧ (hist s ≠ [] → timeline_start_lsn s = L);
  r_disk_commit : commit_lsn d ≤ Z.max c (timeline_start_lsn d);
  r_committed : log_committed g (hist s) c;
  r_disk : sterm s ≤ sterm d ∧ hist d = hist s ∧ timeline_start_lsn d = timeline_start_lsn s ∨
    ∃ e, e ∈ elected g ∧ sterm s = l_term e ∧ sterm d = l_term e ∧ hist d = l_hist e ∧ timeline_start_lsn d = L ∧
      pending w = false ∧ cut_ok L (l_hist e) (accs g n) (flush_of s w)
}.

Definition sk_rel (g : G) (self : SK) : Prop :=
  node_id self = n ∧ rel g (ps self) (mem_commit_lsn (mem self)) (disk_state self) (wal_store self).

(** * Steps of the abstract protocol on this acceptor *)

Definition voted (g g' : G) : Prop := votes g ⊆ votes g' ∧ ∀ v, v ∈ votes g' → v ∈ votes g ∨ Some (v_prop v) = q.

Definition ext (g g' : G) : Prop :=
  rtc (step L) g g' ∧ elected g' = elected g ∧ (∀ m, m ≠ n → accs g' m = accs g m) ∧ voted g g' ∧ acks g ⊆ acks g'.

Lemma voted_same g g' : votes g' = votes g → voted g g'.
Proof. intros Ev. unfold voted. rewrite Ev. split; [done|]. by left. Qed.

Lemma ext_refl g : ext g g.
Proof. split_and!; [constructor|done|done|by apply voted_same|done]. Qed.
Lemma ext_trans g1 g2 g3 : ext g1 g2 → ext g2 g3 → ext g1 g3.
Proof.
  intros (S1 & E1 & A1 & V1 & K1) (S2 & E2 & A2 & V2 & K2). split_and!; [by etrans|congruence| | |set_solver].
  - intros m Hm. by rewrite A2, A1.
  - destruct V1 as [? V1], V2 as [? V2]. split; [set_solver|]. intros v [Hv|?]%V2; [by apply V1|by right].
Qed.
Lemma ext_step g g' : step L g g' → elected g' = elected g → (∀ m, m ≠ n → accs g' m = accs g m) →
  voted g g' → acks g ⊆ acks g' → ext g g'.
Proof. intros. split_and!; try done. by apply rtc_once. Qed.
Lemma ext_invariant g g' : ext g g' → invariant g → invariant g'.
Proof. intros (Hs & _). induction Hs as [|g1 g2 g3 H12 _ IH]; [done|]. intros Hi. apply IH. by eapply step_invariant. Qed.

Lemma committed_mono (g g' : G) e c : elected g ⊆ elected g' → acks g ⊆ acks g' → committed g e c → committed g' e c.
Proof.
  intros He Hk (Hin & Hs & Q & HQ & Hq). split_and!; [by apply He|done|]. exists Q. split; [done|]. intros a Ha.
  destruct (Hq a Ha) as (k & ? & ?). exists k. auto.
Qed.
Lemma log_committed_mono g g' th c : elected g ⊆ elected g' → acks g ⊆ acks g' → log_committed g th c → log_committed g' th c.
Proof.
  intros He Hk [?|(e & c' & Hc & ? & ?)]; [by left|right]. exists e, c'. split_and!; [|done..]. by eapply committed_mono.
Qed.
Lemma ext_committed g g' th c : ext g g' → log_committed g th c → log_committed g' th c.
Proof. intros (_ & E' & _ & _ & Ka). apply log_committed_mono; [by rewrite E'|done]. Qed.

(** A method, with steps of the abstract protocol beside it. *)
Definition gwp {A} (m : M SK (SkError E) A) (Φ : G → result (SkError E) A → SK → Prop) (g : G) (self : SK) : Prop :=
  ∃ g', ext g g' ∧ Φ g' (m self).1 (m self).2.

Lemma gwp_bind {A B} (m : M SK (SkError E) A) (f : A → M SK (SkError E) B) Φ g self :
  gwp m (λ g' r self', match r with
    | Ok a => gwp (f a) Φ g' self' | Err e => Φ g' (Err e) self' | Panic => Φ g' Panic self' end) g self →
  gwp (m ≫= f) Φ g self.
Proof.
  intros (g1 & E1 & Hr). unfold gwp, mbind, M_bind in *. destruct (m self) as [[a|e|] self1]; cbn in *; [|by exists g1..].
  destruct Hr as (g2 & E2 & Hr). exists g2. split; [by eapply ext_trans|done].
Qed.
Lemma gwp_ret {A} (r : result (SkError E) A) Φ g self : Φ g r self → gwp (liftR r) Φ g self.
Proof. intros. exists g. split; [apply ext_refl|done]. Qed.
Lemma gwp_mono {A} (m : M SK (SkError E) A) (Φ Ψ : G → result (SkError E) A → SK → Prop) g self :
  gwp m Φ g self → (∀ g' r self', ext g g' → Φ g' r self' → Ψ g' r self') → gwp m Ψ g self.
Proof. intros (g1 & E1 & Hr) Hm. exists g1. split; [done|]. by apply Hm. Qed.

(** * The WAL *)

(** Only the flushed position of the acceptor changes. *)
Definition moved (g : G) (f : Lsn) : G :=
  MkWorld (set_acc n (MkAcceptor (a_term (accs g n)) (a_hist (accs g n)) f) (accs g)) (votes g) (elected g) (acks g).

Lemma ext_moved g f : step L g (moved g f) → ext g (moved g f).
Proof. intros Hs. apply ext_step; try done; [|by apply voted_same]. intros m Hm. cbn. by apply set_acc_other. Qed.

Lemma rel_grow g s c d w w' e :
  rel g s c d w → inv w' → ws_flush_lsn w ≤ ws_flush_lsn w' → e ∈ elected g → l_hist e = hist s →
  sterm s ≤ sterm d ∧ hist d = hist s ∧ timeline_start_lsn d = timeline_start_lsn s →
  ext g (moved g (flush_of s w')) ∧ rel (moved g (flush_of s w')) s c d w'.
Proof.
  intros Hr Hi Hle He Eh Hd. destruct Hr as [H1' H2' H3 H4 H5 H6 H7 H8 H9 H10].
  assert (flush_of s w ≤ flush_of s w') as Hf by (unfold flush_of; lia). split.
  - apply ext_moved. unfold moved. apply (step_grow L g n e); [done|by rewrite H1'|by rewrite H1'].
  - split; try done; [cbn; rewrite set_acc_same, H1'; done|lia|by exists e|by left].
Qed.

(** The acceptor, when its position is what it is. *)
Lemma moved_same g s c d w : rel g s c d w → ∀ m, accs (moved g (flush_of s w)) m = accs g m.
Proof.
  intros Hr m. cbn. unfold set_acc. destruct (decide (m = n)) as [->|]; [|done]. by rewrite (r_acc _ _ _ _ _ Hr).
Qed.

(** A change of the WAL storage that moves nothing. *)
Lemma rel_idle g s c d w w' :
  rel g s c d w → inv w' → ws_flush_lsn w' = ws_flush_lsn w → (pending w' = true → pending w = true) → rel g s c d w'.
Proof.
  intros [H1' H2' H3 H4 H5 H6 H7 H8 H9 H10] Hi Ef Hp.
  assert (flush_of s w' = flush_of s w) as Ef' by (unfold flush_of; by rewrite Ef).
  split; rewrite ?Ef'; try done; [auto|]. destruct H10 as [?|(e & ? & ? & ? & ? & ? & ? & ?)]; [by left|right].
  exists e. split_and!; auto. destruct (pending w'); [by rewrite Hp in *|done].
Qed.

(** Flushing. *)
Lemma rel_flush g s c d w w' :
  rel g s c d w → inv w' → ws_flush_lsn w ≤ ws_flush_lsn w' → (pending w' = true → pending w = true) →
  (pending w = false → ws_flush_lsn w' = ws_flush_lsn w) →
  ∃ g', ext g g' ∧ rel g' s c d w'.
Proof.
  intros Hr Hi Hle Hp Hc. destruct (decide (ws_flush_lsn w' = ws_flush_lsn w)) as [Ef|Hne].
  - exists g. split; [apply ext_refl|]. by apply (rel_idle g s c d w).
  - destruct (pending w) eqn:Ep; [|by destruct Hne; apply Hc].
    destruct (r_disk _ _ _ _ _ Hr) as [Hd|(e & _ & _ & _ & _ & _ & Hnp & _)]; [|congruence].
    destruct (r_pending _ _ _ _ _ Hr Ep) as (e & He & Eh). exists (moved g (flush_of s w')). by apply (rel_grow g s c d w w' e).
Qed.

(** Cutting the log for the leader of the acceptor's term. *)
Lemma rel_cut g s c d w w' e :
  invariant g → rel g s c d w → e ∈ elected g → sterm s = l_term e → cut_ok L (l_hist e) (accs g n) (ws_flush_lsn w') →
  inv w' → (pending w' = true → pending w = true) → c ≤ ws_flush_lsn w' →
  let g' := moved g (ws_flush_lsn w') in ext g g' ∧ rel g' s c d w' ∧ cut_ok L (l_hist e) (accs g' n) (ws_flush_lsn w').
Proof.
  intros Hg Hr He Et Hcut Hi Hp Hc g'. set (f := ws_flush_lsn w') in *. pose proof (cut_start _ _ _ _ Hcut) as Hs.
  pose proof Hr as [H1' H2' H3 H4 H5 H6 H7 H8 H9 H10].
  assert (flush_of s w' = f) as Ef by (unfold flush_of; fold f; destruct H7 as [[->| ->] _]; lia).
  assert (cut_ok L (l_hist e) (accs g' n) f) as Hcut'.
  { destruct Hcut as [C1 C2 C3 C4]. subst g'. cbn. rewrite set_acc_same. split; cbn; [done|by left|done|]. by intros. }
  split_and!; [|split; rewrite ?Ef|done].
  - apply ext_moved. unfold moved. apply (step_cut L g n e f); [done|by rewrite H1'|done].
  - cbn. rewrite set_acc_same, H1'. done.
  - done.
  - done.
  - lia.
  - done.
  - auto.
  - done.
  - done.
  - done.
  - destruct H10 as [?|(e' & He' & E1 & E2 & E3 & E4 & Hnp & Hcut2)]; [by left|right]. exists e'.
    assert (e' = e) as -> by (apply (i_leader_once _ _ _ Hg); [done..|congruence]). split_and!; auto.
    destruct (pending w'); [by rewrite (Hp eq_refl) in Hnp|done].
Qed.

(** Writing in the term of a leader whose history the acceptor has. *)
Lemma rel_write g s c d w w' e :
  invariant g → rel g s c d w → inv w' → ws_flush_lsn w ≤ ws_flush_lsn w' → e ∈ elected g → l_hist e = hist s → sterm s = l_term e →
  ∃ g', ext g g' ∧ rel g' s c d w'.
Proof.
  intros Hg Hr Hi Hle He Eh Et. exists (moved g (flush_of s w')). apply (rel_grow g s c d w w' e); try done.
  destruct (r_disk _ _ _ _ _ Hr) as [?|(e' & He' & Et1 & Et2 & Eh' & Ets & _)]; [done|].
  assert (e' = e) as -> by (apply (i_leader_once _ _ _ Hg); [done..|congruence]). split_and!; [lia|congruence|].
  rewrite Ets. symmetry. apply (r_start _ _ _ _ _ Hr). rewrite <-Eh. by destruct (leader_last L fresh g e Hg He) as (x & Ex & _); destruct (l_hist e).
Qed.

(** ** Methods of the storage *)

(** What a step leaves: the relation, and the parts it does not touch. *)
Definition keeps_state (self self' : SK) : Prop :=
  state self' = state self ∧ node_id self' = node_id self ∧ term_start_lsn self' = term_start_lsn self.

Lemma gwp_flush_wal g self :
  sk_rel g self → gwp (on_wal ws_flush_wal) (λ g' _ self', sk_rel g' self' ∧ keeps_state self self') g self.
Proof.
  intros [Hn Hr]. pose proof (r_wal _ _ _ _ _ Hr) as Hi. pose proof (flush_wal_spec _ Hi) as F1.
  pose proof (flush_pending _ Hi) as F2. assert (pending (wal_store self) = false → wp ws_flush_wal (λ _ w', ws_flush_lsn w' = ws_flush_lsn (wal_store self) ∧ pending w' = false) (wal_store self)) as F3
    by (intros; by apply flush_clean).
  unfold wp in F1, F2, F3. unfold gwp, on_wal. destruct (ws_flush_wal (wal_store self)) as [r w']. cbn in *.
  destruct F1 as (_ & Hi' & Hle). destruct (rel_flush g _ _ _ _ w' Hr Hi' Hle F2) as (g' & He & Hr').
  { intros E'. by apply F3. }
  exists g'. split; [done|]. by split_and!.
Qed.

(** * The control file *)

Lemma gwp_finish g self s (Ψ : G → Prop) :
  sk_rel g self → rel g (ps self) (mem_commit_lsn (mem self)) s (wal_store self) →
  (s ≠ ps self → ∃ g1, ext g g1 ∧ rel g1 s (commit_lsn s) s (wal_store self) ∧ Ψ g1) →
  (s = ps self → commit_lsn s = mem_commit_lsn (mem self) ∧ Ψ g) →
  gwp (on_state (TimelineState.finish_change s)) (λ g' r self', sk_rel g' self' ∧ wal_store self' = wal_store self ∧
    match r with Ok _ => ps self' = s ∧ mem_commit_lsn (mem self') = commit_lsn s ∧ Ψ g' | _ => True end) g self.
Proof.
  intros [Hn Hr] Hfail Hsucc Hsame. unfold gwp, on_state. pose proof (finish_change_spec s (state self)) as Hs. unfold wp in Hs.
  destruct (TimelineState.finish_change s (state self)) as [r ts']. cbn [fst snd] in *.
  change (TimelineState.deref (state self)) with (ps self) in Hs. change (TimelineState.inmem (state self)) with (mem self) in Hs.
  change (cs_disk (TimelineState.pers (state self))) with (disk_state self) in Hs.
  destruct Hs as [(E1 & E2 & (e & ->) & Hd)|(E1 & E2 & -> & Hd)].
  - exists g. split; [apply ext_refl|]. split_and!; [|done|done]. split; [done|]. unfold ps, mem, disk_state. cbn. rewrite E1, E2.
    destruct Hd as [-> | ->]; [exact Hr|exact Hfail].
  - destruct (decide (s = ps self)) as [->|Hne].
    + destruct (Hsame eq_refl) as [Ec HΨ]. exists g. split; [apply ext_refl|]. unfold sk_rel, ps at 1 3, mem, disk_state. cbn. rewrite E1, E2. cbn.
      rewrite Ec. split_and!; try done. by destruct Hd as [->|[-> _]].
    + destruct (Hsucc Hne) as (g1 & He & Hr1 & HΨ). exists g1. split; [done|]. unfold sk_rel, ps, mem, disk_state. cbn. rewrite E1, E2. cbn.
      split_and!; try done. by destruct Hd as [->|[_ ?]].
Qed.

Lemma rel_log_inv g self : sk_rel g self → log_inv (inv := inv) self.
Proof. intros [_ Hr]. destruct (r_commit _ _ _ _ _ Hr). split; [apply Hr|apply Hr|done|done]. Qed.

(** Another state on disk, with the same history and not behind. *)
Lemma rel_disk g s c d w d' :
  rel g s c d w → state_ok d' → conf_known (mconf d') → sterm s ≤ sterm d' → hist d' = hist s →
  timeline_start_lsn d' = timeline_start_lsn s → commit_lsn d' = c → rel g s c d' w.
Proof.
  intros [H1' H2' H3 H4 H5 H6 H7 H8 H9 H10] Hs Hm Ht Eh Ets Ec. split; try done; [by destruct H3|by destruct H5|lia|by left].
Qed.

(** A state that differs from the one in memory in other parts. *)
Lemma rel_store g s c d w s' :
  rel g s c d w → state_ok s' → conf_known (mconf s') → sterm s' = sterm s → hist s' = hist s →
  timeline_start_lsn s' = timeline_start_lsn s → commit_lsn s' = c → rel g s' c s' w.
Proof.
  intros [H1' H2' H3 H4 H5 H6 H7 H8 H9 H10] Hs Hm Et Eh Ets Ec. unfold flush_of in *.
  split; unfold flush_of; rewrite ?Et, ?Eh, ?Ets; try done; [lia|lia|]. left. split_and!; [lia|done|done].
Qed.

Lemma gwp_same g self s :
  sk_rel g self → state_ok s → conf_known (mconf s) → acceptor_state s = acceptor_state (ps self) →
  timeline_start_lsn s = timeline_start_lsn (ps self) → commit_lsn s = mem_commit_lsn (mem self) →
  gwp (on_state (TimelineState.finish_change s)) (λ g' r self', sk_rel g' self' ∧ wal_store self' = wal_store self ∧
    match r with Ok _ => ps self' = s ∧ mem_commit_lsn (mem self') = mem_commit_lsn (mem self) | _ => True end) g self.
Proof.
  intros Hk Hs Hm Ea Ets Ec. assert (sterm s = sterm (ps self) ∧ hist s = hist (ps self)) as [Et Eh] by (unfold sterm, hist; by rewrite Ea).
  eapply gwp_mono.
  - apply (gwp_finish g self s (λ _, True)); [done| |intros _; exists g; split; [apply ext_refl|]; split; [|done]|done].
    + destruct Hk as [_ Hr]. apply (rel_disk g _ _ _ _ _ Hr); try done. lia.
    + rewrite Ec. destruct Hk as [_ Hr]. by apply (rel_store g _ _ _ _ s Hr).
  - intros g' r self' _ (? & ? & Hok). split_and!; [done..|]. destruct r; [|done..]. destruct Hok as (? & ? & _). split; [done|congruence].
Qed.

(** The same acceptor in a later term. *)
Definition retermed (g : G) (t : Term) (vs : list (Vote Z nat)) : G :=
  MkWorld (set_acc n (MkAcceptor t (a_hist (accs g n)) (a_flush (accs g n))) (accs g)) (vs ++ votes g) (elected g) (acks g).

Lemma rel_term g s c d w t vs :
  rel g s c d w → sterm s < t →
  let s' := TimelinePersistentState.with_term t s in
  state_ok s' → commit_lsn s = c → rel (retermed g t vs) s' c s' w.
Proof.
  intros [H1' H2' H3 H4 H5 H6 H7 H8 H9 H10] Ht s' Hs Ec.
  split; try done; [cbn; rewrite set_acc_same, H1'; done|by destruct H5|cbn; lia|by left].
Qed.

Lemma gwp_set_term g self t vs :
  sk_rel g self → acceptor_term self < t → (∀ v, v ∈ vs → Some (v_prop v) = q) →
  step L g (retermed g t vs) →
  gwp (on_state (TimelineState.finish_change (TimelinePersistentState.with_term t (TimelineState.start_change (state self)))))
    (λ g' r self', sk_rel g' self' ∧ wal_store self' = wal_store self ∧
      match r with Ok _ => acceptor_term self' = t ∧ mconf (ps self') = mconf (ps self) ∧ vs ⊆ votes g' | _ => True end) g self.
Proof.
  intros Hk Ht Hvs Hstep. pose proof (start_change_ok self (rel_log_inv g self Hk)) as Hs.
  set (s0 := TimelineState.start_change (state self)) in *. set (s := TimelinePersistentState.with_term t s0).
  assert (state_ok s) as Hs' by (by destruct Hs). pose proof Hk as [_ Hr]. destruct (r_mconf _ _ _ _ _ Hr) as [Hm _].
  eapply gwp_mono.
  - apply (gwp_finish g self s (λ g', vs ⊆ votes g')); [done| | |].
    + apply (rel_disk g _ _ _ _ s Hr); try done. change (sterm s) with t. change (sterm (ps self)) with (acceptor_term self). lia.
    + intros _. exists (retermed g t vs). split_and!; [|..|cbn; set_solver].
      * apply ext_step; [done|done|intros m Hn; cbn; by apply set_acc_other| |done]. split; cbn; [set_solver|].
        intros v [?|?]%elem_of_app; [right; by apply Hvs|by left].
      * apply (rel_term g s0 _ s0); [|done|done|done]. by apply (rel_store g _ _ _ _ s0 Hr).
    + intros E'. assert (sterm s = sterm (ps self)) as E2 by (by rewrite E'). change (sterm s) with t in E2.
      change (sterm (ps self)) with (acceptor_term self) in E2. lia.
  - intros g' r self' _ (? & ? & Hok). split_and!; [done..|]. destruct r; [|done..]. destruct Hok as (Ep & _ & ?).
    unfold acceptor_term. rewrite Ep. done.
Qed.

(** * The handlers *)

Lemma gwp_get {B} (f : SK → M SK (SkError E) B) Φ g self : gwp (f self) Φ g self → gwp (getS ≫= f) Φ g self.
Proof. done. Qed.

Ltac gwp_if := match goal with |- gwp (if ?b then _ else _) _ _ _ => destruct b eqn:? end.

(** The acceptor has taken over the history of leader [e], or has left its term. *)
Definition follows (g : G) (e : Leader nat) : Prop :=
  l_term e < a_term (accs g n) ∨ a_term (accs g n) = l_term e ∧ a_hist (accs g n) = l_hist e.

Lemma rel_follows g self e : sk_rel g self → follows g e ↔
  l_term e < acceptor_term self ∨ acceptor_term self = l_term e ∧ hist (ps self) = l_hist e.
Proof. intros [_ Hr]. unfold follows. by rewrite (r_acc _ _ _ _ _ Hr). Qed.

Lemma conf_generation c : conf_known c → 0 ≤ generation c.
Proof. pose proof (co_generation _ Hconf). intros [->| ->]; lia. Qed.

(** A switch to a configuration that is not newer. *)
Lemma gwp_no_switch g self c Φ :
  generation c ≤ generation (mconf (ps self)) → (∀ r, Φ g (Ok r) self) → gwp (on_state (TimelineState.membership_switch c)) Φ g self.
Proof.
  intros Hle HΦ. exists g. split; [apply ext_refl|]. unfold on_state, TimelineState.membership_switch, getS, mbind, M_bind.
  change (TimelineState.deref (state self)) with (ps self). rewrite (proj2 (Z.leb_le _ _) Hle). cbn. rewrite set_state_same. apply HΦ.
Qed.

Lemma gwp_greeting g self m :
  sk_rel g self → generation (pg_mconf m) = 0 →
  gwp (handle_greeting m) (λ g' r self', sk_rel g' self' ∧
    match r with Ok (Some (AGreeting a)) => ag_node_id a = n ∧ conf_known (ag_mconf a) | Ok _ => False | _ => True end) g self.
Proof.
  intros Hk Hg. unfold handle_greeting. apply gwp_get.
  assert (∀ g' (e : SkError E) self', sk_rel g' self' →
    gwp (bail e) (λ g' (r : result (SkError E) (option AcceptorProposerMessage)) self', sk_rel g' self' ∧
      match r with Ok (Some (AGreeting a)) => ag_node_id a = n ∧ conf_known (ag_mconf a) | Ok _ => False | _ => True end) g' self') as Hbail
    by (intros g' e self' Hk'; by apply gwp_ret).
  apply gwp_bind, gwp_ret. destruct (PgVersion.try_from (pg_pg_version m)) as [v|] eqn:Ev; [|exact (conj Hk I)]. cbn [of_option].
  apply gwp_bind, gwp_ret. destruct (PgVersion.try_from (pg_version (server (ps self)))) as [own|]; [|exact (conj Hk I)]. cbn [of_option].
  do 4 (gwp_if; [by apply Hbail|]). apply gwp_bind.
  apply (gwp_mono _ (λ g' r self', sk_rel g' self')).
  { unfold whenM. gwp_if; [|exists g; split; [apply ext_refl|exact Hk]].
    pose proof (start_change_ok self (rel_log_inv g self Hk)) as [Hs1 Hs2 Hs3 Hs4]. pose proof Hk as [Hn Hr].
    pose proof (r_mconf _ _ _ _ _ Hr) as [Hm _].
    eapply gwp_mono; [apply gwp_same; try done|by intros ??? _ [? _]]. split; cbn; try done. destruct (negb (pg_pg_version m =? UNKNOWN_SERVER_VERSION)); [rewrite Ev; by eexists|done]. }
  intros g1 r self1 _ Hk1. destruct r; [|by split..]. apply gwp_get.
  destruct Hk1 as [Hn Hr]. pose proof (r_mconf _ _ _ _ _ Hr) as [Hm _]. pose proof (conf_generation _ Hm) as Hge.
  rewrite (proj2 (Z.ltb_ge (generation (mconf (ps self1))) _)) by lia. cbn [andb].
  apply gwp_bind, gwp_no_switch; [lia|]. intros _. apply gwp_get, gwp_ret. by split_and!.
Qed.

Lemma rel_log g self : sk_rel g self → get_term_history self = a_log (accs g n) ∧ flush_lsn self = a_flush (accs g n).
Proof. intros [_ Hr]. unfold a_log. rewrite (r_acc _ _ _ _ _ Hr). done. Qed.

Lemma gwp_vote g self m p :
  sk_rel g self → q = Some p →
  gwp (handle_vote_request m) (λ g' r self', sk_rel g' self' ∧
    match r with
    | Ok (Some (AVoteResponse v)) => vote_given v = true → MkVote n p (vr_term m) (vs_term_history v) (vs_flush_lsn v) ∈ votes g'
    | Ok _ => False
    | _ => True
    end) g self.
Proof.
  intros Hk Eq. unfold handle_vote_request. apply gwp_get. gwp_if; [by apply gwp_ret|]. apply gwp_bind.
  eapply gwp_mono; [by apply gwp_flush_wal|]. intros g1 r self1 _ [Hk1 _]. destruct r; [|done..]. apply gwp_get.
  destruct (Z.ltb_spec (acceptor_term self1) (vr_term m)) as [Hlt|]; [|by apply gwp_ret].
  destruct (rel_log g1 self1 Hk1) as [Eh Ef]. apply gwp_bind. eapply gwp_mono.
  - apply (gwp_set_term g1 self1 (vr_term m) [MkVote n p (vr_term m) (a_log (accs g1 n)) (a_flush (accs g1 n))]); [done|done|by intros v ->%list_elem_of_singleton|].
    apply step_vote. destruct Hk1 as [_ Hr]. by rewrite (r_acc _ _ _ _ _ Hr).
  - intros g2 r self2 _ (Hk2 & _ & Hok). destruct r; [|done..]. destruct Hok as (_ & _ & Hv). apply gwp_get, gwp_ret. split; [done|].
    intros _. cbn. rewrite Eh, Ef. apply Hv. by left.
Qed.

(** The history of an elected proposer. *)
Lemma adopt_start g self m e :
  invariant g → sk_rel g self → e ∈ elected g → l_hist e = pe_term_history m →
  let s := adopt_history m (TimelineState.start_change (state self)) in
  timeline_start_lsn s = L ∧ hist s = l_hist e ∧ sterm s = acceptor_term self ∧ mconf s = mconf (ps self) ∧
  commit_lsn s = Z.max (mem_commit_lsn (mem self)) L.
Proof.
  intros Hg [_ Hr] He Eh. assert (known L fresh g (l_hist e)) as Hk by (right; eauto).
  pose proof (i_head _ _ _ Hg _ Hk) as Hh. destruct (leader_last L fresh g e Hg He) as (x & Ex & _).
  assert (timeline_start_lsn (adopt_history m (TimelineState.start_change (state self))) = L) as Ets.
  { unfold adopt_history. cbn. rewrite <-Eh. destruct (l_hist e) as [|y th]; [done|]. cbn.
    destruct (r_start _ _ _ _ _ Hr) as [[E0|E0] _]; change (timeline_start_lsn (TimelineState.deref (state self))) with (timeline_start_lsn (ps self));
      rewrite E0; [done|]. by destruct (Z.eqb_spec L 0). }
  cbn zeta. split_and!; [done|unfold hist; cbn; by rewrite Eh|done|done|].
  transitivity (Z.max (mem_commit_lsn (mem self)) (timeline_start_lsn (adopt_history m (TimelineState.start_change (state self))))); [done|by rewrite Ets].
Qed.

Lemma gwp_adopt g self m e :
  invariant g → sk_rel g self → e ∈ elected g → l_hist e = pe_term_history m → acceptor_term self = l_term e →
  cut_ok L (l_hist e) (accs g n) (ws_flush_lsn (wal_store self)) → pending (wal_store self) = false →
  mem_commit_lsn (mem self) ≤ ws_flush_lsn (wal_store self) → msg_ok (Elected m) →
  gwp (on_state (TimelineState.finish_change (adopt_history m (TimelineState.start_change (state self)))))
    (λ g' r self', sk_rel g' self' ∧ match r with Ok _ => follows g' e | _ => True end) g self.
Proof.
  intros Hg Hk He Eh Et Hcut Hnp Hc Hm. pose proof Hk as [Hn Hr]. pose proof (start_change_ok self (rel_log_inv g self Hk)) as Hs0.
  destruct (adopt_start g self m e Hg Hk He Eh) as (Ets & Ehs & Ets' & Em & Ec). set (s := adopt_history _ _) in *.
  set (f := ws_flush_lsn (wal_store self)) in *. pose proof (cut_start _ _ _ _ Hcut) as HLf.
  assert (state_ok s) as Hs by (apply adopt_history_ok; [done|apply Hm]).
  assert (flush_of (ps self) (wal_store self) = f) as Ef by (unfold flush_of; fold f; destruct (r_start _ _ _ _ _ Hr) as [[->| ->] _]; lia).
  assert (flush_of s (wal_store self) = f) as Ef' by (unfold flush_of; fold f; rewrite Ets; lia).
  pose proof Hr as [H1' H2' H3 H4 H5 H6 H7 H8 H9 H10]. eapply gwp_mono; [apply (gwp_finish g self s (λ g', follows g' e) Hk)|].
  - split; try done; [by destruct H3|by rewrite Em; destruct H5|]. right. exists e. rewrite Ef.
    split_and!; [done|exact Et|by rewrite Ets'|done|done|done|done].
  - intros _. exists (MkWorld (set_acc n (MkAcceptor (a_term (accs g n)) (l_hist e) f) (accs g)) (votes g) (elected g) (acks g)).
    split_and!.
    + apply ext_step; [|done|intros k Hk'; cbn; by apply set_acc_other|by apply voted_same|done].
      apply (step_adopt L g n e f); [done|by rewrite H1'|done].
    + split; rewrite ?Ef'; try done.
      * cbn [accs]. rewrite set_acc_same, H1', Ehs, Ets'. done.
      * lia.
      * rewrite Em. by destruct H5.
      * congruence.
      * split; [by right|done].
      * rewrite Ets. lia.
      * rewrite Ehs, Ec. destruct H9 as [?|(e0 & c' & Hcc & Hle & Hag)]; [left; lia|].
        destruct (Z.le_ge_cases (mem_commit_lsn (mem self)) L); [left; lia|right]. rewrite Z.max_l by lia. exists e0, c'. split_and!; [done..|].
        intros l Hl. rewrite <-(Hag l Hl). rewrite (cut_agrees _ _ _ _ Hcut l ltac:(lia)). by rewrite H1'.
      * left. split_and!; [lia|done|done].
    + right. cbn. rewrite set_acc_same, H1'. split; [exact Et|done].
  - intros E'. split; [assert (commit_lsn s = commit_lsn (ps self)) by (by rewrite E'); lia|]. right. rewrite H1'. split; [exact Et|]. cbn. by rewrite <-E', Ehs.
  - intros g' r self' _ (? & _ & Hok). split; [done|]. destruct r; [|done..]. by destruct Hok as (_ & _ & ?).
Qed.

(** Cutting the log on disk. *)
Lemma gwp_truncate g self e s :
  invariant g → sk_rel g self → e ∈ elected g → acceptor_term self = l_term e → cut_ok L (l_hist e) (accs g n) s →
  mem_commit_lsn (mem self) ≤ s → 0 < s < LSN_LIMIT →
  gwp (on_wal (ws_truncate_wal s)) (λ g' r self', sk_rel g' self' ∧ keeps_state self self' ∧
    match r with
    | Ok _ => ws_flush_lsn (wal_store self') = s ∧ pending (wal_store self') = false ∧ cut_ok L (l_hist e) (accs g' n) s
    | _ => True
    end) g self.
Proof.
  intros Hg [Hn Hr] He Et Hcut Hc Hs. pose proof (r_wal _ _ _ _ _ Hr) as Hi. pose proof (truncate_wal_spec s _ Hi Hs) as T1.
  pose proof (truncate_clean s _ Hi Hs) as T2. unfold wp in T1, T2. unfold gwp, on_wal.
  destruct (ws_truncate_wal s (wal_store self)) as [r w']. cbn [fst snd] in *. destruct T1 as (Hnp & Hi' & Hpos), T2 as [T2 T3].
  destruct (decide (ws_flush_lsn w' = s)) as [Es|Hne].
  - rewrite <-Es in Hcut, Hc. destruct (rel_cut g _ _ _ _ w' e Hg Hr He Et Hcut Hi' T3 Hc) as (Hext & Hr' & Hcut').
    exists (moved g (ws_flush_lsn w')). rewrite Es in *. split; [done|]. split_and!; [by split|done|].
    destruct r as [[]|x|]; [|done..]. destruct (T2 eq_refl). done.
  - destruct Hpos as [?|[Hr0 Ef]]; [done|]. exists g. split; [apply ext_refl|]. split_and!; [|done|by destruct r as [[]| |]].
    split; [done|]. by apply (rel_idle g _ _ _ (wal_store self)).
Qed.

Lemma gwp_initialize g self l :
  sk_rel g self → l < LSN_LIMIT →
  gwp (on_wal (ws_initialize_first_segment l)) (λ g' r self', g' = g ∧ sk_rel g' self' ∧ keeps_state self self') g self.
Proof.
  intros [Hn Hr] Hl. pose proof (r_wal _ _ _ _ _ Hr) as Hi. pose proof (initialize_spec l _ Hi Hl) as I1.
  pose proof (initialize_clean l _ Hi Hl) as I2. unfold wp in I1, I2. unfold gwp, on_wal.
  destruct (ws_initialize_first_segment l (wal_store self)) as [r w']. cbn [fst snd] in *. destruct I1 as (_ & Hi' & Ef).
  exists g. split; [apply ext_refl|]. split_and!; [done| |done]. split; [done|]. by apply (rel_idle g _ _ _ (wal_store self)).
Qed.

Lemma ext_elected g g' : ext g g' → elected g' = elected g.
Proof. by intros (_ & ? & _). Qed.

Lemma follows_left g e self : sk_rel g self → l_term e < acceptor_term self → follows g e.
Proof. intros Hk Hlt. apply (rel_follows g self e Hk). by left. Qed.

(** What follows the check of the position, in the term of the leader. *)
Lemma gwp_take_over g self m e :
  invariant g → sk_rel g self → e ∈ elected g → l_hist e = pe_term_history m → acceptor_term self = l_term e →
  cut_ok L (l_hist e) (accs g n) (pe_start_streaming_at m) → msg_ok (Elected m) →
  gwp (_ ← assertM (mem_commit_lsn (mem self) <=? pe_start_streaming_at m);
       _ ← whenM (ws_flush_lsn (wal_store self) =? Lsn.INVALID) (on_wal (ws_initialize_first_segment (pe_start_streaming_at m)));
       _ ← on_wal (ws_truncate_wal (pe_start_streaming_at m));
       self ← getS;
       _ ← on_state (TimelineState.finish_change (adopt_history m (TimelineState.start_change (state self))));
       match last (pe_term_history m) with
       | None => bail EmptyHistory
       | Some start => _ ← modifyS (set_term_start_lsn (lsn start)); mret (None : option AcceptorProposerMessage)
       end)
    (λ g' r self', sk_rel g' self' ∧ match r with Ok o => o = None ∧ follows g' e | _ => True end) g self.
Proof.
  intros Hg Hk He Eh Et Hcut Hm. apply gwp_bind. unfold assertM. destruct (Z.leb_spec (mem_commit_lsn (mem self)) (pe_start_streaming_at m)) as [Hc|];
    [|by exists g; split; [apply ext_refl|]].
  exists g. split; [apply ext_refl|]. cbn [fst snd]. apply gwp_bind.
  apply (gwp_mono _ (λ g' r self', g' = g ∧ sk_rel g' self' ∧ keeps_state self self')).
  { unfold whenM. destruct (_ =? _); [apply gwp_initialize; [done|apply Hm]|]. exists g. split; [apply ext_refl|]. by split_and!. }
  intros g1 r self1 _ (-> & Hk1 & Est & _ & _). destruct r; [|done..].
  assert (acceptor_term self1 = l_term e ∧ mem self1 = mem self) as [Et1 Em1] by (unfold acceptor_term, ps, mem; by rewrite Est).
  apply gwp_bind. eapply gwp_mono; [apply (gwp_truncate g self1 e (pe_start_streaming_at m)); try done; [by rewrite Em1|apply Hm]|].
  intros g2 r self2 E2 (Hk2 & (Est2 & _ & _) & Hok). destruct r; [|done..]. destruct Hok as (Ef2 & Hnp & Hcut2). apply gwp_get, gwp_bind.
  eapply gwp_mono.
  - apply (gwp_adopt g2 self2 m e); rewrite ?Ef2; try done; [by eapply ext_invariant|by rewrite (ext_elected _ _ E2)|unfold acceptor_term, ps in *; congruence|].
    unfold mem in *. rewrite Est2. congruence.
  - intros g3 r self3 _ [Hk3 Hok]. destruct r; [|done..]. destruct (last _); [|by exists g3; split; [apply ext_refl|]].
    apply gwp_bind. exists g3. split; [apply ext_refl|]. cbn. apply gwp_ret. by split_and!.
Qed.

Lemma gwp_elected g self m e :
  invariant g → sk_rel g self → e ∈ elected g → l_term e = pe_term m → l_hist e = pe_term_history m → msg_ok (Elected m) →
  gwp (handle_elected m) (λ g' r self', sk_rel g' self' ∧ match r with Ok o => o = None ∧ follows g' e | _ => True end) g self.
Proof.
  intros Hg Hk He Et Eh Hm. unfold handle_elected. apply gwp_get. gwp_if; [by apply gwp_ret|]. apply gwp_bind.
  apply (gwp_mono _ (λ g' r self', sk_rel g' self' ∧ match r with Ok _ => pe_term m ≤ acceptor_term self' | _ => True end)).
  { unfold whenM. destruct (Z.ltb_spec (acceptor_term self) (pe_term m)) as [Hlt|]; [|by exists g; split; [apply ext_refl|]].
    eapply gwp_mono; [apply (gwp_set_term g self (pe_term m) []); [done|done|by intros ??%elem_of_nil|]|].
    - apply step_term. destruct Hk as [_ Hr]. by rewrite (r_acc _ _ _ _ _ Hr).
    - intros g' r self' _ (? & _ & Hok). split; [done|]. destruct r; [|done..]. destruct Hok as (-> & _). lia. }
  intros g1 r self1 E1 [Hk1 Hok]. destruct r; [|done..]. apply gwp_get.
  pose proof (ext_invariant _ _ E1 Hg) as Hg1. rewrite <-(ext_elected _ _ E1) in He.
  destruct (Z.ltb_spec (pe_term m) (acceptor_term self1)) as [Hlt|Hge].
  { apply gwp_ret. split_and!; [done..|]. apply (follows_left g1 e self1 Hk1). lia. }
  assert (acceptor_term self1 = l_term e) as Et1 by lia. destruct (rel_log g1 self1 Hk1) as [Elog Ef]. apply gwp_bind.
  assert (a_term (accs g1 n) = l_term e) as Eta by (destruct Hk1 as [_ Hr]; by rewrite (r_acc _ _ _ _ _ Hr)).
  destruct (TermHistory.find_highest_common_point (pe_term_history m) (get_term_history self1) (flush_lsn self1)) as [o| |] eqn:Eo;
    [|by apply gwp_ret..].
  apply gwp_ret. rewrite <-Eh, Elog, Ef in Eo. apply gwp_bind, gwp_ret.
  destruct (match o with Some lcp => Ok lcp | None => of_option EmptyHistory (head (pe_term_history m)) end) as [lcp| |] eqn:El; [|done..].
  gwp_if; [by apply gwp_ret|].
  assert (cut_point (l_hist e) o = Some (pe_start_streaming_at m)) as Ecut.
  { assert (lsn lcp = pe_start_streaming_at m) as <- by lia. unfold cut_point. destruct o as [x|]; [by injection El as ->|].
    rewrite Eh. destruct (head (pe_term_history m)); [by injection El as ->|done]. }
  apply (gwp_take_over g1 self1 m e); try done. by eapply find_cut.
Qed.

(** Following a leader is for good: until the term is left. *)
Lemma follows_step g g' e : invariant g → e ∈ elected g → step L g g' → follows g e → follows g' e ∧ e ∈ elected g'.
Proof.
  intros Hg He Hs Hf. unfold follows in *.
  destruct Hs as [a t Ht|a p t Ht|p t Q d Hp HQ Hd Ep Et Hv|a e' s He' Et Hc|a e' s He' Et Hc|a e' s He' Eh Hle|a e' l He' Et Eh Hl]; cbn;
    try (split; [|done]); try (unfold set_acc; destruct (decide (n = a)) as [<-|]; cbn; [|done]); try done.
  - left. lia.
  - left. lia.
  - split; [done|by right].
  - destruct Hf as [?|[E1 E2]]; [by left|right]. split; [done|]. f_equal. apply (i_leader_once _ _ _ Hg); [done..|congruence].
Qed.

Lemma follows_ext g g' e : invariant g → e ∈ elected g → ext g g' → follows g e → follows g' e.
Proof.
  intros Hg He (Hs & _). induction Hs as [|g1 g2 g3 H12 _ IH]; [done|]. intros Hf.
  destruct (follows_step g1 g2 e Hg He H12 Hf) as [Hf' He']. apply IH; [by eapply step_invariant|done|done].
Qed.

(** The commit position in memory, with the log committed up to it. *)
Lemma gwp_update_commit g self c :
  sk_rel g self → (∀ c', c' ≤ c → c' ≤ flush_lsn self → log_committed g (hist (ps self)) c') →
  gwp (update_commit_lsn c) (λ g' _ self', sk_rel g' self') g self.
Proof.
  intros Hk Hc. unfold update_commit_lsn. apply gwp_get. set (c1 := Z.min (Z.max c (mem_commit_lsn (mem self))) (flush_lsn self)).
  pose proof Hk as [Hn Hr]. destruct (r_commit _ _ _ _ _ Hr) as [Hc1 Hc2]. change (flush_of _ _) with (flush_lsn self) in Hc2.
  apply gwp_bind. unfold assertM. rewrite (proj2 (Z.leb_le (mem_commit_lsn (mem self)) c1)) by lia. exists g. split; [apply ext_refl|]. cbn [fst snd].
  apply gwp_bind. exists g. split; [apply ext_refl|]. cbn [modifyS fst snd].
  set (self1 := set_state (TimelineState.set_commit_lsn c1 (state self)) self).
  assert (sk_rel g self1) as Hk1.
  { split; [done|]. change (rel g (ps self) c1 (disk_state self) (wal_store self)).
    destruct Hr as [R1 R2 R3 R4 R5 R6 R7 R8 R9 R10]. split; try done; [change (flush_of _ _) with (flush_lsn self); lia|lia|].
    destruct (decide (c1 = mem_commit_lsn (mem self))) as [->|]; [done|]. apply Hc; lia. }
  unfold whenM. gwp_if; [|by exists g; split; [apply ext_refl|]].
  pose proof (start_change_ok self1 (rel_log_inv g self1 Hk1)) as Hs. pose proof Hk1 as [_ Hr1].
  eapply gwp_mono; [apply (gwp_same g self1 _ Hk1 Hs); try done; apply Hr1|by intros ??? _ [? _]].
Qed.

Lemma gwp_write g self e start buf :
  invariant g → sk_rel g self → e ∈ elected g → l_hist e = hist (ps self) → acceptor_term self = l_term e →
  start + Z.of_nat (length buf) ≤ LSN_LIMIT →
  gwp (on_wal (ws_write_wal start buf)) (λ g' _ self', sk_rel g' self' ∧ keeps_state self self') g self.
Proof.
  intros Hg [Hn Hr] He Eh Et Hlim. pose proof (r_wal _ _ _ _ _ Hr) as Hi. pose proof (write_wal_spec start buf _ Hi Hlim) as W1.
  unfold wp in W1. unfold gwp, on_wal. destruct (ws_write_wal start buf (wal_store self)) as [r w']. cbn [fst snd] in *.
  destruct W1 as (_ & Hi' & Hle). destruct (rel_write g _ _ _ _ w' e Hg Hr Hi' Hle He Eh Et) as (g' & Hext & Hr').
  exists g'. split; [done|]. by split_and!.
Qed.

(** An acknowledgement in the term of a leader, or the news that its term is over. *)
Definition ack_ok (g : G) (e : Leader nat) (o : option AcceptorProposerMessage) : Prop :=
  match o with
  | Some (AAppendResponse a) => l_term e < as_term a ∨ MkAck n (l_term e) (as_flush_lsn a) ∈ acks g
  | Some _ => False
  | None => True
  end.

Lemma gwp_ack g self e :
  sk_rel g self → e ∈ elected g → follows g e →
  gwp (mret (Some (AAppendResponse (append_response self)))) (λ g' r self', sk_rel g' self' ∧ match r with Ok o => ack_ok g' e o | _ => True end) g self.
Proof.
  intros Hk He Hf. destruct (proj1 (rel_follows g self e Hk) Hf) as [Hlt|[Et Eh]].
  - exists g. split; [apply ext_refl|]. split; [done|]. by left.
  - destruct (rel_log g self Hk) as [_ Efl]. pose proof Hk as [Hn Hr]. pose proof (r_acc _ _ _ _ _ Hr) as Ea.
    exists (MkWorld (accs g) (votes g) (elected g) (MkAck n (l_term e) (flush_lsn self) :: acks g)). split.
    + apply ext_step; try done; [|by apply voted_same|cbn; set_solver]. apply step_ack; [done|by rewrite Ea|by rewrite Ea|lia].
    + split; [|right; by left]. split; [done|]. destruct Hr as [R1 R2 R3 R4 R5 R6 R7 R8 R9 R10]. split; try done.
      eapply log_committed_mono; [| |exact R9]; cbn; set_solver.
Qed.

(** What a leader has committed is committed in the log that has its history. *)
Lemma leader_log_committed g e cc th c :
  committed g e cc → c ≤ cc → th = l_hist e → log_committed g th c.
Proof. intros Hc Hle ->. right. by exists e, cc. Qed.

Lemma gwp_handle_flush g self e :
  invariant g → sk_rel g self → e ∈ elected g → follows g e →
  gwp handle_flush (λ g' r self', sk_rel g' self' ∧ match r with Ok o => ack_ok g' e o | _ => True end) g self.
Proof.
  intros Hg Hk He Hf. unfold handle_flush. apply gwp_bind. eapply gwp_mono; [by apply gwp_flush_wal|].
  intros g1 r self1 E1 [Hk1 _]. destruct r; [|done..]. apply gwp_get, gwp_ack; [done|by rewrite (ext_elected _ _ E1)|exact (follows_ext _ _ _ Hg He E1 Hf)].
Qed.

Lemma gwp_append g self m flush e :
  invariant g → sk_rel g self → e ∈ elected g → follows g e → ar_term (h m) = l_term e →
  (ar_commit_lsn (h m) = 0 ∨ committed g e (ar_commit_lsn (h m))) → msg_ok (AppendRequestMsg m) →
  gwp (handle_append_request m flush) (λ g' r self', sk_rel g' self' ∧ match r with Ok o => ack_ok g' e o | _ => True end) g self.
Proof.
  intros Hg Hk He Hf Et Hcom Hm. unfold handle_append_request. apply gwp_get. gwp_if; [by apply gwp_ret|].
  destruct (Z.ltb_spec (acceptor_term self) (ar_term (h m))); [by apply gwp_ret|].
  destruct (Z.ltb_spec (ar_term (h m)) (acceptor_term self)); [apply gwp_ret; split; [done|]; left; cbn; lia|].
  destruct (proj1 (rel_follows g self e Hk) Hf) as [Hlt|[Ets Eh]]; [lia|]. do 2 (gwp_if; [by apply gwp_ret|]).
  (* the WAL *)
  apply gwp_bind. apply (gwp_mono _ (λ g' _ self', sk_rel g' self' ∧ ps self' = ps self)).
  { unfold whenM. gwp_if; [|by exists g; split; [apply ext_refl|]].
    eapply gwp_mono; [by apply (gwp_write g self e)|]. intros ??? _ [? (E' & _)]. split; [done|]. unfold ps. by rewrite E'. }
  intros g1 r self1 E1 [Hk1 Ep1]. destruct r; [|done..]. pose proof (ext_invariant _ _ E1 Hg) as Hg1.
  pose proof (follows_ext _ _ _ Hg He E1 Hf) as Hf1. rewrite <-(ext_elected _ _ E1) in He.
  apply gwp_bind. apply (gwp_mono _ (λ g' _ self', sk_rel g' self' ∧ ps self' = ps self1)).
  { unfold whenM. gwp_if; [|by exists g1; split; [apply ext_refl|]].
    eapply gwp_mono; [by apply gwp_flush_wal|]. intros ??? _ [? (E' & _)]. split; [done|]. unfold ps. by rewrite E'. }
  intros g2 r self2 E2 [Hk2 Ep2]. destruct r; [|done..]. pose proof (ext_invariant _ _ E2 Hg1) as Hg2.
  pose proof (follows_ext _ _ _ Hg1 He E2 Hf1) as Hf2. rewrite <-(ext_elected _ _ E2) in He.
  (* the commit position *)
  apply gwp_bind. apply (gwp_mono _ (λ g' _ self', sk_rel g' self')).
  { unfold whenM. gwp_if; [|exists g2; split; [apply ext_refl|exact Hk2]]. apply gwp_update_commit; [done|].
    destruct Hcom as [?|Hcom]; [lia|]. intros c' Hle _. apply (leader_log_committed g2 e (ar_commit_lsn (h m))); [|done|congruence].
    destruct E1 as (_ & X1 & _ & _ & Y1), E2 as (_ & X2 & _ & _ & Y2). eapply committed_mono; [| |exact Hcom]; [by rewrite X2, X1|by etrans]. }
  intros g3 r self3 E3 Hk3. destruct r; [|done..]. pose proof (ext_invariant _ _ E3 Hg2) as Hg3.
  pose proof (follows_ext _ _ _ Hg2 He E3 Hf2) as Hf3. rewrite <-(ext_elected _ _ E3) in He.
  apply gwp_bind. exists g3. split; [apply ext_refl|]. cbn [modifyS fst snd]. apply gwp_get. gwp_if; [by apply gwp_ret|].
  by apply gwp_ack.
Qed.

(** * Information from peers *)

(** What a peer may tell: its commit position and the last term of its log. *)
Definition info_ok (g : G) (info : SafekeeperTimelineInfo) : Prop :=
  ti_commit_lsn info ≤ L ∨ ∃ e c lg, committed g e c ∧ ti_commit_lsn info ≤ c ∧ known L fresh g lg ∧ lg ≠ [] ∧
    last_term lg = ti_last_log_term info ∧ ∀ l, l < ti_commit_lsn info → term_at lg l = term_at (l_hist e) l.

(** A log that goes beyond the start of the timeline is one of the histories. *)
Lemma log_known (g : G) : invariant g → L < a_flush (accs g n) → a_log (accs g n) ≠ [] ∧ known L fresh g (a_log (accs g n)).
Proof.
  intros Hg Hf. assert (a_log (accs g n) ≠ []) as Hn.
  { intros E'. pose proof (log_flush_ok L fresh g n Hg) as Hl. rewrite E' in Hl. destruct Hl as [[_ ?]|[_ Hl]]; [lia|]. specialize (Hl eq_refl). lia. }
  split; [done|]. destruct (i_hist _ _ _ Hg n) as (Hk & _). unfold a_log in *.
  destruct (up_to_prefix (a_hist (accs g n)) (a_flush (accs g n))) as (r & Er & _). by apply (prefix_known L fresh g _ _ r Hg Hk Er).
Qed.

Lemma gwp_info g self info :
  invariant g → sk_rel g self → info_ok g info → gwp (record_safekeeper_info info) (λ g' _ self', sk_rel g' self') g self.
Proof.
  intros Hg Hk Hinfo. unfold record_safekeeper_info. apply gwp_get. gwp_if; [|exists g; split; [apply ext_refl|exact Hk]].
  unfold whenM. destruct (Z.eqb_spec (ti_last_log_term info) (get_last_log_term self)) as [Et|]; [|exists g; split; [apply ext_refl|exact Hk]].
  apply gwp_update_commit; [done|]. intros c' Hc Hf. destruct (Z.le_gt_cases c' L); [by left|].
  destruct Hinfo as [?|(e & c & lg & Hcom & Hle & Hkn & Hne & Elt & Hag)]; [lia|]. right. exists e, c. split_and!; [done|lia|].
  destruct (rel_log g self Hk) as [Elog Ef]. rewrite Ef in Hf. destruct (log_known g Hg ltac:(lia)) as [Hne' Hkn'].
  assert (lg = a_log (accs g n)) as ->.
  { apply (known_unique L fresh g); try done. rewrite <-Elog, Elt. exact Et. }
  intros l Hl. rewrite <-Hag by lia. rewrite term_at_log by lia. destruct Hk as [_ Hr]. by rewrite (r_acc _ _ _ _ _ Hr).
Qed.

(** What a safekeeper tells about itself. *)
Lemma own_info_ok g self standby info :
  invariant g → sk_rel g self → StateSK.get_safekeeper_info standby (StateSK.Loaded self) = Ok info → info_ok g info.
Proof.
  intros Hg Hk [= <-]. destruct (rel_log g self Hk) as [Elog Ef]. pose proof Hk as [_ Hr]. destruct (r_commit _ _ _ _ _ Hr) as [_ Hc].
  change (flush_of _ _) with (flush_lsn self) in Hc. unfold info_ok. cbn. change (TimelineState.inmem (state self)) with (mem self).
  destruct (r_committed _ _ _ _ _ Hr) as [?|(e & c & Hcom & Hle & Hag)]; [by left|].
  destruct (Z.le_gt_cases (mem_commit_lsn (mem self)) L); [by left|right]. destruct (log_known g Hg ltac:(lia)) as [Hne Hkn].
  assert (ws_flush_lsn (wal_store self) = flush_lsn self) as Ews.
  { destruct (r_start _ _ _ _ _ Hr) as [[E0|E0] _]; unfold flush_lsn in *; rewrite E0 in *; lia. }
  exists e, c, (a_log (accs g n)). split_and!; try done; [rewrite <-Elog, Ews; done|].
  intros l Hl. rewrite <-(Hag l Hl), term_at_log by lia. by rewrite (r_acc _ _ _ _ _ Hr).
Qed.

(** * Requests *)

Lemma gwp_change {A} g self c s (k : TimelineState.t C → A) :
  sk_rel g self → (c = true → gwp (on_state (TimelineState.finish_change s)) (λ g' _ self', sk_rel g' self') g self) →
  gwp (on_state (_ ← whenM c (TimelineState.finish_change s); ts ← getS; mret (k ts))) (λ g' _ self', sk_rel g' self') g self.
Proof.
  intros Hk Hc. destruct c; cbn [whenM].
  - destruct (Hc eq_refl) as (g' & Hext & Hk'). exists g'. split; [done|]. unfold on_state, getS, mbind, M_bind in *.
    by destruct (TimelineState.finish_change s (state self)) as [[] ?].
  - exists g. split; [apply ext_refl|]. unfold on_state, getS, mbind, M_bind. cbn. by rewrite set_state_same.
Qed.

Lemma gwp_term_bump g self to :
  sk_rel g self → gwp (on_state (TimelineState.term_bump to)) (λ g' _ self', sk_rel g' self') g self.
Proof.
  intros Hk. set (term := acc_term (acceptor_state (TimelineState.start_change (state self)))).
  set (new := match to with Some to => Z.max term to | None => wrapping_add 64 term 1 end).
  apply (gwp_change g self (term <? new) (TimelinePersistentState.with_term new (TimelineState.start_change (state self)))
    (λ ts, MkTermBump (acc_term (acceptor_state (TimelineState.deref (state self)))) (acc_term (acceptor_state (TimelineState.deref ts))))); [done|].
  intros Hlt. change term with (acceptor_term self) in Hlt.
  eapply gwp_mono; [apply (gwp_set_term g self new []); [done|lia|by intros ??%elem_of_nil|]|by intros ??? _ [? _]].
  apply step_term. destruct Hk as [_ Hr]. rewrite (r_acc _ _ _ _ _ Hr). change (acceptor_term self < new). lia.
Qed.

Lemma gwp_switch g self c :
  sk_rel g self → conf_known c → gwp (on_state (TimelineState.membership_switch c)) (λ g' _ self', sk_rel g' self') g self.
Proof.
  intros Hk Hc. pose proof (start_change_ok self (rel_log_inv g self Hk)) as Hs.
  apply (gwp_change g self _ (TimelinePersistentState.with_mconf c (TimelineState.start_change (state self)))
    (λ ts, MkMembershipSwitch (mconf (TimelineState.deref (state self))) (mconf (TimelineState.deref ts)))); [done|]. intros _.
  eapply gwp_mono; [apply gwp_same; try done; by destruct Hs|by intros ??? _ [? _]].
Qed.

Lemma gwp_save g self : sk_rel g self → gwp (on_state TimelineState.flush) (λ g' _ self', sk_rel g' self') g self.
Proof.
  intros Hk. pose proof (start_change_ok self (rel_log_inv g self Hk)) as Hs. pose proof Hk as [_ Hr].
  change (gwp (on_state (TimelineState.finish_change (TimelineState.start_change (state self)))) (λ g' _ self', sk_rel g' self') g self).
  eapply gwp_mono; [apply (gwp_same g self _ Hk Hs); try done; apply Hr|by intros ??? _ [? _]].
Qed.

(** What peers tell, on a timeline that is loaded. *)
Definition record_loaded (info : SafekeeperTimelineInfo) : M SK (SkError E) unit :=
  _ ← record_safekeeper_info info; on_state (StateSK.record_positions info).

Lemma record_loaded_eq info self :
  StateSK.record_safekeeper_info info (StateSK.Loaded self) =
    let '(r, self') := record_loaded info self in (map_err TlSafekeeper r, StateSK.Loaded self').
Proof.
  unfold StateSK.record_safekeeper_info, StateSK.record_commit, StateSK.on_state, record_loaded, mbind, M_bind.
  destruct (record_safekeeper_info info self) as [[a|e|] self1]; [|done..]. cbn. by destruct (on_state _ self1).
Qed.

(** Positions that are not part of the relation. *)
Lemma gwp_positions g self info : sk_rel g self → gwp (on_state (StateSK.record_positions info)) (λ g' _ self', sk_rel g' self') g self.
Proof.
  intros Hk. unfold StateSK.record_positions. set (m := TimelineState.inmem (state self)). set (p := TimelineState.deref (state self)).
  assert (∀ b r h, sk_rel g (set_state (TimelineState.set_inmem (StateSK.with_positions b r h m) (state self)) self)) as Hset by done.
  unfold gwp, on_state, mbind, M_bind, getS, modifyS, liftR, mret, M_ret, Lsn.add. cbn. fold m p.
  destruct (checked_add _ (backup_lsn p) _) as [x1|]; cbn; [|exists g; split; [apply ext_refl|apply Hset]].
  destruct (checked_add _ (remote_consistent_lsn p) _) as [x2|]; cbn; [|exists g; split; [apply ext_refl|apply Hset]].
  destruct (checked_add _ (peer_horizon_lsn p) _) as [x3|]; cbn; [|exists g; split; [apply ext_refl|apply Hset]].
  unfold whenM. destruct (_ || _); [|exists g; split; [apply ext_refl|apply Hset]].
  set (self1 := set_state (TimelineState.set_inmem (StateSK.with_positions (Z.max (ti_backup_lsn info) (mem_backup_lsn m))
    (Z.max (ti_remote_consistent_lsn info) (mem_remote_consistent_lsn m)) (Z.max (ti_peer_horizon_lsn info) (mem_peer_horizon_lsn m)) m) (state self)) self).
  destruct (gwp_save g self1 (Hset _ _ _)) as (g' & He & Hk'). exists g'. split; [done|]. unfold on_state in Hk'. cbn in Hk'. exact Hk'.
Qed.

Lemma gwp_record g self info :
  invariant g → sk_rel g self → info_ok g info → gwp (record_loaded info) (λ g' _ self', sk_rel g' self') g self.
Proof.
  intros Hg Hk Hi. apply gwp_bind. eapply gwp_mono; [by apply gwp_info|]. intros g' [[]|e|] self' _ Hk'; [by apply gwp_positions|done..].
Qed.

(** * Restart *)

(** [reopens s w w']: after a crash the WAL [w] is opened as [w'], by the state [s].
    What was flushed is found again; beyond it only what was written. *)
Context (reopens : TimelinePersistentState → W → W → Prop).

Record reopen_laws : Prop := {
  reopen_inv s w w' : reopens s w w' → inv w → state_ok s → inv w' ∧ pending w' = false;
  reopen_flushed s w w' : reopens s w w' → inv w → state_ok s → Z.max (ws_flush_lsn w) (commit_lsn s) ≤ ws_flush_lsn w';
  reopen_clean s w w' : reopens s w w' → inv w → state_ok s → pending w = false →
    ws_flush_lsn w' = Z.max (ws_flush_lsn w) (commit_lsn s)
}.
Hypothesis Hreopen : reopen_laws.

(** The safekeeper that starts on what a crash of [self] leaves. *)
Definition restarted (self self' : SK) : Prop :=
  ∃ (c' : C) (w' : W), cs_state c' = disk_state self ∧ cs_disk c' = disk_state self ∧
    reopens (disk_state self) (wal_store self) w' ∧ SafeKeeper.new (E := E) (TimelineState.new c') w' (node_id self) = Ok self'.

(** The history on disk is that of the acceptor, with what is flushed. *)
Lemma rel_restart_same g s c d w w' :
  rel g s c d w → sterm s ≤ sterm d ∧ hist d = hist s ∧ timeline_start_lsn d = timeline_start_lsn s → reopens d w w' →
  ∃ g', ext g g' ∧ rel g' d (commit_lsn d) d w'.
Proof.
  intros Hr (Ht & Eh & Ets) Ho. pose proof Hr as [R1 R2 [R3 R3'] R4 [R5 R5'] R6 R7 R8 R9 R10].
  destruct (reopen_inv Hreopen _ _ _ Ho R2 R3') as [Hi' Hp']. pose proof (reopen_flushed Hreopen _ _ _ Ho R2 R3') as Hf.
  pose proof (reopen_clean Hreopen _ _ _ Ho R2 R3') as Hcl.
  assert (commit_lsn d ≤ flush_of s w) as Hcd by (rewrite Ets in R8; unfold flush_of in *; lia).
  assert (∃ g1, ext g g1 ∧ elected g1 = elected g ∧ acks g1 = acks g ∧ accs g1 n = MkAcceptor (sterm s) (hist s) (flush_of d w')) as (g1 & E1 & El1 & Ek1 & Ea1).
  { destruct (pending w) eqn:Ep.
    - destruct (R6 eq_refl) as (e & He & Ehe). exists (moved g (flush_of d w')). split_and!; [|done|done|cbn; by rewrite set_acc_same, R1].
      apply ext_moved. apply (step_grow L g n e); [done|by rewrite R1|]. rewrite R1. cbn. unfold flush_of. rewrite Ets. lia.
    - exists g. split_and!; [apply ext_refl|done|done|]. rewrite R1. f_equal. unfold flush_of in *. rewrite Ets, (Hcl eq_refl). lia. }
  assert (∃ g2, ext g g2 ∧ elected g2 = elected g ∧ acks g2 = acks g ∧ accs g2 n = MkAcceptor (sterm d) (hist s) (flush_of d w')) as (g2 & E2 & El2 & Ek2 & Ea2).
  { destruct (decide (sterm s = sterm d)) as [<-|Hne]; [by exists g1|]. exists (retermed g1 (sterm d) []).
    split_and!; [|done|done|cbn; by rewrite set_acc_same, Ea1]. apply (ext_trans g g1); [done|].
    apply ext_step; try done; [apply step_term; rewrite Ea1; cbn; lia| |by apply voted_same]. intros m Hm. cbn. by apply set_acc_other. }
  exists g2. split; [done|]. split; try done; [by rewrite Ea2, Eh| | |split; rewrite Ets, ?Eh; apply R7|lia| |by left].
  - unfold flush_of in *. rewrite Ets in *. lia.
  - congruence.
  - rewrite Eh. destruct R9 as [Hc|(e & c' & Hc & Hle & Hag)].
    + left. unfold flush_of in *. destruct R7 as [[E0|E0] _]; rewrite Ets, E0 in R8; lia.
    + destruct (Z.le_gt_cases (commit_lsn d) L); [by left|right]. exists e, c'.
      assert (commit_lsn d ≤ c) by (destruct R7 as [[E0|E0] _]; rewrite Ets, E0 in R8; lia). split_and!; [|lia|].
      * eapply committed_mono; [| |exact Hc]; [by rewrite El2|by rewrite Ek2].
      * intros l Hl. apply Hag. lia.
Qed.

(** The history on disk is that of the leader whose announcement was not finished. *)
Lemma rel_restart_adopted g s c d w w' e :
  rel g s c d w → e ∈ elected g → sterm s = l_term e → sterm d = l_term e → hist d = l_hist e → timeline_start_lsn d = L →
  pending w = false → cut_ok L (l_hist e) (accs g n) (flush_of s w) → reopens d w w' →
  ∃ g', ext g g' ∧ rel g' d (commit_lsn d) d w'.
Proof.
  intros Hr He Et Etd Eh Ets Hp Hcut Ho. pose proof Hr as [R1 R2 [R3 R3'] R4 [R5 R5'] R6 R7 R8 R9 R10].
  destruct (reopen_inv Hreopen _ _ _ Ho R2 R3') as [Hi' Hp']. pose proof (reopen_clean Hreopen _ _ _ Ho R2 R3' Hp) as Hcl.
  pose proof (cut_start _ _ _ _ Hcut) as HL. set (f := flush_of s w) in *.
  assert (flush_of d w' = f) as Ef.
  { unfold flush_of at 1. rewrite Hcl, Ets. rewrite Ets in R8. unfold f, flush_of in *. destruct R7 as [[E0|E0] _]; rewrite E0 in *; lia. }
  exists (MkWorld (set_acc n (MkAcceptor (a_term (accs g n)) (l_hist e) f) (accs g)) (votes g) (elected g) (acks g)). split.
  - apply ext_step; [|done|intros m Hm; cbn; by apply set_acc_other|by apply voted_same|done]. apply (step_adopt L g n e f); [done|by rewrite R1|done].
  - split; rewrite ?Ef; try done.
    + cbn [accs]. rewrite set_acc_same, R1. cbn [a_term]. by rewrite Eh, Etd, Et.
    + lia.
    + congruence.
    + split; [by right|done].
    + lia.
    + rewrite Eh. destruct (Z.le_gt_cases (commit_lsn d) L); [by left|]. destruct R9 as [?|(e0 & c' & Hc & Hle & Hag)]; [left; lia|right].
      exists e0, c'. split_and!; [done|lia|]. intros l Hl. rewrite <-Hag by lia. rewrite (cut_agrees _ _ _ _ Hcut l) by lia. by rewrite R1.
    + left. split_and!; [lia|done|done].
Qed.

Lemma rel_restart g self self' : sk_rel g self → restarted self self' → ∃ g', ext g g' ∧ sk_rel g' self'.
Proof.
  intros [Hn Hr] (c' & w' & E1 & E2 & Ho & Enew). unfold SafeKeeper.new in Enew. destruct (_ || _); [done|]. injection Enew as <-.
  assert (∃ g', ext g g' ∧ rel g' (disk_state self) (commit_lsn (disk_state self)) (disk_state self) w') as (g' & Hext & Hr').
  { destruct (r_disk _ _ _ _ _ Hr) as [Hd|(e & He & Et & Etd & Eh & Ets & Hp & Hcut)]; [by eapply rel_restart_same|].
    by apply (rel_restart_adopted g _ _ _ _ w' e Hr). }
  exists g'. split; [done|]. split; [done|]. unfold ps, mem, disk_state. cbn. unfold TimelineState.deref. cbn. rewrite E1, E2. exact Hr'.
Qed.
End acceptor.
