(* ===== verification/PhysicalLogs.v ===== *)
(** [PhysicalStorage] as the log of an acceptor: the WAL that is written and not
    flushed, [WalLogLaws]. *)

From S2P Require Import Prelude Text Lsns WalDecoders SkStates WalStorages WalStorageFacts WalDiskFacts WalStorageSafety.
From S2P Require Import SafeKeepers SafeKeeperFacts SafeKeeperRuns Consensus ProposerInv AcceptorRel.
Local Open Scope Z_scope.

Import PhysicalStorage.

(** Records are written beyond the flushed position. *)
Definition unflushed_records (w : t) : bool := negb (flush_record_lsn w =? write_record_lsn w).

Section physical.
Context `{WalLayoutLaws} (generate_wal_segment : Z → Lsn → bytes).

Lemma lsns_unflushed w w' : lsns w' = lsns w → unflushed_records w' = unflushed_records w ∧ flush_record_lsn w' = flush_record_lsn w.
Proof. unfold lsns, unflushed_records. by intros [= _ _ -> _ -> _ _]. Qed.

Lemma flush_unflushed w : wp flush_wal (λ _ w', unflushed_records w' = true → unflushed_records w = true) w.
Proof.
  unfold flush_wal. apply wp_bind. unfold wp at 1. cbn [getS fst snd wp_next].
  destruct (flush_record_lsn w =? write_record_lsn w) eqn:E.
  { unfold wp. cbn. done. }
  assert (unflushed_records w = true) as Hu by (unfold unflushed_records; by rewrite E).
  unfold wp. done.
Qed.

(** A truncation makes everything flushed, also when it fails on the way. *)
Lemma truncate_flushed e w : wal_inv w → 0 < e →
  wp (truncate_wal e) (λ r w', (r = Ok tt → flush_record_lsn w' = e ∧ unflushed_records w' = false) ∧
    (unflushed_records w' = true → unflushed_records w = true)) w.
Proof.
  intros Hi He. unfold truncate_wal. apply wp_bind. unfold wp at 1. cbn [getS fst snd wp_next].
  destruct (_ && _) eqn:Eg; [by split|].
  destruct (negb (pending_wal_truncation w) && _ && _) eqn:Ed.
  { split; [intros _|done]. pose proof (wi_record _ Hi). pose proof (wi_ahead _ Hi). pose proof (wi_pending _ Hi).
    unfold unflushed_records. cbn. destruct (pending_wal_truncation w); [done|]. split; [lia|]. destruct (Z.eqb_spec (flush_record_lsn w) (write_record_lsn w)); [done|]. lia. }
  apply wp_bind. unfold wp at 1. cbn [modifyS fst snd wp_next]. set (w1 := set_flush_record_lsn e _).
  assert (∀ w' (r : result WalError unit), lsns w' = lsns w1 → (r = Ok tt → flush_record_lsn w' = e ∧ unflushed_records w' = false) ∧
    (unflushed_records w' = true → unflushed_records w = true)) as Hmid.
  { intros w' r E. destruct (lsns_unflushed w1 w' E) as [-> ->]. unfold unflushed_records. cbn. by rewrite Z.eqb_refl. }
  apply wp_keeps; [destruct (file w); by eauto with keeps|intros _ w2 E2|intros; by apply Hmid..].
  apply wp_keeps; [apply remove_segments_keeps|intros _ w3 E3|intros; apply Hmid; congruence..].
  apply wp_keeps; [by eauto with keeps|intros b w4 E4|intros; apply Hmid; congruence..].
  apply wp_keeps; [by eauto with keeps|intros _ w5 E5|intros; apply Hmid; congruence..].
  apply wp_keeps; [by eauto with keeps|intros _ w6 E6|intros; apply Hmid; congruence..].
  apply wp_keeps; [by unfold fsync_file; eauto with keeps|intros _ w7 E7|intros; apply Hmid; congruence..].
  apply wp_keeps; [by eauto with keeps|intros _ w8 E8|intros; apply Hmid; congruence..].
  assert (lsns w8 = lsns w1) as E by congruence. destruct (Hmid w8 (Ok tt) E) as [H1 H2]. split; [intros _; by apply H1|exact H2].
Qed.

#[local] Existing Instance physical_store.

#[global] Instance physical_log_laws :
  WalLogLaws PhysicalStorage.t WalError (H := physical_store generate_wal_segment) store_inv unflushed_records.
Proof.
  split; cbn.
  - intros w [Hi Hs] Hp. unfold wp, flush_wal, getS, mbind, M_bind. unfold unflushed_records in Hp.
    destruct (flush_record_lsn w =? write_record_lsn w) eqn:E; [|done]. cbn. unfold unflushed_records. by rewrite E.
  - intros w _. apply flush_unflushed.
  - intros e w [Hi _] He. apply truncate_flushed; [done|lia].
  - intros l w _ _. assert (keeps lsns (initialize_first_segment generate_wal_segment l)) as Hk.
    { unfold initialize_first_segment. apply keeps_bind; [apply keeps_get|]. intros s0. eauto 10 with keeps. }
    specialize (Hk w). unfold wp. destruct (lsns_unflushed w _ Hk) as [-> _]. done.
Qed.

(** Opening the storage on what a crash leaves of the disk, where the search finds
    the records that were flushed, and nothing when nothing else was written. *)
Definition reopened (s : TimelinePersistentState) (w w' : t) : Prop :=
  (∃ d read_io io, survives (disk w) d ∧ PhysicalStorage.new s d read_io io = Ok w') ∧
  Z.max (flush_record_lsn w) (commit_lsn s) ≤ flush_record_lsn w' ∧
  (unflushed_records w = false → flush_record_lsn w' ≤ Z.max (flush_record_lsn w) (commit_lsn s)).

Lemma reopened_laws :
  reopen_laws (H1 := physical_store generate_wal_segment) (inv := store_inv) (pending := unflushed_records) reopened.
Proof.
  split.
  - intros s w w' ((d & read_io & io & Hsv & Hn) & _) [_ Hw] Hs. assert (openable s d) as Ho.
    { destruct Hs. split; try done. intros k. destruct Hsv as [-> _]. apply (di_range _ Hw). }
    pose proof (new_spec s d read_io io Ho) as Hspec. rewrite Hn in Hspec. destruct Hspec as (? & ? & _). split; [by split|].
    unfold PhysicalStorage.new in Hn. match type of Hn with mbind _ ?r = _ => destruct r as [l|e|]; [|done..] end. cbn [mbind result_bind] in Hn.
    destruct (l <? _); [done|]. destruct (PgVersion.try_from _); [|done]. injection Hn as <-. unfold unflushed_records. cbn. by rewrite Z.eqb_refl.
  - by intros s w w' (_ & ? & _).
  - intros s w w' (_ & ? & Hu) _ _ Hp. specialize (Hu Hp). cbn. lia.
Qed.
End physical.
