(* ===== verification/Clusters.v ===== *)
(** The cluster of a timeline: proposers ([pgxn/neon/walproposer.c]) and safekeepers
    ([safekeeper/src/safekeeper.rs]), with the connections between them
    ([safekeeper/src/receive_wal.rs]), as a transition system.

    A proposer runs one entry point at a time.  What it writes to a connection
    arrives there in order, or not at all; what it reads is some of what was sent
    to it on the connection of the slot, where repetition and reordering are
    possible too.  A proposer that fails is gone; one that crashes takes no more
    steps.  A safekeeper works on one message at a time, from any of its
    connections, and may crash and start again from its disk. *)

From S2P Require Import Prelude Text Lsns Membership TermHistories Consensus Feedbacks WalDecoders SkStates SafeKeepers Timelines.
From S2P Require Import SafeKeeperFacts WalProposers ProposerInv AcceptorRel.
Local Open Scope Z_scope.

(** * The connection of a proposer at a safekeeper

    The task that takes messages to the timeline and the one that writes replies. *)

(** [Timeline::process_msg] fills in the feedback of the hot standbys. *)
Definition with_hs_feedback (hs : HotStandbyFeedback) (r : AppendResponse) : AppendResponse :=
  MkAppendResponse (as_generation r) (as_term r) (as_flush_lsn r) (as_commit_lsn r) hs (as_pageserver_feedback r).

Definition fill_hs (hs : HotStandbyFeedback) (rmsg : option AcceptorProposerMessage) : option AcceptorProposerMessage :=
  match rmsg with Some (AAppendResponse r) => Some (AAppendResponse (with_hs_feedback hs r)) | o => o end.

Definition with_pageserver_feedback (fb : PageserverFeedback) (r : AppendResponse) : AppendResponse :=
  MkAppendResponse (as_generation r) (as_term r) (as_flush_lsn r) (as_commit_lsn r) (as_hs_feedback r) (Some fb).

Module WalAcceptor.
Section acceptor.
Context {C W E : Type} `{ControlStorage C} `{WalStore W E}.

Abbreviation SK := (SafeKeeper.t C W).

Definition process_msg (hs : HotStandbyFeedback) (msg : ProposerAcceptorMessage) : M SK (SkError E) (option AcceptorProposerMessage) :=
  rmsg ← SafeKeeper.process_msg msg; mret (fill_hs hs rmsg).

(** The task: whether there are appends that are not flushed, and the timeline that it
    shares with other connections. *)
Record t := Mk { dirty : bool; tli : SK }.

Definition on_tli {A} (m : M SK (SkError E) A) : M t (SkError E) A := λ self,
  let '(r, sk) := m (tli self) in (r, Mk (dirty self) sk).

(** A message: appends are not flushed one by one. *)
Definition run_msg (hs : HotStandbyFeedback) (msg : ProposerAcceptorMessage) : M t (SkError E) (option AcceptorProposerMessage) :=
  match msg with
  | AppendRequestMsg m =>
      _ ← modifyS (λ self, Mk true (tli self));
      on_tli (process_msg hs (NoFlushAppendRequest m))
  | _ => on_tli (process_msg hs msg)
  end.

(** The flush of what is dirty, by the ticker or when no message is waiting. *)
Definition run_flush (hs : HotStandbyFeedback) : M t (SkError E) (option AcceptorProposerMessage) :=
  _ ← modifyS (λ self, Mk false (tli self));
  on_tli (process_msg hs FlushWAL).

(** The end of the loop. *)
Definition run_end (hs : HotStandbyFeedback) : M t (SkError E) unit :=
  self ← getS;
  whenM (dirty self) (_ ← on_tli (process_msg hs FlushWAL); mret tt).
End acceptor.
Arguments t : clear implicits.
End WalAcceptor.

(** The writer of replies, with the last append response. *)
Module NetworkWrite.
Definition on_reply (msg : AcceptorProposerMessage) (last : option AppendResponse) : AcceptorProposerMessage * option AppendResponse :=
  (msg, match msg with AAppendResponse r => Some r | _ => last end).

Definition on_feedback (fb : PageserverFeedback) (last : option AppendResponse) : option AcceptorProposerMessage :=
  (λ r, AAppendResponse (with_pageserver_feedback fb r)) <$> last.
End NetworkWrite.

(** * State *)

(** A connection at the safekeeper: how many messages it has taken, whether it is
    open, its task, and what was sent to the proposer. *)
Record Link := MkLink {
  lk_done : nat;
  lk_open : bool;
  lk_dirty : bool;
  lk_last : option AppendResponse;
  lk_sent : list AcceptorProposerMessage
}.

Definition new_link : Link := MkLink 0 true false None [].
Definition close (k : Link) : Link := MkLink (lk_done k) false (lk_dirty k) (lk_last k) (lk_sent k).
Definition reply (m : AcceptorProposerMessage) (k : Link) : Link :=
  let '(m, last) := NetworkWrite.on_reply m (lk_last k) in
  MkLink (lk_done k) (lk_open k) (lk_dirty k) last (lk_sent k ++ [m]).
Definition refresh (fb : PageserverFeedback) (k : Link) : Link :=
  match NetworkWrite.on_feedback fb (lk_last k) with
  | Some m => MkLink (lk_done k) (lk_open k) (lk_dirty k) (lk_last k) (lk_sent k ++ [m])
  | None => k
  end.

(** What a task leaves: its reply is written, an error ends the connection. *)
Definition finish {E} (r : result E (option AcceptorProposerMessage)) (k : Link) : Link :=
  match r with
  | Ok (Some m) => reply m k
  | Ok None => k
  | _ => close k
  end.

(** A proposer, whether it runs, and the safekeepers that its slots lead to. *)
Record Proc := MkProc { pr_wp : WalProposer.t; pr_alive : bool; pr_nodes : list Z }.

(** The entry points of a proposer. *)
Inductive Entry :=
  | EPoll (ev : option (nat * WalProposer.Events)) (reconnect timeout : bool) (silent : list nat)
  | EStart
  | EBroadcast (endpos : Lsn).

Definition enter (wal_read : Lsn → Z → bytes) (e : Entry) : M WalProposer.t WpError unit :=
  match e with
  | EPoll ev reconnect timeout silent => WalProposer.WalProposerPoll wal_read ev reconnect timeout silent
  | EStart => WalProposer.WalProposerStart
  | EBroadcast endpos => WalProposer.WalProposerBroadcast wal_read endpos
  end.

(** The slot whose connection is read. *)
Definition entry_slot (e : Entry) : option nat := match e with EPoll (Some (i, _)) _ _ _ => Some i | _ => None end.

(** What a read gives: one of the messages sent, or none. *)
Inductive Fetch := FMessage (k : nat) | FAgain | FFail.
Definition fetch (sent : list AcceptorProposerMessage) (f : Fetch) : ReadResult :=
  match f with
  | FMessage k => match sent !! k with Some m => ReadMsg m | None => ReadAgain end
  | FAgain => ReadAgain
  | FFail => ReadFail
  end.

(** Messages with positions that are in range. *)
Definition msg_fits (m : ProposerAcceptorMessage) : bool :=
  match m with
  | Elected m => (0 <? pe_start_streaming_at m) && (pe_start_streaming_at m <? LSN_LIMIT) &&
      match head (pe_term_history m) with Some start => lsn start <=? LSN_LIMIT | None => true end
  | AppendRequestMsg m | NoFlushAppendRequest m => ar_begin_lsn (h m) + Z.of_nat (length (wal_data m)) <=? LSN_LIMIT
  | _ => true
  end.

(** [read_first_message]: the first message is a greeting. *)
Definition expected_first (k : nat) (m : ProposerAcceptorMessage) : bool :=
  match k, m with O, Greeting _ => true | O, _ => false | _, _ => true end.

Definition upd {A B} `{EqDecision A} (a : A) (b : B) (f : A → B) : A → B := λ x, if decide (x = a) then b else f x.

Section cluster.
Context {C W E : Type} `{ControlStorage C} `{WalStore W E}.
(** The configuration of the safekeepers, where addresses lead to, the start of the
    timeline, and how a safekeeper finds its WAL after a crash. *)
Context (conf : Configuration) (addr : bytes * bytes → Z) (L : Lsn).
Context (reopens : TimelinePersistentState → W → W → Prop).

Abbreviation SK := (SafeKeeper.t C W).

Record Cluster := MkCluster {
  sks : Z → SK;
  procs : nat → option Proc;
  links : nat * nat * nat → Link;
  infos : list SafekeeperTimelineInfo
}.

Definition set_sk (n : Z) (s : SK) (c : Cluster) : Cluster := MkCluster (upd n s (sks c)) (procs c) (links c) (infos c).
Definition set_proc (p : nat) (pr : Proc) (c : Cluster) : Cluster := MkCluster (sks c) (upd p (Some pr) (procs c)) (links c) (infos c).
Definition set_link (a : nat * nat * nat) (k : Link) (c : Cluster) : Cluster := MkCluster (sks c) (procs c) (upd a k (links c)) (infos c).

(** * Proposers *)

(** A proposer starts: with generations, with slots of different safekeepers, and with
    the basebackup of an empty timeline unless something was committed, which
    proposer [backed] shows. *)
Definition start (p : nat) (cfg : WalProposerConfig) (tenant timeline : bytes) (mine : Term) (backed : nat) (c : Cluster) : option Cluster :=
  match procs c p, WalProposer.WalProposerCreate cfg tenant timeline mine with
  | None, Ok w =>
      let nodes := sk_addr addr <$> WalProposer.safekeeper w in
      let committed := match procs c backed with Some pr => 0 <? WalProposer.commitLsn (pr_wp pr) | None => false end in
      if WalProposer.WalProposerGenerationsEnabled w && bool_decide (NoDup nodes) && ((redo_start_lsn cfg =? L) || committed)
      then Some (MkCluster (sks c) (upd p (Some (MkProc w true nodes)) (procs c))
                   (λ a, if bool_decide (a.1.1 = p) then new_link else links c a) (infos c))
      else None
  | _, _ => None
  end.

(** What can be read: from the connection of the slot. *)
Definition read_inbox (p : nat) (w : WalProposer.t) (e : Entry) (reads : list Fetch) (c : Cluster) : option (list ReadResult) :=
  match entry_slot e with
  | Some i => s ← WalProposer.safekeeper w !! i; Some (fetch (lk_sent (links c (p, i, conn s))) <$> reads)
  | None => Some []
  end.

(** A proposer runs: calls of the environment give [io], reads of the connection of
    the slot give [reads]. *)
Definition run (p : nat) (wal_read : Lsn → Z → bytes) (e : Entry) (io : list ApiResult) (reads : list Fetch) (c : Cluster) : option Cluster :=
  match procs c p with
  | Some (MkProc w true nodes) =>
      inbox ← read_inbox p w e reads c;
      let '(r, w') := enter wal_read e (WalProposer.set_inbox inbox (WalProposer.set_io io w)) in
      Some (set_proc p (MkProc w' (match r with Ok _ => true | _ => false end) nodes) c)
  | _ => None
  end.

(** * Connections at safekeepers *)

(** The proposer and the safekeeper of a connection that is open. *)
Definition at_link (a : nat * nat * nat) (c : Cluster) : option (Proc * Z) :=
  pr ← procs c a.1.1;
  n ← pr_nodes pr !! a.1.2;
  if lk_open (links c a) then Some (pr, n) else None.

Definition task (a : nat * nat * nat) (n : Z) (c : Cluster) : WalAcceptor.t C W := WalAcceptor.Mk (lk_dirty (links c a)) (sks c n).

Definition deliver (a : nat * nat * nat) (hs : HotStandbyFeedback) (c : Cluster) : option Cluster :=
  '(pr, n) ← at_link a c;
  let k := links c a in
  m ← sent_on a.1.2 a.2 (WalProposer.outbox (pr_wp pr)) !! lk_done k;
  if negb (expected_first (lk_done k) m) then Some (set_link a (close k) c)
  else if negb (msg_fits m) then None
  else
    let '(r, t) := WalAcceptor.run_msg (E := E) hs m (task a n c) in
    Some (set_link a (finish r (MkLink (S (lk_done k)) true (WalAcceptor.dirty t) (lk_last k) (lk_sent k))) (set_sk n (WalAcceptor.tli t) c)).

Definition tick (a : nat * nat * nat) (hs : HotStandbyFeedback) (c : Cluster) : option Cluster :=
  '(pr, n) ← at_link a c;
  let k := links c a in
  if lk_dirty k then
    let '(r, t) := WalAcceptor.run_flush (E := E) hs (task a n c) in
    Some (set_link a (finish r (MkLink (lk_done k) true (WalAcceptor.dirty t) (lk_last k) (lk_sent k))) (set_sk n (WalAcceptor.tli t) c))
  else None.

Definition disconnect (a : nat * nat * nat) (hs : HotStandbyFeedback) (c : Cluster) : option Cluster :=
  '(pr, n) ← at_link a c;
  let '(r, t) := WalAcceptor.run_end (E := E) hs (task a n c) in
  Some (set_link a (close (links c a)) (set_sk n (WalAcceptor.tli t) c)).

Definition feedback (a : nat * nat * nat) (fb : PageserverFeedback) (c : Cluster) : option Cluster :=
  _ ← at_link a c;
  Some (set_link a (refresh fb (links c a)) c).

(** * Safekeepers *)

(** A safekeeper tells the others about itself. *)
Definition publish (n : Z) (standby : Lsn) (c : Cluster) : option Cluster :=
  match StateSK.get_safekeeper_info (E := E) standby (StateSK.Loaded (sks c n)) with
  | Ok info => Some (MkCluster (sks c) (procs c) (links c) (info :: infos c))
  | _ => None
  end.

Definition hear (n : Z) (j : nat) (c : Cluster) : option Cluster :=
  info ← infos c !! j;
  match (StateSK.record_safekeeper_info (E := E) info (StateSK.Loaded (sks c n))).2 with
  | StateSK.Loaded sk => Some (set_sk n sk c)
  | _ => None
  end.

(** Requests to a safekeeper: a later term, the configuration, storing the state. *)
Inductive Request := RBump (to : option Term) | RSwitch | RSave.
Definition on_request (r : Request) (self : SK) : SK :=
  match r with
  | RBump to => (SafeKeeper.on_state (E := E) (TimelineState.term_bump to) self).2
  | RSwitch => (SafeKeeper.on_state (E := E) (TimelineState.membership_switch conf) self).2
  | RSave => (SafeKeeper.on_state (E := E) TimelineState.flush self).2
  end.
Definition request (n : Z) (r : Request) (c : Cluster) : Cluster := set_sk n (on_request r (sks c n)) c.

(** The connections of a safekeeper that has crashed. *)
Definition hangs_on (n : Z) (c : Cluster) (a : nat * nat * nat) : bool :=
  match procs c a.1.1 with Some pr => bool_decide (pr_nodes pr !! a.1.2 = Some n) | None => false end.
Definition crash (n : Z) (s : SK) (c : Cluster) : Cluster :=
  MkCluster (upd n s (sks c)) (procs c) (λ a, if hangs_on n c a then close (links c a) else links c a) (infos c).

(** * Steps *)

Inductive Action :=
  | AStart (p : nat) (cfg : WalProposerConfig) (tenant timeline : bytes) (mine : Term) (backed : nat)
  | ARun (p : nat) (wal_read : Lsn → Z → bytes) (e : Entry) (io : list ApiResult) (reads : list Fetch)
  | ADeliver (a : nat * nat * nat) (hs : HotStandbyFeedback)
  | ATick (a : nat * nat * nat) (hs : HotStandbyFeedback)
  | ADisconnect (a : nat * nat * nat) (hs : HotStandbyFeedback)
  | AFeedback (a : nat * nat * nat) (fb : PageserverFeedback)
  | APublish (n : Z) (standby : Lsn)
  | AHear (n : Z) (j : nat)
  | ARequest (n : Z) (r : Request).

Definition act (x : Action) (c : Cluster) : option Cluster :=
  match x with
  | AStart p cfg tenant timeline mine backed => start p cfg tenant timeline mine backed c
  | ARun p wal_read e io reads => run p wal_read e io reads c
  | ADeliver a hs => deliver a hs c
  | ATick a hs => tick a hs c
  | ADisconnect a hs => disconnect a hs c
  | AFeedback a fb => feedback a fb c
  | APublish n standby => publish n standby c
  | AHear n j => hear n j c
  | ARequest n r => Some (request n r c)
  end.

(** A sequence of actions, if each is possible. *)
Fixpoint acts (l : list Action) (c : Cluster) : option Cluster :=
  match l with [] => Some c | x :: l => c ← act x c; acts l c end.

Inductive cstep (c : Cluster) : Cluster → Prop :=
  | cs_act x c' : act x c = Some c' → cstep c c'
  | cs_crash n s : restarted (E := E) reopens (sks c n) s → cstep c (crash n s c).

(** ** The beginning *)

(** A safekeeper on which the timeline was created: without a start, by the first
    proposer that has connected, or with the start. *)
Definition created (inv : W → Prop) (pending : W → bool) (fresh : bool) (n : Z) (self : SK) : Prop :=
  ∃ s ttid c info now (C0 : C) (W0 : W),
    TimelinePersistentState.new ttid c info (if fresh then 0 else L) (if fresh then 0 else L) now = Ok s ∧
    (c = conf ∨ generation c = 0) ∧ wal_seg_size info = WAL_SEGMENT_SIZE ∧ is_Some (PgVersion.try_from (pg_version info)) ∧
    cs_state C0 = s ∧ cs_disk C0 = s ∧ inv W0 ∧ pending W0 = false ∧
    (ws_flush_lsn W0 = 0 ∨ ws_flush_lsn W0 = if fresh then 0 else L) ∧ SafeKeeper.new (E := E) (TimelineState.new C0) W0 n = Ok self.

(** All safekeepers have the timeline; there is no proposer yet. *)
Definition cinit (inv : W → Prop) (pending : W → bool) (fresh : bool) (c : Cluster) : Prop :=
  (∀ n, created inv pending fresh n (sks c n)) ∧ (∀ p, procs c p = None) ∧ infos c = [].
End cluster.
