(* ===== verification/ClusterFacts.v ===== *)
(** The safety of the cluster: every step of [Clusters] is a sequence of steps of the
    abstract protocol of [Consensus], with what proposers, safekeepers and
    connections keep ([ProposerInv], [AcceptorRel]) as the relation. *)

From S2P Require Import Prelude Text Lsns Membership TermHistories Feedbacks WalDecoders SkStates SafeKeepers Timelines SafeKeeperFacts.
From S2P Require Import WalProposers Consensus ProposerInv ProposerElection AcceptorRel Clusters.
From stdpp Require Import gmap.
Local Open Scope Z_scope.

Section cluster.
Context {C W E : Type} `{ControlStorageLaws C} `{WalStoreLaws W E inv} {pending : W → bool} `{!WalLogLaws W E inv pending}.
Context (conf : Configuration) (Hconf : conf_ok conf) (addr : bytes * bytes → Z) (L : Lsn) (fresh : bool) (start_pos : 0 < L < LSN_LIMIT).
Context (reopens : TimelinePersistentState → W → W → Prop) (Hreopen : reopen_laws (inv := inv) (pending := pending) reopens).
#[local] Instance cluster_quorums : Quorum Z := conf_quorums conf Hconf.

Abbreviation G := (World Z nat).
Abbreviation SK := (SafeKeeper.t C W).
Abbreviation CL := (@Cluster C W).
Abbreviation invariant := (Consensus.invariant L fresh).
Abbreviation sk_rel := (AcceptorRel.sk_rel (inv := inv) (pending := pending) conf Hconf L).
Abbreviation cstep := (Clusters.cstep (E := E) conf addr L reopens).

(** * Steps of the abstract protocol *)

Lemma start_above : 0 < L.
Proof using start_pos. lia. Qed.

Lemma steps_mono (g g' : G) : rtc (step L) g g' → votes g ⊆ votes g' ∧ elected g ⊆ elected g' ∧ acks g ⊆ acks g'.
Proof.
  induction 1 as [|g1 g2 g3 Hs _ (V & El & K)]; [done|].
  assert (votes g1 ⊆ votes g2 ∧ elected g1 ⊆ elected g2 ∧ acks g1 ⊆ acks g2) as (? & ? & ?) by (destruct Hs; cbn; set_solver).
  split_and!; by etrans.
Qed.

Lemma steps_invariant (g g' : G) : rtc (step L) g g' → invariant g → invariant g'.
Proof. induction 1 as [|g1 g2 g3 Hs _ IH]; [done|]. intros Hg. apply IH. apply (step_invariant L fresh start_above g1); done. Qed.

Lemma steps_follow n (g g' : G) e :
  rtc (step L) g g' → invariant g → e ∈ elected g → follows n g e → follows n g' e.
Proof.
  induction 1 as [|g1 g2 g3 Hs _ IH]; [done|]. intros Hg He Hf.
  destruct (follows_step conf Hconf L fresh n g1 g2 e Hg He Hs Hf) as [Hf' He'].
  apply IH; [by apply (step_invariant L fresh start_above g1)|done|done].
Qed.

(** ** The basebackup *)

(** Something was committed before any vote for the proposer. *)
Definition backed (g : G) (p : nat) : Prop :=
  ∃ e c Q, e ∈ elected g ∧ (∃ s, last (l_hist e) = Some s ∧ lsn s ≤ c) ∧ quorum Q ∧
    (∀ a, a ∈ Q → ∃ k, k ∈ acks g ∧ k_acc k = a ∧ k_term k = l_term e ∧ c ≤ k_lsn k) ∧
    ∀ v, v ∈ votes g → v_prop v = p → v_acc v ∈ Q → l_term e < v_term v.

Lemma backed_step g g' p : invariant g → step L g g' → backed g p → backed g' p.
Proof.
  intros Hg Hs (e & c & Q & He & Hl & HQ & Hk & Hv). destruct (steps_mono g g' (rtc_once _ _ Hs)) as (_ & El & K).
  exists e, c, Q. split_and!; [by apply El|done|done| |].
  { intros a Ha. destruct (Hk a Ha) as (k & Hk1 & Hk2). exists k. split; [by apply K|done]. }
  destruct Hs; cbn; try done. intros v [->|Hin]%elem_of_cons Ep Ha; [|by apply Hv]. cbn in *.
  destruct (Hk a Ha) as (k & Hk1 & <- & Et & _). destruct (i_ack _ _ _ Hg k Hk1) as [Hle _]. lia.
Qed.
Lemma backed_steps g g' p : rtc (step L) g g' → invariant g → backed g p → backed g' p.
Proof.
  induction 1 as [|g1 g2 g3 Hs _ IH]; [done|]. intros Hg Hb. apply IH; [by apply (step_invariant L fresh start_above g1)|by eapply backed_step].
Qed.

(** A quorum of empty logs cannot have voted then. *)
Lemma backed_redo g p redo : invariant g → backed g p → redo_ok conf p L g redo.
Proof.
  intros Hg (e & c & Q & He & (s & Es & Hs) & HQ & Hk & Hv) Q' t HQ' Hvotes.
  destruct (quorum_meet Q Q' HQ HQ') as (a & Ha & Ha'). destruct (Hvotes a Ha') as (v & Hin & Ea & Ep & _ & Hf).
  destruct (Hk a Ha) as (k & Hk1 & Ek & Et & Hc). assert (l_term e < v_term v) as Hlt by (apply Hv; [done|done|by rewrite Ea]).
  destruct (i_ack_vote _ _ _ Hg k v Hk1 Hin ltac:(congruence) ltac:(lia) e s c) as [_ Hcf]; [done|done|done|lia| |].
  - intros e' He' Hle. apply (leader_completeness L fresh start_above g e c e' Hg); [|done|lia]. split_and!; [done|by exists s|]. exists Q. by split.
  - destruct (leader_hist L fresh start_above g e s Hg He Es) as (_ & _ & _ & Hpos). lia.
Qed.

(** * What holds of a cluster *)

Abbreviation wp_out := (ProposerInv.wp_out conf Hconf).
Abbreviation wp_inv := (ProposerInv.wp_inv conf Hconf addr).
Abbreviation reply_ok := (ProposerInv.reply_ok conf).
Import WalProposer.

Record proc_ok (g : G) (p : nat) (pr : Proc) : Prop := {
  po_nodes : NoDup (pr_nodes pr);
  po_out : wp_out p (pr_wp pr) g (pr_wp pr);
  po_inv n : pr_alive pr = true → wp_inv p (pr_nodes pr) g n (set_inbox [] (pr_wp pr));
  po_redo : redo_start_lsn (config (pr_wp pr)) = L ∨ backed g p
}.

(** The safekeeper of a connection has heard the announcement of the leader. *)
Definition heard (g : G) (p : nat) (n : Z) : Prop :=
  ∃ e, e ∈ elected g ∧ l_prop e = p ∧ follows n g e.

Record link_ok (g : G) (p : nat) (w : WalProposer.t) (n : Z) (i c : nat) (k : Link) : Prop := {
  lo_done : (lk_done k ≤ length (sent_on i c (outbox w)))%nat;
  lo_sent m : m ∈ lk_sent k → reply_ok p g w n m;
  lo_last r : lk_last k = Some r → reply_ok p g w n (AAppendResponse r);
  lo_heard : lk_open k = true → existsb is_elected (take (lk_done k) (sent_on i c (outbox w))) = true → heard g p n;
  lo_dirty : lk_open k = true → lk_dirty k = true → existsb is_elected (take (lk_done k) (sent_on i c (outbox w))) = true
}.

Record cluster_ok (g : G) (c : CL) : Prop := {
  co_world : invariant g;
  co_sks n : sk_rel n g (sks c n);
  co_procs p pr : procs c p = Some pr → proc_ok g p pr;
  co_links p pr i d n : procs c p = Some pr → pr_nodes pr !! i = Some n → link_ok g p (pr_wp pr) n i d (links c (p, i, d));
  co_votes v : v ∈ votes g → procs c (v_prop v) ≠ None;
  co_leaders e : e ∈ elected g → procs c (l_prop e) ≠ None;
  co_infos info : info ∈ infos c → info_ok conf Hconf L fresh g info
}.

(** ** Growing worlds *)

Lemma rel_mono n g g' self :
  accs g' n = accs g n → elected g ⊆ elected g' → acks g ⊆ acks g' → sk_rel n g self → sk_rel n g' self.
Proof.
  intros Ea El K [Hn [R1 R2 R3 R4 R5 R6 R7 R8 R9 R10]]. split; [done|]. split; try done.
  - by rewrite Ea.
  - intros Hp. destruct (R6 Hp) as (e & He & ?). exists e. split; [by apply El|done].
  - by apply (log_committed_mono conf Hconf L g).
  - destruct R10 as [?|(e & He & R)]; [by left|right]. exists e. split; [by apply El|]. by rewrite Ea.
Qed.

Lemma committed_lsn_mono p g g' t c :
  elected g ⊆ elected g' → acks g ⊆ acks g' → committed_lsn conf Hconf p g t c → committed_lsn conf Hconf p g' t c.
Proof.
  intros El K [?|(Hp & th & Hc)]; [by left|right]. split; [done|]. exists th. by apply (committed_mono conf Hconf g).
Qed.

Lemma reply_mono p g g' w n m : votes g ⊆ votes g' → acks g ⊆ acks g' → reply_ok p g w n m → reply_ok p g' w n m.
Proof.
  intros V K. destruct m as [r|v|a]; cbn; [done| |].
  - intros Hv Hg. destruct (Hv Hg) as [? ?]. split; [done|]. by apply V.
  - intros [? Ha]. split; [done|]. destruct Ha as [?|[?|?]]; [by left|right; by left|right; right; by apply K].
Qed.

Lemma out_mono p w0 g g' w :
  elected g ⊆ elected g' → acks g ⊆ acks g' → (∀ e, e ∈ elected g' → l_prop e = p → e ∈ elected g) →
  wp_out p w0 g w → wp_out p w0 g' w.
Proof.
  intros El K Hp [O1 O2 O3 O4 O5]. split; [by apply (committed_lsn_mono p g)| |done|auto|done].
  intros x Hx. destruct (O2 x Hx) as [Ho ?]. split; [|done]. destruct x.2 as [r|v|e|a|a|]; cbn in *; try done.
  - destruct Ho as (? & ? & ?). split_and!; [done..|]. by apply El.
  - destruct Ho as (? & ? & ?). split_and!; [done..|]. by apply (committed_lsn_mono p g).
Qed.

Lemma inv_mono p nodes g g' n w :
  votes g ⊆ votes g' → elected g ⊆ elected g' → acks g ⊆ acks g' → wp_inv p nodes g n w → wp_inv p nodes g' n w.
Proof.
  intros V El K [I1 I2 I3 I4 I5 I6 I7 I8 I9 I10 I11 I12]. split; try done.
  - intros m Hm. by apply (reply_mono p g), I5.
  - intros i s Hs. destruct (I8 i s Hs) as (K1 & K2 & K3 & K4 & K5 & K6). split_and!; try done.
    + intros Hst. destruct (K3 Hst) as [? Hw]. split; [done|]. intros Hwe. destruct (Hw Hwe) as [? ?]. split; [done|]. by apply V.
    + destruct K4 as [?|[? ?]]; [by left|right]. split; [done|]. by apply K.
    + intros Ha. destruct (K6 Ha) as (? & ? & ? & ?). split; [done|]. split_and!; [done..|]. by apply (committed_lsn_mono p g).
  - intros i Hst Hd. destruct (I10 i Hst Hd) as (? & s & ? & ? & ?). split; [done|]. exists s. split_and!; [done| |done]. by apply V.
  - intros Hst. destruct (I12 Hst) as (? & ?). split; [by apply El|done].
Qed.

Lemma proc_grow g g' p pr :
  rtc (step L) g g' → invariant g → (∀ e, e ∈ elected g' → l_prop e = p → e ∈ elected g) → proc_ok g p pr → proc_ok g' p pr.
Proof.
  intros Hs Hg Hp [P1 P2 P3 P4]. destruct (steps_mono g g' Hs) as (V & El & K). split; [done|..].
  - by apply (out_mono p _ g).
  - intros n Ha. by apply (inv_mono p _ g), P3.
  - destruct P4 as [?|?]; [by left|right]. by apply (backed_steps g).
Qed.

Lemma link_grow g g' p w n i d k :
  rtc (step L) g g' → invariant g → link_ok g p w n i d k → link_ok g' p w n i d k.
Proof.
  intros Hs Hg [K0 K1 K2 K3 K4]. destruct (steps_mono g g' Hs) as (V & El & K). split; [done|..].
  - intros m Hm. by apply (reply_mono p g), K1.
  - intros r Hr. by apply (reply_mono p g), K2.
  - intros Ho He. destruct (K3 Ho He) as (e & He' & Ep & Hf). exists e. split_and!; [by apply El|done|by apply (steps_follow n g)].
  - done.
Qed.

Lemma info_grow g g' info : rtc (step L) g g' → info_ok conf Hconf L fresh g info → info_ok conf Hconf L fresh g' info.
Proof.
  intros Hs. destruct (steps_mono g g' Hs) as (_ & El & K). intros [?|(e & c & lg & Hc & ? & Hk & H4)]; [by left|right].
  exists e, c, lg. split_and!; [by apply (committed_mono conf Hconf g)|done| |apply H4..]. destruct Hk as [?|(e' & ? & ?)]; [by left|right].
  exists e'. split; [by apply El|done].
Qed.

(** ** Later states of a proposer *)

Lemma reply_since p g w w' n m : since w w' → reply_ok p g w n m → reply_ok p g w' n m.
Proof.
  intros (_ & _ & S3 & S4). destruct m as [r|v|a]; cbn; [done| |].
  - intros Hv Hg. destruct (Hv Hg) as [Hst ?]. destruct (S3 Hst) as [? ->]. done.
  - intros [Hst ?]. destruct S3 as [_ ->]; [by rewrite Hst|]. split; [by apply S4|done].
Qed.

Lemma sent_on_prefix i d out out' : out `prefix_of` out' → sent_on i d out `prefix_of` sent_on i d out'.
Proof. intros [r ->]. unfold sent_on. rewrite omap_app. by eexists. Qed.

Lemma link_since g p w w' n i d k :
  since w w' → link_ok g p w n i d k → link_ok g p w' n i d k.
Proof.
  intros Hs [K0 K1 K2 K3 K4]. pose proof Hs as (_ & Hpre & _). destruct (sent_on_prefix i d _ _ Hpre) as [r Er].
  split; rewrite ?Er, ?length_app, ?take_app_le by done.
  - lia.
  - intros m Hm. by apply (reply_since p g w), K1.
  - intros m Hm. by apply (reply_since p g w), K2.
  - intros Ho He. exact (K3 Ho He).
  - done.
Qed.

(** * Steps of safekeepers *)

Lemma sk_step g g' c n q s :
  cluster_ok g c → ext conf Hconf L n q g g' → (∀ p, q = Some p → procs c p ≠ None) → sk_rel n g' s → cluster_ok g' (set_sk n s c).
Proof.
  intros [C1 C2 C3 C4 C5 C6 C7] He Hq Hs. pose proof He as (Hst & El & Ha & [V V'] & K). split; cbn.
  - by apply (steps_invariant g).
  - intros m. unfold upd. case_decide as Em; [by subst|]. apply (rel_mono m g); [by apply Ha|by rewrite El|done|done].
  - intros p pr Hp. apply (proc_grow g g' p pr Hst C1); [by rewrite El|by apply C3].
  - intros p pr i d m Hp Hm. apply (link_grow g g'); [done..|]. by apply C4.
  - intros v [Hv|Hv]%V'; [by apply C5|by apply Hq].
  - rewrite El. done.
  - intros info Hi. apply (info_grow g g'); auto.
Qed.

Lemma set_link_ok g c a k :
  cluster_ok g c →
  (∀ pr n, procs c a.1.1 = Some pr → pr_nodes pr !! a.1.2 = Some n → link_ok g a.1.1 (pr_wp pr) n a.1.2 a.2 k) →
  cluster_ok g (set_link a k c).
Proof.
  intros [C1 C2 C3 C4 C5 C6 C7] Hk. split; cbn; [done..| |done|done|done]. intros p pr i d n Hp Hn. unfold upd.
  case_decide as E'; [|by apply C4]. subst a. by apply Hk.
Qed.

Lemma at_link_spec a (c : CL) pr n : at_link a c = Some (pr, n) →
  procs c a.1.1 = Some pr ∧ pr_nodes pr !! a.1.2 = Some n ∧ lk_open (links c a) = true.
Proof.
  unfold at_link. destruct (procs c a.1.1) as [pr'|]; [|done]. cbn. destruct (pr_nodes pr' !! a.1.2) as [n'|] eqn:En; [|done]. cbn.
  destruct (lk_open (links c a)); [|done]. by intros [= -> ->].
Qed.

(** A step of a safekeeper on behalf of a connection, with what is left of it. *)
Lemma link_step g g' c a pr n k s :
  cluster_ok g c → at_link a c = Some (pr, n) → ext conf Hconf L n (Some a.1.1) g g' → sk_rel n g' s →
  link_ok g' a.1.1 (pr_wp pr) n a.1.2 a.2 k → cluster_ok g' (set_link a k (set_sk n s c)).
Proof.
  intros Hc Ha He Hs Hk. destruct (at_link_spec a c pr n Ha) as (Hp & Hn & _).
  apply set_link_ok; [apply (sk_step g g' c n (Some a.1.1)); [done..| |done]; intros p [= <-]; by rewrite Hp|].
  cbn. intros pr' n' Hp' Hn'. by simplify_eq.
Qed.

(** ** Connections *)

Lemma close_ok g p w n i d k : link_ok g p w n i d k → link_ok g p w n i d (close k).
Proof. intros [K0 K1 K2 K3 K4]. by split. Qed.

Lemma finish_ok {X} g p w n i d k (r : result X (option AcceptorProposerMessage)) :
  link_ok g p w n i d k → (∀ m, r = Ok (Some m) → reply_ok p g w n m) → link_ok g p w n i d (finish r k).
Proof.
  intros Hk Hr. destruct r as [[m|]|e|]; cbn; [|done|by apply close_ok..]. specialize (Hr m eq_refl). destruct Hk as [K0 K1 K2 K3 K4].
  split; cbn; [done| | |done|done].
  - intros m' [?| ->%list_elem_of_singleton]%elem_of_app; [by apply K1|done].
  - intros r. destruct m; [by apply K2..|]. by intros [= ->].
Qed.

Lemma refresh_ok g p w n i d k fb : link_ok g p w n i d k → link_ok g p w n i d (refresh fb k).
Proof.
  intros Hk. unfold refresh, NetworkWrite.on_feedback. pose proof Hk as [K0 K1 K2 K3 K4]. destruct (lk_last k) as [r|]; cbn; [|done].
  split; cbn; [done| |done|done|done]. intros m [?| ->%list_elem_of_singleton]%elem_of_app; [by apply K1|].
  destruct (K2 r eq_refl) as [? ?]. by split.
Qed.

(** What the tasks of a connection run. *)
Lemma gwp_process hs msg n q g self Φ :
  gwp (E := E) conf Hconf L n q (SafeKeeper.process_msg msg) (λ g' r self', Φ g' (match r with Ok o => Ok (fill_hs hs o) | Err e => Err e | Panic => Panic end) self') g self →
  gwp conf Hconf L n q (WalAcceptor.process_msg hs msg) Φ g self.
Proof.
  intros (g' & He & HΦ). exists g'. split; [done|]. unfold WalAcceptor.process_msg, mbind, M_bind.
  by destruct (SafeKeeper.process_msg msg self) as [[o|e|] self'].
Qed.

(** An acknowledgement, as the proposer of the connection sees it. *)
Lemma ack_reply p w0 g w n e hs o m :
  wp_out p w0 g w → e ∈ elected g → l_prop e = p → ack_ok n g e o → fill_hs hs o = Some m → reply_ok p g w n m.
Proof.
  intros Ho He Ep Ha Hm. destruct (wo_leader _ _ _ _ _ _ Ho e He Ep) as [Hst Et].
  destruct o as [[?|?|r]|]; try done. cbn in *. injection Hm as <-. cbn. split; [done|]. rewrite <-Et. destruct Ha; [by left|by right; right].
Qed.

Definition unflushed (m : ProposerAcceptorMessage) : ProposerAcceptorMessage :=
  match m with AppendRequestMsg m => NoFlushAppendRequest m | m => m end.

Lemma run_msg_eq hs m (t : WalAcceptor.t C W) :
  WalAcceptor.run_msg (E := E) hs m t =
    let '(r, sk) := WalAcceptor.process_msg hs (unflushed m) (WalAcceptor.tli t) in (r, WalAcceptor.Mk (is_append m || WalAcceptor.dirty t) sk).
Proof. by destruct m. Qed.

Lemma run_flush_eq hs (t : WalAcceptor.t C W) :
  WalAcceptor.run_flush (E := E) hs t =
    let '(r, sk) := WalAcceptor.process_msg hs FlushWAL (WalAcceptor.tli t) in (r, WalAcceptor.Mk false sk).
Proof. done. Qed.
Lemma run_end_tli hs (t : WalAcceptor.t C W) :
  WalAcceptor.tli (WalAcceptor.run_end (E := E) hs t).2 =
    if WalAcceptor.dirty t then (WalAcceptor.process_msg (E := E) hs FlushWAL (WalAcceptor.tli t)).2 else WalAcceptor.tli t.
Proof.
  unfold WalAcceptor.run_end, WalAcceptor.on_tli, getS, whenM, mbind, M_bind. destruct (WalAcceptor.dirty t); [|done].
  by destruct (WalAcceptor.process_msg hs FlushWAL (WalAcceptor.tli t)) as [[] ?].
Qed.

Lemma msg_fits_ok m : msg_fits m = true → msg_ok m.
Proof.
  destruct m as [?|?|m|m|m|]; cbn; try done; try lia. rewrite !andb_true_iff. intros [[? ?] Hh]. split; [lia|]. intros s Es. rewrite Es in Hh. lia.
Qed.

(** A message that a proposer has sent, at the safekeeper. *)
Lemma handle_msg g p w n i d k m hs self :
  invariant g → sk_rel n g self → wp_out p w g w → link_ok g p w n i d k → lk_open k = true →
  sent_on i d (outbox w) !! lk_done k = Some m → msg_fits m = true →
  gwp (E := E) conf Hconf L n (Some p) (WalAcceptor.process_msg hs (unflushed m)) (λ g' r self', sk_rel n g' self' ∧
    (∀ o, r = Ok (Some o) → reply_ok p g' w n o) ∧ (∀ o, r = Ok o → is_elected m = true → heard g' p n)) g self.
Proof.
  intros Hg Hs Ho Hk Hop Hm Hfit. pose proof (msg_fits_ok m Hfit) as Hmsg.
  assert (out_ok conf Hconf p g (propTerm w) m ∧ (state w = WPS_COLLECTING_TERMS → ∃ r, m = Greeting r)) as [Hout Hcol].
  { apply (wo_out _ _ _ _ _ _ Ho (i, d, m)), elem_sent, list_elem_of_lookup. by eexists. }
  apply gwp_process. destruct m as [r|v|e|a|a|]; cbn in Hout; try done; cbn [unflushed SafeKeeper.process_msg].
  - eapply gwp_mono; [by apply gwp_greeting; [apply start_above|..]|]. intros g' [[[?|?|?]|]|?|] self' _ [Hs' Hr]; split_and!; try done.
    intros o [= <-]. exact Hr.
  - subst v. eapply gwp_mono; [by apply (gwp_vote (inv := inv) (pending := pending) conf Hconf L start_above n (Some p) g self _ p)|].
    intros g' [[[?|v|?]|]|?|] self' _ [Hs' Hr]; split_and!; try done. intros o [= <-] Hgiven. split; [|by apply Hr].
    intros Est. by destruct (Hcol Est).
  - destruct Hout as (_ & Et & Hl). eapply gwp_mono; [by apply (gwp_elected (inv := inv) (pending := pending) conf Hconf L fresh start_above n (Some p) g self e (MkLeader p (propTerm w) (pe_term_history e)))|].
    intros g' r self' He [Hs' Hr]. split; [done|]. destruct r as [o|?|]; [|done..]. destruct Hr as [-> Hf]. split; [done|].
    intros _ _ _. eexists. split_and!; [by rewrite (ext_elected _ _ _ _ _ _ _ He)|done|done].
  - assert (existsb is_elected (take (lk_done k) (sent_on i d (outbox w))) = true) as Hel by by eapply (wo_order _ _ _ _ _ _ Ho).
    destruct (lo_heard _ _ _ _ _ _ _ Hk Hop Hel) as (e & He & Ep & Hf). destruct (wo_leader _ _ _ _ _ _ Ho e He Ep) as [Hst Et].
    destruct Hout as (_ & Eat & Hcom).
    assert (ar_commit_lsn (h a) = 0 ∨ committed g e (ar_commit_lsn (h a))) as Hcom'.
    { destruct Hcom as [?|(_ & th & Hc)]; [by left|right]. destruct (i_leader_once _ _ _ Hg (MkLeader p (propTerm w) th) e); [by destruct Hc|done|done|done]. }
    eapply gwp_mono; [apply (gwp_append (inv := inv) (pending := pending) conf Hconf L fresh start_above n (Some p) g self a false e); [done..|congruence|done|done]|].
    intros g' r self' Hext [Hs' Hr]. split; [done|]. split; [|done]. intros o Eo. destruct r as [o'|?|]; [|done..]. injection Eo as Eo.
    destruct Hext as (Hst' & El & _ & _ & K).
    apply (ack_reply p w g' w n e hs o' o); [|by rewrite El|done|done|done]. apply (out_mono p w g); [by rewrite El|done|by rewrite El|done].
Qed.

(** What a step leads to. *)
Definition leads_to (g : G) (c : CL) : Prop := ∃ g', rtc (step L) g g' ∧ cluster_ok g' c.

Lemma stays g c : cluster_ok g c → leads_to g c.
Proof. intros Hc. by exists g. Qed.

Lemma took_ok g g' p w n i d k m (dirty : bool) :
  rtc (step L) g g' → invariant g → link_ok g p w n i d k → lk_open k = true → sent_on i d (outbox w) !! lk_done k = Some m →
  elected_first (sent_on i d (outbox w)) → (is_elected m = true → heard g' p n) → dirty = is_append m || lk_dirty k →
  link_ok g' p w n i d (MkLink (S (lk_done k)) true dirty (lk_last k) (lk_sent k)).
Proof.
  intros Hst Hg Hk Hop Hm Hord Hh ->. destruct (link_grow g g' p w n i d k Hst Hg Hk) as [K0 K1 K2 K3 K4].
  split; cbn; [by apply lookup_lt_Some in Hm|done|done|..]; intros _; rewrite (take_S_r _ _ _ Hm), existsb_app; cbn; rewrite orb_false_r.
  - intros [He|He]%orb_true_iff; [by apply K3|by apply Hh].
  - intros [Ha|Hd]%orb_true_iff; apply orb_true_iff; left; [by apply (Hord _ m)|by apply K4].
Qed.

Lemma deliver_step g c a hs c' : cluster_ok g c → deliver (E := E) a hs c = Some c' → leads_to g c'.
Proof.
  intros Hc. unfold deliver. destruct (at_link a c) as [[pr n]|] eqn:Ha; [|done]. cbn.
  destruct (sent_on a.1.2 a.2 (outbox (pr_wp pr)) !! lk_done (links c a)) as [m|] eqn:Hm; [|done]. cbn.
  destruct (at_link_spec a c pr n Ha) as (Hp & Hn & Hop). destruct a as [[p i] d]. cbn in *.
  pose proof (co_links _ _ Hc p pr i d n Hp Hn) as Hk. pose proof (co_procs _ _ Hc p pr Hp) as Hpr.
  destruct (negb (expected_first _ m)).
  { intros [= <-]. apply stays, set_link_ok; [done|]. cbn. intros pr' n' Hp' Hn'. simplify_eq. by apply close_ok. }
  destruct (msg_fits m) eqn:Hfit; cbn; [|done]. rewrite run_msg_eq. cbn.
  destruct (handle_msg g p (pr_wp pr) n i d (links c (p, i, d)) m hs (sks c n) (co_world _ _ Hc) (co_sks _ _ Hc n)
    (po_out _ _ _ Hpr) Hk Hop Hm Hfit) as (g' & He & Hs' & Hr & Hh).
  destruct (WalAcceptor.process_msg hs (unflushed m) (sks c n)) as [r sk]. cbn in *. intros [= <-].
  pose proof He as (Hst & _). exists g'. split; [done|]. apply (link_step g g' c (p, i, d) pr n); [done..|]. cbn.
  destruct r as [o|e|].
  1: { apply finish_ok; [|done]. eapply (took_ok g g'); try done; [apply Hc|apply (wo_order _ _ _ _ _ _ (po_out _ _ _ Hpr))|]. by apply (Hh o). }
  all: destruct (link_grow g g' p (pr_wp pr) n i d _ Hst (co_world _ _ Hc) Hk) as [K0 K1 K2 K3 K4]; split; cbn; try done; by apply lookup_lt_Some in Hm.
Qed.

(** Flushing what is dirty. *)
Lemma flush_link g p w n i d k hs self :
  invariant g → sk_rel n g self → wp_out p w g w → link_ok g p w n i d k → lk_open k = true → lk_dirty k = true →
  gwp (E := E) conf Hconf L n (Some p) (WalAcceptor.process_msg hs FlushWAL) (λ g' r self', sk_rel n g' self' ∧
    (∀ o, r = Ok (Some o) → reply_ok p g' w n o)) g self.
Proof.
  intros Hg Hs Ho Hk Hop Hd. destruct (lo_heard _ _ _ _ _ _ _ Hk Hop (lo_dirty _ _ _ _ _ _ _ Hk Hop Hd)) as (e & He & Ep & Hf).
  apply gwp_process. cbn [SafeKeeper.process_msg]. eapply gwp_mono; [by apply (gwp_handle_flush (inv := inv) (pending := pending) conf Hconf L fresh start_above n (Some p) g self e)|].
  intros g' r self' Hext [Hs' Hr]. split; [done|]. intros o Eo. destruct r as [o'|?|]; [|done..]. injection Eo as Eo.
  destruct Hext as (Hst' & El & _ & _ & K).
  apply (ack_reply p w g' w n e hs o' o); [|by rewrite El|done|done|done]. apply (out_mono p w g); [by rewrite El|done|by rewrite El|done].
Qed.

Lemma tick_step g c a hs c' : cluster_ok g c → tick (E := E) a hs c = Some c' → leads_to g c'.
Proof.
  intros Hc. unfold tick. destruct (at_link a c) as [[pr n]|] eqn:Ha; [|done]. cbn.
  destruct (at_link_spec a c pr n Ha) as (Hp & Hn & Hop). destruct a as [[p i] d]. cbn in *.
  pose proof (co_links _ _ Hc p pr i d n Hp Hn) as Hk. destruct (lk_dirty (links c (p, i, d))) eqn:Hd; [|done].
  destruct (flush_link g p (pr_wp pr) n i d (links c (p, i, d)) hs (sks c n) (co_world _ _ Hc) (co_sks _ _ Hc n)
    (po_out _ _ _ (co_procs _ _ Hc p pr Hp)) Hk Hop Hd) as (g' & He & Hs' & Hr).
  rewrite run_flush_eq. unfold task, WalAcceptor.tli at 1.
  destruct (WalAcceptor.process_msg hs FlushWAL (sks c n)) as [r sk]. cbn in *. intros [= <-].
  pose proof He as (Hst & _). exists g'. split; [done|]. apply (link_step g g' c (p, i, d) pr n); [done..|]. cbn.
  apply finish_ok; [|done]. destruct (link_grow g g' p (pr_wp pr) n i d _ Hst (co_world _ _ Hc) Hk) as [K0 K1 K2 K3 K4].
  split; cbn; try done. intros _. by apply K3.
Qed.

Lemma disconnect_step g c a hs c' : cluster_ok g c → disconnect (E := E) a hs c = Some c' → leads_to g c'.
Proof.
  intros Hc. unfold disconnect. destruct (at_link a c) as [[pr n]|] eqn:Ha; [|done]. cbn.
  destruct (at_link_spec a c pr n Ha) as (Hp & Hn & Hop). destruct a as [[p i] d]. cbn in *.
  pose proof (co_links _ _ Hc p pr i d n Hp Hn) as Hk.
  pose proof (run_end_tli hs (task (p, i, d) n c)) as Et. destruct (WalAcceptor.run_end hs (task (p, i, d) n c)) as [r t].
  cbn in Et. rewrite Et. clear Et. intros [= <-].
  destruct (lk_dirty (links c (p, i, d))) eqn:Hd.
  - destruct (flush_link g p (pr_wp pr) n i d (links c (p, i, d)) hs (sks c n) (co_world _ _ Hc) (co_sks _ _ Hc n)
      (po_out _ _ _ (co_procs _ _ Hc p pr Hp)) Hk Hop Hd) as (g' & He & Hs' & Hr).
    pose proof He as (Hst & _). exists g'. split; [done|].
    apply (link_step g g' c (p, i, d) pr n); [done..|]. apply close_ok, (link_grow g g'); [done|apply Hc|done].
  - apply stays. apply (link_step g g c (p, i, d) pr n); [done|done|apply ext_refl|apply Hc|]. by apply close_ok.
Qed.

Lemma feedback_step g c a fb c' : cluster_ok g c → feedback a fb c = Some c' → leads_to g c'.
Proof.
  intros Hc. unfold feedback. destruct (at_link a c) as [[pr n]|] eqn:Ha; [|done]. cbn. intros [= <-].
  destruct (at_link_spec a c pr n Ha) as (Hp & Hn & _). apply stays, set_link_ok; [done|]. intros pr' n' Hp' Hn'. simplify_eq.
  destruct a as [[p i] d]. by apply refresh_ok, (co_links _ _ Hc).
Qed.

(** ** Without a connection *)

Lemma alone_step {A} g c n (m : M SK (SkError E) A) :
  cluster_ok g c → gwp conf Hconf L n None m (λ g' _ s, sk_rel n g' s) g (sks c n) → leads_to g (set_sk n (m (sks c n)).2 c).
Proof. intros Hc (g' & He & Hs). pose proof He as (Hst & _). exists g'. split; [done|]. by apply (sk_step g g' c n None). Qed.

Lemma publish_step g c n standby c' : cluster_ok g c → publish (E := E) n standby c = Some c' → leads_to g c'.
Proof.
  intros Hc. unfold publish. destruct (StateSK.get_safekeeper_info standby (StateSK.Loaded (sks c n))) as [info| |] eqn:Ei; [|done..].
  intros [= <-]. pose proof Hc as [C1 C2 C3 C4 C5 C6 C7]. apply stays. split; try done. cbn. intros x [->|Hi]%elem_of_cons; [|by apply C7].
  apply (own_info_ok (inv := inv) (pending := pending) conf Hconf L fresh start_above n g (sks c n) standby info C1 (C2 n) Ei).
Qed.

Lemma hear_step g c n j c' : cluster_ok g c → hear (E := E) n j c = Some c' → leads_to g c'.
Proof.
  intros Hc. unfold hear. destruct (infos c !! j) as [info|] eqn:Ei; [|done]. cbn. rewrite record_loaded_eq.
  assert (leads_to g (set_sk n (record_loaded (E := E) info (sks c n)).2 c)) as Hl.
  { apply alone_step; [done|]. apply (gwp_record (inv := inv) (pending := pending) conf Hconf L fresh start_above n None g (sks c n) info (co_world _ _ Hc) (co_sks _ _ Hc n)).
    apply (co_infos _ _ Hc), list_elem_of_lookup. by eexists. }
  destruct (record_loaded info (sks c n)) as [r self']. cbn in *. by intros [= <-].
Qed.

Lemma request_step g c n r : cluster_ok g c → leads_to g (request (E := E) conf n r c).
Proof.
  intros Hc. pose proof (co_sks _ _ Hc n) as Hs. destruct r; cbn; unfold request, on_request; apply alone_step; try done.
  - by apply gwp_term_bump; [apply start_above|].
  - apply gwp_switch; [done|by left].
  - by apply gwp_save.
Qed.

Lemma crash_step g c n s : cluster_ok g c → restarted (E := E) reopens (sks c n) s → leads_to g (crash n s c).
Proof.
  intros Hc Hr. destruct (rel_restart (inv := inv) (pending := pending) conf Hconf L start_above n None reopens Hreopen g (sks c n) s (co_sks _ _ Hc n) Hr) as (g' & He & Hs).
  pose proof He as (Hst & _). exists g'. split; [done|]. destruct (sk_step g g' c n None s) as [C1 C2 C3 C4 C5 C6 C7]; [done..|].
  split; try done. cbn. intros p pr i d m Hp Hm. destruct (hangs_on n c (p, i, d)); [|by apply C4]. by apply close_ok, C4.
Qed.

(** * Steps of proposers *)

Lemma create_spec cfg tenant timeline mine w :
  WalProposerCreate cfg tenant timeline mine = Ok w →
  config w = cfg ∧ state w = WPS_COLLECTING_TERMS ∧ commitLsn w = 0 ∧ outbox w = [] ∧ inbox w = [] ∧ donor w = None ∧
  generation (wp_mconf w) = 0 ∧ generation (pg_mconf (greetRequest w)) = 0 ∧
  members_safekeepers w = replicate MAX_SAFEKEEPERS None ∧ new_members_safekeepers w = replicate MAX_SAFEKEEPERS None ∧
  ∃ hosts, safekeeper w = new_slot <$> hosts.
Proof.
  unfold WalProposerCreate. destruct (parse_safekeepers_list (safekeepers_list cfg)) as [[gen hosts]|e|]; [|done..]. cbn [mbind result_bind].
  destruct (length hosts <? 1)%nat; [done|]. do 2 (case_match; [done|]). intros [= <-].
  split_and!; try done. by exists hosts.
Qed.

Lemma created_proc g p cfg tenant timeline mine w :
  WalProposerCreate cfg tenant timeline mine = Ok w → WalProposerGenerationsEnabled w = true → NoDup (sk_addr addr <$> safekeeper w) →
  (∀ e, e ∈ elected g → l_prop e ≠ p) → redo_start_lsn cfg = L ∨ backed g p →
  proc_ok g p (MkProc w true (sk_addr addr <$> safekeeper w)).
Proof.
  intros Ec Hgen Hnd Hne Hr. destruct (create_spec _ _ _ _ _ Ec) as (E1 & E2 & E3 & E4 & E5 & E6 & E7 & E8 & E9 & E10 & hosts & E11).
  assert (∀ mset, ptrs_ok addr (safekeeper w) mset (replicate MAX_SAFEKEEPERS None)) as Hptr.
  { intros mset k i Hk. apply lookup_replicate in Hk as [Hk _]. done. }
  split; cbn; [done|split|intros n _; split; cbn|by rewrite E1]; rewrite ?E2, ?E9, ?E10; try done.
  - left. done.
  - rewrite E4. by intros x ?%elem_of_nil.
  - intros i c. rewrite E4. by intros k m Hk.
  - intros e He Ep. by destruct (Hne e).
  - by right.
  - by intros m ?%elem_of_nil.
  - intros i s Hs. cbn in Hs. rewrite E11, list_lookup_fmap, fmap_Some in Hs. destruct Hs as (hp & _ & ->). unfold slot_ok. cbn. rewrite E2.
    split_and!; try done; by left.
Qed.

Lemma new_link_ok g p w n i d : link_ok g p w n i d new_link.
Proof. split; cbn; [lia|by intros m ?%elem_of_nil|done..]. Qed.

(** A commit position that a proposer has is behind the votes to come. *)
Lemma committed_backed g p pr q :
  proc_ok g p pr → 0 < commitLsn (pr_wp pr) → (∀ v, v ∈ votes g → v_prop v ≠ q) → backed g q.
Proof.
  intros Hp Hc Hv. destruct (wo_commit _ _ _ _ _ _ (po_out _ _ _ Hp)) as [?|(_ & th & He & Hl & Q & HQ & Hk)]; [lia|].
  exists (MkLeader p (propTerm (pr_wp pr)) th), (commitLsn (pr_wp pr)), Q. split_and!; [done..|]. intros v Hin Ep. by destruct (Hv v).
Qed.

Lemma start_step g c p cfg tenant timeline mine b c' :
  cluster_ok g c → start addr L p cfg tenant timeline mine b c = Some c' → leads_to g c'.
Proof.
  intros Hc. unfold start. destruct (procs c p) eqn:Hp; [done|]. destruct (WalProposerCreate cfg tenant timeline mine) as [w|e|] eqn:Ec; [|done..].
  destruct (_ && _) eqn:Eg; [|done]. intros [= <-]. apply andb_true_iff in Eg as [[Hgen Hnd%bool_decide_eq_true]%andb_true_iff Hr].
  pose proof Hc as [C1 C2 C3 C4 C5 C6 C7].
  assert (∀ v, v ∈ votes g → v_prop v ≠ p) as Hv by (intros v Hin E'; by destruct (C5 v Hin); rewrite E').
  assert (∀ e, e ∈ elected g → l_prop e ≠ p) as Hne by (intros e He E'; by destruct (C6 e He); rewrite E').
  assert (proc_ok g p (MkProc w true (sk_addr addr <$> safekeeper w))) as Hpr.
  { eapply created_proc; try done. apply orb_true_iff in Hr as [Hr|Hr]; [left; lia|right].
    destruct (procs c b) as [pr|] eqn:Hb; [|done]. apply (committed_backed g b pr); [by apply C3|lia|done]. }
  apply stays. split; cbn; [done|done|..]; try (intros x Hx; unfold upd; case_decide; [done|by auto]).
  - intros q pr. unfold upd. case_decide as Eq; [|by apply C3]. by intros [= <-]; subst.
  - intros q pr i d n. unfold upd. case_decide as Eq; [subst; rewrite bool_decide_true by done; intros; apply new_link_ok|].
    rewrite bool_decide_false by done. by apply C4.
  - done.
Qed.

Lemma rebase p w0 g w : wp_out p w0 g w → wp_out p w g w.
Proof. intros [O1 O2 O3 O4 O5]. by split. Qed.

(** The world after a run of proposer [p]. *)
Lemma elects_grow g t g' p :
  invariant g → elects conf Hconf p L g t g' →
  rtc (step L) g g' ∧ (∀ n, accs g' n = accs g n) ∧ votes g' = votes g ∧ ∀ e, e ∈ elected g' → e ∈ elected g ∨ l_prop e = p.
Proof.
  intros Hg [->|[(th & ->) Hs]]; [split_and!; try done; by left|]. split_and!; [by apply rtc_once|done|done|].
  cbn. intros e [->|He]%elem_of_cons; [by right|by left].
Qed.

Lemma proposer_step g g' c p w nodes w' alive n :
  cluster_ok g c → procs c p = Some (MkProc w true nodes) → elects conf Hconf p L g (propTerm w) g' →
  wp_out p w g' w' → (alive = true → wp_inv p nodes g' n w') → cluster_ok g' (set_proc p (MkProc w' alive nodes) c).
Proof.
  intros [C1 C2 C3 C4 C5 C6 C7] Hp Hel Ho Hi. destruct (elects_grow g (propTerm w) g' p C1 Hel) as (Hst & Ha & Ev & Hnew).
  destruct (steps_mono g g' Hst) as (V & El & K). split; cbn.
  - by apply (steps_invariant g).
  - intros m. by apply (rel_mono m g); [apply Ha|..].
  - intros q pr. unfold upd. case_decide as Eq; cycle 1.
    { intros Hq. apply (proc_grow g g' q pr Hst C1); [|by apply C3]. intros e He Ep. destruct (Hnew e He) as [?|?]; [done|congruence]. }
    intros [= <-]. subst q. destruct (C3 p _ Hp) as [P1 P2 P3 P4]. cbn in *. pose proof (wo_since _ _ _ _ _ _ Ho) as (Ecfg & _). split; cbn.
    + done.
    + by apply (rebase p w).
    + intros m Hal. destruct (Hi Hal) as [I1 I2 I3 I4 I5 I6 I7 I8 I9 I10 I11 I12]. split; try done. by intros x ?%elem_of_nil.
    + rewrite Ecfg. destruct P4 as [?|?]; [by left|right]. by apply (backed_steps g).
  - intros q pr i d m. unfold upd. case_decide as Eq; [|intros Hq Hm; apply (link_grow g g'); [done..|by apply (C4 q pr)]].
    intros [= <-] Hm. subst q. cbn in *. apply (link_since g' p w); [apply Ho|]. apply (link_grow g g'); [done..|]. by apply (C4 p (MkProc w true nodes)).
  - intros v Hv. rewrite Ev in Hv. unfold upd. case_decide; [done|by apply C5].
  - intros e He. unfold upd. case_decide; [done|]. destruct (Hnew e He) as [?|?]; [by apply C6|done].
  - intros info Hin. apply (info_grow g g'); auto.
Qed.

Lemma redo_safe g p pr : invariant g → proc_ok g p pr → redo_ok conf p L g (redo_start_lsn (config (pr_wp pr))).
Proof. intros Hg [_ _ _ [Er|Hb]]; [by intros Q t _ _|by apply backed_redo]. Qed.

(** What the reads of a run give. *)
Lemma reads_ok g c p w nodes e reads inbox :
  cluster_ok g c → procs c p = Some (MkProc w true nodes) →
  read_inbox p w e reads c = Some inbox →
  ∃ n, (∀ i, entry_slot e = Some i → nodes !! i = Some n) ∧ ∀ m, ReadMsg m ∈ inbox → reply_ok p g w n m.
Proof.
  intros Hc Hp. unfold read_inbox. destruct (entry_slot e) as [i|] eqn:Ei; cycle 1.
  { intros [= <-]. exists 0. split; [done|]. by intros m ?%elem_of_nil. }
  destruct (safekeeper w !! i) as [s|] eqn:Es; [|done]. cbn. intros [= <-].
  pose proof (wi_nodes _ _ _ _ _ _ _ _ (po_inv _ _ _ (co_procs _ _ Hc p _ Hp) 0 eq_refl)) as En. cbn in En.
  assert (nodes !! i = Some (sk_addr addr s)) as Hn by (by rewrite <-En, list_lookup_fmap, Es).
  exists (sk_addr addr s). split; [by intros j [= ->]|]. intros m (f & Ef & _)%list_elem_of_fmap. unfold fetch in Ef.
  destruct f as [k| |]; [|done..]. destruct (lk_sent (links c (p, i, conn s)) !! k) as [m'|] eqn:Em; [|done]. injection Ef as <-.
  apply (lo_sent _ _ _ _ _ _ _ (co_links _ _ Hc p _ i (conn s) _ Hp Hn)), list_elem_of_lookup. by exists k.
Qed.

Lemma run_step g c p wal_read e io reads c' :
  cluster_ok g c → run p wal_read e io reads c = Some c' → leads_to g c'.
Proof.
  intros Hc. unfold run. destruct (procs c p) as [[w [] nodes]|] eqn:Hp; [|done..].
  destruct (read_inbox p w e reads c) as [inbox|] eqn:Ein; [|done]. cbn.
  destruct (reads_ok g c p w nodes e reads inbox Hc Hp Ein) as (n & Hn & Hrd). set (w1 := set_inbox inbox (set_io io w)).
  pose proof (co_procs _ _ Hc p _ Hp) as Hpr. pose proof Hpr as [P1 P2 P3 P4]. cbn in *.
  assert (wp_out p w g w1) as Ho by (by destruct P2).
  assert (wp_inv p nodes g n w1) as Hi by (by destruct (P3 n eq_refl); split).
  assert (wp (enter wal_read e) (ends_with conf Hconf addr p nodes n L w g w1) w1) as Hw.
  { destruct e as [ev rc to sil| |endpos]; cbn.
    - apply (poll_ends conf Hconf addr p nodes P1 n L fresh start_above w); [apply Hc|by apply (redo_safe g p _ (co_world _ _ Hc) Hpr)| |done|done].
      destruct ev as [[i ev]|]; [by apply Hn|done].
    - apply ends_same; [by apply keep_ends, keep_start|done|done].
    - apply ends_same; [by apply keep_ends, keep_wal_broadcast|done|done]. }
  unfold wp in Hw. destruct (enter wal_read e w1) as [r w'] eqn:Ee. cbn in *. destruct Hw as (g' & Hel & Ho' & Hi'). intros [= <-].
  exists g'. destruct (elects_grow g (propTerm w) g' p (co_world _ _ Hc) Hel) as (Hst & _). split; [done|].
  apply (proposer_step g g' c p w nodes w' _ n Hc Hp Hel Ho'). destruct r as [u| |]; [|done..]. intros _. by apply (Hi' u).
Qed.

(** * The invariant of the cluster *)

Lemma cluster_step g c c' : cluster_ok g c → cstep c c' → leads_to g c'.
Proof.
  intros Hc [x c1 Hx|n s Hr]; [|by apply crash_step]. destruct x; cbn [act] in Hx.
  - by eapply start_step.
  - by eapply run_step.
  - by eapply deliver_step.
  - by eapply tick_step.
  - by eapply disconnect_step.
  - by eapply feedback_step.
  - by eapply publish_step.
  - by eapply hear_step.
  - injection Hx as <-. by apply request_step.
Qed.

Lemma cluster_steps g c c' : cluster_ok g c → rtc cstep c c' → leads_to g c'.
Proof.
  intros Hc Hs. revert g Hc. induction Hs as [c|c1 c2 c3 H12 _ IH]; intros g Hc; [by apply stays|].
  destruct (cluster_step g c1 c2 Hc H12) as (g1 & S1 & Hc1). destruct (IH g1 Hc1) as (g2 & S2 & Hc2). exists g2. split; [by etrans|done].
Qed.

Lemma created_rel n self : created (E := E) conf L inv pending fresh n self → sk_rel n (initial L fresh) self.
Proof.
  intros (s & ttid & c & info & now & C0 & W0 & Enew & Hm & Esz & Hver & Ec & Ed & Hi & Hp & Hf & Eself).
  unfold SafeKeeper.new in Eself. case_match; [done|]. injection Eself as <-.
  unfold TimelinePersistentState.new in Enew. destruct (wal_seg_size info =? 0); [done|].
  destruct (pg_version info =? UNKNOWN_SERVER_VERSION); [done|]. destruct (_ <? _); [done|]. injection Enew as Es.
  pose proof start_pos as HL. assert (state_ok s) as Hok.
  { subst s. split; cbn; [destruct fresh; lia|destruct fresh; lia|done|done]. }
  split; [done|]. unfold SafeKeeper.ps, SafeKeeper.mem, disk_state, TimelineState.deref. cbn. unfold TimelineState.deref. cbn.
  rewrite Ec, Ed.
  assert (flush_of s W0 = if fresh then 0 else L) as Ef by (subst s; unfold flush_of; cbn; destruct fresh; lia).
  split; rewrite ?Ef; try done; subst s; cbn.
  - f_equal. unfold hist. cbn. destruct fresh; [done|]. cbn. unfold Lsn.INVALID. by rewrite (proj2 (Z.eqb_neq L 0)) by lia.
  - destruct fresh; lia.
  - by split.
  - congruence.
  - destruct fresh; (split; [by (left + right)|done]).
  - destruct fresh; lia.
  - left. destruct fresh; lia.
  - by left.
Qed.

Lemma cinit_ok c : cinit (E := E) conf L inv pending fresh c → cluster_ok (initial L fresh) c.
Proof.
  intros (Hs & Hp & Hi). split.
  - apply initial_invariant.
  - intros n. by apply created_rel.
  - intros p pr Ep. by rewrite Hp in Ep.
  - intros p pr i d n Ep. by rewrite Hp in Ep.
  - by intros v ?%elem_of_nil.
  - by intros v ?%elem_of_nil.
  - rewrite Hi. by intros info ?%elem_of_nil.
Qed.

(** * Safety *)

Definition running (c : CL) (p : nat) (w : WalProposer.t) : Prop := ∃ nodes, procs c p = Some (MkProc w true nodes).

(** Two states of a run, with the worlds of the abstract protocol. *)
Lemma worlds c0 c1 c2 :
  cinit (E := E) conf L inv pending fresh c0 → rtc cstep c0 c1 → rtc cstep c1 c2 →
  ∃ g1 g2, rtc (step L) g1 g2 ∧ cluster_ok g1 c1 ∧ cluster_ok g2 c2.
Proof.
  intros H0' H01 H12. destruct (cluster_steps _ c0 c1 (cinit_ok c0 H0') H01) as (g1 & _ & Hc1).
  destruct (cluster_steps g1 c1 c2 Hc1 H12) as (g2 & Hs & Hc2). by exists g1, g2.
Qed.

Lemma running_leads g c p w :
  cluster_ok g c → running c p w → state w = WPS_ELECTED → MkLeader p (propTerm w) (propTermHistory w) ∈ elected g.
Proof. intros Hc (nodes & Hp) Hst. exact (proj1 (wi_leads _ _ _ _ _ _ _ _ (po_inv _ _ _ (co_procs _ _ Hc p _ Hp) 0 eq_refl) Hst)). Qed.

Lemma running_committed g c p w :
  cluster_ok g c → running c p w → commitLsn w ≠ 0 → committed g (MkLeader p (propTerm w) (propTermHistory w)) (commitLsn w).
Proof.
  intros Hc Hr Hn. pose proof Hr as (nodes & Hp). pose proof (po_out _ _ _ (co_procs _ _ Hc p _ Hp)) as Ho. cbn in Ho.
  destruct (wo_commit _ _ _ _ _ _ Ho) as [?|(_ & th & Hcom)]; [done|]. pose proof Hcom as (He & _).
  destruct (wo_leader _ _ _ _ _ _ Ho _ He eq_refl) as [Hst _]. pose proof (running_leads g c p w Hc Hr Hst) as He'.
  destruct (i_leader_once _ _ _ (co_world _ _ Hc) _ _ He He' eq_refl). done.
Qed.

(** The positions that a safekeeper takes for committed are, in its log. *)
Lemma sk_committed g c n :
  cluster_ok g c → log_committed conf Hconf L g (SafeKeeper.get_term_history (sks c n)) (mem_commit_lsn (SafeKeeper.mem (sks c n))).
Proof.
  intros Hc. pose proof (co_sks _ _ Hc n) as Hs. destruct (rel_log conf Hconf L n g (sks c n) Hs) as [Elog Ef]. destruct Hs as [_ Hr].
  destruct (r_committed _ _ _ _ _ _ _ _ _ Hr) as [?|(e & c' & Hcom & Hle & Hag)]; [by left|right]. exists e, c'. split_and!; [done..|].
  intros l Hl. rewrite <-(Hag l Hl), Elog. destruct (r_commit _ _ _ _ _ _ _ _ _ Hr) as [_ Hfl].
  rewrite term_at_log; [by rewrite (r_acc _ _ _ _ _ _ _ _ _ Hr)|]. rewrite (r_acc _ _ _ _ _ _ _ _ _ Hr). cbn. lia.
Qed.

(** The byte at [l] of a log with history [th] is before the start of the timeline,
    or committed. *)
Definition settled (g : G) (th : TermHistory.t) (l : Lsn) : Prop :=
  (l < L ∧ term_at th l = None) ∨ ∃ e c, committed g e c ∧ l < c ∧ term_at th l = term_at (l_hist e) l.

Lemma settled_mono g g' th l : rtc (step L) g g' → settled g th l → settled g' th l.
Proof.
  intros Hs. destruct (steps_mono g g' Hs) as (_ & El & K). intros [?|(e & c & Hc & ?)]; [by left|right].
  exists e, c. split; [by apply (committed_mono conf Hconf g)|done].
Qed.

Lemma settled_agree g th th' l : invariant g → settled g th l → settled g th' l → term_at th l = term_at th' l.
Proof.
  intros Hg. assert (∀ e c, committed g e c → l < L → term_at (l_hist e) l = None) as Hb.
  { intros e c (He & _) Hl. apply (term_at_before L fresh g); [done| |done]. right. by exists e. }
  intros [[Hl ->]|(e & c & Hc & Hl & ->)] [[Hl' ->]|(e' & c' & Hc' & Hl' & ->)].
  - done.
  - symmetry. by apply (Hb e' c').
  - by apply (Hb e c).
  - by apply (committed_agree L fresh start_above g e c e' c').
Qed.

Lemma sk_log_known g c n : cluster_ok g c → SafeKeeper.get_term_history (sks c n) = [] ∨ known L fresh g (SafeKeeper.get_term_history (sks c n)).
Proof.
  intros Hc. destruct (rel_log conf Hconf L n g (sks c n) (co_sks _ _ Hc n)) as [-> _].
  destruct (a_log (accs g n)) as [|x th] eqn:El; [by left|right]. rewrite <-El.
  destruct (i_hist _ _ _ (co_world _ _ Hc) n) as (Hk & _). unfold a_log in *.
  destruct (up_to_prefix (a_hist (accs g n)) (a_flush (accs g n))) as (r & Er & _).
  apply (prefix_known L fresh g _ _ r (co_world _ _ Hc) Hk Er). by rewrite El.
Qed.

Lemma sk_settled g c n l : cluster_ok g c → l < mem_commit_lsn (SafeKeeper.mem (sks c n)) → settled g (SafeKeeper.get_term_history (sks c n)) l.
Proof.
  intros Hc Hl. destruct (sk_committed g c n Hc) as [Hle|(e & c' & Hcom & Hle & Hag)]; [|right; exists e, c'; split_and!; [done|lia|by apply Hag]].
  left. split; [lia|]. destruct (sk_log_known g c n Hc) as [->|Hk]; [done|]. apply (term_at_before L fresh g _ l (co_world _ _ Hc) Hk). lia.
Qed.

(** C3: At most one proposer is elected in a term: two proposers of the cluster that
    are elected in the same term, at any two moments of a run with crashes, lost
    messages and failures, are the same, with the same term history. *)
Theorem election_safety c0 c1 c2 p1 w1 p2 w2 :
  cinit (E := E) conf L inv pending fresh c0 → rtc cstep c0 c1 → rtc cstep c1 c2 →
  running c1 p1 w1 → running c2 p2 w2 → state w1 = WPS_ELECTED → state w2 = WPS_ELECTED → propTerm w1 = propTerm w2 →
  p1 = p2 ∧ propTermHistory w1 = propTermHistory w2.
Proof.
  intros H0' H01 H12 R1 R2 E1 E2 Et. destruct (worlds c0 c1 c2 H0' H01 H12) as (g1 & g2 & Hs & Hc1 & Hc2).
  pose proof (running_leads g1 c1 p1 w1 Hc1 R1 E1) as L1. pose proof (running_leads g2 c2 p2 w2 Hc2 R2 E2) as L2.
  destruct (steps_mono g1 g2 Hs) as (_ & El & _). by injection (i_leader_once _ _ _ (co_world _ _ Hc2) _ _ (El _ L1) L2 Et).
Qed.

(** C1: Committed WAL is never lost: whatever a proposer of the cluster has taken for
    committed is in the history of every proposer that is elected in that or a later
    term, at any later moment of the run. *)
Theorem committed_wal_is_kept c0 c1 c2 p1 w1 p2 w2 :
  cinit (E := E) conf L inv pending fresh c0 → rtc cstep c0 c1 → rtc cstep c1 c2 →
  running c1 p1 w1 → commitLsn w1 ≠ 0 → running c2 p2 w2 → state w2 = WPS_ELECTED → propTerm w1 ≤ propTerm w2 →
  contains (propTermHistory w2) (propTermHistory w1) (commitLsn w1).
Proof.
  intros H0' H01 H12 R1 Hn R2 E2 Et. destruct (worlds c0 c1 c2 H0' H01 H12) as (g1 & g2 & Hs & Hc1 & Hc2).
  pose proof (running_committed g1 c1 p1 w1 Hc1 R1 Hn) as Hcom. pose proof (running_leads g2 c2 p2 w2 Hc2 R2 E2) as L2.
  destruct (steps_mono g1 g2 Hs) as (_ & El & K).
  apply (leader_completeness L fresh start_above g2 _ _ _ (co_world _ _ Hc2) (committed_mono conf Hconf g1 g2 _ _ El K Hcom) L2 Et).
Qed.

(** C4: Committed WAL is durable on the safekeepers: at any later moment every quorum of
    the configuration has a safekeeper whose flushed log has everything up to the
    position that the proposer took for committed, in its history. *)
Theorem committed_wal_is_on_quorum c0 c1 c2 p w Q :
  cinit (E := E) conf L inv pending fresh c0 → rtc cstep c0 c1 → rtc cstep c1 c2 →
  running c1 p w → commitLsn w ≠ 0 → conf_quorum conf Q →
  ∃ n, n ∈ Q ∧ contains (acc_history (acceptor_state (SafeKeeper.ps (sks c2 n)))) (propTermHistory w) (commitLsn w) ∧
    commitLsn w ≤ SafeKeeper.flush_lsn (sks c2 n).
Proof.
  intros H0' H01 H12 R1 Hn HQ. destruct (worlds c0 c1 c2 H0' H01 H12) as (g1 & g2 & Hs & Hc1 & Hc2).
  destruct (steps_mono g1 g2 Hs) as (_ & El & K). pose proof (co_world _ _ Hc2) as Hg.
  pose proof (committed_mono conf Hconf g1 g2 _ _ El K (running_committed g1 c1 p w Hc1 R1 Hn)) as Hcom.
  pose proof Hcom as (He & (s & Es & Hle) & Q' & HQ' & Hk). destruct (quorum_meet Q' Q HQ' HQ) as (a & Ha' & Ha).
  destruct (Hk a Ha') as (k & Hin & <- & Et & Hc). exists (k_acc k). split; [done|].
  destruct (i_ack _ _ _ Hg k Hin) as [_ Hkept]. destruct (Hkept _ s (commitLsn w) He) as [Hct Hf]; [done|done|lia| |].
  { intros e' He' Hlt. apply (leader_completeness L fresh start_above g2 _ _ _ Hg Hcom He'). rewrite <-Et. lia. }
  pose proof (co_sks _ _ Hc2 (k_acc k)) as [_ Hr]. rewrite (r_acc _ _ _ _ _ _ _ _ _ Hr) in Hct, Hf. by split.
Qed.

(** C5: Safekeepers agree on what is committed: below the commit positions of two
    safekeepers, at any two moments of a run, their logs have the WAL of the same
    terms. *)
Theorem safekeepers_agree c0 c1 c2 n1 n2 l :
  cinit (E := E) conf L inv pending fresh c0 → rtc cstep c0 c1 → rtc cstep c1 c2 →
  l < mem_commit_lsn (SafeKeeper.mem (sks c1 n1)) → l < mem_commit_lsn (SafeKeeper.mem (sks c2 n2)) →
  term_at (SafeKeeper.get_term_history (sks c1 n1)) l = term_at (SafeKeeper.get_term_history (sks c2 n2)) l.
Proof.
  intros H0' H01 H12 Hl1 Hl2. destruct (worlds c0 c1 c2 H0' H01 H12) as (g1 & g2 & Hs & Hc1 & Hc2).
  apply (settled_agree g2); [apply Hc2|apply (settled_mono g1); [done|]|]; by apply sk_settled.
Qed.
End cluster.
