(* ===== verification/ClusterRuns.v ===== *)
(** A run of a cluster of three safekeepers, with their control files and disks, and
    two proposers: the first commits a record, the second takes over. *)

From S2P Require Import Prelude Text Lsns Membership TermHistories Feedbacks WalDecoders SkStates WalStorages WalEndFacts WalStorageFacts WalDiskFacts WalStorageSafety.
From S2P Require Import SafeKeepers SafeKeeperFacts SafeKeeperRuns WalProposers Consensus ProposerInv AcceptorRel PhysicalLogs Clusters ClusterFacts.
From stdpp Require Import gmap.
Local Open Scope Z_scope.

#[local] Existing Instance example_layout.
#[local] Existing Instance example_layout_laws.
#[local] Instance run_store : WalStore PhysicalStorage.t WalError := physical_store example_segment.
#[local] Instance run_store_laws : WalStoreLaws PhysicalStorage.t WalError store_inv := physical_store_laws example_segment.

(** * The beginning *)

Definition run_conf : Configuration := MkConfiguration 1 [MkSafekeeperId 1 [97] 1; MkSafekeeperId 2 [98] 1; MkSafekeeperId 3 [99] 1] None.
Definition run_start : Lsn := 40.

(** Hosts are called a, b and c. *)
Definition run_addr (hp : bytes * bytes) : Z := match hp.1 with [x] => x - 96 | _ => 0 end.

Definition run_server : ServerInfo := MkServerInfo 170000 7 WAL_SEGMENT_SIZE.
Definition run_state : TimelinePersistentState :=
  MkPersistent (replicate 16 1) (replicate 16 2) run_conf (MkAcceptorState 0 []) run_server (replicate 16 0) 0 0 0 0 0 0 [] Present 0.
Definition run_disk : Disk := MkDisk (λ _, 0) (λ _, 0) ∅.
Definition run_wal : PhysicalStorage.t :=
  PhysicalStorage.Mk WAL_SEGMENT_SIZE 0 0 0 0 (WalStreamDecoder.new 0) false true run_disk [].

Abbreviation CL := (@Cluster FileStorage.t PhysicalStorage.t).

Definition run_sk (n : Z) : SafeKeeper.t FileStorage.t PhysicalStorage.t :=
  SafeKeeper.Mk 0 (TimelineState.new (FileStorage.restore_new run_state [])) run_wal n.
Definition run0 : CL := MkCluster run_sk (λ _, None) (λ _, new_link) [].

(** * The actions *)

(** [g#1:a:1,b:1,c:1] *)
Definition run_config (redo : Lsn) : WalProposerConfig :=
  MkConfig (replicate 16 1) (replicate 16 2) [103;35;49;58;97;58;49;44;98;58;49;44;99;58;49] WAL_SEGMENT_SIZE false 7 3 170000 redo 40 24 false.

Definition hs0 : HotStandbyFeedback := HotStandbyFeedback_empty.
(** The record between 40 and 72. *)
Definition run_read (l n : Z) : bytes := example_record.

Definition poll (p i : nat) (reads : list Fetch) : Action :=
  ARun p run_read (EPoll (Some (i, WalProposer.MkEvents true true false)) false false []) [] reads.
Definition take_message (p i : nat) : Action := ADeliver (p, i, 1%nat) hs0.

(** Connecting to slot [i], and the greeting. *)
Definition greet (p i : nat) : list Action := [poll p i [FAgain]; poll p i [FAgain]; take_message p i; poll p i [FMessage 0]].

(** The votes of two safekeepers, the announcement to both. *)
Definition campaign (p : nat) (redo : Lsn) : list Action :=
  [AStart p (run_config redo) (replicate 16 1) (replicate 16 2) 0 0; ARun p run_read EStart [] []] ++ greet p 0 ++ greet p 1 ++
  [take_message p 0; take_message p 1; poll p 0 [FMessage 1]; poll p 1 [FMessage 1]].

(** WAL up to 72, flushed and acknowledged. *)
Definition stream (p i : nat) : list Action :=
  [take_message p i; take_message p i; take_message p i; ATick (p, i, 1%nat) hs0; poll p i [FMessage 2]].

Abbreviation run_acts := (acts (E := WalError) run_conf run_addr run_start).

(** Proposer 0 commits the record; safekeepers tell each other. *)
Definition run1_actions : list Action :=
  campaign 0 40 ++ [ARun 0 run_read (EBroadcast 72) [] []] ++ stream 0 0 ++ stream 0 1 ++
  [take_message 0 0; take_message 0 0; take_message 0 1; APublish 1 0; AHear 2 0].
(** Proposer 1 is elected after it, with a basebackup at 72. *)
Definition run2_actions : list Action := campaign 1 72.

Abbreviation run_step := (cstep (C := FileStorage.t) (W := PhysicalStorage.t) (E := WalError) run_conf run_addr run_start reopened).

Lemma acts_steps l c c' : run_acts l c = Some c' → rtc run_step c c'.
Proof.
  revert c. induction l as [|x l IH]; intros c; [intros [= <-]; constructor|]. cbn.
  destruct (act _ _ _ x c) as [c1|] eqn:E; [|done]. cbn. intros Hl. eapply rtc_l; [by eapply cs_act|by apply IH].
Qed.

Lemma run_conf_ok : conf_ok run_conf.
Proof. split; [done|split; [apply (bool_decide_unpack (NoDup (sk_id <$> members run_conf))); by vm_compute|split; [done|unfold MAX_SAFEKEEPERS; cbn; lia]]|split; [by constructor|unfold MAX_SAFEKEEPERS; cbn; lia]|by vm_compute]. Qed.

Lemma run_openable : openable run_state run_disk.
Proof. split; [done|by eexists|cbn; unfold LSN_LIMIT; lia|]. intros k [x Hx]. done. Qed.

Lemma run0_init : cinit (E := WalError) run_conf run_start store_inv unflushed_records true run0.
Proof.
  split_and!; [|done|done]. intros n.
  exists run_state, (replicate 16 1, replicate 16 2), run_conf, run_server, 0, (FileStorage.restore_new run_state []), run_wal.
  pose proof (new_spec run_state run_disk [] [] run_openable) as Hn. change (PhysicalStorage.new run_state run_disk [] []) with (Ok (E := WalError) run_wal) in Hn.
  destruct Hn as (Hi & Hs & _). split_and!; try done; by left.
Qed.

Definition run1 : CL := default run0 (run_acts run1_actions run0).
Definition run2 : CL := default run0 (run_acts run2_actions run1).

Definition wp_of (c : CL) (p : nat) : WalProposer.t :=
  match procs c p with Some pr => pr_wp pr | None => pr_wp (MkProc (WalProposer.Mk (run_config 0) WPS_COLLECTING_TERMS run_conf [] [] 0 0 [] 0 0
    (MkProposerGreeting [] [] run_conf 0 0 0) (MkVoteRequest 0 0) 0 0 [] 0 0 None 0 0 None [] [] []) false []) end.

Lemma is_some_default {A} (o : option A) d : (if o then true else false) = true → o = Some (default d o).
Proof. by destruct o. Qed.

Lemma run01 : rtc run_step run0 run1.
Proof. apply (acts_steps run1_actions). apply is_some_default. by vm_compute. Qed.
Lemma run12 : rtc run_step run1 run2.
Proof. apply (acts_steps run2_actions). apply is_some_default. by vm_compute. Qed.

Lemma running_of (c : CL) p : match procs c p with Some pr => pr_alive pr | None => false end = true → running c p (wp_of c p).
Proof. unfold running, wp_of. destruct (procs c p) as [[w [] nodes]|]; [|done..]. intros _. by exists nodes. Qed.

Lemma run1_running : running run1 0 (wp_of run1 0).
Proof. apply running_of. by vm_compute. Qed.
Lemma run2_running : running run2 1 (wp_of run2 1).
Proof. apply running_of. by vm_compute. Qed.

Lemma run_start_ok : 0 < run_start < LSN_LIMIT.
Proof. unfold run_start, LSN_LIMIT. lia. Qed.

(** * What the theorems say of it *)

Lemma committed_wal_is_kept_witness :
  WalProposer.commitLsn (wp_of run1 0) = 72 ∧
  contains (WalProposer.propTermHistory (wp_of run2 1)) (WalProposer.propTermHistory (wp_of run1 0)) (WalProposer.commitLsn (wp_of run1 0)).
Proof.
  split; [by vm_compute|].
  apply (committed_wal_is_kept (pending := unflushed_records) run_conf run_conf_ok run_addr run_start true run_start_ok reopened (reopened_laws example_segment)
    run0 run1 run2 0 (wp_of run1 0) 1 (wp_of run2 1));
    [apply run0_init|apply run01|apply run12|apply run1_running|by vm_compute|apply run2_running|by vm_compute|by vm_compute].
Defined.

Lemma election_safety_witness :
  WalProposer.propTerm (wp_of run1 0) = 1 ∧
  0%nat = 0%nat ∧ WalProposer.propTermHistory (wp_of run1 0) = WalProposer.propTermHistory (wp_of run2 0).
Proof.
  split; [by vm_compute|].
  apply (election_safety (pending := unflushed_records) run_conf run_conf_ok run_addr run_start true run_start_ok reopened (reopened_laws example_segment)
    run0 run1 run2 0 (wp_of run1 0) 0 (wp_of run2 0));
    [apply run0_init|apply run01|apply run12|apply run1_running|apply running_of; by vm_compute|by vm_compute..].
Defined.

Lemma run_quorum : conf_quorum run_conf {[2; 3]}.
Proof. split; [by vm_compute|done]. Qed.

Lemma committed_wal_is_on_quorum_witness :
  ∃ n, n ∈ ({[2; 3]} : gset Z) ∧
    contains (acc_history (acceptor_state (SafeKeeper.ps (sks run2 n)))) (WalProposer.propTermHistory (wp_of run1 0)) (WalProposer.commitLsn (wp_of run1 0)) ∧
    WalProposer.commitLsn (wp_of run1 0) ≤ SafeKeeper.flush_lsn (sks run2 n).
Proof.
  apply (committed_wal_is_on_quorum (pending := unflushed_records) run_conf run_conf_ok run_addr run_start true run_start_ok reopened (reopened_laws example_segment)
    run0 run1 run2 0 (wp_of run1 0) {[2; 3]});
    [apply run0_init|apply run01|apply run12|apply run1_running|by vm_compute|apply run_quorum].
Defined.

Lemma safekeepers_agree_witness :
  term_at (SafeKeeper.get_term_history (sks run1 1)) 50 = Some 1 ∧
  term_at (SafeKeeper.get_term_history (sks run1 1)) 50 = term_at (SafeKeeper.get_term_history (sks run2 2)) 50.
Proof.
  split; [by vm_compute|].
  apply (safekeepers_agree (inv := store_inv) (pending := unflushed_records) run_conf run_conf_ok run_addr run_start true run_start_ok reopened (reopened_laws example_segment)
    run0 run1 run2 1 2 50); [apply run0_init|apply run01|apply run12|by vm_compute|by vm_compute].
Defined.
